(* ===== verification/_CoqProject ===== *)
-Q . S2P
Prelude.v
Words.v
Doubles.v
Types.v
Instr.v
RuntimeList.v
Tuple.v
SimpleTuple.v
Trie.v
TupleTrie.v
Match.v
TrieLookup.v
Aggregate.v
Heap.v
Pqueues.v
RuleMatcher.v
Node.v
Exec.v
LinearQueue.v
DoubleQueue.v
BoundedQueue.v
Externals.v
Router.v
World.v
Serial.v
Interp.v
Sample.v
Frame.v
RuleEngine.v
RuleMarks.v
RunNode.v
SerialLoop.v
Loader.v
LoaderFormat.v
Printer.v
Dump.v
Linker.v
LinkerFormat.v
Boot.v
Fuel.v
Threads.v
ThreadsEnd.v
ThreadsQuiet.v
ThreadsRace.v
Prio.v
PrioPlan.v
PrioRun.v
TreeBarrier.v
Tokens.v
Safra.v
Pool.v
Sim.v
SimFacts.v
SimRun.v
SimTuples.v
Mock.v
MockRun.v
MockEcho.v
MockTalk.v
