(* ===== verification/Prelude.v ===== *)
(** * A verification of meldtools: the forward-chaining virtual machine of Meld

    The program under [src/predicates] runs Meld programs: every node of a graph
    keeps tuples (facts) of typed fields, and byte code compiled from rules derives
    new tuples from them, locally and at other nodes.  This library models the
    virtual machine from machine words up to a whole run on one thread, and proves
    its parts correct.

    ** How the code is modelled

    A C++ function becomes a Rocq function of the same name.  One that changes an
    object takes and returns it; one that may throw, fail an [assert] or do
    something undefined returns [res] (below), whose errors say which of these
    happened.  Asserts are checked: the code is modelled as built without NDEBUG.
    Machine integers are Z with [wrap] and [swrap] where the code's width shows;
    doubles are their 64 bits, decoded to the binary floats of [SpecFloat].  Heap
    objects whose sharing matters (list cells, strings, queue nodes) live in a
    store, a finite map from addresses; objects owned by one pointer are values.

    ** The files, from the bottom up

    - [Prelude]: failures and the error monad, machine integers, list exchange,
      the tactics and hints the other files share.
    - [Words]: [vm/defs.hpp], [utils/serialization.hpp], [utils/utils.hpp],
      [utils/interval.hpp], [utils/atomic.hpp]: the 64 bits of a [tuple_field] and
      its accessors, doubles, pack and unpack, powers of two; [Doubles]: the numbers
      that 64 bits denote, and that addition rounds to one of them.
    - [Types]: [vm/types.*], [vm/predicate.*]: field types, and predicates read from
      their 104-byte descriptors with the layout of their fields.
    - [Instr]: [vm/instr.*]: instruction and operand codes, every accessor of the
      byte code, operand sizes, [advance], the printing of operands.
    - [RuntimeList]: [runtime/list.hpp], [runtime/string.hpp]: reference-counted
      lists and strings in a store.
    - [Tuple]: [vm/tuple.*]: tuples over a memory of lists and strings.
    - [SimpleTuple]: [db/tuple.*]: tuples with their derivation counts.
    - [Trie]: the nodes and hash tables of [db/trie.*]: the walk of [check_insert],
      the growth of tables, [delete_path].
    - [TupleTrie]: the trie objects of [db/trie.*] over the class of what a leaf
      holds: insertion, deletion with its delayed commit, [basic_invariants].
    - [Match]: [vm/match.hpp], partial tuples.
    - [TrieLookup]: [delete_by_index] and [match_predicate(match)] of [db/trie.*].
    - [Aggregate]: [db/agg_configuration.*], [db/tuple_aggregate.*]: the groups of an
      aggregate, the eight generators and the changes [generate] emits.
    - [Heap]: [queue/heap_implementation.hpp], the binary heap over the class of the
      vectors it works on.
    - [Pqueues]: [queue/safe_simple_pqueue.hpp], [queue/safe_complex_pqueue.hpp]:
      the priority queues built on the heap.
    - [LinearQueue], [DoubleQueue], [BoundedQueue]: the other queues of [queue/]:
      linked queues, the lock-free queue as a step relation over the reads and
      compare-and-sets of its threads and the allocator that hands freed nodes out
      again, intrusive double queues, and the tree of counters over bins, against the
      class of a FIFO bin.
    - [RuleMatcher]: [vm/rule.hpp], [vm/rule_matcher.*] and the loader's linking of
      rules: counts of tuples per rule, the active and dropped rules.
    - [Node]: [db/node.*], [db/database.*]: the tries, aggregates and matcher of a
      node, and the nodes of the database.
    - [Exec]: the registers, operands, moves, operators and matches of
      [vm/exec.cpp], over the part of [vm/state.hpp] that they use, in a monad.
    - [Externals]: [external/], [vm/external.*]: the 38 external functions.
    - [Router]: [process/remote.*], [process/router.*]: which machine and thread a
      node belongs to.
    - [World]: the whole state of a run, [vm/state.hpp], as a record over the state
      of any scheduler (the class [scheduler], from [sched/base.hpp]) in a monad
      [run]; counted tuples at addresses; the actions and routes of
      [process/machine.cpp].
    - [Serial]: [sched/serial.*] and its nodes, an instance of [scheduler].
    - [Interp]: the rest of [vm/exec.cpp]: sends, ITERATE, REMOVE, DELETE, calls,
      new axioms, the loop of [execute] and its entries.
    - [RuleEngine]: the rest of [vm/state.cpp], up to [run_node].
    - [SerialLoop]: [sched/base.cpp], [sched/common.*]: the loop of the scheduler,
      the end of an iteration, and [machine_start], the whole engine on one thread.
    - [Sample]: a program of two predicates and a rule, on which the witnesses of
      the engine run.
    - [Frame], [RuleMarks], [RunNode], [Fuel]: theorems about the engine.
    - [Loader]: [vm/program.*], [vm/import.hpp]: the constructor that loads a byte
      code file, as a reader over its bytes that, like the code, never looks at the
      state of the stream: a variable is what is known of it, and the use of one that
      was not written is undefined; and data files; [LoaderFormat]: a writer
      of such files and that the loader and the database read what it wrote; [Boot]:
      the loaded program as the engine's, and a run from a file's bytes to a fact.
    - [Printer]: [instr_print] of [vm/instr.cpp], which prints code and, where that is
      allowed, changes the identifiers in it; [Dump]: the text of a program and the
      predicates its parts depend on, of [vm/program.cpp] and [vm/rule.cpp]; [Linker]: [merge.cpp] at the root of the
      sources, the program that links a program with those it imports, as steps that
      read one file, copy and write; [LinkerFormat]: the file it writes, as the file
      of one program.
    - [Threads]: [thread/static.*], [sched/thread/threaded.hpp] and
      [termination_barrier.hpp]: the scheduler of several threads as a step of one
      thread between two accesses to shared state, over the nodes of [Serial];
      [ThreadsEnd], [ThreadsQuiet]: its invariants; [ThreadsRace]: its runs.
    - [Prio]: [thread/prio.*], [sched/nodes/thread_intrusive.hpp]: one thread of the
      scheduler of compiled priorities, over the nodes of [Serial] and the intrusive
      heap; [PrioPlan]: the plan it follows; [PrioRun]: its steps and what they give.
    - [TreeBarrier]: [utils/tree_barrier.hpp], the barrier the threads meet at, as steps
      between its shared accesses.
    - [Tokens]: [sched/mpi/token.hpp], [sched/mpi/tokenizer.*] and their messages in
      [process/router.cpp]: how machines find out together that they are done, as a
      system of machines; [Safra]: its invariant and its end.
    - [Pool]: [mem/], the pools of the threads, over a memory of bytes.
    - [Sim]: [sched/sim.*], [sched/nodes/sim.hpp], [queue/safe_general_pqueue.hpp]: the
      scheduler that an external simulator drives by messages: nodes with neighbours at
      their six faces, that run up to a time or in threads; [SimFacts]: what its
      operations do to one node; [SimRun]: its runs; [SimTuples]: its tuples and times.
    - [Mock]: [mock-simulator/], the simulator that tests it; [MockRun], [MockEcho],
      [MockTalk]: the two together: each message, a tuple there and back, and runs in
      which both and the engine act in any order.

    The engine is composed as in the code: [machine_start] runs the constants' code
    and then [loop], which gives the init tuple to every node ([init_node], through
    [new_work_self] and the scheduler's [new_work]) and calls [run_node] on what
    [get_work] answers; [run_node] takes the tuples of the node from the scheduler,
    inserts persistent ones into the node ([add_fact_to_node]), runs byte code
    ([execute_bytecode], [execute_rule]), whose sends go through [route] to the
    scheduler again, and keeps the rule queue by the node's matcher.

    ** What is proved

    - Invariants of the engine.  A run of byte code gives back the current tuple,
      the modes and the lists of the rule engine ([Frame.execute_restores]);
      [mark_active_rules] keeps the flags and the queue of rules equal
      ([RuleMarks.mark_active_rules_spec], with [next_rule_least]); [run_node] ends
      as it began, at rest ([RunNode.run_node_rests]); when the loop of the
      scheduler ends, its last round was counted, the nodes of the thread had neither
      tuples nor a place in line when it looked, and still have none
      ([SerialLoop.loop_ends_without_work]).
    - Refinements.  The serial scheduler implements a plan of one running node, a
      line of nodes and their tuples by level ([Serial.serial_refines]), in which no
      node starves ([Serial.waiting_node_runs]).  The scheduler of priorities
      implements a plan with a ranked map of nodes beside the line
      ([PrioRun.prio_refines], from the state [prio_init_ok] makes), never waits while
      there is work ([prio_get_work_complete]) and, with descending priorities, runs
      next what is scheduled next ([schedule_next_runs]; with ascending ones it goes
      last, [schedule_next_last]).  The intrusive priority queue
      implements a map from queued nodes to priorities, the double queue a list
      ([DoubleQueue.double_queue_refines], [pop_if_not_empty] with what it does to the
      last object included), the bounded queue a vector of FIFO bins.  A trie of tuples implements a finite map
      from keys to counted tuples ([TupleTrie.insert_tuple_refines],
      [TupleTrie.delete_tuple_refines], and on a node [Node.add_tuple_relation],
      [Node.delete_tuple_relation]); the key of a tuple is its list of values, lists
      by their elements and doubles as IEEE numbers.  The matcher keeps its active
      set exact ([RuleMatcher.register_tuple_refines]); the changes that an
      aggregate emits take an observer to its new value
      ([Aggregate.generate_deltas]).  All say that the call returns, that no
      assertion fails, and that the structure stays well formed.
    - Concurrency: the lock-free queue is FIFO under every interleaving, as long as no
      node is allocated again while a thread that is pushing has seen it as the tail
      ([LinearQueue.push_safe_fifo]); the pools do not see to that, and where they do
      not a push is lost ([recycled_node_loses_push]).  Its pushers never wait
      ([push_never_blocks]).  In
      every reachable state of the threads the barrier counts the active ones
      ([ThreadsQuiet.barrier_tells]) and they never all wait for each other
      ([no_deadlock]); when the leader ends the rounds nothing is left to do
      ([end_without_work]).  No thread leaves the tree barrier early
      ([TreeBarrier.tree_barrier_safe]) and all leave it ([tree_barrier_returns]).
      Machines are told the end only when none has work and no message is on its way
      ([Safra.safra_safe]), within three rounds of the token ([safra_ends]), by a tree
      of messages that has every machine ([ends_reach_all]).
    - Safety: giving up a reference to a list keeps every other list and all counts
      ([RuntimeList.dec_refs_safe]).  Blocks of the pools do not overlap and keep what
      is in them, whichever threads allocate and free ([Pool.center_refines]).
    - Searches: [match_predicate] ends and returns the leaves that agree with the
      exact fields, whatever the word is that it reads behind a hash table
      ([TrieLookup.match_predicate_ok]); they are those [do_matches] accepts, where it
      returns ([Exec.do_matches_agrees]); tuple equality decides equality of values.
    - Byte code: operand sizes agree between their classes, with the printer and
      with what the interpreter consumes ([Exec.get_op_moves]), and [advance] moves
      forward ([Instr.advance_progress]).
    - Files: what the writer writes is loaded as it was ([LoaderFormat.load_write]);
      any file that loads gives a well formed program ([Loader.load_ok]) and is read
      up to a definite byte, and cut before it gives none, though only for the use of a
      variable that was never written ([Loader.load_reads_prefix]); the database makes the nodes
      of its part of the file ([LoaderFormat.database_reads_nodes]); a data file takes
      over the end of the first rule ([Loader.add_data_file_ok]).
    - Linking: the walk over code renumbers every instruction once and nothing else
      ([Printer.instrs_print_relocates]); the linked file is loaded as the program
      that has the parts of all, with the code renumbered, if the imported programs
      have as many predicates as each other ([LinkerFormat.linker_loads]; the linker
      writes something else if not), and its numbers are those of the right predicates
      ([LinkerFormat.links_stand_for]).
    - The simulator: the facts about neighbours that a node is told agree with its faces
      in every run whose messages are polite ([SimRun.sim_facts]); a node takes the facts
      that are due in the order of time, unless one of a time past 2^31 blocks them, and
      of the retractions, whose heap has no type of its own, only due ones
      ([SimTuples.until_takes]).  Whatever the mock simulator, the scheduler and the
      engine do in between, every event of the simulator is read without an error and
      the scheduler then has the simulator's topology ([MockTalk.mock_topology], with
      both of its [main]s as runs up to their topology and end); a tuple that is
      sent to a neighbour through it arrives there ([MockEcho.echo_delivers]).
    - Every node id belongs to one thread of one machine ([Router.nodes_are_split]).
    - Behaviours that look unintended are stated as theorems too, next to the code
      they are about: among them a queued rule that [mark_active_rules] cannot drop
      ([RuleMarks.dropped_rule_not_found]), generated linear tuples that
      [execute_bytecode] drops ([RunNode.bytecode_drops_generated]), a node of the
      lock-free queue that is freed in use, a push that is lost to one that was
      allocated again, a move into the wrong register, delayed tuples
      that wait for the latest one ([SimTuples.delayed_waits]), a tuple that comes back to
      its sender ([MockEcho.stranger_comes_back]).

    ** Fuel

    A walk along a list has fuel for every cell of its store, which is enough for a
    list without a cycle ([RuntimeList.is_list_length]).  The walk of [check_insert]
    has two steps for each cell and one for each field ([Trie.stack_fuel], with
    [TupleTrie.stack_cost]); the search of [match_predicate] has four rounds for
    each node ([TrieLookup.match_run_ok]); heaps take the logarithm of their size as
    the code's loops do; the matches of ITERATE take at most the bytes of the code
    ([Instr.iter_matches_size_fuel]).  Running out is the error
    [undefined_behaviour], so the theorems that a call returns cover it.  Byte code
    and rules may run forever, so [execute], the loops of [run_node] and the loop of
    the scheduler take their bound as an argument, and what they return with one bound
    they return with every greater one ([Fuel.machine_fuel], of the model alone).

    ** What is a parameter

    [std::tr1::hash] of the three kinds of key: for integers any function, for
    doubles one that agrees on equal doubles.  The C library's functions on doubles
    and texts, the random generators and the words of files, one record
    [Externals.c_library] with no laws.  The functions that a program's own library
    adds to the table of external functions ([added]).  The scheduler, as the class
    [scheduler]; the bins of a bounded queue and the vectors of a heap, as classes
    with laws.  The program's table of predicates is a parameter of unpacking, and
    the text of a double one of the printers.  The addresses of functions in shared
    libraries ([dlopen], [dlsym]) are one of the loader.  [new] of the system is one of the pools.  Of the
    simulator, the times that are read, the order of pointers in a set of nodes, and what
    the members hold that are never set.  Of the lookups in tries, the words behind the
    hash tables, which they read.  Of the linker, the files, the
    lines of the definitions of functions, and what memory that is never written holds.

    Positions in a heap are natural numbers, where the code has ints: a heap of 2^31
    objects is out of the model.

    ** What is not modelled

    Output ([dump], JSON, the indentation of printed code), the user interface and the
    network server; the older variants of the linker under [predicates/];
    the start and the joining of threads, and the
    schedulers of [thread/] that are not in the build (all but [static] and [prio]),
    with the code under TASK_STEALING; in [Threads] what a node does while
    it runs is any sequence of the actions the interface of schedulers has; of the
    simulator's scheduler the ends of iterations, and of [vm/state.cpp] what is done only
    for it; the buffers of messages between
    machines: in [Tokens] a machine with an active thread may send a set of messages
    at any time, and counts it before it rests. *)

From Stdlib Require Import ZArith Lia String Bool Permutation.
From stdpp Require Import base tactics list numbers option gmap.

Declare Scope meld_scope.
Delimit Scope meld_scope with meld.

(** ** Failures

    The C++ code leaves a function in three abnormal ways: it throws one of its
    exception classes, an [assert] fails, or it does something the language
    leaves undefined (a read outside of a vector, [front] of an empty one).
    Exceptions keep their message. *)

Inductive failure : Type :=
  | type_error (msg : string)
  | vm_exec_error (msg : string)
  | external_error (msg : string)
  | database_error (msg : string)
  | load_file_error (msg : string)
  | route_error (msg : string)
  | malformed_instr_error (msg : string)
  | length_error
  | assert_fail
  | undefined_behaviour.

Inductive res (A : Type) : Type :=
  | Ok (a : A)
  | Err (f : failure).

Arguments Ok {A} a.
Arguments Err {A} f.

Definition res_bind {A B} (m : res A) (k : A → res B) : res B :=
  match m with
  | Ok a => k a
  | Err f => Err f
  end.

Definition res_map {A B} (g : A → B) (m : res A) : res B :=
  res_bind m (fun a => Ok (g a)).

(** [assert(b); k] *)
Definition asserting {A} (b : bool) (k : res A) : res A :=
  if b then k else Err assert_fail.

(** a vector or array access, undefined out of range *)
Definition of_option {A} (o : option A) : res A :=
  match o with
  | Some a => Ok a
  | None => Err undefined_behaviour
  end.

Notation "'let*' x := m 'in' k" := (res_bind m (fun x => k))
  (at level 10, x pattern, m at level 100, k at level 200) : meld_scope.
Open Scope meld_scope.

Definition is_ok {A} (m : res A) : bool :=
  match m with Ok _ => true | Err _ => false end.

Lemma res_bind_ok {A B} (m : res A) (k : A → res B) b :
  res_bind m k = Ok b ↔ ∃ a, m = Ok a ∧ k a = Ok b.
Proof. destruct m; simpl; naive_solver. Qed.

Lemma res_bind_err {A B} (m : res A) (k : A → res B) f :
  res_bind m k = Err f ↔ m = Err f ∨ ∃ a, m = Ok a ∧ k a = Err f.
Proof. destruct m; simpl; naive_solver. Qed.

Lemma asserting_ok {A} b (k : res A) a :
  asserting b k = Ok a ↔ b = true ∧ k = Ok a.
Proof. destruct b; simpl; naive_solver. Qed.

Lemma of_option_ok {A} (o : option A) a : of_option o = Ok a ↔ o = Some a.
Proof. destruct o; simpl; naive_solver. Qed.

Lemma res_bind_assoc {A B C} (m : res A) (f : A → res B) (g : B → res C) :
  res_bind (res_bind m f) g = res_bind m (fun x => res_bind (f x) g).
Proof. by destruct m. Qed.

(** [res_inv H] takes apart a hypothesis that a monadic computation returned. *)
Ltac res_inv :=
  repeat match goal with
  | H : res_bind _ _ = Ok _ |- _ =>
      apply res_bind_ok in H; destruct H as (? & ? & ?)
  | H : asserting _ _ = Ok _ |- _ => apply asserting_ok in H; destruct H as [? H]
  | H : of_option _ = Ok _ |- _ => apply of_option_ok in H
  | H : Ok _ = Ok _ |- _ => injection H as H; subst
  | H : Err _ = Ok _ |- _ => discriminate H
  | H : Ok _ = Err _ |- _ => discriminate H
  end.

(** [split_guard] splits on the condition of an [if] or the scrutinee of a
    [match] of the goal or of a hypothesis, remembering the equation. *)
Ltac split_guard :=
  match goal with
  | |- context [if ?b then _ else _] => let E := fresh "E" in destruct b eqn:E
  | H : context [if ?b then _ else _] |- _ =>
      let E := fresh "E" in destruct b eqn:E
  end.

Ltac bool_to_prop :=
  repeat match goal with
  | H : andb _ _ = true |- _ => apply andb_true_iff in H; destruct H
  | H : orb _ _ = false |- _ => apply orb_false_iff in H; destruct H
  | H : negb _ = true |- _ => apply negb_true_iff in H
  | H : negb _ = false |- _ => apply negb_false_iff in H
  | H : Nat.eqb _ _ = true |- _ => apply Nat.eqb_eq in H
  | H : Nat.eqb _ _ = false |- _ => apply Nat.eqb_neq in H
  | H : Nat.ltb _ _ = true |- _ => apply Nat.ltb_lt in H
  | H : Nat.ltb _ _ = false |- _ => apply Nat.ltb_ge in H
  | H : Nat.leb _ _ = true |- _ => apply Nat.leb_le in H
  | H : Nat.leb _ _ = false |- _ => apply Nat.leb_gt in H
  | H : Z.eqb _ _ = true |- _ => apply Z.eqb_eq in H
  | H : Z.eqb _ _ = false |- _ => apply Z.eqb_neq in H
  | H : Z.ltb _ _ = true |- _ => apply Z.ltb_lt in H
  | H : Z.ltb _ _ = false |- _ => apply Z.ltb_ge in H
  | H : Z.leb _ _ = true |- _ => apply Z.leb_le in H
  | H : Z.leb _ _ = false |- _ => apply Z.leb_gt in H
  end.

(** ** Machine integers

    An integer of [w] bits is a [Z]; [wrap w] reduces to the unsigned range and
    [swrap w] to the two's complement one. *)

Definition wrap (w : Z) (z : Z) : Z := z mod 2 ^ w.

Definition swrap (w : Z) (z : Z) : Z :=
  (z + 2 ^ (w - 1)) mod 2 ^ w - 2 ^ (w - 1).

Definition in_unsigned (w z : Z) : bool := (0 <=? z)%Z && (z <? 2 ^ w)%Z.
Definition in_signed (w z : Z) : bool :=
  (- 2 ^ (w - 1) <=? z)%Z && (z <? 2 ^ (w - 1))%Z.

Lemma wrap_range w z : (0 <= w)%Z → (0 <= wrap w z < 2 ^ w)%Z.
Proof. intros. unfold wrap. apply Z.mod_pos_bound. lia. Qed.

Lemma wrap_id w z : (0 <= z < 2 ^ w)%Z → wrap w z = z.
Proof. intros. unfold wrap. by apply Z.mod_small. Qed.

Lemma swrap_range w z :
  (0 < w)%Z → (- 2 ^ (w - 1) <= swrap w z < 2 ^ (w - 1))%Z.
Proof.
  intros. unfold swrap.
  pose proof (Z.mod_pos_bound (z + 2 ^ (w - 1)) (2 ^ w) ltac:(lia)).
  assert (2 ^ w = 2 * 2 ^ (w - 1))%Z; [|lia].
  rewrite <-Z.pow_succ_r by lia. f_equal. lia.
Qed.

Lemma swrap_id w z :
  (0 < w)%Z → (- 2 ^ (w - 1) <= z < 2 ^ (w - 1))%Z → swrap w z = z.
Proof.
  intros. unfold swrap.
  assert (2 ^ w = 2 * 2 ^ (w - 1))%Z.
  { rewrite <-Z.pow_succ_r by lia. f_equal. lia. }
  rewrite Z.mod_small; lia.
Qed.

Lemma swrap_wrap w z : (0 < w)%Z → swrap w (wrap w z) = swrap w z.
Proof.
  intros. unfold swrap, wrap. f_equal.
  rewrite Z.add_mod_idemp_l; [done|]. lia.
Qed.

Lemma wrap_swrap w z : (0 < w)%Z → wrap w (swrap w z) = wrap w z.
Proof.
  intros. unfold swrap, wrap.
  rewrite Zminus_mod_idemp_l. f_equal. lia.
Qed.

Lemma swrap_plus w a b : (0 < w)%Z → swrap w (swrap w a + b)%Z = swrap w (a + b)%Z.
Proof.
  intros Hw. unfold swrap.
  replace ((a + 2 ^ (w - 1)) mod 2 ^ w - 2 ^ (w - 1) + b + 2 ^ (w - 1))%Z
    with ((a + 2 ^ (w - 1)) mod 2 ^ w + b)%Z by lia.
  rewrite Zplus_mod_idemp_l. do 2 f_equal. lia.
Qed.

(** ** Lists *)

(** exchange of two positions of a vector *)
Definition list_swap {A} (i j : nat) (l : list A) : list A :=
  match l !! i, l !! j with
  | Some x, Some y => <[j := x]> (<[i := y]> l)
  | _, _ => l
  end.

Lemma list_swap_length {A} i j (l : list A) : length (list_swap i j l) = length l.
Proof.
  unfold list_swap. destruct (l !! i), (l !! j); auto.
  by rewrite !length_insert.
Qed.

Lemma list_swap_lookup {A} i j k (l : list A) :
  i < length l → j < length l →
  list_swap i j l !! k =
    if decide (k = j) then l !! i else if decide (k = i) then l !! j else l !! k.
Proof.
  intros Hi Hj. unfold list_swap.
  destruct (lookup_lt_is_Some_2 l i Hi) as [x Hx].
  destruct (lookup_lt_is_Some_2 l j Hj) as [y Hy].
  rewrite Hx, Hy.
  destruct (decide (k = j)) as [->|].
  { by rewrite list_lookup_insert_eq by (rewrite length_insert; lia). }
  rewrite list_lookup_insert_ne by done.
  destruct (decide (k = i)) as [->|].
  { by rewrite list_lookup_insert_eq by lia. }
  by rewrite list_lookup_insert_ne by done.
Qed.

Lemma list_insert_perm {A} (l : list A) i x y :
  l !! i = Some x → y :: l ≡ₚ x :: <[i := y]> l.
Proof.
  revert i. induction l as [|a l IH]; intros [|i] H; simplify_eq/=.
  - apply Permutation_swap.
  - rewrite Permutation_swap, (IH _ H). apply Permutation_swap.
Qed.

Lemma list_swap_perm {A} i j (l : list A) : list_swap i j l ≡ₚ l.
Proof.
  unfold list_swap. destruct (l !! i) as [x|] eqn:Hx; [|done].
  destruct (l !! j) as [y|] eqn:Hy; [|done].
  destruct (decide (i = j)) as [->|Hne].
  { simplify_eq. rewrite list_insert_insert_eq, list_insert_id by done. done. }
  assert (Hj : <[i:=y]> l !! j = Some y) by (by rewrite list_lookup_insert_ne).
  apply (Permutation_cons_inv (a:=y)).
  rewrite <-(list_insert_perm _ _ _ x Hj).
  symmetry. by apply list_insert_perm.
Qed.

Create HintDb meld.
Create Rewrite HintDb meld.
#[export] Hint Resolve wrap_range swrap_range list_swap_perm : meld.
#[export] Hint Rewrite @list_swap_length : meld.
