(* ===== verification/Words.v ===== *)
(** Machine data: the 8-byte union [tuple_field] and the integer types of
    [vm/defs.hpp], byte-level packing ([utils/serialization.hpp]), the loops of
    [utils/utils.hpp], [utils/interval.hpp] and the read-modify-write operations
    of [utils/atomic.hpp].

    A [tuple_field] is its 64 bits (little endian, as on the machines the code
    is built for); a double is decoded to Corelib's [spec_float]. *)

From Stdlib Require Import ZArith Lia Bool SpecFloat.
From stdpp Require Import base tactics list numbers option.
From S2P Require Import Prelude.

#[local] Open Scope Z_scope.

(** ** Doubles *)

Definition prec : Z := 53.
Definition emax : Z := 1024.

(** IEEE 754 binary64 *)
Definition float_of_bits (b : Z) : spec_float :=
  let s := Z.testbit b 63 in
  let e := Z.land (Z.shiftr b 52) 2047 in
  let m := Z.land b (Z.ones 52) in
  if e =? 0 then
    match m with
    | Zpos p => S754_finite s p (-1074)
    | _ => S754_zero s
    end
  else if e =? 2047 then
    if m =? 0 then S754_infinity s else S754_nan
  else
    match m + 2 ^ 52 with
    | Zpos p => S754_finite s p (e - 1075)
    | _ => S754_nan
    end.

(** The payload of a NaN is platform dependent; a quiet one stands for all. *)
Definition bits_of_float (f : spec_float) : Z :=
  let sign (s : bool) := if s then 2 ^ 63 else 0 in
  match f with
  | S754_zero s => sign s
  | S754_infinity s => sign s + 2047 * 2 ^ 52
  | S754_nan => 4095 * 2 ^ 51
  | S754_finite s p e =>
      if Zpos p <? 2 ^ 52 then sign s + Zpos p
      else sign s + (e + 1075) * 2 ^ 52 + (Zpos p - 2 ^ 52)
  end.

Definition is_nan_bits (b : Z) : bool :=
  match float_of_bits b with S754_nan => true | _ => false end.

(** Comparison of numbers is the lexicographic order on this key. *)
Definition SFkey (f : spec_float) : Z * Z * Z :=
  match f with
  | S754_infinity true => (-2, 0, 0)
  | S754_finite true m e => (-1, - e, - Zpos m)
  | S754_zero _ => (0, 0, 0)
  | S754_finite false m e => (1, e, Zpos m)
  | S754_infinity false => (2, 0, 0)
  | S754_nan => (0, 0, 0)
  end.

Definition key_le (a b : Z * Z * Z) : Prop :=
  let '(a1, a2, a3) := a in
  let '(b1, b2, b3) := b in
  a1 < b1 ∨ (a1 = b1 ∧ (a2 < b2 ∨ (a2 = b2 ∧ a3 <= b3))).

Lemma SFleb_key x y :
  x ≠ S754_nan → y ≠ S754_nan → SFleb x y = true ↔ key_le (SFkey x) (SFkey y).
Proof.
  intros Hx Hy. unfold SFleb.
  destruct x as [sx|sx| |sx mx ex], y as [sy|sy| |sy my ey];
    try done; try (destruct sx, sy; simpl; split; intros; try done; try lia).
  all: try (destruct sx; simpl; split; intros; try done; lia).
  all: try (destruct sy; simpl; split; intros; try done; lia).
  all: simpl in *; change (Pos.compare_cont Eq mx my) with (Pos.compare mx my) in *.
  all: try (destruct (Z.compare_spec ex ey); destruct (Pos.compare_spec mx my);
    simpl in *; try done; lia).
Qed.

Lemma SFleb_refl x : x ≠ S754_nan → SFleb x x = true.
Proof.
  intros. apply SFleb_key; [done..|]. destruct (SFkey x) as [[??]?]. simpl. lia.
Qed.

Lemma SFleb_trans x y z :
  x ≠ S754_nan → y ≠ S754_nan → z ≠ S754_nan →
  SFleb x y = true → SFleb y z = true → SFleb x z = true.
Proof.
  intros ???. rewrite !SFleb_key by done.
  destruct (SFkey x) as [[??]?], (SFkey y) as [[??]?], (SFkey z) as [[??]?].
  simpl. lia.
Qed.

Lemma SFleb_total x y :
  x ≠ S754_nan → y ≠ S754_nan → SFleb x y = true ∨ SFleb y x = true.
Proof.
  intros ??. rewrite !SFleb_key by done.
  destruct (SFkey x) as [[??]?], (SFkey y) as [[??]?]. simpl. lia.
Qed.

Lemma is_nan_bits_false b : is_nan_bits b = false ↔ float_of_bits b ≠ S754_nan.
Proof. unfold is_nan_bits. destruct (float_of_bits b); naive_solver. Qed.

(** ** The union tuple_field *)

Abbreviation tuple_field := Z.

Definition int_field (f : tuple_field) : Z := swrap 32 (wrap 32 f).
Definition node_field (f : tuple_field) : Z := wrap 32 f.
Definition ptr_field (f : tuple_field) : Z := wrap 64 f.
Definition float_field (f : tuple_field) : spec_float := float_of_bits (wrap 64 f).

(** assignment to the 4-byte members leaves the upper half of the union alone *)
Definition set_low32 (f : tuple_field) (v : Z) : tuple_field :=
  Z.shiftl (Z.shiftr (wrap 64 f) 32) 32 + wrap 32 v.
Definition set_int_field (f : tuple_field) (v : Z) : tuple_field := set_low32 f v.
Definition set_node_field (f : tuple_field) (v : Z) : tuple_field := set_low32 f v.
Definition set_ptr_field (f : tuple_field) (v : Z) : tuple_field := wrap 64 v.
Definition set_float_field (f : tuple_field) (v : spec_float) : tuple_field :=
  bits_of_float v.

Lemma wrap_set_low32 f v : wrap 32 (set_low32 f v) = wrap 32 v.
Proof.
  unfold set_low32, wrap. rewrite Z.shiftl_mul_pow2 by lia.
  rewrite Z.add_comm, Z_mod_plus_full. apply Z.mod_mod. lia.
Qed.

Lemma int_field_set f v : int_field (set_int_field f v) = swrap 32 v.
Proof.
  unfold int_field, set_int_field. by rewrite wrap_set_low32, swrap_wrap by lia.
Qed.

Lemma node_field_set f v : node_field (set_node_field f v) = wrap 32 v.
Proof. unfold node_field, set_node_field. apply wrap_set_low32. Qed.

Lemma set_low32_range f v : 0 <= set_low32 f v < 2 ^ 64.
Proof.
  unfold set_low32. pose proof (wrap_range 32 v ltac:(lia)).
  pose proof (wrap_range 64 f ltac:(lia)).
  rewrite Z.shiftl_mul_pow2, Z.shiftr_div_pow2 by lia.
  assert (0 <= wrap 64 f / 2 ^ 32 < 2 ^ 32).
  { split; [apply Z.div_pos; lia|]. apply Z.div_lt_upper_bound; lia. }
  lia.
Qed.

#[export] Hint Rewrite int_field_set node_field_set : meld.

(** *** A double survives the trip through [spec_float] *)

Lemma float_bits_split b :
  0 <= b < 2 ^ 64 →
  b = (if Z.testbit b 63 then 2 ^ 63 else 0)
      + Z.land (Z.shiftr b 52) 2047 * 2 ^ 52 + Z.land b (Z.ones 52).
Proof.
  intros Hb. change 2047 with (Z.ones 11). rewrite !Z.land_ones by lia.
  rewrite Z.shiftr_div_pow2 by lia.
  rewrite Z.testbit_eqb by lia.
  assert (b / 2 ^ 63 = b / 2 ^ 52 / 2 ^ 11) as -> by (by rewrite Z.div_div by lia).
  pose proof (Z_div_mod_eq_full b (2 ^ 52)).
  pose proof (Z_div_mod_eq_full (b / 2 ^ 52) (2 ^ 11)).
  assert (0 <= b / 2 ^ 52 / 2 ^ 11 < 2).
  { split; [apply Z.div_pos; [apply Z.div_pos|]; lia|].
    apply Z.div_lt_upper_bound; [lia|]. apply Z.div_lt_upper_bound; lia. }
  assert (b / 2 ^ 52 / 2 ^ 11 = 0 ∨ b / 2 ^ 52 / 2 ^ 11 = 1) as [Hq|Hq] by lia;
    rewrite Hq in *; simpl; lia.
Qed.

(** Encoding the decoded double gives back the same 64 bits, NaNs apart: the
    arithmetic of the virtual machine acts on the bits of a [float_val]. *)
Lemma float_bits_roundtrip b :
  0 <= b < 2 ^ 64 → is_nan_bits b = false → bits_of_float (float_of_bits b) = b.
Proof.
  intros Hb Hnan. rewrite is_nan_bits_false in Hnan.
  pose proof (float_bits_split b Hb) as Hs.
  unfold float_of_bits in *.
  set (s := Z.testbit b 63) in *.
  set (e := Z.land (Z.shiftr b 52) 2047) in *.
  set (m := Z.land b (Z.ones 52)) in *.
  assert (Hm : 0 <= m < 2 ^ 52).
  { unfold m. rewrite Z.land_ones by lia. apply Z.mod_pos_bound. lia. }
  destruct (e =? 0) eqn:He.
  { apply Z.eqb_eq in He. destruct m as [|p|p] eqn:Em; [simpl; lia| |lia].
    unfold bits_of_float. rewrite (proj2 (Z.ltb_lt _ _)) by lia. lia. }
  destruct (e =? 2047) eqn:He2.
  { apply Z.eqb_eq in He2. destruct (m =? 0) eqn:Em; [|done].
    apply Z.eqb_eq in Em. unfold bits_of_float. lia. }
  destruct (m + 2 ^ 52) as [|p|p] eqn:Em; [lia| |lia].
  unfold bits_of_float. rewrite (proj2 (Z.ltb_ge _ _)) by lia. lia.
Qed.

(** ** Bytes and [utils/serialization.hpp] *)

Abbreviation byte := Z.

(** the little-endian image of the low [8 * n] bits of [z] *)
Fixpoint le_bytes (n : nat) (z : Z) : list byte :=
  match n with
  | O => []
  | S n => z mod 256 :: le_bytes n (z / 256)
  end.

Fixpoint le_value (bs : list byte) : Z :=
  match bs with
  | [] => 0
  | b :: bs => b + 256 * le_value bs
  end.

Lemma le_bytes_length n z : length (le_bytes n z) = n.
Proof. revert z. induction n; simpl; auto. Qed.

Lemma le_value_bytes n z : le_value (le_bytes n z) = wrap (8 * Z.of_nat n) z.
Proof.
  revert z. induction n as [|n IH]; intros z; simpl.
  { unfold wrap. by rewrite Z.mod_1_r. }
  rewrite IH. unfold wrap.
  replace (8 * Z.of_nat (S n)) with (8 + 8 * Z.of_nat n) by lia.
  rewrite Z.pow_add_r by lia. change (2 ^ 8) with 256.
  rewrite Z.rem_mul_r by lia. done.
Qed.

Lemma le_value_range bs :
  Forall (fun b => 0 <= b < 256) bs →
  0 <= le_value bs < 2 ^ (8 * Z.of_nat (length bs)).
Proof.
  induction 1 as [|b bs Hb _ IH]; simpl; [lia|].
  replace (8 * Z.of_nat (S (length bs))) with (8 + 8 * Z.of_nat (length bs)) by lia.
  rewrite Z.pow_add_r by lia. change (2 ^ 8) with 256. nia.
Qed.

(** [memcpy(buf + pos, data, n)] and [memcpy(data, buf + pos, n)] *)
Definition memcpy_to (buf : list byte) (pos : nat) (data : list byte) : res (list byte) :=
  if decide (pos + length data ≤ length buf)%nat
  then Ok (take pos buf ++ data ++ drop (pos + length data) buf)
  else Err undefined_behaviour.

Definition memcpy_from (buf : list byte) (pos n : nat) : res (list byte) :=
  if decide (pos + n ≤ length buf)%nat
  then Ok (take n (drop pos buf))
  else Err undefined_behaviour.

(** the [assert] of both functions: [*pos] becomes a [size_t] in the sum *)
Definition pack_fits (pos n buf_size : Z) : bool := wrap 64 (pos + n) <=? buf_size.

(** the bytes of an array of elements of [sizeofT] bytes *)
Definition array_bytes (sizeofT : nat) (data : list Z) : list byte :=
  concat (map (le_bytes sizeofT) data).

(** an array of [size] elements read back *)
Fixpoint array_values (sizeofT : nat) (size : nat) (bs : list byte) : list Z :=
  match size with
  | O => []
  | S size => le_value (take sizeofT bs) :: array_values sizeofT size (drop sizeofT bs)
  end.

Definition pack (sizeofT : nat) (data : list Z) (buf : list byte)
    (buf_size pos : Z) : res (list byte * Z) :=
  let bs := array_bytes sizeofT data in
  asserting (pack_fits pos (Z.of_nat (length bs)) buf_size)
    (if pos <? 0 then Err undefined_behaviour
     else
       let* buf' := memcpy_to buf (Z.to_nat pos) bs in
       Ok (buf', swrap 32 (pos + Z.of_nat (length bs)))).

Definition unpack (sizeofT : nat) (buf : list byte) (buf_size pos : Z)
    (size : nat) : res (list Z * Z) :=
  let n := (sizeofT * size)%nat in
  asserting (pack_fits pos (Z.of_nat n) buf_size)
    (if pos <? 0 then Err undefined_behaviour
     else
       let* bs := memcpy_from buf (Z.to_nat pos) n in
       Ok (array_values sizeofT size bs, swrap 32 (pos + Z.of_nat n))).

Arguments pack : simpl never.
Arguments unpack : simpl never.

Lemma array_bytes_length sizeofT data :
  length (array_bytes sizeofT data) = (sizeofT * length data)%nat.
Proof.
  unfold array_bytes. induction data as [|z data IH]; simpl; [lia|].
  rewrite length_app, le_bytes_length, IH. lia.
Qed.

Lemma array_values_bytes sizeofT data rest :
  array_values sizeofT (length data) (array_bytes sizeofT data ++ rest)
  = map (wrap (8 * Z.of_nat sizeofT)) data.
Proof.
  unfold array_bytes. induction data as [|z data IH]; simpl; [done|].
  rewrite <-!app_assoc, take_app_length', drop_app_length'
    by (symmetry; apply le_bytes_length).
  by rewrite IH, le_value_bytes.
Qed.

Lemma memcpy_to_ok buf pos data buf' :
  memcpy_to buf pos data = Ok buf' →
  (pos + length data ≤ length buf)%nat ∧ length buf' = length buf ∧
  memcpy_from buf' pos (length data) = Ok data ∧
  (∀ i, (i < pos ∨ pos + length data ≤ i)%nat → buf' !! i = buf !! i).
Proof.
  unfold memcpy_to. case_decide as Hle; [|done]. intros [= <-].
  assert (length (take pos buf) = pos) as Ht by (rewrite length_take; lia).
  split_and!; [done| | |].
  - rewrite !length_app, length_take, length_drop. lia.
  - unfold memcpy_from. rewrite decide_True.
    + rewrite drop_app_length' by done. by rewrite take_app_length.
    + rewrite !length_app, length_take, length_drop. lia.
  - intros i Hi. destruct (decide (i < pos)%nat).
    + rewrite lookup_app_l by lia. by rewrite lookup_take_lt by lia.
    + rewrite lookup_app_r by lia. rewrite lookup_app_r by lia.
      rewrite lookup_drop. f_equal. lia.
Qed.

Lemma memcpy_from_length buf pos n bs :
  memcpy_from buf pos n = Ok bs → length bs = n.
Proof.
  unfold memcpy_from. case_decide; [|done]. intros [= <-].
  rewrite length_take, length_drop. lia.
Qed.

(** what [pack] writes, and where: the shared facts about a successful call *)
Lemma pack_ok sizeofT data buf buf_size pos buf' pos' :
  pack sizeofT data buf buf_size pos = Ok (buf', pos') →
  0 <= pos ∧ pos' = swrap 32 (pos + Z.of_nat (sizeofT * length data)) ∧
  pack_fits pos (Z.of_nat (sizeofT * length data)) buf_size = true ∧
  length buf' = length buf ∧
  memcpy_from buf' (Z.to_nat pos) (sizeofT * length data)
    = Ok (array_bytes sizeofT data) ∧
  (∀ i, (i < Z.to_nat pos ∨ Z.to_nat pos + sizeofT * length data ≤ i)%nat →
        buf' !! i = buf !! i).
Proof.
  unfold pack. rewrite array_bytes_length. intros H. res_inv.
  destruct (pos <? 0) eqn:Hp; [done|]. bool_to_prop. res_inv.
  match goal with
  | H : memcpy_to _ _ _ = Ok _ |- _ => apply memcpy_to_ok in H as (? & ? & Hf & Hi)
  end.
  rewrite array_bytes_length in *. simplify_eq. split_and!; auto.
Qed.

(** The next thing a reader finds at the position where it was packed is the
    packed array, and the two functions move the position equally. *)
Lemma unpack_pack sizeofT data buf buf_size pos buf' pos' :
  pack sizeofT data buf buf_size pos = Ok (buf', pos') →
  unpack sizeofT buf' buf_size pos (length data)
  = Ok (map (wrap (8 * Z.of_nat sizeofT)) data, pos').
Proof.
  intros H. apply pack_ok in H as (Hp & -> & Hf & Hl & Hm & _).
  unfold unpack. rewrite Hf. simpl.
  rewrite (proj2 (Z.ltb_ge _ _)) by lia. rewrite Hm. simpl.
  rewrite <-(app_nil_r (array_bytes _ _)), array_values_bytes. done.
Qed.

(** ** [utils/utils.hpp]

    The loops shift an unsigned [T] of [w] bits left until it reaches the
    argument.  One more round costs one unit of fuel; no round is left when the
    power of two no longer fits, for then the loop of the code never ends. *)

Fixpoint upper_log2_loop (w : Z) (fuel : nat) (n m i : Z) : option Z :=
  match fuel with
  | O => None
  | S fuel =>
      if m >=? n then Some i
      else upper_log2_loop w fuel n (wrap w (Z.shiftl m 1)) (wrap w (i + 1))
  end.

Definition upper_log2 (w : Z) (fuel : nat) (n : Z) : option Z :=
  if n >? 0 then upper_log2_loop w fuel n 1 0 else Some (wrap w (-1)).

Fixpoint next_power2_loop (w : Z) (fuel : nat) (val ret : Z) : option Z :=
  match fuel with
  | O => None
  | S fuel =>
      if ret <? val then next_power2_loop w fuel val (wrap w (Z.shiftl ret 1))
      else Some ret
  end.

Definition next_power2 (w : Z) (fuel : nat) (val : Z) : option Z :=
  next_power2_loop w fuel val 1.

Fixpoint power_loop (w : Z) (base : Z) (n : nat) (ret : Z) : Z :=
  match n with
  | O => ret
  | S n => power_loop w base n (wrap w (ret * base))
  end.

Definition power (w base exp : Z) : res Z :=
  asserting (exp >=? 0)
    (if exp =? 0 then Ok 1
     else Ok (power_loop w base (Z.to_nat exp - 1) (wrap w base))).

(** [k] is the exponent of the least power of two that is not below [n] *)
Definition is_log2_up (k n : Z) : Prop :=
  0 <= k ∧ n <= 2 ^ k ∧ ∀ j, 0 <= j < k → 2 ^ j < n.

Lemma log2_up_exists w n :
  0 < w → n <= 2 ^ (w - 1) → ∃ k, is_log2_up k n ∧ k < w.
Proof.
  intros Hw Hn. destruct (Z_le_dec n 1).
  { exists 0. split; [|lia]. split_and!; try lia. }
  exists (Z.log2_up n). pose proof (Z.log2_up_spec n ltac:(lia)) as [Hlo Hhi].
  pose proof (Z.log2_up_nonneg n).
  split; [split_and!; [lia|lia|]|].
  - intros j Hj. eapply Z.le_lt_trans; [|apply Hlo].
    apply Z.pow_le_mono_r; lia.
  - enough (Z.log2_up n <= w - 1) by lia. apply Z.log2_up_le_pow2; lia.
Qed.

Lemma shiftl_pow2 w j :
  0 <= j → j + 1 < w → wrap w (Z.shiftl (2 ^ j) 1) = 2 ^ (j + 1).
Proof.
  intros. rewrite Z.shiftl_mul_pow2, <-Z.pow_add_r by lia. apply wrap_id.
  split; [lia|]. apply Z.pow_lt_mono_r; lia.
Qed.

Lemma upper_log2_loop_spec w n k d j fuel :
  is_log2_up k n → k < w → w < 2 ^ w → 0 <= j → Z.of_nat d = k - j →
  (d < fuel)%nat → upper_log2_loop w fuel n (2 ^ j) j = Some k.
Proof.
  intros (Hk & Hn & Hleast) Hkw Hww. revert d j.
  induction fuel as [|fuel IH]; intros d j Hj Hd Hf; [lia|]. simpl.
  destruct (decide (j = k)) as [->|].
  { rewrite (proj2 (Z.geb_le _ _)) by lia. done. }
  pose proof (Hleast j ltac:(lia)).
  rewrite Z.geb_leb, (proj2 (Z.leb_gt _ _)) by lia.
  rewrite shiftl_pow2, (wrap_id w (j + 1)) by lia.
  apply (IH (d - 1)%nat); lia.
Qed.

Lemma next_power2_loop_spec w n k d j fuel :
  is_log2_up k n → k < w → 0 <= j → Z.of_nat d = k - j →
  (d < fuel)%nat → next_power2_loop w fuel n (2 ^ j) = Some (2 ^ k).
Proof.
  intros (Hk & Hn & Hleast) Hkw. revert d j.
  induction fuel as [|fuel IH]; intros d j Hj Hd Hf; [lia|]. simpl.
  destruct (decide (j = k)) as [->|].
  { rewrite (proj2 (Z.ltb_ge _ _)) by lia. done. }
  rewrite (proj2 (Z.ltb_lt _ _)) by (apply Hleast; lia).
  rewrite shiftl_pow2 by lia. apply (IH (d - 1)%nat); lia.
Qed.

Lemma next_power2_ok w val :
  0 < w → val <= 2 ^ (w - 1) →
  ∃ k, next_power2 w (Z.to_nat w) val = Some (2 ^ k) ∧ is_log2_up k val ∧ k < w.
Proof.
  intros Hw Hv. destruct (log2_up_exists w val Hw Hv) as (k & Hk & ?).
  exists k. split_and!; [|done..]. unfold next_power2.
  change (next_power2_loop w (Z.to_nat w) val (2 ^ 0) = Some (2 ^ k)).
  apply next_power2_loop_spec with (k := k) (d := Z.to_nat k);
    [done|lia|lia|destruct Hk; lia|destruct Hk; lia].
Qed.

Lemma upper_log2_ok w n :
  0 < w → 0 < n <= 2 ^ (w - 1) →
  ∃ k, upper_log2 w (Z.to_nat w) n = Some k ∧ is_log2_up k n ∧ k < w.
Proof.
  intros Hw Hv. destruct (log2_up_exists w n Hw ltac:(lia)) as (k & Hk & ?).
  exists k. split_and!; [|done..]. unfold upper_log2.
  rewrite (proj2 (Z.gtb_lt _ _)) by lia.
  apply upper_log2_loop_spec with (k := k) (d := Z.to_nat k) (j := 0);
    try (destruct Hk; lia); try done.
  apply Z.pow_gt_lin_r; lia.
Qed.

(** Above the largest power of two of the type the loop runs for ever. *)
Lemma next_power2_loop_diverges w val fuel j :
  2 ^ (w - 1) < val → 0 < w → 0 <= j <= w →
  next_power2_loop w fuel val (wrap w (2 ^ j)) = None.
Proof.
  intros Hv Hw. revert j. induction fuel as [|fuel IH]; intros j Hj; [done|]. simpl.
  destruct (decide (j = w)) as [->|].
  - assert (wrap w (2 ^ w) = 0) as Hz by (unfold wrap; apply Z.mod_same; lia).
    rewrite Hz. pose proof (Z.pow_nonneg 2 (w - 1)).
    rewrite (proj2 (Z.ltb_lt _ _)) by lia.
    change (Z.shiftl 0 1) with 0. rewrite (wrap_id w 0) by lia.
    rewrite <-Hz. apply IH. lia.
  - assert (2 ^ j <= 2 ^ (w - 1)) by (apply Z.pow_le_mono_r; lia).
    assert (2 ^ (w - 1) < 2 ^ w) by (apply Z.pow_lt_mono_r; lia).
    rewrite (wrap_id w (2 ^ j)) by lia.
    rewrite (proj2 (Z.ltb_lt _ _)) by lia.
    rewrite Z.shiftl_mul_pow2, <-Z.pow_add_r by lia. apply IH. lia.
Qed.

(** ** [utils/interval.hpp] *)

Record interval : Type := mk_interval { min_val : Z; max_val : Z }.

Definition between (i : interval) (val : Z) : bool :=
  (val >=? min_val i) && (val <=? max_val i).

Definition interval_update (i : interval) (val : Z) : interval :=
  if val <? min_val i then mk_interval val (max_val i)
  else if val >? max_val i then mk_interval (min_val i) val
  else i.

Lemma interval_update_between i val x :
  min_val i <= max_val i →
  between (interval_update i val) x = true ↔
    between i x = true ∨ (Z.min val (min_val i) <= x <= Z.max val (max_val i)).
Proof.
  intros Hi. unfold between, interval_update.
  rewrite !andb_true_iff, !Z.geb_le, !Z.leb_le.
  destruct (val <? min_val i) eqn:E1; [|destruct (val >? max_val i) eqn:E2];
    simpl; rewrite ?Z.gtb_ltb in *; bool_to_prop; lia.
Qed.

(** ** [utils/atomic.hpp]

    Every operation is one [__sync] read-modify-write on an unsigned or signed
    integer; here on an unsigned one of [w] bits.  The result is the new content
    and the value returned. *)

Section Atomic.
Context (w : Z).

Definition fetch_and_add (elem plus : Z) : Z * Z := (wrap w (elem + plus), elem).
Definition fetch_and_sub (elem sub : Z) : Z * Z := (wrap w (elem - sub), elem).
Definition add_and_fetch (elem plus : Z) : Z * Z :=
  (wrap w (elem + plus), wrap w (elem + plus)).
Definition sub_and_fetch (elem sub : Z) : Z * Z :=
  (wrap w (elem - sub), wrap w (elem - sub)).
Definition atomic_pre_incr (elem : Z) : Z * Z := add_and_fetch elem 1.
Definition atomic_post_incr (elem : Z) : Z * Z := fetch_and_add elem 1.
Definition atomic_pre_decr (elem : Z) : Z * Z := sub_and_fetch elem 1.
Definition atomic_post_decr (elem : Z) : Z * Z := fetch_and_sub elem 1.
Definition atomic_plus_assign (elem val : Z) : Z := fst (fetch_and_add elem val).
Definition atomic_minus_assign (elem val : Z) : Z := fst (fetch_and_sub elem val).
Definition atomic_assign (elem val : Z) : Z := val.
End Atomic.

Section AtomicRef.
Context {T : Type} `{EqDecision T}.

Definition compare_test_set (ref comp new_val : T) : T * bool :=
  if decide (ref = comp) then (new_val, true) else (ref, false).
Definition compare_and_set (ref comp new_val : T) : T * T :=
  if decide (ref = comp) then (new_val, ref) else (ref, ref).
End AtomicRef.

(** ** Properties *)

(** [unpack] inverts [pack]: after a successful [pack] the array is read
    back (each element reduced to its width) from the position it was packed
    at, both functions leave the same position, and the bytes outside of the
    array are the ones that were there. *)
Theorem pack_unpack_roundtrip sizeofT data buf buf_size pos buf' pos' :
  pack sizeofT data buf buf_size pos = Ok (buf', pos') →
  unpack sizeofT buf' buf_size pos (length data)
    = Ok (map (wrap (8 * Z.of_nat sizeofT)) data, pos') ∧
  length buf' = length buf ∧
  (∀ i, (i < Z.to_nat pos ∨ Z.to_nat pos + sizeofT * length data ≤ i)%nat →
        buf' !! i = buf !! i).
Proof.
  intros H. split; [by apply unpack_pack in H|].
  by apply pack_ok in H as (_ & _ & _ & ? & _ & ?).
Qed.

Lemma pack_unpack_roundtrip_witness :
  unpack 4 [7; 2; 0; 0; 0; 255; 255; 255; 255; 9] 10 1 2 = Ok ([2; 2 ^ 32 - 1], 9).
Proof.
  exact (proj1 (pack_unpack_roundtrip 4 [2; -1] [7; 0; 0; 0; 0; 0; 0; 0; 0; 9] 10 1
    [7; 2; 0; 0; 0; 255; 255; 255; 255; 9] 9 eq_refl)).
Defined.

(** [next_power2] and [upper_log2] of a [w]-bit unsigned argument terminate
    exactly when a power of two of that type reaches the argument; they then
    return the least such power and its exponent, in at most [w] rounds. *)
Theorem next_power2_upper_log2 w n :
  0 < w →
  (n <= 2 ^ (w - 1) →
     ∃ k, next_power2 w (Z.to_nat w) n = Some (2 ^ k) ∧ is_log2_up k n ∧
          (0 < n → upper_log2 w (Z.to_nat w) n = Some k)) ∧
  (2 ^ (w - 1) < n → ∀ fuel, next_power2 w fuel n = None).
Proof.
  intros Hw. split.
  - intros Hn. destruct (next_power2_ok w n Hw Hn) as (k & ? & Hk & ?).
    exists k. split_and!; [done..|]. intros Hpos.
    destruct (upper_log2_ok w n Hw ltac:(lia)) as (k' & Hl & Hk' & ?).
    rewrite Hl. f_equal. destruct Hk as (? & Hk1 & Hk2), Hk' as (? & Hk1' & Hk2').
    destruct (Z.lt_trichotomy k k') as [Hlt|[->|Hlt]]; [|done|].
    + specialize (Hk2' k). lia.
    + specialize (Hk2 k'). lia.
  - intros Hn fuel. unfold next_power2.
    rewrite <-(next_power2_loop_diverges w n fuel 0 Hn Hw ltac:(lia)).
    rewrite wrap_id; [done|]. split; [lia|]. apply Z.pow_gt_1; lia.
Qed.

Lemma next_power2_upper_log2_witness :
  ∃ k, next_power2 64 64 20 = Some (2 ^ k) ∧ is_log2_up k 20 ∧
       (0 < 20 → upper_log2 64 64 20 = Some k).
Proof. apply (proj1 (next_power2_upper_log2 64 20 ltac:(lia))). lia. Defined.
