(* ===== verification/Doubles.v ===== *)
(** Doubles of the machine: the numbers that 64 bits denote are those of 53 bits of
    precision, what they denote survives the encoding, and addition and the conversion
    of integers round to them.  ([SpecFloat] computes with unbounded numbers.) *)

From Stdlib Require Import ZArith Lia Bool SpecFloat.
From stdpp Require Import base tactics numbers.
From S2P Require Import Prelude Words.

#[local] Open Scope Z_scope.

#[local] Abbreviation fexp := (fexp prec emax).

(** a number of the machine *)
Definition is_double (v : spec_float) : Prop := valid_binary prec emax v = true.

(** ** Digits *)

Lemma digits_pos p : Zpos (digits2_pos p) = Z.log2 (Zpos p) + 1.
Proof.
  assert (H : digits2_pos p = Pos.size p) by (induction p; cbn; congruence).
  rewrite H. destruct p as [p | p |]; [| | done]; cbn [Pos.size Z.log2]; lia.
Qed.

Lemma digits_nonneg m : 0 <= m → 0 <= Zdigits2 m.
Proof. destruct m; cbn; lia. Qed.

Lemma digits_log m : 0 < m → Zdigits2 m = Z.log2 m + 1.
Proof. destruct m; [lia | intros _; apply digits_pos | lia]. Qed.

Lemma digits_le m n : 0 <= m <= n → Zdigits2 m <= Zdigits2 n.
Proof.
  intros H. destruct (Z.eq_dec m 0) as [-> | Hm]; [apply (digits_nonneg n); lia |].
  rewrite !digits_log by lia. pose proof (Z.log2_le_mono m n). lia.
Qed.

Lemma digits_div m n :
  0 <= m → 0 <= n → Zdigits2 (m / 2 ^ n) = Z.max 0 (Zdigits2 m - n).
Proof.
  intros Hm Hn. destruct (Z.eq_dec m 0) as [-> | Hm0].
  { rewrite Z.div_0_l by (apply Z.pow_nonzero; lia). cbn. lia. }
  rewrite (digits_log m) by lia. pose proof (Z.log2_nonneg m).
  destruct (Z_lt_le_dec (Z.log2 m) n) as [Hlt | Hge].
  - rewrite Z.div_small; [cbn; lia |]. split; [lia |].
    pose proof (Z.log2_spec m ltac:(lia)) as [_ Hs].
    pose proof (Z.pow_le_mono_r 2 (Z.succ (Z.log2 m)) n). lia.
  - rewrite <- Z.shiftr_div_pow2 by lia.
    assert (Hpos : 0 < Z.shiftr m n).
    { rewrite Z.shiftr_div_pow2 by lia. apply Z.div_str_pos. split; [apply Z.pow_pos_nonneg; lia |].
      pose proof (Z.log2_spec m ltac:(lia)) as [Hs _].
      pose proof (Z.pow_le_mono_r 2 n (Z.log2 m)). lia. }
    rewrite digits_log by done. rewrite Z.log2_shiftr by lia. lia.
Qed.

(** ** Shifts *)

Lemma shr_1_m r : 0 <= shr_m r → shr_m (shr_1 r) = shr_m r / 2.
Proof.
  destruct r as [m r s]. cbn [shr_m]. intros Hm. rewrite <- Z.div2_div.
  destruct m as [| p | p]; [done | by destruct p | lia].
Qed.

Lemma iter_shr n : ∀ r, 0 <= shr_m r →
  shr_m (SpecFloat.iter_pos shr_1 n r) = shr_m r / 2 ^ Zpos n ∧ 0 <= shr_m (SpecFloat.iter_pos shr_1 n r).
Proof.
  assert (Hone : ∀ r, 0 <= shr_m r → shr_m (shr_1 r) = shr_m r / 2 ^ 1 ∧ 0 <= shr_m (shr_1 r)).
  { intros r Hr. rewrite shr_1_m by done. split; [done | by apply Z.div_pos]. }
  assert (Htwo : ∀ (n : positive) (f : shr_record → shr_record) r,
    (∀ r, 0 <= shr_m r → shr_m (f r) = shr_m r / 2 ^ Zpos n ∧ 0 <= shr_m (f r)) →
    0 <= shr_m r → shr_m (f (f r)) = shr_m r / 2 ^ (2 * Zpos n) ∧ 0 <= shr_m (f (f r))).
  { intros k f r Hf Hr. destruct (Hf r Hr) as [E1 H1]. destruct (Hf _ H1) as [E2 H2]. split; [| done].
    rewrite E2, E1, Z.div_div by (apply Z.pow_nonzero || apply Z.pow_pos_nonneg; lia).
    rewrite <- Z.pow_add_r by lia. do 2 f_equal; lia. }
  induction n as [n IH | n IH |]; intros r Hr; cbn [SpecFloat.iter_pos].
  - destruct (Hone r Hr) as [E1 H1]. destruct (Htwo n (SpecFloat.iter_pos shr_1 n) _ IH H1) as [E2 H2].
    split; [| done]. rewrite E2, E1, Z.div_div by (apply Z.pow_nonzero || apply Z.pow_pos_nonneg; lia).
    rewrite <- Z.pow_add_r by lia. do 2 f_equal; lia.
  - destruct (Htwo n (SpecFloat.iter_pos shr_1 n) r IH Hr) as [E2 H2]. split; [| done]. rewrite E2. f_equal.
  - by apply Hone.
Qed.

(** one rounding step: the exponent becomes the one of the number of digits *)
Lemma shr_fexp_spec m e l r e' :
  0 <= m → e <= fexp (Zdigits2 m + e) → shr_fexp prec emax m e l = (r, e') →
  e' = fexp (Zdigits2 m + e) ∧ 0 <= shr_m r ∧ shr_m r = m / 2 ^ (e' - e).
Proof.
  intros Hm He. unfold shr_fexp, shr. set (n := fexp (Zdigits2 m + e) - e).
  assert (Hl : shr_m (shr_record_of_loc m l) = m) by (by destruct l as [| []]).
  destruct n as [| k | k] eqn:En; [| | lia]; intros [= <- <-].
  - rewrite Hl. assert (E : e = fexp (Zdigits2 m + e)) by lia. split; [done |]. split; [done |].
    rewrite Z.sub_diag. change (2 ^ 0) with 1. by rewrite Z.div_1_r.
  - destruct (iter_shr k (shr_record_of_loc m l)) as [E Hr]; [by rewrite Hl |].
    split; [lia |]. split; [done |]. rewrite E, Hl. do 2 f_equal; lia.
Qed.

Lemma round_up m l : 0 <= m → m <= round_nearest_even m l.
Proof. intros Hm. destruct l as [| []]; cbn; try lia. destruct (Z.even m); lia. Qed.

(** ** Rounding gives a double *)

Lemma binary_round_aux_valid s m e l :
  0 <= m → e <= fexp (Zdigits2 m + e) → is_double (binary_round_aux prec emax s m e l).
Proof.
  intros Hm He. unfold binary_round_aux.
  destruct (shr_fexp prec emax m e l) as [r1 e1] eqn:E1.
  destruct (shr_fexp_spec m e l r1 e1 Hm He E1) as (He1 & Hr1 & Em1).
  set (m1 := round_nearest_even (shr_m r1) (loc_of_shr_record r1)).
  pose proof (round_up (shr_m r1) (loc_of_shr_record r1) Hr1) as Hup. fold m1 in Hup.
  destruct (shr_fexp prec emax m1 e1 loc_Exact) as [r2 e2] eqn:E2.
  assert (Hd1 : Zdigits2 (shr_m r1) = Z.max 0 (Zdigits2 m - (e1 - e))) by (rewrite Em1; apply digits_div; lia).
  pose proof (digits_le (shr_m r1) m1 ltac:(lia)) as Hle.
  assert (He2 : e1 <= fexp (Zdigits2 m1 + e1)).
  { unfold SpecFloat.fexp, emin, prec, emax in *. lia. }
  destruct (shr_fexp_spec m1 e1 loc_Exact r2 e2 ltac:(lia) He2 E2) as (He2' & Hr2 & Em2).
  assert (Hd2 : Zdigits2 (shr_m r2) = Z.max 0 (Zdigits2 m1 - (e2 - e1))) by (rewrite Em2; apply digits_div; lia).
  destruct (shr_m r2) as [| p | p] eqn:Ep; [done | | lia].
  destruct (e2 <=? emax - prec) eqn:Ec; [| done]. unfold is_double, valid_binary, bounded, canonical_mantissa.
  rewrite Ec, andb_true_r. apply Z.eqb_eq. cbn [Zdigits2] in Hd2.
  rewrite He2' at 2. f_equal. lia.
Qed.

Lemma shl_align_spec m e e' :
  ∃ k, 0 <= k ∧ shl_align m e e' = (Pos.shiftl m (Z.to_N k), e - k) ∧ (k = Z.max 0 (e - e')).
Proof.
  unfold shl_align. destruct (e' - e) as [| d | d] eqn:E.
  - exists 0. cbn. split; [lia |]. split; [f_equal; lia | lia].
  - exists 0. cbn. split; [lia |]. split; [f_equal; lia | lia].
  - exists (Zpos d). cbn. split; [lia |]. split; [f_equal; lia | lia].
Qed.

Lemma digits_shiftl m k : 0 <= k → Zpos (digits2_pos (Pos.shiftl m (Z.to_N k))) = Zpos (digits2_pos m) + k.
Proof.
  intros Hk. rewrite !digits_pos.
  assert (E : Zpos (Pos.shiftl m (Z.to_N k)) = Z.shiftl (Zpos m) k).
  { destruct k as [| k | k]; [done | | lia]. 
    exact (Pos.iter_swap_gen _ _ Zpos xO (Z.mul 2) (λ _, eq_refl) k m). }
  rewrite E, Z.log2_shiftl by lia. lia.
Qed.

Lemma binary_round_valid s m e : is_double (binary_round prec emax s m e).
Proof.
  unfold binary_round. set (x := fexp (Zpos (digits2_pos m) + e)).
  destruct (shl_align_spec m e x) as (k & Hk & E & Hkx). rewrite E.
  apply binary_round_aux_valid; [lia |]. cbn [Zdigits2]. rewrite digits_shiftl by done.
  replace (Zpos (digits2_pos m) + k + (e - k)) with (Zpos (digits2_pos m) + e) by lia. fold x. lia.
Qed.

Lemma normalize_double m e s : is_double (binary_normalize prec emax m e s).
Proof. destruct m as [| p | p]; [done | apply binary_round_valid | apply binary_round_valid]. Qed.

Lemma SFadd_double x y : is_double x → is_double y → is_double (SFadd prec emax x y).
Proof.
  intros Hx Hy. destruct x as [[]|[]| | sx mx ex], y as [[]|[]| | sy my ey]; try done.
  apply normalize_double.
Qed.

(** ** The encoding *)

Lemma double_cases s m e :
  is_double (S754_finite s m e) →
  (Zpos m < 2 ^ 52 ∧ e = -1074) ∨ (2 ^ 52 <= Zpos m < 2 ^ 53 ∧ -1074 <= e <= 971).
Proof.
  unfold is_double, valid_binary, bounded, canonical_mantissa, SpecFloat.fexp, emin, prec, emax.
  intros [Hc%Z.eqb_eq He%Z.leb_le]%andb_prop. rewrite digits_pos in Hc.
  pose proof (Z.log2_spec (Zpos m) ltac:(lia)) as [Hlo Hhi].
  destruct (Z_lt_le_dec (Z.log2 (Zpos m)) 52) as [Hlt | Hge].
  - left. pose proof (Z.pow_le_mono_r 2 (Z.succ (Z.log2 (Zpos m))) 52 ltac:(lia) ltac:(lia)). lia.
  - right. assert (Z.log2 (Zpos m) = 52) as El by lia. rewrite El in *. lia.
Qed.

Lemma float_of_fields (s : bool) E M :
  0 <= E < 2047 → 0 <= M < 2 ^ 52 →
  float_of_bits ((if s then 2 ^ 63 else 0) + E * 2 ^ 52 + M) =
    if E =? 0 then match M with Zpos p => S754_finite s p (-1074) | _ => S754_zero s end
    else match M + 2 ^ 52 with Zpos p => S754_finite s p (E - 1075) | _ => S754_nan end.
Proof.
  intros HE HM. set (b := _ + M).
  assert (Hs : Z.testbit b 63 = s).
  { rewrite Z.testbit_eqb by lia. destruct s; unfold b.
    - apply Z.eqb_eq. replace ((2 ^ 63 + E * 2 ^ 52 + M) / 2 ^ 63) with 1; [done |].
      apply Z.div_unique with (E * 2 ^ 52 + M); lia.
    - apply Z.eqb_neq. rewrite Z.div_small by lia. done. }
  assert (He : Z.land (Z.shiftr b 52) 2047 = E).
  { change 2047 with (Z.ones 11). rewrite Z.land_ones, Z.shiftr_div_pow2 by lia.
    replace (b / 2 ^ 52) with ((if s then 2 ^ 11 else 0) + E).
    - destruct s; [| apply Z.mod_small; lia]. symmetry. apply Z.mod_unique with 1; lia.
    - apply Z.div_unique with M; [lia |]. unfold b. destruct s; lia. }
  assert (Hm : Z.land b (Z.ones 52) = M).
  { rewrite Z.land_ones by lia. symmetry.
    apply Z.mod_unique with ((if s then 2 ^ 11 else 0) + E); [lia |]. unfold b. destruct s; lia. }
  unfold float_of_bits. rewrite Hs, He, Hm. destruct (E =? 0); [done |].
  by rewrite (proj2 (Z.eqb_neq E 2047)) by lia.
Qed.

(** what a double denotes survives its encoding *)
Lemma double_bits v : is_double v → float_of_bits (bits_of_float v) = v.
Proof.
  intros Hv. destruct v as [[]|[]| | s m e]; [by vm_compute.. |].
  unfold bits_of_float. destruct (double_cases s m e Hv) as [[Hm ->] | [Hm He]].
  - rewrite (proj2 (Z.ltb_lt _ _)) by done.
    pose proof (float_of_fields s 0 (Zpos m) ltac:(lia) ltac:(lia)) as E. cbn [Z.eqb] in E.
    rewrite <- E. f_equal. lia.
  - rewrite (proj2 (Z.ltb_ge _ _)) by lia.
    pose proof (float_of_fields s (e + 1075) (Zpos m - 2 ^ 52) ltac:(lia) ltac:(lia)) as E.
    rewrite (proj2 (Z.eqb_neq (e + 1075) 0)) in E by lia.
    replace (Zpos m - 2 ^ 52 + 2 ^ 52) with (Zpos m) in E by lia.
    replace (e + 1075 - 1075) with e in E by lia. rewrite <- E. f_equal; lia.
Qed.

(** every 64 bits denote a double *)
Lemma bits_double b : is_double (float_of_bits b).
Proof.
  unfold float_of_bits. set (E := Z.land (Z.shiftr b 52) 2047). set (M := Z.land b (Z.ones 52)).
  assert (HE : 0 <= E < 2048).
  { unfold E. change 2047 with (Z.ones 11). rewrite Z.land_ones by lia. by apply Z.mod_pos_bound. }
  assert (HM : 0 <= M < 2 ^ 52).
  { unfold M. rewrite Z.land_ones by lia. by apply Z.mod_pos_bound. }
  unfold is_double. destruct (E =? 0) eqn:E0.
  - destruct M as [| p | p]; [done | | done].
    unfold valid_binary, bounded, canonical_mantissa, SpecFloat.fexp, emin, prec, emax.
    rewrite digits_pos. pose proof (Z.log2_lt_pow2 (Zpos p) 52 ltac:(lia)). apply andb_true_intro.
    split; [apply Z.eqb_eq; lia | done].
  - destruct (E =? 2047) eqn:E1; [by destruct (M =? 0) |].
    apply Z.eqb_neq in E0, E1. destruct (M + 2 ^ 52) as [| p | p] eqn:Ep; [done | | done].
    unfold valid_binary, bounded, canonical_mantissa, SpecFloat.fexp, emin, prec, emax.
    assert (Hl : Z.log2 (Zpos p) = 52) by (apply Z.log2_unique; lia).
    rewrite digits_pos, Hl. apply andb_true_intro. split; [apply Z.eqb_eq; lia | apply Z.leb_le; lia].
Qed.

(** ** Order *)

(** [<] is what [>=] is not *)
Lemma SFltb_leb x y : x ≠ S754_nan → y ≠ S754_nan → SFltb x y = negb (SFleb y x).
Proof.
  intros Hx Hy. unfold SFltb, SFleb.
  destruct x as [[]|[]| |[] m e], y as [[]|[]| |[] n f]; cbn; try done.
  all: rewrite (Z.compare_antisym e f); destruct (e ?= f); cbn; try done;
    change (PosDef.Pos.compare_cont Eq m n) with (m ?= n)%positive;
    change (PosDef.Pos.compare_cont Eq n m) with (n ?= m)%positive;
    rewrite (Pos.compare_antisym m n); by destruct (m ?= n)%positive.
Qed.

Lemma SFltb_numbers x y : SFltb x y = true → x ≠ S754_nan ∧ y ≠ S754_nan.
Proof. by destruct x, y. Qed.
Lemma SFleb_numbers x y : SFleb x y = true → x ≠ S754_nan ∧ y ≠ S754_nan.
Proof. by destruct x, y. Qed.

Lemma SFltb_not_leb x y : SFltb x y = true → SFleb y x = false.
Proof. intros H. destruct (SFltb_numbers _ _ H). rewrite SFltb_leb in H by done. by apply negb_true_iff. Qed.

Lemma SFleb_ltb_trans x y z : SFleb x y = true → SFltb y z = true → SFltb x z = true.
Proof.
  intros Hxy Hyz. destruct (SFleb_numbers _ _ Hxy) as [Hx Hy], (SFltb_numbers _ _ Hyz) as [_ Hz].
  rewrite SFltb_leb by done. destruct (SFleb z x) eqn:E; [| done].
  pose proof (SFleb_trans z x y Hz Hx Hy E Hxy) as H. by rewrite (SFltb_not_leb y z Hyz) in H.
Qed.

Lemma SFltb_trans x y z : SFltb x y = true → SFltb y z = true → SFltb x z = true.
Proof.
  intros Hxy. apply SFleb_ltb_trans. unfold SFltb in Hxy. unfold SFleb.
  by destruct (SFcompare x y) as [[] |].
Qed.
