(* ===== verification/Types.v ===== *)
(** Types and predicates: [vm/types.{hpp,cpp}] and [vm/predicate.{hpp,cpp}].
    A predicate is read from its 104-byte descriptor in the byte code file; the
    fields the code leaves uninitialised are [None]. *)

From Stdlib Require Import ZArith Lia Bool Ascii String.
From stdpp Require Import base tactics list numbers option strings pretty.
From S2P Require Import Prelude Words.

#[local] Open Scope Z_scope.

(** [utils::to_string] of an unsigned number *)
Definition num_string (n : Z) : string := pretty n.

(** ** vm/types.hpp *)

(** A byte of the file is cast to [field_type] unchecked; one that names no
    enumerator is [FIELD_UNKNOWN]. *)
Inductive field_type : Type :=
  | FIELD_INT | FIELD_FLOAT | FIELD_NODE
  | FIELD_LIST_INT | FIELD_LIST_FLOAT | FIELD_LIST_NODE
  | FIELD_STRING
  | FIELD_UNKNOWN (b : Z).

#[global] Instance field_type_eq_dec : EqDecision field_type.
Proof. solve_decision. Defined.

Definition field_type_code (t : field_type) : Z :=
  match t with
  | FIELD_INT => 0 | FIELD_FLOAT => 1 | FIELD_NODE => 2
  | FIELD_LIST_INT => 3 | FIELD_LIST_FLOAT => 4 | FIELD_LIST_NODE => 5
  | FIELD_STRING => 9
  | FIELD_UNKNOWN b => b
  end.

Definition field_type_of (b : Z) : field_type :=
  match b with
  | 0 => FIELD_INT | 1 => FIELD_FLOAT | 2 => FIELD_NODE
  | 3 => FIELD_LIST_INT | 4 => FIELD_LIST_FLOAT | 5 => FIELD_LIST_NODE
  | 9 => FIELD_STRING
  | _ => FIELD_UNKNOWN b
  end.

(** a type the virtual machine knows *)
Definition field_type_known (t : field_type) : bool :=
  match t with FIELD_UNKNOWN _ => false | _ => true end.

Inductive aggregate_type : Type :=
  | AGG_FIRST | AGG_MAX_INT | AGG_MIN_INT | AGG_SUM_INT
  | AGG_MAX_FLOAT | AGG_MIN_FLOAT | AGG_SUM_FLOAT | AGG_SUM_LIST_FLOAT
  | AGG_UNKNOWN (b : Z).

#[global] Instance aggregate_type_eq_dec : EqDecision aggregate_type.
Proof. solve_decision. Defined.

Definition aggregate_type_code (t : aggregate_type) : Z :=
  match t with
  | AGG_FIRST => 1 | AGG_MAX_INT => 2 | AGG_MIN_INT => 3 | AGG_SUM_INT => 4
  | AGG_MAX_FLOAT => 5 | AGG_MIN_FLOAT => 6 | AGG_SUM_FLOAT => 7
  | AGG_SUM_LIST_FLOAT => 11
  | AGG_UNKNOWN b => b
  end.

Definition aggregate_type_of (b : Z) : aggregate_type :=
  match b with
  | 1 => AGG_FIRST | 2 => AGG_MAX_INT | 3 => AGG_MIN_INT | 4 => AGG_SUM_INT
  | 5 => AGG_MAX_FLOAT | 6 => AGG_MIN_FLOAT | 7 => AGG_SUM_FLOAT
  | 11 => AGG_SUM_LIST_FLOAT
  | _ => AGG_UNKNOWN b
  end.

Inductive aggregate_safeness : Type :=
  | AGG_LOCALLY_GENERATED | AGG_NEIGHBORHOOD | AGG_NEIGHBORHOOD_AND_SELF
  | AGG_IMMEDIATE | AGG_UNSAFE.

#[global] Instance aggregate_safeness_eq_dec : EqDecision aggregate_safeness.
Proof. solve_decision. Defined.

Definition aggregate_safeness_uses_neighborhood (s : aggregate_safeness) : bool :=
  match s with AGG_NEIGHBORHOOD | AGG_NEIGHBORHOOD_AND_SELF => true | _ => false end.

(** ** vm/types.cpp *)

Definition field_type_size (type : field_type) : res Z :=
  match type with
  | FIELD_INT => Ok 4
  | FIELD_FLOAT => Ok 8
  | FIELD_NODE => Ok 4
  | FIELD_STRING => Ok 8
  | FIELD_LIST_INT | FIELD_LIST_FLOAT | FIELD_LIST_NODE => Ok 8
  | FIELD_UNKNOWN b =>
      Err (type_error ("Unrecognized field type " +:+ num_string b +:+ " (field_type_size)"))
  end.

Definition field_type_string (type : field_type) : res string :=
  match type with
  | FIELD_INT => Ok "int"
  | FIELD_FLOAT => Ok "float"
  | FIELD_NODE => Ok "node"
  | FIELD_LIST_INT => Ok "int list"
  | FIELD_LIST_FLOAT => Ok "float list"
  | FIELD_LIST_NODE => Ok "node list"
  | FIELD_STRING => Ok "string"
  | FIELD_UNKNOWN b =>
      Err (type_error ("Unrecognized field type " +:+ num_string b +:+ " (field_type_string)"))
  end%string.

Definition aggregate_type_string (type : aggregate_type) : res string :=
  match type with
  | AGG_FIRST => Ok "first"
  | AGG_MIN_FLOAT | AGG_MIN_INT => Ok "min"
  | AGG_MAX_FLOAT | AGG_MAX_INT => Ok "max"
  | AGG_SUM_FLOAT | AGG_SUM_INT | AGG_SUM_LIST_FLOAT => Ok "sum"
  | AGG_UNKNOWN _ => Err assert_fail
  end%string.

(** ** Strings of bytes *)

Definition byte_ascii (b : byte) : ascii := ascii_of_N (Z.to_N b).
Definition ascii_byte (a : ascii) : byte := Z.of_N (N_of_ascii a).

Fixpoint string_of_bytes (bs : list byte) : string :=
  match bs with
  | [] => EmptyString
  | b :: bs => String (byte_ascii b) (string_of_bytes bs)
  end.

Fixpoint bytes_of_string (s : string) : list byte :=
  match s with
  | EmptyString => []
  | String a s => ascii_byte a :: bytes_of_string s
  end.

Lemma string_of_bytes_of_string s : string_of_bytes (bytes_of_string s) = s.
Proof.
  induction s as [|a s IH]; [done|]. simpl. rewrite IH. f_equal.
  unfold byte_ascii, ascii_byte. by rewrite N2Z.id, ascii_N_embedding.
Qed.

(** [string((const char* )p)]: the bytes up to the NUL, which must be there *)
Fixpoint c_string (bs : list byte) : res string :=
  match bs with
  | [] => Err undefined_behaviour
  | b :: bs => if b =? 0 then Ok EmptyString
               else let* s := c_string bs in Ok (String (byte_ascii b) s)
  end.

Definition byte_at (bs : list byte) (i : nat) : res byte := of_option (bs !! i).

(** ** vm/predicate.hpp *)

Definition PRED_ARGS_MAX : nat := 32.
Definition PRED_NAME_SIZE_MAX : nat := 32.
Definition PRED_DESCRIPTOR_SIZE : nat := 104.

Record aggregate_info : Type := mk_aggregate_info {
  agg_field : Z;
  agg_type : aggregate_type;
  agg_safeness : aggregate_safeness;
  agg_local_level : option Z;
  agg_remote_pred_id : option Z;
  agg_remote_pred : option Z  (** the id of the predicate pointed to *)
}.

Record predicate : Type := mk_predicate {
  predicate_descriptor_buffer : list (option byte);
  pred_id : Z;
  pred_name : string;
  pred_level : Z;
  pred_types : list field_type;
  fields_size : list Z;
  fields_offset : list Z;
  tuple_size : Z;
  agg_info : option aggregate_info;
  is_route : bool;
  is_linear : bool;
  is_reverse_route : bool;
  is_action : bool;
  is_reused : bool
}.

Definition is_aggregate (p : predicate) : bool := bool_decide (is_Some (agg_info p)).
Definition get_agg_safeness (p : predicate) : res aggregate_safeness :=
  let* a := of_option (agg_info p) in Ok (agg_safeness a).
Definition is_unsafe_agg (p : predicate) : res bool :=
  let* s := get_agg_safeness p in
  Ok (bool_decide (s = AGG_UNSAFE) || bool_decide (s = AGG_IMMEDIATE)).
Definition is_route_pred (p : predicate) : bool := is_route p || is_reverse_route p.
Definition is_linear_pred (p : predicate) : bool := is_linear p.
Definition is_persistent_pred (p : predicate) : bool := negb (is_linear_pred p).
Definition num_fields (p : predicate) : nat := length (pred_types p).
Definition get_field_type (p : predicate) (field : nat) : res field_type :=
  of_option (pred_types p !! field).
Definition get_field_size (p : predicate) (field : nat) : res Z :=
  of_option (fields_size p !! field).

(** ** vm/predicate.cpp *)

Definition PRED_AGG : Z := 0x01.
Definition PRED_ROUTE : Z := 0x02.
Definition PRED_REVERSE_ROUTE : Z := 0x04.
Definition PRED_LINEAR : Z := 0x08.
Definition PRED_ACTION : Z := 0x10.
Definition PRED_REUSED : Z := 0x20.
Definition PRED_AGG_LOCAL : Z := 0x01.
Definition PRED_AGG_REMOTE : Z := 0x02.
Definition PRED_AGG_REMOTE_AND_SELF : Z := 0x04.
Definition PRED_AGG_IMMEDIATE : Z := 0x08.
Definition PRED_AGG_UNSAFE : Z := 0x00.

(** [prop & mask] as a condition *)
Definition has_flag (prop mask : Z) : bool := negb (Z.land prop mask =? 0).

(** The 32 bytes [memcpy] takes from [import_name.c_str()]: the characters, the
    NUL, and for a short name whatever follows it in memory. *)
Definition name_image (name : string) : list (option byte) :=
  take PRED_NAME_SIZE_MAX
    (map Some (bytes_of_string name ++ [0]) ++ replicate PRED_NAME_SIZE_MAX None).

(** offset of the name in the descriptor: code size, properties, aggregate,
    level, number of fields, argument types *)
Definition NAME_OFFSET : nat := 4 + 1 + 1 + 1 + 1 + PRED_ARGS_MAX.
Definition AGG_INFO_OFFSET : nat := NAME_OFFSET + PRED_NAME_SIZE_MAX.

Definition overwrite {A} (off : nat) (data l : list A) : list A :=
  take off l ++ data ++ drop (off + length data) l.

(** the part of the descriptor after the name *)
Definition read_agg_safeness (buf : list byte) (a : aggregate_info) : res aggregate_info :=
  let* tag := byte_at buf AGG_INFO_OFFSET in
  let* arg := byte_at buf (AGG_INFO_OFFSET + 1) in
  let with_safeness s l r :=
    mk_aggregate_info (agg_field a) (agg_type a) s l r (agg_remote_pred a) in
  if tag =? PRED_AGG_LOCAL then
    Ok (with_safeness AGG_LOCALLY_GENERATED (Some arg) (agg_remote_pred_id a))
  else if tag =? PRED_AGG_REMOTE then
    Ok (with_safeness AGG_NEIGHBORHOOD (agg_local_level a) (Some arg))
  else if tag =? PRED_AGG_REMOTE_AND_SELF then
    Ok (with_safeness AGG_NEIGHBORHOOD_AND_SELF (agg_local_level a) (Some arg))
  else if tag =? PRED_AGG_IMMEDIATE then
    Ok (with_safeness AGG_IMMEDIATE (agg_local_level a) (agg_remote_pred_id a))
  else if has_flag tag PRED_AGG_UNSAFE then
    Ok (with_safeness AGG_UNSAFE (agg_local_level a) (agg_remote_pred_id a))
  else Ok a.

(** the bytes that are copied from a buffer of which [buf] is known, from its start *)
Definition descriptor_image (buf : list byte) : list (option byte) :=
  take PRED_DESCRIPTOR_SIZE (map Some buf ++ replicate PRED_DESCRIPTOR_SIZE None).

(** The result is the predicate and the code size.  [buf] is what is known of the
    buffer, from its start. *)
Definition make_predicate_from_buf (buf : list byte) (id : Z) : res (predicate * Z) :=
  let desc := descriptor_image buf in
  let* size_bytes := memcpy_from buf 0 4 in
  let* prop := byte_at buf 4 in
  let* agg := byte_at buf 5 in
  let* level := byte_at buf 6 in
  let* nfields := byte_at buf 7 in
  let* types := memcpy_from buf 8 (Z.to_nat nfields) in
  let* name := c_string (drop NAME_OFFSET buf) in
  let info := mk_aggregate_info (Z.land agg 0xf)
                (aggregate_type_of (Z.shiftr (Z.land 0xf0 agg) 4)) AGG_UNSAFE None None None in
  let* info :=
    if has_flag prop PRED_AGG
    then let* a := read_agg_safeness buf info in Ok (Some a)
    else Ok None in
  Ok (mk_predicate (overwrite NAME_OFFSET (name_image (name +:+ ".import")) desc)
        id name level (map field_type_of types) [] [] 0 info
        (has_flag prop PRED_ROUTE) (has_flag prop PRED_LINEAR)
        (has_flag prop PRED_REVERSE_ROUTE) (has_flag prop PRED_ACTION)
        (has_flag prop PRED_REUSED),
      le_value size_bytes).

Definition set_descriptor (d : list (option byte)) (p : predicate) : predicate :=
  mk_predicate d (pred_id p) (pred_name p) (pred_level p) (pred_types p) (fields_size p)
    (fields_offset p) (tuple_size p) (agg_info p) (is_route p) (is_linear p)
    (is_reverse_route p) (is_action p) (is_reused p).

Definition rename (file : string) (p : predicate) : predicate :=
  set_descriptor
    (overwrite NAME_OFFSET (name_image (pred_name p +:+ "." +:+ file))
       (predicate_descriptor_buffer p)) p.

(** the loop: sizes and offsets of the types from [offset] on *)
Fixpoint field_layout (types : list field_type) (offset : Z) : res (list Z * list Z * Z) :=
  match types with
  | [] => Ok ([], [], offset)
  | t :: types =>
      let* size := field_type_size t in
      let* rest := field_layout types (offset + size) in
      let '(sizes, offsets, total) := rest in
      Ok (size :: sizes, offset :: offsets, total)
  end.

Definition build_field_info (p : predicate) : res predicate :=
  let* layout := field_layout (pred_types p) 0 in
  let '(sizes, offsets, total) := layout in
  Ok (mk_predicate (predicate_descriptor_buffer p) (pred_id p) (pred_name p)
        (pred_level p) (pred_types p) sizes offsets total (agg_info p) (is_route p)
        (is_linear p) (is_reverse_route p) (is_action p) (is_reused p)).

(** [get_predicate] is the program's: it gives the predicate of an id, or NULL *)
Definition build_aggregate_info (get_predicate : Z → option predicate)
    (a : aggregate_info) : res aggregate_info :=
  if aggregate_safeness_uses_neighborhood (agg_safeness a) then
    let* rid := of_option (agg_remote_pred_id a) in
    Ok (mk_aggregate_info (agg_field a) (agg_type a) (agg_safeness a) (agg_local_level a)
          (agg_remote_pred_id a) (pred_id <$> get_predicate rid))
  else Ok a.

Definition cache_info (get_predicate : Z → option predicate) (p : predicate) : res predicate :=
  let* p := build_field_info p in
  match agg_info p with
  | None => Ok p
  | Some a =>
      let* a := build_aggregate_info get_predicate a in
      Ok (mk_predicate (predicate_descriptor_buffer p) (pred_id p) (pred_name p)
            (pred_level p) (pred_types p) (fields_size p) (fields_offset p) (tuple_size p)
            (Some a) (is_route p) (is_linear p) (is_reverse_route p) (is_action p)
            (is_reused p))
  end.

(** the arguments of [print_simple], separated by commas *)
Fixpoint print_args (agg : option aggregate_info) (i : Z) (types : list field_type)
  : res string :=
  match types with
  | [] => Ok EmptyString
  | t :: types =>
      let* typ := field_type_string t in
      let* arg :=
        match agg with
        | Some a =>
            if (agg_field a =? i)%Z
            then let* s := aggregate_type_string (agg_type a) in Ok (s +:+ " " +:+ typ)
            else Ok typ
        | None => Ok typ
        end in
      let* rest := print_args agg (i + 1) types in
      Ok ((if (i =? 0)%Z then EmptyString else ", ") +:+ arg +:+ rest)
  end%string.

Definition print_simple (p : predicate) : res string :=
  let* args := print_args (agg_info p) 0 (pred_types p) in
  Ok ((if is_persistent_pred p then "!" else "") +:+ pred_name p +:+ "(" +:+ args +:+ ")")%string.

(** how an aggregate is computed; [remote_name] gives the name of a predicate by its id *)
Definition print_safeness (remote_name : Z → option string) (a : aggregate_info) : res string :=
  let remote :=
    let* id := of_option (agg_remote_pred a) in
    let* name := of_option (remote_name id) in
    Ok ("neighborhood=" +:+ name)%string in
  match agg_safeness a with
  | AGG_LOCALLY_GENERATED =>
      let* l := of_option (agg_local_level a) in Ok ("local,local_level=" +:+ num_string l)%string
  | AGG_NEIGHBORHOOD => remote
  | AGG_NEIGHBORHOOD_AND_SELF => let* s := remote in Ok (s +:+ ",self")%string
  | AGG_UNSAFE => Ok "unsafe"%string
  | AGG_IMMEDIATE => Ok "immediate"%string
  end.

Definition print (remote_name : Z → option string) (p : predicate) : res string :=
  let* simple := print_simple p in
  let flag (b : bool) (s : string) : string := if b then s else EmptyString in
  let* agg :=
    match agg_info p with
    | Some a => let* s := print_safeness remote_name a in Ok ("[" +:+ s +:+ "]")%string
    | None => Ok EmptyString
    end in
  Ok (simple +:+ " [size=" +:+ num_string (tuple_size p) +:+ flag (is_aggregate p) ",agg"
      +:+ ",strat_level=" +:+ num_string (pred_level p) +:+ flag (is_route p) ",route"
      +:+ flag (is_reverse_route p) ",reverse_route" +:+ flag (is_linear p) ",linear"
      +:+ flag (is_action p) ",action" +:+ flag (is_reused p) ",reused" +:+ "]" +:+ agg)%string.

(** operator==: id, arity, name, then the types field by field *)
Fixpoint types_eqb (ts us : list field_type) : bool :=
  match ts, us with
  | t :: ts, u :: us => bool_decide (t = u) && types_eqb ts us
  | _, _ => true
  end.

Definition predicate_eqb (p other : predicate) : bool :=
  if negb (pred_id p =? pred_id other) then false
  else if negb (Nat.eqb (num_fields p) (num_fields other)) then false
  else if negb (String.eqb (pred_name p) (pred_name other)) then false
  else types_eqb (pred_types p) (pred_types other).

(** ** Lemmas *)

Lemma field_type_of_code t :
  field_type_known t = true → field_type_of (field_type_code t) = t.
Proof. by destruct t. Qed.

Lemma aggregate_type_of_code t :
  (∀ b, t ≠ AGG_UNKNOWN b) → aggregate_type_of (aggregate_type_code t) = t.
Proof. intros H. destruct t; try done. by destruct (H b). Qed.

Lemma field_type_size_known t :
  field_type_known t = true ↔ ∃ n, field_type_size t = Ok n.
Proof. destruct t; simpl; split; naive_solver. Qed.

Lemma field_type_size_pos t n : field_type_size t = Ok n → 4 <= n <= 8.
Proof. destruct t; simpl; intros; simplify_eq; lia. Qed.

Lemma types_eqb_eq ts us :
  length ts = length us → types_eqb ts us = true ↔ ts = us.
Proof.
  revert us. induction ts as [|t ts IH]; intros [|u us] Hl; simplify_eq/=; [done|].
  rewrite andb_true_iff, bool_decide_eq_true, IH by done. naive_solver.
Qed.

Lemma field_layout_ok types offset sizes offsets total :
  field_layout types offset = Ok (sizes, offsets, total) →
  length sizes = length types ∧ length offsets = length types ∧
  offset <= total ∧
  (∀ i o n, offsets !! i = Some o → sizes !! i = Some n →
     offset <= o ∧ o + n <= total ∧ 4 <= n <= 8 ∧
     ∀ j o', (i < j)%nat → offsets !! j = Some o' → o + n <= o').
Proof.
  revert offset sizes offsets total.
  induction types as [|t types IH]; intros offset sizes offsets total H; simpl in H.
  { simplify_eq. split_and!; [done|done|lia|]. intros [|i]; naive_solver. }
  res_inv. destruct x0 as [[szs ofs] tot]. simplify_eq.
  match goal with Hs : field_type_size t = Ok ?n |- _ => pose proof (field_type_size_pos t n Hs) end.
  match goal with Hl : field_layout types _ = Ok _ |- _ =>
    destruct (IH _ _ _ _ Hl) as (? & ? & ? & Hall) end.
  split_and!; [simpl; lia|simpl; lia|lia|].
  intros [|i] o n Ho Hn; simplify_eq/=.
  - split_and!; try lia. intros [|j] o' Hj Ho'; [lia|]. simpl in Ho'.
    destruct (lookup_lt_is_Some_2 szs j) as [n' Hn'].
    { apply lookup_lt_Some in Ho'. lia. }
    by destruct (Hall j o' n' Ho' Hn').
  - destruct (Hall i o n Ho Hn) as (? & ? & ? & Hj). split_and!; try lia.
    intros [|j] o' Hlt Ho'; [lia|]. apply (Hj j o'); [lia|done].
Qed.

Lemma field_layout_known types : ∀ offset,
  forallb field_type_known types = true → ∃ r, field_layout types offset = Ok r.
Proof.
  induction types as [|t ts IH]; intros offset H; cbn [field_layout]; [by eexists|].
  cbn in H. apply andb_true_iff in H as [Ht H].
  destruct (field_type_size t) as [n|] eqn:E; [|by destruct t].
  cbn [res_bind]. destruct (IH (offset + n) H) as [[[? ?] ?] ->]. by eexists.
Qed.

Lemma field_layout_total types offset :
  forallb field_type_known types = true → ∃ r, field_layout types offset = Ok r.
Proof.
  revert offset. induction types as [|t types IH]; intros offset H; simpl in *; [eauto|].
  apply andb_true_iff in H as [[n ->]%field_type_size_known H]. simpl.
  destruct (IH (offset + n) H) as [[[szs ofs] tot] ->]. simpl. eauto.
Qed.

(** [build_field_info] succeeds exactly when every field has a known type
    (it throws a type error otherwise), and then lays the fields out one after
    the other: no two overlap and all lie inside of the tuple. *)
Theorem build_field_info_layout p :
  (forallb field_type_known (pred_types p) = true ↔ ∃ p', build_field_info p = Ok p') ∧
  ∀ p', build_field_info p = Ok p' →
    pred_types p' = pred_types p ∧
    length (fields_size p') = num_fields p ∧ length (fields_offset p') = num_fields p ∧
    ∀ i o n, fields_offset p' !! i = Some o → fields_size p' !! i = Some n →
      0 <= o ∧ o + n <= tuple_size p' ∧
      ∀ j o', (i < j)%nat → fields_offset p' !! j = Some o' → o + n <= o'.
Proof.
  assert (Hok : ∀ p', build_field_info p = Ok p' → ∃ sizes offsets total,
    field_layout (pred_types p) 0 = Ok (sizes, offsets, total) ∧
    pred_types p' = pred_types p ∧ fields_size p' = sizes ∧ fields_offset p' = offsets ∧
    tuple_size p' = total).
  { intros p' H. unfold build_field_info in H. res_inv.
    destruct x as [[szs ofs] tot]. simplify_eq. eauto 10. }
  split; [split|].
  - intros H. destruct (field_layout_total _ 0 H) as [[[szs ofs] tot] Hl].
    unfold build_field_info. rewrite Hl. simpl. eauto.
  - intros [p' (szs & ofs & tot & Hl & _)%Hok]. clear Hok. revert szs ofs tot Hl. generalize 0.
    induction (pred_types p) as [|t ts IH]; intros z szs ofs tot Hl; [done|].
    simpl in *. res_inv. apply andb_true_iff. split; [apply field_type_size_known; eauto|].
    destruct x0 as [[? ?] ?]. eauto.
  - intros p' (szs & ofs & tot & Hl & Ht & <- & <- & <-)%Hok.
    destruct (field_layout_ok _ _ _ _ _ Hl) as (? & ? & ? & Hall).
    split_and!; [done..|]. intros i o n Ho Hn.
    destruct (Hall i o n Ho Hn) as (? & ? & ? & ?). split_and!; [lia|lia|done].
Qed.

(** *** The descriptor a compiler writes for a predicate *)

Definition pad (l : list byte) : list byte := l ++ replicate (32 - length l) 0.

Definition flag_byte (b : bool) (mask : Z) : Z := if b then mask else 0.

Definition prop_byte (p : predicate) : byte :=
  flag_byte (is_aggregate p) PRED_AGG + flag_byte (is_route p) PRED_ROUTE
  + flag_byte (is_reverse_route p) PRED_REVERSE_ROUTE + flag_byte (is_linear p) PRED_LINEAR
  + flag_byte (is_action p) PRED_ACTION + flag_byte (is_reused p) PRED_REUSED.

Definition agg_byte (a : option aggregate_info) : byte :=
  match a with
  | None => 0
  | Some a => agg_field a + 16 * aggregate_type_code (agg_type a)
  end.

Definition agg_info_bytes (a : option aggregate_info) : list byte :=
  let arg o := match o with Some b => b | None => 0 end in
  match a with
  | None => []
  | Some a =>
      match agg_safeness a with
      | AGG_LOCALLY_GENERATED => [PRED_AGG_LOCAL; arg (agg_local_level a)]
      | AGG_NEIGHBORHOOD => [PRED_AGG_REMOTE; arg (agg_remote_pred_id a)]
      | AGG_NEIGHBORHOOD_AND_SELF => [PRED_AGG_REMOTE_AND_SELF; arg (agg_remote_pred_id a)]
      | AGG_IMMEDIATE => [PRED_AGG_IMMEDIATE; 0]
      | AGG_UNSAFE => [PRED_AGG_UNSAFE; 0]
      end
  end.

(** the name is what the 32 bytes begin with *)
Definition descriptor_named (name : list byte) (code_size : Z) (p : predicate) : list byte :=
  le_bytes 4 code_size
  ++ [prop_byte p; agg_byte (agg_info p); pred_level p; Z.of_nat (num_fields p)]
  ++ pad (map field_type_code (pred_types p))
  ++ name
  ++ pad (agg_info_bytes (agg_info p)).

Definition descriptor (code_size : Z) (p : predicate) : list byte :=
  descriptor_named (pad (bytes_of_string (pred_name p))) code_size p.

(** an aggregate as the descriptor can hold it *)
Definition agg_describable (a : aggregate_info) : bool :=
  (0 <=? agg_field a) && (agg_field a <? 16) &&
  match agg_type a with AGG_UNKNOWN _ => false | _ => true end &&
  bool_decide (agg_remote_pred a = None) &&
  match agg_safeness a, agg_local_level a, agg_remote_pred_id a with
  | AGG_LOCALLY_GENERATED, Some _, None => true
  | AGG_NEIGHBORHOOD, None, Some _ => true
  | AGG_NEIGHBORHOOD_AND_SELF, None, Some _ => true
  | AGG_IMMEDIATE, None, None => true
  | AGG_UNSAFE, None, None => true
  | _, _, _ => false
  end.

(** a predicate before [cache_info], as the descriptor can hold it *)
Definition describable (p : predicate) : bool :=
  (length (pred_types p) <=? 32)%nat &&
  forallb field_type_known (pred_types p) &&
  (length (bytes_of_string (pred_name p)) <? 32)%nat &&
  forallb (fun b => negb (b =? 0)) (bytes_of_string (pred_name p)) &&
  match agg_info p with Some a => agg_describable a | None => true end &&
  bool_decide (fields_size p = []) && bool_decide (fields_offset p = []) &&
  (tuple_size p =? 0).

Lemma pad_length l : (length l <= 32)%nat → length (pad l) = 32%nat.
Proof. intros. unfold pad. rewrite length_app, length_replicate. lia. Qed.

Lemma memcpy_from_app pre mid post n :
  length mid = n → memcpy_from (pre ++ mid ++ post) (length pre) n = Ok mid.
Proof.
  intros <-. unfold memcpy_from. rewrite decide_True by (rewrite !length_app; lia).
  by rewrite drop_app_length, take_app_length.
Qed.

Lemma c_string_app bs rest :
  forallb (fun b => negb (b =? 0)) bs = true →
  c_string (bs ++ 0 :: rest) = Ok (string_of_bytes bs).
Proof.
  induction bs as [|b bs IH]; simpl; intros H; [done|].
  apply andb_true_iff in H as [Hb%negb_true_iff H]. rewrite Hb.
  rewrite IH by done. done.
Qed.

Lemma prop_byte_flags p :
  let b := prop_byte p in
  has_flag b PRED_AGG = is_aggregate p ∧ has_flag b PRED_ROUTE = is_route p ∧
  has_flag b PRED_REVERSE_ROUTE = is_reverse_route p ∧ has_flag b PRED_LINEAR = is_linear p ∧
  has_flag b PRED_ACTION = is_action p ∧ has_flag b PRED_REUSED = is_reused p.
Proof.
  unfold prop_byte.
  destruct (is_aggregate p), (is_route p), (is_reverse_route p), (is_linear p),
    (is_action p), (is_reused p); vm_compute; auto 10.
Qed.

Lemma agg_byte_fields a :
  agg_describable a = true →
  Z.land (agg_byte (Some a)) 0xf = agg_field a ∧
  aggregate_type_of (Z.shiftr (Z.land 0xf0 (agg_byte (Some a))) 4) = agg_type a.
Proof.
  unfold agg_describable. rewrite !andb_true_iff. intros ((((H0 & H16) & Ht) & _) & _).
  simpl. apply Z.leb_le in H0. apply Z.ltb_lt in H16.
  assert (Hf : agg_field a ∈ seqZ 0 16) by (apply elem_of_seqZ; lia).
  generalize dependent (agg_field a). intros f _ _ Hf.
  destruct (agg_type a); try done;
    (repeat (apply elem_of_cons in Hf as [->|Hf]; [vm_compute; done|]); by apply elem_of_nil in Hf).
Qed.

Lemma read_agg_safeness_ok buf a :
  agg_describable a = true →
  (∀ i x, agg_info_bytes (Some a) !! i = Some x → byte_at buf (AGG_INFO_OFFSET + i) = Ok x) →
  read_agg_safeness buf
    (mk_aggregate_info (agg_field a) (agg_type a) AGG_UNSAFE None None None) = Ok a.
Proof.
  unfold agg_describable. rewrite !andb_true_iff. intros [[_ Hrp] Hs] Hat.
  apply bool_decide_eq_true in Hrp. unfold read_agg_safeness.
  assert (H0 : ∀ x, agg_info_bytes (Some a) !! 0%nat = Some x →
    byte_at buf AGG_INFO_OFFSET = Ok x) by (intros x; apply (Hat 0%nat)).
  assert (H1 : ∀ x, agg_info_bytes (Some a) !! 1%nat = Some x →
    byte_at buf (AGG_INFO_OFFSET + 1) = Ok x) by (intros x; apply (Hat 1%nat)).
  destruct a as [f t s l r rp]; cbn [agg_remote_pred agg_safeness agg_local_level
    agg_remote_pred_id] in *. subst.
  destruct s, l, r; try done; rewrite (H0 _ eq_refl), (H1 _ eq_refl); reflexivity.
Qed.

(** whatever follows the name in its 32 bytes *)
Lemma descriptor_named_reads p name code_size rest :
  length name = 32%nat → (∀ rest, c_string (name ++ rest) = Ok (pred_name p)) →
  describable p = true → 0 <= code_size < 2 ^ 32 →
  make_predicate_from_buf (descriptor_named name code_size p ++ rest) (pred_id p)
  = Ok (set_descriptor
          (overwrite NAME_OFFSET (name_image (pred_name p +:+ ".import"))
             (map Some (descriptor_named name code_size p))) p,
        code_size).
Proof.
  intros Hln Hcname. unfold describable. rewrite !andb_true_iff.
  intros (((((((Hlen & Hknown) & Hname) & Hnz) & Hagg) & Hsz) & Hoff) & Hts) Hcs.
  apply Nat.leb_le in Hlen. apply Nat.ltb_lt in Hname. apply Z.eqb_eq in Hts.
  apply bool_decide_eq_true in Hsz, Hoff.
  set (args := pad (map field_type_code (pred_types p))).
  set (aggs := pad (agg_info_bytes (agg_info p))).
  assert (Hla : length args = 32%nat) by (apply pad_length; rewrite length_map; lia).
  assert (Hlg : length aggs = 32%nat).
  { apply pad_length. destruct (agg_info p) as [a|]; simpl; [|lia].
    destruct (agg_safeness a); simpl; lia. }
  assert (Hlb : length (descriptor_named name code_size p) = 104%nat).
  { unfold descriptor_named. fold args aggs. rewrite !length_app, le_bytes_length. simpl. lia. }
  assert (Hdesc : descriptor_image (descriptor_named name code_size p ++ rest)
                  = map Some (descriptor_named name code_size p)).
  { unfold descriptor_image. rewrite map_app, <-app_assoc. apply take_app_length'.
    by rewrite length_map. }
  assert (Hsize : memcpy_from (descriptor_named name code_size p ++ rest) 0 4 = Ok (le_bytes 4 code_size)).
  { unfold descriptor_named. rewrite <-app_assoc. by apply (memcpy_from_app [] (le_bytes 4 code_size)). }
  set (hdr := le_bytes 4 code_size ++ [prop_byte p; agg_byte (agg_info p); pred_level p;
                                       Z.of_nat (num_fields p)]).
  assert (Hb : descriptor_named name code_size p ++ rest = hdr ++ args ++ name ++ aggs ++ rest).
  { unfold descriptor_named, hdr. by rewrite <-!app_assoc. }
  assert (Hhdr : length hdr = 8%nat) by done.
  assert (Htypes : memcpy_from (descriptor_named name code_size p ++ rest) 8 (num_fields p)
                   = Ok (map field_type_code (pred_types p))).
  { rewrite Hb. unfold args, pad. rewrite <-!app_assoc.
    rewrite <-Hhdr. apply memcpy_from_app. apply length_map. }
  assert (Hcn : c_string (drop NAME_OFFSET (descriptor_named name code_size p ++ rest)) = Ok (pred_name p)).
  { rewrite Hb, (app_assoc hdr), drop_app_length' by (by rewrite length_app, Hhdr, Hla).
    apply Hcname. }
  unfold make_predicate_from_buf. rewrite Hdesc, Hsize. cbn [res_bind].
  destruct (prop_byte_flags p) as (Fagg & Frt & Frr & Flin & Fact & Freu).
  assert (Hat : ∀ i x, hdr !! i = Some x → byte_at (descriptor_named name code_size p ++ rest) i = Ok x).
  { intros i x Hi. unfold byte_at. rewrite Hb, lookup_app_l, Hi; [done|]. by apply lookup_lt_Some in Hi. }
  rewrite (Hat 4%nat (prop_byte p)), (Hat 5%nat (agg_byte (agg_info p))),
    (Hat 6%nat (pred_level p)), (Hat 7%nat (Z.of_nat (num_fields p))) by done.
  cbn [res_bind]. rewrite Nat2Z.id, Htypes. cbn [res_bind]. rewrite Hcn. cbn [res_bind].
  rewrite Fagg, Frt, Frr, Flin, Fact, Freu.
  rewrite le_value_bytes, wrap_id by (simpl; lia).
  assert (Hmap : map field_type_of (map field_type_code (pred_types p)) = pred_types p).
  { rewrite map_map. clear - Hknown. induction (pred_types p) as [|t ts IH]; [done|].
    simpl in *. apply andb_true_iff in Hknown as [Ht Hts].
    by rewrite field_type_of_code, IH. }
  rewrite Hmap.
  assert (Hinfo : (if is_aggregate p
     then let* a := read_agg_safeness (descriptor_named name code_size p ++ rest)
            (mk_aggregate_info (Z.land (agg_byte (agg_info p)) 0xf)
              (aggregate_type_of (Z.shiftr (Z.land 0xf0 (agg_byte (agg_info p))) 4))
              AGG_UNSAFE None None None) in Ok (Some a)
     else Ok None) = Ok (agg_info p)).
  { unfold is_aggregate. destruct (agg_info p) as [a|] eqn:Ha; [|done].
    rewrite bool_decide_eq_true_2 by eauto. destruct (agg_byte_fields a Hagg) as [-> ->].
    rewrite (read_agg_safeness_ok _ a Hagg); [done|]. intros i x Hi. unfold byte_at.
    assert (Hix : aggs !! i = Some x).
    { unfold aggs, pad. rewrite lookup_app_l; [done|]. by apply lookup_lt_Some in Hi. }
    assert (Hoffs : AGG_INFO_OFFSET = 72%nat) by done.
    rewrite Hb, (lookup_app_r hdr), (lookup_app_r args), (lookup_app_r name) by lia.
    rewrite lookup_app_l by (apply lookup_lt_Some in Hix; lia).
    replace (AGG_INFO_OFFSET + i - length hdr - length args - length name)%nat with i by lia.
    by rewrite Hix. }
  rewrite Hinfo. cbn [res_bind]. destruct p; simpl in *. by subst.
Qed.

(** Reading the descriptor written for a predicate gives that predicate and
    the size of its code: names, types, level, every property bit, and the
    aggregate's field, operation and safeness with its argument. *)
Theorem descriptor_roundtrip p code_size rest :
  describable p = true → 0 <= code_size < 2 ^ 32 →
  make_predicate_from_buf (descriptor code_size p ++ rest) (pred_id p)
  = Ok (set_descriptor
          (overwrite NAME_OFFSET (name_image (pred_name p +:+ ".import"))
             (map Some (descriptor code_size p))) p,
        code_size).
Proof.
  intros Hd Hs. pose proof Hd as H. unfold describable in H. rewrite !andb_true_iff in H.
  destruct H as (((((((_ & _) & Hn) & Hz) & _) & _) & _) & _). apply Nat.ltb_lt in Hn.
  apply descriptor_named_reads; try done; [apply pad_length; lia |]. intros tail. unfold pad. rewrite <-app_assoc.
  destruct (32 - length (bytes_of_string (pred_name p)))%nat eqn:Hr; [lia|]. simpl.
  by rewrite c_string_app, string_of_bytes_of_string.
Qed.

(** !path(node, min int) with its remote predicate *)
Definition sample_predicate : predicate :=
  mk_predicate [] 3 "path" 1 [FIELD_NODE; FIELD_INT] [] [] 0
    (Some (mk_aggregate_info 1 AGG_MIN_INT AGG_NEIGHBORHOOD None (Some 2) None))
    false false false false true.

Lemma descriptor_roundtrip_witness :
  make_predicate_from_buf (descriptor 300 sample_predicate ++ [7; 7]) 3
  = Ok (set_descriptor
          (overwrite NAME_OFFSET (name_image ("path" +:+ ".import"))
             (map Some (descriptor 300 sample_predicate))) sample_predicate,
        300).
Proof. apply (descriptor_roundtrip sample_predicate 300 [7; 7]); [vm_compute; reflexivity|lia]. Defined.
