(* ===== verification/Instr.v ===== *)
(** The instructions of the byte code: [vm/instr.hpp] and the value printer of
    [vm/instr.cpp].

    The code is a list of bytes and a program counter is an index into it; reading
    outside is undefined.  Every accessor keeps its name and its offset. *)

From Stdlib Require Import ZArith Lia Bool String.
From stdpp Require Import base tactics list numbers option strings.
From S2P Require Import Prelude Words Types.

#[local] Open Scope Z_scope.

Abbreviation pcounter := Z.
Abbreviation instr_val := Z.

Definition MAGIC1 : Z := 0x646c656d.
Definition MAGIC2 : Z := 0x6c696620.

(** sizes of operands *)

Definition field_size : Z := 2.
Definition iter_match_size : Z := 2.
Definition val_size : Z := 1.
Definition int_size : Z := 4.
Definition uint_size : Z := 4.
Definition float_size : Z := 8.
Definition node_size : Z := 4.
Definition string_size : Z := 4.
Definition ptr_size : Z := 8.
Definition argument_size : Z := 1.
Definition reg_size : Z := 0.
Definition host_size : Z := 0.
Definition nil_size : Z := 0.
Definition tuple_size : Z := 0.
Definition index_size : Z := 1.
Definition jump_size : Z := 4.
Definition stack_val_size : Z := 1.
Definition pcounter_val_size : Z := 0.

(** sizes of instructions without their operands *)

Definition SEND_BASE : Z := 3.
Definition OP_BASE : Z := 5.
Definition MOVE_BASE : Z := 3.
Definition ITER_BASE : Z := 8.
Definition ALLOC_BASE : Z := 3.
Definition CALL_BASE : Z := 4.
Definition IF_BASE : Z := 2 + jump_size.
Definition MOVE_NIL_BASE : Z := 2.
Definition TEST_NIL_BASE : Z := 3.
Definition CONS_BASE : Z := 5.
Definition HEAD_BASE : Z := 4.
Definition TAIL_BASE : Z := 4.
Definition NOT_BASE : Z := 3.
Definition RETURN_BASE : Z := 1.
Definition NEXT_BASE : Z := 1.
Definition FLOAT_BASE : Z := 3.
Definition SELECT_BASE : Z := 9.
Definition RETURN_SELECT_BASE : Z := 5.
Definition COLOCATED_BASE : Z := 4.
Definition DELETE_BASE : Z := 3.
Definition REMOVE_BASE : Z := 2.
Definition RETURN_LINEAR_BASE : Z := 1.
Definition RETURN_DERIVED_BASE : Z := 1.
Definition RESET_LINEAR_BASE : Z := 1 + jump_size.
Definition END_LINEAR_BASE : Z := 1.
Definition RULE_BASE : Z := 1 + uint_size.
Definition RULE_DONE_BASE : Z := 1.
Definition NEW_NODE_BASE : Z := 2.
Definition NEW_AXIOMS_BASE : Z := 1 + jump_size.
Definition SEND_DELAY_BASE : Z := 3 + uint_size.
Definition PUSH_BASE : Z := 1.
Definition POP_BASE : Z := 1.
Definition PUSH_REGS_BASE : Z := 1.
Definition POP_REGS_BASE : Z := 1.
Definition CALLF_BASE : Z := 2.
Definition CALLE_BASE : Z := 4.

Inductive instr_type : Type :=
  | RETURN_INSTR | NEXT_INSTR | ELSE_INSTR | TEST_NIL_INSTR
  | CONS_INSTR | HEAD_INSTR | TAIL_INSTR | NOT_INSTR
  | SEND_INSTR | FLOAT_INSTR | SELECT_INSTR | RETURN_SELECT_INSTR
  | COLOCATED_INSTR | DELETE_INSTR | RESET_LINEAR_INSTR | END_LINEAR_INSTR
  | RULE_INSTR | RULE_DONE_INSTR | NEW_NODE_INSTR | NEW_AXIOMS_INSTR
  | SEND_DELAY_INSTR | PUSH_INSTR | POP_INSTR | PUSH_REGS_INSTR
  | POP_REGS_INSTR | CALLF_INSTR | CALLE_INSTR | CALL_INSTR
  | MOVE_INSTR | ALLOC_INSTR | IF_INSTR | MOVE_NIL_INSTR
  | REMOVE_INSTR | ITER_INSTR | OP_INSTR | RETURN_LINEAR_INSTR
  | RETURN_DERIVED_INSTR.

Definition instr_code (i : instr_type) : Z :=
  match i with
  | RETURN_INSTR => 0x00
  | NEXT_INSTR => 0x01
  | ELSE_INSTR => 0x02
  | TEST_NIL_INSTR => 0x03
  | CONS_INSTR => 0x04
  | HEAD_INSTR => 0x05
  | TAIL_INSTR => 0x06
  | NOT_INSTR => 0x07
  | SEND_INSTR => 0x08
  | FLOAT_INSTR => 0x09
  | SELECT_INSTR => 0x0A
  | RETURN_SELECT_INSTR => 0x0B
  | COLOCATED_INSTR => 0x0C
  | DELETE_INSTR => 0x0D
  | RESET_LINEAR_INSTR => 0x0E
  | END_LINEAR_INSTR => 0x0F
  | RULE_INSTR => 0x10
  | RULE_DONE_INSTR => 0x11
  | NEW_NODE_INSTR => 0x13
  | NEW_AXIOMS_INSTR => 0x14
  | SEND_DELAY_INSTR => 0x15
  | PUSH_INSTR => 0x16
  | POP_INSTR => 0x17
  | PUSH_REGS_INSTR => 0x18
  | POP_REGS_INSTR => 0x19
  | CALLF_INSTR => 0x1A
  | CALLE_INSTR => 0x1B
  | CALL_INSTR => 0x20
  | MOVE_INSTR => 0x30
  | ALLOC_INSTR => 0x40
  | IF_INSTR => 0x60
  | MOVE_NIL_INSTR => 0x70
  | REMOVE_INSTR => 0x80
  | ITER_INSTR => 0xA0
  | OP_INSTR => 0xC0
  | RETURN_LINEAR_INSTR => 0xD0
  | RETURN_DERIVED_INSTR => 0xF0
  end.

Definition all_instrs : list instr_type :=
  [RETURN_INSTR; NEXT_INSTR; ELSE_INSTR; TEST_NIL_INSTR;
   CONS_INSTR; HEAD_INSTR; TAIL_INSTR; NOT_INSTR;
   SEND_INSTR; FLOAT_INSTR; SELECT_INSTR; RETURN_SELECT_INSTR;
   COLOCATED_INSTR; DELETE_INSTR; RESET_LINEAR_INSTR; END_LINEAR_INSTR;
   RULE_INSTR; RULE_DONE_INSTR; NEW_NODE_INSTR; NEW_AXIOMS_INSTR;
   SEND_DELAY_INSTR; PUSH_INSTR; POP_INSTR; PUSH_REGS_INSTR;
   POP_REGS_INSTR; CALLF_INSTR; CALLE_INSTR; CALL_INSTR;
   MOVE_INSTR; ALLOC_INSTR; IF_INSTR; MOVE_NIL_INSTR;
   REMOVE_INSTR; ITER_INSTR; OP_INSTR; RETURN_LINEAR_INSTR;
   RETURN_DERIVED_INSTR].

(** the unchecked cast of a byte: None is a value that is no enumerator *)
Definition instr_of (b : Z) : option instr_type := List.find (λ i, instr_code i =? b) all_instrs.

Inductive instr_op : Type :=
  | OP_NEQF | OP_NEQI | OP_EQF | OP_EQI | OP_LESSF | OP_LESSI
  | OP_LESSEQF | OP_LESSEQI | OP_GREATERF | OP_GREATERI | OP_GREATEREQF | OP_GREATEREQI
  | OP_MODF | OP_MODI | OP_PLUSF | OP_PLUSI | OP_MINUSF | OP_MINUSI
  | OP_TIMESF | OP_TIMESI | OP_DIVF | OP_DIVI | OP_NEQA | OP_EQA
  | OP_GREATERA | OP_ORB.

Definition all_ops : list instr_op :=
  [OP_NEQF; OP_NEQI; OP_EQF; OP_EQI; OP_LESSF; OP_LESSI;
   OP_LESSEQF; OP_LESSEQI; OP_GREATERF; OP_GREATERI; OP_GREATEREQF; OP_GREATEREQI;
   OP_MODF; OP_MODI; OP_PLUSF; OP_PLUSI; OP_MINUSF; OP_MINUSI;
   OP_TIMESF; OP_TIMESI; OP_DIVF; OP_DIVI; OP_NEQA; OP_EQA;
   OP_GREATERA; OP_ORB].

(** the enumerators count from 0 *)
Definition instr_op_of (b : Z) : option instr_op := if b <? 0 then None else all_ops !! Z.to_nat b.

Definition op_string (op : instr_op) : string :=
  match op with
  | OP_NEQI => "INT NOT EQUAL"
  | OP_EQI => "INT EQUAL"
  | OP_LESSI => "INT LESSER"
  | OP_LESSEQI => "INT LESSER EQUAL"
  | OP_GREATERI => "INT GREATER"
  | OP_GREATEREQI => "INT GREATER EQUAL"
  | OP_MODI => "INT MOD"
  | OP_PLUSI => "INT PLUS"
  | OP_MINUSI => "INT MINUS"
  | OP_TIMESI => "INT TIMES"
  | OP_DIVI => "INT DIV"
  | OP_NEQF => "FLOAT NOT EQUAL"
  | OP_EQF => "FLOAT EQUAL"
  | OP_LESSF => "FLOAT LESSER"
  | OP_LESSEQF => "FLOAT LESSER EQUAL"
  | OP_GREATERF => "FLOAT GREATER"
  | OP_GREATEREQF => "FLOAT GREATER EQUAL"
  | OP_MODF => "FLOAT MOD"
  | OP_PLUSF => "FLOAT PLUS"
  | OP_MINUSF => "FLOAT MINUS"
  | OP_TIMESF => "FLOAT TIMES"
  | OP_DIVF => "FLOAT DIV"
  | OP_NEQA => "ADDR NOT EQUAL"
  | OP_EQA => "ADDR EQUAL"
  | OP_GREATERA => "ADDR GREATER"
  | OP_ORB => "BOOL OR"
  end.

(** ** Operand codes *)

Definition VAL_TUPLE : Z := 0x1f.
Definition VAL_PCOUNTER : Z := 0x0A.
Definition VAL_PTR : Z := 0x0B.

Definition val_is_reg (x : instr_val) : bool := negb (Z.land x 0x20 =? 0).
Definition val_is_tuple (x : instr_val) : bool := x =? 0x1f.
Definition val_is_float (x : instr_val) : bool := x =? 0x00.
Definition val_is_int (x : instr_val) : bool := x =? 0x01.
Definition val_is_field (x : instr_val) : bool := x =? 0x02.
Definition val_is_host (x : instr_val) : bool := x =? 0x03.
Definition val_is_nil (x : instr_val) : bool := x =? 0x04.
Definition val_is_node (x : instr_val) : bool := x =? 0x05.
Definition val_is_string (x : instr_val) : bool := x =? 0x06.
Definition val_is_arg (x : instr_val) : bool := x =? 0x07.
Definition val_is_const (x : instr_val) : bool := x =? 0x08.
Definition val_is_stack (x : instr_val) : bool := x =? 0x09.
Definition val_is_pcounter (x : instr_val) : bool := x =? VAL_PCOUNTER.
Definition val_is_ptr (x : instr_val) : bool := x =? VAL_PTR.

Definition val_reg (x : instr_val) : Z := Z.land x 0x1f.

Section Code.
Context (code : list byte).

Definition byte_at (pc : pcounter) : res Z :=
  if pc <? 0 then Err undefined_behaviour else of_option (code !! Z.to_nat pc).

(** a value of [n] bytes read through a cast of the pointer *)
Fixpoint bytes_at (n : nat) (pc : pcounter) : res Z :=
  match n with
  | O => Ok 0
  | S n =>
      let* b := byte_at pc in
      let* r := bytes_at n (pc + 1) in
      Ok (b + 256 * r)
  end.

Definition fetch (pc : pcounter) : res (option instr_type) :=
  let* b := byte_at pc in Ok (instr_of b).

Definition pcounter_int (pc : pcounter) : res Z := let* v := bytes_at 4 pc in Ok (swrap 32 v).
Definition pcounter_code_size (pc : pcounter) : res Z := bytes_at 4 pc.
Definition pcounter_float (pc : pcounter) : res Z := bytes_at 8 pc.
Definition pcounter_node (pc : pcounter) : res Z := bytes_at 4 pc.
Definition pcounter_uint (pc : pcounter) : res Z := bytes_at 4 pc.
Definition pcounter_argument_id (pc : pcounter) : res Z := byte_at pc.
Definition pcounter_const_id (pc : pcounter) : res Z := pcounter_uint pc.
Definition pcounter_offset_num (pc : pcounter) : res Z := byte_at pc.
Definition pcounter_ptr (pc : pcounter) : res Z := bytes_at 8 pc.

Definition val_field_num (x : pcounter) : res Z := let* b := byte_at x in Ok (Z.land b 0xff).
Definition val_field_reg (x : pcounter) : res Z := let* b := byte_at (x + 1) in Ok (Z.land b 0x1f).

Definition pcounter_move_field (pc : pcounter) : pcounter := pc + field_size.
Definition pcounter_move_int (pc : pcounter) : pcounter := pc + int_size.
Definition pcounter_move_float (pc : pcounter) : pcounter := pc + float_size.
Definition pcounter_move_match (pc : pcounter) : pcounter := pc + iter_match_size.
Definition pcounter_move_node (pc : pcounter) : pcounter := pc + node_size.
Definition pcounter_move_uint (pc : pcounter) : pcounter := pc + uint_size.
Definition pcounter_move_argument_id (pc : pcounter) : pcounter := pc + argument_size.
Definition pcounter_move_const_id (pc : pcounter) : pcounter := pcounter_move_uint pc.
Definition pcounter_move_offset_num (pc : pcounter) : pcounter := pc + stack_val_size.
Definition pcounter_move_ptr (pc : pcounter) : pcounter := pc + ptr_size.

(** ** Common accessors *)

Definition jump_get (x : pcounter) (off : Z) : res Z := pcounter_code_size (x + off).
Definition reg_get (x : pcounter) (off : Z) : res Z :=
  let* b := byte_at (x + off) in Ok (Z.land b 0x1f).
Definition val_get (x : pcounter) (off : Z) : res instr_val :=
  let* b := byte_at (x + off) in Ok (Z.land b 0x3f).
Definition predicate_get (x : pcounter) (off : Z) : res Z :=
  let* b := byte_at (x + off) in Ok (Z.land b 0x7f).
Definition byte_get (x : pcounter) (off : Z) : res Z := byte_at (x + off).
Definition field_num_get (x : pcounter) (off : Z) : res Z := byte_at (x + off).

(** ** Instructions *)

Definition if_reg (pc : pcounter) : res Z := reg_get pc 1.
Definition if_jump (pc : pcounter) : res Z := jump_get pc 2.
Definition send_msg (pc : pcounter) : res Z := reg_get pc 1.
Definition send_dest (pc : pcounter) : res Z := reg_get pc 2.
Definition float_op (pc : pcounter) : res Z := val_get pc 1.
Definition float_dest (pc : pcounter) : res Z := val_get pc 2.
Definition op_arg1 (pc : pcounter) : res Z := val_get pc 1.
Definition op_arg2 (pc : pcounter) : res Z := val_get pc 2.
Definition op_dest (pc : pcounter) : res Z := val_get pc 3.
Definition op_op (pc : pcounter) : res (option instr_op) :=
  let* b := byte_at (pc + 4) in Ok (instr_op_of (Z.land b 0x1f)).

Definition move_from (pc : pcounter) : res Z := val_get pc 1.
Definition move_to (pc : pcounter) : res Z := val_get pc 2.
Definition move_from_ptr (pc : pcounter) : pcounter := pc + 1.
Definition move_to_ptr (pc : pcounter) : pcounter := pc + 2.

Definition iter_predicate (pc : pcounter) : res Z := predicate_get pc 1.
Definition iter_options (pc : pcounter) : res Z := byte_get pc 2.
Definition iter_options_argument (pc : pcounter) : res Z := byte_get pc 3.
Definition iter_jump (pc : pcounter) : res Z := jump_get pc 4.
Definition iter_match_end (m : pcounter) : res bool :=
  let* b := byte_at (m + 1) in Ok (Z.land b 0xc0 =? 0x40).
Definition iter_match_none (m : pcounter) : res bool :=
  let* b := byte_at (m + 1) in Ok (Z.land b 0xc0 =? 0xc0).
Definition iter_match_val (m : pcounter) : res instr_val := val_get m 1.
Definition iter_match_field (m : pcounter) : res Z := byte_at m.

Definition iter_options_random (b : Z) : bool := negb (Z.land b 0x01 =? 0).
Definition iter_options_min (b : Z) : bool := negb (Z.land b 0x04 =? 0).
Definition iter_options_min_arg (b : Z) : Z := b.
Definition iter_options_to_delete (b : Z) : bool := negb (Z.land b 0x02 =? 0).

Definition alloc_predicate (pc : pcounter) : res Z := predicate_get pc 1.
Definition alloc_reg (pc : pcounter) : res Z := reg_get pc 2.
Definition call_extern_id (pc : pcounter) : res Z := byte_get pc 1.
Definition call_num_args (pc : pcounter) : res Z := byte_get pc 2.
Definition call_dest (pc : pcounter) : res Z := reg_get pc 3.
Definition call_val (pc : pcounter) : res Z := val_get pc 0.
Definition calle_extern_id (pc : pcounter) : res Z := byte_get pc 1.
Definition calle_num_args (pc : pcounter) : res Z := byte_get pc 2.
Definition calle_dest (pc : pcounter) : res Z := reg_get pc 3.
Definition calle_val (pc : pcounter) : res Z := val_get pc 0.
Definition move_nil_dest (pc : pcounter) : res Z := val_get pc 1.
Definition test_nil_op (pc : pcounter) : res Z := val_get pc 1.
Definition test_nil_dest (pc : pcounter) : res Z := val_get pc 2.

Definition get_list_type (pc : pcounter) (off : Z) : res field_type :=
  let* b := byte_at (pc + off) in
  Ok (if b =? 0 then FIELD_LIST_INT
      else if b =? 1 then FIELD_LIST_FLOAT
      else if b =? 2 then FIELD_LIST_NODE
      else FIELD_LIST_INT).

Definition cons_type (pc : pcounter) : res field_type := get_list_type pc 1.
Definition cons_head (pc : pcounter) : res Z := val_get pc 2.
Definition cons_tail (pc : pcounter) : res Z := val_get pc 3.
Definition cons_dest (pc : pcounter) : res Z := val_get pc 4.
Definition head_type (pc : pcounter) : res field_type := get_list_type pc 1.
Definition head_cons (pc : pcounter) : res Z := val_get pc 2.
Definition head_dest (pc : pcounter) : res Z := val_get pc 3.
Definition tail_type (pc : pcounter) : res field_type := get_list_type pc 1.
Definition tail_cons (pc : pcounter) : res Z := val_get pc 2.
Definition tail_dest (pc : pcounter) : res Z := val_get pc 3.
Definition not_op (pc : pcounter) : res Z := val_get pc 1.
Definition not_dest (pc : pcounter) : res Z := val_get pc 2.

Definition select_size (pc : pcounter) : res Z := pcounter_code_size (pc + 1).
Definition select_hash_size (pc : pcounter) : res Z := pcounter_code_size (pc + 1 + 4).
Definition select_hash_start (pc : pcounter) : pcounter := pc + SELECT_BASE.
Definition select_hash (hash_start : pcounter) (val : Z) : res Z :=
  pcounter_code_size (hash_start + 4 * val).
Definition select_hash_code (hash_start : pcounter) (hash_size hashed : Z) : pcounter :=
  hash_start + hash_size * 4 + hashed - 1.

Definition return_select_jump (pc : pcounter) : res Z := pcounter_code_size (pc + 1).
Definition colocated_first (pc : pcounter) : res Z := val_get pc 1.
Definition colocated_second (pc : pcounter) : res Z := val_get pc 2.
Definition colocated_dest (pc : pcounter) : res Z := reg_get pc 3.
Definition delete_predicate (pc : pcounter) : res Z := predicate_get pc 1.
Definition delete_num_args (pc : pcounter) : res Z := byte_get pc 2.
Definition delete_val (pc : pcounter) : res Z := val_get pc index_size.
Definition delete_index (pc : pcounter) : res Z := field_num_get pc 0.
Definition remove_source (pc : pcounter) : res Z := reg_get pc 1.
Definition reset_linear_jump (pc : pcounter) : res Z := jump_get pc 1.
Definition rule_get_id (pc : pcounter) : res Z := pcounter_uint (pc + 1).
Definition new_node_reg (pc : pcounter) : res Z := reg_get pc 1.
Definition new_axioms_jump (pc : pcounter) : res Z := jump_get pc 1.
Definition send_delay_msg (pc : pcounter) : res Z := reg_get pc 1.
Definition send_delay_dest (pc : pcounter) : res Z := reg_get pc 2.
Definition send_delay_time (pc : pcounter) : res Z := pcounter_uint (pc + 3).
Definition callf_get_id (pc : pcounter) : res Z := byte_at (pc + 1).

End Code.

(** the linker changes identifiers in place: one byte is written *)
Definition byte_set (code : list byte) (pc : pcounter) (b : Z) : res (list byte) :=
  let* _ := byte_at code pc in Ok (<[Z.to_nat pc := wrap 8 b]> code).

Definition predicate_set (code : list byte) (x : pcounter) (off id : Z) : res (list byte) :=
  byte_set code (x + off) id.
Definition rule_set_id (code : list byte) (pc : pcounter) (id : Z) : res (list byte) :=
  byte_set code (pc + 1) id.

(** ** Sizes of operands *)

Inductive instr_argument_type : Type :=
  | ARGUMENT_ANYTHING | ARGUMENT_ANYTHING_NOT_NIL | ARGUMENT_INT | ARGUMENT_WRITABLE
  | ARGUMENT_LIST | ARGUMENT_NON_LIST | ARGUMENT_BOOL | ARGUMENT_NODE.

Definition arg_size_anything (v : instr_val) : res Z :=
  if val_is_float v then Ok float_size
  else if val_is_int v then Ok int_size
  else if val_is_field v then Ok field_size
  else if val_is_nil v then Ok nil_size
  else if val_is_reg v then Ok reg_size
  else if val_is_host v then Ok host_size
  else if val_is_tuple v then Ok tuple_size
  else if val_is_node v then Ok node_size
  else if val_is_string v then Ok string_size
  else if val_is_arg v then Ok argument_size
  else if val_is_const v then Ok int_size
  else if val_is_stack v then Ok stack_val_size
  else if val_is_pcounter v then Ok pcounter_val_size
  else if val_is_ptr v then Ok ptr_size
  else Err (malformed_instr_error "invalid instruction argument value").

Definition arg_size_anything_not_nil (v : instr_val) : res Z :=
  if val_is_float v then Ok float_size
  else if val_is_int v then Ok int_size
  else if val_is_field v then Ok field_size
  else if val_is_reg v then Ok reg_size
  else if val_is_host v then Ok host_size
  else if val_is_tuple v then Ok tuple_size
  else if val_is_node v then Ok node_size
  else if val_is_string v then Ok string_size
  else if val_is_arg v then Ok val_size
  else if val_is_const v then Ok int_size
  else if val_is_stack v then Ok stack_val_size
  else if val_is_pcounter v then Ok pcounter_val_size
  else if val_is_ptr v then Ok ptr_size
  else Err (malformed_instr_error "invalid instruction argument value").

Definition arg_size_int (v : instr_val) : res Z :=
  if val_is_int v then Ok int_size
  else if val_is_reg v then Ok reg_size
  else if val_is_field v then Ok field_size
  else if val_is_const v then Ok int_size
  else if val_is_stack v then Ok stack_val_size
  else Err (malformed_instr_error "invalid instruction int value").

Definition arg_size_writable (v : instr_val) : res Z :=
  if val_is_reg v then Ok reg_size
  else if val_is_field v then Ok field_size
  else if val_is_const v then Ok int_size
  else if val_is_stack v then Ok stack_val_size
  else if val_is_pcounter v then Ok pcounter_val_size
  else Err (malformed_instr_error "invalid instruction writable value").

Definition arg_size_list (v : instr_val) : res Z :=
  if val_is_reg v then Ok reg_size
  else if val_is_field v then Ok field_size
  else if val_is_nil v then Ok nil_size
  else if val_is_stack v then Ok stack_val_size
  else Err (malformed_instr_error "invalid instruction list value").

Definition arg_size_non_list (v : instr_val) : res Z :=
  if val_is_float v then Ok float_size
  else if val_is_int v then Ok int_size
  else if val_is_field v then Ok field_size
  else if val_is_reg v then Ok reg_size
  else if val_is_host v then Ok host_size
  else if val_is_node v then Ok node_size
  else if val_is_string v then Ok string_size
  else if val_is_arg v then Ok val_size
  else if val_is_const v then Ok int_size
  else if val_is_stack v then Ok stack_val_size
  else if val_is_pcounter v then Ok pcounter_val_size
  else if val_is_ptr v then Ok ptr_size
  else Err (malformed_instr_error "invalid instruction non-list value").

Definition arg_size_bool (v : instr_val) : res Z :=
  if val_is_reg v then Ok reg_size
  else if val_is_field v then Ok field_size
  else if val_is_const v then Ok int_size
  else if val_is_stack v then Ok stack_val_size
  else Err (malformed_instr_error "invalid instruction bool value").

Definition arg_size_node (v : instr_val) : res Z :=
  if val_is_reg v then Ok reg_size
  else if val_is_field v then Ok field_size
  else if val_is_host v then Ok host_size
  else if val_is_node v then Ok node_size
  else if val_is_const v then Ok int_size
  else if val_is_stack v then Ok stack_val_size
  else Err (malformed_instr_error "invalid instruction node value").

Definition arg_size (type : instr_argument_type) (v : instr_val) : res Z :=
  match type with
  | ARGUMENT_ANYTHING => arg_size_anything v
  | ARGUMENT_ANYTHING_NOT_NIL => arg_size_anything_not_nil v
  | ARGUMENT_INT => arg_size_int v
  | ARGUMENT_WRITABLE => arg_size_writable v
  | ARGUMENT_LIST => arg_size_list v
  | ARGUMENT_NON_LIST => arg_size_non_list v
  | ARGUMENT_BOOL => arg_size_bool v
  | ARGUMENT_NODE => arg_size_node v
  end.

(** ** Sizes of instructions *)

Section Advance.
Context (code : list byte).

(** the loop of [iter_matches_size] *)
Fixpoint iter_matches_loop (fuel : nat) (pc : pcounter) (size : Z) : res Z :=
  match fuel with
  | O => Err undefined_behaviour
  | S fuel =>
      let* v := iter_match_val code pc in
      let* n := arg_size ARGUMENT_ANYTHING v in
      let match_size := iter_match_size + n in
      let size := size + match_size in
      let* stop := iter_match_end code pc in
      if stop then Ok size else iter_matches_loop fuel (pc + match_size) size
  end.

(** every match has two bytes, and reading past the code is undefined *)
Definition iter_matches_size (pc : pcounter) : res Z :=
  let* none := iter_match_none code pc in
  if none then Ok iter_match_size else iter_matches_loop (S (length code)) pc 0.

Fixpoint instr_call_args_size (arg : pcounter) (num : nat) : res Z :=
  match num with
  | O => Ok 0
  | S num =>
      let* v := call_val code arg in
      let* n := arg_size ARGUMENT_ANYTHING v in
      let size := val_size + n in
      let* total := instr_call_args_size (arg + size) num in
      Ok (size + total)
  end.

Fixpoint instr_delete_args_size (arg : pcounter) (num : nat) : res Z :=
  match num with
  | O => Ok 0
  | S num =>
      let* v := delete_val code arg in
      let* n := arg_size ARGUMENT_ANYTHING v in
      let size := index_size + val_size + n in
      let* total := instr_delete_args_size (arg + size) num in
      Ok (size + total)
  end.

(** one operand of [advance]: its code and the size it takes *)
Definition operand (type : instr_argument_type) (get : pcounter → res instr_val) (pc : pcounter)
  : res Z := let* v := get pc in arg_size type v.

Definition advance (pc : pcounter) : res pcounter :=
  let* i := fetch code pc in
  match i with
  | Some SEND_INSTR => Ok (pc + SEND_BASE)
  | Some FLOAT_INSTR =>
      let* a := operand ARGUMENT_INT (float_op code) pc in
      let* b := operand ARGUMENT_WRITABLE (float_dest code) pc in
      Ok (pc + FLOAT_BASE + a + b)
  | Some OP_INSTR =>
      let* a := operand ARGUMENT_ANYTHING (op_arg1 code) pc in
      let* b := operand ARGUMENT_ANYTHING (op_arg2 code) pc in
      let* c := operand ARGUMENT_WRITABLE (op_dest code) pc in
      Ok (pc + OP_BASE + a + b + c)
  | Some MOVE_INSTR =>
      let* a := operand ARGUMENT_ANYTHING_NOT_NIL (move_from code) pc in
      let* b := operand ARGUMENT_WRITABLE (move_to code) pc in
      Ok (pc + MOVE_BASE + a + b)
  | Some ITER_INSTR =>
      let* n := iter_matches_size (pc + ITER_BASE) in Ok (pc + ITER_BASE + n)
  | Some ALLOC_INSTR => Ok (pc + ALLOC_BASE)
  | Some CALL_INSTR =>
      let* num := call_num_args code pc in
      let* n := instr_call_args_size (pc + CALL_BASE) (Z.to_nat num) in Ok (pc + CALL_BASE + n)
  | Some CALLE_INSTR =>
      let* num := calle_num_args code pc in
      let* n := instr_call_args_size (pc + CALLE_BASE) (Z.to_nat num) in Ok (pc + CALLE_BASE + n)
  | Some DELETE_INSTR =>
      let* num := delete_num_args code pc in
      let* n := instr_delete_args_size (pc + DELETE_BASE) (Z.to_nat num) in Ok (pc + DELETE_BASE + n)
  | Some IF_INSTR => Ok (pc + IF_BASE)
  | Some MOVE_NIL_INSTR =>
      let* a := operand ARGUMENT_WRITABLE (move_nil_dest code) pc in
      Ok (pc + MOVE_NIL_BASE + a)
  | Some TEST_NIL_INSTR =>
      let* a := operand ARGUMENT_LIST (test_nil_op code) pc in
      let* b := operand ARGUMENT_WRITABLE (test_nil_dest code) pc in
      Ok (pc + TEST_NIL_BASE + a + b)
  | Some CONS_INSTR =>
      let* a := operand ARGUMENT_NON_LIST (cons_head code) pc in
      let* b := operand ARGUMENT_LIST (cons_tail code) pc in
      let* c := operand ARGUMENT_WRITABLE (cons_dest code) pc in
      Ok (pc + CONS_BASE + a + b + c)
  | Some HEAD_INSTR =>
      let* a := operand ARGUMENT_LIST (head_cons code) pc in
      let* b := operand ARGUMENT_WRITABLE (head_dest code) pc in
      Ok (pc + HEAD_BASE + a + b)
  | Some TAIL_INSTR =>
      let* a := operand ARGUMENT_LIST (tail_cons code) pc in
      let* b := operand ARGUMENT_WRITABLE (tail_dest code) pc in
      Ok (pc + TAIL_BASE + a + b)
  | Some NOT_INSTR =>
      let* a := operand ARGUMENT_BOOL (not_op code) pc in
      let* b := operand ARGUMENT_WRITABLE (not_dest code) pc in
      Ok (pc + NOT_BASE + a + b)
  | Some RETURN_INSTR => Ok (pc + RETURN_BASE)
  | Some RETURN_LINEAR_INSTR => Ok (pc + RETURN_LINEAR_BASE)
  | Some RETURN_DERIVED_INSTR => Ok (pc + RETURN_DERIVED_BASE)
  | Some NEXT_INSTR => Ok (pc + NEXT_BASE)
  | Some RETURN_SELECT_INSTR => Ok (pc + RETURN_SELECT_BASE)
  | Some SELECT_INSTR =>
      let* n := select_hash_size code pc in Ok (pc + SELECT_BASE + n * 4)
  | Some COLOCATED_INSTR =>
      let* a := operand ARGUMENT_NODE (colocated_first code) pc in
      let* b := operand ARGUMENT_NODE (colocated_second code) pc in
      Ok (pc + COLOCATED_BASE + a + b)
  | Some REMOVE_INSTR => Ok (pc + REMOVE_BASE)
  | Some RESET_LINEAR_INSTR => Ok (pc + RESET_LINEAR_BASE)
  | Some END_LINEAR_INSTR => Ok (pc + END_LINEAR_BASE)
  | Some RULE_INSTR => Ok (pc + RULE_BASE)
  | Some RULE_DONE_INSTR => Ok (pc + RULE_DONE_BASE)
  | Some NEW_NODE_INSTR => Ok (pc + NEW_NODE_BASE)
  | Some NEW_AXIOMS_INSTR =>
      let* j := new_axioms_jump code pc in Ok (pc + j)
  | Some SEND_DELAY_INSTR => Ok (pc + SEND_DELAY_BASE)
  | Some PUSH_INSTR => Ok (pc + PUSH_BASE)
  | Some POP_INSTR => Ok (pc + POP_BASE)
  | Some PUSH_REGS_INSTR => Ok (pc + PUSH_REGS_BASE)
  | Some POP_REGS_INSTR => Ok (pc + POP_REGS_BASE)
  | Some CALLF_INSTR => Ok (pc + CALLF_BASE)
  | Some ELSE_INSTR | None => Err (malformed_instr_error "unknown instruction code")
  end.

(** ** Printing of operands *)

Definition reg_string (num : Z) : string := "reg " +:+ num_string num.

(** [val_string]: the text and the position after the operand.  The text of a
    double and the program's string constants are given. *)
Context (float_string : Z → string) (default_string : Z → option string).

Definition val_string (v : instr_val) (pm : pcounter) : res (string * pcounter) :=
  if val_is_tuple v then Ok ("tuple", pm)
  else if val_is_reg v then Ok (reg_string (val_reg v), pm)
  else if val_is_host v then Ok ("host", pm)
  else if val_is_nil v then Ok ("nil", pm)
  else if val_is_field v then
    let* r := val_field_reg code pm in
    let* f := val_field_num code pm in
    Ok (num_string r +:+ "." +:+ num_string f, pcounter_move_field pm)
  else if val_is_int v then
    let* z := pcounter_int code pm in Ok ("INT " +:+ num_string z, pcounter_move_int pm)
  else if val_is_float v then
    let* f := pcounter_float code pm in Ok ("FLOAT " +:+ float_string f, pcounter_move_float pm)
  else if val_is_node v then
    let* n := pcounter_node code pm in Ok ("@" +:+ num_string n, pcounter_move_node pm)
  else if val_is_string v then
    let* id := pcounter_uint code pm in
    match default_string id with
    | Some s => Ok (String (Ascii.ascii_of_nat 34) (s +:+ String (Ascii.ascii_of_nat 34) EmptyString),
                    pcounter_move_uint pm)
    | None => Err assert_fail
    end
  else if val_is_arg v then
    let* a := pcounter_argument_id code pm in
    Ok ("ARG " +:+ num_string a, pcounter_move_argument_id pm)
  else if val_is_stack v then
    let* o := pcounter_offset_num code pm in
    Ok ("STACK " +:+ num_string o, pcounter_move_offset_num pm)
  else if val_is_pcounter v then Ok ("PCOUNTER", pm)
  else if val_is_const v then
    let* c := pcounter_const_id code pm in
    Ok ("CONST " +:+ num_string c, pcounter_move_const_id pm)
  else if val_is_ptr v then
    let* p := pcounter_ptr code pm in Ok ("PTR " +:+ num_string p, pcounter_move_ptr pm)
  else Err (type_error ("Unrecognized val type " +:+
    String (Ascii.ascii_of_nat (Z.to_nat v)) EmptyString +:+ " (val_string)")).

End Advance.

(** ** Theorems *)

Ltac operand_cases v :=
  repeat match goal with
  | H : context [if val_is_reg v then _ else _] |- _ => destruct (val_is_reg v) eqn:?
  | |- context [if val_is_reg v then _ else _] => destruct (val_is_reg v) eqn:?
  | H : context [if ?f v then _ else _] |- _ =>
      let E := fresh in destruct (f v) eqn:E; [apply Z.eqb_eq in E; subst v|]
  | |- context [if ?f v then _ else _] =>
      let E := fresh in destruct (f v) eqn:E; [apply Z.eqb_eq in E; subst v|]
  end.

(** decide the tests of a known operand code *)
Ltac closed_tests :=
  repeat match goal with
  | |- context [if ?b then _ else _] => let x := eval vm_compute in b in change b with x; cbv iota
  | H : context [if ?b then _ else _] |- _ =>
      let x := eval vm_compute in b in progress (change b with x in H); cbv iota in H
  end.

Lemma arg_size_anything_range v n : arg_size_anything v = Ok n → 0 <= n <= 8.
Proof.
  unfold arg_size_anything. intros H. operand_cases v; try discriminate H; injection H as <-; done.
Qed.

(** every class of operands gives an operand it accepts the size the general
    class gives it, between 0 and 8 bytes. *)
Theorem arg_size_agrees type v n :
  arg_size type v = Ok n → arg_size ARGUMENT_ANYTHING v = Ok n ∧ 0 <= n <= 8.
Proof.
  intros H. cut (arg_size ARGUMENT_ANYTHING v = Ok n).
  { intros Ha. split; [exact Ha|exact (arg_size_anything_range v n Ha)]. }
  cbn [arg_size]. destruct type; cbn [arg_size] in H; [exact H|..];
    unfold arg_size_anything_not_nil, arg_size_int, arg_size_writable, arg_size_list,
      arg_size_non_list, arg_size_bool, arg_size_node, arg_size_anything in *;
    operand_cases v; try discriminate; done.
Qed.

Lemma arg_size_agrees_witness :
  arg_size ARGUMENT_ANYTHING 0x22 = Ok 0 ∧ 0 <= 0 <= 8.
Proof. exact (arg_size_agrees ARGUMENT_LIST 0x22 0 eq_refl). Defined.

(** [val_string] moves past an operand by the size [advance] counts for it. *)
Theorem val_string_moves code fs ds v pm s pm' :
  val_string code fs ds v pm = Ok (s, pm') → arg_size ARGUMENT_ANYTHING v = Ok (pm' - pm).
Proof.
  unfold val_string. cbn [arg_size]. intros H. unfold arg_size_anything.
  operand_cases v; try match goal with E : val_is_reg _ = true |- _ => discriminate E end;
    closed_tests; repeat (apply res_bind_ok in H as (? & _ & H));
    try (case_match; try discriminate H); try discriminate H; injection H as <- <-; f_equal;
    unfold pcounter_move_const_id, pcounter_move_field, pcounter_move_int, pcounter_move_float,
      pcounter_move_node, pcounter_move_uint, pcounter_move_argument_id, pcounter_move_offset_num,
      pcounter_move_ptr, field_size, int_size, float_size, node_size, uint_size, argument_size,
      stack_val_size, ptr_size, reg_size, host_size, nil_size, tuple_size, string_size,
      pcounter_val_size; lia.
Qed.

Lemma val_string_moves_witness : arg_size ARGUMENT_ANYTHING 0x05 = Ok (5 - 1).
Proof.
  exact (val_string_moves [0; 7; 1; 0; 0] (λ _, ""%string) (λ _, None) 0x05 1 "@263"%string 5 eq_refl).
Defined.

(** *** Progress of the program counter *)

Definition byte_code_ok (code : list byte) : Prop := Forall (λ b, 0 <= b < 256) code.

Lemma byte_at_ok code pc b :
  byte_at code pc = Ok b ↔ 0 <= pc ∧ code !! Z.to_nat pc = Some b.
Proof.
  unfold byte_at. destruct (pc <? 0) eqn:E; rewrite ?of_option_ok; split; intros H; try done;
    [lia|split; [lia|done]|by destruct H].
Qed.

Lemma bytes_at_nonneg code n pc v : byte_code_ok code → bytes_at code n pc = Ok v → 0 <= v.
Proof.
  intros Hc. revert pc v. induction n as [|n IH]; intros pc v H; cbn [bytes_at] in H.
  - by injection H as <-.
  - apply res_bind_ok in H as (b & Hb & H). apply res_bind_ok in H as (r & Hr & H).
    injection H as <-. apply byte_at_ok in Hb as [_ Hb]. apply IH in Hr.
    assert (0 <= b < 256) by exact (Forall_lookup_1 _ _ _ _ Hc Hb). lia.
Qed.

Lemma arg_size_nonneg type v n : arg_size type v = Ok n → 0 <= n.
Proof.
  intros H. cut (arg_size_anything v = Ok n); [intros Ha; apply (arg_size_anything_range v n Ha)|].
  destruct type; cbn [arg_size] in H; [exact H|..];
    unfold arg_size_anything_not_nil, arg_size_int, arg_size_writable, arg_size_list,
      arg_size_non_list, arg_size_bool, arg_size_node, arg_size_anything in *;
    operand_cases v; try discriminate; done.
Qed.

Lemma operand_nonneg type get pc n : operand type get pc = Ok n → 0 <= n.
Proof. intros H. apply res_bind_ok in H as (v & _ & H). by apply arg_size_nonneg in H. Qed.

Lemma iter_matches_loop_nonneg code fuel pc size n :
  0 <= size → iter_matches_loop code fuel pc size = Ok n → size + iter_match_size <= n.
Proof.
  revert pc size. induction fuel as [|fuel IH]; intros pc size Hs H; cbn [iter_matches_loop] in H;
    [discriminate|].
  apply res_bind_ok in H as (v & _ & H). apply res_bind_ok in H as (k & Hk & H).
  apply arg_size_nonneg in Hk. apply res_bind_ok in H as (stop & _ & H). unfold iter_match_size in *.
  destruct stop; [injection H as <-; lia|]. apply IH in H; lia.
Qed.

Lemma iter_matches_size_pos code pc n : iter_matches_size code pc = Ok n → 2 <= n.
Proof.
  intros H. apply res_bind_ok in H as ([|] & _ & H); [injection H as <-; unfold iter_match_size; lia|].
  apply iter_matches_loop_nonneg in H; [|lia]. unfold iter_match_size in H. lia.
Qed.

Lemma call_args_nonneg code num arg n : instr_call_args_size code arg num = Ok n → 0 <= n.
Proof.
  revert arg n. induction num as [|num IH]; intros arg n H; cbn [instr_call_args_size] in H;
    [by injection H as <-|].
  apply res_bind_ok in H as (v & _ & H). apply res_bind_ok in H as (k & Hk & H).
  apply res_bind_ok in H as (t & Ht & H). injection H as <-.
  apply arg_size_nonneg in Hk. apply IH in Ht. unfold val_size. lia.
Qed.

Lemma delete_args_nonneg code num arg n : instr_delete_args_size code arg num = Ok n → 0 <= n.
Proof.
  revert arg n. induction num as [|num IH]; intros arg n H; cbn [instr_delete_args_size] in H;
    [by injection H as <-|].
  apply res_bind_ok in H as (v & _ & H). apply res_bind_ok in H as (k & Hk & H).
  apply res_bind_ok in H as (t & Ht & H). injection H as <-.
  apply arg_size_nonneg in Hk. apply IH in Ht. unfold val_size, index_size. lia.
Qed.

(** [advance] moves forward: by at least a byte past any instruction it knows,
    and by the length in its code past the axioms. *)
Theorem advance_progress code pc i pc' :
  byte_code_ok code → fetch code pc = Ok (Some i) → advance code pc = Ok pc' →
  match i with
  | NEW_AXIOMS_INSTR => new_axioms_jump code pc = Ok (pc' - pc)
  | _ => pc < pc'
  end.
Proof.
  intros Hc Hf H. unfold advance in H. rewrite Hf in H. cbn [res_bind] in H.
  destruct i; try discriminate H;
    repeat match goal with
    | H : res_bind _ _ = Ok _ |- _ => apply res_bind_ok in H as (? & ? & H)
    | H : operand _ _ _ = Ok _ |- _ => apply operand_nonneg in H
    | H : iter_matches_size _ _ = Ok _ |- _ => apply iter_matches_size_pos in H
    | H : instr_call_args_size _ _ _ = Ok _ |- _ => apply call_args_nonneg in H
    | H : instr_delete_args_size _ _ _ = Ok _ |- _ => apply delete_args_nonneg in H
    | H : select_hash_size _ _ = Ok _ |- _ => apply (bytes_at_nonneg _ _ _ _ Hc) in H
    end; injection H as <-;
    unfold SEND_BASE, OP_BASE, MOVE_BASE, ITER_BASE, ALLOC_BASE, CALL_BASE, IF_BASE, MOVE_NIL_BASE,
      TEST_NIL_BASE, CONS_BASE, HEAD_BASE, TAIL_BASE, NOT_BASE, RETURN_BASE, NEXT_BASE, FLOAT_BASE,
      SELECT_BASE, RETURN_SELECT_BASE, COLOCATED_BASE, DELETE_BASE, REMOVE_BASE, RETURN_LINEAR_BASE,
      RETURN_DERIVED_BASE, RESET_LINEAR_BASE, END_LINEAR_BASE, RULE_BASE, RULE_DONE_BASE,
      NEW_NODE_BASE, SEND_DELAY_BASE, PUSH_BASE, POP_BASE, PUSH_REGS_BASE, POP_REGS_BASE, CALLF_BASE,
      CALLE_BASE, jump_size, uint_size in *; try lia.
  rewrite H0. f_equal. lia.
Qed.

(** CONS of an integer on nil into a register *)
Definition sample_code : list byte := [0x04; 0; 0x01; 0x04; 0x20; 7; 0; 0; 0; 0x00].

Lemma advance_progress_witness : 0 < 9.
Proof.
  refine (advance_progress sample_code 0 CONS_INSTR 9 _ eq_refl eq_refl).
  repeat constructor; done.
Defined.

(** *** Matches *)

Lemma iter_matches_loop_fuel code : ∀ fuel k pc size,
  0 <= pc → (Z.to_nat (Z.of_nat (length code) - pc) < fuel)%nat →
  iter_matches_loop code (fuel + k) pc size = iter_matches_loop code fuel pc size.
Proof.
  induction fuel as [|fuel IH]; intros k pc size Hpc Hfuel; [lia|]. cbn [Nat.add iter_matches_loop].
  unfold iter_match_val, val_get. destruct (byte_at code (pc + 1)) as [b|e] eqn:Hb; [|done].
  cbn [res_bind]. destruct (arg_size ARGUMENT_ANYTHING (Z.land b 63)) as [n|e] eqn:Hn; [|done].
  cbn [res_bind]. destruct (iter_match_end code pc) as [[|]|e]; [done| |done]. cbn [res_bind].
  apply arg_size_nonneg in Hn. apply byte_at_ok in Hb as [_ Hb%lookup_lt_Some].
  apply IH; unfold iter_match_size; lia.
Qed.

(** the fuel of [iter_matches_size] is never what ends it: with any larger
    fuel the loop gives the same result. *)
Theorem iter_matches_size_fuel code pc k :
  0 <= pc →
  iter_matches_loop code (S (length code) + k) pc 0 = iter_matches_loop code (S (length code)) pc 0 ∧
  (∀ n, iter_matches_size code pc = Ok n → 2 <= n).
Proof.
  intros Hpc. split; [apply iter_matches_loop_fuel; lia|apply iter_matches_size_pos].
Qed.

Lemma iter_matches_size_fuel_witness :
  iter_matches_loop [0; 0x41; 1; 0; 0; 0] 17 0 0 = iter_matches_loop [0; 0x41; 1; 0; 0; 0] 7 0 0 ∧
  (∀ n, iter_matches_size [0; 0x41; 1; 0; 0; 0] 0 = Ok n → 2 <= n).
Proof. exact (iter_matches_size_fuel [0; 0x41; 1; 0; 0; 0] 0 10 (Z.le_refl 0)). Defined.

(** *** Identifiers changed in place *)

Lemma byte_at_insert code pc b pc' :
  0 <= pc → 0 <= pc' → (Z.to_nat pc < length code)%nat →
  byte_at (<[Z.to_nat pc := b]> code) pc' = if pc' =? pc then Ok b else byte_at code pc'.
Proof.
  intros H H' Hlt. unfold byte_at. replace (pc' <? 0) with false by lia.
  destruct (pc' =? pc) eqn:E.
  - replace pc' with pc by lia. by rewrite list_lookup_insert_eq.
  - rewrite list_lookup_insert_ne by lia. done.
Qed.

(** [rule_set_id] writes one byte of the four [rule_get_id] reads: the rule
    number is set modulo 256, and the upper bytes keep their old value. *)
Theorem rule_set_id_byte code pc id old code' :
  0 <= pc → byte_code_ok code →
  rule_get_id code pc = Ok old → rule_set_id code pc id = Ok code' →
  rule_get_id code' pc = Ok (id mod 256 + 256 * (old / 256)).
Proof.
  intros Hpc Hc Hold Hset. unfold rule_get_id, pcounter_uint in *. cbn [bytes_at] in *.
  apply res_bind_ok in Hold as (b0 & H0 & Hold). apply res_bind_ok in Hold as (r1 & H1 & Hold).
  injection Hold as <-. apply res_bind_ok in Hset as (b & Hb & Hset). injection Hset as <-.
  apply byte_at_ok in Hb as [_ Hlt%lookup_lt_Some].
  assert (0 <= b0 < 256) by (apply byte_at_ok in H0 as [_ H0]; exact (Forall_lookup_1 _ _ _ _ Hc H0)).
  rewrite !byte_at_insert by lia.
  replace (pc + 1 =? pc + 1) with true by lia.
  replace (pc + 1 + 1 =? pc + 1) with false by lia.
  replace (pc + 1 + 1 + 1 =? pc + 1) with false by lia.
  replace (pc + 1 + 1 + 1 + 1 =? pc + 1) with false by lia.
  cbn [res_bind] in *. rewrite H1. cbn [res_bind]. unfold wrap. f_equal.
  rewrite (Z.mul_comm 256 r1), Z.div_add, Z.div_small by lia. change (2 ^ 8) with 256. lia.
Qed.

Lemma rule_set_id_byte_witness :
  rule_get_id [0x10; 0; 0; 0; 0] 0 = Ok (256 mod 256 + 256 * (0 / 256)).
Proof.
  refine (rule_set_id_byte [0x10; 0; 0; 0; 0] 0 256 0 _ (Z.le_refl 0) _ eq_refl eq_refl).
  repeat constructor; done.
Defined.
