(* ===== verification/RuntimeList.v ===== *)
(** Runtime lists and strings: [runtime/list.hpp] and [runtime/string.hpp].
    Cons cells live in a store; a [list_ptr] is an address (0 is null) and every
    cell counts the references to it.  [cons<T>] is a template: a Section over
    the size of [T] and its [operator!=]. *)

From Stdlib Require Import ZArith Lia Bool.
From stdpp Require Import base tactics list numbers option gmap.
From S2P Require Import Prelude Words.

#[local] Open Scope Z_scope.

Abbreviation list_ptr := Z.

Record cell : Type := mk_cell {
  tail : list_ptr;
  head : Z;
  refs : Z
}.

(** the memory that holds the cells of one type *)
Abbreviation store := (gmap positive cell).

Definition null_list : list_ptr := 0.
Definition is_null (ls : list_ptr) : bool := ls =? null_list.

(** [*ls], undefined unless a live cell is at the address *)
Definition deref (st : store) (ls : list_ptr) : res cell :=
  match ls with
  | Zpos p => of_option (st !! p)
  | _ => Err undefined_behaviour
  end.

Definition set_refs (n : Z) (c : cell) : cell := mk_cell (tail c) (head c) n.
Definition set_cell_tail (t : list_ptr) (c : cell) : cell := mk_cell t (head c) (refs c).

Definition update (st : store) (ls : list_ptr) (f : cell → cell) : res store :=
  let* c := deref st ls in
  match ls with
  | Zpos p => Ok (<[p := f c]> st)
  | _ => Err undefined_behaviour
  end.

(** [ls->inc_refs()] *)
Definition inc_refs_cell (st : store) (ls : list_ptr) : res store :=
  let* c := deref st ls in update st ls (set_refs (wrap 64 (refs c + 1))).

(** [cons::inc_refs(ls)] *)
Definition inc_refs (st : store) (ls : list_ptr) : res store :=
  if is_null ls then Ok st else inc_refs_cell st ls.

(** [ls->dec_refs()] and [destroy]: a cell whose count reaches zero gives up its
    tail and is deleted.  Every nested call finds one more cell with count zero,
    so the number of cells bounds the depth. *)
Fixpoint dec_refs_cell (fuel : nat) (st : store) (ls : list_ptr) : res store :=
  match fuel with
  | O => Err undefined_behaviour
  | S fuel =>
      let* c := deref st ls in
      asserting (refs c >? 0)
        (let* st := update st ls (set_refs (refs c - 1)) in
         if refs c - 1 =? 0 then
           let* st := if is_null (tail c) then Ok st else dec_refs_cell fuel st (tail c) in
           Ok (match ls with Zpos p => delete p st | _ => st end)
         else Ok st)
  end.

Definition dec_refs (st : store) (ls : list_ptr) : res store :=
  if is_null ls then Ok st else dec_refs_cell (size st + 1) st ls.

Definition has_refs (st : store) (ls : list_ptr) : res bool :=
  if is_null ls then Ok true else let* c := deref st ls in Ok (refs c >? 0).

(** [new cons(_tail, _head)]: the allocator gives an address not in use; the
    constructor takes a reference to the tail. *)
Definition new_cons (st : store) (t : list_ptr) (h : Z) : res (store * list_ptr) :=
  let* st := inc_refs st t in
  let p : positive := fresh (dom st) in
  Ok (<[p := mk_cell t h 0]> st, Zpos p).

(** [p->set_tail(t)] *)
Definition set_tail (st : store) (p t : list_ptr) : res store :=
  let* st := update st p (set_cell_tail t) in inc_refs st t.

(** *** Walks: a list longer than the number of cells is a cycle, on which the
    code recurses for ever. *)

Fixpoint length_walk (fuel : nat) (st : store) (ls : list_ptr) : res Z :=
  match fuel with
  | O => Err undefined_behaviour
  | S fuel =>
      if is_null ls then Ok 0
      else let* c := deref st ls in
           let* n := length_walk fuel st (tail c) in Ok (1 + n)
  end.

Definition length_list (st : store) (ls : list_ptr) : res Z :=
  length_walk (size st + 1) st ls.

Fixpoint get (st : store) (ls : list_ptr) (pos : nat) (def : Z) : res Z :=
  if is_null ls then Ok def
  else let* c := deref st ls in
       match pos with
       | O => Ok (head c)
       | S pos => get st (tail c) pos def
       end.

Fixpoint stl_walk (fuel : nat) (st : store) (ls : list_ptr) : res (list Z) :=
  match fuel with
  | O => Err undefined_behaviour
  | S fuel =>
      if is_null ls then Ok []
      else let* c := deref st ls in
           let* rest := stl_walk fuel st (tail c) in Ok (head c :: rest)
  end.

(** [stl_list(ls)] *)
Definition stl_list (st : store) (ls : list_ptr) : res (list Z) :=
  stl_walk (size st + 1) st ls.

(** [copy]: the first cell has no reference, the others one *)
Fixpoint copy_loop (fuel : nat) (st : store) (cur ptr : list_ptr) : res store :=
  match fuel with
  | O => Err undefined_behaviour
  | S fuel =>
      if is_null ptr then Ok st
      else
        let* c := deref st ptr in
        let* r := new_cons st null_list (head c) in
        let '(st, n) := r in
        let* st := set_tail st cur n in
        copy_loop fuel st n (tail c)
  end.

Definition copy (st : store) (ptr : list_ptr) : res (store * list_ptr) :=
  if is_null ptr then Ok (st, null_list)
  else
    let* c := deref st ptr in
    let* r := new_cons st null_list (head c) in
    let '(st', init) := r in
    let* st' := copy_loop (size st + 1) st' init (tail c) in
    Ok (st', init).

(** [from_stack_to_list]: the top of the stack comes first in [stk] *)
Fixpoint from_stack (st : store) (ptr : list_ptr) (stk : list Z) : res (store * list_ptr) :=
  match stk with
  | [] => Ok (st, ptr)
  | x :: stk =>
      let* r := new_cons st ptr x in
      let '(st, ptr) := r in from_stack st ptr stk
  end.

Definition from_stack_to_list (st : store) (stk : list Z) : res (store * list_ptr) :=
  from_stack st null_list stk.

Definition from_stack_to_reverse_list (st : store) (stk : list Z) : res (store * list_ptr) :=
  from_stack_to_list st (rev stk).

Definition from_vector_to_reverse_list (st : store) (vec : list Z) : res (store * list_ptr) :=
  from_stack st null_list vec.

Section Cons.
(** [sizeof(T)] and [operator==] of the elements *)
Context (sizeofT : nat) (elem_eqb : Z → Z → bool).

Fixpoint equal_walk (fuel : nat) (st : store) (l1 l2 : list_ptr) : res bool :=
  match fuel with
  | O => Err undefined_behaviour
  | S fuel =>
      if is_null l1 && negb (is_null l2) then Ok false
      else if negb (is_null l1) && is_null l2 then Ok false
      else if is_null l1 && is_null l2 then Ok true
      else
        let* c1 := deref st l1 in
        let* c2 := deref st l2 in
        if negb (elem_eqb (head c1) (head c2)) then Ok false
        else equal_walk fuel st (tail c1) (tail c2)
  end.

Definition equal (st : store) (l1 l2 : list_ptr) : res bool :=
  equal_walk (size st + 1) st l1 l2.

Definition size_list (st : store) (ls : list_ptr) : res Z :=
  let* n := length_list st ls in Ok (4 + Z.of_nat sizeofT * n).

Fixpoint pack_heads (len : nat) (st : store) (p : list_ptr) (buf : list byte)
    (buf_size pos : Z) : res (list byte * Z) :=
  match len with
  | O => Ok (buf, pos)
  | S len =>
      if is_null p then Ok (buf, pos)
      else
        let* c := deref st p in
        let* r := Words.pack sizeofT [head c] buf buf_size pos in
        let '(buf, pos) := r in
        pack_heads len st (tail c) buf buf_size pos
  end.

Definition pack (st : store) (ptr : list_ptr) (buf : list byte) (buf_size pos : Z)
  : res (list byte * Z) :=
  let* len := length_list st ptr in
  let* r := Words.pack 4 [len] buf buf_size pos in
  let '(buf, pos) := r in
  asserting (pos <? buf_size) (pack_heads (Z.to_nat len) st ptr buf buf_size pos).

Fixpoint unpack_heads (len : nat) (st : store) (init prev : list_ptr) (buf : list byte)
    (buf_size pos : Z) : res (store * list_ptr * Z) :=
  match len with
  | O => Ok (st, init, pos)
  | S len =>
      let* r := Words.unpack sizeofT buf buf_size pos 1 in
      let '(heads, pos) := r in
      let* h := of_option (heads !! 0%nat) in
      let* r := new_cons st null_list h in
      let '(st, n) := r in
      if is_null prev then unpack_heads len st n n buf buf_size pos
      else
        let* st := set_tail st prev n in
        unpack_heads len st init n buf buf_size pos
  end.

Definition unpack (st : store) (buf : list byte) (buf_size pos : Z)
  : res (store * list_ptr * Z) :=
  let* r := Words.unpack 4 buf buf_size pos 1 in
  let '(lens, pos) := r in
  let* len := of_option (lens !! 0%nat) in
  unpack_heads (Z.to_nat len) st null_list null_list buf buf_size pos.
End Cons.

(** *** runtime/string.hpp *)

Record rstring : Type := mk_rstring { content : list byte; string_refs : Z }.

Abbreviation string_store := (gmap positive rstring).

Definition new_string (st : string_store) (s : list byte) (n : Z) : string_store * Z :=
  let p : positive := fresh (dom st) in (<[p := mk_rstring s n]> st, Zpos p).

Definition make_default_string (st : string_store) (s : list byte) : string_store * Z :=
  new_string st s 1.

Definition make_string (st : string_store) (s : list byte) : string_store * Z :=
  new_string st s 0.

Definition deref_string (st : string_store) (p : Z) : res rstring :=
  match p with
  | Zpos q => of_option (st !! q)
  | _ => Err undefined_behaviour
  end.

Definition get_content (st : string_store) (p : Z) : res (list byte) :=
  let* s := deref_string st p in Ok (content s).

Definition copy_string (st : string_store) (p : Z) : res (string_store * Z) :=
  let* s := deref_string st p in Ok (make_string st (content s)).

Definition inc_string_refs (st : string_store) (p : Z) : res string_store :=
  let* s := deref_string st p in
  Ok (<[Z.to_pos p := mk_rstring (content s) (wrap 64 (string_refs s + 1))]> st).

Definition dec_string_refs (st : string_store) (p : Z) : res string_store :=
  let* s := deref_string st p in
  asserting (string_refs s >? 0)
    (if string_refs s - 1 =? 0 then Ok (delete (Z.to_pos p) st)
     else Ok (<[Z.to_pos p := mk_rstring (content s) (string_refs s - 1)]> st)).

(** ** What an address stands for *)

Inductive is_list (st : store) : list_ptr → list Z → Prop :=
  | is_list_nil : is_list st null_list []
  | is_list_cons p c l :
      st !! p = Some c → is_list st (tail c) l → is_list st (Zpos p) (head c :: l).

#[export] Hint Constructors is_list : meld.

Lemma is_list_func st ls l1 l2 : is_list st ls l1 → is_list st ls l2 → l1 = l2.
Proof.
  intros H1. revert l2. induction H1 as [|p c l Hp _ IH]; intros l2 H2;
    inversion H2; simplify_eq; [done|]. f_equal. auto.
Qed.

(** the addresses of a list are distinct *)
Lemma is_list_ptrs st ls l :
  is_list st ls l →
  ∃ ps, length ps = length l ∧ NoDup ps ∧
    ∀ q, q ∈ ps → q ∈ dom st ∧ ∃ l', is_list st (Zpos q) l' ∧ (length l' <= length l)%nat.
Proof.
  induction 1 as [|p c l Hp Hl (ps & Hlen & Hnd & Hps)].
  { exists []. split_and!; [done|constructor|]. intros q Hq. by apply elem_of_nil in Hq. }
  exists (p :: ps). split_and!; [simpl; lia| |].
  - constructor; [|done]. intros Hin. destruct (Hps p Hin) as (_ & l' & Hl' & Hle).
    assert (l' = head c :: l) as -> by (eapply is_list_func; eauto with meld).
    simpl in Hle. lia.
  - intros q [->|Hq]%elem_of_cons.
    + split; [by eapply elem_of_dom_2|]. exists (head c :: l). split; [by econstructor|done].
    + destruct (Hps q Hq) as (? & l' & ? & ?). split; [done|]. exists l'. simpl. split; [done|lia].
Qed.

Lemma is_list_length st ls l : is_list st ls l → (length l <= size st)%nat.
Proof.
  intros (ps & <- & Hnd & Hps)%is_list_ptrs.
  rewrite <-(size_list_to_set (C:=gset positive) ps Hnd), <-(size_dom (D:=gset positive) st).
  apply subseteq_size. intros q Hq%elem_of_list_to_set. by apply Hps.
Qed.

Lemma is_list_mono st st' ls l :
  is_list st ls l →
  (∀ q c, st !! q = Some c → ∃ c', st' !! q = Some c' ∧ tail c' = tail c ∧ head c' = head c) →
  is_list st' ls l.
Proof.
  intros H Hsub. induction H as [|p c l Hp _ IH]; [constructor|].
  destruct (Hsub p c Hp) as (c' & Hc' & Ht & <-). econstructor; [done|]. by rewrite Ht.
Qed.

Lemma length_walk_ok fuel st ls l :
  is_list st ls l → (length l < fuel)%nat → length_walk fuel st ls = Ok (Z.of_nat (length l)).
Proof.
  intros H. revert fuel. induction H as [|p c l Hp _ IH]; intros [|fuel] Hf; simpl in *;
    try lia; [done|]. rewrite Hp. simpl. rewrite IH by lia. simpl. f_equal. lia.
Qed.

Lemma stl_walk_ok fuel st ls l :
  is_list st ls l → (length l < fuel)%nat → stl_walk fuel st ls = Ok l.
Proof.
  intros H. revert fuel. induction H as [|p c l Hp _ IH]; intros [|fuel] Hf; simpl in *;
    try lia; [done|]. rewrite Hp. simpl. by rewrite IH by lia.
Qed.

Lemma get_ok st ls l pos def :
  is_list st ls l → get st ls pos def = Ok (nth pos l def).
Proof.
  intros H. revert pos. induction H as [|p c l Hp _ IH]; intros [|pos]; try done;
    simpl; rewrite Hp; simpl; auto.
Qed.

Lemma equal_walk_ok eqb fuel st p1 p2 l1 l2 :
  is_list st p1 l1 → is_list st p2 l2 → (length l1 < fuel)%nat →
  equal_walk eqb fuel st p1 p2
  = Ok ((length l1 =? length l2)%nat && forallb (fun '(a, b) => eqb a b) (zip l1 l2))
  ∨ length l1 ≠ length l2 ∧ equal_walk eqb fuel st p1 p2 = Ok false.
Proof.
  intros H1. revert fuel p2 l2. induction H1 as [|p c l Hp _ IH]; intros [|fuel] p2 l2 H2 Hf;
    simpl in Hf; try lia; inversion H2 as [|q d m Hq Hm]; subst; simpl; auto.
  rewrite Hp, Hq. simpl. destruct (eqb (head c) (head d)); simpl.
  - destruct (IH fuel (tail d) m Hm ltac:(lia)) as [->|[? ->]]; [by left|right; split; [lia|done]].
  - left. by rewrite andb_false_r.
Qed.

Lemma length_list_ok st ls l : is_list st ls l → length_list st ls = Ok (Z.of_nat (length l)).
Proof.
  intros H. apply length_walk_ok; [done|]. apply is_list_length in H. lia.
Qed.

Lemma stl_list_ok st ls l : is_list st ls l → stl_list st ls = Ok l.
Proof. intros H. apply stl_walk_ok; [done|]. apply is_list_length in H. lia. Qed.

Lemma equal_ok eqb st p1 p2 l1 l2 :
  is_list st p1 l1 → is_list st p2 l2 →
  equal eqb st p1 p2
  = Ok ((length l1 =? length l2)%nat && forallb (fun '(a, b) => eqb a b) (zip l1 l2)).
Proof.
  intros H1 H2. pose proof (is_list_length _ _ _ H1).
  destruct (equal_walk_ok eqb (size st + 1) st p1 p2 l1 l2 H1 H2) as [H3|[Hne H3]];
    [lia|done|]. unfold equal. rewrite H3.
  rewrite (proj2 (Nat.eqb_neq _ _)) by done. done.
Qed.

(** ** Reference counting

    [roots] are the references held outside of the cells, with repetition.  [D]
    are the cells that are being destroyed: they no longer own their tail. *)

Definition tail_count (D : gset positive) (q : positive) (st : store) : nat :=
  size (filter (fun kv => kv.1 ∉ D ∧ tail kv.2 = Zpos q) st).

Definition root_count (roots : list positive) (q : positive) : nat :=
  length (filter (fun r => r = q) roots).

Record rc_inv (D : gset positive) (roots : list positive) (st : store) : Prop := {
  rc_refs q c : st !! q = Some c → q ∉ D →
    refs c = Z.of_nat (tail_count D q st + root_count roots q);
  rc_roots q : q ∈ roots → q ∈ dom st ∧ q ∉ D;
  rc_tails q c : st !! q = Some c → q ∉ D →
    tail c = 0 ∨ ∃ t, tail c = Zpos t ∧ t ∈ dom st ∧ t ∉ D
}.

Lemma tail_count_insert D q st p c :
  st !! p = None →
  tail_count D q (<[p := c]> st)
  = (tail_count D q st + if decide (p ∉ D ∧ tail c = Zpos q) then 1 else 0)%nat.
Proof.
  intros Hp. unfold tail_count. case_decide as Hc.
  - rewrite map_filter_insert_True by done.
    rewrite map_size_insert_None; [lia|]. rewrite map_lookup_filter_None. by left.
  - rewrite map_filter_insert_False by done. rewrite delete_id by done. lia.
Qed.

(** split off the contribution of one cell *)
Lemma tail_count_split D q st p c :
  st !! p = Some c →
  tail_count D q st
  = (tail_count D q (delete p st) + if decide (p ∉ D ∧ tail c = Zpos q) then 1 else 0)%nat.
Proof.
  intros Hp. rewrite <-(insert_delete_id st p c Hp) at 1.
  apply tail_count_insert. apply lookup_delete_eq.
Qed.

Lemma tail_count_ext D D' q st :
  (∀ p c, st !! p = Some c → p ∉ D ↔ p ∉ D') → tail_count D q st = tail_count D' q st.
Proof.
  intros H. unfold tail_count. f_equal. apply map_filter_ext. simpl. naive_solver.
Qed.

Lemma tail_count_pos D q st p c :
  st !! p = Some c → p ∉ D → tail c = Zpos q → (0 < tail_count D q st)%nat.
Proof.
  intros Hp HD Ht. rewrite (tail_count_split D q st p c Hp), decide_True by done. lia.
Qed.

Lemma root_count_cons r roots q :
  root_count (r :: roots) q = (root_count roots q + if decide (r = q) then 1 else 0)%nat.
Proof. unfold root_count. rewrite filter_cons. case_decide; simpl; lia. Qed.

Lemma root_count_pos roots q : q ∈ roots → (0 < root_count roots q)%nat.
Proof.
  induction roots as [|r roots IH]; [by intros ?%elem_of_nil|].
  rewrite root_count_cons, elem_of_cons. case_decide; [lia|].
  intros [->|Hq]; [done|]. apply IH in Hq. lia.
Qed.

(** changing only the count of a cell *)
Lemma tail_count_set_refs D q st p c n :
  st !! p = Some c → tail_count D q (<[p := set_refs n c]> st) = tail_count D q st.
Proof.
  intros Hp. rewrite (tail_count_split D q (<[p := set_refs n c]> st) p (set_refs n c))
    by apply lookup_insert_eq.
  rewrite delete_insert_eq. symmetry. apply (tail_count_split D q st p c Hp).
Qed.

Lemma update_pos st p c f : st !! p = Some c → update st (Zpos p) f = Ok (<[p := f c]> st).
Proof. intros Hp. unfold update. simpl. rewrite Hp. done. Qed.

(** the cells of [st'] are cells of [st], up to their counts *)
Definition sub_cells (st' st : store) : Prop :=
  ∀ q c', st' !! q = Some c' →
    ∃ c, st !! q = Some c ∧ tail c' = tail c ∧ head c' = head c.

Lemma sub_cells_refl st : sub_cells st st.
Proof. intros q c H. eauto. Qed.

Lemma sub_cells_trans s1 s2 s3 : sub_cells s1 s2 → sub_cells s2 s3 → sub_cells s1 s3.
Proof. intros H1 H2 q c H. destruct (H1 q c H) as (c2 & Hc2 & ? & ?).
  destruct (H2 q c2 Hc2) as (c3 & ? & ? & ?). exists c3. split_and!; congruence. Qed.

Lemma sub_cells_set_refs st p c n :
  st !! p = Some c → sub_cells (<[p := set_refs n c]> st) st.
Proof.
  intros Hp q c' [[<- <-]|[_ Hq]]%lookup_insert_Some; eauto.
Qed.

Lemma sub_cells_delete st p : sub_cells (delete p st) st.
Proof. intros q c' [_ Hq]%lookup_delete_Some. eauto. Qed.

(** a count that does not reach zero *)
Lemma rc_dec D p roots st c :
  rc_inv D (p :: roots) st → st !! p = Some c →
  rc_inv D roots (<[p := set_refs (refs c - 1) c]> st).
Proof.
  intros [Hrefs Hroots Htails] Hp.
  assert (HpD : p ∉ D) by (apply Hroots; left).
  assert (Hdom : dom (<[p := set_refs (refs c - 1) c]> st) = dom st)
    by (apply dom_insert_lookup_L; by eexists).
  split; rewrite ?Hdom.
  - intros q d Hq HqD. rewrite (tail_count_set_refs D q st p c) by done.
    apply lookup_insert_Some in Hq as [[<- <-]|[Hne Hq]].
    + simpl. rewrite (Hrefs p c Hp HpD), root_count_cons, decide_True by done. lia.
    + rewrite (Hrefs q d Hq HqD), root_count_cons, decide_False by done. lia.
  - intros q Hq. apply Hroots. by right.
  - intros q d Hq HqD. apply lookup_insert_Some in Hq as [[<- <-]|[Hne Hq]].
    + by apply (Htails p c).
    + by apply (Htails q d).
Qed.

(** nothing refers to a cell whose count is zero *)
Lemma rc_zero D roots st p c :
  rc_inv D roots st → st !! p = Some c → p ∉ D → refs c = 0 →
  p ∉ roots ∧ ∀ q d, st !! q = Some d → q ∉ D → tail d ≠ Zpos p.
Proof.
  intros [Hrefs Hroots Htails] Hp HD Hz. rewrite (Hrefs p c Hp HD) in Hz. split.
  - intros Hin%root_count_pos. lia.
  - intros q d Hq HqD Ht. pose proof (tail_count_pos D p st q d Hq HqD Ht). lia.
Qed.

(** [p] starts to be destroyed: its reference to the tail becomes a root *)
Lemma rc_destroy D roots st p c :
  rc_inv D roots st → st !! p = Some c → p ∉ D → refs c = 0 →
  rc_inv ({[p]} ∪ D) (match tail c with Zpos t => t :: roots | _ => roots end) st.
Proof.
  intros Hinv Hp HD Hz. destruct (rc_zero D roots st p c Hinv Hp HD Hz) as [Hnr Hnt].
  destruct Hinv as [Hrefs Hroots Htails].
  assert (Hsplit : ∀ q, tail_count D q st
    = (tail_count ({[p]} ∪ D) q st + if decide (tail c = Zpos q) then 1 else 0)%nat).
  { intros q. rewrite (tail_count_split D q st p c Hp).
    rewrite (tail_count_split ({[p]} ∪ D) q st p c Hp).
    rewrite (tail_count_ext D ({[p]} ∪ D) q (delete p st))
      by (intros a d [Hne _]%lookup_delete_Some; set_solver).
    rewrite (decide_False (P := p ∉ {[p]} ∪ D ∧ tail c = Zpos q)) by set_solver.
    destruct (decide (tail c = Zpos q));
      [rewrite decide_True by done|rewrite decide_False by naive_solver]; lia. }
  split.
  - intros q d Hq Hn. assert (HqD : q ∉ D) by set_solver.
    rewrite (Hrefs q d Hq HqD), Hsplit. destruct (tail c) as [|t|t]; simpl.
    + lia.
    + rewrite root_count_cons. destruct (decide (t = q)) as [->|].
      * rewrite decide_True by done. lia.
      * rewrite decide_False by congruence. lia.
    + lia.
  - intros q Hq. assert (Hcase : q ∈ roots ∨ tail c = Zpos q).
    { destruct (tail c); [by left| |by left]. apply elem_of_cons in Hq as [->|]; auto. }
    destruct Hcase as [Hr|Ht].
    + destruct (Hroots q Hr). set_solver.
    + destruct (Htails p c Hp HD) as [Ht0|(t & Ht' & ? & ?)]; [congruence|].
      assert (t = q) as -> by congruence. split; [done|].
      assert (q ≠ p) by (intros ->; by apply (Hnt p c)). set_solver.
  - intros q d Hq Hn. assert (HqD : q ∉ D) by set_solver.
    destruct (Htails q d Hq HqD) as [|(t & Ht & ? & ?)]; [by left|].
    right. exists t. split_and!; [done|done|].
    assert (t ≠ p) by (intros ->; by apply (Hnt q d)). set_solver.
Qed.

(** [p] is gone *)
Lemma rc_delete D roots st p :
  rc_inv ({[p]} ∪ D) roots st → p ∉ D → rc_inv D roots (delete p st).
Proof.
  intros [Hrefs Hroots Htails] HD.
  assert (Hcount : ∀ q, tail_count D q (delete p st) = tail_count ({[p]} ∪ D) q st).
  { intros q. rewrite (tail_count_ext D ({[p]} ∪ D) q (delete p st))
      by (intros a d [Hne _]%lookup_delete_Some; set_solver).
    destruct (st !! p) as [c|] eqn:Hp; [|by rewrite delete_id].
    rewrite (tail_count_split ({[p]} ∪ D) q st p c Hp), decide_False by set_solver. lia. }
  split.
  - intros q d [Hne Hq]%lookup_delete_Some HqD. rewrite Hcount. apply Hrefs; set_solver.
  - intros q Hq. destruct (Hroots q Hq). set_solver.
  - intros q d [Hne Hq]%lookup_delete_Some HqD.
    destruct (Htails q d Hq) as [|(t & ? & ? & ?)]; [set_solver|by left|].
    right. exists t. set_solver.
Qed.

Definition live (D : gset positive) (st : store) : nat := size (dom st ∖ D).

Lemma live_destroy D st p :
  p ∈ dom st → p ∉ D → live D st = S (live ({[p]} ∪ D) st).
Proof.
  intros Hp HD. unfold live.
  replace (dom st ∖ ({[p]} ∪ D)) with ((dom st ∖ D) ∖ {[p]}) by set_solver.
  assert (Hsub : {[p]} ⊆ dom st ∖ D).
  { intros q ->%elem_of_singleton. by apply elem_of_difference. }
  rewrite (size_difference _ _ Hsub), size_singleton.
  assert (size (dom st ∖ D) ≠ 0%nat); [|lia].
  intros H0%size_empty_inv. set_solver.
Qed.

Lemma dom_set_refs (st : store) p c n : st !! p = Some c → dom (<[p := set_refs n c]> st) = dom st.
Proof. intros Hp. apply dom_insert_lookup_L. by eexists. Qed.

Lemma dec_refs_cell_ok fuel st p D roots :
  rc_inv D (p :: roots) st → (live D st <= fuel)%nat →
  ∃ st', dec_refs_cell fuel st (Zpos p) = Ok st' ∧ rc_inv D roots st' ∧ sub_cells st' st.
Proof.
  revert st p D roots. induction fuel as [|fuel IH]; intros st p D roots Hinv Hf;
    destruct (rc_roots _ _ _ Hinv p ltac:(left)) as [Hdom HD].
  { rewrite (live_destroy D st p) in Hf by done. lia. }
  apply elem_of_dom in Hdom as [c Hp].
  pose proof (rc_dec D p roots st c Hinv Hp) as Hdec.
  pose proof (rc_refs _ _ _ Hinv p c Hp HD) as Hn.
  rewrite root_count_cons, decide_True in Hn by done.
  cbn [dec_refs_cell]. unfold deref at 1. rewrite Hp. cbn [of_option res_bind].
  rewrite (proj2 (Z.gtb_lt _ _)) by lia. cbn [asserting].
  rewrite (update_pos st p c) by done. cbn [res_bind].
  set (st1 := <[p := set_refs (refs c - 1) c]> st) in *.
  assert (Hsub : sub_cells st1 st) by (by apply sub_cells_set_refs).
  destruct (refs c - 1 =? 0) eqn:Hz; [|by exists st1].
  bool_to_prop.
  assert (Hp1 : st1 !! p = Some (set_refs (refs c - 1) c)) by apply lookup_insert_eq.
  pose proof (rc_destroy D roots st1 p _ Hdec Hp1 HD Hz) as Hdes. cbn [set_refs tail] in Hdes.
  destruct (rc_tails _ _ _ Hdec p _ Hp1 HD) as [Ht|(t & Ht & Htd & HtD)];
    cbn [set_refs tail] in Ht; rewrite Ht in *.
  - cbn. eexists. split_and!; [done|by apply rc_delete|].
    eapply sub_cells_trans; [apply sub_cells_delete|done].
  - cbn [is_null Z.eqb]. change (is_null (Zpos t)) with false. cbn [res_bind].
    destruct (IH st1 t ({[p]} ∪ D) roots Hdes) as (st2 & -> & Hinv2 & Hsub2).
    { assert (Hl : live D st1 = S (live ({[p]} ∪ D) st1)).
      { apply live_destroy; [|done]. by eapply elem_of_dom_2. }
      assert (Hsame : live D st1 = live D st) by (unfold live, st1; by rewrite dom_set_refs).
      lia. }
    cbn [res_bind]. eexists. split_and!; [done|by apply rc_delete|].
    eapply sub_cells_trans; [apply sub_cells_delete|]. by eapply sub_cells_trans.
Qed.

(** what a root stands for survives as long as it is a root *)
Lemma rc_is_list roots st st' r l :
  rc_inv ∅ roots st' → sub_cells st' st → r ∈ roots → is_list st (Zpos r) l →
  is_list st' (Zpos r) l.
Proof.
  intros Hinv Hsub Hr.
  assert (Hin : r ∈ dom st') by (by apply (rc_roots _ _ _ Hinv)). clear Hr.
  remember (Zpos r) as ls eqn:Hls. intros H. revert r Hls Hin.
  induction H as [|p c l Hp Hl IH]; intros r Hls Hin; [done|]. simplify_eq.
  apply elem_of_dom in Hin as [c' Hc'].
  destruct (Hsub r c' Hc') as (c0 & Hc0 & Ht & Hh). simplify_eq.
  rewrite <-Hh. econstructor; [done|]. rewrite Ht.
  destruct (rc_tails _ _ _ Hinv r c' Hc') as [H0|(t & H1 & H2 & _)]; [set_solver| |].
  - rewrite Ht in H0. rewrite H0 in *. inversion Hl. constructor.
  - rewrite Ht in H1. rewrite H1 in *. by apply (IH t).
Qed.

(** C31: Reference counting is safe.  In a memory where every count is the number
    of references to the cell (from tails and from the [roots] held elsewhere),
    giving up one root never fails, keeps every count exact and no reference
    dangling, and the lists of all the remaining roots are untouched. *)
Theorem dec_refs_safe st p roots :
  rc_inv ∅ (p :: roots) st →
  ∃ st', dec_refs st (Zpos p) = Ok st' ∧ rc_inv ∅ roots st' ∧
    ∀ r l, r ∈ roots → is_list st (Zpos r) l → is_list st' (Zpos r) l.
Proof.
  intros Hinv. unfold dec_refs. change (is_null (Zpos p)) with false. cbn iota.
  destruct (dec_refs_cell_ok (size st + 1) st p ∅ roots Hinv) as (st' & Heq & Hinv' & Hsub).
  { unfold live. rewrite difference_empty_L, size_dom. lia. }
  exists st'. split_and!; [done|done|]. intros r l Hr. by apply (rc_is_list roots).
Qed.

Lemma dec_refs_safe_witness :
  let st : store := {[ 1%positive := mk_cell 2 5 1; 2%positive := mk_cell 0 6 2 ]} in
  ∃ st', dec_refs st 1 = Ok st' ∧ rc_inv ∅ [2%positive] st' ∧
    ∀ r l, r ∈ [2%positive] → is_list st (Zpos r) l → is_list st' (Zpos r) l.
Proof.
  intros st. apply (dec_refs_safe st 1%positive [2%positive]). split.
  - intros q c Hq _. unfold st in *.
    apply lookup_insert_Some in Hq as [[<- <-]|[_ [<- <-]%lookup_singleton_Some]]; reflexivity.
  - intros q Hq. split; [|set_solver]. unfold st. set_solver.
  - intros q c Hq _. unfold st in *.
    apply lookup_insert_Some in Hq as [[<- <-]|[_ [<- <-]%lookup_singleton_Some]]; simpl.
    + right. exists 2%positive. set_solver.
    + by left.
Defined.

(** ** Construction *)

Lemma inc_refs_ok st ls l :
  is_list st ls l → ∃ st', inc_refs st ls = Ok st' ∧ sub_cells st st' ∧ dom st' = dom st.
Proof.
  intros H. destruct H as [|p c l Hp _]; [exists st; split_and!; [done|apply sub_cells_refl|done]|].
  unfold inc_refs, inc_refs_cell. change (is_null (Zpos p)) with false. cbn [deref].
  rewrite Hp. cbn [of_option res_bind]. rewrite (update_pos st p c) by done.
  eexists. split_and!; [done| |by apply dom_set_refs].
  intros q d Hq. destruct (decide (q = p)) as [->|].
  - simplify_eq. rewrite lookup_insert_eq. eauto.
  - rewrite lookup_insert_ne by done. eauto.
Qed.

Lemma sub_cells_is_list st st' ls l : sub_cells st st' → is_list st ls l → is_list st' ls l.
Proof.
  intros Hsub H. eapply is_list_mono; [done|]. intros q c Hq.
  destruct (Hsub q c Hq) as (c' & ? & ? & ?). eauto.
Qed.

Lemma new_cons_ok st t h l :
  is_list st t l →
  ∃ st' p, new_cons st t h = Ok (st', Zpos p) ∧ p ∉ dom st ∧
    is_list st' (Zpos p) (h :: l) ∧ sub_cells st st'.
Proof.
  intros Ht. destruct (inc_refs_ok st t l Ht) as (st1 & Hinc & Hsub & Hdom).
  unfold new_cons. rewrite Hinc. cbn [res_bind].
  pose proof (is_fresh (dom st1)) as Hfresh. set (p := fresh (dom st1)) in *.
  eexists _, p. split_and!; [done|by rewrite <-Hdom| |].
  - apply (is_list_cons _ p (mk_cell t h 0)); [apply lookup_insert_eq|].
    eapply sub_cells_is_list; [|eapply sub_cells_is_list; [exact Hsub|done]].
    intros q c Hq. exists c. rewrite lookup_insert_ne; [done|].
    intros <-. apply Hfresh. by eapply elem_of_dom_2.
  - eapply sub_cells_trans; [exact Hsub|]. intros q c Hq. exists c.
    rewrite lookup_insert_ne; [done|]. intros <-. apply Hfresh. by eapply elem_of_dom_2.
Qed.

Lemma from_stack_ok st p l stk :
  is_list st p l →
  ∃ st' p', from_stack st p stk = Ok (st', p') ∧ is_list st' p' (rev stk ++ l) ∧
    sub_cells st st'.
Proof.
  revert st p l. induction stk as [|x stk IH]; intros st p l H; simpl.
  { exists st, p. split_and!; [done|done|apply sub_cells_refl]. }
  destruct (new_cons_ok st p x l H) as (st1 & q & -> & _ & Hq & Hsub). cbn [res_bind].
  destruct (IH st1 (Zpos q) (x :: l) Hq) as (st2 & p2 & -> & H2 & Hsub2).
  exists st2, p2. split_and!; [done| |by eapply sub_cells_trans].
  by rewrite <-app_assoc.
Qed.

(** a list whose last cell is known *)
Inductive lseg (st : store) (last : positive) : list_ptr → list Z → Prop :=
  | lseg_last c : st !! last = Some c → tail c = null_list →
      lseg st last (Zpos last) [head c]
  | lseg_cons p c l : p ≠ last → st !! p = Some c → lseg st last (tail c) l →
      lseg st last (Zpos p) (head c :: l).

Lemma lseg_is_list st last ls l : lseg st last ls l → is_list st ls l.
Proof.
  induction 1 as [c Hc Ht|p c l Hne Hp _ IH]; econstructor; eauto. rewrite Ht. constructor.
Qed.

Lemma lseg_dom st last ls l : lseg st last ls l → last ∈ dom st.
Proof. induction 1 as [c Hc Ht|]; [by eapply elem_of_dom_2|done]. Qed.

(** [prev->set_tail(new cons(null, h))] *)
Lemma append_cell_ok st last init l h :
  lseg st last init l →
  ∃ st1 st2 n, new_cons st null_list h = Ok (st1, Zpos n) ∧
    set_tail st1 (Zpos last) (Zpos n) = Ok st2 ∧
    lseg st2 n init (l ++ [h]) ∧ n ∉ dom st ∧
    (∀ q c, q ≠ last → st !! q = Some c → st2 !! q = Some c).
Proof.
  intros Hseg. pose proof (lseg_dom _ _ _ _ Hseg) as Hlast.
  pose proof (is_fresh (dom st)) as Hfresh. set (n := fresh (dom st)) in *.
  assert (Hne : n ≠ last) by (intros ->; done).
  apply elem_of_dom in Hlast as [cl Hcl].
  unfold new_cons, inc_refs at 1. cbn [is_null Z.eqb res_bind].
  change (is_null null_list) with true. cbn [res_bind]. fold n.
  set (st1 := <[n := mk_cell null_list h 0]> st).
  set (st2 := <[n := mk_cell null_list h 1]> (<[last := set_cell_tail (Zpos n) cl]> st1)).
  assert (Hset : set_tail st1 (Zpos last) (Zpos n) = Ok st2).
  { unfold set_tail. assert (Hl1 : st1 !! last = Some cl) by (unfold st1; by rewrite lookup_insert_ne).
    rewrite (update_pos st1 last cl) by done. cbn [res_bind].
    assert (Hn1 : (<[last := set_cell_tail (Zpos n) cl]> st1) !! n = Some (mk_cell null_list h 0)).
    { rewrite lookup_insert_ne by done. apply lookup_insert_eq. }
    unfold inc_refs, inc_refs_cell. change (is_null (Zpos n)) with false. cbn [deref].
    rewrite Hn1. cbn [of_option res_bind]. by rewrite (update_pos _ n _ _ Hn1). }
  assert (Hframe : ∀ q c, q ≠ last → st !! q = Some c → st2 !! q = Some c).
  { intros q c Hq Hc. assert (q ≠ n) by (intros ->; apply Hfresh; by eapply elem_of_dom_2).
    unfold st2, st1. by rewrite !lookup_insert_ne by done. }
  exists st1, st2, n. split_and!; [done|done| |done|done].
  clear Hset. induction Hseg as [c Hc Ht|p c l Hp Hc Hs IH]; cbn [app].
  - assert (c = cl) as -> by congruence.
    apply (lseg_cons st2 n last (set_cell_tail (Zpos n) cl) [h]); [done| |].
    + unfold st2. rewrite lookup_insert_ne by done. apply lookup_insert_eq.
    + apply (lseg_last st2 n (mk_cell null_list h 1)); [apply lookup_insert_eq|done].
  - apply lseg_cons; [|by apply Hframe|done].
    intros ->. apply Hfresh. by eapply elem_of_dom_2.
Qed.

(** the first cell, which nothing refers to *)
Lemma first_cell_ok st h :
  ∃ st1 n, new_cons st null_list h = Ok (st1, Zpos n) ∧ lseg st1 n (Zpos n) [h] ∧
    n ∉ dom st ∧ st ⊆ st1.
Proof.
  unfold new_cons. change (inc_refs st null_list) with (Ok st). cbn [res_bind].
  pose proof (is_fresh (dom st)) as Hfresh. eexists _, _. split_and!; [done| |done|].
  - apply (lseg_last _ _ (mk_cell null_list h 0)); [apply lookup_insert_eq|done].
  - apply insert_subseteq. by apply not_elem_of_dom.
Qed.

Lemma frame_subseteq (st0 st st2 : store) last :
  st0 ⊆ st → last ∉ dom st0 → (∀ q c, q ≠ last → st !! q = Some c → st2 !! q = Some c) →
  st0 ⊆ st2.
Proof.
  intros Hsub Hn Hframe. apply map_subseteq_spec. intros q c Hq.
  apply Hframe; [|by eapply lookup_weaken]. intros ->. apply Hn. by eapply elem_of_dom_2.
Qed.

Lemma copy_loop_ok fuel st0 st init cur ptr l1 l :
  st0 ⊆ st → is_list st0 ptr l → lseg st cur init l1 → cur ∉ dom st0 →
  (length l < fuel)%nat →
  ∃ st' last, copy_loop fuel st (Zpos cur) ptr = Ok st' ∧ st0 ⊆ st' ∧
    lseg st' last init (l1 ++ l).
Proof.
  intros Hsub Hl. revert fuel st cur l1 Hsub.
  induction Hl as [|p c l Hp _ IH]; intros [|fuel] st cur l1 Hsub Hseg Hcur Hf;
    simpl in Hf; try lia; cbn [copy_loop].
  { exists st, cur. rewrite app_nil_r. done. }
  change (is_null (Zpos p)) with false. cbn iota. cbn [deref].
  rewrite (lookup_weaken _ _ _ _ Hp Hsub). cbn [of_option res_bind].
  destruct (append_cell_ok st cur init l1 (head c) Hseg)
    as (st1 & st2 & n & -> & Hset & Hseg2 & Hn & Hframe).
  cbn [res_bind]. rewrite Hset. cbn [res_bind].
  pose proof (frame_subseteq st0 st st2 cur Hsub Hcur Hframe) as Hsub2.
  assert (Hn0 : n ∉ dom st0).
  { intros Hin. apply Hn. by apply (subseteq_dom _ _ Hsub). }
  destruct (IH fuel st2 n (l1 ++ [head c]) Hsub2 Hseg2 Hn0 ltac:(lia))
    as (st' & last & ? & ? & Hs).
  exists st', last. split_and!; [done|done|]. by rewrite <-app_assoc in Hs.
Qed.

Lemma copy_ok st ptr l :
  is_list st ptr l →
  ∃ st' p, copy st ptr = Ok (st', p) ∧ is_list st' p l ∧ st ⊆ st' ∧
    (ptr ≠ null_list → p ≠ ptr).
Proof.
  intros H. pose proof (is_list_length _ _ _ H) as Hlen. unfold copy.
  destruct H as [|p c l Hp Hl]; [exists st, null_list; split_and!; [done|constructor|done|done]|].
  change (is_null (Zpos p)) with false. cbn iota. cbn [deref]. rewrite Hp.
  cbn [of_option res_bind].
  destruct (first_cell_ok st (head c)) as (st1 & n & -> & Hseg & Hn & Hsub). cbn [res_bind].
  destruct (copy_loop_ok (size st + 1) st st1 (Zpos n) n (tail c) [head c] l)
    as (st' & last & -> & Hsub' & Hseg'); [done|done|done|done|simpl in Hlen; lia|].
  exists st', (Zpos n). split_and!; [done|by eapply lseg_is_list|done|].
  intros _ [= ->]. apply Hn. by eapply elem_of_dom_2.
Qed.

(** ** Serialization of lists *)

Section Serial.
Context (sizeofT : nat).

(** buffers the 32-bit positions of the code can address *)
Definition addressable (buf : list byte) : Prop := Z.of_nat (length buf) < 2 ^ 31.

(** what one [Words.pack] does to an addressable buffer *)
Lemma pack_addressable n data buf buf_size pos buf' pos' :
  addressable buf → Words.pack n data buf buf_size pos = Ok (buf', pos') →
  0 <= pos ∧ pos' = pos + Z.of_nat (n * length data) ∧ pos' <= Z.of_nat (length buf).
Proof.
  unfold addressable. intros Hb H. apply pack_ok in H as (Hp & -> & _ & Hlen & Hm & _).
  unfold memcpy_from in Hm. case_decide as Hd; [|done].
  rewrite swrap_id by lia. lia.
Qed.

Lemma pack_length n data buf buf_size pos buf' pos' :
  Words.pack n data buf buf_size pos = Ok (buf', pos') → length buf' = length buf.
Proof. by intros (_ & _ & _ & ? & _ & _)%pack_ok. Qed.

Lemma memcpy_from_agree buf buf' pos n :
  length buf = length buf' →
  (∀ i, (i < pos + n)%nat → buf !! i = buf' !! i) →
  memcpy_from buf pos n = memcpy_from buf' pos n.
Proof.
  intros Hlen Hag. unfold memcpy_from. rewrite Hlen. case_decide; [|done]. f_equal.
  apply list_eq. intros i. destruct (decide (i < n)%nat).
  - rewrite !lookup_take_lt, !lookup_drop by done. apply Hag. lia.
  - by rewrite !lookup_take_ge by lia.
Qed.

(** [Words.unpack] only looks at the bytes up to the position it leaves *)
Lemma unpack_agree n k buf buf' buf_size pos :
  length buf = length buf' → 0 <= pos →
  (∀ i, (i < Z.to_nat pos + n * k)%nat → buf !! i = buf' !! i) →
  Words.unpack n buf buf_size pos k = Words.unpack n buf' buf_size pos k.
Proof.
  intros Hlen Hp Hag. unfold Words.unpack. by rewrite (memcpy_from_agree buf buf').
Qed.

Lemma pack_heads_frame st p l buf buf_size pos buf' pos' :
  is_list st p l → addressable buf → 0 <= pos →
  pack_heads sizeofT (length l) st p buf buf_size pos = Ok (buf', pos') →
  length buf' = length buf ∧ pos <= pos' ∧
  ∀ i, (i < Z.to_nat pos)%nat → buf' !! i = buf !! i.
Proof.
  intros H. revert buf pos. induction H as [|q c l Hq _ IH]; intros buf pos Hb Hp Hpk; simpl in Hpk.
  { simplify_eq. split_and!; [done|lia|done]. }
  rewrite Hq in Hpk. cbn [of_option res_bind] in Hpk.
  apply res_bind_ok in Hpk as ([buf1 pos1] & H1 & Hpk).
  pose proof (pack_length _ _ _ _ _ _ _ H1) as Hl1.
  destruct (pack_addressable _ _ _ _ _ _ _ Hb H1) as (_ & Hpos1 & Hle).
  apply pack_ok in H1 as (_ & _ & _ & _ & _ & Hag).
  destruct (IH buf1 pos1 ltac:(unfold addressable in *; by rewrite Hl1) ltac:(lia) Hpk)
    as (? & ? & Hag2).
  split_and!; [congruence|lia|]. intros i Hi. rewrite Hag2, Hag by lia. done.
Qed.

Lemma unpack_heads_ok st p l buf buf_size pos buf' pos' st0 st2 init prev l1 :
  is_list st p l → addressable buf → 0 <= pos →
  pack_heads sizeofT (length l) st p buf buf_size pos = Ok (buf', pos') →
  st0 ⊆ st2 → lseg st2 prev init l1 → prev ∉ dom st0 →
  ∃ st', unpack_heads sizeofT (length l) st2 init (Zpos prev) buf' buf_size pos
           = Ok (st', init, pos') ∧ st0 ⊆ st' ∧
    is_list st' init (l1 ++ map (wrap (8 * Z.of_nat sizeofT)) l).
Proof.
  intros H. revert buf pos st2 prev l1.
  induction H as [|q c l Hq Hl IH]; intros buf pos st2 prev l1 Hb Hp Hpk Hsub Hseg Hprev.
  { simpl in *. simplify_eq. exists st2. rewrite app_nil_r. split_and!; [done|done|].
    by eapply lseg_is_list. }
  simpl in Hpk. rewrite Hq in Hpk. cbn [of_option res_bind] in Hpk.
  apply res_bind_ok in Hpk as ([buf1 pos1] & H1 & Hpk).
  pose proof (pack_length _ _ _ _ _ _ _ H1) as Hl1.
  pose proof (unpack_pack _ _ _ _ _ _ _ H1) as Hu1. cbn [length map] in Hu1.
  destruct (pack_addressable _ _ _ _ _ _ _ Hb H1) as (_ & Hpos1 & Hle).
  assert (Hb1 : addressable buf1) by (unfold addressable in *; by rewrite Hl1).
  destruct (pack_heads_frame _ _ _ _ _ pos1 _ _ Hl Hb1 ltac:(lia) Hpk) as (Hl2 & _ & Hag).
  assert (Hu : Words.unpack sizeofT buf' buf_size pos 1
               = Ok ([wrap (8 * Z.of_nat sizeofT) (head c)], pos1)).
  { rewrite <-Hu1. apply unpack_agree; [done|done|]. intros i Hi. apply Hag.
    rewrite Hpos1. simpl. lia. }
  cbn [length unpack_heads]. rewrite Hu. cbn [res_bind lookup list_lookup of_option].
  destruct (append_cell_ok st2 prev init l1 (wrap (8 * Z.of_nat sizeofT) (head c)) Hseg)
    as (sta & stb & n & -> & Hset & Hsegb & Hn & Hframe).
  cbn [res_bind]. change (is_null (Zpos prev)) with false. cbn iota. rewrite Hset.
  cbn [res_bind].
  assert (Hn0 : n ∉ dom st0) by (intros Hin; apply Hn; by apply (subseteq_dom _ _ Hsub)).
  destruct (IH buf1 pos1 stb n (l1 ++ [wrap (8 * Z.of_nat sizeofT) (head c)])) as (st' & ? & ? & Hs);
    try done; [lia|exact (frame_subseteq st0 st2 stb prev Hsub Hprev Hframe)|].
  exists st'. split_and!; [done|done|]. by rewrite <-app_assoc in Hs.
Qed.

Lemma unpack_pack_list st p l buf buf_size pos buf' pos' st2 :
  is_list st p l → addressable buf → Z.of_nat (length l) < 2 ^ 32 →
  pack sizeofT st p buf buf_size pos = Ok (buf', pos') →
  ∃ st' p', unpack sizeofT st2 buf' buf_size pos = Ok (st', p', pos') ∧ st2 ⊆ st' ∧
    is_list st' p' (map (wrap (8 * Z.of_nat sizeofT)) l).
Proof.
  intros Hl Hb Hlen Hpk. unfold pack in Hpk. rewrite (length_list_ok st p l Hl) in Hpk.
  cbn [res_bind] in Hpk. apply res_bind_ok in Hpk as ([buf0 pos0] & H0 & Hpk).
  apply asserting_ok in Hpk as [_ Hpk].
  rewrite Nat2Z.id in Hpk.
  pose proof (pack_length _ _ _ _ _ _ _ H0) as Hl0.
  pose proof (unpack_pack _ _ _ _ _ _ _ H0) as Hu0. cbn [length map] in Hu0.
  destruct (pack_addressable _ _ _ _ _ _ _ Hb H0) as (Hp & Hpos0 & Hle).
  assert (Hb0 : addressable buf0) by (unfold addressable in *; by rewrite Hl0).
  destruct (pack_heads_frame _ _ _ _ _ pos0 _ _ Hl Hb0 ltac:(lia) Hpk) as (Hl2 & _ & Hag).
  assert (Hu : Words.unpack 4 buf' buf_size pos 1 = Ok ([Z.of_nat (length l)], pos0)).
  { rewrite wrap_id in Hu0 by (simpl; lia). rewrite <-Hu0. apply unpack_agree; [done|done|].
    intros i Hi. apply Hag. rewrite Hpos0. simpl in *. lia. }
  unfold unpack. rewrite Hu. cbn [res_bind lookup list_lookup of_option]. rewrite Nat2Z.id.
  destruct Hl as [|q c l Hq Hl].
  { simpl in *. simplify_eq. exists st2, null_list. split_and!; [done|done|constructor]. }
  simpl in Hpk. rewrite Hq in Hpk. cbn [of_option res_bind] in Hpk.
  apply res_bind_ok in Hpk as ([buf1 pos1] & H1 & Hpk).
  pose proof (pack_length _ _ _ _ _ _ _ H1) as Hl1.
  pose proof (unpack_pack _ _ _ _ _ _ _ H1) as Hu1. cbn [length map] in Hu1.
  destruct (pack_addressable _ _ _ _ _ _ _ Hb0 H1) as (_ & Hpos1 & Hle1).
  assert (Hb1 : addressable buf1) by (unfold addressable in *; by rewrite Hl1).
  destruct (pack_heads_frame _ _ _ _ _ pos1 _ _ Hl Hb1 ltac:(lia) Hpk) as (Hl3 & _ & Hag1).
  cbn [length unpack_heads].
  rewrite (unpack_agree sizeofT 1 buf' buf1), Hu1; [|done|lia|].
  2: { intros i Hi. apply Hag1. rewrite Hpos1. simpl. lia. }
  cbn [res_bind lookup list_lookup of_option].
  destruct (first_cell_ok st2 (wrap (8 * Z.of_nat sizeofT) (head c)))
    as (sta & n & -> & Hseg & Hn & Hsub). cbn [res_bind].
  change (is_null null_list) with true. cbn iota.
  destruct (unpack_heads_ok st (tail c) l buf1 buf_size pos1 buf' pos' st2 sta (Zpos n) n
    [wrap (8 * Z.of_nat sizeofT) (head c)]) as (st' & ? & ? & ?); try done; [lia|].
  eauto.
Qed.

(** what packing leaves alone *)
Lemma pack_frame st p l buf buf_size pos buf' pos' :
  is_list st p l → addressable buf →
  pack sizeofT st p buf buf_size pos = Ok (buf', pos') →
  0 <= pos ∧ length buf' = length buf ∧ pos <= pos' ∧
  ∀ i, (i < Z.to_nat pos)%nat → buf' !! i = buf !! i.
Proof.
  intros Hl Hb Hpk. unfold pack in Hpk. rewrite (length_list_ok st p l Hl) in Hpk.
  cbn [res_bind] in Hpk. apply res_bind_ok in Hpk as ([buf0 pos0] & H0 & Hpk).
  apply asserting_ok in Hpk as [_ Hpk]. rewrite Nat2Z.id in Hpk.
  pose proof (pack_length _ _ _ _ _ _ _ H0) as Hl0.
  destruct (pack_addressable _ _ _ _ _ _ _ Hb H0) as (Hp & Hpos0 & Hle).
  assert (Hb0 : addressable buf0) by (unfold addressable in *; by rewrite Hl0).
  destruct (pack_heads_frame _ _ _ _ _ pos0 _ _ Hl Hb0 ltac:(lia) Hpk) as (Hl2 & ? & Hag).
  apply pack_ok in H0 as (_ & _ & _ & _ & _ & Hag0).
  split_and!; [lia|congruence|lia|]. intros i Hi. rewrite Hag, Hag0 by lia. done.
Qed.

(** a successful [Words.unpack] of an addressable buffer *)
Lemma unpack_addressable n k buf buf_size pos vs pos' :
  addressable buf → Words.unpack n buf buf_size pos k = Ok (vs, pos') →
  0 <= pos ∧ pos' = pos + Z.of_nat (n * k).
Proof.
  unfold addressable, Words.unpack. intros Hb H. apply asserting_ok in H as [_ H].
  destruct (pos <? 0) eqn:Hp; [done|]. bool_to_prop.
  apply res_bind_ok in H as (bs & Hm & [= _ <-]).
  unfold memcpy_from in Hm. case_decide; [|done]. rewrite swrap_id; lia.
Qed.

Lemma unpack_agree_ok n k buf buf' buf_size pos vs pos' :
  addressable buf → length buf = length buf' →
  Words.unpack n buf buf_size pos k = Ok (vs, pos') →
  (∀ i, (i < Z.to_nat pos')%nat → buf !! i = buf' !! i) →
  Words.unpack n buf' buf_size pos k = Ok (vs, pos').
Proof.
  intros Hb Hlen H Hag. destruct (unpack_addressable _ _ _ _ _ _ _ Hb H) as [? ->].
  rewrite <-H. symmetry. apply unpack_agree; [done|done|]. intros i Hi. apply Hag. lia.
Qed.

Lemma unpack_heads_mono len st init prev buf buf_size pos r pos' :
  addressable buf → 0 <= pos →
  unpack_heads sizeofT len st init prev buf buf_size pos = Ok (r, pos') → pos <= pos'.
Proof.
  intros Hb. revert st init prev pos. induction len as [|len IH]; intros st init prev pos Hp H.
  { simpl in H. simplify_eq. lia. }
  cbn [unpack_heads] in H. apply res_bind_ok in H as ([vs pos1] & Hu & H).
  destruct (unpack_addressable _ _ _ _ _ _ _ Hb Hu) as [_ ->].
  apply res_bind_ok in H as (h & _ & H). apply res_bind_ok in H as ([st1 n] & _ & H).
  destruct (is_null prev).
  - apply IH in H; lia.
  - apply res_bind_ok in H as (st2 & _ & H). apply IH in H; lia.
Qed.

Lemma unpack_heads_agree len st init prev buf buf' buf_size pos r pos' :
  addressable buf → length buf = length buf' → 0 <= pos →
  unpack_heads sizeofT len st init prev buf buf_size pos = Ok (r, pos') →
  (∀ i, (i < Z.to_nat pos')%nat → buf !! i = buf' !! i) →
  unpack_heads sizeofT len st init prev buf' buf_size pos = Ok (r, pos').
Proof.
  intros Hb Hlen Hp H Hag. revert st init prev pos Hp H.
  induction len as [|len IH]; intros st init prev pos Hp H; [done|].
  cbn [unpack_heads] in *. apply res_bind_ok in H as ([vs pos1] & Hu & H).
  destruct (unpack_addressable _ _ _ _ _ _ _ Hb Hu) as [_ Hpos1].
  apply res_bind_ok in H as (h & Hh & H). apply res_bind_ok in H as ([st1 n] & Hn & H).
  assert (Hle : pos1 <= pos').
  { destruct (is_null prev); [|apply res_bind_ok in H as (? & _ & H)];
      eapply unpack_heads_mono in H; eauto; lia. }
  rewrite (unpack_agree_ok _ _ _ buf' _ _ _ _ Hb Hlen Hu) by (intros; apply Hag; lia).
  cbn [res_bind]. rewrite Hh. cbn [res_bind]. rewrite Hn. cbn [res_bind].
  destruct (is_null prev); [apply IH; [lia|done]|].
  apply res_bind_ok in H as (st2 & -> & H). cbn [res_bind]. apply IH; [lia|done].
Qed.

Lemma unpack_list_agree st buf buf' buf_size pos r pos' :
  addressable buf → length buf = length buf' →
  unpack sizeofT st buf buf_size pos = Ok (r, pos') →
  (∀ i, (i < Z.to_nat pos')%nat → buf !! i = buf' !! i) →
  unpack sizeofT st buf' buf_size pos = Ok (r, pos').
Proof.
  intros Hb Hlen H Hag. unfold unpack in *.
  apply res_bind_ok in H as ([vs pos1] & Hu & H).
  destruct (unpack_addressable _ _ _ _ _ _ _ Hb Hu) as [? Hpos1].
  apply res_bind_ok in H as (n & Hn & H).
  pose proof (unpack_heads_mono _ _ _ _ _ _ pos1 _ _ Hb ltac:(lia) H).
  rewrite (unpack_agree_ok _ _ _ buf' _ _ _ _ Hb Hlen Hu) by (intros; apply Hag; lia).
  cbn [res_bind]. rewrite Hn. cbn [res_bind].
  by apply (unpack_heads_agree _ _ _ _ buf); [..|lia|done|].
Qed.
End Serial.

(** The operations on runtime lists compute the list functions: with [ls]
    and [ls'] standing for [l] and [l'], [length], [get], [stl_list] and [equal]
    return what they should, [copy] builds the same list in fresh cells and
    leaves the memory it found alone, and the three builders from a stack or a
    vector produce the documented orders. *)
Theorem list_functions st ls ls' l l' eqb stk :
  is_list st ls l → is_list st ls' l' →
  length_list st ls = Ok (Z.of_nat (length l)) ∧
  (∀ pos def, get st ls pos def = Ok (nth pos l def)) ∧
  stl_list st ls = Ok l ∧
  equal eqb st ls ls'
    = Ok ((length l =? length l')%nat && forallb (fun '(a, b) => eqb a b) (zip l l')) ∧
  (∃ st' p, copy st ls = Ok (st', p) ∧ is_list st' p l ∧ st ⊆ st' ∧
     (ls ≠ null_list → p ≠ ls)) ∧
  (∃ st' p, from_stack_to_list st stk = Ok (st', p) ∧ is_list st' p (rev stk)) ∧
  (∃ st' p, from_stack_to_reverse_list st stk = Ok (st', p) ∧ is_list st' p stk) ∧
  (∃ st' p, from_vector_to_reverse_list st stk = Ok (st', p) ∧ is_list st' p (rev stk)).
Proof.
  intros H H'. split_and!.
  - by apply length_list_ok.
  - intros. by apply get_ok.
  - by apply stl_list_ok.
  - by apply equal_ok.
  - by apply copy_ok.
  - destruct (from_stack_ok st null_list [] stk) as (st' & p & ? & Hl & _); [constructor|].
    rewrite app_nil_r in Hl. by exists st', p.
  - destruct (from_stack_ok st null_list [] (rev stk)) as (st' & p & ? & Hl & _); [constructor|].
    rewrite rev_involutive, app_nil_r in Hl. by exists st', p.
  - destruct (from_stack_ok st null_list [] stk) as (st' & p & ? & Hl & _); [constructor|].
    rewrite app_nil_r in Hl. by exists st', p.
Qed.

Definition sample_store : store :=
  {[ 1%positive := mk_cell 2 5 1; 2%positive := mk_cell 0 6 1 ]}.

Lemma sample_store_list : is_list sample_store 1 [5; 6].
Proof.
  apply (is_list_cons _ 1 (mk_cell 2 5 1)); [reflexivity|].
  apply (is_list_cons _ 2 (mk_cell 0 6 1)); [reflexivity|]. constructor.
Qed.

Lemma list_functions_witness :
  get sample_store 1 1 0 = Ok 6.
Proof.
  exact (proj1 (proj2 (list_functions sample_store 1 0 [5; 6] [] Z.eqb []
    sample_store_list (is_list_nil _))) 1%nat 0).
Defined.

(** A list packed into a buffer by one process is unpacked by another as a
    fresh list of the same elements, each reduced to the width of its type; both
    leave the buffer at the same position and the cells of the receiver stay. *)
Theorem list_pack_unpack sizeofT st p l buf buf_size pos buf' pos' st2 :
  is_list st p l → addressable buf → Z.of_nat (length l) < 2 ^ 32 →
  pack sizeofT st p buf buf_size pos = Ok (buf', pos') →
  ∃ st' p', unpack sizeofT st2 buf' buf_size pos = Ok (st', p', pos') ∧ st2 ⊆ st' ∧
    is_list st' p' (map (wrap (8 * Z.of_nat sizeofT)) l).
Proof. apply unpack_pack_list. Qed.

Lemma list_pack_unpack_witness :
  ∃ st' p', unpack 4 ∅ ([2; 0; 0; 0; 5; 0; 0; 0; 6; 0; 0; 0] ++ [9]) 13 0
              = Ok (st', p', 12) ∧ ∅ ⊆ st' ∧
    is_list st' p' (map (wrap (8 * Z.of_nat 4)) [5; 6]).
Proof.
  apply (list_pack_unpack 4 sample_store 1 [5; 6] (replicate 12 0 ++ [9]) 13 0 _ 12 ∅).
  - exact sample_store_list.
  - reflexivity.
  - reflexivity.
  - vm_compute. reflexivity.
Defined.

(** [pack] asserts that room is left after the length word, so it fails on an
    empty list that ends exactly at the end of its buffer, although
    [size_list] says the buffer is large enough. *)
Theorem pack_empty_list_at_end :
  size_list 4 ∅ null_list = Ok 4 ∧
  pack 4 ∅ null_list [0; 0; 0; 0] 4 0 = Err assert_fail.
Proof. split; reflexivity. Qed.
