(* ===== verification/Tuple.v ===== *)
(** Tuples: [vm/tuple.{hpp,cpp}].  A tuple points to its predicate and holds one
    [tuple_field] per argument; list and string fields are addresses into a
    memory of reference-counted cells, one store per element type.  The head of
    a cell is the bit image of its element. *)

From Stdlib Require Import ZArith Lia Bool SpecFloat.
From stdpp Require Import base tactics list numbers option gmap strings.
From S2P Require Import Prelude Words Types RuntimeList.

#[local] Open Scope Z_scope.

(** ** The memory *)

Inductive list_kind : Type := IntList | FloatList | NodeList.

#[global] Instance list_kind_eq_dec : EqDecision list_kind.
Proof. solve_decision. Defined.

Record memory : Type := mk_memory {
  int_lists : store;
  float_lists : store;
  node_lists : store;
  strings : string_store
}.

Definition lists (m : memory) (k : list_kind) : store :=
  match k with
  | IntList => int_lists m | FloatList => float_lists m | NodeList => node_lists m
  end.

Definition set_lists (m : memory) (k : list_kind) (st : store) : memory :=
  match k with
  | IntList => mk_memory st (float_lists m) (node_lists m) (strings m)
  | FloatList => mk_memory (int_lists m) st (node_lists m) (strings m)
  | NodeList => mk_memory (int_lists m) (float_lists m) st (strings m)
  end.

Definition set_strings (m : memory) (st : string_store) : memory :=
  mk_memory (int_lists m) (float_lists m) (node_lists m) st.

(** sizeof and operator== of the elements *)
Definition elem_size (k : list_kind) : nat :=
  match k with IntList => 4 | FloatList => 8 | NodeList => 4 end.

Definition elem_eqb (k : list_kind) (a b : Z) : bool :=
  match k with
  | IntList | NodeList => a =? b
  | FloatList => SFeqb (float_of_bits a) (float_of_bits b)
  end.

(** the list type of a field, if it is a list *)
Definition list_kind_of (t : field_type) : option list_kind :=
  match t with
  | FIELD_LIST_INT => Some IntList
  | FIELD_LIST_FLOAT => Some FloatList
  | FIELD_LIST_NODE => Some NodeList
  | _ => None
  end.

Definition on_lists (m : memory) (k : list_kind) (f : store → res store) : res memory :=
  let* st := f (lists m k) in Ok (set_lists m k st).

(** ** vm/tuple.hpp *)

Record tuple : Type := mk_tuple {
  pred : predicate;
  fields : list tuple_field
}.

(** memset to zero *)
Definition new_tuple (p : predicate) : tuple := mk_tuple p (replicate (num_fields p) 0).

Definition get_field (t : tuple) (field : nat) : res tuple_field := of_option (fields t !! field).
Definition set_field (t : tuple) (field : nat) (f : tuple_field) : res tuple :=
  let* _ := get_field t field in Ok (mk_tuple (pred t) (<[field := f]> (fields t))).

Definition get_int (t : tuple) (field : nat) : res Z :=
  let* f := get_field t field in Ok (int_field f).
Definition get_float (t : tuple) (field : nat) : res spec_float :=
  let* f := get_field t field in Ok (float_field f).
Definition get_ptr (t : tuple) (field : nat) : res Z :=
  let* f := get_field t field in Ok (ptr_field f).
Definition get_bool (t : tuple) (field : nat) : res bool :=
  let* v := get_int t field in Ok (negb (v =? 0)).
Definition get_node (t : tuple) (field : nat) : res Z :=
  let* f := get_field t field in Ok (node_field f).

Definition set_int (t : tuple) (field : nat) (v : Z) : res tuple :=
  let* f := get_field t field in set_field t field (set_int_field f v).
(** a [float_val] moves as its 64 bits *)
Definition set_float (t : tuple) (field : nat) (bits : Z) : res tuple :=
  set_field t field (wrap 64 bits).
Definition set_ptr (t : tuple) (field : nat) (v : Z) : res tuple :=
  set_field t field (wrap 64 v).
Definition set_bool (t : tuple) (field : nat) (b : bool) : res tuple :=
  set_int t field (if b then 1 else 0).
Definition set_node (t : tuple) (field : nat) (v : Z) : res tuple :=
  let* f := get_field t field in set_field t field (set_node_field f v).
Definition set_nil (t : tuple) (field : nat) : res tuple := set_ptr t field 0.

Definition set_list (m : memory) (t : tuple) (field : nat) (k : list_kind) (v : list_ptr)
  : res (memory * tuple) :=
  let* t := set_ptr t field v in
  let* m := on_lists m k (fun st => inc_refs st v) in
  Ok (m, t).

Definition set_string (m : memory) (t : tuple) (field : nat) (v : Z)
  : res (memory * tuple) :=
  let* t := set_ptr t field v in
  let* st := inc_string_refs (strings m) v in
  Ok (set_strings m st, t).

(** the types of the arguments with their fields *)
Definition typed_fields (t : tuple) : list (field_type * tuple_field) :=
  zip (pred_types (pred t)) (fields t).

(** ** vm/tuple.cpp *)

Definition unrecognized (i : nat) (type : field_type) : failure :=
  type_error ("Unrecognized field type " +:+ num_string (Z.of_nat i) +:+ ": "
              +:+ num_string (field_type_code type)).

Definition field_value_equal (m : memory) (i : nat) (type : field_type) (f g : tuple_field)
  : res bool :=
  match type with
  | FIELD_INT => Ok (int_field f =? int_field g)
  | FIELD_FLOAT => Ok (SFeqb (float_field f) (float_field g))
  | FIELD_NODE => Ok (node_field f =? node_field g)
  | FIELD_LIST_INT =>
      equal (elem_eqb IntList) (int_lists m) (ptr_field f) (ptr_field g)
  | FIELD_LIST_FLOAT =>
      equal (elem_eqb FloatList) (float_lists m) (ptr_field f) (ptr_field g)
  | FIELD_LIST_NODE =>
      equal (elem_eqb NodeList) (node_lists m) (ptr_field f) (ptr_field g)
  | FIELD_STRING | FIELD_UNKNOWN _ => Err (unrecognized i type)
  end.

Definition field_equal (m : memory) (t other : tuple) (i : nat) : res bool :=
  asserting (i <? num_fields (pred t))%nat
    (let* type := get_field_type (pred t) i in
     let* f := get_field t i in
     let* g := get_field other i in
     field_value_equal m i type f g).

(** the loop of operator== from field [i] on, [n] fields left *)
Fixpoint fields_equal (m : memory) (t other : tuple) (i n : nat) : res bool :=
  match n with
  | O => Ok true
  | S n =>
      let* b := field_equal m t other i in
      if b then fields_equal m t other (i + 1) n else Ok false
  end.

(** operator==; a predicate of the program is known by its id *)
Definition tuple_eqb (m : memory) (t other : tuple) : res bool :=
  if negb (pred_id (pred t) =? pred_id (pred other)) then Ok false
  else fields_equal m t other 0 (num_fields (pred t)).

Definition copy_field (m : memory) (t ret : tuple) (i : nat) : res (memory * tuple) :=
  let* type := get_field_type (pred t) i in
  match type with
  | FIELD_INT => let* v := get_int t i in let* r := set_int ret i v in Ok (m, r)
  | FIELD_FLOAT => let* f := get_field t i in let* r := set_float ret i f in Ok (m, r)
  | FIELD_NODE => let* v := get_node t i in let* r := set_node ret i v in Ok (m, r)
  | FIELD_LIST_INT => let* p := get_ptr t i in set_list m ret i IntList p
  | FIELD_LIST_FLOAT => let* p := get_ptr t i in set_list m ret i FloatList p
  | FIELD_LIST_NODE => let* p := get_ptr t i in set_list m ret i NodeList p
  | FIELD_STRING | FIELD_UNKNOWN _ => Err (unrecognized i type)
  end.

(** [except]: the field [copy_except] leaves at zero *)
Fixpoint copy_fields (m : memory) (t ret : tuple) (except : option nat) (i n : nat)
  : res (memory * tuple) :=
  match n with
  | O => Ok (m, ret)
  | S n =>
      if decide (except = Some i) then copy_fields m t ret except (i + 1) n
      else
        let* r := copy_field m t ret i in
        let '(m, ret) := r in copy_fields m t ret except (i + 1) n
  end.

Definition copy (m : memory) (t : tuple) : res (memory * tuple) :=
  copy_fields m t (new_tuple (pred t)) None 0 (num_fields (pred t)).

Definition copy_except (m : memory) (t : tuple) (field : nat) : res (memory * tuple) :=
  copy_fields m t (new_tuple (pred t)) (Some field) 0 (num_fields (pred t)).

(** ~tuple *)
Fixpoint destroy_fields (m : memory) (tfs : list (field_type * tuple_field)) : res memory :=
  match tfs with
  | [] => Ok m
  | (type, f) :: tfs =>
      let* m :=
        match type with
        | FIELD_LIST_INT => on_lists m IntList (fun st => dec_refs st (ptr_field f))
        | FIELD_LIST_FLOAT => on_lists m FloatList (fun st => dec_refs st (ptr_field f))
        | FIELD_LIST_NODE => on_lists m NodeList (fun st => dec_refs st (ptr_field f))
        | FIELD_STRING =>
            let* st := dec_string_refs (strings m) (ptr_field f) in Ok (set_strings m st)
        | _ => Ok m
        end in
      destroy_fields m tfs
  end.

Definition destroy (m : memory) (t : tuple) : res memory := destroy_fields m (typed_fields t).

(** the size of field [i] in [get_storage_size] *)
Definition field_storage_size (p : predicate) (m : memory) (i : nat) (type : field_type)
    (f : tuple_field) : res Z :=
  match type with
  | FIELD_INT | FIELD_FLOAT | FIELD_NODE => get_field_size p i
  | FIELD_LIST_INT => size_list 4 (int_lists m) (ptr_field f)
  | FIELD_LIST_FLOAT => size_list 8 (float_lists m) (ptr_field f)
  | FIELD_LIST_NODE => size_list 4 (node_lists m) (ptr_field f)
  | FIELD_STRING | FIELD_UNKNOWN _ =>
      Err (type_error "unsupport field type in tuple::get_storage_size")
  end.

Fixpoint storage_size (p : predicate) (m : memory) (i : nat)
    (tfs : list (field_type * tuple_field)) (ret : Z) : res Z :=
  match tfs with
  | [] => Ok ret
  | (type, f) :: tfs =>
      let* n := field_storage_size p m i type f in storage_size p m (i + 1) tfs (ret + n)
  end.

Definition get_storage_size (m : memory) (t : tuple) : res Z :=
  storage_size (pred t) m 0 (typed_fields t) 1.

Definition pack_field (m : memory) (type : field_type) (f : tuple_field)
    (buf : list byte) (buf_size pos : Z) : res (list byte * Z) :=
  match type with
  | FIELD_INT => Words.pack 4 [int_field f] buf buf_size pos
  | FIELD_FLOAT => Words.pack 8 [f] buf buf_size pos
  | FIELD_NODE => Words.pack 4 [node_field f] buf buf_size pos
  | FIELD_LIST_INT => RuntimeList.pack 4 (int_lists m) (ptr_field f) buf buf_size pos
  | FIELD_LIST_FLOAT => RuntimeList.pack 8 (float_lists m) (ptr_field f) buf buf_size pos
  | FIELD_LIST_NODE => RuntimeList.pack 4 (node_lists m) (ptr_field f) buf buf_size pos
  | FIELD_STRING | FIELD_UNKNOWN _ => Err (type_error "unsupported field type to pack")
  end.

Fixpoint pack_fields (m : memory) (tfs : list (field_type * tuple_field))
    (buf : list byte) (buf_size pos : Z) : res (list byte * Z) :=
  match tfs with
  | [] => Ok (buf, pos)
  | (type, f) :: tfs =>
      let* r := pack_field m type f buf buf_size pos in
      let '(buf, pos) := r in
      asserting (pos <=? buf_size) (pack_fields m tfs buf buf_size pos)
  end.

Definition pack (m : memory) (t : tuple) (buf : list byte) (buf_size pos : Z)
  : res (list byte * Z) :=
  asserting (pos <=? buf_size)
    (let* r := Words.pack 1 [pred_id (pred t)] buf buf_size pos in
     let '(buf, pos) := r in
     asserting (pos <=? buf_size) (pack_fields m (typed_fields t) buf buf_size pos)).

Definition unpack_scalar (sizeofT : nat) (buf : list byte) (buf_size pos : Z) : res (Z * Z) :=
  let* r := Words.unpack sizeofT buf buf_size pos 1 in
  let '(vals, pos) := r in
  let* v := of_option (vals !! 0%nat) in
  Ok (v, pos).

Definition load_list (k : list_kind) (m : memory) (t : tuple) (i : nat)
    (buf : list byte) (buf_size pos : Z) : res (memory * tuple * Z) :=
  let* r := RuntimeList.unpack (elem_size k) (lists m k) buf buf_size pos in
  let '(st, p, pos) := r in
  let* r := set_list (set_lists m k st) t i k p in
  Ok (r, pos).

Definition load_field (type : field_type) (m : memory) (t : tuple) (i : nat)
    (buf : list byte) (buf_size pos : Z) : res (memory * tuple * Z) :=
  match type with
  | FIELD_INT =>
      let* r := unpack_scalar 4 buf buf_size pos in
      let* t := set_int t i (fst r) in Ok (m, t, snd r)
  | FIELD_FLOAT =>
      let* r := unpack_scalar 8 buf buf_size pos in
      let* t := set_float t i (fst r) in Ok (m, t, snd r)
  | FIELD_NODE =>
      let* r := unpack_scalar 4 buf buf_size pos in
      let* t := set_node t i (fst r) in Ok (m, t, snd r)
  | FIELD_LIST_INT => load_list IntList m t i buf buf_size pos
  | FIELD_LIST_FLOAT => load_list FloatList m t i buf buf_size pos
  | FIELD_LIST_NODE => load_list NodeList m t i buf buf_size pos
  | FIELD_STRING | FIELD_UNKNOWN _ => Err (type_error "unsupported field type to unpack")
  end.

Fixpoint load_fields (types : list field_type) (m : memory) (t : tuple) (i : nat)
    (buf : list byte) (buf_size pos : Z) : res (memory * tuple * Z) :=
  match types with
  | [] => Ok (m, t, pos)
  | type :: types =>
      let* r := load_field type m t i buf buf_size pos in
      let '(m, t, pos) := r in
      load_fields types m t (i + 1) buf buf_size pos
  end.

Definition load (m : memory) (t : tuple) (buf : list byte) (buf_size pos : Z)
  : res (memory * tuple * Z) :=
  load_fields (pred_types (pred t)) m t 0 buf buf_size pos.

(** [get_predicate] is the program's *)
Definition unpack (get_predicate : Z → res predicate) (m : memory) (buf : list byte)
    (buf_size pos : Z) : res (memory * tuple * Z) :=
  let* r := unpack_scalar 1 buf buf_size pos in
  let '(pred_id, pos) := r in
  let* p := get_predicate pred_id in
  load m (new_tuple p) buf buf_size pos.

(** [copy_runtime]: lists and strings are replaced by private copies *)
Definition copy_runtime_list (k : list_kind) (m : memory) (t : tuple) (i : nat)
  : res (memory * tuple) :=
  let* old := get_ptr t i in
  let* r := RuntimeList.copy (lists m k) old in
  let '(st, ne) := r in
  let* st := dec_refs st old in
  set_list (set_lists m k st) t i k ne.

Fixpoint copy_runtime_fields (types : list field_type) (m : memory) (t : tuple) (i : nat)
  : res (memory * tuple) :=
  match types with
  | [] => Ok (m, t)
  | type :: types =>
      let* r :=
        match type with
        | FIELD_LIST_INT => copy_runtime_list IntList m t i
        | FIELD_LIST_FLOAT => copy_runtime_list FloatList m t i
        | FIELD_LIST_NODE => copy_runtime_list NodeList m t i
        | FIELD_STRING =>
            let* old := get_ptr t i in
            let* r := copy_string (strings m) old in
            let '(st, ne) := r in
            let* st := dec_string_refs st old in
            set_string (set_strings m st) t i ne
        | _ => Ok (m, t)
        end in
      let '(m, t) := r in
      copy_runtime_fields types m t (i + 1)
  end.

Definition copy_runtime (m : memory) (t : tuple) : res (memory * tuple) :=
  copy_runtime_fields (pred_types (pred t)) m t 0.

(** ** Values *)

Inductive value : Type :=
  | VInt (z : Z)
  | VFloat (bits : Z)
  | VNode (n : Z)
  | VList (k : list_kind) (l : list Z).

(** what a field of a type stands for in a memory *)
Inductive denotes (m : memory) : field_type → tuple_field → value → Prop :=
  | denotes_int f : denotes m FIELD_INT f (VInt (int_field f))
  | denotes_float f : denotes m FIELD_FLOAT f (VFloat (wrap 64 f))
  | denotes_node f : denotes m FIELD_NODE f (VNode (node_field f))
  | denotes_list t k f l :
      list_kind_of t = Some k → is_list (lists m k) (ptr_field f) l →
      denotes m t f (VList k l).

Definition value_eqb (v w : value) : bool :=
  match v, w with
  | VInt a, VInt b => a =? b
  | VFloat a, VFloat b => SFeqb (float_of_bits a) (float_of_bits b)
  | VNode a, VNode b => a =? b
  | VList k l, VList k' l' =>
      bool_decide (k = k') && (length l =? length l')%nat &&
      forallb (fun '(a, b) => elem_eqb k a b) (zip l l')
  | _, _ => false
  end.

(** a tuple with one value per argument of its predicate *)
Definition tuple_denotes (m : memory) (t : tuple) (vs : list value) : Prop :=
  Forall3 (denotes m) (pred_types (pred t)) (fields t) vs.

Lemma field_value_equal_ok m i type f g v w :
  denotes m type f v → denotes m type g w →
  field_value_equal m i type f g = Ok (value_eqb v w).
Proof.
  intros Hf Hg. destruct Hf as [f|f|f|type k f l Hk Hl]; inversion Hg as [| | |? k' ? l' Hk' Hl'];
    subst; try done; simplify_eq.
  assert (Heq : equal (elem_eqb k) (lists m k) (ptr_field f) (ptr_field g)
    = Ok ((length l =? length l')%nat && forallb (fun '(a, b) => elem_eqb k a b) (zip l l')))
    by (by apply equal_ok).
  cbn [value_eqb]. rewrite bool_decide_eq_true_2 by done. cbn [andb].
  destruct type; simplify_eq/=; exact Heq.
Qed.

Lemma tuple_denotes_lookup m t vs i v :
  tuple_denotes m t vs → vs !! i = Some v →
  ∃ type f, pred_types (pred t) !! i = Some type ∧ fields t !! i = Some f ∧ denotes m type f v.
Proof.
  intros H Hv. unfold tuple_denotes in H. revert i Hv.
  induction H as [|type f w types fs ws Hd _ IH]; intros [|i] Hv; simplify_eq/=; eauto.
Qed.

Lemma tuple_denotes_length m t vs :
  tuple_denotes m t vs → length vs = num_fields (pred t) ∧ length (fields t) = num_fields (pred t).
Proof.
  intros H. unfold tuple_denotes, num_fields in *. induction H; simpl; [done|]. lia.
Qed.

Lemma fields_equal_ok m t o vs ws i n :
  tuple_denotes m t vs → tuple_denotes m o ws →
  pred_types (pred o) = pred_types (pred t) →
  (i + n = num_fields (pred t))%nat →
  fields_equal m t o i n
  = Ok (forallb (fun '(v, w) => value_eqb v w) (zip (drop i vs) (drop i ws))).
Proof.
  intros Ht Ho Hp. pose proof (tuple_denotes_length _ _ _ Ht) as [Hlv _].
  pose proof (tuple_denotes_length _ _ _ Ho) as [Hlw _].
  assert (Hnf : num_fields (pred o) = num_fields (pred t)) by (unfold num_fields; by rewrite Hp).
  revert i. induction n as [|n IH]; intros i Hn.
  { rewrite !drop_ge by lia. done. }
  destruct (lookup_lt_is_Some_2 vs i ltac:(lia)) as [v Hv].
  destruct (lookup_lt_is_Some_2 ws i ltac:(lia)) as [w Hw].
  destruct (tuple_denotes_lookup _ _ _ _ _ Ht Hv) as (type & f & Hty & Hf & Hdv).
  destruct (tuple_denotes_lookup _ _ _ _ _ Ho Hw) as (type' & g & Hty' & Hg & Hdw).
  rewrite Hp in Hty'. simplify_eq.
  cbn [fields_equal]. unfold field_equal, get_field_type, get_field.
  rewrite (proj2 (Nat.ltb_lt _ _)) by lia. cbn [asserting].
  rewrite Hty, Hf, Hg. cbn [of_option res_bind].
  rewrite (field_value_equal_ok m i type f g v w) by done. cbn [res_bind].
  rewrite (drop_S vs v i Hv), (drop_S ws w i Hw). cbn [zip zip_with forallb].
  destruct (value_eqb v w); [|done]. cbn [andb]. rewrite IH by lia.
  by rewrite Nat.add_1_r.
Qed.

Lemma tuple_eqb_ok m t o vs ws :
  tuple_denotes m t vs → tuple_denotes m o ws →
  (pred_id (pred t) = pred_id (pred o) → pred t = pred o) →
  tuple_eqb m t o
  = Ok ((pred_id (pred t) =? pred_id (pred o)) &&
        forallb (fun '(v, w) => value_eqb v w) (zip vs ws)).
Proof.
  intros Ht Ho Hp. unfold tuple_eqb. destruct (pred_id (pred t) =? pred_id (pred o)) eqn:E; [|done].
  apply Z.eqb_eq in E. cbn [negb andb].
  rewrite (fields_equal_ok m t o vs ws) by (try done; by rewrite Hp). by rewrite !drop_0.
Qed.

(** [operator==] of tuples without strings decides equality of predicate and
    values: ints, nodes and list elements bit for bit, doubles as IEEE numbers,
    lists by their contents and not by their address. *)
Theorem tuple_eqb_spec m t o vs ws :
  tuple_denotes m t vs → tuple_denotes m o ws →
  (pred_id (pred t) = pred_id (pred o) → pred t = pred o) →
  tuple_eqb m t o
  = Ok ((pred_id (pred t) =? pred_id (pred o)) &&
        forallb (fun '(v, w) => value_eqb v w) (zip vs ws)).
Proof. apply tuple_eqb_ok. Qed.

Definition sample_pred : predicate :=
  mk_predicate [] 7 "edge" 0 [FIELD_INT; FIELD_LIST_NODE] [4; 8] [0; 4] 12 None
    false true false false false.

Definition sample_memory : memory := mk_memory ∅ ∅ sample_store ∅.

Definition sample_tuple : tuple := mk_tuple sample_pred [3; 1].

Lemma sample_tuple_denotes :
  tuple_denotes sample_memory sample_tuple [VInt 3; VList NodeList [5; 6]].
Proof.
  constructor; [apply (denotes_int _ 3)|]. constructor; [|constructor].
  apply (denotes_list _ _ NodeList); [done|]. exact sample_store_list.
Qed.

Lemma tuple_eqb_spec_witness : tuple_eqb sample_memory sample_tuple sample_tuple = Ok true.
Proof.
  exact (tuple_eqb_spec sample_memory sample_tuple sample_tuple _ _
    sample_tuple_denotes sample_tuple_denotes (fun _ => eq_refl)).
Defined.

(** ** Memories that grow *)

Definition mem_sub (m m' : memory) : Prop := ∀ k, sub_cells (lists m k) (lists m' k).

(** the addresses of a memory fit the 64 bits of a [ptr_val] *)
Definition mem_fits (m : memory) : Prop := ∀ k p, p ∈ dom (lists m k) → Zpos p < 2 ^ 64.

Lemma mem_sub_refl m : mem_sub m m.
Proof. intros k. apply sub_cells_refl. Qed.

Lemma mem_sub_trans m1 m2 m3 : mem_sub m1 m2 → mem_sub m2 m3 → mem_sub m1 m3.
Proof. intros H1 H2 k. by eapply sub_cells_trans. Qed.

Lemma mem_sub_fits m m' : mem_sub m m' → mem_fits m' → mem_fits m.
Proof.
  intros Hs Hf k p [c Hc]%elem_of_dom. destruct (Hs k p c Hc) as (c' & Hc' & _).
  apply (Hf k p). by eapply elem_of_dom_2.
Qed.

Lemma denotes_mono m m' type f v : mem_sub m m' → denotes m type f v → denotes m' type f v.
Proof.
  intros Hs [| | |t k g l Hk Hl]; econstructor; [done|]. by eapply sub_cells_is_list.
Qed.

Lemma lists_set_lists m k st k' :
  lists (set_lists m k st) k' = if decide (k' = k) then st else lists m k'.
Proof. by destruct k, k'. Qed.

Lemma set_lists_mono m k st : sub_cells (lists m k) st → mem_sub m (set_lists m k st).
Proof.
  intros Hs k'. rewrite lists_set_lists. case_decide; subst; [done|apply sub_cells_refl].
Qed.

Lemma subseteq_sub_cells (st st' : store) : st ⊆ st' → sub_cells st st'.
Proof. intros Hs q c Hq. exists c. split_and!; [by eapply lookup_weaken|done|done]. Qed.

#[export] Hint Resolve mem_sub_refl set_lists_mono subseteq_sub_cells sub_cells_refl : meld.

(** *** A field in the middle of a tuple that is being filled *)

Lemma set_field_mid p d x r f :
  set_field (mk_tuple p (d ++ x :: r)) (length d) f = Ok (mk_tuple p (d ++ f :: r)).
Proof.
  unfold set_field, get_field. simpl. rewrite list_lookup_middle by done. simpl.
  by rewrite insert_app_r_alt, Nat.sub_diag by lia.
Qed.

Lemma set_int_mid p d r v :
  set_int (mk_tuple p (d ++ 0 :: r)) (length d) v
  = Ok (mk_tuple p (d ++ set_int_field 0 v :: r)).
Proof.
  unfold set_int, get_field. cbn [fields]. rewrite list_lookup_middle by done.
  cbn [of_option res_bind]. apply set_field_mid.
Qed.

Lemma set_node_mid p d r v :
  set_node (mk_tuple p (d ++ 0 :: r)) (length d) v
  = Ok (mk_tuple p (d ++ set_node_field 0 v :: r)).
Proof.
  unfold set_node, get_field. cbn [fields]. rewrite list_lookup_middle by done.
  cbn [of_option res_bind]. apply set_field_mid.
Qed.

Lemma set_list_mid m p d r k v l :
  is_list (lists m k) v l →
  ∃ m', set_list m (mk_tuple p (d ++ 0 :: r)) (length d) k v
          = Ok (m', mk_tuple p (d ++ wrap 64 v :: r)) ∧ mem_sub m m'.
Proof.
  intros Hl. unfold set_list, set_ptr. rewrite set_field_mid. cbn [res_bind].
  unfold on_lists. destruct (inc_refs_ok _ _ _ Hl) as (st & -> & Hs & _). cbn [res_bind].
  eexists. split; [done|]. by apply set_lists_mono.
Qed.

Lemma int_field_range f : - 2 ^ 31 <= int_field f < 2 ^ 31.
Proof. apply (swrap_range 32). lia. Qed.

Lemma int_field_set_idem f g : int_field (set_int_field g (int_field f)) = int_field f.
Proof. rewrite int_field_set. apply swrap_id; [lia|apply int_field_range]. Qed.

Lemma int_field_set_wrap f g :
  int_field (set_int_field g (wrap 32 (int_field f))) = int_field f.
Proof.
  rewrite int_field_set, swrap_wrap by lia. apply swrap_id; [lia|apply int_field_range].
Qed.

Lemma node_field_set_idem f g : node_field (set_node_field g (node_field f)) = node_field f.
Proof. rewrite node_field_set. apply wrap_id, wrap_range. lia. Qed.

Lemma is_list_null_or_dom st ls l : is_list st ls l → ls = 0 ∨ ∃ p, ls = Zpos p ∧ p ∈ dom st.
Proof. intros [|p c l' Hp _]; [by left|]. right. exists p. split; [done|]. by eapply elem_of_dom_2. Qed.

Lemma ptr_field_fits st v l :
  is_list st v l → (∀ p, p ∈ dom st → Zpos p < 2 ^ 64) → ptr_field (wrap 64 v) = v.
Proof.
  intros Hl Hf. unfold ptr_field.
  assert (0 <= v < 2 ^ 64).
  { destruct (is_list_null_or_dom _ _ _ Hl) as [->|(p & -> & Hp)]; [lia|].
    specialize (Hf p Hp). lia. }
  by rewrite !wrap_id by (rewrite ?wrap_id; lia).
Qed.

(** ** Copies *)

Lemma copy_field_ok m t vs i v p d r :
  tuple_denotes m t vs → vs !! i = Some v → i = length d →
  ∃ m' f, copy_field m t (mk_tuple p (d ++ 0 :: r)) i = Ok (m', mk_tuple p (d ++ f :: r)) ∧
    mem_sub m m' ∧ ∃ type, pred_types (pred t) !! i = Some type ∧ denotes m' type f v.
Proof.
  intros Ht Hv ->. destruct (tuple_denotes_lookup _ _ _ _ _ Ht Hv) as (type & f & Hty & Hf & Hd).
  unfold copy_field, get_field_type, get_int, get_node, get_ptr, get_field.
  rewrite Hty, Hf. cbn [of_option res_bind].
  destruct Hd as [f|f|f|type k f l Hk Hl].
  - rewrite set_int_mid. cbn [res_bind]. eexists _, _. split_and!; [done|apply mem_sub_refl|].
    exists FIELD_INT. split; [done|]. rewrite <-(int_field_set_idem f 0) at 2. constructor.
  - unfold set_float. rewrite set_field_mid. cbn [res_bind].
    eexists _, _. split_and!; [done|apply mem_sub_refl|]. exists FIELD_FLOAT. split; [done|].
    rewrite <-(wrap_id 64 (wrap 64 f)) at 2 by (apply wrap_range; lia). constructor.
  - rewrite set_node_mid. cbn [res_bind]. eexists _, _. split_and!; [done|apply mem_sub_refl|].
    exists FIELD_NODE. split; [done|]. rewrite <-(node_field_set_idem f 0) at 2. constructor.
  - destruct (set_list_mid m p d r k (ptr_field f) l Hl) as (m' & Hset & Hs).
    assert (Hw : ptr_field (wrap 64 (ptr_field f)) = ptr_field f).
    { unfold ptr_field. by rewrite !(wrap_id 64 (wrap _ _)) by (apply wrap_range; lia). }
    exists m', (wrap 64 (ptr_field f)). split_and!; [destruct type; simplify_eq/=; exact Hset|done|].
    exists type. split; [done|]. econstructor; [done|]. rewrite Hw. by eapply sub_cells_is_list.
Qed.

Lemma tuple_denotes_mono m m' t vs : mem_sub m m' → tuple_denotes m t vs → tuple_denotes m' t vs.
Proof. intros Hs H. eapply Forall3_impl; [done|]. intros. by eapply denotes_mono. Qed.

Lemma copy_fields_ok m t vs p i n d :
  tuple_denotes m t vs → length d = i → (i + n = length vs)%nat →
  Forall3 (denotes m) (take i (pred_types (pred t))) d (take i vs) →
  ∃ m' fs, copy_fields m t (mk_tuple p (d ++ replicate n 0)) None i n
             = Ok (m', mk_tuple p fs) ∧
    mem_sub m m' ∧ Forall3 (denotes m') (pred_types (pred t)) fs vs.
Proof.
  revert m i d. induction n as [|n IH]; intros m i d Ht Hd Hn Hall.
  { exists m, d. simpl. rewrite app_nil_r. split_and!; [done|apply mem_sub_refl|].
    destruct (tuple_denotes_length _ _ _ Ht) as [Hl _]. unfold num_fields in Hl.
    by rewrite !take_ge in Hall by lia. }
  destruct (lookup_lt_is_Some_2 vs i ltac:(lia)) as [v Hv].
  destruct (copy_field_ok m t vs i v p d (replicate n 0) Ht Hv ltac:(done))
    as (m1 & f & Hc & Hs & type & Hty & Hdv).
  cbn [copy_fields]. change (replicate (S n) 0) with (0 :: replicate n 0).
  rewrite decide_False by done. rewrite Hc. cbn [res_bind].
  destruct (IH m1 (i + 1)%nat (d ++ [f])) as (m2 & fs & Hcf & Hs2 & Hall2).
  - by eapply tuple_denotes_mono.
  - rewrite length_app. simpl. lia.
  - lia.
  - rewrite Nat.add_1_r. rewrite (take_S_r _ _ _ Hty), (take_S_r _ _ _ Hv).
    apply Forall3_app; [|constructor; [done|constructor]].
    eapply Forall3_impl; [done|]. intros. by eapply denotes_mono.
  - rewrite <-app_assoc in Hcf. simpl in Hcf. exists m2, fs.
    split_and!; [done|by apply (mem_sub_trans m m1 m2)|done].
Qed.

Lemma tuple_copy_ok m t vs :
  tuple_denotes m t vs →
  ∃ m' r, copy m t = Ok (m', r) ∧ pred r = pred t ∧
    mem_sub m m' ∧ tuple_denotes m' r vs.
Proof.
  intros Ht. destruct (tuple_denotes_length _ _ _ Ht) as [Hl _].
  destruct (copy_fields_ok m t vs (pred t) 0 (num_fields (pred t)) [] Ht) as (m' & fs & Hc & Hs & Hall);
    [done|simpl; lia|constructor|].
  exists m', (mk_tuple (pred t) fs). by split_and!.
Qed.

(** [copy] of a tuple without strings succeeds; the copy has the same
    predicate and the same values, and so still has the original. *)
Theorem copy_values m t vs :
  tuple_denotes m t vs →
  ∃ m' r, copy m t = Ok (m', r) ∧ pred r = pred t ∧
    tuple_denotes m' r vs ∧ tuple_denotes m' t vs.
Proof.
  intros Ht. destruct (tuple_copy_ok m t vs Ht) as (m' & r & Hc & Hp & Hs & Hr).
  exists m', r. split_and!; [done..|]. by eapply tuple_denotes_mono.
Qed.

Lemma copy_values_witness :
  ∃ m' r, copy sample_memory sample_tuple = Ok (m', r) ∧ pred r = sample_pred ∧
    tuple_denotes m' r [VInt 3; VList NodeList [5; 6]] ∧
    tuple_denotes m' sample_tuple [VInt 3; VList NodeList [5; 6]].
Proof. apply (copy_values sample_memory sample_tuple). apply sample_tuple_denotes. Defined.

(** ** Serialization *)

(** list elements as their type can hold them, in lists the length word can count *)
Definition value_wf (v : value) : bool :=
  match v with
  | VList k l =>
      forallb (fun h => (0 <=? h) && (h <? 2 ^ (8 * Z.of_nat (elem_size k)))) l &&
      (Z.of_nat (length l) <? 2 ^ 32)
  | _ => true
  end.

Lemma value_wf_list k l :
  value_wf (VList k l) = true →
  map (wrap (8 * Z.of_nat (elem_size k))) l = l ∧ Z.of_nat (length l) < 2 ^ 32.
Proof.
  cbn [value_wf]. intros [Hall Hlen%Z.ltb_lt]%andb_true_iff. split; [|done].
  clear Hlen. induction l as [|h l IH]; [done|]. cbn [forallb] in Hall.
  apply andb_true_iff in Hall as [[H0%Z.leb_le H1%Z.ltb_lt]%andb_true_iff Hl].
  cbn [map]. by rewrite wrap_id, IH.
Qed.

Lemma pack_field_list m type k f buf buf_size pos :
  list_kind_of type = Some k →
  pack_field m type f buf buf_size pos
  = RuntimeList.pack (elem_size k) (lists m k) (ptr_field f) buf buf_size pos.
Proof. by destruct type; intros [= <-]. Qed.

Lemma load_field_list type k m t i buf buf_size pos :
  list_kind_of type = Some k →
  load_field type m t i buf buf_size pos = load_list k m t i buf buf_size pos.
Proof. by destruct type; intros [= <-]. Qed.

Lemma scalar_pack_frame n z buf buf_size pos buf' pos' :
  addressable buf → Words.pack n [z] buf buf_size pos = Ok (buf', pos') →
  0 <= pos ∧ length buf' = length buf ∧ pos <= pos' ∧
  ∀ i, (i < Z.to_nat pos)%nat → buf' !! i = buf !! i.
Proof.
  intros Hb H. destruct (pack_addressable _ _ _ _ _ _ _ Hb H) as (? & -> & ?).
  apply pack_ok in H as (_ & _ & _ & ? & _ & Hag).
  split_and!; [done|done|lia|]. intros i Hi. apply Hag. by left.
Qed.

Lemma pack_field_frame m type f v buf buf_size pos buf' pos' :
  denotes m type f v → addressable buf →
  pack_field m type f buf buf_size pos = Ok (buf', pos') →
  0 <= pos ∧ length buf' = length buf ∧ pos <= pos' ∧
  ∀ i, (i < Z.to_nat pos)%nat → buf' !! i = buf !! i.
Proof.
  intros Hd Hb Hp. destruct Hd as [f|f|f|type k f l Hk Hl].
  1-3: by eapply scalar_pack_frame.
  rewrite (pack_field_list _ _ _ _ _ _ _ Hk) in Hp. by eapply pack_frame.
Qed.

Lemma pack_fields_frame m types fs vs buf buf_size pos buf' pos' :
  Forall3 (denotes m) types fs vs → addressable buf → 
  pack_fields m (zip types fs) buf buf_size pos = Ok (buf', pos') →
  length buf' = length buf ∧ (types = [] ∨ 0 <= pos) ∧ pos <= pos' ∧
  ∀ i, (i < Z.to_nat pos)%nat → buf' !! i = buf !! i.
Proof.
  intros H. revert buf pos. induction H as [|type f v types fs vs Hd _ IH]; intros buf pos Hb Hp.
  { simpl in Hp. simplify_eq. split_and!; [done|by left|lia|done]. }
  cbn [zip zip_with pack_fields] in Hp.
  apply res_bind_ok in Hp as ([buf1 pos1] & H1 & Hp). apply asserting_ok in Hp as [_ Hp].
  destruct (pack_field_frame _ _ _ _ _ _ _ _ _ Hd Hb H1) as (? & Hl1 & ? & Hag1).
  destruct (IH buf1 pos1 ltac:(unfold addressable in *; by rewrite Hl1) Hp) as (Hl2 & _ & ? & Hag2).
  split_and!; [congruence|by right|lia|]. intros i Hi. rewrite Hag2, Hag1 by lia. done.
Qed.

(** reading back a scalar from a buffer that agrees up to the end of it *)
Lemma unpack_scalar_ok n z buf buf_size pos buf' pos' buf'' :
  addressable buf → Words.pack n [z] buf buf_size pos = Ok (buf', pos') →
  length buf' = length buf'' → (∀ i, (i < Z.to_nat pos')%nat → buf' !! i = buf'' !! i) →
  unpack_scalar n buf'' buf_size pos = Ok (wrap (8 * Z.of_nat n) z, pos').
Proof.
  intros Hb H Hlen Hag. pose proof (pack_length _ _ _ _ _ _ _ H) as Hl.
  pose proof (unpack_pack _ _ _ _ _ _ _ H) as Hu. cbn [length map] in Hu.
  assert (Hb' : addressable buf') by (unfold addressable in *; by rewrite Hl).
  unfold unpack_scalar. by rewrite (unpack_agree_ok _ _ _ buf'' _ _ _ _ Hb' Hlen Hu).
Qed.

Lemma load_field_ok m type f v buf buf_size pos buf' pos' buf'' m2 p d r :
  denotes m type f v → value_wf v = true → addressable buf →
  pack_field m type f buf buf_size pos = Ok (buf', pos') →
  length buf' = length buf'' → (∀ i, (i < Z.to_nat pos')%nat → buf' !! i = buf'' !! i) →
  ∃ m3 g, load_field type m2 (mk_tuple p (d ++ 0 :: r)) (length d) buf'' buf_size pos
            = Ok (m3, mk_tuple p (d ++ g :: r), pos') ∧
    mem_sub m2 m3 ∧ (mem_fits m3 → denotes m3 type g v).
Proof.
  intros Hd Hwf Hb Hp Hlen Hag. destruct Hd as [f|f|f|type k f l Hk Hl].
  - cbn [load_field]. rewrite (unpack_scalar_ok _ _ _ _ _ _ _ _ Hb Hp Hlen Hag).
    cbn [res_bind fst snd]. rewrite set_int_mid. cbn [res_bind].
    eexists _, _. split_and!; [done|apply mem_sub_refl|]. intros _.
    rewrite <-(int_field_set_wrap f 0) at 2. constructor.
  - cbn [load_field]. rewrite (unpack_scalar_ok _ _ _ _ _ _ _ _ Hb Hp Hlen Hag).
    cbn [res_bind fst snd]. unfold set_float. rewrite set_field_mid. cbn [res_bind].
    eexists _, _. split_and!; [done|apply mem_sub_refl|]. intros _.
    change (8 * Z.of_nat 8) with 64.
    rewrite (wrap_id 64 (wrap 64 f)) by (apply wrap_range; lia).
    rewrite <-(wrap_id 64 (wrap 64 f)) at 2 by (apply wrap_range; lia). constructor.
  - cbn [load_field]. rewrite (unpack_scalar_ok _ _ _ _ _ _ _ _ Hb Hp Hlen Hag).
    cbn [res_bind fst snd]. rewrite set_node_mid. cbn [res_bind].
    eexists _, _. split_and!; [done|apply mem_sub_refl|]. intros _.
    change (8 * Z.of_nat 4) with 32.
    assert (Hn : wrap 32 (node_field f) = node_field f) by (apply wrap_id, wrap_range; lia).
    rewrite Hn. rewrite <-(node_field_set_idem f 0) at 2. constructor.
  - rewrite (pack_field_list _ _ _ _ _ _ _ Hk) in Hp.
    rewrite (load_field_list _ _ _ _ _ _ _ _ Hk). unfold load_list.
    destruct (value_wf_list k l Hwf) as [Hmap Hcount].
    destruct (unpack_pack_list _ _ _ _ _ _ _ _ _ (lists m2 k) Hl Hb Hcount Hp)
      as (st' & p' & Hu & Hsub & Hl').
    destruct (pack_frame _ _ _ _ _ _ _ _ _ Hl Hb Hp) as (_ & Hlb & _).
    assert (Hb' : addressable buf') by (unfold addressable in *; by rewrite Hlb).
    rewrite (unpack_list_agree _ _ _ buf'' _ _ _ _ Hb' Hlen Hu Hag). cbn [res_bind].
    rewrite Hmap in Hl'.
    assert (Hin : is_list (lists (set_lists m2 k st') k) p' l)
      by (by rewrite lists_set_lists, decide_True).
    destruct (set_list_mid _ p d r k p' l Hin) as (m3 & -> & Hs). cbn [res_bind].
    exists m3, (wrap 64 p'). split_and!; [done| |].
    + apply (mem_sub_trans _ (set_lists m2 k st')); [|done].
      apply set_lists_mono. by apply subseteq_sub_cells.
    + intros Hfit. econstructor; [done|].
      pose proof (sub_cells_is_list _ _ _ _ (Hs k) Hin) as Hl3.
      rewrite (ptr_field_fits (lists m3 k) p' l); [done|done|apply Hfit].
Qed.

Lemma load_fields_ok m types fs vs buf buf_size pos buf' pos' buf'' m2 p d :
  Forall3 (denotes m) types fs vs → forallb value_wf vs = true → addressable buf →
  pack_fields m (zip types fs) buf buf_size pos = Ok (buf', pos') →
  length buf' = length buf'' → (∀ i, (i < Z.to_nat pos')%nat → buf' !! i = buf'' !! i) →
  ∃ m3 gs, load_fields types m2 (mk_tuple p (d ++ replicate (length types) 0)) (length d)
             buf'' buf_size pos = Ok (m3, mk_tuple p (d ++ gs), pos') ∧
    mem_sub m2 m3 ∧ (mem_fits m3 → Forall3 (denotes m3) types gs vs).
Proof.
  intros H. revert buf pos m2 d.
  induction H as [|type f v types fs vs Hd Hrest IH]; intros buf pos m2 d Hwf Hb Hp Hlen Hag.
  { simpl in Hp. simplify_eq. exists m2, []. split_and!; [done|apply mem_sub_refl|constructor]. }
  cbn [zip zip_with pack_fields] in Hp. cbn [forallb] in Hwf. apply andb_true_iff in Hwf as [Hwv Hwf].
  apply res_bind_ok in Hp as ([buf1 pos1] & H1 & Hp). apply asserting_ok in Hp as [_ Hp].
  destruct (pack_field_frame _ _ _ _ _ _ _ _ _ Hd Hb H1) as (? & Hl1 & ? & _).
  assert (Hb1 : addressable buf1) by (unfold addressable in *; by rewrite Hl1).
  destruct (pack_fields_frame _ _ _ _ _ _ _ _ _ Hrest Hb1 Hp) as (Hl2 & _ & ? & Hag2).
  destruct (load_field_ok m type f v buf buf_size pos buf1 pos1 buf'' m2 p d
    (replicate (length types) 0)) as (m3 & g & Hload & Hs & Hg); try done; [congruence| |].
  { intros i Hi. rewrite <-Hag2 by done. apply Hag. lia. }
  cbn [length load_fields]. change (replicate (S (length types)) 0)
    with (0 :: replicate (length types) 0). rewrite Hload. cbn [res_bind].
  destruct (IH buf1 pos1 m3 (d ++ [g])) as (m4 & gs & Hl4 & Hs4 & Hgs); try done.
  rewrite <-app_assoc, length_app in Hl4. cbn [app length] in Hl4.
  exists m4, (g :: gs). rewrite <-app_assoc in Hl4. split_and!; [exact Hl4| |].
  - by apply (mem_sub_trans m2 m3 m4).
  - intros Hfit. constructor; [|by apply Hgs].
    apply (denotes_mono m3); [done|]. apply Hg. by eapply mem_sub_fits.
Qed.

Lemma packed_tuple_unpacks get_predicate m t vs buf buf_size pos buf' pos' m2 :
  tuple_denotes m t vs → forallb value_wf vs = true → addressable buf →
  0 <= pred_id (pred t) < 256 → get_predicate (pred_id (pred t)) = Ok (pred t) →
  pack m t buf buf_size pos = Ok (buf', pos') →
  ∃ m3 t', unpack get_predicate m2 buf' buf_size pos = Ok (m3, t', pos') ∧
    pred t' = pred t ∧ mem_sub m2 m3 ∧ (mem_fits m3 → tuple_denotes m3 t' vs).
Proof.
  intros Ht Hwf Hb Hid Hget Hp. unfold pack in Hp. apply asserting_ok in Hp as [_ Hp].
  apply res_bind_ok in Hp as ([buf0 pos0] & H0 & Hp). apply asserting_ok in Hp as [_ Hp].
  destruct (scalar_pack_frame _ _ _ _ _ _ _ Hb H0) as (? & Hl0 & ? & _).
  assert (Hb0 : addressable buf0) by (unfold addressable in *; by rewrite Hl0).
  destruct (pack_fields_frame _ _ _ _ _ _ _ _ _ Ht Hb0 Hp) as (Hl1 & _ & ? & Hag).
  unfold unpack.
  rewrite (unpack_scalar_ok _ _ _ _ _ _ _ buf' Hb H0) by (try done; intros; by rewrite Hag).
  cbn [res_bind]. rewrite wrap_id by (simpl; lia). rewrite Hget. cbn [res_bind].
  destruct (load_fields_ok m _ _ vs buf0 buf_size pos0 buf' pos' buf' m2 (pred t) [] Ht)
    as (m3 & gs & Hload & Hs & Hgs); [done..|].
  exists m3, (mk_tuple (pred t) gs). split_and!; [exact Hload|done|done|exact Hgs].
Qed.

(** C35: A tuple without strings that was packed is unpacked, in any memory of the
    receiver whose addresses fit 64 bits, as a tuple of the same predicate with
    the same values; sender and receiver move the buffer position equally. *)
Theorem tuple_pack_unpack get_predicate m t vs buf buf_size pos buf' pos' m2 :
  tuple_denotes m t vs → forallb value_wf vs = true → addressable buf →
  0 <= pred_id (pred t) < 256 → get_predicate (pred_id (pred t)) = Ok (pred t) →
  pack m t buf buf_size pos = Ok (buf', pos') →
  ∃ m3 t', unpack get_predicate m2 buf' buf_size pos = Ok (m3, t', pos') ∧
    pred t' = pred t ∧ mem_sub m2 m3 ∧ (mem_fits m3 → tuple_denotes m3 t' vs).
Proof. apply packed_tuple_unpacks. Qed.

Lemma tuple_pack_unpack_witness :
  ∃ m3 t', unpack (fun _ => Ok sample_pred) sample_memory
             [7; 3; 0; 0; 0; 2; 0; 0; 0; 5; 0; 0; 0; 6; 0; 0; 0; 1] 18 0 = Ok (m3, t', 17) ∧
    pred t' = sample_pred ∧ mem_sub sample_memory m3 ∧
    (mem_fits m3 → tuple_denotes m3 t' [VInt 3; VList NodeList [5; 6]]).
Proof.
  apply (tuple_pack_unpack (fun _ => Ok sample_pred) sample_memory sample_tuple _
           (replicate 17 0 ++ [1]) 18 0 _ 17 sample_memory).
  - apply sample_tuple_denotes.
  - reflexivity.
  - reflexivity.
  - simpl. lia.
  - reflexivity.
  - vm_compute. reflexivity.
Defined.
