(* ===== verification/SimpleTuple.v ===== *)
(** Counted tuples: [db/tuple.{hpp,cpp}].  A [simple_tuple] is a tuple with the
    number of its derivations (a 16-bit [ref_count]) and the marks the rule
    engine puts on it. *)

From Stdlib Require Import ZArith Lia Bool.
From stdpp Require Import base tactics list numbers option gmap.
From S2P Require Import Prelude Words Types RuntimeList Tuple.

#[local] Open Scope Z_scope.

Record simple_tuple : Type := mk_simple_tuple {
  data : tuple;
  count : Z;
  to_delete : bool;
  generated_this_run : bool;
  is_final_aggregate : bool
}.

Definition new_simple_tuple (t : tuple) (n : Z) : simple_tuple :=
  mk_simple_tuple t n false false false.

Definition create_new (t : tuple) : simple_tuple := new_simple_tuple t 1.
Definition remove_new (t : tuple) : simple_tuple := new_simple_tuple t (-1).

Definition set_count (s : simple_tuple) (n : Z) : simple_tuple :=
  mk_simple_tuple (data s) n (to_delete s) (generated_this_run s) (is_final_aggregate s).
Definition set_generated_run (s : simple_tuple) (v : bool) : simple_tuple :=
  mk_simple_tuple (data s) (count s) (to_delete s) v (is_final_aggregate s).
Definition will_delete (s : simple_tuple) : simple_tuple :=
  mk_simple_tuple (data s) (count s) true (generated_this_run s) (is_final_aggregate s).
Definition will_not_delete (s : simple_tuple) : simple_tuple :=
  mk_simple_tuple (data s) (count s) false (generated_this_run s) (is_final_aggregate s).
Definition set_as_aggregate (s : simple_tuple) : simple_tuple :=
  mk_simple_tuple (data s) (count s) (to_delete s) (generated_this_run s) true.

Definition get_predicate (s : simple_tuple) : predicate := pred (data s).
Definition get_predicate_id (s : simple_tuple) : Z := pred_id (pred (data s)).
Definition get_strat_level (s : simple_tuple) : Z := pred_level (pred (data s)).
Definition must_be_deleted (s : simple_tuple) : bool := to_delete s.
Definition can_be_consumed (s : simple_tuple) : bool :=
  negb (to_delete s) && negb (generated_this_run s).
Definition is_aggregate (s : simple_tuple) : bool := is_final_aggregate s.
Definition get_count (s : simple_tuple) : Z := count s.
Definition reached_zero (s : simple_tuple) : bool := count s =? 0.

(** [count += inc] on a short *)
Definition add_count (s : simple_tuple) (inc : Z) : simple_tuple :=
  set_count s (swrap 16 (count s + inc)).
Definition inc_count (s : simple_tuple) (inc : Z) : res simple_tuple :=
  asserting (inc >? 0) (Ok (add_count s inc)).
Definition dec_count (s : simple_tuple) (inc : Z) : res simple_tuple :=
  asserting (inc >? 0) (Ok (set_count s (swrap 16 (count s - inc)))).

Definition storage_size (m : memory) (s : simple_tuple) : res Z :=
  let* n := get_storage_size m (data s) in Ok (2 + n).

Definition pack (m : memory) (s : simple_tuple) (buf : list byte) (buf_size pos : Z)
  : res (list byte * Z) :=
  let* r := Words.pack 2 [count s] buf buf_size pos in
  let '(buf, pos) := r in Tuple.pack m (data s) buf buf_size pos.

Definition unpack (get_predicate : Z → res predicate) (m : memory) (buf : list byte)
    (buf_size pos : Z) : res (memory * simple_tuple * Z) :=
  let* r := unpack_scalar 2 buf buf_size pos in
  let '(count, pos) := r in
  let* r := Tuple.unpack get_predicate m buf buf_size pos in
  let '(m, t, pos) := r in
  Ok (m, new_simple_tuple t (swrap 16 count), pos).

(** [wipeout]: the simple tuple and its tuple are destroyed *)
Definition wipeout (m : memory) (s : simple_tuple) : res memory := Tuple.destroy m (data s).
