(* ===== verification/Trie.v ===== *)
(** The tuple store of a node: [db/trie.{hpp,cpp}].

    A trie branches on the fields of a tuple; a list field contributes the marker
    1, its head and its tail, or the marker 0 when empty.  The children of a node
    are a linked list that becomes a hash table when it grows.  Here a node owns
    its children: the pointer walk of the code becomes a recursion that returns
    the changed node, the parent pointers become the way back of the recursion,
    and a leaf is a name under which its contents and its place in the leaf list
    are kept.  [std::tr1::hash] is a parameter. *)

From Stdlib Require Import ZArith Lia Bool SpecFloat.
From stdpp Require Import base tactics list numbers option gmap.
From S2P Require Import Prelude Words Types RuntimeList Tuple SimpleTuple.

#[local] Open Scope Z_scope.

Definition TRIE_HASH_LIST_THRESHOLD : nat := 8.
Definition TRIE_HASH_BASE_BUCKETS : nat := 64.
Definition TRIE_HASH_MAX_NODES_PER_BUCKET : nat := 4.

Abbreviation leaf_id := positive.

(** A node's child pointer: null, a leaf (the tagged pointer), the first of a
    list of nodes, or a hash table with its type and number of nodes. *)
Inductive trie_node : Type :=
  | mk_node (node_data : tuple_field) (child : children)
with children : Type :=
  | no_child
  | leaf_child (l : leaf_id)
  | list_child (cs : list trie_node)
  | hash_child (type : field_type) (buckets : list (list trie_node)) (total : Z).

Definition node_data (n : trie_node) : tuple_field := match n with mk_node d _ => d end.
Definition child (n : trie_node) : children := match n with mk_node _ c => c end.

Definition is_leaf (n : trie_node) : bool :=
  match child n with leaf_child _ => true | _ => false end.
Definition is_hashed (n : trie_node) : bool :=
  match child n with hash_child _ _ _ => true | _ => false end.

Abbreviation val_stack := (list (tuple_field * field_type)).

Section Hash.
(** [std::tr1::hash] of the three key types: int_val, uint_val and node_val
    (both uint32_t), and float_val (given by its bits) *)
Context (hash_int hash_uint hash_float : Z → Z).

(** [hash_item]: [item & (num_buckets-1)] *)
Definition hash_item (num_buckets : nat) (item : Z) : nat :=
  Z.to_nat (Z.land item (Z.of_nat num_buckets - 1)).

(** the key of a stored datum in [insert_int] .. [insert_node] *)
Definition hash_key (type : field_type) (f : tuple_field) : res Z :=
  match type with
  | FIELD_LIST_INT | FIELD_LIST_FLOAT | FIELD_LIST_NODE | FIELD_STRING =>
      Ok (hash_uint (wrap 32 (ptr_field f)))
  | FIELD_INT => Ok (hash_int (int_field f))
  | FIELD_FLOAT => Ok (hash_float (wrap 64 f))
  | FIELD_NODE => Ok (hash_uint (node_field f))
  | FIELD_UNKNOWN _ => Err assert_fail
  end.

(** [insert_*(val, node)]: the node goes to the front of its bucket *)
Definition bucket_insert (type : field_type) (n : trie_node) (buckets : list (list trie_node))
  : res (list (list trie_node)) :=
  let* k := hash_key type (node_data n) in
  let b := hash_item (length buckets) k in
  let* old := of_option (buckets !! b) in
  Ok (<[b := n :: old]> buckets).

Fixpoint buckets_insert_all (type : field_type) (ns : list trie_node)
    (buckets : list (list trie_node)) : res (list (list trie_node)) :=
  match ns with
  | [] => Ok buckets
  | n :: ns =>
      let* buckets := bucket_insert type n buckets in buckets_insert_all type ns buckets
  end.

(** [expand]: twice the buckets, filled from the old ones in order *)
Definition expand (type : field_type) (buckets : list (list trie_node))
  : res (list (list trie_node)) :=
  buckets_insert_all type (concat buckets) (replicate (2 * length buckets) []).

(** [convert_hash] of a list of children *)
Definition convert_hash (type : field_type) (cs : list trie_node) : res children :=
  let* buckets := buckets_insert_all type cs (replicate TRIE_HASH_BASE_BUCKETS []) in
  Ok (hash_child type buckets (Z.of_nat (length cs))).

(** What a field becomes in the trie, and what it pushes: a list its marker and,
    unless empty, its head and tail. *)
Definition expand_list (m : memory) (k : list_kind) (item list_type : field_type)
    (field : tuple_field) : res (tuple_field * val_stack) :=
  if is_null (ptr_field field) then Ok (0, [])
  else
    let* c := deref (lists m k) (ptr_field field) in
    let h := match k with FloatList => wrap 64 (head c) | _ => set_low32 0 (head c) end in
    Ok (1, [(h, item); (wrap 64 (tail c), list_type)]).

Definition expand_field (m : memory) (field : tuple_field) (type : field_type)
  : res (tuple_field * val_stack) :=
  match type with
  | FIELD_LIST_INT => expand_list m IntList FIELD_INT FIELD_LIST_INT field
  | FIELD_LIST_FLOAT => expand_list m FloatList FIELD_FLOAT FIELD_LIST_FLOAT field
  | FIELD_LIST_NODE => expand_list m NodeList FIELD_NODE FIELD_LIST_NODE field
  | _ => Ok (field, [])
  end.

(** the comparison of a child's datum with the (expanded) field *)
Definition field_match (type : field_type) (f field : tuple_field) : bool :=
  match type with
  | FIELD_INT => int_field f =? int_field field
  | FIELD_FLOAT => SFeqb (float_field f) (float_field field)
  | FIELD_NODE => node_field f =? node_field field
  | FIELD_STRING => node_field f =? ptr_field field
  | FIELD_LIST_INT | FIELD_LIST_FLOAT | FIELD_LIST_NODE => int_field f =? int_field field
  | FIELD_UNKNOWN _ => false
  end.

(** the children [match] looks at: all of a list, one bucket of a hash *)
Definition candidates (c : children) (type : field_type) (field : tuple_field)
  : res (list trie_node) :=
  match c with
  | no_child => Ok []
  | leaf_child _ => Err assert_fail
  | list_child cs => Ok cs
  | hash_child _ buckets _ =>
      let* k := hash_key type field in
      of_option (buckets !! hash_item (length buckets) k)
  end.

(** The scan of [match]: the position of the first child that matches, and the
    number of children looked at. *)
Fixpoint scan (type : field_type) (field : tuple_field) (cs : list trie_node) (i : nat)
  : option nat * nat :=
  match cs with
  | [] => (None, i)
  | c :: cs =>
      if field_match type (node_data c) field then (Some i, S i)
      else scan type field cs (S i)
  end.

(** a known type is asserted for every child looked at *)
Definition match_children (c : children) (type : field_type) (field : tuple_field)
  : res (list trie_node * option nat * nat) :=
  let* cs := candidates c type field in
  asserting (match cs with [] => true | _ => field_type_known type end)
    (let '(r, n) := scan type field cs 0 in Ok (cs, r, n)).

(** write the changed candidates back *)
Definition put_candidates (c : children) (type : field_type) (field : tuple_field)
    (cs : list trie_node) : res children :=
  match c with
  | no_child => Ok (list_child cs)
  | leaf_child _ => Err assert_fail
  | list_child _ => Ok (list_child cs)
  | hash_child t buckets total =>
      let* k := hash_key type field in
      Ok (hash_child t (<[hash_item (length buckets) k := cs]> buckets) total)
  end.

(** [parent->insert]: the new child goes to the front of the list, or of its
    bucket of the table *)
Definition insert_child (c : children) (n : trie_node) (type : field_type) : res children :=
  match c with
  | no_child => Ok (list_child [n])
  | leaf_child _ => Err assert_fail
  | list_child cs => Ok (list_child (n :: cs))
  | hash_child t buckets total =>
      let* buckets := bucket_insert type n buckets in
      Ok (hash_child t buckets (total + 1))
  end.

(** the table a node gets or enlarges before a child is inserted; [count] is the
    number of children looked at, plus one *)
Definition grow (c : children) (type : field_type) (count : nat) : res children :=
  match c with
  | hash_child t buckets total =>
      if (TRIE_HASH_MAX_NODES_PER_BUCKET <? count)%nat
      then let* buckets := expand t buckets in Ok (hash_child t buckets total)
      else Ok c
  | list_child cs =>
      if (TRIE_HASH_LIST_THRESHOLD <? count)%nat then convert_hash type cs else Ok c
  | _ => Ok c
  end.

Section Walk.
Context (m : memory).

(** the rest of the path of a new tuple, ending in its leaf *)
Fixpoint new_branch (fuel : nat) (vals : val_stack) (l : leaf_id) : res children :=
  match fuel with
  | O => Err undefined_behaviour
  | S fuel =>
      match vals with
      | [] => Ok (leaf_child l)
      | (field, type) :: vals =>
          let* r := expand_field m field type in
          let '(f, pushed) := r in
          let* c := new_branch fuel (pushed ++ vals) l in
          Ok (list_child [mk_node f c])
      end
  end.

Inductive insert_result : Type :=
  | r_found (l : leaf_id)  (** the tuple is there *)
  | r_missing              (** it is not, and [many < 0] *)
  | r_new.                 (** a path to the new leaf was added *)

(** The loop of [check_insert] from a node that is below the root or has a
    child: the children of the node are given and returned. *)
Fixpoint check_insert_walk (fuel : nat) (c : children) (vals : val_stack) (l : leaf_id)
    (many : Z) : res (children * insert_result) :=
  match fuel with
  | O => Err undefined_behaviour
  | S fuel =>
      match c with
      | leaf_child l' =>
          asserting (match vals with [] => true | _ => false end) (Ok (c, r_found l'))
      | _ =>
          match vals with
          | [] => Err assert_fail
          | (field, type) :: vals =>
              let* r := expand_field m field type in
              let '(f, pushed) := r in
              let* r := match_children c type f in
              let '(cs, found, count) := r in
              match found with
              | Some i =>
                  let* n := of_option (cs !! i) in
                  let* r := check_insert_walk fuel (child n) (pushed ++ vals) l many in
                  let '(c', result) := r in
                  let* c := put_candidates c type f (<[i := mk_node (node_data n) c']> cs) in
                  Ok (c, result)
              | None =>
                  if many <? 0 then Ok (c, r_missing)
                  else
                    let* c := grow c type (count + 1) in
                    let* branch := new_branch fuel (pushed ++ vals) l in
                    let* c := insert_child c (mk_node f branch) type in
                    Ok (c, r_new)
              end
          end
      end
  end.

End Walk.

(** ** Deletion of a path *)

(** [delete_path] of the node of a leaf: the node is unlinked from its siblings,
    and its parent goes as well when it is left without children.  The result is
    None when the leaf is not below, and [no_child] for a pruned parent. *)
Section DeleteIn.
Context (f : children → option children).

(** unlink from a list of siblings: the position is that of a removed node *)
Fixpoint delete_in (cs : list trie_node) : option (list trie_node * option nat) :=
  match cs with
  | [] => None
  | mk_node d c :: cs' =>
      match f c with
      | Some no_child => Some (cs', Some 0%nat)
      | Some c' => Some (mk_node d c' :: cs', None)
      | None =>
          match delete_in cs' with
          | Some (cs'', pos) => Some (mk_node d c :: cs'', option_map S pos)
          | None => None
          end
      end
  end.

Fixpoint delete_in_buckets (bs : list (list trie_node))
  : option (list (list trie_node) * option nat) :=
  match bs with
  | [] => None
  | cs :: bs' =>
      match delete_in cs with
      | Some (cs', pos) => Some (cs' :: bs', pos)
      | None =>
          match delete_in_buckets bs' with
          | Some (bs'', pos) => Some (cs :: bs'', pos)
          | None => None
          end
      end
  end.
End DeleteIn.

(** the list of children without the removed one *)
Definition shrink_list (cs : list trie_node) : children :=
  match cs with [] => no_child | _ => list_child cs end.

(** the table without the removed node: it goes when its [total] reaches zero,
    which is looked at when the node was the first of its bucket *)
Definition shrink_hash (t : field_type) (bs : list (list trie_node)) (total : Z)
    (pos : option nat) : children :=
  match pos with
  | None => hash_child t bs total
  | Some O => if total - 1 =? 0 then no_child else hash_child t bs (total - 1)
  | Some (S _) => hash_child t bs (total - 1)
  end.

Fixpoint delete_leaf (l : leaf_id) (c : children) {struct c} : option children :=
  match c with
  | no_child => None
  | leaf_child l' => if decide (l' = l) then Some no_child else None
  | list_child cs =>
      match delete_in (delete_leaf l) cs with
      | Some (cs, _) => Some (shrink_list cs)
      | None => None
      end
  | hash_child t bs total =>
      match delete_in_buckets (delete_leaf l) bs with
      | Some (bs, pos) => Some (shrink_hash t bs total pos)
      | None => None
      end
  end.

(** Enough fuel for a stack: a list of [n] elements is walked in [2n + 1] steps
    and has at most as many elements as there are cells. *)
Definition entry_fuel (m : memory) (type : field_type) : nat :=
  match list_kind_of type with
  | Some k => 2 * size (lists m k) + 1
  | None => 1
  end.

Definition stack_fuel (m : memory) (vals : val_stack) : nat :=
  sum_list_with (fun '(_, type) => entry_fuel m type) vals + 1.

(** ** The keys a trie distinguishes *)

Definition token : Type := Z * Z * Z.

(** what [field_match] compares *)
Definition canon (type : field_type) (f : tuple_field) : token :=
  match type with
  | FIELD_FLOAT => SFkey (float_field f)
  | FIELD_NODE => (node_field f, 0, 0)
  | _ => (int_field f, 0, 0)
  end.

Definition elem_token (k : list_kind) (h : Z) : token :=
  match k with
  | IntList => (swrap 32 h, 0, 0)
  | FloatList => SFkey (float_of_bits (wrap 64 h))
  | NodeList => (wrap 32 h, 0, 0)
  end.

Fixpoint list_tokens (k : list_kind) (l : list Z) : list token :=
  match l with
  | [] => [(0, 0, 0)]
  | h :: l => (1, 0, 0) :: elem_token k h :: list_tokens k l
  end.

Definition value_tokens (v : value) : list token :=
  match v with
  | VInt z => [(z, 0, 0)]
  | VFloat b => [SFkey (float_of_bits b)]
  | VNode n => [(n, 0, 0)]
  | VList k l => list_tokens k l
  end.

Definition tokens (vs : list value) : list token := concat (map value_tokens vs).

(** no NaN, which is equal to nothing *)
Definition value_ok (v : value) : bool :=
  match v with
  | VFloat b => negb (is_nan_bits b)
  | VList FloatList l => forallb (fun h => negb (is_nan_bits (wrap 64 h))) l
  | _ => true
  end.

Definition value_cost (v : value) : nat :=
  match v with VList _ l => 2 * length l + 1 | _ => 1 end.

Definition stack_denotes (m : memory) (s : val_stack) (vs : list value) : Prop :=
  Forall2 (fun e v => denotes m e.2 e.1 v) s vs.

(** a datum as [insert] stores it *)
Definition data_ok (type : field_type) (f : tuple_field) : bool :=
  match type with
  | FIELD_INT | FIELD_NODE => true
  | FIELD_FLOAT => negb (is_nan_bits (wrap 64 f))
  | FIELD_LIST_INT | FIELD_LIST_FLOAT | FIELD_LIST_NODE => (f =? 0) || (f =? 1)
  | FIELD_STRING | FIELD_UNKNOWN _ => false
  end.

Definition item_type (k : list_kind) : field_type :=
  match k with IntList => FIELD_INT | FloatList => FIELD_FLOAT | NodeList => FIELD_NODE end.

(** the types that follow a datum because of it *)
Definition pushed_types (type : field_type) (f : tuple_field) : list field_type :=
  match list_kind_of type with
  | Some k => if f =? 1 then [item_type k; type] else []
  | None => []
  end.

Lemma SFeqb_key x y :
  x ≠ S754_nan → y ≠ S754_nan → SFeqb x y = true ↔ SFkey x = SFkey y.
Proof.
  intros Hx Hy.
  assert (Heq : SFeqb x y = SFleb x y && SFleb y x).
  { unfold SFeqb, SFleb.
    destruct x as [sx|sx| |sx mx ex], y as [sy|sy| |sy my ey]; try done;
      try (by destruct sx, sy); try (by destruct sx); try (by destruct sy).
    simpl. change (Pos.compare_cont Eq mx my) with (Pos.compare mx my).
    change (Pos.compare_cont Eq my mx) with (Pos.compare my mx).
    rewrite (Z.compare_antisym ex ey), (Pos.compare_antisym mx my).
    destruct sx, sy, (ex ?= ey)%Z, (mx ?= my)%positive; done. }
  rewrite Heq, andb_true_iff, !SFleb_key by done.
  destruct (SFkey x) as [[x1 x2] x3], (SFkey y) as [[y1 y2] y3]. simpl. split.
  - intros. assert (x1 = y1 ∧ x2 = y2 ∧ x3 = y3) as (-> & -> & ->) by lia. done.
  - intros [= -> -> ->]. lia.
Qed.

Lemma float_field_ok f : negb (is_nan_bits (wrap 64 f)) = true → float_field f ≠ S754_nan.
Proof. intros H%negb_true_iff. by apply is_nan_bits_false. Qed.

Lemma pair_eq_iff (a b : Z) : (a =? b) = true ↔ ((a, 0, 0) : token) = (b, 0, 0).
Proof. rewrite Z.eqb_eq. naive_solver. Qed.

Lemma field_match_canon type f g :
  data_ok type f = true → data_ok type g = true →
  field_match type f g = true ↔ canon type f = canon type g.
Proof.
  destruct type; cbn [data_ok field_match canon]; intros Hf Hg;
    [apply pair_eq_iff| |apply pair_eq_iff..|discriminate|discriminate].
  apply SFeqb_key; by apply float_field_ok.
Qed.

Lemma data_ok_known type f : data_ok type f = true → field_type_known type = true.
Proof. by destruct type. Qed.

(** equal doubles have equal hashes: 0.0 and -0.0 *)
Definition hash_float_ok : Prop :=
  ∀ a b, SFeqb (float_of_bits a) (float_of_bits b) = true → hash_float a = hash_float b.

Lemma list_datum type f k :
  list_kind_of type = Some k → data_ok type f = true → f = 0 ∨ f = 1.
Proof.
  destruct type; cbn [list_kind_of data_ok]; intros Hk Hd; try discriminate;
    by rewrite orb_true_iff, !Z.eqb_eq in Hd.
Qed.

Lemma int_field_small z : 0 <= z < 2 ^ 31 → int_field z = z.
Proof. intros. unfold int_field. rewrite swrap_wrap by lia. apply swrap_id; simpl; lia. Qed.

Lemma hash_key_canon type f g :
  hash_float_ok → data_ok type f = true → data_ok type g = true →
  canon type f = canon type g → hash_key type f = hash_key type g.
Proof.
  intros Hh Hf Hg Hc. destruct (list_kind_of type) as [k|] eqn:Hk.
  - assert (Hi : int_field f = int_field g).
    { destruct type; try discriminate Hk; cbn [canon] in Hc; by injection Hc. }
    assert (f = g) as ->; [|reflexivity].
    pose proof (list_datum type f k Hk Hf) as Hf'. pose proof (list_datum type g k Hk Hg) as Hg'.
    clear - Hi Hf' Hg'. rewrite !int_field_small in Hi by lia. exact Hi.
  - destruct type; try discriminate Hk; try discriminate Hf; cbn [hash_key canon] in *;
      try congruence.
    f_equal. apply Hh. apply SFeqb_key; [by apply (float_field_ok f)|by apply (float_field_ok g)|done].
Qed.

Lemma hash_key_total type f : data_ok type f = true → ∃ k, hash_key type f = Ok k.
Proof. destruct type; cbn [data_ok hash_key]; intros; try discriminate; eauto. Qed.

(** What expanding a field does to the values on the stack: one token leaves, the
    values it pushed carry the others. *)
Lemma expand_field_ok m g type v :
  mem_fits m → denotes m type g v → value_ok v = true →
  ∃ f pushed vs, expand_field m g type = Ok (f, pushed) ∧ stack_denotes m pushed vs ∧
    value_tokens v = canon type f :: tokens vs ∧ data_ok type f = true ∧
    map snd pushed = pushed_types type f ∧ forallb value_ok vs = true ∧
    (sum_list_with value_cost vs < value_cost v)%nat.
Proof.
  intros Hfit Hd Hok. destruct Hd as [g|g|g|type k g l Hk Hl].
  - exists g, [], []. split_and!; [done|constructor|done|done|done|done|simpl; lia].
  - exists g, [], []. unfold canon, float_field.
    split_and!; [done|constructor|reflexivity|exact Hok|done|done|simpl; lia].
  - exists g, [], []. split_and!; [done|constructor|done|done|done|done|simpl; lia].
  - assert (Hex : expand_field m g type = expand_list m k (item_type k) type g)
      by (destruct type; try discriminate Hk; injection Hk as <-; reflexivity).
    rewrite Hex. unfold expand_list, pushed_types. rewrite Hk.
    assert (Hdok : ∀ z, data_ok type z = (z =? 0) || (z =? 1))
      by (destruct type; try discriminate Hk; injection Hk as <-; reflexivity).
    assert (Hcan : ∀ z, 0 <= z < 2 ^ 31 → canon type z = (z, 0, 0)).
    { intros z Hz. rewrite <-(int_field_small z Hz) at 2. destruct type; try discriminate Hk; reflexivity. }
    destruct (ptr_field g) as [|p|p] eqn:Hg; [| |by inversion Hl].
    + inversion Hl; subst. exists 0, [], []. rewrite Hdok, Hcan by lia.
      repeat split; [constructor|simpl; lia].
    + inversion Hl as [|? c l' Hc Hl' Hp]; subst.
      change (is_null (Zpos p)) with false. cbn [deref]. rewrite Hc. cbn [of_option res_bind].
      eexists 1, _, [match k with IntList => VInt (swrap 32 (head c))
                     | FloatList => VFloat (wrap 64 (head c)) | NodeList => VNode (wrap 32 (head c)) end;
                     VList k l'].
      rewrite Hdok, Hcan by lia. split_and!; [done| | |done|by destruct k| |].
      * constructor; [|constructor; [|constructor]]; cbn [fst snd].
        -- destruct k; cbn [item_type].
           ++ rewrite <-(int_field_set 0 (head c)). constructor.
           ++ rewrite <-(wrap_id 64 (wrap 64 (head c))) at 2 by (apply wrap_range; lia). constructor.
           ++ rewrite <-(node_field_set 0 (head c)). constructor.
        -- econstructor; [done|]. rewrite (ptr_field_fits (lists m k) _ l' Hl'); [done|apply Hfit].
      * unfold tokens. cbn [map concat value_tokens list_tokens]. rewrite app_nil_r.
        by destruct k.
      * destruct k; cbn [value_ok forallb] in *; rewrite ?andb_true_r; try done.
      * unfold value_cost. simpl. destruct k; simpl; lia.
Qed.

(** ** Well-formed tries *)

(** the nodes below a child pointer *)
Definition kids (c : children) : list trie_node :=
  match c with
  | no_child | leaf_child _ => []
  | list_child cs => cs
  | hash_child _ buckets _ => concat buckets
  end.

(** a node is in the bucket of its key, and there are [2^k] buckets *)
Definition buckets_ok (t : field_type) (buckets : list (list trie_node)) : Prop :=
  (∃ k : nat, length buckets = (2 ^ k)%nat) ∧
  ∀ b cs n, buckets !! b = Some cs → n ∈ cs →
    ∃ key, hash_key t (node_data n) = Ok key ∧ b = hash_item (length buckets) key.

Inductive shape (t : field_type) : children → Prop :=
  | shape_none : shape t no_child
  | shape_list cs : shape t (list_child cs)
  | shape_hash buckets total :
      buckets_ok t buckets → total = Z.of_nat (length (concat buckets)) →
      shape t (hash_child t buckets total).

Definition node_key (t : field_type) (n : trie_node) : token := canon t (node_data n).

(** The children under a stack of field types: data of the first type, distinct
    for [match], under each the rest; no inner node is without children. *)
Inductive wf : children → list field_type → Prop :=
  | wf_leaf l : wf (leaf_child l) []
  | wf_kids c t ts :
      shape t c → kids c ≠ [] →
      Forall (λ n, data_ok t (node_data n) = true ∧
                   wf (child n) (pushed_types t (node_data n) ++ ts)) (kids c) →
      NoDup (map (node_key t) (kids c)) →
      wf c (t :: ts).

(** the same without the nonemptiness: what the root of a trie satisfies *)
Definition wf_root (c : children) (ts : list field_type) : Prop :=
  wf c ts ∨ c = no_child.

Inductive path : children → list field_type → list token → leaf_id → Prop :=
  | path_leaf l : path (leaf_child l) [] [] l
  | path_step c n t ts toks l :
      n ∈ kids c → path (child n) (pushed_types t (node_data n) ++ ts) toks l →
      path c (t :: ts) (node_key t n :: toks) l.

Lemma path_cons c t ts toks l :
  path c (t :: ts) toks l ↔
  ∃ n toks', n ∈ kids c ∧ toks = node_key t n :: toks' ∧
    path (child n) (pushed_types t (node_data n) ++ ts) toks' l.
Proof.
  split.
  - inversion 1; subst. eauto 6.
  - intros (n & toks' & Hn & -> & Hp). by econstructor.
Qed.

Lemma path_no_child ts toks l : ¬ path no_child ts toks l.
Proof. inversion 1; subst. by apply not_elem_of_nil in H0. Qed.

Lemma path_kids c c' t ts toks l :
  kids c ≡ₚ kids c' → path c (t :: ts) toks l ↔ path c' (t :: ts) toks l.
Proof. intros H. rewrite !path_cons. by setoid_rewrite H. Qed.

Lemma node_key_pushed t n f :
  data_ok t (node_data n) = true → data_ok t f = true → node_key t n = canon t f →
  pushed_types t (node_data n) = pushed_types t f.
Proof.
  unfold node_key, pushed_types. intros Hn Hf Hc.
  destruct (list_kind_of t) as [k|] eqn:Hk; [|done].
  assert (Hi : int_field (node_data n) = int_field f)
    by (destruct t; try discriminate Hk; cbn [canon] in Hc; by injection Hc).
  pose proof (list_datum t _ k Hk Hn). pose proof (list_datum t f k Hk Hf).
  rewrite !int_field_small in Hi by lia. by rewrite Hi.
Qed.

Lemma hash_item_bound k key : (hash_item (2 ^ k) key < 2 ^ k)%nat.
Proof.
  unfold hash_item. rewrite Nat2Z.inj_pow. change (Z.of_nat 2) with 2.
  rewrite Z.sub_1_r, <-Z.ones_equiv, Z.land_ones by lia.
  pose proof (Z.mod_pos_bound key (2 ^ Z.of_nat k) ltac:(lia)).
  apply Nat2Z.inj_lt. rewrite Z2Nat.id by lia. rewrite Nat2Z.inj_pow. simpl Z.of_nat at 2. lia.
Qed.

Lemma kids_insert_bucket (buckets : list (list trie_node)) b old new :
  buckets !! b = Some old →
  ∃ rest, concat buckets ≡ₚ old ++ rest ∧ concat (<[b := new]> buckets) ≡ₚ new ++ rest.
Proof.
  intros Hb. exists (concat (take b buckets) ++ concat (drop (S b) buckets)).
  assert (Hlt : (b < length buckets)%nat) by by eapply lookup_lt_Some.
  split.
  - rewrite <-(take_drop_middle buckets b old Hb) at 1. rewrite concat_app. simpl. solve_Permutation.
  - rewrite insert_take_drop by done. rewrite concat_app. simpl. solve_Permutation.
Qed.


(** ** Tables *)

Lemma bucket_insert_ok t n buckets :
  buckets_ok t buckets → data_ok t (node_data n) = true →
  ∃ buckets', bucket_insert t n buckets = Ok buckets' ∧ buckets_ok t buckets' ∧
    length buckets' = length buckets ∧ concat buckets' ≡ₚ n :: concat buckets.
Proof.
  intros [[k Hk] Hb] Hn. destruct (hash_key_total t (node_data n) Hn) as [key Hkey].
  unfold bucket_insert. rewrite Hkey. cbn [res_bind].
  set (b := hash_item (length buckets) key).
  assert (Hlt : (b < length buckets)%nat) by (unfold b; rewrite Hk; apply hash_item_bound).
  destruct (lookup_lt_is_Some_2 _ _ Hlt) as [old Hold]. rewrite Hold. cbn [of_option res_bind].
  eexists. split; [done|]. rewrite length_insert. split_and!; [split|done|].
  - rewrite length_insert. eauto.
  - intros b' cs n' Hcs Hn'. rewrite length_insert.
    destruct (decide (b' = b)) as [->|Hne].
    + rewrite list_lookup_insert_eq in Hcs by done. injection Hcs as <-.
      apply elem_of_cons in Hn' as [->|Hn']; [by exists key|by eapply Hb].
    + rewrite list_lookup_insert_ne in Hcs by done. by eapply Hb.
  - destruct (kids_insert_bucket buckets b old (n :: old) Hold) as (rest & H1 & H2).
    by rewrite H2, H1.
Qed.

Lemma buckets_insert_all_ok t ns : ∀ buckets,
  buckets_ok t buckets → Forall (λ n, data_ok t (node_data n) = true) ns →
  ∃ buckets', buckets_insert_all t ns buckets = Ok buckets' ∧ buckets_ok t buckets' ∧
    concat buckets' ≡ₚ ns ++ concat buckets.
Proof.
  induction ns as [|n ns IH]; intros buckets Hb Hns; [by exists buckets|].
  apply Forall_cons_1 in Hns as [Hn Hns]. cbn [buckets_insert_all].
  destruct (bucket_insert_ok t n buckets Hb Hn) as (b1 & -> & Hb1 & _ & Hp1). cbn [res_bind].
  destruct (IH b1 Hb1 Hns) as (b2 & -> & Hb2 & Hp2). exists b2. split_and!; [done..|].
  rewrite Hp2, Hp1. simpl. solve_Permutation.
Qed.

Lemma replicate_buckets_ok t n : (∃ k : nat, n = (2 ^ k)%nat) → buckets_ok t (replicate n []).
Proof.
  intros [k Hk]. split; [rewrite length_replicate; eauto|].
  intros b cs x Hcs Hx. apply lookup_replicate in Hcs as [-> _]. by apply not_elem_of_nil in Hx.
Qed.

Lemma concat_replicate_nil {A} n : concat (replicate n ([] : list A)) = [].
Proof. by induction n. Qed.

Lemma grow_ok c t count :
  shape t c → Forall (λ n, data_ok t (node_data n) = true) (kids c) →
  ∃ c', grow c t count = Ok c' ∧ shape t c' ∧ kids c' ≡ₚ kids c ∧ is_leaf (mk_node 0 c') = false.
Proof.
  intros Hs Hd. destruct Hs as [|cs|buckets total Hb Htot]; unfold grow.
  - eexists. split_and!; [done|constructor|done..].
  - case_match; [|eexists; split_and!; [done|constructor|done..]].
    unfold convert_hash.
    destruct (buckets_insert_all_ok t cs (replicate TRIE_HASH_BASE_BUCKETS []))
      as (b & Hi & Hb & Hp); [|done|].
    { apply replicate_buckets_ok. by exists 6%nat. }
    rewrite Hi. cbn [res_bind]. rewrite concat_replicate_nil, app_nil_r in Hp.
    eexists. split_and!; [done| |done..]. constructor; [done|by rewrite Hp].
  - case_match; [|eexists; split_and!; [done|by constructor|done..]].
    unfold expand.
    destruct (buckets_insert_all_ok t (concat buckets) (replicate (2 * length buckets) []))
      as (b & Hi & Hb' & Hp); [|done|].
    { apply replicate_buckets_ok. destruct Hb as [[k ->] _]. exists (S k). simpl. lia. }
    rewrite Hi. cbn [res_bind]. rewrite concat_replicate_nil, app_nil_r in Hp.
    eexists. split_and!; [done| |done..]. constructor; [done|by rewrite Hp].
Qed.

Lemma insert_child_ok c n t :
  shape t c → data_ok t (node_data n) = true →
  ∃ c', insert_child c n t = Ok c' ∧ shape t c' ∧ kids c' ≡ₚ n :: kids c.
Proof.
  intros Hs Hn. destruct Hs as [|cs|buckets total Hb Htot]; unfold insert_child.
  - eexists. split_and!; [done|constructor|done].
  - eexists. split_and!; [done|constructor|done].
  - destruct (bucket_insert_ok t n buckets Hb Hn) as (b & -> & Hb' & _ & Hp). cbn [res_bind].
    eexists. split_and!; [done| |done]. constructor; [done|]. rewrite Hp. simpl. lia.
Qed.

(** What [match] looks at holds every child of the field's key, and can be
    exchanged for nodes of the same data. *)
Lemma candidates_ok c t f :
  hash_float_ok → shape t c → Forall (λ n, data_ok t (node_data n) = true) (kids c) →
  data_ok t f = true →
  ∃ cs rest, candidates c t f = Ok cs ∧ kids c ≡ₚ cs ++ rest ∧
    (∀ n, n ∈ rest → node_key t n ≠ canon t f) ∧
    ∀ cs', map node_data cs' = map node_data cs → cs ≠ [] →
      ∃ c', put_candidates c t f cs' = Ok c' ∧ shape t c' ∧ kids c' ≡ₚ cs' ++ rest.
Proof.
  intros Hh Hs Hd Hf. destruct Hs as [|cs|buckets total Hb Htot]; cbn [candidates kids].
  - exists [], []. split_and!; [done..|intros n Hn; by apply not_elem_of_nil in Hn|done].
  - exists cs, []. rewrite app_nil_r. split_and!; [done..|intros n Hn; by apply not_elem_of_nil in Hn|].
    intros cs' Hcs' _. eexists. rewrite app_nil_r. split_and!; [done|constructor|done].
  - destruct (hash_key_total t f Hf) as [key Hkey]. rewrite Hkey. cbn [res_bind put_candidates].
    destruct Hb as [[k Hk] Hb].
    set (b := hash_item (length buckets) key).
    assert (Hlt : (b < length buckets)%nat) by (unfold b; rewrite Hk; apply hash_item_bound).
    destruct (lookup_lt_is_Some_2 _ _ Hlt) as [old Hold]. rewrite Hold. cbn [of_option].
    set (others := concat (take b buckets) ++ concat (drop (S b) buckets)).
    assert (Hperm : ∀ new, concat (<[b:=new]> buckets) ≡ₚ new ++ others).
    { intros new. rewrite insert_take_drop by done. rewrite concat_app. simpl. unfold others. solve_Permutation. }
    assert (Hold' : concat buckets ≡ₚ old ++ others).
    { rewrite <-Hperm. by rewrite list_insert_id. }
    exists old, others. split_and!; [done..| |].
    + intros n Hn Heq. unfold others in Hn.
      assert (∃ b' cs, b' ≠ b ∧ buckets !! b' = Some cs ∧ n ∈ cs) as (b' & cs & Hne & Hcs & Hncs).
      { apply elem_of_app in Hn as [Hn|Hn]; apply list_elem_of_In, in_concat in Hn as (cs & Hcs & Hn);
          apply list_elem_of_In in Hcs, Hn; apply list_elem_of_lookup in Hcs as [i Hi].
        - exists i, cs. apply lookup_take_Some in Hi as [Hi Hlt']. split_and!; [lia|done..].
        - exists (S b + i)%nat, cs. rewrite lookup_drop in Hi. split_and!; [lia|done..]. }
      destruct (Hb b' cs n Hcs Hncs) as (key' & Hkey' & Hb').
      apply Hne. rewrite Hb'. unfold b. f_equal.
      rewrite (hash_key_canon t _ f Hh) in Hkey'; [by rewrite Hkey in Hkey'; injection Hkey' as ->| |done|done].
      rewrite Forall_forall in Hd. apply Hd. apply list_elem_of_In, in_concat.
      exists cs. split; apply list_elem_of_In; [by eapply list_elem_of_lookup_2|done].
    + intros cs' Hcs' Hne. rewrite Hkey. cbn [res_bind]. fold b. eexists. split_and!; [done| |apply Hperm].
      constructor; [split; [rewrite length_insert; eauto|]|].
      * intros b' cs n Hcs Hn. rewrite length_insert. destruct (decide (b' = b)) as [->|Hb'].
        -- rewrite list_lookup_insert_eq in Hcs by done. injection Hcs as <-.
           assert (node_data n ∈ map node_data old) as Hin.
           { rewrite <-Hcs'. apply list_elem_of_fmap. eauto. }
           apply list_elem_of_fmap in Hin as (n' & -> & Hn'). by eapply Hb.
        -- rewrite list_lookup_insert_ne in Hcs by done. by eapply Hb.
      * rewrite Hperm, length_app. rewrite Hold', length_app in Htot.
        apply (f_equal length) in Hcs'. rewrite !length_map in Hcs'. lia.
Qed.


(** ** Insertion *)

Lemma put_candidates_same c t f cs :
  candidates c t f = Ok cs → cs ≠ [] → put_candidates c t f cs = Ok c.
Proof.
  destruct c as [|l|cs0|t0 buckets total]; cbn [candidates put_candidates]; try congruence.
  destruct (hash_key t f) as [key|e]; cbn [res_bind]; [|discriminate].
  destruct (buckets !! hash_item (length buckets) key) eqn:Hb; cbn [of_option]; [|discriminate].
  intros [= ->] _. by rewrite list_insert_id.
Qed.

Lemma scan_ok t f cs : ∀ i,
  match scan t f cs i with
  | (Some j, _) => ∃ k n, j = (i + k)%nat ∧ cs !! k = Some n ∧ field_match t (node_data n) f = true
  | (None, _) => ∀ n, n ∈ cs → field_match t (node_data n) f = false
  end.
Proof.
  induction cs as [|c cs IH]; intros i; cbn [scan].
  - intros n Hn. by apply not_elem_of_nil in Hn.
  - destruct (field_match t (node_data c) f) eqn:Hm.
    + exists O, c. split_and!; [lia|done|done].
    + specialize (IH (S i)). destruct (scan t f cs (S i)) as [[j|] n].
      * destruct IH as (k & x & -> & Hk & Hx). exists (S k), x. split_and!; [lia|done|done].
      * intros x [->|Hx]%elem_of_cons; [done|by apply IH].
Qed.

Lemma wf_step c t ts ns :
  shape t c → kids c ≡ₚ ns → ns ≠ [] →
  Forall (λ n, data_ok t (node_data n) = true ∧
               wf (child n) (pushed_types t (node_data n) ++ ts)) ns →
  NoDup (map (node_key t) ns) → wf c (t :: ts).
Proof.
  intros Hs Hp Hne Hf Hnd. constructor; [done| |by rewrite Hp|by rewrite Hp].
  intros Hk. rewrite Hk in Hp. by apply Permutation_nil_l in Hp.
Qed.

Lemma path_perm c t ts n others toks l :
  kids c ≡ₚ n :: others →
  path c (t :: ts) toks l ↔
  (∃ toks', toks = node_key t n :: toks' ∧
     path (child n) (pushed_types t (node_data n) ++ ts) toks' l) ∨
  (∃ n' toks', n' ∈ others ∧ toks = node_key t n' :: toks' ∧
     path (child n') (pushed_types t (node_data n') ++ ts) toks' l).
Proof.
  intros Hp. rewrite path_cons. setoid_rewrite Hp. setoid_rewrite elem_of_cons. naive_solver.
Qed.

Lemma new_branch_ok m l : mem_fits m → ∀ fuel vals vs,
  (sum_list_with value_cost vs < fuel)%nat →
  stack_denotes m vals vs → forallb value_ok vs = true →
  ∃ c, new_branch m fuel vals l = Ok c ∧ wf c (map snd vals) ∧
    ∀ toks l', path c (map snd vals) toks l' ↔ toks = tokens vs ∧ l' = l.
Proof.
  intros Hm. induction fuel as [|fuel IH]; intros vals vs Hfuel Hst Hok; [lia|].
  destruct Hst as [|[field t] v vals vs Hd Hst]; cbn [new_branch].
  - exists (leaf_child l). split_and!; [done|constructor|]. intros toks l'. split.
    + inversion 1; subst; done.
    + intros [-> ->]. constructor.
  - cbn [forallb] in Hok. apply andb_true_iff in Hok as [Hv Hok].
    destruct (expand_field_ok m field t v Hm Hd Hv)
      as (f & pushed & pvs & -> & Hp & Htok & Hdata & Hty & Hpok & Hcost).
    cbn [res_bind].
    destruct (IH (pushed ++ vals) (pvs ++ vs)) as (c & -> & Hwf & Hpath).
    { rewrite sum_list_with_app. cbn [sum_list_with] in Hfuel. lia. }
    { by apply Forall2_app. }
    { by rewrite forallb_app, Hpok, Hok. }
    rewrite map_app, Hty in Hwf, Hpath.
    cbn [res_bind]. eexists. split_and!; [done| |].
    + cbn [map snd]. constructor; [constructor|done|by repeat constructor|by repeat constructor; set_solver].
    + intros toks l'. cbn [map snd]. rewrite (path_perm _ t _ (mk_node f c) []) by done.
      cbn [child node_data]. setoid_rewrite Hpath. unfold tokens in *. cbn [map concat].
      rewrite Htok, map_app, concat_app. unfold node_key, tokens. cbn [node_data].
      set_solver.
Qed.

(** What [check_insert] did below a node, for the key [toks] of the tuple. *)
Definition walk_result (c : children) (ts : list field_type) (toks : list token) (l : leaf_id)
    (many : Z) (c' : children) (r : insert_result) : Prop :=
  match r with
  | r_found l' => c' = c ∧ path c ts toks l'
  | r_missing => c' = c ∧ many < 0 ∧ ∀ l', ¬ path c ts toks l'
  | r_new =>
      0 <= many ∧ wf c' ts ∧ (∀ l', ¬ path c ts toks l') ∧
      ∀ toks' l', path c' ts toks' l' ↔ path c ts toks' l' ∨ (toks' = toks ∧ l' = l)
  end.


Lemma shape_not_leaf t c l : shape t c → c ≠ leaf_child l.
Proof. by destruct 1. Qed.

Lemma check_insert_walk_step m fuel c field t vals l many :
  shape t c →
  check_insert_walk m (S fuel) c ((field, t) :: vals) l many =
  let* r := expand_field m field t in
  let '(f, pushed) := r in
  let* r := match_children c t f in
  let '(cs, found, count) := r in
  match found with
  | Some i =>
      let* n := of_option (cs !! i) in
      let* r := check_insert_walk m fuel (child n) (pushed ++ vals) l many in
      let '(c', result) := r in
      let* c := put_candidates c t f (<[i := mk_node (node_data n) c']> cs) in
      Ok (c, result)
  | None =>
      if many <? 0 then Ok (c, r_missing)
      else
        let* c := grow c t (count + 1) in
        let* branch := new_branch m fuel (pushed ++ vals) l in
        let* c := insert_child c (mk_node f branch) t in
        Ok (c, r_new)
  end.
Proof. by destruct 1. Qed.

Lemma shape_of_root c t ts : wf_root c (t :: ts) → shape t c.
Proof. intros [H | ->]; [by inversion H|constructor]. Qed.

Lemma wf_root_kids c t ts :
  wf_root c (t :: ts) →
  Forall (λ n, data_ok t (node_data n) = true ∧
               wf (child n) (pushed_types t (node_data n) ++ ts)) (kids c) ∧
  NoDup (map (node_key t) (kids c)).
Proof. intros [H | ->]; [by inversion H|]. by repeat constructor. Qed.

(** [match] decides whether a child has the key, and finds it *)
Lemma match_children_ok c t ts f :
  hash_float_ok → wf_root c (t :: ts) → data_ok t f = true →
  ∃ cs found count, match_children c t f = Ok (cs, found, count) ∧
    match found with
    | Some i => ∃ n others, cs !! i = Some n ∧ node_key t n = canon t f ∧
        kids c ≡ₚ n :: others ∧ put_candidates c t f cs = Ok c ∧
        ∀ x, node_data x = node_data n →
          ∃ c', put_candidates c t f (<[i := x]> cs) = Ok c' ∧ shape t c' ∧ kids c' ≡ₚ x :: others
    | None => ∀ n, n ∈ kids c → node_key t n ≠ canon t f
    end.
Proof.
  intros Hh Hwf Hf. pose proof (shape_of_root _ _ _ Hwf) as Hs.
  destruct (wf_root_kids _ _ _ Hwf) as [Hkids _].
  assert (Hdata : Forall (λ n, data_ok t (node_data n) = true) (kids c))
    by (eapply Forall_impl; [exact Hkids|intros n [H _]; exact H]).
  destruct (candidates_ok c t f Hh Hs Hdata Hf) as (cs & rest & Hcand & Hp & Hrest & Hput).
  assert (Hm : ∀ n, n ∈ cs → field_match t (node_data n) f = true ↔ node_key t n = canon t f).
  { intros n Hn. apply field_match_canon; [|done]. rewrite Forall_forall in Hdata. apply Hdata.
    rewrite Hp. set_solver. }
  pose proof (scan_ok t f cs 0) as Hscan. unfold match_children. rewrite Hcand. cbn [res_bind].
  destruct (scan t f cs 0) as [found count] eqn:Hsc.
  exists cs, found, count. split.
  { rewrite (data_ok_known t f Hf). by destruct cs. }
  destruct found as [i|].
  - destruct Hscan as (k & n & -> & Hk & Hmatch). simpl.
    assert (Hn : n ∈ cs) by by eapply list_elem_of_lookup_2.
    exists n, (delete k cs ++ rest). split_and!; [done|by apply Hm| | |].
    + rewrite Hp. rewrite (delete_Permutation cs k n Hk) at 1. done.
    + apply put_candidates_same; [done|]. by intros ->.
    + intros x Hx. destruct (Hput (<[k := x]> cs)) as (c' & Hc' & Hs' & Hp').
      * rewrite list_fmap_insert. rewrite Hx. apply list_insert_id. by rewrite list_lookup_fmap, Hk.
      * by intros ->.
      * exists c'. split_and!; [done..|]. rewrite Hp'.
        rewrite (delete_Permutation (<[k := x]> cs) k x) by
          (apply list_lookup_insert_eq; by eapply lookup_lt_Some).
        rewrite !delete_take_drop, take_insert_ge, drop_insert_lt by lia. done.
  - intros n Hn. rewrite Hp in Hn. apply elem_of_app in Hn as [Hn|Hn]; [|by apply Hrest].
    rewrite <-(Hm n Hn). by rewrite (Hscan n Hn).
Qed.


(** A child was exchanged for one with a changed subtree. *)
Lemma walk_found c c' t ts n c1 others toks l many r :
  wf_root c (t :: ts) →
  kids c ≡ₚ n :: others → shape t c' → kids c' ≡ₚ mk_node (node_data n) c1 :: others →
  (c1 = child n → c' = c) →
  walk_result (child n) (pushed_types t (node_data n) ++ ts) toks l many c1 r →
  walk_result c (t :: ts) (node_key t n :: toks) l many c' r.
Proof.
  intros Hwf Hp Hs Hp' Hsame Hr. destruct (wf_root_kids _ _ _ Hwf) as [Hkids Hnd].
  rewrite Hp in Hkids, Hnd. apply Forall_cons_1 in Hkids as [[Hdn Hwn] Hko].
  cbn [map] in Hnd. apply NoDup_cons in Hnd as [Hnk Hnd].
  assert (Huniq : ∀ l', path c (t :: ts) (node_key t n :: toks) l' ↔
                        path (child n) (pushed_types t (node_data n) ++ ts) toks l').
  { intros l'. rewrite (path_perm _ _ _ _ _ _ _ Hp). split; [|eauto].
    intros [(toks' & [= ->] & H)|(n' & toks' & Hn' & [= Heq ->] & _)]; [done|].
    exfalso. apply Hnk. rewrite Heq. by apply list_elem_of_In, in_map, list_elem_of_In. }
  destruct r as [l'| |]; cbn [walk_result] in *.
  - destruct Hr as [Hc Hr]. split; [by apply Hsame|by apply Huniq].
  - destruct Hr as (Hc & Hm & Hr). split_and!; [by apply Hsame|done|].
    intros l'. by rewrite Huniq.
  - destruct Hr as (Hm & Hw & Hr & Hnew). split_and!; [done| |intros l'; by rewrite Huniq|].
    + apply (wf_step _ _ _ (mk_node (node_data n) c1 :: others) Hs Hp'); [done| |].
      * constructor; [done|exact Hko].
      * by apply NoDup_cons.
    + intros toks' l'.
      rewrite (path_perm c _ _ _ _ _ _ Hp), (path_perm c' _ _ _ _ _ _ Hp').
      cbn [child node_data]. setoid_rewrite Hnew. unfold node_key at 1. cbn [node_data].
      fold (node_key t n). naive_solver.
Qed.

(** No child had the key: a branch was put beside the others. *)
Lemma walk_new c c0 c' t ts f branch toks l many :
  wf_root c (t :: ts) → 0 <= many → data_ok t f = true →
  (∀ n, n ∈ kids c → node_key t n ≠ canon t f) →
  kids c0 ≡ₚ kids c → shape t c' → kids c' ≡ₚ mk_node f branch :: kids c0 →
  wf branch (pushed_types t f ++ ts) →
  (∀ toks' l', path branch (pushed_types t f ++ ts) toks' l' ↔ toks' = toks ∧ l' = l) →
  walk_result c (t :: ts) (canon t f :: toks) l many c' r_new.
Proof.
  intros Hwf Hm Hf Hno Hp0 Hs Hp Hwb Hpb. destruct (wf_root_kids _ _ _ Hwf) as [Hkids Hnd].
  rewrite Hp0 in Hp. cbn [walk_result]. split_and!; [done| | |].
  - apply (wf_step _ _ _ (mk_node f branch :: kids c) Hs Hp); [done|by constructor|].
    cbn [map]. apply NoDup_cons. split; [|done].
    intros (n & Heq & Hn)%list_elem_of_fmap. apply (Hno n Hn). by rewrite <-Heq.
  - intros l'. rewrite path_cons. intros (n & toks' & Hn & [= Heq _] & _). by apply (Hno n Hn).
  - intros toks' l'. rewrite (path_perm c' _ _ _ _ _ _ Hp). cbn [child node_data].
    setoid_rewrite Hpb. rewrite (path_cons c). unfold node_key at 1. cbn [node_data].
    naive_solver.
Qed.

Lemma check_insert_walk_ok m l many : hash_float_ok → mem_fits m → ∀ fuel c vals vs,
  (sum_list_with value_cost vs < fuel)%nat →
  wf c (map snd vals) ∨ c = no_child ∧ vals ≠ [] →
  stack_denotes m vals vs → forallb value_ok vs = true →
  ∃ c' r, check_insert_walk m fuel c vals l many = Ok (c', r) ∧
    walk_result c (map snd vals) (tokens vs) l many c' r.
Proof.
  intros Hh Hm. induction fuel as [|fuel IH]; intros c vals vs Hfuel Hwf Hst Hok; [lia|].
  destruct Hst as [|[field t] v vals vs Hd Hst].
  { destruct Hwf as [Hwf|[_ Hne]]; [|done]. cbn [map] in Hwf.
    inversion Hwf as [l' E|]; subst. cbn [check_insert_walk].
    exists (leaf_child l'), (r_found l'). split; [done|]. split; [done|constructor]. }
  assert (Hr : wf_root c (t :: map snd vals)) by (destruct Hwf as [Hwf|[Hwf _]]; [by left|by right]).
  rewrite check_insert_walk_step by by eapply shape_of_root.
  cbn [forallb] in Hok. apply andb_true_iff in Hok as [Hv Hok].
  destruct (expand_field_ok m field t v Hm Hd Hv)
    as (f & pushed & pvs & -> & Hp & Htok & Hdata & Hty & Hpok & Hcost).
  cbn [res_bind map snd]. unfold tokens. cbn [map concat]. fold (tokens vs). rewrite Htok.
  cbn [app].
  assert (Htl : tokens pvs ++ tokens vs = tokens (pvs ++ vs))
    by (unfold tokens; by rewrite map_app, concat_app).
  rewrite Htl.
  assert (Hfuel' : (sum_list_with value_cost (pvs ++ vs) < fuel)%nat)
    by (rewrite sum_list_with_app; cbn [sum_list_with] in Hfuel; lia).
  assert (Hst' : stack_denotes m (pushed ++ vals) (pvs ++ vs)) by (by apply Forall2_app).
  assert (Hok' : forallb value_ok (pvs ++ vs) = true) by (by rewrite forallb_app, Hpok, Hok).
  assert (Htys : map snd (pushed ++ vals) = pushed_types t f ++ map snd vals)
    by (by rewrite map_app, Hty).
  destruct (match_children_ok c t (map snd vals) f Hh Hr Hdata) as (cs & found & count & -> & Hf).
  cbn [res_bind]. destruct found as [i|].
  - destruct Hf as (n & others & Hi & Hk & Hperm & Hsame & Hput). rewrite Hi. cbn [of_option res_bind].
    destruct (wf_root_kids _ _ _ Hr) as [Hkids _]. rewrite Hperm in Hkids.
    apply Forall_cons_1 in Hkids as [[Hdn Hwn] _].
    assert (Hpt : pushed_types t (node_data n) = pushed_types t f) by (by apply node_key_pushed).
    destruct (IH (child n) (pushed ++ vals) (pvs ++ vs)) as (c1 & r & -> & Hres); [done| |done..|].
    { left. by rewrite Htys, <-Hpt. }
    cbn [res_bind]. destruct (Hput (mk_node (node_data n) c1)) as (c' & Hc' & Hs' & Hp'); [done|].
    rewrite Hc'. cbn [res_bind]. exists c', r. split; [done|].
    rewrite <-Hk. eapply walk_found; [done..| |].
    + intros ->. destruct n as [d cn]. cbn [node_data child] in *.
      rewrite list_insert_id in Hc' by done. congruence.
    + by rewrite Hpt, <-Htys.
  - destruct (many <? 0) eqn:Hmany.
    + exists c, r_missing. split; [done|]. cbn [walk_result]. split_and!; [done|lia|].
      intros l'. rewrite path_cons. intros (n & toks' & Hn & [= Heq _] & _). by apply (Hf n Hn).
    + destruct (wf_root_kids _ _ _ Hr) as [Hkids _].
      destruct (grow_ok c t (count + 1)) as (c0 & -> & Hs0 & Hp0 & _).
      { by eapply shape_of_root. }
      { eapply Forall_impl; [exact Hkids|intros n [H _]; exact H]. }
      cbn [res_bind].
      destruct (new_branch_ok m l Hm fuel (pushed ++ vals) (pvs ++ vs)) as (b & -> & Hwb & Hpb);
        [done..|]. cbn [res_bind]. rewrite Htys in Hwb, Hpb.
      destruct (insert_child_ok c0 (mk_node f b) t Hs0 Hdata) as (c' & -> & Hs' & Hp').
      cbn [res_bind]. exists c', r_new. split; [done|].
      eapply walk_new; try done. lia.
Qed.


(** ** Deletion *)

Section children_ind.
Context (P : children → Prop) (Hno : P no_child) (Hleaf : ∀ l, P (leaf_child l))
  (Hlist : ∀ cs, Forall (λ n, P (child n)) cs → P (list_child cs))
  (Hhash : ∀ t bs total, Forall (λ n, P (child n)) (concat bs) → P (hash_child t bs total)).

Fixpoint children_ind' (c : children) : P c :=
  let fix go (cs : list trie_node) : Forall (λ n, P (child n)) cs :=
    match cs with
    | [] => Forall_nil_2 _
    | mk_node d c :: cs => Forall_cons_2 _ (mk_node d c) cs (children_ind' c) (go cs)
    end in
  let fix gos (bs : list (list trie_node)) : Forall (λ n, P (child n)) (concat bs) :=
    match bs with
    | [] => Forall_nil_2 _
    | cs :: bs => Forall_app_2 _ cs (concat bs) (go cs) (gos bs)
    end in
  match c with
  | no_child => Hno
  | leaf_child l => Hleaf l
  | list_child cs => Hlist cs (go cs)
  | hash_child t bs total => Hhash t bs total (gos bs)
  end.
End children_ind.

Lemma delete_in_none f cs :
  (∀ n, n ∈ cs → f (child n) = None) → delete_in f cs = None.
Proof.
  induction cs as [|[d c] cs IH]; intros H; [done|]. cbn [delete_in].
  rewrite (H (mk_node d c) ltac:(left) : f c = None). rewrite IH; [done|]. intros n Hn. apply H. by right.
Qed.

Lemma delete_in_buckets_none f bs :
  (∀ n, n ∈ concat bs → f (child n) = None) → delete_in_buckets f bs = None.
Proof.
  induction bs as [|cs bs IH]; intros H; [done|]. cbn [delete_in_buckets].
  rewrite delete_in_none, IH; [done| |]; intros n Hn; apply H; cbn [concat]; set_solver.
Qed.

(** what remains of a node whose subtree became [c] *)
Definition remains (d : tuple_field) (c : children) : list trie_node :=
  match c with no_child => [] | _ => [mk_node d c] end.

Lemma delete_in_some f pre n post c' :
  (∀ x, x ∈ pre → f (child x) = None) → f (child n) = Some c' →
  delete_in f (pre ++ n :: post) =
    Some (pre ++ remains (node_data n) c' ++ post,
          match c' with no_child => Some (length pre) | _ => None end).
Proof.
  intros Hpre Hn. induction pre as [|[d c] pre IH]; cbn [app delete_in].
  - destruct n as [d c]. cbn [child node_data] in *. rewrite Hn. by destruct c'.
  - rewrite (Hpre (mk_node d c) ltac:(left) : f c = None). rewrite IH by (intros x Hx; apply Hpre; by right).
    by destruct c'.
Qed.

Lemma delete_in_buckets_some f bpre cs bpost r :
  (∀ x, x ∈ concat bpre → f (child x) = None) → delete_in f cs = Some r →
  delete_in_buckets f (bpre ++ cs :: bpost) = Some (bpre ++ r.1 :: bpost, r.2).
Proof.
  intros Hpre Hcs. induction bpre as [|b bpre IH]; cbn [app delete_in_buckets].
  - rewrite Hcs. by destruct r.
  - rewrite delete_in_none by (intros x Hx; apply Hpre; cbn [concat]; set_solver).
    rewrite IH; [done|]. intros x Hx. apply Hpre. cbn [concat]. set_solver.
Qed.


(** The node [n] became [c1] (or went) beside the others. *)
Lemma delete_leaf_node l c t n c1 :
  shape t c → n ∈ kids c → delete_leaf l (child n) = Some c1 →
  (∀ x, x ∈ kids c → x = n ∨ delete_leaf l (child x) = None) →
  ∃ c' others, delete_leaf l c = Some c' ∧ kids c ≡ₚ n :: others ∧
    (c' = no_child ∧ remains (node_data n) c1 ++ others = [] ∨
     shape t c' ∧ kids c' ≡ₚ remains (node_data n) c1 ++ others ∧ kids c' ≠ []).
Proof.
  intros Hs Hn Hdel Honly.
  assert (Hfirst : ∀ cs, n ∈ cs → (∀ x, x ∈ cs → x ∈ kids c) → ∃ pre post, cs = pre ++ n :: post ∧
            ∀ x, x ∈ pre → delete_leaf l (child x) = None).
  { induction cs as [|x cs IH]; intros Hin Hsub; [by apply not_elem_of_nil in Hin|].
    destruct (delete_leaf l (child x)) eqn:Hx.
    - destruct (Honly x) as [->|Ho]; [apply Hsub; by left| |congruence].
      exists [], cs. split; [done|]. intros y Hy. by apply not_elem_of_nil in Hy.
    - destruct IH as (pre & post & -> & Hpre).
      + apply elem_of_cons in Hin as [->|Hin]; [congruence|done].
      + intros y Hy. apply Hsub. by right.
      + exists (x :: pre), post. split; [done|]. intros y [->|Hy]%elem_of_cons; auto. }
  destruct Hs as [|cs|bs total Hb Htot]; cbn [kids] in *; [by apply not_elem_of_nil in Hn| |].
  - destruct (Hfirst cs Hn) as (pre & post & -> & Hpre); [done|]. cbn [delete_leaf].
    rewrite (delete_in_some _ pre n post c1 Hpre Hdel).
    exists (shrink_list (pre ++ remains (node_data n) c1 ++ post)), (pre ++ post).
    split_and!; [done|solve_Permutation|].
    destruct (pre ++ remains (node_data n) c1 ++ post) eqn:E; cbn [shrink_list].
    + left. split; [done|]. apply app_eq_nil in E as [-> E]. by apply app_eq_nil in E as [-> ->].
    + right. rewrite <-E. split_and!; [constructor| |by rewrite E]. cbn [kids]. solve_Permutation.
  - apply list_elem_of_In, in_concat in Hn as (cs & Hcs & Hn). apply list_elem_of_In in Hn.
    (* the first bucket that holds the leaf *)
    assert (∃ bpre cs bpost, bs = bpre ++ cs :: bpost ∧ n ∈ cs ∧
              ∀ x, x ∈ concat bpre → delete_leaf l (child x) = None)
      as (bpre & b & bpost & -> & Hnb & Hpre).
    { clear Htot Hb Hfirst. revert Honly.
      induction bs as [|b bs IH]; intros Honly; [done|].
      destruct (decide (Exists (λ x, is_Some (delete_leaf l (child x))) b)) as [He|He].
      - exists [], b, bs. apply Exists_exists in He as (x & Hx & [y Hy]).
        destruct (Honly x) as [->|Ho]; [cbn [concat]; set_solver| |congruence].
        split_and!; [done..|]. intros z Hz. by apply not_elem_of_nil in Hz.
      - assert (Hnone : ∀ x, x ∈ b → delete_leaf l (child x) = None).
        { intros x Hx. apply eq_None_not_Some. intros Hsome. apply He, Exists_exists. eauto. }
        destruct Hcs as [->|Hcs]; [rewrite (Hnone n Hn) in Hdel; discriminate|].
        destruct (IH Hcs) as (bpre & b' & bpost & -> & Hnb' & Hpre).
        { intros x Hx. apply Honly. cbn [concat]. set_solver. }
        exists (b :: bpre), b', bpost. split_and!; [done..|]. cbn [concat].
        intros x [Hx|Hx]%elem_of_app; auto. }
    destruct (Hfirst b Hnb) as (pre & post & -> & Hpre').
    { intros x Hx. rewrite concat_app. cbn [concat]. set_solver. }
    cbn [delete_leaf].
    rewrite (delete_in_buckets_some _ _ _ _ _ Hpre (delete_in_some _ pre n post c1 Hpre' Hdel)).
    cbn [fst snd].
    set (others := concat bpre ++ pre ++ post ++ concat bpost).
    assert (Hp : concat (bpre ++ (pre ++ n :: post) :: bpost) ≡ₚ n :: others).
    { rewrite concat_app. cbn [concat]. unfold others. solve_Permutation. }
    assert (Hp' : concat (bpre ++ (pre ++ remains (node_data n) c1 ++ post) :: bpost)
              ≡ₚ remains (node_data n) c1 ++ others).
    { rewrite concat_app. cbn [concat]. unfold others. solve_Permutation. }
    eexists _, others. split_and!; [done|exact Hp|].
    rewrite Hp in Htot. cbn [length] in Htot.
    assert (Hbok : buckets_ok t (bpre ++ (pre ++ remains (node_data n) c1 ++ post) :: bpost)).
    { destruct Hb as [[k Hk] Hb]. rewrite length_app in Hk, Hb. cbn [length] in Hk, Hb.
      split; [exists k; rewrite length_app; cbn [length]; lia|].
      intros i cs' x Hi Hx. rewrite length_app. cbn [length].
      apply lookup_app_Some in Hi as [Hi|[Hle Hi]].
      - apply (Hb i cs'); [by apply lookup_app_l_Some|done].
      - destruct (i - length bpre)%nat as [|j] eqn:Hj; cbn in Hi.
        + injection Hi as <-.
          assert (∃ y, y ∈ pre ++ n :: post ∧ node_data y = node_data x) as (y & Hy & <-).
          { apply elem_of_app in Hx as [Hx|Hx]; [exists x; set_solver|].
            apply elem_of_app in Hx as [Hx|Hx]; [|exists x; set_solver].
            exists n. split; [set_solver|]. destruct c1; cbn [remains] in Hx; set_solver. }
          apply (Hb i (pre ++ n :: post)); [|done].
          rewrite lookup_app_r by lia. by rewrite Hj.
        + apply (Hb i cs'); [|done]. rewrite lookup_app_r by lia. by rewrite Hj. }
    destruct c1 eqn:Hc1; cbn [remains app] in Hp', Hbok |- *.
    1: { unfold shrink_hash. destruct (length pre) as [|j] eqn:Hpos.
      - case_match eqn:Ht.
        + left. split; [done|]. destruct others; [done|cbn [length] in Htot; lia].
        + right. split_and!; [constructor; [done|rewrite Hp'; lia]|done|].
          intros E. cbn [kids] in E. rewrite E in Hp'.
          apply Permutation_length in Hp'. cbn [length] in Hp'. lia.
      - right. split_and!; [constructor; [done|rewrite Hp'; lia]|done|].
        intros E. cbn [kids] in E. rewrite E in Hp'. apply Permutation_nil_l in Hp'.
        apply (f_equal length) in Hp'. unfold others in Hp'. rewrite !length_app in Hp'.
        cbn [length] in Hp'. lia. }
    all: cbn [shrink_hash]; right; split_and!; [constructor; [done|rewrite Hp'; cbn [length]; lia]|done|];
      intros E; cbn [kids] in E; rewrite E in Hp'; by apply Permutation_nil_l in Hp'.
Qed.


(** the leaf [l] is reached by one key at most *)
Definition leaf_unique (c : children) (ts : list field_type) (l : leaf_id) : Prop :=
  ∀ toks1 toks2, path c ts toks1 l → path c ts toks2 l → toks1 = toks2.

Lemma delete_in_inv f cs r :
  delete_in f cs = Some r → ∃ n c1, n ∈ cs ∧ f (child n) = Some c1.
Proof.
  revert r. induction cs as [|[d c] cs IH]; intros r; cbn [delete_in]; [discriminate|].
  destruct (f c) as [c1|] eqn:Hf; [intros _; exists (mk_node d c), c1; split; [by left|done]|].
  destruct (delete_in f cs) as [r'|]; [|discriminate]. intros _.
  destruct (IH r' eq_refl) as (n & c1 & Hn & Hc1). exists n, c1. split; [by right|done].
Qed.

Lemma delete_in_buckets_inv f bs r :
  delete_in_buckets f bs = Some r → ∃ n c1, n ∈ concat bs ∧ f (child n) = Some c1.
Proof.
  revert r. induction bs as [|cs bs IH]; intros r; cbn [delete_in_buckets]; [discriminate|].
  cbn [concat]. destruct (delete_in f cs) as [r'|] eqn:Hcs.
  - intros _. apply delete_in_inv in Hcs as (n & c1 & Hn & Hc1). exists n, c1. set_solver.
  - destruct (delete_in_buckets f bs) as [r'|]; [|discriminate]. intros _.
    destruct (IH r' eq_refl) as (n & c1 & Hn & Hc1). exists n, c1. set_solver.
Qed.

Lemma delete_leaf_some l c : ∀ ts c',
  wf c ts → delete_leaf l c = Some c' → ∃ toks, path c ts toks l.
Proof.
  assert (Hstep : ∀ c0 n c1 ts, Forall (λ n, ∀ ts c', wf (child n) ts →
      delete_leaf l (child n) = Some c' → ∃ toks, path (child n) ts toks l) (kids c0) →
    wf c0 ts → n ∈ kids c0 → delete_leaf l (child n) = Some c1 → ∃ toks, path c0 ts toks l).
  { intros c0 n c1 ts IH Hwf Hn Hc1. inversion Hwf as [|? t ts' Hs Hne Hk Hnd]; subst.
    - by apply not_elem_of_nil in Hn.
    - rewrite Forall_forall in IH, Hk.
      destruct (IH n Hn (pushed_types t (node_data n) ++ ts') c1) as [toks Hp]; [by apply Hk|done|].
      exists (node_key t n :: toks). by econstructor. }
  induction c as [|l'|cs IH|t bs total IH] using children_ind'; intros ts c' Hwf;
    cbn [delete_leaf]; [discriminate| | |].
  - inversion Hwf; subst; [|by inversion H]. case_decide; [|done]. subst. intros _.
    exists []. constructor.
  - destruct (delete_in (delete_leaf l) cs) as [r|] eqn:Hd; [|discriminate]. intros _.
    apply delete_in_inv in Hd as (n & c1 & Hn & Hc1).
    by apply (Hstep (list_child cs) n c1 ts IH Hwf).
  - destruct (delete_in_buckets (delete_leaf l) bs) as [r|] eqn:Hd; [|discriminate]. intros _.
    apply delete_in_buckets_inv in Hd as (n & c1 & Hn & Hc1).
    by apply (Hstep (hash_child t bs total) n c1 ts IH Hwf).
Qed.

Lemma remains_wf t ts n c1 :
  data_ok t (node_data n) = true → wf_root c1 (pushed_types t (node_data n) ++ ts) →
  Forall (λ n, data_ok t (node_data n) = true ∧
               wf (child n) (pushed_types t (node_data n) ++ ts)) (remains (node_data n) c1).
Proof.
  intros Hd Hw. destruct c1; cbn [remains]; constructor; try constructor; try done;
    by destruct Hw as [Hw | Hw].
Qed.

(** Removing a leaf takes away its key and no other, and prunes the nodes that
    led to it alone. *)
Lemma delete_leaf_ok c ts toks l :
  path c ts toks l → wf c ts → leaf_unique c ts l →
  ∃ c', delete_leaf l c = Some c' ∧ wf_root c' ts ∧
    ∀ toks' l', path c' ts toks' l' ↔ path c ts toks' l' ∧ l' ≠ l.
Proof.
  induction 1 as [l|c n t ts toks l Hn Hp IH]; intros Hwf Hu.
  - exists no_child. cbn [delete_leaf]. rewrite decide_True by done.
    split_and!; [done|by right|]. intros toks' l'. split; [by inversion 1|].
    intros [H Hne]. inversion H; subst; done.
  - inversion Hwf as [|? ? ? Hs Hne Hk Hnd]; subst.
    assert (Hk' := Hk). rewrite Forall_forall in Hk'.
    destruct IH as (c1 & Hc1 & Hw1 & Hp1).
    { by apply Hk'. }
    { intros t1 t2 H1 H2. cut (node_key t n :: t1 = node_key t n :: t2); [congruence|].
      apply Hu; by econstructor. }
    destruct (delete_leaf_node l c t n c1 Hs Hn Hc1) as (c' & others & Hdel & Hperm & Hc').
    { intros x Hx. destruct (delete_leaf l (child x)) eqn:Hdx; [|by right]. left.
      destruct (delete_leaf_some l (child x) (pushed_types t (node_data x) ++ ts) c0)
        as [toks' Hx']; [by apply Hk'|done|].
      assert (Heq : node_key t x :: toks' = node_key t n :: toks) by (apply Hu; by econstructor).
      injection Heq as Heq _.
      apply list_elem_of_lookup in Hx as [i Hi]. apply list_elem_of_lookup in Hn as [j Hj].
      assert (i = j) as ->; [|congruence].
      apply (NoDup_lookup _ _ _ (node_key t x) Hnd); rewrite list_lookup_fmap; [by rewrite Hi|].
      by rewrite Hj, Heq. }
    exists c'. split; [done|].
    rewrite Hperm in Hk, Hnd. apply Forall_cons_1 in Hk as [[Hdn Hwn] Hko].
    cbn [map] in Hnd. apply NoDup_cons in Hnd as [Hnk Hnd].
    assert (Hkids : kids c' ≡ₚ remains (node_data n) c1 ++ others).
    { destruct Hc' as [[-> E]|(_ & E & _)]; [by rewrite E|exact E]. }
    split.
    + destruct Hc' as [[-> _]|(Hs' & _ & Hne')]; [by right|]. left.
      assert (Hr : map (node_key t) (remains (node_data n) c1) ⊆ [node_key t n]).
      { destruct c1; cbn [remains map]; unfold node_key; set_solver. }
      apply (wf_step _ _ _ _ Hs' Hkids).
      * intros E. rewrite E in Hkids. symmetry in Hkids. by apply Permutation_nil_l in Hkids.
      * apply Forall_app. split; [exact (remains_wf t ts n c1 Hdn Hw1)|exact Hko].
      * rewrite map_app. apply NoDup_app. split_and!; [| |exact Hnd].
        -- destruct c1; cbn [remains map]; try apply NoDup_nil_2; apply NoDup_singleton.
        -- intros x Hx%Hr. apply list_elem_of_singleton in Hx as ->. exact Hnk.
    + intros toks' l'. rewrite (path_perm _ _ _ _ _ _ _ Hperm), path_cons.
      setoid_rewrite Hkids. setoid_rewrite elem_of_app.
      assert (Hrem : ∀ x, x ∈ remains (node_data n) c1 ↔ x = mk_node (node_data n) c1 ∧ c1 ≠ no_child)
        by (intros x; destruct c1; cbn [remains]; set_solver).
      setoid_rewrite Hrem.
      assert (Hother : ∀ x t', x ∈ others →
        ¬ path (child x) (pushed_types t (node_data x) ++ ts) t' l).
      { intros x t' Hx Hx'. apply Hnk.
        assert (Heq : node_key t x :: t' = node_key t n :: toks).
        { apply Hu; [|by econstructor]. econstructor; [|done]. rewrite Hperm. by right. }
        injection Heq as <- _. apply list_elem_of_fmap. eauto. }
      split.
      * intros (x & t' & [[-> Hne1]|Hx] & -> & Hx').
        -- apply Hp1 in Hx' as [Hx' Hl]. split; [|done]. left. eauto.
        -- split; [right; eauto|]. intros ->. by apply (Hother x t').
      * intros [[(t' & -> & Hx')|(x & t' & Hx & -> & Hx')] Hl].
        -- exists (mk_node (node_data n) c1), t'. cbn [child node_data].
           assert (Hin : path c1 (pushed_types t (node_data n) ++ ts) t' l') by by apply Hp1.
           split_and!; [left; split; [done|]|done|done]. intros ->. by apply path_no_child in Hin.
        -- exists x, t'. auto.
Qed.

End Hash.

(** ** Keys decide tuple equality *)

Definition value_type (v : value) (t : field_type) : Prop :=
  match v with
  | VInt _ => t = FIELD_INT
  | VFloat _ => t = FIELD_FLOAT
  | VNode _ => t = FIELD_NODE
  | VList k _ => list_kind_of t = Some k
  end.

(** list elements as the heads of cells hold them, without NaN *)
Definition elem_ok (k : list_kind) (h : Z) : bool :=
  (0 <=? h) && (h <? 2 ^ (8 * Z.of_nat (elem_size k))) &&
  match k with FloatList => negb (is_nan_bits (wrap 64 h)) | _ => true end.

Lemma swrap_inj a b : 0 <= a < 2 ^ 32 → 0 <= b < 2 ^ 32 → swrap 32 a = swrap 32 b → a = b.
Proof.
  intros Ha Hb H. apply (f_equal (wrap 32)) in H. rewrite !wrap_swrap in H by lia.
  by rewrite (wrap_id 32 a Ha), (wrap_id 32 b Hb) in H.
Qed.

Lemma elem_token_eqb k a b :
  elem_ok k a = true → elem_ok k b = true → elem_token k a = elem_token k b ↔ elem_eqb k a b = true.
Proof.
  unfold elem_ok. intros Ha Hb. destruct k; cbn [elem_token elem_eqb elem_size] in *;
    change (2 ^ (8 * Z.of_nat 4)) with (2 ^ 32) in *; change (2 ^ (8 * Z.of_nat 8)) with (2 ^ 64) in *.
  - rewrite Z.eqb_eq. split; [|by intros ->]. intros [= H]. apply swrap_inj; [lia..|done].
  - apply andb_true_iff in Ha as [Ha Hna], Hb as [Hb Hnb].
    rewrite !wrap_id in * by lia. rewrite SFeqb_key; [done|by apply is_nan_bits_false, negb_true_iff..].
  - rewrite !wrap_id by lia. rewrite Z.eqb_eq. split; [by intros [= H]|by intros ->].
Qed.

Lemma list_tokens_eq k l l' r r' :
  forallb (elem_ok k) l = true → forallb (elem_ok k) l' = true →
  list_tokens k l ++ r = list_tokens k l' ++ r' ↔
  ((length l =? length l')%nat && forallb (λ '(a, b), elem_eqb k a b) (zip l l') = true) ∧ r = r'.
Proof.
  revert l'. induction l as [|h l IH]; intros [|h' l']; cbn [forallb list_tokens app length zip zip_with Nat.eqb andb];
    intros Hl Hl'.
  - split; [intros [= ->]; done|by intros [_ ->]].
  - split; [done|by intros [? _]].
  - split; [done|by intros [? _]].
  - apply andb_true_iff in Hl as [Hh Hl], Hl' as [Hh' Hl'].
    rewrite andb_true_iff, andb_true_iff, <-(elem_token_eqb k h h' Hh Hh').
    specialize (IH l' Hl Hl'). rewrite andb_true_iff in IH. split.
    + intros H. injection H as He H. apply IH in H. tauto.
    + intros [(Hlen & He & Hall) Hr]. rewrite He. do 2 f_equal. apply IH. tauto.
Qed.

Lemma token_cons_eq (x y : token) r r' : x :: r = y :: r' ↔ x = y ∧ r = r'.
Proof. split; [by intros [= -> ->]|by intros [-> ->]]. Qed.

Definition value_key_ok (v : value) : bool :=
  value_ok v && match v with VList k l => forallb (elem_ok k) l | _ => true end.

Lemma value_tokens_eq v w t r r' :
  value_type v t → value_type w t → value_key_ok v = true → value_key_ok w = true →
  value_tokens v ++ r = value_tokens w ++ r' ↔ value_eqb v w = true ∧ r = r'.
Proof.
  unfold value_key_ok. intros Hv Hw [Hvo Hvl]%andb_true_iff [Hwo Hwl]%andb_true_iff.
  destruct v as [a|a|a|k l], w as [b|b|b|k' l']; cbn [value_type] in *; subst; try discriminate;
    cbn [value_tokens value_eqb app].
  - rewrite Z.eqb_eq. split; [by intros [= -> ->]|by intros [-> ->]].
  - cbn [value_ok] in *. apply negb_true_iff in Hvo, Hwo.
    rewrite SFeqb_key by (by apply is_nan_bits_false). apply token_cons_eq.
  - rewrite Z.eqb_eq. split; [by intros [= -> ->]|by intros [-> ->]].
  - rewrite Hv in Hw. injection Hw as <-. rewrite bool_decide_true by done.
    exact (list_tokens_eq k l l' r r' Hvl Hwl).
Qed.

Lemma keys_eq ts vs ws :
  Forall2 value_type vs ts → Forall2 value_type ws ts →
  forallb value_key_ok vs = true → forallb value_key_ok ws = true →
  tokens vs = tokens ws ↔ forallb (λ '(v, w), value_eqb v w) (zip vs ws) = true.
Proof.
  intros Hvs. revert ws. induction Hvs as [|v t vs ts Hv Hvs IH]; intros ws Hws Hok Hok'.
  - by inversion Hws; subst.
  - inversion Hws as [|w ? ws' ? Hw Hws']; subst. cbn [forallb zip zip_with] in *.
    apply andb_true_iff in Hok as [Hkv Hok], Hok' as [Hkw Hok'].
    unfold tokens. cbn [map concat]. fold (tokens vs) (tokens ws').
    rewrite (value_tokens_eq v w t) by done. by rewrite (IH ws' Hws' Hok Hok'), andb_true_iff.
Qed.

(** [operator==] holds between two tuples of a predicate exactly when they have
    the same key in its trie. *)
Theorem keys_decide_equality m t o vs ws :
  tuple_denotes m t vs → tuple_denotes m o ws → pred t = pred o →
  Forall2 value_type vs (pred_types (pred t)) → Forall2 value_type ws (pred_types (pred t)) →
  forallb value_key_ok vs = true → forallb value_key_ok ws = true →
  tuple_eqb m t o = Ok (bool_decide (tokens vs = tokens ws)).
Proof.
  intros Ht Ho Hp Hvs Hws Hok Hok'. rewrite (tuple_eqb_ok m t o vs ws Ht Ho (λ _, Hp)).
  rewrite Hp, Z.eqb_refl. cbn [andb]. f_equal. apply eq_true_iff_eq.
  rewrite bool_decide_eq_true. symmetry. by eapply keys_eq.
Qed.

Lemma keys_decide_equality_witness :
  tuple_eqb sample_memory sample_tuple sample_tuple =
    Ok (bool_decide (tokens [VInt 3; VList NodeList [5; 6]] = tokens [VInt 3; VList NodeList [5; 6]])).
Proof.
  apply (keys_decide_equality sample_memory sample_tuple sample_tuple);
    [exact sample_tuple_denotes|exact sample_tuple_denotes|reflexivity|repeat constructor|
     repeat constructor|reflexivity|reflexivity].
Defined.
