(* ===== verification/TupleTrie.v ===== *)
(** The trie objects of [db/trie.{hpp,cpp}]: a root, the number of references, the
    leaves with their contents and the list that links them.  What the code does
    with a leaf through its virtual methods is the class [trie_leaf]; the tuples of
    a predicate ([tuple_trie]) and the groups of an aggregate ([agg_trie]) are its
    instances. *)

From Stdlib Require Import ZArith Lia Bool.
From stdpp Require Import base tactics list numbers option gmap.
From S2P Require Import Prelude Words Types RuntimeList Tuple SimpleTuple Trie.

#[local] Open Scope Z_scope.

(** the virtual methods of [trie_leaf], and [create_leaf] of the trie *)
Class trie_leaf (L D : Type) : Type := {
  create_leaf : D → Z → L;
  leaf_get_count : L → Z;
  leaf_add_count : Z → L → L;
  leaf_to_delete : L → bool;
  leaf_delete : memory → L → res memory
}.

Record trie (L : Type) : Type := mk_trie {
  root : children;
  number_of_references : Z;
  leaf_store : gmap leaf_id L;
  leaf_list : list leaf_id  (** from [first_leaf] to [last_leaf] *)
}.
Arguments mk_trie {L} root number_of_references leaf_store leaf_list.
Arguments root {L}. Arguments number_of_references {L}.
Arguments leaf_store {L}. Arguments leaf_list {L}.

Definition new_trie {L} : trie L := mk_trie no_child 0 ∅ [].

Definition empty {L} (t : trie L) : bool := number_of_references t =? 0.

(** [int number_of_references] converted to [size_t] *)
Definition size {L} (t : trie L) : Z := wrap 64 (number_of_references t).

Definition set_number {L} (n : Z) (t : trie L) : trie L :=
  mk_trie (root t) (swrap 32 n) (leaf_store t) (leaf_list t).

Definition null (c : children) : bool := match c with no_child => true | _ => false end.
Definition root_is_leaf {L} (t : trie L) : bool :=
  match root t with leaf_child _ => true | _ => false end.
Definition no_leaves {L} (t : trie L) : bool := match leaf_list t with [] => true | _ => false end.

Definition basic_invariants {L} (t : trie L) : bool :=
  Bool.eqb (number_of_references t =? 0) (null (root t)) &&
  Bool.eqb (null (root t)) (no_leaves t).

Section Hash.
Context (hash_int hash_uint hash_float : Z → Z).

Section Leaves.
Context {L D : Type} `{trie_leaf L D}.

Definition update_leaf (l : leaf_id) (f : L → L) (t : trie L) : trie L :=
  mk_trie (root t) (number_of_references t) (alter f l (leaf_store t)) (leaf_list t).

(** [check_insert]: the leaf and whether it was [found]; None when the tuple is
    not there and [many < 0] *)
Definition check_insert (m : memory) (data : D) (many : Z) (vals : val_stack) (t : trie L)
  : res (trie L * option (leaf_id * bool)) :=
  let l := fresh (dom (leaf_store t)) in
  let store := <[l := create_leaf data many]> (leaf_store t) in
  match vals with
  | [] =>
      match root t with
      | leaf_child l => Ok (update_leaf l (leaf_add_count many) t, Some (l, true))
      | _ => Ok (mk_trie (leaf_child l) (number_of_references t) store [l], Some (l, false))
      end
  | _ =>
      let* r := check_insert_walk hash_int hash_uint hash_float m (stack_fuel m vals)
                  (root t) vals l many in
      let '(c, result) := r in
      match result with
      | r_missing => Ok (t, None)
      | r_new =>
          let t := mk_trie c (number_of_references t) store (leaf_list t ++ [l]) in
          asserting (negb (root_is_leaf t) && negb (null (root t))) (Ok (t, Some (l, false)))
      | r_found l =>
          let t := update_leaf l (leaf_add_count many) t in
          asserting (negb (root_is_leaf t) && negb (no_leaves t))
            (asserting (basic_invariants t) (Ok (t, Some (l, true))))
      end
  end.

(** [inner_delete_by_leaf] *)
Definition inner_delete_by_leaf (m : memory) (l : leaf_id) (count : Z) (t : trie L)
  : res (memory * trie L) :=
  asserting ((count =? 0) || (0 <? count))
    (let t := if count =? 0 then t else update_leaf l (leaf_add_count (- count)) t in
     let* leaf := of_option (leaf_store t !! l) in
     if negb (leaf_to_delete leaf) then Ok (m, t)
     else
       let* c := of_option (delete_leaf l (root t)) in
       let* m := leaf_delete m leaf in
       Ok (m, mk_trie c (number_of_references t) (delete l (leaf_store t))
                (filter (λ l', l' ≠ l) (leaf_list t)))).

(** [commit_delete]: the node is given by its leaf *)
Definition commit_delete (m : memory) (l : leaf_id) (many : Z) (t : trie L)
  : res (memory * trie L) :=
  let t := set_number (number_of_references t - many) t in
  asserting (0 <=? number_of_references t)
    (let* r := inner_delete_by_leaf m l 0 t in
     asserting (basic_invariants r.2) (Ok r)).

Definition delete_by_leaf (m : memory) (l : leaf_id) (t : trie L) : res (memory * trie L) :=
  let t := set_number (number_of_references t - 1) t in
  asserting (0 <=? number_of_references t) (inner_delete_by_leaf m l 1 t).

(** the leaves under a node, in the order [delete_branch] and [count_refs] visit
    them *)
Fixpoint branch_leaves (c : children) : list leaf_id :=
  let fix go (cs : list trie_node) : list leaf_id :=
    match cs with
    | [] => []
    | mk_node _ c :: cs => branch_leaves c ++ go cs
    end in
  let fix gos (bs : list (list trie_node)) : list leaf_id :=
    match bs with
    | [] => []
    | cs :: bs => go cs ++ gos bs
    end in
  match c with
  | no_child => []
  | leaf_child l => [l]
  | list_child cs => go cs
  | hash_child _ bs _ => gos bs
  end.

(** [delete_branch]: the leaves go, and their counts are added up *)
Fixpoint delete_leaves (m : memory) (ls : list leaf_id) (t : trie L) (count : Z)
  : res (memory * trie L * Z) :=
  match ls with
  | [] => Ok (m, t, count)
  | l :: ls =>
      let* leaf := of_option (leaf_store t !! l) in
      let* m := leaf_delete m leaf in
      delete_leaves m ls
        (mk_trie (root t) (number_of_references t) (delete l (leaf_store t))
           (filter (λ l', l' ≠ l) (leaf_list t)))
        (wrap 64 (count + wrap 64 (leaf_get_count leaf)))
  end.

Definition count_refs (t : trie L) : res Z :=
  (fix go ls n := match ls with
                  | [] => Ok n
                  | l :: ls => let* leaf := of_option (leaf_store t !! l) in
                               go ls (wrap 64 (n + wrap 64 (leaf_get_count leaf)))
                  end) (branch_leaves (root t)) 0.

Definition wipeout (m : memory) (t : trie L) : res (memory * trie L) :=
  let* r := delete_leaves m (branch_leaves (root t)) t 0 in
  let '(m, t, _) := r in
  Ok (m, mk_trie no_child 0 (leaf_store t) (leaf_list t)).

End Leaves.
End Hash.

(** ** [tuple_trie] *)

#[global] Instance tuple_trie_leaf : trie_leaf simple_tuple tuple := {|
  create_leaf := new_simple_tuple;
  leaf_get_count := get_count;
  leaf_add_count n s := add_count s n;
  leaf_to_delete := reached_zero;
  leaf_delete := SimpleTuple.wipeout
|}.

Abbreviation tuple_trie := (trie simple_tuple).

(** the value and type stacks of a tuple, the first field on top *)
Definition tuple_stack (t : tuple) : val_stack := zip (fields t) (pred_types (pred t)).

(** [delete_info]: [to_del], and the node and count of a deletion to commit *)
Record delete_info : Type := mk_delete_info {
  to_del : bool;
  tr_node : leaf_id;
  di_many : Z
}.
Definition no_delete : delete_info := mk_delete_info false 1%positive 0.

Section TupleTrie.
Context (hash_int hash_uint hash_float : Z → Z).

Definition insert_tuple (m : memory) (tpl : tuple) (many : Z) (t : tuple_trie)
  : res (tuple_trie * bool) :=
  let t := set_number (number_of_references t + many) t in
  let* r := check_insert hash_int hash_uint hash_float m tpl many (tuple_stack tpl) t in
  let '(t, r) := r in
  match r with
  | None => Err undefined_behaviour  (* [found] was not set *)
  | Some (_, found) =>
      asserting (negb found || (negb (null (root t)) && (0 <? number_of_references t)))
        (asserting (basic_invariants t) (Ok (t, negb found)))
  end.

Definition delete_tuple (m : memory) (tpl : tuple) (many : Z) (t : tuple_trie)
  : res (tuple_trie * delete_info) :=
  asserting ((0 <? many) && basic_invariants t)
    (let* r := check_insert hash_int hash_uint hash_float m tpl (- many) (tuple_stack tpl) t in
     let '(t, r) := r in
     match r with
     | None => Ok (t, no_delete)
     | Some (l, found) =>
         asserting found
           (let* leaf := of_option (leaf_store t !! l) in
            if leaf_to_delete leaf then Ok (t, mk_delete_info true l many)
            else Ok (set_number (number_of_references t - many) t, no_delete))
     end).

(** [delete_info::operator()] *)
Definition commit (m : memory) (d : delete_info) (t : tuple_trie) : res (memory * tuple_trie) :=
  commit_delete m (tr_node d) (di_many d) t.

(** the caller's sequence: delete, and commit when the count reached zero *)
Definition delete_and_commit (m : memory) (tpl : tuple) (many : Z) (t : tuple_trie)
  : res (memory * tuple_trie) :=
  let* r := delete_tuple m tpl many t in
  let '(t, d) := r in
  if to_del d then commit m d t else Ok (m, t).

(** ** What a trie of tuples stands for *)

Abbreviation wf := (Trie.wf hash_int hash_uint hash_float).
Abbreviation wf_root := (Trie.wf_root hash_int hash_uint hash_float).

(** the number of derivations in the leaves *)
Definition total_count (st : gmap leaf_id simple_tuple) : Z :=
  map_fold (λ _ s n, count s + n) 0 st.

(** Every leaf is reached by one key, and is in the leaf list. *)
Record linked (ts : list field_type) (t : tuple_trie) : Prop := {
  linked_wf : wf_root (root t) ts;
  linked_nodup : NoDup (leaf_list t);
  linked_list : ∀ l, l ∈ leaf_list t ↔ is_Some (leaf_store t !! l);
  linked_path : ∀ l, is_Some (leaf_store t !! l) ↔ ∃ toks, path (root t) ts toks l;
  linked_unique : ∀ l, leaf_unique (root t) ts l
}.

(** A trie between operations: its counts are positive and add up. *)
Record settled (ts : list field_type) (t : tuple_trie) : Prop := {
  settled_linked : linked ts t;
  settled_number : number_of_references t = total_count (leaf_store t);
  settled_count : ∀ l s, leaf_store t !! l = Some s → 0 < count s
}.

Definition stored (ts : list field_type) (t : tuple_trie) (toks : list token) (s : simple_tuple)
  : Prop := ∃ l, path (root t) ts toks l ∧ leaf_store t !! l = Some s.

(** The abstract store: a finite map from keys to counted tuples. *)
Abbreviation tuple_map := (gmap (list token) simple_tuple).

Definition represents (ts : list field_type) (t : tuple_trie) (M : tuple_map) : Prop :=
  settled ts t ∧ ∀ toks s, M !! toks = Some s ↔ stored ts t toks s.

Definition insert_spec (k : list token) (tpl : tuple) (many : Z) (M : tuple_map) : tuple_map :=
  match M !! k with
  | None => <[k := new_simple_tuple tpl many]> M
  | Some s => <[k := add_count s many]> M
  end.

Definition delete_spec (k : list token) (many : Z) (M : tuple_map) : tuple_map :=
  match M !! k with
  | None => M
  | Some s => if count s =? many then delete k M else <[k := add_count s (- many)]> M
  end.

Lemma path_func c ts toks l1 l2 :
  wf c ts → path c ts toks l1 → path c ts toks l2 → l1 = l2.
Proof.
  intros Hwf H1. revert l2 Hwf.
  induction H1 as [l|c n t ts toks l Hn Hp IH]; intros l2 Hwf H2; [by inversion H2|].
  inversion Hwf as [|? ? ? Hs Hne Hk Hnd]; subst.
  apply path_cons in H2 as (n' & toks' & Hn' & [= Heq <-] & Hp').
  assert (n' = n) as ->.
  { apply list_elem_of_lookup in Hn as [i Hi]. apply list_elem_of_lookup in Hn' as [j Hj].
    assert (i = j) as ->; [|congruence].
    apply (NoDup_lookup _ _ _ (node_key t n) Hnd); rewrite list_lookup_fmap; [by rewrite Hi|].
    by rewrite Hj, Heq. }
  apply IH; [|done]. rewrite Forall_forall in Hk. by apply Hk.
Qed.

Lemma wf_has_path c : ∀ ts, wf c ts → ∃ toks l, path c ts toks l.
Proof.
  assert (Hstep : ∀ c0 ts, Forall (λ n, ∀ ts, wf (child n) ts → ∃ toks l, path (child n) ts toks l)
            (kids c0) → wf c0 ts → kids c0 ≠ [] → ∃ toks l, path c0 ts toks l).
  { intros c0 ts IH Hwf Hne. inversion Hwf as [|? t ts' Hs _ Hk Hnd]; subst; [done|].
    destruct (kids c0) as [|n ns] eqn:E; [done|].
    apply Forall_cons_1 in IH as [IH _]. apply Forall_cons_1 in Hk as [[_ Hw] _].
    destruct (IH _ Hw) as (toks & l & Hp). exists (node_key t n :: toks), l.
    econstructor; [|done]. rewrite E. by left. }
  induction c as [|l|cs IH|t bs total IH] using children_ind'; intros ts Hwf.
  - inversion Hwf; subst. done.
  - inversion Hwf; subst; [|done]. exists [], l. constructor.
  - apply (Hstep (list_child cs) ts IH Hwf). by inversion Hwf.
  - apply (Hstep (hash_child t bs total) ts IH Hwf). by inversion Hwf.
Qed.

Lemma total_count_insert l s st :
  st !! l = None → total_count (<[l := s]> st) = count s + total_count st.
Proof. intros Hl. unfold total_count. rewrite map_fold_insert_L; [done|lia|done]. Qed.

Lemma total_count_lookup l s st :
  st !! l = Some s → total_count st = count s + total_count (delete l st).
Proof. intros Hl. unfold total_count. rewrite (map_fold_delete_L _ _ l s); [done|lia|done]. Qed.

Lemma total_count_nonneg st : (∀ l s, st !! l = Some s → 0 < count s) →
  0 <= total_count st ∧ (total_count st = 0 → st = ∅).
Proof.
  induction st as [|l s st Hl IH] using map_ind; intros H; [done|].
  rewrite total_count_insert by done.
  assert (0 < count s) by (apply (H l); apply lookup_insert_eq).
  destruct IH as [IH _].
  { intros l' s' Hs'. apply (H l'). rewrite lookup_insert_ne; [done|]. intros ->. congruence. }
  split; [lia|]. lia.
Qed.

(** the null tests of [basic_invariants] agree *)
Lemma linked_null ts t :
  linked ts t →
  null (root t) = bool_decide (leaf_store t = ∅) ∧ no_leaves t = bool_decide (leaf_store t = ∅).
Proof.
  intros [Hwf Hnd Hlist Hpath Hu]. destruct (decide (leaf_store t = ∅)) as [He|He].
  - rewrite bool_decide_true by done. split.
    + destruct Hwf as [Hwf | ->]; [|done]. destruct (wf_has_path _ _ Hwf) as (toks & l & Hp).
      exfalso. assert (H : is_Some (leaf_store t !! l)) by (apply Hpath; eauto).
      rewrite He, lookup_empty in H. by apply is_Some_None in H.
    + unfold no_leaves. destruct (leaf_list t) as [|l ls] eqn:E; [done|].
      assert (H : is_Some (leaf_store t !! l)) by (apply Hlist; rewrite ?E; left).
      rewrite He, lookup_empty in H. by apply is_Some_None in H.
  - rewrite bool_decide_false by done. destruct (map_choose _ He) as (l & s & Hls). split.
    + destruct (proj1 (Hpath l)) as [toks Hp]; [eauto|].
      destruct (root t); [by apply path_no_child in Hp|done..].
    + unfold no_leaves. assert (Hin : l ∈ leaf_list t) by (apply Hlist; eauto).
      destruct (leaf_list t); [by apply not_elem_of_nil in Hin|done].
Qed.

Lemma linked_basic_invariants ts t :
  linked ts t → (number_of_references t = 0 ↔ leaf_store t = ∅) → basic_invariants t = true.
Proof.
  intros Hl Hn. destruct (linked_null ts t Hl) as [H1 H2]. unfold basic_invariants.
  rewrite H1, H2. rewrite eqb_reflx, andb_true_r. apply eqb_true_iff.
  apply eq_true_iff_eq. by rewrite Z.eqb_eq, bool_decide_eq_true.
Qed.

Lemma settled_number_zero ts t :
  settled ts t → 0 <= number_of_references t ∧ (number_of_references t = 0 ↔ leaf_store t = ∅).
Proof.
  intros [Hl Hn Hc]. destruct (total_count_nonneg _ Hc) as [Hge Hz]. rewrite Hn.
  split; [done|]. split; [done|]. by intros ->.
Qed.

Lemma settled_basic_invariants ts t : settled ts t → basic_invariants t = true.
Proof.
  intros H. eapply linked_basic_invariants; [by apply settled_linked|].
  by apply (settled_number_zero ts t).
Qed.


Lemma linked_update ts l f t : linked ts t → linked ts (update_leaf l f t).
Proof.
  intros [Hwf Hnd Hlist Hpath Hu]. constructor; cbn [root leaf_store leaf_list update_leaf]; try done;
    intros l'; by rewrite lookup_alter_is_Some.
Qed.

Lemma stack_denotes_tuple m tpl vs :
  tuple_denotes m tpl vs → stack_denotes m (tuple_stack tpl) vs.
Proof.
  unfold tuple_denotes, stack_denotes, tuple_stack. destruct tpl as [p fs]. cbn [fields pred].
  revert fs vs. induction (pred_types p) as [|ty tys IH]; intros fs vs H; inversion H; subst; constructor;
    [done|by apply IH].
Qed.

Lemma tuple_stack_types m tpl vs :
  tuple_denotes m tpl vs → map snd (tuple_stack tpl) = pred_types (pred tpl).
Proof.
  unfold tuple_denotes, tuple_stack. intros H%Forall3_length_lm. apply snd_zip. lia.
Qed.

(** a list has as many elements as the fuel allows *)
Lemma stack_cost m vals vs :
  stack_denotes m vals vs → (sum_list_with value_cost vs < stack_fuel m vals)%nat.
Proof.
  unfold stack_fuel. intros H.
  cut (sum_list_with value_cost vs <= sum_list_with (λ '(_, type), entry_fuel m type) vals)%nat; [lia|].
  induction H as [|[f t] v vals vs Hd Hst IH]; [done|]. cbn [sum_list_with].
  cut (value_cost v <= entry_fuel m t)%nat; [lia|]. unfold entry_fuel.
  cbn [fst snd] in Hd. destruct Hd as [g|g|g|type k g l Hk Hl]; [simpl; lia..|]. rewrite Hk. apply is_list_length in Hl.
  unfold value_cost. lia.
Qed.

(** What [check_insert] did to a linked trie. *)
Definition check_insert_result (ts : list field_type) (k : list token) (tpl : tuple) (many : Z)
    (t t' : tuple_trie) (r : option (leaf_id * bool)) : Prop :=
  match r with
  | None => t' = t ∧ ts ≠ [] ∧ many < 0 ∧ ∀ l, ¬ path (root t) ts k l
  | Some (l, true) => path (root t) ts k l ∧ t' = update_leaf l (leaf_add_count many) t
  | Some (l, false) =>
      (ts = [] ∨ 0 <= many) ∧ (∀ l, ¬ path (root t) ts k l) ∧ leaf_store t !! l = None ∧
      linked ts t' ∧ number_of_references t' = number_of_references t ∧
      leaf_store t' = <[l := new_simple_tuple tpl many]> (leaf_store t) ∧
      ∀ k' l', path (root t') ts k' l' ↔ path (root t) ts k' l' ∨ (k' = k ∧ l' = l)
  end.

Lemma linked_new ts k l s t c n :
  linked ts t → leaf_store t !! l = None → (∀ l, ¬ path (root t) ts k l) → wf c ts →
  (∀ k' l', path c ts k' l' ↔ path (root t) ts k' l' ∨ (k' = k ∧ l' = l)) →
  linked ts (mk_trie c n (<[l := s]> (leaf_store t)) (leaf_list t ++ [l])).
Proof.
  intros [Hwf Hnd Hlist Hpath Hu] Hl Hno Hc Hp.
  assert (Hlo : ∀ k', ¬ path (root t) ts k' l).
  { intros k' H. assert (Hs : is_Some (leaf_store t !! l)) by (apply Hpath; eauto).
    rewrite Hl in Hs. by apply is_Some_None in Hs. }
  constructor; cbn [root leaf_store leaf_list].
  - by left.
  - apply NoDup_app. split_and!; [done| |apply NoDup_singleton].
    intros l' Hl' ->%list_elem_of_singleton. apply Hlist in Hl'. rewrite Hl in Hl'.
    by apply is_Some_None in Hl'.
  - intros l'. rewrite elem_of_app, list_elem_of_singleton, lookup_insert_is_Some, Hlist.
    destruct (decide (l = l')); naive_solver.
  - intros l'. setoid_rewrite Hp. rewrite lookup_insert_is_Some, Hpath.
    destruct (decide (l = l')); naive_solver.
  - intros l' k1 k2 H1%Hp H2%Hp.
    destruct H1 as [H1|[-> ->]], H2 as [H2|[-> E]]; [by eapply Hu|subst l'; by apply Hlo in H1|by apply Hlo in H2|done].
Qed.


(** the root is a leaf for the tuples without arguments only *)
Lemma root_leaf_types ts t : linked ts t → ts ≠ [] → root_is_leaf t = false.
Proof.
  intros [Hwf _ _ _ _] Hne. unfold root_is_leaf. destruct Hwf as [Hwf | ->]; [|done].
  by inversion Hwf as [|c ? ? Hs]; subst; [|destruct Hs].
Qed.

Lemma check_insert_ok m tpl many t vs :
  hash_float_ok hash_float → mem_fits m → tuple_denotes m tpl vs → forallb value_ok vs = true →
  let ts := pred_types (pred tpl) in
  linked ts t → (number_of_references t = 0 ↔ leaf_store t = ∅) ∨ 0 < number_of_references t →
  ∃ t' r, check_insert hash_int hash_uint hash_float m tpl many (tuple_stack tpl) t = Ok (t', r) ∧
    check_insert_result ts (tokens vs) tpl many t t' r.
Proof.
  intros Hh Hm Hden Hok ts Hl Hn.
  pose proof (stack_denotes_tuple m tpl vs Hden) as Hst.
  pose proof (tuple_stack_types m tpl vs Hden) as Hty. fold ts in Hty.
  assert (Hfresh : leaf_store t !! fresh (dom (leaf_store t)) = None)
    by (apply not_elem_of_dom, is_fresh).
  assert (Hbi : ∀ l k, path (root t) ts k l → basic_invariants (update_leaf l (leaf_add_count many) t) = true).
  { intros l k Hp. eapply linked_basic_invariants; [by apply linked_update|].
    assert (Hs : is_Some (leaf_store t !! l)) by (apply (linked_path _ _ Hl); eauto).
    destruct Hs as [s Hs]. assert (leaf_store t ≠ ∅) by (intros E; by rewrite E in Hs).
    assert (alter (leaf_add_count many) l (leaf_store t) ≠ ∅).
    { intros E. apply (f_equal (lookup l)) in E. rewrite lookup_alter_eq, Hs in E. discriminate. }
    cbn [number_of_references leaf_store update_leaf]. destruct Hn as [Hn|Hn]; [tauto|].
    split; [lia|done]. }
  unfold check_insert. destruct (tuple_stack tpl) as [|e vals] eqn:Hstack.
  - apply Forall2_nil_inv_l in Hst as ->. cbn [map] in Hty. rewrite <-Hty.
    destruct (linked_wf _ _ Hl) as [Hwf|Hwf].
    + rewrite <-Hty in Hwf. inversion Hwf as [l E|]; subst.
      eexists _, _. split; [done|]. split; [|done]. rewrite <-E. constructor.
    + rewrite Hwf. eexists _, _. split; [done|]. cbn [check_insert_result root leaf_store number_of_references].
      assert (Hno : ∀ k l, ¬ path (root t) [] k l) by (intros k l; rewrite Hwf; apply path_no_child).
      assert (Hp : ∀ k' l', path (leaf_child (fresh (dom (leaf_store t)))) [] k' l' ↔
                path (root t) [] k' l' ∨ (k' = tokens [] ∧ l' = fresh (dom (leaf_store t)))).
      { intros k' l'. split; [inversion 1; subst; by right|].
        intros [H|[-> ->]]; [by apply Hno in H|constructor]. }
      split_and!; [by left|apply Hno|done| |done|done|exact Hp].
      assert (Hempty : leaf_list t = []).
      { destruct (linked_null _ _ Hl) as [H1 H2]. rewrite Hwf in H1. cbn [null] in H1.
        rewrite <-H1 in H2. unfold no_leaves in H2. by destruct (leaf_list t). }
      pose proof (linked_new [] (tokens []) _ (create_leaf tpl many) t _ (number_of_references t)
        ltac:(by rewrite Hty) Hfresh (Hno _) (wf_leaf _ _ _ _) Hp) as Hlinked.
      by rewrite Hempty in Hlinked.
  - assert (Hne : ts ≠ []) by (rewrite <-Hty; discriminate).
    set (l := fresh (dom (leaf_store t))) in *.
    destruct (check_insert_walk_ok hash_int hash_uint hash_float m l many Hh Hm
      (stack_fuel m (e :: vals)) (root t) (e :: vals) vs) as (c & r & -> & Hr); [| |done|done|].
    { by apply stack_cost. }
    { rewrite Hty. destruct (linked_wf _ _ Hl) as [H|H]; [by left|by right]. }
    rewrite Hty in Hr. cbn [res_bind]. destruct r as [l'| |]; cbn [walk_result] in Hr.
    + destruct Hr as [-> Hp].
      pose proof (root_leaf_types _ _ (linked_update _ l' (leaf_add_count many) _ Hl) Hne) as Hrl.
      rewrite Hrl. destruct (linked_null _ _ (linked_update _ l' (leaf_add_count many) _ Hl)) as [H1 H2].
      assert (Hnl : no_leaves (update_leaf l' (leaf_add_count many) t) = false).
      { rewrite H2, <-H1. cbn [root update_leaf]. by destruct (root t); [apply path_no_child in Hp|..]. }
      rewrite Hnl, (Hbi _ _ Hp). cbn [negb andb asserting].
      eexists _, _. split; [done|]. by split.
    + destruct Hr as (-> & Hmany & Hno). eexists _, _. split; [done|]. by split_and!.
    + destruct Hr as (Hmany & Hwf & Hno & Hp).
      pose proof (linked_new ts (tokens vs) l (create_leaf tpl many) t c (number_of_references t)
        Hl Hfresh Hno Hwf Hp) as Hl'.
      rewrite (root_leaf_types _ _ Hl' Hne).
      destruct (linked_null _ _ Hl') as [-> _]. cbn [leaf_store].
      rewrite bool_decide_false by apply insert_non_empty. cbn [negb andb asserting].
      eexists _, _. split; [done|]. split_and!; [by right|done|done|done|done|done|exact Hp].
Qed.


Lemma linked_path_func ts t k l1 l2 :
  linked ts t → path (root t) ts k l1 → path (root t) ts k l2 → l1 = l2.
Proof.
  intros Hl H1 H2. destruct (linked_wf _ _ Hl) as [Hwf|Hwf]; [by eapply path_func|].
  rewrite Hwf in H1. by apply path_no_child in H1.
Qed.

Lemma represents_lookup ts t M k l s :
  represents ts t M → path (root t) ts k l → leaf_store t !! l = Some s → M !! k = Some s.
Proof. intros [_ HM] Hp Hs. apply HM. by exists l. Qed.

Lemma represents_none ts t M k :
  represents ts t M → M !! k = None ↔ ∀ l, ¬ path (root t) ts k l.
Proof.
  intros [Hs HM]. rewrite eq_None_not_Some. split.
  - intros Hno l Hp. apply Hno.
    assert (Hl : is_Some (leaf_store t !! l)).
    { apply (linked_path _ _ (settled_linked _ _ Hs)); eauto. }
    destruct Hl as [s Hl]. exists s. apply HM. by exists l.
  - intros Hno [s (l & Hp & _)%HM]. by apply (Hno l).
Qed.

(** a count was changed *)
Lemma stored_update ts t M k l s f n :
  represents ts t M → path (root t) ts k l → leaf_store t !! l = Some s → 0 < count (f s) →
  n = number_of_references t + count (f s) - count s →
  represents ts (mk_trie (root t) n (alter f l (leaf_store t)) (leaf_list t)) (<[k := f s]> M).
Proof.
  intros [Hset HM] Hp Hs Hc ->. pose proof (settled_linked _ _ Hset) as Hl. split; [constructor|].
  - by destruct (linked_update ts l f t Hl).
  - cbn [number_of_references leaf_store]. rewrite (settled_number _ _ Hset).
    rewrite (total_count_lookup l s (leaf_store t)) by done.
    rewrite (total_count_lookup l (f s) (alter f l (leaf_store t))).
    + rewrite delete_alter_eq. lia.
    + by rewrite lookup_alter_eq, Hs.
  - intros l' s'. cbn [leaf_store]. destruct (decide (l' = l)) as [->|Hne].
    + rewrite lookup_alter_eq, Hs. intros [= <-]. done.
    + rewrite lookup_alter_ne by done. apply (settled_count _ _ Hset).
  - intros k' s'. unfold stored. cbn [root leaf_store]. destruct (decide (k' = k)) as [->|Hne].
    + rewrite lookup_insert_eq. split.
      * intros [= <-]. exists l. by rewrite lookup_alter_eq, Hs.
      * intros (l' & Hp' & Hs'). rewrite (linked_path_func _ _ _ _ _ Hl Hp' Hp) in Hs'.
        by rewrite lookup_alter_eq, Hs in Hs'.
    + rewrite lookup_insert_ne by done. rewrite HM. unfold stored.
      split; intros (l' & Hp' & Hs'); exists l'; (split; [done|]).
      * rewrite lookup_alter_ne; [done|]. intros ->. apply Hne. by apply (linked_unique _ _ Hl l').
      * rewrite lookup_alter_ne in Hs'; [done|]. intros ->. apply Hne. by apply (linked_unique _ _ Hl l').
Qed.

Lemma insert_tuple_ok m tpl many t vs M :
  hash_float_ok hash_float → mem_fits m → tuple_denotes m tpl vs → forallb value_ok vs = true →
  represents (pred_types (pred tpl)) t M →
  0 < many → number_of_references t + many < 2 ^ 31 →
  (∀ s, M !! tokens vs = Some s → count s + many < 2 ^ 15) →
  ∃ t', insert_tuple m tpl many t = Ok (t', bool_decide (M !! tokens vs = None)) ∧
    represents (pred_types (pred tpl)) t' (insert_spec (tokens vs) tpl many M) ∧
    number_of_references t' = number_of_references t + many.
Proof.
  intros Hh Hm Hden Hok Hrep Hmany Hnum Hcnt. set (ts := pred_types (pred tpl)) in *.
  pose proof Hrep as [Hset HM]. pose proof (settled_linked _ _ Hset) as Hl.
  destruct (settled_number_zero _ _ Hset) as [Hge _].
  unfold insert_tuple, set_number.
  rewrite swrap_id by (simpl; lia).
  set (t1 := mk_trie (root t) (number_of_references t + many) (leaf_store t) (leaf_list t)).
  assert (Hl1 : linked ts t1) by (by destruct Hl).
  destruct (check_insert_ok m tpl many t1 vs Hh Hm Hden Hok Hl1) as (t' & r & -> & Hr).
  { right. simpl. lia. }
  cbn [res_bind]. fold ts in Hr. destruct r as [[l [|]]|]; cbn [check_insert_result] in Hr.
  - destruct Hr as [Hp ->]. change (root t1) with (root t) in Hp.
    assert (Hs : is_Some (leaf_store t !! l)) by (apply (linked_path _ _ Hl); eauto).
    destruct Hs as [s Hs]. pose proof (represents_lookup _ _ _ _ _ _ Hrep Hp Hs) as HMk.
    assert (Hpos : 0 < count s) by by eapply settled_count.
    assert (Hadd : count (add_count s many) = count s + many).
    { cbn [add_count set_count count]. specialize (Hcnt s HMk). apply swrap_id; simpl; lia. }
    assert (Hrep' : represents ts (update_leaf l (leaf_add_count many) t1)
                      (<[tokens vs := add_count s many]> M)).
    { refine (stored_update ts t M _ l s (leaf_add_count many) (number_of_references t + many)
        Hrep Hp Hs _ _); cbn [leaf_add_count tuple_trie_leaf]; lia. }
    pose proof Hrep' as [Hset' _].
    assert (Hnn : null (root (update_leaf l (leaf_add_count many) t1)) = false).
    { cbn [update_leaf root t1]. by destruct (root t); [apply path_no_child in Hp|..]. }
    rewrite Hnn, (settled_basic_invariants _ _ Hset').
    cbn [negb orb andb number_of_references update_leaf t1].
    replace (0 <? number_of_references t + many) with true by lia. cbn [asserting].
    eexists. split; [rewrite HMk; done|]. unfold insert_spec. rewrite HMk. split; [exact Hrep'|done].
  - destruct Hr as (_ & Hno & Hfresh & Hl' & Hn' & Hs' & Hp').
    change (leaf_store t1) with (leaf_store t) in *. change (root t1) with (root t) in *.
    assert (HMk : M !! tokens vs = None) by (by apply (represents_none ts t)).
    assert (Hset' : settled ts t').
    { constructor; [done| |].
      - rewrite Hn', Hs', total_count_insert by done. cbn [t1 number_of_references].
        rewrite (settled_number _ _ Hset). cbn [new_simple_tuple count]. lia.
      - intros l' s'. rewrite Hs', lookup_insert_Some. intros [[_ <-]|[_ H]]; [done|].
        by apply (settled_count _ _ Hset l'). }
    cbn [negb orb asserting]. rewrite (settled_basic_invariants _ _ Hset'). cbn [asserting].
    eexists. rewrite HMk. split; [done|]. split; [|done]. unfold insert_spec. rewrite HMk. split; [done|].
    intros k s. rewrite lookup_insert_Some, HM. unfold stored. setoid_rewrite Hp'. rewrite Hs'.
    split.
    + intros [[<- <-]|[Hne (l' & H1 & H2)]]; [exists l; rewrite lookup_insert_eq; auto|].
      exists l'. rewrite lookup_insert_ne by congruence. auto.
    + intros (l' & [H1|[-> ->]] & H2).
      * rewrite lookup_insert_ne in H2; [|intros ->; destruct (proj2 (linked_path _ _ Hl l')); [eauto|congruence]].
        right. split; [intros <-; by apply (Hno l')|eauto].
      * rewrite lookup_insert_eq in H2. injection H2 as <-. by left.
  - destruct Hr as (_ & _ & Hneg & _). lia.
Qed.


Lemma linked_delete ts l t c n :
  linked ts t → wf_root c ts →
  (∀ k' l', path c ts k' l' ↔ path (root t) ts k' l' ∧ l' ≠ l) →
  linked ts (mk_trie c n (delete l (leaf_store t)) (filter (λ l', l' ≠ l) (leaf_list t))).
Proof.
  intros [Hwf Hnd Hlist Hpath Hu] Hc Hp.
  constructor; cbn [root leaf_store leaf_list]; [done|by apply NoDup_filter| | |].
  - intros l'. rewrite list_elem_of_filter, Hlist, lookup_delete_is_Some. naive_solver.
  - intros l'. setoid_rewrite Hp. rewrite lookup_delete_is_Some, Hpath. naive_solver.
  - intros l' k1 k2 [H1 _]%Hp [H2 _]%Hp. by eapply Hu.
Qed.

(** The leaf of a count that reached zero is taken away. *)
Lemma commit_delete_ok m m' ts t k l s s0 M many :
  represents ts t M → path (root t) ts k l → leaf_store t !! l = Some s →
  count s = many → reached_zero s0 = true → SimpleTuple.wipeout m s0 = Ok m' →
  number_of_references t < 2 ^ 31 →
  ∃ t', commit_delete m l many (mk_trie (root t) (number_of_references t) (<[l := s0]> (leaf_store t))
                                  (leaf_list t)) = Ok (m', t') ∧
    represents ts t' (delete k M) ∧ number_of_references t' = number_of_references t - many.
Proof.
  intros [Hset HM] Hp Hs Hc Hz Hw Hn. pose proof (settled_linked _ _ Hset) as Hl.
  pose proof (settled_number _ _ Hset) as Hnum. rewrite (total_count_lookup l s) in Hnum by done.
  assert (Hpos : ∀ l' s', delete l (leaf_store t) !! l' = Some s' → 0 < count s').
  { intros l' s' [_ H]%lookup_delete_Some. by apply (settled_count _ _ Hset l'). }
  destruct (total_count_nonneg _ Hpos) as [Hge _].
  assert (Hcs : 0 < count s) by by apply (settled_count _ _ Hset l).
  unfold commit_delete, set_number. cbn [root number_of_references leaf_store leaf_list].
  rewrite swrap_id by (simpl; lia).
  replace (0 <=? number_of_references t - many) with true by lia. cbn [asserting].
  unfold inner_delete_by_leaf. cbn [Z.eqb orb asserting leaf_store].
  rewrite lookup_insert_eq. cbn [of_option res_bind leaf_to_delete tuple_trie_leaf].
  rewrite Hz. cbn [negb root].
  destruct (linked_wf _ _ Hl) as [Hwf|Hwf]; [|rewrite Hwf in Hp; by apply path_no_child in Hp].
  destruct (delete_leaf_ok hash_int hash_uint hash_float _ _ _ _ Hp Hwf (linked_unique _ _ Hl l))
    as (c & -> & Hwc & Hpc).
  cbn [of_option res_bind leaf_delete tuple_trie_leaf]. rewrite Hw. cbn [res_bind snd number_of_references leaf_list].
  rewrite delete_insert_eq.
  assert (Hset' : settled ts (mk_trie c (number_of_references t - many) (delete l (leaf_store t))
                    (filter (λ l', l' ≠ l) (leaf_list t)))).
  { constructor; [by apply linked_delete| |done]. cbn [number_of_references leaf_store]. lia. }
  rewrite (settled_basic_invariants _ _ Hset'). cbn [asserting].
  eexists. split; [done|]. split; [|done]. split; [done|].
  intros k' s'. rewrite lookup_delete_Some, HM. unfold stored. cbn [root leaf_store].
  setoid_rewrite Hpc. split.
  - intros [Hne (l' & Hp' & Hs')].
    assert (l' ≠ l) by (intros ->; apply Hne; by apply (linked_unique _ _ Hl l)).
    exists l'. by rewrite lookup_delete_ne by done.
  - intros (l' & [Hp' Hne] & Hs'). rewrite lookup_delete_ne in Hs' by done. split; [|eauto].
    intros <-. apply Hne. by apply (linked_path_func ts t k).
Qed.

Lemma delete_and_commit_ok m tpl many t vs M :
  hash_float_ok hash_float → mem_fits m → tuple_denotes m tpl vs → forallb value_ok vs = true →
  represents (pred_types (pred tpl)) t M →
  0 < many → number_of_references t < 2 ^ 31 →
  (M !! tokens vs = None → pred_types (pred tpl) ≠ []) →
  (∀ s, M !! tokens vs = Some s → many <= count s < 2 ^ 15 ∧
     (count s = many → ∃ m', Tuple.destroy m (data s) = Ok m')) →
  ∃ m' t', delete_and_commit m tpl many t = Ok (m', t') ∧
    represents (pred_types (pred tpl)) t' (delete_spec (tokens vs) many M) ∧
    number_of_references t' =
      number_of_references t - (if decide (M !! tokens vs = None) then 0 else many).
Proof.
  intros Hh Hm Hden Hok Hrep Hmany Hnum Hnone Hsome. set (ts := pred_types (pred tpl)) in *.
  pose proof Hrep as [Hset HM]. pose proof (settled_linked _ _ Hset) as Hl.
  destruct (settled_number_zero _ _ Hset) as [Hge Hz].
  unfold delete_and_commit, delete_tuple. rewrite (settled_basic_invariants _ _ Hset).
  replace (0 <? many) with true by lia. cbn [andb asserting].
  destruct (check_insert_ok m tpl (- many) t vs Hh Hm Hden Hok Hl (or_introl Hz)) as (t1 & r & -> & Hr).
  cbn [res_bind]. fold ts in Hr. destruct r as [[l [|]]|]; cbn [check_insert_result] in Hr.
  - destruct Hr as [Hp ->].
    assert (Hs : is_Some (leaf_store t !! l)) by (apply (linked_path _ _ Hl); eauto).
    destruct Hs as [s Hs]. pose proof (represents_lookup _ _ _ _ _ _ Hrep Hp Hs) as HMk.
    destruct (Hsome s HMk) as [Hle Hdes].
    assert (Hadd : count (add_count s (- many)) = count s - many).
    { cbn [add_count set_count count]. apply swrap_id; simpl; lia. }
    pose proof (settled_number _ _ Hset) as Hsum. rewrite (total_count_lookup l s) in Hsum by done.
    assert (Hpos : ∀ l' s', delete l (leaf_store t) !! l' = Some s' → 0 < count s').
    { intros l' s' [_ H]%lookup_delete_Some. by apply (settled_count _ _ Hset l'). }
    destruct (total_count_nonneg _ Hpos) as [Hrest _].
    rewrite HMk, decide_False by done. unfold delete_spec. rewrite HMk.
    cbn [asserting update_leaf leaf_store]. rewrite lookup_alter_eq, Hs.
    cbn [fmap option_fmap option_map of_option res_bind leaf_to_delete leaf_add_count tuple_trie_leaf].
    unfold reached_zero. rewrite Hadd.
    destruct (count s =? many) eqn:Heq.
    + replace (count s - many =? 0) with true by lia. cbn [res_bind to_del tr_node di_many commit].
      destruct (Hdes ltac:(lia)) as [m' Hm'].
      destruct (commit_delete_ok m m' ts t (tokens vs) l s (add_count s (- many)) M many)
        as (t' & Hc & Hr' & Hn'); [done..|lia| |done|done|].
      { unfold reached_zero. rewrite Hadd. lia. }
      exists m', t'. split; [|done]. rewrite <-Hc. unfold commit, update_leaf. cbn [tr_node di_many].
      replace (<[l := add_count s (- many)]> (leaf_store t))
        with (alter (leaf_add_count (- many)) l (leaf_store t)); [done|].
      apply map_eq. intros l'. destruct (decide (l' = l)) as [->|Hne].
      * by rewrite lookup_alter_eq, Hs, lookup_insert_eq.
      * by rewrite lookup_alter_ne, lookup_insert_ne.
    + replace (count s - many =? 0) with false by lia.
      cbn [res_bind to_del no_delete]. eexists m, _. split; [done|].
      unfold set_number. cbn [root number_of_references leaf_store leaf_list update_leaf].
      rewrite swrap_id by (simpl; lia). split; [|done].
      refine (stored_update ts t M _ l s (λ s, add_count s (- many)) _ Hrep Hp Hs _ _); lia.
  - destruct Hr as (Hts & Hno & _). exfalso.
    apply (represents_none _ _ _ _ Hrep) in Hno. destruct Hts as [Hts|Hts]; [by apply Hnone|lia].
  - destruct Hr as (-> & _ & _ & Hno). apply (represents_none _ _ _ _ Hrep) in Hno.
    exists m, t. cbn [res_bind to_del no_delete]. unfold delete_spec. rewrite Hno, decide_True by done.
    split_and!; [done|done|lia].
Qed.

(** C32: [delete_tuple] followed by the commit it asks for, on a trie that
    represents a map: the count of the tuple with the key goes down, the tuple and
    the path that led to it alone go at zero, and a tuple that is not there is left
    alone. *)
Theorem delete_tuple_refines m tpl many t vs M :
  hash_float_ok hash_float → mem_fits m → tuple_denotes m tpl vs → forallb value_ok vs = true →
  represents (pred_types (pred tpl)) t M →
  0 < many → number_of_references t < 2 ^ 31 →
  (M !! tokens vs = None → pred_types (pred tpl) ≠ []) →
  (∀ s, M !! tokens vs = Some s → many <= count s < 2 ^ 15 ∧
     (count s = many → ∃ m', Tuple.destroy m (data s) = Ok m')) →
  ∃ m' t', delete_and_commit m tpl many t = Ok (m', t') ∧
    represents (pred_types (pred tpl)) t' (delete_spec (tokens vs) many M) ∧
    basic_invariants t' = true ∧
    number_of_references t' =
      number_of_references t - (if decide (M !! tokens vs = None) then 0 else many).
Proof.
  intros Hh Hm Hden Hok Hrep Hmany Hnum Hnone Hsome.
  destruct (delete_and_commit_ok m tpl many t vs M) as (m' & t' & Hd & Hr & Hn); try done.
  exists m', t'. split_and!; try done. eapply settled_basic_invariants. apply Hr.
Qed.

(** C30: [insert_tuple] on a trie that represents a map from keys to counted tuples
    always returns: it adds the tuple with its count, or adds the count to the
    tuple with the same key, reports which, and leaves a well-formed trie. *)
Theorem insert_tuple_refines m tpl many t vs M :
  hash_float_ok hash_float → mem_fits m → tuple_denotes m tpl vs → forallb value_ok vs = true →
  represents (pred_types (pred tpl)) t M →
  0 < many → number_of_references t + many < 2 ^ 31 →
  (∀ s, M !! tokens vs = Some s → count s + many < 2 ^ 15) →
  ∃ t', insert_tuple m tpl many t = Ok (t', bool_decide (M !! tokens vs = None)) ∧
    represents (pred_types (pred tpl)) t' (insert_spec (tokens vs) tpl many M) ∧
    basic_invariants t' = true ∧
    number_of_references t' = number_of_references t + many.
Proof.
  intros Hh Hm Hden Hok Hrep Hmany Hnum Hcnt.
  destruct (insert_tuple_ok m tpl many t vs M) as (t' & Hi & Hr & Hn); try done.
  exists t'. split_and!; try done. eapply settled_basic_invariants. apply Hr.
Qed.

Lemma new_trie_represents ts : represents ts new_trie ∅.
Proof.
  split.
  - constructor; [constructor| |]; cbn [new_trie root leaf_list leaf_store].
    + by right.
    + constructor.
    + intros l. rewrite lookup_empty. split; [intros H; by apply not_elem_of_nil in H|by intros [? ?]].
    + intros l. rewrite lookup_empty. split; [by intros [? ?]|]. intros [k H]. by apply path_no_child in H.
    + intros l k1 k2 H. by apply path_no_child in H.
    + done.
    + intros l s. by rewrite lookup_empty.
  - intros k s. rewrite lookup_empty. split; [done|]. intros (l & H & _). by apply path_no_child in H.
Qed.

(** a tuple without arguments that is not in the trie cannot be deleted: unlike
    any other tuple, it gets a leaf and fails the assertion on [found]. *)
Theorem delete_absent_without_arguments m tpl many :
  fields tpl = [] → 0 < many → delete_tuple m tpl many new_trie = Err assert_fail.
Proof.
  intros Hf Hm. unfold delete_tuple, tuple_stack, check_insert. rewrite Hf.
  replace (0 <? many) with true by lia. done.
Qed.

End TupleTrie.

(** ** On a concrete tuple *)

Lemma delete_absent_without_arguments_witness :
  delete_tuple id id id sample_memory (mk_tuple sample_pred []) 1 new_trie = Err assert_fail.
Proof. apply (delete_absent_without_arguments id id id _ _ 1); done. Defined.

Lemma sample_mem_fits : mem_fits sample_memory.
Proof.
  intros k p. destruct k; cbn [lists sample_memory int_lists float_lists node_lists];
    try (rewrite dom_empty; set_solver).
  intros [c Hc]%elem_of_dom. unfold sample_store in Hc.
  apply lookup_insert_Some in Hc as [[<- _]|[_ [<- _]%lookup_singleton_Some]]; lia.
Qed.

Lemma hash_zero_ok : hash_float_ok (λ _, 0).
Proof. by intros a b _. Qed.

Lemma insert_tuple_refines_witness :
  ∃ t', insert_tuple id id (λ _, 0) sample_memory sample_tuple 1 new_trie = Ok (t', true) ∧
    represents id id (λ _, 0) (pred_types sample_pred) t'
      {[ tokens [VInt 3; VList NodeList [5; 6]] := new_simple_tuple sample_tuple 1 ]} ∧
    basic_invariants t' = true ∧ number_of_references t' = 1.
Proof.
  destruct (insert_tuple_refines id id (λ _, 0) sample_memory sample_tuple 1 new_trie
    [VInt 3; VList NodeList [5; 6]] ∅) as (t' & Hi & Hr & Hb & Hn).
  - exact hash_zero_ok.
  - exact sample_mem_fits.
  - exact sample_tuple_denotes.
  - reflexivity.
  - apply new_trie_represents.
  - lia.
  - reflexivity.
  - intros s Hs. rewrite lookup_empty in Hs. discriminate Hs.
  - exists t'. unfold insert_spec in Hr. rewrite lookup_empty in Hi, Hr. by split_and!.
Defined.

Definition sample_trie : tuple_trie :=
  match insert_tuple id id (λ _, 0) sample_memory sample_tuple 1 new_trie with
  | Ok (t, _) => t
  | Err _ => new_trie
  end.

Lemma sample_trie_represents :
  represents id id (λ _, 0) (pred_types sample_pred) sample_trie
    {[ tokens [VInt 3; VList NodeList [5; 6]] := new_simple_tuple sample_tuple 1 ]} ∧
  number_of_references sample_trie = 1.
Proof.
  destruct (insert_tuple_ok id id (λ _, 0) sample_memory sample_tuple 1 new_trie
    [VInt 3; VList NodeList [5; 6]] ∅) as (t & Hi & Hr & Hn).
  - exact hash_zero_ok.
  - exact sample_mem_fits.
  - exact sample_tuple_denotes.
  - reflexivity.
  - apply new_trie_represents.
  - lia.
  - reflexivity.
  - intros s Hs. rewrite lookup_empty in Hs. discriminate Hs.
  - unfold sample_trie. rewrite Hi. unfold insert_spec in Hr. rewrite lookup_empty in Hr. by split.
Qed.

Lemma delete_tuple_refines_witness :
  ∃ m' t', delete_and_commit id id (λ _, 0) sample_memory sample_tuple 1 sample_trie = Ok (m', t') ∧
    represents id id (λ _, 0) (pred_types sample_pred) t'
      (delete_spec (tokens [VInt 3; VList NodeList [5; 6]]) 1
        {[ tokens [VInt 3; VList NodeList [5; 6]] := new_simple_tuple sample_tuple 1 ]}) ∧
    basic_invariants t' = true ∧
    number_of_references t' = number_of_references sample_trie -
      (if decide (({[ tokens [VInt 3; VList NodeList [5; 6]] := new_simple_tuple sample_tuple 1 ]} : gmap (list token) simple_tuple)
                  !! tokens [VInt 3; VList NodeList [5; 6]] = None) then 0 else 1).
Proof.
  apply (delete_tuple_refines id id (λ _, 0) sample_memory sample_tuple 1 sample_trie
           [VInt 3; VList NodeList [5; 6]]
           {[ tokens [VInt 3; VList NodeList [5; 6]] := new_simple_tuple sample_tuple 1 ]}).
  - exact hash_zero_ok.
  - exact sample_mem_fits.
  - exact sample_tuple_denotes.
  - reflexivity.
  - apply sample_trie_represents.
  - lia.
  - rewrite (proj2 sample_trie_represents). reflexivity.
  - intros H. discriminate H.
  - intros s Hs. rewrite lookup_singleton_eq in Hs. injection Hs as <-. split; [done|].
    intros _. eexists. vm_compute. reflexivity.
Defined.
