(* ===== verification/Match.v ===== *)
(** Partial tuples to look for: [vm/match.hpp].  A field is exact, with a value, or
    anything of its type. *)

From Stdlib Require Import ZArith Lia Bool SpecFloat.
From stdpp Require Import base tactics list numbers option.
From S2P Require Import Prelude Words Types.

#[local] Open Scope Z_scope.

Record match_field : Type := mk_match_field { exact : bool; mtype : field_type }.

Record match_ : Type := mk_match {
  any_exact : bool;
  types : list match_field;
  vals : list tuple_field
}.

(** the constructor, with [set_any_all] *)
Definition set_any_all (p : predicate) : list match_field :=
  map (mk_match_field false) (pred_types p).

Definition new_match (p : predicate) : match_ :=
  mk_match false (set_any_all p) (replicate (num_fields p) 0).

Definition match_size (m : match_) : nat := length (types m).
Definition has_any_exact (m : match_) : bool := any_exact m.

(** the two stacks, the first field on top *)
Definition get_val_stack (m : match_) : list tuple_field := vals m.
Definition get_type_stack (m : match_) : list match_field := types m.

Definition set_exact (num : nat) (t : field_type) (f : tuple_field) (m : match_) : match_ :=
  mk_match true (<[num := mk_match_field true t]> (types m)) (<[num := f]> (vals m)).

Definition match_int (num : nat) (val : Z) (m : match_) : res match_ :=
  asserting (num <? match_size m)%nat
    (let* f := of_option (vals m !! num) in
     Ok (set_exact num FIELD_INT (set_int_field f val) m)).

Definition match_float (num : nat) (val : spec_float) (m : match_) : res match_ :=
  asserting (num <? match_size m)%nat
    (let* f := of_option (vals m !! num) in
     Ok (set_exact num FIELD_FLOAT (set_float_field f val) m)).

Definition match_node (num : nat) (val : Z) (m : match_) : res match_ :=
  asserting (num <? match_size m)%nat
    (let* f := of_option (vals m !! num) in
     Ok (set_exact num FIELD_NODE (set_node_field f val) m)).
