(* ===== verification/TrieLookup.v ===== *)
(** Lookups in a trie by a partial tuple: [get_by_*], [delete_by_index] and
    [match_predicate(match)] of [db/trie.cpp].  The labels and gotos of
    [match_predicate] become the states of a machine; an alternative on its stack
    is the rest of a sibling list, with the buckets after it in a table. *)

From Stdlib Require Import ZArith Lia Bool SpecFloat.
From stdpp Require Import base tactics list numbers option gmap.
From S2P Require Import Prelude Words Types RuntimeList Tuple SimpleTuple Trie Match TupleTrie.

#[local] Open Scope Z_scope.


Abbreviation match_stack := (list (match_field * tuple_field)).

Definition match_to_stack (m : match_) : match_stack :=
  zip (get_type_stack m) (get_val_stack m).

Section Lookup.
Context (hash_int hash_uint hash_float : Z → Z).

(** [get_by_int], [get_by_float], [get_by_node]: the nodes looked at and the
    position of the one found *)
Definition get_by (type : field_type) (field : tuple_field) (c : children)
  : res (list trie_node * option nat) :=
  match type with
  | FIELD_INT | FIELD_FLOAT | FIELD_NODE =>
      asserting (negb (null c))
        (let* cs := candidates hash_int hash_uint hash_float c type field in
         Ok (cs, (scan type field cs 0).1))
  | _ => Err assert_fail
  end.

(** the node at a position is unlinked by [delete_path] *)
Definition remove_child (c : children) (type : field_type) (field : tuple_field) (i : nat)
  : res children :=
  match c with
  | list_child cs => Ok (shrink_list (delete i cs))
  | hash_child t bs total =>
      let* k := hash_key hash_int hash_uint hash_float type field in
      let b := hash_item (length bs) k in
      let* cs := of_option (bs !! b) in
      Ok (shrink_hash t (<[b := delete i cs]> bs) total (Some i))
  | _ => Err assert_fail
  end.

(** The walk of [delete_by_index] down the exact fields, and what [delete_branch]
    and [delete_path] do there: the leaves to delete, and the children left. *)
Fixpoint index_walk (stk : match_stack) (c : children) : res (option (children * list leaf_id)) :=
  match stk with
  | [] => Ok (Some (no_child, branch_leaves c))
  | (f, field) :: stk =>
      if negb (exact f) then Ok (Some (no_child, branch_leaves c))
      else
        let* r := get_by (mtype f) field c in
        let '(cs, found) := r in
        match found with
        | None => Ok None
        | Some i =>
            let* n := of_option (cs !! i) in
            let* r := index_walk stk (child n) in
            match r with
            | None => Ok None
            | Some (c', ls) =>
                let* c :=
                  match c' with
                  | no_child => remove_child c (mtype f) field i
                  | _ => put_candidates hash_int hash_uint hash_float c (mtype f) field
                           (<[i := mk_node (node_data n) c']> cs)
                  end in
                Ok (Some (c, ls))
            end
        end
  end.

Definition delete_by_index {L D} `{trie_leaf L D} (m : memory) (mt : match_) (t : trie L)
  : res (memory * trie L) :=
  asserting (basic_invariants t)
    (let* r := index_walk (match_to_stack mt) (root t) in
     match r with
     | None => Ok (m, t)
     | Some (c, ls) =>
         let* r := delete_leaves m ls t 0 in
         let '(m, t, count) := r in
         let n := swrap 32 (number_of_references t - count) in
         asserting (0 <=? n)
           (let t := mk_trie c n (leaf_store t) (leaf_list t) in
            asserting (basic_invariants t) (Ok (m, t)))
     end).

(** [match_predicate(m, vec)]: the search with a stack of alternatives.  An
    alternative is the rest of a sibling list, with the buckets after it when the
    siblings are in a table, and the match stack at that point. *)
Definition continuation_frame : Type := list trie_node * option (list (list trie_node)) * match_stack.

(** [buckets < end_buckets], for the buckets from [buckets] on *)
Definition buckets_left (bs : list (list trie_node)) : bool :=
  match bs with [] => false | _ => true end.

(** [for(; *buckets == NULL && buckets < end_buckets; ++buckets)]: the bucket is read
    before the bound is tested, so the loop reads the word behind a table that has no
    more buckets.  [word] says whether that word is null; [None] when it cannot be
    read. *)
Fixpoint first_bucket (word : option bool) (bs : list (list trie_node))
  : res (option (list trie_node * list (list trie_node))) :=
  match bs with
  | [] =>
      let* is_null := of_option word in
      if is_null && buckets_left bs then Err undefined_behaviour else Ok None
  | cs :: bs' =>
      let is_null := match cs with [] => true | _ => false end in
      if is_null && buckets_left bs then first_bucket word bs' else Ok (Some (cs, bs'))
  end.

(** ADD_ALT of what follows a node of a list, or of a table *)
Definition add_alt (word : option bool) (next : list trie_node) (tbl : option (list (list trie_node)))
    (stk : match_stack) (cont : list continuation_frame) : res (list continuation_frame) :=
  match next, tbl with
  | _ :: _, _ => Ok ((next, tbl, stk) :: cont)
  | [], None => Ok cont
  | [], Some bs =>
      let* b := first_bucket word bs in
      Ok (match b with Some (cs, bs) => (cs, Some bs, stk) :: cont | None => cont end)
  end.

(** the match stack below a node taken for a field that is not exact *)
Definition any_field (n : trie_node) (f : match_field) (field : tuple_field) (stk : match_stack)
  : match_stack :=
  match mtype f with
  | FIELD_LIST_INT | FIELD_LIST_FLOAT | FIELD_LIST_NODE =>
      if int_field (node_data n) =? 0 then stk
      else
        let item := match mtype f with
                    | FIELD_LIST_INT => FIELD_INT
                    | FIELD_LIST_FLOAT => FIELD_FLOAT
                    | _ => FIELD_NODE
                    end in
        (mk_match_field false item, 0) :: (f, field) :: stk
  | FIELD_INT | FIELD_FLOAT | FIELD_NODE | FIELD_STRING => stk
  | FIELD_UNKNOWN _ => (f, field) :: stk
  end.

Inductive match_state : Type :=
  | going_down (c : children) (stk : match_stack)  (** match_begin below a node *)
  | at_node (n : trie_node) (next : list trie_node) (tbl : option (list (list trie_node)))
      (stk : match_stack)                          (** match_begin at an alternative *)
  | succeeded (n : trie_node) (stk : match_stack)  (** match_succeeded *)
  | try_again.

(** one round of the gotos: the next state, the frames, and a leaf found *)
Definition match_step (word : option bool) (s : match_state) (cont : list continuation_frame)
  : res (option match_state * list continuation_frame * list leaf_id) :=
  match s with
  | going_down c [] => Err assert_fail
  | going_down c ((f, field) :: stk) =>
      if exact f then
        let* r := get_by (mtype f) field c in
        let '(cs, found) := r in
        match found with
        | Some i => let* n := of_option (cs !! i) in Ok (Some (succeeded n stk), cont, [])
        | None => Ok (Some try_again, cont, [])
        end
      else
        match c with
        | no_child | leaf_child _ => Err assert_fail
        | list_child [] => Err assert_fail
        | list_child (n :: next) => Ok (Some (at_node n next None ((f, field) :: stk)), cont, [])
        | hash_child _ bs _ =>
            let* b := first_bucket word bs in
            match b with
            | Some (n :: next, bs) => Ok (Some (at_node n next (Some bs) ((f, field) :: stk)), cont, [])
            | _ => Err assert_fail
            end
        end
  | at_node n next tbl [] => Err assert_fail
  | at_node n next tbl ((f, field) :: stk) =>
      let* cont := add_alt word next tbl ((f, field) :: stk) cont in
      Ok (Some (succeeded n (any_field n f field stk)), cont, [])
  | succeeded n stk =>
      match child n with
      | leaf_child l => Ok (Some try_again, cont, [l])
      | c => Ok (Some (going_down c stk), cont, [])
      end
  | try_again =>
      match cont with
      | [] => Ok (None, [], [])
      | (n :: next, tbl, stk) :: cont => Ok (Some (at_node n next tbl stk), cont, [])
      | ([], _, _) :: _ => Err assert_fail
      end
  end.

(** [behind n] is what a scan finds behind its table when [n] rounds are left *)
Fixpoint match_run (behind : nat → option bool) (fuel : nat) (s : match_state) (cont : list continuation_frame)
    (vec : list leaf_id) : res (list leaf_id) :=
  match fuel with
  | O => Err undefined_behaviour
  | S fuel =>
      let* r := match_step (behind fuel) s cont in
      let '(s, cont, found) := r in
      match s with
      | Some s => match_run behind fuel s cont (vec ++ found)
      | None => Ok (vec ++ found)
      end
  end.

(** a node is taken up again, entered, taken and left for its children at most once:
    four rounds for each *)
Fixpoint count_nodes (c : children) : nat :=
  let fix go (cs : list trie_node) : nat :=
    match cs with
    | [] => 0%nat
    | mk_node _ c :: cs => S (count_nodes c + go cs)%nat
    end in
  let fix gos (bs : list (list trie_node)) : nat :=
    match bs with
    | [] => 0%nat
    | cs :: bs => (go cs + gos bs)%nat
    end in
  match c with
  | no_child | leaf_child _ => 0%nat
  | list_child cs => go cs
  | hash_child _ bs _ => gos bs
  end.

Definition match_predicate {L} (behind : nat → option bool) (mt : match_) (t : trie L) : res (list leaf_id) :=
  if negb (has_any_exact mt) then Ok (leaf_list t)
  else if number_of_references t =? 0 then Ok []
  else
    asserting (negb (root_is_leaf t) && negb (null (root t)))
      (match_run behind (4 * count_nodes (root t) + 4) (going_down (root t) (match_to_stack mt)) [] []).

(** words that can be read are as good as any others *)
Lemma first_bucket_word w w' bs : first_bucket (Some w) bs = first_bucket (Some w') bs.
Proof.
  induction bs as [|cs bs IH]; cbn; [by rewrite !andb_false_r|]. by destruct cs.
Qed.

Lemma match_step_word w w' s cont : match_step (Some w) s cont = match_step (Some w') s cont.
Proof.
  destruct s as [c [|[f field] stk]|n [|n' next] [bs|] [|[f field] stk]|n stk|]; cbn [match_step add_alt]; try done.
  - destruct (exact f); [done|]. destruct c as [| | |t bs total]; try done. by rewrite (first_bucket_word w w').
  - by rewrite (first_bucket_word w w').
Qed.

Lemma match_predicate_word {L} b b' mt (t : trie L) :
  (∀ n, is_Some (b n)) → (∀ n, is_Some (b' n)) → match_predicate b mt t = match_predicate b' mt t.
Proof.
  intros Hb Hb'. unfold match_predicate.
  assert (Hr : ∀ fuel s cont vec, match_run b fuel s cont vec = match_run b' fuel s cont vec).
  { induction fuel as [|fuel IH]; intros s cont vec; [done|]. cbn [match_run].
    destruct (Hb fuel) as [w ->], (Hb' fuel) as [w' ->]. rewrite (match_step_word w w').
    destruct (match_step (Some w') s cont) as [[[[s'|] cont'] found]|]; cbn [res_bind]; [apply IH|done|done]. }
  by rewrite Hr.
Qed.

End Lookup.

(** the words the program meets: it may as well be cleared memory, [match_predicate_word] *)
Definition cleared_memory (n : nat) : option bool := Some true.

(** ** What a lookup returns *)

Section LookupProofs.
Context (hash_int hash_uint hash_float : Z → Z).
Abbreviation wf := (Trie.wf hash_int hash_uint hash_float).
Abbreviation match_run := (match_run hash_int hash_uint hash_float).
Abbreviation match_step := (match_step hash_int hash_uint hash_float).

Lemma count_nodes_list cs :
  count_nodes (list_child cs) = sum_list_with (λ n, S (count_nodes (child n))) cs.
Proof. induction cs as [|[d c] cs IH]; [done|]. cbn [sum_list_with child]. rewrite <-IH. done. Qed.

Lemma count_nodes_kids c :
  count_nodes c = sum_list_with (λ n, S (count_nodes (child n))) (kids c).
Proof.
  destruct c as [|l|cs|t bs total]; [done..|apply count_nodes_list|]. cbn [kids].
  induction bs as [|cs bs IH]; [done|]. cbn [concat].
  rewrite sum_list_with_app, <-IH, <-count_nodes_list. done.
Qed.

(** the key of a tuple against the fields to match, the first on top *)
Fixpoint matches (stk : match_stack) (toks : list token) : Prop :=
  match toks, stk with
  | [], [] => True
  | k :: toks, (f, field) :: stk =>
      if exact f then k = canon (mtype f) field ∧ matches stk toks
      else
        match list_kind_of (mtype f) with
        | None => matches stk toks
        | Some kind =>
            if decide (k = (0, 0, 0)) then matches stk toks
            else matches ((mk_match_field false (item_type kind), 0) :: (f, field) :: stk) toks
        end
  | _, _ => False
  end.

(** exact fields are numbers or nodes, without NaN, and the types are those of the
    trie *)
Definition match_field_ok (e : match_field * tuple_field) (t : field_type) : Prop :=
  mtype e.1 = t ∧
  (exact e.1 = true → list_kind_of t = None ∧ data_ok t e.2 = true).

Definition match_stack_ok (stk : match_stack) (ts : list field_type) : Prop :=
  Forall2 match_field_ok stk ts.

Definition node_ok (n : trie_node) (t : field_type) (ts : list field_type) : Prop :=
  data_ok t (node_data n) = true ∧ wf (child n) (pushed_types t (node_data n) ++ ts).

Lemma any_field_types n f field stk t ts :
  match_field_ok (f, field) t → exact f = false → data_ok t (node_data n) = true →
  match_stack_ok stk ts →
  match_stack_ok (any_field n f field stk) (pushed_types t (node_data n) ++ ts) ∧
  ∀ toks, matches (any_field n f field stk) toks ↔
          matches ((f, field) :: stk) (node_key t n :: toks).
Proof.
  intros [Ht Hex] Hf Hd Hst. cbn [fst snd] in *. subst t. unfold pushed_types, node_key.
  cbn [matches]. rewrite Hf. destruct (list_kind_of (mtype f)) as [k|] eqn:Hk.
  - assert (Ha : any_field n f field stk = if int_field (node_data n) =? 0 then stk
              else (mk_match_field false (item_type k), 0) :: (f, field) :: stk).
    { unfold any_field. destruct (mtype f); try discriminate Hk; by injection Hk as <-. }
    rewrite Ha. assert (Hc : ∀ z, z = 0 ∨ z = 1 → canon (mtype f) z = (z, 0, 0)).
    { intros z Hz. destruct (mtype f); try discriminate Hk; cbn [canon];
        by rewrite int_field_small by lia. }
    destruct (list_datum _ _ k Hk Hd) as [Hn|Hn]; rewrite Hn.
    + rewrite (Hc 0), int_field_small by lia. split; [exact Hst|]. intros toks. by rewrite decide_True.
    + rewrite (Hc 1), int_field_small by lia. split; [|intros toks; by rewrite decide_False].
      constructor; [|constructor; [|exact Hst]]; (split; [done|]); cbn [fst exact]; [done|by rewrite Hf].
  - assert (any_field n f field stk = stk) as ->; [|by split].
    unfold any_field. destruct (mtype f); try discriminate Hk; try discriminate Hd; done.
Qed.


(** ** The states of the search *)

Definition stack_types (stk : match_stack) : list field_type := map (λ e, mtype e.1) stk.

Lemma stack_types_ok stk ts : match_stack_ok stk ts → stack_types stk = ts.
Proof. induction 1 as [|e t es ts [He _] _ IH]; [done|]. cbn [stack_types map]. by rewrite He, <-IH. Qed.

Definition stack_fields_ok (stk : match_stack) : Prop := match_stack_ok stk (stack_types stk).

(** alternatives for a field that is not exact, and the leaves under them *)
Definition nodes_ok (ns : list trie_node) (stk : match_stack) : Prop :=
  match stk with
  | [] => False
  | (f, field) :: stk' =>
      exact f = false ∧ stack_fields_ok stk ∧
      Forall (λ n, node_ok n (mtype f) (stack_types stk')) ns
  end.

Definition nodes_yield (ns : list trie_node) (stk : match_stack) (l : leaf_id) : Prop :=
  match stk with
  | [] => False
  | (f, field) :: stk' =>
      ∃ n toks, n ∈ ns ∧
        path (child n) (pushed_types (mtype f) (node_data n) ++ stack_types stk') toks l ∧
        matches stk (node_key (mtype f) n :: toks)
  end.

Definition rest (tbl : option (list (list trie_node))) : list trie_node := concat (default [] tbl).
Definition frame_nodes (fr : continuation_frame) : list trie_node := fr.1.1 ++ rest fr.1.2.
Definition frame_ok (fr : continuation_frame) : Prop :=
  fr.1.1 ≠ [] ∧ nodes_ok (frame_nodes fr) fr.2.
Definition frames_yield (cont : list continuation_frame) (l : leaf_id) : Prop :=
  ∃ fr, fr ∈ cont ∧ nodes_yield (frame_nodes fr) fr.2 l.

Definition state_ok (s : match_state) : Prop :=
  match s with
  | going_down c stk =>
      stk ≠ [] ∧ wf c (stack_types stk) ∧ stack_fields_ok stk
  | at_node n next tbl stk => nodes_ok (n :: next ++ rest tbl) stk
  | succeeded n stk => wf (child n) (stack_types stk) ∧ stack_fields_ok stk
  | try_again => True
  end.

Definition state_yields (s : match_state) (l : leaf_id) : Prop :=
  match s with
  | going_down c stk => ∃ toks, path c (stack_types stk) toks l ∧ matches stk toks
  | at_node n next tbl stk => nodes_yield (n :: next ++ rest tbl) stk l
  | succeeded n stk => ∃ toks, path (child n) (stack_types stk) toks l ∧ matches stk toks
  | try_again => False
  end.

Definition weigh (ns : list trie_node) : nat := sum_list_with (λ n, S (count_nodes (child n))) ns.
Definition frames_weight (cont : list continuation_frame) : nat :=
  sum_list_with (λ fr, 4 * weigh (frame_nodes fr))%nat cont.

Definition state_weight (s : match_state) : nat :=
  match s with
  | going_down c _ => 4 * count_nodes c + 3
  | at_node n next tbl _ => 4 * weigh (n :: next ++ rest tbl) + 1
  | succeeded n _ => 4 * count_nodes (child n) + 4
  | try_again => 2
  end.

Lemma first_bucket_ok word bs :
  is_Some word →
  ∃ b, first_bucket word bs = Ok b ∧
    match b with
    | Some (cs, bs') => cs ≠ [] ∧ concat bs = cs ++ concat bs'
    | None => concat bs = []
    end.
Proof.
  intros [w ->]. induction bs as [|[|c cs] bs IH]; cbn.
  - rewrite andb_false_r. by exists None.
  - exact IH.
  - eexists. split; [done|]. by split.
Qed.

(** [add_alt] keeps the alternatives that are left *)
Lemma add_alt_ok word next tbl stk cont :
  is_Some word →
  ∃ cont', add_alt word next tbl stk cont = Ok cont' ∧
  (nodes_ok (next ++ rest tbl) stk → Forall frame_ok cont → Forall frame_ok cont') ∧
  frames_weight cont' = (4 * weigh (next ++ rest tbl) + frames_weight cont)%nat ∧
  ∀ l, frames_yield cont' l ↔ nodes_yield (next ++ rest tbl) stk l ∨ frames_yield cont l.
Proof.
  intros Hw. unfold frames_yield.
  assert (Hnone : ∀ l, (∃ fr, fr ∈ cont ∧ nodes_yield (frame_nodes fr) fr.2 l) ↔
    nodes_yield [] stk l ∨ ∃ fr, fr ∈ cont ∧ nodes_yield (frame_nodes fr) fr.2 l).
  { intros l. split; [by right|]. intros [H|H]; [|done]. destruct stk as [|[f field] stk]; [done|].
    destruct H as (n & toks & Hn & _). by apply not_elem_of_nil in Hn. }
  destruct next as [|n next]; cbn [add_alt app].
  - destruct tbl as [bs|]; [|by exists cont].
    destruct (first_bucket_ok word bs Hw) as (b & -> & Hb). cbn [res_bind rest default].
    unfold rest. cbn [default from_option id].
    eexists. split; [done|]. destruct b as [[cs bs']|].
    + destruct Hb as [Hne ->]. split_and!.
      * intros H Hc. by constructor.
      * done.
      * intros l. setoid_rewrite elem_of_cons. unfold frame_nodes. naive_solver.
    + rewrite Hb. by split_and!.
  - eexists. split; [done|]. split_and!.
    + intros H Hc. by constructor.
    + done.
    + intros l. setoid_rewrite elem_of_cons. unfold frame_nodes. naive_solver.
Qed.


(** what a step does to a search *)
Definition step_ok (s : match_state) (cont : list continuation_frame) : Prop :=
  ∀ word, is_Some word → ∃ s' cont' found, match_step word s cont = Ok (s', cont', found) ∧
    match s' with
    | None => cont' = [] ∧ found = [] ∧ ∀ l, ¬ (state_yields s l ∨ frames_yield cont l)
    | Some s' =>
        state_ok s' ∧ Forall frame_ok cont' ∧
        (state_weight s' + frames_weight cont' < state_weight s + frames_weight cont)%nat ∧
        ∀ l, state_yields s l ∨ frames_yield cont l ↔
             l ∈ found ∨ state_yields s' l ∨ frames_yield cont' l
    end.

Lemma pushed_types_scalar t f : list_kind_of t = None → pushed_types t f = [].
Proof. unfold pushed_types. by intros ->. Qed.

Lemma wf_cons_not_null c t ts : wf c (t :: ts) → null c = false ∧ kids c ≠ [].
Proof. inversion 1 as [|? ? ? Hs Hne]; subst. by destruct c. Qed.

Lemma weigh_elem n ns : n ∈ ns → (S (count_nodes (child n)) <= weigh ns)%nat.
Proof.
  intros Hn. apply list_elem_of_split in Hn as (l1 & l2 & ->). unfold weigh.
  rewrite sum_list_with_app. cbn [sum_list_with]. lia.
Qed.

Lemma step_exact c f field stk cont :
  hash_float_ok hash_float → exact f = true →
  state_ok (going_down c ((f, field) :: stk)) → Forall frame_ok cont →
  step_ok (going_down c ((f, field) :: stk)) cont.
Proof.
  intros Hh Hex (_ & Hwf & Hst) Hcont. unfold step_ok. intros word Hword. cbn [TrieLookup.match_step]. rewrite Hex.
  apply Forall2_cons in Hst as [[_ Hf] Hst]. destruct (Hf Hex) as [Hk Hd]. cbn [fst snd stack_types map] in *.
  fold (stack_types stk) in *. destruct (wf_cons_not_null _ _ _ Hwf) as [Hnull Hne].
  destruct (match_children_ok hash_int hash_uint hash_float c (mtype f) (stack_types stk) field Hh
    (or_introl Hwf) Hd) as (cs & found & count & Hmc & Hfound).
  unfold match_children in Hmc. apply res_bind_ok in Hmc as (cs' & Hcs & Hmc).
  apply asserting_ok in Hmc as [_ Hmc].
  assert (Hget : get_by hash_int hash_uint hash_float (mtype f) field c = Ok (cs, found)).
  { unfold get_by. rewrite Hnull, Hcs. cbn [negb asserting res_bind].
    destruct (scan (mtype f) field cs' 0) as [r n] eqn:Hs. injection Hmc as -> -> ->. cbn [fst].
    destruct (mtype f); try discriminate Hk; try discriminate Hd; done. }
  rewrite Hget. cbn [res_bind]. inversion Hwf as [|? ? ? Hs _ Hkids Hnd]; subst.
  assert (Hyield : ∀ l, state_yields (going_down c ((f, field) :: stk)) l ↔
    ∃ n toks, n ∈ kids c ∧ node_key (mtype f) n = canon (mtype f) field ∧
      path (child n) (stack_types stk) toks l ∧ matches stk toks).
  { intros l. cbn [state_yields stack_types map fst]. fold (stack_types stk).
    setoid_rewrite path_cons. setoid_rewrite pushed_types_scalar; [|done..]. cbn [app]. split.
    - intros (toks & (n & toks' & Hn & -> & Hp) & Hm). cbn [matches] in Hm. rewrite Hex in Hm.
      destruct Hm as [Hkey Hm]. by exists n, toks'.
    - intros (n & toks & Hn & Hkey & Hp & Hm). exists (node_key (mtype f) n :: toks).
      split; [by exists n, toks|]. cbn [matches]. by rewrite Hex. }
  destruct found as [i|].
  - destruct Hfound as (n & others & Hi & Hkey & Hperm & _). rewrite Hi. cbn [of_option res_bind].
    eexists _, cont, []. split; [done|]. rewrite Hperm in Hkids, Hnd.
    apply Forall_cons_1 in Hkids as [[_ Hwn] _]. cbn [map] in Hnd. apply NoDup_cons in Hnd as [Hnk _].
    rewrite pushed_types_scalar in Hwn by done. split_and!; [done|done| |].
    + cbn [state_weight]. rewrite (count_nodes_kids c).
      assert (n ∈ kids c) as Hn%weigh_elem by (rewrite Hperm; by left). unfold weigh in Hn. lia.
    + intros l. rewrite Hyield. cbn [state_yields]. setoid_rewrite Hperm. setoid_rewrite elem_of_cons.
      split.
      * intros [(n' & toks & [->|Hn'] & Hkey' & H)|H]; [by right; left; exists toks| |by right; right].
        exfalso. apply Hnk. rewrite Hkey, <-Hkey'. apply list_elem_of_fmap. eauto.
      * intros [H|[(toks & H)|H]]; [by apply not_elem_of_nil in H| |by right].
        left. exists n, toks. auto.
  - eexists _, cont, []. split; [done|]. split_and!; [done|done|cbn [state_weight]; lia|].
    intros l. rewrite Hyield. cbn [state_yields]. split; [|set_solver].
    intros [(n & toks & Hn & Hkey & _)|H]; [by apply Hfound in Hn|by right; right].
Qed.

Lemma step_going_down c f field stk cont :
  exact f = false → state_ok (going_down c ((f, field) :: stk)) → Forall frame_ok cont →
  step_ok (going_down c ((f, field) :: stk)) cont.
Proof.
  intros Hex (_ & Hwf & Hst) Hcont. unfold step_ok. intros word Hword. cbn [TrieLookup.match_step]. rewrite Hex.
  cbn [stack_types map fst] in Hwf. fold (stack_types stk) in Hwf.
  destruct (wf_cons_not_null _ _ _ Hwf) as [_ Hne].
  assert (Hk : Forall (λ n, node_ok n (mtype f) (stack_types stk)) (kids c)) by (by inversion Hwf).
  assert (Hgo : ∀ n next tbl, kids c = n :: next ++ rest tbl →
    state_ok (at_node n next tbl ((f, field) :: stk)) ∧
    (state_weight (at_node n next tbl ((f, field) :: stk)) + frames_weight cont <
     state_weight (going_down c ((f, field) :: stk)) + frames_weight cont)%nat ∧
    ∀ l, state_yields (going_down c ((f, field) :: stk)) l ∨ frames_yield cont l ↔
         l ∈ [] ∨ state_yields (at_node n next tbl ((f, field) :: stk)) l ∨ frames_yield cont l).
  { intros n next tbl Hkids. split_and!.
    - cbn [state_ok nodes_ok]. split_and!; [done|done|by rewrite <-Hkids].
    - cbn [state_weight]. rewrite count_nodes_kids, Hkids. unfold weigh. lia.
    - intros l. cbn [state_yields nodes_yield stack_types map fst]. fold (stack_types stk).
      setoid_rewrite path_cons. rewrite <-Hkids. rewrite elem_of_nil. naive_solver. }
  destruct c as [|l|[|n next]|t bs total]; [done|by inversion Hwf|done| |].
  - destruct (Hgo n next None) as (H1 & H2 & H3); [by rewrite app_nil_r|]. eexists _, cont, [].
    split; [done|]. by split_and!.
  - destruct (first_bucket_ok word bs Hword) as (b & -> & Hb). cbn [res_bind].
    destruct b as [[[|n next] bs']|].
    + by destruct Hb.
    + destruct Hb as [_ Hb]. destruct (Hgo n next (Some bs')) as (H1 & H2 & H3); [exact Hb|].
      eexists _, cont, []. split; [done|]. by split_and!.
    + cbn [kids] in Hne. by rewrite Hb in Hne.
Qed.

Lemma step_at_node n next tbl stk cont :
  state_ok (at_node n next tbl stk) → Forall frame_ok cont → step_ok (at_node n next tbl stk) cont.
Proof.
  destruct stk as [|[f field] stk]; [done|]. intros (Hex & Hst & Hk) Hcont.
  apply Forall_cons_1 in Hk as [[Hd Hwn] Hk].
  unfold step_ok. intros word Hword. cbn [TrieLookup.match_step].
  destruct (add_alt_ok word next tbl ((f, field) :: stk) cont Hword) as (cont' & -> & Hok & Hw & Hy).
  cbn [res_bind].
  eexists _, _, []. split; [done|].
  assert (Hst' := Hst). apply Forall2_cons in Hst' as [Hf Hst'].
  destruct (any_field_types n f field stk _ _ Hf Hex Hd Hst') as [Hty Hm].
  assert (Htypes : stack_types (any_field n f field stk) = pushed_types (mtype f) (node_data n) ++ stack_types stk).
  { exact (stack_types_ok _ _ Hty). }
  split_and!.
  - cbn [state_ok]. unfold stack_fields_ok. by rewrite Htypes.
  - apply Hok; [|done]. by split_and!.
  - rewrite Hw. cbn [state_weight]. unfold weigh. cbn [sum_list_with]. lia.
  - intros l. rewrite Hy. cbn [state_yields]. rewrite Htypes. setoid_rewrite Hm.
    cbn [nodes_yield]. setoid_rewrite elem_of_cons. rewrite elem_of_nil. naive_solver.
Qed.

Lemma step_succeeded n stk cont :
  state_ok (succeeded n stk) → Forall frame_ok cont → step_ok (succeeded n stk) cont.
Proof.
  intros [Hwf Hst] Hcont. unfold step_ok. intros word Hword. cbn [TrieLookup.match_step state_yields state_weight].
  destruct stk as [|e stk].
  - cbn [stack_types map] in *. inversion Hwf as [l Hl|]; subst. eexists _, cont, [l]. split; [done|].
    split_and!; [done|done|cbn [state_weight]; lia|]. intros l'. cbn [state_yields].
    rewrite list_elem_of_singleton. split.
    + intros [(toks & Hp & _)|H]; [|by right; right]. left. by inversion Hp.
    + intros [->|[[]|H]]; [|by right]. left. exists []. split; [constructor|done].
  - assert (Hnl : ∀ l, child n ≠ leaf_child l).
    { intros l E. rewrite E in Hwf. by inversion Hwf as [|? ? ? Hs]; subst. }
    eexists (Some (going_down (child n) (e :: stk))), cont, [].
    split; [destruct (child n); [done|by destruct (Hnl l)|done..]|].
    split_and!; [by split_and!|done|cbn [state_weight]; lia|].
    intros l. cbn [state_yields]. rewrite elem_of_nil. tauto.
Qed.

Lemma step_try_again cont : Forall frame_ok cont → step_ok try_again cont.
Proof.
  intros Hcont. unfold step_ok. intros word Hword. destruct cont as [|[[[|n next] tbl] stk] cont]; cbn [TrieLookup.match_step].
  - eexists None, [], []. split; [done|]. split_and!; [done|done|]. intros l [[]|(fr & Hfr & _)].
    by apply not_elem_of_nil in Hfr.
  - apply Forall_cons_1 in Hcont as [[Hne _] _]. done.
  - apply Forall_cons_1 in Hcont as [[_ Hf] Hcont]. eexists _, cont, []. split; [done|].
    change (frames_weight ((n :: next, tbl, stk) :: cont))
      with (4 * weigh (n :: next ++ rest tbl) + frames_weight cont)%nat.
    split_and!; [exact Hf|done|cbn [state_weight]; lia|].
    intros l. cbn [state_yields]. unfold frames_yield. setoid_rewrite elem_of_cons. rewrite elem_of_nil.
    unfold frame_nodes. naive_solver.
Qed.

Lemma match_step_ok s cont :
  hash_float_ok hash_float → state_ok s → Forall frame_ok cont → step_ok s cont.
Proof.
  intros Hh Hs Hcont. destruct s as [c [|[f field] stk]|n next tbl stk|n stk|].
  - by destruct Hs.
  - destruct (exact f) eqn:Hex; [by apply step_exact|by apply step_going_down].
  - by apply step_at_node.
  - by apply step_succeeded.
  - by apply step_try_again.
Qed.

(** the search ends, and adds the leaves of its states *)
Lemma match_run_ok behind : hash_float_ok hash_float → (∀ n, is_Some (behind n)) → ∀ fuel s cont vec,
  state_ok s → Forall frame_ok cont →
  (state_weight s + frames_weight cont < fuel)%nat →
  ∃ vec', match_run behind fuel s cont vec = Ok vec' ∧
    ∀ l, l ∈ vec' ↔ l ∈ vec ∨ state_yields s l ∨ frames_yield cont l.
Proof.
  intros Hh Hbe. induction fuel as [|fuel IH]; intros s cont vec Hs Hcont Hfuel; [lia|].
  cbn [TrieLookup.match_run].
  destruct (match_step_ok s cont Hh Hs Hcont (behind fuel) (Hbe fuel)) as ([s'|] & cont' & found & -> & Hstep); cbn [res_bind].
  - destruct Hstep as (Hs' & Hcont' & Hw & Hy).
    destruct (IH s' cont' (vec ++ found) Hs' Hcont') as (vec' & Hr & Hv); [lia|].
    exists vec'. split; [done|]. intros l. rewrite Hv, elem_of_app, Hy. tauto.
  - destruct Hstep as (-> & -> & Hno). eexists. split; [done|]. intros l.
    rewrite app_nil_r. split; [by left|]. intros [H|H]; [done|by apply Hno in H].
Qed.


(** ** Keys of values *)

(** an exact field agrees with the value of the tuple *)
Definition agrees (e : match_field * tuple_field) (v : value) : Prop :=
  exact e.1 = true → value_tokens v = [canon (mtype e.1) e.2].

Lemma matches_list k l f field stk toks :
  exact f = false → list_kind_of (mtype f) = Some k →
  matches ((f, field) :: stk) (list_tokens k l ++ toks) ↔ matches stk toks.
Proof.
  intros Hex Hk. induction l as [|h l IH]; cbn [list_tokens app].
  - cbn [matches]. rewrite Hex, Hk. by rewrite decide_True.
  - cbn [matches]. rewrite Hex, Hk. rewrite decide_False by done. cbn [app exact mtype].
    assert (Hi : list_kind_of (item_type k) = None) by by destruct k.
    rewrite Hi. exact IH.
Qed.

Lemma matches_values stk ts vs :
  match_stack_ok stk ts → Forall2 value_type vs ts →
  matches stk (tokens vs) ↔ Forall2 agrees stk vs.
Proof.
  intros Hst. revert vs. induction Hst as [|[f field] t stk ts [Ht Hex] Hst IH]; intros vs Hvs.
  - inversion Hvs; subst. split; [constructor|done].
  - inversion Hvs as [|v ? vs' ? Hv Hvs']; subst. cbn [fst snd] in *.
    rewrite Forall2_cons, <-(IH vs' Hvs'). unfold tokens. cbn [map concat]. fold (tokens vs').
    unfold agrees. cbn [fst snd]. destruct (exact f) eqn:He.
    + destruct (Hex eq_refl) as [Hk _].
      assert (Hone : ∀ a b : token, (true = true → [a] = [b]) ↔ a = b).
      { intros a b. split; [intros H; specialize (H eq_refl); congruence|by intros ->]. }
      destruct v as [z|b|n|k l]; cbn [value_type value_tokens app] in *; [..|congruence];
        cbn [matches]; rewrite He, Hone; reflexivity.
    + assert (Hvac : ∀ P Q : Prop, Q ↔ (false = true → P) ∧ Q).
      { intros P Q. split; [by split|by intros [_ HQ]]. }
      destruct v as [z|b|n|k l]; cbn [value_type value_tokens app] in *.
      4: { rewrite (matches_list k l f field stk _ He Hv). apply Hvac. }
      all: cbn [matches]; rewrite He, Hv; cbn [list_kind_of]; apply Hvac.
Qed.

Lemma matches_any c ts toks l stk :
  wf c ts → path c ts toks l → match_stack_ok stk ts →
  existsb (λ e, exact e.1) stk = false → matches stk toks.
Proof.
  intros Hwf Hp. revert stk Hwf. induction Hp as [l|c n t ts toks l Hn Hp IH]; intros stk Hwf Hst Hno.
  - by inversion Hst.
  - inversion Hst as [|[f field] ? stk' ? Hf Hst' E1 E2]; subst. cbn [existsb fst] in Hno.
    apply orb_false_iff in Hno as [Hex Hno].
    inversion Hwf as [|? ? ? Hs Hne Hk Hnd]; subst. rewrite Forall_forall in Hk.
    destruct (Hk n Hn) as [Hd Hwn].
    destruct (any_field_types n f field stk' _ _ Hf Hex Hd Hst') as [Hty Hm]. apply Hm, IH; [done..|].
    unfold any_field. destruct (mtype f); try exact Hno; try (case_match; [exact Hno|]);
      cbn [existsb fst exact orb]; rewrite Hex; exact Hno.
Qed.

(** C36: [match_predicate] ends and returns the leaves whose key agrees with the exact
    fields of the partial tuple and no others, whatever the words behind the bucket
    tables hold: the code reads them before it tests the end of the table, and as long
    as they can be read they do not matter. *)
Theorem match_predicate_ok ts (t : trie simple_tuple) M mt (behind : nat → option bool) :
  hash_float_ok hash_float → represents hash_int hash_uint hash_float ts t M →
  match_stack_ok (match_to_stack mt) ts →
  has_any_exact mt = existsb (λ e, exact e.1) (match_to_stack mt) →
  (∀ n, is_Some (behind n)) →
  ∃ vec, match_predicate hash_int hash_uint hash_float behind mt t = Ok vec ∧
    (∀ l, l ∈ vec ↔ ∃ k, path (root t) ts k l ∧ matches (match_to_stack mt) k) ∧
    ∀ l vs, path (root t) ts (tokens vs) l → Forall2 value_type vs ts →
      (l ∈ vec ↔ Forall2 agrees (match_to_stack mt) vs).
Proof.
  intros Hh [Hset _] Hst Hany Hbe. pose proof (settled_linked _ _ _ _ _ Hset) as Hl.
  cut (∃ vec, match_predicate hash_int hash_uint hash_float behind mt t = Ok vec ∧
    ∀ l, l ∈ vec ↔ ∃ k, path (root t) ts k l ∧ matches (match_to_stack mt) k).
  { intros (vec & Hm & Hv). exists vec. split_and!; [done..|]. intros l vs Hp Hty.
    rewrite Hv, <-(matches_values _ _ _ Hst Hty). split; [|by eauto].
    intros (k & Hk & Hmk). by rewrite (linked_unique _ _ _ _ _ Hl l _ _ Hp Hk). }
  unfold match_predicate. destruct (has_any_exact mt) eqn:He; cbn [negb].
  - symmetry in Hany. destruct (number_of_references t =? 0) eqn:Hn.
    + exists []. split; [done|]. intros l. rewrite elem_of_nil. split; [done|]. intros (k & Hp & _).
      assert (Hs : is_Some (leaf_store t !! l)) by (apply (linked_path _ _ _ _ _ Hl); eauto).
      destruct (settled_number_zero _ _ _ _ _ Hset) as [_ Hz]. rewrite (proj1 Hz) in Hs by lia.
      rewrite lookup_empty in Hs. by apply is_Some_None in Hs.
    + assert (Hne : ts ≠ []) by (intros ->; inversion Hst as [E|]; by rewrite <-E in Hany).
      rewrite (root_leaf_types _ _ _ _ _ Hl Hne).
      destruct (linked_null _ _ _ _ _ Hl) as [Hnull _].
      assert (Hnn : null (root t) = false).
      { rewrite Hnull. apply bool_decide_false. intros E.
        destruct (settled_number_zero _ _ _ _ _ Hset) as [_ Hz]. apply Hz in E. lia. }
      rewrite Hnn. cbn [negb andb asserting].
      destruct (linked_wf _ _ _ _ _ Hl) as [Hwf|Hwf]; [|by rewrite Hwf in Hnn].
      pose proof (stack_types_ok _ _ Hst) as Hty. rewrite <-Hty in Hwf.
      assert (Hst' : stack_fields_ok (match_to_stack mt)) by (unfold stack_fields_ok; by rewrite Hty).
      destruct (match_run_ok behind Hh Hbe (4 * count_nodes (root t) + 4) (going_down (root t) (match_to_stack mt)) [] [])
        as (vec & Hr & Hv); [|constructor|cbn [state_weight frames_weight sum_list_with]; lia|].
      { split_and!; [|done|done]. intros E. by rewrite E in Hany. }
      exists vec. split; [done|]. intros l. rewrite Hv, elem_of_nil.
      cbn [state_yields]. unfold frames_yield. setoid_rewrite elem_of_nil.
      rewrite Hty. naive_solver.
  - exists (leaf_list t). split; [done|]. intros l.
    rewrite (linked_list _ _ _ _ _ Hl), (linked_path _ _ _ _ _ Hl). split; [|naive_solver].
    intros (k & Hp). exists k. split; [done|].
    destruct (linked_wf _ _ _ _ _ Hl) as [Hwf|Hwf]; [|rewrite Hwf in Hp; by apply path_no_child in Hp].
    by apply (matches_any _ _ _ _ _ Hwf Hp Hst).
Qed.

End LookupProofs.

(** ** On a concrete trie *)

Definition sample_match : match_ :=
  match match_int 0 3 (new_match sample_pred) with Ok m => m | Err _ => new_match sample_pred end.

Lemma match_predicate_ok_witness :
  ∃ vec, match_predicate id id (λ _, 0) (λ n, Some (Nat.even n)) sample_match sample_trie = Ok vec ∧
    (∀ l, l ∈ vec ↔ ∃ k, path (root sample_trie) (pred_types sample_pred) k l ∧
                      matches (match_to_stack sample_match) k) ∧
    ∀ l vs, path (root sample_trie) (pred_types sample_pred) (tokens vs) l →
      Forall2 value_type vs (pred_types sample_pred) →
      (l ∈ vec ↔ Forall2 agrees (match_to_stack sample_match) vs).
Proof.
  eapply (match_predicate_ok id id (λ _, 0) (pred_types sample_pred) sample_trie _ _ (λ n, Some (Nat.even n))).
  - exact hash_zero_ok.
  - apply sample_trie_represents.
  - constructor; [split; [done|by split]|]. constructor; [split; [done|discriminate]|]. constructor.
  - reflexivity.
  - intros n. by eexists.
Defined.

(** [delete_by_index] with an exact field fails an assertion on a trie without
    tuples, which [node::delete_by_index] makes when the predicate has none. *)
Theorem delete_by_index_empty hi hu hf m mt f field stk :
  match_to_stack mt = (f, field) :: stk → exact f = true →
  delete_by_index hi hu hf m mt (new_trie : tuple_trie) = Err assert_fail.
Proof.
  intros Hm Hex. unfold delete_by_index. rewrite Hm. cbn [index_walk root new_trie basic_invariants].
  rewrite Hex. by destruct (mtype f).
Qed.

Lemma delete_by_index_empty_witness :
  delete_by_index id id id sample_memory sample_match (new_trie : tuple_trie) = Err assert_fail.
Proof.
  exact (delete_by_index_empty id id id sample_memory sample_match (mk_match_field true FIELD_INT) 3
    [(mk_match_field false FIELD_LIST_NODE, 0)] eq_refl eq_refl).
Defined.
