(* ===== verification/Aggregate.v ===== *)
(** The aggregates of a node: [db/agg_configuration.*], [db/tuple_aggregate.*] and
    [agg_trie] of [db/trie.*].  A configuration holds the tuples of one group; the
    groups are the leaves of a trie on the fields before the aggregated one. *)

From Stdlib Require Import ZArith Lia Bool SpecFloat.
From stdpp Require Import base tactics list numbers option gmap.
From S2P Require Import Prelude Words Types RuntimeList Tuple SimpleTuple Trie TupleTrie Match TrieLookup.

#[local] Open Scope Z_scope.

(** ** [agg_configuration] *)

Record agg_configuration : Type := mk_agg_configuration {
  changed : bool;
  corresponds : option tuple;
  vals : tuple_trie
}.

Definition new_agg_configuration : agg_configuration := mk_agg_configuration false None new_trie.

Definition has_changed (c : agg_configuration) : bool := changed c.
Definition is_empty (c : agg_configuration) : bool := TupleTrie.empty (vals c).
Definition size (c : agg_configuration) : Z := TupleTrie.size (vals c).

Section Hash.
Context (hash_int hash_uint hash_float : Z → Z).

(** [many] is a [ref_count]; the tuple is given away *)
Definition add_to_set (m : memory) (tpl : tuple) (many : Z) (c : agg_configuration)
  : res (memory * agg_configuration) :=
  asserting (negb (many =? 0))
    (let start_size := size c in
     if 0 <? many then
       let* r := insert_tuple hash_int hash_uint hash_float m tpl many (vals c) in
       let '(t, is_new) := r in
       let* m := if is_new then Ok m else Tuple.destroy m tpl in
       let c := mk_agg_configuration true (corresponds c) t in
       asserting (size c =? wrap 64 (start_size + many)) (Ok (m, c))
     else
       let* r := delete_and_commit hash_int hash_uint hash_float m tpl (- many) (vals c) in
       let '(m, t) := r in
       let* m := Tuple.destroy m tpl in
       Ok (m, mk_agg_configuration true (corresponds c) t)).
End Hash.

(** the tuples of a trie from [begin] to [end] *)
Definition entries (t : tuple_trie) : list simple_tuple :=
  omap (λ l, leaf_store t !! l) (leaf_list t).

(** [test]: the fields before [agg_field] of the first tuple *)
Fixpoint fields_agree (m : memory) (tpl other : tuple) (i n : nat) : res bool :=
  match n with
  | O => Ok true
  | S n =>
      let* b := field_equal m tpl other i in
      if b then fields_agree m tpl other (i + 1) n else Ok false
  end.

Definition test (m : memory) (tpl : tuple) (agg_field : nat) (c : agg_configuration) : res bool :=
  if is_empty c then Ok false
  else
    match entries (vals c) with
    | [] => Err assert_fail
    | s :: _ => fields_agree m tpl (data s) 0 agg_field
    end.

Definition matches_first_int_arg (val : Z) (c : agg_configuration) : res bool :=
  if is_empty c then Ok false
  else
    match entries (vals c) with
    | [] => Err assert_fail
    | s :: _ => let* v := get_int (data s) 0 in Ok (v =? val)
    end.

(** ** The generators

    The first tuple is kept unless a later one is better. *)

Fixpoint best {V} (get : tuple → res V) (better : V → V → bool) (val : V) (tpl : tuple)
    (others : list simple_tuple) : res tuple :=
  match others with
  | [] => Ok tpl
  | s :: others =>
      let* v := get (data s) in
      if better v val then best get better v (data s) others
      else best get better val tpl others
  end.

(** the tuple chosen by [generate_max_int] and its kin, before it is copied *)
Definition choose {V} (get : tuple → res V) (better : V → V → bool) (ss : list simple_tuple)
  : res tuple :=
  match ss with
  | [] => Err assert_fail
  | s :: others => let* v := get (data s) in best get better v (data s) others
  end.

Definition generate_max_int (m : memory) (field : nat) (ss : list simple_tuple)
  : res (memory * tuple) :=
  let* t := choose (λ t, get_int t field) (λ v max_val, max_val <? v) ss in Tuple.copy m t.

Definition generate_min_int (m : memory) (field : nat) (ss : list simple_tuple)
  : res (memory * tuple) :=
  let* t := choose (λ t, get_int t field) (λ v min_val, min_val >? v) ss in Tuple.copy m t.

Definition generate_max_float (m : memory) (field : nat) (ss : list simple_tuple)
  : res (memory * tuple) :=
  let* t := choose (λ t, get_float t field) (λ v max_val, SFltb max_val v) ss in Tuple.copy m t.

Definition generate_min_float (m : memory) (field : nat) (ss : list simple_tuple)
  : res (memory * tuple) :=
  let* t := choose (λ t, get_float t field) (λ v min_val, SFltb v min_val) ss in Tuple.copy m t.

Definition generate_first (m : memory) (ss : list simple_tuple) : res (memory * tuple) :=
  match ss with
  | [] => Err assert_fail
  | s :: _ => Tuple.copy m (data s)
  end.

(** one addition for each derivation; [int_val] wraps around *)
Fixpoint add_times {V} (add : V → V → V) (n : nat) (sum v : V) : V :=
  match n with O => sum | S n => add_times add n (add sum v) v end.

Fixpoint sum_entries {V} (get : tuple → res V) (add : V → V → V) (sum : V) (ss : list simple_tuple)
  : res V :=
  match ss with
  | [] => Ok sum
  | s :: ss =>
      if 0 <? get_count s then
        let* v := get (data s) in
        sum_entries get add (add_times add (Z.to_nat (get_count s)) sum v) ss
      else sum_entries get add sum ss
  end.

Definition int_add (a b : Z) : Z := swrap 32 (a + b).
Definition float_add (a b : spec_float) : spec_float := SFadd 53 1024 a b.

Definition generate_sum_int (m : memory) (field : nat) (ss : list simple_tuple)
  : res (memory * tuple) :=
  match ss with
  | [] => Err assert_fail
  | s :: _ =>
      let* r := Tuple.copy m (data s) in
      let '(m, ret) := r in
      let* sum_val := sum_entries (λ t, get_int t field) int_add 0 ss in
      let* ret := set_int ret field sum_val in
      Ok (m, ret)
  end.

Definition generate_sum_float (m : memory) (field : nat) (ss : list simple_tuple)
  : res (memory * tuple) :=
  match ss with
  | [] => Err assert_fail
  | s :: _ =>
      let* r := Tuple.copy m (data s) in
      let '(m, ret) := r in
      let* sum_val := sum_entries (λ t, get_float t field) float_add (S754_zero false) ss in
      let* ret := set_float ret field (bits_of_float sum_val) in
      Ok (m, ret)
  end.

(** [generate_sum_list_float]: the lists of all derivations, of one length, are
    added element by element *)
Fixpoint collect_lists (m : memory) (field : nat) (len num_lists : Z) (ss : list simple_tuple)
    (ls : list list_ptr) : res (list list_ptr) :=
  match ss with
  | [] => Ok ls
  | s :: ss =>
      let count := wrap 64 (get_count s) in
      if num_lists <? Z.of_nat (length ls) + count then Err undefined_behaviour
      else
        let* p := get_ptr (data s) field in
        let* n := if count =? 0 then Ok len else length_list (float_lists m) p in
        asserting (n =? len)
          (collect_lists m field len num_lists ss (ls ++ replicate (Z.to_nat count) p))
  end.

(** one pass over the lists: the sum of the heads, and the tails *)
Fixpoint sum_heads (m : memory) (ls : list list_ptr) (sum : spec_float)
  : res (spec_float * list list_ptr) :=
  match ls with
  | [] => Ok (sum, [])
  | p :: ls =>
      asserting (negb (is_null p))
        (let* c := deref (float_lists m) p in
         let* r := sum_heads m ls (float_add sum (float_of_bits (wrap 64 (head c)))) in
         let '(sum, tails) := r in
         Ok (sum, tail c :: tails))
  end.

(** the sums are pushed on a stack, the last on top *)
Fixpoint sum_columns (m : memory) (len : nat) (ls : list list_ptr) (stk : list Z)
  : res (list list_ptr * list Z) :=
  match len with
  | O => Ok (ls, stk)
  | S len =>
      let* r := sum_heads m ls (S754_zero false) in
      let '(sum, ls) := r in
      sum_columns m len ls (bits_of_float sum :: stk)
  end.

Definition generate_sum_list_float (m : memory) (field : nat) (vals_size : Z)
    (ss : list simple_tuple) : res (memory * tuple) :=
  match ss with
  | [] => Err assert_fail
  | s :: _ =>
      let* first := get_ptr (data s) field in
      let* len := length_list (float_lists m) first in
      let* r := copy_except m (data s) field in
      let '(m, ret) := r in
      let* ls := collect_lists m field len vals_size ss [] in
      (* the array has [vals_size] elements, all of which are used *)
      let* _ := if Z.of_nat (length ls) =? vals_size then Ok tt else Err undefined_behaviour in
      let* r := sum_columns m (Z.to_nat len) ls [] in
      let '(ls, stk) := r in
      asserting (forallb is_null ls)
        (let* r := from_stack_to_list (float_lists m) stk in
         let '(st, ptr) := r in
         set_list (set_lists m FloatList st) ret field FloatList ptr)
  end.

Definition do_generate (m : memory) (typ : aggregate_type) (field : nat) (c : agg_configuration)
  : res (memory * option tuple) :=
  if is_empty c then Ok (m, None)
  else
    let ss := entries (vals c) in
    let* r :=
      match typ with
      | AGG_FIRST => generate_first m ss
      | AGG_MAX_INT => generate_max_int m field ss
      | AGG_MIN_INT => generate_min_int m field ss
      | AGG_SUM_INT => generate_sum_int m field ss
      | AGG_SUM_FLOAT => generate_sum_float m field ss
      | AGG_MAX_FLOAT => generate_max_float m field ss
      | AGG_MIN_FLOAT => generate_min_float m field ss
      | AGG_SUM_LIST_FLOAT => generate_sum_list_float m field (size c) ss
      | _ => Err assert_fail
      end in
    let '(m, t) := r in
    Ok (m, Some t).

(** [generate]: the tuples to remove and to add so that the aggregate outside is
    brought up to date *)
Definition generate (m : memory) (typ : aggregate_type) (field : nat) (c : agg_configuration)
    (cont : list simple_tuple) : res (memory * agg_configuration * list simple_tuple) :=
  let* r := do_generate m typ field c in
  let '(m, generated) := r in
  let* out :=
    match corresponds c, generated with
    | None, None => Ok []
    | None, Some g => Ok [create_new g]
    | Some o, None => Ok [remove_new o]
    | Some o, Some g =>
        let* b := tuple_eqb m o g in
        if b then Ok [] else Ok [remove_new o; create_new g]
    end in
  Ok (m, mk_agg_configuration false generated (vals c), cont ++ out).

(** ** [agg_trie] *)

(** a leaf holds the configuration of its group once it is set *)
Definition agg_leaf : Type := option agg_configuration.

#[global] Instance agg_trie_leaf : trie_leaf agg_leaf unit := {|
  create_leaf _ _ := None;
  leaf_get_count _ := 1;
  leaf_add_count _ l := l;
  leaf_to_delete _ := false;
  leaf_delete m l :=
    match l with
    | None => Err assert_fail
    | Some c => let* r := TupleTrie.wipeout m (vals c) in Ok r.1
    end
|}.

Section AggTrie.
Context (hash_int hash_uint hash_float : Z → Z).

(** [find_configuration]: the leaf of the fields before the aggregated one *)
Definition group_stack (tpl : tuple) (agg_field : nat) : val_stack :=
  take agg_field (tuple_stack tpl).

Definition find_configuration (m : memory) (tpl : tuple) (agg_field : nat) (t : trie agg_leaf)
  : res (trie agg_leaf * leaf_id) :=
  let* r := check_insert hash_int hash_uint hash_float m tt 1 (group_stack tpl agg_field) t in
  let '(t, r) := r in
  match r with
  | None => Err undefined_behaviour
  | Some (l, found) => Ok (if found then t else set_number (number_of_references t + 1) t, l)
  end.

(** [erase]: the leaf after the erased one is next in the list *)
Definition erase (m : memory) (l : leaf_id) (t : trie agg_leaf) : res (memory * trie agg_leaf) :=
  let* leaf := of_option (leaf_store t !! l) in
  commit_delete m l (leaf_get_count leaf) t.

(** ** [tuple_aggregate] *)

Record tuple_aggregate : Type := mk_tuple_aggregate {
  agg_pred : predicate;
  groups : trie agg_leaf
}.

Definition new_tuple_aggregate (p : predicate) : tuple_aggregate := mk_tuple_aggregate p new_trie.

Definition aggregate_of (p : predicate) : res aggregate_info := of_option (agg_info p).

Definition set_conf (l : leaf_id) (c : agg_configuration) (t : trie agg_leaf) : trie agg_leaf :=
  update_leaf l (λ _, Some c) t.

Definition aggregate_add (m : memory) (tpl : tuple) (many : Z) (a : tuple_aggregate)
  : res (memory * tuple_aggregate) :=
  let* info := aggregate_of (pred tpl) in
  let* r := find_configuration m tpl (Z.to_nat (agg_field info)) (groups a) in
  let '(t, l) := r in
  let* leaf := of_option (leaf_store t !! l) in
  let conf := default new_agg_configuration leaf in
  let* r := add_to_set hash_int hash_uint hash_float m tpl many conf in
  let '(m, conf) := r in
  Ok (m, mk_tuple_aggregate (agg_pred a) (set_conf l conf t)).

(** the loop of [generate] over the leaves from [begin]; the next leaf is taken
    before one is erased *)
Fixpoint generate_groups (m : memory) (typ : aggregate_type) (field : nat) (ls : list leaf_id)
    (t : trie agg_leaf) (out : list simple_tuple)
  : res (memory * trie agg_leaf * list simple_tuple) :=
  match ls with
  | [] => Ok (m, t, out)
  | l :: ls =>
      let* leaf := of_option (leaf_store t !! l) in
      match leaf with
      | None => Err assert_fail
      | Some conf =>
          let* r :=
            if has_changed conf then generate m typ field conf out else Ok (m, conf, out) in
          let '(m, conf, out) := r in
          let t := set_conf l conf t in
          asserting (negb (has_changed conf))
            (let* r := if is_empty conf then erase m l t else Ok (m, t) in
             let '(m, t) := r in
             generate_groups m typ field ls t out)
      end
  end.

Definition aggregate_generate (m : memory) (a : tuple_aggregate)
  : res (memory * tuple_aggregate * list simple_tuple) :=
  let* info := aggregate_of (agg_pred a) in
  let* r := generate_groups m (agg_type info) (Z.to_nat (agg_field info))
              (leaf_list (groups a)) (groups a) [] in
  let '(m, t, out) := r in
  Ok (m, mk_tuple_aggregate (agg_pred a) t, out).

Definition no_changes (a : tuple_aggregate) : bool :=
  forallb (λ l, match leaf_store (groups a) !! l with
                | Some (Some conf) => negb (has_changed conf)
                | _ => true
                end) (leaf_list (groups a)).

Definition aggregate_empty (a : tuple_aggregate) : bool := TupleTrie.empty (groups a).

Definition aggregate_delete_by_index (m : memory) (mt : match_) (a : tuple_aggregate)
  : res (memory * tuple_aggregate) :=
  let* r := TrieLookup.delete_by_index hash_int hash_uint hash_float m mt (groups a) in
  Ok (r.1, mk_tuple_aggregate (agg_pred a) r.2).

End AggTrie.

(** ** The chosen tuple is the best *)

Lemma best_ok {V} (get : tuple → res V) better v tpl others vals :
  (∀ a b c, better a b = true → better b c = true → better a c = true) →
  (∀ a, better a a = false) →
  get tpl = Ok v → Forall2 (λ s x, get (data s) = Ok x) others vals →
  ∃ t z, best get better v tpl others = Ok t ∧ get t = Ok z ∧
    (t = tpl ∨ ∃ s, s ∈ others ∧ t = data s) ∧ (z = v ∨ better z v = true) ∧
    ∀ x, x ∈ v :: vals → better x z = false.
Proof.
  intros Htr Hirr Hv Hall. revert v tpl Hv.
  induction Hall as [|s x others vals Hx Hall IH]; intros v tpl Hv; cbn [best].
  - exists tpl, v. split_and!; [done|done|by left|by left|]. intros x ->%list_elem_of_singleton. apply Hirr.
  - rewrite Hx. cbn [res_bind]. destruct (better x v) eqn:Hb.
    + destruct (IH x (data s) Hx) as (t & z & -> & Hz & Ht & Hzx & Hbest). exists t, z.
      split_and!; [done|done| | |].
      * right. destruct Ht as [-> |(s' & Hs' & ->)]; [exists s|exists s']; set_solver.
      * right. destruct Hzx as [-> |Hzx]; [done|by apply (Htr z x v)].
      * intros y [-> |Hy]%elem_of_cons; [|by apply Hbest].
        destruct (better v z) eqn:Hvz; [|done]. rewrite <-(Hirr z). symmetry.
        destruct Hzx as [-> |Hzx]; [by apply (Htr x v x)|]. apply (Htr z v z); [by apply (Htr z x v)|done].
    + destruct (IH v tpl Hv) as (t & z & -> & Hz & Ht & Hzv & Hbest). exists t, z.
      split_and!; [done|done| |done|].
      * destruct Ht as [-> |(s' & Hs' & ->)]; [by left|]. right. exists s'. set_solver.
      * intros y. rewrite !elem_of_cons. intros [-> |[-> |Hy]].
        -- apply Hbest. by left.
        -- destruct (better x z) eqn:Hxz; [|done]. rewrite <-Hb. destruct Hzv as [-> |Hzv]; [done|].
           symmetry. by apply (Htr x z v).
        -- apply Hbest. by right.
Qed.

Lemma choose_ok {V} (get : tuple → res V) better ss vals :
  (∀ a b c, better a b = true → better b c = true → better a c = true) →
  (∀ a, better a a = false) →
  ss ≠ [] → Forall2 (λ s x, get (data s) = Ok x) ss vals →
  ∃ s z, choose get better ss = Ok (data s) ∧ s ∈ ss ∧ get (data s) = Ok z ∧
    ∀ x, x ∈ vals → better x z = false.
Proof.
  intros Htr Hirr Hne Hall. destruct Hall as [|s x ss vals Hx Hall]; [done|]. cbn [choose].
  rewrite Hx. cbn [res_bind].
  destruct (best_ok get better x (data s) ss vals Htr Hirr Hx Hall) as (t & z & Hb & Hz & Ht & _ & Hbest).
  destruct Ht as [-> |(s' & Hs' & ->)].
  - exists s, z. split_and!; [done|by left|done|done].
  - exists s', z. split_and!; [done|by right|done|done].
Qed.

Lemma get_int_denotes m t vs i z :
  tuple_denotes m t vs → vs !! i = Some (VInt z) → get_int t i = Ok z.
Proof.
  intros Ht Hi. destruct (Forall3_lookup_r _ _ _ _ _ _ Ht Hi) as (ty & f & Hty & Hf & Hd).
  unfold get_int, get_field. rewrite Hf. cbn [of_option res_bind]. by inversion Hd.
Qed.

(** the values of the tuples of a group *)
Definition group_denotes (m : memory) (c : agg_configuration) (vss : list (list value)) : Prop :=
  Forall2 (λ s vs, tuple_denotes m (data s) vs) (entries (vals c)) vss.

Definition int_at (field : nat) (vs : list value) (z : Z) : Prop := vs !! field = Some (VInt z).

Lemma group_ints m c vss field :
  group_denotes m c vss → Forall (λ vs, ∃ z, int_at field vs z) vss →
  ∃ zs, Forall2 (λ s z, get_int (data s) field = Ok z) (entries (vals c)) zs ∧
    Forall2 (int_at field) vss zs.
Proof.
  unfold group_denotes. generalize (entries (vals c)). intros ss. induction 1 as [|s vs ss vss Hs Hall IH].
  - exists []. split; constructor.
  - intros [[z Hz] Hi]%Forall_cons_1. destruct (IH Hi) as (zs & H1 & H2). exists (z :: zs).
    split; constructor; try done. by eapply get_int_denotes.
Qed.

Lemma choice_ok m c vss field better (P : Z → Z → Prop) :
  (∀ a b d, better a b = true → better b d = true → better a d = true) →
  (∀ a, better a a = false) → (∀ a b, better a b = false → P a b) →
  entries (vals c) ≠ [] → group_denotes m c vss → Forall (λ vs, ∃ z, int_at field vs z) vss →
  ∃ m' r vs z,
    (let* t := choose (λ t, get_int t field) better (entries (vals c)) in Tuple.copy m t) = Ok (m', r) ∧
    vs ∈ vss ∧ mem_sub m m' ∧ tuple_denotes m' r vs ∧ int_at field vs z ∧
    ∀ vs' z', vs' ∈ vss → int_at field vs' z' → P z' z.
Proof.
  intros Htr Hirr HP Hne Hg Hi. destruct (group_ints m c vss field Hg Hi) as (zs & Hz & Hzs).
  destruct (choose_ok (λ t, get_int t field) better _ zs Htr Hirr Hne Hz) as (s & z & -> & Hs & Hgz & Hbest).
  cbn [res_bind]. apply list_elem_of_lookup in Hs as [i Hs].
  destruct (Forall2_lookup_l _ _ _ _ _ Hg Hs) as (vs & Hvs & Hd).
  destruct (Forall2_lookup_l _ _ _ _ _ Hzs Hvs) as (z' & _ & Hz').
  assert (z' = z) as ->.
  { pose proof (get_int_denotes _ _ _ _ _ Hd Hz') as E. rewrite Hgz in E. by injection E. }
  destruct (tuple_copy_ok m (data s) vs Hd) as (m' & r & Hc & _ & Hsub & Hr).
  exists m', r, vs, z. split_and!; [done|by eapply list_elem_of_lookup_2|done|done|done|].
  intros vs' z' Hin Hat. apply HP, Hbest. apply list_elem_of_lookup in Hin as [j Hj].
  destruct (Forall2_lookup_l _ _ _ _ _ Hzs Hj) as (z'' & Hz'' & Hat'). unfold int_at in *.
  assert (z'' = z') as -> by congruence. by eapply list_elem_of_lookup_2.
Qed.

(** the integer maximum and minimum of a group are copies of a tuple of the
    group whose field no other tuple exceeds, respectively goes below. *)
Theorem generate_max_min_int m c vss field :
  is_empty c = false → entries (vals c) ≠ [] → group_denotes m c vss →
  Forall (λ vs, ∃ z, int_at field vs z) vss →
  (∃ m' r vs z, do_generate m AGG_MAX_INT field c = Ok (m', Some r) ∧ vs ∈ vss ∧
     mem_sub m m' ∧ tuple_denotes m' r vs ∧ int_at field vs z ∧
     ∀ vs' z', vs' ∈ vss → int_at field vs' z' → z' <= z) ∧
  (∃ m' r vs z, do_generate m AGG_MIN_INT field c = Ok (m', Some r) ∧ vs ∈ vss ∧
     mem_sub m m' ∧ tuple_denotes m' r vs ∧ int_at field vs z ∧
     ∀ vs' z', vs' ∈ vss → int_at field vs' z' → z <= z').
Proof.
  intros He Hne Hg Hi. unfold do_generate. rewrite He. split.
  - destruct (choice_ok m c vss field (λ v max_val, max_val <? v) Z.le) as (m' & r & vs & z & Hc & H);
      try done; try (intros; lia).
    exists m', r, vs, z. unfold generate_max_int. by rewrite Hc.
  - destruct (choice_ok m c vss field (λ v min_val, min_val >? v) (λ a b, b <= a))
      as (m' & r & vs & z & Hc & H); try done; try (intros; lia).
    exists m', r, vs, z. unfold generate_min_int. by rewrite Hc.
Qed.

(** ** Sums *)

Lemma add_times_int n s v : add_times int_add n (swrap 32 s) v = swrap 32 (s + Z.of_nat n * v).
Proof.
  revert s. induction n as [|n IH]; intros s; cbn [add_times]; [f_equal; lia|].
  unfold int_add. rewrite swrap_plus, IH by lia. f_equal. lia.
Qed.

(** the sum of the field over the derivations of the tuples *)
Fixpoint weighted_sum (ss : list simple_tuple) (zs : list Z) : Z :=
  match ss, zs with
  | s :: ss, z :: zs => Z.max 0 (count s) * z + weighted_sum ss zs
  | _, _ => 0
  end.

Lemma sum_entries_int field ss zs s0 :
  Forall2 (λ s z, get_int (data s) field = Ok z) ss zs →
  sum_entries (λ t, get_int t field) int_add (swrap 32 s0) ss = Ok (swrap 32 (s0 + weighted_sum ss zs)).
Proof.
  intros H. revert s0. induction H as [|s z ss zs Hz H IH]; intros s0; cbn [sum_entries weighted_sum].
  - by rewrite Z.add_0_r.
  - unfold get_count. destruct (0 <? count s) eqn:Hc.
    + rewrite Hz. cbn [res_bind]. rewrite add_times_int, IH, Z2Nat.id by lia. do 2 f_equal. lia.
    + rewrite IH. do 2 f_equal. lia.
Qed.

Lemma Forall3_insert {A B C} (P : A → B → C → Prop) la lb lc i a b c :
  Forall3 P la lb lc → la !! i = Some a → P a b c → Forall3 P la (<[i := b]> lb) (<[i := c]> lc).
Proof.
  intros H. revert i. induction H as [|x y z la lb lc Hp H IH]; intros i Hi HP; [done|].
  destruct i as [|i]; cbn in *; constructor; try done; [by injection Hi as ->|by apply IH].
Qed.

Lemma set_int_denotes m t vs i z v :
  tuple_denotes m t vs → vs !! i = Some (VInt z) →
  ∃ t', set_int t i v = Ok t' ∧ pred t' = pred t ∧ tuple_denotes m t' (<[i := VInt (swrap 32 v)]> vs).
Proof.
  intros Ht Hi. destruct (Forall3_lookup_r _ _ _ _ _ _ Ht Hi) as (ty & f & Hty & Hf & Hd).
  unfold set_int, set_field, get_field. rewrite Hf. cbn [of_option res_bind].
  eexists. split; [done|]. split; [done|]. unfold tuple_denotes. cbn [pred fields].
  apply (Forall3_insert _ _ _ _ _ ty); [done|done|]. inversion Hd; subst.
  rewrite <-(int_field_set f v). constructor.
Qed.

(** the integer sum of a group is its first tuple with the field replaced by
    the sum over all derivations, wrapped to 32 bits. *)
Theorem generate_sum_int_ok m c vs0 vss field :
  is_empty c = false → group_denotes m c (vs0 :: vss) →
  Forall (λ vs, ∃ z, int_at field vs z) (vs0 :: vss) →
  ∃ m' r zs, do_generate m AGG_SUM_INT field c = Ok (m', Some r) ∧ mem_sub m m' ∧
    Forall2 (int_at field) (vs0 :: vss) zs ∧
    tuple_denotes m' r (<[field := VInt (swrap 32 (weighted_sum (entries (vals c)) zs))]> vs0).
Proof.
  intros He Hg Hi. destruct (group_ints m c _ field Hg Hi) as (zs & Hz & Hzs).
  unfold do_generate. rewrite He. unfold group_denotes in Hg.
  destruct (entries (vals c)) as [|s ss] eqn:Hss; [by inversion Hg|].
  apply Forall2_cons in Hg as [Hs Hg]. cbn [generate_sum_int].
  destruct (tuple_copy_ok m (data s) vs0 Hs) as (m' & r & -> & _ & Hsub & Hr). cbn [res_bind].
  change 0 with (swrap 32 0) at 1. rewrite (sum_entries_int field (s :: ss) zs 0 Hz). cbn [res_bind].
  rewrite Z.add_0_l. apply Forall_cons_1 in Hi as [[z0 Hz0] _].
  destruct (set_int_denotes m' r vs0 field z0 (swrap 32 (weighted_sum (s :: ss) zs)) Hr Hz0)
    as (r' & -> & _ & Hr'). cbn [res_bind].
  exists m', r', zs. split_and!; [done|done|done|].
  replace (swrap 32 (swrap 32 (weighted_sum (s :: ss) zs))) with (swrap 32 (weighted_sum (s :: ss) zs)) in Hr'; [done|].
  pose proof (swrap_plus 32 (weighted_sum (s :: ss) zs) 0 ltac:(lia)) as H. by rewrite !Z.add_0_r in H.
Qed.

(** ** The view outside

    Whoever uses the aggregate has the tuple with key [view], if any; the counted
    tuples [generate] gives are applied to it. *)
Definition key_of (m : memory) (o : option tuple) (k : option (list token)) : Prop :=
  match o, k with
  | None, None => True
  | Some t, Some k => ∃ ts vs, tuple_denotes m t vs ∧ k = tokens vs ∧
      ts = pred_types (pred t) ∧ Forall2 value_type vs ts ∧ forallb value_key_ok vs = true
  | _, _ => False
  end.

(** a removal takes the tuple away, if it is the one that is there *)
Inductive apply_deltas (m : memory) : option (list token) → list simple_tuple → option (list token) → Prop :=
  | deltas_nil k : apply_deltas m k [] k
  | deltas_add s k out k' :
      count s = 1 → key_of m (Some (data s)) (Some k) →
      apply_deltas m (Some k) out k' → apply_deltas m None (s :: out) k'
  | deltas_remove s k out k' :
      count s = -1 → key_of m (Some (data s)) (Some k) →
      apply_deltas m None out k' → apply_deltas m (Some k) (s :: out) k'.

(** C38: [generate] clears [changed], remembers what it generated, and what it adds
    to the list takes anyone who has the old aggregate to the new one; nothing is
    added when both are equal. *)
Theorem generate_deltas m typ field c cont m1 g k kg :
  do_generate m typ field c = Ok (m1, g) →
  key_of m1 (corresponds c) k → key_of m1 g kg →
  (∀ o t, corresponds c = Some o → g = Some t → pred o = pred t) →
  ∃ out, generate m typ field c cont = Ok (m1, mk_agg_configuration false g (vals c), cont ++ out) ∧
    apply_deltas m1 k out kg ∧ (k = kg → out = []).
Proof.
  intros Hdo Hk Hkg Hpred. unfold generate. rewrite Hdo. cbn [res_bind].
  destruct (corresponds c) as [o|], k as [k|], g as [t|], kg as [kg|]; cbn [key_of] in Hk, Hkg; try done.
  - specialize (Hpred o t eq_refl eq_refl). pose proof Hk as Hk'. pose proof Hkg as Hkg'.
    destruct Hk as (ts & vs & Ho & -> & Hts & Hty & Hok).
    destruct Hkg as (ts' & ws & Ht & -> & Hts' & Hty' & Hok').
    rewrite (tuple_eqb_ok m1 o t vs ws Ho Ht (λ _, Hpred)). rewrite Hpred, Z.eqb_refl. cbn [andb res_bind].
    subst ts ts'. rewrite Hpred in Hty.
    pose proof (keys_eq (pred_types (pred t)) vs ws Hty Hty' Hok Hok') as Hkeys.
    destruct (forallb (λ '(v, w), value_eqb v w) (zip vs ws)) eqn:E.
    + exists []. rewrite (proj2 Hkeys eq_refl). split_and!; [done|constructor|done].
    + exists [remove_new o; create_new t]. split_and!; [done| |].
      * eapply deltas_remove; [done|exact Hk'|]. eapply deltas_add; [done|exact Hkg'|constructor].
      * intros [= Heq]. by apply Hkeys in Heq.
  - exists [remove_new o]. split_and!; [done| |done]. eapply deltas_remove; [done|exact Hk|constructor].
  - exists [create_new t]. split_and!; [done| |done]. eapply deltas_add; [done|exact Hkg|constructor].
  - exists []. split_and!; [done|constructor|done].
Qed.

(** ** The tuples of a group *)

Section GroupProofs.
Context (hash_int hash_uint hash_float : Z → Z).

(** a tuple added to a group is counted in its trie: the assertion on the size
    holds, a tuple that is there already is given back, and the group is marked as
    changed. *)
Theorem add_to_set_inserts m tpl many c vs M :
  hash_float_ok hash_float → mem_fits m → tuple_denotes m tpl vs → forallb value_ok vs = true →
  represents hash_int hash_uint hash_float (pred_types (pred tpl)) (vals c) M →
  0 < many → number_of_references (vals c) + many < 2 ^ 31 →
  (∀ s, M !! tokens vs = Some s → count s + many < 2 ^ 15) →
  (is_Some (M !! tokens vs) → ∃ m', Tuple.destroy m tpl = Ok m') →
  ∃ m' c', add_to_set hash_int hash_uint hash_float m tpl many c = Ok (m', c') ∧
    changed c' = true ∧ corresponds c' = corresponds c ∧
    represents hash_int hash_uint hash_float (pred_types (pred tpl)) (vals c')
      (insert_spec (tokens vs) tpl many M) ∧
    (M !! tokens vs = None → m' = m).
Proof.
  intros Hh Hm Hden Hok Hrep Hmany Hnum Hcnt Hdes.
  destruct (insert_tuple_ok hash_int hash_uint hash_float m tpl many (vals c) vs M)
    as (t & Hi & Hr & Hn); try done.
  destruct (settled_number_zero _ _ _ _ _ (proj1 Hrep)) as [Hge _].
  unfold add_to_set. replace (many =? 0) with false by lia. replace (0 <? many) with true by lia.
  cbn [negb asserting]. rewrite Hi. cbn [res_bind].
  assert (Hsize : ∀ d, size (mk_agg_configuration true d t) =? wrap 64 (size c + many) = true).
  { intros d. unfold size, TupleTrie.size. cbn [vals]. rewrite Hn.
    rewrite !(wrap_id 64) by (rewrite ?wrap_id; lia). lia. }
  destruct (M !! tokens vs) as [s|] eqn:HM.
  - rewrite bool_decide_false by done. destruct Hdes as [m' ->]; [by eexists|]. cbn [res_bind].
    rewrite Hsize. cbn [asserting]. eexists _, _. by split_and!.
  - rewrite bool_decide_true by done. cbn [res_bind]. rewrite Hsize. cbn [asserting].
    eexists _, _. by split_and!.
Qed.

(** [erase] never takes a group away, as a leaf of [agg_trie] is never to be
    deleted: only the number of references goes down, and with the last group the
    assertion of [basic_invariants] fails. *)
Theorem erase_keeps_group m l c (t : trie agg_leaf) :
  leaf_store t !! l = Some c → 0 < number_of_references t < 2 ^ 31 →
  erase m l t =
    asserting (basic_invariants (set_number (number_of_references t - 1) t))
      (Ok (m, set_number (number_of_references t - 1) t)) ∧
  (number_of_references t = 1 → root t ≠ no_child → erase m l t = Err assert_fail).
Proof.
  intros Hl Hn.
  assert (He : erase m l t =
    asserting (basic_invariants (set_number (number_of_references t - 1) t))
      (Ok (m, set_number (number_of_references t - 1) t))).
  { unfold erase, commit_delete, inner_delete_by_leaf. rewrite Hl. cbn [of_option res_bind].
    cbn [leaf_get_count agg_trie_leaf]. unfold set_number at 1. cbn [number_of_references].
    rewrite swrap_id by (simpl; lia). replace (0 <=? number_of_references t - 1) with true by lia.
    cbn [asserting Z.eqb orb leaf_store set_number]. rewrite Hl. done. }
  split; [exact He|]. intros H1 Hroot. rewrite He. unfold basic_invariants, set_number.
  cbn [number_of_references root]. rewrite H1. cbn. by destruct (root t).
Qed.

End GroupProofs.

(** ** On concrete groups *)

Definition sample_tuple2 : tuple := mk_tuple sample_pred [5; 1].

Lemma sample_tuple2_denotes :
  tuple_denotes sample_memory sample_tuple2 [VInt 5; VList NodeList [5; 6]].
Proof.
  constructor; [apply (denotes_int _ 5)|]. constructor; [|constructor].
  apply (denotes_list _ _ NodeList); [done|]. exact sample_store_list.
Qed.

Definition sample_group : agg_configuration :=
  mk_agg_configuration true None
    (mk_trie no_child 3 {[ 1%positive := new_simple_tuple sample_tuple 1;
                           2%positive := new_simple_tuple sample_tuple2 2 ]} [1%positive; 2%positive]).

Abbreviation sample_values := [[VInt 3; VList NodeList [5; 6]]; [VInt 5; VList NodeList [5; 6]]].

Lemma sample_group_denotes : group_denotes sample_memory sample_group sample_values.
Proof.
  constructor; [apply sample_tuple_denotes|]. constructor; [apply sample_tuple2_denotes|]. constructor.
Qed.

Lemma sample_ints : Forall (λ vs, ∃ z, int_at 0 vs z) sample_values.
Proof. repeat constructor; eexists; reflexivity. Qed.

Lemma generate_max_min_int_witness :
  (∃ m' r vs z, do_generate sample_memory AGG_MAX_INT 0 sample_group = Ok (m', Some r) ∧
     vs ∈ sample_values ∧ mem_sub sample_memory m' ∧ tuple_denotes m' r vs ∧ int_at 0 vs z ∧
     ∀ vs' z', vs' ∈ sample_values → int_at 0 vs' z' → z' <= z) ∧
  (∃ m' r vs z, do_generate sample_memory AGG_MIN_INT 0 sample_group = Ok (m', Some r) ∧
     vs ∈ sample_values ∧ mem_sub sample_memory m' ∧ tuple_denotes m' r vs ∧ int_at 0 vs z ∧
     ∀ vs' z', vs' ∈ sample_values → int_at 0 vs' z' → z <= z').
Proof.
  apply (generate_max_min_int sample_memory sample_group sample_values 0).
  - reflexivity.
  - discriminate.
  - exact sample_group_denotes.
  - exact sample_ints.
Defined.

Lemma generate_sum_int_ok_witness :
  ∃ m' r zs, do_generate sample_memory AGG_SUM_INT 0 sample_group = Ok (m', Some r) ∧
    mem_sub sample_memory m' ∧ Forall2 (int_at 0) sample_values zs ∧
    tuple_denotes m' r (<[0%nat := VInt (swrap 32 (weighted_sum (entries (vals sample_group)) zs))]>
                          [VInt 3; VList NodeList [5; 6]]).
Proof.
  apply (generate_sum_int_ok sample_memory sample_group [VInt 3; VList NodeList [5; 6]]
           [[VInt 5; VList NodeList [5; 6]]] 0).
  - reflexivity.
  - exact sample_group_denotes.
  - exact sample_ints.
Defined.

Lemma sample_key t vs :
  tuple_denotes sample_memory t vs → pred t = sample_pred →
  Forall2 value_type vs (pred_types sample_pred) → forallb value_key_ok vs = true →
  key_of sample_memory (Some t) (Some (tokens vs)).
Proof. intros Hd Hp Hty Hok. exists (pred_types (pred t)), vs. rewrite Hp. by split_and!. Qed.

(** the aggregate had no tuple, and the group is empty now *)
Lemma generate_deltas_witness :
  ∃ out, generate sample_memory AGG_MAX_INT 0 (mk_agg_configuration true (Some sample_tuple) new_trie) []
      = Ok (sample_memory, mk_agg_configuration false None new_trie, [] ++ out) ∧
    apply_deltas sample_memory (Some (tokens [VInt 3; VList NodeList [5; 6]])) out None ∧
    (Some (tokens [VInt 3; VList NodeList [5; 6]]) = None → out = []).
Proof.
  apply (generate_deltas sample_memory AGG_MAX_INT 0
           (mk_agg_configuration true (Some sample_tuple) new_trie) [] sample_memory None).
  - reflexivity.
  - apply (sample_key sample_tuple [VInt 3; VList NodeList [5; 6]]); [exact sample_tuple_denotes|done| |done].
    repeat constructor.
  - exact I.
  - discriminate.
Defined.

Lemma add_to_set_inserts_witness :
  ∃ m' c', add_to_set id id (λ _, 0) sample_memory sample_tuple 1 new_agg_configuration = Ok (m', c') ∧
    changed c' = true ∧ corresponds c' = None ∧
    represents id id (λ _, 0) (pred_types sample_pred) (vals c')
      (insert_spec (tokens [VInt 3; VList NodeList [5; 6]]) sample_tuple 1 ∅) ∧
    ((∅ : gmap (list token) simple_tuple) !! tokens [VInt 3; VList NodeList [5; 6]] = None →
     m' = sample_memory).
Proof.
  apply (add_to_set_inserts id id (λ _, 0) sample_memory sample_tuple 1 new_agg_configuration
           [VInt 3; VList NodeList [5; 6]] ∅).
  - exact hash_zero_ok.
  - exact sample_mem_fits.
  - exact sample_tuple_denotes.
  - reflexivity.
  - apply new_trie_represents.
  - lia.
  - reflexivity.
  - intros s Hs. rewrite lookup_empty in Hs. discriminate Hs.
  - rewrite lookup_empty. intros [s Hs]. discriminate Hs.
Defined.

Lemma erase_keeps_group_witness :
  erase sample_memory 1 (mk_trie (leaf_child 1) 1 {[ 1%positive := Some new_agg_configuration ]}
                           [1%positive]) = Err assert_fail.
Proof.
  apply (erase_keeps_group sample_memory 1 (Some new_agg_configuration)
    (mk_trie (leaf_child 1) 1 {[ 1%positive := Some new_agg_configuration ]} [1%positive])).
  - reflexivity.
  - done.
  - reflexivity.
  - discriminate.
Defined.
