(* ===== verification/Heap.v ===== *)
(** Binary heaps: [queue/heap_implementation.hpp] (the macros shared by both
    heaps), [queue/safe_simple_pqueue.hpp] ([heap_queue], a heap of values) and
    [queue/safe_complex_pqueue.hpp] ([intrusive_safe_complex_pqueue], a heap of
    pointers whose nodes know their position).

    The macros read the vector through [HEAP_GET_PRIORITY] and write it only
    with the exchange made by two [HEAP_SET_INDEX]; the class [HeapVector] is
    that interface, and heap order is restored against it once.  The two queues
    are its instances. *)

From Stdlib Require Import ZArith Lia Bool Permutation SpecFloat.
From stdpp Require Import base tactics list numbers option gmap.
From S2P Require Import Prelude.
From S2P Require Import Words.

Section HeapPriority.
#[local] Open Scope Z_scope.

(** heap_type *)
Inductive heap_type : Type :=
  | HEAP_INT_ASC
  | HEAP_INT_DESC
  | HEAP_FLOAT_ASC
  | HEAP_FLOAT_DESC.

#[global] Instance heap_type_eq_dec : EqDecision heap_type.
Proof. solve_decision. Defined.

(** heap_priority is a union: its 64 bits, read as an [int_val] or as a
    [float_val]. *)
Definition heap_priority : Type := Z.

Definition int_priority (p : heap_priority) : Z := swrap 32 (wrap 32 p).
Definition float_priority (p : heap_priority) : spec_float := float_of_bits p.

(** [HEAP_COMPARE(HEAP_GET_PRIORITY(p), HEAP_GET_PRIORITY(q))].  The conditional
    of [HEAP_GET_PRIORITY] has type double; a conversion from int32 is exact. *)
Definition HEAP_COMPARE (typ : heap_type) (p q : heap_priority) : bool :=
  match typ with
  | HEAP_INT_ASC => int_priority p <=? int_priority q
  | HEAP_INT_DESC => int_priority p >=? int_priority q
  | HEAP_FLOAT_ASC => SFleb (float_priority p) (float_priority q)
  | HEAP_FLOAT_DESC => SFleb (float_priority q) (float_priority p)
  end.

(** A NaN compares with nothing: priorities of a float heap must be numbers. *)
Definition priority_ok (typ : heap_type) (p : heap_priority) : bool :=
  match typ with
  | HEAP_INT_ASC | HEAP_INT_DESC => true
  | HEAP_FLOAT_ASC | HEAP_FLOAT_DESC => negb (is_nan_bits p)
  end.
End HeapPriority.

Section Compare.
Context (typ : heap_type).

Lemma float_priority_ok p :
  negb (is_nan_bits p) = true → float_priority p ≠ S754_nan.
Proof. intros H%negb_true_iff. by apply is_nan_bits_false. Qed.

Lemma HEAP_COMPARE_refl p : priority_ok typ p = true → HEAP_COMPARE typ p p = true.
Proof.
  destruct typ; cbn [priority_ok HEAP_COMPARE]; intros.
  - apply Z.leb_refl.
  - rewrite Z.geb_leb. apply Z.leb_refl.
  - apply SFleb_refl. auto using float_priority_ok.
  - apply SFleb_refl. auto using float_priority_ok.
Qed.

Lemma HEAP_COMPARE_trans p q r :
  priority_ok typ p = true → priority_ok typ q = true → priority_ok typ r = true →
  HEAP_COMPARE typ p q = true → HEAP_COMPARE typ q r = true →
  HEAP_COMPARE typ p r = true.
Proof.
  destruct typ; cbn [priority_ok HEAP_COMPARE]; rewrite ?Z.geb_leb; intros.
  - rewrite Z.leb_le in *. by etrans.
  - rewrite Z.leb_le in *. by etrans.
  - apply SFleb_trans with (float_priority q); auto using float_priority_ok.
  - apply SFleb_trans with (float_priority q); auto using float_priority_ok.
Qed.

Lemma HEAP_COMPARE_total p q :
  priority_ok typ p = true → priority_ok typ q = true →
  HEAP_COMPARE typ p q = false → HEAP_COMPARE typ q p = true.
Proof.
  destruct typ; cbn [priority_ok HEAP_COMPARE]; rewrite ?Z.geb_leb; intros Hp Hq Hc.
  - rewrite Z.leb_gt, Z.leb_le in *. by apply Z.lt_le_incl.
  - rewrite Z.leb_gt, Z.leb_le in *. by apply Z.lt_le_incl.
  - destruct (SFleb_total (float_priority p) (float_priority q)); 
      auto using float_priority_ok; congruence.
  - destruct (SFleb_total (float_priority p) (float_priority q)); 
      auto using float_priority_ok; congruence.
Qed.
End Compare.

(** ** The vector the macros work on *)

Class HeapVector (S : Type) : Type := {
  hv_size : S → nat;
  (** [HEAP_GET_PRIORITY(heap[i])] *)
  hv_prio : S → nat → heap_priority;
  (** [heap_object obj(heap[i]); HEAP_SET_INDEX(i, heap[j]); HEAP_SET_INDEX(j, obj);] *)
  hv_swap : S → nat → nat → S
}.

Class HeapVectorLaws (S : Type) `{HeapVector S} : Prop := {
  hv_size_swap s i j : hv_size (hv_swap s i j) = hv_size s;
  hv_prio_swap s i j k :
    i < hv_size s → j < hv_size s →
    hv_prio (hv_swap s i j) k =
      if decide (k = j) then hv_prio s i
      else if decide (k = i) then hv_prio s j else hv_prio s k
}.

(** *** HEAP_DEFINE_UTILS: [None] is the -1 of the code *)
Section HeapMacros.
Context {S : Type} `{HeapVector S}.

Definition left (s : S) (parent : nat) : option nat :=
  let i := 2 * parent + 1 in if i <? hv_size s then Some i else None.

Definition right (s : S) (parent : nat) : option nat :=
  let i := 2 * parent + 2 in if i <? hv_size s then Some i else None.

(** [(child - 1) >> 1] *)
Definition half (child : nat) : nat := (child - 1) / 2.

Arguments half : simpl never.

Definition parent (child : nat) : option nat :=
  if child =? 0 then None else Some (half child).

Context (typ : heap_type).

Definition compare_at (s : S) (i j : nat) : bool :=
  HEAP_COMPARE typ (hv_prio s i) (hv_prio s j).

(** The condition of the loop: [index > 0], [parent(index) >= 0], and the
    parent does not compare. *)
Fixpoint heapifyup_loop (fuel : nat) (s : S) (index : nat) (moved : bool) : S * bool :=
  match fuel with
  | O => (s, moved)
  | Datatypes.S fuel =>
      match parent index with
      | Some p =>
          if negb (compare_at s p index)
          then heapifyup_loop fuel (hv_swap s p index) p true
          else (s, moved)
      | None => (s, moved)
      end
  end.

(** [index] decreases in every round *)
Definition heapifyup (s : S) (index : nat) : S * bool :=
  heapifyup_loop (index + 1) s index false.

(** the child the element goes to, or [None] when it stays *)
Definition heapifydown_child (s : S) (index : nat) : option nat :=
  match left s index, right s index with
  | None, None => None
  | None, Some r => Some r
  | Some l, None => if compare_at s index l then None else Some l
  | Some l, Some r =>
      if compare_at s index l && compare_at s index r then None
      else if compare_at s r l then Some r else Some l
  end.

Fixpoint heapifydown_loop (fuel : nat) (s : S) (index : nat) : S :=
  match fuel with
  | O => s
  | Datatypes.S fuel =>
      match heapifydown_child s index with
      | None => s
      | Some smaller => heapifydown_loop fuel (hv_swap s index smaller) smaller
      end
  end.

(** [index] increases up to the size of the vector *)
Definition heapifydown (s : S) (index : nat) : S :=
  heapifydown_loop (hv_size s) s index.

Definition heap_order (s : S) : Prop :=
  ∀ k, 0 < k < hv_size s → compare_at s (half k) k = true.

Definition priorities_ok (s : S) : Prop :=
  ∀ k, k < hv_size s → priority_ok typ (hv_prio s k) = true.

(** heap order except between [i] and its parent *)
Definition up_inv (s : S) (i : nat) : Prop :=
  i < hv_size s ∧
  (∀ k, 0 < k < hv_size s → k ≠ i → compare_at s (half k) k = true) ∧
  (∀ c, 0 < c < hv_size s → half c = i → 0 < i →
        compare_at s (half i) c = true).

(** heap order except between [i] and its children *)
Definition down_inv (s : S) (i : nat) : Prop :=
  (∀ k, 0 < k < hv_size s → half k ≠ i → compare_at s (half k) k = true) ∧
  (∀ c, 0 < c < hv_size s → half c = i → 0 < i →
        compare_at s (half i) c = true).

Context `{!HeapVectorLaws S}.

Lemma half_spec k : 0 < k → k = 2 * half k + 1 ∨ k = 2 * half k + 2.
Proof.
  unfold half. intros. pose proof (Nat.div_mod (k - 1) 2 ltac:(lia)).
  pose proof (Nat.mod_upper_bound (k - 1) 2 ltac:(lia)). lia.
Qed.

Lemma priorities_ok_swap s i j :
  i < hv_size s → j < hv_size s → priorities_ok s → priorities_ok (hv_swap s i j).
Proof.
  intros Hi Hj Hok k. rewrite hv_size_swap. intros Hk.
  rewrite hv_prio_swap by done. repeat case_decide; auto.
Qed.

(** What any exchange keeps, both loops keep. *)
Section SwapInvariant.
Context (P : S → Prop).
Hypothesis P_swap : ∀ s i j, i < hv_size s → j < hv_size s → P s → P (hv_swap s i j).

Lemma heapifyup_loop_inv fuel s i b :
  i < hv_size s → P s → P (heapifyup_loop fuel s i b).1.
Proof.
  revert s i b. induction fuel as [|fuel IH]; intros s i b Hi HP; [done|]. simpl.
  unfold parent. destruct (i =? 0) eqn:E; [done|]. bool_to_prop.
  pose proof (half_spec i ltac:(lia)).
  destruct (compare_at s (half i) i); [done|]. simpl.
  apply IH; [rewrite hv_size_swap; lia|]. apply P_swap; [lia..|done].
Qed.

Lemma heapifydown_child_spec s i c :
  heapifydown_child s i = Some c → i < c < hv_size s.
Proof.
  unfold heapifydown_child, left, right. intros Hc.
  repeat (simplify_eq/=; split_guard); bool_to_prop; simplify_eq; lia.
Qed.

Lemma heapifydown_loop_inv fuel s i :
  P s → P (heapifydown_loop fuel s i).
Proof.
  revert s i. induction fuel as [|fuel IH]; intros s i HP; [done|]. simpl.
  destruct (heapifydown_child s i) as [c|] eqn:Hc; [|done].
  apply heapifydown_child_spec in Hc. apply IH, P_swap; [lia..|done].
Qed.
End SwapInvariant.

Lemma heapifyup_inv (P : S → Prop) s i :
  (∀ s i j, i < hv_size s → j < hv_size s → P s → P (hv_swap s i j)) →
  i < hv_size s → P s → P (heapifyup s i).1.
Proof. intros. unfold heapifyup. by apply heapifyup_loop_inv. Qed.

Lemma heapifydown_inv (P : S → Prop) s i :
  (∀ s i j, i < hv_size s → j < hv_size s → P s → P (hv_swap s i j)) →
  P s → P (heapifydown s i).
Proof. intros. unfold heapifydown. by apply heapifydown_loop_inv. Qed.

(** *** Heap order is restored *)

Lemma compare_total s i j :
  priorities_ok s → i < hv_size s → j < hv_size s →
  compare_at s i j = false → compare_at s j i = true.
Proof. intros Hok ??. apply HEAP_COMPARE_total; by apply Hok. Qed.

Lemma compare_trans s i j k :
  priorities_ok s → i < hv_size s → j < hv_size s → k < hv_size s →
  compare_at s i j = true → compare_at s j k = true → compare_at s i k = true.
Proof. intros Hok ???. apply HEAP_COMPARE_trans; by apply Hok. Qed.

(** the position of the old vector that [k] of the exchanged vector shows *)
Definition swapped (i j k : nat) : nat :=
  if decide (k = j) then i else if decide (k = i) then j else k.

Lemma swapped_r i j : swapped i j j = i.
Proof. unfold swapped. by rewrite decide_True. Qed.

Lemma swapped_l i j : swapped i j i = j.
Proof. unfold swapped. case_decide; [done|]. by rewrite decide_True. Qed.

Lemma swapped_ne i j k : k ≠ i → k ≠ j → swapped i j k = k.
Proof. intros. unfold swapped. by rewrite !decide_False. Qed.

Lemma compare_swap s i j a b :
  i < hv_size s → j < hv_size s →
  compare_at (hv_swap s i j) a b = compare_at s (swapped i j a) (swapped i j b).
Proof.
  intros. unfold compare_at, swapped. rewrite !hv_prio_swap by done.
  by repeat case_decide.
Qed.

Lemma up_inv_step s i :
  priorities_ok s → 0 < i → up_inv s i → compare_at s (half i) i = false →
  up_inv (hv_swap s (half i) i) (half i).
Proof.
  intros Hok Hi (Hsz & Hord & Hgrand) Hlt.
  pose proof (half_spec i Hi).
  apply compare_total in Hlt; [|done|lia..].
  split_and!; rewrite ?hv_size_swap; [lia|..].
  - intros k Hk Hne. rewrite compare_swap by lia. pose proof (half_spec k ltac:(lia)).
    destruct (decide (k = i)) as [->|]; [by rewrite swapped_l, swapped_r|].
    rewrite (swapped_ne _ _ k) by done.
    destruct (decide (half k = i)); [|destruct (decide (half k = half i)) as [Hp|]].
    + subst i. rewrite swapped_r. auto.
    + rewrite Hp, swapped_l. apply compare_trans with (half i); auto; [lia..|].
      rewrite <-Hp. apply Hord; lia.
    + rewrite swapped_ne by done. by apply Hord.
  - intros c Hc Hp Hpos. rewrite compare_swap by lia.
    pose proof (half_spec c ltac:(lia)). pose proof (half_spec (half i) Hpos).
    rewrite (swapped_ne _ _ (half (half i))) by lia.
    destruct (decide (c = i)) as [->|].
    + rewrite swapped_r. apply Hord; lia.
    + rewrite swapped_ne by lia. apply compare_trans with (half i); auto; [lia..| |].
      * apply Hord; lia.
      * rewrite <-Hp. apply Hord; lia.
Qed.

Lemma heapifyup_loop_order fuel s i b :
  priorities_ok s → up_inv s i → i < fuel → heap_order (heapifyup_loop fuel s i b).1.
Proof.
  revert s i b. induction fuel as [|fuel IH]; intros s i b Hok Hup Hf; [lia|]. simpl.
  unfold parent. destruct (i =? 0) eqn:E; bool_to_prop.
  { destruct Hup as (_ & Hord & _). intros k Hk. simpl in *. apply Hord; lia. }
  pose proof (half_spec i ltac:(lia)).
  destruct (compare_at s (half i) i) eqn:Hc; simpl.
  - intros k Hk. destruct (decide (k = i)) as [->|]; [done|]. by apply Hup.
  - assert (i < hv_size s) by apply Hup. apply IH; [|apply up_inv_step|]; auto; try lia.
    apply priorities_ok_swap; auto; lia.
Qed.

Lemma heapifyup_order s i :
  priorities_ok s → up_inv s i → heap_order (heapifyup s i).1.
Proof. intros. apply heapifyup_loop_order; auto. lia. Qed.

(** the child chosen is smaller than its parent and not larger than its sibling *)
Lemma heapifydown_child_some s i c :
  priorities_ok s → heapifydown_child s i = Some c →
  0 < c ∧ half c = i ∧ i < c < hv_size s ∧
  (∀ k, 0 < k < hv_size s → half k = i → compare_at s c k = true) ∧
  compare_at s c i = true.
Proof.
  intros Hok Hch. pose proof (heapifydown_child_spec s i c Hch) as Hc.
  assert (Hl : half (2 * i + 1) = i) by (pose proof (half_spec (2 * i + 1)); lia).
  assert (Hr : half (2 * i + 2) = i) by (pose proof (half_spec (2 * i + 2)); lia).
  assert (Hkids : ∀ k, 0 < k → half k = i → k = 2 * i + 1 ∨ k = 2 * i + 2)
    by (intros k Hk <-; by apply half_spec).
  assert (Hrefl : ∀ k, k < hv_size s → compare_at s k k = true)
    by (intros; apply HEAP_COMPARE_refl; auto).
  unfold heapifydown_child, left, right in Hch.
  destruct (2 * i + 1 <? hv_size s) eqn:E1; destruct (2 * i + 2 <? hv_size s) eqn:E2;
    bool_to_prop; simplify_eq; try lia.
  - assert (compare_at s c (2 * i + 1) = true ∧ compare_at s c (2 * i + 2) = true
            ∧ (c = 2 * i + 1 ∨ c = 2 * i + 2)) as (Hcl & Hcr & Hor).
    { repeat split_guard; simplify_eq; split_and!; auto.
      apply compare_total; [done|lia..|done]. }
    assert (half c = i) by (by destruct Hor as [->| ->]).
    split_and!; [lia|done|lia|lia| |].
    + intros k Hk Hki. destruct (Hkids k) as [->| ->]; auto; lia.
    + apply compare_total; [done|lia..|]. apply not_true_is_false. intros Hic.
      rewrite (compare_trans s i c (2 * i + 1)) in Hch by (auto; lia).
      rewrite (compare_trans s i c (2 * i + 2)) in Hch by (auto; lia). done.
  - destruct (compare_at s i (2 * i + 1)) eqn:C1; simplify_eq.
    split_and!; [lia|done|lia|lia| |apply compare_total; auto; lia].
    intros k Hk Hki. destruct (Hkids k) as [->| ->]; try lia; try done. apply Hrefl; lia.
Qed.

Lemma heapifydown_child_none s i :
  heapifydown_child s i = None →
  ∀ k, 0 < k < hv_size s → half k = i → compare_at s i k = true.
Proof.
  intros Hch k Hk <-. pose proof (half_spec k ltac:(lia)) as Hkids.
  unfold heapifydown_child, left, right in Hch.
  destruct (2 * half k + 1 <? hv_size s) eqn:E1; destruct (2 * half k + 2 <? hv_size s) eqn:E2;
    bool_to_prop; simplify_eq; try lia.
  - repeat split_guard; simplify_eq. bool_to_prop. destruct Hkids as [Hk'|Hk']; congruence.
  - repeat split_guard; simplify_eq. destruct Hkids as [Hk'|Hk']; [congruence|lia].
Qed.

Lemma down_inv_step s i c :
  priorities_ok s → down_inv s i → heapifydown_child s i = Some c →
  down_inv (hv_swap s i c) c.
Proof.
  intros Hok (Hord & Hgrand) Hc.
  destruct (heapifydown_child_some s i c Hok Hc) as (Hc0 & Hhc & Hb & Hsib & Hlt).
  split; rewrite hv_size_swap.
  - intros k Hk Hne. rewrite compare_swap by lia. pose proof (half_spec k ltac:(lia)).
    destruct (decide (k = i)) as [->|].
    { rewrite swapped_l, swapped_ne by lia. apply Hgrand; auto; lia. }
    destruct (decide (k = c)) as [->|].
    { by rewrite Hhc, swapped_l, swapped_r. }
    rewrite (swapped_ne _ _ k) by done.
    destruct (decide (half k = i)) as [Hki|]; [rewrite Hki, swapped_l; auto|].
    rewrite swapped_ne by done. auto.
  - intros k Hk Hp _. rewrite compare_swap by lia. pose proof (half_spec k ltac:(lia)).
    rewrite Hhc, swapped_l, swapped_ne by lia. rewrite <-Hp. apply Hord; lia.
Qed.

Lemma heapifydown_loop_order fuel s i :
  priorities_ok s → down_inv s i → hv_size s <= i + fuel →
  heap_order (heapifydown_loop fuel s i).
Proof.
  revert s i. induction fuel as [|fuel IH]; intros s i Hok Hd Hf; simpl.
  { intros k Hk. apply Hd; [done|]. pose proof (half_spec k). lia. }
  destruct (heapifydown_child s i) as [c|] eqn:Hc.
  - pose proof (heapifydown_child_spec s i c Hc). apply IH.
    + apply priorities_ok_swap; auto; lia.
    + by apply down_inv_step.
    + rewrite hv_size_swap. lia.
  - intros k Hk. destruct (decide (half k = i)) as [<-|]; [|by apply Hd].
    by apply heapifydown_child_none.
Qed.

Lemma heapifydown_order s i :
  priorities_ok s → down_inv s i → heap_order (heapifydown s i).
Proof. intros. apply heapifydown_loop_order; auto. lia. Qed.

(** the root is minimal *)
Lemma heap_order_root s k :
  priorities_ok s → heap_order s → k < hv_size s → compare_at s 0 k = true.
Proof.
  intros Hok Ho. induction k as [k IH] using lt_wf_ind. intros Hk.
  destruct (decide (k = 0)) as [->|]; [apply HEAP_COMPARE_refl, Hok; lia|].
  pose proof (half_spec k ltac:(lia)).
  apply compare_trans with (half k); auto; try lia; [apply IH; lia|apply Ho; lia].
Qed.

Lemma heapifyup_size s i : i < hv_size s → hv_size (heapifyup s i).1 = hv_size s.
Proof.
  intros. apply (heapifyup_inv (fun s' => hv_size s' = hv_size s)); auto.
  intros. by rewrite hv_size_swap.
Qed.

Lemma heapifydown_size s i : hv_size (heapifydown s i) = hv_size s.
Proof.
  apply (heapifydown_inv (fun s' => hv_size s' = hv_size s)); auto.
  intros. by rewrite hv_size_swap.
Qed.

Lemma heapifyup_priorities_ok s i :
  i < hv_size s → priorities_ok s → priorities_ok (heapifyup s i).1.
Proof. intros. apply heapifyup_inv; auto. intros. by apply priorities_ok_swap. Qed.

Lemma heapifydown_priorities_ok s i :
  priorities_ok s → priorities_ok (heapifydown s i).
Proof. intros. apply heapifydown_inv; auto. intros. by apply priorities_ok_swap. Qed.
End HeapMacros.
