(* ===== verification/Pqueues.v ===== *)
(** The two users of the heap macros: [heap_queue] of
    [queue/safe_simple_pqueue.hpp] (a vector of objects that hold priority and
    data) and [intrusive_safe_complex_pqueue] of
    [queue/safe_complex_pqueue.hpp] (a vector of pointers to nodes that hold
    priority, position and an in-queue flag).  Each is an instance of
    [HeapVector]; order, contents and positions are its theorems. *)

From Stdlib Require Import ZArith Lia Bool Permutation.
From stdpp Require Import base tactics list numbers option gmap.
From S2P Require Import Prelude Words Heap.

(** the last element replaces index [i] and the vector loses its last slot *)
Lemma list_replace_last_perm {A} (l : list A) x y i :
  (l ++ [y]) !! i = Some x → i < length l → x :: <[i := y]> l ≡ₚ l ++ [y].
Proof.
  intros Hi Hl. rewrite lookup_app_l in Hi by done.
  rewrite <-(list_insert_perm l i x y Hi). apply Permutation_cons_append.
Qed.

Lemma snoc_cases {A} (l : list A) : l = [] ∨ ∃ h m, l = h ++ [m].
Proof. induction l using rev_ind; eauto. Qed.

Module heap_queue.
Section heap_queue.
Context {T : Type} `{EqDecision T}.

Record heap_object : Type := mk_object {
  val : heap_priority;
  data : T;
  pos : option nat (** [None] is an indeterminate int *)
}.

#[local] Abbreviation heap_vector := (list heap_object).

Definition get_val (heap : heap_vector) (i : nat) : heap_priority :=
  match heap !! i with Some o => val o | None => 0%Z end.

(** [HEAP_SET_INDEX(IDX, OBJ)] copies [OBJ] into the vector and then writes
    [OBJ.pos]: the slot or local variable that was copied from, which the second
    half of the exchange overwrites or drops. *)
#[global] Instance heap_queue_vector : HeapVector heap_vector := {
  hv_size := length;
  hv_prio := get_val;
  hv_swap s i j := list_swap i j s
}.

#[global] Instance heap_queue_vector_laws : HeapVectorLaws heap_vector.
Proof.
  split; simpl; [intros; apply list_swap_length|].
  intros s i j k Hi Hj. unfold get_val. rewrite list_swap_lookup by done.
  by repeat case_decide.
Qed.

Definition empty (heap : heap_vector) : bool :=
  match heap with [] => true | _ => false end.

(** begin() .. end() *)
Definition elements (heap : heap_vector) : list T := map data heap.

Definition insert (typ : heap_type) (el : T) (prio : heap_priority)
    (heap : heap_vector) : heap_vector :=
  let heap := heap ++ [mk_object prio el None] in
  (heapifyup typ heap (length heap - 1)).1.

Definition remove_by_index (typ : heap_type) (index : nat) (heap : heap_vector)
  : res heap_vector :=
  match last heap with
  | None => Err undefined_behaviour
  | Some tmp =>
      let heap := removelast heap in
      if negb (empty heap) && negb (index =? length heap)
      then Ok (heapifydown typ (<[index := tmp]> heap) index)
      else Ok heap
  end.

(** The search goes level by level; [shift] is the width of the level and
    [remain] what is left of it. *)
Fixpoint remove_loop (typ : heap_type) (fuel : nat) (el : T) (prio : heap_priority)
    (heap : heap_vector) (shift remain index : nat) (all : bool) : res heap_vector :=
  match fuel with
  | O => Err assert_fail
  | S fuel =>
      match heap !! index with
      | None => Err assert_fail
      | Some o =>
          if decide (data o = el) then remove_by_index typ index heap
          else
            let all := all && HEAP_COMPARE typ prio (val o) in
            let remain := remain - 1 in
            let index := index + 1 in
            if remain =? 0 then
              if all then Err assert_fail
              else remove_loop typ fuel el prio heap (shift * 2) (shift * 2) index true
            else remove_loop typ fuel el prio heap shift remain index all
      end
  end.

Definition remove (typ : heap_type) (el : T) (prio : heap_priority)
    (heap : heap_vector) : res heap_vector :=
  remove_loop typ (length heap + 1) el prio heap 1 1 0 true.

Definition clear (heap : heap_vector) : heap_vector := [].

Definition min_value (heap : heap_vector) : res heap_priority :=
  match heap with
  | [] => Err assert_fail
  | o :: _ => Ok (val o)
  end.

Definition pop (typ : heap_type) (heap : heap_vector) : res (T * heap_vector) :=
  match head heap, last heap with
  | Some min, Some back =>
      let heap := <[0 := mk_object (val back) (data back) (Some 0)]> heap in
      Ok (data min, heapifydown typ (removelast heap) 0)
  | _, _ => Err undefined_behaviour
  end.

(** the contents as a bag of data with their priorities *)
Definition entries (heap : heap_vector) : list (T * heap_priority) :=
  map (fun o => (data o, val o)) heap.

Definition wf (typ : heap_type) (heap : heap_vector) : Prop :=
  priorities_ok typ heap ∧ heap_order typ heap.

Lemma entries_swap heap i j : entries (list_swap i j heap) ≡ₚ entries heap.
Proof. unfold entries. by rewrite list_swap_perm. Qed.

Lemma entries_heapifyup typ heap i :
  i < length heap → entries (heapifyup typ heap i).1 ≡ₚ entries heap.
Proof.
  intros. apply (heapifyup_inv typ (fun h => entries h ≡ₚ entries heap)); auto.
  intros. simpl. by rewrite entries_swap.
Qed.

Lemma entries_heapifydown typ heap i :
  entries (heapifydown typ heap i) ≡ₚ entries heap.
Proof.
  apply (heapifydown_inv typ (fun h => entries h ≡ₚ entries heap)); auto.
  intros. simpl. by rewrite entries_swap.
Qed.

Lemma get_val_app_l (h h' : heap_vector) i :
  i < length h → get_val (h ++ h') i = get_val h i.
Proof. intros. unfold get_val. by rewrite lookup_app_l. Qed.

Lemma wf_insert typ el prio heap :
  wf typ heap → priority_ok typ prio = true → wf typ (insert typ el prio heap).
Proof.
  intros [Hok Ho] Hp. unfold insert. set (h := heap ++ _).
  assert (Hl : length h = length heap + 1) by (unfold h; by rewrite length_app).
  assert (Hg : ∀ i, i < length heap → get_val h i = get_val heap i)
    by (intros; by apply get_val_app_l).
  assert (Hok' : priorities_ok typ h).
  { intros k Hk. simpl in *. destruct (decide (k < length heap)).
    - rewrite Hg by done. by apply Hok.
    - unfold get_val, h. rewrite lookup_app_r by lia.
      replace (k - length heap) with 0 by lia. done. }
  split.
  - apply (heapifyup_priorities_ok typ h); [|done]. simpl. lia.
  - apply (heapifyup_order typ h); [done|]. simpl. split_and!; [simpl; lia|..]; simpl.
    + intros k Hk Hne. pose proof (half_spec k ltac:(lia)).
      unfold compare_at; simpl. rewrite !Hg by lia. apply Ho. simpl. lia.
    + intros c Hc Hp'. pose proof (half_spec c ltac:(lia)). lia.
Qed.

Lemma entries_insert typ el prio heap :
  entries (insert typ el prio heap) ≡ₚ (el, prio) :: entries heap.
Proof.
  unfold insert. rewrite entries_heapifyup by (rewrite length_app; simpl; lia).
  unfold entries. rewrite map_app. simpl. symmetry. apply Permutation_cons_append.
Qed.

(** replacing slot [0] by the last object leaves only the root out of order *)
Lemma down_inv_root typ (heap heap' : heap_vector) :
  wf typ heap → length heap' = length heap - 1 →
  (∀ i, 0 < i < length heap' → get_val heap' i = get_val heap i) →
  (0 < length heap' → priority_ok typ (get_val heap' 0) = true) →
  priorities_ok typ heap' ∧ down_inv typ heap' 0.
Proof.
  intros [Hok Ho] Hl Hg H0. split; [|split]; simpl.
  - intros k Hk. simpl in *. destruct (decide (k = 0)) as [->|]; [auto|].
    rewrite Hg by lia. apply Hok. simpl. lia.
  - intros k Hk Hne. pose proof (half_spec k ltac:(lia)).
    unfold compare_at; simpl. rewrite !Hg by lia. apply Ho. simpl. lia.
  - lia.
Qed.

Lemma entries_root_min typ heap :
  wf typ heap →
  Forall (fun e => HEAP_COMPARE typ (get_val heap 0) e.2 = true) (entries heap).
Proof.
  intros [Hok Ho]. apply Forall_forall. intros e He.
  apply list_elem_of_fmap in He as (o & -> & Hin).
  apply list_elem_of_lookup in Hin as (k & Hk).
  pose proof (heap_order_root typ heap k Hok Ho (lookup_lt_Some _ _ _ Hk)) as Hc.
  unfold compare_at in Hc. simpl in Hc. unfold get_val at 2 in Hc. by rewrite Hk in Hc.
Qed.

Lemma wf_heapifydown typ heap i :
  priorities_ok typ heap → down_inv typ heap i → wf typ (heapifydown typ heap i).
Proof.
  intros. split; [by apply (heapifydown_priorities_ok typ heap)|by apply (heapifydown_order typ heap)].
Qed.

(** in any order of the heap *)
Lemma pop_entries typ heap el heap' :
  pop typ heap = Ok (el, heap') → entries heap ≡ₚ (el, get_val heap 0) :: entries heap'.
Proof.
  intros Hpop. destruct (snoc_cases heap) as [->|(h & m & ->)]; [done|].
  unfold pop in Hpop. rewrite last_snoc in Hpop.
  destruct h as [|m' h]; [by simpl in Hpop; simplify_eq|].
  set (b := mk_object (val m) (data m) (Some 0)) in *.
  assert (Hrl : removelast (<[0 := b]> ((m' :: h) ++ [m])) = b :: h)
    by apply (removelast_last (b :: h) m).
  rewrite Hrl in Hpop. cbn [head app] in Hpop. injection Hpop as <- <-.
  rewrite entries_heapifydown. unfold entries. simpl. rewrite map_app. simpl.
  unfold get_val. simpl. constructor. symmetry. apply Permutation_cons_append.
Qed.

Lemma pop_ok typ heap el heap' :
  wf typ heap → pop typ heap = Ok (el, heap') →
  wf typ heap' ∧ entries heap ≡ₚ (el, get_val heap 0) :: entries heap'.
Proof.
  intros Hwf Hpop. split; [|by eapply pop_entries].
  destruct (snoc_cases heap) as [->|(h & m & ->)]; [done|].
  unfold pop in Hpop. rewrite last_snoc in Hpop.
  destruct h as [|m' h].
  { simpl in Hpop. simplify_eq.
    apply wf_heapifydown; [intros k Hk|split; intros k Hk]; simpl in Hk; lia. }
  set (b := mk_object (val m) (data m) (Some 0)) in *.
  assert (Hrl : removelast (<[0 := b]> ((m' :: h) ++ [m])) = b :: h)
    by apply (removelast_last (b :: h) m).
  rewrite Hrl in Hpop. cbn [head app] in Hpop. injection Hpop as <- <-.
  assert (Hg : ∀ i, 0 < i < length (b :: h) → get_val (b :: h) i = get_val ((m' :: h) ++ [m]) i).
  { intros [|i] Hi; [lia|]. unfold get_val. simpl in *. by rewrite lookup_app_l by lia. }
  destruct (down_inv_root typ ((m' :: h) ++ [m]) (b :: h) Hwf) as [Hok Hd];
    [simpl; rewrite length_app; simpl; lia|done| |].
  { intros _. destruct Hwf as [Hok _].
    specialize (Hok (length (m' :: h)) ltac:(simpl; rewrite length_app; simpl; lia)).
    simpl in Hok. unfold get_val in *. by rewrite (list_lookup_middle (m' :: h) [] m) in Hok. }
  by apply wf_heapifydown.
Qed.

Lemma pop_total typ heap :
  heap ≠ [] → ∃ el heap', pop typ heap = Ok (el, heap').
Proof.
  intros Hne. destruct heap as [|o h]; [done|]. unfold pop.
  destruct (last (o :: h)) eqn:E; [eauto|]. by apply last_None in E.
Qed.

Lemma remove_by_index_entries typ index heap o heap' :
  heap !! index = Some o → remove_by_index typ index heap = Ok heap' →
  entries heap ≡ₚ (data o, val o) :: entries heap'.
Proof.
  intros Ho Hr. destruct (snoc_cases heap) as [->|(h & m & ->)]; [done|].
  unfold remove_by_index in Hr. rewrite last_snoc, removelast_last in Hr.
  pose proof (lookup_lt_Some _ _ _ Ho) as Hlt. rewrite length_app in Hlt. simpl in Hlt.
  assert (Hcons : ∀ l, o :: l ≡ₚ h ++ [m] →
    entries (h ++ [m]) ≡ₚ (data o, val o) :: entries l).
  { intros l Hl. unfold entries. by rewrite <-Hl. }
  destruct (decide (index < length h)) as [Hi|Hi].
  - destruct (empty h) eqn:He; [destruct h; simpl in *; lia|].
    rewrite (proj2 (Nat.eqb_neq _ _)) in Hr by lia. simpl in Hr. simplify_eq.
    rewrite entries_heapifydown. apply Hcons. by apply list_replace_last_perm.
  - assert (index = length h) as -> by lia.
    rewrite Nat.eqb_refl, andb_false_r in Hr. simplify_eq.
    apply Hcons. rewrite list_lookup_middle in Ho by done. simplify_eq.
    apply Permutation_cons_append.
Qed.

Lemma remove_loop_entries typ fuel el prio heap shift remain index all heap' :
  remove_loop typ fuel el prio heap shift remain index all = Ok heap' →
  ∃ v, entries heap ≡ₚ (el, v) :: entries heap'.
Proof.
  revert shift remain index all.
  induction fuel as [|fuel IH]; intros shift remain index all H; [done|]. simpl in H.
  destruct (heap !! index) as [o|] eqn:Ho; [|done].
  destruct (decide (data o = el)) as [<-|].
  - exists (val o). by eapply remove_by_index_entries.
  - repeat split_guard; try done; by eapply IH.
Qed.

(** [heap_queue.insert] and [heap_queue.pop] of a well-formed heap keep it
    well formed and act on its bag of entries: [insert] adds one entry, and [pop]
    of a non-empty heap returns, and takes out exactly, an entry whose priority
    compares with that of every entry. *)
Theorem heap_queue_insert_pop typ el prio heap :
  wf typ heap → priority_ok typ prio = true →
  wf typ (insert typ el prio heap) ∧
  entries (insert typ el prio heap) ≡ₚ (el, prio) :: entries heap ∧
  (heap ≠ [] → ∃ top heap', pop typ heap = Ok (top, heap') ∧ wf typ heap' ∧
     ∃ p, entries heap ≡ₚ (top, p) :: entries heap' ∧
       Forall (fun e => HEAP_COMPARE typ p e.2 = true) (entries heap)).
Proof.
  intros Hwf Hp. split_and!; [by apply wf_insert|apply entries_insert|].
  intros Hne. destruct (pop_total typ heap Hne) as (top & heap' & Hpop).
  destruct (pop_ok typ heap top heap' Hwf Hpop) as [? ?].
  exists top, heap'. split_and!; [done..|]. exists (get_val heap 0).
  split; [done|by apply entries_root_min].
Qed.
End heap_queue.

Lemma heap_queue_insert_pop_witness :
  wf HEAP_INT_ASC (insert HEAP_INT_ASC 2 5%Z [mk_object 7%Z 1 None]) ∧
  entries (insert HEAP_INT_ASC 2 5%Z [mk_object 7%Z 1 None])
    ≡ₚ (2, 5%Z) :: entries [mk_object 7%Z 1 None] ∧
  ([mk_object 7%Z 1 None] ≠ [] →
   ∃ top heap', pop HEAP_INT_ASC [mk_object 7%Z 1 None] = Ok (top, heap') ∧
     wf HEAP_INT_ASC heap' ∧
     ∃ p, entries [mk_object 7%Z 1 None] ≡ₚ (top, p) :: entries heap' ∧
       Forall (fun e => HEAP_COMPARE HEAP_INT_ASC p e.2 = true)
         (entries [mk_object 7%Z 1 None])).
Proof.
  apply (heap_queue_insert_pop HEAP_INT_ASC 2 5%Z [mk_object 7%Z 1 None]); [|reflexivity].
  split; [intros k Hk; reflexivity|]. intros k Hk. simpl in Hk. lia.
Defined.

(** a vector whose data are their own priorities *)
Definition numbers (l : list Z) : list heap_object :=
  map (fun z => mk_object z z None) l.

(** [remove_by_index] only sifts the moved element down, so it can leave it
    above a larger parent: from this heap it removes 11 and puts 4 under 10.
    (The intrusive heap compares with the parent first.) *)
Theorem remove_by_index_breaks_order :
  let heap := numbers [1; 10; 2; 11; 12; 3; 4]%Z in
  wf HEAP_INT_ASC heap ∧
  ∃ heap', remove_by_index HEAP_INT_ASC 3 heap = Ok heap' ∧
    ¬ heap_order HEAP_INT_ASC heap'.
Proof.
  split; [split|].
  - intros k Hk. reflexivity.
  - intros k Hk. simpl in Hk.
    do 7 (destruct k as [|k]; [try lia; reflexivity|]). lia.
  - eexists; split; [vm_compute; reflexivity|].
    intros Ho. specialize (Ho 3 ltac:(simpl; lia)). vm_compute in Ho. discriminate.
Qed.

(** [remove] prunes its search when the priority it looks for compares with
    all of a level, ties included, so an entry deeper down with the same priority
    is missed and the assertion fails. *)
Theorem remove_misses_ties :
  let heap := [mk_object 5%Z 1 None; mk_object 5%Z 2 None; mk_object 5%Z 3 None] in
  wf HEAP_INT_ASC heap ∧ (2, 5%Z) ∈ entries heap ∧
  remove HEAP_INT_ASC 2 5%Z heap = Err assert_fail.
Proof.
  split; [split|split].
  - intros k Hk. reflexivity.
  - intros k Hk. simpl in Hk. do 3 (destruct k as [|k]; [try lia; reflexivity|]). lia.
  - simpl. set_solver.
  - vm_compute. reflexivity.
Qed.
End heap_queue.

Module complex_pqueue.
#[local] Open Scope nat_scope.

(** the intrusive fields [__intrusive_priority], [__intrusive_pos] and
    [__intrusive_in_priority_queue] of a node *)
Record pq_node : Type := mk_node {
  priority : heap_priority;
  node_pos : nat;
  in_priority_queue : bool
}.

Definition ptr : Type := positive.

(** the vector of pointers and the nodes they point to *)
Record pqueue : Type := mk_pqueue {
  heap : list ptr;
  nodes : gmap ptr pq_node
}.

Definition update_node (p : ptr) (f : pq_node → pq_node) (q : pqueue) : pqueue :=
  mk_pqueue (heap q) (alter f p (nodes q)).

Definition set_priority (prio : heap_priority) (n : pq_node) : pq_node :=
  mk_node prio (node_pos n) (in_priority_queue n).
Definition set_pos (i : nat) (n : pq_node) : pq_node :=
  mk_node (priority n) i (in_priority_queue n).
Definition set_in_queue (b : bool) (n : pq_node) : pq_node :=
  mk_node (priority n) (node_pos n) b.

(** [HEAP_SET_INDEX(IDX, OBJ)] *)
Definition set_index (i : nat) (p : ptr) (q : pqueue) : pqueue :=
  update_node p (set_pos i) (mk_pqueue (<[i := p]> (heap q)) (nodes q)).

Definition priority_of (q : pqueue) (p : ptr) : heap_priority :=
  match nodes q !! p with Some n => priority n | None => 0%Z end.

Definition get_priority (q : pqueue) (i : nat) : heap_priority :=
  match heap q !! i with Some p => priority_of q p | None => 0%Z end.

(** [obj(heap[i]); HEAP_SET_INDEX(i, heap[j]); HEAP_SET_INDEX(j, obj)] *)
Definition exchange (q : pqueue) (i j : nat) : pqueue :=
  match heap q !! i, heap q !! j with
  | Some obj, Some other => set_index j obj (set_index i other q)
  | _, _ => q
  end.

#[global] Instance pqueue_vector : HeapVector pqueue := {
  hv_size q := length (heap q);
  hv_prio := get_priority;
  hv_swap := exchange
}.

Lemma priority_of_set_index i p q p' :
  priority_of (set_index i p q) p' = priority_of q p'.
Proof.
  unfold priority_of, set_index, update_node; simpl.
  destruct (decide (p = p')) as [->|].
  - rewrite lookup_alter_eq. by destruct (nodes q !! p').
  - by rewrite lookup_alter_ne.
Qed.

Lemma heap_exchange q i j : heap (exchange q i j) = list_swap i j (heap q).
Proof. unfold exchange, list_swap. by destruct (heap q !! i), (heap q !! j). Qed.

Lemma priority_of_exchange q i j p : priority_of (exchange q i j) p = priority_of q p.
Proof.
  unfold exchange. destruct (heap q !! i), (heap q !! j); auto.
  by rewrite !priority_of_set_index.
Qed.

#[global] Instance pqueue_vector_laws : HeapVectorLaws pqueue.
Proof.
  split; simpl.
  - intros. by rewrite heap_exchange, list_swap_length.
  - intros q i j k Hi Hj. unfold get_priority.
    rewrite heap_exchange, list_swap_lookup by done.
    repeat case_decide;
      match goal with |- context [heap q !! ?a] => destruct (heap q !! a) end; auto;
      by rewrite priority_of_exchange.
Qed.

Definition empty (q : pqueue) : bool :=
  match heap q with [] => true | _ => false end.

Definition size (q : pqueue) : nat := length (heap q).

Definition in_queue (q : pqueue) (p : ptr) : res bool :=
  let* n := of_option (nodes q !! p) in Ok (in_priority_queue n).

Definition min_value (q : pqueue) : res heap_priority :=
  match heap q with
  | [] => Err undefined_behaviour
  | p :: _ => Ok (priority_of q p)
  end.

Definition do_insert (typ : heap_type) (node : ptr) (prio : heap_priority)
    (q : pqueue) : res pqueue :=
  let* b := in_queue q node in
  asserting (negb b)
    (let q := update_node node (set_priority prio) q in
     let q := update_node node (set_in_queue true) q in
     let q := mk_pqueue (heap q ++ [node]) (nodes q) in
     let q := update_node node (set_pos (size q - 1)) q in
     Ok (heapifyup typ q (size q - 1)).1).

(** the pointer popped, [None] being NULL *)
Definition do_pop (typ : heap_type) (q : pqueue) : res (option ptr * pqueue) :=
  match head (heap q), last (heap q) with
  | Some min, Some back =>
      let q := set_index 0 back q in
      let q := mk_pqueue (removelast (heap q)) (nodes q) in
      let q := heapifydown typ q 0 in
      let* b := in_queue q min in
      asserting b (Ok (Some min, update_node min (set_in_queue false) q))
  | _, _ => Ok (None, q)
  end.

Definition do_remove (typ : heap_type) (obj : ptr) (q : pqueue) : res pqueue :=
  let* n := of_option (nodes q !! obj) in
  let index := node_pos n in
  let* tmp := of_option (last (heap q)) in
  let q := mk_pqueue (removelast (heap q)) (nodes q) in
  let q := update_node obj (set_in_queue false) q in
  if negb (empty q) && negb (index =? size q) then
    let q := set_index index tmp q in
    match parent index with
    | Some p =>
        if HEAP_COMPARE typ (priority_of q tmp) (get_priority q p)
        then Ok (heapifyup typ q index).1
        else Ok (heapifydown typ q index)
    | None => Ok (heapifydown typ q index)
    end
  else Ok q.

Definition move_node (typ : heap_type) (node : ptr) (new_prio : heap_priority)
    (q : pqueue) : res pqueue :=
  let* q := do_remove typ node q in do_insert typ node new_prio q.

(** assert_heap() *)
Definition assert_heap (typ : heap_type) (q : pqueue) : bool :=
  forallb (fun i =>
    match left q i with Some l => compare_at typ q i l | None => true end &&
    match right q i with Some r => compare_at typ q i r | None => true end)
    (seq 0 (size q)).

(** Positions: slot [i] holds a node in the queue that knows it is at [i], and
    every node in the queue has a slot; in the middle of a removal one node
    [x] has lost its slot. *)
Definition positions_but (x : option ptr) (q : pqueue) : Prop :=
  (∀ i p, heap q !! i = Some p →
     ∃ n, nodes q !! p = Some n ∧ node_pos n = i ∧ in_priority_queue n = true) ∧
  (∀ p n, nodes q !! p = Some n → in_priority_queue n = true →
     p ∈ heap q ∨ x = Some p).

Definition positions : pqueue → Prop := positions_but None.

Definition wf (typ : heap_type) (q : pqueue) : Prop :=
  priorities_ok typ q ∧ heap_order typ q ∧ positions q.

Lemma lookup_update_node p f q p' :
  nodes (update_node p f q) !! p' =
    if decide (p' = p) then f <$> nodes q !! p else nodes q !! p'.
Proof.
  unfold update_node; simpl. case_decide as Hd.
  - subst. by rewrite lookup_alter_eq.
  - by rewrite lookup_alter_ne.
Qed.

Lemma lookup_set_index i p q p' :
  nodes (set_index i p q) !! p' =
    if decide (p' = p) then set_pos i <$> nodes q !! p else nodes q !! p'.
Proof. unfold set_index. by rewrite lookup_update_node. Qed.

Lemma positions_inj x q i j p :
  positions_but x q → heap q !! i = Some p → heap q !! j = Some p → i = j.
Proof.
  intros [Hpos _] Hi Hj. destruct (Hpos i p Hi) as (n & ? & ? & _).
  destruct (Hpos j p Hj) as (n' & ? & ? & _). congruence.
Qed.

Lemma lookup_exchange q i j obj other p :
  heap q !! i = Some obj → heap q !! j = Some other →
  nodes (exchange q i j) !! p =
    if decide (p = obj) then set_pos j <$> nodes q !! obj
    else if decide (p = other) then set_pos i <$> nodes q !! other
    else nodes q !! p.
Proof.
  intros Hi Hj. unfold exchange. rewrite Hi, Hj. rewrite !lookup_set_index.
  repeat case_decide; subst; try done. by destruct (nodes q !! other).
Qed.

Lemma positions_exchange x q i j :
  i < length (heap q) → j < length (heap q) →
  positions_but x q → positions_but x (exchange q i j).
Proof.
  intros Hi Hj Hq. pose proof (positions_inj x q) as Hinj.
  destruct (lookup_lt_is_Some_2 _ _ Hi) as [obj Hobj].
  destruct (lookup_lt_is_Some_2 _ _ Hj) as [other Hother].
  pose proof Hq as [Hpos Hin]. split.
  - intros k p Hk. rewrite heap_exchange, list_swap_lookup in Hk by done.
    rewrite (lookup_exchange _ _ _ _ _ _ Hobj Hother).
    destruct (Hpos i obj Hobj) as (no & Hno & ? & ?).
    destruct (Hpos j other Hother) as (nt & Hnt & ? & ?).
    destruct (decide (k = j)) as [->|]; [|destruct (decide (k = i)) as [->|]].
    + simplify_eq. rewrite decide_True, Hno by done. simpl. eauto.
    + simplify_eq. rewrite decide_False, decide_True, Hnt by congruence. simpl. eauto.
    + destruct (Hpos k p Hk) as (np & Hnp & Hkp & ?).
      rewrite !decide_False by congruence. eauto.
  - intros p n Hp Hn. rewrite heap_exchange, (list_swap_perm i j (heap q)).
    rewrite (lookup_exchange _ _ _ _ _ _ Hobj Hother) in Hp.
    repeat case_decide; subst; auto.
    + left. by eapply list_elem_of_lookup_2.
    + left. by eapply list_elem_of_lookup_2.
    + by apply (Hin p n).
Qed.

Definition flag_of (q : pqueue) (p : ptr) : option bool :=
  in_priority_queue <$> nodes q !! p.

Lemma flag_of_exchange q i j p : flag_of (exchange q i j) p = flag_of q p.
Proof.
  unfold flag_of, exchange. destruct (heap q !! i) as [a|], (heap q !! j) as [b|]; auto.
  rewrite !lookup_set_index. repeat case_decide; subst; auto.
  - by destruct (nodes q !! b).
  - by destruct (nodes q !! a).
  - by destruct (nodes q !! b).
Qed.

(** the pointers of the queue, their priorities and flags survive both loops *)
Definition same_content (q q' : pqueue) : Prop :=
  heap q' ≡ₚ heap q ∧ (∀ p, priority_of q' p = priority_of q p) ∧
  (∀ p, flag_of q' p = flag_of q p).

Lemma same_content_exchange q0 q i j :
  same_content q0 q → same_content q0 (exchange q i j).
Proof.
  intros (Hp & Hprio & Hflag).
  split; [by rewrite heap_exchange, (list_swap_perm i j (heap q))|].
  split; intros p; by rewrite ?priority_of_exchange, ?flag_of_exchange.
Qed.

Lemma heapifyup_content typ x q i :
  i < length (heap q) → positions_but x q →
  positions_but x (heapifyup typ q i).1 ∧ same_content q (heapifyup typ q i).1.
Proof.
  intros Hi Hq.
  apply (heapifyup_inv typ (fun q' => positions_but x q' ∧ same_content q q')); auto.
  - intros q' a b Ha Hb [? ?].
    split; [by apply positions_exchange|by apply same_content_exchange].
  - split; [done|]. by split_and!.
Qed.

Lemma heapifydown_content typ x q i :
  positions_but x q →
  positions_but x (heapifydown typ q i) ∧ same_content q (heapifydown typ q i).
Proof.
  intros Hq.
  apply (heapifydown_inv typ (fun q' => positions_but x q' ∧ same_content q q')); auto.
  - intros q' a b Ha Hb [? ?].
    split; [by apply positions_exchange|by apply same_content_exchange].
  - split; [done|]. by split_and!.
Qed.

(** *** insert *)

Lemma priority_of_update_pos p f q p' :
  (∀ n, priority (f n) = priority n) →
  priority_of (update_node p f q) p' = priority_of q p'.
Proof.
  intros Hf. unfold priority_of. rewrite lookup_update_node.
  case_decide; subst; [|done]. destruct (nodes q !! p); simpl; auto.
Qed.

(** the queue at the moment [do_insert] calls [heapifyup] *)
Lemma do_insert_shape typ q node prio q' :
  do_insert typ node prio q = Ok q' →
  ∃ n q1, nodes q !! node = Some n ∧ in_priority_queue n = false ∧
    heap q1 = heap q ++ [node] ∧
    (∀ p, nodes q1 !! p = if decide (p = node)
                          then Some (mk_node prio (length (heap q)) true)
                          else nodes q !! p) ∧
    q' = (heapifyup typ q1 (length (heap q))).1.
Proof.
  unfold do_insert, in_queue. intros H. res_inv. bool_to_prop.
  match goal with H : nodes q !! node = Some ?n |- _ => exists n; rename H into Hn end.
  assert (Hsz : ∀ m, size (mk_pqueue (heap q ++ [node]) m) - 1 = length (heap q)).
  { intros m. unfold size. simpl. rewrite length_app. simpl. lia. }
  eexists. split_and!; [done|done| | |]; cycle 2.
  - unfold size at 2. simpl. rewrite length_app. simpl.
    rewrite Nat.add_sub. reflexivity.
  - done.
  - intros p. rewrite lookup_update_node. simpl. case_decide; subst.
    + rewrite !lookup_alter_eq, Hn. simpl. unfold set_pos, set_in_queue. simpl.
      by rewrite Hsz.
    + by rewrite !lookup_alter_ne by congruence.
Qed.

Lemma positions_in_queue x q p n :
  positions_but x q → p ∈ heap q → nodes q !! p = Some n → in_priority_queue n = true.
Proof.
  intros [Hpos _] (i & Hi)%list_elem_of_lookup Hn.
  destruct (Hpos i p Hi) as (n' & ? & ? & ?). congruence.
Qed.

(** equal slots and equal priorities of the slots' nodes compare equally *)
Lemma get_priority_ext q q' i j :
  heap q !! i = heap q' !! j →
  (∀ p, heap q !! i = Some p → priority_of q p = priority_of q' p) →
  get_priority q i = get_priority q' j.
Proof.
  intros Hh Hp. unfold get_priority. rewrite <-Hh.
  destruct (heap q !! i) as [p|]; auto.
Qed.

Lemma do_insert_ok typ q node prio q' :
  wf typ q → priority_ok typ prio = true → do_insert typ node prio q = Ok q' →
  wf typ q' ∧ heap q' ≡ₚ node :: heap q ∧ priority_of q' node = prio ∧
  (∀ p, p ≠ node → priority_of q' p = priority_of q p) ∧ node ∉ heap q.
Proof.
  intros (Hok & Ho & Hq) Hprio H.
  apply do_insert_shape in H as (n & q1 & Hn & Hni & Hh & Hnodes & ->).
  assert (Hnin : node ∉ heap q).
  { intros Hin. pose proof (positions_in_queue _ _ _ _ Hq Hin Hn). congruence. }
  assert (Hpr : ∀ p, priority_of q1 p = if decide (p = node) then prio else priority_of q p).
  { intros p. unfold priority_of. rewrite Hnodes. by case_decide. }
  assert (Hlt : ∀ i, i < length (heap q) → get_priority q1 i = get_priority q i).
  { intros i Hi. apply get_priority_ext; [by rewrite Hh, lookup_app_l|].
    intros p Hp. rewrite Hh, lookup_app_l in Hp by done. rewrite Hpr, decide_False; [done|].
    intros ->. apply Hnin. by eapply list_elem_of_lookup_2. }
  assert (Hq1 : positions q1).
  { destruct Hq as [Hpos Hin]. split.
    - intros i p Hi. rewrite Hh in Hi. rewrite Hnodes.
      apply lookup_snoc_Some in Hi as [[Hi Hp]|[-> <-]].
      + rewrite decide_False; [by apply Hpos|]. intros ->.
        apply Hnin. by eapply list_elem_of_lookup_2.
      + rewrite decide_True by done. eauto.
    - intros p m. rewrite Hnodes, Hh, elem_of_app. case_decide; subst; intros Hm Hiq.
      + left. right. by apply list_elem_of_singleton.
      + destruct (Hin p m Hm Hiq); [auto|done]. }
  assert (Hok1 : priorities_ok typ q1).
  { intros k Hk. simpl in *. rewrite Hh, length_app in Hk. simpl in Hk.
    destruct (decide (k < length (heap q))); [rewrite Hlt by done; by apply Hok|].
    unfold get_priority. rewrite Hh, list_lookup_middle by lia.
    by rewrite Hpr, decide_True. }
  assert (Hlen : length (heap q) < length (heap q1)) by (rewrite Hh, length_app; simpl; lia).
  destruct (heapifyup_content typ None q1 (length (heap q)) Hlen Hq1) as [Hpos' (Hperm & Hprios & _)].
  split_and!; auto.
  - split_and!; auto; [by apply (heapifyup_priorities_ok typ q1)|].
    apply (heapifyup_order typ q1); [done|]. split_and!; [done|..]; simpl;
      rewrite Hh, length_app; simpl.
    + intros k Hk Hne. pose proof (half_spec k ltac:(lia)). unfold compare_at; simpl.
      rewrite !Hlt by lia. apply Ho. simpl. lia.
    + intros c Hc Hp. pose proof (half_spec c ltac:(lia)). lia.
  - rewrite Hperm, Hh. symmetry. apply Permutation_cons_append.
  - by rewrite Hprios, Hpr, decide_True.
  - intros p Hp. by rewrite Hprios, Hpr, decide_False.
Qed.

(** *** pop and remove: the last slot moves to the slot of the removed node *)
Section Detach.
Context (typ : heap_type) (q q2 : pqueue) (h : list ptr) (obj tmp : ptr)
        (index : nat) (b : bool).
Context (Hwf : wf typ q) (Hheap : heap q = h ++ [tmp])
        (Hobj : heap q !! index = Some obj) (Hindex : index < length h)
        (Hheap2 : heap q2 = <[index := tmp]> h)
        (Hnodes2 : ∀ p, nodes q2 !! p =
           if decide (p = tmp) then set_pos index <$> nodes q !! tmp
           else if decide (p = obj) then set_in_queue b <$> nodes q !! obj
           else nodes q !! p).

Lemma detach_priority_of p : priority_of q2 p = priority_of q p.
Proof.
  unfold priority_of. rewrite Hnodes2. repeat case_decide; subst; auto.
  - by destruct (nodes q !! tmp).
  - by destruct (nodes q !! obj).
Qed.

Lemma detach_get_priority i :
  i < length h →
  get_priority q2 i = if decide (i = index) then priority_of q tmp else get_priority q i.
Proof.
  intros Hi. unfold get_priority. rewrite Hheap2. case_decide; subst.
  - rewrite list_lookup_insert_eq by done. apply detach_priority_of.
  - rewrite list_lookup_insert_ne, Hheap, lookup_app_l by done.
    destruct (h !! i); [apply detach_priority_of|done].
Qed.

Lemma detach_perm : obj :: heap q2 ≡ₚ heap q.
Proof. rewrite Hheap2, Hheap. apply list_replace_last_perm; [by rewrite <-Hheap|done]. Qed.

Lemma last_slot : heap q !! length h = Some tmp.
Proof. by rewrite Hheap, list_lookup_middle. Qed.

Lemma detach_positions : positions_but (if b then Some obj else None) q2.
Proof.
  destruct Hwf as (_ & _ & Hq). pose proof Hq as [Hpos Hin].
  pose proof (positions_inj None q) as Hinj. pose proof last_slot as Hlast.
  pose proof detach_perm as Hperm. split.
  - intros i p Hi. rewrite Hheap2 in Hi. rewrite Hnodes2.
    pose proof (lookup_lt_Some _ _ _ Hi) as Hlt. rewrite length_insert in Hlt.
    destruct (decide (i = index)) as [->|].
    + rewrite list_lookup_insert_eq in Hi by done. simplify_eq.
      destruct (Hpos _ _ Hlast) as (n & Hn & ? & ?).
      rewrite decide_True, Hn by done. simpl. eauto.
    + rewrite list_lookup_insert_ne in Hi by done.
      assert (Hqi : heap q !! i = Some p) by (by rewrite Hheap, lookup_app_l).
      rewrite decide_False, decide_False; [by apply Hpos|..]; intros ->.
      * specialize (Hinj _ _ _ Hq Hobj Hqi). congruence.
      * specialize (Hinj _ _ _ Hq Hlast Hqi). lia.
  - intros p n Hn Hiq. rewrite Hnodes2 in Hn.
    assert (Hcase : ∀ m, nodes q !! p = Some m → in_priority_queue m = true →
              p ∈ heap q2 ∨ p = obj).
    { intros m Hm Hmq. destruct (Hin p m Hm Hmq) as [Hpq|]; [|done].
      rewrite <-Hperm in Hpq. apply elem_of_cons in Hpq. tauto. }
    destruct (decide (p = tmp)) as [->|].
    + left. rewrite Hheap2. apply list_elem_of_lookup. exists index.
      by rewrite list_lookup_insert_eq.
    + destruct (decide (p = obj)) as [->|]; [|destruct (Hcase n Hn Hiq); [auto|done]].
      destruct (nodes q !! obj); simplify_eq/=. by right.
Qed.

Lemma detach_priorities_ok : priorities_ok typ q2.
Proof.
  destruct Hwf as (Hok & _ & _). intros k Hk. simpl in *.
  rewrite Hheap2, length_insert in Hk. rewrite detach_get_priority by done.
  case_decide.
  - specialize (Hok (length h)). simpl in Hok. unfold get_priority in Hok.
    rewrite last_slot in Hok. apply Hok. rewrite Hheap, length_app. simpl. lia.
  - apply Hok. simpl. rewrite Hheap, length_app. simpl. lia.
Qed.

Lemma detach_compare i j :
  i < length h → j < length h → i ≠ index → j ≠ index →
  compare_at typ q2 i j = compare_at typ q i j.
Proof.
  intros. unfold compare_at; simpl. rewrite !detach_get_priority, !decide_False by done. done.
Qed.

Lemma detach_order i j :
  0 < j < length h → half j = i → compare_at typ q i j = true.
Proof.
  intros Hj <-. destruct Hwf as (_ & Ho & _). apply Ho. simpl.
  rewrite Hheap, length_app. simpl. lia.
Qed.

(** the parent of the hole is below the children of the hole *)
Lemma detach_grand c :
  0 < c < length h → half c = index → 0 < index →
  compare_at typ q2 (half index) c = true.
Proof.
  intros Hc Hp Hi. pose proof (half_spec c ltac:(lia)). pose proof (half_spec index Hi).
  rewrite detach_compare by lia. destruct Hwf as (Hok & _ & _).
  apply compare_trans with index; try done; simpl;
    rewrite ?Hheap, ?length_app; simpl; try lia; by apply detach_order; [lia|].
Qed.

Lemma detach_down_inv :
  (0 < index → compare_at typ q2 (half index) index = true) → down_inv typ q2 index.
Proof.
  intros Hpar. split; simpl; rewrite Hheap2, length_insert.
  - intros k Hk Hne. pose proof (half_spec k ltac:(lia)).
    destruct (decide (k = index)) as [->|]; [apply Hpar; lia|].
    rewrite detach_compare by lia. by apply detach_order.
  - apply detach_grand.
Qed.

Lemma detach_up_inv :
  0 < index → compare_at typ q2 index (half index) = true → up_inv typ q2 index.
Proof.
  intros Hi Hpar. pose proof (half_spec index Hi).
  split_and!; simpl; rewrite Hheap2, length_insert; [done| |].
  - intros k Hk Hne. pose proof (half_spec k ltac:(lia)).
    destruct (decide (half k = index)) as [Hp|].
    + rewrite Hp. apply (compare_trans typ q2 _ (half index)); [apply detach_priorities_ok|..];
        simpl; rewrite ?Hheap2, ?length_insert; try lia; [done|]. by apply detach_grand.
    + rewrite detach_compare by lia. by apply detach_order.
  - intros c Hc Hp _. by apply detach_grand.
Qed.

(** [q3] restores heap order from [q2] *)
Lemma detach_wf q3 :
  q3 = heapifydown typ q2 index ∧
    (0 < index → compare_at typ q2 (half index) index = true) ∨
  q3 = (heapifyup typ q2 index).1 ∧ 0 < index ∧
    compare_at typ q2 index (half index) = true →
  priorities_ok typ q3 ∧ heap_order typ q3 ∧
  positions_but (if b then Some obj else None) q3 ∧
  obj :: heap q3 ≡ₚ heap q ∧ (∀ p, priority_of q3 p = priority_of q p) ∧
  (∀ p, flag_of q3 p = flag_of q2 p).
Proof.
  pose proof detach_priorities_ok as Hok. pose proof detach_positions as Hp.
  assert (Hlt : index < length (heap q2)) by (by rewrite Hheap2, length_insert).
  assert (Hsame : same_content q2 q3 →
    obj :: heap q3 ≡ₚ heap q ∧ (∀ p, priority_of q3 p = priority_of q p) ∧
    (∀ p, flag_of q3 p = flag_of q2 p)).
  { intros (Hperm & Hprio & Hflag). split; [by rewrite Hperm, detach_perm|].
    split; [|done]. intros p. by rewrite Hprio, detach_priority_of. }
  intros [[-> Hc]|(-> & Hi & Hc)].
  - destruct (heapifydown_content typ _ q2 index Hp).
    split; [by apply (heapifydown_priorities_ok typ q2)|]. split; [|by auto].
    apply (heapifydown_order typ q2); [done|by apply detach_down_inv].
  - destruct (heapifyup_content typ _ q2 index Hlt Hp).
    split; [by apply (heapifyup_priorities_ok typ q2)|]. split; [|by auto].
    apply (heapifyup_order typ q2); [done|by apply detach_up_inv].
Qed.
End Detach.

Lemma positions_NoDup x q : positions_but x q → NoDup (heap q).
Proof. intros Hq. apply NoDup_alt. intros i j p. by apply (positions_inj x). Qed.

Lemma removed_not_in q l obj :
  positions q → obj :: l ≡ₚ heap q → obj ∉ l ∧ NoDup l.
Proof.
  intros Hq Hperm. pose proof (positions_NoDup None q Hq) as Hnd.
  rewrite <-Hperm in Hnd. by apply NoDup_cons in Hnd.
Qed.

(** clearing the flag of the node that lost its slot ends a removal *)
Lemma positions_clear q obj :
  positions_but (Some obj) q → obj ∉ heap q →
  positions (update_node obj (set_in_queue false) q).
Proof.
  intros [Hpos Hin] Hnin. split.
  - intros i p Hi. simpl in Hi. rewrite lookup_update_node, decide_False; [by apply Hpos|].
    intros ->. apply Hnin. by eapply list_elem_of_lookup_2.
  - intros p n. rewrite lookup_update_node. case_decide; subst; intros Hp Hn.
    + destruct (nodes q !! obj); by simplify_eq/=.
    + destruct (Hin p n Hp Hn) as [?|[=]]; [by left|congruence].
Qed.

Lemma same_order typ q q' :
  heap q' = heap q → (∀ p, priority_of q' p = priority_of q p) →
  priorities_ok typ q → heap_order typ q → priorities_ok typ q' ∧ heap_order typ q'.
Proof.
  intros Hh Hp Hok Ho.
  assert (Hg : ∀ i, get_priority q' i = get_priority q i).
  { intros i. apply get_priority_ext; [by rewrite Hh|auto]. }
  split.
  - intros k Hk. simpl in *. rewrite Hg. apply Hok. simpl. by rewrite <-Hh.
  - intros k Hk. unfold compare_at; simpl in *. rewrite !Hg. apply Ho. simpl.
    by rewrite <-Hh.
Qed.

Lemma priority_of_set_in_queue b obj q p :
  priority_of (update_node obj (set_in_queue b) q) p = priority_of q p.
Proof. by apply priority_of_update_pos. Qed.

Definition removed (typ : heap_type) (obj : ptr) (q q' : pqueue) : Prop :=
  wf typ q' ∧ obj :: heap q' ≡ₚ heap q ∧ obj ∉ heap q' ∧
  (∀ p, priority_of q' p = priority_of q p) ∧ flag_of q' obj = Some false.

Lemma flag_of_clear obj q n :
  nodes q !! obj = Some n → flag_of (update_node obj (set_in_queue false) q) obj = Some false.
Proof. intros Hn. unfold flag_of. by rewrite lookup_update_node, decide_True, Hn by done. Qed.

(** nothing is left below the last slot: the vector just loses it *)
Lemma removed_last typ q q' obj :
  wf typ q → heap q = heap q' ++ [obj] →
  (∀ p, priority_of q' p = priority_of q p) → positions q' →
  flag_of q' obj = Some false → removed typ obj q q'.
Proof.
  intros (Hok & Ho & Hq) Hh Hp Hq' Hflag.
  assert (Hperm : obj :: heap q' ≡ₚ heap q) by (rewrite Hh; apply Permutation_cons_append).
  assert (Hg : ∀ i, i < length (heap q') → get_priority q' i = get_priority q i).
  { intros i Hi. apply get_priority_ext; [by rewrite Hh, lookup_app_l|auto]. }
  assert (Hlen : length (heap q) = length (heap q') + 1)
    by (rewrite Hh, length_app; done).
  split; [split_and!; [| |done]|split_and!; [done|by apply (removed_not_in q)|done|done]].
  - intros k Hk. simpl in *. rewrite Hg by done. apply Hok. simpl. lia.
  - intros k Hk. simpl in *. pose proof (half_spec k ltac:(lia)).
    unfold compare_at; simpl. rewrite !Hg by lia. apply Ho. simpl. lia.
Qed.

Lemma do_remove_ok typ q obj :
  wf typ q → obj ∈ heap q →
  ∃ q', do_remove typ obj q = Ok q' ∧ removed typ obj q q'.
Proof.
  intros Hwf (index & Hobj)%list_elem_of_lookup. pose proof Hwf as (Hok & Ho & Hq).
  destruct (proj1 Hq index obj Hobj) as (n & Hn & Hpos & Hflag).
  destruct (snoc_cases (heap q)) as [Hnil|(h & tmp & Hheap)].
  { by rewrite Hnil in Hobj. }
  unfold do_remove. rewrite Hn. simpl. rewrite Hheap, last_snoc, removelast_last. simpl.
  set (q1 := update_node obj (set_in_queue false) (mk_pqueue h (nodes q))).
  assert (Hsz : size q1 = length h) by done. rewrite Hsz, Hpos.
  pose proof (lookup_lt_Some _ _ _ Hobj) as Hlt. rewrite Hheap, length_app in Hlt.
  simpl in Hlt.
  destruct (decide (index = length h)) as [->|Hne].
  - rewrite Nat.eqb_refl, andb_false_r. eexists; split; [done|].
    rewrite Hheap, list_lookup_middle in Hobj by done. simplify_eq.
    apply removed_last;
      [done|done|exact (priority_of_set_in_queue false obj _)| |by eapply flag_of_clear].
    assert (Hnin : obj ∉ h).
    { apply (removed_not_in q h obj Hq). rewrite Hheap. apply Permutation_cons_append. }
    apply positions_clear; [|done]. destruct Hq as [Hp Hin]. split.
    + intros i p Hi. apply Hp. simpl in Hi. rewrite Hheap, lookup_app_l; [done|].
      by eapply lookup_lt_Some.
    + simpl. intros p m Hm Hmq. destruct (Hin p m Hm Hmq) as [Hi|]; [|done].
      rewrite Hheap in Hi. apply elem_of_app in Hi as [|Hi]; [by left|].
      apply list_elem_of_singleton in Hi. subst. by right.
  - assert (Hi : index < length h) by lia.
    assert (He : empty q1 = false) by (unfold empty; simpl; destruct h; [simpl in Hi; lia|done]).
    rewrite He, (proj2 (Nat.eqb_neq _ _) Hne). simpl.
    set (q2 := set_index index tmp q1).
    assert (Htmp : tmp ≠ obj).
    { intros ->. apply Hne. apply (positions_inj None q _ _ obj Hq Hobj).
      by rewrite Hheap, list_lookup_middle. }
    assert (Hnodes2 : ∀ p, nodes q2 !! p =
      if decide (p = tmp) then set_pos index <$> nodes q !! tmp
      else if decide (p = obj) then set_in_queue false <$> nodes q !! obj
      else nodes q !! p).
    { intros p. unfold q2. rewrite lookup_set_index. unfold q1. rewrite !lookup_update_node.
      simpl. repeat case_decide; by simplify_eq. }
    assert (Hfin : ∀ q3,
      q3 = heapifydown typ q2 index ∧
        (0 < index → compare_at typ q2 (half index) index = true) ∨
      q3 = (heapifyup typ q2 index).1 ∧ 0 < index ∧
        compare_at typ q2 index (half index) = true → removed typ obj q q3).
    { intros q3 H3.
      destruct (detach_wf typ q q2 h obj tmp index false Hwf Hheap Hobj Hi eq_refl Hnodes2 q3 H3)
        as (Hok3 & Ho3 & Hp3 & Hperm3 & Hprio3 & Hflag3).
      split; [exact (conj Hok3 (conj Ho3 Hp3))|].
      split_and!; [done|by apply (removed_not_in q)|done|]. rewrite Hflag3. unfold flag_of.
      by rewrite Hnodes2, decide_False, decide_True, Hn by done. }
    assert (Hcmp : HEAP_COMPARE typ (priority_of q2 tmp) (get_priority q2 (half index))
                   = compare_at typ q2 index (half index)).
    { unfold compare_at; simpl. f_equal. unfold get_priority. simpl.
      by rewrite list_lookup_insert_eq. }
    unfold parent. destruct (index =? 0) eqn:E0; bool_to_prop.
    { eexists; split; [done|]. apply Hfin. left. split; [done|lia]. }
    rewrite Hcmp. pose proof (half_spec index ltac:(lia)).
    destruct (compare_at typ q2 index (half index)) eqn:Ec;
      (eexists; split; [done|]; apply Hfin).
    + right. split_and!; [done|lia|done].
    + left. split; [done|]. intros _.
      apply (compare_total typ q2); simpl; rewrite ?length_insert; try lia; [|done].
      by eapply (detach_priorities_ok typ q q2 h obj tmp index false).
Qed.

Lemma do_pop_ok typ q m :
  wf typ q → head (heap q) = Some m →
  ∃ q', do_pop typ q = Ok (Some m, q') ∧ removed typ m q q' ∧
    ∀ p, p ∈ heap q → HEAP_COMPARE typ (priority_of q m) (priority_of q p) = true.
Proof.
  intros Hwf Hm. pose proof Hwf as (Hok & Ho & Hq).
  assert (Hobj : heap q !! 0 = Some m) by (destruct (heap q); [done|naive_solver]).
  assert (Hmin : ∀ p, p ∈ heap q →
    HEAP_COMPARE typ (priority_of q m) (priority_of q p) = true).
  { intros p (i & Hi)%list_elem_of_lookup.
    pose proof (heap_order_root typ q i Hok Ho (lookup_lt_Some _ _ _ Hi)) as Hc.
    unfold compare_at in Hc; simpl in Hc. unfold get_priority in Hc. by rewrite Hobj, Hi in Hc. }
  destruct (proj1 Hq 0 m Hobj) as (n & Hn & _ & Hflag).
  destruct (snoc_cases (heap q)) as [Hnil|(h & back & Hheap)]; [by rewrite Hnil in Hobj|].
  enough (Hend : ∃ q3, heapifydown typ (mk_pqueue (removelast (heap (set_index 0 back q)))
                                          (nodes (set_index 0 back q))) 0 = q3 ∧
            flag_of q3 m = Some true ∧ positions_but (Some m) q3 ∧
            removed typ m q (update_node m (set_in_queue false) q3)).
  { destruct Hend as (q3 & H3 & Hf3 & _ & Hr). unfold do_pop.
    rewrite Hm, Hheap, last_snoc, H3. unfold in_queue, flag_of in *.
    destruct (nodes q3 !! m) as [n3|]; simplify_eq/=.
    rewrite Hf3. simpl. rewrite <-Hheap. eauto. }
  assert (Hback : flag_of (set_index 0 back q) m = Some true).
  { unfold flag_of. rewrite lookup_set_index.
    case_decide as Hd; [rewrite <-Hd|]; rewrite Hn; simpl; by rewrite Hflag. }
  eexists; split; [done|].
  destruct h as [|m' h'].
  - rewrite Hheap in Hm. injection Hm as <-.
    assert (Hrl : removelast (heap (set_index 0 back q)) = []) by (simpl; by rewrite Hheap).
    rewrite Hrl. split; [done|].
    assert (Hpos : positions_but (Some back) (mk_pqueue [] (nodes (set_index 0 back q)))).
    { split; [done|]. intros p k Hp Hk. right. f_equal. cbn [nodes] in Hp.
      rewrite lookup_set_index in Hp. case_decide; [done|].
      destruct (proj2 Hq p k Hp Hk) as [Hin|]; [|done].
      rewrite Hheap in Hin. by apply list_elem_of_singleton in Hin. }
    split; [done|]. apply removed_last; [done|done| | |].
    + intros p. etrans; [apply (priority_of_set_in_queue false)|].
      apply (priority_of_set_index 0 back q p).
    + apply positions_clear; [done|]. simpl. set_solver.
    + apply flag_of_clear with (set_pos 0 n). cbn [nodes].
      transitivity (nodes (set_index 0 back q) !! back); [done|].
      by rewrite lookup_set_index, decide_True, Hn.
  - assert (Hm' : m' = m) by (rewrite Hheap in Hm; by injection Hm). subst m'.
    assert (Hrl : removelast (heap (set_index 0 back q)) = <[0 := back]> (m :: h')).
    { simpl. rewrite Hheap. apply (removelast_last (back :: h') back). }
    rewrite Hrl.
    assert (Hlt : 0 < length (m :: h')) by (simpl; lia).
    set (q2 := mk_pqueue (<[0 := back]> (m :: h')) (nodes (set_index 0 back q))).
    assert (Hnodes2 : ∀ p, nodes q2 !! p =
      if decide (p = back) then set_pos 0 <$> nodes q !! back
      else if decide (p = m) then set_in_queue true <$> nodes q !! m else nodes q !! p).
    { intros p. unfold q2. cbn [nodes]. rewrite lookup_set_index.
      case_decide; [done|]. case_decide; [|done]. subst. rewrite Hn. simpl.
      unfold set_in_queue. rewrite <-Hflag. by destruct n. }
    destruct (detach_wf typ q q2 (m :: h') m back 0 true Hwf Hheap Hobj Hlt eq_refl Hnodes2
                (heapifydown typ q2 0)) as (Hok3 & Ho3 & Hp3 & Hperm3 & Hprio3 & Hflag3).
    { left. split; [done|lia]. }
    split; [by rewrite Hflag3|]. split; [done|].
    set (q3 := heapifydown typ q2 0) in *.
    assert (Hnin : m ∉ heap q3) by (by apply (removed_not_in q)).
    assert (Hpr : ∀ p, priority_of (update_node m (set_in_queue false) q3) p = priority_of q p).
    { intros p. by rewrite priority_of_set_in_queue. }
    destruct (same_order typ q3 (update_node m (set_in_queue false) q3)) as [? ?]; auto.
    { intros p. apply priority_of_set_in_queue. }
    split; [split_and!; [done|done|by apply positions_clear]|].
    split_and!; [done|done|done|]. 
    assert (Hf3 : flag_of q3 m = Some true) by (by rewrite Hflag3). unfold flag_of in Hf3.
    destruct (nodes q3 !! m) as [n3|] eqn:Hn3; [|done]. by eapply flag_of_clear.
Qed.

Lemma do_pop_empty typ q : heap q = [] → do_pop typ q = Ok (None, q).
Proof. intros H. unfold do_pop. by rewrite H. Qed.

Lemma assert_heap_order typ q : heap_order typ q → assert_heap typ q = true.
Proof.
  intros Ho. unfold assert_heap. apply forallb_forall. intros i Hi%in_seq.
  unfold left, right. apply andb_true_iff.
  assert (Hhalf : half (2 * i + 1) = i ∧ half (2 * i + 2) = i).
  { pose proof (half_spec (2 * i + 1)). pose proof (half_spec (2 * i + 2)). lia. }
  destruct Hhalf as [Hl Hr]. split; split_guard; auto; bool_to_prop.
  - rewrite <-Hl at 1. by apply Ho; lia.
  - rewrite <-Hr at 1. by apply Ho; lia.
Qed.

(** *** Abstract priority queue

    The queue stands for the finite map from queued nodes to priorities. *)
Definition contents (q : pqueue) : gmap ptr heap_priority :=
  list_to_map (map (fun p => (p, priority_of q p)) (heap q)).

Inductive pq_op : Type :=
  | op_insert (node : ptr) (prio : heap_priority)
  | op_pop
  | op_remove (node : ptr)
  | op_move (node : ptr) (prio : heap_priority).

(** what a priority queue does: the result is the node popped *)
Inductive pq_spec (typ : heap_type) :
    pq_op → gmap ptr heap_priority → option ptr → gmap ptr heap_priority → Prop :=
  | spec_insert m p v : m !! p = None → pq_spec typ (op_insert p v) m None (<[p := v]> m)
  | spec_pop_empty : pq_spec typ op_pop ∅ None ∅
  | spec_pop m p v :
      m !! p = Some v → (∀ p' v', m !! p' = Some v' → HEAP_COMPARE typ v v' = true) →
      pq_spec typ op_pop m (Some p) (delete p m)
  | spec_remove m p v : m !! p = Some v → pq_spec typ (op_remove p) m None (delete p m)
  | spec_move m p v v' : m !! p = Some v → pq_spec typ (op_move p v') m None (<[p := v']> m).

(** what the code does *)
Definition pq_run (typ : heap_type) (op : pq_op) (q : pqueue) : res (option ptr * pqueue) :=
  match op with
  | op_insert p v => let* q := do_insert typ p v q in Ok (None, q)
  | op_pop => do_pop typ q
  | op_remove p => let* q := do_remove typ p q in Ok (None, q)
  | op_move p v => let* q := move_node typ p v q in Ok (None, q)
  end.

(** the operation is called the way the code may call it *)
Definition pq_enabled (typ : heap_type) (op : pq_op) (q : pqueue) : bool :=
  match op with
  | op_insert p v =>
      match nodes q !! p with
      | Some n => negb (in_priority_queue n) && priority_ok typ v
      | None => false
      end
  | op_pop => true
  | op_remove p => bool_decide (p ∈ heap q)
  | op_move p v => bool_decide (p ∈ heap q) && priority_ok typ v
  end.

Lemma lookup_contents q p :
  contents q !! p = if decide (p ∈ heap q) then Some (priority_of q p) else None.
Proof.
  unfold contents. induction (heap q) as [|a l IH]; simpl; [done|].
  destruct (decide (a = p)) as [->|Hne].
  - rewrite lookup_insert_eq, decide_True by set_solver. done.
  - rewrite lookup_insert_ne, IH by done.
    destruct (decide (p ∈ l)); [rewrite decide_True by set_solver; done|].
    rewrite decide_False by set_solver. done.
Qed.

Lemma contents_removed typ q q' p :
  removed typ p q q' → contents q' = delete p (contents q).
Proof.
  intros (_ & Hperm & Hnin & Hprio & _). apply map_eq. intros a.
  destruct (decide (a = p)) as [->|].
  - by rewrite lookup_delete_eq, lookup_contents, decide_False.
  - rewrite lookup_delete_ne, !lookup_contents, Hprio by done.
    assert (a ∈ heap q ↔ a ∈ heap q') by (rewrite <-Hperm; set_solver).
    repeat case_decide; tauto.
Qed.

Lemma contents_inserted q q' p v :
  heap q' ≡ₚ p :: heap q → priority_of q' p = v →
  (∀ a, a ≠ p → priority_of q' a = priority_of q a) →
  contents q' = <[p := v]> (contents q).
Proof.
  intros Hperm Hv Hprio. apply map_eq. intros a. rewrite lookup_contents.
  assert (a ∈ heap q' ↔ a = p ∨ a ∈ heap q) by (rewrite Hperm; set_solver).
  destruct (decide (a = p)) as [->|].
  - rewrite lookup_insert_eq, decide_True by tauto. by rewrite Hv.
  - rewrite lookup_insert_ne, lookup_contents, Hprio by done.
    repeat case_decide; tauto.
Qed.

Lemma do_insert_enabled typ q p v n :
  nodes q !! p = Some n → in_priority_queue n = false →
  ∃ q', do_insert typ p v q = Ok q'.
Proof. intros Hn Hf. unfold do_insert, in_queue. rewrite Hn. simpl. rewrite Hf. simpl. eauto. Qed.

Lemma removed_free typ p q q' :
  removed typ p q q' → ∃ n, nodes q' !! p = Some n ∧ in_priority_queue n = false.
Proof.
  intros (_ & _ & _ & _ & Hf). unfold flag_of in Hf.
  destruct (nodes q' !! p) as [n|]; naive_solver.
Qed.

Lemma contents_member typ q p :
  wf typ q → p ∈ heap q → contents q !! p = Some (priority_of q p).
Proof. intros. by rewrite lookup_contents, decide_True. Qed.

(** *** The operations by their contents *)

Lemma update_node_dom p f q : dom (nodes (update_node p f q)) = dom (nodes q).
Proof. apply dom_alter_L. Qed.

Lemma exchange_dom q i j : dom (nodes (exchange q i j)) = dom (nodes q).
Proof.
  unfold exchange. destruct (heap q !! i), (heap q !! j); try done. unfold set_index.
  rewrite update_node_dom. cbn [nodes]. by rewrite update_node_dom.
Qed.

Lemma heapifyup_dom typ q i : i < length (heap q) → dom (nodes (heapifyup typ q i).1) = dom (nodes q).
Proof.
  intros Hi. apply (heapifyup_inv typ (λ q', dom (nodes q') = dom (nodes q))); [| done | done].
  intros q' a b _ _ E. by rewrite <- E; apply exchange_dom.
Qed.

Lemma heapifydown_dom typ q i : dom (nodes (heapifydown typ q i)) = dom (nodes q).
Proof.
  apply (heapifydown_inv typ (λ q', dom (nodes q') = dom (nodes q))); [| done].
  intros q' a b _ _ E. by rewrite <- E; apply exchange_dom.
Qed.

Lemma do_insert_dom typ p v q q' : do_insert typ p v q = Ok q' → dom (nodes q') = dom (nodes q).
Proof.
  unfold do_insert. intros H. res_inv. rewrite heapifyup_dom.
  - cbn. by rewrite !dom_alter_L.
  - unfold size. cbn. rewrite length_app. cbn. lia.
Qed.

Lemma do_remove_dom typ p q q' :
  wf typ q → p ∈ heap q → do_remove typ p q = Ok q' → dom (nodes q') = dom (nodes q).
Proof.
  intros (_ & _ & Hq) (i & Hi)%list_elem_of_lookup. destruct (proj1 Hq i p Hi) as (n & Hn & Hpos & _).
  unfold do_remove. rewrite Hn. cbn [of_option res_bind]. rewrite Hpos.
  destruct (snoc_cases (heap q)) as [E | (h & m & E)]; [by rewrite E in Hi |].
  pose proof (lookup_lt_Some _ _ _ Hi) as Hlt. rewrite E, length_app in Hlt. cbn in Hlt.
  rewrite E, last_snoc, removelast_last. cbn [of_option res_bind].
  set (q1 := update_node p _ _). set (q2 := set_index i m q1).
  assert (Hd2 : dom (nodes q2) = dom (nodes q)).
  { unfold q2, set_index. rewrite update_node_dom. unfold q1. cbn. apply update_node_dom. }
  destruct (negb (empty q1) && negb (i =? size q1)) eqn:Eb.
  - assert (i < length (heap q2)).
    { unfold q2, q1. cbn. rewrite length_insert. apply andb_prop in Eb as [_ Eb].
      apply negb_true_iff, Nat.eqb_neq in Eb. unfold size, q1 in Eb. cbn in Eb. lia. }
    destruct (parent i); [destruct (HEAP_COMPARE _ _ _) |]; intros [= <-]; rewrite <- Hd2;
      (by apply heapifyup_dom) || apply heapifydown_dom.
  - intros [= <-]. unfold q1. by rewrite update_node_dom.
Qed.

Lemma do_pop_dom typ q o q' : do_pop typ q = Ok (o, q') → dom (nodes q') = dom (nodes q).
Proof.
  unfold do_pop. destruct (head (heap q)), (last (heap q)); intros H; res_inv; try done.
  rewrite update_node_dom, heapifydown_dom. cbn. apply dom_alter_L.
Qed.

Section Contents.
Context (typ : heap_type) (q : pqueue) (Hwf : wf typ q).

Lemma contents_heap p : is_Some (contents q !! p) ↔ p ∈ heap q.
Proof using. rewrite lookup_contents. by case_decide; split. Qed.

Lemma in_queue_contents p :
  p ∈ dom (nodes q) → in_queue q p = Ok (bool_decide (is_Some (contents q !! p))).
Proof using Hwf.
  intros [n Hn]%elem_of_dom. unfold in_queue. rewrite Hn. cbn. f_equal.
  destruct Hwf as (_ & _ & Hpos). symmetry. destruct (in_priority_queue n) eqn:E.
  - apply bool_decide_eq_true, contents_heap. by destruct (proj2 Hpos p n Hn E).
  - apply bool_decide_eq_false. intros Hin%contents_heap.
    pose proof (positions_in_queue _ _ _ _ Hpos Hin Hn). congruence.
Qed.

Lemma empty_contents : empty q = bool_decide (contents q = ∅).
Proof using.
  unfold empty. destruct (heap q) as [| p l] eqn:E; symmetry.
  - apply bool_decide_eq_true. unfold contents. by rewrite E.
  - apply bool_decide_eq_false. intros H.
    assert (is_Some (contents q !! p)) as [? Hp] by (apply contents_heap; rewrite E; left).
    by rewrite H, lookup_empty in Hp.
Qed.

Lemma insert_contents p v :
  p ∈ dom (nodes q) → contents q !! p = None → priority_ok typ v = true →
  ∃ q', do_insert typ p v q = Ok q' ∧ wf typ q' ∧ contents q' = <[p := v]> (contents q) ∧
        dom (nodes q') = dom (nodes q).
Proof using Hwf.
  intros Hd Hc Hv. pose proof (in_queue_contents p Hd) as Hi. unfold in_queue in Hi.
  apply elem_of_dom in Hd as [n Hn]. rewrite Hn, Hc in Hi. cbn in Hi. injection Hi as Hi.
  destruct (do_insert_enabled typ q p v n Hn Hi) as [q' E].
  destruct (do_insert_ok typ q p v q' Hwf Hv E) as (Hw & Hp & Hpr & Ho & _).
  exists q'. split_and!; [done | done | by apply contents_inserted | by eapply do_insert_dom].
Qed.

Lemma remove_contents p :
  is_Some (contents q !! p) →
  ∃ q', do_remove typ p q = Ok q' ∧ wf typ q' ∧ contents q' = delete p (contents q) ∧
        dom (nodes q') = dom (nodes q).
Proof using Hwf.
  intros Hp%contents_heap. destruct (do_remove_ok typ q p Hwf Hp) as (q' & E & Hr).
  exists q'. split_and!; [done | apply Hr | by eapply contents_removed | by eapply do_remove_dom].
Qed.

Lemma pop_contents :
  contents q ≠ ∅ →
  ∃ p v q', do_pop typ q = Ok (Some p, q') ∧ wf typ q' ∧ contents q' = delete p (contents q) ∧
    dom (nodes q') = dom (nodes q) ∧ contents q !! p = Some v ∧ min_value q = Ok v ∧
    ∀ p' v', contents q !! p' = Some v' → HEAP_COMPARE typ v v' = true.
Proof using Hwf.
  intros Hne. destruct (heap q) as [| m l] eqn:Hh; [by destruct Hne; unfold contents; rewrite Hh |].
  destruct (do_pop_ok typ q m Hwf) as (q' & E & Hr & Hmin); [by rewrite Hh |].
  exists m, (priority_of q m), q'. split_and!; [done | apply Hr | by eapply contents_removed | by eapply do_pop_dom | | |].
  - apply (contents_member typ); [done |]. rewrite Hh. left.
  - unfold min_value. by rewrite Hh.
  - intros p' v'. rewrite lookup_contents. case_decide; [| done]. intros [= <-]. by apply Hmin.
Qed.

End Contents.

(** a new node is not in the queue *)
Lemma new_node_contents typ q a n :
  wf typ q → nodes q !! a = None → in_priority_queue n = false →
  let q' := mk_pqueue (heap q) (<[a := n]> (nodes q)) in
  wf typ q' ∧ contents q' = contents q.
Proof.
  intros (Hok & Ho & Hpos & Hin) Ha Hn q'.
  assert (Hne : ∀ i p, heap q !! i = Some p → p ≠ a).
  { intros i p Hi ->. destruct (Hpos i a Hi) as (m & Hm & _). congruence. }
  assert (Hp : ∀ p, p ∈ heap q → priority_of q' p = priority_of q p).
  { intros p (i & Hi)%list_elem_of_lookup. unfold priority_of, q'. cbn.
    by rewrite lookup_insert_ne by (intros ->; by apply (Hne i p)). }
  assert (Hg : ∀ i, get_priority q' i = get_priority q i).
  { intros i. unfold get_priority. cbn. destruct (heap q !! i) as [p |] eqn:Hi; [| done].
    apply Hp. by eapply list_elem_of_lookup_2. }
  split; [split_and!|].
  - intros k Hk. cbn in *. rewrite Hg. by apply Hok.
  - intros k Hk. unfold compare_at. cbn in *. rewrite !Hg. by apply Ho.
  - split.
    + intros i p Hi. cbn in *. rewrite lookup_insert_ne by (intros ->; by apply (Hne i p)). by apply Hpos.
    + intros p m. cbn. destruct (decide (p = a)) as [-> | Hpa].
      * rewrite lookup_insert_eq. intros [= <-]. congruence.
      * rewrite lookup_insert_ne by done. apply Hin.
  - apply map_eq. intros p. rewrite !lookup_contents. cbn. case_decide; [| done]. by rewrite Hp.
Qed.

Lemma move_contents typ q p v :
  wf typ q → is_Some (contents q !! p) → priority_ok typ v = true →
  ∃ q', move_node typ p v q = Ok q' ∧ wf typ q' ∧ contents q' = <[p := v]> (contents q) ∧
        dom (nodes q') = dom (nodes q).
Proof.
  intros Hwf Hp Hv. destruct (remove_contents typ q Hwf p Hp) as (q1 & E & Hw1 & Hc1 & Hd1).
  unfold move_node. rewrite E. cbn [res_bind].
  destruct (insert_contents typ q1 Hw1 p v) as (q2 & E2 & Hw2 & Hc2 & Hd2); [| | done |].
  - rewrite Hd1. apply contents_heap in Hp. destruct Hwf as (_ & _ & Hpos & _).
    apply list_elem_of_lookup in Hp as [i Hi]. destruct (Hpos i p Hi) as (n & Hn & _).
    by eapply elem_of_dom_2.
  - rewrite Hc1. apply lookup_delete_eq.
  - exists q2. split_and!; [done | done | by rewrite Hc2, Hc1, insert_delete_eq | by rewrite Hd2].
Qed.

(** C29: The intrusive heap implements a priority queue.  Started in a
    well-formed state ([wf]: heap order, every queued node knows its slot, every
    node flagged as queued has one), every call the code may make returns, leaves
    a well-formed state, and acts on the map from queued nodes to priorities as
    the abstract queue does; in particular [pop] returns a node that no queued
    node precedes, and [remove] and [move_node] find their node by its stored
    position. *)
Theorem pqueue_refines typ op q :
  wf typ q → pq_enabled typ op q = true →
  ∃ r q', pq_run typ op q = Ok (r, q') ∧ wf typ q' ∧
    pq_spec typ op (contents q) r (contents q').
Proof.
  intros Hwf Hen. destruct op as [p v| |p|p v]; simpl in *.
  - destruct (nodes q !! p) as [n|] eqn:Hn; [|done]. bool_to_prop.
    assert (Hd : p ∈ dom (nodes q)) by (by eapply elem_of_dom_2).
    assert (Hc : contents q !! p = None).
    { rewrite lookup_contents. case_decide as Hin; [|done]. destruct Hwf as (_ & _ & Hpos).
      pose proof (positions_in_queue _ _ _ _ Hpos Hin Hn). congruence. }
    destruct (insert_contents typ q Hwf p v Hd Hc) as (q' & -> & ? & E & _); [done|].
    exists None, q'. split_and!; [done|done|rewrite E; by constructor].
  - destruct (decide (contents q = ∅)) as [Hc|Hc].
    + assert (Hh : heap q = []).
      { pose proof (empty_contents q) as He. rewrite bool_decide_true in He by done.
        unfold empty in He. by destruct (heap q). }
      exists None, q. split_and!; [by apply do_pop_empty|done|]. rewrite Hc. constructor.
    + destruct (pop_contents typ q Hwf Hc) as (p & v & q' & -> & ? & E & _ & Hp & _ & Hmin).
      exists (Some p), q'. split_and!; [done|done|rewrite E; by apply spec_pop with v].
  - apply bool_decide_eq_true, contents_heap in Hen. pose proof Hen as [v Hv].
    destruct (remove_contents typ q Hwf p Hen) as (q' & -> & ? & E & _).
    exists None, q'. split_and!; [done|done|rewrite E; by apply spec_remove with v].
  - apply andb_true_iff in Hen as [Hen Hv]. apply bool_decide_eq_true, contents_heap in Hen.
    pose proof Hen as [u Hu].
    destruct (move_contents typ q p v Hwf Hen Hv) as (q' & -> & ? & E & _).
    exists None, q'. split_and!; [done|done|rewrite E; by apply spec_move with u].
Qed.

(** three nodes, two of them queued *)
Definition sample : pqueue :=
  mk_pqueue [2%positive; 1%positive]
    {[ 1%positive := mk_node 7%Z 1 true; 2%positive := mk_node 3%Z 0 true;
       3%positive := mk_node 0%Z 0 false ]}.

Lemma sample_wf : wf HEAP_INT_ASC sample.
Proof.
  split_and!; [intros k Hk; done| |split].
  - intros k Hk. simpl in Hk. assert (k = 1) as -> by lia. vm_compute. done.
  - intros [|[|i]] p Hi; simplify_eq/=; eauto.
  - intros p n Hp Hn. unfold sample in *. simpl in *.
    rewrite !lookup_insert_Some, lookup_singleton_Some in Hp.
    destruct Hp as [[<- _]|[_ [[<- _]|[_ [<- <-]]]]]; [left; set_solver..|done].
Qed.

Lemma pqueue_refines_witness :
  ∃ r q', pq_run HEAP_INT_ASC op_pop sample = Ok (r, q') ∧ wf HEAP_INT_ASC q' ∧
    pq_spec HEAP_INT_ASC op_pop (contents sample) r (contents q').
Proof. apply (pqueue_refines HEAP_INT_ASC op_pop sample); [apply sample_wf|reflexivity]. Defined.
End complex_pqueue.
