(* ===== verification/RuleMatcher.v ===== *)
(** Rules and which of them may fire: the rules of [vm/rule.hpp] as the loader
    ([vm/program.cpp]) links them to predicates, and [vm/rule_matcher.{hpp,cpp}],
    which counts the tuples of a node per predicate and keeps the set of rules
    whose predicates all have tuples. *)

From Stdlib Require Import ZArith Lia Bool.
From stdpp Require Import base tactics list numbers option gmap.
From S2P Require Import Prelude.

#[local] Open Scope Z_scope.

(** ** Rules: [vm/rule.hpp], [vm/program.cpp] *)

(** [rule]: its predicates, by id, and whether it is persistent *)
Record rule : Type := mk_rule {
  rule_predicates : list nat;
  as_persistent : bool
}.

Definition num_predicates (r : rule) : nat := length (rule_predicates r).

(** the [affected_rules] of every predicate, by id *)
#[local] Abbreviation affected := (list (list nat)).

(** [predicates[id]->affected_rules.push_back(i)] *)
Definition push_affected (aff : affected) (i id : nat) : res affected :=
  let* rs := of_option (aff !! id) in Ok (<[id := rs ++ [i]]> aff).

Fixpoint link_predicates (aff : affected) (i : nat) (ids : list nat) : res affected :=
  match ids with
  | [] => Ok aff
  | id :: ids => let* aff := push_affected aff i id in link_predicates aff i ids
  end.

(** the loop over the code of the rules, from rule [i] on *)
Fixpoint link_rules (aff : affected) (i : nat) (rules : list rule) : res affected :=
  match rules with
  | [] => Ok aff
  | r :: rules =>
      asserting (num_predicates r <? 10)%nat
        (let* aff := link_predicates aff i (rule_predicates r) in
         link_rules aff (i + 1) rules)
  end.

(** ** The matcher *)

Record rule_matcher_obj : Type := mk_rule_matcher_obj {
  total_have : Z;
  total_needed : Z;
  ignore : bool
}.

Record rule_matcher : Type := mk_rule_matcher {
  rules : list rule_matcher_obj;
  predicate_count : list Z;
  active_rules : gset nat;
  dropped_rules : gset nat
}.

Definition set_total_have (n : Z) (o : rule_matcher_obj) : rule_matcher_obj :=
  mk_rule_matcher_obj (wrap 64 n) (total_needed o) (ignore o).

Definition new_rule_matcher (num_preds : nat) (rs : list rule) : rule_matcher :=
  mk_rule_matcher
    (map (λ r, mk_rule_matcher_obj 0 (Z.of_nat (num_predicates r)) (as_persistent r)) rs)
    (replicate num_preds 0) ∅ ∅.

(** one turn of the loop of [register_predicate_availability] *)
Definition rule_available (r : nat) (m : rule_matcher) : res rule_matcher :=
  let* o := of_option (rules m !! r) in
  if ignore o then Ok m
  else
    let o := set_total_have (total_have o + 1) o in
    let rs := <[r := o]> (rules m) in
    Ok (if total_have o =? total_needed o
        then mk_rule_matcher rs (predicate_count m) ({[r]} ∪ active_rules m) (dropped_rules m ∖ {[r]})
        else mk_rule_matcher rs (predicate_count m) (active_rules m) (dropped_rules m)).

(** one turn of the loop of [register_predicate_unavailability] *)
Definition rule_unavailable (r : nat) (m : rule_matcher) : res rule_matcher :=
  let* o := of_option (rules m !! r) in
  if ignore o then Ok m
  else
    let rs := <[r := set_total_have (total_have o - 1) o]> (rules m) in
    Ok (if total_have o =? total_needed o
        then mk_rule_matcher rs (predicate_count m) (active_rules m ∖ {[r]}) ({[r]} ∪ dropped_rules m)
        else mk_rule_matcher rs (predicate_count m) (active_rules m) (dropped_rules m)).

Fixpoint for_rules (f : nat → rule_matcher → res rule_matcher) (rs : list nat) (m : rule_matcher)
  : res rule_matcher :=
  match rs with
  | [] => Ok m
  | r :: rs => let* m := f r m in for_rules f rs m
  end.

Definition register_predicate_availability (aff : affected) (id : nat) (m : rule_matcher)
  : res rule_matcher :=
  let* rs := of_option (aff !! id) in for_rules rule_available rs m.

Definition register_predicate_unavailability (aff : affected) (id : nat) (m : rule_matcher)
  : res rule_matcher :=
  let* rs := of_option (aff !! id) in for_rules rule_unavailable rs m.

Definition set_predicate_count (id : nat) (n : Z) (m : rule_matcher) : rule_matcher :=
  mk_rule_matcher (rules m) (<[id := swrap 16 n]> (predicate_count m))
    (active_rules m) (dropped_rules m).

(** [register_tuple]: a tuple of predicate [id] was added [count] times *)
Definition register_tuple (aff : affected) (id : nat) (count : Z) (is_new : bool)
    (m : rule_matcher) : res (bool * rule_matcher) :=
  let* n := of_option (predicate_count m !! id) in
  let ret := is_new && (n =? 0) in
  let* m := if ret then register_predicate_availability aff id m else Ok m in
  Ok (ret, set_predicate_count id (n + count) m).

Definition deregister_tuple (aff : affected) (id : nat) (count : Z) (m : rule_matcher)
  : res (bool * rule_matcher) :=
  let* n := of_option (predicate_count m !! id) in
  asserting (count <=? n)
    (let ret := n =? count in
     let* m := if ret then register_predicate_unavailability aff id m else Ok m in
     Ok (ret, set_predicate_count id (n - count) m)).

Definition clear_dropped_rules (m : rule_matcher) : rule_matcher :=
  mk_rule_matcher (rules m) (predicate_count m) (active_rules m) ∅.

(** ** What linking gives *)

Abbreviation occurrences := (count_occ Nat.eq_dec).

(** every predicate lists a rule as often as the rule lists the predicate *)
Definition linked_to (rs : list rule) (aff : affected) : Prop :=
  (∀ id l r, aff !! id = Some l → r ∈ l → (r < length rs)%nat) ∧
  (∀ id l r ru, aff !! id = Some l → rs !! r = Some ru →
     occurrences l r = occurrences (rule_predicates ru) id) ∧
  (∀ r ru id, rs !! r = Some ru → id ∈ rule_predicates ru → (id < length aff)%nat).

Lemma push_affected_ok aff i id aff' :
  push_affected aff i id = Ok aff' →
  (id < length aff)%nat ∧ length aff' = length aff ∧
  ∀ j l, aff !! j = Some l → aff' !! j = Some (if decide (j = id) then l ++ [i] else l).
Proof.
  unfold push_affected. intros H. apply res_bind_ok in H as (rs & Hr & H).
  apply of_option_ok in Hr. injection H as <-. pose proof (lookup_lt_Some _ _ _ Hr) as Hlt.
  rewrite length_insert. split; [done |]. split; [done |]. intros j l Hj.
  case_decide as Hd.
  - subst. rewrite list_lookup_insert_eq by done. congruence.
  - rewrite list_lookup_insert_ne; [done | congruence].
Qed.

Lemma link_predicates_ok ids : ∀ aff i aff',
  link_predicates aff i ids = Ok aff' →
  Forall (λ id, (id < length aff)%nat) ids ∧ length aff' = length aff ∧
  ∀ j l, aff !! j = Some l → aff' !! j = Some (l ++ replicate (occurrences ids j) i).
Proof.
  induction ids as [|id ids IH]; intros aff i aff' H; cbn [link_predicates] in H.
  - injection H as <-. split; [constructor |]. split; [reflexivity |]. intros j l Hj. cbn [count_occ replicate].
    by rewrite app_nil_r.
  - apply res_bind_ok in H as (aff1 & H1 & H).
    apply push_affected_ok in H1 as (Hlt & Hlen & Hpush).
    apply IH in H as (Hall & Hlen' & Hl). rewrite Hlen in Hall, Hlen'.
    split; [by constructor |]. split; [done |]. intros j l Hj.
    apply Hpush, Hl in Hj. rewrite Hj. cbn [count_occ].
    destruct (Nat.eq_dec id j) as [-> |Hne].
    + rewrite decide_True by done. by rewrite <- app_assoc.
    + by rewrite decide_False by congruence.
Qed.

Lemma occurrences_replicate n (r i : nat) :
  occurrences (replicate n i) r = if decide (r = i) then n else 0%nat.
Proof.
  induction n as [|n IH]; cbn [replicate count_occ]; [by case_decide |].
  destruct (Nat.eq_dec i r) as [-> |Hne]; rewrite IH.
  - by rewrite !decide_True by done.
  - by rewrite !decide_False by congruence.
Qed.

Lemma link_rules_ok rs1 : ∀ rs0 aff aff',
  linked_to rs0 aff → link_rules aff (length rs0) rs1 = Ok aff' →
  length aff' = length aff ∧ linked_to (rs0 ++ rs1) aff'.
Proof.
  induction rs1 as [|ru rs1 IH]; intros rs0 aff aff' Hl H; cbn [link_rules] in H.
  { injection H as <-. by rewrite app_nil_r. }
  apply asserting_ok in H as [_ H]. apply res_bind_ok in H as (aff1 & H1 & H).
  apply link_predicates_ok in H1 as (Hall & Hlen & Hpush).
  replace (length rs0 + 1)%nat with (length (rs0 ++ [ru])) in H by (rewrite length_app; cbn; lia).
  cut (linked_to (rs0 ++ [ru]) aff1).
  { intros Hl1. destruct (IH _ _ _ Hl1 H) as [? ?]. rewrite <- app_assoc in *. split; [lia | done]. }
  assert (Hinv : ∀ id l, aff1 !! id = Some l → ∃ l0, aff !! id = Some l0 ∧
    l = l0 ++ replicate (occurrences (rule_predicates ru) id) (length rs0)).
  { intros id l Hid. pose proof (lookup_lt_Some _ _ _ Hid) as Hlt. rewrite Hlen in Hlt.
    apply lookup_lt_is_Some in Hlt as [l0 Hl0]. exists l0. split; [done |].
    apply Hpush in Hl0. congruence. }
  destruct Hl as (Hb & Hc & Hr). split_and!.
  - intros id l r Hid Hin. destruct (Hinv _ _ Hid) as (l0 & Hl0 & ->).
    rewrite length_app. cbn [length]. apply elem_of_app in Hin as [Hin|Hin].
    + specialize (Hb _ _ _ Hl0 Hin). lia.
    + apply elem_of_replicate_inv in Hin. lia.
  - intros id l r ru' Hid Hru. destruct (Hinv _ _ Hid) as (l0 & Hl0 & ->).
    rewrite count_occ_app, occurrences_replicate.
    apply lookup_app_Some in Hru as [Hru | [Hge Hru]].
    + rewrite (Hc _ _ _ _ Hl0 Hru). apply lookup_lt_Some in Hru.
      rewrite decide_False by lia. lia.
    + apply list_lookup_singleton_Some in Hru as [Hz ->].
      rewrite decide_True by lia. rewrite (proj1 (count_occ_not_In _ _ _)); [done |].
      intros Hin%list_elem_of_In. specialize (Hb _ _ _ Hl0 Hin). lia.
  - intros r ru' id Hru Hin. rewrite Hlen. apply lookup_app_Some in Hru as [Hru | [_ Hru]].
    + eauto.
    + apply list_lookup_singleton_Some in Hru as [_ ->]. rewrite Forall_forall in Hall. auto.
Qed.

(** ** The loops over the rules of a predicate *)

Definition bump (k : Z) (o : rule_matcher_obj) : rule_matcher_obj :=
  if ignore o then o else mk_rule_matcher_obj (total_have o + k) (total_needed o) false.

(** the counted rule [r] of [m] satisfies [P] *)
Definition counted (m : rule_matcher) (r : nat) (P : rule_matcher_obj → Prop) : Prop :=
  ∃ o, rules m !! r = Some o ∧ ignore o = false ∧ P o.

Lemma bump_bump j k o : bump j (bump k o) = bump (k + j) o.
Proof. unfold bump. destruct (ignore o) eqn:E; [by rewrite E |]. cbn. f_equal. lia. Qed.

Lemma bump_0 o : bump 0 o = o.
Proof. unfold bump. destruct o as [h n [|]]; cbn; [done |]. f_equal. lia. Qed.

Lemma bump_fmap_lookup (rs : list rule_matcher_obj) (r : nat) o (k : Z) :
  rs !! r = Some o →
  ∀ r' : nat, <[r := bump k o]> rs !! r' = (bump (if decide (r' = r) then k else 0)) <$> rs !! r'.
Proof.
  intros Hr r'. case_decide as Hd.
  - subst. rewrite list_lookup_insert_eq by (by eapply lookup_lt_Some). by rewrite Hr.
  - rewrite list_lookup_insert_ne by congruence. destruct (rs !! r'); cbn; [by rewrite bump_0 | done].
Qed.

(** one turn, when the counts stay in range *)
Lemma rule_available_ok r m :
  is_Some (rules m !! r) →
  (∀ o, rules m !! r = Some o → ignore o = false → 0 <= total_have o < total_needed o ∧ total_needed o < 2 ^ 64) →
  ∃ m', rule_available r m = Ok m' ∧ predicate_count m' = predicate_count m ∧
    (∀ r', rules m' !! r' = bump (if decide (r' = r) then 1 else 0) <$> rules m !! r') ∧
    (∀ r', r' ∈ active_rules m' ↔ r' ∈ active_rules m ∨
       (r' = r ∧ counted m r (λ o, total_have o + 1 = total_needed o))) ∧
    (∀ r', r' ∈ dropped_rules m' ↔ r' ∈ dropped_rules m ∧
       ¬ (r' = r ∧ counted m r (λ o, total_have o + 1 = total_needed o))).
Proof.
  intros [o Ho] Hb. unfold rule_available. rewrite Ho. cbn [of_option res_bind].
  specialize (Hb o Ho). destruct (ignore o) eqn:Hi.
  - exists m. split; [done |]. split; [done |]. split; [| split].
    + intros r'. case_decide as Hd; [subst; rewrite Ho; unfold bump; cbn; by rewrite Hi |].
      destruct (rules m !! r'); cbn; [by rewrite bump_0 | done].
    + intros r'. split; [auto |]. intros [? | (_ & o' & Ho' & Hf & _)]; [done | congruence].
    + intros r'. split; [| tauto]. intros ?. split; [done |]. intros (_ & o' & Ho' & Hf & _). congruence.
  - specialize (Hb eq_refl).
    assert (Hset : set_total_have (total_have o + 1) o = bump 1 o).
    { unfold set_total_have, bump. rewrite Hi, wrap_id by lia. done. }
    rewrite Hset. pose proof (bump_fmap_lookup (rules m) r o 1 Ho) as Hrs.
    assert (Hhave : total_have (bump 1 o) = total_have o + 1 ∧ total_needed (bump 1 o) = total_needed o)
      by (unfold bump; rewrite Hi; done).
    destruct Hhave as [-> ->].
    assert (Hc : counted m r (λ o, total_have o + 1 = total_needed o) ↔ total_have o + 1 = total_needed o).
    { split; [intros (o' & Ho' & _ & He); congruence | intros He; by exists o]. }
    eexists. split; [done |]. destruct (Z.eqb_spec (total_have o + 1) (total_needed o)) as [He|He];
      (split; [done |]); (split; [done |]); cbn [active_rules dropped_rules];
      split; intros r'; rewrite Hc; set_solver.
Qed.

Lemma rule_unavailable_ok r m :
  is_Some (rules m !! r) →
  (∀ o, rules m !! r = Some o → ignore o = false → 0 < total_have o <= total_needed o ∧ total_needed o < 2 ^ 64) →
  ∃ m', rule_unavailable r m = Ok m' ∧ predicate_count m' = predicate_count m ∧
    (∀ r', rules m' !! r' = bump (if decide (r' = r) then -1 else 0) <$> rules m !! r') ∧
    (∀ r', r' ∈ active_rules m' ↔ r' ∈ active_rules m ∧
       ¬ (r' = r ∧ counted m r (λ o, total_have o = total_needed o))) ∧
    (∀ r', r' ∈ dropped_rules m' ↔ r' ∈ dropped_rules m ∨
       (r' = r ∧ counted m r (λ o, total_have o = total_needed o))).
Proof.
  intros [o Ho] Hb. unfold rule_unavailable. rewrite Ho. cbn [of_option res_bind].
  specialize (Hb o Ho). destruct (ignore o) eqn:Hi.
  - exists m. split; [done |]. split; [done |]. split; [| split].
    + intros r'. case_decide as Hd; [subst; rewrite Ho; unfold bump; cbn; by rewrite Hi |].
      destruct (rules m !! r'); cbn; [by rewrite bump_0 | done].
    + intros r'. split; [| tauto]. intros ?. split; [done |]. intros (_ & o' & Ho' & Hf & _). congruence.
    + intros r'. split; [auto |]. intros [? | (_ & o' & Ho' & Hf & _)]; [done | congruence].
  - specialize (Hb eq_refl).
    assert (Hset : set_total_have (total_have o - 1) o = bump (-1) o).
    { unfold set_total_have, bump. rewrite Hi, wrap_id by lia. done. }
    rewrite Hset. pose proof (bump_fmap_lookup (rules m) r o (-1) Ho) as Hrs.
    assert (Hc : counted m r (λ o, total_have o = total_needed o) ↔ total_have o = total_needed o).
    { split; [intros (o' & Ho' & _ & He); congruence | intros He; by exists o]. }
    eexists. split; [done |]. destruct (Z.eqb_spec (total_have o) (total_needed o)) as [He|He];
      (split; [done |]); (split; [done |]); cbn [active_rules dropped_rules];
      split; intros r'; rewrite Hc; set_solver.
Qed.

(** the rules of [l] that become (stop being) complete when it is registered *)
Definition completed (m : rule_matcher) (l : list nat) (r : nat) : Prop :=
  r ∈ l ∧ counted m r (λ o, total_have o + Z.of_nat (occurrences l r) = total_needed o).
Definition broken (m : rule_matcher) (l : list nat) (r : nat) : Prop :=
  r ∈ l ∧ counted m r (λ o, total_have o = total_needed o).

Lemma broken_dec m l r : broken m l r ∨ ¬ broken m l r.
Proof.
  unfold broken, counted. destruct (decide (r ∈ l)); [| tauto].
  destruct (rules m !! r) as [o|] eqn:Ho; [| right; intros (_ & o & ? & _); congruence].
  destruct (decide (ignore o = false ∧ total_have o = total_needed o)); [left; naive_solver |].
  right. intros (_ & o' & ? & ? & ?). naive_solver congruence.
Qed.

Lemma occurrences_cons (r r0 : nat) l :
  Z.of_nat (occurrences (r0 :: l) r) = (if decide (r = r0) then 1 else 0) + Z.of_nat (occurrences l r).
Proof.
  cbn [count_occ]. destruct (Nat.eq_dec r0 r) as [-> |Hne].
  - rewrite decide_True by done. lia.
  - rewrite decide_False by congruence. lia.
Qed.

Lemma occurrences_pos l (r : nat) : r ∈ l ↔ 0 < Z.of_nat (occurrences l r).
Proof. rewrite list_elem_of_In, (count_occ_In Nat.eq_dec). lia. Qed.

Lemma counted_bump m m1 r k (P : rule_matcher_obj → Prop) :
  rules m1 !! r = bump k <$> rules m !! r →
  counted m1 r P ↔ counted m r (λ o, P (mk_rule_matcher_obj (total_have o + k) (total_needed o) false)).
Proof.
  intros Hr. unfold counted. rewrite Hr. split.
  - intros (o & Ho & Hi & HP). apply fmap_Some in Ho as (o0 & Ho0 & ->).
    revert Hi HP. unfold bump. destruct (ignore o0) eqn:E; [congruence |]. eauto.
  - intros (o & Ho & Hi & HP). rewrite Ho. exists (bump k o).
    unfold bump. cbn. rewrite Hi. eauto.
Qed.

Lemma rules_available_ok l : ∀ m,
  (∀ r, r ∈ l → is_Some (rules m !! r)) →
  (∀ r o, rules m !! r = Some o → ignore o = false →
     0 <= total_have o ∧ total_have o + Z.of_nat (occurrences l r) <= total_needed o ∧
     total_needed o < 2 ^ 64) →
  ∃ m', for_rules rule_available l m = Ok m' ∧ predicate_count m' = predicate_count m ∧
    (∀ r, rules m' !! r = bump (Z.of_nat (occurrences l r)) <$> rules m !! r) ∧
    (∀ r, r ∈ active_rules m' ↔ r ∈ active_rules m ∨ completed m l r) ∧
    (∀ r, r ∈ dropped_rules m' ↔ r ∈ dropped_rules m ∧ ¬ completed m l r).
Proof.
  induction l as [|r0 l IH]; intros m Hs Hb; cbn [for_rules].
  { exists m. unfold completed. split; [done |]. split; [done |]. split; [| set_solver].
    intros r. cbn. destruct (rules m !! r); cbn; [by rewrite bump_0 | done]. }
  destruct (rule_available_ok r0 m) as (m1 & -> & Hp1 & Hr1 & Ha1 & Hd1).
  { apply Hs. set_solver. }
  { intros o Ho Hi. specialize (Hb r0 o Ho Hi). rewrite occurrences_cons, decide_True in Hb by done. lia. }
  cbn [res_bind]. destruct (IH m1) as (m' & -> & Hp & Hr & Ha & Hd).
  { intros r Hin. rewrite Hr1. apply fmap_is_Some, Hs. set_solver. }
  { intros r o Ho Hi. rewrite Hr1 in Ho. apply fmap_Some in Ho as (o0 & Ho0 & ->).
    revert Hi. unfold bump. destruct (ignore o0) eqn:E; [congruence |]. intros _. cbn.
    specialize (Hb r o0 Ho0 E). rewrite occurrences_cons in Hb. destruct (decide (r = r0)); lia. }
  exists m'. split; [done |]. split; [congruence |].
  assert (Hc : ∀ r, completed m (r0 :: l) r ↔
    (r = r0 ∧ counted m r0 (λ o, total_have o + 1 = total_needed o)) ∨ completed m1 l r).
  { intros r. unfold completed. rewrite (counted_bump _ _ _ _ _ (Hr1 r)), elem_of_cons.
    unfold counted. cbn [total_have total_needed]. rewrite occurrences_cons. split.
    - intros [Hin (o & Ho & Hi & He)]. pose proof (occurrences_pos l r) as Hpos.
      destruct (decide (r ∈ l)) as [Hl|Hl].
      + right. split; [done |]. exists o. split; [done |]. split; [done |]. lia.
      + destruct Hin as [-> | Hin]; [| done]. left. split; [done |]. exists o.
        rewrite decide_True in He by done. rewrite Hpos in Hl. split; [done |]. split; [done |]. lia.
    - intros [[-> (o & Ho & Hi & He)] | [Hl (o & Ho & Hi & He)]].
      + split; [by left |]. exists o. split; [done |]. split; [done |].
        specialize (Hb r0 o Ho Hi). rewrite occurrences_cons, decide_True in Hb by done.
        rewrite decide_True by done. lia.
      + split; [by right |]. exists o. split; [done |]. split; [done |]. lia. }
  split; [| split].
  - intros r. rewrite Hr, Hr1, <- option_fmap_compose, occurrences_cons.
    apply option_fmap_ext. intros o. cbn. apply bump_bump.
  - intros r. rewrite Ha, Ha1, Hc. tauto.
  - intros r. rewrite Hd, Hd1, Hc. tauto.
Qed.

Lemma rules_unavailable_ok l : ∀ m,
  (∀ r, r ∈ l → is_Some (rules m !! r)) →
  (∀ r o, rules m !! r = Some o → ignore o = false →
     Z.of_nat (occurrences l r) <= total_have o <= total_needed o ∧ total_needed o < 2 ^ 64) →
  ∃ m', for_rules rule_unavailable l m = Ok m' ∧ predicate_count m' = predicate_count m ∧
    (∀ r, rules m' !! r = bump (- Z.of_nat (occurrences l r)) <$> rules m !! r) ∧
    (∀ r, r ∈ active_rules m' ↔ r ∈ active_rules m ∧ ¬ broken m l r) ∧
    (∀ r, r ∈ dropped_rules m' ↔ r ∈ dropped_rules m ∨ broken m l r).
Proof.
  induction l as [|r0 l IH]; intros m Hs Hb; cbn [for_rules].
  { exists m. unfold broken. split; [done |]. split; [done |]. split; [| set_solver].
    intros r. cbn. destruct (rules m !! r); cbn; [by rewrite bump_0 | done]. }
  destruct (rule_unavailable_ok r0 m) as (m1 & -> & Hp1 & Hr1 & Ha1 & Hd1).
  { apply Hs. set_solver. }
  { intros o Ho Hi. specialize (Hb r0 o Ho Hi). rewrite occurrences_cons, decide_True in Hb by done. lia. }
  cbn [res_bind]. destruct (IH m1) as (m' & -> & Hp & Hr & Ha & Hd).
  { intros r Hin. rewrite Hr1. apply fmap_is_Some, Hs. set_solver. }
  { intros r o Ho Hi. rewrite Hr1 in Ho. apply fmap_Some in Ho as (o0 & Ho0 & ->).
    revert Hi. unfold bump. destruct (ignore o0) eqn:E; [congruence |]. intros _. cbn.
    specialize (Hb r o0 Ho0 E). rewrite occurrences_cons in Hb. destruct (decide (r = r0)); lia. }
  exists m'. split; [done |]. split; [congruence |].
  assert (Hc : ∀ r, broken m (r0 :: l) r ↔
    (r = r0 ∧ counted m r0 (λ o, total_have o = total_needed o)) ∨ broken m1 l r).
  { intros r. unfold broken. rewrite (counted_bump _ _ _ _ _ (Hr1 r)), elem_of_cons.
    unfold counted. cbn [total_have total_needed]. split.
    - intros [Hin (o & Ho & Hi & He)]. destruct (decide (r = r0)) as [-> |Hne].
      + left. split; [done |]. by exists o.
      + destruct Hin as [Hin | Hin]; [done |]. right. split; [done |]. exists o.
        split; [done |]. split; [done |]. lia.
    - intros [[-> (o & Ho & Hi & He)] | [Hl (o & Ho & Hi & He)]].
      + split; [by left |]. by exists o.
      + split; [by right |]. exists o. split; [done |]. split; [done |].
        specialize (Hb r o Ho Hi). destruct (decide (r = r0)); lia. }
  split; [| split].
  - intros r. rewrite Hr, Hr1, <- option_fmap_compose, occurrences_cons.
    apply option_fmap_ext. intros o. cbn. rewrite bump_bump. f_equal. destruct (decide (r = r0)); lia.
  - intros r. rewrite Ha, Ha1, Hc. tauto.
  - intros r. rewrite Hd, Hd1, Hc. tauto.
Qed.

(** ** The matcher's promise *)

Section Promise.
Context (rs : list rule) (aff : affected).

(** with [cs] tuples of each predicate: does [p] have one, how many predicates
    of a rule do, may the rule fire *)
Definition available (cs : list Z) (p : nat) : bool :=
  match cs !! p with Some n => negb (n =? 0) | None => false end.

Definition have (cs : list Z) (ru : rule) : nat :=
  length (List.filter (available cs) (rule_predicates ru)).

Definition derivable (cs : list Z) (ru : rule) : Prop :=
  as_persistent ru = false ∧ rule_predicates ru ≠ [] ∧
  ∀ p, p ∈ rule_predicates ru → available cs p = true.

Definition rule_obj (cs : list Z) (ru : rule) : rule_matcher_obj :=
  mk_rule_matcher_obj (if as_persistent ru then 0 else Z.of_nat (have cs ru))
    (Z.of_nat (num_predicates ru)) (as_persistent ru).

(** the active rules are those that may fire; the dropped ones may not *)
Record matcher_inv (m : rule_matcher) : Prop := {
  inv_linked : linked_to rs aff;
  inv_small : Forall (λ ru, (num_predicates ru < 10)%nat) rs;
  inv_counts : length (predicate_count m) = length aff;
  inv_objs : ∀ r, rules m !! r = rule_obj (predicate_count m) <$> rs !! r;
  inv_active : ∀ r, r ∈ active_rules m ↔ ∃ ru, rs !! r = Some ru ∧ derivable (predicate_count m) ru;
  inv_dropped : ∀ r, r ∈ dropped_rules m → r ∉ active_rules m
}.

Lemma have_le cs ru : (have cs ru <= num_predicates ru)%nat.
Proof. apply List.filter_length_le. Qed.

Lemma have_all cs ru :
  have cs ru = num_predicates ru ↔ ∀ p, p ∈ rule_predicates ru → available cs p = true.
Proof.
  unfold have, num_predicates. induction (rule_predicates ru) as [|p ps IH]; cbn [List.filter length].
  { split; [intros _ p Hp; by apply not_elem_of_nil in Hp | done]. }
  pose proof (List.filter_length_le (available cs) ps) as Hle.
  destruct (available cs p) eqn:E; cbn [length].
  - split; [intros H q [-> | Hq]%elem_of_cons; [done | apply IH; [lia | done]] |].
    intros H. f_equal. apply IH. intros q Hq. apply H. by right.
  - split; [lia |]. intros H. rewrite H in E; [done | by left].
Qed.

Lemma available_insert cs id n p :
  (id < length cs)%nat →
  available (<[id := n]> cs) p = if decide (p = id) then negb (n =? 0) else available cs p.
Proof.
  intros Hlt. unfold available. case_decide as Hd.
  - subst. by rewrite list_lookup_insert_eq.
  - by rewrite list_lookup_insert_ne by congruence.
Qed.

Lemma have_insert cs id (n : Z) ru :
  (id < length cs)%nat →
  (have (<[id := n]> cs) ru + (if available cs id then occurrences (rule_predicates ru) id else 0) =
   have cs ru + (if (n =? 0)%Z then 0 else occurrences (rule_predicates ru) id))%nat.
Proof.
  intros Hlt. unfold have. induction (rule_predicates ru) as [|p ps IH].
  { cbn. by destruct (available cs id), (n =? 0). }
  cbn [List.filter count_occ]. rewrite available_insert by done.
  destruct (Nat.eq_dec p id) as [-> |Hne].
  - rewrite decide_True by done. destruct (n =? 0), (available cs id); cbn [negb length]; lia.
  - rewrite decide_False by done. destruct (available cs p); cbn [length]; lia.
Qed.

Lemma have_same cs id (n : Z) ru :
  (id < length cs)%nat → available cs id = negb (n =? 0) → have (<[id := n]> cs) ru = have cs ru.
Proof.
  intros Hlt He. pose proof (have_insert cs id n ru Hlt) as H. rewrite He in H.
  destruct (n =? 0); cbn [negb] in H; lia.
Qed.

Lemma rule_obj_ext cs cs' ru : have cs' ru = have cs ru → rule_obj cs' ru = rule_obj cs ru.
Proof. unfold rule_obj. by intros ->. Qed.

Lemma derivable_same cs id (n : Z) ru :
  (id < length cs)%nat → available cs id = negb (n =? 0) →
  derivable (<[id := n]> cs) ru ↔ derivable cs ru.
Proof. intros Hlt He. unfold derivable. by rewrite <- !have_all, have_same. Qed.

(** a count that stays positive changes nothing else *)
Lemma matcher_inv_count m id n k :
  matcher_inv m → predicate_count m !! id = Some n → n ≠ 0 → k ≠ 0 → - 2 ^ 15 <= k < 2 ^ 15 →
  matcher_inv (set_predicate_count id k m).
Proof.
  intros [Hl Hsm Hc Ho Ha Hd] Hn Hn0 Hk Hr. pose proof (lookup_lt_Some _ _ _ Hn) as Hlt.
  assert (He : available (predicate_count m) id = negb (swrap 16 k =? 0)).
  { unfold available. rewrite Hn, swrap_id by (change (2 ^ (16 - 1)) with (2 ^ 15); lia).
    by apply Z.eqb_neq in Hn0 as ->, Hk as ->. }
  split; cbn [rules predicate_count active_rules dropped_rules set_predicate_count]; [done | done | | | | done].
  - by rewrite length_insert.
  - intros r. rewrite Ho. apply option_fmap_ext. intros ru. symmetry.
    by apply rule_obj_ext, have_same.
  - intros r. rewrite Ha. setoid_rewrite derivable_same; done.
Qed.

Lemma inv_rule_bounds m r o :
  matcher_inv m → rules m !! r = Some o → ignore o = false →
  ∃ ru, rs !! r = Some ru ∧ as_persistent ru = false ∧
    total_have o = Z.of_nat (have (predicate_count m) ru) ∧
    total_needed o = Z.of_nat (num_predicates ru) ∧ total_needed o < 2 ^ 64.
Proof.
  intros Hinv Ho Hi. rewrite (inv_objs m Hinv) in Ho. apply fmap_Some in Ho as (ru & Hru & ->).
  exists ru. cbn in *. rewrite Hi. split_and!; try done.
  pose proof (inv_small m Hinv) as Hs. rewrite Forall_lookup in Hs. specialize (Hs r ru Hru). lia.
Qed.

(** registering the first tuple of a predicate *)
Lemma become_available m id n k :
  matcher_inv m → predicate_count m !! id = Some 0 → n ≠ 0 → n = swrap 16 k →
  ∃ m', register_predicate_availability aff id m = Ok m' ∧
    matcher_inv (set_predicate_count id k m') ∧
    predicate_count m' = predicate_count m ∧
    ∀ r, r ∈ dropped_rules m' ↔ r ∈ dropped_rules m ∧ r ∉ active_rules m'.
Proof.
  intros Hinv Hz Hn Hk. pose proof (lookup_lt_Some _ _ _ Hz) as Hlt.
  pose proof (inv_linked m Hinv) as (Hb & Hocc & _).
  assert (Hl : is_Some (aff !! id)) by (apply lookup_lt_is_Some; rewrite <- (inv_counts m Hinv); done).
  destruct Hl as [l Hl]. unfold register_predicate_availability. rewrite Hl. cbn [of_option res_bind].
  assert (Hav : available (predicate_count m) id = false) by (unfold available; by rewrite Hz).
  assert (Hins : ∀ ru, have (<[id := n]> (predicate_count m)) ru =
    (have (predicate_count m) ru + occurrences (rule_predicates ru) id)%nat).
  { intros ru. pose proof (have_insert (predicate_count m) id n ru Hlt) as H. rewrite Hav in H.
    apply Z.eqb_neq in Hn. rewrite Hn in H. lia. }
  destruct (rules_available_ok l m) as (m' & -> & Hpc & Hr & Ha & Hd).
  { intros r Hin. rewrite (inv_objs m Hinv). apply fmap_is_Some, lookup_lt_is_Some. eauto. }
  { intros r o Ho Hi. destruct (inv_rule_bounds m r o Hinv Ho Hi) as (ru & Hru & _ & -> & -> & ?).
    rewrite (Hocc _ _ _ _ Hl Hru). pose proof (have_le (<[id := n]> (predicate_count m)) ru) as Hle.
    rewrite Hins in Hle. lia. }
  assert (Hact : ∀ r, (r ∈ active_rules m ∨ completed m l r) ↔
    ∃ ru, rs !! r = Some ru ∧ derivable (<[id := n]> (predicate_count m)) ru).
  { intros r. rewrite (inv_active m Hinv). unfold derivable. setoid_rewrite <- have_all.
    setoid_rewrite Hins. split.
    - intros [(ru & Hru & Hp & Hne & Hh) | [Hin (o & Ho & Hi & He)]].
      + exists ru. pose proof (have_le (<[id := n]> (predicate_count m)) ru) as Hle.
        rewrite Hins in Hle. split_and!; try done. lia.
      + destruct (inv_rule_bounds m r o Hinv Ho Hi) as (ru & Hru & Hp & Hh & Hneed & _).
        exists ru. rewrite (Hocc _ _ _ _ Hl Hru), Hh, Hneed in He. split_and!; try done; [| lia].
        intros Hnil. apply occurrences_pos in Hin. rewrite (Hocc _ _ _ _ Hl Hru), Hnil in Hin.
        cbn in Hin. lia.
    - intros (ru & Hru & Hp & Hne & Hh).
      destruct (decide (occurrences (rule_predicates ru) id = 0%nat)) as [Hz0 | Hnz].
      + left. exists ru. split_and!; try done. lia.
      + right. split; [apply occurrences_pos; rewrite (Hocc _ _ _ _ Hl Hru); lia |].
        exists (rule_obj (predicate_count m) ru). rewrite (inv_objs m Hinv), Hru. cbn.
        rewrite Hp, (Hocc _ _ _ _ Hl Hru). split_and!; try done. lia. }
  exists m'. split; [done |]. split; [split | split; [done |]]; cbn; rewrite ?Hpc, <- ?Hk.
  - apply (inv_linked m Hinv).
  - apply (inv_small m Hinv).
  - rewrite length_insert. apply (inv_counts m Hinv).
  - intros r. rewrite Hr, (inv_objs m Hinv), <- option_fmap_compose.
    destruct (rs !! r) as [ru|] eqn:Hru; cbn; [| done]. f_equal. unfold rule_obj, bump. cbn.
    rewrite Hins, (Hocc _ _ _ _ Hl Hru). destruct (as_persistent ru); [done | f_equal; lia].
  - intros r. by rewrite Ha.
  - intros r. rewrite Hd, Ha. intros [Hdr Hnc] [Har | ?]; [| done]. by apply (inv_dropped m Hinv r Hdr).
  - intros r. rewrite Hd, Ha. pose proof (inv_dropped m Hinv r). tauto.
Qed.

(** deregistering the last tuple of a predicate *)
Lemma become_unavailable m id n :
  matcher_inv m → predicate_count m !! id = Some n → n ≠ 0 →
  ∃ m', register_predicate_unavailability aff id m = Ok m' ∧
    matcher_inv (set_predicate_count id 0 m') ∧
    predicate_count m' = predicate_count m ∧
    ∀ r, r ∈ dropped_rules m' ↔
      r ∈ dropped_rules m ∨ (r ∈ active_rules m ∧ r ∉ active_rules m').
Proof.
  intros Hinv Hz Hn. pose proof (lookup_lt_Some _ _ _ Hz) as Hlt.
  pose proof (inv_linked m Hinv) as (Hb & Hocc & _).
  assert (Hl : is_Some (aff !! id)) by (apply lookup_lt_is_Some; rewrite <- (inv_counts m Hinv); done).
  destruct Hl as [l Hl]. unfold register_predicate_unavailability. rewrite Hl. cbn [of_option res_bind].
  assert (Hav : available (predicate_count m) id = true).
  { unfold available. rewrite Hz. by apply Z.eqb_neq in Hn as ->. }
  assert (Hins : ∀ ru, (have (<[id := 0%Z]> (predicate_count m)) ru + occurrences (rule_predicates ru) id =
    have (predicate_count m) ru)%nat).
  { intros ru. pose proof (have_insert (predicate_count m) id 0 ru Hlt) as H. rewrite Hav in H.
    cbn in H. lia. }
  destruct (rules_unavailable_ok l m) as (m' & -> & Hpc & Hr & Ha & Hd).
  { intros r Hin. rewrite (inv_objs m Hinv). apply fmap_is_Some, lookup_lt_is_Some. eauto. }
  { intros r o Ho Hi. destruct (inv_rule_bounds m r o Hinv Ho Hi) as (ru & Hru & _ & -> & -> & ?).
    rewrite (Hocc _ _ _ _ Hl Hru). pose proof (have_le (predicate_count m) ru).
    specialize (Hins ru). lia. }
  assert (Hbr : ∀ r, broken m l r → r ∈ active_rules m).
  { intros r [Hin (o & Ho & Hi & He)]. apply (inv_active m Hinv).
    destruct (inv_rule_bounds m r o Hinv Ho Hi) as (ru & Hru & Hp & Hh & Hneed & _).
    exists ru. unfold derivable. rewrite <- have_all. split_and!; try done; [| lia].
    intros Hnil. apply occurrences_pos in Hin. rewrite (Hocc _ _ _ _ Hl Hru), Hnil in Hin.
    cbn in Hin. lia. }
  assert (Hact : ∀ r, (r ∈ active_rules m ∧ ¬ broken m l r) ↔
    ∃ ru, rs !! r = Some ru ∧ derivable (<[id := 0%Z]> (predicate_count m)) ru).
  { intros r. rewrite (inv_active m Hinv). unfold derivable. setoid_rewrite <- have_all. split.
    - intros [(ru & Hru & Hp & Hne & Hh) Hnb]. exists ru. specialize (Hins ru). split_and!; try done.
      destruct (decide (occurrences (rule_predicates ru) id = 0%nat)) as [Hz0 | Hnz]; [lia |].
      destruct Hnb. split; [apply occurrences_pos; rewrite (Hocc _ _ _ _ Hl Hru); lia |].
      exists (rule_obj (predicate_count m) ru). rewrite (inv_objs m Hinv), Hru. cbn.
      rewrite Hp. split_and!; try done. lia.
    - intros (ru & Hru & Hp & Hne & Hh). specialize (Hins ru). pose proof (have_le (predicate_count m) ru).
      split; [exists ru; split_and!; try done; lia |]. intros [Hin _]. apply occurrences_pos in Hin.
      rewrite (Hocc _ _ _ _ Hl Hru) in Hin. lia. }
  exists m'. split; [done |]. split; [split | split; [done |]]; cbn; rewrite ?Hpc; change (swrap 16 0) with 0.
  - apply (inv_linked m Hinv).
  - apply (inv_small m Hinv).
  - rewrite length_insert. apply (inv_counts m Hinv).
  - intros r. rewrite Hr, (inv_objs m Hinv), <- option_fmap_compose.
    destruct (rs !! r) as [ru|] eqn:Hru; cbn; [| done]. f_equal. unfold rule_obj, bump. cbn.
    specialize (Hins ru). rewrite (Hocc _ _ _ _ Hl Hru). destruct (as_persistent ru); [done | f_equal; lia].
  - intros r. by rewrite Ha.
  - intros r. rewrite Hd, Ha. pose proof (inv_dropped m Hinv r). tauto.
  - intros r. rewrite Hd, Ha. specialize (Hbr r). destruct (broken_dec m l r); tauto.
Qed.

(** ** Properties *)

Lemma new_matcher_inv n :
  link_rules (replicate n []) 0 rs = Ok aff → Forall (λ ru, (num_predicates ru < 10)%nat) rs →
  matcher_inv (new_rule_matcher n rs).
Proof.
  intros Hlink Hsmall. apply (link_rules_ok rs []) in Hlink as [Hlen Hl].
  2: { split_and!; intros *; [| by rewrite lookup_nil | by rewrite lookup_nil].
       intros Hid Hin. apply lookup_replicate in Hid as [-> _]. by apply not_elem_of_nil in Hin. }
  rewrite length_replicate in Hlen.
  assert (Hav : ∀ p, available (replicate n 0) p = false).
  { intros p. unfold available. destruct (replicate n 0 !! p) as [z|] eqn:E; [| done].
    by apply lookup_replicate in E as [-> _]. }
  assert (Hh : ∀ ru, have (replicate n 0) ru = 0%nat).
  { intros ru. unfold have. induction (rule_predicates ru) as [|p ps IH]; [done |].
    cbn [List.filter]. by rewrite Hav. }
  split; cbn.
  - done.
  - done.
  - by rewrite length_replicate.
  - intros r. etransitivity; [apply list_lookup_fmap |]. apply option_fmap_ext. intros ru.
    unfold rule_obj. rewrite Hh. by destruct (as_persistent ru).
  - intros r. split; [set_solver |]. intros (ru & _ & _ & Hne & Hall).
    destruct (rule_predicates ru) as [|p ps]; [done |].
    specialize (Hall p). rewrite Hav in Hall. discriminate Hall. by left.
  - set_solver.
Qed.

(** C33: [register_tuple] keeps the matcher exact.  In a matcher whose active
    rules are those with a tuple of every predicate, adding a positive count of
    tuples of a predicate (as new, if there were none) returns whether there were
    none, adds the count, makes active exactly the rules that may fire now, and
    takes those out of the dropped rules. *)
Theorem register_tuple_refines m id n count is_new :
  matcher_inv m → predicate_count m !! id = Some n →
  0 <= n → 0 < count → n + count < 2 ^ 15 → (is_new = false → n ≠ 0) →
  ∃ m', register_tuple aff id count is_new m = Ok (n =? 0, m') ∧ matcher_inv m' ∧
    predicate_count m' = <[id := n + count]> (predicate_count m) ∧
    ∀ r, r ∈ dropped_rules m' ↔ r ∈ dropped_rules m ∧ r ∉ active_rules m'.
Proof.
  intros Hinv Hn Hn0 Hc Hb Hnew. unfold register_tuple. rewrite Hn. cbn [of_option res_bind].
  assert (Hsw : swrap 16 (n + count) = n + count)
    by (apply swrap_id; change (2 ^ (16 - 1)) with (2 ^ 15); lia).
  replace (is_new && (n =? 0)) with (n =? 0).
  2: { destruct is_new; [done |]. cbn. apply Z.eqb_neq. auto. }
  destruct (Z.eqb_spec n 0) as [-> | Hne].
  - destruct (become_available m id (0 + count) (0 + count) Hinv Hn ltac:(lia) (eq_sym Hsw))
      as (m' & -> & Hinv' & Hpc & Hd). cbn [res_bind].
    eexists. split; [done |]. split; [done |]. cbn. rewrite Hpc. by rewrite Hsw.
  - cbn [res_bind]. eexists. split; [done |].
    split; [apply (matcher_inv_count m id n (n + count)); try done; lia |].
    cbn. rewrite Hsw. split; [done |]. intros r. pose proof (inv_dropped m Hinv r). tauto.
Qed.

(** [deregister_tuple] keeps the matcher exact.  Removing a positive count of
    tuples, no more than there are, passes the assertion, returns whether none is
    left, subtracts the count, leaves active exactly the rules that may still fire,
    and adds those that no longer may to the dropped rules. *)
Theorem deregister_tuple_refines m id n count :
  matcher_inv m → predicate_count m !! id = Some n →
  0 < count <= n → n < 2 ^ 15 →
  ∃ m', deregister_tuple aff id count m = Ok (n =? count, m') ∧ matcher_inv m' ∧
    predicate_count m' = <[id := n - count]> (predicate_count m) ∧
    ∀ r, r ∈ dropped_rules m' ↔
      r ∈ dropped_rules m ∨ (r ∈ active_rules m ∧ r ∉ active_rules m').
Proof.
  intros Hinv Hn Hc Hb. unfold deregister_tuple. rewrite Hn. cbn [of_option res_bind].
  rewrite (proj2 (Z.leb_le count n)) by lia. cbn [asserting].
  assert (Hsw : swrap 16 (n - count) = n - count)
    by (apply swrap_id; change (2 ^ (16 - 1)) with (2 ^ 15); lia).
  destruct (Z.eqb_spec n count) as [-> | Hne].
  - destruct (become_unavailable m id count Hinv Hn ltac:(lia)) as (m' & -> & Hinv' & Hpc & Hd).
    cbn [res_bind]. eexists. split; [done |]. rewrite Z.sub_diag. split; [done |]. cbn. by rewrite Hpc.
  - cbn [res_bind]. eexists. split; [done |].
    split; [apply (matcher_inv_count m id n (n - count)); try done; lia |].
    cbn. rewrite Hsw. split; [done |]. intros r. tauto.
Qed.

(** [deregister_tuple] with a negative count, which is what
    [state::process_persistent_tuple] passes for the deletion of a fact, raises the
    count of the predicate and leaves the sets of active and dropped rules alone:
    rules stay active after their last fact is gone. *)
Theorem deregister_negative_raises m id n count :
  predicate_count m !! id = Some n → 0 <= n → count < 0 → n - count < 2 ^ 15 →
  ∃ m', deregister_tuple aff id count m = Ok (false, m') ∧
    predicate_count m' !! id = Some (n - count) ∧ rules m' = rules m ∧
    active_rules m' = active_rules m ∧ dropped_rules m' = dropped_rules m.
Proof.
  intros Hn Hn0 Hc Hb. unfold deregister_tuple. rewrite Hn. cbn [of_option res_bind].
  rewrite (proj2 (Z.leb_le count n)) by lia. cbn [asserting].
  rewrite (proj2 (Z.eqb_neq n count)) by lia. cbn [res_bind].
  eexists. split; [done |]. cbn. split; [| done].
  rewrite list_lookup_insert_eq by (by eapply lookup_lt_Some).
  rewrite swrap_id by (change (2 ^ (16 - 1)) with (2 ^ 15); lia). done.
Qed.

End Promise.

(** a program with a rule of two predicates and a persistent one *)
Definition sample_rules : list rule := [mk_rule [0%nat; 1%nat] false; mk_rule [1%nat] true].
Definition sample_affected : affected := [[0%nat]; [0%nat; 1%nat]].

Lemma sample_inv0 : matcher_inv sample_rules sample_affected (new_rule_matcher 2 sample_rules).
Proof. apply new_matcher_inv; [vm_compute; reflexivity | repeat constructor]. Qed.

(** the matcher with one tuple of predicate 0, and then one of each *)
Definition sample_matcher1 : rule_matcher :=
  mk_rule_matcher [mk_rule_matcher_obj 1 2 false; mk_rule_matcher_obj 0 1 true] [1; 0] ∅ ∅.
Definition sample_matcher2 : rule_matcher :=
  mk_rule_matcher [mk_rule_matcher_obj 2 2 false; mk_rule_matcher_obj 0 1 true] [1; 1] {[0%nat]} ∅.

Lemma register_tuple_refines_witness :
  ∃ m', register_tuple sample_affected 0 1 true (new_rule_matcher 2 sample_rules) = Ok (0 =? 0, m') ∧
    matcher_inv sample_rules sample_affected m' ∧
    predicate_count m' = <[0%nat := 0 + 1]> [0; 0] ∧
    ∀ r, r ∈ dropped_rules m' ↔ r ∈ (∅ : gset nat) ∧ r ∉ active_rules m'.
Proof.
  exact (register_tuple_refines sample_rules sample_affected (new_rule_matcher 2 sample_rules)
    0 0 1 true sample_inv0 eq_refl ltac:(lia) ltac:(lia) ltac:(lia) ltac:(discriminate)).
Defined.

Lemma sample_inv1 : matcher_inv sample_rules sample_affected sample_matcher1.
Proof.
  destruct (become_available sample_rules sample_affected (new_rule_matcher 2 sample_rules) 0 1 1
    sample_inv0 eq_refl ltac:(lia) eq_refl) as (m' & Hm & Hinv & _).
  vm_compute in Hm. injection Hm as <-. exact Hinv.
Qed.

Lemma sample_inv2 : matcher_inv sample_rules sample_affected sample_matcher2.
Proof.
  destruct (become_available sample_rules sample_affected sample_matcher1 1 1 1
    sample_inv1 eq_refl ltac:(lia) eq_refl) as (m' & Hm & Hinv & _).
  vm_compute in Hm. injection Hm as <-. exact Hinv.
Qed.

Lemma deregister_tuple_refines_witness :
  ∃ m', deregister_tuple sample_affected 1 1 sample_matcher2 = Ok (1 =? 1, m') ∧
    matcher_inv sample_rules sample_affected m' ∧
    predicate_count m' = <[1%nat := 1 - 1]> [1; 1] ∧
    ∀ r, r ∈ dropped_rules m' ↔
      r ∈ (∅ : gset nat) ∨ (r ∈ ({[0%nat]} : gset nat) ∧ r ∉ active_rules m').
Proof.
  exact (deregister_tuple_refines sample_rules sample_affected sample_matcher2
    1 1 1 sample_inv2 eq_refl ltac:(lia) ltac:(lia)).
Defined.

Lemma deregister_negative_raises_witness :
  ∃ m', deregister_tuple sample_affected 1 (-1) sample_matcher2 = Ok (false, m') ∧
    predicate_count m' !! 1%nat = Some (1 - -1) ∧ rules m' = rules sample_matcher2 ∧
    active_rules m' = active_rules sample_matcher2 ∧ dropped_rules m' = dropped_rules sample_matcher2.
Proof.
  exact (deregister_negative_raises sample_affected sample_matcher2
    1 1 (-1) eq_refl ltac:(lia) ltac:(lia) ltac:(lia)).
Defined.
