(* ===== verification/Node.v ===== *)
(** The nodes of the graph and the database of nodes: [db/node.{hpp,cpp}],
    [db/database.{hpp,cpp}].  A node keeps one trie of tuples and one aggregate per
    predicate and its rule matcher; the database gives out node ids. *)

From Stdlib Require Import ZArith Lia Bool SpecFloat.
From stdpp Require Import base tactics list numbers option gmap sorting strings.
From S2P Require Import Prelude Words Types RuntimeList Tuple SimpleTuple Trie TupleTrie Match.
From S2P Require Import TrieLookup Aggregate RuleMatcher.

#[local] Open Scope Z_scope.

Record node : Type := mk_db_node {
  get_id : Z;
  translation : Z;
  tuples : gmap Z tuple_trie;
  aggs : gmap Z tuple_aggregate;
  matcher : rule_matcher
}.

(** the constructor; [num_preds] and [rs] are the program's *)
Definition new_node (num_preds : nat) (rs : list rule) (id trans : Z) : node :=
  mk_db_node id trans ∅ ∅ (new_rule_matcher num_preds rs).

Definition set_tuples (i : Z) (t : tuple_trie) (nd : node) : node :=
  mk_db_node (get_id nd) (translation nd) (<[i := t]> (tuples nd)) (aggs nd) (matcher nd).
Definition set_agg (i : Z) (a : tuple_aggregate) (nd : node) : node :=
  mk_db_node (get_id nd) (translation nd) (tuples nd) (<[i := a]> (aggs nd)) (matcher nd).
Definition set_matcher (rm : rule_matcher) (nd : node) : node :=
  mk_db_node (get_id nd) (translation nd) (tuples nd) (aggs nd) rm.

(** [get_storage] makes the trie of a predicate on its first use *)
Definition get_storage (p : predicate) (nd : node) : node * tuple_trie :=
  match tuples nd !! pred_id p with
  | None => (set_tuples (pred_id p) new_trie nd, new_trie)
  | Some tr => (nd, tr)
  end.

(** the keys of a std::map, in its order *)
Definition ordered_keys {A} (M : gmap Z A) : list Z := merge_sort Z.le (map fst (map_to_list M)).

Section Operations.
Context (hash_int hash_uint hash_float : Z → Z).

Definition add_tuple (m : memory) (tpl : tuple) (many : Z) (nd : node) : res (node * bool) :=
  let '(nd, tr) := get_storage (pred tpl) nd in
  let* r := insert_tuple hash_int hash_uint hash_float m tpl many tr in
  Ok (set_tuples (pred_id (pred tpl)) r.1 nd, r.2).

Definition delete_tuple (m : memory) (tpl : tuple) (many : Z) (nd : node)
  : res (node * delete_info) :=
  let '(nd, tr) := get_storage (pred tpl) nd in
  let* r := TupleTrie.delete_tuple hash_int hash_uint hash_float m tpl many tr in
  Ok (set_tuples (pred_id (pred tpl)) r.1 nd, r.2).

(** [delete_info::operator()] on the trie [delete_tuple] worked on *)
Definition commit_delete_info (m : memory) (p : predicate) (d : delete_info) (nd : node)
  : res (memory * node) :=
  let* tr := of_option (tuples nd !! pred_id p) in
  let* r := commit m d tr in
  Ok (r.1, set_tuples (pred_id p) r.2 nd).

Definition add_agg_tuple (m : memory) (tpl : tuple) (many : Z) (nd : node)
  : res (memory * node) :=
  let agg := default (new_tuple_aggregate (pred tpl)) (aggs nd !! pred_id (pred tpl)) in
  let* r := aggregate_add hash_int hash_uint hash_float m tpl many agg in
  Ok (r.1, set_agg (pred_id (pred tpl)) r.2 nd).

(** [-many] is converted back to a short *)
Definition remove_agg_tuple (m : memory) (tpl : tuple) (many : Z) (nd : node)
  : res (memory * node) :=
  add_agg_tuple m tpl (swrap 16 (- many)) nd.

Fixpoint generate_aggs (m : memory) (ids : list Z) (nd : node) (ret : list simple_tuple)
  : res (memory * node * list simple_tuple) :=
  match ids with
  | [] => Ok (m, nd, ret)
  | i :: ids =>
      let* agg := of_option (aggs nd !! i) in
      let* r := aggregate_generate m agg in
      let '(m, agg, ls) := r in
      generate_aggs m ids (set_agg i agg nd) (ret ++ ls)
  end.

Definition end_iteration (m : memory) (nd : node) : res (memory * node * list simple_tuple) :=
  generate_aggs m (ordered_keys (aggs nd)) nd [].

(** the two [match_predicate] append to [vec]; which words are behind the bucket tables
    makes no difference ([TrieLookup.match_predicate_word]) *)
Definition match_predicate (i : Z) (mt : match_) (nd : node) (vec : list leaf_id)
  : res (list leaf_id) :=
  match tuples nd !! i with
  | None => Ok vec
  | Some tr =>
      let* ls := TrieLookup.match_predicate hash_int hash_uint hash_float cleared_memory mt tr in Ok (vec ++ ls)
  end.

Definition match_all (i : Z) (nd : node) (vec : list leaf_id) : list leaf_id :=
  match tuples nd !! i with
  | None => vec
  | Some tr => vec ++ leaf_list tr
  end.

(** never called by the interpreter: [assert(false)] *)
Definition delete_all (p : predicate) (nd : node) : res node := Err assert_fail.

Definition delete_by_leaf (m : memory) (p : predicate) (l : leaf_id) (nd : node)
  : res (memory * node) :=
  let '(nd, tr) := get_storage p nd in
  let* r := TupleTrie.delete_by_leaf m l tr in
  Ok (r.1, set_tuples (pred_id p) r.2 nd).

Definition delete_by_index (m : memory) (p : predicate) (mt : match_) (nd : node)
  : res (memory * node) :=
  let '(nd, tr) := get_storage p nd in
  let* r := TrieLookup.delete_by_index hash_int hash_uint hash_float m mt tr in
  let '(m, tr) := r in
  let nd := set_tuples (pred_id p) tr nd in
  match aggs nd !! pred_id p with
  | None => Ok (m, nd)
  | Some agg =>
      let* r := aggregate_delete_by_index hash_int hash_uint hash_float m mt agg in
      Ok (r.1, set_agg (pred_id p) r.2 nd)
  end.

Definition count_total (i : Z) (nd : node) : Z :=
  match tuples nd !! i with
  | None => 0
  | Some tr => TupleTrie.size tr
  end.

Definition assert_end (nd : node) : res unit :=
  asserting (forallb (λ i, match aggs nd !! i with Some a => no_changes a | None => true end)
               (ordered_keys (aggs nd))) (Ok ()).

End Operations.

(** ** The database *)

Record database : Type := mk_database {
  nodes : gmap Z node;
  translations : gmap Z Z;
  original_max_node_id : Z;
  max_node_id : Z;
  max_translated_id : Z;
  nodes_total : Z
}.

Definition max_id (db : database) : Z := max_node_id db.
Definition static_max_id (db : database) : Z := original_max_node_id db.
Definition num_nodes (db : database) : nat := base.size (nodes db).

(** [abort] when there is no such node *)
Definition find_node (i : Z) (db : database) : res node :=
  match nodes db !! i with
  | None => Err assert_fail
  | Some nd => Ok nd
  end.

Section Database.
(** the [create_node_fn] of the scheduler *)
Context (create_fn : Z → Z → node).

(** the node with the two ids becomes the greatest *)
Definition put_node (i t : Z) (db : database) : database * node :=
  let ret := create_fn i t in
  (mk_database (<[i := ret]> (nodes db)) (<[i := t]> (translations db))
     (original_max_node_id db) i t (nodes_total db), ret).

Definition create_node_id (i : Z) (db : database) : res (database * node) :=
  asserting (negb (0 <? max_node_id db) || ((max_node_id db <? i) && (max_translated_id db <? i)))
    (Ok (put_node i i db)).

Definition create_node (db : database) : database * node :=
  if decide (nodes db = ∅) then put_node 0 0 db
  else put_node (wrap 32 (max_node_id db + 1)) (wrap 32 (max_translated_id db + 1)) db.

(** the loop of the constructor over the pairs of ids of the file *)
Fixpoint read_nodes (n : nat) (file : list byte) (pos : nat) (db : database)
  : res (database * nat) :=
  match n with
  | O => Ok (db, pos)
  | S n =>
      let* bs := memcpy_from file pos 4 in
      let* bs' := memcpy_from file (pos + 4) 4 in
      let fake_id := le_value bs in
      let real_id := le_value bs' in
      read_nodes n file (pos + 8)
        (mk_database (<[fake_id := create_fn fake_id real_id]> (nodes db))
           (<[fake_id := real_id]> (translations db)) (original_max_node_id db)
           (if max_node_id db <? fake_id then fake_id else max_node_id db)
           (if max_translated_id db <? real_id then real_id else max_translated_id db)
           (nodes_total db))
  end.

(** the constructor: 16 bytes of magic number and version, the number of
    definitions, the number of nodes; the process reads [to_read] nodes after the
    [to_skip] of the processes before it, which the router decides *)
Definition new_database (to_skip to_read : Z → nat) (file : list byte) : res database :=
  let* bs := memcpy_from file 17 4 in
  let num := swrap 32 (le_value bs) in
  let* r := read_nodes (to_read num) file (21 + 8 * to_skip num)
              (mk_database ∅ ∅ 0 0 0 (wrap 64 num)) in
  let db := r.1 in
  Ok (mk_database (nodes db) (translations db) (max_node_id db) (max_node_id db)
        (max_translated_id db) (nodes_total db)).

End Database.

(** ** What a node holds *)

Section NodeProofs.
Context (hash_int hash_uint hash_float : Z → Z) (types : Z → list field_type).

Abbreviation represents := (TupleTrie.represents hash_int hash_uint hash_float).

(** one relation per predicate: a map from keys to counted tuples *)
Definition relations : Type := Z → gmap (list token) simple_tuple.

Definition update_relation (i : Z) (M : gmap (list token) simple_tuple) (DB : relations)
  : relations := λ j, if decide (j = i) then M else DB j.

Definition stands_for (nd : node) (DB : relations) : Prop :=
  (∀ i t, tuples nd !! i = Some t → represents (types i) t (DB i)) ∧
  (∀ i, tuples nd !! i = None → DB i = ∅).

Lemma get_storage_ok p nd DB nd1 tr :
  stands_for nd DB → get_storage p nd = (nd1, tr) →
  represents (types (pred_id p)) tr (DB (pred_id p)) ∧ stands_for nd1 DB ∧
  (∀ i, count_total i nd1 = count_total i nd) ∧ tuples nd1 !! pred_id p = Some tr ∧
  aggs nd1 = aggs nd ∧ matcher nd1 = matcher nd.
Proof.
  intros [Hs Hn] H. unfold get_storage in H.
  destruct (tuples nd !! pred_id p) as [t|] eqn:Ht; injection H as <- <-.
  - split_and!; eauto. by split.
  - assert (Hrep : represents (types (pred_id p)) new_trie (DB (pred_id p)))
      by (rewrite (Hn _ Ht); apply new_trie_represents).
    split; [done |]. split; [split |]; cbn [tuples set_tuples].
    + intros i t. rewrite lookup_insert_Some. intros [[<- <-] | [_ Hi]]; [done | by apply Hs].
    + intros i. rewrite lookup_insert_None. intros [Hi _]. by apply Hn.
    + split; [| by rewrite lookup_insert_eq]. intros i. unfold count_total. cbn [tuples set_tuples].
      destruct (decide (pred_id p = i)) as [<- | Hne].
      * by rewrite lookup_insert_eq, Ht.
      * by rewrite lookup_insert_ne by done.
Qed.

Lemma set_tuples_stands i t nd DB M :
  stands_for nd DB → represents (types i) t M →
  stands_for (set_tuples i t nd) (update_relation i M DB).
Proof.
  intros [Hs Hn] Ht. unfold update_relation. split; cbn [tuples set_tuples]; intros j.
  - intros t'. rewrite lookup_insert_Some. intros [[<- <-] | [Hne Hj]].
    + by rewrite decide_True.
    + rewrite decide_False by congruence. by apply Hs.
  - rewrite lookup_insert_None. intros [Hj Hne]. rewrite decide_False by congruence. by apply Hn.
Qed.

Lemma number_range ts t M :
  represents ts t M → number_of_references t < 2 ^ 31 →
  TupleTrie.size t = number_of_references t ∧ 0 <= number_of_references t.
Proof.
  intros [Hset _] Hlt. destruct (settled_number_zero _ _ _ _ _ Hset) as [Hge _].
  split; [| done]. unfold TupleTrie.size. apply wrap_id. lia.
Qed.

Lemma count_total_set i t nd j :
  count_total j (set_tuples i t nd) = if decide (j = i) then TupleTrie.size t else count_total j nd.
Proof.
  unfold count_total. cbn [tuples set_tuples]. case_decide as Hd.
  - subst. by rewrite lookup_insert_eq.
  - by rewrite lookup_insert_ne by congruence.
Qed.

Definition references (i : Z) (nd : node) : Z :=
  match tuples nd !! i with None => 0 | Some t => number_of_references t end.

Lemma get_storage_references p nd nd1 tr :
  get_storage p nd = (nd1, tr) → number_of_references tr = references (pred_id p) nd.
Proof.
  unfold get_storage, references. destruct (tuples nd !! pred_id p); intros [= <- <-]; done.
Qed.

(** [node::add_tuple] adds a tuple to the relation of its predicate only.  On a
    node that stands for a family of relations it returns, creating the trie of
    the predicate when there is none; the tuple enters its relation with its count
    (or the count of the equal tuple grows), the result says whether it is new, the
    other relations and their totals stay, and so do aggregates and matcher. *)
Theorem add_tuple_relation m tpl many vs nd DB :
  hash_float_ok hash_float → mem_fits m → tuple_denotes m tpl vs → forallb value_ok vs = true →
  stands_for nd DB → types (pred_id (pred tpl)) = pred_types (pred tpl) →
  0 < many → references (pred_id (pred tpl)) nd + many < 2 ^ 31 →
  (∀ s, DB (pred_id (pred tpl)) !! tokens vs = Some s → count s + many < 2 ^ 15) →
  ∃ nd', add_tuple hash_int hash_uint hash_float m tpl many nd =
      Ok (nd', bool_decide (DB (pred_id (pred tpl)) !! tokens vs = None)) ∧
    stands_for nd' (update_relation (pred_id (pred tpl))
      (insert_spec (tokens vs) tpl many (DB (pred_id (pred tpl)))) DB) ∧
    (∀ i, count_total i nd' = if decide (i = pred_id (pred tpl))
                              then references i nd + many else count_total i nd) ∧
    aggs nd' = aggs nd ∧ matcher nd' = matcher nd.
Proof.
  intros Hh Hm Hden Hok Hst Hty Hmany Hnum Hcnt. unfold add_tuple.
  destruct (get_storage (pred tpl) nd) as [nd1 tr] eqn:Hg.
  destruct (get_storage_ok _ _ _ _ _ Hst Hg) as (Hrep & Hst1 & Hc & _ & Ha & Hma).
  rewrite <- (get_storage_references _ _ _ _ Hg) in Hnum. rewrite Hty in Hrep.
  destruct (insert_tuple_ok hash_int hash_uint hash_float m tpl many tr vs
    (DB (pred_id (pred tpl)))) as (t' & -> & Hr & Hn); [done.. |].
  cbn [res_bind fst snd]. eexists. split; [done |]. split.
  { apply set_tuples_stands; [done |]. by rewrite Hty. }
  split; [| done]. intros i. rewrite count_total_set. case_decide as Hd; [| apply Hc].
  subst. rewrite <- (get_storage_references _ _ _ _ Hg), <- Hn.
  by destruct (number_range _ t' _ Hr ltac:(lia)) as [? _].
Qed.

(** [delete_tuple], and its commit at once when the count reached zero *)
Definition delete_now (m : memory) (tpl : tuple) (many : Z) (nd : node) : res (memory * node) :=
  let* r := delete_tuple hash_int hash_uint hash_float m tpl many nd in
  let '(nd, d) := r in
  if to_del d then commit_delete_info m (pred tpl) d nd else Ok (m, nd).

Lemma delete_now_trie m tpl many nd nd1 tr :
  get_storage (pred tpl) nd = (nd1, tr) →
  delete_now m tpl many nd =
    (let* r := delete_and_commit hash_int hash_uint hash_float m tpl many tr in
     Ok (r.1, set_tuples (pred_id (pred tpl)) r.2 nd1)).
Proof.
  intros Hg. unfold delete_now, delete_tuple, delete_and_commit. rewrite Hg.
  destruct (TupleTrie.delete_tuple _ _ _ m tpl many tr) as [[t d]|f]; cbn [res_bind fst snd]; [| done].
  destruct (to_del d); cbn [res_bind fst snd]; [| done].
  unfold commit_delete_info. cbn [tuples set_tuples]. rewrite lookup_insert_eq. cbn [of_option res_bind].
  destruct (commit m d t) as [[m' t']|f]; cbn [res_bind fst snd]; [| done].
  f_equal. f_equal. unfold set_tuples. cbn. by rewrite insert_insert_eq.
Qed.

(** [node::delete_tuple] with its commit takes a tuple out of the relation of
    its predicate only: the count of the tuple goes down, the tuple goes when none
    is left, an absent tuple is left alone, and the other relations, the
    aggregates and the matcher stay. *)
Theorem delete_tuple_relation m tpl many vs nd DB :
  hash_float_ok hash_float → mem_fits m → tuple_denotes m tpl vs → forallb value_ok vs = true →
  stands_for nd DB → types (pred_id (pred tpl)) = pred_types (pred tpl) →
  0 < many → references (pred_id (pred tpl)) nd < 2 ^ 31 →
  (DB (pred_id (pred tpl)) !! tokens vs = None → pred_types (pred tpl) ≠ []) →
  (∀ s, DB (pred_id (pred tpl)) !! tokens vs = Some s → many <= count s < 2 ^ 15 ∧
     (count s = many → ∃ m', Tuple.destroy m (data s) = Ok m')) →
  ∃ m' nd', delete_now m tpl many nd = Ok (m', nd') ∧
    stands_for nd' (update_relation (pred_id (pred tpl))
      (delete_spec (tokens vs) many (DB (pred_id (pred tpl)))) DB) ∧
    (∀ i, i ≠ pred_id (pred tpl) → count_total i nd' = count_total i nd) ∧
    aggs nd' = aggs nd ∧ matcher nd' = matcher nd.
Proof.
  intros Hh Hm Hden Hok Hst Hty Hmany Hnum Hnone Hsome.
  destruct (get_storage (pred tpl) nd) as [nd1 tr] eqn:Hg. rewrite (delete_now_trie _ _ _ _ _ _ Hg).
  destruct (get_storage_ok _ _ _ _ _ Hst Hg) as (Hrep & Hst1 & Hc & _ & Ha & Hma).
  rewrite <- (get_storage_references _ _ _ _ Hg) in Hnum. rewrite Hty in Hrep.
  destruct (delete_and_commit_ok hash_int hash_uint hash_float m tpl many tr vs
    (DB (pred_id (pred tpl)))) as (m' & t' & -> & Hr & Hn); [done.. |].
  cbn [res_bind fst snd]. eexists _, _. split; [done |]. split.
  { apply set_tuples_stands; [done |]. by rewrite Hty. }
  split; [| done]. intros i Hne. by rewrite count_total_set, decide_False.
Qed.

End NodeProofs.

(** ** Node ids *)

Section DatabaseProofs.
Context (create_fn : Z → Z → node) (create_id : ∀ i t, get_id (create_fn i t) = i).

(** a node is found under its id, which is at most the greatest *)
Definition database_ok (db : database) : Prop :=
  ∀ i nd, nodes db !! i = Some nd → get_id nd = i ∧ 0 <= i <= max_node_id db.

(** [create_node] makes a node with an id no node has, as long as the ids do
    not run out; it is found under that id, the other nodes and the greatest id
    the database file had stay. *)
Theorem create_node_fresh db db' nd :
  database_ok db → 0 <= max_node_id db < 2 ^ 32 - 1 → create_node create_fn db = (db', nd) →
  nodes db !! get_id nd = None ∧ find_node (get_id nd) db' = Ok nd ∧ max_id db' = get_id nd ∧
  nodes db' = <[get_id nd := nd]> (nodes db) ∧ database_ok db' ∧
  static_max_id db' = static_max_id db ∧ num_nodes db' = S (num_nodes db).
Proof.
  intros Hok Hmax H. unfold create_node in H.
  assert (∃ i t, put_node create_fn i t db = (db', nd) ∧ nodes db !! i = None ∧ 0 <= i ∧
    ∀ j n, nodes db !! j = Some n → j < i) as (i & t & Hp & Hfresh & Hi & Hlt).
  { case_decide as Hd.
    - exists 0, 0. rewrite Hd. split_and!; [done | done | lia |]. intros j n Hj. by rewrite lookup_empty in Hj.
    - rewrite wrap_id in H by lia. exists (max_node_id db + 1), (wrap 32 (max_translated_id db + 1)).
      split_and!; [done | | lia |].
      + destruct (nodes db !! (max_node_id db + 1)) as [n|] eqn:E; [| done]. apply Hok in E as [_ ?]. lia.
      + intros j n Hj. apply Hok in Hj as [_ ?]. lia. }
  unfold put_node in Hp. injection Hp as <- <-. rewrite create_id.
  unfold find_node, max_id, static_max_id, num_nodes, database_ok.
  cbn [nodes max_node_id original_max_node_id]. rewrite lookup_insert_eq.
  split_and!; try done.
  - intros j n. rewrite lookup_insert_Some. intros [[<- <-] | [_ Hj]]; [by rewrite create_id |].
    split; [by apply (Hok j n) |]. specialize (Hlt j n Hj). apply Hok in Hj as [_ ?]. lia.
  - by rewrite map_size_insert_None.
Qed.

End DatabaseProofs.

(** ** On concrete nodes *)

Definition sample_types (i : Z) : list field_type :=
  if i =? pred_id sample_pred then pred_types sample_pred else [].

Definition sample_node : node := new_node 0 [] 0 0.

Lemma sample_node_stands : stands_for id id (λ _, 0) sample_types sample_node (λ _, ∅).
Proof. split; [intros i t H; cbn in H; by rewrite lookup_empty in H | done]. Qed.

Lemma add_tuple_relation_witness :
  ∃ nd', add_tuple id id (λ _, 0) sample_memory sample_tuple 1 sample_node = Ok (nd', true) ∧
    stands_for id id (λ _, 0) sample_types nd' (update_relation (pred_id sample_pred)
      (insert_spec (tokens [VInt 3; VList NodeList [5; 6]]) sample_tuple 1 ∅) (λ _, ∅)) ∧
    count_total (pred_id sample_pred) nd' = 1.
Proof.
  destruct (add_tuple_relation id id (λ _, 0) sample_types sample_memory sample_tuple 1
    [VInt 3; VList NodeList [5; 6]] sample_node (λ _, ∅)) as (nd' & Ha & Hs & Hc & _).
  - exact hash_zero_ok.
  - exact sample_mem_fits.
  - exact sample_tuple_denotes.
  - reflexivity.
  - exact sample_node_stands.
  - reflexivity.
  - lia.
  - reflexivity.
  - intros s Hs. rewrite lookup_empty in Hs. discriminate Hs.
  - exists nd'. split; [| split; [exact Hs | exact (Hc (pred_id sample_pred))]].
    rewrite bool_decide_true in Ha by reflexivity. exact Ha.
Defined.

(** the node with the sample trie *)
Definition sample_node1 : node := set_tuples (pred_id sample_pred) sample_trie sample_node.

Definition sample_relations : relations := update_relation (pred_id sample_pred)
  {[ tokens [VInt 3; VList NodeList [5; 6]] := new_simple_tuple sample_tuple 1 ]} (λ _, ∅).

Lemma sample_node1_stands : stands_for id id (λ _, 0) sample_types sample_node1 sample_relations.
Proof. apply set_tuples_stands; [apply sample_node_stands | apply sample_trie_represents]. Qed.

Lemma sample_relation :
  sample_relations (pred_id (pred sample_tuple)) =
  {[ tokens [VInt 3; VList NodeList [5; 6]] := new_simple_tuple sample_tuple 1 ]}.
Proof. reflexivity. Qed.

Lemma delete_tuple_relation_witness :
  ∃ m' nd', delete_now id id (λ _, 0) sample_memory sample_tuple 1 sample_node1 = Ok (m', nd') ∧
    stands_for id id (λ _, 0) sample_types nd' (update_relation (pred_id sample_pred)
      (delete_spec (tokens [VInt 3; VList NodeList [5; 6]]) 1
        (sample_relations (pred_id sample_pred))) sample_relations) ∧
    (∀ i, i ≠ pred_id sample_pred → count_total i nd' = count_total i sample_node1) ∧
    aggs nd' = aggs sample_node1 ∧ matcher nd' = matcher sample_node1.
Proof.
  apply (delete_tuple_relation id id (λ _, 0) sample_types sample_memory sample_tuple 1
    [VInt 3; VList NodeList [5; 6]] sample_node1 sample_relations).
  - exact hash_zero_ok.
  - exact sample_mem_fits.
  - exact sample_tuple_denotes.
  - reflexivity.
  - exact sample_node1_stands.
  - reflexivity.
  - lia.
  - vm_compute. reflexivity.
  - intros H. discriminate H.
  - intros s Hs. rewrite sample_relation, lookup_singleton_eq in Hs. injection Hs as <-.
    split; [done |]. intros _. eexists. vm_compute. reflexivity.
Defined.

Definition sample_database : database := mk_database {[ 4 := new_node 0 [] 4 9 ]} {[ 4 := 9 ]} 4 4 9 1.

Lemma create_node_fresh_witness :
  nodes sample_database !! 5 = None ∧
  find_node 5 (create_node (new_node 0 []) sample_database).1 = Ok (new_node 0 [] 5 10) ∧
  num_nodes (create_node (new_node 0 []) sample_database).1 = 2%nat.
Proof.
  destruct (create_node_fresh (new_node 0 []) (λ _ _, eq_refl) sample_database
    (create_node (new_node 0 []) sample_database).1 (new_node 0 [] 5 10)) as (H1 & H2 & _ & _ & _ & _ & H3).
  - intros i nd H. unfold sample_database in H; cbn [nodes] in H. apply lookup_singleton_Some in H as [<- <-]. by split.
  - split; [discriminate | reflexivity].
  - vm_compute. reflexivity.
  - split; [exact H1 |]. split; [exact H2 | exact H3].
Defined.
