(* ===== verification/Exec.v ===== *)
(** The register machine of the interpreter: the registers, stack and constants of
    [vm/state.{hpp,cpp}] and [vm/all.hpp], and the operand level of [vm/exec.cpp]:
    moves, arithmetic, lists, tests, the matches of ITERATE. *)

From Stdlib Require Import ZArith Lia Bool SpecFloat.
From stdpp Require Import base tactics list numbers option gmap strings.
From S2P Require Import Prelude Words Types Instr RuntimeList Tuple Trie Match TrieLookup.

#[local] Open Scope Z_scope.

Definition NUM_REGS : nat := 32.
Definition MAX_CONSTS : nat := 32.

(** ** What a run does not change *)

(** [code] is all byte code of the program in one address space; [host] is the
    node that runs; a predicate's id is its index in [predicates] *)
Record program : Type := mk_program {
  code : list byte;
  host : Z;
  max_id : Z;
  static_max_id : Z;
  default_strings : list Z;
  const_types : list field_type;
  arguments : list (list byte);
  predicates : list predicate;
  functions : list pcounter
}.

(** ** The state *)

(** Tuples the code works on are in a heap; pointers to leaves and to counted
    tuples are addresses, 0 for NULL. *)
Record state : Type := mk_state {
  regs : list tuple_field;
  stack : list tuple_field;
  consts : list tuple_field;
  mem : memory;
  heap : gmap positive tuple;
  cur_tuple : Z;
  tuple_leaf : Z;
  tuple_queue : Z;
  is_leaf : list bool;
  saved_leafs : list Z;
  saved_stuples : list Z;
  free_lists : list (list_kind * list_ptr);
  free_rstring : list Z
}.

Definition set_regs (r : list tuple_field) (s : state) : state :=
  mk_state r (stack s) (consts s) (mem s) (heap s) (cur_tuple s) (tuple_leaf s) (tuple_queue s)
    (is_leaf s) (saved_leafs s) (saved_stuples s) (free_lists s) (free_rstring s).
Definition set_stack (k : list tuple_field) (s : state) : state :=
  mk_state (regs s) k (consts s) (mem s) (heap s) (cur_tuple s) (tuple_leaf s) (tuple_queue s)
    (is_leaf s) (saved_leafs s) (saved_stuples s) (free_lists s) (free_rstring s).
Definition set_consts (c : list tuple_field) (s : state) : state :=
  mk_state (regs s) (stack s) c (mem s) (heap s) (cur_tuple s) (tuple_leaf s) (tuple_queue s)
    (is_leaf s) (saved_leafs s) (saved_stuples s) (free_lists s) (free_rstring s).
Definition set_mem (m : memory) (s : state) : state :=
  mk_state (regs s) (stack s) (consts s) m (heap s) (cur_tuple s) (tuple_leaf s) (tuple_queue s)
    (is_leaf s) (saved_leafs s) (saved_stuples s) (free_lists s) (free_rstring s).
Definition set_heap (h : gmap positive tuple) (s : state) : state :=
  mk_state (regs s) (stack s) (consts s) (mem s) h (cur_tuple s) (tuple_leaf s) (tuple_queue s)
    (is_leaf s) (saved_leafs s) (saved_stuples s) (free_lists s) (free_rstring s).
Definition set_saved (il : list bool) (sl ss : list Z) (s : state) : state :=
  mk_state (regs s) (stack s) (consts s) (mem s) (heap s) (cur_tuple s) (tuple_leaf s) (tuple_queue s)
    il sl ss (free_lists s) (free_rstring s).
Definition set_free (fl : list (list_kind * list_ptr)) (fs : list Z) (s : state) : state :=
  mk_state (regs s) (stack s) (consts s) (mem s) (heap s) (cur_tuple s) (tuple_leaf s) (tuple_queue s)
    (is_leaf s) (saved_leafs s) (saved_stuples s) fl fs.

(** ** Computations on the state *)

Definition exec (A : Type) : Type := state → res (A * state).

Definition ret {A} (a : A) : exec A := λ s, Ok (a, s).
Definition throw {A} (f : failure) : exec A := λ _, Err f.
Definition lift {A} (r : res A) : exec A := λ s, let* a := r in Ok (a, s).
Definition gets {A} (f : state → res A) : exec A := λ s, let* a := f s in Ok (a, s).
Definition modify (f : state → res state) : exec unit := λ s, let* s := f s in Ok ((), s).
Definition exec_bind {A B} (m : exec A) (k : A → exec B) : exec B :=
  λ s, let* r := m s in k r.1 r.2.

Notation "'let!' x := m 'in' k" := (exec_bind m (fun x => k))
  (at level 10, x pattern, m at level 100, k at level 200) : meld_scope.
Notation "m ;! k" := (exec_bind m (fun _ => k))
  (at level 100, k at level 200, right associativity) : meld_scope.

(** ** Registers: [vm/state.hpp] *)

Definition get_reg (num : Z) : exec tuple_field := gets (λ s, of_option (regs s !! Z.to_nat num)).
Definition set_reg (num : Z) (f : tuple_field) : exec unit :=
  modify (λ s, let* _ := of_option (regs s !! Z.to_nat num) in
               Ok (set_regs (<[Z.to_nat num := f]> (regs s)) s)).

Definition get_int (num : Z) : exec Z := let! f := get_reg num in ret (int_field f).
(** a double as its bits *)
Definition get_float (num : Z) : exec Z := let! f := get_reg num in ret (wrap 64 f).
Definition get_ptr (num : Z) : exec Z := let! f := get_reg num in ret (ptr_field f).
Definition get_bool (num : Z) : exec bool := let! v := get_int num in ret (negb (v =? 0)).
Definition get_node (num : Z) : exec Z := let! f := get_reg num in ret (node_field f).

Definition set_int (num : Z) (v : Z) : exec unit :=
  let! f := get_reg num in set_reg num (set_int_field f v).
Definition set_float (num : Z) (bits : Z) : exec unit := set_reg num (wrap 64 bits).
Definition set_ptr (num : Z) (v : Z) : exec unit := set_reg num (set_ptr_field 0 v).
Definition set_bool (num : Z) (b : bool) : exec unit := set_int num (if b then 1 else 0).
Definition set_node (num : Z) (v : Z) : exec unit :=
  let! f := get_reg num in set_reg num (set_node_field f v).
Definition set_nil (num : Z) : exec unit := set_ptr num null_list.
Definition copy_reg (reg_from reg_to : Z) : exec unit :=
  let! f := get_reg reg_from in set_reg reg_to f.

Definition set_leaf (num : Z) (leaf : Z) : exec unit :=
  modify (λ s, let i := Z.to_nat num in
    let* _ := of_option (is_leaf s !! i) in
    Ok (set_saved (<[i := true]> (is_leaf s)) (<[i := leaf]> (saved_leafs s)) (saved_stuples s) s)).
Definition set_tuple_queue (num : Z) (stpl : Z) : exec unit :=
  modify (λ s, let i := Z.to_nat num in
    let* _ := of_option (is_leaf s !! i) in
    Ok (set_saved (<[i := false]> (is_leaf s)) (saved_leafs s) (<[i := stpl]> (saved_stuples s)) s)).

(** a tuple by its address *)
Definition deref_tuple (p : Z) (s : state) : res tuple :=
  match p with
  | Zpos q => of_option (heap s !! q)
  | _ => Err undefined_behaviour
  end.

Definition get_tuple (num : Z) : exec tuple :=
  let! p := get_ptr num in gets (deref_tuple p).

(** the tuple of a register is changed through its pointer *)
Definition update_tuple (num : Z) (f : tuple → res tuple) : exec unit :=
  let! p := get_ptr num in
  modify (λ s, let* t := deref_tuple p s in
               let* t := f t in
               Ok (set_heap (<[Z.to_pos p := t]> (heap s)) s)).

Definition update_tuple_mem (num : Z) (f : memory → tuple → res (memory * tuple)) : exec unit :=
  let! p := get_ptr num in
  modify (λ s, let* t := deref_tuple p s in
               let* r := f (mem s) t in
               Ok (set_heap (<[Z.to_pos p := r.2]> (heap s)) (set_mem r.1 s))).

(** [get_stack_at]: the last element is at offset 0 *)
Definition stack_index (off : Z) (s : state) : res nat :=
  let i := Z.of_nat (length (stack s)) - 1 - off in
  if (0 <=? i) && (i <? Z.of_nat (length (stack s))) then Ok (Z.to_nat i) else Err undefined_behaviour.
Definition get_stack_at (off : Z) : exec tuple_field :=
  gets (λ s, let* i := stack_index off s in of_option (stack s !! i)).
Definition set_stack_at (off : Z) (f : tuple_field → tuple_field) : exec unit :=
  modify (λ s, let* i := stack_index off s in Ok (set_stack (alter f i (stack s)) s)).

(** [add_int_list] and its siblings: lists made by the run, to look at afterwards *)
Definition add_list (k : list_kind) (ls : list_ptr) : exec unit :=
  modify (λ s, Ok (set_free (free_lists s ++ [(k, ls)]) (free_rstring s) s)).
Definition add_string (str : Z) : exec unit :=
  modify (λ s, Ok (set_free (free_lists s) (free_rstring s ++ [str]) s)).

(** ** Constants: [vm/all.hpp] *)

Definition get_const (cid : Z) : exec tuple_field :=
  gets (λ s, of_option (consts s !! Z.to_nat cid)).
Definition set_const (cid : Z) (f : tuple_field → tuple_field) : exec unit :=
  modify (λ s, let* _ := of_option (consts s !! Z.to_nat cid) in
               Ok (set_consts (alter f (Z.to_nat cid) (consts s)) s)).

Definition get_const_int (cid : Z) : exec Z := let! f := get_const cid in ret (int_field f).
Definition get_const_float (cid : Z) : exec Z := let! f := get_const cid in ret (wrap 64 f).
Definition get_const_ptr (cid : Z) : exec Z := let! f := get_const cid in ret (ptr_field f).
Definition get_const_node (cid : Z) : exec Z := let! f := get_const cid in ret (node_field f).
Definition set_const_int (cid : Z) (v : Z) : exec unit := set_const cid (λ f, set_int_field f v).
Definition set_const_float (cid : Z) (bits : Z) : exec unit := set_const cid (λ _, wrap 64 bits).
Definition set_const_node (cid : Z) (v : Z) : exec unit := set_const cid (λ f, set_node_field f v).
Definition set_const_ptr (cid : Z) (v : Z) : exec unit := set_const cid (λ f, set_ptr_field f v).

Definition inc_list (k : list_kind) (p : list_ptr) : exec unit :=
  modify (λ s, let* m := on_lists (mem s) k (λ st, inc_refs st p) in Ok (set_mem m s)).
Definition inc_string (p : Z) : exec unit :=
  modify (λ s, let* st := inc_string_refs (strings (mem s)) p in Ok (set_mem (set_strings (mem s) st) s)).

(** [inc_refs] of a constant through its type *)
Definition copy_reg2const (pr : program) (reg_from : Z) (cid : Z) : exec unit :=
  let! f := get_reg reg_from in
  set_const cid (λ _, f) ;!
  let! t := lift (of_option (const_types pr !! Z.to_nat cid)) in
  match list_kind_of t, t with
  | Some k, _ => inc_list k (ptr_field f)
  | None, FIELD_STRING => inc_string (ptr_field f)
  | None, _ => ret ()
  end.

(** [get_argument]: arguments count from 1; [ARGUMENTS[-1]] for 0 *)
Definition get_argument (pr : program) (i : Z) : exec Z :=
  if (i <=? Z.of_nat (length (arguments pr))) then
    let! str := lift (if i =? 0 then Err undefined_behaviour
                      else of_option (arguments pr !! Z.to_nat (i - 1))) in
    λ s, let '(st, p) := make_string (strings (mem s)) str in
         Ok (p, set_mem (set_strings (mem s) st) s)
  else throw assert_fail.

Definition get_default_string (pr : program) (i : Z) : exec Z :=
  match default_strings pr !! Z.to_nat i with
  | Some p => ret p
  | None => throw assert_fail
  end.

(** ** Operands: [vm/exec.cpp] *)

Section Operands.
Context (pr : program).
#[local] Abbreviation code := (code pr).

(** [val_field_reg] and [val_field_num] of a field operand: its tuple and field *)
Definition field_reg (m : pcounter) : exec Z := lift (val_field_reg code m).
Definition field_num (m : pcounter) : exec nat :=
  lift (let* n := val_field_num code m in Ok (Z.to_nat n)).
Definition field_tuple (m : pcounter) : exec tuple := let! r := field_reg m in get_tuple r.

(** the two [get_node_val]: on a [pcounter&], with the check of the id, and on a
    [const pcounter&] *)
Definition get_node_val (m : pcounter) : exec (Z * pcounter) :=
  let! n := lift (pcounter_node code m) in
  if n <=? max_id pr then ret (n, pcounter_move_node m) else throw assert_fail.
Definition get_node_val_const (m : pcounter) : exec Z := lift (pcounter_node code m).

(** a field read from its tuple, with the counter after the operand *)
Definition op_field {A} (get : tuple → nat → res A) (m : pcounter) : exec (A * pcounter) :=
  let! t := field_tuple m in
  let! n := field_num m in
  let! v := lift (get t n) in
  ret (v, pcounter_move_field m).

(** a register read as it is *)
Definition op_reg {A} (get : Z → exec A) (val : instr_val) (m : pcounter) : exec (A * pcounter) :=
  let! v := get (val_reg val) in ret (v, m).

Definition op_const {A} (get : Z → exec A) (m : pcounter) : exec (A * pcounter) :=
  let! cid := lift (pcounter_const_id code m) in
  let! v := get cid in
  ret (v, pcounter_move_const_id m).

(** the bits of a double *)
Definition tuple_float_bits (t : tuple) (field : nat) : res Z :=
  let* f := Tuple.get_field t field in Ok (wrap 64 f).

(** [get_op_function<T>] *)
Definition get_op_bool (val : instr_val) (m : pcounter) : exec (bool * pcounter) :=
  if val_is_reg val then op_reg get_bool val m
  else if val_is_field val then op_field Tuple.get_bool m
  else throw (vm_exec_error "invalid bool for bool op").

Definition get_op_float (val : instr_val) (m : pcounter) : exec (Z * pcounter) :=
  if val_is_float val then
    let! flt := lift (pcounter_float code m) in ret (flt, pcounter_move_float m)
  else if val_is_reg val then op_reg get_float val m
  else if val_is_field val then op_field tuple_float_bits m
  else if val_is_const val then op_const get_const_float m
  else throw (vm_exec_error "invalid float for float op").

Definition get_op_int (val : instr_val) (m : pcounter) : exec (Z * pcounter) :=
  if val_is_int val then
    let! i := lift (pcounter_int code m) in ret (i, pcounter_move_int m)
  else if val_is_reg val then op_reg get_int val m
  else if val_is_field val then op_field Tuple.get_int m
  else if val_is_const val then op_const get_const_int m
  else throw (vm_exec_error "invalid int for int op").

Definition get_op_node (val : instr_val) (m : pcounter) : exec (Z * pcounter) :=
  if val_is_host val then ret (host pr, m)
  else if val_is_node val then get_node_val m
  else if val_is_reg val then op_reg get_node val m
  else if val_is_field val then op_field Tuple.get_node m
  else if val_is_const val then op_const get_const_node m
  else throw (vm_exec_error "invalid node for node op (get_op_function<node_val>)").

Definition get_op_ptr (val : instr_val) (m : pcounter) : exec (Z * pcounter) :=
  if val_is_reg val then op_reg get_ptr val m
  else if val_is_field val then op_field Tuple.get_ptr m
  else throw (vm_exec_error "invalid ptr for ptr op").

(** the three list types; constants are not read as lists of nodes *)
Definition get_op_list (k : list_kind) (val : instr_val) (m : pcounter)
  : exec (list_ptr * pcounter) :=
  if val_is_reg val then op_reg get_ptr val m
  else if val_is_field val then op_field Tuple.get_ptr m
  else if val_is_nil val then ret (null_list, m)
  else
    match k with
    | IntList =>
        if val_is_const val then op_const get_const_ptr m
        else throw (vm_exec_error "unable to get an int list (get_op_function<int_list*>)")
    | FloatList =>
        if val_is_const val then op_const get_const_ptr m
        else throw (vm_exec_error "unable to get a float list")
    | NodeList => throw (vm_exec_error "unable to get an addr list")
    end.

Definition get_op_string (val : instr_val) (m : pcounter) : exec (Z * pcounter) :=
  if val_is_reg val then op_reg get_ptr val m
  else if val_is_field val then op_field Tuple.get_ptr m
  else if val_is_string val then
    let! i := lift (pcounter_uint code m) in
    let! p := get_default_string pr i in
    ret (p, pcounter_move_uint m)
  else if val_is_arg val then
    let! i := lift (pcounter_argument_id code m) in
    let! p := get_argument pr i in
    add_string p ;!
    ret (p, pcounter_move_argument_id m)
  else if val_is_const val then op_const get_const_ptr m
  else throw (vm_exec_error "unable to get a string").

(** [set_op_function<T>]: [m] is at the operand of the destination *)
Definition set_field_op (set : tuple → nat → res tuple) (m : pcounter) : exec unit :=
  let! r := field_reg m in
  let! n := field_num m in
  update_tuple r (λ t, set t n).

Definition set_op_bool (m : pcounter) (dest : instr_val) (val : bool) : exec unit :=
  if val_is_reg dest then set_bool (val_reg dest) val
  else if val_is_field dest then throw (vm_exec_error "can't put a bool in a tuple field - yet")
  else throw (vm_exec_error "invalid destination for bool value").

Definition set_op_int (m : pcounter) (dest : instr_val) (val : Z) : exec unit :=
  if val_is_reg dest then set_int (val_reg dest) val
  else if val_is_field dest then set_field_op (λ t n, Tuple.set_int t n val) m
  else if val_is_stack dest then
    let! off := lift (pcounter_offset_num code m) in
    set_stack_at off (λ f, set_int_field f val)
  else throw (vm_exec_error "invalid destination for int value").

Definition set_op_float (m : pcounter) (dest : instr_val) (val : Z) : exec unit :=
  if val_is_reg dest then set_float (val_reg dest) val
  else if val_is_field dest then set_field_op (λ t n, Tuple.set_float t n val) m
  else if val_is_stack dest then
    let! off := lift (pcounter_offset_num code m) in
    set_stack_at off (λ _, wrap 64 val)
  else throw (vm_exec_error "invalid destination for float value").

Definition set_op_node (m : pcounter) (dest : instr_val) (val : Z) : exec unit :=
  if val_is_reg dest then set_node (val_reg dest) val
  else if val_is_field dest then set_field_op (λ t n, Tuple.set_node t n val) m
  else throw (vm_exec_error "invalid destination for addr value").

Definition list_dest_error (k : list_kind) : failure :=
  match k with
  | IntList => vm_exec_error "invalid destination for int list value"
  | FloatList => vm_exec_error "invalid destination for float list value"
  | NodeList => vm_exec_error "invalid destination for addr list value"
  end.

Definition set_op_list (k : list_kind) (m : pcounter) (dest : instr_val) (val : list_ptr)
  : exec unit :=
  if val_is_reg dest then set_ptr (val_reg dest) val
  else if val_is_field dest then
    let! r := field_reg m in
    let! n := field_num m in
    update_tuple_mem r (λ me t, Tuple.set_list me t n k val)
  else throw (list_dest_error k).

(** ** Arithmetic *)

(** [int_val] arithmetic wraps around; a quotient by zero or out of range is
    undefined *)
Definition int_quotient (f : Z → Z → Z) (v1 v2 : Z) : res Z :=
  if (v2 =? 0) || ((v1 =? - 2 ^ 31) && (v2 =? -1)) then Err undefined_behaviour else Ok (f v1 v2).

(** C's [fmod]: the remainder of the truncated quotient, exact, with the sign of
    [x] *)
Definition fmod (x y : spec_float) : spec_float :=
  match x, y with
  | S754_nan, _ | _, S754_nan | S754_infinity _, _ | _, S754_zero _ => S754_nan
  | S754_zero _, _ | _, S754_infinity _ => x
  | S754_finite sx mx ex, S754_finite _ my ey =>
      let e := Z.min ex ey in
      let r := Z.shiftl (Zpos mx) (ex - e) mod Z.shiftl (Zpos my) (ey - e) in
      binary_normalize prec emax (if sx then - r else r) e sx
  end.

Definition float_op2 (f : spec_float → spec_float → spec_float) (v1 v2 : Z) : Z :=
  bits_of_float (f (float_of_bits v1) (float_of_bits v2)).
Definition float_test (f : spec_float → spec_float → bool) (v1 v2 : Z) : bool :=
  f (float_of_bits v1) (float_of_bits v2).

(** [implement_operation] at the types of operands and result *)
Definition implement_operation {A B} (get : instr_val → pcounter → exec (A * pcounter))
    (set : pcounter → instr_val → B → exec unit) (op : A → A → res B)
    (arg1 arg2 dest : instr_val) (m : pcounter) : exec unit :=
  let! r1 := get arg1 m in
  let '(v1, m) := r1 in
  let! r2 := get arg2 m in
  let '(v2, m) := r2 in
  let! v := lift (op v1 v2) in
  set m dest v.

(** an operation without undefined cases *)
Definition pure2 {A B} (f : A → A → B) (v1 v2 : A) : res B := Ok (f v1 v2).

Definition execute_op (pc : pcounter) : exec unit :=
  let! arg1 := lift (op_arg1 code pc) in
  let! arg2 := lift (op_arg2 code pc) in
  let! dest := lift (op_dest code pc) in
  let! op := lift (op_op code pc) in
  let m := pc + OP_BASE in
  let ff f := implement_operation get_op_float set_op_float (pure2 (float_op2 f)) arg1 arg2 dest m in
  let fb f := implement_operation get_op_float set_op_bool (pure2 (float_test f)) arg1 arg2 dest m in
  let ii f := implement_operation get_op_int set_op_int f arg1 arg2 dest m in
  let ib f := implement_operation get_op_int set_op_bool (pure2 f) arg1 arg2 dest m in
  let nb f := implement_operation get_op_node set_op_bool (pure2 f) arg1 arg2 dest m in
  match op with
  | Some OP_NEQF => fb (λ a b, negb (SFeqb a b))
  | Some OP_NEQI => ib (λ a b, negb (a =? b))
  | Some OP_EQF => fb SFeqb
  | Some OP_EQI => ib Z.eqb
  | Some OP_LESSF => fb SFltb
  | Some OP_LESSI => ib Z.ltb
  | Some OP_LESSEQF => fb SFleb
  | Some OP_LESSEQI => ib Z.leb
  | Some OP_GREATERF => fb (λ a b, SFltb b a)
  | Some OP_GREATERI => ib (λ a b, b <? a)
  | Some OP_GREATEREQF => fb (λ a b, SFleb b a)
  | Some OP_GREATEREQI => ib (λ a b, b <=? a)
  | Some OP_MODF => ff fmod
  | Some OP_MODI => ii (int_quotient Z.rem)
  | Some OP_PLUSF => ff (SFadd prec emax)
  | Some OP_PLUSI => ii (pure2 (λ a b, swrap 32 (a + b)))
  | Some OP_MINUSF => ff (SFsub prec emax)
  | Some OP_MINUSI => ii (pure2 (λ a b, swrap 32 (a - b)))
  | Some OP_TIMESF => ff (SFmul prec emax)
  | Some OP_TIMESI => ii (pure2 (λ a b, swrap 32 (a * b)))
  | Some OP_DIVF => ff (SFdiv prec emax)
  | Some OP_DIVI => ii (int_quotient Z.quot)
  | Some OP_NEQA => nb (λ a b, negb (a =? b))
  | Some OP_EQA => nb Z.eqb
  | Some OP_GREATERA => nb (λ a b, b <? a)
  | Some OP_ORB => implement_operation get_op_bool set_op_bool (pure2 orb) arg1 arg2 dest m
  | None => throw (vm_exec_error "unknown operation (execute_op)")
  end.

Definition execute_not (pc : pcounter) : exec unit :=
  let! op := lift (not_op code pc) in
  let! dest := lift (not_dest code pc) in
  let m := pc + NOT_BASE in
  let! r :=
    (if val_is_reg op then op_reg get_bool op m
     else if val_is_field op then op_field Tuple.get_bool m
     else throw (vm_exec_error "invalid source for not instruction")) in
  let '(val, m) := r in
  let val := negb val in
  if val_is_reg dest then set_bool (val_reg dest) val
  else if val_is_field dest then set_field_op (λ t n, Tuple.set_bool t n val) m
  else throw (vm_exec_error "invalid destination for not instruction").


(** ** Moves *)

Definition tuple_set_list (num : Z) (field : nat) (k : list_kind) (p : list_ptr) : exec unit :=
  update_tuple_mem num (λ me t, Tuple.set_list me t field k p).
Definition tuple_set_string (num : Z) (field : nat) (p : Z) : exec unit :=
  update_tuple_mem num (λ me t, Tuple.set_string me t field p).

(** a field of any type moves to a register *)
Definition move_field_to_reg (t : tuple) (field : nat) (reg : Z) : exec unit :=
  let! type := lift (get_field_type (pred t) field) in
  match type with
  | FIELD_INT => let! v := lift (Tuple.get_int t field) in set_int reg v
  | FIELD_FLOAT => let! v := lift (tuple_float_bits t field) in set_float reg v
  | FIELD_LIST_INT | FIELD_LIST_FLOAT | FIELD_LIST_NODE | FIELD_STRING =>
      let! v := lift (Tuple.get_ptr t field) in set_ptr reg v
  | FIELD_NODE => let! v := lift (Tuple.get_node t field) in set_node reg v
  | FIELD_UNKNOWN _ => throw (vm_exec_error "don't know how to move this field (move_to_reg)")
  end.

Definition move_to_reg (m : pcounter) (reg : Z) (from : instr_val) : exec unit :=
  if val_is_float from then let! v := lift (pcounter_float code m) in set_float reg v
  else if val_is_int from then let! v := lift (pcounter_int code m) in set_int reg v
  else if val_is_field from then
    let! field := field_num m in
    let! t := field_tuple m in
    move_field_to_reg t field reg
  else if val_is_host from then set_node reg (host pr)
  else if val_is_node from then let! n := get_node_val_const m in set_node reg n
  else if val_is_reg from then copy_reg (val_reg from) reg
  else if val_is_tuple from then
    let! leaf := gets (λ s, Ok (tuple_leaf s)) in
    let! queue := gets (λ s, Ok (tuple_queue s)) in
    let! cur := gets (λ s, Ok (cur_tuple s)) in
    (if negb (leaf =? 0) then set_leaf reg leaf
     else if negb (queue =? 0) then set_tuple_queue reg queue
     else ret ()) ;!
    (if negb (leaf =? 0) && negb (queue =? 0) then throw assert_fail else set_ptr reg cur)
  else if val_is_stack from then
    let! off := lift (pcounter_offset_num code m) in
    let! f := get_stack_at off in
    set_reg reg f
  else if val_is_ptr from then
    let! v := lift (pcounter_ptr code m) in
    set_ptr (val_reg from) v
  else throw (vm_exec_error "invalid move to reg").

Definition move_const_to_field (cid : Z) (num : Z) (field : nat) : exec unit :=
  let! t := get_tuple num in
  let! type := lift (get_field_type (pred t) field) in
  match type with
  | FIELD_INT => let! v := get_const_int cid in update_tuple num (λ t, Tuple.set_int t field v)
  | FIELD_FLOAT => let! v := get_const_float cid in update_tuple num (λ t, Tuple.set_float t field v)
  | FIELD_LIST_INT => let! p := get_const_ptr cid in tuple_set_list num field IntList p
  | FIELD_LIST_FLOAT => let! p := get_const_ptr cid in tuple_set_list num field FloatList p
  | FIELD_NODE => let! v := get_const_node cid in update_tuple num (λ t, Tuple.set_node t field v)
  | FIELD_LIST_NODE | FIELD_STRING | FIELD_UNKNOWN _ =>
      let! name := lift (field_type_string type) in
      throw (vm_exec_error ("don't know how to move to " +:+ name +:+ " field (move_to_field from const)"))
  end.

Definition move_field_to_field (from : tuple) (from_field : nat) (num : Z) (field : nat)
  : exec unit :=
  let! t := get_tuple num in
  let! type := lift (get_field_type (pred t) field) in
  match type with
  | FIELD_INT => let! v := lift (Tuple.get_int from from_field) in update_tuple num (λ t, Tuple.set_int t field v)
  | FIELD_FLOAT => let! v := lift (tuple_float_bits from from_field) in update_tuple num (λ t, Tuple.set_float t field v)
  | FIELD_NODE => let! v := lift (Tuple.get_node from from_field) in update_tuple num (λ t, Tuple.set_node t field v)
  | FIELD_LIST_INT => let! p := lift (Tuple.get_ptr from from_field) in tuple_set_list num field IntList p
  | FIELD_LIST_FLOAT => let! p := lift (Tuple.get_ptr from from_field) in tuple_set_list num field FloatList p
  | FIELD_LIST_NODE => let! p := lift (Tuple.get_ptr from from_field) in tuple_set_list num field NodeList p
  | FIELD_STRING => let! p := lift (Tuple.get_ptr from from_field) in tuple_set_string num field p
  | FIELD_UNKNOWN _ => throw (vm_exec_error "don't know how to move to field (move_to_field)")
  end.

Definition move_reg_to_field (reg : Z) (num : Z) (field : nat) : exec unit :=
  let! t := get_tuple num in
  let! type := lift (get_field_type (pred t) field) in
  match type with
  | FIELD_INT => let! v := get_int reg in update_tuple num (λ t, Tuple.set_int t field v)
  | FIELD_FLOAT => let! v := get_float reg in update_tuple num (λ t, Tuple.set_float t field v)
  | FIELD_NODE => let! v := get_node reg in update_tuple num (λ t, Tuple.set_node t field v)
  | FIELD_LIST_INT => let! p := get_ptr reg in tuple_set_list num field IntList p
  | FIELD_LIST_FLOAT => let! p := get_ptr reg in tuple_set_list num field FloatList p
  | FIELD_LIST_NODE => let! p := get_ptr reg in tuple_set_list num field NodeList p
  | FIELD_STRING => let! p := get_ptr reg in tuple_set_string num field p
  | FIELD_UNKNOWN _ => throw (vm_exec_error "do not know how to move reg to this tuple field")
  end.

(** [m] moves past the source to the field of the destination *)
Definition move_to_field (m : pcounter) (from : instr_val) : exec unit :=
  if val_is_float from then
    let! v := lift (pcounter_float code m) in
    set_field_op (λ t n, Tuple.set_float t n v) (pcounter_move_float m)
  else if val_is_int from then
    let! v := lift (pcounter_int code m) in
    set_field_op (λ t n, Tuple.set_int t n v) (pcounter_move_int m)
  else if val_is_node from then
    let! r := get_node_val m in
    set_field_op (λ t n, Tuple.set_node t n r.1) r.2
  else if val_is_string from then
    let! i := lift (pcounter_uint code m) in
    let m := pcounter_move_uint m in
    let! num := field_reg m in
    let! n := field_num m in
    let! p := get_default_string pr i in
    tuple_set_string num n p
  else if val_is_arg from then
    let! i := lift (pcounter_argument_id code m) in
    let m := pcounter_move_argument_id m in
    let! num := field_reg m in
    let! n := field_num m in
    let! p := get_argument pr i in
    tuple_set_string num n p
  else if val_is_stack from then
    let! off := lift (pcounter_offset_num code m) in
    let! f := get_stack_at off in
    set_field_op (λ t n, Tuple.set_field t n f) (pcounter_move_offset_num m)
  else if val_is_const from then
    let! cid := lift (pcounter_const_id code m) in
    let m := pcounter_move_const_id m in
    let! num := field_reg m in
    let! n := field_num m in
    move_const_to_field cid num n
  else if val_is_field from then
    let! t := field_tuple m in
    let! from_field := field_num m in
    let m := pcounter_move_field m in
    let! num := field_reg m in
    let! n := field_num m in
    move_field_to_field t from_field num n
  else
    let! num := field_reg m in
    let! n := field_num m in
    if val_is_host from then update_tuple num (λ t, Tuple.set_node t n (host pr))
    else if val_is_reg from then move_reg_to_field (val_reg from) num n
    else throw (vm_exec_error "invalid move to field (move_to_field)").

Definition move_to_stack (pc m : pcounter) (from : instr_val) : exec unit :=
  if val_is_pcounter from then
    let! off := lift (pcounter_offset_num code m) in
    let! next := lift (advance code pc) in
    set_stack_at off (λ f, set_ptr_field f next)
  else if val_is_int from then
    let! v := lift (pcounter_int code m) in
    let! off := lift (pcounter_offset_num code (pcounter_move_int m)) in
    set_stack_at off (λ f, set_int_field f v)
  else if val_is_float from then
    let! v := lift (pcounter_float code m) in
    let! off := lift (pcounter_offset_num code (pcounter_move_float m)) in
    set_stack_at off (λ _, v)
  else if val_is_reg from then
    let! off := lift (pcounter_offset_num code m) in
    let! f := get_reg (val_reg from) in
    set_stack_at off (λ _, f)
  else if val_is_const from then
    let! cid := lift (pcounter_const_id code m) in
    let! off := lift (pcounter_offset_num code (pcounter_move_const_id m)) in
    let! f := get_const cid in
    set_stack_at off (λ _, f)
  else throw (vm_exec_error "invalid move to stack (move_to_stack)").

Definition move_to_const (m : pcounter) (from : instr_val) : exec unit :=
  if val_is_float from then
    let! v := lift (pcounter_float code m) in
    let! cid := lift (pcounter_const_id code (pcounter_move_float m)) in
    set_const_float cid v
  else if val_is_int from then
    let! v := lift (pcounter_int code m) in
    let! cid := lift (pcounter_const_id code (pcounter_move_int m)) in
    set_const_int cid v
  else if val_is_reg from then
    let! cid := lift (pcounter_const_id code m) in
    copy_reg2const pr (val_reg from) cid
  else if val_is_node from then
    let! r := get_node_val m in
    let! cid := lift (pcounter_const_id code r.2) in
    set_const_node cid r.1
  else if val_is_string from then
    let! i := lift (pcounter_uint code m) in
    let! p := get_default_string pr i in
    let! cid := lift (pcounter_const_id code (pcounter_move_uint m)) in
    set_const_ptr cid p
  else throw (vm_exec_error "invalid move to const (move_to_const)").

(** the new program counter *)
Definition move_to_pcounter (pm : pcounter) (from : instr_val) : exec pcounter :=
  if val_is_stack from then
    let! off := lift (pcounter_offset_num code pm) in
    let! f := get_stack_at off in
    ret (ptr_field f)
  else if val_is_ptr from then lift (pcounter_ptr code pm)
  else throw (vm_exec_error "invalid move to pcounter (move_to_pcounter)").

Definition execute_move (pc : pcounter) : exec pcounter :=
  let! to := lift (move_to code pc) in
  let! from := lift (move_from code pc) in
  if val_is_reg to then move_to_reg (pc + MOVE_BASE) (val_reg to) from ;! ret pc
  else if val_is_field to then move_to_field (pc + MOVE_BASE) from ;! ret pc
  else if val_is_const to then move_to_const (pc + MOVE_BASE) from ;! ret pc
  else if val_is_stack to then move_to_stack pc (pc + MOVE_BASE) from ;! ret pc
  else if val_is_pcounter to then move_to_pcounter (pc + MOVE_BASE) from
  else throw (vm_exec_error "invalid move target").

Definition execute_move_nil (pc : pcounter) : exec unit :=
  let! dest := lift (move_nil_dest code pc) in
  if val_is_reg dest then set_nil (val_reg dest)
  else if val_is_field dest then
    set_field_op (λ t n, Tuple.set_nil t n) (pc + MOVE_NIL_BASE)
  else throw (vm_exec_error "unsupported destination for move-nil").

(** [new_tuple] of the program at a free address *)
Definition execute_alloc (pc : pcounter) : exec unit :=
  let! i := lift (alloc_predicate code pc) in
  let! p := lift (of_option (predicates pr !! Z.to_nat i)) in
  let! num := lift (alloc_reg code pc) in
  let! a := (λ s, let q : positive := fresh (dom (heap s)) in
                  Ok (Zpos q, set_heap (<[q := new_tuple p]> (heap s)) s)) in
  set_ptr num a.

(** ** Lists and conversions *)

(** [implement_cons] *)
Definition cons_cell (k : list_kind) (h : Z) (ls : list_ptr) : exec list_ptr :=
  λ s, let* r := new_cons (lists (mem s) k) ls (wrap (8 * Z.of_nat (elem_size k)) h) in
       Ok (r.2, set_mem (set_lists (mem s) k r.1) s).

Definition get_op_elem (k : list_kind) : instr_val → pcounter → exec (Z * pcounter) :=
  match k with IntList => get_op_int | FloatList => get_op_float | NodeList => get_op_node end.
Definition set_op_elem (k : list_kind) : pcounter → instr_val → Z → exec unit :=
  match k with
  | IntList => λ m d v, set_op_int m d (swrap 32 v)
  | FloatList => set_op_float
  | NodeList => set_op_node
  end.

(** a list type is one of the three; CONS leaves others alone, HEAD and TAIL throw *)
Definition execute_cons (pc : pcounter) : exec unit :=
  let m := pc + CONS_BASE in
  let! head := lift (cons_head code pc) in
  let! tail := lift (cons_tail code pc) in
  let! dest := lift (cons_dest code pc) in
  let! type := lift (cons_type code pc) in
  match list_kind_of type with
  | Some k =>
      let! r1 := get_op_elem k head m in
      let! r2 := get_op_list k tail r1.2 in
      let! p := cons_cell k r1.1 r2.1 in
      add_list k p ;!
      set_op_list k r2.2 dest p
  | None => ret ()
  end.

Definition execute_test_nil (pc : pcounter) : exec unit :=
  let! op := lift (test_nil_op code pc) in
  let! dest := lift (test_nil_dest code pc) in
  let! r := get_op_ptr op (pc + TEST_NIL_BASE) in
  set_op_bool r.2 dest (r.1 =? 0).

Definition execute_tail (pc : pcounter) : exec unit :=
  let! ls := lift (tail_cons code pc) in
  let! dest := lift (tail_dest code pc) in
  let! type := lift (tail_type code pc) in
  match list_kind_of type with
  | Some k =>
      let! r := get_op_list k ls (pc + TAIL_BASE) in
      let! c := gets (λ s, deref (lists (mem s) k) r.1) in
      set_op_list k r.2 dest (tail c)
  | None => throw (vm_exec_error "unknown list type in tail")
  end.

Definition execute_head (pc : pcounter) : exec unit :=
  let! ls := lift (head_cons code pc) in
  let! dest := lift (head_dest code pc) in
  let! type := lift (head_type code pc) in
  match list_kind_of type with
  | Some k =>
      let! r := get_op_list k ls (pc + HEAD_BASE) in
      let! c := gets (λ s, deref (lists (mem s) k) r.1) in
      set_op_elem k r.2 dest (RuntimeList.head c)
  | None => throw (vm_exec_error "unknown list type in head")
  end.

Definition float_of_int (z : Z) : spec_float := binary_normalize prec emax z 0 false.

Definition execute_float (pc : pcounter) : exec unit :=
  let! op := lift (float_op code pc) in
  let! dest := lift (float_dest code pc) in
  let! r := get_op_int op (pc + FLOAT_BASE) in
  set_op_float r.2 dest (bits_of_float (float_of_int r.1)).

(** code for the node that runs, by a table for the nodes of the file *)
Definition execute_select (pc : pcounter) : exec pcounter :=
  if static_max_id pr <? host pr then
    let! n := lift (select_size code pc) in ret (pc + n)
  else
    let hash_start := select_hash_start pc in
    let! hashed := lift (select_hash code hash_start (host pr)) in
    if hashed =? 0 then let! n := lift (select_size code pc) in ret (pc + n)
    else
      let! size := lift (select_hash_size code pc) in
      ret (select_hash_code hash_start size hashed).

(** ** Matches of ITERATE *)

(** [do_match]: one field of a tuple against one operand; a [const state&] *)
Definition do_match (t : tuple) (field : nat) (val : instr_val) (pc : pcounter)
  : exec (bool * pcounter) :=
  if val_is_reg val then
    let reg := val_reg val in
    let! type := lift (get_field_type (pred t) field) in
    match type with
    | FIELD_INT =>
        let! a := lift (Tuple.get_int t field) in let! b := get_int reg in ret (a =? b, pc)
    | FIELD_FLOAT =>
        let! a := lift (tuple_float_bits t field) in let! b := get_float reg in
        ret (float_test SFeqb a b, pc)
    | FIELD_NODE =>
        let! a := lift (Tuple.get_node t field) in let! b := get_node reg in ret (a =? b, pc)
    | _ => throw (vm_exec_error "matching with non-primitive types in registers is unsupported")
    end
  else if val_is_field val then
    let! t2 := field_tuple pc in
    let! field2 := field_num pc in
    let pc := pcounter_move_field pc in
    let! type := lift (get_field_type (pred t) field) in
    match type with
    | FIELD_INT =>
        let! a := lift (Tuple.get_int t field) in
        let! b := lift (Tuple.get_int t2 field2) in ret (a =? b, pc)
    | FIELD_FLOAT =>
        let! a := lift (tuple_float_bits t field) in
        let! b := lift (tuple_float_bits t2 field2) in ret (float_test SFeqb a b, pc)
    | FIELD_NODE =>
        let! a := lift (Tuple.get_node t field) in
        let! b := lift (Tuple.get_node t2 field2) in ret (a =? b, pc)
    | _ => throw (vm_exec_error "matching with non-primitive types in fields is unsupported")
    end
  else if val_is_nil val then throw (vm_exec_error "match for NIL not implemented")
  else if val_is_host val then
    let! a := lift (Tuple.get_node t field) in ret (a =? host pr, pc)
  else if val_is_int val then
    let! i := lift (pcounter_int code pc) in
    let! a := lift (Tuple.get_int t field) in
    ret (a =? i, pcounter_move_int pc)
  else if val_is_float val then
    let! flt := lift (pcounter_float code pc) in
    let! a := lift (tuple_float_bits t field) in
    ret (float_test SFeqb a flt, pcounter_move_float pc)
  else throw (vm_exec_error "match value in iter is not valid").

(** the loops over the matches: a match has two bytes of the code, so the code
    bounds their number *)
Fixpoint do_matches_loop (fuel : nat) (pc : pcounter) (t : tuple) : exec bool :=
  match fuel with
  | O => throw undefined_behaviour
  | S fuel =>
      let! field := lift (iter_match_field code pc) in
      let! val := lift (iter_match_val code pc) in
      let! r := do_match t (Z.to_nat field) val (pcounter_move_match pc) in
      if r.1 then
        let! stop := lift (iter_match_end code pc) in
        if stop then ret true else do_matches_loop fuel r.2 t
      else ret false
  end.

Definition do_matches (pc : pcounter) (t : tuple) : exec bool :=
  let! none := lift (iter_match_none code pc) in
  if none then ret true else do_matches_loop (S (length code)) pc t.

(** the field of [build_match_object]'s switch *)
Definition build_match_field (type : field_type) (field : nat) (val : instr_val) (pc : pcounter)
    (m : match_) : exec (match_ * pcounter) :=
  match type with
  | FIELD_INT =>
      let! r := get_op_int val pc in
      let! m := lift (match_int field r.1 m) in ret (m, r.2)
  | FIELD_FLOAT =>
      let! r := get_op_float val pc in
      let! m := lift (match_float field (float_of_bits r.1) m) in ret (m, r.2)
  | FIELD_NODE =>
      let! r := get_op_node val pc in
      let! m := lift (match_node field r.1 m) in ret (m, r.2)
  | _ => throw (vm_exec_error "invalid field type for ITERATE")
  end.

Fixpoint build_match_loop (fuel : nat) (p : predicate) (pc : pcounter) (m : match_) : exec match_ :=
  match fuel with
  | O => throw undefined_behaviour
  | S fuel =>
      let! field := lift (iter_match_field code pc) in
      let! val := lift (iter_match_val code pc) in
      let! type := lift (get_field_type p (Z.to_nat field)) in
      let! r := build_match_field type (Z.to_nat field) val (pcounter_move_match pc) m in
      let! stop := lift (iter_match_end code pc) in
      if stop then ret r.1 else build_match_loop fuel p r.2 r.1
  end.

Definition build_match_object (m : match_) (pc : pcounter) (p : predicate) : exec match_ :=
  let! none := lift (iter_match_none code pc) in
  if none then ret m else build_match_loop (S (length code)) p pc m.

(** ** The end of a run *)

(** [x->destroy()] of a list or string without references *)
Definition purge_list (k : list_kind) (p : list_ptr) (me : memory) : res memory :=
  let* c := deref (lists me k) p in
  if refs c =? 0 then
    let* st := dec_refs (lists me k) (tail c) in
    Ok (set_lists me k (match p with Zpos q => delete q st | _ => st end))
  else Ok me.

Definition purge_string (p : Z) (me : memory) : res memory :=
  let* str := deref_string (strings me) p in
  Ok (if string_refs str =? 0 then set_strings me (delete (Z.to_pos p) (strings me)) else me).

Fixpoint purge {A} (f : A → memory → res memory) (xs : list A) (me : memory) : res memory :=
  match xs with
  | [] => Ok me
  | x :: xs => let* me := f x me in purge f xs me
  end.

Definition free_of (k : list_kind) (s : state) : list list_ptr :=
  map snd (filter (λ e, e.1 = k) (free_lists s)).

(** [purge_runtime_objects]: what the run made and nothing refers to *)
Definition purge_runtime_objects : exec unit := modify (λ s,
  let* me := purge (purge_list FloatList) (free_of FloatList s) (mem s) in
  let* me := purge (purge_list IntList) (free_of IntList s) me in
  let* me := purge (purge_list NodeList) (free_of NodeList s) me in
  let* me := purge purge_string (free_rstring s) me in
  Ok (set_free [] [] (set_mem me s))).

End Operands.

(** ** Reading a run *)

Lemma exec_bind_ok {A B} (m : exec A) (k : A → exec B) s b s' :
  exec_bind m k s = Ok (b, s') ↔ ∃ a s1, m s = Ok (a, s1) ∧ k a s1 = Ok (b, s').
Proof.
  unfold exec_bind. rewrite res_bind_ok. split.
  - intros ([a s1] & H1 & H2). by exists a, s1.
  - intros (a & s1 & H1 & H2). by exists (a, s1).
Qed.

Lemma lift_ok {A} (r : res A) s a s' : lift r s = Ok (a, s') ↔ r = Ok a ∧ s' = s.
Proof. unfold lift. rewrite res_bind_ok. naive_solver. Qed.

Lemma gets_ok {A} (f : state → res A) s a s' : gets f s = Ok (a, s') ↔ f s = Ok a ∧ s' = s.
Proof. unfold gets. rewrite res_bind_ok. naive_solver. Qed.

Lemma ret_ok {A} (a : A) s b s' : ret a s = Ok (b, s') ↔ b = a ∧ s' = s.
Proof. unfold ret. naive_solver. Qed.

Lemma modify_ok f s u s' : modify f s = Ok (u, s') ↔ f s = Ok s'.
Proof. unfold modify. rewrite res_bind_ok. destruct u. naive_solver. Qed.

Ltac exec_inv :=
  repeat match goal with
  | H : exec_bind _ _ _ = Ok (_, _) |- _ =>
      apply exec_bind_ok in H; destruct H as (? & ? & ? & ?)
  | H : lift _ _ = Ok (_, _) |- _ => apply lift_ok in H; destruct H as [? ?]
  | H : gets _ _ = Ok (_, _) |- _ => apply gets_ok in H; destruct H as [? ?]
  | H : ret _ _ = Ok (_, _) |- _ => apply ret_ok in H; destruct H as [? ?]
  | H : throw _ _ = Ok _ |- _ => discriminate H
  | H : (_, _) = (_, _) |- _ => apply pair_equal_spec in H; destruct H as [? ?]
  end; subst.

(** a computation that only looks at the state *)
Definition reads {A} (m : exec A) : Prop := ∀ s a s', m s = Ok (a, s') → s' = s.

Lemma reads_bind {A B} (m : exec A) (k : A → exec B) :
  reads m → (∀ a, reads (k a)) → reads (exec_bind m k).
Proof. intros Hm Hk s b s' H. exec_inv. eapply eq_trans; [by eapply Hk | by eapply Hm]. Qed.

Lemma reads_lift {A} (r : res A) : reads (lift r).
Proof. intros s a s' H. by exec_inv. Qed.
Lemma reads_gets {A} (f : state → res A) : reads (gets f).
Proof. intros s a s' H. by exec_inv. Qed.
Lemma reads_ret {A} (a : A) : reads (ret a).
Proof. intros s b s' H. by exec_inv. Qed.
Lemma reads_throw {A} f : reads (@throw A f).
Proof. by intros s b s' H. Qed.
Lemma reads_if {A} (b : bool) (m k : exec A) : reads m → reads k → reads (if b then m else k).
Proof. by destruct b. Qed.

Create HintDb exec.
#[export] Hint Resolve reads_bind reads_lift reads_gets reads_ret reads_throw reads_if : exec.

(** [reads] of a composed computation *)
Ltac solve_reads :=
  repeat first
    [ apply reads_bind; [| intros ?] | apply reads_lift | apply reads_gets | apply reads_ret
    | apply reads_throw | apply reads_if
    | match goal with |- reads (match ?x with _ => _ end) => destruct x end ].

(** ** Operands move the counter by their size *)

Lemma size_of_reg v : val_is_reg v = true → arg_size ARGUMENT_ANYTHING v = Ok reg_size.
Proof.
  intros Hv. unfold arg_size, arg_size_anything, val_is_float, val_is_int, val_is_field, val_is_nil.
  repeat (case_match; [match goal with E : (v =? _) = true |- _ =>
    apply Z.eqb_eq in E; subst; discriminate Hv end |]).
  by rewrite Hv.
Qed.

Definition moves {A} (g : instr_val → pcounter → exec (A * pcounter)) : Prop :=
  ∀ v m s x m' s', g v m s = Ok (x, m', s') → arg_size ARGUMENT_ANYTHING v = Ok (m' - m).

Lemma op_reg_moves {A} (get : Z → exec A) v m s x m' s' :
  op_reg get v m s = Ok (x, m', s') → m' = m.
Proof. unfold op_reg. intros H. by exec_inv. Qed.

Lemma op_field_moves pr {A} (get : tuple → nat → res A) m s x m' s' :
  op_field pr get m s = Ok (x, m', s') → m' = m + field_size.
Proof. unfold op_field. intros H. by exec_inv. Qed.

Lemma op_const_moves pr {A} (get : Z → exec A) m s x m' s' :
  op_const pr get m s = Ok (x, m', s') → m' = m + uint_size.
Proof. unfold op_const. intros H. by exec_inv. Qed.

Lemma get_node_val_moves pr m s x m' s' :
  get_node_val pr m s = Ok (x, m', s') → m' = m + node_size.
Proof.
  unfold get_node_val. intros H. apply exec_bind_ok in H as (n & s1 & _ & H).
  case_match; by exec_inv.
Qed.

Ltac exact_code :=
  match goal with
  | E : val_is_reg ?v = true |- _ => rewrite (size_of_reg v E)
  | E : ?t ?v = true |- _ =>
      unfold t in E; apply Z.eqb_eq in E; subst v;
      change (arg_size ARGUMENT_ANYTHING ?c) with (arg_size_anything c)
  end.

Ltac operand_sizes :=
  unfold arg_size_anything; closed_tests; f_equal;
  unfold pcounter_move_int, pcounter_move_float, pcounter_move_node, pcounter_move_uint,
    pcounter_move_argument_id, field_size, int_size, float_size, node_size, uint_size, string_size,
    argument_size, reg_size, host_size, nil_size; lia.

Ltac operand_moves :=
  repeat match goal with
  | H : (if ?b then _ else _) _ = Ok _ |- _ => destruct b eqn:?
  | H : op_reg _ _ _ _ = Ok _ |- _ => apply op_reg_moves in H
  | H : op_field _ _ _ _ = Ok _ |- _ => apply op_field_moves in H
  | H : op_const _ _ _ _ = Ok _ |- _ => apply op_const_moves in H
  | H : get_node_val _ _ _ = Ok _ |- _ => apply get_node_val_moves in H
  end; exec_inv.

(** every [get_op_function] moves the counter past its operand by the size that
    [advance] counts for it, so an instruction finds its next operand where the
    size computation puts it. *)
Theorem get_op_moves pr k :
  moves (get_op_bool pr) ∧ moves (get_op_int pr) ∧ moves (get_op_float pr) ∧
  moves (get_op_node pr) ∧ moves (get_op_ptr pr) ∧ moves (get_op_list pr k) ∧
  moves (get_op_string pr).
Proof.
  split_and!; intros v m s x m' s' H;
    unfold get_op_bool, get_op_int, get_op_float, get_op_node, get_op_ptr, get_op_string in H;
    try (unfold get_op_list in H; destruct k); operand_moves; exact_code; operand_sizes.
Qed.

(** ** The two ways to match *)

Lemma swrap_swrap z : swrap 32 (swrap 32 z) = swrap 32 z.
Proof. apply swrap_id; [lia |]. apply swrap_range. lia. Qed.

Lemma reads_get_reg n : reads (get_reg n).
Proof. unfold get_reg. solve_reads. Qed.
Lemma reads_get_tuple n : reads (get_tuple n).
Proof. unfold get_tuple, get_ptr. solve_reads. Qed.
#[export] Hint Resolve reads_get_reg reads_get_tuple : exec.

Ltac solve_reads ::=
  repeat first
    [ apply reads_bind; [| intros ?] | apply reads_lift | apply reads_gets | apply reads_ret
    | apply reads_throw | apply reads_if | apply reads_get_reg | apply reads_get_tuple
    | match goal with |- reads (match ?x with _ => _ end) => destruct x end ].

Lemma reads_op_reg {A} (get : Z → exec A) v m : (∀ n, reads (get n)) → reads (op_reg get v m).
Proof. intros H. unfold op_reg. solve_reads. apply H. Qed.
Lemma reads_op_field pr {A} (get : tuple → nat → res A) m : reads (op_field pr get m).
Proof. unfold op_field, field_tuple, field_reg, field_num. solve_reads. Qed.
Lemma reads_op_const pr {A} (get : Z → exec A) m : (∀ n, reads (get n)) → reads (op_const pr get m).
Proof. intros H. unfold op_const. solve_reads. apply H. Qed.

Lemma reads_get_op pr v m :
  reads (get_op_int pr v m) ∧ reads (get_op_float pr v m) ∧ reads (get_op_node pr v m).
Proof.
  unfold get_op_int, get_op_float, get_op_node, get_node_val. split_and!.
  all: repeat first
    [ apply reads_op_field | apply reads_op_reg; intros ? | apply reads_op_const; intros ?
    | progress solve_reads
    | progress unfold get_int, get_float, get_node, get_const_int, get_const_float, get_const_node, get_const ].
Qed.

Lemma reads_do_match pr t field v pc : reads (do_match pr t field v pc).
Proof.
  unfold do_match, field_tuple, field_reg, field_num, get_int, get_float, get_node. solve_reads.
Qed.

Lemma do_match_moves pr t field : moves (do_match pr t field).
Proof.
  intros v m s x m' s' H. unfold do_match in H. operand_moves.
  1-2: repeat match goal with
    | H : (match ?t with _ => _ end) _ = Ok _ |- _ => destruct t
    end; exec_inv.
  all: exact_code; unfold pcounter_move_field; operand_sizes.
Qed.

(** the result of a match against an operand of the type of the field *)
Ltac same_run :=
  repeat match goal with
  | H : ?r = Ok ?a, H' : ?r = Ok ?b |- _ =>
      first [ constr_eq a b; fail 1 | rewrite H in H'; injection H' as H'; subst ]
  end.

(** take apart the two runs on one operand, the type of the field being known *)
Ltac match_runs Ht :=
  unfold op_reg, op_field, op_const, get_int, get_float, get_node, field_tuple, field_reg,
    field_num in *;
  exec_inv; rewrite ?Ht in *;
  repeat match goal with
  | H : Ok _ = Ok _ |- _ => injection H as <-
  end; exec_inv; same_run.

Ltac by_code E v := apply Z.eqb_eq in E; subst v; closed_tests.

Lemma tuple_get_int_swrap t i z : Tuple.get_int t i = Ok z → z = swrap 32 z.
Proof. unfold Tuple.get_int. intros H. res_inv. unfold int_field. by rewrite swrap_swrap. Qed.

Lemma tuple_get_node_wrap t i z : Tuple.get_node t i = Ok z → z = wrap 32 z.
Proof. unfold Tuple.get_node. intros H. res_inv. unfold node_field. by rewrite (wrap_id 32 (wrap 32 _)) by (apply wrap_range; lia). Qed.

Lemma tuple_float_bits_wrap t i z : tuple_float_bits t i = Ok z → z = wrap 64 z.
Proof. unfold tuple_float_bits. intros H. res_inv. by rewrite (wrap_id 64 (wrap 64 _)) by (apply wrap_range; lia). Qed.

Lemma bytes_at_range cd n pc v :
  byte_code_ok cd → bytes_at cd n pc = Ok v → 0 <= v < 2 ^ (8 * Z.of_nat n).
Proof.
  intros Hok. revert pc v. induction n as [|n IH]; intros pc v H; cbn [bytes_at] in H.
  - injection H as <-. cbn. lia.
  - apply res_bind_ok in H as (b & Hb & H). apply res_bind_ok in H as (r & Hr & H).
    injection H as <-. apply byte_at_ok in Hb as [_ Hb]. apply IH in Hr.
    assert (0 <= b < 256) by exact (Forall_lookup_1 _ _ _ _ Hok Hb).
    replace (8 * Z.of_nat (S n)) with (8 + 8 * Z.of_nat n) by lia.
    rewrite Z.pow_add_r by lia. change (2 ^ 8) with 256. lia.
Qed.

(** the two results on an operand of the type of the field: one value, which the
    field is compared with *)
Lemma do_match_int pr t field v m s i m1 s1 b m2 s2 :
  get_field_type (pred t) field = Ok FIELD_INT →
  get_op_int pr v m s = Ok (i, m1, s1) → do_match pr t field v m s = Ok (b, m2, s2) →
  i = swrap 32 i ∧ ∃ a, Tuple.get_int t field = Ok a ∧ b = (a =? i).
Proof.
  intros Ht Hg Hd. unfold get_op_int in Hg. unfold do_match in Hd.
  destruct (val_is_int v) eqn:E.
  { by_code E v. match_runs Ht. unfold pcounter_int in *. res_inv. rewrite swrap_swrap. eauto. }
  destruct (val_is_reg v) eqn:E1.
  { match_runs Ht. unfold int_field. rewrite swrap_swrap. eauto. }
  destruct (val_is_field v) eqn:E2; [match_runs Ht; eauto using tuple_get_int_swrap |].
  destruct (val_is_const v) eqn:E3; [| by exec_inv].
  by_code E3 v. exec_inv.
Qed.

Lemma do_match_node pr t field v m s i m1 s1 b m2 s2 :
  0 <= host pr < 2 ^ 32 → get_field_type (pred t) field = Ok FIELD_NODE →
  get_op_node pr v m s = Ok (i, m1, s1) → do_match pr t field v m s = Ok (b, m2, s2) →
  i = wrap 32 i ∧ ∃ a, Tuple.get_node t field = Ok a ∧ b = (a =? i).
Proof.
  intros Hh Ht Hg Hd. unfold get_op_node in Hg. unfold do_match in Hd.
  destruct (val_is_host v) eqn:E.
  { by_code E v. match_runs Ht. rewrite wrap_id by done. eauto. }
  destruct (val_is_node v) eqn:E0; [by_code E0 v; exec_inv |].
  destruct (val_is_reg v) eqn:E1.
  { match_runs Ht. unfold node_field. rewrite (wrap_id 32 (wrap 32 _)) by (apply wrap_range; lia). eauto. }
  destruct (val_is_field v) eqn:E2; [match_runs Ht; eauto using tuple_get_node_wrap |].
  destruct (val_is_const v) eqn:E3; [| by exec_inv].
  by_code E3 v. exec_inv.
Qed.

Lemma do_match_float pr t field v m s i m1 s1 b m2 s2 :
  byte_code_ok (code pr) → get_field_type (pred t) field = Ok FIELD_FLOAT →
  get_op_float pr v m s = Ok (i, m1, s1) → do_match pr t field v m s = Ok (b, m2, s2) →
  i = wrap 64 i ∧ ∃ a, tuple_float_bits t field = Ok a ∧ b = float_test SFeqb a i.
Proof.
  intros Hc Ht Hg Hd. unfold get_op_float in Hg. unfold do_match in Hd.
  destruct (val_is_float v) eqn:E.
  { by_code E v. match_runs Ht. unfold pcounter_float in *.
    match goal with H : bytes_at _ _ _ = Ok _ |- _ => apply (bytes_at_range _ _ _ _ Hc) in H end.
    rewrite wrap_id by done. eauto. }
  destruct (val_is_reg v) eqn:E1.
  { match_runs Ht. rewrite (wrap_id 64 (wrap 64 _)) by (apply wrap_range; lia). eauto. }
  destruct (val_is_field v) eqn:E2; [match_runs Ht; eauto using tuple_float_bits_wrap |].
  destruct (val_is_const v) eqn:E3; [| by exec_inv].
  by_code E3 v. exec_inv.
Qed.

(** the fields that the matches at [pc] name, in order *)
Fixpoint iter_fields (cd : list byte) (fuel : nat) (pc : pcounter) : res (list nat) :=
  match fuel with
  | O => Err undefined_behaviour
  | S fuel =>
      let* field := iter_match_field cd pc in
      let* v := iter_match_val cd pc in
      let* n := arg_size ARGUMENT_ANYTHING v in
      let* stop := iter_match_end cd pc in
      if stop then Ok [Z.to_nat field]
      else let* fs := iter_fields cd fuel (pc + iter_match_size + n) in Ok (Z.to_nat field :: fs)
  end.

(** the exact fields of a match object agree with the fields of a tuple *)
Definition accepts (mt : match_) (t : tuple) : Prop :=
  ∀ i e g, match_to_stack mt !! i = Some e → fields t !! i = Some g →
    exact e.1 = true → field_match (mtype e.1) g e.2 = true.

Definition fits (field : nat) (m : match_) : Prop :=
  (field < match_size m)%nat ∧ (field < length (vals m))%nat.

Lemma stack_set_exact num t f m i :
  fits num m →
  match_to_stack (set_exact num t f m) !! i =
    if decide (i = num) then Some (mk_match_field true t, f) else match_to_stack m !! i.
Proof.
  intros [H1 H2]. unfold match_to_stack, set_exact, get_type_stack, get_val_stack.
  cbn [types vals]. rewrite <- insert_zip_with. case_decide as Hd.
  - subst. apply list_lookup_insert_eq. rewrite length_zip_with. unfold match_size in H1. lia.
  - by apply list_lookup_insert_ne.
Qed.

Lemma match_any_ok field (set : tuple_field → match_) (m m1 : match_) :
  asserting (field <? match_size m)%nat (let* f := of_option (vals m !! field) in Ok (set f)) = Ok m1 →
  fits field m ∧ ∃ old, m1 = set old.
Proof.
  intros H. apply asserting_ok in H as [Hlt H]. apply res_bind_ok in H as (old & Hold & H).
  apply of_option_ok in Hold. injection H as <-. apply Nat.ltb_lt in Hlt.
  split; [split; [exact Hlt | by eapply lookup_lt_Some] | by exists old].
Qed.

Lemma build_match_field_ok pr type field v pc m s m1 pc1 s1 :
  build_match_field pr type field v pc m s = Ok (m1, pc1, s1) →
  s1 = s ∧ arg_size ARGUMENT_ANYTHING v = Ok (pc1 - pc) ∧ fits field m ∧
  match type with
  | FIELD_INT => ∃ i old, get_op_int pr v pc s = Ok (i, pc1, s) ∧
      m1 = set_exact field FIELD_INT (set_int_field old i) m
  | FIELD_FLOAT => ∃ i old, get_op_float pr v pc s = Ok (i, pc1, s) ∧
      m1 = set_exact field FIELD_FLOAT (set_float_field old (float_of_bits i)) m
  | FIELD_NODE => ∃ i old, get_op_node pr v pc s = Ok (i, pc1, s) ∧
      m1 = set_exact field FIELD_NODE (set_node_field old i) m
  | _ => False
  end.
Proof.
  intros H. unfold build_match_field in H.
  destruct (reads_get_op pr v pc) as (Ri & Rf & Rn).
  destruct (get_op_moves pr IntList) as (_ & Mi & Mf & Mn & _).
  destruct type; try discriminate H; apply exec_bind_ok in H as ([i pc2] & s2 & Hg & H);
    apply exec_bind_ok in H as (m2 & s3 & Hm & H); apply lift_ok in Hm as [Hm ->];
    apply ret_ok in H as [H ->]; cbn [fst snd] in *; apply pair_equal_spec in H as [-> ->];
    apply match_any_ok in Hm as [Hfit [old Hm]].
  - specialize (Mi _ _ _ _ _ _ Hg). apply Ri in Hg as Hs. subst s2. eauto 10.
  - specialize (Mf _ _ _ _ _ _ Hg). apply Rf in Hg as Hs. subst s2. eauto 10.
  - specialize (Mn _ _ _ _ _ _ Hg). apply Rn in Hg as Hs. subst s2. eauto 10.
Qed.

Lemma match_float_value x b :
  b = wrap 64 b → float_field (set_float_field x (float_of_bits b)) = float_of_bits b.
Proof.
  intros Hb. unfold float_field, set_float_field. pose proof (wrap_range 64 b ltac:(lia)) as Hr.
  rewrite <- Hb in Hr. destruct (is_nan_bits b) eqn:E.
  - assert (Hn : float_of_bits b = S754_nan).
    { unfold is_nan_bits in E. destruct (float_of_bits b); try discriminate E. reflexivity. }
    rewrite Hn. vm_compute. reflexivity.
  - rewrite float_bits_roundtrip by done. by rewrite <- Hb.
Qed.

Lemma match_step_agree pr type field v pc m s m1 pc1 s1 t b pc2 s2 :
  byte_code_ok (code pr) → 0 <= host pr < 2 ^ 32 →
  get_field_type (pred t) field = Ok type →
  build_match_field pr type field v pc m s = Ok (m1, pc1, s1) →
  do_match pr t field v pc s = Ok (b, pc2, s2) →
  ∃ f g, m1 = set_exact field type f m ∧ fields t !! field = Some g ∧ b = field_match type g f.
Proof.
  intros Hc Hh Ht Hb Hd. apply build_match_field_ok in Hb as (_ & _ & _ & Hb).
  destruct type; try done; destruct Hb as (i & old & Hg & ->).
  - destruct (do_match_int _ _ _ _ _ _ _ _ _ _ _ _ Ht Hg Hd) as (Hi & a & Ha & ->).
    unfold Tuple.get_int in Ha. apply res_bind_ok in Ha as (g & Hf & Ha). apply of_option_ok in Hf.
    injection Ha as <-. eexists _, g. split; [done |]. split; [done |].
    cbn [field_match]. by rewrite int_field_set, <- Hi.
  - destruct (do_match_float _ _ _ _ _ _ _ _ _ _ _ _ Hc Ht Hg Hd) as (Hi & a & Ha & ->).
    unfold tuple_float_bits in Ha. apply res_bind_ok in Ha as (g & Hf & Ha). apply of_option_ok in Hf.
    injection Ha as <-. eexists _, g. split; [reflexivity |]. split; [exact Hf |].
    cbn [field_match]. rewrite match_float_value by exact Hi. reflexivity.
  - destruct (do_match_node _ _ _ _ _ _ _ _ _ _ _ _ Hh Ht Hg Hd) as (Hi & a & Ha & ->).
    unfold Tuple.get_node in Ha. apply res_bind_ok in Ha as (g & Hf & Ha). apply of_option_ok in Hf.
    injection Ha as <-. eexists _, g. split; [done |]. split; [done |].
    cbn [field_match]. by rewrite node_field_set, <- Hi.
Qed.

(** one round of the loops *)
Lemma build_match_round pr p fuel pc m s m' s' :
  build_match_loop pr (S fuel) p pc m s = Ok (m', s') →
  ∃ field v type m1 pc1 stop,
    iter_match_field (code pr) pc = Ok field ∧ iter_match_val (code pr) pc = Ok v ∧
    get_field_type p (Z.to_nat field) = Ok type ∧ iter_match_end (code pr) pc = Ok stop ∧
    build_match_field pr type (Z.to_nat field) v (pcounter_move_match pc) m s = Ok (m1, pc1, s) ∧
    if stop : bool then m' = m1 ∧ s' = s else build_match_loop pr fuel p pc1 m1 s = Ok (m', s').
Proof.
  cbn [build_match_loop]. intros H.
  apply exec_bind_ok in H as (field & s1 & Hfi & H). apply lift_ok in Hfi as [Hfi ->].
  apply exec_bind_ok in H as (v & s1 & Hv & H). apply lift_ok in Hv as [Hv ->].
  apply exec_bind_ok in H as (type & s1 & Hty & H). apply lift_ok in Hty as [Hty ->].
  apply exec_bind_ok in H as ([m1 pc1] & s1 & Hb & H).
  pose proof (build_match_field_ok _ _ _ _ _ _ _ _ _ _ Hb) as (-> & _).
  apply exec_bind_ok in H as (stop & s1 & Hst & H). apply lift_ok in Hst as [Hst ->].
  exists field, v, type, m1, pc1, stop. do 5 (split; [done |]).
  destruct stop; [by apply ret_ok in H | done].
Qed.

Lemma do_matches_round pr t fuel pc s b s' :
  do_matches_loop pr (S fuel) pc t s = Ok (b, s') →
  ∃ field v b1 pc1,
    iter_match_field (code pr) pc = Ok field ∧ iter_match_val (code pr) pc = Ok v ∧
    do_match pr t (Z.to_nat field) v (pcounter_move_match pc) s = Ok (b1, pc1, s) ∧
    if b1 : bool then
      ∃ stop, iter_match_end (code pr) pc = Ok stop ∧
        if stop : bool then b = true ∧ s' = s else do_matches_loop pr fuel pc1 t s = Ok (b, s')
    else b = false ∧ s' = s.
Proof.
  cbn [do_matches_loop]. intros H.
  apply exec_bind_ok in H as (field & s1 & Hfi & H). apply lift_ok in Hfi as [Hfi ->].
  apply exec_bind_ok in H as (v & s1 & Hv & H). apply lift_ok in Hv as [Hv ->].
  apply exec_bind_ok in H as ([b1 pc1] & s1 & Hd & H).
  pose proof (reads_do_match _ _ _ _ _ _ _ _ Hd) as ->.
  exists field, v, b1, pc1. do 3 (split; [done |]). cbn [fst snd] in H.
  destruct b1; [| by apply ret_ok in H].
  apply exec_bind_ok in H as (stop & s1 & Hst & H). apply lift_ok in Hst as [Hst ->].
  exists stop. split; [done |]. destruct stop; [by apply ret_ok in H | done].
Qed.

Lemma iter_fields_round cd k pc field v n stop fs pc1 :
  iter_fields cd (S k) pc = Ok fs → iter_match_field cd pc = Ok field →
  iter_match_val cd pc = Ok v → arg_size ARGUMENT_ANYTHING v = Ok n →
  iter_match_end cd pc = Ok stop → n = pc1 - pcounter_move_match pc →
  ∃ fs', fs = Z.to_nat field :: fs' ∧
    if stop : bool then fs' = [] else iter_fields cd k pc1 = Ok fs'.
Proof.
  cbn [iter_fields]. intros H Hf Hv Hn Hst ->. rewrite Hf, Hv in H. cbn [res_bind] in H.
  rewrite Hn, Hst in H. cbn [res_bind] in H. destruct stop.
  - injection H as <-. by exists [].
  - replace (pc + iter_match_size + (pc1 - pcounter_move_match pc)) with pc1 in H
      by (unfold pcounter_move_match; lia).
    apply res_bind_ok in H as (fs' & Hr & H). injection H as <-. by exists fs'.
Qed.

(** fields the matches do not name keep their entries *)
Lemma build_match_loop_ok pr p fuel : ∀ k pc m s m' s' fs,
  iter_fields (code pr) k pc = Ok fs → build_match_loop pr fuel p pc m s = Ok (m', s') →
  s' = s ∧ ∀ i, i ∉ fs → match_to_stack m' !! i = match_to_stack m !! i.
Proof.
  induction fuel as [|fuel IH]; intros k pc m s m' s' fs Hf H; [by exec_inv |].
  destruct k as [|k]; [discriminate Hf |].
  apply build_match_round in H as (field & v & type & m1 & pc1 & stop & Hfi & Hv & _ & Hst & Hb & H).
  apply build_match_field_ok in Hb as (_ & Hn & Hfit & Hm).
  destruct (iter_fields_round _ _ _ _ _ _ _ _ pc1 Hf Hfi Hv Hn Hst eq_refl) as (fs' & -> & Hfs).
  assert (Hone : ∀ i, i ≠ Z.to_nat field → match_to_stack m1 !! i = match_to_stack m !! i).
  { intros i Hi. destruct type; try contradiction; destruct Hm as (? & ? & _ & ->);
      (rewrite stack_set_exact by exact Hfit); (rewrite decide_False by exact Hi); reflexivity. }
  destruct stop.
  - destruct H as [-> ->]. split; [done |]. intros i [Hi _]%not_elem_of_cons. by apply Hone.
  - destruct (IH _ _ _ _ _ _ _ Hfs H) as [-> Hrest]. split; [done |].
    intros i [Hi Hin]%not_elem_of_cons. rewrite Hrest by exact Hin. by apply Hone.
Qed.

Lemma accepts_set_exact num type f g m t :
  fits num m → fields t !! num = Some g →
  (∀ e, match_to_stack m !! num = Some e → exact e.1 = false) →
  accepts (set_exact num type f m) t ↔ field_match type g f = true ∧ accepts m t.
Proof.
  intros Hfit Hg Hany. unfold accepts. split.
  - intros H. split.
    + apply (H num (mk_match_field true type, f) g); [| done | done].
      by rewrite stack_set_exact, decide_True.
    + intros i e g' He Hg' Hex. destruct (decide (i = num)) as [-> |Hne].
      { by rewrite (Hany e He) in Hex. }
      apply (H i e g'); [| done | done]. by rewrite stack_set_exact, decide_False.
  - intros [Hm H] i e g' He Hg' Hex. rewrite stack_set_exact in He by done. case_decide as Hd.
    + subst. injection He as <-. rewrite Hg in Hg'. injection Hg' as <-. exact Hm.
    + by apply (H i e g').
Qed.

(** both loops from the same place: the match object accepts a tuple when the test
    of its fields succeeds *)
Lemma do_matches_loop_ok pr t : byte_code_ok (code pr) → 0 <= host pr < 2 ^ 32 →
  ∀ fuel f1 k pc m s m' s' b s'' fs,
  iter_fields (code pr) k pc = Ok fs → NoDup fs →
  (∀ i e, i ∈ fs → match_to_stack m !! i = Some e → exact e.1 = false) →
  build_match_loop pr f1 (pred t) pc m s = Ok (m', s') →
  do_matches_loop pr fuel pc t s = Ok (b, s'') →
  s'' = s ∧ (accepts m' t ↔ b = true ∧ accepts m t).
Proof.
  intros Hc Hh. induction fuel as [|fuel IH]; intros f1 k pc m s m' s' b s'' fs Hf Hnd Hany Hb H;
    [by exec_inv |].
  destruct k as [|k]; [discriminate Hf |]. destruct f1 as [|f1]; [by exec_inv |].
  apply build_match_round in Hb as (field & v & type & m1 & pc1 & stop & Hfi & Hv & Hty & Hst & Hbm & Hb).
  apply do_matches_round in H as (field' & v' & b1 & pc2 & Hfi' & Hv' & Hd & H).
  rewrite Hfi in Hfi'. injection Hfi' as <-. rewrite Hv in Hv'. injection Hv' as <-.
  pose proof (build_match_field_ok _ _ _ _ _ _ _ _ _ _ Hbm) as (_ & Hn & Hfit & _).
  pose proof (do_match_moves _ _ _ _ _ _ _ _ _ Hd) as Hn2. rewrite Hn in Hn2.
  assert (pc2 = pc1) as -> by (injection Hn2; unfold pcounter_move_match; lia).
  destruct (match_step_agree _ _ _ _ _ _ _ _ _ _ _ _ _ _ Hc Hh Hty Hbm Hd) as (f & g & -> & Hg & ->).
  destruct (iter_fields_round _ _ _ _ _ _ _ _ pc1 Hf Hfi Hv Hn Hst eq_refl) as (fs' & -> & Hfs).
  apply NoDup_cons in Hnd as [Hnin Hnd].
  assert (Hacc : accepts (set_exact (Z.to_nat field) type f m) t ↔
    field_match type g f = true ∧ accepts m t).
  { apply accepts_set_exact; [done | done |]. intros e He. apply (Hany (Z.to_nat field)); [by left | done]. }
  destruct (field_match type g f) eqn:Hfm.
  - destruct H as (stop' & Hst' & H). rewrite Hst in Hst'. injection Hst' as <-. destruct stop.
    + destruct Hb as [-> ->], H as [-> ->]. done.
    + destruct (λ Hn, IH _ _ _ _ _ _ _ _ _ _ Hfs Hnd Hn Hb H) as [-> Hiff].
      { intros i e Hi He. rewrite stack_set_exact, decide_False in He by (done || by intros ->).
        apply (Hany i); [by right | done]. }
      split; [done |]. rewrite Hiff, Hacc. tauto.
  - destruct H as [-> ->]. split; [done |]. split; [| by intros [? _]]. intros Ha.
    cut (match_to_stack m' !! Z.to_nat field = Some (mk_match_field true type, f)).
    { intros He. specialize (Ha _ _ _ He Hg eq_refl). cbn in Ha. congruence. }
    destruct stop; [destruct Hb as [-> _] |
      destruct (build_match_loop_ok _ _ _ _ _ _ _ _ _ _ Hfs Hb) as [_ Hkeep]; rewrite Hkeep by done];
      by rewrite stack_set_exact, decide_True.
Qed.

Lemma new_match_entries p i e : match_to_stack (new_match p) !! i = Some e → exact e.1 = false.
Proof.
  unfold match_to_stack, new_match, get_type_stack, get_val_stack, set_any_all. cbn [types vals].
  intros H. apply lookup_zip_with_Some in H as (x & y & -> & Hx & _).
  apply list_elem_of_lookup_2, list_elem_of_In, in_map_iff in Hx as (t & <- & _). reflexivity.
Qed.

Lemma scalar_value m type g v :
  denotes m type g v → value_ok v = true → list_kind_of type = None →
  value_tokens v = [canon type g] ∧ data_ok type g = true.
Proof.
  intros Hd Hok Hk. destruct Hd as [g | g | g | type k g l Hk' _]; [by split | | by split | congruence].
  split; [reflexivity | exact Hok].
Qed.

(** agreement of an exact field with a value is equality with the field it stands for *)
Lemma agrees_field m type e g v :
  denotes m type g v → value_ok v = true → match_field_ok e type →
  agrees e v ↔ (exact e.1 = true → field_match (mtype e.1) g e.2 = true).
Proof.
  intros Hd Hok [Ht Hex]. unfold agrees. rewrite Ht.
  split; intros H He; specialize (H He); destruct (Hex He) as [Hk Hdata];
    destruct (scalar_value m type g v Hd Hok Hk) as [Htok Hg].
  - apply (field_match_canon id id id _ _ _ Hg Hdata). rewrite Htok in H. by injection H.
  - rewrite Htok. f_equal. by apply (field_match_canon id id id _ _ _ Hg Hdata).
Qed.

Lemma accepts_agrees m mt t vs :
  tuple_denotes m t vs → forallb value_ok vs = true →
  match_stack_ok (match_to_stack mt) (pred_types (pred t)) →
  accepts mt t ↔ Forall2 agrees (match_to_stack mt) vs.
Proof.
  unfold tuple_denotes, match_stack_ok, accepts. generalize (match_to_stack mt) as es.
  intros es Hd Hok Hst. revert es Hst.
  induction Hd as [|type g v types gs vs Hd _ IH]; intros es Hst;
    inversion Hst as [|e ? es' ? He Hst']; subst.
  - split; [constructor | by intros _ [|i] e' g' ?].
  - cbn [forallb] in Hok. apply andb_true_iff in Hok as [Hv Hok]. rewrite Forall2_cons.
    rewrite (agrees_field m type e g v Hd Hv He), <- (IH Hok es' Hst'). split.
    + intros H. split; [intros Hex; by apply (H 0%nat e g) |].
      intros i e' g' Hi. by apply (H (S i) e' g').
    + intros [H0 H] [|i] e' g' Hi Hg Hex; [| by apply (H i e' g')].
      injection Hi as <-. injection Hg as <-. by apply H0.
Qed.

(** C37: the two ways to match agree where both return.  The matches of an ITERATE name
    different fields; [build_match_object] returns a match object, with exact fields only
    of types that the trie can compare and with values of those types; and [do_matches],
    the test for tuples outside of the trie, returns on a tuple.  Then neither changes
    the state, and the test succeeds exactly if the values of the tuple agree with the
    match object.  Where the test throws ([do_match] knows fewer operands than
    [build_match_object]) nothing is said. *)
Theorem do_matches_agrees pr pc t vs s mt s1 b s2 fs :
  byte_code_ok (code pr) → 0 <= host pr < 2 ^ 32 →
  tuple_denotes (mem s) t vs → forallb value_ok vs = true →
  iter_fields (code pr) (S (length (code pr))) pc = Ok fs → NoDup fs →
  build_match_object pr (new_match (pred t)) pc (pred t) s = Ok (mt, s1) →
  do_matches pr pc t s = Ok (b, s2) →
  match_stack_ok (match_to_stack mt) (pred_types (pred t)) →
  s1 = s ∧ s2 = s ∧ (b = true ↔ Forall2 agrees (match_to_stack mt) vs).
Proof.
  intros Hc Hh Hd Hok Hfs Hnd Hb Hm Hst. rewrite <- (accepts_agrees _ _ _ _ Hd Hok Hst).
  unfold build_match_object in Hb. unfold do_matches in Hm.
  apply exec_bind_ok in Hb as (none & s0 & Hn & Hb). apply lift_ok in Hn as [Hn ->].
  apply exec_bind_ok in Hm as (none' & s0 & Hn' & Hm). apply lift_ok in Hn' as [Hn' ->].
  rewrite Hn in Hn'. injection Hn' as <-.
  assert (Hnew : accepts (new_match (pred t)) t).
  { intros i e g He _ Hex. by rewrite (new_match_entries _ _ _ He) in Hex. }
  destruct none.
  - apply ret_ok in Hb as [-> ->], Hm as [-> ->]. done.
  - destruct (build_match_loop_ok _ _ _ _ _ _ _ _ _ _ Hfs Hb) as [-> _].
    destruct (λ Ha, do_matches_loop_ok pr t Hc Hh _ _ _ _ _ _ _ _ _ _ _ Hfs Hnd Ha Hb Hm) as [-> Hiff].
    { intros i e _. apply new_match_entries. }
    split; [done |]. split; [done |]. rewrite Hiff. tauto.
Qed.

(** ** Moves to registers *)

(** a computation that writes no register but [r] *)
Definition writes (r : nat) {A} (m : exec A) : Prop :=
  ∀ s a s', m s = Ok (a, s') → ∀ i, i ≠ r → regs s' !! i = regs s !! i.

Lemma writes_reads r {A} (m : exec A) : reads m → writes r m.
Proof. intros Hm s a s' H i _. by rewrite (Hm _ _ _ H). Qed.

Lemma writes_bind r {A B} (m : exec A) (k : A → exec B) :
  writes r m → (∀ a, writes r (k a)) → writes r (exec_bind m k).
Proof.
  intros Hm Hk s b s' H i Hi. apply exec_bind_ok in H as (a & s1 & H1 & H2).
  by rewrite (Hk _ _ _ _ H2 i Hi), (Hm _ _ _ H1 i Hi).
Qed.

Lemma writes_set_reg (num : Z) f : writes (Z.to_nat num) (set_reg num f).
Proof.
  intros s u s' H i Hi. unfold set_reg in H. apply modify_ok in H. res_inv. cbn [regs set_regs].
  by rewrite list_lookup_insert_ne by congruence.
Qed.

Lemma writes_set_int num v : writes (Z.to_nat num) (set_int num v).
Proof. apply writes_bind; [apply writes_reads, reads_get_reg | intros; apply writes_set_reg]. Qed.
Lemma writes_set_node num v : writes (Z.to_nat num) (set_node num v).
Proof. apply writes_bind; [apply writes_reads, reads_get_reg | intros; apply writes_set_reg]. Qed.

Lemma writes_set_leaf r num leaf : writes r (set_leaf num leaf).
Proof. intros s u s' H i _. unfold set_leaf in H. apply modify_ok in H. by res_inv. Qed.
Lemma writes_set_tuple_queue r num stpl : writes r (set_tuple_queue num stpl).
Proof. intros s u s' H i _. unfold set_tuple_queue in H. apply modify_ok in H. by res_inv. Qed.

Ltac solve_writes :=
  repeat first
    [ apply writes_set_int | apply writes_set_node | apply writes_set_reg | apply writes_set_leaf
    | apply writes_set_tuple_queue
    | apply writes_bind; [| intros ?]
    | apply writes_reads; solve [solve_reads]
    | match goal with |- writes _ (match ?x with _ => _ end) => destruct x end ].

(** MOVE to a register writes the register it names and no other, except with a
    pointer constant as its source: [move_to_reg] then writes register 11, the
    code of that operand, whatever register the instruction names. *)
Theorem move_to_reg_writes pr m reg from s s' :
  move_to_reg pr m reg from s = Ok ((), s') →
  (val_is_ptr from = false → ∀ i, i ≠ Z.to_nat reg → regs s' !! i = regs s !! i) ∧
  (val_is_ptr from = true → ∃ v, pcounter_ptr (code pr) m = Ok v ∧
     regs s' !! 11%nat = Some (wrap 64 v) ∧ ∀ i, i ≠ 11%nat → regs s' !! i = regs s !! i).
Proof.
  intros H. split; intros Hp.
  - cut (writes (Z.to_nat reg) (move_to_reg pr m reg from)); [intros Hw; by apply (Hw s () s' H) |].
    unfold move_to_reg, field_num, field_tuple, field_reg, get_node_val_const, move_field_to_reg,
      copy_reg, get_stack_at, set_float, set_ptr. rewrite Hp. solve_writes.
  - by_code Hp from. unfold move_to_reg in H. closed_tests.
    apply exec_bind_ok in H as (v & s1 & Hv & H). apply lift_ok in Hv as [Hv ->].
    exists v. split; [done |]. unfold set_ptr in H. change (val_reg VAL_PTR) with 11 in H.
    split; [| exact (writes_set_reg 11 _ s () s' H)].
    unfold set_reg in H. apply modify_ok in H. res_inv. cbn [regs set_regs]. change (Z.to_nat 11) with 11%nat in *.
    rewrite list_lookup_insert_eq by (by eapply lookup_lt_Some). done.
Qed.

(** ** On concrete code *)

Definition sample_program (cd : list byte) : program := mk_program cd 0 1 1 [] [] [] [sample_pred] [].

Definition sample_state : state :=
  mk_state (replicate NUM_REGS 0) [] (replicate MAX_CONSTS 0) sample_memory ∅ 0 0 0
    (replicate NUM_REGS false) (replicate NUM_REGS 0) (replicate NUM_REGS 0) [] [].

(** the first field is 3, and no more *)
Definition match_code : list byte := [0; 0x41; 3; 0; 0; 0].

Definition match_object : match_ :=
  match build_match_object (sample_program match_code) (new_match sample_pred) 0 sample_pred sample_state with
  | Ok (m, _) => m
  | Err _ => new_match sample_pred
  end.

Lemma do_matches_agrees_witness :
  do_matches (sample_program match_code) 0 sample_tuple sample_state = Ok (true, sample_state) ∧
  Forall2 agrees (match_to_stack match_object) [VInt 3; VList NodeList [5; 6]].
Proof.
  destruct (do_matches_agrees (sample_program match_code) 0 sample_tuple
    [VInt 3; VList NodeList [5; 6]] sample_state match_object sample_state true sample_state [0%nat])
    as (_ & _ & Hiff).
  - repeat constructor; discriminate.
  - split; [discriminate | reflexivity].
  - exact sample_tuple_denotes.
  - reflexivity.
  - vm_compute. reflexivity.
  - repeat constructor. apply not_elem_of_nil.
  - vm_compute. reflexivity.
  - vm_compute. reflexivity.
  - constructor; [split; [done | by split] |]. constructor; [split; [done | discriminate] |]. constructor.
  - split; [vm_compute; reflexivity | exact (proj1 Hiff eq_refl)].
Defined.

(** a pointer for register 3 *)
Definition pointer_code : list byte := [7; 0; 0; 0; 0; 0; 0; 0].

Definition moved_state : state := set_regs (<[11%nat := 7]> (replicate NUM_REGS 0)) sample_state.

Lemma move_to_reg_writes_witness :
  move_to_reg (sample_program pointer_code) 0 3 VAL_PTR sample_state = Ok ((), moved_state) ∧
  regs moved_state !! 3%nat = Some 0.
Proof.
  assert (H : move_to_reg (sample_program pointer_code) 0 3 VAL_PTR sample_state = Ok ((), moved_state))
    by (vm_compute; reflexivity).
  split; [exact H |].
  destruct (proj2 (move_to_reg_writes (sample_program pointer_code) 0 3 VAL_PTR sample_state moved_state H)
    eq_refl) as (v & _ & _ & Hframe).
  rewrite (Hframe 3%nat) by discriminate. reflexivity.
Defined.
