(* ===== verification/LinearQueue.v ===== *)
(** Linear queues: [queue/unsafe_linear_queue.hpp], [queue/simple_linear_pqueue.hpp]
    and the lock-free [push_safe_linear_queue] of [queue/safe_linear_queue.hpp], as
    linked nodes in a store. *)

From Stdlib Require Import ZArith Lia Bool.
From stdpp Require Import base tactics list numbers option gmap relations.
From S2P Require Import Prelude.

#[local] Open Scope Z_scope.

(** ** Linked nodes: [queue/node.hpp] *)

Record qnode (T : Type) : Type := mk_qnode { qdata : T; qnext : option positive }.
Arguments mk_qnode {T} qdata qnext.
Arguments qdata {T}. Arguments qnext {T}.

Abbreviation qstore T := (gmap positive (qnode T)).

Definition set_next {T} (nx : option positive) (n : qnode T) : qnode T := mk_qnode (qdata n) nx.

(** the cells from [p] to [q], each with its address *)
Fixpoint seg {T} (ns : qstore T) (p : option positive) (cs : list (positive * T))
    (q : option positive) : Prop :=
  match cs with
  | [] => p = q
  | (a, x) :: cs => p = Some a ∧ ∃ nx, ns !! a = Some (mk_qnode x nx) ∧ seg ns nx cs q
  end.

Section Segments.
Context {T : Type}.
Implicit Types (ns : qstore T) (cs : list (positive * T)).

Lemma seg_app ns p cs1 cs2 q :
  seg ns p (cs1 ++ cs2) q ↔ ∃ r, seg ns p cs1 r ∧ seg ns r cs2 q.
Proof.
  revert p. induction cs1 as [|[a x] cs1 IH]; intros p; cbn; [naive_solver|].
  setoid_rewrite IH. naive_solver.
Qed.

Lemma seg_insert ns p cs q a n : a ∉ cs.*1 → seg ns p cs q → seg (<[a := n]> ns) p cs q.
Proof.
  revert p. induction cs as [|[b x] cs IH]; intros p; cbn; [done|].
  intros Hni (-> & nx & Hb & Hs). apply not_elem_of_cons in Hni as [Hne Hni].
  split; [done|]. exists nx. split; [by rewrite lookup_insert_ne by done|]. by apply IH.
Qed.

Lemma seg_delete ns p cs q a : a ∉ cs.*1 → seg ns p cs q → seg (delete a ns) p cs q.
Proof.
  revert p. induction cs as [|[b x] cs IH]; intros p; cbn; [done|].
  intros Hni (-> & nx & Hb & Hs). apply not_elem_of_cons in Hni as [Hne Hni].
  split; [done|]. exists nx. split; [by rewrite lookup_delete_ne by done|]. by apply IH.
Qed.

Lemma seg_dom ns p cs q a : seg ns p cs q → a ∈ cs.*1 → is_Some (ns !! a).
Proof.
  revert p. induction cs as [|[b x] cs IH]; intros p; cbn; [by intros _ ?%elem_of_nil|].
  intros (-> & nx & Hb & Hs) [->|Hin]%elem_of_cons; [by eexists|]. by eapply IH.
Qed.

(** a cell hung after the last one *)
Lemma seg_snoc ns p cs l x q a y :
  NoDup (cs ++ [(l, x)]).*1 → a ∉ (cs ++ [(l, x)]).*1 →
  seg ns p (cs ++ [(l, x)]) q →
  ns !! a = Some (mk_qnode y None) →
  seg (<[l := mk_qnode x (Some a)]> ns) p (cs ++ [(l, x); (a, y)]) None.
Proof.
  intros Hnd Hni Hs Ha. apply seg_app in Hs as (r & Hs & Hl). cbn in Hl.
  destruct Hl as (-> & nx & Hl & <-).
  rewrite fmap_app in Hnd, Hni. cbn in Hnd, Hni.
  apply NoDup_app in Hnd as (_ & Hnl & _). apply not_elem_of_app in Hni as [_ Hni].
  apply seg_app. exists (Some l). split.
  - apply seg_insert; [|done]. intros Hin. by eapply Hnl, list_elem_of_singleton.
  - cbn. split; [done|]. exists (Some a). rewrite lookup_insert_eq. split; [done|].
    split; [done|]. exists None. split; [|done].
    rewrite lookup_insert_ne; [done|]. intros ->. by apply Hni, list_elem_of_singleton.
Qed.

End Segments.

(** ** [unsafe_linear_queue] and [unsafe_linear_queue_count] *)

(** The two differ in the type of [total] only. *)
Record linear_queue (T : Type) : Type := mk_linear_queue {
  qhead : option positive;
  qtail : option positive;
  qnodes : qstore T;
  total : Z
}.
Arguments mk_linear_queue {T} qhead qtail qnodes total.
Arguments qhead {T}. Arguments qtail {T}. Arguments qnodes {T}. Arguments total {T}.

Section Linear.
Context {T : Type}.
Implicit Type q : linear_queue T.

Definition new_linear_queue : linear_queue T := mk_linear_queue None None ∅ 0.

Definition linear_empty (q : linear_queue T) : bool :=
  match qhead q with None => true | Some _ => false end.
Definition linear_size (q : linear_queue T) : Z := total q.

(** [clear] forgets the nodes *)
Definition linear_clear (q : linear_queue T) : linear_queue T :=
  mk_linear_queue None None (qnodes q) 0.

Definition linear_push (el : T) (q : linear_queue T) : res (linear_queue T) :=
  let a := fresh (dom (qnodes q)) in
  let ns := <[a := mk_qnode el None]> (qnodes q) in
  let n := wrap 64 (total q + 1) in
  match qhead q with
  | None => asserting (match qtail q with None => true | _ => false end)
              (Ok (mk_linear_queue (Some a) (Some a) ns n))
  | Some h =>
      let* t := of_option (qtail q) in
      let* last := of_option (ns !! t) in
      Ok (mk_linear_queue (Some h) (Some a) (<[t := set_next (Some a) last]> ns) n)
  end.

(** [take] is removed; the asserts are [head != take] and [take->next == head] *)
Definition linear_pop (q : linear_queue T) : res (T * linear_queue T) :=
  match qhead q with
  | None => Err assert_fail
  | Some take =>
      let* n := of_option (qnodes q !! take) in
      let '(h, t) := if decide (qhead q = qtail q) then (None, None) else (qnext n, qtail q) in
      asserting (bool_decide (h ≠ Some take) && bool_decide (qnext n = h))
        (Ok (qdata n, mk_linear_queue h t (delete take (qnodes q)) (wrap 64 (total q - 1))))
  end.

Definition linear_top (q : linear_queue T) : res T :=
  match qhead q with
  | None => Err assert_fail
  | Some h => let* n := of_option (qnodes q !! h) in Ok (qdata n)
  end.

(** [pop_list] appends to [vec]; at most one round per node *)
Fixpoint pop_list_loop (fuel : nat) (h : option positive) (ns : qstore T) (vec : list T)
  : res (qstore T * list T) :=
  match h with
  | None => Ok (ns, vec)
  | Some a =>
      match fuel with
      | O => Err undefined_behaviour
      | S fuel =>
          let* n := of_option (ns !! a) in
          pop_list_loop fuel (qnext n) (delete a ns) (vec ++ [qdata n])
      end
  end.

Definition linear_pop_list (q : linear_queue T) (vec : list T) : res (linear_queue T * list T) :=
  let* r := pop_list_loop (base.size (qnodes q)) (qhead q) (qnodes q) vec in
  Ok (mk_linear_queue None None r.1 0, r.2).

(** [begin] to [end] of the iterator *)
Fixpoint iterate (fuel : nat) (ns : qstore T) (p : option positive) : res (list T) :=
  match p with
  | None => Ok []
  | Some a =>
      match fuel with
      | O => Err undefined_behaviour
      | S fuel =>
          let* n := of_option (ns !! a) in
          let* xs := iterate fuel ns (qnext n) in
          Ok (qdata n :: xs)
      end
  end.

Definition linear_elements (q : linear_queue T) : res (list T) :=
  iterate (base.size (qnodes q)) (qnodes q) (qhead q).

(** the cells of a queue: the tail is the last one *)
Definition last_address (cs : list (positive * T)) : option positive := last cs.*1.

(** [q] holds [l], from the head *)
Definition linear_rep (q : linear_queue T) (l : list T) : Prop :=
  ∃ cs, seg (qnodes q) (qhead q) cs None ∧ NoDup cs.*1 ∧ cs.*2 = l ∧
        qtail q = last_address cs ∧ (base.size (qnodes q) >= length cs)%nat ∧
        total q = wrap 64 (Z.of_nat (length l)).

Lemma linear_rep_new : linear_rep new_linear_queue [].
Proof. exists []. repeat split; [constructor|cbn; lia]. Qed.

Lemma wrap_succ n : wrap 64 (wrap 64 (Z.of_nat n) + 1) = wrap 64 (Z.of_nat (S n)).
Proof. unfold wrap. rewrite Zplus_mod_idemp_l. f_equal. lia. Qed.

Lemma wrap_pred n : wrap 64 (wrap 64 (Z.of_nat (S n)) - 1) = wrap 64 (Z.of_nat n).
Proof. unfold wrap. rewrite Zminus_mod_idemp_l. f_equal. lia. Qed.

Lemma linear_empty_rep q l : linear_rep q l → linear_empty q = true ↔ l = [].
Proof.
  intros (cs & Hs & _ & <- & _). unfold linear_empty.
  destruct cs as [|[a x] cs]; cbn in Hs.
  - by rewrite Hs.
  - destruct Hs as [-> _]. done.
Qed.

Lemma linear_push_rep q l el :
  linear_rep q l → ∃ q', linear_push el q = Ok q' ∧ linear_rep q' (l ++ [el]).
Proof.
  intros (cs & Hs & Hnd & <- & Ht & Hsz & Htot). unfold linear_push.
  set (a := fresh (dom (qnodes q))).
  assert (Ha : qnodes q !! a = None) by apply not_elem_of_dom, is_fresh.
  assert (Hni : a ∉ cs.*1) by (intros Hin; eapply seg_dom in Hin as [? ?]; [|done]; congruence).
  destruct cs as [|[b y] cs' _] using rev_ind.
  - cbn in Hs, Ht. rewrite Hs, Ht. cbn. eexists. split; [done|]. exists [(a, el)]. cbn.
    rewrite lookup_insert_eq. repeat split; eauto using NoDup_singleton.
    + rewrite map_size_insert_None by done. lia.
    + by rewrite Htot.
  - unfold last_address in Ht. rewrite fmap_app in Ht. cbn [fmap list_fmap fst] in Ht. rewrite last_snoc in Ht. rewrite Ht.
    assert (Hh : ∃ h, qhead q = Some h).
    { destruct cs' as [|[c z] cs']; cbn in Hs; destruct Hs as [-> _]; eauto. }
    destruct Hh as [h Hh]. rewrite Hh.
    pose proof Hs as Hb. apply seg_app in Hb as (r & _ & -> & nx & Hb & ->).
    assert (Hab : a ≠ b) by congruence.
    cbn [of_option res_bind]. rewrite lookup_insert_ne, Hb by done. cbn.
    eexists. split; [done|]. exists (cs' ++ [(b, y); (a, el)]). unfold last_address. cbn.
    split_and!.
    + rewrite <-Hh. eapply seg_snoc; [done|done| |].
      * by apply seg_insert.
      * by rewrite lookup_insert_eq.
    + replace (cs' ++ [(b, y); (a, el)]) with ((cs' ++ [(b, y)]) ++ [(a, el)])
        by (by rewrite <-app_assoc).
      rewrite fmap_app. apply NoDup_app. split_and!; [done| |apply NoDup_singleton].
      by intros c Hc ->%list_elem_of_singleton.
    + by rewrite !fmap_app, <-app_assoc.
    + rewrite fmap_app. cbn. by rewrite (assoc_L (++) _ [b] [a]), last_snoc.
    + rewrite map_size_insert_Some by (rewrite lookup_insert_ne by done; eauto).
      rewrite map_size_insert_None by done. rewrite !length_app in *. cbn in *. lia.
    + rewrite Htot, wrap_succ. f_equal. rewrite !length_app, !length_fmap, !length_app. cbn. lia.
Qed.

Lemma linear_rep_cons q x l :
  linear_rep q (x :: l) →
  ∃ a cs nx, qhead q = Some a ∧ qnodes q !! a = Some (mk_qnode x nx) ∧
    seg (qnodes q) nx cs None ∧ a ∉ cs.*1 ∧ NoDup cs.*1 ∧ cs.*2 = l ∧
    qtail q = last_address ((a, x) :: cs) ∧ (base.size (qnodes q) >= S (length cs))%nat ∧
    total q = wrap 64 (Z.of_nat (S (length l))).
Proof.
  intros ([|[a y] cs] & Hs & Hnd & Hl & Ht & Hsz & Htot); [done|].
  cbn in Hs, Hl. injection Hl as -> <-. destruct Hs as (Hh & nx & Ha & Hs).
  apply NoDup_cons in Hnd as [Hni Hnd]. exists a, cs, nx. by repeat split.
Qed.

Lemma size_delete_some (ns : qstore T) a n :
  ns !! a = Some n → base.size (delete a ns) = Nat.pred (base.size ns).
Proof. intros H. apply map_size_delete_Some. eauto. Qed.

Lemma linear_pop_rep q x l :
  linear_rep q (x :: l) → ∃ q', linear_pop q = Ok (x, q') ∧ linear_rep q' l.
Proof.
  intros (a & cs & nx & Hh & Ha & Hs & Hni & Hnd & Hl & Ht & Hsz & Htot)%linear_rep_cons.
  unfold linear_pop. rewrite Hh, Ha. cbn [of_option res_bind].
  assert (Hc : (nx = None ∧ cs = []) ∨
               (∃ b z cs', nx = Some b ∧ cs = (b, z) :: cs' ∧ a ≠ b)).
  { destruct cs as [|[b z] cs']; cbn in Hs; [by left|]. right. destruct Hs as [-> _].
    apply not_elem_of_cons in Hni as [? _]. eauto 6. }
  unfold last_address in Ht. cbn in Ht.
  assert (Hd : (if decide (Some a = qtail q) then (None, None) else (nx, qtail q)) =
               (nx, last_address cs)).
  { rewrite Ht. destruct Hc as [[-> ->]|(b & z & cs' & -> & -> & Hab)]; cbn.
    - by rewrite decide_True.
    - rewrite decide_False; [done|]. intros Heq. apply Hni. cbn.
      apply last_Some_elem_of. cbn in Heq. by rewrite <-Heq. }
  cbn [qnext]. rewrite Hd. cbn.
  assert (Hne : nx ≠ Some a) by (destruct Hc as [[-> _]|(b & z & cs' & -> & _ & ?)]; congruence).
  rewrite !bool_decide_true by done. cbn. eexists. split; [done|].
  exists cs. cbn. split_and!; auto.
  - by apply seg_delete.
  - rewrite (size_delete_some _ _ _ Ha). lia.
  - rewrite Htot. apply wrap_pred.
Qed.

Lemma linear_top_rep q x l : linear_rep q (x :: l) → linear_top q = Ok x.
Proof.
  intros (a & cs & nx & Hh & Ha & _)%linear_rep_cons. unfold linear_top. by rewrite Hh, Ha.
Qed.

Lemma pop_list_loop_ok fuel h ns cs vec :
  seg ns h cs None → NoDup cs.*1 → (length cs <= fuel)%nat →
  ∃ ns', pop_list_loop fuel h ns vec = Ok (ns', vec ++ cs.*2).
Proof.
  revert h ns cs vec. induction fuel as [|fuel IH]; intros h ns cs vec Hs Hnd Hf.
  - destruct cs; [|cbn in Hf; lia]. cbn in Hs. subst. exists ns. cbn. by rewrite app_nil_r.
  - destruct cs as [|[a x] cs]; cbn in Hs; [subst; exists ns; cbn; by rewrite app_nil_r|].
    destruct Hs as (-> & nx & Ha & Hs). apply NoDup_cons in Hnd as [Hni Hnd].
    cbn. rewrite Ha. cbn.
    destruct (IH nx (delete a ns) cs (vec ++ [x])) as [ns' H]; [by apply seg_delete|done|cbn in Hf; lia|].
    exists ns'. rewrite H. by rewrite <-app_assoc.
Qed.

Lemma linear_pop_list_rep q l vec :
  linear_rep q l → ∃ q', linear_pop_list q vec = Ok (q', vec ++ l) ∧ linear_rep q' [].
Proof.
  intros (cs & Hs & Hnd & <- & Ht & Hsz & Htot). unfold linear_pop_list.
  destruct (pop_list_loop_ok (base.size (qnodes q)) (qhead q) (qnodes q) cs vec) as [ns H]; [done..|].
  rewrite H. cbn. eexists. split; [done|]. exists []. cbn. repeat split; [constructor|lia].
Qed.

Lemma iterate_ok fuel ns p cs :
  seg ns p cs None → (length cs <= fuel)%nat → iterate fuel ns p = Ok cs.*2.
Proof.
  revert p cs. induction fuel as [|fuel IH]; intros p cs Hs Hf.
  - destruct cs; [|cbn in Hf; lia]. cbn in Hs. by subst.
  - destruct cs as [|[a x] cs]; cbn in Hs; [by subst|]. destruct Hs as (-> & nx & Ha & Hs).
    cbn. rewrite Ha. cbn. rewrite (IH nx cs) by (done || cbn in Hf; lia). done.
Qed.

Lemma linear_elements_rep q l : linear_rep q l → linear_elements q = Ok l.
Proof. intros (cs & Hs & Hnd & <- & Ht & Hsz & Htot). by apply iterate_ok. Qed.

End Linear.

(** ** [simple_linear_pqueue] *)

Record linear_pqueue (T : Type) : Type := mk_linear_pqueue {
  pqueues : list (linear_queue T);
  ptotal : Z
}.
Arguments mk_linear_pqueue {T} pqueues ptotal.
Arguments pqueues {T}. Arguments ptotal {T}.

Section LinearPqueue.
Context {T : Type}.

Definition new_linear_pqueue (range : nat) : linear_pqueue T :=
  mk_linear_pqueue (replicate range new_linear_queue) 0.

Definition pqueue_push (item : T) (prio : nat) (p : linear_pqueue T) : res (linear_pqueue T) :=
  match pqueues p !! prio with
  | None => Err assert_fail
  | Some q =>
      let* q := linear_push item q in
      Ok (mk_linear_pqueue (<[prio := q]> (pqueues p)) (wrap 64 (ptotal p + 1)))
  end.

Definition pqueue_get_queue (prio : nat) (p : linear_pqueue T) : res (linear_queue T) :=
  match pqueues p !! prio with None => Err assert_fail | Some q => Ok q end.

Definition pqueue_clear (p : linear_pqueue T) : res (linear_pqueue T) :=
  asserting (0 <? ptotal p) (Ok (mk_linear_pqueue (map linear_clear (pqueues p)) 0)).

End LinearPqueue.

(** ** [push_safe_linear_queue]: many pushers, one popper *)

(** What a pusher is doing in the loop of [push_node] or [splice_headtail]; the
    argument is [last], and [next] once it has been read. *)
Inductive phase : Type :=
  | Loop                                               (** before [tail.get()] *)
  | GotLast (last : positive)                          (** before [last->next.get()] *)
  | GotNext (last : positive) (next : option positive) (** before [last == tail.get()] *)
  | Checked (last : positive) (next : option positive) (** before the exchange *)
  | Linked (last : positive).                          (** before [tail.compare_and_set(last, qtail)] *)

(** the cells it brings, from [qhead] to [qtail] *)
Record pusher (T : Type) : Type := mk_pusher { brings : list (positive * T); at_ : phase }.
Arguments mk_pusher {T} brings at_.
Arguments brings {T}. Arguments at_ {T}.

(** [freed] are the nodes [pop] deleted.  Their memory stays, in the free list of
    [mem/chunkgroup.hpp], with the [next] they had, until the allocator hands the
    block out again.  [popping] is set after the consumer saw that the queue is not
    empty. *)
Record safe_queue (T : Type) : Type := mk_safe_queue {
  snodes : qstore T;
  freed : gset positive;
  shead : positive;
  stail : positive;
  stotal : Z;
  pushers : gmap nat (pusher T);
  popping : bool
}.
Arguments mk_safe_queue {T} snodes freed shead stail stotal pushers popping.
Arguments snodes {T}. Arguments freed {T}. Arguments shead {T}. Arguments stail {T}.
Arguments stotal {T}. Arguments pushers {T}. Arguments popping {T}.

Section PushSafe.
Context {T : Type}.
Implicit Types (s : safe_queue T) (cs : list (positive * T)) (ns : qstore T).

(** the sentinel's data is whatever [T] starts with *)
Definition new_safe_queue (d : T) : safe_queue T :=
  mk_safe_queue {[ 1%positive := mk_qnode d None ]} ∅ 1 1 0 ∅ false.

Definition set_pushers (ps : gmap nat (pusher T)) (s : safe_queue T) : safe_queue T :=
  mk_safe_queue (snodes s) (freed s) (shead s) (stail s) (stotal s) ps (popping s).
Definition set_tail (t : positive) (s : safe_queue T) : safe_queue T :=
  mk_safe_queue (snodes s) (freed s) (shead s) t (stotal s) (pushers s) (popping s).
Definition set_snodes (ns : qstore T) (s : safe_queue T) : safe_queue T :=
  mk_safe_queue ns (freed s) (shead s) (stail s) (stotal s) (pushers s) (popping s).

Definition become (i : nat) (cs : list (positive * T)) (ph : phase) (s : safe_queue T)
  : safe_queue T := set_pushers (<[i := mk_pusher cs ph]> (pushers s)) s.

(** [tail.compare_and_set(last, new)] *)
Definition cas_tail (last new : positive) (s : safe_queue T) : safe_queue T :=
  if decide (stail s = last) then set_tail new s else s.

(** one access to shared memory of pusher [i] *)
Definition push_step (i : nat) (s : safe_queue T) : res (safe_queue T) :=
  let* p := of_option (pushers s !! i) in
  let cs := brings p in
  match at_ p with
  | Loop => Ok (become i cs (GotLast (stail s)) s)
  | GotLast last =>
      let* n := of_option (snodes s !! last) in
      Ok (become i cs (GotNext last (qnext n)) s)
  | GotNext last next =>
      Ok (become i cs (if decide (last = stail s) then Checked last next else Loop) s)
  | Checked last (Some next) => Ok (become i cs Loop (cas_tail last next s))
  | Checked last None =>
      let* n := of_option (snodes s !! last) in
      let* h := of_option (head cs.*1) in
      Ok (if decide (qnext n = None)
          then become i cs (Linked last) (set_snodes (<[last := set_next (Some h) n]> (snodes s)) s)
          else become i cs Loop s)
  | Linked last =>
      let* t := of_option (list.last cs.*1) in
      Ok (set_pushers (delete i (pushers s)) (cas_tail last t s))
  end.

(** [push_safe_linear_queue::empty] and [pop], by the only popper *)
Definition safe_empty (s : safe_queue T) : bool := bool_decide (shead s = stail s).

Definition safe_pop (s : safe_queue T) : res (T * safe_queue T) :=
  let* old := of_option (snodes s !! shead s) in
  match qnext old with
  | None => Err assert_fail
  | Some take =>
      let* n := of_option (snodes s !! take) in
      Ok (qdata n, mk_safe_queue (snodes s) ({[shead s]} ∪ freed s) take (stail s)
                     (wrap 64 (stotal s - 1)) (pushers s) false)
  end.

(** the nodes a pusher made before its first access; [push] makes one, [splice]
    takes those of a linear queue *)
Fixpoint put_cells (cs : list (positive * T)) (ns : qstore T) : qstore T :=
  match cs with
  | [] => ns
  | (a, x) :: cs => <[a := mk_qnode x (head cs.*1)]> (put_cells cs ns)
  end.

Definition start_push (i : nat) (cs : list (positive * T)) (s : safe_queue T) : safe_queue T :=
  mk_safe_queue (put_cells cs (snodes s)) (freed s) (shead s) (stail s)
    (wrap 64 (stotal s + Z.of_nat (length cs))) (<[i := mk_pusher cs Loop]> (pushers s)) (popping s).

(** [chunkgroup::allocate] takes the block of a freed node: from here on the node is
    gone, and its address is that of whatever is made there, a node of this queue or
    anything else of the size *)
Definition recycle (a : positive) (s : safe_queue T) : safe_queue T :=
  mk_safe_queue (delete a (snodes s)) (freed s ∖ {[a]}) (shead s) (stail s) (stotal s)
    (pushers s) (popping s).

Inductive event : Type := Silent | Pushed (xs : list T) | Popped (x : T).

(** what a step of a pusher means: the exchange that links its cells is the push *)
Definition push_event (s : safe_queue T) (i : nat) : event :=
  match pushers s !! i with
  | Some (mk_pusher cs (Checked last None)) =>
      match snodes s !! last with
      | Some (mk_qnode _ None) => Pushed cs.*2
      | _ => Silent
      end
  | _ => Silent
  end.

(** the node a pusher holds the address of, between [tail.get()] and the exchanges *)
Definition seen (ph : phase) : option positive :=
  match ph with
  | Loop => None
  | GotLast l | GotNext l _ | Checked l _ | Linked l => Some l
  end.

(** no pusher is stopped at [a] *)
Definition unseen (s : safe_queue T) (a : positive) : Prop :=
  ∀ i p, pushers s !! i = Some p → seen (at_ p) ≠ Some a.

(** a node for which any block serves: nothing keeps a pusher from holding it *)
Definition anywhere (s : safe_queue T) (a : positive) : Prop := True.

(** The steps, with the freed nodes whose memory [may] be used again.  The nodes of a
    new pusher are at addresses that are not in use: never used ones or recycled
    ones. *)
Inductive step (may : safe_queue T → positive → Prop)
    : safe_queue T → event → safe_queue T → Prop :=
  | step_start s i cs :
      pushers s !! i = None → cs ≠ [] → NoDup cs.*1 → (∀ a, a ∈ cs.*1 → snodes s !! a = None) →
      step may s Silent (start_push i cs s)
  | step_push s i s' : push_step i s = Ok s' → step may s (push_event s i) s'
  | step_check s :
      safe_empty s = false →
      step may s Silent (mk_safe_queue (snodes s) (freed s) (shead s) (stail s) (stotal s) (pushers s) true)
  | step_pop s x s' : popping s = true → safe_pop s = Ok (x, s') → step may s (Popped x) s'
  | step_recycle s a : a ∈ freed s → may s a → step may s Silent (recycle a s).

Inductive steps (may : safe_queue T → positive → Prop)
    : safe_queue T → list event → safe_queue T → Prop :=
  | steps_refl s : steps may s [] s
  | steps_snoc s es s1 e s2 : steps may s es s1 → step may s1 e s2 → steps may s (es ++ [e]) s2.

Definition pushed (es : list event) : list T :=
  concat (map (λ e, match e with Pushed xs => xs | _ => [] end) es).
Definition popped (es : list event) : list T :=
  concat (map (λ e, match e with Popped x => [x] | _ => [] end) es).

(** ** The invariant *)

(** cells no other thread can reach yet *)
Definition own (p : pusher T) : list positive :=
  match at_ p with Linked _ => [] | _ => (brings p).*1 end.

(** what a pusher knows about the node it looked at *)
Definition knows (ns : qstore T) (chain : list positive) (cs : list (positive * T)) (ph : phase)
  : Prop :=
  match ph with
  | GotNext l (Some n) | Checked l (Some n) => ∃ x, ns !! l = Some (mk_qnode x (Some n))
  | Linked l => l ∈ chain →
      ∃ x r, ns !! l = Some (mk_qnode x (head cs.*1)) ∧ seg ns (head cs.*1) cs r
  | _ => True
  end.

(** the chain from the head; [cs] starts with the sentinel *)
Record queue_inv (s : safe_queue T) (cs : list (positive * T)) : Prop := {
  inv_chain : seg (snodes s) (Some (shead s)) cs None;
  inv_nodup : NoDup cs.*1;
  inv_tail : stail s ∈ cs.*1;
  inv_popping : popping s = true → shead s ≠ stail s;
  inv_own : ∀ i p, pushers s !! i = Some p → brings p ≠ [] ∧ NoDup (brings p).*1 ∧
              (∀ a, a ∈ own p → a ∉ cs.*1) ∧
              (own p ≠ [] → seg (snodes s) (head (brings p).*1) (brings p) None);
  inv_apart : ∀ i j p q, i ≠ j → pushers s !! i = Some p → pushers s !! j = Some q →
              ∀ a, a ∈ own p → a ∉ own q;
  inv_seen : ∀ i p l, pushers s !! i = Some p → seen (at_ p) = Some l →
              is_Some (snodes s !! l) ∧ ∀ j q, pushers s !! j = Some q → l ∉ own q;
  inv_knows : ∀ i p, pushers s !! i = Some p → knows (snodes s) cs.*1 (brings p) (at_ p);
  inv_freed : ∀ a, a ∈ freed s → is_Some (snodes s !! a) ∧ a ∉ cs.*1 ∧
              ∀ j q, pushers s !! j = Some q → a ∉ own q;
  inv_last : ∀ a x, snodes s !! a = Some (mk_qnode x None) →
              (∀ j q, pushers s !! j = Some q → a ∉ own q) → last cs.*1 = Some a
}.

(** the elements of the queue *)
Definition contents (s : safe_queue T) (l : list T) : Prop := ∃ cs, queue_inv s cs ∧ tail cs.*2 = l.

(** ** Segments and their ends *)

Lemma seg_end ns p cs a :
  seg ns p cs None → last cs.*1 = Some a → ∃ x, ns !! a = Some (mk_qnode x None).
Proof.
  intros Hs Hl. destruct cs as [|[b y] cs _] using rev_ind; [done|].
  rewrite fmap_app in Hl. cbn [fmap list_fmap fst] in Hl. rewrite last_snoc in Hl.
  injection Hl as ->. apply seg_app in Hs as (r & _ & -> & nx & Hb & ->). by exists y.
Qed.

Lemma seg_next ns p cs a x n :
  seg ns p cs None → a ∈ cs.*1 → ns !! a = Some (mk_qnode x (Some n)) → n ∈ tail cs.*1.
Proof.
  revert p. induction cs as [|[b y] cs IH]; intros p; cbn; [by intros _ ?%elem_of_nil|].
  intros (-> & nx & Hb & Hs) Hin Ha. apply elem_of_cons in Hin as [->|Hin].
  - rewrite Hb in Ha. injection Ha as -> ->. destruct cs as [|[c z] cs]; cbn in Hs; [done|].
    destruct Hs as [[= ->] _]. cbn. apply elem_of_cons. by left.
  - specialize (IH _ Hs Hin Ha). destruct cs; cbn in *; [done|]. apply elem_of_cons. by right.
Qed.

Lemma tail_elem {A} (x : A) l : x ∈ tail l → x ∈ l.
Proof. destruct l; [done|]. intros. apply elem_of_cons. by right. Qed.

(** what hangs after a node of the chain is in the chain *)
Lemma seg_reach ns p cs a x ocs r b :
  seg ns p cs None → a ∈ cs.*1 → ns !! a = Some (mk_qnode x (head ocs.*1)) →
  seg ns (head ocs.*1) ocs r → b ∈ ocs.*1 → b ∈ tail cs.*1.
Proof.
  intros Hs. revert a x. induction ocs as [|[c z] ocs IH]; intros a x Hin Ha Ho Hb.
  { by apply elem_of_nil in Hb. }
  cbn in Ha, Ho. assert (Hc : c ∈ tail cs.*1) by (by eapply seg_next).
  cbn in Hb. apply elem_of_cons in Hb as [->|Hb]; [done|].
  destruct Ho as (_ & nx & Hcn & Ho).
  assert (nx = head ocs.*1) as ->.
  { destruct ocs as [|[d w] ocs]; [by apply elem_of_nil in Hb|]. by destruct Ho as [-> _]. }
  eapply IH; [by apply tail_elem|done|done|done].
Qed.

(** a new next for a node that had none *)
Lemma seg_relink ns p cs q a x nx :
  seg ns p cs q → NoDup cs.*1 → ns !! a = Some (mk_qnode x None) →
  ∃ q', seg (<[a := mk_qnode x nx]> ns) p cs q' ∧ (a ∉ cs.*1 → q' = q) ∧ (last cs.*1 = Some a → q' = nx).
Proof.
  revert p. induction cs as [|[b y] cs IH]; intros p Hs Hnd Ha; cbn in *.
  { exists q. by repeat split. }
  destruct Hs as (-> & r & Hb & Hs). apply NoDup_cons in Hnd as [Hni Hnd].
  destruct (decide (a = b)) as [->|Hne].
  - rewrite Hb in Ha. injection Ha as -> ->.
    assert (cs = []) as -> by (destruct cs as [|[c z] cs]; [done|]; by destruct Hs as [? _]).
    cbn in Hs. subst q. exists nx. split_and!; [done| |intros Hn; exfalso; apply Hn; by left|done].
    exists nx. by rewrite lookup_insert_eq.
  - destruct (IH _ Hs Hnd Ha) as (q' & Hq & Hq1 & Hq2). exists q'. split_and!; [done| | |].
    + exists r. by rewrite lookup_insert_ne.
    + intros Hn. apply Hq1. intros ?. apply Hn. apply elem_of_cons. by right.
    + destruct cs as [|[c z] cs]; [cbn; by intros [= ->]|]. exact Hq2.
Qed.

Lemma put_cells_lookup cs ns a : a ∉ cs.*1 → put_cells cs ns !! a = ns !! a.
Proof.
  induction cs as [|[b x] cs IH]; [done|]. cbn. intros Hn. apply not_elem_of_cons in Hn as [? ?].
  rewrite lookup_insert_ne by done. by apply IH.
Qed.

Lemma put_cells_seg cs ns : NoDup cs.*1 → seg (put_cells cs ns) (head cs.*1) cs None.
Proof.
  induction cs as [|[a x] cs IH]; [done|]. cbn. intros [Hni Hnd]%NoDup_cons.
  split; [done|]. exists (head cs.*1). rewrite lookup_insert_eq. split; [done|].
  apply seg_insert; [done|]. by apply IH.
Qed.

Lemma put_cells_next cs ns a x :
  NoDup cs.*1 → put_cells cs ns !! a = Some (mk_qnode x None) → a ∈ cs.*1 ∨ ns !! a = Some (mk_qnode x None).
Proof.
  intros Hnd Ha. destruct (decide (a ∈ cs.*1)); [by left|]. right. by rewrite <-(put_cells_lookup cs).
Qed.

Lemma seg_put_cells cs ns p ds q :
  (∀ a, a ∈ cs.*1 → ns !! a = None) → seg ns p ds q → seg (put_cells cs ns) p ds q.
Proof.
  intros Hf. revert p. induction ds as [|[a x] ds IH]; intros p; cbn; [done|].
  intros (-> & nx & Ha & Hs). split; [done|]. exists nx. split; [|by apply IH].
  rewrite put_cells_lookup; [done|]. intros Hin%Hf. congruence.
Qed.

(** ** Every step keeps the invariant *)

Lemma chain_head s cs : queue_inv s cs → ∃ x cs', cs = (shead s, x) :: cs'.
Proof.
  intros Hi. pose proof (inv_chain _ _ Hi) as Hs. destruct cs as [|[a x] cs']; cbn in Hs; [done|].
  destruct Hs as [[= ->] _]. by exists x, cs'.
Qed.

Lemma own_brings (p : pusher T) a : a ∈ own p → a ∈ (brings p).*1.
Proof. unfold own. destruct (at_ p); try done. by intros ?%elem_of_nil. Qed.

Lemma inv_set_tail s cs t : queue_inv s cs → t ∈ tail cs.*1 → queue_inv (set_tail t s) cs.
Proof.
  intros Hi Ht. destruct (chain_head _ _ Hi) as (x & cs' & ->). destruct Hi as [? Hnd].
  constructor; cbn in *; auto; [by apply elem_of_cons; right|].
  intros _ <-. by apply NoDup_cons in Hnd as [? _].
Qed.

(** the tail is only moved forward *)
Lemma inv_cas_tail s cs l t :
  queue_inv s cs → (l ∈ cs.*1 → t ∈ tail cs.*1) → queue_inv (cas_tail l t s) cs.
Proof.
  intros Hi Ht. unfold cas_tail. case_decide as Heq; [|done].
  apply inv_set_tail; [done|]. apply Ht. rewrite <-Heq. by apply inv_tail.
Qed.

Lemma pushers_become i b ph s j q :
  pushers (become i b ph s) !! j = Some q →
  (j = i ∧ q = mk_pusher b ph) ∨ (j ≠ i ∧ pushers s !! j = Some q).
Proof. cbn. intros [[-> <-]|[? ?]]%lookup_insert_Some; naive_solver. Qed.

Lemma inv_become s cs i b ph0 ph :
  queue_inv s cs → pushers s !! i = Some (mk_pusher b ph0) →
  own (mk_pusher b ph) = own (mk_pusher b ph0) →
  (∀ l, seen ph = Some l → is_Some (snodes s !! l) ∧ ∀ j q, pushers s !! j = Some q → l ∉ own q) →
  knows (snodes s) cs.*1 b ph → queue_inv (become i b ph s) cs.
Proof.
  intros Hi Hp Hown Hseen Hknow.
  assert (Hback : ∀ j q, pushers (become i b ph s) !! j = Some q →
            ∃ q0, pushers s !! j = Some q0 ∧ own q = own q0 ∧ brings q = brings q0).
  { intros j q [[-> ->]|[_ Hq]]%pushers_become; eauto. }
  assert (Hforth : ∀ a, (∀ j q, pushers (become i b ph s) !! j = Some q → a ∉ own q) ↔
                        (∀ j q, pushers s !! j = Some q → a ∉ own q)).
  { intros a. split; intros H j q Hq.
    - destruct (decide (j = i)) as [->|Hne].
      + rewrite Hp in Hq. injection Hq as <-. rewrite <-Hown. apply (H i). cbn. by rewrite lookup_insert_eq.
      + apply (H j). cbn. by rewrite lookup_insert_ne by done.
    - destruct (Hback _ _ Hq) as (q0 & Hq0 & -> & _). by eapply H. }
  destruct Hi as [Hch Hnd Ht Hpop Ho Ha Hs Hk Hf Hl]. constructor; [done..| | | | | |].
  - intros j q (q0 & Hq0 & -> & ->)%Hback. by eapply Ho.
  - intros j k q r Hne (q0 & Hq0 & -> & _)%Hback (r0 & Hr0 & -> & _)%Hback. by eapply Ha.
  - intros j q l [[-> ->]|[_ Hq]]%pushers_become Hl'; rewrite Hforth; [by apply Hseen|]. by eapply Hs.
  - intros j q [[-> ->]|[_ Hq]]%pushers_become; [done|]. by eapply Hk.
  - intros a Haf. rewrite Hforth. by apply Hf.
  - intros a x Ha'. rewrite Hforth. by eapply Hl.
Qed.

Lemma inv_remove s cs i b l :
  queue_inv s cs → pushers s !! i = Some (mk_pusher b (Linked l)) →
  queue_inv (set_pushers (delete i (pushers s)) s) cs.
Proof.
  intros [Hch Hnd Ht Hpop Ho Ha Hs Hk Hf Hl] Hp.
  assert (Hback : ∀ j q, delete i (pushers s) !! j = Some q → pushers s !! j = Some q)
    by (intros j q [? ?]%lookup_delete_Some; done).
  constructor; cbn; [done..| | | | | |].
  - intros j q ?%Hback. by eapply Ho.
  - intros j k q r ? ?%Hback ?%Hback. by eapply Ha.
  - intros j q l' Hq%Hback Hl'. destruct (Hs _ _ _ Hq Hl') as [? Hno]. split; [done|].
    intros k r ?%Hback. by eapply Hno.
  - intros j q ?%Hback. by eapply Hk.
  - intros a (? & ? & Hno)%Hf. split_and!; [done..|]. intros j q ?%Hback. by eapply Hno.
  - intros a x Hax Hno. eapply Hl; [done|]. intros j q Hq. destruct (decide (j = i)) as [->|].
    + rewrite Hp in Hq. injection Hq as <-. by intros ?%elem_of_nil.
    + apply (Hno j). by rewrite lookup_delete_ne by done.
Qed.

Lemma seg_none_last ns p cs a x :
  seg ns p cs None → a ∈ cs.*1 → ns !! a = Some (mk_qnode x None) → last cs.*1 = Some a.
Proof.
  revert p. induction cs as [|[b y] cs IH]; intros p; cbn; [by intros _ ?%elem_of_nil|].
  intros (-> & nx & Hb & Hs) Hin Ha. apply elem_of_cons in Hin as [->|Hin].
  - rewrite Hb in Ha. injection Ha as -> ->. destruct cs as [|[c z] cs]; [done|].
    by destruct Hs as [? _].
  - specialize (IH _ Hs Hin Ha). destruct cs; [done|]. exact IH.
Qed.

Lemma last_app_some {A} (l k : list A) : k ≠ [] → last (l ++ k) = last k.
Proof. intros Hk. destruct k as [|x k _] using rev_ind; [done|]. by rewrite app_assoc, !last_snoc. Qed.

(** the exchange on [last->next] *)
Definition link (i : nat) (b : list (positive * T)) (l : positive) (y : T) (s : safe_queue T)
  : safe_queue T :=
  become i b (Linked l) (set_snodes (<[l := mk_qnode y (head b.*1)]> (snodes s)) s).

Lemma inv_link s cs i b l y :
  queue_inv s cs → pushers s !! i = Some (mk_pusher b (Checked l None)) →
  snodes s !! l = Some (mk_qnode y None) → queue_inv (link i b l y s) (cs ++ b).
Proof.
  intros [Hch Hnd Ht Hpop Ho Ha Hs Hk Hf Hl] Hp Hln.
  destruct (Ho _ _ Hp) as (Hbne & Hbnd & Hbdis & Hbseg). cbn in *.
  destruct (Hs _ _ l Hp eq_refl) as [_ Hnot].
  assert (Hlast : last cs.*1 = Some l) by by eapply Hl.
  assert (Hlb : l ∉ b.*1) by apply (Hnot _ _ Hp).
  destruct (seg_relink _ _ _ _ _ _ (head b.*1) Hch Hnd Hln) as (q' & Hcs & _ & Hq'). specialize (Hq' Hlast).
  subst q'.
  assert (Hb1 : b.*1 ≠ []) by (by destruct b as [|[]]).
  assert (Hbs : seg (<[l := mk_qnode y (head b.*1)]> (snodes s)) (head b.*1) b None)
    by (apply seg_insert; auto).
  assert (Hback : ∀ j q, pushers (link i b l y s) !! j = Some q →
            (j = i ∧ q = mk_pusher b (Linked l)) ∨ (j ≠ i ∧ pushers s !! j = Some q))
    by (intros j q Hq; destruct (pushers_become _ _ _ _ _ _ Hq); auto).
  constructor; cbn.
  - apply seg_app. eauto.
  - rewrite fmap_app. apply NoDup_app. split_and!; [done| |done]. intros a Hacs Hab. by eapply Hbdis.
  - rewrite fmap_app. apply elem_of_app. by left.
  - done.
  - intros j q [[-> ->]|[Hji Hq]]%Hback; cbn.
    + split_and!; [done|done|by intros a ?%elem_of_nil|done].
    + destruct (Ho _ _ Hq) as (? & ? & Hqdis & Hqs). split_and!; [done|done| |].
      * intros a Haq. rewrite fmap_app. intros [Hc|Hc]%elem_of_app; [by eapply Hqdis|].
        by eapply (Ha j i).
      * intros Hne. apply seg_insert; [|by apply Hqs]. intros Hlq.
        apply (Hnot _ _ Hq). unfold own in *. by destruct (at_ q).
  - intros j k q r Hjk [[-> ->]|[Hji Hq]]%Hback [[-> ->]|[Hki Hr]]%Hback a; cbn; try by intros ?%elem_of_nil.
    + intros _. by intros ?%elem_of_nil.
    + by apply (Ha j k).
  - intros j q l' Hq Hl'. assert (Hq' : is_Some (snodes s !! l') ∧ ∀ k r, pushers s !! k = Some r → l' ∉ own r).
    { destruct (Hback _ _ Hq) as [[-> ->]|[_ Hq0]]; [|by eapply Hs]. injection Hl' as <-. split; [by eexists|done]. }
    destruct Hq' as [? Hno]. split; [apply lookup_insert_is_Some'; by right|].
    intros k r [[-> ->]|[_ Hr]]%Hback; [by intros ?%elem_of_nil|]. by eapply Hno.
  - intros j q [[-> ->]|[Hji Hq]]%Hback; cbn.
    + intros _. exists y, None. by rewrite lookup_insert_eq.
    + pose proof (Hk _ _ Hq) as Hkq. destruct (Ho _ _ Hq) as (Hqne & Hqnd & _).
      destruct q as [qb [|?|l' [n|]|l' [n|]|l']]; cbn in *; try done.
      * destruct Hkq as [x Hx]. exists x. rewrite lookup_insert_ne by congruence. done.
      * destruct Hkq as [x Hx]. exists x. rewrite lookup_insert_ne by congruence. done.
      * intros Hin. destruct (Hs _ _ l' Hq eq_refl) as [_ Hno'].
        rewrite fmap_app in Hin. apply elem_of_app in Hin as [Hin|Hin]; [|exfalso; by eapply (Hno' _ _ Hp)].
        destruct (Hkq Hin) as (x & r & Hx & Hr).
        destruct (seg_relink _ _ _ _ _ _ (head b.*1) Hr Hqnd Hln) as (r' & Hr' & _).
        exists x, r'. rewrite lookup_insert_ne; [done|]. intros <-. rewrite Hln in Hx.
        destruct qb as [|[? ?] ?]; done.
  - intros a Haf. destruct (Hf _ Haf) as (? & ? & Hno). split_and!.
    + apply lookup_insert_is_Some'. by right.
    + rewrite fmap_app. intros [?|Hab]%elem_of_app; [done|]. by eapply (Hno _ _ Hp).
    + intros j q [[-> ->]|[_ Hq]]%Hback; [by intros ?%elem_of_nil|]. by eapply Hno.
  - intros a x Hax Hno. rewrite fmap_app, last_app_some by done.
    destruct (decide (a = l)) as [->|Hal].
    { rewrite lookup_insert_eq in Hax. destruct b as [|[? ?] ?]; done. }
    rewrite lookup_insert_ne in Hax by done.
    destruct (decide (a ∈ b.*1)); [by eapply seg_none_last, Hax; auto|]. exfalso. apply Hal.
    assert (last cs.*1 = Some a); [|congruence]. eapply Hl; [done|]. intros j q Hq.
    destruct (decide (j = i)) as [->|Hji]; [rewrite Hp in Hq; by injection Hq as <-|].
    apply (Hno j). cbn. by rewrite lookup_insert_ne by done.
Qed.

Lemma inv_start s cs i b :
  queue_inv s cs → pushers s !! i = None → b ≠ [] → NoDup b.*1 →
  (∀ a, a ∈ b.*1 → snodes s !! a = None) → queue_inv (start_push i b s) cs.
Proof.
  intros [Hch Hnd Ht Hpop Ho Ha Hs Hk Hf Hl] Hp Hne Hbnd Hfresh.
  assert (Hback : ∀ j q, pushers (start_push i b s) !! j = Some q →
            (j = i ∧ q = mk_pusher b Loop) ∨ (j ≠ i ∧ pushers s !! j = Some q))
    by (intros j q; cbn; intros [[-> <-]|[? ?]]%lookup_insert_Some; naive_solver).
  assert (Hkeep : ∀ a n, snodes s !! a = Some n → put_cells b (snodes s) !! a = Some n).
  { intros a n Han. rewrite put_cells_lookup; [done|]. intros Hin%Hfresh. congruence. }
  assert (Hown : ∀ j q, pushers s !! j = Some q → ∀ a, a ∈ own q → a ∉ b.*1).
  { intros j q Hq a Haq Hin%Hfresh. destruct (Ho _ _ Hq) as (_ & _ & _ & Hqs).
    assert (Hne' : own q ≠ []) by (intros E; rewrite E in Haq; by apply elem_of_nil in Haq).
    destruct (seg_dom _ _ _ _ a (Hqs Hne') (own_brings _ _ Haq)) as [? ?]. congruence. }
  constructor; cbn; [|done|done|done| | | | | |].
  - by apply seg_put_cells.
  - intros j q [[-> ->]|[_ Hq]]%Hback; cbn.
    + split_and!; [done|done| |intros _; by apply put_cells_seg].
      intros a Hin%Hfresh Hc. destruct (seg_dom _ _ _ _ a Hch Hc) as [? ?]. congruence.
    + destruct (Ho _ _ Hq) as (? & ? & ? & Hqs). split_and!; [done..|].
      intros Hn. apply seg_put_cells; auto.
  - intros j k q r Hjk [[-> ->]|[Hji Hq]]%Hback [[-> ->]|[Hki Hr]]%Hback a; cbn; try done.
    + intros Hin Hr'. by eapply Hown.
    + intros Hq' Hin. by eapply Hown.
    + by apply (Ha j k).
  - intros j q l [[-> ->]|[_ Hq]]%Hback Hl'; [done|]. destruct (Hs _ _ _ Hq Hl') as [[n Hn] Hno].
    split; [eauto|]. intros k r [[-> ->]|[_ Hr]]%Hback; [|by eapply Hno]. cbn. intros ?%Hfresh. congruence.
  - intros j q [[-> ->]|[_ Hq]]%Hback; [done|]. pose proof (Hk _ _ Hq) as Hkq.
    destruct q as [qb [|?|l' [n|]|l' [n|]|l']]; cbn in *; try done.
    + destruct Hkq as [x Hx]; eauto.
    + destruct Hkq as [x Hx]; eauto.
    + intros Hin. destruct (Hkq Hin) as (x & r & Hx & Hr). exists x, r. split; [eauto|].
      by apply seg_put_cells.
  - intros a Haf. destruct (Hf _ Haf) as ([n Hn] & ? & Hno). split_and!; [eauto|done|].
    intros j q [[-> ->]|[_ Hq]]%Hback; [cbn; intros ?%Hfresh; congruence|]. by eapply Hno.
  - intros a x Hax Hno. destruct (put_cells_next _ _ _ _ Hbnd Hax) as [Hin|Hin].
    + exfalso. apply (Hno i (mk_pusher b Loop)); [cbn; by rewrite lookup_insert_eq|done].
    + eapply Hl; [done|]. intros j q Hq. apply (Hno j). cbn. rewrite lookup_insert_ne; [done|].
      intros ->. congruence.
Qed.

Lemma inv_pop s cs :
  queue_inv s cs → popping s = true →
  ∃ d x y cs' s', cs = (shead s, d) :: (x, y) :: cs' ∧ safe_pop s = Ok (y, s') ∧
                  queue_inv s' ((x, y) :: cs').
Proof.
  intros Hi Hpop. destruct (chain_head _ _ Hi) as (d & cs' & ->).
  destruct Hi as [Hch Hnd Ht Hp Ho Ha Hs Hk Hf Hl]. specialize (Hp Hpop).
  destruct Hch as (_ & nx & Hh & Hch).
  destruct cs' as [|[x y] cs'].
  { exfalso. apply Hp. symmetry. by apply list_elem_of_singleton. }
  destruct Hch as (-> & nx' & Hx & Hch).
  exists d, x, y, cs'. unfold safe_pop. rewrite Hh. cbn. rewrite Hx. cbn. eexists. split; [done|]. split; [done|].
  cbn in Hnd. apply NoDup_cons in Hnd as [Hni Hnd].
  constructor; cbn; [|done| |done| |done|done| | |].
  - eauto.
  - apply elem_of_cons in Ht as [Ht|Ht]; [by rewrite Ht in Hp|done].
  - intros i p Hip. destruct (Ho _ _ Hip) as (? & ? & Hdis & ?). split_and!; [done|done| |done].
    intros a Hao Hin. eapply Hdis; [done|]. apply elem_of_cons. by right.
  - intros i p Hip. pose proof (Hk _ _ Hip) as Hkp.
    destruct (at_ p) as [|?|l [n|]|l [n|]|l]; cbn in *; try done.
    intros Hin. apply Hkp. apply elem_of_cons. by right.
  - intros a [->%elem_of_singleton|Haf]%elem_of_union.
    + split_and!; [eauto|done|]. intros j q Hq Hin. destruct (Ho _ _ Hq) as (_ & _ & Hdis & _).
      eapply Hdis; [done|]. by left.
    + destruct (Hf _ Haf) as (? & Hni' & ?). split_and!; [done| |done].
      intros Hin. apply Hni'. apply elem_of_cons. by right.
  - intros a z Haz Hno. pose proof (Hl _ _ Haz Hno) as H. exact H.
Qed.

Lemma inv_check s cs :
  queue_inv s cs → safe_empty s = false →
  queue_inv (mk_safe_queue (snodes s) (freed s) (shead s) (stail s) (stotal s) (pushers s) true) cs.
Proof.
  intros [Hch Hnd Ht Hpop Ho Ha Hs Hk Hf Hl] He. constructor; cbn; try done.
  intros _. unfold safe_empty in He. by apply bool_decide_eq_false in He.
Qed.

(** cells of the chain and cells nobody else reaches survive when another node goes *)
Lemma inv_recycle s cs a :
  queue_inv s cs → a ∈ freed s → unseen s a → queue_inv (recycle a s) cs.
Proof.
  intros [Hch Hnd Ht Hpop Ho Ha Hs Hk Hf Hl] Haf Hun. destruct (Hf _ Haf) as (_ & Hni & Hown).
  constructor; cbn; [by apply seg_delete|done|done|done| |done| | | |].
  - intros i p Hip. destruct (Ho _ _ Hip) as (? & ? & ? & Hseg). split_and!; [done..|].
    intros Hne. apply seg_delete; [|by apply Hseg]. intros Hin. apply (Hown _ _ Hip).
    unfold own in *. by destruct (at_ p).
  - intros i p l Hip Hl'. destruct (Hs _ _ _ Hip Hl') as [? ?]. split; [|done].
    rewrite lookup_delete_ne; [done|]. intros ->. by apply (Hun _ _ Hip).
  - intros i p Hip. pose proof (Hk _ _ Hip) as Hkp. pose proof (Hun _ _ Hip) as Hup.
    destruct (Ho _ _ Hip) as (Hne & _).
    destruct (at_ p) as [|?|l [n|]|l [n|]|l]; cbn in *; try done;
      try (destruct Hkp as [x Hx]; exists x; rewrite lookup_delete_ne by congruence; done).
    intros Hin. destruct (Hkp Hin) as (x & r & Hx & Hr). exists x, r.
    rewrite lookup_delete_ne by congruence. split; [done|]. apply seg_delete; [|done].
    intros Hab. apply Hni, tail_elem. by eapply seg_reach.
  - intros b [Hb Hbne]%elem_of_difference. destruct (Hf _ Hb) as (? & ? & ?).
    split_and!; [|done..]. rewrite lookup_delete_ne; [done|]. intros <-.
    by apply Hbne, elem_of_singleton.
  - intros b x [_ Hb]%lookup_delete_Some. by eapply Hl.
Qed.

Lemma inv_new d : queue_inv (new_safe_queue d) [(1%positive, d)].
Proof.
  constructor; cbn.
  - split; [done|]. exists None. by rewrite lookup_singleton_eq.
  - apply NoDup_singleton.
  - by apply list_elem_of_singleton.
  - done.
  - intros i p. by rewrite lookup_empty.
  - intros i j p q _. by rewrite lookup_empty.
  - intros i p l. by rewrite lookup_empty.
  - intros i p. by rewrite lookup_empty.
  - intros a ?%elem_of_empty. done.
  - intros a x [<- _]%lookup_singleton_Some _. done.
Qed.

(** a node a pusher looked at has a next in the chain, if it is itself there *)
Lemma knows_next s cs i b l n :
  queue_inv s cs → pushers s !! i = Some (mk_pusher b (Checked l (Some n))) →
  l ∈ cs.*1 → n ∈ tail cs.*1.
Proof.
  intros Hi Hp Hl. destruct (inv_knows _ _ Hi _ _ Hp) as [x Hx].
  eapply seg_next; [apply Hi|done|done].
Qed.

Lemma knows_linked s cs i b l t :
  queue_inv s cs → pushers s !! i = Some (mk_pusher b (Linked l)) → last b.*1 = Some t →
  l ∈ cs.*1 → t ∈ tail cs.*1.
Proof.
  intros Hi Hp Ht Hl. destruct (inv_knows _ _ Hi _ _ Hp Hl) as (x & r & Hx & Hr).
  eapply seg_reach; [apply Hi|done|done|done|]. by apply last_Some_elem_of.
Qed.

(** A step of a pusher returns and does what its event says. *)
Lemma push_step_ok s cs i p :
  queue_inv s cs → pushers s !! i = Some p →
  ∃ s' es, push_step i s = Ok s' ∧
    push_event s i = (match es with [] => Silent | _ => Pushed es.*2 end) ∧
    queue_inv s' (cs ++ es).
Proof.
  intros Hi Hp. unfold push_step, push_event. rewrite Hp. destruct p as [b ph]. cbn [of_option res_bind at_ brings].
  destruct (inv_own _ _ Hi _ _ Hp) as (Hbne & Hbnd & _). cbn in Hbne, Hbnd.
  destruct ph as [|l|l nx|l [n|]|l].
  - eexists _, []. split; [done|]. split; [done|]. rewrite app_nil_r.
    eapply inv_become; [done..| |done].
    intros l [= <-]. pose proof (inv_tail _ _ Hi) as Ht. split.
    + eapply seg_dom; [apply Hi|done].
    + intros j q Hq Hin. by destruct (inv_own _ _ Hi _ _ Hq) as (_ & _ & Hdis & _); eapply Hdis.
  - destruct (inv_seen _ _ Hi _ _ l Hp eq_refl) as [[[x nx] Hl] Hno]. rewrite Hl. cbn.
    eexists _, []. split; [done|]. split; [done|]. rewrite app_nil_r.
    eapply inv_become; [done..| |destruct nx; cbn; eauto]. intros l' [= <-]. eauto.
  - eexists _, []. split; [done|]. split; [done|]. rewrite app_nil_r.
    pose proof (inv_knows _ _ Hi _ _ Hp) as Hk. pose proof (inv_seen _ _ Hi _ _ l Hp eq_refl) as Hs.
    case_decide; (eapply inv_become; [done..| |]); try done. intros l' [= <-]. done.
  - eexists _, []. split; [done|]. split; [done|]. rewrite app_nil_r.
    eapply inv_become; [|cbn; unfold cas_tail; case_decide; exact Hp|done|done|done].
    apply inv_cas_tail; [done|]. by eapply knows_next.
  - destruct (inv_seen _ _ Hi _ _ l Hp eq_refl) as [[[x nx] Hl] Hno]. rewrite Hl. cbn.
    destruct b as [|[h z] b]; [done|]. cbn. case_decide as Hnx.
    + subst nx. eexists _, ((h, z) :: b). split; [done|]. split; [done|].
      apply (inv_link s cs i ((h, z) :: b) l x Hi Hp Hl).
    + eexists _, []. split; [done|]. split; [by destruct nx|]. rewrite app_nil_r.
      by eapply inv_become.
  - assert (is_Some (list.last b.*1)) as [t Ht] by (apply last_is_Some; by destruct b as [|[]]).
    rewrite Ht. cbn. eexists _, []. split; [done|]. split; [done|]. rewrite app_nil_r.
    assert (Hc : pushers (cas_tail l t s) = pushers s) by (unfold cas_tail; by case_decide).
    rewrite <-Hc. eapply inv_remove; [|by rewrite Hc].
    apply inv_cas_tail; [done|]. by eapply knows_linked.
Qed.

Lemma steps_inv d es s :
  steps unseen (new_safe_queue d) es s → ∃ cs, queue_inv s cs ∧ pushed es = popped es ++ tail cs.*2.
Proof.
  intros H. remember (new_safe_queue d) as s0. induction H as [s|s es s1 e s2 Hsteps IH Hstep]; subst.
  { exists [(1%positive, d)]. split; [apply inv_new|done]. }
  destruct IH as (cs & Hi & Heq); [done|]. unfold pushed, popped. rewrite !map_app, !concat_app.
  fold (pushed es) (popped es). rewrite Heq.
  destruct Hstep as [s i b Hp Hne Hnd Hfr|s i s' Hpush|s He|s x s' Hpop Hok|s a Haf Hun].
  - exists cs. split; [by apply inv_start|]. cbn. by rewrite !app_nil_r.
  - destruct (pushers s !! i) as [p|] eqn:Hp; [|unfold push_step in Hpush; by rewrite Hp in Hpush].
    destruct (push_step_ok s cs i p Hi Hp) as (s'' & es' & Hok & -> & Hi').
    rewrite Hok in Hpush. injection Hpush as ->. exists (cs ++ es'). split; [done|].
    destruct (chain_head _ _ Hi) as (y & cs' & ->).
    destruct es' as [|e es']; cbn; rewrite ?app_nil_r; [done|].
    by rewrite fmap_app, <-app_assoc.
  - exists cs. split; [by apply inv_check|]. cbn. by rewrite !app_nil_r.
  - destruct (inv_pop _ _ Hi Hpop) as (d0 & a & y & cs' & s'' & -> & Hok' & Hi').
    rewrite Hok' in Hok. injection Hok as -> ->. exists ((a, x) :: cs'). split; [done|].
    cbn. by rewrite app_nil_r, <-app_assoc.
  - exists cs. split; [by apply inv_recycle|]. cbn. by rewrite !app_nil_r.
Qed.

(** C26: the lock-free queue is a FIFO queue as long as the allocator does not hand out
    a popped node that a stopped pusher still holds.  In every interleaving of pushers,
    splices, the one popper and the reuse of popped nodes whose address is in no
    pusher's [last], what was popped followed by what the queue holds is what was
    pushed, in the order of the exchanges that linked it; no pusher reads a node that
    is gone, and the popper's [pop] after [empty] returned false finds a node and takes
    the first element.  Without the condition this fails: [recycled_node_loses_push]. *)
Theorem push_safe_fifo (d : T) (es : list event) (s : safe_queue T)
    (Hsteps : steps unseen (new_safe_queue d) es s) :
  ∃ l, contents s l ∧ pushed es = popped es ++ l ∧
    (∀ i p, pushers s !! i = Some p → is_ok (push_step i s) = true) ∧
    (popping s = true → ∃ x l' s', l = x :: l' ∧ safe_pop s = Ok (x, s') ∧ contents s' l').
Proof.
  destruct (steps_inv _ _ _ Hsteps) as (cs & Hi & Heq). exists (tail cs.*2).
  split_and!; [by exists cs|done| |].
  - intros i p Hp. by destruct (push_step_ok _ _ _ _ Hi Hp) as (s' & es' & -> & _).
  - intros Hpop. destruct (inv_pop _ _ Hi Hpop) as (d0 & a & y & cs' & s' & -> & Hok & Hi').
    exists y, cs'.*2, s'. split; [done|]. split; [done|]. by exists ((a, y) :: cs').
Qed.

(** ** A pusher that runs alone finishes *)

Fixpoint run_alone (n : nat) (i : nat) (s : safe_queue T) : res (safe_queue T) :=
  match n with
  | O => Ok s
  | S n => match pushers s !! i with
           | None => Ok s
           | Some _ => let* s := push_step i s in run_alone n i s
           end
  end.

(** cells of the chain after the tail *)
Fixpoint after (a : positive) (l : list positive) : nat :=
  match l with [] => 0 | b :: l => if decide (a = b) then length l else after a l end.

Lemma after_next ns p cs a x n :
  seg ns p cs None → NoDup cs.*1 → a ∈ cs.*1 → ns !! a = Some (mk_qnode x (Some n)) →
  after a cs.*1 = S (after n cs.*1).
Proof.
  revert p. induction cs as [|[b y] cs IH]; intros p; cbn; [by intros _ _ ?%elem_of_nil|].
  intros (-> & nx & Hb & Hs) [Hni Hnd]%NoDup_cons Hin Ha.
  destruct (decide (a = b)) as [->|Hne].
  - rewrite Hb in Ha. injection Ha as -> ->. destruct cs as [|[c z] cs]; cbn in Hs; [done|].
    destruct Hs as [[= ->] _]. cbn. rewrite decide_False; [by rewrite decide_True|].
    intros ->. apply Hni. by left.
  - apply elem_of_cons in Hin as [?|Hin]; [done|]. rewrite (IH _ Hs Hnd Hin Ha).
    rewrite decide_False; [done|]. intros ->.
    apply Hni. apply tail_elem. by eapply seg_next.
Qed.

(** whether what a pusher read still holds *)
Definition current (s : safe_queue T) (ph : phase) : bool :=
  match ph with
  | GotLast l => bool_decide (l = stail s)
  | GotNext l nx | Checked l nx =>
      bool_decide (l = stail s) && bool_decide (qnext <$> snodes s !! l = Some nx)
  | _ => true
  end.

(** the accesses left, when nobody else moves *)
Definition remaining (s : safe_queue T) (cs : list (positive * T)) (ph : phase) : nat :=
  let k := (4 * after (stail s) cs.*1 + (if current s ph then 0 else 4))%nat in
  match ph with
  | Loop => k + 5
  | GotLast _ => k + 4
  | GotNext _ _ => k + 3
  | Checked _ _ => k + 2
  | Linked _ => 1
  end.

Lemma become_lookup i b ph s : pushers (become i b ph s) !! i = Some (mk_pusher b ph).
Proof. cbn. by rewrite lookup_insert_eq. Qed.

Lemma alone_step s cs i p :
  queue_inv s cs → pushers s !! i = Some p →
  ∃ s' cs', push_step i s = Ok s' ∧ queue_inv s' cs' ∧
    (pushers s' !! i = None ∨
     ∃ p', pushers s' !! i = Some p' ∧ (remaining s' cs' (at_ p') < remaining s cs (at_ p))%nat).
Proof.
  intros Hi Hp. destruct (push_step_ok s cs i p Hi Hp) as (s' & es & Hok & Hev & Hi').
  exists s', (cs ++ es). split; [done|]. split; [done|].
  unfold push_step in Hok. unfold push_event in Hev. rewrite Hp in Hok, Hev.
  destruct p as [b ph]. cbn [of_option res_bind at_ brings] in *.
  assert (Hsil : Silent = match es with [] => Silent | _ => Pushed es.*2 end → cs ++ es = cs)
    by (destruct es; [by rewrite app_nil_r|done]).
  destruct ph as [|l|l nx|l [n|]|l].
  - injection Hok as <-. rewrite (Hsil Hev) in *. right. eexists. split; [apply become_lookup|].
    cbn. rewrite bool_decide_true by done. lia.
  - destruct (snodes s !! l) as [[x nx]|] eqn:Hl; [|done]. cbn in Hok. injection Hok as <-.
    rewrite (Hsil Hev) in *. right. eexists. split; [apply become_lookup|].
    cbn. rewrite Hl. cbn. rewrite (bool_decide_true (Some nx = Some nx)), andb_true_r by done.
    destruct (bool_decide (l = stail s)); lia.
  - injection Hok as <-. rewrite (Hsil Hev) in *. right. eexists. split; [apply become_lookup|].
    case_decide as Hl; cbn; [lia|]. rewrite (bool_decide_false (l = stail s)) by done. cbn. lia.
  - injection Hok as <-. rewrite (Hsil Hev) in *. right. eexists. split; [apply become_lookup|].
    destruct (inv_knows _ _ Hi _ _ Hp) as [x Hx]. cbn. rewrite Hx. cbn.
    rewrite (bool_decide_true (Some (Some n) = Some (Some n))), andb_true_r by done.
    unfold cas_tail. case_decide as Hl; cbn.
    + subst l. rewrite bool_decide_true by done.
      rewrite (after_next _ _ _ (stail s) x n (inv_chain _ _ Hi) (inv_nodup _ _ Hi) (inv_tail _ _ Hi) Hx).
      lia.
    + rewrite bool_decide_false by congruence. lia.
  - destruct (snodes s !! l) as [[x nx]|] eqn:Hl; [|done]. cbn in Hok.
    destruct (head b.*1) as [h|]; [|done]. cbn in Hok. injection Hok as <-. right.
    case_decide as Hnx; (eexists; split; [apply become_lookup|]); cbn; [lia|].
    destruct nx as [n|]; [|done]. rewrite (Hsil Hev). rewrite Hl. cbn.
    rewrite (bool_decide_false (Some (Some n) = Some None)), andb_false_r by done. lia.
  - destruct (list.last b.*1); [|done]. cbn in Hok. injection Hok as <-. left.
    cbn. by rewrite lookup_delete_eq.
Qed.

Lemma alone_finishes n s cs i :
  queue_inv s cs → (∀ p, pushers s !! i = Some p → (remaining s cs (at_ p) <= n)%nat) →
  ∃ s', run_alone n i s = Ok s' ∧ pushers s' !! i = None.
Proof.
  revert s cs. induction n as [|n IH]; intros s cs Hi Hn; cbn.
  - exists s. split; [done|]. destruct (pushers s !! i) as [[b ph]|] eqn:Hp; [|done].
    specialize (Hn _ eq_refl). destruct ph; cbn in Hn; lia.
  - destruct (pushers s !! i) as [p|] eqn:Hp; [|by exists s]. specialize (Hn _ eq_refl).
    destruct (alone_step _ _ _ _ Hi Hp) as (s' & cs' & -> & Hi' & Hd). cbn.
    eapply IH; [done|]. intros p' Hp'. destruct Hd as [Hd|(p'' & Hp'' & Hlt)]; [congruence|].
    rewrite Hp' in Hp''. injection Hp'' as <-. lia.
Qed.

(** pushing never blocks.  From every reachable state, a pusher that runs while
    the others stand still, wherever they were stopped, finishes, with at most four
    accesses for each node the tail lags behind and nine more. *)
Theorem push_never_blocks (d : T) (es : list event) (s : safe_queue T) (i : nat)
    (Hsteps : steps unseen (new_safe_queue d) es s) :
  ∃ cs s', queue_inv s cs ∧ run_alone (4 * after (stail s) cs.*1 + 9) i s = Ok s' ∧
           pushers s' !! i = None.
Proof.
  destruct (steps_inv _ _ _ Hsteps) as (cs & Hi & _).
  destruct (alone_finishes (4 * after (stail s) cs.*1 + 9) s cs i Hi) as (s' & ? & ?).
  - intros [b ph] _. unfold remaining. destruct (current s (at_ _)), ph; cbn; lia.
  - eauto.
Qed.

End PushSafe.

(** ** A deleted node is read *)

(** pushers that move in turn, and what their steps mean *)
Fixpoint sample_steps (acts : list nat) (s : safe_queue Z) : res (list event * safe_queue Z) :=
  match acts with
  | [] => Ok ([], s)
  | i :: acts =>
      let* s1 := push_step i s in
      let* r := sample_steps acts s1 in
      Ok (push_event s i :: r.1, r.2)
  end.

Definition ran (acts : list nat) (s : safe_queue Z) : list event * safe_queue Z :=
  match sample_steps acts s with Ok r => r | Err _ => ([], s) end.

(** the popper sees that the queue is not empty and pops *)
Definition took (s : safe_queue Z) : list event * safe_queue Z :=
  match safe_pop (mk_safe_queue (snodes s) (freed s) (shead s) (stail s) (stotal s) (pushers s) true) with
  | Ok r => ([Silent; Popped r.1], r.2)
  | Err _ => ([], s)
  end.

Section Samples.
Context {may : safe_queue Z → positive → Prop}.
Implicit Types (s : safe_queue Z) (es : list (@event Z)).

Lemma steps_pushes s0 s es acts : steps may s0 es s → steps may s0 (es ++ (ran acts s).1) (ran acts s).2.
Proof.
  unfold ran. intros Hs.
  destruct (sample_steps acts s) as [[es' s']|] eqn:H; cbn; [|by rewrite app_nil_r].
  revert s es es' Hs H. induction acts as [|i acts IH]; intros s es es' Hs H; cbn in H.
  { injection H as <- ->. by rewrite app_nil_r. }
  destruct (push_step i s) as [s1|] eqn:Hi; [|done]. cbn in H.
  destruct (sample_steps acts s1) as [[es1 s2]|] eqn:Hr; [|done]. injection H as <- ->.
  cbn [fst]. rewrite cons_middle, app_assoc. eapply IH; [|done].
  econstructor; [done|]. by constructor.
Qed.

Lemma steps_start s0 s es i a x :
  steps may s0 es s → pushers s !! i = None → snodes s !! a = None →
  steps may s0 (es ++ [Silent]) (start_push i [(a, x)] s).
Proof.
  intros Hs Hp Ha. econstructor; [done|].
  apply step_start; [done..|apply NoDup_singleton|]. by intros b ->%list_elem_of_singleton.
Qed.

Lemma steps_take s0 s es :
  steps may s0 es s → safe_empty s = false → steps may s0 (es ++ (took s).1) (took s).2.
Proof.
  intros Hs He. unfold took. destruct (safe_pop _) as [[x s']|] eqn:H; [|by rewrite app_nil_r].
  cbn [fst snd]. change [Silent; Popped x] with ([@Silent Z] ++ [Popped x]). rewrite app_assoc.
  apply (steps_snoc _ _ _ _ _ _ (steps_snoc _ _ _ _ _ _ Hs (step_check _ _ He))).
  by apply step_pop.
Qed.

End Samples.

(** pusher 0 reads the tail and finds no next; pusher 1 pushes 8; the popper takes the
    element and deletes the old sentinel, which pusher 0 holds *)
Definition held_state1 : safe_queue Z :=
  (ran [0; 0; 0]%nat (start_push 0 [(2%positive, 7)] (new_safe_queue 0))).2.
Definition held_state2 : safe_queue Z :=
  (ran [1; 1; 1; 1; 1]%nat (start_push 1 [(3%positive, 8)] held_state1)).2.
Definition held_state : safe_queue Z := (took held_state2).2.

Lemma held_reached (may : safe_queue Z → positive → Prop) :
  ∃ es, steps may (new_safe_queue 0) es held_state ∧ pushed es = [8] ∧ popped es = [8].
Proof.
  pose proof (steps_start _ _ _ 0 2 7 (steps_refl may (new_safe_queue 0)) eq_refl eq_refl) as H1.
  apply (steps_pushes _ _ _ [0; 0; 0]%nat) in H1. fold held_state1 in H1.
  apply (steps_start _ _ _ 1 3 8) in H1; [|by vm_compute..].
  apply (steps_pushes _ _ _ [1; 1; 1; 1; 1]%nat) in H1. fold held_state2 in H1.
  apply steps_take in H1; [|by vm_compute]. fold held_state in H1.
  eexists. split; [exact H1|]. by vm_compute.
Qed.

(** [pop] may delete a node that a pusher is about to access: a reachable state has a
    pusher whose next access is to a freed node, even when no such node is used
    again. *)
Theorem pop_frees_a_node_in_use :
  ∃ (es : list event) (s : safe_queue Z) (i : nat) (p : pusher Z) (l : positive),
    steps unseen (new_safe_queue 0) es s ∧ pushers s !! i = Some p ∧
    at_ p = Checked l None ∧ l ∈ freed s.
Proof.
  destruct (held_reached unseen) as (es & Hs & _).
  exists es, held_state, 0%nat, (mk_pusher [(2%positive, 7)] (Checked 1 None)), 1%positive.
  split; [done|]. split; [by vm_compute|]. split; [done|].
  apply (bool_decide_unpack _). by vm_compute.
Qed.

(** When the block of that node is used for the next push, the stopped pusher hangs its
    element behind a node that is not in the queue: both exchanges are done, its
    [push] returns, and the queue is empty. *)
Theorem recycled_node_loses_push :
  ∃ (es : list event) (s : safe_queue Z),
    steps anywhere (new_safe_queue 0) es s ∧ pushers s !! 0%nat = None ∧
    pushed es = [8; 7] ∧ popped es = [8] ∧ safe_empty s = true.
Proof.
  destruct (held_reached anywhere) as (es & Hs & Hpu & Hpo).
  assert (Hf : 1%positive ∈ freed held_state) by (apply (bool_decide_unpack _); by vm_compute).
  pose proof (steps_snoc _ _ _ _ _ _ Hs (step_recycle _ _ _ Hf I)) as H1.
  apply (steps_start _ _ _ 1 1 9) in H1; [|by vm_compute..].
  apply (steps_pushes _ _ _ [0; 0]%nat) in H1.
  eexists _, _. split; [exact H1|]. split; [by vm_compute|].
  unfold pushed, popped in *. rewrite !map_app, !concat_app, Hpu, Hpo. by vm_compute.
Qed.

(** The two theorems on the states reached above. *)
Definition sample_queue : safe_queue Z :=
  (ran [0; 0; 0; 0]%nat
     (start_push 0 [(2%positive, 7); (3%positive, 8)] (new_safe_queue 0))).2.

Lemma sample_reached : ∃ es, steps unseen (new_safe_queue 0) es sample_queue.
Proof.
  assert (H1 : steps unseen (new_safe_queue 0) ([] ++ [Silent])
                 (start_push 0 [(2%positive, 7); (3%positive, 8)] (new_safe_queue 0))).
  { eapply steps_snoc; [constructor|].
    apply step_start; [done|done| |by intros a [->| ->%list_elem_of_singleton]%elem_of_cons].
    by apply NoDup_cons; split; [intros ?%list_elem_of_singleton|apply NoDup_singleton]. }
  eexists. exact (steps_pushes _ _ _ [0; 0; 0; 0]%nat H1).
Qed.

Lemma push_safe_fifo_witness :
  ∃ es l, contents sample_queue l ∧ pushed es = popped es ++ l.
Proof.
  destruct sample_reached as [es Hes]. exists es.
  destruct (push_safe_fifo 0 es sample_queue Hes) as (l & Hc & Hp & _). by exists l.
Defined.

Lemma push_never_blocks_witness :
  ∃ cs s', queue_inv sample_queue cs ∧ run_alone (4 * after (stail sample_queue) cs.*1 + 9) 0 sample_queue = Ok s' ∧
           pushers s' !! 0%nat = None.
Proof.
  destruct sample_reached as [es Hes].
  exact (push_never_blocks 0 es sample_queue 0%nat Hes).
Defined.
