(* ===== verification/DoubleQueue.v ===== *)
(** The intrusive double queues: [queue/intrusive.hpp],
    [queue/intrusive_implementation.hpp], [queue/unsafe_double_queue.hpp] and
    [queue/safe_double_queue.hpp], which is the same code under a lock.  The links are
    fields of the queued objects. *)

From Stdlib Require Import ZArith Lia Bool.
From stdpp Require Import base tactics list numbers option gmap.
From S2P Require Import Prelude LinearQueue.

#[local] Open Scope Z_scope.

(** [DECLARE_DOUBLE_QUEUE_NODE] *)
Record links : Type := mk_links {
  inext : option positive;
  iprev : option positive;
  in_queue_flag : bool
}.

(** [INIT_DOUBLE_QUEUE_NODE] *)
Definition init_links : links := mk_links None None false.

Definition set_inext (p : option positive) (n : links) : links := mk_links p (iprev n) (in_queue_flag n).
Definition set_iprev (p : option positive) (n : links) : links := mk_links (inext n) p (in_queue_flag n).
Definition set_flag (b : bool) (n : links) : links := mk_links (inext n) (iprev n) b.

(** the objects that can be queued, and the queue *)
Abbreviation objects := (gmap positive links).

Record double_queue : Type := mk_double_queue {
  dhead : option positive;
  dtail : option positive;
  dtotal : Z
}.

Definition new_double_queue : double_queue := mk_double_queue None None 0.

Definition object (a : positive) (os : objects) : res links := of_option (os !! a).
Definition update_object (a : positive) (f : links → links) (os : objects) : res objects :=
  let* n := object a os in Ok (<[a := f n]> os).
(** [if(p) ...] *)
Definition if_object (p : option positive) (f : links → links) (os : objects) : res objects :=
  match p with None => Ok os | Some a => update_object a f os end.

Definition is_null_ptr (p : option positive) : bool := match p with None => true | Some _ => false end.

Definition double_empty (q : double_queue) : bool := is_null_ptr (dhead q).
Definition double_size (q : double_queue) : Z := dtotal q.
Definition in_queue (a : positive) (os : objects) : res bool := res_map in_queue_flag (object a os).

(** [assert] on a field of the object a pointer points to *)
Definition assert_object (p : option positive) (f : links → bool) (os : objects) : res unit :=
  let* a := of_option p in
  let* n := object a os in
  asserting (f n) (Ok ()).

Definition push_head_node (a : positive) (q : double_queue) (os : objects)
  : res (double_queue * objects) :=
  let* _ := assert_object (Some a) (λ n, negb (in_queue_flag n)) os in
  let* os := update_object a (λ n, set_inext (dhead q) (set_flag true n)) os in
  let t := match dtail q with None => Some a | t => t end in
  let* os := if_object (dhead q) (set_iprev (Some a)) os in
  let* _ := assert_object t (λ n, is_null_ptr (inext n)) os in
  let* _ := assert_object (Some a) (λ n, is_null_ptr (iprev n)) os in
  Ok (mk_double_queue (Some a) t (wrap 64 (dtotal q + 1)), os).

Definition push_tail_node (a : positive) (q : double_queue) (os : objects)
  : res (double_queue * objects) :=
  let h := match dhead q with None => Some a | h => h end in
  let* os := update_object a (set_iprev (dtail q)) os in
  let* os := if_object (dtail q) (set_inext (Some a)) os in
  let* _ := assert_object (Some a) (λ n, negb (in_queue_flag n)) os in
  let* os := update_object a (λ n, set_inext None (set_flag true n)) os in
  let* _ := assert_object (Some a) (λ n, is_null_ptr (inext n)) os in
  Ok (mk_double_queue h (Some a) (wrap 64 (dtotal q + 1)), os).

(** [pop]: false on an empty queue *)
Definition double_pop (q : double_queue) (os : objects)
  : res (option positive * double_queue * objects) :=
  match dhead q with
  | None => Ok (None, q, os)
  | Some data =>
      let* n := object data os in
      let h := inext n in
      let* os := if_object h (set_iprev None) os in
      let t := match h with None => None | Some _ => dtail q end in
      let* _ := assert_object (Some data) in_queue_flag os in
      let* os := update_object data (set_flag false) os in
      let* _ := (match h with None => Ok () | Some _ => assert_object h (λ n, is_null_ptr (iprev n)) os end) in
      let* _ := asserting (Bool.eqb (is_null_ptr h) (is_null_ptr t)) (Ok ()) in
      Ok (Some data, mk_double_queue h t (wrap 64 (dtotal q - 1)), os)
  end.

(** [pop_if_not_empty] looks at [head->next->next] *)
Definition pop_if_not_empty (q : double_queue) (os : objects)
  : res (option positive * double_queue * objects) :=
  match dhead q with
  | None => Ok (None, q, os)
  | Some data =>
      let* n := object data os in
      let* next := of_option (inext n) in
      let* m := object next os in
      match inext m with
      | None => Ok (None, q, os)
      | Some _ =>
          let* os := update_object next (set_iprev None) os in
          let* os := update_object data (λ n, set_inext None (set_iprev None n)) os in
          let* _ := assert_object (Some data) in_queue_flag os in
          let* os := update_object data (set_flag false) os in
          Ok (Some data, mk_double_queue (Some next) (dtail q) (wrap 64 (dtotal q - 1)), os)
      end
  end.

(** [move_up]: to the head of the queue *)
Definition move_up (a : positive) (q : double_queue) (os : objects) : res (double_queue * objects) :=
  let* n := object a os in
  if negb (in_queue_flag n) then Ok (q, os)
  else
    match iprev n with
    | None => asserting (bool_decide (dhead q = Some a)) (Ok (q, os))
    | Some prev =>
        let next := inext n in
        let* os := update_object prev (set_inext next) os in
        let* os := if_object next (set_iprev (Some prev)) os in
        let t := match next with None => Some prev | Some _ => dtail q end in
        let* _ := asserting (negb (is_null_ptr t)) (Ok ()) in
        let* os := update_object a (λ n, set_flag true (set_inext (dhead q) (set_iprev None n))) os in
        let* h := of_option (dhead q) in
        let* os := update_object h (set_iprev (Some a)) os in
        Ok (mk_double_queue (Some a) t (dtotal q), os)
    end.

Definition double_remove (a : positive) (q : double_queue) (os : objects) : res (double_queue * objects) :=
  let* n := object a os in
  let prev := iprev n in
  let next := inext n in
  let h := if decide (dhead q = Some a) then next else dhead q in
  let t := if decide (dtail q = Some a) then prev else dtail q in
  let* os := if_object prev (set_inext next) os in
  let* os := if_object next (set_iprev prev) os in
  let* os := update_object a (λ n, set_iprev None (set_inext None n)) os in
  let* _ := assert_object (Some a) in_queue_flag os in
  let* os := update_object a (set_flag false) os in
  Ok (mk_double_queue h t (wrap 64 (dtotal q - 1)), os).

(** from [begin] to [end] of the iterator *)
Fixpoint double_iterate (fuel : nat) (os : objects) (p : option positive) : res (list positive) :=
  match p with
  | None => Ok []
  | Some a =>
      match fuel with
      | O => Err undefined_behaviour
      | S fuel =>
          let* n := object a os in
          let* l := double_iterate fuel os (inext n) in
          Ok (a :: l)
      end
  end.
Definition double_elements (q : double_queue) (os : objects) : res (list positive) :=
  double_iterate (base.size os) os (dhead q).

(** ** What a queue stands for *)

Definition first (l : list positive) (r : option positive) : option positive :=
  match l with [] => r | a :: _ => Some a end.
Definition final (p : option positive) (l : list positive) : option positive :=
  match last l with None => p | a => a end.

(** [l] linked both ways, between [p] and [r] *)
Fixpoint dseg (os : objects) (p : option positive) (l : list positive) (r : option positive) : Prop :=
  match l with
  | [] => True
  | a :: l => os !! a = Some (mk_links (first l r) p true) ∧ dseg os (Some a) l r
  end.

(** [l] is the queue; the other objects say that they are not in it *)
Record double_rep (q : double_queue) (os : objects) (l : list positive) : Prop := {
  rep_head : dhead q = head l;
  rep_tail : dtail q = last l;
  rep_links : dseg os None l None;
  rep_nodup : NoDup l;
  rep_out : ∀ a n, os !! a = Some n → a ∉ l → in_queue_flag n = false ∧ iprev n = None;
  rep_total : dtotal q = wrap 64 (Z.of_nat (length l))
}.

Lemma dseg_app os p l1 l2 r :
  dseg os p (l1 ++ l2) r ↔ dseg os p l1 (first l2 r) ∧ dseg os (final p l1) l2 r.
Proof.
  revert p. induction l1 as [|a l1 IH]; intros p; cbn; [naive_solver|].
  rewrite IH. assert (first (l1 ++ l2) r = first l1 (first l2 r)) as -> by (by destruct l1).
  assert (final p (a :: l1) = final (Some a) l1) as ->.
  { unfold final. rewrite last_cons. by destruct (last l1). }
  naive_solver.
Qed.

Lemma dseg_frame os p l r a n : a ∉ l → dseg os p l r → dseg (<[a := n]> os) p l r.
Proof.
  revert p. induction l as [|b l IH]; intros p; cbn; [done|].
  intros [? ?]%not_elem_of_cons [Hb Hl]. split; [by rewrite lookup_insert_ne by done|]. by apply IH.
Qed.

Lemma dseg_dom os p l r a : dseg os p l r → a ∈ l → ∃ n, os !! a = Some n ∧ in_queue_flag n = true.
Proof.
  revert p. induction l as [|b l IH]; intros p; cbn; [by intros _ ?%elem_of_nil|].
  intros [Hb Hl] [->|Hin]%elem_of_cons; [eauto|]. by eapply IH.
Qed.

(** changing what the ends of a segment point to *)
Lemma dseg_set_prev os p p' l r a :
  NoDup l → dseg os p l r → head l = Some a →
  ∃ n, os !! a = Some n ∧ dseg (<[a := set_iprev p' n]> os) p' l r.
Proof.
  destruct l as [|b l]; [done|]. intros [Hni Hnd]%NoDup_cons [Hb Hl] [= ->].
  eexists. split; [exact Hb|]. cbn. rewrite lookup_insert_eq. split; [done|]. by apply dseg_frame.
Qed.

Lemma dseg_set_next os p l r r' a :
  NoDup l → dseg os p l r → last l = Some a →
  ∃ n, os !! a = Some n ∧ dseg (<[a := set_inext r' n]> os) p l r'.
Proof.
  intros Hnd Hs Hl. destruct l as [|b l _] using rev_ind; [done|]. rewrite last_snoc in Hl. injection Hl as ->.
  apply NoDup_app in Hnd as (_ & Hni & _). apply dseg_app in Hs as [Hs [Ha _]]. cbn in Ha.
  eexists. split; [exact Ha|]. apply dseg_app. cbn. rewrite lookup_insert_eq. split; [|done].
  apply dseg_frame; [|done]. intros Hin. eapply Hni; [done|]. by apply list_elem_of_singleton.
Qed.

(** splitting at an element *)
Lemma dseg_split os p l1 a l2 r :
  dseg os p (l1 ++ a :: l2) r ↔
  dseg os p l1 (Some a) ∧ os !! a = Some (mk_links (first l2 r) (final p l1) true) ∧ dseg os (Some a) l2 r.
Proof. rewrite dseg_app. cbn. tauto. Qed.

Lemma nodup_split {A} (l1 l2 : list A) a :
  NoDup (l1 ++ a :: l2) ↔ NoDup (l1 ++ l2) ∧ a ∉ l1 ∧ a ∉ l2.
Proof.
  rewrite <-Permutation_middle. rewrite NoDup_cons, not_elem_of_app. tauto.
Qed.

Lemma not_elem_split {A} (l1 l2 : list A) a b : b ≠ a → b ∉ l1 ++ l2 → b ∉ l1 ++ a :: l2.
Proof. rewrite !not_elem_of_app, not_elem_of_cons. tauto. Qed.

Lemma not_queued q os l a n :
  double_rep q os l → os !! a = Some n → in_queue_flag n = false → a ∉ l ∧ iprev n = None.
Proof.
  intros H Ha Hf.
  assert (Hni : a ∉ l).
  { intros Hin. destruct (dseg_dom _ _ _ _ _ (rep_links _ _ _ H) Hin) as (n' & Hn' & Hf'). congruence. }
  split; [done|]. by apply (rep_out _ _ _ H a).
Qed.

Lemma object_some a os n : os !! a = Some n → object a os = Ok n.
Proof. intros H. unfold object. by rewrite H. Qed.

Lemma update_object_some a f os n : os !! a = Some n → update_object a f os = Ok (<[a := f n]> os).
Proof. intros H. unfold update_object. by rewrite (object_some _ _ _ H). Qed.

Lemma assert_object_some a f os n : os !! a = Some n → f n = true → assert_object (Some a) f os = Ok ().
Proof. intros H Hf. unfold assert_object. cbn. rewrite (object_some _ _ _ H). cbn. by rewrite Hf. Qed.

Lemma out_insert (os : objects) (l : list positive) a n : a ∈ l →
  (∀ b m, os !! b = Some m → b ∉ l → in_queue_flag m = false ∧ iprev m = None) →
  ∀ b m, <[a := n]> os !! b = Some m → b ∉ l → in_queue_flag m = false ∧ iprev m = None.
Proof.
  intros Ha H b m Hb Hni. rewrite lookup_insert_ne in Hb by (intros ->; done). by apply (H b).
Qed.

(** no operation makes or loses objects *)
Lemma update_object_dom a f os os' : update_object a f os = Ok os' → dom os' = dom os.
Proof.
  unfold update_object, object. intros H. apply res_bind_ok in H as (n & Hn & H).
  apply of_option_ok in Hn. inversion H; subst. apply dom_insert_lookup_L. by eexists.
Qed.

Lemma if_object_dom p f os os' : if_object p f os = Ok os' → dom os' = dom os.
Proof. destruct p; cbn; [apply update_object_dom|by intros [=->]]. Qed.

Ltac objects_dom :=
  repeat match goal with
  | H : Ok _ = Ok _ |- _ => inversion H; subst; clear H
  | H : res_bind _ _ = Ok _ |- _ => apply res_bind_ok in H as (? & ? & H)
  | H : update_object _ _ _ = Ok _ |- _ => apply update_object_dom in H
  | H : if_object _ _ _ = Ok _ |- _ => apply if_object_dom in H
  | H : asserting _ _ = Ok _ |- _ => apply asserting_ok in H as [? H]
  end.

Lemma push_tail_dom a q os q' os' : push_tail_node a q os = Ok (q', os') → dom os' = dom os.
Proof. unfold push_tail_node. intros H. objects_dom. congruence. Qed.

Lemma double_pop_dom q os o q' os' : double_pop q os = Ok (o, q', os') → dom os' = dom os.
Proof.
  unfold double_pop. destruct (dhead q); [|by intros [=]; subst]. intros H. cbn zeta in H.
  objects_dom. congruence.
Qed.

Lemma double_remove_dom a q os q' os' : double_remove a q os = Ok (q', os') → dom os' = dom os.
Proof. unfold double_remove. intros H. cbn zeta in H. objects_dom. congruence. Qed.

Lemma head_none l : head (l : list positive) = None → l = [].
Proof. by destruct l. Qed.

(** [push_tail] *)
Lemma push_tail_rep q os l a n :
  double_rep q os l → os !! a = Some n → in_queue_flag n = false →
  ∃ q' os', push_tail_node a q os = Ok (q', os') ∧ double_rep q' os' (l ++ [a]).
Proof.
  intros H Ha Hf. destruct (not_queued _ _ _ _ _ H Ha Hf) as [Hni Hp].
  destruct H as [Hh Ht Hl Hnd Ho Htot]. unfold push_tail_node. rewrite Hh, Ht.
  rewrite (update_object_some _ _ _ _ Ha). cbn [res_bind].
  set (os1 := <[a := set_iprev (last l) n]> os).
  assert (Hl1 : dseg os1 None l None) by by apply dseg_frame.
  assert (E : ∃ os2, if_object (last l) (set_inext (Some a)) os1 = Ok os2 ∧
                dseg os2 None l (Some a) ∧ os2 !! a = Some (set_iprev (last l) n) ∧
                ∀ b m, os2 !! b = Some m → b ∉ l → b ≠ a → in_queue_flag m = false ∧ iprev m = None).
  { destruct (last l) as [b|] eqn:Hlast; cbn.
    - assert (Hbl : b ∈ l) by by apply last_Some_elem_of.
      destruct (dseg_set_next os1 None l None (Some a) b Hnd Hl1 Hlast) as (m & Hm & Hs).
      rewrite (update_object_some _ _ _ _ Hm). eexists. split; [done|]. split; [done|]. split.
      + rewrite lookup_insert_ne by (intros ->; done). unfold os1. by rewrite lookup_insert_eq.
      + intros c m' Hc Hcl Hca. rewrite lookup_insert_ne in Hc by (intros ->; done).
        unfold os1 in Hc. rewrite lookup_insert_ne in Hc by done. by apply (Ho c).
    - apply last_None in Hlast as ->. exists os1. split; [done|]. split; [done|]. split.
      + unfold os1. by rewrite lookup_insert_eq.
      + intros c m' Hc Hcl Hca. unfold os1 in Hc. rewrite lookup_insert_ne in Hc by done. by apply (Ho c). }
  destruct E as (os2 & -> & Hs2 & Ha2 & Ho2). cbn [res_bind].
  rewrite (assert_object_some _ _ _ _ Ha2) by (cbn; by rewrite Hf). cbn [res_bind].
  rewrite (update_object_some _ _ _ _ Ha2). cbn [res_bind].
  erewrite assert_object_some; [|by rewrite lookup_insert_eq|done]. cbn [res_bind].
  eexists _, _. split; [done|]. constructor; cbn.
  - by destruct l.
  - by rewrite last_snoc.
  - apply dseg_app. cbn. split; [by apply dseg_frame|]. rewrite lookup_insert_eq. split; [|done].
    unfold final, set_inext, set_flag, set_iprev. cbn. by destruct (last l).
  - apply NoDup_app. split_and!; [done| |apply NoDup_singleton].
    by intros b Hb ->%list_elem_of_singleton.
  - apply out_insert; [apply elem_of_app; right; by apply list_elem_of_singleton|].
    intros b m Hb [Hbl Hba]%not_elem_of_app. apply (Ho2 b); [done|done|].
    intros ->. apply Hba. by apply list_elem_of_singleton.
  - rewrite Htot, wrap_succ, length_app. cbn. f_equal. lia.
Qed.

(** a new object is not in the queue *)
Lemma new_object_rep q os l a :
  double_rep q os l → os !! a = None → double_rep q (<[a := init_links]> os) l.
Proof.
  intros [Hh Ht Hl Hnd Ho Htot] Ha. split; try done.
  - apply dseg_frame; [| done]. intros Hal. destruct (dseg_dom _ _ _ _ _ Hl Hal) as (n & Hn & _). congruence.
  - intros b n. destruct (decide (b = a)) as [-> | Hne].
    + rewrite lookup_insert_eq. by intros [= <-].
    + rewrite lookup_insert_ne by done. apply Ho.
Qed.

(** [push_head] *)
Lemma push_head_rep q os l a n :
  double_rep q os l → os !! a = Some n → in_queue_flag n = false →
  ∃ q' os', push_head_node a q os = Ok (q', os') ∧ double_rep q' os' (a :: l).
Proof.
  intros H Ha Hf. destruct (not_queued _ _ _ _ _ H Ha Hf) as [Hni Hp].
  destruct H as [Hh Ht Hl Hnd Ho Htot]. unfold push_head_node. rewrite Hh, Ht.
  rewrite (assert_object_some _ _ _ _ Ha) by (cbn; by rewrite Hf). cbn [res_bind].
  rewrite (update_object_some _ _ _ _ Ha). cbn [res_bind].
  set (os1 := <[a := set_inext (head l) (set_flag true n)]> os).
  assert (Hl1 : dseg os1 None l None) by by apply dseg_frame.
  assert (E : ∃ os2, if_object (head l) (set_iprev (Some a)) os1 = Ok os2 ∧
                dseg os2 (Some a) l None ∧ os2 !! a = Some (mk_links (head l) None true) ∧
                ∀ b m, os2 !! b = Some m → b ∉ a :: l → in_queue_flag m = false ∧ iprev m = None).
  { assert (Ha1 : os1 !! a = Some (mk_links (head l) None true)).
    { unfold os1. rewrite lookup_insert_eq. unfold set_inext, set_flag. cbn. by rewrite Hp. }
    assert (Ho1 : ∀ b m, os1 !! b = Some m → b ∉ a :: l → in_queue_flag m = false ∧ iprev m = None).
    { apply out_insert; [by left|]. intros b m Hb [_ ?]%not_elem_of_cons. by apply (Ho b). }
    destruct l as [|b l]; cbn; [by exists os1|].
    destruct (dseg_set_prev os1 None (Some a) (b :: l) None b Hnd Hl1 eq_refl) as (m & Hm & Hs).
    rewrite (update_object_some _ _ _ _ Hm). eexists. split; [done|]. split; [exact Hs|].
    apply not_elem_of_cons in Hni as [? ?]. split; [by rewrite lookup_insert_ne by done|].
    apply out_insert; [|done]. apply elem_of_cons. right. by left. }
  destruct E as (os2 & -> & Hs2 & Ha2 & Ho2). cbn [res_bind].
  assert (Hlast : ∃ t m, match last l with Some _ as t => t | None => Some a end = Some t ∧
                    os2 !! t = Some m ∧ inext m = None ∧ last (a :: l) = Some t).
  { destruct l as [|b l _] using rev_ind; [by exists a, (mk_links None None true)|].
    rewrite last_snoc, app_comm_cons, last_snoc.
    apply dseg_app in Hs2 as [_ [Hb _]]. cbn in Hb. eexists b, _. by split_and!. }
  destruct Hlast as (t & m & -> & Hm & Hmn & Hlast).
  rewrite (assert_object_some _ _ _ _ Hm) by (by rewrite Hmn). cbn [res_bind].
  rewrite (assert_object_some _ _ _ _ Ha2) by done. cbn [res_bind].
  eexists _, _. split; [done|]. constructor; cbn; [done|by rewrite <-Hlast| | |done|].
  - split; [|done]. rewrite Ha2. by destruct l.
  - by apply NoDup_cons.
  - by rewrite Htot, wrap_succ.
Qed.

(** an element taken out of the middle *)
Lemma unlink_ok os l1 l2 a :
  NoDup (l1 ++ a :: l2) → dseg os None (l1 ++ a :: l2) None →
  ∃ os1 os2,
    if_object (last l1) (set_inext (head l2)) os = Ok os1 ∧
    if_object (head l2) (set_iprev (last l1)) os1 = Ok os2 ∧
    dseg os2 None (l1 ++ l2) None ∧
    os2 !! a = Some (mk_links (head l2) (last l1) true) ∧
    ∀ b, b ∉ l1 ++ l2 → os2 !! b = os !! b.
Proof.
  intros Hnd Hs. apply nodup_split in Hnd as (Hnd & Ha1 & Ha2).
  apply NoDup_app in Hnd as (Hnd1 & Hdis & Hnd2).
  apply dseg_split in Hs as (Hs1 & Ha & Hs2).
  assert (E1 : ∃ os1, if_object (last l1) (set_inext (head l2)) os = Ok os1 ∧
             dseg os1 None l1 (head l2) ∧ dseg os1 (Some a) l2 None ∧
             (∀ b, b ∉ l1 → os1 !! b = os !! b)).
  { destruct (last l1) as [b|] eqn:Hl; cbn.
    - assert (Hb : b ∈ l1) by by apply last_Some_elem_of.
      destruct (dseg_set_next _ _ _ _ (head l2) b Hnd1 Hs1 Hl) as (m & Hm & Hs).
      rewrite (update_object_some _ _ _ _ Hm). eexists. split; [done|]. split; [done|]. split.
      + apply dseg_frame; [by apply Hdis|done].
      + intros c Hc. by rewrite lookup_insert_ne by (intros ->; done).
    - apply last_None in Hl as ->. by exists os. }
  destruct E1 as (os1 & Hos1 & Hs1' & Hs2' & Hout1).
  assert (E2 : ∃ os2, if_object (head l2) (set_iprev (last l1)) os1 = Ok os2 ∧
             dseg os2 None l1 (head l2) ∧ dseg os2 (last l1) l2 None ∧
             (∀ b, b ∉ l2 → os2 !! b = os1 !! b)).
  { destruct l2 as [|b l2]; cbn; [by exists os1|].
    destruct (dseg_set_prev os1 _ (last l1) _ _ b Hnd2 Hs2' eq_refl) as (m & Hm & Hs).
    rewrite (update_object_some _ _ _ _ Hm). eexists. split; [done|]. split; [|split; [exact Hs|]].
    - apply dseg_frame; [|done]. intros Hb. apply (Hdis _ Hb). by left.
    - intros c [? ?]%not_elem_of_cons. by rewrite lookup_insert_ne by done. }
  destruct E2 as (os2 & Hos2 & Hs1'' & Hs2'' & Hout2).
  exists os1, os2. split; [done|]. split; [done|]. split; [|split].
  - apply dseg_app. unfold final. split; [by destruct l2|]. by destruct (last l1).
  - rewrite Hout2, Hout1, Ha by done. unfold final. by destruct l2, (last l1).
  - intros b [? ?]%not_elem_of_app. by rewrite Hout2, Hout1.
Qed.

(** [remove] *)
Lemma remove_rep q os l1 l2 a :
  double_rep q os (l1 ++ a :: l2) →
  ∃ q' os', double_remove a q os = Ok (q', os') ∧ double_rep q' os' (l1 ++ l2).
Proof.
  intros [Hh Ht Hl Hnd Ho Htot]. pose proof Hl as (_ & Ha & _)%dseg_split.
  destruct (unlink_ok _ _ _ _ Hnd Hl) as (os1 & os2 & E1 & E2 & Hs & Ha2 & Hout).
  apply nodup_split in Hnd as (Hnd & Hn1 & Hn2).
  assert (Hfin : final None l1 = last l1) by (unfold final; by destruct (last l1)).
  assert (Hfir : first l2 None = head l2) by by destruct l2. rewrite Hfin, Hfir in Ha.
  unfold double_remove. rewrite (object_some _ _ _ Ha). cbn [res_bind iprev inext].
  rewrite E1. cbn [res_bind]. rewrite E2. cbn [res_bind].
  rewrite (update_object_some _ _ _ _ Ha2). cbn [res_bind].
  erewrite assert_object_some; [|by rewrite lookup_insert_eq|done]. cbn [res_bind].
  erewrite update_object_some by (by rewrite lookup_insert_eq). cbn [res_bind].
  rewrite insert_insert_eq.
  eexists _, _. split; [done|]. constructor; cbn.
  - rewrite Hh. destruct l1 as [|b l1]; cbn; [by rewrite decide_True|].
    rewrite decide_False; [done|]. intros [= ->]. apply Hn1. by left.
  - rewrite Ht. destruct l2 as [|b l2 _] using rev_ind.
    + rewrite last_snoc, decide_True, app_nil_r; done.
    + rewrite app_comm_cons, !app_assoc, !last_snoc, decide_False; [done|].
      intros [= ->]. apply Hn2, elem_of_app. right. by apply list_elem_of_singleton.
  - apply dseg_frame; [|done]. by apply not_elem_of_app.
  - done.
  - intros b m. destruct (decide (b = a)) as [->|Hb].
    + rewrite lookup_insert_eq. by intros [= <-].
    + rewrite lookup_insert_ne by done. intros Hm Hni. rewrite Hout in Hm by done.
      apply (Ho b); [done|]. by apply not_elem_split.
  - rewrite Htot. assert (length (l1 ++ a :: l2) = S (length (l1 ++ l2))) as ->; [|apply wrap_pred].
    rewrite !length_app. cbn. lia.
Qed.

(** [pop] *)
Lemma pop_rep q os a l :
  double_rep q os (a :: l) →
  ∃ q' os', double_pop q os = Ok (Some a, q', os') ∧ double_rep q' os' l.
Proof.
  intros [Hh Ht Hl Hnd Ho Htot]. pose proof Hl as [Ha Hl'].
  destruct (unlink_ok _ [] l a Hnd Hl) as (os1 & os2 & E1 & E2 & Hs & Ha2 & Hout). cbn in E1, Hs, Ha2, Hout.
  change (last []) with (@None positive) in E2, Ha2. injection E1 as <-. apply NoDup_cons in Hnd as [Hn Hnd].
  unfold double_pop. rewrite Hh. cbn [head]. rewrite (object_some _ _ _ Ha). cbn [res_bind inext].
  assert (Hfir : first l None = head l) by by destruct l. rewrite Hfir.
  rewrite E2. cbn [res_bind]. rewrite (assert_object_some _ _ _ _ Ha2) by done. cbn [res_bind].
  rewrite (update_object_some _ _ _ _ Ha2). cbn [res_bind].
  set (os3 := <[a := set_flag false _]> os2).
  assert (Hs3 : dseg os3 None l None) by by apply dseg_frame.
  assert (Hh3 : (match head l with None => Ok () | Some _ => assert_object (head l) (λ n, is_null_ptr (iprev n)) os3 end) = Ok ()).
  { destruct l as [|b l]; [done|]. destruct Hs3 as [Hb _]. cbn [head].
    by rewrite (assert_object_some _ _ _ _ Hb). }
  rewrite Hh3. cbn [res_bind].
  assert (Ht' : (match head l with None => None | Some _ => dtail q end) = last l).
  { rewrite Ht. by destruct l. }
  rewrite Ht'.
  assert (is_null_ptr (head l) = is_null_ptr (last l)) as ->.
  { destruct l as [|b l]; [done|]. rewrite last_cons. by destruct (last l). }
  rewrite Bool.eqb_reflx. cbn [asserting res_bind]. eexists _, _. split; [done|].
  constructor; cbn; [done|done|done|done| |].
  - intros b m. destruct (decide (b = a)) as [->|Hb]; unfold os3.
    + rewrite lookup_insert_eq. by intros [= <-].
    + rewrite lookup_insert_ne by done. intros Hm Hni. rewrite Hout in Hm by done.
      apply (Ho b); [done|]. by apply not_elem_of_cons.
  - rewrite Htot. apply wrap_pred.
Qed.

(** [pop_if_not_empty], from three elements on *)
Lemma pop_if_not_empty_rep q os a b c l :
  double_rep q os (a :: b :: c :: l) →
  ∃ q' os', pop_if_not_empty q os = Ok (Some a, q', os') ∧ double_rep q' os' (b :: c :: l).
Proof.
  intros [Hh Ht [Ha Hl] Hnd Ho Htot]. unfold pop_if_not_empty. rewrite Hh. cbn [head].
  apply NoDup_cons in Hnd as [Hni Hnd].
  destruct (dseg_set_prev os _ None _ _ b Hnd Hl eq_refl) as (m & Hm & Hs). pose proof Hl as [Hb _].
  rewrite Hb in Hm. injection Hm as <-.
  rewrite (object_some _ _ _ Ha). cbn [res_bind inext first of_option].
  rewrite (object_some _ _ _ Hb). cbn [res_bind inext first of_option].
  assert (Hab : a ≠ b) by (intros ->; apply Hni; by left).
  rewrite (update_object_some _ _ _ _ Hb). cbn [res_bind].
  erewrite update_object_some by (rewrite lookup_insert_ne by done; exact Ha). cbn [res_bind].
  erewrite assert_object_some; [|by rewrite lookup_insert_eq|done]. cbn [res_bind].
  erewrite update_object_some by (by rewrite lookup_insert_eq). cbn [res_bind].
  rewrite insert_insert_eq. eexists _, _. split; [done|]. constructor; cbn [dhead dtail dtotal].
  - done.
  - by rewrite Ht, last_cons_cons.
  - by apply dseg_frame.
  - done.
  - intros d n. destruct (decide (d = a)) as [->|Hd].
    + rewrite lookup_insert_eq. by intros [= <-].
    + rewrite lookup_insert_ne by done. revert d n Hd.
      intros d n Hd Hdn Hdl. rewrite lookup_insert_ne in Hdn by (intros ->; apply Hdl; by left).
      apply (Ho d); [done|]. by apply not_elem_of_cons.
  - rewrite Htot. apply wrap_pred.
Qed.

(** [pop_if_not_empty] of fewer *)
Lemma pop_if_not_empty_few q os l :
  double_rep q os l →
  match l with
  | [] | [_; _] => pop_if_not_empty q os = Ok (None, q, os)
  | [_] => pop_if_not_empty q os = Err undefined_behaviour
  | _ => True
  end.
Proof.
  intros [Hh _ Hl Hnd _ _]. unfold pop_if_not_empty. rewrite Hh.
  destruct l as [|a [|b [|c l]]]; [done| | |done]; cbn [head]; destruct Hl as [Ha Hl];
    rewrite (object_some _ _ _ Ha); cbn [res_bind inext first of_option]; [done|].
  destruct Hl as [Hb Hl]. by rewrite (object_some _ _ _ Hb).
Qed.

(** [move_up] *)
Lemma move_up_rep q os l1 l2 a :
  double_rep q os (l1 ++ a :: l2) →
  ∃ q' os', move_up a q os = Ok (q', os') ∧ double_rep q' os' (a :: l1 ++ l2).
Proof.
  intros H. pose proof H as [Hh Ht Hl Hnd Ho Htot]. pose proof Hl as (_ & Ha & _)%dseg_split.
  assert (Hfin : final None l1 = last l1) by (unfold final; by destruct (last l1)).
  assert (Hfir : first l2 None = head l2) by by destruct l2. rewrite Hfin, Hfir in Ha.
  unfold move_up. rewrite (object_some _ _ _ Ha). cbn [res_bind in_queue_flag negb iprev inext].
  destruct (last l1) as [p|] eqn:Hlast.
  2:{ apply last_None in Hlast as ->. cbn in Hh. rewrite bool_decide_true by done. by exists q, os. }
  destruct (unlink_ok _ _ _ _ Hnd Hl) as (os1 & os2 & E1 & E2 & Hs & Ha2 & Hout).
  rewrite Hlast in E1, E2, Ha2. cbn [if_object] in E1. rewrite E1. cbn [res_bind].
  rewrite E2. cbn [res_bind].
  destruct l1 as [|h l1]; [done|]. cbn in Hh.
  apply nodup_split in Hnd as (Hnd & Hn1 & Hn2).
  assert (Hah : a ≠ h) by (intros ->; apply Hn1; by left).
  assert (Ht' : ∃ t, (match head l2 with None => Some p | Some _ => dtail q end) = Some t ∧
                     last (a :: (h :: l1) ++ l2) = Some t).
  { rewrite Ht. destruct l2 as [|b l2 _] using rev_ind.
    - exists p. split; [done|]. rewrite app_nil_r, last_cons. by rewrite Hlast.
    - exists b. rewrite app_comm_cons, !app_assoc, app_comm_cons, !last_snoc. split; [by destruct l2|done]. }
  destruct Ht' as (t & -> & Hlt). cbn [is_null_ptr negb asserting res_bind].
  rewrite (update_object_some _ _ _ _ Ha2). cbn [res_bind]. rewrite Hh. cbn [of_option res_bind].
  set (os3 := <[a := _]> os2).
  assert (Hs3 : dseg os3 None (h :: l1 ++ l2) None).
  { apply dseg_frame; [|done]. apply not_elem_of_cons. apply not_elem_of_cons in Hn1 as [? ?].
    rewrite not_elem_of_app. tauto. }
  destruct (dseg_set_prev os3 _ (Some a) _ _ h Hnd Hs3 eq_refl) as (m & Hm & Hs4).
  rewrite (update_object_some _ _ _ _ Hm). cbn [res_bind]. eexists _, _. split; [done|].
  constructor; cbn [dhead dtail dtotal].
  - done.
  - by rewrite Hlt.
  - cbn. split; [|exact Hs4]. rewrite lookup_insert_ne by done. unfold os3. by rewrite lookup_insert_eq.
  - apply NoDup_cons. split; [|done]. by apply not_elem_of_app.
  - apply out_insert; [apply elem_of_cons; right; by left|]. unfold os3. apply out_insert; [by left|].
    intros b n' Hb [Hba Hbl]%not_elem_of_cons. rewrite Hout in Hb by done. apply (Ho b); [done|].
    by apply not_elem_split.
  - rewrite Htot. f_equal. f_equal. cbn. rewrite !length_app. cbn. lia.
Qed.

(** ** The queue as a sequence *)

(** the operations on the list they stand for *)
Inductive queue_op : Type :=
  | op_push_tail (a : positive)
  | op_push_head (a : positive)
  | op_pop
  | op_pop_if_not_empty
  | op_remove (a : positive)
  | op_move_up (a : positive).

Definition run_op (o : queue_op) (q : double_queue) (os : objects)
  : res (option positive * double_queue * objects) :=
  match o with
  | op_push_tail a => let* r := push_tail_node a q os in Ok (None, r.1, r.2)
  | op_push_head a => let* r := push_head_node a q os in Ok (None, r.1, r.2)
  | op_pop => double_pop q os
  | op_pop_if_not_empty => pop_if_not_empty q os
  | op_remove a => let* r := double_remove a q os in Ok (None, r.1, r.2)
  | op_move_up a => let* r := move_up a q os in Ok (None, r.1, r.2)
  end.

(** what a caller must know: a pushed object is in no queue, a removed one is in
    this one *)
Definition op_allowed (o : queue_op) (os : objects) (l : list positive) : Prop :=
  match o with
  | op_push_tail a | op_push_head a => ∃ n, os !! a = Some n ∧ in_queue_flag n = false
  | op_pop | op_pop_if_not_empty => True
  | op_remove a => a ∈ l
  | op_move_up a => is_Some (os !! a)
  end.

(** [pop_if_not_empty] takes the link after the next one for the link after a sentinel:
    it answers nothing for two elements and follows a null pointer for one *)
Definition op_spec (o : queue_op) (l : list positive) : res (option positive * list positive) :=
  match o with
  | op_push_tail a => Ok (None, l ++ [a])
  | op_push_head a => Ok (None, a :: l)
  | op_pop => Ok (head l, tail l)
  | op_pop_if_not_empty =>
      match l with
      | [] | [_; _] => Ok (None, l)
      | [_] => Err undefined_behaviour
      | a :: l => Ok (Some a, l)
      end
  | op_remove a => Ok (None, filter (λ b, b ≠ a) l)
  | op_move_up a => Ok (None, if decide (a ∈ l) then a :: filter (λ b, b ≠ a) l else l)
  end.

Lemma filter_ne_id (l : list positive) a : a ∉ l → filter (λ b, b ≠ a) l = l.
Proof.
  induction l as [|b l IH]; [done|]. intros [? ?]%not_elem_of_cons.
  rewrite filter_cons_True by done. f_equal. by apply IH.
Qed.

Lemma filter_split (l1 l2 : list positive) a :
  NoDup (l1 ++ a :: l2) → filter (λ b, b ≠ a) (l1 ++ a :: l2) = l1 ++ l2.
Proof.
  intros (Hnd & H1 & H2)%nodup_split. rewrite filter_app, filter_cons_False by tauto.
  by rewrite !filter_ne_id.
Qed.

(** C27: the intrusive double queue implements a sequence.  Each of [push_tail],
    [push_head], [pop], [pop_if_not_empty], [remove] and [move_up], in a state that
    stands for a list, does what the list operation says: it returns, passes its
    assertions, answers the same and stands for the result, or, for [pop_if_not_empty]
    of one element only, follows a null pointer. *)
Theorem double_queue_refines (o : queue_op) (q : double_queue) (os : objects) (l : list positive)
    (Hrep : double_rep q os l) (Hok : op_allowed o os l) :
  match op_spec o l with
  | Ok (x, l') => ∃ q' os', run_op o q os = Ok (x, q', os') ∧ double_rep q' os' l'
  | Err f => run_op o q os = Err f
  end.
Proof.
  destruct o as [a|a| | |a|a]; cbn in Hok |- *.
  - destruct Hok as (n & Ha & Hf). destruct (push_tail_rep _ _ _ _ _ Hrep Ha Hf) as (q' & os' & -> & H).
    by exists q', os'.
  - destruct Hok as (n & Ha & Hf). destruct (push_head_rep _ _ _ _ _ Hrep Ha Hf) as (q' & os' & -> & H).
    by exists q', os'.
  - destruct l as [|a l]; [|apply (pop_rep _ _ _ _ Hrep)].
    exists q, os. unfold double_pop. by rewrite (rep_head _ _ _ Hrep).
  - destruct l as [|a [|b [|c l]]]; [exists q, os| |exists q, os|by apply pop_if_not_empty_rep].
    + split; [|done]. by apply pop_if_not_empty_few in Hrep.
    + by apply pop_if_not_empty_few in Hrep.
    + split; [|done]. by apply pop_if_not_empty_few in Hrep.
  - apply list_elem_of_split in Hok as (l1 & l2 & ->).
    rewrite (filter_split _ _ _ (rep_nodup _ _ _ Hrep)).
    destruct (remove_rep _ _ _ _ _ Hrep) as (q' & os' & -> & H). by exists q', os'.
  - case_decide as Hin.
    + apply list_elem_of_split in Hin as (l1 & l2 & ->).
      rewrite (filter_split _ _ _ (rep_nodup _ _ _ Hrep)).
      destruct (move_up_rep _ _ _ _ _ Hrep) as (q' & os' & -> & H). by exists q', os'.
    + destruct Hok as [n Hn]. destruct (rep_out _ _ _ Hrep _ _ Hn Hin) as [Hf _].
      unfold move_up. rewrite (object_some _ _ _ Hn). cbn. rewrite Hf. cbn. by exists q, os.
Qed.

(** ** Two objects, one queued *)

Definition sample_objects : objects := {[ 5%positive := mk_links None None true; 7%positive := init_links ]}.
Definition sample_queue : double_queue := mk_double_queue (Some 5%positive) (Some 5%positive) 1.

Lemma sample_rep : double_rep sample_queue sample_objects [5%positive].
Proof.
  constructor; try done; [apply NoDup_singleton|].
  intros a n Ha Hni. unfold sample_objects in Ha.
  apply lookup_insert_Some in Ha as [[<- _]|[_ Ha]]; [exfalso; apply Hni; by left|].
  apply lookup_singleton_Some in Ha as [_ <-]. done.
Qed.

Lemma double_queue_refines_witness :
  (∃ q' os', run_op (op_push_tail 7) sample_queue sample_objects = Ok (None, q', os') ∧
             double_rep q' os' [5%positive; 7%positive]) ∧
  run_op op_pop_if_not_empty sample_queue sample_objects = Err undefined_behaviour.
Proof.
  split.
  - apply (double_queue_refines (op_push_tail 7) sample_queue sample_objects [5%positive] sample_rep).
    by exists init_links.
  - exact (double_queue_refines op_pop_if_not_empty sample_queue sample_objects [5%positive] sample_rep I).
Defined.
