(* ===== verification/BoundedQueue.v ===== *)
(** The bounded priority queue: [queue/bounded_pqueue.hpp], a tree of counters whose
    leaves are queues, one for each priority.  The queue of a leaf is a template
    parameter of the code, here a class. *)

From Stdlib Require Import ZArith Lia Bool.
From stdpp Require Import base tactics list numbers option gmap.
From S2P Require Import Prelude Words LinearQueue.

#[local] Open Scope Z_scope.

(** ** The container of a leaf *)

Class bin (T C : Type) : Type := {
  bin_new : C;
  bin_push : T → C → res C;
  bin_pop : C → res (T * C);
  bin_top : C → res T;
  bin_pop_list : C → list T → res (C * list T);
  bin_empty : C → bool;
  bin_elements : C → res (list T)
}.

(** what [bounded_pqueue] relies on *)
Class bin_laws (T C : Type) `{bin T C} : Type := {
  bin_rep : C → list T → Prop;
  bin_new_rep : bin_rep bin_new [];
  bin_push_rep : ∀ c l x, bin_rep c l → ∃ c', bin_push x c = Ok c' ∧ bin_rep c' (l ++ [x]);
  bin_pop_rep : ∀ c l x, bin_rep c (x :: l) → ∃ c', bin_pop c = Ok (x, c') ∧ bin_rep c' l;
  bin_top_rep : ∀ c l x, bin_rep c (x :: l) → bin_top c = Ok x;
  bin_pop_list_rep : ∀ c l vec, bin_rep c l →
    ∃ c', bin_pop_list c vec = Ok (c', vec ++ l) ∧ bin_rep c' [];
  bin_empty_rep : ∀ c l, bin_rep c l → bin_empty c = true ↔ l = [];
  bin_elements_rep : ∀ c l, bin_rep c l → bin_elements c = Ok l
}.

(** [unsafe_bounded_pqueue] *)
#[global] Instance linear_bin {T} : bin T (linear_queue T) := {|
  bin_new := new_linear_queue;
  bin_push := linear_push;
  bin_pop := linear_pop;
  bin_top := linear_top;
  bin_pop_list := linear_pop_list;
  bin_empty := linear_empty;
  bin_elements := linear_elements
|}.

#[global] Program Instance linear_bin_laws {T} : bin_laws T (linear_queue T) := {|
  bin_rep := linear_rep
|}.
Next Obligation. intros. apply linear_rep_new. Qed.
Next Obligation. intros. by apply linear_push_rep. Qed.
Next Obligation. intros. by apply linear_pop_rep. Qed.
Next Obligation. intros. by eapply linear_top_rep. Qed.
Next Obligation. intros. by apply linear_pop_list_rep. Qed.
Next Obligation. intros. by apply linear_empty_rep. Qed.
Next Obligation. intros. by apply linear_elements_rep. Qed.

(** ** The tree *)

(** [queue_tree_node]: a node has both children or none *)
Inductive queue_tree (C : Type) : Type :=
  | tree_leaf (b : C)
  | tree_node (counter : Z) (left right : queue_tree C).
Arguments tree_leaf {C} b.
Arguments tree_node {C} counter left right.

Record bounded_pqueue (C : Type) : Type := mk_bounded_pqueue { btree : queue_tree C; btotal : Z }.
Arguments mk_bounded_pqueue {C} btree btotal.
Arguments btree {C}. Arguments btotal {C}.

Section Bounded.
Context {T C : Type} `{!bin T C}.

(** the leaves, from priority 0 *)
Fixpoint leaves (t : queue_tree C) : list C :=
  match t with
  | tree_leaf b => [b]
  | tree_node _ l r => leaves l ++ leaves r
  end.

Fixpoint build_tree (height : nat) : queue_tree C :=
  match height with
  | O => tree_leaf bin_new
  | S height => tree_node 0 (build_tree height) (build_tree height)
  end.

(** [next_power2] does not end above 2^63 *)
Definition new_bounded_pqueue (range : Z) : res (bounded_pqueue C) :=
  asserting (0 <? range)
    (let* number_leaves := of_option (next_power2 64 64 range) in
     asserting (range <=? number_leaves)
       (let* height := of_option (upper_log2 64 64 number_leaves) in
        Ok (mk_bounded_pqueue (build_tree (Z.to_nat height)) 0))).

Definition bounded_empty (q : bounded_pqueue C) : bool := btotal q =? 0.
Definition bounded_size (q : bounded_pqueue C) : Z := btotal q.

(** [push]: from the leaf up, a counter grows when it is reached from the left *)
Fixpoint tree_push (item : T) (prio : nat) (t : queue_tree C) : res (queue_tree C) :=
  match t with
  | tree_leaf b => let* b := bin_push item b in Ok (tree_leaf b)
  | tree_node n l r =>
      if decide (prio < length (leaves l))%nat then
        let* l := tree_push item prio l in Ok (tree_node (wrap 64 (n + 1)) l r)
      else
        let* r := tree_push item (prio - length (leaves l)) r in Ok (tree_node n l r)
  end.

Definition bounded_push (item : T) (prio : nat) (q : bounded_pqueue C) : res (bounded_pqueue C) :=
  asserting (bool_decide (prio < length (leaves (btree q)))%nat)
    (let* t := tree_push item prio (btree q) in
     Ok (mk_bounded_pqueue t (wrap 64 (btotal q + 1)))).

(** down from the root, to the left where the counter is positive *)
Fixpoint tree_top (t : queue_tree C) : res T :=
  match t with
  | tree_leaf b => asserting (negb (bin_empty b)) (bin_top b)
  | tree_node n l r => if 0 <? n then tree_top l else tree_top r
  end.
Definition bounded_top (q : bounded_pqueue C) : res T := tree_top (btree q).

Fixpoint tree_pop (t : queue_tree C) : res (T * queue_tree C) :=
  match t with
  | tree_leaf b =>
      asserting (negb (bin_empty b)) (let* r := bin_pop b in Ok (r.1, tree_leaf r.2))
  | tree_node n l r =>
      if 0 <? n then let* x := tree_pop l in Ok (x.1, tree_node (wrap 64 (n - 1)) x.2 r)
      else let* x := tree_pop r in Ok (x.1, tree_node n l x.2)
  end.

Definition bounded_pop (q : bounded_pqueue C) : res (T * bounded_pqueue C) :=
  asserting (negb (bounded_empty q))
    (let* r := tree_pop (btree q) in
     asserting (0 <? btotal q) (Ok (r.1, mk_bounded_pqueue r.2 (wrap 64 (btotal q - 1))))).

(** [top_list] takes the whole leaf and subtracts the size of [vec] afterwards *)
Fixpoint tree_pop_list (vec : list T) (t : queue_tree C) : res (list T * queue_tree C) :=
  match t with
  | tree_leaf b =>
      asserting (negb (bin_empty b))
        (let* r := bin_pop_list b vec in
         asserting (negb (bool_decide (r.2 = []))) (Ok (r.2, tree_leaf r.1)))
  | tree_node n l r =>
      if 0 <? n then
        let* x := tree_pop_list vec l in
        Ok (x.1, tree_node (wrap 64 (n - Z.of_nat (length x.1))) x.2 r)
      else let* x := tree_pop_list vec r in Ok (x.1, tree_node n l x.2)
  end.

Definition bounded_top_list (q : bounded_pqueue C) (vec : list T)
  : res (list T * bounded_pqueue C) :=
  if bounded_empty q then Ok (vec, q)
  else
    let* r := tree_pop_list vec (btree q) in
    Ok (r.1, mk_bounded_pqueue r.2 (wrap 64 (btotal q - Z.of_nat (length r.1)))).

(** the iterator goes through the leaves *)
Fixpoint concat_elements (bs : list C) : res (list T) :=
  match bs with
  | [] => Ok []
  | b :: bs =>
      let* xs := bin_elements b in
      let* ys := concat_elements bs in
      Ok (xs ++ ys)
  end.
Definition bounded_elements (q : bounded_pqueue C) : res (list T) :=
  concat_elements (leaves (btree q)).

End Bounded.

(** ** What the queue stands for *)

(** one list per priority *)
Section Spec.
Context {T : Type}.

Fixpoint pop_first (L : list (list T)) : option (T * list (list T)) :=
  match L with
  | [] => None
  | [] :: L => r ← pop_first L; Some (r.1, [] :: r.2)
  | (x :: l) :: L => Some (x, l :: L)
  end.

Fixpoint take_first (L : list (list T)) : option (list T * list (list T)) :=
  match L with
  | [] => None
  | [] :: L => r ← take_first L; Some (r.1, [] :: r.2)
  | l :: L => Some (l, [] :: L)
  end.

Lemma pop_first_app L1 L2 :
  pop_first (L1 ++ L2) =
  match pop_first L1 with
  | Some r => Some (r.1, r.2 ++ L2)
  | None => r ← pop_first L2; Some (r.1, L1 ++ r.2)
  end.
Proof.
  induction L1 as [|[|x l] L1 IH]; cbn; [by destruct (pop_first L2) as [[? ?]|]| |done].
  rewrite IH. destruct (pop_first L1) as [[? ?]|]; [done|]. by destruct (pop_first L2) as [[? ?]|].
Qed.

Lemma take_first_app L1 L2 :
  take_first (L1 ++ L2) =
  match take_first L1 with
  | Some r => Some (r.1, r.2 ++ L2)
  | None => r ← take_first L2; Some (r.1, L1 ++ r.2)
  end.
Proof.
  induction L1 as [|[|x l] L1 IH]; cbn; [by destruct (take_first L2) as [[? ?]|]| |done].
  rewrite IH. destruct (take_first L1) as [[? ?]|]; [done|]. by destruct (take_first L2) as [[? ?]|].
Qed.

Lemma pop_first_none L : pop_first L = None ↔ concat L = [].
Proof.
  induction L as [|[|x l] L IH]; cbn; [done| |done]. rewrite <-IH.
  by destruct (pop_first L) as [[? ?]|].
Qed.

Lemma take_first_none L : take_first L = None ↔ concat L = [].
Proof.
  induction L as [|[|x l] L IH]; cbn; [done| |done]. rewrite <-IH.
  by destruct (take_first L) as [[? ?]|].
Qed.

Lemma pop_first_length L x L' : pop_first L = Some (x, L') → length (concat L) = S (length (concat L')).
Proof.
  revert L'. induction L as [|[|y l] L IH]; intros L'; cbn; [done| |].
  - destruct (pop_first L) as [[z L1]|] eqn:E; cbn; [|done]. intros [= -> <-]. by apply (IH L1).
  - intros [= -> <-]. cbn. by rewrite !length_app.
Qed.

Lemma take_first_length L l L' :
  take_first L = Some (l, L') → length (concat L) = (length l + length (concat L'))%nat.
Proof.
  revert L'. induction L as [|[|y k] L IH]; intros L'; cbn; [done| |].
  - destruct (take_first L) as [[z L1]|] eqn:E; cbn; [|done]. intros [= -> <-]. by apply (IH L1).
  - intros [= <- <-]. cbn. by rewrite !length_app.
Qed.

Lemma take_first_concat (L : list (list T)) l L' :
  take_first L = Some (l, L') → length L' = length L ∧ concat L = l ++ concat L'.
Proof.
  revert L'. induction L as [|[|x k] L IH]; intros L' H; cbn in H; [done| |].
  - destruct (take_first L) as [[? ?]|]; [|done]. injection H as <- <-.
    destruct (IH _ eq_refl). split; cbn; [lia|done].
  - injection H as <- <-. done.
Qed.

Lemma concat_alter_length L prio (x : T) :
  (prio < length L)%nat → length (concat (alter (λ l, l ++ [x]) prio L)) = S (length (concat L)).
Proof.
  revert prio. induction L as [|l L IH]; intros [|prio] Hp; cbn in *; [lia|lia| |].
  - rewrite !length_app. cbn. lia.
  - rewrite !length_app, IH by lia. lia.
Qed.

End Spec.

Section Refinement.
Context {T C : Type} `{!bin T C} `{!bin_laws T C}.
Implicit Types (t : queue_tree C) (L : list (list T)).

(** the leaves hold the lists, a counter the number of elements to its left *)
Fixpoint tree_rep (t : queue_tree C) (L : list (list T)) : Prop :=
  match t with
  | tree_leaf b => ∃ l, L = [l] ∧ bin_rep b l
  | tree_node n l r =>
      ∃ L1 L2, L = L1 ++ L2 ∧ tree_rep l L1 ∧ tree_rep r L2 ∧
               n = Z.of_nat (length (concat L1)) ∧ (n < 2 ^ 64)
  end.

Definition bounded_rep (q : bounded_pqueue C) (L : list (list T)) : Prop :=
  tree_rep (btree q) L ∧ btotal q = Z.of_nat (length (concat L)) ∧ btotal q < 2 ^ 64.

Lemma tree_rep_length t L : tree_rep t L → length L = length (leaves t).
Proof.
  revert L. induction t as [b|n l IHl r IHr]; intros L; cbn; [by intros (? & -> & _)|].
  intros (L1 & L2 & -> & H1 & H2 & _). by rewrite !length_app, (IHl L1), (IHr L2).
Qed.

Lemma wrap_nat n : Z.of_nat n < 2 ^ 64 → wrap 64 (Z.of_nat n) = Z.of_nat n.
Proof. intros. apply wrap_id. lia. Qed.

Lemma build_tree_rep h : tree_rep (build_tree h) (replicate (2 ^ h) []).
Proof.
  induction h as [|h IH]; cbn; [eexists; split; [done|apply bin_new_rep]|].
  exists (replicate (2 ^ h) []), (replicate (2 ^ h) []).
  assert (Hc : ∀ n, concat (replicate n []) = ([] : list T)) by (induction n; done).
  rewrite Nat.add_0_r, replicate_add, Hc. by split_and!.
Qed.

Lemma tree_push_rep t L x prio :
  tree_rep t L → (prio < length L)%nat → Z.of_nat (S (length (concat L))) < 2 ^ 64 →
  ∃ t', tree_push x prio t = Ok t' ∧ tree_rep t' (alter (λ l, l ++ [x]) prio L).
Proof.
  revert L prio. induction t as [b|n l IHl r IHr]; intros L prio; cbn [tree_rep tree_push].
  - intros (k & -> & Hb) Hp _. destruct (bin_push_rep b k x Hb) as (b' & -> & Hb').
    exists (tree_leaf b'). split; [done|]. destruct prio; [|cbn in Hp; lia]. by exists (k ++ [x]).
  - intros (L1 & L2 & -> & H1 & H2 & -> & Hn) Hp Hs.
    pose proof (tree_rep_length _ _ H1) as Hlen.
    rewrite concat_app, length_app in Hs. rewrite length_app in Hp. rewrite <-Hlen.
    case_decide as Hlt.
    + destruct (IHl L1 prio H1 Hlt ltac:(lia)) as (l' & -> & Hl'). cbn. eexists. split; [done|].
      rewrite alter_app_l by done. eexists _, L2. split_and!; [done|done|done| |].
      * rewrite concat_alter_length by done. rewrite wrap_id; lia.
      * rewrite wrap_id; lia.
    + destruct (IHr L2 (prio - length L1)%nat H2 ltac:(lia) ltac:(lia)) as (r' & -> & Hr').
      cbn. eexists. split; [done|]. exists L1, (alter (λ l, l ++ [x]) (prio - length L1)%nat L2).
      split_and!; [|done..].
      replace prio with (length L1 + (prio - length L1))%nat at 1 by lia. apply alter_app_r.
Qed.

Lemma counter_left L1 :
  (0 <? Z.of_nat (length (concat L1))) = match concat L1 : list T with [] => false | _ => true end.
Proof. by destruct (concat L1). Qed.

(** the walk down reaches the first leaf that is not empty *)
Lemma tree_pop_rep t L x L' :
  tree_rep t L → pop_first L = Some (x, L') →
  tree_top t = Ok x ∧ ∃ t', tree_pop t = Ok (x, t') ∧ tree_rep t' L'.
Proof.
  revert L L'. induction t as [b|n l IHl r IHr]; intros L L'; cbn [tree_rep tree_pop tree_top].
  - intros (k & -> & Hb) Hp. destruct k as [|y k]; cbn in Hp; [done|]. injection Hp as -> <-.
    assert (bin_empty b = false) as ->.
    { destruct (bin_empty b) eqn:E; [|done]. by apply (bin_empty_rep b _ Hb) in E. }
    cbn. split; [by eapply bin_top_rep|].
    destruct (bin_pop_rep b k x Hb) as (b' & -> & Hb'). cbn. eexists. split; [done|]. by exists k.
  - intros (L1 & L2 & -> & H1 & H2 & -> & Hn) Hp. rewrite counter_left.
    rewrite pop_first_app in Hp. destruct (pop_first L1) as [[y L1']|] eqn:E.
    + injection Hp as -> <-. pose proof (pop_first_length _ _ _ E) as Hlen.
      destruct (concat L1) eqn:Ec; [done|]. cbn in Hlen.
      destruct (IHl L1 L1' H1 E) as (Ht & l' & -> & Hl'). split; [done|]. cbn.
      eexists. split; [done|]. exists L1', L2. cbn in Hn.
      assert (Z.of_nat (S (length l0)) - 1 = Z.of_nat (length (concat L1'))) as -> by lia.
      rewrite wrap_nat by lia. split_and!; try done. lia.
    + apply pop_first_none in E as Ec. rewrite Ec.
      destruct (pop_first L2) as [[y L2']|] eqn:E2; cbn in Hp; [|done]. injection Hp as -> <-.
      destruct (IHr L2 L2' H2 E2) as (Ht & r' & -> & Hr'). split; [done|]. cbn.
      eexists. split; [done|]. exists L1, L2'. rewrite Ec. by split_and!.
Qed.

Lemma tree_pop_list_rep t L k L' :
  tree_rep t L → take_first L = Some (k, L') →
  ∃ t', tree_pop_list [] t = Ok (k, t') ∧ tree_rep t' L'.
Proof.
  revert L L'. induction t as [b|n l IHl r IHr]; intros L L'; cbn [tree_rep tree_pop_list].
  - intros (j & -> & Hb) Hp. destruct j as [|y j]; cbn in Hp; [done|]. injection Hp as <- <-.
    assert (bin_empty b = false) as ->.
    { destruct (bin_empty b) eqn:E; [|done]. by apply (bin_empty_rep b _ Hb) in E. }
    cbn. destruct (bin_pop_list_rep b (y :: j) [] Hb) as (b' & -> & Hb'). cbn.
    eexists. split; [done|]. by exists [].
  - intros (L1 & L2 & -> & H1 & H2 & -> & Hn) Hp. rewrite counter_left.
    rewrite take_first_app in Hp. destruct (take_first L1) as [[y L1']|] eqn:E.
    + injection Hp as -> <-. pose proof (take_first_length _ _ _ E) as Hlen.
      destruct (concat L1) eqn:Ec.
      { apply take_first_none in Ec. congruence. }
      destruct (IHl L1 L1' H1 E) as (l' & -> & Hl'). cbn [res_bind fst snd].
      eexists. split; [done|]. exists L1', L2.
      assert (Z.of_nat (length (t :: l0)) - Z.of_nat (length k) = Z.of_nat (length (concat L1'))) as ->
        by lia.
      rewrite wrap_nat by lia. split_and!; try done. lia.
    + apply take_first_none in E as Ec. rewrite Ec.
      destruct (take_first L2) as [[y L2']|] eqn:E2; cbn in Hp; [|done]. injection Hp as -> <-.
      destruct (IHr L2 L2' H2 E2) as (r' & -> & Hr'). cbn.
      eexists. split; [done|]. exists L1, L2'. rewrite Ec. by split_and!.
Qed.

Lemma elements_rep t L : tree_rep t L → concat_elements (leaves t) = Ok (concat L).
Proof.
  assert (Happ : ∀ bs1 bs2 (xs ys : list T), concat_elements bs1 = Ok xs → concat_elements bs2 = Ok ys →
            concat_elements (bs1 ++ bs2) = Ok (xs ++ ys)).
  { induction bs1 as [|b bs1 IH]; intros bs2 xs ys H1 H2; cbn in *; [by injection H1 as <-|].
    res_inv. rewrite H. cbn. rewrite (IH _ _ _ H0 H2). cbn. by rewrite app_assoc. }
  revert L. induction t as [b|n l IHl r IHr]; intros L; cbn [tree_rep leaves].
  - intros (k & -> & Hb). cbn. by rewrite (bin_elements_rep b k Hb).
  - intros (L1 & L2 & -> & H1 & H2 & _). rewrite concat_app. by apply Happ; [apply IHl|apply IHr].
Qed.

Lemma bounded_empty_ok (q : bounded_pqueue C) L :
  bounded_rep q L → bounded_empty q = true ↔ concat L = [].
Proof.
  intros (_ & Htot & _). unfold bounded_empty. rewrite Htot, Z.eqb_eq.
  destruct (concat L); cbn; split; (done || lia).
Qed.

Lemma bounded_push_ok (q : bounded_pqueue C) L x prio :
  bounded_rep q L → (prio < length L)%nat → Z.of_nat (S (length (concat L))) < 2 ^ 64 →
  ∃ q', bounded_push x prio q = Ok q' ∧ bounded_rep q' (alter (λ l, l ++ [x]) prio L).
Proof.
  intros (Ht & Htot & _) Hp Hs. unfold bounded_push.
  rewrite <-(tree_rep_length _ _ Ht), bool_decide_true by done.
  destruct (tree_push_rep _ _ x prio Ht Hp Hs) as (t' & -> & Ht'). cbn. eexists. split; [done|].
  split; [done|]. cbn. rewrite concat_alter_length by done. rewrite Htot.
  rewrite wrap_id by lia. lia.
Qed.

Lemma bounded_top_list_ok (q : bounded_pqueue C) L l L' :
  bounded_rep q L → take_first L = Some (l, L') →
  ∃ q', bounded_top_list q [] = Ok (l, q') ∧ bounded_rep q' L'.
Proof.
  intros (Ht & Htot & Hlt) Hp. destruct (tree_pop_list_rep _ _ _ _ Ht Hp) as (t' & Hpop & Ht').
  pose proof (take_first_length _ _ _ Hp). unfold bounded_top_list, bounded_empty.
  assert (btotal q =? 0 = false) as ->.
  { apply Z.eqb_neq. destruct (concat L) eqn:E; [|cbn in Htot; lia].
    apply take_first_none in E. congruence. }
  rewrite Hpop. cbn. eexists. split; [done|]. split; [done|]. cbn.
  rewrite wrap_id by lia. lia.
Qed.

(** C28: the bounded priority queue implements a list for each priority.  A new one
    has a list for every priority below its range; [push] appends to the list of its
    priority; [top] and [pop] give the first element of the least priority that has
    one; [top_list] on an empty vector takes the whole list; the iterator goes
    through the priorities in order.  No counter overflows below 2^64 elements. *)
Theorem bounded_pqueue_refines (q : bounded_pqueue C) (L : list (list T)) (Hrep : bounded_rep q L) :
  (bounded_empty q = true ↔ concat L = []) ∧
  bounded_elements q = Ok (concat L) ∧
  (∀ x prio, (prio < length L)%nat → Z.of_nat (S (length (concat L))) < 2 ^ 64 →
     ∃ q', bounded_push x prio q = Ok q' ∧ bounded_rep q' (alter (λ l, l ++ [x]) prio L)) ∧
  (∀ x L', pop_first L = Some (x, L') →
     bounded_top q = Ok x ∧ ∃ q', bounded_pop q = Ok (x, q') ∧ bounded_rep q' L') ∧
  (∀ l L', take_first L = Some (l, L') →
     ∃ q', bounded_top_list q [] = Ok (l, q') ∧ bounded_rep q' L').
Proof.
  split; [by eapply bounded_empty_ok|]. split; [by eapply elements_rep; destruct Hrep|].
  split; [intros; by eapply bounded_push_ok|]. split; [|intros; by eapply bounded_top_list_ok].
  intros x L' Hp. destruct Hrep as (Ht & Htot & Hlt).
  destruct (tree_pop_rep _ _ _ _ Ht Hp) as (Htop & t' & Hpop & Ht').
  split; [done|]. pose proof (pop_first_length _ _ _ Hp). unfold bounded_pop, bounded_empty.
  assert (btotal q =? 0 = false) as -> by (apply Z.eqb_neq; lia). cbn. rewrite Hpop. cbn.
  assert (0 <? btotal q = true) as -> by (apply Z.ltb_lt; lia). cbn. eexists. split; [done|].
  split; [done|]. cbn. rewrite wrap_id by lia. lia.
Qed.

(** a new queue has a list for every priority below its range *)
Lemma new_bounded_pqueue_rep range :
  0 < range <= 2 ^ 63 →
  ∃ (q : bounded_pqueue C) L, new_bounded_pqueue range = Ok q ∧ bounded_rep q L ∧
    concat L = [] ∧ (Z.to_nat range <= length L)%nat.
Proof.
  intros Hr. unfold new_bounded_pqueue.
  assert (0 <? range = true) as -> by (apply Z.ltb_lt; lia). cbn [asserting].
  destruct (next_power2_ok 64 range ltac:(lia) ltac:(lia)) as (k & Hk & Hlog & Hk64).
  change (Z.to_nat 64) with 64%nat in Hk. rewrite Hk. cbn [of_option res_bind].
  pose proof Hlog as (Hk0 & Hle & Hleast).
  assert (range <=? 2 ^ k = true) as -> by (apply Z.leb_le; lia). cbn [asserting].
  assert (H2k : 2 ^ k <= 2 ^ 63) by (apply Z.pow_le_mono_r; lia).
  destruct (upper_log2_ok 64 (2 ^ k) ltac:(lia) ltac:(lia)) as (j & Hj & (Hj0 & Hjle & Hjleast) & _).
  change (Z.to_nat 64) with 64%nat in Hj. rewrite Hj. cbn [of_option res_bind].
  eexists _, _. split; [done|]. split; [split_and!; [apply build_tree_rep|cbn|cbn; lia]|].
  - clear. induction (2 ^ Z.to_nat j)%nat; done.
  - split; [clear; induction (2 ^ Z.to_nat j)%nat; done|].
    rewrite length_replicate. assert (range <= 2 ^ j) by lia.
    apply Nat2Z.inj_le. rewrite Nat2Z.inj_pow, !Z2Nat.id by lia. done.
Qed.

End Refinement.

Lemma bounded_pqueue_refines_witness :
  ∃ q : bounded_pqueue (linear_queue Z),
    new_bounded_pqueue 3 = Ok q ∧ bounded_elements q = Ok [] ∧
    ∃ q', bounded_push 7 2 q = Ok q' ∧ bounded_rep q' [[]; []; [7]; []].
Proof.
  assert (H : ∃ q : bounded_pqueue (linear_queue Z), new_bounded_pqueue 3 = Ok q ∧
            bounded_rep q [[]; []; []; []]).
  { eexists. split; [reflexivity|]. split; [exact (build_tree_rep 2)|]. by split. }
  destruct H as (q & Hq & Hrep). exists q. split; [done|].
  destruct (bounded_pqueue_refines q _ Hrep) as (_ & He & Hp & _).
  split; [exact He|]. apply (Hp 7 2%nat); cbn; lia.
Defined.
