(* ===== verification/Externals.v ===== *)
(** The functions Meld programs call: [external/*.cpp], and their table in
    [vm/external.{hpp,cpp}].  An argument and a result are a [tuple_field]. *)

From Stdlib Require Import ZArith Lia Bool SpecFloat Sorted.
From stdpp Require Import base tactics list numbers option gmap sorting strings pretty.
From S2P Require Import Prelude Words Types RuntimeList Tuple.

#[local] Open Scope Z_scope.

(** ** Library functions *)

(** Functions of the C library, of boost and of the system, and the priority
    scheduler's nodes when it runs ([prio_db]).  [G] is the state of the random
    number generators. *)
Record c_library (G : Type) : Type := mk_c_library {
  lib_exp : spec_float → spec_float;
  lib_log : spec_float → spec_float;
  lib_pow10 : Z → spec_float;                       (** [pow(10.0, many)] *)
  lib_float_text : Z → list byte;                   (** [stringstream << double] *)
  lib_parse_float : list byte → option Z;           (** [istringstream >> double] *)
  lib_split : list byte → list (list byte);         (** [split(s, is_any_of(", "), token_compress_on)] *)
  lib_random_unsigned : Z → G → Z * G;
  lib_uniform : G → spec_float * G;                 (** [uniform_real<>(0, 1)] *)
  lib_file_words : list byte → Z → Z;               (** words of the n-th regular file *)
  lib_prio_db : option (Z → option (Z * Z))         (** priority bits and owner of a node *)
}.
Arguments lib_exp {G}. Arguments lib_log {G}. Arguments lib_pow10 {G}.
Arguments lib_float_text {G}. Arguments lib_parse_float {G}. Arguments lib_split {G}.
Arguments lib_random_unsigned {G}. Arguments lib_uniform {G}.
Arguments lib_file_words {G}. Arguments lib_prio_db {G}.

(** ** Loops over lists *)

(** [while(!is_null(p) && cond) { body; p = p->get_tail(); }] *)
Fixpoint while_list {A} (cond : A → bool) (body : A → Z → res A) (fuel : nat) (st : store)
    (p : list_ptr) (acc : A) : res (list_ptr * A) :=
  match fuel with
  | O => Err undefined_behaviour
  | S fuel =>
      if is_null p || negb (cond acc) then Ok (p, acc)
      else
        let* c := deref st p in
        let* acc := body acc (head c) in
        while_list cond body fuel st (tail c) acc
  end.

Definition list_while {A} (cond : A → bool) (body : A → Z → res A) (st : store) (p : list_ptr) (acc : A)
  : res (list_ptr * A) := while_list cond body (base.size st + 1) st p acc.

(** without a condition *)
Definition for_list {A} (body : A → Z → res A) (st : store) (p : list_ptr) (acc : A) : res A :=
  let* r := list_while (λ _, true) body st p acc in Ok r.2.

(** [while(!is_null(p) && !is_null(q))] *)
Fixpoint for_lists2_loop {A} (body : A → Z → Z → res A) (fuel : nat) (st : store)
    (p q : list_ptr) (acc : A) : res A :=
  match fuel with
  | O => Err undefined_behaviour
  | S fuel =>
      if is_null p || is_null q then Ok acc
      else
        let* c := deref st p in
        let* d := deref st q in
        let* acc := body acc (head c) (head d) in
        for_lists2_loop body fuel st (tail c) (tail d) acc
  end.

Definition for_lists2 {A} (body : A → Z → Z → res A) (st : store) (p q : list_ptr) (acc : A) : res A :=
  for_lists2_loop body (base.size st + 1) st p q acc.

(** [s.push(x)] on a stack, the top first *)
Definition push_stack (s : list Z) (x : Z) : res (list Z) := Ok (x :: s).
(** [vec.push_back(x)] *)
Definition push_vector (s : list Z) (x : Z) : res (list Z) := Ok (s ++ [x]).

(** ** Arguments and results *)

(** [RETURN_INT] and its siblings: the rest of the union is not set *)
Definition return_int (v : Z) : tuple_field := set_int_field 0 v.
Definition return_node (v : Z) : tuple_field := set_node_field 0 v.
Definition return_float (f : spec_float) : tuple_field := bits_of_float f.

(** [RETURN_*_LIST] of a list made from a stack *)
Definition return_list (k : list_kind) (r : res (store * list_ptr)) (m : memory)
  : res (tuple_field * memory) :=
  let* r := r in Ok (set_ptr_field 0 r.2, set_lists m k r.1).

Definition ints (m : memory) : store := lists m IntList.
Definition floats (m : memory) : store := lists m FloatList.
Definition nodes_ (m : memory) : store := lists m NodeList.

(** the int a cell holds *)
Definition head_int (h : Z) : Z := swrap 32 h.

(** ** [external/lists.cpp] *)

Definition list_length (k : list_kind) (ls : tuple_field) (m : memory) : res (tuple_field * memory) :=
  let* n := for_list (λ total _, Ok (swrap 32 (total + 1))) (lists m k) (ptr_field ls) 0 in
  Ok (return_int n, m).

Definition intlistlength (ls : tuple_field) (m : memory) := list_length IntList ls m.

Definition has_value (st : store) (l : list_ptr) (v : Z) : res bool :=
  let* r := list_while negb (λ _ h, Ok (h =? v)) st l false in Ok r.2.

Definition intlistdiff (ls1 ls2 : tuple_field) (m : memory) : res (tuple_field * memory) :=
  let* s := for_list (λ s h, let* b := has_value (ints m) (ptr_field ls2) h in
                             if b then Ok s else push_stack s h)
              (ints m) (ptr_field ls1) [] in
  return_list IntList (from_stack_to_list (ints m) s) m.

(** the list must be longer than [v] *)
Definition intlistnth (ls v : tuple_field) (m : memory) : res (tuple_field * memory) :=
  let* r := list_while (λ a, match a.2 with None => true | Some _ => false end)
              (λ a h, if a.1 =? int_field v then Ok (a.1, Some h) else Ok (swrap 32 (a.1 + 1), None))
              (ints m) (ptr_field ls) (0, None) in
  match r.2.2 with
  | Some h => Ok (return_int (head_int h), m)
  | None => Err assert_fail
  end.

Definition nodelistremove (ls n : tuple_field) (m : memory) : res (tuple_field * memory) :=
  let* s := for_list (λ s h, if negb (h =? node_field n) then push_stack s h else Ok s)
              (nodes_ m) (ptr_field ls) [] in
  return_list NodeList (from_stack_to_list (nodes_ m) s) m.

Definition intlistsub (p a b : tuple_field) (m : memory) : res (tuple_field * memory) :=
  let* r := list_while (λ ctn, ctn <? int_field a) (λ ctn _, Ok (ctn + 1)) (ints m) (ptr_field p) 0 in
  let* r := list_while (λ x, x.1 <? int_field b) (λ x h, Ok (x.1 + 1, h :: x.2)) (ints m) r.1 (r.2, []) in
  return_list IntList (from_stack_to_list (ints m) r.2.2) m.

Definition list_append (k : list_kind) (ls1 ls2 : tuple_field) (m : memory) : res (tuple_field * memory) :=
  let* s := for_list push_stack (lists m k) (ptr_field ls1) [] in
  let* s := for_list push_stack (lists m k) (ptr_field ls2) s in
  return_list k (from_stack_to_list (lists m k) s) m.

Definition intlistappend (ls1 ls2 : tuple_field) (m : memory) := list_append IntList ls1 ls2 m.

(** [cmp_ints]; [std::sort] of equal elements may permute them *)
Definition cmp_ints (i j : Z) : bool := head_int j <? head_int i.

#[local] Instance sorts_before_dec : RelDecision (λ i j, cmp_ints j i = false).
Proof. intros i j. apply _. Defined.

Definition intlistsort (ls : tuple_field) (m : memory) : res (tuple_field * memory) :=
  let* vec := for_list push_vector (ints m) (ptr_field ls) [] in
  return_list IntList
    (from_vector_to_reverse_list (ints m) (merge_sort (λ i j, cmp_ints j i = false) vec)) m.

(** the loop over [j] and the loop over [i] *)
Definition mark_duplicates (vec : list Z) (i : nat) (v : Z) (marked : list bool) : list bool :=
  imap (λ j b, if (i <? j)%nat && bool_decide (vec !! j = Some v) then false else b) marked.

Fixpoint remove_duplicates_loop (vec : list Z) (rest : list Z) (i : nat) (marked : list bool) (s : list Z)
  : list Z :=
  match rest with
  | [] => s
  | v :: rest =>
      if bool_decide (marked !! i = Some false) then remove_duplicates_loop vec rest (S i) marked s
      else remove_duplicates_loop vec rest (S i) (mark_duplicates vec i v marked) (v :: s)
  end.

Definition intlistremoveduplicates (ls : tuple_field) (m : memory) : res (tuple_field * memory) :=
  let* vec := for_list push_vector (ints m) (ptr_field ls) [] in
  return_list IntList
    (from_stack_to_list (ints m) (remove_duplicates_loop vec vec 0 (replicate (length vec) true) [])) m.

(** the loop ends at the end of the first list *)
Fixpoint list_equal_loop (fuel : nat) (st : store) (ls1 ls2 : list_ptr) : res Z :=
  match fuel with
  | O => Err undefined_behaviour
  | S fuel =>
      if is_null ls1 then Ok (if is_null ls2 then 1 else 0)
      else if is_null ls2 then Ok 0
      else
        let* c1 := deref st ls1 in
        let* c2 := deref st ls2 in
        if negb (head c1 =? head c2) then Ok 0 else list_equal_loop fuel st (tail c1) (tail c2)
  end.

Definition intlistequal (l1 l2 : tuple_field) (m : memory) : res (tuple_field * memory) :=
  let* r := list_equal_loop (base.size (ints m) + 1) (ints m) (ptr_field l1) (ptr_field l2) in
  Ok (return_int r, m).

Definition nodelistlength (ls : tuple_field) (m : memory) := list_length NodeList ls m.

Definition nodelistcount (ls el : tuple_field) (m : memory) : res (tuple_field * memory) :=
  let* n := for_list (λ total h, Ok (if h =? node_field el then swrap 32 (total + 1) else total))
              (nodes_ m) (ptr_field ls) 0 in
  Ok (return_int n, m).

Definition nodelistappend (ls1 ls2 : tuple_field) (m : memory) := list_append NodeList ls1 ls2 m.

Definition nodelistreverse (ls : tuple_field) (m : memory) : res (tuple_field * memory) :=
  let* s := for_list push_stack (nodes_ m) (ptr_field ls) [] in
  return_list NodeList (from_stack_to_reverse_list (nodes_ m) s) m.

(** 0 for the empty list *)
Definition nodelistlast (ls : tuple_field) (m : memory) : res (tuple_field * memory) :=
  let* n := for_list (λ _ h, Ok h) (nodes_ m) (ptr_field ls) 0 in
  Ok (return_node n, m).

(** ** Numbers in text *)

Definition is_space (b : byte) : bool := (b =? 32) || ((9 <=? b) && (b <=? 13)).
Definition is_digit (b : byte) : bool := (48 <=? b) && (b <=? 57).

Fixpoint skip_spaces (s : list byte) : list byte :=
  match s with
  | b :: s' => if is_space b then skip_spaces s' else s
  | [] => []
  end.

Fixpoint read_digits (s : list byte) (acc : Z) : Z :=
  match s with
  | b :: s => if is_digit b then read_digits s (10 * acc + (b - 48)) else acc
  | [] => acc
  end.

(** [istringstream >> std::dec >> int]: None when the extraction fails *)
Definition parse_int (s : list byte) : option Z :=
  let s := skip_spaces s in
  let '(neg, s) := match s with
                   | b :: s' => if b =? 45 then (true, s') else if b =? 43 then (false, s') else (false, s)
                   | [] => (false, s)
                   end in
  match s with
  | b :: _ =>
      if is_digit b then
        let n := if neg then - read_digits s 0 else read_digits s 0 in
        if in_signed 32 n then Some n else None
      else None
  | [] => None
  end.

(** [utils::to_string] of an int *)
Definition int_text (n : Z) : list byte := bytes_of_string (pretty n).

Section Library.
Context {G : Type} (lib : c_library G).

(** [from_string] that fails leaves its variable as it was (C++03): not initialised *)
Definition from_string_int (s : list byte) : res Z := of_option (parse_int s).

Fixpoint push_numbers (ws : list (list byte)) (s : list Z) : res (list Z) :=
  match ws with
  | [] => Ok s
  | w :: ws => let* i := from_string_int w in push_numbers ws (wrap 32 i :: s)
  end.

Definition str2intlist (str : tuple_field) (m : memory) : res (tuple_field * memory) :=
  let* s := get_content (strings m) (ptr_field str) in
  let* st := push_numbers (lib_split lib s) [] in
  return_list IntList (from_stack_to_list (ints m) st) m.

Definition return_string (s : list byte) (m : memory) : res (tuple_field * memory) :=
  let '(st, p) := make_string (strings m) s in
  Ok (set_ptr_field 0 p, set_strings m st).

(** ** [external/strings.cpp], [external/utils.cpp] *)

Definition concatenate (s1 s2 : tuple_field) (m : memory) : res (tuple_field * memory) :=
  let* c1 := get_content (strings m) (ptr_field s1) in
  let* c2 := get_content (strings m) (ptr_field s2) in
  return_string (c1 ++ c2) m.

Definition randint (x : tuple_field) (m : memory) (g : G) : res (tuple_field * memory * G) :=
  let '(n, g) := lib_random_unsigned lib (wrap 64 (int_field x)) g in
  Ok (return_int (swrap 32 n), m, g).

Definition str2float (x : tuple_field) (m : memory) : res (tuple_field * memory) :=
  let* s := get_content (strings m) (ptr_field x) in
  let* f := of_option (lib_parse_float lib s) in
  Ok (wrap 64 f, m).

Definition str2int (x : tuple_field) (m : memory) : res (tuple_field * memory) :=
  let* s := get_content (strings m) (ptr_field x) in
  let* i := from_string_int s in
  Ok (return_int i, m).

(** conversion to [float] and back *)
Definition round_single (f : spec_float) : spec_float :=
  match f with
  | S754_finite s p e => binary_normalize 24 128 (if s then Zneg p else Zpos p) e s
  | _ => f
  end.

(** [floor], exact *)
Definition sf_floor (f : spec_float) : spec_float :=
  match f with
  | S754_finite s p e =>
      if 0 <=? e then f
      else binary_normalize prec emax ((if s then Zneg p else Zpos p) / 2 ^ (- e)) 0 s
  | _ => f
  end.

(** [float ret(floor(x*den)/den)] with [float den(pow(10.0, many))] *)
Definition truncate (x many : tuple_field) (m : memory) : res (tuple_field * memory) :=
  let den := round_single (lib_pow10 lib (int_field many)) in
  let ret := round_single (SFdiv prec emax (sf_floor (SFmul prec emax (float_field x) den)) den) in
  Ok (return_float ret, m).

(** [(int)x], undefined out of range *)
Definition float_to_int (f : spec_float) : res Z :=
  match f with
  | S754_zero _ => Ok 0
  | S754_finite s p e =>
      let n := if 0 <=? e then Zpos p * 2 ^ e else Zpos p / 2 ^ (- e) in
      let n := if s then - n else n in
      if in_signed 32 n then Ok n else Err undefined_behaviour
  | _ => Err undefined_behaviour
  end.

Definition float2int (x : tuple_field) (m : memory) : res (tuple_field * memory) :=
  let* n := float_to_int (float_field x) in Ok (return_int n, m).

Definition int2str (x : tuple_field) (m : memory) : res (tuple_field * memory) :=
  return_string (int_text (int_field x)) m.

Definition float2str (x : tuple_field) (m : memory) : res (tuple_field * memory) :=
  return_string (lib_float_text lib (wrap 64 x)) m.

(** [usleep] takes time only *)
Definition wastetime (x : tuple_field) (m : memory) : res (tuple_field * memory) :=
  Ok (return_int (int_field x), m).

Definition node2int (x : tuple_field) (m : memory) : res (tuple_field * memory) :=
  Ok (return_int (swrap 32 (node_field x)), m).

(** ** [external/math.cpp] *)

Definition sf_one : spec_float := binary_normalize prec emax 1 0 false.
Definition sf_add : spec_float → spec_float → spec_float := SFadd prec emax.
Definition sf_sub : spec_float → spec_float → spec_float := SFsub prec emax.
Definition sf_mul : spec_float → spec_float → spec_float := SFmul prec emax.
Definition sf_div : spec_float → spec_float → spec_float := SFdiv prec emax.
Definition not_nan (f : spec_float) : bool := match f with S754_nan => false | _ => true end.

Definition sigmoid (x : tuple_field) (m : memory) : res (tuple_field * memory) :=
  Ok (return_float (sf_div sf_one (sf_add sf_one (lib_exp lib (SFopp (float_field x))))), m).

(** the head of a cell of a list of floats *)
Definition head_float (h : Z) : spec_float := float_of_bits h.
Definition push_float (s : list Z) (f : spec_float) : res (list Z) := Ok (bits_of_float f :: s).

(** [normalize]: the maximum, the sum of the exponentials, the new list *)
Definition normalize (x : tuple_field) (m : memory) : res (tuple_field * memory) :=
  let p := ptr_field x in
  if is_null p then Ok (set_ptr_field 0 p, m)
  else
    let* c := deref (floats m) p in
    let* max_value := for_list (λ mx h, let val := head_float h in
                         asserting (not_nan val) (Ok (if SFltb mx val then val else mx)))
                         (floats m) (tail c) (head_float (head c)) in
    let* z := for_list (λ z h, Ok (sf_add z (lib_exp lib (sf_sub (head_float h) max_value))))
                (floats m) p (S754_zero false) in
    let logz := lib_log lib z in
    let* vals := for_list (λ s h, push_float s (sf_sub (sf_sub (head_float h) max_value) logz))
                   (floats m) p [] in
    return_list FloatList (from_stack_to_list (floats m) vals) m.

Definition damp (ls1 ls2 fact : tuple_field) (m : memory) : res (tuple_field * memory) :=
  if is_null (ptr_field ls1) || is_null (ptr_field ls2) then Ok (set_ptr_field 0 null_list, m)
  else
    let f := float_field fact in
    let* vals := for_lists2 (λ s h1 h2, push_float s (lib_log lib
                    (sf_add (sf_mul f (lib_exp lib (head_float h2)))
                            (sf_mul (sf_sub sf_one f) (lib_exp lib (head_float h1))))))
                   (floats m) (ptr_field ls1) (ptr_field ls2) [] in
    return_list FloatList (from_stack_to_list (floats m) vals) m.

(** [divide] and [addfloatlists] differ in the operation *)
Definition combine_floats (op : spec_float → spec_float → spec_float) (ls1 ls2 : tuple_field) (m : memory)
  : res (tuple_field * memory) :=
  let* vals := for_lists2 (λ s h1 h2,
                  asserting (not_nan (head_float h1) && not_nan (head_float h2))
                    (push_float s (op (head_float h1) (head_float h2))))
                 (floats m) (ptr_field ls1) (ptr_field ls2) [] in
  return_list FloatList (from_stack_to_list (floats m) vals) m.

Definition divide (ls1 ls2 : tuple_field) (m : memory) := combine_floats sf_sub ls1 ls2 m.
Definition addfloatlists (ls1 ls2 : tuple_field) (m : memory) := combine_floats sf_add ls1 ls2 m.

(** [numeric_limits<double>::min()] *)
Definition dbl_min : spec_float := float_of_bits (2 ^ 52).

(** the sum over [y], and the loop over [x] *)
Definition convolve_sum (bin_fact ls : tuple_field) (length x : Z) (m : memory) : res spec_float :=
  let* r := for_list (λ a h,
               let '(sum, y) := a in
               let* v := get (floats m) (ptr_field bin_fact) (Z.to_nat (wrap 64 (x + y * length))) 0 in
               asserting (not_nan (head_float h) && not_nan (head_float v))
                 (Ok (sf_add sum (lib_exp lib (sf_add (head_float v) (head_float h))), y + 1)))
              (floats m) (ptr_field ls) (S754_zero false, 0) in
  Ok r.1.

Fixpoint convolve_loop (n : nat) (x : Z) (bin_fact ls : tuple_field) (length : Z) (m : memory) (s : list Z)
  : res (list Z) :=
  match n with
  | O => Ok s
  | S n =>
      let* sum := convolve_sum bin_fact ls length x m in
      let sum := match sum with S754_zero _ => dbl_min | _ => sum end in
      let* s := push_float s (lib_log lib sum) in
      convolve_loop n (x + 1) bin_fact ls length m s
  end.

Definition convolve (bin_fact ls : tuple_field) (m : memory) : res (tuple_field * memory) :=
  let* length := length_list (floats m) (ptr_field ls) in
  let* vals := convolve_loop (Z.to_nat length) 0 bin_fact ls length m [] in
  return_list FloatList (from_stack_to_list (floats m) vals) m.

Definition residual (l1 l2 : tuple_field) (m : memory) : res (tuple_field * memory) :=
  let* r := for_lists2 (λ a h1 h2,
               asserting (not_nan (head_float h1) && not_nan (head_float h2))
                 (Ok (sf_add a.1 (SFabs (sf_sub (lib_exp lib (head_float h1)) (lib_exp lib (head_float h2)))),
                      a.2 + 1)))
              (floats m) (ptr_field l1) (ptr_field l2) (S754_zero false, 0) in
  Ok (return_float (sf_div r.1 (binary_normalize prec emax r.2 0 false)), m).

(** [result *= n1] on an int *)
Fixpoint power_times (n : nat) (result n1 : Z) : Z :=
  match n with
  | O => result
  | S n => power_times n (swrap 32 (result * n1)) n1
  end.
Definition intpower (n1 n2 : tuple_field) (m : memory) : res (tuple_field * memory) :=
  Ok (return_int (power_times (Z.to_nat (int_field n2)) 1 (int_field n1)), m).

(** [create_random_bm]: [pow(2.0, -1 * j - 1)] is exact *)
Fixpoint random_bm_loop (n : nat) (j : Z) (cur threshold : spec_float) : Z :=
  match n with
  | O => j
  | S n =>
      let threshold := sf_add threshold (binary_normalize prec emax 1 (- j - 1) false) in
      if SFltb cur threshold then j else random_bm_loop n (j + 1) cur threshold
  end.

Definition create_random_bm (size_bitmask : Z) (g : G) : Z * G :=
  let '(cur, g) := lib_uniform lib g in
  (random_bm_loop (Z.to_nat (size_bitmask - 1)) 0 cur (S754_zero false), g).

Fixpoint degenerate_loop (n : nat) (bits : Z) (g : G) (s : list Z) : res (list Z * G) :=
  match n with
  | O => Ok (s, g)
  | S n =>
      let '(rnd, g) := create_random_bm (bits - 1) g in
      let sh := bits - 2 - rnd in
      if (0 <=? sh) && (sh <? 32) then degenerate_loop n bits g (wrap 32 (Z.shiftl 1 sh) :: s)
      else Err undefined_behaviour
  end.

(** the loop [j != k] does not end for a negative [k] *)
Definition degeneratevector (k bits : tuple_field) (m : memory) (g : G) : res (tuple_field * memory * G) :=
  if int_field k <? 0 then Err undefined_behaviour
  else
    let* r := degenerate_loop (Z.to_nat (int_field k)) (int_field bits) g [] in
    let* x := return_list IntList (from_stack_to_list (ints m) r.1) m in
    Ok (x, r.2).

(** the second list must not be the shorter *)
Fixpoint demerge_loop (fuel : nat) (st : store) (ls1 ls2 : list_ptr) (s : list Z) : res (list Z) :=
  match fuel with
  | O => Err undefined_behaviour
  | S fuel =>
      if is_null ls1 then Ok s
      else
        asserting (negb (is_null ls2))
          (let* c1 := deref st ls1 in
           let* c2 := deref st ls2 in
           demerge_loop fuel st (tail c1) (tail c2) (Z.lor (head c1) (head c2) :: s))
  end.

Definition demergemessages (v1 v2 : tuple_field) (m : memory) : res (tuple_field * memory) :=
  let* s := demerge_loop (base.size (ints m) + 1) (ints m) (ptr_field v1) (ptr_field v2) [] in
  return_list IntList (from_stack_to_reverse_list (ints m) s) m.

(** ** [external/others.cpp], [external/core.cpp] *)

Definition filecountwords (dirname filenum : tuple_field) (m : memory) : res (tuple_field * memory) :=
  let* dir := get_content (strings m) (ptr_field dirname) in
  Ok (return_int (lib_file_words lib dir (int_field filenum)), m).

(** [find_node] aborts when there is no such node *)
Definition prio_node (id : tuple_field) : res (option (Z * Z)) :=
  match lib_prio_db lib with
  | None => Ok None
  | Some db => match db (node_field id) with Some n => Ok (Some n) | None => Err assert_fail end
  end.

Definition node_priority (id : tuple_field) (m : memory) : res (tuple_field * memory) :=
  let* n := prio_node id in
  Ok (match n with Some n => wrap 64 n.1 | None => return_float (S754_zero false) end, m).

Definition cpu_id (id : tuple_field) (m : memory) : res (tuple_field * memory) :=
  let* n := prio_node id in
  Ok (return_int (match n with Some n => n.2 | None => 0 end), m).

(** ** [vm/external.cpp] *)

Definition EXTERNAL_ARG_LIMIT : Z := 100.

(** the pointer by its number of arguments *)
Inductive external_ptr : Type :=
  | ptr1 (f : tuple_field → memory → G → res (tuple_field * memory * G))
  | ptr2 (f : tuple_field → tuple_field → memory → G → res (tuple_field * memory * G))
  | ptr3 (f : tuple_field → tuple_field → tuple_field → memory → G → res (tuple_field * memory * G)).

Record external_function : Type := mk_external_function {
  fun_ptr : external_ptr;
  return_type : field_type;
  spec : list field_type
}.

Definition get_num_args (f : external_function) : nat := length (spec f).
Definition get_arg_type (f : external_function) (i : nat) : res field_type := of_option (spec f !! i).

(** functions that do not use the generators *)
Definition pure1 (f : tuple_field → memory → res (tuple_field * memory)) : external_ptr :=
  ptr1 (λ a m g, let* r := f a m in Ok (r, g)).
Definition pure2 (f : tuple_field → tuple_field → memory → res (tuple_field * memory)) : external_ptr :=
  ptr2 (λ a b m g, let* r := f a b m in Ok (r, g)).
Definition pure3 (f : tuple_field → tuple_field → tuple_field → memory → res (tuple_field * memory))
  : external_ptr := ptr3 (λ a b c m g, let* r := f a b c m in Ok (r, g)).

Definition external1 (p : external_ptr) (ret arg1 : field_type) : external_function :=
  mk_external_function p ret [arg1].
Definition external2 (p : external_ptr) (ret arg1 arg2 : field_type) : external_function :=
  mk_external_function p ret [arg1; arg2].
Definition external3 (p : external_ptr) (ret arg1 arg2 arg3 : field_type) : external_function :=
  mk_external_function p ret [arg1; arg2; arg3].

(** [register_external_function] numbers them from 0; [init_external_functions]
    registers these, in this order *)
Definition external_functions : list external_function :=
  [ external1 (pure1 sigmoid) FIELD_FLOAT FIELD_FLOAT;
    external1 (ptr1 randint) FIELD_INT FIELD_INT;
    external1 (pure1 normalize) FIELD_LIST_FLOAT FIELD_LIST_FLOAT;
    external3 (pure3 damp) FIELD_LIST_FLOAT FIELD_LIST_FLOAT FIELD_LIST_FLOAT FIELD_FLOAT;
    external2 (pure2 divide) FIELD_LIST_FLOAT FIELD_LIST_FLOAT FIELD_LIST_FLOAT;
    external2 (pure2 convolve) FIELD_LIST_FLOAT FIELD_LIST_FLOAT FIELD_LIST_FLOAT;
    external2 (pure2 addfloatlists) FIELD_LIST_FLOAT FIELD_LIST_FLOAT FIELD_LIST_FLOAT;
    external1 (pure1 intlistlength) FIELD_INT FIELD_LIST_INT;
    external2 (pure2 intlistdiff) FIELD_LIST_INT FIELD_LIST_INT FIELD_LIST_INT;
    external2 (pure2 intlistnth) FIELD_INT FIELD_LIST_INT FIELD_INT;
    external2 (pure2 concatenate) FIELD_STRING FIELD_STRING FIELD_STRING;
    external1 (pure1 str2float) FIELD_FLOAT FIELD_STRING;
    external1 (pure1 str2int) FIELD_INT FIELD_STRING;
    external2 (pure2 nodelistremove) FIELD_LIST_NODE FIELD_LIST_NODE FIELD_NODE;
    external1 (pure1 wastetime) FIELD_INT FIELD_INT;
    external2 (pure2 truncate) FIELD_FLOAT FIELD_FLOAT FIELD_INT;
    external1 (pure1 float2int) FIELD_INT FIELD_FLOAT;
    external1 (pure1 int2str) FIELD_STRING FIELD_INT;
    external1 (pure1 float2str) FIELD_STRING FIELD_FLOAT;
    external3 (pure3 intlistsub) FIELD_LIST_INT FIELD_LIST_INT FIELD_INT FIELD_INT;
    external2 (pure2 intlistappend) FIELD_LIST_INT FIELD_LIST_INT FIELD_LIST_INT;
    external1 (pure1 str2intlist) FIELD_LIST_INT FIELD_STRING;
    external2 (pure2 filecountwords) FIELD_INT FIELD_STRING FIELD_INT;
    external2 (pure2 residual) FIELD_FLOAT FIELD_LIST_FLOAT FIELD_LIST_FLOAT;
    external1 (pure1 nodelistlength) FIELD_INT FIELD_LIST_NODE;
    external2 (pure2 nodelistcount) FIELD_INT FIELD_LIST_NODE FIELD_NODE;
    external2 (pure2 nodelistappend) FIELD_LIST_NODE FIELD_LIST_NODE FIELD_LIST_NODE;
    external1 (pure1 node_priority) FIELD_FLOAT FIELD_NODE;
    external1 (pure1 nodelistreverse) FIELD_LIST_NODE FIELD_LIST_NODE;
    external1 (pure1 nodelistlast) FIELD_NODE FIELD_LIST_NODE;
    external1 (pure1 cpu_id) FIELD_INT FIELD_NODE;
    external1 (pure1 node2int) FIELD_INT FIELD_NODE;
    external2 (pure2 intpower) FIELD_INT FIELD_INT FIELD_INT;
    external1 (pure1 intlistsort) FIELD_LIST_INT FIELD_LIST_INT;
    external1 (pure1 intlistremoveduplicates) FIELD_LIST_INT FIELD_LIST_INT;
    external2 (ptr2 degeneratevector) FIELD_LIST_INT FIELD_INT FIELD_INT;
    external2 (pure2 demergemessages) FIELD_LIST_INT FIELD_LIST_INT FIELD_LIST_INT;
    external2 (pure2 intlistequal) FIELD_INT FIELD_LIST_INT FIELD_LIST_INT ].

(** those [added] by the program come after *)
Definition lookup_external_function (added : list external_function) (id : Z) : res external_function :=
  match (external_functions ++ added) !! Z.to_nat id with
  | Some f => Ok f
  | None => Err assert_fail
  end.

End Library.

(** ** Loops as folds over the list they walk *)

Fixpoint each_while {A} (cond : A → bool) (body : A → Z → res A) (l : list Z) (acc : A)
  : res (list Z * A) :=
  match l with
  | [] => Ok ([], acc)
  | h :: l' => if cond acc then let* acc := body acc h in each_while cond body l' acc
               else Ok (l, acc)
  end.

Definition each {A} (body : A → Z → res A) (l : list Z) (acc : A) : res A :=
  let* r := each_while (λ _, true) body l acc in Ok r.2.

Lemma each_cons {A} (body : A → Z → res A) h l acc :
  each body (h :: l) acc = let* acc := body acc h in each body l acc.
Proof. unfold each. simpl. by destruct (body acc h). Qed.

Lemma while_list_each {A} (cond : A → bool) body st p l fuel (acc : A) :
  is_list st p l → (length l < fuel)%nat →
  (∃ p' l' a, while_list cond body fuel st p acc = Ok (p', a)
     ∧ each_while cond body l acc = Ok (l', a) ∧ is_list st p' l')
  ∨ (∃ e, while_list cond body fuel st p acc = Err e ∧ each_while cond body l acc = Err e).
Proof.
  intros H. revert fuel acc. induction H as [|p c l Hp Hl IH]; intros [|fuel] acc Hf;
    simpl in Hf; try lia.
  - left. exists null_list, [], acc. split_and!; [done|done|constructor].
  - cbn [while_list each_while]. change (is_null (Zpos p)) with false. cbn [orb].
    destruct (cond acc); cbn [negb].
    + cbn [deref]. rewrite Hp. cbn [of_option res_bind].
      destruct (body acc (head c)) as [a|e]; cbn [res_bind]; [apply IH; lia|eauto].
    + left. exists (Zpos p), (head c :: l), acc. split_and!; [done|done|by econstructor].
Qed.

Lemma list_while_each {A} (cond : A → bool) body st p l (acc : A) l' a :
  is_list st p l → each_while cond body l acc = Ok (l', a) →
  ∃ p', list_while cond body st p acc = Ok (p', a) ∧ is_list st p' l'.
Proof.
  intros H He. unfold list_while.
  destruct (while_list_each cond body st p l (base.size st + 1) acc H) as
    [(p' & l1 & a1 & Hw & He' & Hl)|(e & _ & He')].
  - apply is_list_length in H. lia.
  - rewrite He in He'. simplify_eq. eauto.
  - by rewrite He in He'.
Qed.

Lemma for_list_each {A} (body : A → Z → res A) st p l acc :
  is_list st p l → for_list body st p acc = each body l acc.
Proof.
  intros H. unfold for_list, each, list_while.
  destruct (while_list_each (λ _, true) body st p l (base.size st + 1) acc H) as
    [(p' & l1 & a1 & -> & -> & _)|(e & -> & ->)]; [|done|done].
  apply is_list_length in H. lia.
Qed.

(** a body that never fails is a left fold *)
Lemma each_foldl {A} (g : A → Z → A) l acc :
  each (λ a h, Ok (g a h)) l acc = Ok (foldl g acc l).
Proof. revert acc. induction l as [|h l IH]; intros acc; [done|]. rewrite each_cons. apply IH. Qed.

Lemma each_ext {A} (f g : A → Z → res A) l acc :
  (∀ a h, f a h = g a h) → each f l acc = each g l acc.
Proof.
  intros H. revert acc. induction l as [|h l IH]; intros acc; [done|].
  rewrite !each_cons, H. destruct (g acc h); [apply IH|done].
Qed.

Lemma push_filter (P : Z → Prop) `{!∀ x, Decision (P x)} l s :
  foldl (λ s h, if decide (P h) then h :: s else s) s l = rev (filter P l) ++ s.
Proof.
  revert s. induction l as [|h l IH]; intros s; [done|]. simpl. rewrite IH.
  destruct (decide (P h)); [rewrite filter_cons_True by done|by rewrite filter_cons_False by done].
  simpl. by rewrite <-app_assoc.
Qed.

Lemma push_all l s : each push_stack l s = Ok (rev l ++ s).
Proof.
  revert s. induction l as [|h l IH]; intros s; [done|].
  rewrite each_cons. simpl. rewrite IH. by rewrite <-app_assoc.
Qed.

Lemma push_back_all l s : each push_vector l s = Ok (s ++ l).
Proof.
  revert s. induction l as [|h l IH]; intros s; [by rewrite app_nil_r|].
  rewrite each_cons. simpl. rewrite IH. by rewrite <-app_assoc.
Qed.

Lemma count_loop (P : Z → bool) l n :
  foldl (λ t h, if P h then swrap 32 (t + 1) else t) (swrap 32 n) l
  = swrap 32 (n + Z.of_nat (length (List.filter P l))).
Proof.
  revert n. induction l as [|h l IH]; intros n; [by rewrite Z.add_0_r|]. simpl.
  destruct (P h); [|apply IH].
  rewrite swrap_plus, IH by lia. f_equal. simpl. lia.
Qed.

Lemma each_nth l n i :
  0 <= i → i <= n → n < i + Z.of_nat (length l) → n < 2 ^ 31 →
  ∃ l', each_while (λ a, match a.2 with None => true | Some _ => false end)
    (λ a h, if a.1 =? n then Ok (a.1, Some h) else Ok (swrap 32 (a.1 + 1), None)) l (i, None)
  = Ok (l', (n, l !! Z.to_nat (n - i))).
Proof.
  revert i. induction l as [|h l IH]; intros i H0 Hi Hn Hb; cbn [length] in Hn; [lia|].
  cbn [each_while fst snd]. destruct (i =? n) eqn:E.
  - apply Z.eqb_eq in E as ->. rewrite Z.sub_diag. cbn [res_bind]. exists l. by destruct l.
  - apply Z.eqb_neq in E. cbn [res_bind]. rewrite swrap_id by lia.
    destruct (IH (i + 1)) as (l' & ->); [lia..|]. exists l'. do 3 f_equal.
    by replace (Z.to_nat (n - i)) with (S (Z.to_nat (n - (i + 1)))) by lia.
Qed.

Lemma each_nth_out l n i :
  0 <= i → n < i ∨ i + Z.of_nat (length l) <= n → i + Z.of_nat (length l) < 2 ^ 31 →
  ∃ j, each_while (λ a, match a.2 with None => true | Some _ => false end)
    (λ a h, if a.1 =? n then Ok (a.1, Some h) else Ok (swrap 32 (a.1 + 1), None)) l (i, None)
  = Ok ([], (j, None)).
Proof.
  revert i. induction l as [|h l IH]; intros i H0 Hn Hb; cbn [length] in *; [by exists i|].
  cbn [each_while fst snd]. destruct (Z.eqb_spec i n) as [->|_]; [lia|].
  cbn [res_bind]. rewrite swrap_id by lia. apply IH; lia.
Qed.

Lemma each_drop l a i :
  each_while (λ ctn, ctn <? a) (λ ctn _, Ok (ctn + 1)) l i
  = Ok (drop (Z.to_nat (a - i)) l, i + Z.min (Z.max 0 (a - i)) (Z.of_nat (length l))).
Proof.
  revert i. induction l as [|h l IH]; intros i.
  { simpl. rewrite drop_nil. do 2 f_equal. lia. }
  cbn [each_while]. destruct (Z.ltb_spec i a) as [H|H].
  - cbn [res_bind]. rewrite IH. do 2 f_equal; [|cbn [length]; lia].
    by replace (Z.to_nat (a - i)) with (S (Z.to_nat (a - (i + 1)))) by lia.
  - replace (Z.to_nat (a - i)) with 0%nat by lia. do 2 f_equal. cbn [length]. lia.
Qed.

Lemma each_take l b i s :
  ∃ l' j, each_while (λ x : Z * list Z, x.1 <? b) (λ x h, Ok (x.1 + 1, h :: x.2)) l (i, s)
  = Ok (l', (j, rev (take (Z.to_nat (b - i)) l) ++ s)).
Proof.
  revert i s. induction l as [|h l IH]; intros i s.
  { rewrite take_nil. by exists [], i. }
  cbn [each_while fst snd]. destruct (Z.ltb_spec i b) as [H|H].
  - cbn [res_bind]. destruct (IH (i + 1) (h :: s)) as (l' & j & ->). exists l', j.
    replace (Z.to_nat (b - i)) with (S (Z.to_nat (b - (i + 1)))) by lia.
    simpl. by rewrite <-app_assoc.
  - replace (Z.to_nat (b - i)) with 0%nat by lia. by exists (h :: l), i.
Qed.

Lemma has_value_ok st p l v : is_list st p l → has_value st p v = Ok (bool_decide (v ∈ l)).
Proof.
  intros H. unfold has_value.
  assert (∃ l', each_while negb (λ _ h, Ok (h =? v)) l false = Ok (l', bool_decide (v ∈ l)))
    as (l' & He).
  { clear H. induction l as [|h l (l' & IH)]; [by exists []|]. cbn [each_while negb res_bind].
    destruct (Z.eqb_spec h v) as [->|Hne].
    - exists l. rewrite bool_decide_true by left. by destruct l.
    - exists l'. rewrite IH. do 2 f_equal. apply bool_decide_ext. rewrite elem_of_cons. naive_solver. }
  destruct (list_while_each _ _ _ _ _ _ _ _ H He) as (p' & -> & _). done.
Qed.

Lemma list_equal_loop_ok st p q l1 l2 fuel :
  is_list st p l1 → is_list st q l2 → (length l1 < fuel)%nat →
  list_equal_loop fuel st p q = Ok (if decide (l1 = l2) then 1 else 0).
Proof.
  intros H. revert fuel q l2. induction H as [|p c l1 Hp H1 IH]; intros [|fuel] q l2 H2 Hf;
    simpl in Hf; try lia; cbn [list_equal_loop].
  - inversion H2; subst; done.
  - inversion H2 as [|q' d m Hq Hm]; subst; [done|].
    change (is_null (Zpos p)) with false. change (is_null (Zpos q')) with false.
    cbn [deref]. rewrite Hp, Hq. cbn [of_option res_bind].
    destruct (Z.eqb_spec (head c) (head d)) as [He|He]; cbn [negb].
    + rewrite (IH fuel _ m) by (done || lia). f_equal. rewrite He.
      destruct (decide (l1 = m)) as [->|?]; destruct (decide (_ :: _ = _ :: _)); congruence.
    + destruct (decide (_ :: _ = _ :: _)); congruence.
Qed.

(** the first occurrence of each element *)
Fixpoint keep_first (l : list Z) : list Z :=
  match l with
  | [] => []
  | x :: l => x :: filter (λ y, y ≠ x) (keep_first l)
  end.

Lemma filter_seen (pre : list Z) (v : Z) (l : list Z) :
  filter (λ x, x ∉ pre) (filter (λ y, y ≠ v) l) = filter (λ x, x ∉ pre ++ [v]) l.
Proof.
  rewrite list_filter_filter. apply list_filter_iff. intros x.
  rewrite elem_of_app, list_elem_of_singleton. tauto.
Qed.

(** [marked] is false at the positions to come whose value was met *)
Lemma remove_duplicates_loop_ok rest : ∀ pre marked s,
  length marked = length (pre ++ rest) →
  (∀ j v, (length pre <= j)%nat → (pre ++ rest) !! j = Some v →
     marked !! j = Some (bool_decide (v ∉ pre))) →
  remove_duplicates_loop (pre ++ rest) rest (length pre) marked s
  = rev (filter (λ x, x ∉ pre) (keep_first rest)) ++ s.
Proof.
  induction rest as [|v rest IH]; intros pre marked s Hlen Hm; [done|].
  assert (Hv : marked !! length pre = Some (bool_decide (v ∉ pre))).
  { apply Hm; [lia|]. by rewrite list_lookup_middle. }
  assert (Happ : pre ++ v :: rest = (pre ++ [v]) ++ rest) by (by rewrite <-app_assoc).
  assert (HS : S (length pre) = length (pre ++ [v])) by (rewrite length_app; simpl; lia).
  cbn [remove_duplicates_loop keep_first]. rewrite Hv. destruct (decide (v ∈ pre)) as [Hin|Hin].
  - rewrite (bool_decide_false (v ∉ pre)) by auto. rewrite bool_decide_true by done.
    rewrite filter_cons_False by auto. rewrite filter_seen, HS, Happ. apply IH; [by rewrite <-Happ|].
    intros j w Hj Hw. rewrite (Hm j w); [|lia|by rewrite Happ]. f_equal. apply bool_decide_ext.
    rewrite elem_of_app, list_elem_of_singleton. naive_solver.
  - rewrite (bool_decide_true (v ∉ pre)) by auto. rewrite bool_decide_false by done.
    rewrite filter_cons_True by auto. rewrite filter_seen, HS, Happ.
    rewrite IH; [cbn [rev]; by rewrite <-app_assoc|by rewrite <-Happ; unfold mark_duplicates; rewrite length_imap|].
    intros j w Hj Hw. unfold mark_duplicates. rewrite list_lookup_imap, (Hm j w); [|lia|by rewrite Happ].
    cbn [fmap option_fmap option_map]. rewrite Hw, (proj2 (Nat.ltb_lt _ _)) by lia. cbn [andb].
    f_equal. destruct (decide (w = v)) as [->|Hne].
    + rewrite bool_decide_true by done. rewrite bool_decide_false; [done|].
      rewrite elem_of_app, list_elem_of_singleton. tauto.
    + rewrite bool_decide_false by congruence. apply bool_decide_ext.
      rewrite elem_of_app, list_elem_of_singleton. tauto.
Qed.

Lemma filter_nothing (l : list Z) : filter (λ x, x ∉ []) l = l.
Proof.
  induction l as [|x l IH]; [done|]. rewrite filter_cons, IH.
  destruct (decide _) as [|n]; [done|]. by destruct n; apply not_elem_of_nil.
Qed.

Lemma remove_duplicates_ok l :
  remove_duplicates_loop l l 0 (replicate (length l) true) [] = rev (keep_first l).
Proof.
  rewrite <-(app_nil_r (rev _)). pose proof (remove_duplicates_loop_ok l [] (replicate (length l) true) []) as H.
  simpl in H. rewrite H.
  - by rewrite filter_nothing.
  - by rewrite length_replicate.
  - intros j v _ Hj. rewrite lookup_replicate_2 by (by eapply lookup_lt_Some). done.
Qed.

Lemma demerge_loop_ok st p q l1 l2 fuel s :
  is_list st p l1 → is_list st q l2 → (length l1 < fuel)%nat → (length l1 <= length l2)%nat →
  demerge_loop fuel st p q s = Ok (rev (zip_with Z.lor l1 l2) ++ s).
Proof.
  intros H. revert fuel q l2 s. induction H as [|p c l1 Hp H1 IH]; intros [|fuel] q l2 s H2 Hf Hle;
    simpl in Hf, Hle; try lia; [done|].
  inversion H2 as [|q' d m Hq Hm]; subst; simpl in Hle; [lia|].
  cbn [demerge_loop]. change (is_null (Zpos p)) with false. change (is_null (Zpos q')) with false.
  cbn [deref asserting negb]. rewrite Hp, Hq. cbn [of_option res_bind].
  rewrite (IH fuel _ m) by (done || lia). simpl. by rewrite <-app_assoc.
Qed.

(** ** What the functions on lists return *)

(** the field is the address of a fresh list [l]; the other lists stay *)
Definition returns_list (k : list_kind) (m : memory) (r : res (tuple_field * memory)) (l : list Z) : Prop :=
  ∃ st' p, r = Ok (set_ptr_field 0 p, set_lists m k st') ∧ is_list st' p l ∧ sub_cells (lists m k) st'.

Lemma return_stack k m stk : returns_list k m (return_list k (from_stack_to_list (lists m k) stk) m) (rev stk).
Proof.
  unfold return_list, from_stack_to_list.
  destruct (from_stack_ok (lists m k) null_list [] stk) as (st' & p & -> & Hl & Hs); [constructor|].
  rewrite app_nil_r in Hl. cbn [res_bind fst snd]. by exists st', p.
Qed.

Lemma return_stack_rev k m stk :
  returns_list k m (return_list k (from_stack_to_list (lists m k) (rev stk)) m) stk.
Proof. rewrite <-(rev_involutive stk) at 2. apply return_stack. Qed.

Section ListFunctions.
Context (m : memory) (k : list_kind) (f : tuple_field) (l : list Z)
  (Hl : is_list (lists m k) (ptr_field f) l).

Lemma list_length_ok : list_length k f m = Ok (return_int (swrap 32 (Z.of_nat (length l))), m).
Proof.
  unfold list_length. rewrite (for_list_each _ _ _ _ _ Hl).
  rewrite (each_foldl (λ t _, swrap 32 (t + 1))). cbn [res_bind]. do 3 f_equal.
  change (swrap 32 0) with (swrap 32 0). etransitivity; [apply (count_loop (λ _, true) l 0)|].
  do 2 f_equal. rewrite Z.add_0_l. f_equal. clear Hl. induction l; simpl; auto.
Qed.

Lemma push_matching (P : Z → Prop) `{!∀ x, Decision (P x)} (body : list Z → Z → res (list Z)) :
  (∀ s h, body s h = Ok (if decide (P h) then h :: s else s)) →
  for_list body (lists m k) (ptr_field f) [] = Ok (rev (filter P l)).
Proof.
  intros Hb. rewrite (for_list_each _ _ _ _ _ Hl).
  rewrite (each_ext _ _ _ _ Hb), (each_foldl (λ s h, if decide (P h) then h :: s else s)).
  by rewrite push_filter, app_nil_r.
Qed.

Lemma push_elements : for_list push_stack (lists m k) (ptr_field f) [] = Ok (rev l).
Proof. rewrite (for_list_each _ _ _ _ _ Hl), push_all. by rewrite app_nil_r. Qed.

Lemma list_vector : for_list push_vector (lists m k) (ptr_field f) [] = Ok l.
Proof. rewrite (for_list_each _ _ _ _ _ Hl). apply push_back_all. Qed.

Lemma list_append_ok f2 l2 : is_list (lists m k) (ptr_field f2) l2 →
  returns_list k m (list_append k f f2 m) (l ++ l2).
Proof.
  intros H2. unfold list_append. rewrite push_elements. cbn [res_bind].
  rewrite (for_list_each _ _ _ _ _ H2), push_all. cbn [res_bind].
  rewrite <-rev_app_distr. apply return_stack_rev.
Qed.
End ListFunctions.

(** keep the elements of [l] from position [a] up to [b] *)
Definition sublist (a b : Z) (l : list Z) : list Z :=
  take (Z.to_nat b - Z.to_nat a) (drop (Z.to_nat a) l).

Lemma intlistsub_ok m p a b l :
  is_list (ints m) (ptr_field p) l →
  returns_list IntList m (intlistsub p a b m) (sublist (int_field a) (int_field b) l).
Proof.
  intros H. unfold intlistsub.
  destruct (list_while_each _ _ _ _ _ 0 _ _ H (each_drop l (int_field a) 0)) as (p' & -> & H').
  cbn [res_bind fst snd]. rewrite Z.sub_0_r in *.
  destruct (each_take (drop (Z.to_nat (int_field a)) l) (int_field b)
    (0 + Z.min (Z.max 0 (int_field a)) (Z.of_nat (length l))) []) as (l' & j & He).
  destruct (list_while_each _ _ _ _ _ _ _ _ H' He) as (p2 & -> & _).
  cbn [res_bind fst snd]. rewrite app_nil_r. unfold sublist.
  destruct (Z.le_gt_cases (int_field a) (Z.of_nat (length l))).
  - replace (Z.to_nat (int_field b - (0 + _))) with (Z.to_nat (int_field b) - Z.to_nat (int_field a))%nat
      by lia. apply return_stack_rev.
  - rewrite drop_ge, !take_nil by lia. apply (return_stack_rev IntList m []).
Qed.

Lemma intlistdiff_ok m f1 f2 l1 l2 :
  is_list (ints m) (ptr_field f1) l1 → is_list (ints m) (ptr_field f2) l2 →
  returns_list IntList m (intlistdiff f1 f2 m) (filter (λ x, x ∉ l2) l1).
Proof.
  intros H1 H2. unfold intlistdiff.
  rewrite (push_matching m IntList f1 l1 H1 (λ x, x ∉ l2)); [apply return_stack_rev|].
  intros s h. rewrite (has_value_ok _ _ _ _ H2). cbn [res_bind]. case_bool_decide as E;
    destruct (decide (h ∉ l2)); done.
Qed.

Lemma StronglySorted_rev (R : relation Z) (l : list Z) :
  StronglySorted R l → StronglySorted (λ x y, R y x) (rev l).
Proof.
  induction 1 as [|x l Hs IH Hx]; [constructor|]. simpl. apply StronglySorted_app_2; [|done|].
  - intros y z Hy Hz%list_elem_of_singleton. subst z.
    rewrite Forall_forall in Hx. apply Hx. by apply list_elem_of_In, in_rev, list_elem_of_In.
  - by repeat constructor.
Qed.

Lemma intlistsort_ok m f l :
  is_list (ints m) (ptr_field f) l →
  ∃ l', returns_list IntList m (intlistsort f m) l' ∧ l' ≡ₚ l ∧
    StronglySorted (λ x y, head_int x <= head_int y) l'.
Proof.
  unfold ints. intros H. unfold intlistsort, ints. rewrite (list_vector m IntList f l H). cbn [res_bind].
  set (R := λ i j, cmp_ints j i = false).
  assert (HR : ∀ x y, R x y ↔ head_int y <= head_int x).
  { intros x y. unfold R, cmp_ints. apply Z.ltb_ge. }
  exists (rev (merge_sort R l)). split_and!.
  - apply (return_stack IntList).
  - rewrite <-Permutation_rev. apply merge_sort_Permutation.
  - assert (HT : Transitive R) by (intros x y z; rewrite !HR; lia).
    assert (HO : Total R) by (intros x y; rewrite !HR; lia).
    pose proof (StronglySorted_rev _ _ (StronglySorted_merge_sort R l)) as HS.
    revert HS. generalize (rev (merge_sort R l)). induction 1 as [|x l' _ IH Hx]; constructor; [done|].
    eapply Forall_impl; [exact Hx|]. intros y. apply HR.
Qed.

Lemma intlistremoveduplicates_ok m f l :
  is_list (ints m) (ptr_field f) l →
  returns_list IntList m (intlistremoveduplicates f m) (keep_first l).
Proof.
  unfold ints. intros H. unfold intlistremoveduplicates, ints.
  rewrite (list_vector m IntList f l H). cbn [res_bind].
  rewrite remove_duplicates_ok. apply return_stack_rev.
Qed.

Lemma intlistequal_ok m f1 f2 l1 l2 :
  is_list (ints m) (ptr_field f1) l1 → is_list (ints m) (ptr_field f2) l2 →
  intlistequal f1 f2 m = Ok (return_int (if decide (l1 = l2) then 1 else 0), m).
Proof.
  intros H1 H2. unfold intlistequal. rewrite (list_equal_loop_ok _ _ _ _ _ _ H1 H2); [done|].
  apply is_list_length in H1. lia.
Qed.

Lemma intlistnth_ok m f v l :
  is_list (ints m) (ptr_field f) l → Z.of_nat (length l) < 2 ^ 31 →
  intlistnth f v m
  = match (if 0 <=? int_field v then l !! Z.to_nat (int_field v) else None) with
    | Some h => Ok (return_int (head_int h), m)
    | None => Err assert_fail
    end.
Proof.
  intros H Hb. unfold intlistnth. pose proof (int_field_range v).
  destruct (decide (0 <= int_field v < Z.of_nat (length l))) as [Hin|Hout].
  - destruct (each_nth l (int_field v) 0) as (l' & He); [lia..|].
    destruct (list_while_each _ _ _ _ _ _ _ _ H He) as (p' & -> & _). cbn [res_bind fst snd].
    rewrite Z.sub_0_r. by rewrite (proj2 (Z.leb_le _ _)) by lia.
  - destruct (each_nth_out l (int_field v) 0) as (j & He); [lia..|].
    destruct (list_while_each _ _ _ _ _ _ _ _ H He) as (p' & -> & _). cbn [res_bind fst snd].
    destruct (Z.leb_spec 0 (int_field v)); [|done].
    by rewrite lookup_ge_None_2 by lia.
Qed.

Lemma keep_first_spec l : NoDup (keep_first l) ∧ ∀ x, x ∈ keep_first l ↔ x ∈ l.
Proof.
  induction l as [|x l [Hnd Hin]]; simpl; [split; [constructor|done]|]. split.
  - constructor; [|by apply NoDup_filter]. rewrite list_elem_of_filter. tauto.
  - intros y. rewrite !elem_of_cons, list_elem_of_filter, Hin.
    destruct (decide (y = x)); tauto.
Qed.

(** The functions on lists of integers return what their names say, as fresh
    lists, and keep the lists they are given: the length, the elements of the first
    that are not in the second, the concatenation, the elements at positions [a] to
    [b], the elements in ascending order, the first occurrence of each element, and
    whether the two lists are equal. *)
Theorem int_list_functions m f1 f2 a b l1 l2 :
  is_list (ints m) (ptr_field f1) l1 → is_list (ints m) (ptr_field f2) l2 →
  intlistlength f1 m = Ok (return_int (swrap 32 (Z.of_nat (length l1))), m) ∧
  returns_list IntList m (intlistdiff f1 f2 m) (filter (λ x, x ∉ l2) l1) ∧
  returns_list IntList m (intlistappend f1 f2 m) (l1 ++ l2) ∧
  returns_list IntList m (intlistsub f1 a b m) (sublist (int_field a) (int_field b) l1) ∧
  (∃ l', returns_list IntList m (intlistsort f1 m) l' ∧ l' ≡ₚ l1 ∧
     StronglySorted (λ x y, head_int x <= head_int y) l') ∧
  returns_list IntList m (intlistremoveduplicates f1 m) (keep_first l1) ∧
  (NoDup (keep_first l1) ∧ ∀ x, x ∈ keep_first l1 ↔ x ∈ l1) ∧
  intlistequal f1 f2 m = Ok (return_int (if decide (l1 = l2) then 1 else 0), m).
Proof.
  intros H1 H2. split_and!; [by apply (list_length_ok m IntList)|by apply intlistdiff_ok
    |by apply (list_append_ok m IntList)|by apply intlistsub_ok|by apply intlistsort_ok
    |by apply intlistremoveduplicates_ok|apply keep_first_spec..|by apply intlistequal_ok].
Qed.

Definition sample_ints : memory := mk_memory sample_store ∅ ∅ ∅.

Lemma int_list_functions_witness :
  returns_list IntList sample_ints (intlistsub 1 1 2 sample_ints) [6].
Proof.
  exact (proj1 (proj2 (proj2 (proj2 (int_list_functions sample_ints 1 2 1 2 [5; 6] [6]
    sample_store_list (is_list_cons sample_store 2 (mk_cell 0 6 1) [] eq_refl (is_list_nil _))))))).
Defined.

Lemma last_loop (l : list Z) d : foldl (λ _ h, h) d l = List.last l d.
Proof.
  revert d. induction l as [|h l IH]; intros d; [done|]. cbn [foldl]. rewrite IH.
  destruct l as [|y l]; [done|]. change (List.last (h :: y :: l) d) with (List.last (y :: l) d).
  clear IH. revert y. induction l as [|z l IHl]; intros y; [done|]. apply (IHl z).
Qed.

(** The functions on lists of nodes: the elements other than [n], how many times
    [n] is there, the length, the concatenation, the reverse, and the last element (0
    for the empty list). *)
Theorem node_list_functions m f1 f2 n l1 l2 :
  is_list (nodes_ m) (ptr_field f1) l1 → is_list (nodes_ m) (ptr_field f2) l2 →
  returns_list NodeList m (nodelistremove f1 n m) (filter (λ x, x ≠ node_field n) l1) ∧
  nodelistcount f1 n m
    = Ok (return_int (swrap 32 (Z.of_nat (length (List.filter (λ x, x =? node_field n) l1)))), m) ∧
  nodelistlength f1 m = Ok (return_int (swrap 32 (Z.of_nat (length l1))), m) ∧
  returns_list NodeList m (nodelistappend f1 f2 m) (l1 ++ l2) ∧
  returns_list NodeList m (nodelistreverse f1 m) (rev l1) ∧
  nodelistlast f1 m = Ok (return_node (List.last l1 0), m).
Proof.
  unfold nodes_. intros H1 H2. split_and!.
  - unfold nodelistremove, nodes_. rewrite (push_matching m NodeList f1 l1 H1 (λ x, x ≠ node_field n));
      [apply return_stack_rev|].
    intros s h. destruct (Z.eqb_spec h (node_field n)), (decide (h ≠ node_field n)); done.
  - unfold nodelistcount, nodes_. rewrite (for_list_each _ _ _ _ _ H1).
    rewrite (each_foldl (λ t h, if h =? node_field n then swrap 32 (t + 1) else t)). cbn [res_bind].
    do 3 f_equal. exact (count_loop (λ h, h =? node_field n) l1 0).
  - by apply list_length_ok.
  - by apply list_append_ok.
  - unfold nodelistreverse, from_stack_to_reverse_list, nodes_. rewrite (push_elements _ _ _ _ H1). cbn [res_bind].
    rewrite rev_involutive. apply (return_stack NodeList).
  - unfold nodelistlast, nodes_. rewrite (for_list_each _ _ _ _ _ H1), (each_foldl (λ _ h, h)). cbn [res_bind].
    by rewrite last_loop.
Qed.

Definition sample_nodes : memory := mk_memory ∅ ∅ sample_store ∅.

Lemma node_list_functions_witness : nodelistlast 1 sample_nodes = Ok (return_node 6, sample_nodes).
Proof.
  exact (proj2 (proj2 (proj2 (proj2 (proj2 (node_list_functions sample_nodes 1 0 5 [5; 6] []
    sample_store_list (is_list_nil _))))))).
Defined.

(** [intlistnth] returns the element at a position of the list, and aborts at
    any other, the negative ones included. *)
Theorem intlistnth_bounds m f v l :
  is_list (ints m) (ptr_field f) l → Z.of_nat (length l) < 2 ^ 31 →
  intlistnth f v m
  = match (if 0 <=? int_field v then l !! Z.to_nat (int_field v) else None) with
    | Some h => Ok (return_int (head_int h), m)
    | None => Err assert_fail
    end.
Proof. apply intlistnth_ok. Qed.

Lemma intlistnth_bounds_witness : intlistnth 1 1 sample_ints = Ok (return_int 6, sample_ints).
Proof. apply (intlistnth_bounds sample_ints 1 1 [5; 6] sample_store_list). reflexivity. Defined.

(** [demergemessages] of [x1,...,xn] and [y1,...,yn] is the list of the [xi | yi]
    in reverse order, so merging its result again combines other positions; the second list
    shorter than the first aborts. *)
Theorem demergemessages_reverses m f1 f2 l1 l2 :
  is_list (ints m) (ptr_field f1) l1 → is_list (ints m) (ptr_field f2) l2 →
  (length l1 <= length l2)%nat →
  returns_list IntList m (demergemessages f1 f2 m) (rev (zip_with Z.lor l1 l2)).
Proof.
  unfold ints. intros H1 H2 Hle. unfold demergemessages, from_stack_to_reverse_list, ints.
  rewrite (demerge_loop_ok _ _ _ _ _ _ _ H1 H2); [|apply is_list_length in H1; lia|done].
  cbn [res_bind]. rewrite app_nil_r, rev_involutive. apply (return_stack IntList).
Qed.

Lemma demergemessages_reverses_witness :
  returns_list IntList sample_ints (demergemessages 1 1 sample_ints) [6; 5].
Proof.
  exact (demergemessages_reverses sample_ints 1 1 [5; 6] [5; 6] sample_store_list sample_store_list
    (le_n 2)).
Defined.
