(* ===== verification/Router.v ===== *)
(** Where nodes live: [process/remote.{hpp,cpp}], the routing part of
    [process/router.{hpp,cpp}] and [machine::same_place].  Machines are numbered
    from 0 and split the node ids among them; every machine splits its share among
    its threads. *)

From Stdlib Require Import ZArith Lia Bool.
From stdpp Require Import base tactics list numbers option.
From S2P Require Import Prelude.

#[local] Open Scope Z_scope.

(** ** [process/remote.hpp] *)

Record remote : Type := mk_remote {
  addr : Z;
  num_threads : Z;
  last_one : bool;
  total_nodes : Z;
  nodes_base : Z;
  nodes_per_proc : Z
}.

(** the constructor; the other fields are set by [cache_values] *)
Definition new_remote (a n : Z) : res remote :=
  asserting (negb (n =? 0)) (Ok (mk_remote a n false 0 0 0)).

Definition LEADER_RANK : Z := 0.
Definition is_leader (r : remote) : bool := addr r =? LEADER_RANK.
Definition is_last (world_size : Z) (r : remote) : bool := addr r =? swrap 32 (world_size - 1).

(** sizes are 64 bits wide, ids of nodes and machines 32 *)
Definition cache_values (world_size nodes_per_remote nodes_total : Z) (r : remote) : remote :=
  let last := wrap 64 (addr r + 1) =? world_size in
  let total :=
    if last then wrap 64 (nodes_per_remote + (nodes_total - nodes_per_remote * world_size))
    else nodes_per_remote in
  mk_remote (addr r) (num_threads r) last total (wrap 64 (addr r * nodes_per_remote))
    (total / num_threads r).

Definition get_nodes_base (r : remote) : Z := wrap 32 (nodes_base r).

Definition find_proc_owner (r : remote) (id : Z) : res Z :=
  asserting (negb (nodes_per_proc r =? 0))
    (let remote_node_id := wrap 32 (id - get_nodes_base r) in
     Ok (wrap 16 (Z.min (remote_node_id / nodes_per_proc r) (num_threads r - 1)))).

Definition find_first_node (r : remote) (id : Z) : Z :=
  wrap 32 (get_nodes_base r + id * nodes_per_proc r).

Definition find_last_node (r : remote) (id : Z) : Z :=
  if num_threads r - 1 =? id then wrap 32 (get_nodes_base r + total_nodes r)
  else find_first_node r (wrap 16 (id + 1)).

Definition left_remote_id (world_size : Z) (r : remote) : Z :=
  if addr r =? 0 then swrap 32 (world_size - 1) else addr r - 1.

Definition right_remote_id (world_size : Z) (r : remote) : Z :=
  if is_last world_size r then 0 else addr r + 1.

(** ** [process/router.hpp]

    [use_mpi] is whether the program was built and started with several machines. *)

Record router : Type := mk_router {
  remote_list : list remote;
  world_size : Z;
  nodes_per_remote : Z;
  self : nat (** the rank of [remote::self] *)
}.

Definition use_mpi (r : router) : bool := 1 <? world_size r.

(** [base_constructor]: one machine, or one for each count of threads that was
    broadcast; [rank] is this machine's *)
Fixpoint new_remotes (i : Z) (threads : list Z) : res (list remote) :=
  match threads with
  | [] => Ok []
  | n :: threads =>
      let* r := new_remote i n in
      let* rs := new_remotes (i + 1) threads in Ok (r :: rs)
  end.

Definition base_constructor (threads : list Z) (rank : nat) : res router :=
  let* rs := new_remotes 0 threads in
  Ok (mk_router rs (Z.of_nat (length threads)) 0 rank).

(** built with USE_SIM, no check that there are nodes for every machine *)
Definition set_nodes_total (total : Z) (r : router) : router :=
  let per := total / world_size r in
  mk_router (cache_values (world_size r) per total <$> remote_list r) (world_size r) per (self r).

Definition find_remote (r : router) (id : Z) : res nat :=
  if negb (use_mpi r) then Ok (self r)
  else
    asserting (0 <? nodes_per_remote r)
      (Ok (Z.to_nat (Z.min (id / nodes_per_remote r) (world_size r - 1)))).

Definition get_remote (r : router) (rank : nat) : res remote := of_option (remote_list r !! rank).

(** ** [machine::same_place] *)

Definition same_place (r : router) (id1 id2 : Z) : res bool :=
  if id1 =? id2 then Ok true
  else
    let* rem1 := find_remote r id1 in
    let* rem2 := find_remote r id2 in
    if negb (rem1 =? rem2)%nat then Ok false
    else
      let* rem := get_remote r rem1 in
      let* p1 := find_proc_owner rem id1 in
      let* p2 := find_proc_owner rem id2 in
      Ok (p1 =? p2).

(** ** The split of the nodes *)

(** the machines as [base_constructor] and [set_nodes_total] leave them *)
Record split (total : Z) (r : router) : Prop := {
  split_world : world_size r = Z.of_nat (length (remote_list r));
  split_world_pos : 0 < world_size r < 2 ^ 31;
  split_per : nodes_per_remote r = total / world_size r;
  split_total : 0 <= total < 2 ^ 32;
  split_self : (self r < length (remote_list r))%nat;
  split_remote : ∀ i m, remote_list r !! i = Some m →
    addr m = Z.of_nat i ∧ 0 < num_threads m < 2 ^ 16 ∧
    total_nodes m = (if Z.of_nat i + 1 =? world_size r then total - Z.of_nat i * nodes_per_remote r
                     else nodes_per_remote r) ∧
    nodes_base m = Z.of_nat i * nodes_per_remote r ∧
    nodes_per_proc m = total_nodes m / num_threads m
}.

Lemma new_remotes_lookup threads : ∀ i rs,
  new_remotes i threads = Ok rs →
  length rs = length threads ∧
  ∀ j m, rs !! j = Some m → ∃ n, threads !! j = Some n ∧ n ≠ 0 ∧
    m = mk_remote (i + Z.of_nat j) n false 0 0 0.
Proof.
  induction threads as [|n threads IH]; intros i rs H; cbn [new_remotes] in H.
  { injection H as <-. split; [done|]. intros j m Hj. by rewrite lookup_nil in Hj. }
  apply res_bind_ok in H as (r & Hr & H). apply asserting_ok in Hr as [Hn [= <-]].
  apply res_bind_ok in H as (rs' & Hrs & [= <-]). destruct (IH _ _ Hrs) as [Hlen Hl].
  split; [simpl; lia|]. intros [|j] m Hj; simpl in Hj.
  - injection Hj as <-. exists n. split_and!; [done| |by rewrite Z.add_0_r].
    apply negb_true_iff, Z.eqb_neq in Hn. done.
  - destruct (Hl j m Hj) as (n' & Hn' & Hne & ->). exists n'. split_and!; [done|done|].
    f_equal. lia.
Qed.

Lemma base_constructor_split threads rank r total :
  base_constructor threads rank = Ok r →
  (rank < length threads)%nat → Z.of_nat (length threads) < 2 ^ 31 →
  Forall (λ n, 0 <= n < 2 ^ 16) threads → 0 <= total < 2 ^ 32 →
  split total (set_nodes_total total r).
Proof.
  intros H Hrank Hlen Hth Htot. apply res_bind_ok in H as (rs & Hrs & [= <-]).
  destruct (new_remotes_lookup _ _ _ Hrs) as [Hl Hlook].
  unfold set_nodes_total. cbn [remote_list world_size self].
  set (W := Z.of_nat (length threads)). set (per := total / W).
  assert (HW : 0 < W) by lia.
  assert (Hper : 0 <= per) by (apply Z.div_pos; lia).
  assert (Hmul : per * W <= total) by (rewrite Z.mul_comm; apply Z.mul_div_le; lia).
  split; cbn [remote_list world_size nodes_per_remote self];
    [by rewrite length_fmap, Hl|lia|done|done|by rewrite length_fmap, Hl|].
  intros i m. rewrite list_lookup_fmap. intros (m0 & Hm0 & ->)%fmap_Some.
  destruct (Hlook i m0 Hm0) as (n & Hn & Hne & ->).
  assert (Hi : Z.of_nat i < W) by (apply lookup_lt_Some in Hn; lia).
  assert (0 <= n < 2 ^ 16) by (by eapply Forall_lookup_1 in Hth).
  unfold cache_values. cbn [addr num_threads total_nodes nodes_base nodes_per_proc].
  rewrite Z.add_0_l, (wrap_id 64 (Z.of_nat i + 1)) by lia.
  split_and!; [done|lia..| |rewrite wrap_id; [done|nia]|done].
  destruct (Z.eqb_spec (Z.of_nat i + 1) W) as [He|He]; [|done].
  rewrite wrap_id; [|nia]. replace W with (Z.of_nat i + 1) by done. lia.
Qed.

(** the machine a node id belongs to *)
Lemma find_remote_range total r id :
  split total r → 0 <= id < total → 0 < nodes_per_remote r ∨ world_size r = 1 →
  ∃ i m, find_remote r id = Ok i ∧ get_remote r i = Ok m ∧
    nodes_base m <= id < nodes_base m + total_nodes m ∧ nodes_base m + total_nodes m <= total.
Proof.
  intros [HW HWp Hper Htot Hself Hrem] Hid Hnz. unfold find_remote, use_mpi, get_remote.
  assert (Hmul : nodes_per_remote r * world_size r <= total).
  { rewrite Hper, Z.mul_comm. apply Z.mul_div_le. lia. }
  destruct (Z.ltb_spec 1 (world_size r)) as [H1|H1]; cbn [negb].
  - assert (Hpos : 0 < nodes_per_remote r) by lia.
    rewrite (proj2 (Z.ltb_lt _ _) Hpos). cbn [asserting].
    set (q := id / nodes_per_remote r).
    assert (Hq : 0 <= q) by (apply Z.div_pos; lia).
    assert (Hdiv : nodes_per_remote r * q <= id < nodes_per_remote r * q + nodes_per_remote r).
    { unfold q. pose proof (Z.div_mod id (nodes_per_remote r)).
      pose proof (Z.mod_pos_bound id (nodes_per_remote r)). lia. }
    set (i := Z.to_nat (Z.min q (world_size r - 1))).
    assert (Hi : (i < length (remote_list r))%nat) by lia.
    destruct (lookup_lt_is_Some_2 _ _ Hi) as [m Hm]. exists i, m.
    destruct (Hrem i m Hm) as (_ & _ & Htn & Hb & _). rewrite Hm.
    split_and!; [done|done| | |]; rewrite Hb, ?Htn.
    + assert (Z.of_nat i <= q) by lia. nia.
    + destruct (Z.eqb_spec (Z.of_nat i + 1) (world_size r)); [lia|].
      assert (Z.of_nat i = q) as -> by lia. lia.
    + destruct (Z.eqb_spec (Z.of_nat i + 1) (world_size r)); [lia|]. nia.
  - assert (HW1 : world_size r = 1) by lia.
    destruct (lookup_lt_is_Some_2 _ _ Hself) as [m Hm]. exists (self r), m. rewrite Hm.
    destruct (Hrem _ _ Hm) as (_ & _ & Htn & Hb & _).
    assert (self r = 0%nat) as H0 by lia. rewrite H0 in Htn, Hb.
    assert (total_nodes m = total) by (rewrite Htn, HW1; change (Z.of_nat 0 + 1 =? 1) with true; cbv iota; lia).
    split_and!; [done|done|lia..].
Qed.

(** the thread of a machine a node id belongs to *)
Lemma find_proc_owner_range m id :
  0 < num_threads m < 2 ^ 16 → 0 <= nodes_base m → nodes_per_proc m = total_nodes m / num_threads m →
  nodes_base m <= id < nodes_base m + total_nodes m → nodes_base m + total_nodes m < 2 ^ 32 →
  0 < nodes_per_proc m →
  ∃ p, find_proc_owner m id = Ok p ∧ 0 <= p < num_threads m ∧
    find_first_node m p <= id < find_last_node m p.
Proof.
  intros Ht Hb0 Hper Hid Hmax Hpos.
  assert (Hmul : nodes_per_proc m * num_threads m <= total_nodes m).
  { rewrite Hper, Z.mul_comm. apply Z.mul_div_le. lia. }
  unfold find_proc_owner. destruct (Z.eqb_spec (nodes_per_proc m) 0); [lia|]. cbn [negb asserting].
  assert (Hbase : get_nodes_base m = nodes_base m) by (apply wrap_id; lia).
  rewrite Hbase, (wrap_id 32 (id - nodes_base m)) by lia.
  set (k := nodes_per_proc m) in *. set (q := (id - nodes_base m) / k).
  assert (Hq : 0 <= q) by (apply Z.div_pos; lia).
  assert (Hdiv : k * q <= id - nodes_base m < k * q + k).
  { unfold q. pose proof (Z.div_mod (id - nodes_base m) k).
    pose proof (Z.mod_pos_bound (id - nodes_base m) k). lia. }
  set (p := Z.min q (num_threads m - 1)). rewrite (wrap_id 16 p) by lia.
  exists p. split_and!; [done|lia..| |]; unfold find_last_node, find_first_node; rewrite Hbase; fold k.
  - rewrite wrap_id by nia. nia.
  - destruct (Z.eqb_spec (num_threads m - 1) p) as [He|He]; [rewrite wrap_id; lia|].
    rewrite (wrap_id 16) by lia. rewrite wrap_id by nia. assert (p = q) as -> by lia. lia.
Qed.

(** the range of a thread, which is in the range of its machine *)
Lemma thread_range m p :
  0 < num_threads m < 2 ^ 16 → 0 <= nodes_base m → nodes_per_proc m = total_nodes m / num_threads m →
  nodes_base m + total_nodes m < 2 ^ 32 → 0 < nodes_per_proc m → 0 <= p < num_threads m →
  find_first_node m p = nodes_base m + p * nodes_per_proc m ∧
  find_last_node m p = nodes_base m + (if num_threads m - 1 =? p then total_nodes m
                                       else (p + 1) * nodes_per_proc m) ∧
  (p + 1) * nodes_per_proc m <= total_nodes m.
Proof.
  intros Ht Hb0 Hper Hmax Hpos Hp.
  assert (Hmul : nodes_per_proc m * num_threads m <= total_nodes m).
  { rewrite Hper, Z.mul_comm. apply Z.mul_div_le. lia. }
  assert (Hbase : get_nodes_base m = nodes_base m) by (apply wrap_id; nia).
  assert ((p + 1) * nodes_per_proc m <= total_nodes m) by nia.
  unfold find_last_node, find_first_node. rewrite Hbase. split_and!; [apply wrap_id; nia | | done].
  destruct (Z.eqb_spec (num_threads m - 1) p) as [He|He]; [apply wrap_id; nia |].
  rewrite (wrap_id 16) by lia. apply wrap_id; nia.
Qed.

(** an id is in the range of one thread of a machine at most *)
Lemma thread_unique m p q id :
  0 < num_threads m < 2 ^ 16 → 0 <= nodes_base m → nodes_per_proc m = total_nodes m / num_threads m →
  nodes_base m + total_nodes m < 2 ^ 32 → 0 < nodes_per_proc m →
  0 <= p < num_threads m → 0 <= q < num_threads m →
  find_first_node m p <= id < find_last_node m p → find_first_node m q <= id < find_last_node m q →
  p = q.
Proof.
  intros Ht Hb Hper Hmax Hpos Hp Hq H1 H2.
  destruct (thread_range m p) as (Fp & Lp & _); [done..|].
  destruct (thread_range m q) as (Fq & Lq & _); [done..|].
  rewrite Fp, Lp in H1. rewrite Fq, Lq in H2. clear Fp Lp Fq Lq Hper.
  destruct (Z.lt_trichotomy p q) as [Hlt | [? | Hlt]]; [exfalso | done | exfalso].
  - destruct (Z.eqb_spec (num_threads m - 1) p); [lia |]. nia.
  - destruct (Z.eqb_spec (num_threads m - 1) q); [lia |]. nia.
Qed.

(** an id is in the range of one machine at most *)
Lemma machine_unique total r i j m n id :
  split total r → remote_list r !! i = Some m → remote_list r !! j = Some n →
  nodes_base m <= id < nodes_base m + total_nodes m →
  nodes_base n <= id < nodes_base n + total_nodes n → i = j.
Proof.
  intros [HW HWp Hper Htot Hself Hrem] Hm Hn H1 H2.
  assert (Hnn : 0 <= nodes_per_remote r) by (rewrite Hper; apply Z.div_pos; lia).
  destruct (Hrem _ _ Hm) as (_ & _ & Htm & Hbm & _). destruct (Hrem _ _ Hn) as (_ & _ & Htn & Hbn & _).
  apply lookup_lt_Some in Hm, Hn. rewrite Htm, Hbm in H1. rewrite Htn, Hbn in H2.
  clear Htm Hbm Htn Hbn Hrem Hper.
  destruct (Nat.lt_trichotomy i j) as [Hlt | [? | Hlt]]; [exfalso | done | exfalso].
  - destruct (Z.eqb_spec (Z.of_nat i + 1) (world_size r)); [lia |]. nia.
  - destruct (Z.eqb_spec (Z.of_nat j + 1) (world_size r)); [lia |]. nia.
Qed.

(** what the split says of one machine that has a node for each thread *)
Lemma split_machine total r i m :
  split total r → Forall (λ m, 0 < nodes_per_proc m) (remote_list r) → remote_list r !! i = Some m →
  0 <= nodes_base m ∧ 0 < num_threads m < 2 ^ 16 ∧ nodes_per_proc m = total_nodes m / num_threads m ∧
  0 < nodes_per_proc m ∧ nodes_base m + total_nodes m <= total.
Proof.
  intros Hs Hpos Hm. destruct (split_remote _ _ Hs _ _ Hm) as (_ & Ht & Htn & Hb & Hp).
  pose proof (split_world_pos _ _ Hs). pose proof (split_world _ _ Hs). pose proof (split_total _ _ Hs).
  assert (Hmul : nodes_per_remote r * world_size r <= total)
    by (rewrite (split_per _ _ Hs), Z.mul_comm; apply Z.mul_div_le; lia).
  assert (0 <= nodes_per_remote r) by (rewrite (split_per _ _ Hs); apply Z.div_pos; lia).
  rewrite Forall_lookup in Hpos. split_and!; [nia | lia.. | done | by eapply Hpos |].
  apply lookup_lt_Some in Hm. rewrite Hb, Htn.
  destruct (Z.eqb_spec (Z.of_nat i + 1) (world_size r)); [lia | nia].
Qed.

(** so every machine but the only one has nodes *)
Lemma split_nonzero total r :
  split total r → Forall (λ m, 0 < nodes_per_proc m) (remote_list r) →
  0 < nodes_per_remote r ∨ world_size r = 1.
Proof.
  intros Hs Hpos. destruct (decide (world_size r = 1)) as [|Hw]; [by right | left].
  pose proof (split_world_pos _ _ Hs). pose proof (split_world _ _ Hs).
  destruct (lookup_lt_is_Some_2 (remote_list r) 0 ltac:(lia)) as [m Hm].
  destruct (split_machine _ _ _ _ Hs Hpos Hm) as (_ & Ht & Hk & Hp & _).
  destruct (split_remote _ _ Hs _ _ Hm) as (_ & _ & Htn & _).
  change (Z.of_nat 0 + 1) with 1 in Htn. destruct (Z.eqb_spec 1 (world_size r)); [lia |].
  rewrite Htn in Hk. destruct (Z.lt_ge_cases 0 (nodes_per_remote r)); [done |].
  assert (nodes_per_remote r / num_threads m <= 0) by (apply Z.div_le_upper_bound; lia). lia.
Qed.

(** The ids of the nodes are split among the machines and, on each machine, among
    its threads.  In the router as its constructor and [set_nodes_total] leave it an id
    of the program belongs to the thread that [find_remote] and [find_proc_owner]
    answer, and to no other: the range of ids that [find_first_node] and
    [find_last_node] give to the schedulers is only that thread's.  Every machine needs
    a node for each of its threads. *)
Theorem nodes_are_split threads rank r0 total id :
  let r := set_nodes_total total r0 in
  base_constructor threads rank = Ok r0 → (rank < length threads)%nat →
  Z.of_nat (length threads) < 2 ^ 31 → Forall (λ n, 0 <= n < 2 ^ 16) threads →
  0 <= id < total → total < 2 ^ 32 →
  Forall (λ m, 0 < nodes_per_proc m) (remote_list r) →
  ∃ i m p, find_remote r id = Ok i ∧ get_remote r i = Ok m ∧ find_proc_owner m id = Ok p ∧
    0 <= p < num_threads m ∧ find_first_node m p <= id < find_last_node m p ∧
    ∀ j n q, get_remote r j = Ok n → 0 <= q < num_threads n →
      find_first_node n q <= id < find_last_node n q → j = i ∧ q = p.
Proof.
  intros r Hr0 Hrank Hlen Hth Hid Htot Hpos.
  assert (Hs : split total r) by (apply (base_constructor_split threads rank); [done.. | lia]).
  pose proof (split_nonzero _ _ Hs Hpos) as Hnz. pose proof (split_machine total r) as Hrem.
  destruct (find_remote_range total r id Hs Hid Hnz) as (i & m & Hi & Hm & Hrg & Hmax).
  pose proof Hm as Hl. apply of_option_ok in Hl. destruct (Hrem _ _ Hs Hpos Hl) as (Hb & Ht & Hper & Hp & _).
  destruct (find_proc_owner_range m id) as (p & Ep & Hpr & Hin); [done | done | done | lia | lia | done |].
  exists i, m, p. split_and!; [done | done | done | lia.. |].
  intros j n q Hn%of_option_ok Hq Hqi. destruct (Hrem _ _ Hs Hpos Hn) as (Hbn & Htn & Hpern & Hpn & Hmaxn).
  assert (j = i) as ->.
  { destruct (thread_range n q) as (F & L & Hle); [done | done | done | lia | done | done |].
    rewrite F, L in Hqi. apply (machine_unique total r j i n m id Hs Hn Hl); [| done].
    destruct (num_threads n - 1 =? q); nia. }
  split; [done |]. rewrite Hl in Hn. injection Hn as <-.
  by apply (thread_unique m q p id); [done | done | done | lia | done | ..].
Qed.

Definition sample_router : router :=
  set_nodes_total 10 (mk_router [mk_remote 0 2 false 0 0 0; mk_remote 1 1 false 0 0 0;
                                 mk_remote 2 3 false 0 0 0] 3 0 1).

Lemma nodes_are_split_witness :
  ∃ i m p, find_remote sample_router 7 = Ok i ∧ get_remote sample_router i = Ok m ∧
    find_proc_owner m 7 = Ok p ∧ 0 <= p < num_threads m ∧ find_first_node m p <= 7 < find_last_node m p ∧
    ∀ j n q, get_remote sample_router j = Ok n → 0 <= q < num_threads n →
      find_first_node n q <= 7 < find_last_node n q → j = i ∧ q = p.
Proof.
  apply (nodes_are_split [2; 1; 3] 1 _ 10 7); [reflexivity | simpl; lia | simpl; lia | | lia | lia |].
  - repeat constructor; lia.
  - repeat constructor; reflexivity.
Defined.

(** The token goes around all machines: the left of the right is the machine itself
    and the right of the left too. *)
Theorem ring_inverse world m :
  0 < world < 2 ^ 31 → 0 <= addr m < world →
  let at_ i := mk_remote i (num_threads m) (last_one m) (total_nodes m) (nodes_base m) (nodes_per_proc m) in
  left_remote_id world (at_ (right_remote_id world m)) = addr m ∧
  right_remote_id world (at_ (left_remote_id world m)) = addr m.
Proof.
  intros Hw Ha at_. unfold left_remote_id, right_remote_id, is_last. cbn [addr at_].
  rewrite swrap_id by lia. split.
  - destruct (Z.eqb_spec (addr m) (world - 1)); [done|]. destruct (Z.eqb_spec (addr m + 1) 0); lia.
  - destruct (Z.eqb_spec (addr m) 0).
    + rewrite Z.eqb_refl. lia.
    + destruct (Z.eqb_spec (addr m - 1) (world - 1)); lia.
Qed.

Lemma ring_inverse_witness : left_remote_id 3 (mk_remote 0 1 true 0 0 0) = 2.
Proof. exact (proj1 (ring_inverse 3 (mk_remote 2 1 true 0 0 0) ltac:(lia) ltac:(simpl; lia))). Defined.
