(* ===== verification/World.v ===== *)
(** The state of the interpreter and the rule engine over a node: [vm/state.hpp]
    around the register machine of [Exec], the objects it shares with the database
    and the scheduler, the interface of the schedulers ([sched/base.hpp]) and what
    [process/machine.cpp] does for the interpreter. *)

From Stdlib Require Import ZArith Lia Bool SpecFloat.
From stdpp Require Import base tactics list numbers option gmap strings.
From S2P Require Import Prelude Words Types Instr RuntimeList Tuple SimpleTuple Trie TupleTrie.
From S2P Require Import RuleMatcher Node Pqueues Exec Externals Router.

#[local] Open Scope Z_scope.

(** ** Counted tuples as objects

    A [simple_tuple] by address, with the address of its tuple: it is pointed to by
    queues, lists of the rule engine and registers at once.  The methods are those
    of [SimpleTuple]. *)

Record stuple : Type := mk_stuple {
  get_tuple : Z;
  st_count : Z;
  st_to_delete : bool;
  st_generated : bool;
  st_aggregate : bool
}.

Definition new_stuple (t n : Z) : stuple := mk_stuple t (swrap 16 n) false false false.
Definition st_set_generated_run (v : bool) (s : stuple) : stuple :=
  mk_stuple (get_tuple s) (st_count s) (st_to_delete s) v (st_aggregate s).
Definition st_will_delete (s : stuple) : stuple :=
  mk_stuple (get_tuple s) (st_count s) true (st_generated s) (st_aggregate s).
Definition st_will_not_delete (s : stuple) : stuple :=
  mk_stuple (get_tuple s) (st_count s) false (st_generated s) (st_aggregate s).
Definition st_set_as_aggregate (s : stuple) : stuple :=
  mk_stuple (get_tuple s) (st_count s) (st_to_delete s) (st_generated s) true.
Definition st_can_be_consumed (s : stuple) : bool := negb (st_to_delete s) && negb (st_generated s).

(** ** What a program is to the engine

    The byte code of rules and predicates is at counters of the code of [base]. *)

Record vm_program : Type := mk_vm_program {
  base : Exec.program;
  program_rules : list rule;
  affected_rules : list (list nat);
  rule_bytecode : list pcounter;
  predicate_bytecode : list pcounter;
  const_bytecode : pcounter
}.

Definition INIT_PREDICATE_ID : Z := 0.
Definition SET_PRIORITY_PREDICATE_ID : Z := 1.
Definition SETCOLOR_PREDICATE_ID : Z := 2.
Definition SETEDGELABEL_PREDICATE_ID : Z := 3.
Definition WRITE_STRING_PREDICATE_ID : Z := 4.
Definition ADD_PRIORITY_PREDICATE_ID : Z := 5.
Definition SCHEDULE_NEXT_PREDICATE_ID : Z := 6.
Definition SETCOLOR2_PREDICATE_ID : Z := 7.

Definition get_predicate (vp : vm_program) (id : Z) : res predicate :=
  of_option (predicates (base vp) !! Z.to_nat id).

(** ** Schedulers: [sched/base.hpp]

    What the engine asks of the scheduler that runs a node; nodes are given by id,
    tuples by address, and a new tuple comes with its stratification level.  The
    last five are the simulator's. *)

Class scheduler (Sched : Type) : Type := {
  sched_id : Sched → Z;
  find_scheduler : Z → Sched → res Z;
  new_work : Z → Z → Z → Sched → res Sched;                 (** node, tuple, level *)
  new_work_delay : Z → Z → Z → Sched → res Sched;           (** node, tuple, delay *)
  new_work_other : Z → Z → Z → Sched → res Sched;           (** scheduler, node, tuple *)
  new_work_remote : nat → Z → Z → Sched → res Sched;        (** machine, node, tuple *)
  queued_tuples : Z → Sched → res (list Z);             (** what [gather_active_tuples] goes over *)
  gather_next_tuples : Z → Sched → res (list Z * Sched);
  set_node_priority : bool → Z → spec_float → Sched → res Sched;   (** from another scheduler? *)
  add_node_priority : bool → Z → spec_float → Sched → res Sched;
  schedule_next : Z → Sched → res Sched;
  create_node_state : Z → Sched → res Sched;                (** the scheduler's part of a new node *)
  sim : bool;                                       (** [state::SIM] *)
  set_color : Z → Z → Z → Z → Sched → res Sched;
  get_tuples_until_timestamp : Z → Z → Sched → res (list Z * Sched);
  push_pending : Z → Z → Sched → res Sched
}.

Section World.
Context {Sched G : Type}.

(** ** The state

    [core] is the part the operands use.  [leaf_tuples] gives the address of the
    tuple a leaf of the database points to, by the address of the leaf. *)

Record world : Type := mk_world {
  core : state;
  stuples : gmap positive stuple;
  leaf_tuples : gmap positive positive;
  dbase : database;
  cur_node : option Z;
  run_count : Z;
  run_linear : bool;
  used_linear_tuples : list (Z * Z);
  current_rule : Z;
  use_local_tuples : bool;
  persistent_only : bool;
  local_tuples : list Z;
  generated_tuples : list Z;
  generated_persistent_tuples : list Z;
  generated_other_level : list Z;
  leaves_for_deletion : list (predicate * Z);
  current_level : Z;
  marked_rules : list bool;
  marked_predicates : list bool;
  rule_queue : list (heap_queue.heap_object (T:=Z));
  sim_instr_counter : Z;
  sim_instr_limit : Z;
  sim_instr_use : bool;
  sched : Sched;
  rng : G;
  output : list (list byte)
}.

Definition set_core (x : state) (w : world) : world :=
  mk_world x (stuples w) (leaf_tuples w) (dbase w) (cur_node w) (run_count w) (run_linear w)
    (used_linear_tuples w) (current_rule w) (use_local_tuples w) (persistent_only w) (local_tuples
    w) (generated_tuples w) (generated_persistent_tuples w) (generated_other_level w)
    (leaves_for_deletion w) (current_level w) (marked_rules w) (marked_predicates w) (rule_queue w)
    (sim_instr_counter w) (sim_instr_limit w) (sim_instr_use w) (sched w) (rng w) (output w).
Definition set_stuples (x : gmap positive stuple) (w : world) : world :=
  mk_world (core w) x (leaf_tuples w) (dbase w) (cur_node w) (run_count w) (run_linear w)
    (used_linear_tuples w) (current_rule w) (use_local_tuples w) (persistent_only w) (local_tuples
    w) (generated_tuples w) (generated_persistent_tuples w) (generated_other_level w)
    (leaves_for_deletion w) (current_level w) (marked_rules w) (marked_predicates w) (rule_queue w)
    (sim_instr_counter w) (sim_instr_limit w) (sim_instr_use w) (sched w) (rng w) (output w).
Definition set_leaf_tuples (x : gmap positive positive) (w : world) : world :=
  mk_world (core w) (stuples w) x (dbase w) (cur_node w) (run_count w) (run_linear w)
    (used_linear_tuples w) (current_rule w) (use_local_tuples w) (persistent_only w) (local_tuples
    w) (generated_tuples w) (generated_persistent_tuples w) (generated_other_level w)
    (leaves_for_deletion w) (current_level w) (marked_rules w) (marked_predicates w) (rule_queue w)
    (sim_instr_counter w) (sim_instr_limit w) (sim_instr_use w) (sched w) (rng w) (output w).
Definition set_dbase (x : database) (w : world) : world :=
  mk_world (core w) (stuples w) (leaf_tuples w) x (cur_node w) (run_count w) (run_linear w)
    (used_linear_tuples w) (current_rule w) (use_local_tuples w) (persistent_only w) (local_tuples
    w) (generated_tuples w) (generated_persistent_tuples w) (generated_other_level w)
    (leaves_for_deletion w) (current_level w) (marked_rules w) (marked_predicates w) (rule_queue w)
    (sim_instr_counter w) (sim_instr_limit w) (sim_instr_use w) (sched w) (rng w) (output w).
Definition set_cur_node (x : option Z) (w : world) : world :=
  mk_world (core w) (stuples w) (leaf_tuples w) (dbase w) x (run_count w) (run_linear w)
    (used_linear_tuples w) (current_rule w) (use_local_tuples w) (persistent_only w) (local_tuples
    w) (generated_tuples w) (generated_persistent_tuples w) (generated_other_level w)
    (leaves_for_deletion w) (current_level w) (marked_rules w) (marked_predicates w) (rule_queue w)
    (sim_instr_counter w) (sim_instr_limit w) (sim_instr_use w) (sched w) (rng w) (output w).
Definition set_run_count (x : Z) (w : world) : world :=
  mk_world (core w) (stuples w) (leaf_tuples w) (dbase w) (cur_node w) x (run_linear w)
    (used_linear_tuples w) (current_rule w) (use_local_tuples w) (persistent_only w) (local_tuples
    w) (generated_tuples w) (generated_persistent_tuples w) (generated_other_level w)
    (leaves_for_deletion w) (current_level w) (marked_rules w) (marked_predicates w) (rule_queue w)
    (sim_instr_counter w) (sim_instr_limit w) (sim_instr_use w) (sched w) (rng w) (output w).
Definition set_run_linear (x : bool) (w : world) : world :=
  mk_world (core w) (stuples w) (leaf_tuples w) (dbase w) (cur_node w) (run_count w) x
    (used_linear_tuples w) (current_rule w) (use_local_tuples w) (persistent_only w) (local_tuples
    w) (generated_tuples w) (generated_persistent_tuples w) (generated_other_level w)
    (leaves_for_deletion w) (current_level w) (marked_rules w) (marked_predicates w) (rule_queue w)
    (sim_instr_counter w) (sim_instr_limit w) (sim_instr_use w) (sched w) (rng w) (output w).
Definition set_used_linear_tuples (x : list (Z * Z)) (w : world) : world :=
  mk_world (core w) (stuples w) (leaf_tuples w) (dbase w) (cur_node w) (run_count w) (run_linear w)
    x (current_rule w) (use_local_tuples w) (persistent_only w) (local_tuples w) (generated_tuples
    w) (generated_persistent_tuples w) (generated_other_level w) (leaves_for_deletion w)
    (current_level w) (marked_rules w) (marked_predicates w) (rule_queue w) (sim_instr_counter w)
    (sim_instr_limit w) (sim_instr_use w) (sched w) (rng w) (output w).
Definition set_current_rule (x : Z) (w : world) : world :=
  mk_world (core w) (stuples w) (leaf_tuples w) (dbase w) (cur_node w) (run_count w) (run_linear w)
    (used_linear_tuples w) x (use_local_tuples w) (persistent_only w) (local_tuples w)
    (generated_tuples w) (generated_persistent_tuples w) (generated_other_level w)
    (leaves_for_deletion w) (current_level w) (marked_rules w) (marked_predicates w) (rule_queue w)
    (sim_instr_counter w) (sim_instr_limit w) (sim_instr_use w) (sched w) (rng w) (output w).
Definition set_use_local_tuples (x : bool) (w : world) : world :=
  mk_world (core w) (stuples w) (leaf_tuples w) (dbase w) (cur_node w) (run_count w) (run_linear w)
    (used_linear_tuples w) (current_rule w) x (persistent_only w) (local_tuples w) (generated_tuples
    w) (generated_persistent_tuples w) (generated_other_level w) (leaves_for_deletion w)
    (current_level w) (marked_rules w) (marked_predicates w) (rule_queue w) (sim_instr_counter w)
    (sim_instr_limit w) (sim_instr_use w) (sched w) (rng w) (output w).
Definition set_persistent_only (x : bool) (w : world) : world :=
  mk_world (core w) (stuples w) (leaf_tuples w) (dbase w) (cur_node w) (run_count w) (run_linear w)
    (used_linear_tuples w) (current_rule w) (use_local_tuples w) x (local_tuples w)
    (generated_tuples w) (generated_persistent_tuples w) (generated_other_level w)
    (leaves_for_deletion w) (current_level w) (marked_rules w) (marked_predicates w) (rule_queue w)
    (sim_instr_counter w) (sim_instr_limit w) (sim_instr_use w) (sched w) (rng w) (output w).
Definition set_local_tuples (x : list Z) (w : world) : world :=
  mk_world (core w) (stuples w) (leaf_tuples w) (dbase w) (cur_node w) (run_count w) (run_linear w)
    (used_linear_tuples w) (current_rule w) (use_local_tuples w) (persistent_only w) x
    (generated_tuples w) (generated_persistent_tuples w) (generated_other_level w)
    (leaves_for_deletion w) (current_level w) (marked_rules w) (marked_predicates w) (rule_queue w)
    (sim_instr_counter w) (sim_instr_limit w) (sim_instr_use w) (sched w) (rng w) (output w).
Definition set_generated_tuples (x : list Z) (w : world) : world :=
  mk_world (core w) (stuples w) (leaf_tuples w) (dbase w) (cur_node w) (run_count w) (run_linear w)
    (used_linear_tuples w) (current_rule w) (use_local_tuples w) (persistent_only w) (local_tuples
    w) x (generated_persistent_tuples w) (generated_other_level w) (leaves_for_deletion w)
    (current_level w) (marked_rules w) (marked_predicates w) (rule_queue w) (sim_instr_counter w)
    (sim_instr_limit w) (sim_instr_use w) (sched w) (rng w) (output w).
Definition set_generated_persistent_tuples (x : list Z) (w : world) : world :=
  mk_world (core w) (stuples w) (leaf_tuples w) (dbase w) (cur_node w) (run_count w) (run_linear w)
    (used_linear_tuples w) (current_rule w) (use_local_tuples w) (persistent_only w) (local_tuples
    w) (generated_tuples w) x (generated_other_level w) (leaves_for_deletion w) (current_level w)
    (marked_rules w) (marked_predicates w) (rule_queue w) (sim_instr_counter w) (sim_instr_limit w)
    (sim_instr_use w) (sched w) (rng w) (output w).
Definition set_generated_other_level (x : list Z) (w : world) : world :=
  mk_world (core w) (stuples w) (leaf_tuples w) (dbase w) (cur_node w) (run_count w) (run_linear w)
    (used_linear_tuples w) (current_rule w) (use_local_tuples w) (persistent_only w) (local_tuples
    w) (generated_tuples w) (generated_persistent_tuples w) x (leaves_for_deletion w) (current_level
    w) (marked_rules w) (marked_predicates w) (rule_queue w) (sim_instr_counter w) (sim_instr_limit
    w) (sim_instr_use w) (sched w) (rng w) (output w).
Definition set_leaves_for_deletion (x : list (predicate * Z)) (w : world) : world :=
  mk_world (core w) (stuples w) (leaf_tuples w) (dbase w) (cur_node w) (run_count w) (run_linear w)
    (used_linear_tuples w) (current_rule w) (use_local_tuples w) (persistent_only w) (local_tuples
    w) (generated_tuples w) (generated_persistent_tuples w) (generated_other_level w) x
    (current_level w) (marked_rules w) (marked_predicates w) (rule_queue w) (sim_instr_counter w)
    (sim_instr_limit w) (sim_instr_use w) (sched w) (rng w) (output w).
Definition set_current_level (x : Z) (w : world) : world :=
  mk_world (core w) (stuples w) (leaf_tuples w) (dbase w) (cur_node w) (run_count w) (run_linear w)
    (used_linear_tuples w) (current_rule w) (use_local_tuples w) (persistent_only w) (local_tuples
    w) (generated_tuples w) (generated_persistent_tuples w) (generated_other_level w)
    (leaves_for_deletion w) x (marked_rules w) (marked_predicates w) (rule_queue w)
    (sim_instr_counter w) (sim_instr_limit w) (sim_instr_use w) (sched w) (rng w) (output w).
Definition set_marked_rules (x : list bool) (w : world) : world :=
  mk_world (core w) (stuples w) (leaf_tuples w) (dbase w) (cur_node w) (run_count w) (run_linear w)
    (used_linear_tuples w) (current_rule w) (use_local_tuples w) (persistent_only w) (local_tuples
    w) (generated_tuples w) (generated_persistent_tuples w) (generated_other_level w)
    (leaves_for_deletion w) (current_level w) x (marked_predicates w) (rule_queue w)
    (sim_instr_counter w) (sim_instr_limit w) (sim_instr_use w) (sched w) (rng w) (output w).
Definition set_marked_predicates (x : list bool) (w : world) : world :=
  mk_world (core w) (stuples w) (leaf_tuples w) (dbase w) (cur_node w) (run_count w) (run_linear w)
    (used_linear_tuples w) (current_rule w) (use_local_tuples w) (persistent_only w) (local_tuples
    w) (generated_tuples w) (generated_persistent_tuples w) (generated_other_level w)
    (leaves_for_deletion w) (current_level w) (marked_rules w) x (rule_queue w) (sim_instr_counter
    w) (sim_instr_limit w) (sim_instr_use w) (sched w) (rng w) (output w).
Definition set_rule_queue (x : list (heap_queue.heap_object (T:=Z))) (w : world) : world :=
  mk_world (core w) (stuples w) (leaf_tuples w) (dbase w) (cur_node w) (run_count w) (run_linear w)
    (used_linear_tuples w) (current_rule w) (use_local_tuples w) (persistent_only w) (local_tuples
    w) (generated_tuples w) (generated_persistent_tuples w) (generated_other_level w)
    (leaves_for_deletion w) (current_level w) (marked_rules w) (marked_predicates w) x
    (sim_instr_counter w) (sim_instr_limit w) (sim_instr_use w) (sched w) (rng w) (output w).
Definition set_sim_instr_counter (x : Z) (w : world) : world :=
  mk_world (core w) (stuples w) (leaf_tuples w) (dbase w) (cur_node w) (run_count w) (run_linear w)
    (used_linear_tuples w) (current_rule w) (use_local_tuples w) (persistent_only w) (local_tuples
    w) (generated_tuples w) (generated_persistent_tuples w) (generated_other_level w)
    (leaves_for_deletion w) (current_level w) (marked_rules w) (marked_predicates w) (rule_queue w)
    x (sim_instr_limit w) (sim_instr_use w) (sched w) (rng w) (output w).
Definition set_sim_instr_limit (x : Z) (w : world) : world :=
  mk_world (core w) (stuples w) (leaf_tuples w) (dbase w) (cur_node w) (run_count w) (run_linear w)
    (used_linear_tuples w) (current_rule w) (use_local_tuples w) (persistent_only w) (local_tuples
    w) (generated_tuples w) (generated_persistent_tuples w) (generated_other_level w)
    (leaves_for_deletion w) (current_level w) (marked_rules w) (marked_predicates w) (rule_queue w)
    (sim_instr_counter w) x (sim_instr_use w) (sched w) (rng w) (output w).
Definition set_sim_instr_use (x : bool) (w : world) : world :=
  mk_world (core w) (stuples w) (leaf_tuples w) (dbase w) (cur_node w) (run_count w) (run_linear w)
    (used_linear_tuples w) (current_rule w) (use_local_tuples w) (persistent_only w) (local_tuples
    w) (generated_tuples w) (generated_persistent_tuples w) (generated_other_level w)
    (leaves_for_deletion w) (current_level w) (marked_rules w) (marked_predicates w) (rule_queue w)
    (sim_instr_counter w) (sim_instr_limit w) x (sched w) (rng w) (output w).
Definition set_sched (x : Sched) (w : world) : world :=
  mk_world (core w) (stuples w) (leaf_tuples w) (dbase w) (cur_node w) (run_count w) (run_linear w)
    (used_linear_tuples w) (current_rule w) (use_local_tuples w) (persistent_only w) (local_tuples
    w) (generated_tuples w) (generated_persistent_tuples w) (generated_other_level w)
    (leaves_for_deletion w) (current_level w) (marked_rules w) (marked_predicates w) (rule_queue w)
    (sim_instr_counter w) (sim_instr_limit w) (sim_instr_use w) x (rng w) (output w).
Definition set_rng (x : G) (w : world) : world :=
  mk_world (core w) (stuples w) (leaf_tuples w) (dbase w) (cur_node w) (run_count w) (run_linear w)
    (used_linear_tuples w) (current_rule w) (use_local_tuples w) (persistent_only w) (local_tuples
    w) (generated_tuples w) (generated_persistent_tuples w) (generated_other_level w)
    (leaves_for_deletion w) (current_level w) (marked_rules w) (marked_predicates w) (rule_queue w)
    (sim_instr_counter w) (sim_instr_limit w) (sim_instr_use w) (sched w) x (output w).
Definition set_output (x : list (list byte)) (w : world) : world :=
  mk_world (core w) (stuples w) (leaf_tuples w) (dbase w) (cur_node w) (run_count w) (run_linear w)
    (used_linear_tuples w) (current_rule w) (use_local_tuples w) (persistent_only w) (local_tuples
    w) (generated_tuples w) (generated_persistent_tuples w) (generated_other_level w)
    (leaves_for_deletion w) (current_level w) (marked_rules w) (marked_predicates w) (rule_queue w)
    (sim_instr_counter w) (sim_instr_limit w) (sim_instr_use w) (sched w) (rng w) x.


(** ** Computations *)

Definition run (A : Type) : Type := world → res (A * world).

Definition run_bind {A B} (m : run A) (k : A → run B) : run B := λ w, let* r := m w in k r.1 r.2.
Definition done {A} (a : A) : run A := λ w, Ok (a, w).
Definition fails {A} (f : failure) : run A := λ _, Err f.
Definition pure_run {A} (r : res A) : run A := λ w, let* a := r in Ok (a, w).
Definition look {A} (f : world → A) : run A := λ w, Ok (f w, w).
Definition change (f : world → world) : run unit := λ w, Ok ((), f w).
Definition must (b : bool) : run unit := λ w, asserting b (Ok ((), w)).

End World.

Arguments world : clear implicits.
Arguments run : clear implicits.

Notation "'run!' x := m 'in' k" := (run_bind m (fun x => k))
  (at level 10, x pattern, m at level 100, k at level 200) : meld_scope.
Notation "m ;;; k" := (run_bind m (fun _ => k))
  (at level 100, k at level 200, right associativity) : meld_scope.
#[local] Open Scope meld_scope.

Section Engine.
Context {Sched G : Type} `{scheduler Sched} (vp : vm_program) (rt : router).
Context (hash_int hash_uint hash_float : Z → Z).

Abbreviation world := (world Sched G).
Abbreviation run := (run Sched G).

Fixpoint run_each {A} (f : A → run unit) (xs : list A) : run unit :=
  match xs with
  | [] => done ()
  | x :: xs => f x ;;; run_each f xs
  end.

(** the program as the operands see it; a run without a node has host 0 (the code
    would read through NULL) *)
Definition program_of (w : world) : Exec.program :=
  let b := base vp in
  mk_program (code b) (default 0 (cur_node w)) (Node.max_id (dbase w)) (Node.static_max_id (dbase w))
    (default_strings b) (const_types b) (arguments b) (predicates b) (functions b).

Definition on_core {A} (f : Exec.program → exec A) : run A :=
  λ w, let* r := f (program_of w) (core w) in Ok (r.1, set_core r.2 w).

(** a function of the memory of lists and strings *)
Definition on_memory {A} (f : memory → res (memory * A)) : run A :=
  λ w, let* r := f (mem (core w)) in Ok (r.2, set_core (set_mem r.1 (core w)) w).

Definition on_sched (f : Sched → res Sched) : run unit :=
  λ w, let* s := f (sched w) in Ok ((), set_sched s w).

(** ** Objects *)

Definition tuple_at (a : Z) : run tuple := λ w, let* t := deref_tuple a (core w) in Ok (t, w).

Definition alloc_tuple (t : tuple) : run Z :=
  λ w, let q : positive := fresh (dom (heap (core w))) in
       Ok (Zpos q, set_core (set_heap (<[q := t]> (heap (core w))) (core w)) w).

(** [delete tpl] *)
Definition delete_tuple_at (a : Z) : run unit :=
  run! t := tuple_at a in
  on_memory (λ m, let* m := destroy m t in Ok (m, ())) ;;;
  change (λ w, set_core (set_heap (delete (Z.to_pos a) (heap (core w))) (core w)) w).

Definition deref_stuple (a : Z) (w : world) : res stuple :=
  match a with
  | Zpos q => of_option (stuples w !! q)
  | _ => Err undefined_behaviour
  end.

Definition stuple_at (a : Z) : run stuple := λ w, let* s := deref_stuple a w in Ok (s, w).

Definition alloc_stuple (s : stuple) : run Z :=
  λ w, let q : positive := fresh (dom (stuples w)) in
       Ok (Zpos q, set_stuples (<[q := s]> (stuples w)) w).

Definition update_stuple (a : Z) (f : stuple → stuple) : run unit :=
  run! s := stuple_at a in change (λ w, set_stuples (<[Z.to_pos a := f s]> (stuples w)) w).

(** [delete stpl]: the tuple stays *)
Definition delete_stuple (a : Z) : run unit :=
  run! _ := stuple_at a in change (λ w, set_stuples (delete (Z.to_pos a) (stuples w)) w).

Definition wipeout_stuple (a : Z) : run unit :=
  run! s := stuple_at a in delete_tuple_at (get_tuple s) ;;; delete_stuple a.

(** [new simple_tuple(tpl, count)] *)
Definition make_stuple (t n : Z) : run Z := alloc_stuple (new_stuple t n).

Definition stuple_pred (a : Z) : run predicate :=
  run! s := stuple_at a in run! t := tuple_at (get_tuple s) in done (pred t).

(** ** The node that runs, and its leaves *)

(** the address of a leaf: its node, predicate and place in the trie *)
Definition leaf_at (nd i : Z) (l : leaf_id) : positive := encode (nd, i, l).
Definition leaf_of (a : Z) : res (Z * Z * leaf_id) :=
  match a with
  | Zpos p => of_option (decode p)
  | _ => Err undefined_behaviour
  end.

Definition this_node : run node :=
  λ w, let* i := of_option (cur_node w) in
       let* nd := of_option (nodes (dbase w) !! i) in Ok (nd, w).

Definition put_node (nd : node) (db : database) : database :=
  mk_database (<[Node.get_id nd := nd]> (nodes db)) (translations db) (original_max_node_id db)
    (max_node_id db) (max_translated_id db) (nodes_total db).

Definition put_this_node (nd : node) : run unit := change (λ w, set_dbase (put_node nd (dbase w)) w).

Definition on_matcher {A} (f : rule_matcher → res (A * rule_matcher)) : run A :=
  run! nd := this_node in
  run! r := pure_run (f (matcher nd)) in
  put_this_node (set_matcher r.2 nd) ;;; done r.1.

(** [matcher.register_tuple(tpl, n, is_new)], [matcher.deregister_tuple(tpl, n)] *)
Definition register (p : predicate) (n : Z) (is_new : bool) : run unit :=
  run! _ := on_matcher (register_tuple (affected_rules vp) (Z.to_nat (pred_id p)) n is_new) in done ().
Definition deregister (p : predicate) (n : Z) : run unit :=
  run! _ := on_matcher (deregister_tuple (affected_rules vp) (Z.to_nat (pred_id p)) n) in done ().

Definition leaves_of (nd : node) (i : Z) : gmap leaf_id simple_tuple :=
  match tuples nd !! i with Some tr => leaf_store tr | None => ∅ end.

(** the leaves point to tuples that are also in the heap: what they hold now *)
Definition set_data (t : tuple) (s : simple_tuple) : simple_tuple :=
  mk_simple_tuple t (count s) (to_delete s) (generated_this_run s) (is_final_aggregate s).

Definition leaf_data (w : world) (nd i : Z) (l : leaf_id) : option tuple :=
  match leaf_tuples w !! leaf_at nd i l with Some a => heap (core w) !! a | None => None end.

Definition refresh_trie (w : world) (nd i : Z) (tr : tuple_trie) : tuple_trie :=
  mk_trie (root tr) (number_of_references tr)
    (map_imap (λ l s, Some (match leaf_data w nd i l with Some t => set_data t s | None => s end))
       (leaf_store tr))
    (leaf_list tr).

Definition refresh (w : world) (i : Z) (nd : node) : node :=
  match tuples nd !! i with
  | Some tr => set_tuples i (refresh_trie w (Node.get_id nd) i tr) nd
  | None => nd
  end.

(** the tuple of a leaf that is gone was deleted with it *)
Definition free_leaf (nd i : Z) (w : world) (l : leaf_id) : world :=
  let a := leaf_at nd i l in
  match leaf_tuples w !! a with
  | Some t => set_leaf_tuples (delete a (leaf_tuples w))
                (set_core (set_heap (delete t (heap (core w))) (core w)) w)
  | None => w
  end.

(** an operation of the node that may delete leaves of predicate [p] *)
Definition on_storage (p : predicate) (f : memory → node → res (memory * node)) : run unit :=
  run! nd := this_node in
  run! w := look id in
  let i := pred_id p in
  let nd := refresh w i nd in
  run! nd' := on_memory (λ m, f m nd) in
  put_this_node nd' ;;;
  change (λ w, foldl (free_leaf (Node.get_id nd) i) w
                 (elements (dom (leaves_of nd i) ∖ dom (leaves_of nd' i)))).

(** [state::add_fact_to_node]: a new leaf points to the tuple *)
Definition add_fact_to_node (tpl n : Z) : run bool :=
  run! nd := this_node in
  run! t := tuple_at tpl in
  run! m := look (λ w, mem (core w)) in
  run! r := pure_run (add_tuple hash_int hash_uint hash_float m t n nd) in
  let '(nd', is_new) := r in
  put_this_node nd' ;;;
  let i := pred_id (pred t) in
  (if is_new then
     change (λ w, set_leaf_tuples
       (foldl (λ M l, <[leaf_at (Node.get_id nd) i l := Z.to_pos tpl]> M) (leaf_tuples w)
          (elements (dom (leaves_of nd' i) ∖ dom (leaves_of nd i)))) w)
   else done ()) ;;;
  done is_new.

(** [leaf->get_count()] *)
Definition leaf_count (a : Z) : run Z :=
  λ w, let* r := leaf_of a in
       let '(n, i, l) := r in
       let* nd := of_option (nodes (dbase w) !! n) in
       let* s := of_option (leaves_of nd i !! l) in
       Ok (count s, w).

(** [leaf->get_underlying_tuple()] *)
Definition leaf_tuple (a : Z) : run Z :=
  λ w, let* _ := leaf_of a in
       let* t := of_option (leaf_tuples w !! Z.to_pos a) in Ok (Zpos t, w).

(** [node->delete_by_leaf(pred, leaf)] *)
Definition delete_leaf_at (p : predicate) (a : Z) : run unit :=
  run! r := pure_run (leaf_of a) in
  let '(n, i, l) := r in
  run! w := look id in
  run! _ := pure_run (let* nd := of_option (nodes (dbase w) !! n) in of_option (leaves_of nd i !! l)) in
  on_storage p (λ m nd, Node.delete_by_leaf m p l nd).

(** ** The machine: [process/machine.cpp] *)

(** the colours of SETCOLOR2; none for -1 *)
Definition color (c : Z) : option (Z * Z * Z) :=
  if c =? 0 then Some (255, 0, 0)
  else if c =? 1 then Some (255, 160, 0)
  else if c =? 2 then Some (255, 247, 0)
  else if c =? 3 then Some (0, 255, 0)
  else if c =? 4 then Some (0, 191, 255)
  else if c =? 5 then Some (0, 0, 255)
  else if c =? 6 then Some (255, 255, 255)
  else if c =? 7 then Some (139, 0, 204)
  else if c =? 8 then Some (255, 192, 203)
  else if c =? -1 then None
  else Some (0, 0, 0).

(** [run_action(sched, node, tpl, from_other)]: without the user interface, an edge
    label is ignored; the tuple is deleted, except by SETCOLOR2 with -1 *)
Definition run_action (nd tpl : Z) (from_other : bool) : run unit :=
  run! t := tuple_at tpl in
  let pid := pred_id (pred t) in
  must (is_action (pred t)) ;;;
  if pid =? SETCOLOR_PREDICATE_ID then
    (if sim (Sched:=Sched) then
       run! r := pure_run (Tuple.get_int t 0) in
       run! g := pure_run (Tuple.get_int t 1) in
       run! b := pure_run (Tuple.get_int t 2) in
       on_sched (set_color nd r g b)
     else done ()) ;;; delete_tuple_at tpl
  else if pid =? SETCOLOR2_PREDICATE_ID then
    if sim (Sched:=Sched) then
      run! c := pure_run (Tuple.get_int t 0) in
      match color c with
      | Some (r, g, b) => on_sched (set_color nd r g b) ;;; delete_tuple_at tpl
      | None => done ()
      end
    else delete_tuple_at tpl
  else if pid =? SETEDGELABEL_PREDICATE_ID then delete_tuple_at tpl
  else if pid =? SET_PRIORITY_PREDICATE_ID then
    run! f := pure_run (Tuple.get_float t 0) in
    on_sched (set_node_priority from_other nd f) ;;; delete_tuple_at tpl
  else if pid =? ADD_PRIORITY_PREDICATE_ID then
    run! f := pure_run (Tuple.get_float t 0) in
    on_sched (add_node_priority from_other nd f) ;;; delete_tuple_at tpl
  else if pid =? WRITE_STRING_PREDICATE_ID then
    run! p := pure_run (Tuple.get_ptr t 0) in
    run! w := look id in
    run! s := pure_run (get_content (strings (mem (core w))) p) in
    change (λ w, set_output (output w ++ [s]) w) ;;; delete_tuple_at tpl
  else if pid =? SCHEDULE_NEXT_PREDICATE_ID then
    must (negb from_other) ;;; on_sched (schedule_next nd) ;;; delete_tuple_at tpl
  else fails assert_fail.

(** [new_work_self]: the tuple goes to the queue of the node *)
Definition new_work_self (nd stpl : Z) : run unit :=
  run! p := stuple_pred stpl in on_sched (new_work nd stpl (pred_level p)).

Definition route_self (nd stpl delay : Z) : run unit :=
  if 0 <? delay then on_sched (new_work_delay nd stpl delay)
  else
    run! p := stuple_pred stpl in
    must (negb (is_action p)) ;;; new_work_self nd stpl.

(** [route(from, sched_caller, id, stpl, delay)] *)
Definition route (nd stpl delay : Z) : run unit :=
  run! rem := pure_run (find_remote rt nd) in
  run! w := look id in
  must (nd <=? Node.max_id (dbase w)) ;;;
  if (rem =? self rt)%nat then
    run! _ := pure_run (Node.find_node nd (dbase w)) in
    run! other := pure_run (find_scheduler nd (sched w)) in
    let here := sched_id (sched w) in
    run! s := stuple_at stpl in
    run! p := stuple_pred stpl in
    if 0 <? delay then on_sched (new_work_delay nd stpl delay)
    else if is_action p then
      run_action nd (get_tuple s) (negb (here =? other)) ;;; delete_stuple stpl
    else if other =? here then on_sched (new_work nd stpl (pred_level p))
    else on_sched (new_work_other other nd stpl)
  else
    must (use_mpi rt && (delay =? 0)) ;;; on_sched (new_work_remote rem nd stpl).

(** [base::init_node]: a new node begins with the init tuple *)
Definition init_node (nd : Z) : run unit :=
  run! p := pure_run (get_predicate vp INIT_PREDICATE_ID) in
  run! t := alloc_tuple (new_tuple p) in
  run! stpl := make_stuple t 1 in
  new_work_self nd stpl.

(** [DATABASE->create_node()] with the scheduler's part of the node *)
Definition create_database_node : run Z :=
  λ w, let create := Node.new_node (length (predicates (base vp))) (program_rules vp) in
       let '(db, nd) := Node.create_node create (dbase w) in
       let* s := create_node_state (Node.get_id nd) (sched w) in
       Ok (Node.get_id nd, set_sched s (set_dbase db w)).

End Engine.
