(* ===== verification/Serial.v ===== *)
(** The serial scheduler: [sched/serial.{hpp,cpp}], [sched/nodes/serial.hpp] and
    [sched/nodes/in_queue.hpp].  A node has a bounded priority queue of tuples; the
    nodes with work, but for the one that runs, are in an intrusive double queue. *)

From Stdlib Require Import ZArith Lia Bool SpecFloat.
From stdpp Require Import base tactics list numbers option gmap.
From S2P Require Import Prelude Words LinearQueue DoubleQueue BoundedQueue Node World.

#[local] Open Scope Z_scope.

(** ** Nodes and scheduler *)

(** [in_queue_node] and [serial_node]; the links are with the objects of the queue *)
Record serial_node : Type := mk_serial_node {
  queue : bounded_pqueue (linear_queue Z);
  i_am_on_queue : bool
}.

(** nodes by address; [max_strat_level] is the program's *)
Record serial_local : Type := mk_serial_local {
  snodes : gmap positive serial_node;
  slinks : objects;
  current_node : option positive;
  queue_nodes : double_queue;
  max_strat_level : Z
}.

(** [process::work]: a node, a tuple and the tuple's level *)
Definition work : Type := (Z * Z * Z)%type.

(** ids begin at 0 *)
Definition node_addr (id : Z) : positive := Z.to_pos (id + 1).
Definition node_id (a : positive) : Z := Zpos a - 1.

Definition set_snodes (ns : gmap positive serial_node) (s : serial_local) : serial_local :=
  mk_serial_local ns (slinks s) (current_node s) (queue_nodes s) (max_strat_level s).
Definition set_queue_nodes (r : double_queue * objects) (s : serial_local) : serial_local :=
  mk_serial_local (snodes s) r.2 (current_node s) r.1 (max_strat_level s).
Definition set_current_node (c : option positive) (s : serial_local) : serial_local :=
  mk_serial_local (snodes s) (slinks s) c (queue_nodes s) (max_strat_level s).

Definition serial_of (a : positive) (s : serial_local) : res serial_node := of_option (snodes s !! a).
Definition put_serial (a : positive) (n : serial_node) (s : serial_local) : serial_local :=
  set_snodes (<[a := n]> (snodes s)) s.

Definition node_add_work (stpl : Z) (level : Z) (n : serial_node) : res serial_node :=
  let* q := bounded_push stpl (Z.to_nat level) (queue n) in Ok (mk_serial_node q (i_am_on_queue n)).
Definition node_has_work (n : serial_node) : bool := negb (bounded_empty (queue n)).

Definition set_in_queue (a : positive) (val : bool) (s : serial_local) : res serial_local :=
  let* n := serial_of a s in
  asserting (negb (Bool.eqb (i_am_on_queue n) val))
    (Ok (put_serial a (mk_serial_node (queue n) val) s)).

(** [serial_node(id, trans, all)] *)
Definition create_serial_node (id : Z) (s : serial_local) : res serial_local :=
  let* q := new_bounded_pqueue (max_strat_level s) in
  Ok (mk_serial_local (<[node_addr id := mk_serial_node q false]> (snodes s))
        (<[node_addr id := init_links]> (slinks s)) (current_node s) (queue_nodes s)
        (max_strat_level s)).

Definition new_serial (max_strat_level : Z) : serial_local :=
  mk_serial_local ∅ ∅ None new_double_queue max_strat_level.

(** ** Operations *)

Definition has_work (s : serial_local) : bool := negb (double_empty (queue_nodes s)).

Definition push_node (a : positive) (s : serial_local) : res serial_local :=
  let* r := push_tail_node a (queue_nodes s) (slinks s) in Ok (set_queue_nodes r s).

Definition serial_new_work (id stpl level : Z) (s : serial_local) : res serial_local :=
  let to := node_addr id in
  let* n := serial_of to s in
  let* n := node_add_work stpl level n in
  let s := put_serial to n s in
  if i_am_on_queue n then Ok s
  else
    let* s := set_in_queue to true s in
    push_node to s.

(** [queue_nodes.pop(current_node)]: false on an empty queue, without a change *)
Definition pop_node (s : serial_local) : res (bool * serial_local) :=
  let* r := double_pop (queue_nodes s) (slinks s) in
  let '(a, q, os) := r in
  match a with
  | Some a => Ok (true, set_current_node (Some a) (set_queue_nodes (q, os) s))
  | None => Ok (false, set_queue_nodes (q, os) s)
  end.

(** the three assertions at the end *)
Definition check_current (s : serial_local) : res (option Z * serial_local) :=
  match current_node s with
  | None => Err assert_fail
  | Some a =>
      let* n := serial_of a s in
      asserting (node_has_work n && i_am_on_queue n) (Ok (Some (node_id a), s))
  end.

Definition serial_get_work (s : serial_local) : res (option Z * serial_local) :=
  match current_node s with
  | Some c =>
      let* n := serial_of c s in
      if node_has_work n then check_current s
      else
        let* s := set_in_queue c false s in
        let s := set_current_node None s in
        if negb (has_work s) then Ok (None, s)
        else
          let* r := pop_node s in
          if r.1 then check_current r.2 else Ok (None, r.2)
  | None =>
      if negb (has_work s) then Ok (None, s)
      else
        let* r := pop_node s in
        if r.1 then check_current r.2 else Ok (None, r.2)
  end.

Definition serial_queued_tuples (id : Z) (s : serial_local) : res (list Z) :=
  let* n := serial_of (node_addr id) s in bounded_elements (queue n).

(** [top_list] on the list of the caller, which is empty *)
Definition serial_gather_next_tuples (id : Z) (s : serial_local) : res (list Z * serial_local) :=
  let a := node_addr id in
  let* n := serial_of a s in
  let* r := bounded_top_list (queue n) [] in
  Ok (r.1, put_serial a (mk_serial_node r.2 (i_am_on_queue n)) s).

(** [serial_node::assert_end_iteration] of the nodes, after [assert(!has_work())] *)
Fixpoint assert_nodes_end (ids : list Z) (s : serial_local) : res unit :=
  match ids with
  | [] => Ok ()
  | id :: ids =>
      let* n := serial_of (node_addr id) s in
      asserting (negb (i_am_on_queue n) && negb (node_has_work n)) (assert_nodes_end ids s)
  end.

Definition serial_assert_end_iteration (ids : list Z) (s : serial_local) : res unit :=
  asserting (negb (has_work s)) (assert_nodes_end ids s).

(** [serial_ui_local::change_to_node], on which the user interface goes to a node *)
Definition change_to_node (id : Z) (s : serial_local) : res serial_local :=
  let a := node_addr id in
  let* n := serial_of a s in
  if negb (node_has_work n) then Ok s
  else
    let* s :=
      match current_node s with
      | None => Ok s
      | Some c =>
          let* m := serial_of c s in
          if node_has_work m then push_node c s else set_in_queue c false s
      end in
    let s := set_current_node (Some a) s in
    let* n := serial_of a s in
    asserting (i_am_on_queue n)
      (let* r := double_remove a (queue_nodes s) (slinks s) in Ok (set_queue_nodes r s)).

(** the priorities are [base]'s, which do nothing; the rest is of other schedulers *)
#[global] Instance serial_scheduler : scheduler serial_local := {|
  sched_id _ := 0;
  find_scheduler _ _ := Ok 0;
  new_work := serial_new_work;
  new_work_delay _ _ _ _ := Err assert_fail;
  new_work_other _ _ _ _ := Err assert_fail;
  new_work_remote _ _ _ _ := Err assert_fail;
  queued_tuples := serial_queued_tuples;
  gather_next_tuples := serial_gather_next_tuples;
  set_node_priority _ _ _ s := Ok s;
  add_node_priority _ _ _ s := Ok s;
  schedule_next _ s := Ok s;
  create_node_state := create_serial_node;
  sim := false;
  set_color _ _ _ _ _ := Err undefined_behaviour;
  get_tuples_until_timestamp _ _ _ := Err undefined_behaviour;
  push_pending _ _ _ := Err undefined_behaviour
|}.

(** ** The plan of the scheduler

    What a scheduler is to its callers: the node that runs, the nodes that wait, in
    order, and the tuples of each node by level. *)

Record plan : Type := mk_plan {
  running : option positive;
  waiting : list positive;
  works : gmap positive (list (list Z))
}.

Definition busy (p : plan) (a : positive) : Prop :=
  ∃ W, works p !! a = Some W ∧ concat W ≠ [].
#[global] Instance busy_dec p a : Decision (busy p a).
Proof.
  unfold busy. destruct (works p !! a) as [W |]; [| right; by intros (? & ? & _)].
  destruct (decide (concat W = [])); [right; naive_solver | left; eauto].
Defined.

Definition on_queue (p : plan) (a : positive) : Prop := a ∈ waiting p ∨ running p = Some a.
#[global] Instance on_queue_dec p a : Decision (on_queue p a).
Proof. unfold on_queue. apply _. Defined.

Definition add_works (a : positive) (x : Z) (level : nat) (p : plan) : plan :=
  mk_plan (running p) (if decide (on_queue p a) then waiting p else waiting p ++ [a])
    (alter (alter (λ l, l ++ [x]) level) a (works p)).

(** the node that runs goes on as long as it has work, then the first that waits *)
Definition next_work (p : plan) : plan :=
  match running p with
  | Some a =>
      if decide (busy p a) then p
      else mk_plan (head (waiting p)) (tail (waiting p)) (works p)
  | None => mk_plan (head (waiting p)) (tail (waiting p)) (works p)
  end.

Definition take_works (a : positive) (p : plan) : list Z * plan :=
  match works p !! a with
  | Some W =>
      match take_first W with
      | Some (l, W') => (l, mk_plan (running p) (waiting p) (<[a := W']> (works p)))
      | None => ([], p)
      end
  | None => ([], p)
  end.

Definition switch (a : positive) (p : plan) : plan :=
  if decide (busy p a) then
    mk_plan (Some a)
      (filter (λ b, b ≠ a)
         match running p with
         | Some c => if decide (busy p c) then waiting p ++ [c] else waiting p
         | None => waiting p
         end)
      (works p)
  else p.

(** the levels of the program fit, and no queue reaches 2^64 tuples *)
Record serial_rep (s : serial_local) (p : plan) : Prop := {
  rep_queue : double_rep (queue_nodes s) (slinks s) (waiting p);
  rep_current : current_node s = running p;
  rep_objects : dom (slinks s) = dom (works p);
  rep_nodes : ∀ a, match snodes s !! a, works p !! a with
                   | Some n, Some W => bounded_rep (queue n) W ∧
                       i_am_on_queue n = bool_decide (on_queue p a) ∧
                       (Z.to_nat (max_strat_level s) <= length W)%nat
                   | None, None => True
                   | _, _ => False
                   end;
  rep_running : ∀ a, running p = Some a → a ∉ waiting p ∧ a ∈ dom (works p);
  rep_waiting : ∀ a, a ∈ waiting p → busy p a;
  rep_busy : ∀ a, busy p a → on_queue p a
}.

Section Rep.
Context (s : serial_local) (p : plan) (Hrep : serial_rep s p).

Lemma rep_node a W :
  works p !! a = Some W →
  ∃ n, snodes s !! a = Some n ∧ bounded_rep (queue n) W ∧
       i_am_on_queue n = bool_decide (on_queue p a) ∧ (Z.to_nat (max_strat_level s) <= length W)%nat.
Proof using Hrep.
  intros HW. pose proof (rep_nodes _ _ Hrep a) as H. rewrite HW in H.
  destruct (snodes s !! a) as [n |]; [| done]. by exists n.
Qed.

Lemma rep_node_work a n : snodes s !! a = Some n → node_has_work n = bool_decide (busy p a).
Proof using Hrep.
  intros Hn. pose proof (rep_nodes _ _ Hrep a) as H. rewrite Hn in H.
  destruct (works p !! a) as [W |] eqn:HW; [| done]. destruct H as (H & _).
  unfold node_has_work. pose proof (bounded_empty_ok _ _ H) as E.
  destruct (bounded_empty (queue n)) eqn:Hb; cbn; symmetry.
  - apply bool_decide_eq_false. intros (W' & HW' & Hne). rewrite HW in HW'. injection HW' as <-.
    by apply Hne, E.
  - apply bool_decide_eq_true. exists W. split; [done |]. intros Hc. by apply E in Hc.
Qed.

Lemma rep_has_work : has_work s = bool_decide (waiting p ≠ []).
Proof using Hrep.
  unfold has_work, double_empty. rewrite (rep_head _ _ _ (rep_queue _ _ Hrep)).
  by destruct (waiting p).
Qed.

Lemma rep_link a : a ∈ dom (works p) → ∃ n, slinks s !! a = Some n.
Proof using Hrep. rewrite <- (rep_objects _ _ Hrep). by intros [? ?]%elem_of_dom; eexists. Qed.

Lemma waiting_dom a : a ∈ waiting p → a ∈ dom (works p).
Proof using Hrep.
  intros (W & HW & _)%(rep_waiting _ _ Hrep). apply elem_of_dom. by eexists.
Qed.

Lemma rep_flag a n : snodes s !! a = Some n → i_am_on_queue n = bool_decide (on_queue p a).
Proof using Hrep.
  intros Hn. pose proof (rep_nodes _ _ Hrep a) as H. rewrite Hn in H.
  by destruct (works p !! a) as [W |]; [destruct H as (_ & ? & _) |].
Qed.

(** the nodes of another plan over the same nodes *)
Lemma rep_nodes_flags s' p' :
  works p' = works p → max_strat_level s' = max_strat_level s →
  (∀ a, snodes s' !! a = (λ n, mk_serial_node (queue n) (bool_decide (on_queue p' a))) <$> snodes s !! a) →
  ∀ a, match snodes s' !! a, works p' !! a with
       | Some n, Some W => bounded_rep (queue n) W ∧
           i_am_on_queue n = bool_decide (on_queue p' a) ∧
           (Z.to_nat (max_strat_level s') <= length W)%nat
       | None, None => True
       | _, _ => False
       end.
Proof using Hrep.
  intros HW Hm Hs a. rewrite Hs, HW, Hm. pose proof (rep_nodes _ _ Hrep a) as H.
  destruct (snodes s !! a), (works p !! a); cbn; try done. by destruct H as (? & ? & ?).
Qed.

End Rep.

Lemma node_same n b : i_am_on_queue n = b → mk_serial_node (queue n) b = n.
Proof. by destruct n; cbn; intros <-. Qed.

(** ** The operations follow the plan *)

Lemma push_node_ok s p a s1 :
  serial_rep s p → queue_nodes s1 = queue_nodes s → slinks s1 = slinks s →
  a ∈ dom (works p) → a ∉ waiting p →
  ∃ q os, push_node a s1 = Ok (set_queue_nodes (q, os) s1) ∧
          double_rep q os (waiting p ++ [a]) ∧ dom os = dom (works p).
Proof.
  intros H Hq Hl Ha Hw. destruct (rep_link _ _ H a Ha) as (n & Hn).
  destruct (rep_out _ _ _ (rep_queue _ _ H) a n Hn Hw) as [Hf _].
  destruct (push_tail_rep _ _ _ _ _ (rep_queue _ _ H) Hn Hf) as (q & os & E & Hr).
  exists q, os. unfold push_node. rewrite Hq, Hl, E. split; [done |]. split; [done |].
  rewrite (push_tail_dom _ _ _ _ _ E). apply (rep_objects _ _ H).
Qed.

Lemma set_in_queue_ok a b n s :
  snodes s !! a = Some n → i_am_on_queue n = negb b →
  set_in_queue a b s = Ok (put_serial a (mk_serial_node (queue n) b) s).
Proof.
  intros Hn Hf. unfold set_in_queue, serial_of. rewrite Hn. cbn [of_option res_bind].
  rewrite Hf. by destruct b.
Qed.

Lemma on_queue_waiting p a : on_queue p a → running p ≠ Some a → a ∈ waiting p.
Proof. intros [? | ?]; done. Qed.

Lemma busy_add_inv p a x level b : busy (add_works a x level p) b → busy p b ∨ b = a.
Proof.
  destruct (decide (b = a)) as [-> | Hne]; [by right |]. intros (W & HW & Hc). left.
  exists W. split; [| done]. revert HW. unfold add_works. cbn. by rewrite lookup_alter_ne.
Qed.

Lemma busy_add p a x level b W :
  works p !! a = Some W → (level < length W)%nat → busy p b ∨ b = a → busy (add_works a x level p) b.
Proof.
  intros HW Hl Hb. unfold busy, add_works. cbn. destruct (decide (b = a)) as [-> | Hne].
  - rewrite lookup_alter_eq, HW. eexists. split; [done |]. intros E.
    pose proof (concat_alter_length W level x Hl) as E'. rewrite E in E'. cbn in E'. lia.
  - rewrite lookup_alter_ne by done. by destruct Hb.
Qed.

Lemma new_work_ok s p id x level W :
  serial_rep s p → works p !! node_addr id = Some W → 0 <= level < max_strat_level s →
  Z.of_nat (S (length (concat W))) < 2 ^ 64 →
  ∃ s', serial_new_work id x level s = Ok s' ∧
        serial_rep s' (add_works (node_addr id) x (Z.to_nat level) p).
Proof.
  intros H HW Hl Hs. set (a := node_addr id) in *.
  destruct (rep_node _ _ H a W HW) as (n & Hn & Hb & Hf & Hlev).
  destruct (bounded_push_ok _ _ x (Z.to_nat level) Hb ltac:(lia) Hs) as (q & Hq & Hb').
  assert (Ha : a ∈ dom (works p)) by (apply elem_of_dom; eauto).
  assert (Hon : on_queue (add_works a x (Z.to_nat level) p) a).
  { unfold add_works, on_queue. cbn. destruct (decide _) as [? | ?]; [done |]. left. set_solver. }
  assert (Hons : ∀ b, b ≠ a → on_queue (add_works a x (Z.to_nat level) p) b ↔ on_queue p b).
  { intros b Hne. unfold add_works, on_queue. cbn. destruct (decide _); [done |]. set_solver. }
  assert (Hnodes : ∀ s' f, max_strat_level s' = max_strat_level s →
    snodes s' = <[a := mk_serial_node q f]> (snodes s) → f = true →
    ∀ b, match snodes s' !! b, works (add_works a x (Z.to_nat level) p) !! b with
       | Some n, Some W => bounded_rep (queue n) W ∧
           i_am_on_queue n = bool_decide (on_queue (add_works a x (Z.to_nat level) p) b) ∧
           (Z.to_nat (max_strat_level s') <= length W)%nat
       | None, None => True
       | _, _ => False
       end).
  { intros s' f -> -> -> b. destruct (decide (b = a)) as [-> | Hne].
    - rewrite lookup_insert_eq. unfold add_works at 1. cbn. rewrite lookup_alter_eq, HW. cbn.
      split; [done |]. rewrite length_alter, bool_decide_true by done. done.
    - rewrite lookup_insert_ne by done. unfold add_works at 1. cbn. rewrite lookup_alter_ne by done.
      pose proof (rep_nodes _ _ H b) as Hb0. destruct (snodes s !! b), (works p !! b); try done.
      destruct Hb0 as (? & -> & ?). split; [done |]. split; [| done].
      apply bool_decide_ext. by rewrite Hons. }
  assert (Hdom : dom (works (add_works a x (Z.to_nat level) p)) = dom (works p)) by apply dom_alter_L.
  assert (Hbusy : ∀ b, busy (add_works a x (Z.to_nat level) p) b →
                  on_queue (add_works a x (Z.to_nat level) p) b).
  { intros b [Hbb | ->]%busy_add_inv; [| done]. destruct (decide (b = a)) as [-> | ?]; [done |].
    apply Hons; [done |]. by apply (rep_busy _ _ H). }
  unfold serial_new_work, serial_of. fold a. rewrite Hn. cbn [of_option res_bind].
  unfold node_add_work. rewrite Hq. cbn [res_bind i_am_on_queue]. rewrite Hf.
  destruct (decide (on_queue p a)) as [Hq1 | Hq1].
  - rewrite (bool_decide_true _ Hq1). eexists. split; [done |].
    assert (Hwt : waiting (add_works a x (Z.to_nat level) p) = waiting p)
      by (unfold add_works; cbn; by rewrite decide_True).
    split; rewrite ?Hdom; try apply H; try done.
    + rewrite Hwt. apply H.
    + by apply (Hnodes _ true).
    + rewrite Hwt. apply H.
    + rewrite Hwt. intros b Hbw. eapply busy_add; [done | lia | left]. by apply (rep_waiting _ _ H).
  - rewrite (bool_decide_false _ Hq1).
    erewrite set_in_queue_ok by (cbn; rewrite ?lookup_insert_eq; reflexivity).
    cbn [res_bind queue].
    match goal with |- ∃ _, push_node a ?s1 = _ ∧ _ =>
      destruct (push_node_ok s p a s1 H eq_refl eq_refl Ha ltac:(unfold on_queue in Hq1; tauto))
        as (q' & os & -> & Hr & Hd) end.
    eexists. split; [done |].
    assert (Hwt : waiting (add_works a x (Z.to_nat level) p) = waiting p ++ [a])
      by (unfold add_works; cbn; by rewrite decide_False).
    split; rewrite ?Hdom; try done.
    + by rewrite Hwt.
    + apply H.
    + apply (Hnodes _ true); cbn; [done | apply insert_insert_eq | done].
    + rewrite Hwt. cbn. intros b Hr1. destruct (rep_running _ _ H b Hr1) as [Hw Hd1]. split; [| done].
      apply not_elem_of_app. split; [done |]. rewrite list_elem_of_singleton. intros ->.
      apply Hq1. by right.
    + rewrite Hwt. intros b Hbw%elem_of_app. eapply busy_add; [done | lia |].
      rewrite list_elem_of_singleton in Hbw. destruct Hbw as [Hbw |]; [left | by right].
      by apply (rep_waiting _ _ H).
Qed.

Lemma check_current_ok s p a :
  serial_rep s p → running p = Some a → busy p a → check_current s = Ok (Some (node_id a), s).
Proof.
  intros H Hr Hb. unfold check_current. rewrite (rep_current _ _ H), Hr.
  destruct Hb as (W & HW & Hc). destruct (rep_node _ _ H a W HW) as (n & Hn & _ & Hf & _).
  unfold serial_of. rewrite Hn. cbn [of_option res_bind].
  rewrite (rep_node_work _ _ H _ _ Hn), Hf, !bool_decide_true; [done | by right | by exists W].
Qed.

Definition idle (p : plan) : plan := mk_plan None (waiting p) (works p).

(** a node without work gives its place up *)
Lemma idle_ok s p c n :
  serial_rep s p → running p = Some c → ¬ busy p c → snodes s !! c = Some n →
  serial_rep (set_current_node None (put_serial c (mk_serial_node (queue n) false) s)) (idle p).
Proof.
  intros H Hr Hb Hn. destruct (rep_running _ _ H c Hr) as [Hw _].
  split; try apply H; try done.
  - apply (rep_nodes_flags _ _ H); try done. intros a. cbn.
    destruct (decide (a = c)) as [-> | Hne].
    + rewrite lookup_insert_eq, Hn. cbn. rewrite bool_decide_false; [done |]. by intros [? | ?].
    + rewrite lookup_insert_ne by done. destruct (snodes s !! a) as [m |] eqn:Hm; [| done]. cbn.
      f_equal. symmetry. apply node_same. rewrite (rep_flag _ _ H _ _ Hm). apply bool_decide_ext.
      unfold on_queue. cbn. rewrite Hr. naive_solver.
  - intros a (W & HW & Hc). left. cbn.
    destruct (rep_busy _ _ H a (ex_intro _ W (conj HW Hc))) as [? | E]; [done |].
    rewrite Hr in E. injection E as <-. exfalso. apply Hb. by exists W.
Qed.

(** the first node that waits runs *)
Definition start_next (s : serial_local) : res (option Z * serial_local) :=
  if negb (has_work s) then Ok (None, s)
  else
    let* r := pop_node s in
    if r.1 then check_current r.2 else Ok (None, r.2).

Lemma start_next_ok s p :
  serial_rep s p → running p = None →
  ∃ s', start_next s = Ok (node_id <$> head (waiting p), s') ∧
        serial_rep s' (mk_plan (head (waiting p)) (tail (waiting p)) (works p)).
Proof.
  intros H Hr. unfold start_next. rewrite (rep_has_work _ _ H).
  destruct (waiting p) as [| a Q] eqn:HQ.
  { rewrite bool_decide_false by (by intros []). exists s. split; [done |]. cbn.
    destruct p as [r Q W]. cbn in *. by subst. }
  rewrite bool_decide_true by done. cbn [negb].
  pose proof (rep_queue _ _ H) as Hq. rewrite HQ in Hq.
  destruct (pop_rep _ _ _ _ Hq) as (q & os & E & Hq').
  unfold pop_node. rewrite E. cbn [res_bind fst snd].
  set (s' := set_current_node _ _). set (p' := mk_plan _ _ _).
  assert (Hnd : a ∉ Q) by apply (NoDup_cons a Q), (rep_nodup _ _ _ Hq).
  assert (H' : serial_rep s' p').
  { split; try done.
    - cbn. rewrite (double_pop_dom _ _ _ _ _ E). apply H.
    - apply (rep_nodes_flags _ _ H); try done. intros b. cbn.
      destruct (snodes s !! b) as [m |] eqn:Hm; [| done]. cbn.
      f_equal. symmetry. apply node_same. rewrite (rep_flag _ _ H _ _ Hm). apply bool_decide_ext.
      unfold on_queue. cbn. rewrite HQ, Hr, elem_of_cons. naive_solver.
    - cbn. intros b [= <-]. split; [done |]. apply (waiting_dom _ _ H). rewrite HQ. apply elem_of_cons. by left.
    - cbn. intros b Hb. apply (rep_waiting _ _ H). rewrite HQ. apply elem_of_cons. by right.
    - intros b Hb. destruct (rep_busy _ _ H b Hb) as [Hw | Hw]; [| congruence].
      rewrite HQ in Hw. unfold on_queue. cbn. apply elem_of_cons in Hw as [-> |]; [by right | by left]. }
  exists s'. split; [| done]. apply (check_current_ok _ _ _ H'); [done |].
  apply (rep_waiting _ _ H). rewrite HQ. apply elem_of_cons. by left.
Qed.

Lemma get_work_ok s p :
  serial_rep s p →
  ∃ s', serial_get_work s = Ok (node_id <$> running (next_work p), s') ∧ serial_rep s' (next_work p).
Proof.
  intros H. unfold serial_get_work, next_work. rewrite (rep_current _ _ H).
  destruct (running p) as [c |] eqn:Hr; [| by apply start_next_ok].
  destruct (rep_running _ _ H c Hr) as [_ [W HW]%elem_of_dom].
  destruct (rep_node _ _ H c W HW) as (n & Hn & _ & Hf & _).
  unfold serial_of. rewrite Hn. cbn [of_option res_bind]. rewrite (rep_node_work _ _ H _ _ Hn).
  destruct (decide (busy p c)) as [Hb | Hb].
  - rewrite bool_decide_true, Hr by done. exists s. split; [| done]. by apply (check_current_ok _ p).
  - rewrite (bool_decide_false _ Hb).
    rewrite (set_in_queue_ok c false n) by (done || (rewrite Hf; apply bool_decide_true; by right)).
    cbn [res_bind]. by apply (start_next_ok _ (idle p) (idle_ok s p c n H Hr Hb Hn)).
Qed.

Lemma gather_ok s p id :
  serial_rep s p → running p = Some (node_addr id) →
  let r := take_works (node_addr id) p in
  ∃ s', serial_gather_next_tuples id s = Ok (r.1, s') ∧ serial_rep s' r.2.
Proof.
  intros H Hr. destruct (rep_running _ _ H _ Hr) as [Hw [W HW]%elem_of_dom].
  destruct (rep_node _ _ H _ W HW) as (n & Hn & Hb & Hf & Hlev).
  unfold serial_gather_next_tuples, serial_of, take_works. rewrite Hn, HW. cbn [of_option res_bind].
  destruct (take_first W) as [[l W'] |] eqn:E.
  - destruct (bounded_top_list_ok _ _ _ _ Hb E) as (q & -> & Hq). cbn [res_bind fst snd].
    eexists. split; [done |]. pose proof (take_first_concat _ _ _ E) as [Hlen _].
    split; try apply H; try done.
    + cbn. rewrite dom_insert_lookup_L by eauto. apply H.
    + cbn. intros b. destruct (decide (b = node_addr id)) as [-> | Hne].
      * rewrite !lookup_insert_eq. cbn. by rewrite Hlen.
      * rewrite !lookup_insert_ne by done. apply (rep_nodes _ _ H b).
    + cbn. intros b Hb0. rewrite dom_insert_lookup_L by eauto. by apply (rep_running _ _ H).
    + cbn. intros b Hbw. unfold busy. cbn. rewrite lookup_insert_ne by (intros <-; done).
      by apply (rep_waiting _ _ H).
    + cbn. intros b. destruct (decide (b = node_addr id)) as [-> | Hne]; [by right |].
      intros (W0 & HW0 & Hc). cbn in HW0. rewrite lookup_insert_ne in HW0 by done.
      apply (rep_busy _ _ H). by exists W0.
  - assert (bounded_empty (queue n) = true) as Hem by by apply (bounded_empty_ok _ _ Hb), take_first_none.
    unfold bounded_top_list. rewrite Hem. cbn [res_bind fst snd]. eexists. split; [done |].
    replace (put_serial _ _ _) with s; [done |]. destruct s, n. unfold put_serial, set_snodes. cbn in *.
    by rewrite insert_id.
Qed.

(** a busy node that runs goes to the end *)
Lemma requeue_ok s p c :
  serial_rep s p → running p = Some c → busy p c →
  ∃ s', push_node c s = Ok s' ∧ current_node s' = Some c ∧ snodes s' = snodes s ∧
        serial_rep (set_current_node None s') (mk_plan None (waiting p ++ [c]) (works p)).
Proof.
  intros H Hr Hb. destruct (rep_running _ _ H c Hr) as [Hw Hd].
  destruct (push_node_ok s p c s H eq_refl eq_refl Hd Hw) as (q & os & E & Hq & Hdom).
  exists (set_queue_nodes (q, os) s). rewrite E. split; [done |]. split; [cbn; by rewrite (rep_current _ _ H) |].
  split; [done |]. split; try done.
  - apply (rep_nodes_flags _ _ H); try done. intros a. cbn.
    destruct (snodes s !! a) as [m |] eqn:Hm; [| done]. cbn.
    f_equal. symmetry. apply node_same. rewrite (rep_flag _ _ H _ _ Hm). apply bool_decide_ext.
    unfold on_queue. cbn. rewrite Hr, elem_of_app, list_elem_of_singleton. naive_solver.
  - cbn. intros a [Ha | ->%list_elem_of_singleton]%elem_of_app; [by apply (rep_waiting _ _ H) | done].
  - intros a Ha. left. cbn. rewrite elem_of_app, list_elem_of_singleton.
    destruct (rep_busy _ _ H a Ha) as [? | E']; [by left | right; congruence].
Qed.

(** a node that waits is taken out of the queue to run *)
Lemma take_out_ok s s1 p a :
  serial_rep (set_current_node None s1) p → running p = None → a ∈ waiting p →
  s = set_current_node (Some a) s1 →
  ∃ s', (let* r := double_remove a (queue_nodes s) (slinks s) in Ok (set_queue_nodes r s)) = Ok s' ∧
        serial_rep s' (mk_plan (Some a) (filter (λ b, b ≠ a) (waiting p)) (works p)).
Proof.
  intros H Hr Ha ->. pose proof Ha as (l1 & l2 & Hs)%list_elem_of_split.
  pose proof (rep_queue _ _ H) as Hq. pose proof (rep_nodup _ _ _ Hq) as Hnd. cbn in Hq.
  rewrite Hs in Hq, Hnd.
  destruct (remove_rep _ _ _ _ _ Hq) as (q & os & E & Hq'). cbn. rewrite E. cbn.
  eexists. split; [done |]. rewrite Hs, filter_split by done.
  split; try done.
  - cbn. rewrite (double_remove_dom _ _ _ _ _ E). apply (rep_objects _ _ H).
  - apply (rep_nodes_flags _ _ H); try done. intros b. cbn.
    destruct (snodes s1 !! b) as [m |] eqn:Hm; [| done]. cbn.
    f_equal. symmetry. apply node_same. rewrite (rep_flag _ _ H b m Hm). apply bool_decide_ext.
    unfold on_queue. cbn. rewrite Hs, Hr, !elem_of_app, elem_of_cons. naive_solver.
  - cbn. intros b [= <-]. split; [by apply nodup_split in Hnd as (_ & ? & ?); rewrite elem_of_app; intros [] |].
    apply (waiting_dom _ _ H a Ha).
  - cbn. intros b Hb. apply (rep_waiting _ _ H). rewrite Hs, elem_of_app, elem_of_cons.
    apply elem_of_app in Hb. tauto.
  - intros b Hb. destruct (rep_busy _ _ H b Hb) as [Hw | Hw]; [| congruence]. revert Hw.
    rewrite Hs. unfold on_queue. cbn. rewrite !elem_of_app, elem_of_cons. naive_solver.
Qed.

Lemma switch_ok s p id :
  serial_rep s p → node_addr id ∈ dom (works p) →
  ∃ s', change_to_node id s = Ok s' ∧ serial_rep s' (switch (node_addr id) p).
Proof.
  intros H [W HW]%elem_of_dom. set (a := node_addr id) in *.
  destruct (rep_node _ _ H a W HW) as (n & Hn & _ & Hf & _).
  unfold change_to_node, serial_of, switch. fold a. rewrite Hn. cbn [of_option res_bind].
  rewrite (rep_node_work _ _ H _ _ Hn).
  destruct (decide (busy p a)) as [Hb | Hb]; [| rewrite (bool_decide_false _ Hb); by eexists].
  rewrite (bool_decide_true _ Hb), (rep_current _ _ H). cbn [negb].
  pose proof (rep_busy _ _ H a Hb) as Hon. rewrite (bool_decide_true _ Hon) in Hf.
  destruct (running p) as [c |] eqn:Hr.
  - destruct (rep_running _ _ H c Hr) as [Hwc [Wc HWc]%elem_of_dom].
    destruct (rep_node _ _ H c Wc HWc) as (m & Hm & _ & Hfc & _). rewrite Hm. cbn [of_option res_bind].
    rewrite (rep_node_work _ _ H _ _ Hm).
    destruct (decide (busy p c)) as [Hbc | Hbc].
    + rewrite (bool_decide_true _ Hbc).
      destruct (requeue_ok s p c H Hr Hbc) as (s1 & -> & _ & Hs1 & H1). cbn [res_bind].
      cbn [snodes set_current_node]. rewrite Hs1, Hn. cbn [of_option res_bind]. rewrite Hf. cbn [asserting].
      apply (take_out_ok _ s1 (mk_plan None (waiting p ++ [c]) (works p)) a H1 eq_refl); [| done].
      cbn. apply elem_of_app.
      destruct Hon as [? | E]; [by left |]. right. rewrite Hr in E. injection E as ->.
      by apply list_elem_of_singleton.
    + assert (Hne : c ≠ a) by (intros ->; done).
      rewrite (bool_decide_false _ Hbc).
      rewrite (set_in_queue_ok c false m) by (done || (rewrite Hfc; apply bool_decide_true; by right)).
      cbn [res_bind]. cbn [snodes set_current_node put_serial set_snodes].
      rewrite lookup_insert_ne, Hn by done. cbn [of_option res_bind]. rewrite Hf. cbn [asserting].
      apply (take_out_ok _ (put_serial c (mk_serial_node (queue m) false) s) (idle p) a
               (idle_ok s p c m H Hr Hbc Hm) eq_refl); [| done]. cbn.
      apply on_queue_waiting; [done | congruence].
  - cbn [res_bind snodes set_current_node]. rewrite Hn. cbn [of_option res_bind]. rewrite Hf. cbn [asserting].
    apply (take_out_ok _ s p a); [| done | apply on_queue_waiting; [done | congruence] | done].
    replace (set_current_node None s) with s; [done |]. destruct s; unfold set_current_node; cbn.
    f_equal. rewrite <- Hr. apply (rep_current _ _ H).
Qed.

Lemma create_ok s p id :
  serial_rep s p → node_addr id ∉ dom (works p) → 0 < max_strat_level s <= 2 ^ 63 →
  ∃ s' W, create_serial_node id s = Ok s' ∧ concat W = [] ∧
          serial_rep s' (mk_plan (running p) (waiting p) (<[node_addr id := W]> (works p))).
Proof.
  intros H Ha Hm. set (a := node_addr id) in *.
  destruct (new_bounded_pqueue_rep (T:=Z) (C:=linear_queue Z) (max_strat_level s) Hm) as (q & W & E & Hq & Hc & Hl).
  unfold create_serial_node. fold a. rewrite E. cbn [res_bind]. eexists _, W. split; [done |].
  split; [done |].
  assert (Hwa : a ∉ waiting p) by (intros Hw; by apply Ha, (waiting_dom _ _ H)).
  assert (Hra : running p ≠ Some a) by (intros Hr; by apply Ha, (rep_running _ _ H)).
  assert (Hbusy : ∀ b, busy (mk_plan (running p) (waiting p) (<[a := W]> (works p))) b ↔ busy p b).
  { intros b. unfold busy. cbn. destruct (decide (b = a)) as [-> | Hne].
    - rewrite lookup_insert_eq. apply not_elem_of_dom in Ha. rewrite Ha. naive_solver.
    - by rewrite lookup_insert_ne. }
  split; cbn.
  - apply new_object_rep; [apply (rep_queue _ _ H) |]. apply not_elem_of_dom. by rewrite (rep_objects _ _ H).
  - apply H.
  - rewrite !dom_insert_L. f_equal. apply H.
  - intros b. destruct (decide (b = a)) as [-> | Hne].
    + rewrite !lookup_insert_eq. split; [done |]. split; [| lia]. cbn.
      rewrite bool_decide_false; [done |]. by intros [? | ?].
    + rewrite !lookup_insert_ne by done. apply (rep_nodes _ _ H b).
  - intros b Hr. destruct (rep_running _ _ H b Hr). split; [done |]. set_solver.
  - intros b Hb. by apply Hbusy, (rep_waiting _ _ H).
  - intros b Hb. by apply Hbusy, (rep_busy _ _ H) in Hb.
Qed.

(** ** Steps *)

Inductive serial_op : Type :=
  | Op_new_work (id stpl level : Z)
  | Op_get_work
  | Op_gather (id : Z)
  | Op_create (id : Z)
  | Op_change (id : Z).

Inductive answer : Type :=
  | No_answer
  | Node_answer (id : option Z)
  | Tuples_answer (ls : list Z).

Definition serial_step (op : serial_op) (s : serial_local) : res (answer * serial_local) :=
  match op with
  | Op_new_work id x level => let* s := serial_new_work id x level s in Ok (No_answer, s)
  | Op_get_work => let* r := serial_get_work s in Ok (Node_answer r.1, r.2)
  | Op_gather id => let* r := serial_gather_next_tuples id s in Ok (Tuples_answer r.1, r.2)
  | Op_create id => let* s := create_serial_node id s in Ok (No_answer, s)
  | Op_change id => let* s := change_to_node id s in Ok (No_answer, s)
  end.

(** work is for nodes that exist, at levels of the program; the engine gathers the
    tuples of the node that runs; a new node has a new id *)
Definition op_allowed (op : serial_op) (s : serial_local) (p : plan) : Prop :=
  match op with
  | Op_new_work id _ level =>
      0 <= level < max_strat_level s ∧
      ∃ W, works p !! node_addr id = Some W ∧ Z.of_nat (S (length (concat W))) < 2 ^ 64
  | Op_get_work => True
  | Op_gather id => running p = Some (node_addr id)
  | Op_create id => node_addr id ∉ dom (works p) ∧ 0 < max_strat_level s <= 2 ^ 63
  | Op_change id => node_addr id ∈ dom (works p)
  end.

Inductive plan_step (p : plan) : serial_op → answer → plan → Prop :=
  | step_new_work id x level :
      plan_step p (Op_new_work id x level) No_answer (add_works (node_addr id) x (Z.to_nat level) p)
  | step_get_work :
      plan_step p Op_get_work (Node_answer (node_id <$> running (next_work p))) (next_work p)
  | step_gather id :
      plan_step p (Op_gather id) (Tuples_answer (take_works (node_addr id) p).1)
        (take_works (node_addr id) p).2
  | step_create id W :
      concat W = [] →
      plan_step p (Op_create id) No_answer
        (mk_plan (running p) (waiting p) (<[node_addr id := W]> (works p)))
  | step_change id : plan_step p (Op_change id) No_answer (switch (node_addr id) p).

Lemma serial_step_ok s p op :
  serial_rep s p → op_allowed op s p →
  ∃ ans s' p', serial_step op s = Ok (ans, s') ∧ plan_step p op ans p' ∧ serial_rep s' p'.
Proof.
  intros H Ha. destruct op as [id x level | | id | id | id]; cbn [serial_step op_allowed] in *.
  - destruct Ha as (Hl & W & HW & Hs).
    destruct (new_work_ok s p id x level W H HW Hl Hs) as (s' & -> & H').
    eexists _, _, _. split; [done |]. by split; [apply step_new_work |].
  - destruct (get_work_ok s p H) as (s' & -> & H').
    eexists _, _, _. split; [done |]. by split; [apply step_get_work |].
  - destruct (gather_ok s p id H Ha) as (s' & -> & H').
    eexists _, _, _. split; [done |]. by split; [apply step_gather |].
  - destruct (create_ok s p id H (proj1 Ha) (proj2 Ha)) as (s' & W & -> & HW & H').
    eexists _, _, _. split; [done |]. by split; [apply step_create |].
  - destruct (switch_ok s p id H Ha) as (s' & -> & H').
    eexists _, _, _. split; [done |]. by split; [apply step_change |].
Qed.

(** C12: the serial scheduler implements its plan.  In a state that stands for a plan
    every allowed operation returns, passes the assertions of the scheduler, its nodes
    and its queues, answers what the plan answers and stands for the plan's next
    state: work goes to the end of its level, a node gets in line once, and the node
    that runs goes on while it has work. *)
Theorem serial_refines (s : serial_local) (p : plan) (op : serial_op)
    (Hrep : serial_rep s p) (Hop : op_allowed op s p) :
  ∃ ans s' p', serial_step op s = Ok (ans, s') ∧ plan_step p op ans p' ∧ serial_rep s' p'.
Proof. by apply serial_step_ok. Qed.

Lemma next_work_busy s p a : serial_rep s p → running (next_work p) = Some a → busy p a.
Proof.
  intros H. unfold next_work.
  assert (Hh : head (waiting p) = Some a → busy p a).
  { intros Hw. apply (rep_waiting _ _ H). destruct (waiting p); [done |].
    injection Hw as ->. apply elem_of_cons. by left. }
  destruct (running p) as [c |] eqn:Hr; [| exact Hh].
  destruct (decide (busy p c)); [| exact Hh]. rewrite Hr. by intros [= <-].
Qed.

Lemma next_work_none s p : serial_rep s p → running (next_work p) = None → ∀ a, ¬ busy p a.
Proof.
  intros H Hn a Ha. unfold next_work in Hn. destruct (rep_busy _ _ H a Ha) as [Hw | Hw].
  - assert (head (waiting p) ≠ None) as Hh by (destruct (waiting p); [by apply not_elem_of_nil in Hw | done]).
    destruct (running p) as [c |] eqn:Hr; [| done]. destruct (decide (busy p c)); [congruence | done].
  - rewrite Hw, decide_True in Hn by done. congruence.
Qed.

Lemma node_addr_id a : node_addr (node_id a) = a.
Proof. unfold node_addr, node_id. lia. Qed.

Lemma node_id_addr id : 0 <= id → node_id (node_addr id) = id.
Proof. unfold node_id, node_addr. lia. Qed.

Lemma take_works_busy p a : busy p a → (take_works a p).1 ≠ [].
Proof.
  intros (W & HW & Hc). unfold take_works. rewrite HW.
  destruct (take_first W) as [[l W'] |] eqn:E.
  - clear HW Hc. revert W' E. induction W as [| [| x k] W IH]; intros W' E; cbn in E; [done | |].
    + destruct (take_first W) as [[? ?] |]; [| done]. injection E as <- <-. exact (IH _ eq_refl).
    + by injection E as <- <-.
  - by apply take_first_none in E.
Qed.

(** C13: [get_work] returns NULL only when no node of the scheduler has work.  Otherwise
    the node it returns has work, and [gather_next_tuples] then gives tuples: the loop
    of [mark_rules_using_local_tuples], which reads the level of the first one, never
    begins with an empty list. *)
Theorem get_work_complete (s : serial_local) (p : plan) (Hrep : serial_rep s p) :
  ∃ o s1, serial_get_work s = Ok (o, s1) ∧
    (o = None → ∀ a, ¬ busy p a) ∧
    (∀ id, o = Some id → busy p (node_addr id) ∧
       ∃ x ls s2, serial_gather_next_tuples id s1 = Ok (x :: ls, s2)).
Proof.
  destruct (get_work_ok s p Hrep) as (s1 & E & H1). eexists _, s1. split; [exact E |]. split.
  - intros Hn%fmap_None. by apply (next_work_none s p).
  - intros id (a & Ha & ->)%fmap_Some. rewrite node_addr_id.
    pose proof (next_work_busy s p a Hrep Ha) as Hb. split; [done |].
    destruct (gather_ok s1 _ (node_id a) H1) as (s2 & E2 & _); [rewrite node_addr_id; exact Ha |].
    rewrite node_addr_id in E2.
    assert (Hb' : busy (next_work p) a).
    { destruct Hb as (W & HW & Hc). exists W. split; [| done].
      unfold next_work. by repeat case_match. }
    pose proof (take_works_busy _ _ Hb') as Hne.
    destruct (take_works a (next_work p)).1 as [| x ls]; [done |]. by exists x, ls, s2.
Qed.

(** ** Fairness *)

(** a run of the scheduler without the user interface, with the nodes that begin to
    run, in order *)
Inductive serial_run : serial_local → plan → list (option positive) → serial_local → plan → Prop :=
  | run_here s p : serial_rep s p → serial_run s p [] s p
  | run_step s p op ans s1 p1 h s' p' :
      serial_rep s p → (∀ id, op ≠ Op_change id) → op_allowed op s p →
      serial_step op s = Ok (ans, s1) → plan_step p op ans p1 →
      serial_run s1 p1 h s' p' →
      serial_run s p (if decide (running p1 = running p) then h else running p1 :: h) s' p'.

Lemma next_waiting s p k a :
  serial_rep s p → waiting p !! k = Some a →
  (running (next_work p) = running p ∧ waiting (next_work p) !! k = Some a) ∨
  (running (next_work p) ≠ running p ∧
   match k with
   | O => running (next_work p) = Some a
   | S k => waiting (next_work p) !! k = Some a
   end).
Proof.
  intros H Hk. unfold next_work. destruct (running p) as [c |] eqn:Hr.
  - destruct (decide (busy p c)); [by left |]. right. cbn.
    destruct (waiting p) as [| b Q] eqn:HQ; [done |]. cbn. split.
    + intros [= ->]. destruct (rep_running _ _ H c Hr) as [Hw _]. apply Hw.
      rewrite HQ. apply elem_of_cons. by left.
    + by destruct k.
  - right. cbn. destruct (waiting p) as [| b Q]; [done |]. cbn. split; [done |]. by destruct k.
Qed.

Lemma step_waiting s p op ans p1 k a :
  serial_rep s p → (∀ id, op ≠ Op_change id) → plan_step p op ans p1 → waiting p !! k = Some a →
  (running p1 = running p ∧ waiting p1 !! k = Some a) ∨
  (running p1 ≠ running p ∧
   match k with O => running p1 = Some a | S k => waiting p1 !! k = Some a end).
Proof.
  intros H Hop Hs Hk. destruct Hs as [id x level | | id | id W HW | id].
  - left. split; [done |]. unfold add_works. cbn. destruct (decide _); [done |].
    by apply lookup_app_l_Some.
  - by apply (next_waiting s).
  - left. unfold take_works. destruct (works p !! _) as [W |]; [| done].
    by destruct (take_first W) as [[? ?] |].
  - by left.
  - by destruct (Hop id).
Qed.

(** C14: no node starves.  In a run of the scheduler the node at place k of the line
    begins to run with the (k+1)-th node that begins to run or before, whatever work is
    added meanwhile: new nodes get in line behind it. *)
Theorem waiting_node_runs (s s' : serial_local) (p p' : plan) (h : list (option positive)) (k : nat)
    (a : positive) (Hrun : serial_run s p h s' p') (Hk : waiting p !! k = Some a)
    (Hlong : (k < length h)%nat) :
  Some a ∈ take (S k) h.
Proof.
  revert k Hk Hlong. induction Hrun as [s p H | s p op ans s1 p1 h s' p' H Hop Hal Hst Hpl Hrun IH];
    intros k Hk Hlong; [cbn in Hlong; lia |].
  destruct (step_waiting _ _ _ _ _ _ _ H Hop Hpl Hk) as [[Hr Hk'] | [Hr Hk']].
  - rewrite decide_True in * by done. by apply IH.
  - rewrite decide_False in * by done. cbn [take length] in *. apply elem_of_cons.
    destruct k as [| k]; [by left; rewrite Hk' |]. right. apply IH; [done | lia].
Qed.

(** ** A scheduler with two nodes *)

Definition sample_queue (x : Z) : bounded_pqueue (linear_queue Z) :=
  mk_bounded_pqueue
    (tree_node 1 (tree_leaf (mk_linear_queue (Some 1%positive) (Some 1%positive)
                               {[ 1%positive := mk_qnode x None ]} 1))
       (tree_leaf new_linear_queue)) 1.

Definition sample_serial : serial_local :=
  mk_serial_local
    {[ 1%positive := mk_serial_node (sample_queue 7) true;
       2%positive := mk_serial_node (sample_queue 8) true ]}
    {[ 1%positive := mk_links (Some 2%positive) None true;
       2%positive := mk_links None (Some 1%positive) true ]}
    None (mk_double_queue (Some 1%positive) (Some 2%positive) 2) 2.

Definition sample_plan : plan :=
  mk_plan None [1%positive; 2%positive] {[ 1%positive := [[7]; []]; 2%positive := [[8]; []] ]}.

(** it is what two new nodes and two tuples make *)
Lemma sample_made :
  (let* s := create_serial_node 0 (new_serial 2) in
   let* s := create_serial_node 1 s in
   let* s := serial_new_work 0 7 0 s in
   serial_new_work 1 8 0 s) = Ok sample_serial.
Proof. vm_compute. reflexivity. Qed.

Lemma sample_queue_rep x : bounded_rep (sample_queue x) [[x]; []].
Proof.
  split; [| by split]. exists [[x]], [[]]. split; [done |]. split.
  - exists [x]. split; [done |]. exists [(1%positive, x)].
    split_and!; try done; [| apply NoDup_singleton | cbn [qnodes]; rewrite map_size_singleton; cbn; lia].
    cbn. split; [done |]. eexists. by split.
  - split; [| by split]. exists []. split; [done |]. apply linear_rep_new.
Qed.

Lemma sample_serial_rep : serial_rep sample_serial sample_plan.
Proof.
  split; try done.
  - split; try done; cbn.
    + apply NoDup_cons. split; [| apply NoDup_singleton]. by rewrite list_elem_of_singleton.
    + intros a n Hn Ha. rewrite !elem_of_cons in Ha.
      rewrite lookup_insert_ne in Hn by (intros <-; tauto).
      by rewrite lookup_singleton_ne in Hn by (intros <-; tauto).
  - intros a. cbn. destruct (decide (a = 1%positive)) as [-> | H1].
    + rewrite !lookup_insert_eq. split; [apply sample_queue_rep | by split; [| vm_compute; repeat constructor]].
    + rewrite !(lookup_insert_ne _ 1%positive) by done.
      destruct (decide (a = 2%positive)) as [-> | H2].
      * rewrite !lookup_singleton_eq. split; [apply sample_queue_rep | by split; [| vm_compute; repeat constructor]].
      * by rewrite !lookup_singleton_ne by done.
  - intros a [-> | [-> |]%elem_of_cons]%elem_of_cons; [by eexists | by eexists |].
    by apply not_elem_of_nil in H.
  - intros a (W & HW & _). left. cbn in *. rewrite !elem_of_cons.
    destruct (decide (a = 1%positive)); [by left |]. rewrite lookup_insert_ne in HW by done.
    destruct (decide (a = 2%positive)); [by right; left |]. by rewrite lookup_singleton_ne in HW by done.
Qed.

Lemma serial_refines_witness :
  ∃ ans s' p', serial_step (Op_new_work 1 9 1) sample_serial = Ok (ans, s') ∧
    plan_step sample_plan (Op_new_work 1 9 1) ans p' ∧ serial_rep s' p'.
Proof.
  apply (serial_refines sample_serial sample_plan (Op_new_work 1 9 1) sample_serial_rep).
  split; [cbn; lia |]. exists [[8]; []]. split; [reflexivity | cbn; lia].
Defined.

Lemma get_work_complete_witness :
  ∃ o s1, serial_get_work sample_serial = Ok (o, s1) ∧
    (o = None → ∀ a, ¬ busy sample_plan a) ∧
    (∀ id, o = Some id → busy sample_plan (node_addr id) ∧
       ∃ x ls s2, serial_gather_next_tuples id s1 = Ok (x :: ls, s2)).
Proof. exact (get_work_complete sample_serial sample_plan sample_serial_rep). Defined.

(** the first node runs, is left without work, and the second one begins *)
Definition sample_ops : list serial_op := [Op_get_work; Op_gather 0; Op_get_work].

Lemma run_next s p op ans s1 p1 h s' p' a :
  serial_rep s p → (∀ id, op ≠ Op_change id) → op_allowed op s p →
  serial_step op s = Ok (ans, s1) → plan_step p op ans p1 →
  running p1 = Some a ∧ running p ≠ Some a → serial_run s1 p1 h s' p' →
  serial_run s p (Some a :: h) s' p'.
Proof.
  intros H1 H2 H3 H4 H5 [Hr Hn] H6. pose proof (run_step _ _ _ _ _ _ _ _ _ H1 H2 H3 H4 H5 H6) as Hs.
  rewrite decide_False in Hs by congruence. by rewrite Hr in Hs.
Qed.

Lemma run_on s p op ans s1 p1 h s' p' :
  serial_rep s p → (∀ id, op ≠ Op_change id) → op_allowed op s p →
  serial_step op s = Ok (ans, s1) → plan_step p op ans p1 →
  running p1 = running p → serial_run s1 p1 h s' p' → serial_run s p h s' p'.
Proof.
  intros H1 H2 H3 H4 H5 Hr H6. pose proof (run_step _ _ _ _ _ _ _ _ _ H1 H2 H3 H4 H5 H6) as Hs.
  by rewrite decide_True in Hs.
Qed.

Lemma sample_run :
  ∃ s' p', serial_run sample_serial sample_plan [Some 1%positive; Some 2%positive] s' p'.
Proof.
  destruct (serial_step_ok _ _ Op_get_work sample_serial_rep I) as (a1 & s1 & p1 & E1 & P1 & H1).
  inversion P1; subst.
  destruct (serial_step_ok _ _ (Op_gather 0) H1 eq_refl) as (a2 & s2 & p2 & E2 & P2 & H2).
  inversion P2; subst.
  destruct (serial_step_ok _ _ Op_get_work H2 I) as (a3 & s3 & p3 & E3 & P3 & H3).
  inversion P3; subst. eexists s3, _.
  eapply (run_next _ _ Op_get_work); [exact sample_serial_rep | done | done | exact E1 | exact P1 | done |].
  eapply (run_on _ _ (Op_gather 0)); [exact H1 | done | done | exact E2 | exact P2 | done |].
  eapply (run_next _ _ Op_get_work); [exact H2 | done | done | exact E3 | exact P3 | done |].
  by apply run_here.
Qed.

Lemma waiting_node_runs_witness : Some 2%positive ∈ take 2 [Some 1%positive; Some 2%positive].
Proof.
  destruct sample_run as (s' & p' & Hrun).
  apply (waiting_node_runs _ _ _ _ _ 1 2%positive Hrun); [reflexivity | cbn; lia].
Defined.
