(* ===== verification/Interp.v ===== *)
(** The control of the interpreter, the rest of [vm/exec.cpp]: sends, ITERATE,
    REMOVE and DELETE, external calls, new axioms and nodes, the loop of [execute]
    and the entries [execute_bytecode] and [execute_rule]; and the use list of
    linear tuples of [vm/state.cpp]. *)

From Stdlib Require Import ZArith Lia Bool SpecFloat.
From stdpp Require Import base tactics list numbers option gmap sorting strings.
From S2P Require Import Prelude Words Types Instr RuntimeList Tuple SimpleTuple Trie TupleTrie Match.
From S2P Require Import TrieLookup RuleMatcher Node Exec Externals Router World.

#[local] Open Scope Z_scope.
#[local] Open Scope meld_scope.

Inductive return_type : Type :=
  | RETURN_OK
  | RETURN_SELECT
  | RETURN_NEXT
  | RETURN_LINEAR
  | RETURN_DERIVED
  | RETURN_END_LINEAR
  | RETURN_NO_RETURN.

Definition consumed (ret : return_type) : bool :=
  match ret with RETURN_LINEAR | RETURN_DERIVED => true | _ => false end.

(** [iter_object]: a tuple of the database by its leaf, of the node's queue or of
    the local tuples by its counted tuple *)
Inductive iter_object : Type :=
  | ITER_DB (leaf : Z)
  | ITER_LOCAL (stpl : Z)
  | ITER_QUEUE (stpl : Z).

Section Interp.
Context {Sched G : Type} `{scheduler Sched} (vp : vm_program) (rt : router).
Context (lib : c_library G) (added : list (external_function (G:=G))).
Context (rand : Z → G → Z * G) (** [randgen::operator()] *).
Context (hash_int hash_uint hash_float : Z → Z).

Abbreviation world := (world Sched G).
Abbreviation run := (run Sched G).
Abbreviation code := (code (base vp)).
Abbreviation on_core := (on_core vp).

(** an operand of the instruction at [pc] *)
Definition arg {A} (get : list byte → pcounter → res A) (pc : pcounter) : run A := pure_run (get code pc).

(** ** Linear tuples in use: [vm/state.cpp] *)

Fixpoint find_used (leaf : Z) (l : list (Z * Z)) : option Z :=
  match l with
  | [] => None
  | (p, n) :: l => if p =? leaf then Some n else find_used leaf l
  end.

(** the count of the first entry of the leaf *)
Fixpoint update_used (leaf : Z) (f : Z → Z) (l : list (Z * Z)) : list (Z * Z) :=
  match l with
  | [] => []
  | (p, n) :: l => if p =? leaf then (p, swrap 16 (f n)) :: l else (p, n) :: update_used leaf f l
  end.

Definition linear_tuple_can_be_used (leaf : Z) : run bool :=
  must (negb (leaf =? 0)) ;;;
  look (λ w, match find_used leaf (used_linear_tuples w) with
             | Some n => 0 <? n
             | None => true
             end).

Definition using_new_linear_tuple (leaf : Z) : run unit :=
  run! w := look id in
  match find_used leaf (used_linear_tuples w) with
  | Some n =>
      must (0 <? n) ;;;
      change (λ w, set_used_linear_tuples (update_used leaf (λ n, n - 1) (used_linear_tuples w)) w)
  | None =>
      run! n := leaf_count leaf in
      change (λ w, set_used_linear_tuples ((leaf, swrap 16 (n - 1)) :: used_linear_tuples w) w)
  end.

Definition no_longer_using_linear_tuple (leaf : Z) : run unit :=
  run! w := look id in
  match find_used leaf (used_linear_tuples w) with
  | Some _ =>
      change (λ w, set_used_linear_tuples (update_used leaf (λ n, n + 1) (used_linear_tuples w)) w)
  | None => fails assert_fail
  end.

(** ** Sends *)

(** [state::mark_predicate_to_run], with rule counting *)
Definition mark_predicate_to_run (p : predicate) : run unit :=
  let i := Z.to_nat (pred_id p) in
  run! w := look id in
  run! _ := pure_run (of_option (marked_predicates w !! i)) in
  change (λ w, set_marked_predicates (<[i := true]> (marked_predicates w)) w).

Definition push_generated (stpl : Z) : run unit :=
  change (λ w, set_generated_tuples (generated_tuples w ++ [stpl]) w).
Definition push_generated_persistent (stpl : Z) : run unit :=
  change (λ w, set_generated_persistent_tuples (generated_persistent_tuples w ++ [stpl]) w).
Definition push_other_level (stpl : Z) : run unit :=
  change (λ w, set_generated_other_level (generated_other_level w ++ [stpl]) w).

(** [state::add_generated_tuple] *)
Definition add_generated_tuple (stpl : Z) : run unit :=
  update_stuple stpl (st_set_generated_run true) ;;; push_generated stpl.

Definition running_node : run Z := λ w, let* n := of_option (cur_node w) in Ok (n, w).

Definition execute_send_self (tpl : Z) : run unit :=
  run! t := tuple_at tpl in
  let p := pred t in
  run! nd := running_node in
  if is_action p then run_action nd tpl false
  else
    run! w := look id in
    run! stpl := make_stuple tpl (run_count w) in
    if use_local_tuples w || persistent_only w then
      if negb (pred_level p =? current_level w) then push_other_level stpl
      else if is_persistent_pred p then push_generated_persistent stpl
      else
        (if is_reused p then push_generated_persistent stpl else push_generated stpl) ;;;
        register vp p 1 true ;;;
        mark_predicate_to_run p
    else
      route_self nd stpl 0 ;;; add_generated_tuple stpl.

Definition execute_send (pc : pcounter) : run unit :=
  run! msg := arg send_msg pc in
  run! dest := arg send_dest pc in
  run! dest_val := on_core (λ _, get_node dest) in
  run! tpl := on_core (λ _, get_ptr msg) in
  run! t := tuple_at tpl in
  run! w := look id in
  if (run_count w <? 0) && Types.is_linear (pred t) && negb (is_reused (pred t)) then delete_tuple_at tpl
  else if msg =? dest then execute_send_self tpl
  else
    run! stpl := make_stuple tpl (run_count w) in
    route rt dest_val stpl 0.

Definition execute_send_delay (pc : pcounter) : run unit :=
  run! msg := arg send_delay_msg pc in
  run! dest := arg send_delay_dest pc in
  run! dest_val := on_core (λ _, get_node dest) in
  run! tpl := on_core (λ _, get_ptr msg) in
  run! _ := tuple_at tpl in
  run! w := look id in
  run! stpl := make_stuple tpl (run_count w) in
  run! delay := arg send_delay_time pc in
  if msg =? dest then run! nd := running_node in route_self nd stpl delay
  else route rt dest_val stpl delay.

(** ** ITERATE *)

(** [utils::shuffle_vector]: [random_shuffle] exchanges every element with one of
    those before it or itself *)
Fixpoint shuffle_loop {A} (fuel i : nat) (l : list A) (g : G) : list A * G :=
  match fuel with
  | O => (l, g)
  | S fuel =>
      let '(j, g) := rand (Z.of_nat (i + 1)) g in
      shuffle_loop fuel (i + 1) (list_swap i (Z.to_nat j) l) g
  end.

Definition shuffle_vector {A} (l : list A) : run (list A) :=
  λ w, let '(l, g) := shuffle_loop (length l - 1) 1 l (rng w) in Ok (l, set_rng g w).

(** [gather_active_tuples]: the tuples in the queue of the node that may be used *)
Fixpoint filter_active (i : Z) (qs : list Z) : run (list Z) :=
  match qs with
  | [] => done []
  | q :: qs =>
      run! s := stuple_at q in
      run! ok := (if st_can_be_consumed s then run! p := stuple_pred q in done (pred_id p =? i)
                  else done false) in
      run! rest := filter_active i qs in
      done (if (ok : bool) then q :: rest else rest)
  end.

Definition gather_active_tuples (i : Z) : run (list Z) :=
  run! nd := running_node in
  run! w := look id in
  run! qs := pure_run (queued_tuples nd (sched w)) in
  filter_active i qs.

Definition matches_at (pc : pcounter) (t : Z) : run bool :=
  run! t := tuple_at t in on_core (λ pr, do_matches pr pc t).

(** [predicate] pointers are equal when the ids are *)
Definition of_predicate (p : predicate) (stpl : Z) : run bool :=
  run! q := stuple_pred stpl in done (pred_id q =? pred_id p).

(** [tuple_sorter::get_tuple] *)
Definition object_tuple (o : iter_object) : run Z :=
  match o with
  | ITER_DB leaf => leaf_tuple leaf
  | ITER_LOCAL s | ITER_QUEUE s => run! s := stuple_at s in done (get_tuple s)
  end.

Inductive sort_key : Type := int_key (n : Z) | float_key (f : spec_float).

Definition key_lt (k1 k2 : sort_key) : bool :=
  match k1, k2 with
  | int_key a, int_key b => a <? b
  | float_key a, float_key b => SFltb a b
  | _, _ => false
  end.

Definition sorter_key (p : predicate) (field : nat) (o : iter_object) : run sort_key :=
  run! a := object_tuple o in
  run! t := tuple_at a in
  run! type := pure_run (get_field_type p field) in
  match type with
  | FIELD_INT => run! n := pure_run (Tuple.get_int t field) in done (int_key n)
  | FIELD_FLOAT => run! f := pure_run (Tuple.get_float t field) in done (float_key f)
  | FIELD_NODE => run! n := pure_run (Tuple.get_node t field) in done (int_key n)
  | _ => fails (vm_exec_error "don't know how to compare this field type (tuple_sorter)")
  end.

Fixpoint with_keys (p : predicate) (field : nat) (os : list iter_object)
  : run (list (sort_key * iter_object)) :=
  match os with
  | [] => done []
  | o :: os =>
      run! k := sorter_key p field o in
      run! rest := with_keys p field os in done ((k, o) :: rest)
  end.

#[local] Instance key_before_dec :
  RelDecision (λ a b : sort_key * iter_object, key_lt b.1 a.1 = false).
Proof. intros a b. apply _. Defined.

(** [sort] compares nothing when there is one object; equal ones may come in any
    order *)
Definition sort_objects (p : predicate) (field : nat) (os : list iter_object) : run (list iter_object) :=
  match os with
  | [] | [_] => done os
  | _ =>
      run! ks := with_keys p field os in
      done (map snd (merge_sort (λ a b, key_lt b.1 a.1 = false) ks))
  end.

(** *** One tuple *)

(** [PUSH_CURRENT_STATE], the run, [POP_STATE] *)
Definition set_cur (t leaf q : Z) (s : state) : state :=
  mk_state (regs s) (stack s) (consts s) (mem s) (heap s) t leaf q (is_leaf s) (saved_leafs s)
    (saved_stuples s) (free_lists s) (free_rstring s).

Definition with_tuple (t leaf q : Z) (this_is_linear old_is_linear : bool) (body : run return_type)
  : run return_type :=
  run! w := look id in
  let c := core w in
  let '(old_t, old_leaf, old_q) := (cur_tuple c, Exec.tuple_leaf c, tuple_queue c) in
  change (λ w, set_core (set_cur t leaf q (core w)) (set_run_linear (this_is_linear || run_linear w) w)) ;;;
  run! ret := body in
  change (λ w, set_core (set_cur old_t old_leaf old_q (core w)) (set_run_linear old_is_linear w)) ;;;
  done ret.

(** the test after each tuple; None goes on to the next *)
Definition stop_iter (ret : return_type) : run (option return_type) :=
  run! lin := look run_linear in
  done (match ret with
        | RETURN_LINEAR => Some RETURN_LINEAR
        | RETURN_DERIVED => if (lin : bool) then Some RETURN_DERIVED else None
        | _ => None
        end).

(** the tuple of a leaf; the count in use is given back before the test in one loop
    and after it in the other, where it is reached in the same cases *)
Definition try_leaf (this_is_linear old_is_linear : bool) (body : run return_type) (leaf : Z)
  : run (option return_type) :=
  run! ok := (if this_is_linear then linear_tuple_can_be_used leaf else done true) in
  if negb ok then done None
  else
    (if this_is_linear then using_new_linear_tuple leaf else done ()) ;;;
    run! t := leaf_tuple leaf in
    run! ret := with_tuple t leaf 0 this_is_linear old_is_linear body in
    (if negb (consumed ret) && this_is_linear then no_longer_using_linear_tuple leaf else done ()) ;;;
    stop_iter ret.

(** a queued or local tuple in the loop over [everything] *)
Definition try_sorted (to_delete this_is_linear old_is_linear : bool) (body : run return_type) (stpl : Z)
  : run (option return_type) :=
  run! s := stuple_at stpl in
  if negb (st_can_be_consumed s) then done None
  else
    (if to_delete then update_stuple stpl st_will_delete else done ()) ;;;
    run! ret := with_tuple (get_tuple s) 0 stpl this_is_linear old_is_linear body in
    (if negb (consumed ret) then update_stuple stpl st_will_not_delete else done ()) ;;;
    stop_iter ret.

(** the same in the loops over the queue and the local tuples, after the tests *)
Definition try_stuple (to_delete this_is_linear old_is_linear : bool) (body : run return_type) (stpl : Z)
  : run (option return_type) :=
  run! s := stuple_at stpl in
  let mark := to_delete || this_is_linear in
  (if mark then must this_is_linear ;;; update_stuple stpl st_will_delete else done ()) ;;;
  run! ret := with_tuple (get_tuple s) 0 stpl this_is_linear old_is_linear body in
  (if negb (consumed ret) && mark then update_stuple stpl st_will_not_delete else done ()) ;;;
  (if negb to_delete && this_is_linear then update_stuple stpl st_will_not_delete else done ()) ;;;
  stop_iter ret.

Definition try_queued (pc : pcounter) (to_delete this_is_linear old_is_linear : bool)
    (body : run return_type) (stpl : Z) : run (option return_type) :=
  run! s := stuple_at stpl in
  if negb (st_can_be_consumed s) then done None
  else
    run! ok := matches_at pc (get_tuple s) in
    if (ok : bool) then try_stuple to_delete this_is_linear old_is_linear body stpl else done None.

Definition try_local (p : predicate) (pc : pcounter) (to_delete this_is_linear old_is_linear : bool)
    (body : run return_type) (stpl : Z) : run (option return_type) :=
  run! s := stuple_at stpl in
  if negb (st_can_be_consumed s) then done None
  else
    run! same := of_predicate p stpl in
    if negb same then done None
    else
      run! ok := matches_at pc (get_tuple s) in
      if (ok : bool) then try_stuple to_delete this_is_linear old_is_linear body stpl else done None.

(** *** The loops *)

Fixpoint try_all {A} (f : A → run (option return_type)) (xs : list A) : run (option return_type) :=
  match xs with
  | [] => done None
  | x :: xs =>
      run! r := f x in
      match r with
      | Some ret => done (Some ret)
      | None => try_all f xs
      end
  end.

Definition returns (r : option return_type) (next : run return_type) : run return_type :=
  match r with Some ret => done ret | None => next end.

(** the queued (local) tuples that go in [everything] *)
Fixpoint gather_everything (f : Z → run (option iter_object)) (xs : list Z) : run (list iter_object) :=
  match xs with
  | [] => done []
  | x :: xs =>
      run! o := f x in
      run! rest := gather_everything f xs in
      done (match o with Some o => o :: rest | None => rest end)
  end.

Definition iter_min (pc : pcounter) (to_delete : bool) (field : nat) (p : predicate)
    (this_is_linear old_is_linear : bool) (body : run return_type) (leaves : list Z)
  : run return_type :=
  run! active := gather_active_tuples (pred_id p) in
  run! queued := gather_everything (λ q,
    run! s := stuple_at q in
    run! ok := matches_at pc (get_tuple s) in
    done (if (ok : bool) then Some (ITER_QUEUE q) else None)) active in
  run! w := look id in
  run! local := (if use_local_tuples w then
    gather_everything (λ q,
      run! s := stuple_at q in
      run! same := of_predicate p q in
      if (same : bool) && st_can_be_consumed s then
        run! ok := matches_at pc (get_tuple s) in
        done (if (ok : bool) then Some (ITER_LOCAL q) else None)
      else done None) (local_tuples w)
    else done []) in
  run! everything := sort_objects p field (queued ++ local ++ map ITER_DB leaves) in
  run! r := try_all (λ o, match o with
    | ITER_DB leaf => try_leaf this_is_linear old_is_linear body leaf
    | ITER_QUEUE s | ITER_LOCAL s => try_sorted to_delete this_is_linear old_is_linear body s
    end) everything in
  returns r (done RETURN_NO_RETURN).

(** [body] is [execute(first, state)]; [pc] is at the matches *)
Definition execute_iter (pc : pcounter) (options options_arguments : Z) (body : run return_type)
    (leaves : list Z) (p : predicate) : run return_type :=
  run! w := look id in
  let old_is_linear := run_linear w in
  let persistent := persistent_only w in
  let this_is_linear := is_linear_pred p && negb persistent in
  let to_delete := iter_options_to_delete options in
  must (negb (is_linear_pred p && persistent) || is_reused p) ;;;
  if negb persistent && negb (iter_options_random options) && iter_options_min options then
    iter_min pc to_delete (Z.to_nat (iter_options_min_arg options_arguments)) p
      this_is_linear old_is_linear body leaves
  else
    run! leaves := (if negb persistent && iter_options_random options then shuffle_vector leaves
                    else done leaves) in
    run! r := try_all (try_leaf this_is_linear old_is_linear body) leaves in
    returns r
      (run! r := (if this_is_linear then
         run! active := gather_active_tuples (pred_id p) in
         run! active := (if iter_options_random options then shuffle_vector active else done active) in
         try_all (try_queued pc to_delete this_is_linear old_is_linear body) active
         else done None) in
       returns r
         (run! r := (if negb persistent then
            run! w := look id in
            try_all (try_local p pc to_delete this_is_linear old_is_linear body) (local_tuples w)
            else done None) in
          returns r (done RETURN_NO_RETURN))).

(** ** The other instructions *)

Definition execute_colocated (pc : pcounter) : run unit :=
  run! first := arg colocated_first pc in
  run! second := arg colocated_second pc in
  run! dest := arg colocated_dest pc in
  run! r1 := on_core (λ pr, get_op_node pr first (pc + COLOCATED_BASE)) in
  run! r2 := on_core (λ pr, get_op_node pr second r1.2) in
  run! b := pure_run (same_place rt r1.1 r2.1) in
  on_core (λ _, set_bool dest b).

(** the loop over the arguments of DELETE *)
Fixpoint delete_args (n : nat) (i : Z) (p : predicate) (m : pcounter) (mt : match_) : run match_ :=
  match n with
  | O => done mt
  | S n =>
      run! fil_ind := arg delete_index m in
      run! fil_val := arg delete_val m in
      must (fil_ind =? i) ;;;
      let m := m + index_size + val_size in
      let f := Z.to_nat fil_ind in
      run! type := pure_run (get_field_type p f) in
      run! r :=
        match type with
        | FIELD_INT =>
            run! r := on_core (λ pr, get_op_int pr fil_val m) in
            run! mt := pure_run (match_int f r.1 mt) in done (mt, r.2)
        | FIELD_FLOAT =>
            run! r := on_core (λ pr, get_op_float pr fil_val m) in
            run! mt := pure_run (match_float f (float_of_bits r.1) mt) in done (mt, r.2)
        | FIELD_NODE =>
            run! r := on_core (λ pr, get_op_node pr fil_val m) in
            run! mt := pure_run (match_node f r.1 mt) in done (mt, r.2)
        | _ => fails assert_fail
        end in
      delete_args n (i + 1) p r.2 r.1
  end.

Definition execute_delete (pc : pcounter) : run unit :=
  run! i := arg delete_predicate pc in
  run! p := pure_run (get_predicate vp i) in
  run! num_args := arg delete_num_args pc in
  run! _ := this_node in
  must (0 <? num_args) ;;;
  run! mt := delete_args (Z.to_nat num_args) 0 p (pc + DELETE_BASE) (new_match p) in
  on_storage p (λ m nd, Node.delete_by_index hash_int hash_uint hash_float m p mt nd).

Definition execute_remove (pc : pcounter) : run unit :=
  run! reg := arg remove_source pc in
  run! w := look id in
  run! is_a_leaf := pure_run (of_option (is_leaf (core w) !! Z.to_nat reg)) in
  run! tpl := on_core (λ _, get_ptr reg) in
  run! t := tuple_at tpl in
  run! leaf := pure_run (of_option (saved_leafs (core w) !! Z.to_nat reg)) in
  (if use_local_tuples w && is_a_leaf then deregister vp (pred t) 1 else done ()) ;;;
  if is_reused (pred t) && use_local_tuples w then
    run! stpl := make_stuple tpl (-1) in
    push_generated_persistent stpl ;;;
    if (is_a_leaf : bool) then
      change (λ w, set_leaves_for_deletion (leaves_for_deletion w ++ [(pred t, leaf)]) w)
    else done ()
  else if (is_a_leaf : bool) then delete_leaf_at (pred t) leaf
  else done ().

(** [read_call_arg]: the rest of the union is not set *)
Definition read_call_arg (type : field_type) (m : pcounter) : run (tuple_field * pcounter) :=
  run! val_type := arg call_val m in
  let m := m + val_size in
  match type with
  | FIELD_INT =>
      run! r := on_core (λ pr, get_op_int pr val_type m) in done (set_int_field 0 r.1, r.2)
  | FIELD_FLOAT =>
      run! r := on_core (λ pr, get_op_float pr val_type m) in done (wrap 64 r.1, r.2)
  | FIELD_NODE =>
      run! r := on_core (λ pr, get_op_node pr val_type m) in done (set_node_field 0 r.1, r.2)
  | FIELD_LIST_FLOAT =>
      run! r := on_core (λ pr, get_op_list pr FloatList val_type m) in done (set_ptr_field 0 r.1, r.2)
  | FIELD_LIST_INT =>
      run! r := on_core (λ pr, get_op_list pr IntList val_type m) in done (set_ptr_field 0 r.1, r.2)
  | FIELD_LIST_NODE =>
      run! r := on_core (λ pr, get_op_list pr NodeList val_type m) in done (set_ptr_field 0 r.1, r.2)
  | FIELD_STRING =>
      run! r := on_core (λ pr, get_op_string pr val_type m) in done (set_ptr_field 0 r.1, r.2)
  | _ => fails (vm_exec_error "can't read this external function argument (read_call_arg)")
  end.

Fixpoint read_call_args (n i : nat) (f : external_function (G:=G)) (m : pcounter) : run (list tuple_field) :=
  match n with
  | O => done []
  | S n =>
      run! type := pure_run (get_arg_type f i) in
      run! r := read_call_arg type m in
      run! rest := read_call_args n (i + 1) f r.2 in
      done (r.1 :: rest)
  end.

(** the call through the function pointer of the number of arguments *)
Definition call_function (f : external_function (G:=G)) (args : list tuple_field) : run tuple_field :=
  λ w,
    let m := mem (core w) in
    let* r := match fun_ptr f, args with
              | ptr1 f, [a] => f a m (rng w)
              | ptr2 f, [a; b] => f a b m (rng w)
              | ptr3 f, [a; b; c] => f a b c m (rng w)
              | _, _ =>
                  Err (if (3 <? length args)%nat
                       then vm_exec_error "vm does not support external functions with more than 3 arguments"
                       else undefined_behaviour)
              end in
    let '(v, m, g) := r in
    Ok (v, set_rng g (set_core (set_mem m (core w)) w)).

(** the result goes to the register, and lists and strings to the lists to purge *)
Definition store_result (type : field_type) (reg : Z) (v : tuple_field) (bad : string) : run unit :=
  match type with
  | FIELD_INT => on_core (λ _, set_int reg (int_field v))
  | FIELD_FLOAT => on_core (λ _, set_float reg (wrap 64 v))
  | FIELD_NODE => on_core (λ _, set_node reg (node_field v))
  | FIELD_STRING =>
      on_core (λ _, set_ptr reg (ptr_field v)) ;;; on_core (λ _, add_string (ptr_field v))
  | _ =>
      match list_kind_of type with
      | Some k =>
          on_core (λ _, set_ptr reg (ptr_field v)) ;;;
          if is_null (ptr_field v) then done () else on_core (λ _, add_list k (ptr_field v))
      | None => fails (vm_exec_error bad)
      end
  end.

Definition call_external (pc : pcounter) (offset : Z) (bad : string) : run unit :=
  run! i := arg call_extern_id pc in
  run! num_args := arg call_num_args pc in
  run! reg := arg call_dest pc in
  run! f := pure_run (lookup_external_function lib added (i + offset)) in
  run! args := read_call_args (Z.to_nat num_args) 0 f (pc + CALL_BASE) in
  must (num_args =? Z.of_nat (get_num_args f)) ;;;
  run! v := call_function f args in
  store_result (Externals.return_type f) reg v bad.

Definition execute_call (pc : pcounter) : run unit :=
  call_external pc 0 "invalid return type in call (execute_call)".

(** the functions of the program's own table come after the 38 built-in ones *)
Definition REGISTER_OFFSET : Z := 38.
Definition execute_calle (pc : pcounter) : run unit :=
  call_external pc REGISTER_OFFSET "invalid return type in call (execute_calle)".

(** the RULE instruction *)
Definition execute_rule_instr (pc : pcounter) : run unit :=
  run! i := arg rule_get_id pc in change (set_current_rule i).

Definition execute_new_node (pc : pcounter) : run unit :=
  run! reg := arg new_node_reg pc in
  run! i := create_database_node vp in
  init_node vp i ;;;
  on_core (λ _, set_node reg i).

(** the loop that ends at a byte other than 1: an element takes five bytes or more *)
Fixpoint read_stack (k : list_kind) (fuel : nat) (pc : pcounter) (s : list Z) : run (list Z * pcounter) :=
  match fuel with
  | O => fails undefined_behaviour
  | S fuel =>
      run! b := pure_run (byte_get code pc 0) in
      let pc := pc + 1 in
      if b =? 1 then
        match k with
        | IntList => run! n := arg pcounter_int pc in
                     read_stack k fuel (pcounter_move_int pc) (wrap 32 n :: s)
        | FloatList => run! n := arg pcounter_float pc in
                       read_stack k fuel (pcounter_move_float pc) (n :: s)
        | NodeList => run! n := arg pcounter_node pc in
                      read_stack k fuel (pcounter_move_node pc) (n :: s)
        end
      else done (s, pc)
  end.

(** one field of an axiom *)
Definition read_axiom_field (type : field_type) (i : nat) (t : tuple) (pc : pcounter)
  : run (tuple * pcounter) :=
  match type with
  | FIELD_INT =>
      run! n := arg pcounter_int pc in
      run! t := pure_run (Tuple.set_int t i n) in done (t, pcounter_move_int pc)
  | FIELD_FLOAT =>
      run! n := arg pcounter_float pc in
      run! t := pure_run (Tuple.set_float t i n) in done (t, pcounter_move_float pc)
  | FIELD_NODE =>
      run! n := arg pcounter_node pc in
      run! t := pure_run (Tuple.set_node t i n) in done (t, pcounter_move_node pc)
  | _ =>
      match list_kind_of type with
      | Some k =>
          run! r := read_stack k (S (length code)) pc [] in
          run! t := on_memory (λ m,
            let* l := from_stack_to_list (lists m k) r.1 in
            Tuple.set_list (set_lists m k l.1) t i k l.2) in
          done (t, r.2)
      | None => fails assert_fail
      end
  end.

Fixpoint read_axiom_fields (types : list field_type) (i : nat) (t : tuple) (pc : pcounter)
  : run (tuple * pcounter) :=
  match types with
  | [] => done (t, pc)
  | type :: types =>
      run! r := read_axiom_field type i t pc in read_axiom_fields types (i + 1) r.1 r.2
  end.

(** an axiom takes a byte or more *)
Fixpoint new_axioms_loop (fuel : nat) (pc stop : pcounter) : run unit :=
  match fuel with
  | O => fails undefined_behaviour
  | S fuel =>
      if pc <? stop then
        run! pid := pure_run (predicate_get code pc 0) in
        run! p := pure_run (get_predicate vp pid) in
        run! r := read_axiom_fields (pred_types p) 0 (new_tuple p) (pc + 1) in
        run! tpl := alloc_tuple r.1 in
        execute_send_self tpl ;;;
        new_axioms_loop fuel r.2 stop
      else done ()
  end.

Definition execute_new_axioms (pc : pcounter) : run unit :=
  run! jump := arg new_axioms_jump pc in
  new_axioms_loop (S (length code)) (pc + NEW_AXIOMS_BASE) (pc + jump).

(** ** The stack *)

Definition push_stack_field : exec unit := modify (λ s, Ok (Exec.set_stack (stack s ++ [0]) s)).
Definition pop_stack_field : exec unit :=
  modify (λ s, match stack s with [] => Err undefined_behaviour
                                | _ => Ok (Exec.set_stack (removelast (stack s)) s) end).
Definition push_regs : exec unit := modify (λ s, Ok (Exec.set_stack (stack s ++ regs s) s)).
Definition pop_regs : exec unit :=
  modify (λ s, if (length (stack s) <? NUM_REGS)%nat then Err undefined_behaviour
               else let n := (length (stack s) - NUM_REGS)%nat in
                    Ok (set_regs (drop n (stack s)) (Exec.set_stack (take n (stack s)) s))).

(** ** The loop of [execute] *)

(** where an instruction leads: out, or to a counter *)
Inductive next : Type :=
  | returning (ret : return_type)
  | jump_to (pc : pcounter).

(** [break] out of the switch: [pc = advance(pc)] *)
Definition falls (pc : pcounter) (m : run unit) : run next :=
  m ;;; run! pc := pure_run (advance code pc) in done (jump_to pc).

(** [++sim_instr_counter] when the simulator runs *)
Definition count_instruction : run unit :=
  if sim (Sched:=Sched) then change (λ w, set_sim_instr_counter (wrap 64 (sim_instr_counter w + 1)) w)
  else done ().

(** the switch; [execute] is for the calls of ITERATE and RESET LINEAR *)
Definition execute_instr (execute : pcounter → run return_type) (pc : pcounter) : run next :=
  count_instruction ;;;
  run! i := pure_run (fetch code pc) in
  match i with
  | Some RETURN_INSTR => done (returning RETURN_OK)
  | Some NEXT_INSTR => done (returning RETURN_NEXT)
  | Some RETURN_LINEAR_INSTR => done (returning RETURN_LINEAR)
  | Some RETURN_DERIVED_INSTR => done (returning RETURN_DERIVED)
  | Some RETURN_SELECT_INSTR =>
      run! j := arg return_select_jump pc in done (jump_to (pc + j))
  | Some IF_INSTR =>
      run! r := arg if_reg pc in
      run! b := on_core (λ _, get_bool r) in
      if (b : bool) then falls pc (done ())
      else run! j := arg if_jump pc in done (jump_to (pc + j))
  | Some ELSE_INSTR => fails (vm_exec_error "ELSE instruction not supported")
  | Some END_LINEAR_INSTR => done (returning RETURN_END_LINEAR)
  | Some RESET_LINEAR_INSTR =>
      run! old_is_linear := look run_linear in
      change (set_run_linear false) ;;;
      run! ret := execute (pc + RESET_LINEAR_BASE) in
      must (match ret with RETURN_END_LINEAR => true | _ => false end) ;;;
      change (set_run_linear old_is_linear) ;;;
      run! j := arg reset_linear_jump pc in done (jump_to (pc + j))
  | Some ITER_INSTR =>
      run! pred_id := arg iter_predicate pc in
      run! p := pure_run (get_predicate vp pred_id) in
      run! mt := on_core (λ pr, build_match_object pr (new_match p) (pc + ITER_BASE) p) in
      run! nd := this_node in
      run! ls := pure_run (Node.match_predicate hash_int hash_uint hash_float pred_id mt nd []) in
      run! options := arg iter_options pc in
      run! options_arguments := arg iter_options_argument pc in
      run! first := pure_run (advance code pc) in
      run! ret := execute_iter (pc + ITER_BASE) options options_arguments (execute first)
                    (map (λ l, Zpos (leaf_at (Node.get_id nd) pred_id l)) ls) p in
      run! stop := stop_iter ret in
      match stop with
      | Some ret => done (returning ret)
      | None => run! j := arg iter_jump pc in done (jump_to (pc + j))
      end
  | Some REMOVE_INSTR => falls pc (execute_remove pc)
  | Some MOVE_INSTR =>
      run! pc := on_core (λ pr, execute_move pr pc) in falls pc (done ())
  | Some ALLOC_INSTR => falls pc (on_core (λ pr, execute_alloc pr pc))
  | Some SEND_INSTR => falls pc (execute_send pc)
  | Some SEND_DELAY_INSTR => falls pc (execute_send_delay pc)
  | Some OP_INSTR => falls pc (on_core (λ pr, execute_op pr pc))
  | Some NOT_INSTR => falls pc (on_core (λ pr, execute_not pr pc))
  | Some MOVE_NIL_INSTR => falls pc (on_core (λ pr, execute_move_nil pr pc))
  | Some CONS_INSTR => falls pc (on_core (λ pr, execute_cons pr pc))
  | Some TEST_NIL_INSTR => falls pc (on_core (λ pr, execute_test_nil pr pc))
  | Some TAIL_INSTR => falls pc (on_core (λ pr, execute_tail pr pc))
  | Some HEAD_INSTR => falls pc (on_core (λ pr, execute_head pr pc))
  | Some FLOAT_INSTR => falls pc (on_core (λ pr, execute_float pr pc))
  | Some SELECT_INSTR =>
      run! pc := on_core (λ pr, execute_select pr pc) in done (jump_to pc)
  | Some COLOCATED_INSTR => falls pc (execute_colocated pc)
  | Some DELETE_INSTR => falls pc (execute_delete pc)
  | Some CALL_INSTR => falls pc (execute_call pc)
  | Some CALLE_INSTR => falls pc (execute_calle pc)
  | Some RULE_INSTR => falls pc (execute_rule_instr pc)
  | Some RULE_DONE_INSTR => falls pc (done ())
  | Some NEW_NODE_INSTR => falls pc (execute_new_node pc)
  | Some NEW_AXIOMS_INSTR => falls pc (execute_new_axioms pc)
  | Some PUSH_INSTR => falls pc (on_core (λ _, push_stack_field))
  | Some POP_INSTR => falls pc (on_core (λ _, pop_stack_field))
  | Some PUSH_REGS_INSTR => falls pc (on_core (λ _, push_regs))
  | Some POP_REGS_INSTR => falls pc (on_core (λ _, pop_regs))
  | Some CALLF_INSTR =>
      run! i := arg callf_get_id pc in
      run! f := pure_run (of_option (functions (base vp) !! Z.to_nat i)) in
      done (jump_to f)
  | _ => fails (vm_exec_error "unsupported instruction")
  end.

(** the fuel bounds the instructions in a row and the depth of the calls *)
Fixpoint execute (fuel : nat) (pc : pcounter) : run return_type :=
  match fuel with
  | O => fails undefined_behaviour
  | S fuel =>
      run! n := execute_instr (execute fuel) pc in
      match n with
      | returning ret => done ret
      | jump_to pc => execute fuel pc
      end
  end.

(** [state::cleanup] *)
Definition cleanup : run unit :=
  on_core (λ _, purge_runtime_objects) ;;; change (set_used_linear_tuples []).

Definition stack_empty (w : world) : bool := match stack (core w) with [] => true | _ => false end.

Definition do_execute (fuel : nat) (code : pcounter) : run return_type :=
  run! b := look stack_empty in must b ;;;
  run! ret := execute fuel code in
  cleanup ;;;
  run! b := look stack_empty in must b ;;;
  done ret.

(** [state::unmark_generated_tuples] *)
Definition unmark_generated_tuples : run unit :=
  run! w := look id in
  run_each (λ s, update_stuple s (st_set_generated_run false)) (generated_tuples w) ;;;
  change (set_generated_tuples []).

Inductive execution_return : Type := EXECUTION_OK | EXECUTION_CONSUMED.

Definition execute_bytecode (fuel : nat) (code : pcounter) : run execution_return :=
  run! ret := do_execute fuel code in
  unmark_generated_tuples ;;;
  done (match ret with RETURN_LINEAR => EXECUTION_CONSUMED | _ => EXECUTION_OK end).

Definition execute_rule (fuel : nat) (rule_id : nat) : run unit :=
  run! code := pure_run (of_option (rule_bytecode vp !! rule_id)) in
  run! _ := do_execute fuel code in done ().

End Interp.
