(* ===== verification/Sample.v ===== *)
(** A program of one rule, [_init -o fact(5)], at one node under the serial
    scheduler: a run of the whole engine, and inputs for the theorems about it. *)

From Stdlib Require Import ZArith Lia Bool SpecFloat.
From stdpp Require Import base tactics list numbers option gmap strings.
From S2P Require Import Prelude Words Types Instr RuntimeList Tuple SimpleTuple Trie TupleTrie.
From S2P Require Import RuleMatcher Aggregate Node Pqueues Exec Externals Router World Serial Interp.

#[local] Open Scope Z_scope.
#[local] Open Scope meld_scope.

Definition init_pred : predicate :=
  mk_predicate [] 0 "_init" 0 [] [] [] 0 None false true false false false.
Definition fact_pred : predicate :=
  mk_predicate [] 1 "fact" 0 [FIELD_INT] [4] [0] 8 None false true false false false.

(** RETURN for the code of the predicates, then the rule: ITERATE over _init, to be deleted, make the
    fact in register 1, send it to this node, remove the tuple, RETURN LINEAR; at 41, code
    that makes a fact and sends it to this node *)
Definition sample_code : list byte :=
  [ 0x00;
    0x10; 0; 0; 0; 0;
    0xA0; 0; 2; 0; 34; 0; 0; 0; 0; 0xc0;
    0x30; 0x1f; 0x20;
    0x40; 1; 1;
    0x30; 0x01; 0x02; 5; 0; 0; 0; 0; 1;
    0x08; 1; 1;
    0x80; 0;
    0xD0;
    0x00; 0x00; 0x00; 0x00;
    0x40; 1; 1;
    0x30; 0x01; 0x02; 7; 0; 0; 0; 0; 1;
    0x08; 1; 1;
    0x00 ].

Definition sample_rule : rule := mk_rule [0%nat] false.

Definition sample_base : Exec.program :=
  mk_program sample_code 0 0 0 [] [] [] [init_pred; fact_pred] [].

Definition sample_vm : vm_program :=
  mk_vm_program sample_base [sample_rule] [[0%nat]; []] [1] [0; 0] 0.

Definition one_machine : router := set_nodes_total 1 (mk_router [mk_remote 0 1 false 0 0 0] 1 0 0).

(** nothing of the C library is called *)
Definition no_library : c_library unit :=
  mk_c_library unit (λ f, f) (λ f, f) (λ _, S754_nan) (λ _, []) (λ _, None) (λ s, [s])
    (λ _ g, (0, g)) (λ g, (S754_nan, g)) (λ _ _, 0) None.
Definition no_rand (n : Z) (g : unit) : Z * unit := (0, g).

Definition sample_core : state :=
  mk_state (replicate NUM_REGS 0) [] (replicate MAX_CONSTS 0) (mk_memory ∅ ∅ ∅ ∅) ∅ 0 0 0
    (replicate NUM_REGS false) (replicate NUM_REGS 0) (replicate NUM_REGS 0) [] [].

Definition sample_db : database :=
  mk_database {[ 0 := Node.new_node 2 [sample_rule] 0 0 ]} {[ 0 := 0 ]} 0 0 0 1.

Definition sample_world : world serial_local unit :=
  mk_world sample_core ∅ ∅ sample_db None 0 false [] 0 false false [] [] [] [] [] 0
    [false] [false; false] [] 0 0 false
    (match create_serial_node 0 (new_serial 1) with Ok s => s | Err _ => new_serial 1 end) tt [].

(** the tuple of _init is local to the node, and the rule is about to run *)
Definition sample_start : world serial_local unit :=
  match (init_node sample_vm 0 ;;;
         change (λ w, set_cur_node (Some 0) (set_use_local_tuples true (set_local_tuples [1] w))) ;;;
         register sample_vm init_pred 1 true) sample_world with
  | Ok (_, w) => w
  | Err _ => sample_world
  end.

Abbreviation sample_execute :=
  (Interp.execute sample_vm one_machine no_library [] no_rand id id id).

Definition sample_end : world serial_local unit :=
  match sample_execute 20 1 sample_start with Ok (_, w) => w | Err _ => sample_world end.

(** the tuple is used up and the fact is generated *)
Lemma sample_executes :
  sample_execute 20 1 sample_start = Ok (RETURN_LINEAR, sample_end) ∧
  generated_tuples sample_end = [2] ∧
  st_to_delete <$> stuples sample_end !! 1%positive = Some true.
Proof. split_and!; vm_compute; reflexivity. Qed.

(** the node before its first run, with the tuple of _init in its queue *)
Definition sample_ready : world serial_local unit :=
  match init_node sample_vm 0 sample_world with Ok (_, w) => w | Err _ => sample_world end.

(** a run of a persistent tuple *)
Definition sample_persistent : world serial_local unit :=
  set_cur_node (Some 0) (set_run_count 1 (set_persistent_only true sample_world)).

Abbreviation sample_bytecode :=
  (Interp.execute_bytecode sample_vm one_machine no_library [] no_rand id id id).

Definition sample_persistent_end : world serial_local unit :=
  match sample_bytecode 20 41 sample_persistent with Ok (_, w) => w | Err _ => sample_world end.

(** the matcher counts the fact *)
Lemma sample_persistent_run :
  sample_bytecode 20 41 sample_persistent = Ok (EXECUTION_OK, sample_persistent_end) ∧
  (predicate_count ∘ matcher) <$> nodes (dbase sample_persistent_end) !! 0 = Some [0; 1].
Proof. split; vm_compute; reflexivity. Qed.
