(* ===== verification/Frame.v ===== *)
(** What the instructions of one call of [execute] leave alone: the tuple of the
    ITERATE around them, the settings of the run and the lists and rules of the
    engine; and that fuel only decides whether a run ends. *)

From Stdlib Require Import ZArith Lia Bool SpecFloat.
From stdpp Require Import base tactics list numbers option gmap sorting strings.
From S2P Require Import Prelude Words Types Instr RuntimeList Tuple SimpleTuple Trie TupleTrie Match.
From S2P Require Import TrieLookup RuleMatcher Node Exec Externals Router World Serial Interp Sample.

#[local] Open Scope Z_scope.
#[local] Open Scope meld_scope.

(** ** The register machine keeps the current tuple *)

Definition cursor (s : state) : Z * Z * Z := (cur_tuple s, Exec.tuple_leaf s, tuple_queue s).
Definition ekeeps {A} (m : exec A) : Prop := ∀ s a s', m s = Ok (a, s') → cursor s' = cursor s.

Lemma ekeeps_bind {A B} (m : exec A) (k : A → exec B) :
  ekeeps m → (∀ a, ekeeps (k a)) → ekeeps (exec_bind m k).
Proof.
  intros Hm Hk s b s' H. apply exec_bind_ok in H as (a & s1 & H1 & H2).
  by rewrite (Hk _ _ _ _ H2), (Hm _ _ _ H1).
Qed.

Lemma ekeeps_reads {A} (m : exec A) : reads m → ekeeps m.
Proof. intros Hm s a s' H. by rewrite (Hm _ _ _ H). Qed.

Lemma ekeeps_modify f : (∀ s s', f s = Ok s' → cursor s' = cursor s) → ekeeps (modify f).
Proof. intros Hf s u s' H. apply modify_ok in H. by apply Hf. Qed.

Create HintDb frame.

Ltac head_of t := match t with ?f _ => head_of f | _ => t end.

Ltac ekeeps_leaf :=
  apply ekeeps_modify; intros ? ? Hf; cbn beta zeta in Hf;
  repeat match goal with
  | H : res_bind _ _ = Ok _ |- _ => apply res_bind_ok in H as (? & ? & H)
  | H : Ok _ = Ok _ |- _ => inversion H; subst; clear H
  end; try reflexivity; try discriminate.

(** opens a computation up to its steps *)
Ltac ekeeps_open :=
  match goal with
  | |- ekeeps (let '(_, _) := ?x in _) => destruct x
  | |- ekeeps (match ?x with _ => _ end) => destruct x
  | |- ekeeps ?m => let f := head_of m in unfold f
  end.

Ltac solve_ekeeps :=
  repeat first
    [ progress intros
    | progress cbn zeta
    | assumption
    | solve [auto 2 with frame nocore]
    | apply ekeeps_bind; [| intros ?]
    | apply ekeeps_reads; first [apply reads_lift | apply reads_gets | apply reads_ret | apply reads_throw]
    | ekeeps_leaf
    | ekeeps_open ].

Lemma ekeeps_get_op_bool (pr : Exec.program) v m : ekeeps (get_op_bool pr v m).
Proof. solve_ekeeps. Qed.
Lemma ekeeps_get_op_int (pr : Exec.program) v m : ekeeps (get_op_int pr v m).
Proof. apply ekeeps_reads, reads_get_op. Qed.
Lemma ekeeps_get_op_float (pr : Exec.program) v m : ekeeps (get_op_float pr v m).
Proof. apply ekeeps_reads, reads_get_op. Qed.
Lemma ekeeps_get_op_node (pr : Exec.program) v m : ekeeps (get_op_node pr v m).
Proof. apply ekeeps_reads, reads_get_op. Qed.
Lemma ekeeps_get_op_ptr (pr : Exec.program) v m : ekeeps (get_op_ptr pr v m).
Proof. solve_ekeeps. Qed.
Lemma ekeeps_get_op_list (pr : Exec.program) k v m : ekeeps (get_op_list pr k v m).
Proof. solve_ekeeps. Qed.
Lemma ekeeps_get_argument (pr : Exec.program) i : ekeeps (get_argument pr i).
Proof.
  unfold get_argument. destruct (_ <=? _); [| solve_ekeeps].
  apply ekeeps_bind; [solve_ekeeps | intros str s a s' H].
  destruct (make_string _ _). by inversion H; subst.
Qed.
#[export] Hint Resolve ekeeps_get_op_bool ekeeps_get_op_int ekeeps_get_op_float ekeeps_get_op_node
  ekeeps_get_op_ptr ekeeps_get_op_list ekeeps_get_argument : frame.
Lemma ekeeps_get_op_string (pr : Exec.program) v m : ekeeps (get_op_string pr v m).
Proof. solve_ekeeps. Qed.
Lemma ekeeps_set_op_bool m v b : ekeeps (set_op_bool m v b).
Proof. solve_ekeeps. Qed.
Lemma ekeeps_set_op_int (pr : Exec.program) m v z : ekeeps (set_op_int pr m v z).
Proof. solve_ekeeps. Qed.
Lemma ekeeps_set_op_float (pr : Exec.program) m v z : ekeeps (set_op_float pr m v z).
Proof. solve_ekeeps. Qed.
Lemma ekeeps_set_op_node (pr : Exec.program) m v z : ekeeps (set_op_node pr m v z).
Proof. solve_ekeeps. Qed.
Lemma ekeeps_set_op_list (pr : Exec.program) k m v z : ekeeps (set_op_list pr k m v z).
Proof. solve_ekeeps. Qed.
#[export] Hint Resolve ekeeps_get_op_string ekeeps_set_op_bool ekeeps_set_op_int ekeeps_set_op_float
  ekeeps_set_op_node ekeeps_set_op_list : frame.

Lemma ekeeps_get_op_elem (pr : Exec.program) k v m : ekeeps (get_op_elem pr k v m).
Proof. destruct k; cbn [get_op_elem]; solve_ekeeps. Qed.
Lemma ekeeps_set_op_elem (pr : Exec.program) k m v z : ekeeps (set_op_elem pr k m v z).
Proof. destruct k; cbn [set_op_elem]; solve_ekeeps. Qed.
Lemma ekeeps_cons_cell k h l : ekeeps (cons_cell k h l).
Proof.
  intros s p s' H. unfold cons_cell in H. apply res_bind_ok in H as (r & _ & H). by inversion H; subst.
Qed.
Lemma ekeeps_implement_operation {A B} get set (op : A → A → res B) v1 v2 d m :
  (∀ v m, ekeeps (get v m)) → (∀ m v b, ekeeps (set m v b)) →
  ekeeps (implement_operation get set op v1 v2 d m).
Proof.
  intros Hg Hs. apply ekeeps_bind; [apply Hg |]. intros [x1 m1].
  apply ekeeps_bind; [apply Hg |]. intros [x2 m2].
  apply ekeeps_bind; [apply ekeeps_reads, reads_lift | intros; apply Hs].
Qed.
Lemma ekeeps_execute_alloc (pr : Exec.program) pc : ekeeps (execute_alloc pr pc).
Proof.
  unfold execute_alloc. do 3 (apply ekeeps_bind; [solve_ekeeps | intros ?]).
  apply ekeeps_bind; [| solve_ekeeps]. intros s x s' H. by inversion H; subst.
Qed.
#[export] Hint Resolve ekeeps_get_op_elem ekeeps_set_op_elem ekeeps_cons_cell
  ekeeps_implement_operation ekeeps_execute_alloc : frame.

Lemma ekeeps_execute_op (pr : Exec.program) pc : ekeeps (execute_op pr pc).
Proof.
  unfold execute_op. do 4 (apply ekeeps_bind; [solve_ekeeps | intros ?]).
  destruct a2 as [[] |]; cbn beta zeta; try (apply ekeeps_implement_operation; intros);
    auto with frame. by intros s x s' H.
Qed.
Lemma ekeeps_execute_not (pr : Exec.program) pc : ekeeps (execute_not pr pc).
Proof. solve_ekeeps. Qed.
Lemma ekeeps_execute_move (pr : Exec.program) pc : ekeeps (execute_move pr pc).
Proof. solve_ekeeps. Qed.
Lemma ekeeps_execute_move_nil (pr : Exec.program) pc : ekeeps (execute_move_nil pr pc).
Proof. solve_ekeeps. Qed.
Lemma ekeeps_execute_cons (pr : Exec.program) pc : ekeeps (execute_cons pr pc).
Proof. solve_ekeeps. Qed.
Lemma ekeeps_execute_test_nil (pr : Exec.program) pc : ekeeps (execute_test_nil pr pc).
Proof. solve_ekeeps. Qed.
Lemma ekeeps_execute_tail (pr : Exec.program) pc : ekeeps (execute_tail pr pc).
Proof. solve_ekeeps. Qed.
Lemma ekeeps_execute_head (pr : Exec.program) pc : ekeeps (execute_head pr pc).
Proof. solve_ekeeps. Qed.
Lemma ekeeps_execute_float (pr : Exec.program) pc : ekeeps (execute_float pr pc).
Proof. solve_ekeeps. Qed.
Lemma ekeeps_execute_select (pr : Exec.program) pc : ekeeps (execute_select pr pc).
Proof. solve_ekeeps. Qed.
Lemma ekeeps_do_match (pr : Exec.program) t f v pc : ekeeps (do_match pr t f v pc).
Proof. apply ekeeps_reads, reads_do_match. Qed.
#[export] Hint Resolve ekeeps_execute_op ekeeps_execute_not ekeeps_execute_move ekeeps_execute_move_nil
  ekeeps_execute_cons ekeeps_execute_test_nil ekeeps_execute_tail ekeeps_execute_head
  ekeeps_execute_float ekeeps_execute_select ekeeps_do_match : frame.

Lemma ekeeps_do_matches_loop (pr : Exec.program) n : ∀ pc t, ekeeps (do_matches_loop pr n pc t).
Proof. induction n; intros pc t; cbn [do_matches_loop]; solve_ekeeps; apply IHn. Qed.
Lemma ekeeps_build_match_loop (pr : Exec.program) n :
  ∀ p pc m, ekeeps (build_match_loop pr n p pc m).
Proof. induction n; intros p pc m; cbn [build_match_loop]; solve_ekeeps; apply IHn. Qed.
#[export] Hint Resolve ekeeps_do_matches_loop ekeeps_build_match_loop : frame.
Lemma ekeeps_do_matches (pr : Exec.program) pc t : ekeeps (do_matches pr pc t).
Proof. solve_ekeeps. Qed.
Lemma ekeeps_build_match_object (pr : Exec.program) m pc p : ekeeps (build_match_object pr m pc p).
Proof. solve_ekeeps. Qed.
Lemma ekeeps_purge_runtime_objects : ekeeps purge_runtime_objects.
Proof. solve_ekeeps. Qed.
Lemma ekeeps_stack :
  ekeeps push_stack_field ∧ ekeeps pop_stack_field ∧ ekeeps push_regs ∧ ekeeps pop_regs.
Proof.
  split_and!; unfold push_stack_field, pop_stack_field, push_regs, pop_regs; ekeeps_leaf.
  - destruct (stack s); [done |]. by inversion Hf.
  - destruct (_ <? _)%nat; [done |]. by inversion Hf.
Qed.
#[export] Hint Resolve ekeeps_do_matches ekeeps_build_match_object ekeeps_purge_runtime_objects : frame.

(** ** The world *)

Section Frame.
Context {Sched G : Type} `{scheduler Sched} (vp : vm_program) (rt : router).
Context (lib : c_library G) (added : list (external_function (G:=G))).
Context (rand : Z → G → Z * G).
Context (hash_int hash_uint hash_float : Z → Z).

Abbreviation world := (World.world Sched G).
Abbreviation run := (World.run Sched G).

(** what the run was started with, and what belongs to the rule engine *)
Definition settings (w : world) :=
  (cursor (core w), run_linear w,
   (cur_node w, run_count w, use_local_tuples w, persistent_only w, current_level w),
   (local_tuples w, marked_rules w, rule_queue w),
   (sim_instr_limit w, sim_instr_use w)).

Definition kept {A} (b : bool) (m : run A) : Prop :=
  ∀ w a w', run_linear w = b → m w = Ok (a, w') → settings w' = settings w.

Lemma run_bind_ok {A B} (m : run A) (k : A → run B) w b w' :
  run_bind m k w = Ok (b, w') ↔ ∃ a w1, m w = Ok (a, w1) ∧ k a w1 = Ok (b, w').
Proof.
  unfold run_bind. rewrite res_bind_ok. split.
  - intros ([a w1] & H1 & H2). by exists a, w1.
  - intros (a & w1 & H1 & H2). by exists (a, w1).
Qed.

Lemma settings_linear w w' : settings w' = settings w → run_linear w' = run_linear w.
Proof. unfold settings. congruence. Qed.

Lemma kept_bind {A B} b (m : run A) (k : A → run B) :
  kept b m → (∀ a, kept b (k a)) → kept b (run_bind m k).
Proof.
  intros Hm Hk w x w' Hb H1. apply run_bind_ok in H1 as (a & w1 & H1 & H2).
  pose proof (Hm _ _ _ Hb H1) as E. rewrite <- E. eapply Hk, H2.
  by rewrite (settings_linear _ _ E).
Qed.

(** what is read is known of the world it is read from *)
Lemma kept_look {A B} b (f : world → A) (k : A → run B) :
  (∀ w, run_linear w = b → kept b (k (f w))) → kept b (run_bind (look f) k).
Proof.
  intros Hk w x w' Hb H1. apply run_bind_ok in H1 as (a & w1 & H1 & H2).
  inversion H1; subst. by eapply Hk.
Qed.

Lemma kept_looks {A} b (f : world → A) : kept b (look f).
Proof. intros w x w' _ E. by inversion E; subst. Qed.
Lemma kept_done {A} b (a : A) : kept b (done a).
Proof. intros w x w' _ E. by inversion E; subst. Qed.
Lemma kept_fails {A} b f : kept b (fails f : run A).
Proof. by intros w x w' _ E. Qed.
Lemma kept_pure {A} b (r : res A) : kept b (pure_run r).
Proof. intros w x w' _ E. apply res_bind_ok in E as (? & _ & E). by inversion E; subst. Qed.
Lemma kept_change b f : (∀ w, settings (f w) = settings w) → kept b (change f).
Proof. intros Hf w x w' _ E. inversion E; subst. apply Hf. Qed.
Lemma kept_must b c : kept b (must c).
Proof. intros w x w' _ E. apply asserting_ok in E as [_ E]. by inversion E; subst. Qed.
Lemma kept_read {A} b (f : world → res A) : kept b (λ w, let* a := f w in Ok (a, w)).
Proof. intros w x w' _ E. apply res_bind_ok in E as (? & _ & E). by inversion E; subst. Qed.
Lemma kept_step {A B} b (f : world → res A) (v : A → world → B) (g : A → world → world) :
  (∀ a w, settings (g a w) = settings w) → kept b (λ w, let* a := f w in Ok (v a w, g a w)).
Proof. intros Hg w x w' _ E. apply res_bind_ok in E as (? & _ & E). inversion E; subst. apply Hg. Qed.

Lemma kept_on_core {A} b (f : Exec.program → exec A) : (∀ pr, ekeeps (f pr)) → kept b (on_core vp f).
Proof.
  intros Hf w x w' _ E. apply res_bind_ok in E as ([a s] & E & E'). inversion E'; subst.
  apply Hf in E. unfold settings. cbn. by rewrite E.
Qed.
Lemma kept_on_memory {A} b (f : memory → res (memory * A)) : kept b (on_memory f).
Proof. apply (kept_step _ (λ w, f (mem (core w)))). by intros. Qed.
Lemma kept_on_sched b f : kept b (on_sched f : run unit).
Proof. apply (kept_step _ (λ w, f (sched w))). by intros. Qed.
Lemma kept_tuple_at b a : kept b (tuple_at a : run tuple).
Proof. apply kept_read. Qed.
Lemma kept_alloc_tuple b t : kept b (alloc_tuple t : run Z).
Proof. intros w x w' _ E. by inversion E; subst. Qed.
Lemma kept_stuple_at b a : kept b (stuple_at a : run stuple).
Proof. apply kept_read. Qed.
Lemma kept_alloc_stuple b s : kept b (alloc_stuple s : run Z).
Proof. intros w x w' _ E. by inversion E; subst. Qed.
Lemma kept_this_node b : kept b (this_node : run node).
Proof.
  intros w x w' _ E. apply res_bind_ok in E as (? & _ & E). apply res_bind_ok in E as (? & _ & E).
  by inversion E; subst.
Qed.
Lemma kept_running_node b : kept b (running_node : run Z).
Proof. apply kept_read. Qed.
Lemma kept_leaf_count b a : kept b (leaf_count a : run Z).
Proof.
  intros w x w' _ E. unfold leaf_count in E. apply res_bind_ok in E as ([[n i] l] & _ & E).
  do 2 apply res_bind_ok in E as (? & _ & E). by inversion E; subst.
Qed.
Lemma kept_leaf_tuple b a : kept b (leaf_tuple a : run Z).
Proof.
  intros w x w' _ E. do 2 apply res_bind_ok in E as (? & _ & E). by inversion E; subst.
Qed.
Lemma kept_create_database_node b : kept b (create_database_node vp : run Z).
Proof.
  intros w x w' _ E. unfold create_database_node in E. destruct (Node.create_node _ _).
  apply res_bind_ok in E as (? & _ & E). by inversion E; subst.
Qed.

#[local] Hint Resolve kept_looks kept_done kept_fails kept_pure kept_must kept_on_memory kept_on_sched
  kept_tuple_at kept_alloc_tuple kept_stuple_at kept_alloc_stuple kept_this_node kept_running_node
  kept_leaf_count kept_leaf_tuple kept_create_database_node : frame.

Ltac kept_open :=
  match goal with
  | |- kept _ (match ?x with _ => _ end) => destruct x
  | |- kept _ ?m => let f := head_of m in unfold f
  end.

Ltac kept_loop := fail.

Ltac solve_kept :=
  repeat first
    [ progress intros
    | progress cbn zeta
    | assumption
    | solve [auto 3 with frame nocore]
    | match goal with
      | |- kept _ (run_bind (look _) _) => apply kept_look; intros ? ?
      | |- kept _ (run_bind _ _) => apply kept_bind; [| intros ?]
      end
    | kept_loop
    | apply kept_change; done
    | apply kept_on_core; solve [solve_ekeeps]
    | kept_open ].

Lemma kept_run_each {A} b (f : A → run unit) xs : (∀ x, kept b (f x)) → kept b (run_each f xs).
Proof. intros Hf. induction xs; cbn [run_each]; solve_kept. Qed.

Lemma settings_free_leaf nd i ls : ∀ w, settings (foldl (free_leaf nd i) w ls) = settings w.
Proof.
  induction ls as [| l ls IH]; intros w; [done |]. cbn [foldl]. rewrite IH.
  unfold free_leaf. cbn zeta. by destruct (_ !! _).
Qed.

Lemma kept_on_storage b p f : kept b (on_storage p f : run unit).
Proof.
  unfold on_storage. apply kept_bind; [solve_kept | intros nd]. apply kept_look. intros w Hw.
  cbn zeta. apply kept_bind; [solve_kept | intros nd']. apply kept_bind; [solve_kept | intros _].
  apply kept_change. intros. apply settings_free_leaf.
Qed.
#[local] Hint Resolve kept_on_storage : frame.

Lemma kept_on_matcher {A} b (f : rule_matcher → res (A * rule_matcher)) : kept b (on_matcher f : run A).
Proof. solve_kept. Qed.
#[local] Hint Resolve kept_on_matcher : frame.
Lemma kept_run_action b nd t o : kept b (run_action nd t o : run unit).
Proof. solve_kept. Qed.
#[local] Hint Resolve kept_run_action : frame.
Lemma kept_route_self b nd s d : kept b (route_self nd s d : run unit).
Proof. solve_kept. Qed.
Lemma kept_route b nd s d : kept b (route rt nd s d : run unit).
Proof. solve_kept. Qed.
Lemma kept_delete_leaf_at b p a : kept b (delete_leaf_at p a : run unit).
Proof. solve_kept. Qed.
Lemma kept_register b p n new : kept b (register vp p n new : run unit).
Proof. solve_kept. Qed.
Lemma kept_deregister b p n : kept b (deregister vp p n : run unit).
Proof. solve_kept. Qed.
#[local] Hint Resolve kept_route_self kept_route kept_delete_leaf_at kept_register kept_deregister : frame.

Lemma kept_execute_send_self b t : kept b (execute_send_self vp t : run unit).
Proof. solve_kept. Qed.
#[local] Hint Resolve kept_execute_send_self : frame.
Lemma kept_execute_send b pc : kept b (execute_send vp rt pc : run unit).
Proof. solve_kept. Qed.
Lemma kept_execute_send_delay b pc : kept b (execute_send_delay vp rt pc : run unit).
Proof. solve_kept. Qed.
Lemma kept_execute_new_node b pc : kept b (execute_new_node vp pc : run unit).
Proof. solve_kept. Qed.
Lemma kept_execute_remove b pc : kept b (execute_remove vp pc : run unit).
Proof. solve_kept. Qed.
Lemma kept_execute_colocated b pc : kept b (execute_colocated vp rt pc : run unit).
Proof. solve_kept. Qed.
#[local] Hint Resolve kept_execute_send kept_execute_send_delay kept_execute_new_node
  kept_execute_remove kept_execute_colocated : frame.

Lemma kept_delete_args b n : ∀ i p m mt, kept b (delete_args vp n i p m mt : run match_).
Proof. induction n; intros; cbn [delete_args]; solve_kept; apply IHn. Qed.
#[local] Hint Resolve kept_delete_args : frame.
Lemma kept_execute_delete b pc :
  kept b (execute_delete vp hash_int hash_uint hash_float pc : run unit).
Proof. solve_kept. Qed.
Lemma kept_read_call_arg b type m : kept b (read_call_arg vp type m : run (tuple_field * pcounter)).
Proof. solve_kept. Qed.
#[local] Hint Resolve kept_execute_delete kept_read_call_arg : frame.
Lemma kept_read_call_args b n : ∀ i f m, kept b (read_call_args vp n i f m : run (list tuple_field)).
Proof. induction n; intros; cbn [read_call_args]; solve_kept; apply IHn. Qed.
Lemma kept_call_function b f args : kept b (call_function f args : run tuple_field).
Proof.
  intros w x w' _ E. apply res_bind_ok in E as ([[v m] g] & _ & E). by inversion E; subst.
Qed.
#[local] Hint Resolve kept_read_call_args kept_call_function : frame.
Lemma kept_call_external b pc o bad : kept b (call_external vp lib added pc o bad : run unit).
Proof. solve_kept. Qed.
#[local] Hint Resolve kept_call_external : frame.

Lemma kept_read_stack b k n : ∀ pc s, kept b (read_stack vp k n pc s : run (list Z * pcounter)).
Proof. induction n; intros; cbn [read_stack]; solve_kept; apply IHn. Qed.
#[local] Hint Resolve kept_read_stack : frame.
Lemma kept_read_axiom_field b type i t pc :
  kept b (read_axiom_field vp type i t pc : run (tuple * pcounter)).
Proof. solve_kept. Qed.
#[local] Hint Resolve kept_read_axiom_field : frame.
Lemma kept_read_axiom_fields b types : ∀ i t pc,
  kept b (read_axiom_fields vp types i t pc : run (tuple * pcounter)).
Proof. induction types; intros; cbn [read_axiom_fields]; solve_kept; apply IHtypes. Qed.
#[local] Hint Resolve kept_read_axiom_fields : frame.
Lemma kept_new_axioms_loop b n : ∀ pc stop, kept b (new_axioms_loop vp n pc stop : run unit).
Proof. induction n; intros; cbn [new_axioms_loop]; solve_kept; apply IHn. Qed.
#[local] Hint Resolve kept_new_axioms_loop : frame.
Lemma kept_execute_new_axioms b pc : kept b (execute_new_axioms vp pc : run unit).
Proof. solve_kept. Qed.
#[local] Hint Resolve kept_execute_new_axioms : frame.

(** *** ITERATE *)

(** the run of a tuple ends where it began, given the linearity of the run around it *)
Lemma kept_with_tuple b t l q this body :
  (∀ b, kept b body) → kept b (with_tuple t l q this b body : run return_type).
Proof.
  intros Hbody w x w' Hw E. unfold with_tuple in E.
  apply run_bind_ok in E as (w0 & w1 & E0 & E). inversion E0; subst w0 w1. clear E0.
  cbn zeta in E. apply run_bind_ok in E as (u & w1 & E1 & E). inversion E1; subst u w1. clear E1.
  apply run_bind_ok in E as (r & w2 & E2 & E).
  apply run_bind_ok in E as (u & w3 & E3 & E). inversion E3; subst u w3. clear E3.
  inversion E; subst x w'. apply (Hbody _ _ _ _ eq_refl) in E2.
  clear -E2 Hw. unfold settings, cursor in *. cbn in *. congruence.
Qed.
#[local] Hint Resolve kept_with_tuple : frame.

Lemma kept_stop_iter b r : kept b (stop_iter r : run (option return_type)).
Proof. solve_kept. Qed.
Lemma kept_matches_at b pc t : kept b (matches_at vp pc t : run bool).
Proof. solve_kept. Qed.
Lemma kept_shuffle_vector {A} b (l : list A) : kept b (shuffle_vector rand l : run (list A)).
Proof.
  intros w x w' _ E. unfold shuffle_vector in E. destruct (shuffle_loop _ _ _ _ _).
  by inversion E; subst.
Qed.
#[local] Hint Resolve kept_stop_iter kept_matches_at kept_shuffle_vector : frame.
Lemma kept_filter_active b i qs : kept b (filter_active i qs : run (list Z)).
Proof. induction qs; cbn [filter_active]; solve_kept. Qed.
#[local] Hint Resolve kept_filter_active : frame.
Lemma kept_gather_active_tuples b i : kept b (gather_active_tuples i : run (list Z)).
Proof. solve_kept. Qed.
#[local] Hint Resolve kept_gather_active_tuples : frame.
Lemma kept_with_keys b p f os : kept b (with_keys p f os : run (list (sort_key * iter_object))).
Proof. induction os; cbn [with_keys]; solve_kept. Qed.
#[local] Hint Resolve kept_with_keys : frame.
Lemma kept_sort_objects b p f os : kept b (sort_objects p f os : run (list iter_object)).
Proof. solve_kept. Qed.
Lemma kept_gather_everything b f xs :
  (∀ x, kept b (f x)) → kept b (gather_everything f xs : run (list iter_object)).
Proof. intros Hf. induction xs; cbn [gather_everything]; solve_kept. Qed.
Lemma kept_try_all {A} b (f : A → run (option return_type)) xs :
  (∀ x, kept b (f x)) → kept b (try_all f xs).
Proof. intros Hf. induction xs; cbn [try_all]; solve_kept. Qed.
#[local] Hint Resolve kept_sort_objects : frame.

Ltac kept_loop ::=
  match goal with
  | |- kept _ (gather_everything _ _) => apply kept_gather_everything; intros ?
  | |- kept _ (try_all _ _) => apply kept_try_all; intros ?
  end.

Section Body.
Context (body : run return_type) (Hbody : ∀ b, kept b body).

Lemma kept_try_leaf b this leaf : kept b (try_leaf this b body leaf : run (option return_type)).
Proof using Hbody. solve_kept. Qed.
Lemma kept_try_sorted b d this s : kept b (try_sorted d this b body s : run (option return_type)).
Proof using Hbody. solve_kept. Qed.
Lemma kept_try_stuple b d this s : kept b (try_stuple d this b body s : run (option return_type)).
Proof using Hbody. solve_kept. Qed.
#[local] Hint Resolve kept_try_leaf kept_try_sorted kept_try_stuple : frame.
Lemma kept_try_queued b pc d this s :
  kept b (try_queued vp pc d this b body s : run (option return_type)).
Proof using Hbody. solve_kept. Qed.
Lemma kept_try_local b p pc d this s :
  kept b (try_local vp p pc d this b body s : run (option return_type)).
Proof using Hbody. solve_kept. Qed.
#[local] Hint Resolve kept_try_queued kept_try_local : frame.

Lemma kept_execute_iter b pc o a leaves p :
  kept b (execute_iter vp rand pc o a body leaves p : run return_type).
Proof using Hbody.
  unfold execute_iter, iter_min, returns. apply kept_look. intros w Hw. cbn zeta. subst b.
  apply kept_bind; [solve_kept | intros _]. solve_kept.
Qed.
End Body.

(** *** The loop *)

Abbreviation execute_instr :=
  (execute_instr vp rt lib added rand hash_int hash_uint hash_float).
Abbreviation execute := (execute vp rt lib added rand hash_int hash_uint hash_float).

Lemma kept_falls b pc m : kept b m → kept b (falls vp pc m : run next).
Proof. intros. solve_kept. Qed.

Lemma kept_reset_linear b (body : run return_type) (k : run next) test :
  (∀ b, kept b body) → kept b k →
  kept b (change (set_run_linear false) ;;; run! r := body in must (test r) ;;;
          change (set_run_linear b) ;;; k).
Proof.
  intros Hbody Hk w x w' Hw E.
  apply run_bind_ok in E as (u & w1 & E1 & E). inversion E1; subst u w1. clear E1.
  apply run_bind_ok in E as (r & w2 & E2 & E).
  apply run_bind_ok in E as (u & w3 & E3 & E). apply asserting_ok in E3 as [_ E3].
  inversion E3; subst u w3. clear E3.
  apply run_bind_ok in E as (u & w3 & E3 & E). inversion E3; subst u w3. clear E3.
  apply Hk in E; [| done]. rewrite E. apply (Hbody _ _ _ _ eq_refl) in E2.
  clear -E2 Hw. unfold settings, cursor in *. cbn in *. congruence.
Qed.

Lemma kept_execute_instr b f pc : (∀ b pc, kept b (f pc)) → kept b (execute_instr f pc : run next).
Proof.
  intros Hf. unfold execute_instr. apply kept_bind; [solve_kept | intros _].
  apply kept_bind; [solve_kept | intros [[] |]];
    try (apply kept_falls); try solve [solve_kept].
  all: try (apply kept_on_core; intros; apply ekeeps_stack).
  - apply kept_look. intros w Hw. subst b. cbn zeta. apply kept_reset_linear; [done | solve_kept].
  - do 8 (apply kept_bind; [solve_kept | intros ?]).
    apply kept_bind; [by apply kept_execute_iter | intros ?]. solve_kept.
Qed.

Lemma kept_execute fuel : ∀ b pc, kept b (execute fuel pc : run return_type).
Proof.
  induction fuel as [| fuel IH]; intros b pc; cbn [Interp.execute]; [solve_kept |].
  apply kept_bind; [by apply kept_execute_instr | intros [r | pc']]; [solve_kept | apply IH].
Qed.


(** C11: a call of [execute] that returns leaves the settings of its run as they were:
    the current tuple, its leaf and its place in the queue, whether the run is linear,
    the node, the count, the modes of the run and its level; and the lists the rule
    engine works from, the local tuples and the rules that are marked and queued.  The
    ITERATE and RESET LINEAR around the calls restore what they change. *)
Theorem execute_restores (fuel : nat) (pc : pcounter) (w w' : world) (r : return_type)
    (Hrun : execute fuel pc w = Ok (r, w')) :
  (cur_tuple (core w') = cur_tuple (core w) ∧ Exec.tuple_leaf (core w') = Exec.tuple_leaf (core w) ∧
   tuple_queue (core w') = tuple_queue (core w)) ∧
  (run_linear w' = run_linear w ∧ cur_node w' = cur_node w ∧ run_count w' = run_count w ∧
   use_local_tuples w' = use_local_tuples w ∧ persistent_only w' = persistent_only w ∧
   current_level w' = current_level w) ∧
  (local_tuples w' = local_tuples w ∧ marked_rules w' = marked_rules w ∧ rule_queue w' = rule_queue w).
Proof.
  pose proof (kept_execute fuel _ pc w r w' eq_refl Hrun) as E.
  unfold settings, cursor in E. injection E. intros. by split_and!.
Qed.

(** ** Fuel *)

(** what [m1] returns [m2] returns *)
Definition refines {A} (m1 m2 : run A) : Prop := ∀ w r, m1 w = Ok r → m2 w = Ok r.

Lemma refines_refl {A} (m : run A) : refines m m.
Proof. by intros w r. Qed.

Lemma refines_bind {A B} (m1 m2 : run A) (k1 k2 : A → run B) :
  refines m1 m2 → (∀ a, refines (k1 a) (k2 a)) → refines (run_bind m1 k1) (run_bind m2 k2).
Proof.
  intros Hm Hk w [b w'] H1. apply run_bind_ok in H1 as (a & w1 & H1 & H2).
  apply run_bind_ok. exists a, w1. split; [by apply Hm | by apply Hk].
Qed.

Lemma refines_fails {A} f (m : run A) : refines (fails f) m.
Proof. by intros w r. Qed.

Ltac same := apply refines_refl.

Ltac solve_refines :=
  repeat first
    [ assumption
    | apply refines_refl
    | apply refines_bind; [| intros ?]
    | match goal with |- refines (match ?x with _ => _ end) _ => destruct x end ].

Section BodyFuel.
Context (body1 body2 : run return_type) (Hbody : refines body1 body2).

Lemma refines_with_tuple t l q this old :
  refines (with_tuple t l q this old body1) (with_tuple t l q this old body2).
Proof using Hbody. unfold with_tuple. apply refines_bind; [same | intros w]. cbn zeta. solve_refines. Qed.

Lemma refines_try_all {A} (f g : A → run (option return_type)) xs :
  (∀ x, refines (f x) (g x)) → refines (try_all f xs) (try_all g xs).
Proof using.
  intros Hf. induction xs as [| x xs IH]; cbn [try_all]; [apply refines_refl |].
  apply refines_bind; [apply Hf | intros [r |]]; [apply refines_refl | done].
Qed.

Lemma refines_try_leaf this old leaf :
  refines (try_leaf this old body1 leaf) (try_leaf this old body2 leaf).
Proof using Hbody. unfold try_leaf. solve_refines. Qed.
Lemma refines_try_sorted d this old s :
  refines (try_sorted d this old body1 s) (try_sorted d this old body2 s).
Proof using Hbody. unfold try_sorted. solve_refines. Qed.
Lemma refines_try_stuple d this old s :
  refines (try_stuple d this old body1 s) (try_stuple d this old body2 s).
Proof using Hbody.
  unfold try_stuple. apply refines_bind; [same | intros ?]. cbn zeta. solve_refines.
Qed.
Lemma refines_try_queued pc d this old s :
  refines (try_queued vp pc d this old body1 s) (try_queued vp pc d this old body2 s).
Proof using Hbody. unfold try_queued. solve_refines. Qed.
Lemma refines_try_local p pc d this old s :
  refines (try_local vp p pc d this old body1 s) (try_local vp p pc d this old body2 s).
Proof using Hbody. unfold try_local. solve_refines. Qed.

Lemma refines_execute_iter pc o a leaves p :
  refines (execute_iter vp rand pc o a body1 leaves p) (execute_iter vp rand pc o a body2 leaves p).
Proof using Hbody.
  unfold execute_iter, iter_min, returns. apply refines_bind; [same | intros w]. cbn zeta.
  apply refines_bind; [same | intros _]. destruct (_ && _ && _).
  - do 5 (apply refines_bind; [same | intros ?]). apply refines_bind; [| intros; same].
    apply refines_try_all. intros []; [apply refines_try_leaf | apply refines_try_sorted ..].
  - apply refines_bind; [same | intros ls]. apply refines_bind.
    { apply refines_try_all. intros. apply refines_try_leaf. }
    intros [r |]; [same |]. apply refines_bind.
    { solve_refines. apply refines_try_all. intros. apply refines_try_queued. }
    intros [r |]; [same |]. apply refines_bind; [| intros; same].
    solve_refines. apply refines_try_all. intros. apply refines_try_local.
Qed.
End BodyFuel.

Lemma refines_execute_instr f1 f2 pc :
  (∀ pc, refines (f1 pc) (f2 pc)) → refines (execute_instr f1 pc) (execute_instr f2 pc).
Proof.
  intros Hf. unfold execute_instr.
  apply refines_bind; [same | intros _]. apply refines_bind; [same | intros i].
  destruct i as [[] |]; try match goal with |- refines ?m ?m => apply refines_refl end.
  - apply refines_bind; [same | intros ?]. apply refines_bind; [same | intros ?].
    apply refines_bind; [apply Hf | intros ?]. same.
  - do 8 (apply refines_bind; [same | intros ?]).
    apply refines_bind; [by apply refines_execute_iter | intros; same].
Qed.

Lemma refines_execute n : ∀ m, (n <= m)%nat → ∀ pc, refines (execute n pc) (execute m pc).
Proof.
  induction n as [| n IH]; intros m Hle pc; [apply refines_fails |].
  destruct m as [| m]; [lia |]. cbn [Interp.execute]. apply refines_bind.
  - apply refines_execute_instr. intros. apply IH. lia.
  - intros [r | pc']; [apply refines_refl |]. apply IH. lia.
Qed.

(** fuel only decides whether a run of the byte code ends.  What [execute] returns
    with some fuel, the result and every part of the state, it returns with more. *)
Theorem execute_fuel (n m : nat) (pc : pcounter) (w w' : world) (r : return_type)
    (Hle : (n <= m)%nat) (Hrun : execute n pc w = Ok (r, w')) :
  execute m pc w = Ok (r, w').
Proof. by apply (refines_execute n m Hle). Qed.

End Frame.

(** ** On the sample program *)

Lemma execute_restores_witness :
  sample_execute 20 1 sample_start = Ok (RETURN_LINEAR, sample_end) ∧
  local_tuples sample_end = [1] ∧ run_linear sample_end = false.
Proof.
  pose proof (proj1 sample_executes) as H. split; [exact H |].
  destruct (execute_restores sample_vm one_machine no_library [] no_rand id id id 20 1
              sample_start sample_end RETURN_LINEAR H) as (_ & (Hl & _) & Ht & _).
  split; [rewrite Ht; reflexivity | rewrite Hl; reflexivity].
Defined.

Lemma execute_fuel_witness : sample_execute 50 1 sample_start = Ok (RETURN_LINEAR, sample_end).
Proof.
  apply (execute_fuel sample_vm one_machine no_library [] no_rand id id id 20 50 1
           sample_start sample_end RETURN_LINEAR); [lia | exact (proj1 sample_executes)].
Defined.
