(* ===== verification/RuleEngine.v ===== *)
(** The rule engine of a node: [vm/state.cpp].  [run_node] takes the tuples that
    wait at a node, processes the persistent ones to a fixed point and runs the
    rules that may fire, in the order of their ids. *)

From Stdlib Require Import ZArith Lia Bool SpecFloat.
From stdpp Require Import base tactics list numbers option gmap sorting strings.
From S2P Require Import Prelude Words Types Instr RuntimeList Tuple SimpleTuple Trie TupleTrie Match.
From S2P Require Import TrieLookup Aggregate Heap Pqueues RuleMatcher Node Exec Externals Router.
From S2P Require Import World Interp.

#[local] Open Scope Z_scope.
#[local] Open Scope meld_scope.

Section Engine.
Context {Sched G : Type} `{scheduler Sched} (vp : vm_program) (rt : router).
Context (lib : c_library G) (added : list (external_function (G:=G))).
Context (rand : Z → G → Z * G).
Context (hash_int hash_uint hash_float : Z → Z).
(** for the byte code that one call runs, and for the loops of one [run_node] *)
Context (fuel rounds : nat).

Abbreviation world := (World.world Sched G).
Abbreviation run := (World.run Sched G).
Abbreviation execute_bytecode :=
  (Interp.execute_bytecode vp rt lib added rand hash_int hash_uint hash_float fuel).
Abbreviation execute_rule :=
  (Interp.execute_rule vp rt lib added rand hash_int hash_uint hash_float fuel).
Abbreviation add_fact := (add_fact_to_node hash_int hash_uint hash_float).

(** ** Which rules to run *)

(** [check_if_rule_predicate_activated] *)
Definition check_if_rule_predicate_activated (marks : list bool) (r : rule) : res bool :=
  (fix go (ids : list nat) : res bool :=
     match ids with
     | [] => Ok false
     | i :: ids => let* b := of_option (marks !! i) in if (b : bool) then Ok true else go ids
     end) (rule_predicates r).

(** a std::set, in its order *)
Definition in_order (rs : gset nat) : list nat := merge_sort le (elements rs).

(** [pr.int_priority = (int)rid]: the rest of the union is not set *)
Definition rule_priority (r : nat) : heap_priority := wrap 32 (Z.of_nat r).

Definition set_rule (r : nat) (b : bool) (q : list (heap_queue.heap_object (T:=Z))) : run unit :=
  change (λ w, set_rule_queue q (set_marked_rules (<[r := b]> (marked_rules w)) w)).

(** the loop over the active rules of the matcher *)
Definition mark_active_rule (r : nat) : run unit :=
  run! w := look id in
  run! marked := pure_run (of_option (marked_rules w !! r)) in
  if (marked : bool) then done ()
  else
    run! ru := pure_run (of_option (program_rules vp !! r)) in
    run! b := pure_run (check_if_rule_predicate_activated (marked_predicates w) ru) in
    if (b : bool) then
      set_rule r true (heap_queue.insert HEAP_INT_ASC (Z.of_nat r) (rule_priority r) (rule_queue w))
    else done ().

(** the loop over the dropped rules *)
Definition unmark_dropped_rule (r : nat) : run unit :=
  run! w := look id in
  run! marked := pure_run (of_option (marked_rules w !! r)) in
  if (marked : bool) then
    run! q := pure_run (heap_queue.remove HEAP_INT_ASC (Z.of_nat r) (rule_priority r) (rule_queue w)) in
    set_rule r false q
  else done ().

Definition mark_active_rules : run unit :=
  run! nd := this_node in
  run_each mark_active_rule (in_order (active_rules (matcher nd))) ;;;
  run_each unmark_dropped_rule (in_order (dropped_rules (matcher nd))).

(** [start_matching] *)
Definition start_matching : run unit :=
  change (λ w, set_marked_predicates (replicate (length (marked_predicates w)) false) w).

(** ** One tuple *)

(** [state::setup] *)
Definition setup (tpl : Z) (n : Z) : run unit :=
  run! lin := (if tpl =? 0 then done false
               else run! t := tuple_at tpl in done (Types.is_linear (pred t))) in
  run! w := look id in
  must (match used_linear_tuples w with [] => true | _ => false end) ;;;
  change (λ w,
    let c := set_saved (replicate NUM_REGS false) (replicate NUM_REGS 0) (replicate NUM_REGS 0) (core w) in
    set_core (set_cur tpl 0 (tuple_queue c) c)
      (set_used_linear_tuples [] (set_run_linear lin (set_run_count n (set_use_local_tuples false w))))).

(** the byte code of a persistent tuple's predicate *)
Definition run_predicate (tpl n : Z) : run unit :=
  setup tpl n ;;;
  change (λ w, set_persistent_only true (set_use_local_tuples false w)) ;;;
  run! t := tuple_at tpl in
  run! code := pure_run (of_option (predicate_bytecode vp !! Z.to_nat (pred_id (pred t)))) in
  run! _ := execute_bytecode code in done ().

(** a counted tuple a component made by value becomes an object *)
Definition new_object (s : simple_tuple) : run Z :=
  run! t := alloc_tuple (data s) in
  alloc_stuple (mk_stuple t (count s) (to_delete s) (generated_this_run s) true).

Fixpoint push_aggregates (ss : list simple_tuple) : run unit :=
  match ss with
  | [] => done ()
  | s :: ss => run! a := new_object s in push_generated_persistent a ;;; push_aggregates ss
  end.

(** [agg->generate] on the group of the tuple, which was just added to *)
Definition generate_group (m : memory) (tpl : tuple) (nd : node)
  : res (memory * (node * list simple_tuple)) :=
  let i := pred_id (pred tpl) in
  let* a := of_option (aggs nd !! i) in
  let* info := aggregate_of (pred tpl) in
  let* r := find_configuration hash_int hash_uint hash_float m tpl (Z.to_nat (agg_field info)) (groups a) in
  let '(t, l) := r in
  let* leaf := of_option (leaf_store t !! l) in
  let* conf := of_option leaf in
  let* r := generate m (agg_type info) (Z.to_nat (agg_field info)) conf [] in
  let '(m, conf, out) := r in
  Ok (m, (set_agg i (mk_tuple_aggregate (agg_pred a) (set_conf l conf t)) nd, out)).

(** the aggregate keeps the tuple by value *)
Definition add_to_aggregate (stpl : Z) : run unit :=
  run! s := stuple_at stpl in
  run! tpl := tuple_at (get_tuple s) in
  run! nd := this_node in
  let n := st_count s in
  run! nd := on_memory (λ m,
    if n <? 0 then remove_agg_tuple hash_int hash_uint hash_float m tpl (swrap 16 (- n)) nd
    else add_agg_tuple hash_int hash_uint hash_float m tpl n nd) in
  run! r := on_memory (λ m, generate_group m tpl nd) in
  put_this_node r.1 ;;;
  push_aggregates r.2.

Definition process_persistent_tuple (stpl : Z) : run unit :=
  run! s := stuple_at stpl in
  let tpl := get_tuple s in
  let n := st_count s in
  run! t := tuple_at tpl in
  let p := pred t in
  if 0 <? n then
    run! is_new := add_fact tpl 1 in
    (if (is_new : bool) then run_predicate tpl n else done ()) ;;;
    register vp p n is_new ;;;
    (if (is_new : bool) then mark_predicate_to_run p else delete_tuple_at tpl) ;;;
    delete_stuple stpl
  else if is_reused p then run_predicate tpl n ;;; delete_stuple stpl
  else
    run! nd := this_node in
    run! m := look (λ w, mem (core w)) in
    run! r := pure_run (Node.delete_tuple hash_int hash_uint hash_float m t (swrap 16 (- n)) nd) in
    put_this_node r.1 ;;;
    deregister vp p n ;;;
    if to_del r.2 then
      run_predicate tpl n ;;;
      on_storage p (λ m nd, commit_delete_info m p r.2 nd)
    else delete_tuple_at tpl.

(** ** The persistent tuples *)

(** the first element of a list that passes the test, and the list without it *)
Fixpoint take_first_such (f : Z → run bool) (ls : list Z) : run (option (Z * list Z)) :=
  match ls with
  | [] => done None
  | x :: ls =>
      run! b := f x in
      if (b : bool) then done (Some (x, ls))
      else
        run! r := take_first_such f ls in
        done (match r with Some (y, rest) => Some (y, x :: rest) | None => None end)
  end.

(** the three [search_for_negative_tuple]: a deletion of the same tuple, of the same
    kind, is taken out of the list *)
Definition search_for_negative_tuple (stpl : Z) : run (option Z) :=
  run! s := stuple_at stpl in
  run! t := tuple_at (get_tuple s) in
  let agg := Types.is_aggregate (pred t) in
  must (agg || negb (st_aggregate s)) ;;;
  run! w := look id in
  run! r := take_first_such (λ q,
    run! s2 := stuple_at q in
    run! t2 := tuple_at (get_tuple s2) in
    if Bool.eqb (Types.is_aggregate (pred t2)) agg
       && (negb agg || Bool.eqb (st_aggregate s2) (st_aggregate s))
       && (st_count s2 =? -1)
    then run! m := look (λ w, mem (core w)) in pure_run (tuple_eqb m t2 t)
    else done false) (generated_persistent_tuples w) in
  match r with
  | Some (q, rest) => change (set_generated_persistent_tuples rest) ;;; done (Some q)
  | None => done None
  end.

(** [tuple_for_assertion] *)
Definition tuple_for_assertion (p : predicate) (s : stuple) : bool :=
  (Types.is_aggregate p && st_aggregate s) || negb (Types.is_aggregate p).

Definition check_instruction_limit (w : world) : bool :=
  sim_instr_use w && (sim_instr_limit w <=? sim_instr_counter w).

(** a persistent tuple and its deletion cancel out; false when the instructions of
    the simulator are used up *)
Fixpoint persistent_loop (n : nat) : run bool :=
  match n with
  | O => fails undefined_behaviour
  | S n =>
      run! w := look id in
      match generated_persistent_tuples w with
      | [] => done true
      | stpl :: rest =>
          if check_instruction_limit w then done false
          else
            run! s := stuple_at stpl in
            change (set_generated_persistent_tuples rest) ;;;
            run! p := stuple_pred stpl in
            run! cancelled :=
              (if is_persistent_pred p && (st_count s =? 1) then
                 run! r := search_for_negative_tuple stpl in
                 match r with
                 | Some q => must (negb (Types.is_aggregate p) || negb (q =? stpl)) ;;; done true
                 | None => done false
                 end
               else done false) in
            (if (cancelled : bool) then done ()
             else if tuple_for_assertion p s then process_persistent_tuple stpl
             else add_to_aggregate stpl) ;;;
            persistent_loop n
      end
  end.

Fixpoint delete_leaves (ls : list (predicate * Z)) : run unit :=
  match ls with
  | [] => done ()
  | (p, leaf) :: ls => delete_leaf_at p leaf ;;; delete_leaves ls
  end.

Definition do_persistent_tuples : run bool :=
  run! b := persistent_loop rounds in
  if (b : bool) then
    run! w := look id in
    change (set_leaves_for_deletion []) ;;;
    delete_leaves (leaves_for_deletion w) ;;;
    done true
  else done false.

(** ** The tuples a run begins with *)

(** the loop of [mark_rules_using_local_tuples]: the tuples that stay *)
Fixpoint sort_local_tuples (ls : list Z) : run (list Z) :=
  match ls with
  | [] => done []
  | stpl :: ls =>
      run! s := stuple_at stpl in
      run! p := stuple_pred stpl in
      if negb (st_can_be_consumed s) then
        delete_tuple_at (get_tuple s) ;;; delete_stuple stpl ;;; sort_local_tuples ls
      else if is_action p then
        run! nd := running_node in
        run_action nd (get_tuple s) false ;;; delete_stuple stpl ;;; sort_local_tuples ls
      else if is_persistent_pred p || is_reused p then
        push_generated_persistent stpl ;;; sort_local_tuples ls
      else
        register vp p (st_count s) true ;;;
        mark_predicate_to_run p ;;;
        run! rest := sort_local_tuples ls in
        done (stpl :: rest)
  end.

(** the level of the first tuple; without one it is not set *)
Definition mark_rules_using_local_tuples : run unit :=
  run! w := look id in
  match local_tuples w with
  | [] => fails undefined_behaviour
  | stpl :: _ =>
      run! p := stuple_pred stpl in
      run! ls := sort_local_tuples (local_tuples w) in
      change (λ w, set_current_level (pred_level p) (set_local_tuples ls w))
  end.

(** [process_consumed_local_tuples] *)
Fixpoint sweep_consumed (ls : list Z) : run (list Z) :=
  match ls with
  | [] => done []
  | stpl :: ls =>
      run! s := stuple_at stpl in
      if st_can_be_consumed s then
        run! rest := sweep_consumed ls in done (stpl :: rest)
      else
        run! p := stuple_pred stpl in
        deregister vp p (st_count s) ;;;
        delete_tuple_at (get_tuple s) ;;; delete_stuple stpl ;;;
        sweep_consumed ls
  end.

Definition process_consumed_local_tuples : run unit :=
  run! w := look id in
  run! ls := sweep_consumed (local_tuples w) in
  change (set_local_tuples ls).

Definition process_others : run unit :=
  run! nd := running_node in
  run! w := look id in
  run_each (λ s, route_self nd s 0) (generated_other_level w) ;;;
  change (set_generated_other_level []).

(** ** [run_node] *)

(** [rule_queue.pop()], with its flag *)
Definition next_rule : run nat :=
  run! w := look id in
  run! r := pure_run (heap_queue.pop HEAP_INT_ASC (rule_queue w)) in
  set_rule (Z.to_nat r.1) false r.2 ;;;
  done (Z.to_nat r.1).

(** new tuples of the simulator's node *)
Definition gather_new_tuples : run unit :=
  run! w := look id in
  if sim_instr_use w && negb (check_instruction_limit w) then
    run! nd := running_node in
    run! r := pure_run (get_tuples_until_timestamp nd (sim_instr_limit w) (sched w)) in
    change (λ w, set_sched r.2 (set_local_tuples (local_tuples w ++ r.1) w))
  else done ().

(** one rule, up to the persistent tuples it made *)
Definition run_rule : run bool :=
  run! r := next_rule in
  run! nd := this_node in
  put_this_node (set_matcher (clear_dropped_rules (matcher nd)) nd) ;;;
  start_matching ;;;
  setup 0 1 ;;;
  change (λ w, set_persistent_only false (set_use_local_tuples true w)) ;;;
  execute_rule r ;;;
  process_consumed_local_tuples ;;;
  gather_new_tuples ;;;
  change (λ w, set_generated_tuples [] (set_local_tuples (local_tuples w ++ generated_tuples w) w)) ;;;
  run! b := do_persistent_tuples in
  if (b : bool) then mark_active_rules ;;; done true else done false.

(** the loop over the rules: whether the run was aborted *)
Fixpoint rules_loop (n : nat) : run bool :=
  match n with
  | O => fails undefined_behaviour
  | S n =>
      run! w := look id in
      if heap_queue.empty (rule_queue w) || check_instruction_limit w then done false
      else
        run! b := run_rule in
        if (b : bool) then rules_loop n else done true
  end.

(** a tuple that is left goes to the database, or back to the simulator's node *)
Definition store_local_tuple (aborted : bool) (stpl : Z) : run unit :=
  run! s := stuple_at stpl in
  if st_can_be_consumed s then
    if aborted then run! nd := running_node in on_sched (push_pending nd stpl)
    else run! _ := add_fact (get_tuple s) 1 in delete_stuple stpl
  else wipeout_stuple stpl.

Definition run_node (nd : Z) : run unit :=
  change (set_cur_node (Some nd)) ;;;
  run! w := look id in
  must (match local_tuples w with [] => true | _ => false end) ;;;
  run! r := pure_run (gather_next_tuples nd (sched w)) in
  change (λ w, set_sched r.2 (set_local_tuples r.1 w)) ;;;
  start_matching ;;;
  mark_rules_using_local_tuples ;;;
  run! b := do_persistent_tuples in
  run! aborted := (if (b : bool) then mark_active_rules ;;; rules_loop rounds else done true) in
  run! w := look id in
  run_each (store_local_tuple aborted) (local_tuples w) ;;;
  change (λ w, set_rule_queue [] (set_local_tuples [] w)) ;;;
  process_others ;;;
  run! w := look id in
  run_each (λ s, must aborted ;;; on_sched (push_pending nd s)) (generated_persistent_tuples w) ;;;
  change (set_generated_persistent_tuples []) ;;;
  change (λ w, if sim_instr_use w && (sim_instr_counter w <? sim_instr_limit w)
               then set_sim_instr_counter (wrap 64 (sim_instr_counter w + 1)) w else w).

(** [machine::execute_const_code]: a state of its own, without scheduler and node *)
Definition execute_const_code : run unit :=
  change (set_cur_node None) ;;;
  setup 0 0 ;;;
  run! _ := execute_bytecode (const_bytecode vp) in done ().

End Engine.
