(* ===== verification/RuleMarks.v ===== *)
(** The bookkeeping of the rule engine: the flags of the rules and the queue they are
    taken from. *)

From Stdlib Require Import ZArith Lia Bool SpecFloat.
From stdpp Require Import base tactics list numbers option gmap sorting strings.
From S2P Require Import Prelude Words Types Instr RuntimeList Tuple SimpleTuple Trie TupleTrie Match.
From S2P Require Import TrieLookup Aggregate Heap Pqueues RuleMatcher Node Exec Externals Router.
From S2P Require Import World Serial Interp Sample Frame RuleEngine.

#[local] Open Scope Z_scope.
#[local] Open Scope meld_scope.

(** ** Flags and queue *)

Section Marks.
Context {Sched G : Type} `{scheduler Sched} (vp : vm_program).
Abbreviation world := (World.world Sched G).
Abbreviation run := (World.run Sched G).
Implicit Types (w : world).

Definition flagged (w : world) (r : nat) : Prop := marked_rules w !! r = Some true.
Definition queued (w : world) : list nat :=
  (λ e : Z * heap_priority, Z.to_nat e.1) <$> heap_queue.entries (rule_queue w).

(** the flagged rules are those in the queue, each once, with its id as priority *)
Record rules_inv (w : world) : Prop := {
  flags_queued : ∀ r, flagged w r ↔ r ∈ queued w;
  queued_once : NoDup (queued w);
  queued_prio : Forall (λ e : Z * heap_priority, e = (Z.of_nat (Z.to_nat e.1), rule_priority (Z.to_nat e.1)))
                  (heap_queue.entries (rule_queue w))
}.

(** every rule has a predicate with a new tuple, or not *)
Definition activated (w : world) (r : nat) : Prop :=
  ∃ ru i, program_rules vp !! r = Some ru ∧ i ∈ rule_predicates ru ∧ marked_predicates w !! i = Some true.

Lemma check_activated_ok (marks : list bool) ids b :
  (fix go (ids : list nat) : res bool :=
     match ids with
     | [] => Ok false
     | i :: ids => let* b := of_option (marks !! i) in if (b : bool) then Ok true else go ids
     end) ids = Ok b →
  b = true ↔ ∃ i, i ∈ ids ∧ marks !! i = Some true.
Proof.
  induction ids as [| i ids IH]; intros E.
  - injection E as <-. split; [done |]. intros (? & ?%not_elem_of_nil & _). done.
  - apply res_bind_ok in E as (c & Hc%of_option_ok & E). destruct c.
    + injection E as <-. split; [| done]. intros _. exists i. split; [| done]. apply elem_of_cons. by left.
    + rewrite (IH E). split.
      * intros (k & Hk & ?). exists k. split; [| done]. apply elem_of_cons. by right.
      * intros (k & [-> | Hk]%elem_of_cons & Hm); [congruence |]. by exists k.
Qed.

Lemma set_rule_ok r b q w u w' :
  set_rule r b q w = Ok (u, w') →
  w' = set_rule_queue q (set_marked_rules (<[r := b]> (marked_rules w)) w).
Proof. unfold set_rule, change. by intros [=]. Qed.

Lemma flag_insert w r b (w' : world) r' :
  marked_rules w' = <[r := b]> (marked_rules w) → (r < length (marked_rules w))%nat →
  flagged w' r' ↔ if decide (r' = r) then b = true else flagged w r'.
Proof.
  intros E Hr. unfold flagged. rewrite E. destruct (decide (r' = r)) as [-> | Hne].
  - rewrite list_lookup_insert_eq by done. naive_solver.
  - by rewrite list_lookup_insert_ne.
Qed.

(** the queue gains a rule that is not flagged *)
Lemma inv_insert w r (w' : world) :
  rules_inv w → marked_rules w !! r = Some false →
  marked_rules w' = <[r := true]> (marked_rules w) →
  rule_queue w' = heap_queue.insert HEAP_INT_ASC (Z.of_nat r) (rule_priority r) (rule_queue w) →
  rules_inv w' ∧ (∀ r', flagged w' r' ↔ r' = r ∨ flagged w r').
Proof.
  intros [Hf Hn Hp] Hr Em Eq.
  assert (Hq : queued w' ≡ₚ r :: queued w).
  { unfold queued. rewrite Eq, heap_queue.entries_insert. cbn. by rewrite Nat2Z.id. }
  assert (Hl : (r < length (marked_rules w))%nat) by by eapply lookup_lt_Some.
  assert (Hfl : ∀ r', flagged w' r' ↔ r' = r ∨ flagged w r').
  { intros r'. rewrite (flag_insert _ _ _ _ r' Em Hl). destruct (decide (r' = r)); naive_solver. }
  assert (Hnq : r ∉ queued w) by (rewrite <- Hf; unfold flagged; congruence).
  split; [| done]. split.
  - intros r'. by rewrite Hfl, Hq, elem_of_cons, Hf.
  - rewrite Hq. by apply NoDup_cons.
  - rewrite Eq, heap_queue.entries_insert. constructor; [| done]. cbn. by rewrite Nat2Z.id.
Qed.

(** the queue loses the entry of a rule *)
Lemma inv_delete w r x v (w' : world) :
  rules_inv w → marked_rules w' = <[r := false]> (marked_rules w) → Z.to_nat x = r →
  heap_queue.entries (rule_queue w) ≡ₚ (x, v) :: heap_queue.entries (rule_queue w') →
  flagged w r ∧ rules_inv w' ∧ (∀ r', flagged w' r' ↔ r' ≠ r ∧ flagged w r').
Proof.
  intros [Hf Hn Hp] Em Hx Eq.
  assert (Hq : queued w ≡ₚ r :: queued w') by (unfold queued; rewrite Eq; cbn; by rewrite Hx).
  assert (Hr : flagged w r) by (apply Hf; rewrite Hq; apply elem_of_cons; by left).
  assert (Hl : (r < length (marked_rules w))%nat) by by eapply lookup_lt_Some.
  assert (Hfl : ∀ r', flagged w' r' ↔ r' ≠ r ∧ flagged w r').
  { intros r'. rewrite (flag_insert _ _ _ _ r' Em Hl). destruct (decide (r' = r)); naive_solver. }
  rewrite Hq in Hn. apply NoDup_cons in Hn as [Hni Hn].
  split; [done |]. split; [| done]. split; [| done |].
  - intros r'. rewrite Hfl, Hf, Hq, elem_of_cons. split; [naive_solver |]. intros Hin. split; [| by right].
    intros ->. done.
  - rewrite Eq in Hp. by apply Forall_cons in Hp as [_ ?].
Qed.

(** *** The steps *)

Lemma mark_active_rule_ok w r u w' :
  rules_inv w → mark_active_rule vp r w = Ok (u, w') →
  rules_inv w' ∧ (∀ r', flagged w' r' ↔ flagged w r' ∨ (r' = r ∧ activated w r)) ∧
  marked_predicates w' = marked_predicates w ∧ dbase w' = dbase w ∧ cur_node w' = cur_node w.
Proof.
  intros Hi E. unfold mark_active_rule in E.
  apply run_bind_ok in E as (w0 & w1 & E0 & E). injection E0 as <- <-.
  apply run_bind_ok in E as (b & w1 & E0 & E).
  apply res_bind_ok in E0 as (b' & Hb%of_option_ok & E0). injection E0 as -> <-.
  destruct b.
  { injection E as <- <-. split; [done |]. split; [| done]. intros r'. split; [by left |].
    intros [? | [-> _]]; [done | exact Hb]. }
  apply run_bind_ok in E as (ru & w1 & E0 & E).
  apply res_bind_ok in E0 as (ru' & Hru%of_option_ok & E0). injection E0 as -> <-.
  apply run_bind_ok in E as (b & w1 & E0 & E).
  apply res_bind_ok in E0 as (b' & Hc & E0). injection E0 as -> <-.
  apply check_activated_ok in Hc.
  assert (Ha : activated w r ↔ b = true).
  { rewrite Hc. unfold activated. split.
    - intros (ru' & i & Hru' & Hi1 & Hi2). exists i. split; [congruence | done].
    - intros (i & Hi1 & Hi2). by exists ru, i. }
  destruct b.
  - apply set_rule_ok in E as ->.
    destruct (inv_insert w r (set_rule_queue (heap_queue.insert HEAP_INT_ASC (Z.of_nat r)
      (rule_priority r) (rule_queue w)) (set_marked_rules (<[r:=true]> (marked_rules w)) w))
      Hi Hb eq_refl eq_refl) as [H1 H2].
    split; [done |]. split; [| done]. intros r'. rewrite H2. tauto.
  - injection E as <- <-. split; [done |]. split; [| done]. intros r'. split; [by left |].
    intros [? | [_ ?%Ha]]; done.
Qed.

Lemma unmark_dropped_rule_ok w r u w' :
  rules_inv w → unmark_dropped_rule r w = Ok (u, w') →
  rules_inv w' ∧ (∀ r', flagged w' r' ↔ r' ≠ r ∧ flagged w r').
Proof.
  intros Hi E. unfold unmark_dropped_rule in E.
  apply run_bind_ok in E as (w0 & w1 & E0 & E). injection E0 as <- <-.
  apply run_bind_ok in E as (b & w1 & E0 & E).
  apply res_bind_ok in E0 as (b' & Hb%of_option_ok & E0). injection E0 as -> <-.
  destruct b.
  - apply run_bind_ok in E as (q & w1 & E0 & E).
    apply res_bind_ok in E0 as (q' & Hq & E0). injection E0 as -> <-.
    apply set_rule_ok in E as ->. apply heap_queue.remove_loop_entries in Hq as (v & Hv).
    match goal with |- rules_inv ?w' ∧ _ =>
      by destruct (inv_delete w r (Z.of_nat r) v w' Hi eq_refl (Nat2Z.id r) Hv) as (_ & ? & ?) end.
  - injection E as <- <-. split; [done |]. intros r'. split; [| tauto]. intros Hf. split; [| done].
    intros ->. unfold flagged in Hf. congruence.
Qed.

Lemma mark_each_ok rs : ∀ w u w',
  rules_inv w → run_each (mark_active_rule vp) rs w = Ok (u, w') →
  rules_inv w' ∧ (∀ r, flagged w' r ↔ flagged w r ∨ (r ∈ rs ∧ activated w r)).
Proof.
  induction rs as [| r rs IH]; intros w u w' Hi E; cbn [run_each] in E.
  - injection E as <- <-. split; [done |]. intros r. split; [by left |].
    intros [? | [?%not_elem_of_nil _]]; done.
  - apply run_bind_ok in E as (u0 & w1 & E1 & E).
    destruct (mark_active_rule_ok _ _ _ _ Hi E1) as (Hi1 & Hf1 & Hm1 & _).
    destruct (IH _ _ _ Hi1 E) as [Hi2 Hf2]. split; [done |]. intros r'.
    assert (activated w1 r' ↔ activated w r') as Ha by (unfold activated; by rewrite Hm1).
    rewrite Hf2, Hf1, Ha, elem_of_cons. naive_solver.
Qed.

Lemma unmark_each_ok rs : ∀ w u w',
  rules_inv w → run_each unmark_dropped_rule rs w = Ok (u, w') →
  rules_inv w' ∧ (∀ r, flagged w' r ↔ flagged w r ∧ r ∉ rs).
Proof.
  induction rs as [| r rs IH]; intros w u w' Hi E; cbn [run_each] in E.
  - injection E as <- <-. split; [done |]. intros r. split; [| tauto]. split; [done | apply not_elem_of_nil].
  - apply run_bind_ok in E as (u0 & w1 & E1 & E).
    destruct (unmark_dropped_rule_ok _ _ _ _ Hi E1) as (Hi1 & Hf1).
    destruct (IH _ _ _ Hi1 E) as [Hi2 Hf2]. split; [done |]. intros r'.
    rewrite Hf2, Hf1, not_elem_of_cons. tauto.
Qed.

Lemma in_order_elem rs r : r ∈ in_order rs ↔ r ∈ rs.
Proof.
  unfold in_order. rewrite merge_sort_Permutation. apply elem_of_elements.
Qed.

Lemma mark_active_rules_ok w u w' nd :
  rules_inv w → this_node w = Ok (nd, w) → mark_active_rules vp w = Ok (u, w') →
  rules_inv w' ∧
  ∀ r, flagged w' r ↔
    r ∉ dropped_rules (matcher nd) ∧
    (flagged w r ∨ (r ∈ active_rules (matcher nd) ∧ activated w r)).
Proof.
  intros Hi Hnd E. unfold mark_active_rules in E.
  apply run_bind_ok in E as (nd' & w0 & E0 & E). rewrite Hnd in E0. injection E0 as <- <-.
  apply run_bind_ok in E as (u0 & w1 & E1 & E).
  destruct (mark_each_ok _ _ _ _ Hi E1) as [Hi1 Hf1].
  destruct (unmark_each_ok _ _ _ _ Hi1 E) as [Hi2 Hf2]. split; [done |]. intros r.
  rewrite Hf2, Hf1, !in_order_elem. tauto.
Qed.

Lemma next_rule_ok w r w' :
  rules_inv w → next_rule w = Ok (r, w') →
  flagged w r ∧ rules_inv w' ∧ (∀ r', flagged w' r' ↔ r' ≠ r ∧ flagged w r').
Proof.
  intros Hi E. unfold next_rule in E.
  apply run_bind_ok in E as (w0 & w1 & E0 & E). injection E0 as <- <-.
  apply run_bind_ok in E as ([x q] & w1 & E0 & E).
  apply res_bind_ok in E0 as (p & Hq & E0). injection E0 as -> <-.
  apply run_bind_ok in E as (u & w1 & E0 & E). injection E as <- <-. cbn [fst snd] in *.
  apply set_rule_ok in E0 as ->. apply heap_queue.pop_entries in Hq as Hv.
  match goal with |- _ ∧ rules_inv ?w' ∧ _ => by apply (inv_delete w (Z.to_nat x) x _ w' Hi eq_refl eq_refl Hv) end.
Qed.

(** *** The order *)

Definition ordered (w : world) : Prop := heap_queue.wf HEAP_INT_ASC (rule_queue w).

Lemma ordered_empty w : rule_queue w = [] → ordered w.
Proof. unfold ordered. intros ->. split; intros k Hk; cbn in Hk; lia. Qed.

Lemma mark_active_rule_ordered w r u w' :
  mark_active_rule vp r w = Ok (u, w') → ordered w → ordered w'.
Proof.
  intros E Ho. unfold mark_active_rule in E.
  apply run_bind_ok in E as (w0 & w1 & E0 & E). injection E0 as <- <-.
  apply run_bind_ok in E as (b & w1 & E0 & E).
  apply res_bind_ok in E0 as (b' & _ & E0). injection E0 as -> <-.
  destruct b; [by injection E as <- <- |].
  apply run_bind_ok in E as (ru & w1 & E0 & E).
  apply res_bind_ok in E0 as (ru' & _ & E0). injection E0 as -> <-.
  apply run_bind_ok in E as (b & w1 & E0 & E).
  apply res_bind_ok in E0 as (b' & _ & E0). injection E0 as -> <-.
  destruct b; [| by injection E as <- <-].
  apply set_rule_ok in E as ->. by apply heap_queue.wf_insert.
Qed.

Lemma mark_each_ordered rs : ∀ w u w',
  run_each (mark_active_rule vp) rs w = Ok (u, w') → ordered w → ordered w'.
Proof.
  induction rs as [| r rs IH]; intros w u w' E Ho; cbn [run_each] in E; [by injection E as <- <- |].
  apply run_bind_ok in E as (u0 & w1 & E1 & E).
  eapply IH, mark_active_rule_ordered; eauto.
Qed.

(** the tables of the program are as long as its rules and predicates *)
Definition tables_fit (w : world) : Prop :=
  length (marked_rules w) = length (program_rules vp) ∧
  Forall (λ ru, Forall (λ i, (i < length (marked_predicates w))%nat) (rule_predicates ru)) (program_rules vp).

Lemma check_activated_total (marks : list bool) ids :
  Forall (λ i, (i < length marks)%nat) ids →
  ∃ b, (fix go (ids : list nat) : res bool :=
          match ids with
          | [] => Ok false
          | i :: ids => let* b := of_option (marks !! i) in if (b : bool) then Ok true else go ids
          end) ids = Ok b.
Proof.
  induction 1 as [| i ids [b Hb]%lookup_lt_is_Some _ IH]; [by eexists |].
  rewrite Hb. cbn. destruct b; [by eexists | done].
Qed.

Lemma mark_active_rule_total w r :
  tables_fit w → (r < length (program_rules vp))%nat →
  ∃ w', mark_active_rule vp r w = Ok ((), w') ∧ tables_fit w'.
Proof.
  intros [Hl Hp] Hr. unfold mark_active_rule, run_bind, look. cbn.
  destruct (lookup_lt_is_Some_2 (marked_rules w) r ltac:(lia)) as [b Hb].
  destruct (lookup_lt_is_Some_2 (program_rules vp) r Hr) as [ru Hru].
  unfold pure_run. rewrite Hb. cbn. destruct b; [by eexists |]. rewrite Hru. cbn.
  destruct (check_activated_total (marked_predicates w) (rule_predicates ru)) as [b Ha].
  { rewrite Forall_lookup in Hp. by eapply Hp. }
  unfold check_if_rule_predicate_activated. rewrite Ha. cbn. destruct b; [| by eexists].
  eexists. split; [done |]. split; [| done]. cbn. by rewrite length_insert.
Qed.

Lemma mark_each_total rs : ∀ w,
  tables_fit w → Forall (λ r, (r < length (program_rules vp))%nat) rs →
  ∃ w', run_each (mark_active_rule vp) rs w = Ok ((), w').
Proof.
  induction rs as [| r rs IH]; intros w Hw Hrs; cbn [run_each]; [by eexists |].
  apply Forall_cons in Hrs as [Hr Hrs].
  destruct (mark_active_rule_total w r Hw Hr) as (w1 & E1 & H1).
  destruct (IH w1 H1 Hrs) as (w2 & E2). exists w2. unfold run_bind. rewrite E1. cbn. exact E2.
Qed.

(** [mark_active_rules] keeps the flags of the rules equal to the contents of the
    rule queue, each rule once.  Afterwards a rule is to run exactly if it was to run or
    is active with a new tuple for one of its predicates, and is not among the
    dropped rules.  Without dropped rules it always returns, and a heap stays a heap. *)
Theorem mark_active_rules_spec (w : world) (nd : node) (Hinv : rules_inv w)
    (Hnode : this_node w = Ok (nd, w)) :
  (∀ u w', mark_active_rules vp w = Ok (u, w') →
     rules_inv w' ∧
     ∀ r, flagged w' r ↔
       r ∉ dropped_rules (matcher nd) ∧
       (flagged w r ∨ (r ∈ active_rules (matcher nd) ∧ activated w r))) ∧
  (dropped_rules (matcher nd) = ∅ → tables_fit w →
   (∀ r, r ∈ active_rules (matcher nd) → (r < length (program_rules vp))%nat) →
   ∃ w', mark_active_rules vp w = Ok ((), w') ∧ (ordered w → ordered w')).
Proof.
  split; [intros u w' E; by apply (mark_active_rules_ok w u) |].
  intros Hd Hfit Ha.
  destruct (mark_each_total (in_order (active_rules (matcher nd))) w Hfit) as [w1 E1].
  { apply Forall_lookup_2. intros i r Hr. by apply Ha, in_order_elem, (list_elem_of_lookup_2 _ i). }
  assert (in_order (dropped_rules (matcher nd)) = []) as Hn.
  { apply elem_of_nil_inv. intros r. rewrite in_order_elem, Hd. apply not_elem_of_empty. }
  exists w1. unfold mark_active_rules, run_bind. rewrite Hnode. cbn [res_bind fst snd].
  rewrite E1. cbn [res_bind fst snd]. rewrite Hn. split; [done |]. by apply (mark_each_ordered _ _ _ _ E1).
Qed.

(** while the queue is a heap, the next rule is the one of least id that is
    flagged, its flag is taken with it and the queue stays a heap. *)
Theorem next_rule_least (w : world) (Hinv : rules_inv w) (Hord : ordered w)
    (Hids : ∀ r, flagged w r → Z.of_nat r < 2 ^ 31) (Hne : rule_queue w ≠ []) :
  ∃ r w', next_rule w = Ok (r, w') ∧ flagged w r ∧ (∀ r', flagged w r' → (r <= r')%nat) ∧
    rules_inv w' ∧ ordered w' ∧ (∀ r', flagged w' r' ↔ r' ≠ r ∧ flagged w r').
Proof.
  destruct (heap_queue.pop_total HEAP_INT_ASC _ Hne) as (x & q & E).
  destruct (heap_queue.pop_ok _ _ _ _ Hord E) as [Hq He].
  set (w' := set_rule_queue q (set_marked_rules (<[Z.to_nat x := false]> (marked_rules w)) w)).
  assert (En : next_rule w = Ok (Z.to_nat x, w')).
  { unfold next_rule, run_bind, look, pure_run. cbn. by rewrite E. }
  exists (Z.to_nat x), w'. destruct (next_rule_ok _ _ _ Hinv En) as (Hf & Hi & Hfl).
  split; [done |]. split; [done |]. split; [| done].
  intros r' Hr'. pose proof (heap_queue.entries_root_min _ _ Hord) as Hmin.
  apply (flags_queued _ Hinv), list_elem_of_fmap in Hr' as Hr2. destruct Hr2 as (e & -> & Hin).
  pose proof (queued_prio _ Hinv) as Hp. rewrite Forall_forall in Hmin, Hp.
  assert (Hx : (x, heap_queue.get_val (rule_queue w) 0) ∈ heap_queue.entries (rule_queue w))
    by (rewrite He; apply elem_of_cons; by left).
  apply Hmin in Hin as Hc. apply Hp in Hin. apply Hp in Hx. cbn in Hx. injection Hx as _ Hx.
  rewrite Hx in Hc. rewrite Hin in Hc. cbn [snd] in Hc.
  apply Z.leb_le in Hc. unfold int_priority, rule_priority in Hc.
  rewrite !swrap_wrap in Hc by lia.
  pose proof (Hids _ Hf) as H1. pose proof (Hids _ (proj2 (flags_queued _ Hinv _) Hr')) as H2.
  rewrite !swrap_id in Hc by (try lia; change (2 ^ (32 - 1)) with (2 ^ 31); lia). lia.
Qed.

End Marks.

(** ** On concrete rules *)

(** six rules that may all fire *)
Definition six_rules : vm_program :=
  mk_vm_program sample_base (replicate 6 sample_rule) [seq 0 6; []] [] [] 0.

Abbreviation sample_world' := (World.world serial_local unit).

Definition six_world : sample_world' :=
  set_marked_predicates [true; false] (set_marked_rules (replicate 6 false) sample_world).

Definition mark_these (rs : list nat) : World.run serial_local unit unit :=
  run_each (mark_active_rule six_rules) rs.
Definition drop_these (rs : list nat) : World.run serial_local unit unit := run_each unmark_dropped_rule rs.

Lemma six_inv : rules_inv six_world.
Proof.
  split; [| constructor | constructor]. intros r. split; [| by intros ?%not_elem_of_nil].
  intros [? _]%lookup_replicate. done.
Qed.

(** a dropped rule may not be found in the queue it is in.  Rules 2 and 4 get active,
    then 1, 3 and 5, then 0; rule 4 is dropped, then 1 and 2: [rule_queue.remove] took
    rule 4 and rule 1 out of the middle of the heap without moving their replacements
    up, and the search for rule 2, which is flagged and queued, ends in its assertion. *)
Theorem dropped_rule_not_found :
  ∃ w u, (mark_these [2; 4]%nat ;;; mark_these [1; 3; 5]%nat ;;; mark_these [0]%nat ;;;
          drop_these [4]%nat ;;; drop_these [1]%nat) six_world = Ok (u, w) ∧
    rules_inv w ∧ flagged w 2 ∧ 2%nat ∈ queued w ∧ unmark_dropped_rule 2 w = Err assert_fail.
Proof.
  assert (E : ∃ w u, (mark_these [2; 4]%nat ;;; mark_these [1; 3; 5]%nat ;;; mark_these [0]%nat ;;;
                      drop_these [4]%nat ;;; drop_these [1]%nat) six_world = Ok (u, w) ∧
                     flagged w 2 ∧ unmark_dropped_rule 2 w = Err assert_fail).
  { eexists _, _. split; [vm_compute; reflexivity |]. split; vm_compute; reflexivity. }
  destruct E as (w & u & E & Hf & Hu). exists w, u. split; [exact E |].
  assert (Hi : rules_inv w).
  { apply run_bind_ok in E as (u1 & w1 & E1 & E). apply run_bind_ok in E as (u2 & w2 & E2 & E).
    apply run_bind_ok in E as (u3 & w3 & E3 & E). apply run_bind_ok in E as (u4 & w4 & E4 & E5).
    pose proof (proj1 (mark_each_ok _ _ _ _ _ six_inv E1)) as H1.
    pose proof (proj1 (mark_each_ok _ _ _ _ _ H1 E2)) as H2.
    pose proof (proj1 (mark_each_ok _ _ _ _ _ H2 E3)) as H3.
    pose proof (proj1 (unmark_each_ok _ _ _ _ H3 E4)) as H4.
    exact (proj1 (unmark_each_ok _ _ _ _ H4 E5)). }
  split; [exact Hi |]. split; [exact Hf |]. split; [| exact Hu]. by apply (flags_queued _ Hi).
Qed.

Lemma sample_start_inv : rules_inv sample_start.
Proof.
  split; [| constructor | constructor]. intros r. split; [| by intros ?%not_elem_of_nil].
  intros Hr. exfalso. by destruct r as [| r].
Qed.

Definition sample_start_node : node :=
  match this_node sample_start with Ok (nd, _) => nd | Err _ => Node.new_node 2 [sample_rule] 0 0 end.

(** the predicate of the rule's tuple is marked when the tuple becomes local *)
Definition sample_marked : sample_world' := set_marked_predicates [true; false] sample_start.

Lemma sample_marked_inv : rules_inv sample_marked.
Proof. destruct sample_start_inv. by split. Qed.

Lemma sample_active : elements (active_rules (matcher sample_start_node)) = [0%nat].
Proof. vm_compute. reflexivity. Qed.
Lemma sample_dropped : elements (dropped_rules (matcher sample_start_node)) = [].
Proof. vm_compute. reflexivity. Qed.

Lemma sample_node_there : this_node sample_marked = Ok (sample_start_node, sample_marked).
Proof. vm_compute. reflexivity. Qed.

Lemma mark_active_rules_spec_witness :
  ∃ w', mark_active_rules sample_vm sample_marked = Ok ((), w') ∧ ordered w' ∧ flagged w' 0.
Proof.
  destruct (mark_active_rules_spec sample_vm sample_marked sample_start_node sample_marked_inv sample_node_there)
    as [Hs Ht].
  destruct Ht as (w' & E & Ho).
  - apply leibniz_equiv, elements_empty_iff, Permutation_nil_r. by rewrite sample_dropped.
  - split; [reflexivity |]. repeat constructor.
  - intros r Hr. apply elem_of_elements in Hr. rewrite sample_active in Hr.
    apply list_elem_of_singleton in Hr as ->. cbn. lia.
  - exists w'. split; [exact E |]. split.
    + apply Ho, ordered_empty. vm_compute. reflexivity.
    + apply (Hs () w' E). split.
      * intros Hd%elem_of_elements. rewrite sample_dropped in Hd. by apply not_elem_of_nil in Hd.
      * right. split; [apply elem_of_elements; rewrite sample_active; by apply list_elem_of_singleton |].
        exists sample_rule, 0%nat. split; [reflexivity |]. split; [by apply list_elem_of_singleton | reflexivity].
Defined.

Definition two_rules_world : sample_world' :=
  match mark_these [4; 2]%nat six_world with Ok (_, w) => w | Err _ => six_world end.

Lemma two_rules_marked : mark_these [4; 2]%nat six_world = Ok ((), two_rules_world).
Proof. vm_compute. reflexivity. Qed.

Lemma next_rule_least_witness :
  ∃ w', next_rule two_rules_world = Ok (2%nat, w') ∧ ordered w'.
Proof.
  destruct (mark_each_ok six_rules _ _ _ _ six_inv two_rules_marked) as [Hi Hf].
  assert (Ho : ordered six_world) by by apply ordered_empty.
  apply (mark_each_ordered six_rules _ _ _ _ two_rules_marked) in Ho.
  destruct (next_rule_least two_rules_world Hi Ho) as (r & w' & E & Hr & Hmin & _ & Ho' & _).
  - intros r [[? _]%lookup_replicate | [Hr _]]%Hf; [done |].
    rewrite !elem_of_cons, elem_of_nil in Hr. destruct Hr as [-> | [-> | []]]; cbn; lia.
  - vm_compute. discriminate.
  - exists w'. split; [| exact Ho']. rewrite E. f_equal.
    assert (r = 2%nat) as ->; [| reflexivity].
    assert ((r <= 2)%nat) by (apply Hmin; reflexivity).
    apply Hf in Hr as [[? _]%lookup_replicate | [Hr _]]; [done |].
    rewrite !elem_of_cons, elem_of_nil in Hr. destruct Hr as [-> | [-> | []]]; lia.
Defined.
