(* ===== verification/RunNode.v ===== *)
(** What [run_node] leaves behind: the lists of the rule engine are empty and no rule
    is marked, as the next [run_node] expects. *)

From Stdlib Require Import ZArith Lia Bool SpecFloat.
From stdpp Require Import base tactics list numbers option gmap sorting strings.
From S2P Require Import Prelude Words Types Instr RuntimeList Tuple SimpleTuple Trie TupleTrie Match.
From S2P Require Import TrieLookup Aggregate Heap Pqueues RuleMatcher Node Exec Externals Router.
From S2P Require Import World Serial Interp Sample Frame RuleEngine RuleMarks.

#[local] Open Scope Z_scope.
#[local] Open Scope meld_scope.

(** ** Assertions that computations maintain *)

Section Maintains.
Context {Sched G : Type} `{scheduler Sched} (vp : vm_program) (rt : router).
Abbreviation world := (World.world Sched G).
Abbreviation run := (World.run Sched G).
Implicit Types (w : world) (P : world → Prop).

(** an assertion about the engine says nothing of the objects, the database, the
    scheduler and the marks of the predicates *)
Record about_engine (P : world → Prop) : Prop := {
  about_core : ∀ x w, P w → P (set_core x w);
  about_stuples : ∀ x w, P w → P (set_stuples x w);
  about_leaf_tuples : ∀ x w, P w → P (set_leaf_tuples x w);
  about_dbase : ∀ x w, P w → P (set_dbase x w);
  about_sched : ∀ x w, P w → P (set_sched x w);
  about_output : ∀ x w, P w → P (set_output x w);
  about_marked_predicates : ∀ x w, P w → P (set_marked_predicates x w)
}.

Definition maintains P {A} (m : run A) : Prop := ∀ w a w', P w → m w = Ok (a, w') → P w'.

Context (P : world → Prop).

Lemma maintains_bind {A B} (m : run A) (k : A → run B) :
  maintains P m → (∀ a, maintains P (k a)) → maintains P (run_bind m k).
Proof.
  intros Hm Hk w b w' HP E. apply run_bind_ok in E as (a & w1 & E1 & E2).
  eapply Hk; [| exact E2]. by eapply Hm.
Qed.
Lemma maintains_run_to {A} (m : run A) w a w' : P w → maintains P m → m w = Ok (a, w') → P w'.
Proof. intros HP Hm E. by eapply Hm. Qed.
Lemma maintains_look {A} (f : world → A) : maintains P (look f).
Proof. intros w a w' HP E. by inversion E; subst. Qed.
Lemma maintains_done {A} (a : A) : maintains P (done a).
Proof. intros w b w' HP E. by inversion E; subst. Qed.
Lemma maintains_fails {A} f : maintains P (fails f : run A).
Proof. by intros w b w' HP E. Qed.
Lemma maintains_pure {A} (r : res A) : maintains P (pure_run r).
Proof. intros w b w' HP E. apply res_bind_ok in E as (? & _ & E). by inversion E; subst. Qed.
Lemma maintains_must b : maintains P (must b).
Proof. intros w u w' HP E. apply asserting_ok in E as [_ E]. by inversion E; subst. Qed.
Lemma maintains_change f : (∀ w, P w → P (f w)) → maintains P (change f).
Proof. intros Hf w u w' HP E. inversion E; subst. by apply Hf. Qed.
Lemma maintains_read {A} (f : world → res A) : maintains P (λ w, let* a := f w in Ok (a, w)).
Proof. intros w a w' HP E. apply res_bind_ok in E as (? & _ & E). by inversion E; subst. Qed.
Lemma maintains_this_node : maintains P this_node.
Proof.
  intros w a w' HP E. do 2 apply res_bind_ok in E as (? & _ & E). by inversion E; subst.
Qed.
Lemma maintains_run_each {A} (f : A → run unit) xs :
  (∀ x, maintains P (f x)) → maintains P (run_each f xs).
Proof.
  intros Hf. induction xs; cbn [run_each]; [apply maintains_done |].
  apply maintains_bind; [apply Hf | done].
Qed.

Lemma maintains_tuple_at a : maintains P (tuple_at a).
Proof. apply maintains_read. Qed.
Lemma maintains_stuple_at a : maintains P (stuple_at a).
Proof. apply maintains_read. Qed.
Lemma maintains_running_node : maintains P running_node.
Proof. apply maintains_read. Qed.

End Maintains.

Create HintDb engine.
#[export] Hint Resolve maintains_look maintains_done maintains_fails maintains_pure maintains_must
  maintains_this_node maintains_tuple_at maintains_stuple_at maintains_running_node : engine.

Ltac engine_state :=
  repeat first
    [ assumption
    | match goal with
      | HP : about_engine ?P |- ?P _ =>
          first [ apply (about_core _ HP) | apply (about_stuples _ HP) | apply (about_leaf_tuples _ HP)
                | apply (about_dbase _ HP) | apply (about_sched _ HP) | apply (about_output _ HP)
                | apply (about_marked_predicates _ HP) ]
      end ].

Ltac maintains_open :=
  match goal with
  | |- maintains _ (match ?x with _ => _ end) => destruct x
  | |- maintains _ ?m => let f := head_of m in unfold f
  end.

Ltac solve_maintains :=
  repeat first
    [ progress intros
    | progress cbn zeta
    | assumption
    | solve [auto 3 with engine nocore]
    | match goal with |- maintains _ (run_bind _ _) => apply maintains_bind; [| intros ?] end
    | apply maintains_change; intros; solve [engine_state]
    | maintains_open ].

Section Operations.
Context {Sched G : Type} `{scheduler Sched} (vp : vm_program) (rt : router).
Abbreviation world := (World.world Sched G).
Abbreviation run := (World.run Sched G).
Context (P : world → Prop) (HP : about_engine P).

Lemma maintains_on_memory {A} (f : memory → res (memory * A)) : maintains P (on_memory f).
Proof using HP.
  intros w a w' Hw E. apply res_bind_ok in E as (? & _ & E). inversion E; subst. by apply about_core.
Qed.
Lemma maintains_on_core {A} (f : Exec.program → exec A) : maintains P (on_core vp f).
Proof using HP.
  intros w a w' Hw E. apply res_bind_ok in E as (? & _ & E). inversion E; subst. by apply about_core.
Qed.
Lemma maintains_on_sched f : maintains P (on_sched f).
Proof using HP.
  intros w a w' Hw E. apply res_bind_ok in E as (? & _ & E). inversion E; subst. by apply about_sched.
Qed.
Lemma maintains_alloc_tuple t : maintains P (alloc_tuple t).
Proof using HP. intros w a w' Hw E. inversion E; subst. by apply about_core. Qed.
Lemma maintains_alloc_stuple s : maintains P (alloc_stuple s).
Proof using HP. intros w a w' Hw E. inversion E; subst. by apply about_stuples. Qed.

#[local] Hint Resolve maintains_on_memory maintains_on_core maintains_on_sched maintains_alloc_tuple
  maintains_alloc_stuple : engine.

Lemma maintains_delete_tuple_at a : maintains P (delete_tuple_at a).
Proof using HP. solve_maintains. Qed.
Lemma maintains_delete_stuple a : maintains P (delete_stuple a).
Proof using HP. solve_maintains. Qed.
Lemma maintains_update_stuple a f : maintains P (update_stuple a f).
Proof using HP. solve_maintains. Qed.
Lemma maintains_stuple_pred a : maintains P (stuple_pred a).
Proof using. solve_maintains. Qed.
Lemma maintains_on_matcher {A} (f : rule_matcher → res (A * rule_matcher)) : maintains P (on_matcher f).
Proof using HP. solve_maintains. Qed.
Lemma maintains_free_leaf nd i ls : ∀ w, P w → P (foldl (free_leaf nd i) w ls).
Proof using HP.
  induction ls as [| l ls IH]; intros w Hw; [done |]. cbn [foldl]. apply IH.
  unfold free_leaf. cbn zeta. destruct (_ !! _); engine_state.
Qed.
Lemma maintains_on_storage p f : maintains P (on_storage p f).
Proof using HP.
  unfold on_storage. apply maintains_bind; [solve_maintains | intros nd].
  apply maintains_bind; [solve_maintains | intros w0]. cbn zeta.
  apply maintains_bind; [solve_maintains | intros nd'].
  apply maintains_bind; [solve_maintains | intros _].
  apply maintains_change. intros. by apply maintains_free_leaf.
Qed.
#[local] Hint Resolve maintains_delete_tuple_at maintains_delete_stuple maintains_update_stuple
  maintains_stuple_pred maintains_on_matcher maintains_on_storage : engine.
Lemma maintains_add_fact hi hu hf t n : maintains P (add_fact_to_node hi hu hf t n).
Proof using HP. solve_maintains. Qed.
Lemma maintains_delete_leaf_at p a : maintains P (delete_leaf_at p a).
Proof using HP. solve_maintains. Qed.
#[local] Hint Resolve maintains_add_fact maintains_delete_leaf_at : engine.
Lemma maintains_delete_only ls : maintains P (delete_leaves ls).
Proof using HP.
  induction ls as [| [p a] ls IH]; cbn [delete_leaves]; [apply maintains_done |].
  apply maintains_bind; [apply maintains_delete_leaf_at | done].
Qed.
Lemma maintains_run_action nd t o : maintains P (run_action nd t o).
Proof using HP. solve_maintains. Qed.
#[local] Hint Resolve maintains_add_fact maintains_delete_leaf_at maintains_run_action : engine.
Lemma maintains_route_self nd s d : maintains P (route_self nd s d).
Proof using HP. solve_maintains. Qed.
Lemma maintains_register p n b : maintains P (register vp p n b).
Proof using HP. solve_maintains. Qed.
Lemma maintains_deregister p n : maintains P (deregister vp p n).
Proof using HP. solve_maintains. Qed.
Lemma maintains_mark_predicate p : maintains P (mark_predicate_to_run p).
Proof using HP. solve_maintains. Qed.
Lemma maintains_wipeout a : maintains P (wipeout_stuple a).
Proof using HP. solve_maintains. Qed.
#[local] Hint Resolve maintains_wipeout : engine.
Lemma maintains_store_local_tuple hi hu hf b s : maintains P (store_local_tuple hi hu hf b s).
Proof using HP. solve_maintains. Qed.

End Operations.

#[export] Hint Resolve maintains_look maintains_done maintains_fails maintains_pure maintains_must
  maintains_this_node maintains_on_memory maintains_on_core maintains_on_sched maintains_tuple_at
  maintains_stuple_at maintains_running_node maintains_alloc_tuple maintains_alloc_stuple
  maintains_delete_tuple_at maintains_delete_stuple maintains_update_stuple
  maintains_stuple_pred maintains_on_matcher maintains_on_storage
  maintains_add_fact maintains_delete_leaf_at maintains_delete_only maintains_run_action
  maintains_route_self maintains_register maintains_deregister maintains_mark_predicate maintains_wipeout : engine.

(** ** The rule engine *)

(** an assertion about the rules to run and the generated tuples says nothing of the
    settings of a run and the other lists *)
Record about_rules {Sched G : Type} (P : World.world Sched G → Prop) : Prop := {
  rules_engine : about_engine P;
  rules_run_linear : ∀ x w, P w → P (set_run_linear x w);
  rules_run_count : ∀ x w, P w → P (set_run_count x w);
  rules_used : ∀ x w, P w → P (set_used_linear_tuples x w);
  rules_use_local : ∀ x w, P w → P (set_use_local_tuples x w);
  rules_persistent_only : ∀ x w, P w → P (set_persistent_only x w);
  rules_persistent : ∀ x w, P w → P (set_generated_persistent_tuples x w);
  rules_local : ∀ x w, P w → P (set_local_tuples x w);
  rules_leaves : ∀ x w, P w → P (set_leaves_for_deletion x w);
  rules_level : ∀ x w, P w → P (set_current_level x w)
}.

Ltac engine_state ::=
  repeat first
    [ assumption
    | match goal with
      | HP : about_engine ?P |- ?P _ =>
          first [ apply (about_core _ HP) | apply (about_stuples _ HP) | apply (about_leaf_tuples _ HP)
                | apply (about_dbase _ HP) | apply (about_sched _ HP) | apply (about_output _ HP)
                | apply (about_marked_predicates _ HP) ]
      | HR : about_rules ?P |- ?P _ =>
          first [ apply (rules_run_linear _ HR) | apply (rules_run_count _ HR) | apply (rules_used _ HR)
                | apply (rules_use_local _ HR) | apply (rules_persistent_only _ HR)
                | apply (rules_persistent _ HR) | apply (rules_local _ HR) | apply (rules_leaves _ HR)
                | apply (rules_level _ HR) ]
      end ].

Section Rules.
Context {Sched G : Type} `{scheduler Sched} (vp : vm_program) (rt : router).
Context (lib : c_library G) (added : list (external_function (G:=G))).
Context (rand : Z → G → Z * G).
Context (hash_int hash_uint hash_float : Z → Z).
Context (fuel rounds : nat).

Abbreviation world := (World.world Sched G).
Abbreviation run := (World.run Sched G).
Abbreviation execute_bytecode :=
  (Interp.execute_bytecode vp rt lib added rand hash_int hash_uint hash_float fuel).
Abbreviation execute_rule :=
  (Interp.execute_rule vp rt lib added rand hash_int hash_uint hash_float fuel).
Abbreviation do_execute :=
  (Interp.do_execute vp rt lib added rand hash_int hash_uint hash_float fuel).
Abbreviation persistent_loop :=
  (RuleEngine.persistent_loop vp rt lib added rand hash_int hash_uint hash_float fuel).
Abbreviation do_persistent_tuples :=
  (RuleEngine.do_persistent_tuples vp rt lib added rand hash_int hash_uint hash_float fuel rounds).
Abbreviation process_persistent_tuple :=
  (RuleEngine.process_persistent_tuple vp rt lib added rand hash_int hash_uint hash_float fuel).

Section Assertion.
Context (P : world → Prop) (HR : about_rules P).
Context (Hcode : ∀ code, maintains P (execute_bytecode code)).
Let HP : about_engine P := rules_engine P HR.

Lemma maintains_setup t n : maintains P (setup t n).
Proof using HR. pose proof HP. solve_maintains. Qed.
Lemma maintains_push_persistent s : maintains P (push_generated_persistent s).
Proof using HR. pose proof HP. solve_maintains. Qed.
Lemma maintains_start_matching : maintains P start_matching.
Proof using HR. pose proof HP. solve_maintains. Qed.
#[local] Hint Resolve HP maintains_setup maintains_push_persistent maintains_start_matching Hcode : engine.
Lemma maintains_run_predicate t n :
  maintains P (run_predicate vp rt lib added rand hash_int hash_uint hash_float fuel t n).
Proof using HR Hcode. pose proof HP. solve_maintains. Qed.
#[local] Hint Resolve maintains_run_predicate : engine.
Lemma maintains_process_persistent_tuple s : maintains P (process_persistent_tuple s).
Proof using HR Hcode. pose proof HP. solve_maintains. Qed.
Lemma maintains_push_aggregates ss : maintains P (push_aggregates ss).
Proof using HR. pose proof HP. induction ss; cbn [push_aggregates]; solve_maintains. Qed.
#[local] Hint Resolve maintains_process_persistent_tuple maintains_push_aggregates : engine.
Lemma maintains_add_to_aggregate s : maintains P (add_to_aggregate hash_int hash_uint hash_float s).
Proof using HR. pose proof HP. solve_maintains. Qed.
Lemma maintains_take_first_such f ls :
  (∀ x, maintains P (f x)) → maintains P (take_first_such f ls).
Proof using HR. pose proof HP. intros Hf. induction ls; cbn [take_first_such]; solve_maintains. Qed.
Lemma maintains_search s : maintains P (search_for_negative_tuple s).
Proof using HR.
  pose proof HP. unfold search_for_negative_tuple.
  repeat (apply maintains_bind; [try solve [solve_maintains] | intros ?]); [| solve_maintains].
  apply maintains_take_first_such. intros ?. solve_maintains.
Qed.
#[local] Hint Resolve maintains_add_to_aggregate maintains_search : engine.
Lemma maintains_persistent_loop n : maintains P (persistent_loop n).
Proof using HR Hcode.
  pose proof HP. induction n; cbn [RuleEngine.persistent_loop]; [solve_maintains |].
  apply maintains_bind; [solve_maintains | intros w].
  destruct (generated_persistent_tuples w); [solve_maintains |].
  destruct (check_instruction_limit w); [solve_maintains |].
  repeat (apply maintains_bind; [solve [solve_maintains] | intros ?]). done.
Qed.
#[local] Hint Resolve maintains_persistent_loop : engine.
Lemma maintains_do_persistent_tuples : maintains P do_persistent_tuples.
Proof using HR Hcode. pose proof HP. solve_maintains. Qed.
Lemma maintains_sort_local_tuples ls : maintains P (sort_local_tuples vp ls).
Proof using HR. pose proof HP. induction ls; cbn [sort_local_tuples]; solve_maintains. Qed.
Lemma maintains_sweep_consumed ls : maintains P (sweep_consumed vp ls).
Proof using HR. pose proof HP. induction ls; cbn [sweep_consumed]; solve_maintains. Qed.
#[local] Hint Resolve maintains_sort_local_tuples maintains_sweep_consumed : engine.
Lemma maintains_mark_rules_using_local_tuples : maintains P (mark_rules_using_local_tuples vp).
Proof using HR. pose proof HP. solve_maintains. Qed.
Lemma maintains_process_consumed : maintains P (process_consumed_local_tuples vp).
Proof using HR. pose proof HP. solve_maintains. Qed.
Lemma maintains_clear_dropped nd : maintains P (put_this_node (set_matcher (clear_dropped_rules (matcher nd)) nd)).
Proof using HR. pose proof HP. solve_maintains. Qed.
End Assertion.

(** *** The byte code *)

Definition rules_part (w : world) := (marked_rules w, rule_queue w, sim_instr_use w).
Definition tidy (w : world) : Prop := generated_tuples w = [].

Lemma about_rules_part v : about_rules (λ w, rules_part w = v).
Proof. by split; [split |..]; intros. Qed.
Lemma about_tidy : about_rules tidy.
Proof. by split; [split |..]; intros. Qed.

Lemma do_execute_part code w r w' : do_execute code w = Ok (r, w') → rules_part w' = rules_part w.
Proof.
  unfold Interp.do_execute. intros E.
  apply run_bind_ok in E as (b & w0 & E0 & E). injection E0 as _ <-.
  apply run_bind_ok in E as (u & w1 & E0 & E). apply asserting_ok in E0 as [_ E0]. injection E0 as _ <-.
  apply run_bind_ok in E as (r1 & w1 & E1 & E).
  apply run_bind_ok in E as (u1 & w2 & E2 & E).
  apply run_bind_ok in E as (b3 & w3 & E3 & E). injection E3 as _ <-.
  apply run_bind_ok in E as (u4 & w4 & E4 & E). apply asserting_ok in E4 as [_ E4]. injection E4 as _ <-.
  injection E as _ <-.
  pose proof (kept_execute vp rt lib added rand hash_int hash_uint hash_float fuel _ code w r1 w1 eq_refl E1)
    as Hs.
  assert (rules_part w2 = rules_part w1) as ->.
  { unfold cleanup in E2. apply run_bind_ok in E2 as (u5 & w5 & E5 & E2). injection E2 as _ <-.
    apply res_bind_ok in E5 as ([? ?] & _ & E5). by injection E5 as _ <-. }
  unfold settings in Hs. unfold rules_part. congruence.
Qed.

Lemma unmark_generated_ok w u w' :
  unmark_generated_tuples w = Ok (u, w') → rules_part w' = rules_part w ∧ tidy w'.
Proof.
  unfold unmark_generated_tuples. intros E.
  apply run_bind_ok in E as (w0 & w1 & E0 & E). injection E0 as <- <-.
  apply run_bind_ok in E as (u1 & w1 & E1 & E). injection E as _ <-. split; [| done].
  change (rules_part w1 = rules_part w). revert E1. generalize (generated_tuples w). intros ls E1.
  eapply (maintains_run_each (λ w1, rules_part w1 = rules_part w)); [| reflexivity | exact E1].
  intros s. refine (maintains_update_stuple _ _ _ _). apply rules_engine, about_rules_part.
Qed.

Lemma execute_bytecode_ok code w r w' :
  execute_bytecode code w = Ok (r, w') → rules_part w' = rules_part w ∧ tidy w'.
Proof.
  unfold Interp.execute_bytecode. intros E.
  apply run_bind_ok in E as (r1 & w1 & E1%do_execute_part & E).
  apply run_bind_ok in E as (u & w2 & E2%unmark_generated_ok & E). injection E as _ <-.
  by rewrite <- E1.
Qed.

Lemma bytecode_part v code : maintains (λ w, rules_part w = v) (execute_bytecode code).
Proof. intros w r w' <- E. by apply execute_bytecode_ok in E as [? _]. Qed.
Lemma bytecode_tidy code : maintains tidy (execute_bytecode code).
Proof. intros w r w' _ E. by apply execute_bytecode_ok in E as [_ ?]. Qed.

(** what the byte code of a predicate generates for its own node is lost.  In the
    run of a persistent tuple, [execute_send_self] adds a new linear tuple of the
    current level to [generated_tuples] and counts it in the matcher; but the list is
    emptied when [execute_bytecode] ends, before the rule engine reads it. *)
Theorem bytecode_drops_generated (code : pcounter) (w w' : world) (r : execution_return)
    (Hrun : execute_bytecode code w = Ok (r, w')) :
  generated_tuples w' = [] ∧ rules_part w' = rules_part w.
Proof. by apply execute_bytecode_ok in Hrun as [? ?]. Qed.

(** *** The persistent tuples *)

Definition unlimited (w : world) : Prop := sim_instr_use w = false.

Lemma unlimited_check w : unlimited w → check_instruction_limit w = false.
Proof. unfold unlimited, check_instruction_limit. by intros ->. Qed.

Lemma about_unlimited : about_rules unlimited.
Proof. by split; [split |..]; intros. Qed.
Lemma bytecode_unlimited code : maintains unlimited (execute_bytecode code).
Proof.
  intros w r w' Hw E. apply execute_bytecode_ok in E as [E _]. unfold unlimited, rules_part in *. congruence.
Qed.

Lemma persistent_loop_ok n : ∀ w b w',
  persistent_loop n w = Ok (b, w') → unlimited w → b = true ∧ generated_persistent_tuples w' = [].
Proof.
  induction n as [| n IH]; intros w b w' E Hw; [done |]. cbn [RuleEngine.persistent_loop] in E.
  apply run_bind_ok in E as (w0 & w1 & E0 & E). injection E0 as <- <-. cbn [id] in E.
  destruct (generated_persistent_tuples w) as [| s rest] eqn:Hg; [by injection E as <- <- |].
  rewrite (unlimited_check _ Hw) in E.
  apply run_bind_ok in E as (s1 & w1 & E1 & E).
  apply run_bind_ok in E as (u & w2 & E2 & E).
  apply run_bind_ok in E as (p & w3 & E3 & E).
  apply run_bind_ok in E as (c & w4 & E4 & E).
  apply run_bind_ok in E as (u5 & w5 & E5 & E).
  apply (IH _ _ _ E). pose proof about_unlimited as HR. pose proof (rules_engine _ HR) as HP.
  assert (H2 : unlimited w2).
  { eapply (maintains_run_to unlimited) in E1; [| exact Hw | apply maintains_stuple_at].
    by injection E2 as _ <-. }
  eapply (maintains_run_to unlimited) in E3; [| exact H2 | apply maintains_stuple_pred].
  assert (H4 : unlimited w4).
  { eapply (maintains_run_to unlimited) in E4; [exact E4 | exact E3 |].
    destruct (_ && _); [| solve_maintains]. apply maintains_bind; [by apply maintains_search |]. solve_maintains. }
  eapply (maintains_run_to unlimited) in E5; [exact E5 | exact H4 |].
  destruct c; [solve_maintains |]. destruct (tuple_for_assertion p s1).
  - apply maintains_process_persistent_tuple; [exact HR | apply bytecode_unlimited].
  - by apply maintains_add_to_aggregate.
Qed.

Lemma do_persistent_ok w b w' :
  do_persistent_tuples w = Ok (b, w') → unlimited w →
  b = true ∧ generated_persistent_tuples w' = [] ∧ leaves_for_deletion w' = [].
Proof.
  unfold RuleEngine.do_persistent_tuples. intros E Hw.
  apply run_bind_ok in E as (b1 & w1 & E1 & E).
  destruct (persistent_loop_ok _ _ _ _ E1 Hw) as [-> H1].
  apply run_bind_ok in E as (w0 & w2 & E0 & E). injection E0 as <- <-. cbn [id] in E.
  apply run_bind_ok in E as (u & w2 & E2 & E). injection E2 as _ <-.
  apply run_bind_ok in E as (u3 & w3 & E3 & E). injection E as <- <-. split; [done |].
  set (P := λ w : world, generated_persistent_tuples w = [] ∧ leaves_for_deletion w = []).
  assert (HP : about_engine P) by (by split; intros).
  change (P w3). eapply (maintains_delete_only P HP); [| exact E3]. by split.
Qed.

(** *** The rules *)

Abbreviation run_rule :=
  (RuleEngine.run_rule vp rt lib added rand hash_int hash_uint hash_float fuel rounds).
Abbreviation rules_loop :=
  (RuleEngine.rules_loop vp rt lib added rand hash_int hash_uint hash_float fuel rounds).
Abbreviation run_node :=
  (RuleEngine.run_node vp rt lib added rand hash_int hash_uint hash_float fuel rounds).

Lemma rules_inv_part w w' : rules_part w' = rules_part w → rules_inv w → rules_inv w'.
Proof.
  unfold rules_part. intros [= Hm Hq _] [H1 H2 H3]. unfold queued in *.
  split; unfold flagged, queued; rewrite ?Hm, ?Hq; done.
Qed.

(** between two rules *)
Record settled (w : world) : Prop := {
  settled_rules : rules_inv w;
  settled_unlimited : unlimited w;
  settled_tidy : tidy w
}.

Lemma about_settled : about_rules settled.
Proof. split; [split |..]; intros x w [[H1 H2 H3] ? ?]; (split; [by split | done | done]). Qed.

Lemma settled_part w w' : rules_part w' = rules_part w → tidy w' → settled w → settled w'.
Proof.
  intros Hp Ht [H1 H2 _]. split; [by eapply rules_inv_part | | done].
  unfold unlimited, rules_part in *. congruence.
Qed.

Lemma bytecode_settled code : maintains settled (execute_bytecode code).
Proof. intros w r w' Hw E. apply execute_bytecode_ok in E as [? ?]. by eapply settled_part. Qed.

Lemma execute_rule_part r w u w' : execute_rule r w = Ok (u, w') → rules_part w' = rules_part w.
Proof.
  unfold Interp.execute_rule. intros E. apply run_bind_ok in E as (c & w0 & E0 & E).
  apply res_bind_ok in E0 as (? & _ & E0). injection E0 as _ <-.
  apply run_bind_ok in E as (r1 & w1 & E1%do_execute_part & E). by injection E as _ <-.
Qed.

Lemma next_rule_settled w r w' :
  settled w → next_rule w = Ok (r, w') → settled w' ∧ queued w ≠ [].
Proof.
  intros Hw E. destruct (next_rule_ok _ _ _ (settled_rules _ Hw) E) as (Hf & Hi & _). split.
  - unfold next_rule in E. apply run_bind_ok in E as (w0 & w1 & E0 & E). injection E0 as <- <-.
    apply run_bind_ok in E as (x & w1 & E0 & E).
    apply res_bind_ok in E0 as (? & _ & E0). injection E0 as _ <-.
    apply run_bind_ok in E as (u & w1 & E0%set_rule_ok & E). injection E as _ <-. subst w1.
    by split; [| apply Hw ..].
  - apply (flags_queued _ (settled_rules _ Hw)) in Hf. intros E0. rewrite E0 in Hf.
    by apply not_elem_of_nil in Hf.
Qed.

Lemma mark_active_rules_rest w u w' (P : world → Prop) :
  (∀ q m w, P w → P (set_rule_queue q (set_marked_rules m w))) →
  mark_active_rules vp w = Ok (u, w') → P w → P w'.
Proof.
  intros Hset E HP. unfold mark_active_rules in E.
  assert (Hr : ∀ r b q, maintains P (set_rule r b q : run unit)).
  { intros r b q w0 u0 w1 H0 E0%set_rule_ok. subst w1. by apply Hset. }
  eapply (maintains_run_to P) in E; [exact E | exact HP |].
  apply maintains_bind; [apply maintains_this_node | intros nd].
  apply maintains_bind; [| intros _]; apply maintains_run_each; intros r.
  - unfold mark_active_rule. repeat (apply maintains_bind; [solve [solve_maintains] | intros ?]).
    destruct a0; [solve_maintains |].
    repeat (apply maintains_bind; [solve [solve_maintains] | intros ?]).
    destruct a1; [apply Hr | solve_maintains].
  - unfold unmark_dropped_rule. repeat (apply maintains_bind; [solve [solve_maintains] | intros ?]).
    destruct a0; [| solve_maintains].
    repeat (apply maintains_bind; [solve [solve_maintains] | intros ?]). apply Hr.
Qed.

Lemma mark_active_rules_settled w u w' :
  settled w → mark_active_rules vp w = Ok (u, w') → settled w'.
Proof.
  intros Hw E. split.
  - assert (∃ nd, this_node w = Ok (nd, w)) as [nd Hnd].
    { unfold mark_active_rules in E. apply run_bind_ok in E as (nd & w1 & E1 & _).
      exists nd. rewrite E1. do 2 apply res_bind_ok in E1 as (? & _ & E1). by injection E1 as _ <-. }
    by apply (mark_active_rules_ok vp _ _ _ _ (settled_rules _ Hw) Hnd E).
  - by apply (mark_active_rules_rest _ _ _ unlimited) in E; [| | apply Hw].
  - by apply (mark_active_rules_rest _ _ _ tidy) in E; [| | apply Hw].
Qed.

Definition no_lists (w : world) : Prop :=
  generated_persistent_tuples w = [] ∧ leaves_for_deletion w = [].

Lemma run_rule_ok w b w' :
  run_rule w = Ok (b, w') → settled w → b = true ∧ settled w' ∧ no_lists w'.
Proof.
  unfold RuleEngine.run_rule. intros E Hw. pose proof about_settled as HR. pose proof (rules_engine _ HR) as HP.
  apply run_bind_ok in E as (r & w1 & E1 & E). apply next_rule_settled in E1 as [H1 _]; [| done].
  apply run_bind_ok in E as (nd & w2 & E2 & E).
  eapply (maintains_run_to settled) in E2; [| exact H1 | apply maintains_this_node].
  apply run_bind_ok in E as (u3 & w3 & E3 & E).
  eapply (maintains_run_to settled) in E3; [| exact E2 | by apply maintains_clear_dropped].
  apply run_bind_ok in E as (u4 & w4 & E4 & E).
  eapply (maintains_run_to settled) in E4; [| exact E3 | by apply maintains_start_matching].
  apply run_bind_ok in E as (u5 & w5 & E5 & E).
  eapply (maintains_run_to settled) in E5; [| exact E4 | by apply maintains_setup].
  apply run_bind_ok in E as (u6 & w6 & E6 & E). injection E6 as _ <-.
  apply run_bind_ok in E as (u7 & w7 & E7%execute_rule_part & E).
  (** the list of generated tuples is moved before it is looked at again *)
  set (Q := λ w : world, rules_inv w ∧ unlimited w).
  assert (HQ : about_rules Q) by (split; [split |..]; intros x w0 [[H1' H2' H3'] ?]; (split; [by split | done])).
  assert (H7 : Q w7).
  { split; [by eapply rules_inv_part, E5 |]. destruct E5 as [_ E5 _]. unfold unlimited, rules_part in *.
    injection E7. intros Hs _ _. rewrite Hs. exact E5. }
  apply run_bind_ok in E as (u8 & w8 & E8 & E).
  eapply (maintains_run_to Q) in E8; [| exact H7 | by apply maintains_process_consumed].
  apply run_bind_ok in E as (u9 & w9 & E9 & E).
  assert (w9 = w8) as ->.
  { unfold gather_new_tuples in E9. apply run_bind_ok in E9 as (w0 & w1' & E0 & E9). injection E0 as <- <-.
    destruct E8 as [_ E8]. unfold unlimited in E8. cbn [id] in E9. rewrite E8 in E9. cbn in E9.
    by injection E9 as _ <-. }
  apply run_bind_ok in E as (u10 & w10 & E10 & E). injection E10 as _ <-.
  apply run_bind_ok in E as (c & w11 & E11 & E).
  match type of E11 with _ ?w10 = _ => assert (H10 : settled w10) end.
  { destruct E8 as [[? ? ?] ?]. split; [by split | done | done]. }
  destruct (do_persistent_ok _ _ _ E11 (settled_unlimited _ H10)) as [-> Hl].
  eapply (maintains_run_to settled) in E11;
    [| exact H10 | by apply maintains_do_persistent_tuples; [| apply bytecode_settled]].
  apply run_bind_ok in E as (u12 & w12 & E12 & E). injection E as <- <-.
  split; [done |]. split; [exact (mark_active_rules_settled _ _ _ E11 E12) |].
  by apply (mark_active_rules_rest _ _ _ no_lists) in E12.
Qed.

Lemma rules_loop_ok n : ∀ w b w',
  rules_loop n w = Ok (b, w') → settled w → no_lists w →
  b = false ∧ settled w' ∧ no_lists w' ∧ rule_queue w' = [].
Proof.
  induction n as [| n IH]; intros w b w' E Hw Hl; [done |]. cbn [RuleEngine.rules_loop] in E.
  apply run_bind_ok in E as (w0 & w1 & E0 & E). injection E0 as <- <-. cbn [id] in E.
  rewrite (unlimited_check _ (settled_unlimited _ Hw)), orb_false_r in E.
  destruct (heap_queue.empty (rule_queue w)) eqn:He.
  - injection E as <- <-. split_and!; try done. by destruct (rule_queue w).
  - apply run_bind_ok in E as (c & w1 & E1 & E). apply run_rule_ok in E1 as (-> & H1 & Hl1); [| done].
    by apply (IH _ _ _ E).
Qed.

(** *** [run_node] *)

(** the state between two calls of [run_node] *)
Record at_rest (w : world) : Prop := {
  rest_local : local_tuples w = [];
  rest_lists : generated_tuples w = [] ∧ generated_persistent_tuples w = [] ∧
               generated_other_level w = [] ∧ leaves_for_deletion w = [];
  rest_queue : rule_queue w = [];
  rest_flags : ∀ r, marked_rules w !! r ≠ Some true
}.

Lemma rest_settled w : at_rest w → unlimited w → settled w.
Proof.
  intros [H1 H2 H3 H4] Hu. split; [| done | apply H2]. split.
  - intros r. unfold queued. rewrite H3. split; [intros Hr; by destruct (H4 r Hr) | by intros ?%not_elem_of_nil].
  - unfold queued. rewrite H3. constructor.
  - rewrite H3. constructor.
Qed.

Lemma settled_rest w : settled w → rule_queue w = [] → ∀ r, marked_rules w !! r ≠ Some true.
Proof.
  intros Hw Hq r Hr. apply (flags_queued _ (settled_rules _ Hw)) in Hr. unfold queued in Hr.
  rewrite Hq in Hr. by apply not_elem_of_nil in Hr.
Qed.

(** the end of a node's run *)
Definition finish (nd : Z) (aborted : bool) : run unit :=
  run! w := look id in
  run_each (store_local_tuple hash_int hash_uint hash_float aborted) (local_tuples w) ;;;
  change (λ w, set_rule_queue [] (set_local_tuples [] w)) ;;;
  process_others ;;;
  run! w := look id in
  run_each (λ s, must aborted ;;; on_sched (push_pending nd s)) (generated_persistent_tuples w) ;;;
  change (set_generated_persistent_tuples []) ;;;
  change (λ w, if sim_instr_use w && (sim_instr_counter w <? sim_instr_limit w)
               then set_sim_instr_counter (wrap 64 (sim_instr_counter w + 1)) w else w).

(** all but the tuples of other levels *)
Definition nearly_done (w : world) : Prop :=
  settled w ∧ no_lists w ∧ local_tuples w = [] ∧ rule_queue w = [].

Lemma about_nearly_done : about_engine nearly_done.
Proof. split; intros x w ([[H1 H2 H3] ? ?] & ? & ? & ?); (split; [by split; [split |..] | done]). Qed.

Lemma process_others_ok w u w' :
  process_others w = Ok (u, w') → nearly_done w → nearly_done w' ∧ generated_other_level w' = [].
Proof.
  unfold process_others. intros E Hw.
  apply run_bind_ok in E as (nd & w1 & E1 & E).
  apply res_bind_ok in E1 as (? & _ & E1). injection E1 as _ <-.
  apply run_bind_ok in E as (w0 & w1 & E0 & E). injection E0 as <- <-.
  apply run_bind_ok in E as (u1 & w1 & E1 & E). injection E as _ <-. split; [| done].
  eapply (maintains_run_to nearly_done) in E1; [| exact Hw |].
  - destruct E1 as ([[H1 H2 H3] ? ?] & ? & ? & ?). by split; [split; [split |..] |].
  - apply maintains_run_each. intros s. apply maintains_route_self, about_nearly_done.
Qed.

Lemma finish_ok nd aborted w u w' :
  finish nd aborted w = Ok (u, w') → settled w → no_lists w → rule_queue w = [] →
  at_rest w' ∧ unlimited w'.
Proof.
  unfold finish. intros E Hw Hl Hq.
  apply run_bind_ok in E as (w0 & w1 & E0 & E). injection E0 as <- <-. cbn [id] in E.
  apply run_bind_ok in E as (u1 & w1 & E1 & E).
  set (P := λ w : world, settled w ∧ no_lists w ∧ rule_queue w = []).
  assert (HP : about_engine P).
  { split; intros x w0 ([[H1 H2 H3] ? ?] & ? & ?); (split; [by split; [split |..] | done]). }
  eapply (maintains_run_to P) in E1; [| by split |];
    [| apply maintains_run_each; intros s; by apply maintains_store_local_tuple].
  destruct E1 as (H1 & Hl1 & Hq1).
  apply run_bind_ok in E as (u2 & w2 & E2 & E). injection E2 as _ <-.
  apply run_bind_ok in E as (u3 & w3 & E3 & E).
  apply process_others_ok in E3 as [(H3 & Hl3 & Hloc & Hq3) Ho].
  2: { split; [| done]. destruct H1 as [H1 ? ?]. split; [| done..].
       by eapply rules_inv_part; [| exact H1]; unfold rules_part; cbn; rewrite Hq1. }
  apply run_bind_ok in E as (w0 & w4 & E0 & E). injection E0 as <- <-. cbn [id] in E.
  rewrite (proj1 Hl3) in E. apply run_bind_ok in E as (u4 & w4 & E4 & E). injection E4 as _ <-.
  apply run_bind_ok in E as (u5 & w5 & E5 & E). injection E5 as _ <-.
  injection E as _ <-. destruct H3 as [Hr3 Hu3 Ht3].
  change (sim_instr_use (set_generated_persistent_tuples [] w3)) with (sim_instr_use w3).
  rewrite Hu3. cbn [andb]. split; [| exact Hu3]. split; [exact Hloc | | exact Hq3 |].
  - split_and!; [exact Ht3 | done | exact Ho | apply Hl3].
  - intros r. apply (settled_rest w3); [by split | done].
Qed.

(** C1: [run_node] leaves the rule engine as it finds it.  From a state at rest, and
    without the instruction limit of the simulator, a call that returns ends at rest:
    no local or generated tuple is kept, nothing waits for deletion, the rule queue is
    empty and no rule is flagged.  So the assertion at the beginning of the next call
    holds, and no rule is left out of its queue by a stale flag. *)
Theorem run_node_rests (nd : Z) (w w' : world) (u : unit)
    (Hrest : at_rest w) (Hsim : sim_instr_use w = false) (Hrun : run_node nd w = Ok (u, w')) :
  at_rest w' ∧ sim_instr_use w' = false.
Proof.
  unfold RuleEngine.run_node in Hrun. rename Hrun into E.
  pose proof about_settled as HR. pose proof (rules_engine _ HR) as HP.
  apply run_bind_ok in E as (u0 & w1 & E1 & E). injection E1 as _ <-.
  apply run_bind_ok in E as (w0 & w1 & E0 & E). injection E0 as <- <-. cbn [id] in E.
  apply run_bind_ok in E as (u1 & w1 & E1 & E). apply asserting_ok in E1 as [_ E1]. injection E1 as _ <-.
  apply run_bind_ok in E as (g & w1 & E1 & E).
  apply res_bind_ok in E1 as (? & _ & E1). injection E1 as _ <-.
  apply run_bind_ok in E as (u2 & w2 & E2 & E). injection E2 as _ <-.
  match type of E with _ ?w1 = _ => assert (H1 : settled w1) end.
  { destruct (rest_settled _ Hrest Hsim) as [[? ? ?] ? ?]. split; [by split | done | done]. }
  apply run_bind_ok in E as (u3 & w3 & E3 & E).
  eapply (maintains_run_to settled) in E3; [| exact H1 | by apply maintains_start_matching].
  apply run_bind_ok in E as (u4 & w4 & E4 & E).
  eapply (maintains_run_to settled) in E4; [| exact E3 | by apply maintains_mark_rules_using_local_tuples].
  apply run_bind_ok in E as (b & w5 & E5 & E).
  destruct (do_persistent_ok _ _ _ E5 (settled_unlimited _ E4)) as [-> Hl5].
  eapply (maintains_run_to settled) in E5;
    [| exact E4 | by apply maintains_do_persistent_tuples; [| apply bytecode_settled]].
  apply run_bind_ok in E as (aborted & w6 & E6 & E).
  apply run_bind_ok in E6 as (u6 & w7 & E7 & E6).
  pose proof (mark_active_rules_settled _ _ _ E5 E7) as H7.
  apply (mark_active_rules_rest _ _ _ no_lists) in E7; [| done | exact Hl5].
  destruct (rules_loop_ok _ _ _ _ E6 H7 E7) as (_ & H6 & Hl6 & Hq6).
  exact (finish_ok nd aborted _ _ _ E H6 Hl6 Hq6).
Qed.

End Rules.

(** ** On the sample program *)

Abbreviation sample_run_node :=
  (RuleEngine.run_node sample_vm one_machine no_library [] no_rand id id id 50 50).

Lemma bytecode_drops_generated_witness :
  sample_bytecode 20 41 sample_persistent = Ok (EXECUTION_OK, sample_persistent_end) ∧
  (predicate_count ∘ matcher) <$> nodes (dbase sample_persistent_end) !! 0 = Some [0; 1] ∧
  generated_tuples sample_persistent_end = [].
Proof.
  destruct sample_persistent_run as [H Hc]. split; [exact H |]. split; [exact Hc |].
  exact (proj1 (bytecode_drops_generated sample_vm one_machine no_library [] no_rand id id id 20 41
                  sample_persistent sample_persistent_end EXECUTION_OK H)).
Defined.

Definition sample_done : World.world serial_local unit :=
  match sample_run_node 0 sample_ready with Ok (_, w) => w | Err _ => sample_world end.

(** the facts of a predicate at node 0 *)
Definition facts (w : World.world serial_local unit) (i : Z) : list (list tuple_field) :=
  match nodes (dbase w) !! 0 with
  | Some nd => map (λ e, fields (SimpleTuple.data e.2)) (map_to_list (leaves_of nd i))
  | None => []
  end.

(** the rule consumes the tuple of _init, and the fact is in the database *)
Lemma sample_node_runs :
  sample_run_node 0 sample_ready = Ok ((), sample_done) ∧
  facts sample_done 0 = [] ∧ facts sample_done 1 = [[5]] ∧ stuples sample_done = ∅.
Proof. split_and!; vm_compute; reflexivity. Qed.

Lemma sample_ready_rest : at_rest sample_ready.
Proof.
  split; [vm_compute; reflexivity | split_and!; vm_compute; reflexivity | vm_compute; reflexivity |].
  assert (marked_rules sample_ready = [false]) as -> by (vm_compute; reflexivity).
  by intros [| r].
Qed.

Lemma run_node_rests_witness :
  sample_run_node 0 sample_ready = Ok ((), sample_done) ∧ facts sample_done 1 = [[5]] ∧
  at_rest sample_done.
Proof.
  destruct sample_node_runs as (H & _ & Hf & _). split; [exact H |]. split; [exact Hf |].
  exact (proj1 (run_node_rests sample_vm one_machine no_library [] no_rand id id id 50 50 0
                  sample_ready sample_done () sample_ready_rest eq_refl H)).
Defined.
