(* ===== verification/SerialLoop.v ===== *)
(** The loop of a scheduler, [sched/base.cpp], under the serial scheduler, with the
    parts of [sched/serial.cpp] and [sched/common.hpp] that go over the nodes of the
    machine; and the start of a machine of one thread, [process/machine.cpp]. *)

From Stdlib Require Import ZArith Lia Bool SpecFloat.
From stdpp Require Import base tactics list numbers option gmap sorting strings.
From S2P Require Import Prelude Words Types Instr RuntimeList Tuple SimpleTuple Trie TupleTrie Match.
From S2P Require Import Aggregate DoubleQueue RuleMatcher Node Exec Externals Router.
From S2P Require Import World Serial Interp Sample Frame RuleEngine RunNode.

#[local] Open Scope Z_scope.
#[local] Open Scope meld_scope.

Section Loop.
Context {G : Type} (vp : vm_program) (rt : router).
Context (lib : c_library G) (added : list (external_function (G:=G))).
Context (rand : Z → G → Z * G).
Context (hash_int hash_uint hash_float : Z → Z).
Context (fuel rounds : nat).

Abbreviation world := (World.world serial_local G).
Abbreviation run := (World.run serial_local G).
Abbreviation run_node :=
  (RuleEngine.run_node vp rt lib added rand hash_int hash_uint hash_float fuel rounds).

(** ** The nodes of a thread *)

(** from [find(first)] to [find(final)], either of which may be [end()] *)
Definition node_range (first final : Z) (db : database) : res (list Z) :=
  let ids := ordered_keys (nodes db) in
  match nodes db !! first, nodes db !! final with
  | Some _, Some _ =>
      if final <? first then Err undefined_behaviour
      else Ok (filter (λ i, first <= i < final) ids)
  | Some _, None => Ok (filter (λ i, first <= i) ids)
  | None, None => Ok []
  | None, Some _ => Err undefined_behaviour
  end.

(** [remote::self] and the range of thread 0 *)
Definition static_nodes : run (list Z) :=
  λ w, let* m := get_remote rt (self rt) in
       let* ids := node_range (find_first_node m 0) (find_last_node m 0) (dbase w) in
       Ok (ids, w).

(** [new_work_agg], for the serial scheduler [new_work] *)
Definition new_work_agg (nd : Z) (s : simple_tuple) : run unit :=
  run! stpl := new_object s in new_work_self nd stpl.

(** [base::node_iteration]: the aggregates of a node *)
Definition node_iteration (nd : Z) : run unit :=
  run! w := look id in
  run! n := pure_run (of_option (nodes (dbase w) !! nd)) in
  run! r := on_memory (λ m,
    let* r := Node.end_iteration m n in let '(m, n, ls) := r in Ok (m, (n, ls))) in
  change (λ w, set_dbase (put_node r.1 (dbase w)) w) ;;;
  run_each (new_work_agg nd) r.2.

(** [iterate_static_nodes] *)
Definition generate_aggs : run unit :=
  run! ids := static_nodes in run_each node_iteration ids.

Definition terminate_iteration : run bool :=
  generate_aggs ;;; look (λ w, has_work (sched w)).

Definition assert_end_iteration : run unit :=
  run! ids := static_nodes in
  λ w, let* _ := serial_assert_end_iteration ids (sched w) in Ok ((), w).

(** the nodes of the program end without aggregates to generate *)
Fixpoint assert_db_end (ids : list Z) : run unit :=
  match ids with
  | [] => done ()
  | i :: ids =>
      run! w := look id in
      run! n := pure_run (of_option (nodes (dbase w) !! i)) in
      run! _ := pure_run (Node.assert_end n) in assert_db_end ids
  end.

Definition assert_end : run unit :=
  assert_end_iteration ;;; run! ids := static_nodes in assert_db_end ids.

(** [serial_local::init] *)
Definition init : run unit :=
  run! ids := static_nodes in
  run_each (λ i,
    init_node vp i ;;;
    run! s := look sched in
    run! n := pure_run (serial_of (node_addr i) s) in
    must (i_am_on_queue n && node_has_work n)) ids.

(** ** The loop *)

Definition get_work : run (option Z) :=
  λ w, let* r := serial_get_work (sched w) in Ok (r.1, set_sched r.2 w).

(** [do_loop], with the number of iterations; the fuel bounds the calls of
    [get_work] *)
Fixpoint do_loop (n : nat) (iteration : Z) : run Z :=
  match n with
  | O => fails undefined_behaviour
  | S n =>
      run! o := get_work in
      match o with
      | Some nd => run_node nd ;;; do_loop n iteration
      | None =>
          assert_end_iteration ;;;
          let iteration := wrap 64 (iteration + 1) in
          run! b := terminate_iteration in
          if (b : bool) then do_loop n iteration else done iteration
      end
  end.

Definition loop (n : nat) : run Z :=
  init ;;;
  run! k := do_loop n 0 in
  assert_end ;;;
  done k.

(** [machine::start] with one thread, up to the output of the results *)
Definition machine_start (n : nat) : run Z :=
  execute_const_code vp rt lib added rand hash_int hash_uint hash_float fuel ;;; loop n.

(** ** The end *)

Lemma push_not_empty a q os q' os' : push_tail_node a q os = Ok (q', os') → double_empty q' = false.
Proof.
  unfold push_tail_node. intros E. do 5 apply res_bind_ok in E as (? & _ & E).
  injection E as <- _. unfold double_empty. cbn. by destruct (dhead q).
Qed.

Lemma push_node_work a s s' : push_node a s = Ok s' → has_work s' = true.
Proof.
  unfold push_node. intros E. apply res_bind_ok in E as ([q os] & E%push_not_empty & E').
  injection E' as <-. unfold has_work. cbn. by rewrite E.
Qed.

Lemma new_work_has_work i x l s s' :
  serial_new_work i x l s = Ok s' →
  (has_work s = true → has_work s' = true) ∧
  (∀ n, snodes s !! node_addr i = Some n → i_am_on_queue n = false → has_work s' = true).
Proof.
  unfold serial_new_work. intros E. apply res_bind_ok in E as (n & Hn%of_option_ok & E).
  apply res_bind_ok in E as (n' & En & E).
  assert (i_am_on_queue n' = i_am_on_queue n) as Hf.
  { unfold node_add_work in En. apply res_bind_ok in En as (? & _ & En). by injection En as <-. }
  rewrite Hf in E. destruct (i_am_on_queue n) eqn:Hq.
  - injection E as <-. split; [done |]. intros m Hm. rewrite Hn in Hm. injection Hm as <-. congruence.
  - apply res_bind_ok in E as (s1 & _ & E). apply push_node_work in E. by split.
Qed.

(** the sched is as it was, or has work *)
Definition moved_on (s : serial_local) (w : world) : Prop := sched w = s ∨ has_work (sched w) = true.

(** no node of the list is in the line of the scheduler *)
Definition none_on_queue (ids : list Z) (s : serial_local) : Prop :=
  ∀ i n, i ∈ ids → snodes s !! node_addr i = Some n → i_am_on_queue n = false.

Lemma assert_nodes_none ids s : assert_nodes_end ids s = Ok () → none_on_queue ids s.
Proof.
  induction ids as [| i ids IH]; intros E j n Hj Hn; [by apply not_elem_of_nil in Hj |].
  cbn [assert_nodes_end] in E. apply res_bind_ok in E as (m & Hm%of_option_ok & E).
  apply asserting_ok in E as [Hb E]. apply andb_true_iff in Hb as [Hb _].
  apply elem_of_cons in Hj as [-> | Hj]; [| by eapply IH].
  rewrite Hm in Hn. injection Hn as <-. by destruct (i_am_on_queue m).
Qed.

Lemma new_work_agg_ok s nd t w u w' :
  none_on_queue [nd] s → moved_on s w → new_work_agg nd t w = Ok (u, w') → has_work (sched w') = true.
Proof.
  intros Hn Hm E. unfold new_work_agg in E.
  apply run_bind_ok in E as (a & w2 & E1 & E).
  unfold new_object in E1. apply run_bind_ok in E1 as (a1 & w1 & E2 & E1).
  injection E2 as _ <-. injection E1 as _ <-. unfold new_work_self in E. apply run_bind_ok in E as (p & w3 & E3 & E).
  eapply (maintains_run_to (moved_on s)) in E3; [| | apply maintains_stuple_pred]; [| exact Hm].
  apply res_bind_ok in E as (s' & Es & E). injection E as _ <-. cbn [sched set_sched].
  destruct (new_work_has_work _ _ _ _ _ Es) as [H1 H2].
  destruct E3 as [Hs | Hs]; [| by apply H1]. rewrite Hs in *.
  assert (∃ n, snodes s !! node_addr nd = Some n) as [n Hn1].
  { unfold World.new_work, serial_scheduler, serial_new_work, serial_of in Es.
    apply res_bind_ok in Es as (n & Hn1%of_option_ok & _). by exists n. }
  eapply H2; [exact Hn1 |]. eapply Hn; [| exact Hn1]. by apply list_elem_of_singleton.
Qed.

Lemma run_each_agg s nd ls : ∀ w u w',
  none_on_queue [nd] s → moved_on s w → run_each (new_work_agg nd) ls w = Ok (u, w') → moved_on s w'.
Proof.
  induction ls as [| t ls IH]; intros w u w' Hn Hm E; cbn [run_each] in E; [by injection E as _ <- |].
  apply run_bind_ok in E as (u1 & w1 & E1 & E).
  apply (new_work_agg_ok s) in E1; [| done..]. eapply IH; [done | by right | exact E].
Qed.

Lemma node_iteration_moves s nd w u w' :
  none_on_queue [nd] s → moved_on s w → node_iteration nd w = Ok (u, w') → moved_on s w'.
Proof.
  intros Hn Hm E. unfold node_iteration in E.
  apply run_bind_ok in E as (w0 & w1 & E1 & E). injection E1 as <- <-.
  apply run_bind_ok in E as (n & w1 & E1 & E). apply res_bind_ok in E1 as (? & _ & E1). injection E1 as _ <-.
  apply run_bind_ok in E as (r & w1 & E1 & E). apply res_bind_ok in E1 as (? & _ & E1). injection E1 as _ <-.
  apply run_bind_ok in E as (u1 & w1 & E1 & E). injection E1 as _ <-.
  by eapply run_each_agg in E.
Qed.

Lemma generate_aggs_moves s ids : ∀ w u w',
  none_on_queue ids s → moved_on s w → run_each node_iteration ids w = Ok (u, w') → moved_on s w'.
Proof.
  induction ids as [| i ids IH]; intros w u w' Hn Hm E; cbn [run_each] in E; [by injection E as _ <- |].
  apply run_bind_ok in E as (u1 & w1 & E1 & E).
  apply (node_iteration_moves s) in E1; [| | done].
  - eapply IH; [| exact E1 | exact E]. intros j n Hj. apply Hn. apply elem_of_cons. by right.
  - intros j n ->%list_elem_of_singleton. apply Hn. apply elem_of_cons. by left.
Qed.

Lemma static_nodes_ok w ids w' : static_nodes w = Ok (ids, w') → w' = w.
Proof. unfold static_nodes. intros E. do 2 apply res_bind_ok in E as (? & _ & E). by injection E as _ <-. Qed.

(** the rounds of [do_loop] that go on: from a world and a number of iterations to others *)
Inductive loop_runs : world → Z → world → Z → Prop :=
  | loop_here w it : loop_runs w it w it
  | loop_node w it w1 w2 w3 nd u k :
      get_work w = Ok (Some nd, w1) → run_node nd w1 = Ok (u, w2) →
      loop_runs w2 it w3 k → loop_runs w it w3 k
  | loop_round w it w1 w2 w3 w4 k :
      get_work w = Ok (None, w1) → assert_end_iteration w1 = Ok ((), w2) →
      terminate_iteration w2 = Ok (true, w3) →
      loop_runs w3 (wrap 64 (it + 1)) w4 k → loop_runs w it w4 k.

(** what the assertion says of the nodes *)
Definition nodes_done (ids : list Z) (s : serial_local) : Prop :=
  ∀ i, i ∈ ids → ∃ n, snodes s !! node_addr i = Some n ∧ i_am_on_queue n = false ∧ node_has_work n = false.

Lemma assert_nodes_done ids s : assert_nodes_end ids s = Ok () → nodes_done ids s.
Proof.
  induction ids as [| i ids IH]; intros E j Hj; [by apply not_elem_of_nil in Hj |].
  cbn [assert_nodes_end] in E. apply res_bind_ok in E as (m & Hm%of_option_ok & E).
  apply asserting_ok in E as [Hb E]. apply andb_true_iff in Hb as [H1 H2].
  apply elem_of_cons in Hj as [-> | Hj]; [| by apply IH].
  exists m. split; [done |]. split; by apply negb_true_iff.
Qed.

(** C6: a loop that ends leaves no work.  When [do_loop] returns, it has gone through
    rounds that went on to one that found no node in line: in that world every node of
    the thread's range of the database has no tuple in its queue and no place in the
    line; the generation of the aggregates of these nodes then leaves the scheduler as it
    was, so they still have none and the line is empty; and this round was counted. *)
Theorem loop_ends_without_work (n : nat) (it k : Z) (w w' : world)
    (Hloop : do_loop n it w = Ok (k, w')) :
  has_work (sched w') = false ∧
  ∃ w0 k0 w1 ids, loop_runs w it w0 k0 ∧ get_work w0 = Ok (None, w1) ∧ k = wrap 64 (k0 + 1) ∧
    static_nodes w1 = Ok (ids, w1) ∧ generate_aggs w1 = Ok ((), w') ∧
    sched w' = sched w1 ∧ nodes_done ids (sched w').
Proof.
  revert it w Hloop. induction n as [| n IH]; intros it w E; [done |]. cbn [do_loop] in E.
  apply run_bind_ok in E as (o & w1 & E1 & E). destruct o as [nd |].
  - apply run_bind_ok in E as (u & w2 & E2 & E). apply IH in E as (Hw & w0 & k0 & wn & ids & Hr & H).
    split; [done |]. exists w0, k0, wn, ids. split; [by eapply loop_node | exact H].
  - apply run_bind_ok in E as ([] & w2 & E2 & E).
    apply run_bind_ok in E as (b & w3 & E3 & E). destruct b.
    { apply IH in E as (Hw & w0 & k0 & wn & ids & Hr & H).
      split; [done |]. exists w0, k0, wn, ids. split; [by eapply loop_round | exact H]. }
    injection E as <- <-. unfold assert_end_iteration in E2. apply run_bind_ok in E2 as (ids & w4 & E4 & E2).
    apply res_bind_ok in E2 as ([] & Ea & E2). injection E2 as <-.
    pose proof (static_nodes_ok _ _ _ E4) as ->.
    unfold serial_assert_end_iteration in Ea. apply asserting_ok in Ea as [_ Ea].
    unfold terminate_iteration in E3. apply run_bind_ok in E3 as ([] & w5 & E5 & E3).
    injection E3 as Hw <-. pose proof E5 as E6. unfold generate_aggs in E5.
    apply run_bind_ok in E5 as (ids' & w6 & E7 & E5). rewrite E4 in E7. injection E7 as <- <-.
    apply (generate_aggs_moves (sched w1)) in E5; [| by apply assert_nodes_none | by left].
    destruct E5 as [Hs | Hs]; [| congruence]. split; [done |].
    exists w, it, w1, ids. split_and!; [constructor | done.. |]. rewrite Hs. by apply assert_nodes_done.
Qed.

End Loop.

(** ** The sample program from start to end *)

Abbreviation sample_machine :=
  (machine_start sample_vm one_machine no_library [] no_rand id id id 50 50).

Definition sample_result : World.world serial_local unit :=
  match sample_machine 10 sample_world with Ok (_, w) => w | Err _ => sample_world end.

(** one iteration, which leaves the fact *)
Lemma sample_machine_runs :
  sample_machine 10 sample_world = Ok (1, sample_result) ∧ facts sample_result 1 = [[5]].
Proof. split; vm_compute; reflexivity. Qed.

Definition sample_loop_end : World.world serial_local unit :=
  match do_loop sample_vm one_machine no_library [] no_rand id id id 50 50 10 0 sample_ready with
  | Ok (_, w) => w
  | Err _ => sample_world
  end.

Lemma sample_loop_returns :
  do_loop sample_vm one_machine no_library [] no_rand id id id 50 50 10 0 sample_ready
  = Ok (1, sample_loop_end).
Proof. vm_compute. reflexivity. Qed.

Lemma loop_ends_without_work_witness :
  has_work (sched sample_loop_end) = false ∧
  ∃ (w0 : World.world serial_local unit) k0 w1 ids,
    loop_runs sample_vm one_machine no_library [] no_rand id id id 50 50 sample_ready 0 w0 k0 ∧
    get_work w0 = Ok (None, w1) ∧ 1 = wrap 64 (k0 + 1) ∧
    static_nodes one_machine w1 = Ok (ids, w1) ∧ generate_aggs one_machine w1 = Ok ((), sample_loop_end) ∧
    sched sample_loop_end = sched w1 ∧ nodes_done ids (sched sample_loop_end).
Proof.
  exact (loop_ends_without_work sample_vm one_machine no_library [] no_rand id id id 50 50 10 0 1
           sample_ready sample_loop_end sample_loop_returns).
Defined.
