(* ===== verification/Loader.v ===== *)
(** The loader of byte code files, the constructor of [vm/program.cpp]: a reader over
    the bytes of the file, in the order in which the code reads them, that builds the
    program with its predicates cached and its rules linked. *)

From Stdlib Require Import ZArith Lia Bool.
From stdpp Require Import base tactics list numbers option strings.
From S2P Require Import Prelude Words Instr Types RuleMatcher.

#[local] Open Scope Z_scope.

(** ** Reading

    The code never looks at the state of the stream: a read past the end of the file
    writes the bytes there are and leaves the rest of the variable as it was, and so do
    all that follow.  A variable is what is known of it, the bytes from its first on;
    what was never written is not known, and to use it is undefined. *)

Record input : Type := mk_input { rest : list byte; position : Z }.

Definition reader (A : Type) : Type := input → res (A * input).
Definition rret {A} (a : A) : reader A := λ i, Ok (a, i).
Definition rfail {A} (f : failure) : reader A := λ _, Err f.
Definition rbind {A B} (f : reader A) (g : A → reader B) : reader B :=
  λ i, let* r := f i in g r.1 r.2.
Notation "'read!' x := f 'in' g" := (rbind f (λ x, g))
  (at level 10, x pattern, f at level 100, g at level 200) : meld_scope.
Definition rlift {A} (r : res A) : reader A := λ i, let* a := r in Ok (a, i).
Definition rassert {A} (b : bool) (k : reader A) : reader A := if b then k else rfail assert_fail.

(** READ_CODE into a variable of which [old] is known; [position] is a size_t and a file
    is shorter than 2^63 *)
Definition READ_CODE (n : nat) (old : list byte) : reader (list byte) := λ i,
  let got := take n (rest i) in
  Ok (got ++ drop (length got) old, mk_input (drop n (rest i)) (position i + Z.of_nat n)).

(** the use of [n] bytes of a variable *)
Definition defined (n : nat) (bs : list byte) : reader (list byte) :=
  if (n <=? length bs)%nat then rret bs else rfail undefined_behaviour.

(** a variable that is declared, read and used *)
Definition READ_NEW (n : nat) : reader (list byte) := read! bs := READ_CODE n [] in defined n bs.

Definition read_byte : reader byte := read! bs := READ_NEW 1 in rret (le_value bs).
Definition read_uint : reader Z := read! bs := READ_NEW 4 in rret (le_value bs).
Definition read_int : reader Z := read! bs := READ_NEW 4 in rret (swrap 32 (le_value bs)).

(** a loop that reads, over [n] indices from [i] *)
Fixpoint read_loop {A} (f : nat → reader A) (i n : nat) : reader (list A) :=
  match n with
  | O => rret []
  | S n => read! a := f i in read! l := read_loop f (i + 1) n in rret (a :: l)
  end.

(** [char str[size + 1]; READ_CODE(str, size); str[size] = '\0'; string(str)] with a size
    of an unsigned ([w] is 32) or a signed type ([w] is 31): one more is still a size *)
Definition read_chars (w size : Z) : reader string :=
  if (0 <=? size) && (size + 1 <? 2 ^ w)
  then read! bs := READ_CODE (Z.to_nat size) [] in
       rlift (c_string (if Z.of_nat (length bs) =? size then bs ++ [0] else bs))
  else rfail undefined_behaviour.

(** a size of code and the code, which is not used yet *)
Definition read_code : reader (list byte) := read! size := read_uint in READ_CODE (Z.to_nat size) [].

(** ** The program *)

(** [vm/import.hpp] *)
Record import : Type := mk_import { imp : string; as_ : string; file : string }.
Definition new_import (imp as_ file : string) : import := mk_import imp as_ (file +:+ ".m").

(** [vm/external.hpp], with the function by its address *)
Record external_entry : Type := mk_external_entry {
  ext_ptr : Z;
  ext_ret : field_type;
  ext_spec : list field_type
}.

(** [vm/rule.hpp]: the text, the code and what the matcher uses *)
Record rule_entry : Type := mk_rule_entry {
  rule_string : string;
  rule_code : list byte;
  rule_links : rule
}.

Inductive priority_order : Type := PRIORITY_ASC | PRIORITY_DESC.

(** what a data file leaves uninitialised is None *)
Record priority_info : Type := mk_priority_info {
  priority_type : option field_type;
  priority_ordering : option priority_order;
  initial_priority : Z;
  is_data_file : bool
}.

(** the sizes of the codes are their lengths; a predicate is known by its index, and
    [affected_rules] is by predicate *)
Record program : Type := mk_program {
  major_version : Z;
  minor_version : Z;
  number_nodes : Z;
  db_buffer : list byte;
  imported_predicates : list import;
  exported_predicates : list string;
  num_args : Z;
  default_strings : list string;
  const_types : list field_type;
  const_code : list byte;
  functions : list (list byte);
  external_function_position : Z;
  externals : list (option external_entry);
  predicates : list predicate;
  route_predicates : list nat;
  MAX_STRAT_LEVEL : Z;
  safe : bool;
  priorities : priority_info;
  code : list (list byte);
  rules : list rule_entry;
  affected_rules : list (list nat);
  data_rule : option rule_entry
}.

Definition num_predicates (p : program) : nat := length (predicates p).
Definition num_rules (p : program) : nat := length (rules p).

Definition version_at_least (major minor maj min : Z) : bool :=
  (maj <? major) || ((major =? maj) && (min <=? minor)).

Section Loader.
Context (filename : string).
(** [get_function_pointer]: the address of a function of a shared library *)
Context (get_function_pointer : string → string → Z).

Definition load_error {A} (reason : string) : reader A :=
  rfail (load_file_error ("unable to load byte-code file " +:+ filename +:+ ": " +:+ reason)).

(** the magic numbers and the version *)
Definition read_header : reader (Z * Z) :=
  read! magic1 := read_uint in
  read! magic2 := read_uint in
  if negb ((magic1 =? MAGIC1) && (magic2 =? MAGIC2)) then load_error "not a meld byte code file"
  else
    read! major := read_uint in
    read! minor := read_uint in
    if negb (version_at_least major minor 0 5) then load_error "unsupported byte code version"
    else if version_at_least major minor 0 10 then load_error "unsupported byte code version"
    else rret (major, minor).

Definition read_import (_ : nat) : reader import :=
  read! size := READ_NEW 4 in
  read! imp := read_chars 32 (le_value size) in
  read! size := READ_CODE 4 size in
  read! as_ := read_chars 32 (le_value size) in
  read! size := READ_CODE 4 size in
  read! file := read_chars 32 (le_value size) in
  rret (new_import imp as_ file).

Definition read_export (_ : nat) : reader string := read! size := read_uint in read_chars 32 size.

Definition read_imports (major minor : Z) : reader (list import * list string) :=
  if version_at_least major minor 0 9 then
    read! n := read_uint in
    read! imports := read_loop read_import 0 (Z.to_nat n) in
    read! n := read_uint in
    read! exports := read_loop read_export 0 (Z.to_nat n) in
    rret (imports, exports)
  else rret ([], []).

(** the text of a rule *)
Definition read_rule_string (_ : nat) : reader string :=
  read! rule_len := read_uint in
  rassert (0 <? rule_len) (read_chars 32 rule_len).

(** [size] is read into the same variable three times, [length] is an [int];
    [reserve] throws [length_error] on a negative number *)
Definition read_strings : reader (list string) :=
  read! num_strings := read_int in
  if num_strings <? 0 then rfail length_error
  else read_loop (λ _, read! length := read_int in read_chars 31 length) 0 (Z.to_nat num_strings).

Definition read_const_types : reader (list field_type) :=
  read! num_constants := read_uint in
  read_loop (λ _, read! b := read_byte in rret (field_type_of b)) 0 (Z.to_nat num_constants).

Definition read_functions : reader (list (list byte)) :=
  read! n_functions := read_uint in
  read_loop (λ _, read_code) 0 (Z.to_nat n_functions).

(** [add_external_function]: nothing is registered for more than three arguments *)
Definition add_external_function (ptr : Z) (ret : field_type) (args : list field_type)
  : option external_entry :=
  if (length args <=? 3)%nat then Some (mk_external_entry ptr ret args) else None.

(** the type of an argument is printed, which throws when it is unknown *)
Definition read_arg_type (_ : nat) : reader field_type :=
  read! b := read_byte in
  read! _ := rlift (field_type_string (field_type_of b)) in
  rret (field_type_of b).

Definition read_external (_ : nat) : reader (option external_entry) :=
  read! _ := read_uint in
  read! extern_name := READ_CODE 256 [] in
  read! skip_filename := READ_CODE 1024 [] in
  read! _ := READ_CODE 8 [] in
  read! path := rlift (c_string skip_filename) in
  read! name := rlift (c_string extern_name) in
  read! num_args := read_uint in
  read! b := read_byte in
  read! arg_type := read_loop read_arg_type 0 (Z.to_nat num_args) in
  rret (add_external_function (get_function_pointer path name) (field_type_of b) arg_type).

Definition get_position : reader Z := λ i, Ok (position i, i).

(** where the external functions are is left as it was before version 0.7 *)
Definition read_externals (major minor : Z) : reader (Z * list (option external_entry)) :=
  if (0 <? major) || (7 <=? minor) then
    read! n_externs := read_uint in
    read! pos := get_position in
    read! l := read_loop read_external 0 (Z.to_nat n_externs) in
    rret (pos, l)
  else rret (0, []).

(** the functions of the program and those of libraries *)
Definition read_function_code (major minor : Z)
  : reader (list (list byte) * (Z * list (option external_entry))) :=
  if version_at_least major minor 0 6 then
    read! fs := read_functions in
    read! es := read_externals major minor in
    rret (fs, es)
  else rret ([], (0, [])).

(** the descriptors are read into one buffer, [buf] *)
Fixpoint read_predicates (buf : list byte) (i n : nat) : reader (list (predicate * Z)) :=
  match n with
  | O => rret []
  | S n =>
      read! buf := READ_CODE PRED_DESCRIPTOR_SIZE buf in
      read! p := rlift (make_predicate_from_buf buf (Z.of_nat i)) in
      read! ps := read_predicates buf (i + 1) n in
      rret (p :: ps)
  end.

Fixpoint route_ids (i : nat) (ps : list predicate) : list nat :=
  match ps with
  | [] => []
  | p :: ps => if is_route_pred p then i :: route_ids (i + 1) ps else route_ids (i + 1) ps
  end.

(** the loop of [max] *)
Definition max_strat_level (ps : list predicate) : Z :=
  fold_left (λ m p, Z.max (pred_level p + 1) m) ps 0.

Fixpoint cache_predicates (all ps : list predicate) : res (list predicate) :=
  match ps with
  | [] => Ok []
  | p :: ps =>
      let* p := cache_info (λ id, all !! Z.to_nat id) p in
      let* ps := cache_predicates all ps in
      Ok (p :: ps)
  end.

Definition safe_predicate (p : predicate) : bool :=
  negb (match is_unsafe_agg p with Ok b => b | Err _ => false end).

Definition no_priorities : priority_info := mk_priority_info None None 0 false.

(** what is written over the low bytes of the union, which is 0.0 *)
Definition read_initial_priority (typ : field_type) : reader Z :=
  match typ with
  | FIELD_FLOAT => read! bs := READ_CODE 8 (replicate 8 0) in rret (le_value bs)
  | _ => read! bs := READ_CODE 4 (replicate 8 0) in rret (le_value bs)
  end.

Definition read_priorities : reader priority_info :=
  read! global_info := read_byte in
  if global_info =? 0x01 then rfail assert_fail
  else if global_info =? 0x02 then
    read! bs := READ_CODE 1 [0] in
    let type := le_value bs in
    read! typ := (if type =? 0x01 then rret FIELD_FLOAT
                  else if type =? 0x02 then rret FIELD_INT
                  else rfail assert_fail) in
    read! asc_desc := read_byte in
    read! prio := read_initial_priority typ in
    rret (mk_priority_info (Some typ) (Some (if asc_desc =? 0 then PRIORITY_DESC else PRIORITY_ASC))
            prio false)
  else if global_info =? 0x03 then rret (mk_priority_info None None 0 true)
  else rret (mk_priority_info (Some FIELD_FLOAT) (Some PRIORITY_DESC) 0 false).

(** the code of the predicates, of the sizes in their descriptors *)
Fixpoint read_codes (sizes : list Z) : reader (list (list byte)) :=
  match sizes with
  | [] => rret []
  | size :: sizes =>
      read! c := READ_CODE (Z.to_nat size) [] in
      read! cs := read_codes sizes in
      rret (c :: cs)
  end.

(** a rule's code, then the predicates it is linked to *)
Definition read_rule (str : string) : reader rule_entry :=
  read! code := read_code in
  read! is_persistent := READ_CODE 1 [0] in
  read! num_preds := read_uint in
  rassert (num_preds <? 10)
    (read! ids := read_loop (λ _, read_byte) 0 (Z.to_nat num_preds) in
     rret (mk_rule_entry str code (mk_rule (map Z.to_nat ids) (le_value is_persistent =? 0x1)))).

Fixpoint read_rules (strs : list string) (i : nat) (aff : list (list nat))
  : reader (list rule_entry * list (list nat)) :=
  match strs with
  | [] => rret ([], aff)
  | str :: strs =>
      read! r := read_rule str in
      read! aff := rlift (link_predicates aff i (rule_predicates (rule_links r))) in
      read! rs := read_rules strs (i + 1) aff in
      rret (r :: rs.1, rs.2)
  end.

(** the constructor *)
Definition read_program : reader program :=
  read! version := read_header in
  let '(major, minor) := version in
  read! buf := READ_NEW 1 in
  let num_predicates := le_value buf in
  read! num_nodes := read_uint in
  read! db_buf := READ_CODE (Z.to_nat (8 * num_nodes)) [] in
  read! imports := read_imports major minor in
  read! n_args := read_byte in
  read! n_rules := read_uint in
  read! strs := read_loop read_rule_string 0 (Z.to_nat n_rules) in
  read! strings := read_strings in
  read! consts := read_const_types in
  read! const_code := read_code in
  read! funs := read_function_code major minor in
  read! preds := read_predicates buf 0 (Z.to_nat num_predicates) in
  let max_level := max_strat_level (map fst preds) in
  read! cached := rlift (cache_predicates (map fst preds) (map fst preds)) in
  read! prio := read_priorities in
  read! codes := read_codes (map snd preds) in
  read! num_rules_code := read_uint in
  rassert (num_rules_code =? n_rules)
    (read! rs := read_rules strs 0 (replicate (Z.to_nat num_predicates) []) in
     rret (mk_program major minor num_nodes db_buf imports.1 imports.2 n_args strings consts const_code
             funs.1 funs.2.1 funs.2.2 cached (route_ids 0 (map fst preds)) max_level (forallb safe_predicate cached) prio codes
             rs.1 rs.2 None)).

Definition load (bytes : list byte) : res program :=
  let* r := read_program (mk_input bytes 0) in Ok r.1.

End Loader.

(** ** The program's predicates *)

Definition INIT_PREDICATE_ID : Z := 0.

Definition get_predicate (p : program) (id : Z) : option predicate :=
  if Z.of_nat (num_predicates p) <=? id then None else predicates p !! Z.to_nat id.

Definition get_route_predicate (p : program) (i : nat) : res nat :=
  asserting (i <? length (route_predicates p))%nat (of_option (route_predicates p !! i)).

Definition get_predicate_by_name (p : program) (name : string) : option predicate :=
  List.find (λ q, String.eqb (pred_name q) name) (predicates p).

(** [init] is what an earlier call found *)
Definition get_init_predicate (p : program) (init : option predicate) : res predicate :=
  match init with
  | Some q => Ok q
  | None =>
      let* q := of_option (get_predicate p INIT_PREDICATE_ID) in
      if String.eqb (pred_name q) "_init" then Ok q else of_option (get_predicate_by_name p "_init")
  end.

Definition get_edge_predicate (p : program) : option predicate := get_predicate_by_name p "edge".

(** ** Data files *)

Definition set_rules (rs : list rule_entry) (data : option rule_entry) (p : program) : program :=
  mk_program (major_version p) (minor_version p) (number_nodes p) (db_buffer p) (imported_predicates p)
    (exported_predicates p) (num_args p) (default_strings p) (const_types p) (const_code p) (functions p)
    (external_function_position p) (externals p) (predicates p) (route_predicates p) (MAX_STRAT_LEVEL p) (safe p)
    (priorities p) (code p) rs (affected_rules p) data.

Definition name_of (p : program) (id : Z) : option string := pred_name <$> get_predicate p id.

(** the predicates must be the same; two that differ are printed *)
Fixpoint same_predicates (remote_mine remote_other : Z → option string) (mine other : list predicate) : res bool :=
  match other, mine with
  | [], _ => Ok true
  | q :: other, m :: mine =>
      if predicate_eqb m q then same_predicates remote_mine remote_other mine other
      else
        let* _ := print remote_mine m in
        let* _ := print remote_other q in
        Ok false
  | _ :: _, [] => Err undefined_behaviour
  end.

(** what follows the move that starts the data rule *)
Definition DATA_MOVE_SIZE : Z := RETURN_BASE + NEXT_BASE + RETURN_DERIVED_BASE + MOVE_BASE + ptr_size.

(** the move of a pointer to a register becomes a move of [address] to the program counter *)
Definition patch_init (address : Z) (code : list byte) : res (list byte) :=
  let init_code := Z.of_nat (length code) - DATA_MOVE_SIZE in
  let* i := fetch code init_code in
  asserting (match i with Some MOVE_INSTR => true | _ => false end)
    (let* from := move_from code init_code in
     asserting (val_is_ptr from)
       (let* to := move_to code init_code in
        asserting (val_is_reg to)
          (let* code := byte_set code (move_to_ptr init_code) VAL_PCOUNTER in
           Ok (overwrite (Z.to_nat (init_code + MOVE_BASE)) (le_bytes 8 address) code)))).

(** [address] is where the code of the data rule is; the other program loses its first rule *)
Definition add_data_file (p other : program) (address : Z) : res (bool * program * program) :=
  if (num_predicates p <? num_predicates other)%nat then Ok (false, p, other)
  else
    let* same := same_predicates (name_of p) (name_of other) (predicates p) (predicates other) in
    if negb same then Ok (false, p, other)
    else
      match rules p, rules other with
      | init_rule :: rs, data :: rs' =>
          let* c := patch_init address (rule_code init_rule) in
          Ok (true, set_rules (mk_rule_entry (rule_string init_rule) c (rule_links init_rule) :: rs) (Some data) p,
              set_rules rs' (data_rule other) other)
      | _, _ => Err assert_fail
      end.

(** ** What a reader consumes *)

(** a reader that returns has read a definite part of the file, and what follows
    that part does not matter *)
Definition read_whole {A} (f : reader A) (l : list byte) (pos : Z) (a : A) (i : input) : Prop :=
  ∃ c, l = c ++ rest i ∧ position i = pos + Z.of_nat (length c) ∧
       ∀ k, f (mk_input (c ++ k) pos) = Ok (a, mk_input k (pos + Z.of_nat (length c))).

Definition exact {A} (f : reader A) : Prop :=
  ∀ l pos a i, f (mk_input l pos) = Ok (a, i) → read_whole f l pos a i.

(** or it went over the end *)
Definition moves {A} (f : reader A) : Prop :=
  ∀ l pos a i, f (mk_input l pos) = Ok (a, i) →
  read_whole f l pos a i ∨ (rest i = [] ∧ pos + Z.of_nat (length l) < position i).

(** a reader that uses what it reads *)
Definition hungry {A} (f : reader A) : Prop := ∀ pos r, f (mk_input [] pos) ≠ Ok r.

Definition final {A} (f : reader A) : Prop := exact f ∧ hungry f.

Lemma exact_moves {A} (f : reader A) : exact f → moves f.
Proof. intros H l pos a i E. left. by apply H. Qed.

Lemma exact_ret {A} (a : A) : exact (rret a).
Proof.
  intros l pos x i [= <- <-]. exists []. cbn. split; [done |]. split; [lia |]. intros k. unfold rret. do 3 f_equal. lia.
Qed.

Lemma exact_fail {A} f : exact (rfail f : reader A).
Proof. by intros l pos x i E. Qed.

Lemma exact_lift {A} (r : res A) : exact (rlift r).
Proof. destruct r as [a | f]; [apply (exact_ret a) | by intros l pos x i E]. Qed.

Lemma whole_bind {A B} (f : reader A) (g : A → reader B) l pos a i b j :
  read_whole f l pos a i → read_whole (g a) (rest i) (position i) b j → read_whole (rbind f g) l pos b j.
Proof.
  intros (c1 & -> & Hp1 & K1) (c2 & E & Hp2 & K2). exists (c1 ++ c2).
  rewrite E, Hp1 in *. rewrite app_assoc, length_app. split; [done |]. split; [rewrite Hp2; lia |].
  intros k. unfold rbind. rewrite <- app_assoc, K1. cbn. rewrite K2. do 3 f_equal. lia.
Qed.

Lemma exact_bind {A B} (f : reader A) (g : A → reader B) :
  exact f → (∀ a, exact (g a)) → exact (rbind f g).
Proof.
  intros Hf Hg l pos b j E. pose proof E as E'. unfold rbind in E'.
  apply res_bind_ok in E' as ([a [l1 p1]] & E1 & E2).
  eapply whole_bind; [by apply Hf | by apply (Hg a)].
Qed.

Lemma moves_bind {A B} (f : reader A) (g : A → reader B) :
  moves f → (∀ a, moves (g a)) → moves (rbind f g).
Proof.
  intros Hf Hg l pos b j E. unfold rbind in E. apply res_bind_ok in E as ([a [l1 p1]] & E1 & E2).
  cbn [fst snd] in E2. destruct (Hf _ _ _ _ E1) as [H1 | [H1 H1']], (Hg a _ _ _ _ E2) as [H2 | [H2 H2']].
  - left. by eapply whole_bind.
  - right. split; [done |]. destruct H1 as (c1 & -> & Hp1 & _). cbn [rest position] in *.
    rewrite length_app. lia.
  - right. cbn [rest position] in *. subst l1. destruct H2 as (c2 & E & Hp2 & _).
    destruct (app_eq_nil _ _ (eq_sym E)) as [-> ->]. cbn in Hp2. split; [done | lia].
  - right. cbn [rest position] in *. subst l1. cbn in H2'. split; [done | lia].
Qed.

(** at the end of the file a reader stays there *)
Lemma moves_end {A} (f : reader A) pos a i : moves f → f (mk_input [] pos) = Ok (a, i) → rest i = [].
Proof.
  intros Hf E. destruct (Hf _ _ _ _ E) as [(c & Ec & _) | [? _]]; [| done].
  by destruct (app_eq_nil _ _ (eq_sym Ec)).
Qed.

(** what uses its own reads after a reader shows whether that one went over the end *)
Lemma final_bind {A B} (f : reader A) (g : A → reader B) :
  moves f → (∀ a, final (g a)) → final (rbind f g).
Proof.
  intros Hf Hg. split.
  - intros l pos b j E. unfold rbind in E. apply res_bind_ok in E as ([a [l1 p1]] & E1 & E2).
    cbn [fst snd] in E2. destruct (Hg a) as [Hx Hh]. destruct (Hf _ _ _ _ E1) as [H1 | [H1 _]].
    + eapply whole_bind; [done | by apply Hx].
    + cbn in H1. subst l1. by apply Hh in E2.
  - intros pos r E. unfold rbind in E. apply res_bind_ok in E as ([a [l1 p1]] & E1 & E2).
    pose proof (moves_end _ _ _ _ Hf E1) as Hl. cbn in Hl. subst l1. by apply Hg in E2.
Qed.

Lemma final_first {A B} (f : reader A) (g : A → reader B) :
  final f → (∀ a, exact (g a)) → final (rbind f g).
Proof.
  intros [Hx Hh] Hg. split; [by apply exact_bind |]. intros pos r E. unfold rbind in E.
  apply res_bind_ok in E as (x & E1 & _). by apply Hh in E1.
Qed.

Lemma moves_if {A} (b : bool) (f g : reader A) : moves f → moves g → moves (if b then f else g).
Proof. by destruct b. Qed.

Lemma moves_assert {A} b (f : reader A) : moves f → moves (rassert b f).
Proof. intros H. unfold rassert. apply moves_if; [done | apply exact_moves, exact_fail]. Qed.

Lemma exact_assert {A} b (f : reader A) : exact f → exact (rassert b f).
Proof. intros H. unfold rassert. destruct b; [done | apply exact_fail]. Qed.

Lemma moves_read n old : moves (READ_CODE n old).
Proof.
  intros l pos a i. unfold READ_CODE. cbn [rest position]. intros E. injection E as <- <-. cbn [rest position].
  destruct (Nat.leb_spec n (length l)) as [Hn | Hn].
  - left. exists (take n l). cbn [rest position]. rewrite take_drop, length_take_le by done. split; [done |]. split; [done |].
    intros k. assert (Hl : length (take n l) = n) by (rewrite length_take; lia).
    by rewrite take_app_length', drop_app_length', Hl.
  - right. rewrite drop_ge by lia. split; [done | lia].
Qed.

Lemma final_new n : (0 < n)%nat → final (READ_NEW n).
Proof.
  intros Hn. split.
  - intros l pos a i E. pose proof (moves_read n []) as Hm. unfold READ_NEW, rbind in E.
    apply res_bind_ok in E as ([bs [l1 p1]] & E1 & E2). cbn [fst snd] in E2.
    unfold defined in E2. destruct (Nat.leb_spec n (length bs)) as [Hl |]; [| done]. injection E2 as <- <-.
    destruct (Hm _ _ _ _ E1) as [(c & Hc & Hp & K) | [_ H1]].
    + exists c. split; [done |]. split; [done |]. intros k. unfold READ_NEW, rbind. rewrite K. cbn [res_bind fst snd].
      unfold defined. by rewrite (proj2 (Nat.leb_le _ _)).
    + exfalso. unfold READ_CODE in E1. injection E1 as <- <- <-. cbn [rest position] in *.
      rewrite drop_nil, app_nil_r, length_take in Hl. lia.
  - intros pos r E. unfold READ_NEW, READ_CODE, rbind, defined in E. cbn in E.
    destruct n; [lia |]. by rewrite take_nil, drop_nil in E.
Qed.

Lemma moves_new n : moves (READ_NEW n).
Proof.
  unfold READ_NEW, defined. apply moves_bind; [apply moves_read |]. intros bs.
  apply moves_if; apply exact_moves; [apply exact_ret | apply exact_fail].
Qed.

Lemma exact_position : exact (get_position : reader Z).
Proof.
  intros l pos a i [= <- <-]. exists []. cbn. split; [done |]. split; [lia |]. intros k. unfold get_position. cbn.
  do 3 f_equal. lia.
Qed.

Lemma exact_loop {A} (f : nat → reader A) : (∀ i, exact (f i)) → ∀ n i, exact (read_loop f i n).
Proof.
  intros Hf. induction n as [| n IH]; intros i; cbn [read_loop]; [apply exact_ret |].
  apply exact_bind; [done |]. intros a. apply exact_bind; [apply IH |]. intros l. apply exact_ret.
Qed.

Lemma moves_loop {A} (f : nat → reader A) : (∀ i, moves (f i)) → ∀ n i, moves (read_loop f i n).
Proof.
  intros Hf. induction n as [| n IH]; intros i; cbn [read_loop]; [apply exact_moves, exact_ret |].
  apply moves_bind; [done |]. intros a. apply moves_bind; [apply IH |]. intros l. apply exact_moves, exact_ret.
Qed.

Lemma moves_ret {A} (a : A) : moves (rret a).
Proof. apply exact_moves, exact_ret. Qed.
Lemma moves_fail {A} f : moves (rfail f : reader A).
Proof. apply exact_moves, exact_fail. Qed.
Lemma moves_lift {A} (r : res A) : moves (rlift r).
Proof. apply exact_moves, exact_lift. Qed.
Lemma moves_position : moves (get_position : reader Z).
Proof. apply exact_moves, exact_position. Qed.

Create HintDb reading.
#[export] Hint Resolve moves_ret moves_fail moves_lift moves_bind moves_if moves_assert moves_read moves_new
  moves_position moves_loop : reading.

Ltac reading :=
  repeat first
    [ progress intros
    | match goal with |- moves (let '(_, _) := ?p in _) => destruct p end
    | apply moves_bind | apply moves_if | apply moves_assert | apply moves_loop
    | solve [auto with reading nocore] ].

Lemma moves_byte : moves read_byte.
Proof. unfold read_byte. reading. Qed.
Lemma final_byte : final read_byte.
Proof. unfold read_byte. apply final_first; [apply final_new; lia |]. intros bs. apply exact_ret. Qed.
Lemma moves_uint : moves read_uint.
Proof. unfold read_uint. reading. Qed.
Lemma final_uint : final read_uint.
Proof. unfold read_uint. apply final_first; [apply final_new; lia |]. intros bs. apply exact_ret. Qed.
Lemma moves_int : moves read_int.
Proof. unfold read_int. reading. Qed.
#[export] Hint Resolve moves_byte moves_uint moves_int : reading.

Lemma moves_chars w n : moves (read_chars w n).
Proof. unfold read_chars. reading. Qed.
Lemma moves_code : moves read_code.
Proof. unfold read_code. reading. Qed.
#[export] Hint Resolve moves_chars moves_code : reading.

Lemma moves_error filename {A} reason : moves (load_error filename reason : reader A).
Proof. apply moves_fail. Qed.
Lemma moves_initial_priority typ : moves (read_initial_priority typ).
Proof. destruct typ; cbn; reading. Qed.
#[export] Hint Resolve moves_error moves_initial_priority : reading.

Lemma moves_header filename : moves (read_header filename).
Proof. unfold read_header. reading. Qed.
Lemma moves_imports major minor : moves (read_imports major minor).
Proof. unfold read_imports, read_import, read_export. reading. Qed.
Lemma moves_strings : moves read_strings.
Proof. unfold read_strings. reading. Qed.
Lemma moves_external dl i : moves (read_external dl i).
Proof. unfold read_external, read_arg_type. reading. Qed.
#[export] Hint Resolve moves_header moves_imports moves_strings moves_external : reading.

Lemma moves_function_code dl major minor : moves (read_function_code dl major minor).
Proof. unfold read_function_code, read_functions, read_externals. reading. Qed.
Lemma moves_predicates n : ∀ buf i, moves (read_predicates buf i n).
Proof. induction n; intros; cbn [read_predicates]; reading. Qed.
Lemma moves_priorities : moves read_priorities.
Proof. unfold read_priorities. reading. Qed.
Lemma moves_codes sizes : moves (read_codes sizes).
Proof. induction sizes; cbn [read_codes]; reading. Qed.
#[export] Hint Resolve moves_function_code moves_predicates moves_priorities moves_codes : reading.

(** the number of predicates of a rule is used *)
Lemma final_rule str : final (read_rule str).
Proof.
  unfold read_rule. do 2 (apply final_bind; [by auto with reading nocore |]; intros ?).
  apply final_first; [apply final_uint |]. intros n. apply exact_assert, exact_bind; [| intros ids; apply exact_ret].
  apply exact_loop. intros _. apply final_byte.
Qed.

Lemma exact_rules strs : ∀ i aff, exact (read_rules strs i aff).
Proof.
  induction strs as [| str strs IH]; intros i aff; cbn [read_rules]; [apply exact_ret |].
  apply exact_bind; [apply final_rule |]. intros r. apply exact_bind; [apply exact_lift |]. intros aff'.
  apply exact_bind; [apply IH |]. intros rs. apply exact_ret.
Qed.

(** and so is the number of rules before their codes *)
Lemma exact_program filename dl : exact (read_program filename dl).
Proof.
  unfold read_program, read_rule_string, read_const_types.
  apply final_bind; [reading |]. intros [major minor].
  do 15 (apply final_bind; [reading |]; intros ?).
  apply final_first; [apply final_uint |]. intros n. apply exact_assert, exact_bind; [apply exact_rules |].
  intros rs. apply exact_ret.
Qed.

(** C34: a file that loads is read up to a definite place: what follows it does not
    matter to the program, and with the file cut anywhere before it the constructor does
    not return a program, although no read is checked: it throws, fails an assertion or
    uses a variable that the stream never wrote, which is undefined. *)
Theorem load_reads_prefix filename dl bytes p :
  load filename dl bytes = Ok p →
  ∃ c tail, bytes = c ++ tail ∧ (∀ k, load filename dl (c ++ k) = Ok p) ∧
    ∀ d x, c = d ++ x → x ≠ [] → ∀ p', load filename dl d ≠ Ok p'.
Proof.
  unfold load. intros E. apply res_bind_ok in E as ([p1 i] & E & [= ->]).
  destruct (exact_program _ _ _ _ _ _ E) as (c & -> & _ & K). exists c, (rest i). split; [done |]. split.
  { intros k. by rewrite K. }
  intros d x -> Hx p' E'. apply res_bind_ok in E' as ([p2 j] & E' & _).
  destruct (exact_program _ _ _ _ _ _ E') as (c' & -> & _ & K').
  pose proof (K []) as K1. rewrite <- app_assoc in K1. rewrite <- app_assoc, K' in K1. injection K1 as _ Hl _.
  destruct (rest j); [| done]. cbn in Hl. rewrite app_nil_r in Hl. done.
Qed.

(** ** What is loaded *)

Record program_ok (p : program) : Prop := {
  ok_version : version_at_least (major_version p) (minor_version p) 0 5 = true ∧
               version_at_least (major_version p) (minor_version p) 0 10 = false;
  ok_codes : length (code p) = num_predicates p;
  ok_ids : ∀ i q, predicates p !! i = Some q → pred_id q = Z.of_nat i;
  ok_layout : ∀ i q, predicates p !! i = Some q →
    field_layout (pred_types q) 0 = Ok (fields_size q, fields_offset q, tuple_size q);
  ok_level : ∀ i q, predicates p !! i = Some q → pred_level q < MAX_STRAT_LEVEL p;
  ok_affected : length (affected_rules p) = num_predicates p;
  ok_link : link_rules (replicate (num_predicates p) []) 0 (map rule_links (rules p)) = Ok (affected_rules p);
  ok_linked : linked_to (map rule_links (rules p)) (affected_rules p);
  ok_small : Forall (λ r, length (rule_predicates (rule_links r)) < 10)%nat (rules p);
  ok_routes : ∀ i, i ∈ route_predicates p ↔ ∃ q, predicates p !! i = Some q ∧ is_route_pred q = true;
  ok_safe : safe p = true ↔
    ∀ i q a, predicates p !! i = Some q → agg_info q = Some a →
             agg_safeness a ≠ AGG_UNSAFE ∧ agg_safeness a ≠ AGG_IMMEDIATE;
  ok_data : data_rule p = None
}.

Lemma rbind_ok {A B} (f : reader A) (g : A → reader B) i r :
  rbind f g i = Ok r → ∃ a j, f i = Ok (a, j) ∧ g a j = Ok r.
Proof. intros E. apply res_bind_ok in E as ([a j] & E & H). by exists a, j. Qed.

Lemma rassert_ok {A} b (f : reader A) i r : rassert b f i = Ok r → b = true ∧ f i = Ok r.
Proof. unfold rassert. by destruct b. Qed.

Lemma rlift_ok {A} (x : res A) i r : rlift x i = Ok r → x = Ok r.1 ∧ r.2 = i.
Proof. intros E. apply res_bind_ok in E as (a & -> & [= <-]). done. Qed.

Lemma read_loop_ok {A} (f : nat → reader A) n : ∀ k i r,
  read_loop f k n i = Ok r →
  length r.1 = n ∧ ∀ j a, r.1 !! j = Some a → ∃ i1 i2, f (k + j)%nat i1 = Ok (a, i2).
Proof.
  induction n as [| n IH]; intros k i r E; cbn [read_loop] in E.
  { injection E as <-. done. }
  apply rbind_ok in E as (a & i1 & E1 & E). apply rbind_ok in E as (l & i2 & E2 & [= <-]).
  destruct (IH _ _ _ E2) as [Hn Hl]. cbn in *. split; [by rewrite Hn |].
  intros [| j] b; cbn; intros Hb.
  - injection Hb as <-. rewrite Nat.add_0_r. by eauto.
  - destruct (Hl j b Hb) as (j1 & j2 & Hj). rewrite <- Nat.add_assoc in Hj. by eauto.
Qed.

Lemma cache_predicates_ok all ps : ∀ qs, cache_predicates all ps = Ok qs →
  length qs = length ps ∧
  ∀ i q, qs !! i = Some q → ∃ p, ps !! i = Some p ∧ cache_info (λ id, all !! Z.to_nat id) p = Ok q.
Proof.
  induction ps as [| p ps IH]; intros qs E; cbn [cache_predicates] in E; [by injection E as <- |].
  apply res_bind_ok in E as (q & E1 & E). apply res_bind_ok in E as (qs' & E2 & [= <-]).
  destruct (IH _ E2) as [Hn Hl]. cbn. split; [by rewrite Hn |].
  intros [| i] x; cbn; intros Hx; [injection Hx as <-; by eauto | by apply Hl].
Qed.

Lemma cache_info_ok get p q :
  cache_info get p = Ok q →
  field_layout (pred_types q) 0 = Ok (fields_size q, fields_offset q, tuple_size q) ∧
  pred_id q = pred_id p ∧ pred_level q = pred_level p ∧ pred_types q = pred_types p ∧
  pred_name q = pred_name p ∧ is_route_pred q = is_route_pred p.
Proof.
  unfold cache_info, build_field_info. intros E. apply res_bind_ok in E as (p1 & E1 & E).
  apply res_bind_ok in E1 as ([[sizes offsets] total] & E1 & [= <-]). cbn in E.
  destruct (agg_info p) as [a |] eqn:Ea.
  - apply res_bind_ok in E as (b & _ & [= <-]). cbn. by rewrite E1.
  - injection E as <-. cbn. by rewrite E1.
Qed.

Lemma route_ids_spec ps : ∀ k i,
  i ∈ route_ids k ps ↔ ∃ j q, i = (k + j)%nat ∧ ps !! j = Some q ∧ is_route_pred q = true.
Proof.
  induction ps as [| p ps IH]; intros k i; cbn [route_ids].
  { split; [by intros ?%not_elem_of_nil | by intros (j & q & _ & ? & _)]. }
  assert (E : i ∈ route_ids (k + 1) ps ↔ ∃ j q, i = (k + S j)%nat ∧ ps !! j = Some q ∧ is_route_pred q = true).
  { rewrite IH. split; intros (j & q & -> & H); exists j, q; (split; [lia | done]). }
  destruct (is_route_pred p) eqn:Hp.
  - rewrite elem_of_cons, E. split.
    + intros [-> | (j & q & H)]; [exists 0%nat, p; split; [lia | done] | by exists (S j), q].
    + intros ([| j] & q & -> & Hq); [left; lia | right; by exists j, q].
  - rewrite E. split; [intros (j & q & H); by exists (S j), q |].
    intros ([| j] & q & -> & Hq & Hr); [cbn in Hq; congruence | by exists j, q].
Qed.

Lemma max_strat_level_spec ps : ∀ m,
  let n := fold_left (λ m p, Z.max (pred_level p + 1) m) ps m in
  m <= n ∧ Forall (λ p, pred_level p < n) ps.
Proof.
  induction ps as [| p ps IH]; intros m; cbn [fold_left]; [split; [lia | constructor] |].
  destruct (IH (Z.max (pred_level p + 1) m)) as [H1 H2]. cbn in *. split; [lia |].
  constructor; [lia | done].
Qed.

Lemma read_codes_ok sizes : ∀ i r, read_codes sizes i = Ok r → length r.1 = length sizes.
Proof.
  induction sizes as [| z sizes IH]; intros i r E; cbn [read_codes] in E; [by injection E as <- |].
  apply rbind_ok in E as (c & i1 & _ & E). apply rbind_ok in E as (cs & i2 & E2 & [= <-]).
  cbn. f_equal. exact (IH _ _ E2).
Qed.

Lemma read_rule_ok str i r : read_rule str i = Ok r →
  rule_string r.1 = str ∧ (length (rule_predicates (rule_links r.1)) < 10)%nat.
Proof.
  unfold read_rule. intros E. do 3 (apply rbind_ok in E as (? & ? & ? & E)).
  apply rassert_ok in E as [Hn E]. apply rbind_ok in E as (ids & i2 & E2 & [= <-]).
  apply read_loop_ok in E2 as [Hl _]. cbn in *. rewrite length_map, Hl. split; [done | lia].
Qed.

(** the loop links each rule as it is read *)
Lemma read_rules_ok strs : ∀ k aff i r, read_rules strs k aff i = Ok r →
  link_rules aff k (map rule_links r.1.1) = Ok r.1.2 ∧ map rule_string r.1.1 = strs ∧
  Forall (λ r, length (rule_predicates (rule_links r)) < 10)%nat r.1.1.
Proof.
  induction strs as [| str strs IH]; intros k aff i r E; cbn [read_rules] in E; [by injection E as <- |].
  apply rbind_ok in E as (ru & i1 & E1 & E). apply rbind_ok in E as (aff' & i2 & E2 & E).
  apply rbind_ok in E as (rs & i3 & E3 & [= <-]). apply read_rule_ok in E1 as [Hs Hn].
  apply rlift_ok in E2 as [E2 _]. destruct (IH _ _ _ _ E3) as (H1 & H2 & H3). cbn [fst snd] in *.
  split; [| split; [cbn; by rewrite Hs, H2 | by constructor]].
  cbn [map link_rules]. unfold RuleMatcher.num_predicates. rewrite (proj2 (Nat.ltb_lt _ _) Hn). cbn [asserting].
  rewrite E2. cbn [res_bind]. exact H1.
Qed.

Lemma make_predicate_id buf k p : make_predicate_from_buf buf k = Ok p → pred_id p.1 = k.
Proof.
  unfold make_predicate_from_buf. intros E. do 8 (apply res_bind_ok in E as (? & _ & E)). by injection E as <-.
Qed.

Lemma read_predicates_ok n : ∀ buf k i r, read_predicates buf k n i = Ok r →
  length r.1 = n ∧ ∀ j p, r.1 !! j = Some p → pred_id p.1 = Z.of_nat (k + j).
Proof.
  induction n as [| n IH]; intros buf k i r E; cbn [read_predicates] in E; [by injection E as <- |].
  apply rbind_ok in E as (buf' & i1 & _ & E). apply rbind_ok in E as (p & i2 & E2 & E).
  apply rbind_ok in E as (ps & i3 & E3 & [= <-]). apply rlift_ok in E2 as [E2%make_predicate_id _].
  destruct (IH _ _ _ _ E3) as [Hn Hl]. cbn in *. split; [by rewrite Hn |].
  intros [| j] q; cbn; intros Hq.
  - injection Hq as <-. by rewrite Nat.add_0_r.
  - rewrite (Hl j q Hq). lia.
Qed.

Lemma linked_to_none n : linked_to [] (replicate n []).
Proof.
  split; [| split].
  - intros id l r [-> _]%lookup_replicate Hr. by apply not_elem_of_nil in Hr.
  - by intros id l r ru _ Hr.
  - by intros r ru id Hr.
Qed.

Lemma safe_predicate_spec p :
  safe_predicate p = true ↔ ∀ a, agg_info p = Some a → agg_safeness a ≠ AGG_UNSAFE ∧ agg_safeness a ≠ AGG_IMMEDIATE.
Proof.
  unfold safe_predicate, is_unsafe_agg, get_agg_safeness. destruct (agg_info p) as [a |]; cbn [of_option res_bind].
  - rewrite negb_true_iff, orb_false_iff, !bool_decide_eq_false. split; [by intros [H1 H2] a' [= <-] | intros H; by apply H].
  - by split.
Qed.

Lemma read_header_ok filename i r : read_header filename i = Ok r →
  version_at_least r.1.1 r.1.2 0 5 = true ∧ version_at_least r.1.1 r.1.2 0 10 = false.
Proof.
  unfold read_header. intros E. do 2 (apply rbind_ok in E as (? & ? & _ & E)). case_match; [done |].
  do 2 (apply rbind_ok in E as (? & ? & _ & E)). case_match eqn:H5; [done |]. case_match eqn:H10; [done |].
  injection E as <-. split; [by apply negb_false_iff | done].
Qed.

Lemma load_program_ok filename dl bytes p : load filename dl bytes = Ok p → program_ok p.
Proof.
  unfold load. intros E. apply res_bind_ok in E as ([p1 i] & E & [= ->]). unfold read_program in E.
  apply rbind_ok in E as ([major minor] & i1 & Hv & E).
  apply read_header_ok in Hv as [Hv1 Hv2].
  apply rbind_ok in E as (buf & i2 & _ & E). set (n := le_value buf) in *. cbn zeta in E. do 3 (apply rbind_ok in E as (? & ? & _ & E)).
  apply rbind_ok in E as (? & ? & _ & E). apply rbind_ok in E as (n_rules & ? & _ & E).
  apply rbind_ok in E as (strs & ? & _ & E). do 4 (apply rbind_ok in E as (? & ? & _ & E)).
  apply rbind_ok in E as (preds & ? & Hp & E). apply rbind_ok in E as (cached & ? & Hc & E).
  apply rbind_ok in E as (? & ? & _ & E). apply rbind_ok in E as (codes & ? & Hcodes & E).
  apply rbind_ok in E as (? & ? & _ & E). apply rassert_ok in E as [_ E].
  apply rbind_ok in E as ([rs aff] & ? & Hrs & [= <- _]).
  apply read_predicates_ok in Hp as [Hn Hp]. apply rlift_ok in Hc as [Hc _]. cbn [fst] in Hn, Hp, Hc.
  apply cache_predicates_ok in Hc as [Hlen Hc]. rewrite length_map in Hlen.
  apply read_codes_ok in Hcodes. rewrite length_map in Hcodes. cbn [fst] in Hcodes.
  apply read_rules_ok in Hrs as (Hl & _ & Hsmall). cbn [fst snd] in Hl, Hsmall.
  pose proof Hl as Hlink.
  apply (link_rules_ok _ [] (replicate (Z.to_nat n) [])) in Hl as [Ha Hl]; [| apply linked_to_none].
  rewrite length_replicate in Ha.
  assert (Hq : ∀ i q, cached !! i = Some q → ∃ d, preds !! i = Some d ∧ pred_id q = pred_id d.1 ∧
    pred_level q = pred_level d.1 ∧ is_route_pred q = is_route_pred d.1 ∧
    field_layout (pred_types q) 0 = Ok (fields_size q, fields_offset q, tuple_size q)).
  { intros j q Hj. destruct (Hc j q Hj) as (d & Hd & Hi). rewrite list_lookup_fmap in Hd.
    apply fmap_Some in Hd as (d' & Hd & ->). apply cache_info_ok in Hi as (? & ? & ? & _ & _ & ?). by exists d'. }
  split; cbn; try done.
  - unfold num_predicates. cbn. congruence.
  - intros j q Hj. destruct (Hq j q Hj) as (d & Hd & -> & _). exact (Hp j d Hd).
  - intros j q Hj. by destruct (Hq j q Hj) as (d & _ & _ & _ & _ & ?).
  - intros j q Hj. destruct (Hq j q Hj) as (d & Hd & _ & -> & _).
    destruct (max_strat_level_spec (map fst preds) 0) as [_ Hf]. rewrite Forall_forall in Hf.
    apply Hf, list_elem_of_In, in_map, list_elem_of_In. by eapply list_elem_of_lookup_2.
  - unfold num_predicates. cbn. congruence.
  - unfold num_predicates. cbn. replace (length cached) with (Z.to_nat n) by congruence. exact Hlink.
  - intros j. rewrite route_ids_spec. split.
    + intros (j' & d & -> & Hd & Hr). rewrite list_lookup_fmap in Hd. apply fmap_Some in Hd as (d' & Hd & ->).
      destruct (lookup_lt_is_Some_2 cached j') as [q Hj]; [apply lookup_lt_Some in Hd; lia |].
      destruct (Hq j' q Hj) as (d & Hd2 & _ & _ & Hr2 & _). exists q. split; [done |]. congruence.
    + intros (q & Hj & Hr). destruct (Hq j q Hj) as (d & Hd & _ & _ & Hr2 & _). exists j, d.1.
      rewrite list_lookup_fmap, Hd. split; [done |]. split; [done |]. congruence.
  - rewrite forallb_forall. split.
    + intros Hs j q a Hj. apply safe_predicate_spec, Hs, list_elem_of_In. by eapply list_elem_of_lookup_2.
    + intros Hs q [j Hj]%list_elem_of_In%list_elem_of_lookup_1. apply safe_predicate_spec. intros a. by apply (Hs j).
Qed.

(** C5: whatever file loads, the program is well formed: a supported version, each
    predicate at its id with the layout of its fields and code of its own, a level below
    the greatest, rules and predicates linked both ways, and safe when no aggregate is
    unsafe. *)
Theorem load_ok filename dl bytes p : load filename dl bytes = Ok p → program_ok p.
Proof. apply load_program_ok. Qed.

(** ** Data files *)

Lemma bytes_at_memcpy code n k bs :
  memcpy_from code k n = Ok bs → bytes_at code n (Z.of_nat k) = Ok (le_value bs).
Proof.
  unfold memcpy_from. destruct (decide (k + n <= length code)%nat) as [Hk |]; [| done]. intros [= <-].
  revert k Hk. induction n as [| n IH]; intros k Hk; [done |]. cbn [bytes_at]. unfold Instr.byte_at.
  rewrite (proj2 (Z.ltb_ge _ _)) by lia. rewrite Nat2Z.id.
  destruct (lookup_lt_is_Some_2 code k) as [b Hb]; [lia |]. rewrite Hb. cbn [of_option res_bind].
  replace (Z.of_nat k + 1) with (Z.of_nat (S k)) by lia. rewrite IH by lia. cbn [res_bind].
  rewrite (drop_S code b k Hb). cbn [firstn le_value]. done.
Qed.

Lemma overwrite_at {A} off (data l : list A) :
  (off + length data <= length l)%nat →
  length (overwrite off data l) = length l ∧
  (∀ i, (i < off ∨ off + length data <= i)%nat → overwrite off data l !! i = l !! i) ∧
  take (length data) (drop off (overwrite off data l)) = data.
Proof.
  intros H. unfold overwrite. assert (Hl : length (take off l) = off) by (rewrite length_take; lia). split; [| split].
  - rewrite !length_app, length_drop, Hl. lia.
  - intros i [Hi | Hi].
    + rewrite lookup_app_l by lia. by rewrite lookup_take_lt.
    + rewrite lookup_app_r, Hl by lia. rewrite lookup_app_r by lia. rewrite lookup_drop. f_equal. lia.
  - rewrite drop_app_length' by done. by rewrite take_app_length.
Qed.

(** the patched code ends with a move of [address] to the program counter and what
    followed the move before *)
Record patched (address : Z) (code code' : list byte) : Prop := {
  patched_length : length code' = length code;
  patched_from : ∃ from, move_from code' (Z.of_nat (length code) - DATA_MOVE_SIZE) = Ok from ∧ val_is_ptr from = true;
  patched_to : move_to code' (Z.of_nat (length code) - DATA_MOVE_SIZE) = Ok VAL_PCOUNTER;
  patched_ptr : pcounter_ptr code' (Z.of_nat (length code) - DATA_MOVE_SIZE + MOVE_BASE) = Ok address;
  patched_rest : ∀ i, (i + 12 ≠ length code)%nat → (i + 11 < length code ∨ length code <= i + 3)%nat →
                      code' !! i = code !! i
}.

Lemma code_byte_lookup code pc b : Instr.byte_at code pc = Ok b → 0 <= pc ∧ code !! Z.to_nat pc = Some b.
Proof.
  unfold Instr.byte_at. destruct (Z.ltb_spec pc 0); [done |]. by destruct (code !! _) eqn:E; intros [= <-].
Qed.

Lemma code_byte_same code code' pc : (∀ i, i = Z.to_nat pc → code' !! i = code !! i) →
  Instr.byte_at code' pc = Instr.byte_at code pc.
Proof. intros H. unfold Instr.byte_at. by rewrite H. Qed.

Lemma patch_init_ok address code code' :
  0 <= address < 2 ^ 64 → patch_init address code = Ok code' → patched address code code'.
Proof.
  intros Ha. unfold patch_init. intros E. apply res_bind_ok in E as (i & E1 & E). apply asserting_ok in E as [_ E].
  apply res_bind_ok in E as (from & E2 & E). apply asserting_ok in E as [Hf E].
  apply res_bind_ok in E as (to & E3 & E). apply asserting_ok in E as [_ E].
  apply res_bind_ok in E as (c1 & E4 & E).
  unfold fetch in E1. apply res_bind_ok in E1 as (b & [Hn _]%code_byte_lookup & _).
  change DATA_MOVE_SIZE with 14 in *. set (n := length code) in *.
  assert (Hn' : (14 <= n)%nat) by lia. clear Hn E3.
  unfold byte_set in E4. apply res_bind_ok in E4 as (b' & _ & [= E4]).
  unfold move_to_ptr, MOVE_BASE in *.
  replace (Z.to_nat (Z.of_nat n - 14 + 2)) with (n - 12)%nat in E4 by lia.
  replace (Z.to_nat (Z.of_nat n - 14 + 3)) with (n - 11)%nat in E by lia.
  assert (Hl : length c1 = n) by (subst c1; by rewrite length_insert).
  destruct (overwrite_at (n - 11) (le_bytes 8 address) c1) as (O1 & O2 & O3); [rewrite le_bytes_length; lia |].
  rewrite le_bytes_length in O2, O3.
  assert (Ec : code' = overwrite (n - 11) (le_bytes 8 address) c1) by congruence. clear E.
  assert (R : ∀ i, (i ≠ n - 12)%nat → (i < n - 11 ∨ n - 11 + 8 <= i)%nat → code' !! i = code !! i).
  { intros j Hj Hj'. rewrite Ec, O2 by lia. subst c1. by rewrite list_lookup_insert_ne. }
  split; change DATA_MOVE_SIZE with 14; fold n.
  - by rewrite Ec, O1.
  - exists from. split; [| done]. unfold move_from, val_get in *. rewrite <- E2.
    erewrite code_byte_same; [done |]. intros j ->. apply R; lia.
  - unfold move_to, val_get, Instr.byte_at. rewrite (proj2 (Z.ltb_ge _ _)) by lia.
    replace (Z.to_nat (Z.of_nat n - 14 + 2)) with (n - 12)%nat by lia.
    rewrite Ec, O2 by lia. subst c1. rewrite list_lookup_insert_eq by (unfold n in *; lia). done.
  - unfold pcounter_ptr. change MOVE_BASE with 3. replace (Z.of_nat n - 14 + 3) with (Z.of_nat (n - 11)) by lia.
    rewrite (bytes_at_memcpy _ _ _ (le_bytes 8 address)).
    + rewrite le_value_bytes, wrap_id; [done | cbn; lia].
    + unfold memcpy_from. rewrite decide_True by (rewrite Ec; lia). by rewrite Ec, O3.
  - intros j H1 H2. apply R; lia.
Qed.

Lemma same_predicates_ok f g other : ∀ mine,
  same_predicates f g mine other = Ok true →
  ∀ i q, other !! i = Some q → ∃ m, mine !! i = Some m ∧ predicate_eqb m q = true.
Proof.
  induction other as [| q other IH]; intros mine E i x Hi; [done |].
  destruct mine as [| m mine]; cbn [same_predicates] in E; [done |].
  destruct (predicate_eqb m q) eqn:Em; [| by do 2 (apply res_bind_ok in E as (? & _ & E))].
  destruct i as [| i]; cbn in Hi |- *; [exists m; split; [done | congruence] | by apply (IH mine)].
Qed.

(** a data file that is added has the predicates of the program, or the first of
    them; its first rule becomes the data rule and leaves it, and the end of the first
    rule of the program jumps to the code of that rule instead of moving a pointer to a
    register; nothing else of the program changes. *)
Theorem add_data_file_ok p other address p' other' :
  0 <= address < 2 ^ 64 →
  add_data_file p other address = Ok (true, p', other') →
  (∀ i q, predicates other !! i = Some q → ∃ m, predicates p !! i = Some m ∧ predicate_eqb m q = true) ∧
  ∃ init rs data c, rules p = init :: rs ∧ rules other = data :: rules other' ∧
    patched address (rule_code init) c ∧
    p' = set_rules (mk_rule_entry (rule_string init) c (rule_links init) :: rs) (Some data) p ∧
    other' = set_rules (rules other') (data_rule other) other.
Proof.
  intros Ha E. unfold add_data_file in E. destruct (_ <? _)%nat; [done |].
  apply res_bind_ok in E as ([] & E1 & E); [| done]. cbn [negb] in E. split; [by eapply same_predicates_ok |].
  destruct (rules p) as [| init rs]; [done |]. destruct (rules other) as [| data rs'] eqn:Eo; [done |].
  apply res_bind_ok in E as (c & E2%patch_init_ok & [= <- <-]); [| done]. by exists init, rs, data, c.
Qed.
