(* ===== verification/LoaderFormat.v ===== *)
(** The byte code files a compiler writes, as a writer over what a file says, and that
    the loader of [Loader] and the database of [Node] read back what was written. *)

From Stdlib Require Import ZArith Lia Bool.
From stdpp Require Import base tactics list numbers option strings gmap.
From S2P Require Import Prelude Words Instr Types RuleMatcher Node Loader.

#[local] Open Scope Z_scope.

(** ** Files *)

Record source_rule : Type := mk_source_rule {
  text : string;
  body : list byte;
  links : rule
}.

(** a function of a library: its number, its name and the library, the place of its
    pointer, the types of its result and of its arguments *)
Record source_external : Type := mk_source_external {
  extern_id : Z;
  extern_name : string;
  extern_path : string;
  skip_ptr : Z;
  ret_type : field_type;
  arg_types : list field_type
}.

(** major version 0; predicates come with their code *)
Record source : Type := mk_source {
  minor : Z;
  source_nodes : list (Z * Z);
  source_imports : list (string * string * string);
  source_exports : list string;
  source_args : Z;
  source_rules : list source_rule;
  source_strings : list string;
  source_consts : list field_type;
  source_const_code : list byte;
  source_functions : list (list byte);
  source_externals : list source_external;
  source_predicates : list (predicate * list byte);
  source_priorities : priority_info
}.

(** ** The writer *)

Definition write_uint (v : Z) : list byte := le_bytes 4 v.
Definition write_len {A} (l : list A) : list byte := write_uint (Z.of_nat (length l)).
Definition write_all {A} (w : A → list byte) (l : list A) : list byte := concat (map w l).
Definition write_text (s : string) : list byte := write_len (bytes_of_string s) ++ bytes_of_string s.
Definition write_code (c : list byte) : list byte := write_len c ++ c.
Definition write_fixed (n : nat) (s : string) : list byte :=
  bytes_of_string s ++ replicate (n - length (bytes_of_string s)) 0.

Definition write_node (n : Z * Z) : list byte := le_bytes 4 n.1 ++ le_bytes 4 n.2.
Definition write_import (i : string * string * string) : list byte :=
  write_text i.1.1 ++ write_text i.1.2 ++ write_text i.2.

Definition write_external (e : source_external) : list byte :=
  write_uint (extern_id e) ++ write_fixed 256 (extern_name e) ++ write_fixed 1024 (extern_path e) ++
  le_bytes 8 (skip_ptr e) ++ write_len (arg_types e) ++ [field_type_code (ret_type e)] ++
  map field_type_code (arg_types e).

Definition write_priorities (p : priority_info) : list byte :=
  match priority_type p, priority_ordering p with
  | Some FIELD_FLOAT, Some o => [2; 1; match o with PRIORITY_ASC => 1 | PRIORITY_DESC => 0 end]
                                ++ le_bytes 8 (initial_priority p)
  | Some _, Some o => [2; 2; match o with PRIORITY_ASC => 1 | PRIORITY_DESC => 0 end]
                      ++ le_bytes 4 (initial_priority p)
  | _, _ => [3]
  end.

Definition write_rule (r : source_rule) : list byte :=
  write_code (body r) ++ [if as_persistent (links r) then 1 else 0] ++
  write_len (rule_predicates (links r)) ++ map Z.of_nat (rule_predicates (links r)).

Definition write_header (s : source) : list byte :=
  write_uint MAGIC1 ++ write_uint MAGIC2 ++ write_uint 0 ++ write_uint (minor s).

Definition write_imports (s : source) : list byte :=
  if 9 <=? minor s then
    write_len (source_imports s) ++ write_all write_import (source_imports s) ++
    write_len (source_exports s) ++ write_all write_text (source_exports s)
  else [].

Definition write_externals (s : source) : list byte :=
  if 7 <=? minor s then write_len (source_externals s) ++ write_all write_external (source_externals s)
  else [].

Definition write_functions (s : source) : list byte :=
  if 6 <=? minor s then
    (write_len (source_functions s) ++ write_all write_code (source_functions s)) ++ write_externals s
  else [].

Definition write_predicate (p : predicate * list byte) : list byte :=
  descriptor (Z.of_nat (length p.2)) p.1.

(** what comes before the functions *)
Definition write_before (s : source) : list byte :=
  write_header s ++
  [Z.of_nat (length (source_predicates s))] ++
  write_len (source_nodes s) ++ write_all write_node (source_nodes s) ++
  write_imports s ++
  [source_args s] ++
  write_len (source_rules s) ++ write_all write_text (map text (source_rules s)) ++
  (write_len (source_strings s) ++ write_all write_text (source_strings s)) ++
  (write_len (source_consts s) ++ map field_type_code (source_consts s)) ++
  write_code (source_const_code s).

(** the file, given the descriptors of its predicates *)
Definition write_with (descriptors : list byte) (s : source) : list byte :=
  write_header s ++
  [Z.of_nat (length (source_predicates s))] ++
  write_len (source_nodes s) ++ write_all write_node (source_nodes s) ++
  write_imports s ++
  [source_args s] ++
  write_len (source_rules s) ++ write_all write_text (map text (source_rules s)) ++
  (write_len (source_strings s) ++ write_all write_text (source_strings s)) ++
  (write_len (source_consts s) ++ map field_type_code (source_consts s)) ++
  write_code (source_const_code s) ++
  write_functions s ++
  descriptors ++
  write_priorities (source_priorities s) ++
  concat (map snd (source_predicates s)) ++
  write_len (source_rules s) ++ write_all write_rule (source_rules s).

Definition write (s : source) : list byte := write_with (write_all write_predicate (source_predicates s)) s.

(** ** What the format can hold *)

Definition short {A} (l : list A) : bool := Z.of_nat (length l) <? 2 ^ 31 - 1.
Definition text_ok (s : string) : bool :=
  short (bytes_of_string s) && forallb (λ b, negb (b =? 0)) (bytes_of_string s).

Definition rule_ok (num_preds : nat) (r : source_rule) : bool :=
  text_ok (text r) && (0 <? length (bytes_of_string (text r)))%nat && short (body r) &&
  (length (rule_predicates (links r)) <? 10)%nat &&
  forallb (λ id, (id <? num_preds)%nat) (rule_predicates (links r)).

Definition external_ok (e : source_external) : bool :=
  in_unsigned 32 (extern_id e) && in_unsigned 64 (skip_ptr e) &&
  text_ok (extern_name e) && (length (bytes_of_string (extern_name e)) <? 256)%nat &&
  text_ok (extern_path e) && (length (bytes_of_string (extern_path e)) <? 1024)%nat &&
  short (arg_types e) && forallb field_type_known (arg_types e) && field_type_known (ret_type e).

Definition predicate_ok (i : nat) (p : predicate * list byte) : bool :=
  describable p.1 && (pred_id p.1 =? Z.of_nat i) && short p.2.

Fixpoint predicates_ok (i : nat) (ps : list (predicate * list byte)) : bool :=
  match ps with
  | [] => true
  | p :: ps => predicate_ok i p && predicates_ok (i + 1) ps
  end.

Definition priorities_ok (p : priority_info) : bool :=
  match priority_type p, priority_ordering p with
  | Some FIELD_FLOAT, Some _ => in_unsigned 64 (initial_priority p) && negb (is_data_file p)
  | Some FIELD_INT, Some _ => in_unsigned 32 (initial_priority p) && negb (is_data_file p)
  | None, None => (initial_priority p =? 0) && is_data_file p
  | _, _ => false
  end.

Definition writable (s : source) : bool :=
  (5 <=? minor s) && (minor s <? 10) &&
  short (source_nodes s) && forallb (λ n, in_unsigned 32 n.1 && in_unsigned 32 n.2) (source_nodes s) &&
  short (source_imports s) && forallb (λ i, text_ok i.1.1 && text_ok i.1.2 && text_ok i.2) (source_imports s) &&
  short (source_exports s) && forallb text_ok (source_exports s) &&
  in_unsigned 8 (source_args s) &&
  short (source_rules s) && forallb (rule_ok (length (source_predicates s))) (source_rules s) &&
  short (source_strings s) && forallb text_ok (source_strings s) &&
  short (source_consts s) && forallb field_type_known (source_consts s) &&
  short (source_const_code s) &&
  short (source_functions s) && forallb short (source_functions s) &&
  short (source_externals s) && forallb external_ok (source_externals s) &&
  (length (source_predicates s) <? 256)%nat && predicates_ok 0 (source_predicates s) &&
  priorities_ok (source_priorities s).

(** ** What is loaded *)

(** the predicate made from the descriptor *)
Definition made_predicate (p : predicate * list byte) : predicate :=
  set_descriptor
    (overwrite NAME_OFFSET (name_image (pred_name p.1 +:+ ".import"))
       (map Some (descriptor (Z.of_nat (length p.2)) p.1))) p.1.

Definition made_rule (r : source_rule) : rule_entry := mk_rule_entry (text r) (body r) (links r).

Section Roundtrip.
Context (filename : string) (dl : string → string → Z).

Definition made_external (e : source_external) : option external_entry :=
  add_external_function (dl (extern_path e) (extern_name e)) (ret_type e) (arg_types e).

(** the place of the functions of libraries *)
Definition external_place (s : source) : Z :=
  if 7 <=? minor s
  then Z.of_nat (length (write_before s ++ write_len (source_functions s) ++
                         write_all write_code (source_functions s) ++ write_len (source_externals s)))
  else 0.

(** the program of a file, given what is made from its descriptors and computed over all
    of its predicates *)
Definition loaded_with (made : list predicate) (s : source) (cached : list predicate) (aff : list (list nat)) : program :=
  mk_program 0 (minor s) (Z.of_nat (length (source_nodes s))) (write_all write_node (source_nodes s))
    (if 9 <=? minor s then map (λ i, new_import i.1.1 i.1.2 i.2) (source_imports s) else [])
    (if 9 <=? minor s then source_exports s else [])
    (source_args s) (source_strings s) (source_consts s) (source_const_code s)
    (if 6 <=? minor s then source_functions s else [])
    (external_place s)
    (if 7 <=? minor s then map made_external (source_externals s) else [])
    cached (route_ids 0 made) (max_strat_level made)
    (forallb safe_predicate cached)
    (source_priorities s) (map snd (source_predicates s)) (map made_rule (source_rules s)) aff None.

Definition loaded (s : source) : list predicate → list (list nat) → program :=
  loaded_with (map made_predicate (source_predicates s)) s.

(** ** Reading back *)

Definition reads {A} (f : reader A) (pos : Z) (bs : list byte) (a : A) : Prop :=
  ∀ tail, f (mk_input (bs ++ tail) pos) = Ok (a, mk_input tail (pos + Z.of_nat (length bs))).

Lemma reads_nothing {A} (a : A) pos : reads (rret a) pos [] a.
Proof. intros tail. unfold rret. cbn. do 3 f_equal. lia. Qed.

Lemma reads_then {A B} (f : reader A) (g : A → reader B) pos bs1 a bs2 b :
  reads f pos bs1 a → reads (g a) (pos + Z.of_nat (length bs1)) bs2 b → reads (rbind f g) pos (bs1 ++ bs2) b.
Proof.
  intros Hf Hg tail. unfold rbind. rewrite <- app_assoc, Hf. cbn. rewrite Hg, length_app. do 3 f_equal. lia.
Qed.

Lemma reads_map {A B} (f : reader A) (g : A → B) pos bs a :
  reads f pos bs a → reads (rbind f (λ a, rret (g a))) pos bs (g a).
Proof. intros Hf tail. unfold rbind. by rewrite Hf. Qed.

(** a step that reads nothing *)
Lemma reads_known {A B} (r : res A) a (g : A → reader B) pos bs b :
  r = Ok a → reads (g a) pos bs b → reads (rbind (rlift r) g) pos bs b.
Proof. intros -> Hg tail. unfold rbind, rlift. cbn. apply Hg. Qed.

Lemma reads_position {B} (g : Z → reader B) pos bs b : reads (g pos) pos bs b → reads (rbind get_position g) pos bs b.
Proof. done. Qed.

(** a variable no longer than what is read *)
Lemma reads_code n old pos bs : length bs = n → (length old <= n)%nat → reads (READ_CODE n old) pos bs bs.
Proof.
  intros <- Ho tail. unfold READ_CODE. cbn [rest position]. rewrite take_app_length, drop_app_length.
  by rewrite drop_ge, app_nil_r by done.
Qed.

Lemma reads_fresh n pos bs : length bs = n → reads (READ_CODE n []) pos bs bs.
Proof. intros H. apply reads_code; [done | cbn; lia]. Qed.

Lemma reads_new n pos bs : length bs = n → reads (READ_NEW n) pos bs bs.
Proof.
  intros H. unfold READ_NEW. rewrite <- (app_nil_r bs) at 1. eapply reads_then; [by apply reads_fresh |].
  unfold defined. rewrite (proj2 (Nat.leb_le _ _)) by lia. apply reads_nothing.
Qed.

Lemma reads_byte pos b : 0 <= b < 256 → reads read_byte pos [b] b.
Proof.
  intros Hb. replace b with (le_value [b]) at 2 by (cbn; lia). apply reads_map. by apply reads_new.
Qed.

Lemma reads_le n pos v : 0 <= v < 2 ^ (8 * Z.of_nat n) →
  reads (rbind (READ_NEW n) (λ bs, rret (le_value bs))) pos (le_bytes n v) v.
Proof.
  intros Hv. replace v with (le_value (le_bytes n v)) at 2 by (by rewrite le_value_bytes, wrap_id).
  apply (reads_map (READ_NEW n)), reads_new, le_bytes_length.
Qed.

Lemma reads_uint pos v : 0 <= v < 2 ^ 32 → reads read_uint pos (write_uint v) v.
Proof. intros Hv. by apply (reads_le 4). Qed.

Lemma reads_len {A} (l : list A) pos :
  short l = true → reads read_uint pos (write_len l) (Z.of_nat (length l)).
Proof. unfold short. intros. apply reads_uint. lia. Qed.

Lemma reads_int_len {A} (l : list A) pos :
  short l = true → reads read_int pos (write_len l) (Z.of_nat (length l)).
Proof.
  unfold short. intros H%Z.ltb_lt.
  pose proof (reads_map (READ_NEW 4) (λ bs, swrap 32 (le_value bs)) pos _ _
                (reads_new 4 pos (write_len l) (le_bytes_length _ _))) as Hr.
  assert (E : swrap 32 (le_value (write_len l)) = Z.of_nat (length l)).
  { unfold write_len, write_uint. rewrite le_value_bytes, wrap_id by (cbn; lia). apply swrap_id; lia. }
  cbv beta in Hr. rewrite E in Hr. exact Hr.
Qed.

Lemma reads_loop {A B} (f : nat → reader B) (w : A → list byte) (v : A → B) (l : list A) pos : ∀ k,
  (∀ i a pos, l !! i = Some a → reads (f (k + i)%nat) pos (w a) (v a)) →
  reads (read_loop f k (length l)) pos (write_all w l) (map v l).
Proof.
  revert pos. induction l as [| a l IH]; intros pos k Hf; cbn [length read_loop]; [apply reads_nothing |].
  unfold write_all. cbn [map concat]. eapply reads_then.
  - specialize (Hf 0%nat a pos eq_refl). rewrite Nat.add_0_r in Hf. exact Hf.
  - apply (reads_map (read_loop f (k + 1) (length l)) (λ l, v a :: l)). apply IH. intros i b p Hb.
    specialize (Hf (S i) b p Hb). by rewrite <- Nat.add_assoc.
Qed.

Lemma reads_loop_id {A} (f : nat → reader A) (w : A → list byte) (l : list A) pos k :
  (∀ i a pos, l !! i = Some a → reads (f (k + i)%nat) pos (w a) a) →
  reads (read_loop f k (length l)) pos (write_all w l) l.
Proof. intros Hf. pose proof (reads_loop f w id l pos k Hf) as Hr. by rewrite map_id in Hr. Qed.

Lemma write_all_single {A} (w : A → byte) (l : list A) : write_all (λ a, [w a]) l = map w l.
Proof. induction l as [| a l IH]; [done |]. unfold write_all in *. cbn. by rewrite IH. Qed.

Lemma reads_chars w str pos :
  w = 32 ∨ w = 31 → text_ok str = true →
  reads (read_chars w (Z.of_nat (length (bytes_of_string str)))) pos (bytes_of_string str) str.
Proof.
  unfold text_ok, short. intros Hw [Hl Hz]%andb_true_iff. unfold read_chars.
  set (n := Z.of_nat (length (bytes_of_string str))) in *.
  assert (E : (0 <=? n) && (n + 1 <? 2 ^ w) = true) by (apply andb_true_iff; destruct Hw as [-> | ->]; lia).
  rewrite E. unfold n. rewrite Nat2Z.id.
  intros tail. unfold rbind. rewrite (reads_fresh (length (bytes_of_string str)) pos (bytes_of_string str) eq_refl).
  cbn [res_bind fst snd]. rewrite Z.eqb_refl. unfold rlift. by rewrite c_string_app, string_of_bytes_of_string.
Qed.

Lemma reads_text str pos g :
  text_ok str = true → g = (read_uint, 32) ∨ g = (read_int, 31) →
  reads (rbind g.1 (read_chars g.2)) pos (write_text str) str.
Proof.
  intros H Hg. pose proof H as [Hs _]%andb_true_iff.
  eapply reads_then; [| apply reads_chars; [by destruct Hg as [-> | ->]; cbn; auto | done]].
  destruct Hg as [-> | ->]; [by apply reads_len | by apply reads_int_len].
Qed.

Lemma reads_write_code c pos : short c = true → reads read_code pos (write_code c) c.
Proof. intros H. eapply reads_then; [by apply reads_len |]. apply reads_fresh. by rewrite Nat2Z.id. Qed.

Lemma field_type_code_byte t : field_type_known t = true → 0 <= field_type_code t < 256.
Proof. by destruct t. Qed.

Lemma reads_type t pos :
  field_type_known t = true → reads (rbind read_byte (λ b, rret (field_type_of b))) pos [field_type_code t] t.
Proof.
  intros H. rewrite <- (field_type_of_code t H) at 2.
  apply (reads_map read_byte), reads_byte, field_type_code_byte, H.
Qed.

Lemma forallb_lookup {A} (P : A → bool) (l : list A) i a : forallb P l = true → l !! i = Some a → P a = true.
Proof. rewrite forallb_forall. intros H Hi. apply H, list_elem_of_In. by eapply list_elem_of_lookup_2. Qed.

Lemma reads_types l pos :
  forallb field_type_known l = true →
  reads (read_loop (λ _, rbind read_byte (λ b, rret (field_type_of b))) 0 (length l)) pos (map field_type_code l) l.
Proof.
  intros H. rewrite <- write_all_single. apply (reads_loop_id (λ _, _)). intros i t p Ht. by apply reads_type, (forallb_lookup _ _ _ _ H Ht).
Qed.

Lemma reads_header s pos :
  5 <= minor s < 10 → reads (read_header filename) pos (write_header s) (0, minor s).
Proof.
  intros Hm. unfold read_header, write_header. eapply reads_then; [by apply reads_uint |].
  eapply reads_then; [by apply reads_uint |]. rewrite !Z.eqb_refl. cbn [andb negb].
  eapply reads_then; [by apply reads_uint |].
  assert (E5 : version_at_least 0 (minor s) 0 5 = true) by (apply (Z.leb_le 5); lia).
  assert (E10 : version_at_least 0 (minor s) 0 10 = false) by (apply (Z.leb_gt 10); lia).
  rewrite <- (app_nil_r (write_uint (minor s))). eapply reads_then; [apply reads_uint; lia |].
  rewrite E5, E10. apply reads_nothing.
Qed.

Lemma reads_import i pos k :
  text_ok i.1.1 && text_ok i.1.2 && text_ok i.2 = true →
  reads (read_import k) pos (write_import i) (new_import i.1.1 i.1.2 i.2).
Proof.
  intros [[H1 H2]%andb_true_iff H3]%andb_true_iff. unfold read_import, write_import.
  assert (L : ∀ str, text_ok str = true → le_value (write_len (bytes_of_string str)) = Z.of_nat (length (bytes_of_string str))).
  { intros str [Hs%Z.ltb_lt _]%andb_true_iff. unfold write_len, write_uint. rewrite le_value_bytes.
    apply wrap_id. cbn. lia. }
  assert (T : ∀ str (A : Type) rd (g : list byte → string → reader A) p bs a, text_ok str = true →
    (∀ q, reads rd q (write_len (bytes_of_string str)) (write_len (bytes_of_string str))) →
    (∀ q, reads (g (write_len (bytes_of_string str)) str) q bs a) →
    reads (rbind rd (λ n, rbind (read_chars 32 (le_value n)) (g n))) p (write_text str ++ bs) a).
  { intros str A rd g p bs a Hs Hrd Hg. unfold write_text. rewrite <- app_assoc.
    eapply reads_then; [apply Hrd |]. rewrite L by done.
    eapply reads_then; [apply reads_chars; auto | apply Hg]. }
  refine (T _ _ (READ_NEW 4) (λ n str, _) _ _ _ H1 _ _); [intros q; apply reads_new, le_bytes_length |]. intros q.
  refine (T _ _ (READ_CODE 4 _) (λ n str, _) _ _ _ H2 _ _); [intros q'; by apply reads_code |]. intros q'.
  rewrite <- (app_nil_r (write_text i.2)).
  refine (T _ _ (READ_CODE 4 _) (λ n str, _) _ _ _ H3 _ _); [intros q''; by apply reads_code |]. intros q''.
  apply reads_nothing.
Qed.

Lemma reads_imports s pos :
  short (source_imports s) = true →
  forallb (λ i, text_ok i.1.1 && text_ok i.1.2 && text_ok i.2) (source_imports s) = true →
  short (source_exports s) = true → forallb text_ok (source_exports s) = true →
  reads (read_imports 0 (minor s)) pos (write_imports s)
    (if 9 <=? minor s then map (λ i, new_import i.1.1 i.1.2 i.2) (source_imports s) else [],
     if 9 <=? minor s then source_exports s else []).
Proof.
  intros H1 H2 H3 H4. unfold read_imports, write_imports.
  assert (E : version_at_least 0 (minor s) 0 9 = (9 <=? minor s)) by done.
  rewrite E. destruct (9 <=? minor s); [| apply reads_nothing].
  eapply reads_then; [by apply reads_len |]. eapply reads_then.
  { rewrite Nat2Z.id. apply (reads_loop read_import). intros i a p Ha.
    apply reads_import. exact (forallb_lookup _ _ _ _ H2 Ha). }
  eapply reads_then; [by apply reads_len |]. rewrite Nat2Z.id.
  eapply (reads_map (read_loop read_export 0 _)), reads_loop_id.
  intros i a p Ha. apply (reads_text a p (read_uint, 32)); [exact (forallb_lookup _ _ _ _ H4 Ha) | by left].
Qed.

Lemma reads_strings l pos :
  short l = true → forallb text_ok l = true → reads read_strings pos (write_len l ++ write_all write_text l) l.
Proof.
  intros H1 H2. unfold read_strings. eapply reads_then; [by apply reads_int_len |].
  assert (E : Z.of_nat (length l) <? 0 = false) by (apply Z.ltb_ge; lia). rewrite E, Nat2Z.id.
  apply reads_loop_id. intros i a p Ha. apply (reads_text a p (read_int, 31)); [exact (forallb_lookup _ _ _ _ H2 Ha) | by right].
Qed.

Lemma reads_const_types l pos :
  short l = true → forallb field_type_known l = true →
  reads read_const_types pos (write_len l ++ map field_type_code l) l.
Proof.
  intros H1 H2. unfold read_const_types. eapply reads_then; [by apply reads_len |].
  rewrite Nat2Z.id. by apply reads_types.
Qed.

Lemma c_string_fixed n str :
  text_ok str = true → (length (bytes_of_string str) < n)%nat → c_string (write_fixed n str) = Ok str.
Proof.
  intros [_ Hz]%andb_true_iff Hn. unfold write_fixed.
  destruct (n - length (bytes_of_string str))%nat eqn:E; [lia |]. cbn [replicate].
  by rewrite c_string_app, string_of_bytes_of_string.
Qed.

Lemma write_fixed_length n str : (length (bytes_of_string str) <= n)%nat → length (write_fixed n str) = n.
Proof. intros H. unfold write_fixed. rewrite length_app, length_replicate. lia. Qed.

Lemma reads_arg_types l pos :
  forallb field_type_known l = true →
  reads (read_loop read_arg_type 0 (length l)) pos (map field_type_code l) l.
Proof.
  intros H. rewrite <- write_all_single. apply (reads_loop_id read_arg_type). intros i t p Ht.
  pose proof (forallb_lookup _ _ _ _ H Ht) as Hk. unfold read_arg_type.
  rewrite <- (app_nil_r [_]). eapply reads_then; [by apply reads_byte, field_type_code_byte |].
  rewrite field_type_of_code by done.
  destruct (field_type_string t) as [str |] eqn:E; [| by destruct t].
  eapply reads_known; [done |]. apply reads_nothing.
Qed.

Lemma reads_external e k pos :
  external_ok e = true → reads (read_external dl k) pos (write_external e) (made_external e).
Proof.
  unfold external_ok. rewrite !andb_true_iff. intros ((((((((H1 & H2) & H3) & H4) & H5) & H6) & H7) & H8) & H9).
  unfold in_unsigned in H1, H2. apply andb_true_iff in H1, H2. apply Nat.ltb_lt in H4, H6.
  unfold read_external, write_external. eapply reads_then; [apply reads_uint; lia |].
  eapply reads_then; [apply reads_fresh, write_fixed_length; lia |].
  eapply reads_then; [apply reads_fresh, write_fixed_length; lia |].
  eapply reads_then; [apply reads_fresh, le_bytes_length |].
  eapply reads_known; [apply c_string_fixed; [done | lia] |].
  eapply reads_known; [apply c_string_fixed; [done | lia] |].
  eapply reads_then; [by apply reads_len |].
  eapply reads_then; [by apply reads_byte, field_type_code_byte |].
  rewrite Nat2Z.id, field_type_of_code by done.
  apply (reads_map _ (add_external_function (dl (extern_path e) (extern_name e)) (ret_type e))).
  by apply reads_arg_types.
Qed.

Lemma reads_function_code s pos :
  pos = Z.of_nat (length (write_before s)) → 5 <= minor s < 10 → short (source_functions s) = true → forallb short (source_functions s) = true →
  short (source_externals s) = true → forallb external_ok (source_externals s) = true →
  reads (read_function_code dl 0 (minor s)) pos (write_functions s)
    (if 6 <=? minor s then source_functions s else [],
     (external_place s, if 7 <=? minor s then map made_external (source_externals s) else [])).
Proof.
  intros Hpos Hm H1 H2 H3 H4. unfold read_function_code, write_functions, read_externals, write_externals, external_place.
  assert (E : version_at_least 0 (minor s) 0 6 = (6 <=? minor s)) by done.
  rewrite E. cbn [Z.ltb Z.compare orb]. destruct (Z.leb_spec 6 (minor s)).
  2: { rewrite (proj2 (Z.leb_gt 7 (minor s))) by lia. apply reads_nothing. }
  assert (Hf : ∀ p, reads read_functions p (write_len (source_functions s) ++ write_all write_code (source_functions s))
                      (source_functions s)).
  { intros p. eapply reads_then; [by apply reads_len |]. rewrite Nat2Z.id. apply reads_loop_id.
    intros i c q Hc. apply reads_write_code. exact (forallb_lookup _ _ _ _ H2 Hc). }
  destruct (7 <=? minor s).
  - eapply reads_then; [apply Hf |]. rewrite <- (app_nil_r (_ ++ write_all write_external _)).
    eapply reads_then; [| apply reads_nothing]. eapply reads_then; [by apply reads_len |].
    apply reads_position. rewrite Hpos.
    match goal with |- reads (rbind _ (λ l, rret (?p, l))) _ _ _ =>
      replace p with (Z.of_nat (length (write_before s ++ write_len (source_functions s) ++
                                        write_all write_code (source_functions s) ++ write_len (source_externals s))))
        by (rewrite !length_app; lia) end.
    apply (reads_map (read_loop (read_external dl) 0 _) (λ l, (_, l))). rewrite Nat2Z.id. apply reads_loop. intros i e q He.
    apply reads_external. exact (forallb_lookup _ _ _ _ H4 He).
  - eapply reads_then; [apply Hf |]. apply (reads_map (rret _)), reads_nothing.
Qed.

Lemma descriptor_length size p : describable p = true → length (descriptor size p) = PRED_DESCRIPTOR_SIZE.
Proof.
  unfold describable. rewrite !andb_true_iff. intros (((((((Hl & _) & Hn) & _) & _) & _) & _) & _).
  apply Nat.leb_le in Hl. apply Nat.ltb_lt in Hn. unfold descriptor, descriptor_named. rewrite !length_app, le_bytes_length.
  rewrite !pad_length; [done | | lia | by rewrite length_map].
  destruct (agg_info p) as [a |]; cbn; [destruct (agg_safeness a); cbn; lia | lia].
Qed.

Lemma le_value_zeros bs n : le_value (bs ++ replicate n 0) = le_value bs.
Proof.
  induction bs as [| b bs IH]; cbn [app le_value]; [| by rewrite IH].
  induction n as [| n IH]; [done |]. cbn [replicate le_value]. rewrite IH. lia.
Qed.

(** descriptors of the size, one after the other *)
Lemma reads_predicates {A} (w : A → list byte) (v : A → predicate * Z) (l : list A) : ∀ buf k pos,
  (length buf <= PRED_DESCRIPTOR_SIZE)%nat →
  (∀ i a, l !! i = Some a → length (w a) = PRED_DESCRIPTOR_SIZE ∧
     make_predicate_from_buf (w a) (Z.of_nat (k + i)) = Ok (v a)) →
  reads (read_predicates buf k (length l)) pos (write_all w l) (map v l).
Proof.
  induction l as [| a l IH]; intros buf k pos Hb Hl; cbn [length read_predicates]; [apply reads_nothing |].
  destruct (Hl 0%nat a eq_refl) as [Hw Hm]. rewrite Nat.add_0_r in Hm. unfold write_all. cbn [map concat].
  eapply reads_then; [by apply reads_code |]. eapply reads_known; [exact Hm |].
  apply (reads_map (read_predicates _ _ _) (λ ps, v a :: ps)). apply IH; [by rewrite Hw |].
  intros i b Hi. destruct (Hl (S i) b Hi) as [H1 H2]. split; [done |]. by rewrite <- Nat.add_assoc.
Qed.

Lemma made_from_buf k p :
  predicate_ok k p = true →
  length (write_predicate p) = PRED_DESCRIPTOR_SIZE ∧
  make_predicate_from_buf (write_predicate p) (Z.of_nat k) = Ok (made_predicate p, Z.of_nat (length p.2)).
Proof.
  unfold predicate_ok, short. rewrite !andb_true_iff. intros [[Hd Hi%Z.eqb_eq] Hs%Z.ltb_lt].
  split; [by apply descriptor_length |]. unfold write_predicate.
  rewrite <- Hi, <- (app_nil_r (descriptor _ _)), descriptor_roundtrip by (done || lia). done.
Qed.

Lemma predicates_ok_lookup ps : ∀ k i p, predicates_ok k ps = true → ps !! i = Some p → predicate_ok (k + i) p = true.
Proof.
  induction ps as [| q ps IH]; intros k i p H; [done |]. cbn in H. apply andb_true_iff in H as [H1 H2].
  destruct i as [| i]; cbn; [intros [= <-]; by rewrite Nat.add_0_r |]. intros Hi.
  rewrite <- Nat.add_succ_comm, <- Nat.add_1_r. by apply IH.
Qed.

Lemma reads_priorities p pos : priorities_ok p = true → reads read_priorities pos (write_priorities p) p.
Proof.
  assert (R : ∀ t v o p pos, (t = FIELD_FLOAT ∧ in_unsigned 64 v = true) ∨ (t = FIELD_INT ∧ in_unsigned 32 v = true) →
    p = mk_priority_info (Some t) (Some o) v false → reads read_priorities pos (write_priorities p) p).
  { intros t v o q pos' Ht ->. unfold read_priorities, write_priorities. cbn [priority_type priority_ordering initial_priority].
    assert (Ho : ∀ b : Z, b = (match o with PRIORITY_ASC => 1 | PRIORITY_DESC => 0 end) → 0 <= b < 256 ∧
      (if b =? 0 then PRIORITY_DESC else PRIORITY_ASC) = o) by (intros b ->; by destruct o).
    destruct (Ho _ eq_refl) as [Hb Ho']. clear Ho.
    destruct Ht as [[-> Hv] | [-> Hv]]; unfold in_unsigned in Hv; apply andb_true_iff in Hv;
      match goal with |- reads _ _ ([2; ?t; ?b] ++ ?l) _ => change ([2; t; b] ++ l) with ([2] ++ [t] ++ [b] ++ l) end;
      (eapply reads_then; [by apply reads_byte |]; cbn [Z.eqb Pos.eqb];
       eapply reads_then; [by apply reads_code |];
       match goal with |- context [le_value [?t]] => change (le_value [t]) with t end; cbn [Z.eqb Pos.eqb];
       intros tail; unfold rbind at 1, rret at 1; cbn [res_bind fst snd]; revert tail;
       eapply reads_then; [by apply reads_byte |]; rewrite Ho';
       apply (reads_map (read_initial_priority _) (λ v, mk_priority_info (Some _) (Some o) v false))).
    - intros tail. unfold read_initial_priority, rbind.
      rewrite (reads_code 8 (replicate 8 0) _ (le_bytes 8 v)) by (apply le_bytes_length || done).
      cbn [res_bind fst snd]. by rewrite le_value_bytes, wrap_id by (cbn; lia).
    - intros tail. unfold read_initial_priority, rbind, READ_CODE. cbn [rest position res_bind fst snd].
      rewrite take_app_length', drop_app_length', le_bytes_length by by rewrite le_bytes_length.
      change (drop 4 (replicate 8 0)) with (replicate 4 0).
      by rewrite le_value_zeros, le_value_bytes, wrap_id by (cbn; lia). }
  unfold priorities_ok. destruct p as [[t |] [o |] v d];
    cbn [priority_type priority_ordering initial_priority is_data_file]; try done.
  - intros H. assert (Hd : d = false) by (destruct t; try done; by apply andb_true_iff in H as [_ H]; destruct d).
    subst d. apply (R t v o); [| done]. destruct t; try done; apply andb_true_iff in H as [H _]; auto.
  - by destruct t.
  - intros [->%Z.eqb_eq Hd]%andb_true_iff. destruct d; [| done]. unfold read_priorities, write_priorities. cbn.
    rewrite <- (app_nil_r [3]). eapply reads_then; [by apply reads_byte |]. apply reads_nothing.
Qed.

Lemma reads_codes cs : ∀ pos, reads (read_codes (map (λ c, Z.of_nat (length c)) cs)) pos (concat cs) cs.
Proof.
  induction cs as [| c cs IH]; intros pos; cbn [map read_codes concat]; [apply reads_nothing |].
  eapply reads_then; [apply reads_fresh; by rewrite Nat2Z.id |]. apply (reads_map _ (λ cs, c :: cs)), IH.
Qed.

Lemma reads_ids l pos :
  Forall (λ id, id < 256)%nat l → reads (read_loop (λ _, read_byte) 0 (length l)) pos (map Z.of_nat l) (map Z.of_nat l).
Proof.
  intros H. rewrite <- (write_all_single Z.of_nat) at 1. apply (reads_loop (λ _, read_byte)). intros i id p Hi.
  rewrite Forall_forall in H. apply reads_byte. specialize (H id ltac:(by eapply list_elem_of_lookup_2)). lia.
Qed.

Lemma reads_rule n r pos :
  (n < 256)%nat → rule_ok n r = true → reads (read_rule (text r)) pos (write_rule r) (made_rule r).
Proof.
  intros Hn. unfold rule_ok. rewrite !andb_true_iff. intros ((((_ & _) & Hb) & Hl%Nat.ltb_lt) & Hids).
  unfold read_rule, write_rule. eapply reads_then; [by apply reads_write_code |].
  eapply reads_then; [by apply (reads_code 1) |]. eapply reads_then; [apply reads_len; unfold short; lia |].
  unfold rassert. rewrite (proj2 (Z.ltb_lt _ 10)) by lia. rewrite Nat2Z.id.
  set (f := λ ids, mk_rule_entry (text r) (body r)
              (mk_rule (map Z.to_nat ids) (le_value [if as_persistent (links r) then 1 else 0] =? 1))).
  assert (E : f (map Z.of_nat (rule_predicates (links r))) = made_rule r).
  { unfold f, made_rule. destruct (links r) as [ids []]; cbn; rewrite map_map, (map_ext _ id), map_id; try done;
      intros x; apply Nat2Z.id. }
  rewrite <- E. apply (reads_map (read_loop (λ _, read_byte) 0 _) f), reads_ids.
  apply Forall_forall. intros id [i Hi]%list_elem_of_lookup_1.
  pose proof (forallb_lookup _ _ _ _ Hids Hi) as Hlt%Nat.ltb_lt. lia.
Qed.

Lemma reads_rules n rs : ∀ k aff aff' pos,
  (n < 256)%nat → forallb (rule_ok n) rs = true → link_rules aff k (map links rs) = Ok aff' →
  reads (read_rules (map text rs) k aff) pos (write_all write_rule rs) (map made_rule rs, aff').
Proof.
  induction rs as [| r rs IH]; intros k aff aff' pos Hn Hok Hl; cbn [map read_rules link_rules] in *.
  { injection Hl as <-. apply reads_nothing. }
  apply asserting_ok in Hl as [_ Hl]. apply res_bind_ok in Hl as (aff1 & H1 & Hl).
  cbn in Hok. apply andb_true_iff in Hok as [Hr Hok]. unfold write_all. cbn [map concat].
  eapply reads_then; [by eapply reads_rule |]. eapply reads_known; [exact H1 |].
  refine (reads_map (read_rules _ _ _) (λ rs, (made_rule r :: rs.1, rs.2)) _ _ (map made_rule rs, aff') _).
  by apply (IH _ _ aff').
Qed.

(** caching and linking return for what can be written *)
Lemma cache_described_ok get p buf : describable p = true → ∃ q, cache_info get (set_descriptor buf p) = Ok q.
Proof.
  unfold describable. rewrite !andb_true_iff. intros (((((((_ & Hk) & _) & _) & Ha) & _) & _) & _).
  unfold cache_info, build_field_info, set_descriptor. cbn [pred_types agg_info].
  destruct (field_layout_known (pred_types p) 0 Hk) as [[[sizes offsets] total] ->]. cbn [res_bind agg_info].
  destruct (agg_info p) as [a |]; [| by eexists]. unfold build_aggregate_info, agg_describable in *.
  rewrite !andb_true_iff in Ha. destruct Ha as [_ Ha].
  destruct (agg_safeness a), (agg_local_level a), (agg_remote_pred_id a); try done; by eexists.
Qed.

Lemma cache_made_ok all ps k :
  predicates_ok k ps = true → ∃ qs, cache_predicates all (map made_predicate ps) = Ok qs.
Proof.
  revert k. induction ps as [| p ps IH]; intros k H; cbn [map cache_predicates]; [by eexists |].
  cbn in H. apply andb_true_iff in H as [[[Hd _]%andb_true_iff _]%andb_true_iff H].
  destruct (IH _ H) as [qs Hqs]. rewrite Hqs. unfold made_predicate at 1.
  edestruct (cache_described_ok (λ id, all !! Z.to_nat id)) as [q Hq]; [exact Hd |]. rewrite Hq. by eexists.
Qed.

Lemma link_made_ok n rs : ∀ k aff,
  length aff = n → forallb (rule_ok n) rs = true → ∃ aff', link_rules aff k (map links rs) = Ok aff'.
Proof.
  induction rs as [| r rs IH]; intros k aff Hn Hok; cbn [map link_rules]; [by eexists |].
  cbn in Hok. apply andb_true_iff in Hok as [Hr Hok]. unfold rule_ok in Hr. rewrite !andb_true_iff in Hr.
  destruct Hr as [[_ Hl] Hids]. unfold RuleMatcher.num_predicates. rewrite Hl. cbn [asserting].
  assert (∃ aff1, link_predicates aff k (rule_predicates (links r)) = Ok aff1 ∧ length aff1 = n) as (aff1 & -> & H1).
  { clear - Hids Hn. revert aff Hn. induction (rule_predicates (links r)) as [| id ids IH]; intros aff Hn; [by eexists |].
    cbn in *. apply andb_true_iff in Hids as [Hid%Nat.ltb_lt Hids]. unfold push_affected.
    destruct (lookup_lt_is_Some_2 aff id) as [l Hl]; [lia |]. rewrite Hl. cbn. apply IH; [done |].
    by rewrite length_insert. }
  by apply IH.
Qed.

Lemma write_nodes_length l : length (write_all write_node l) = (8 * length l)%nat.
Proof.
  induction l as [| n l IH]; [done |]. unfold write_all in *. cbn [map concat length].
  rewrite length_app, IH. unfold write_node. rewrite length_app, !le_bytes_length. lia.
Qed.

Lemma reads_rule_string n r k pos :
  rule_ok n r = true → reads (read_rule_string k) pos (write_text (text r)) (text r).
Proof.
  unfold rule_ok. rewrite !andb_true_iff. intros ((((Ht & Hl%Nat.ltb_lt) & _) & _) & _). pose proof Ht as [Hs _]%andb_true_iff.
  unfold read_rule_string. eapply reads_then; [by apply reads_len |].
  unfold rassert. rewrite (proj2 (Z.ltb_lt 0 _)) by lia. apply reads_chars; auto.
Qed.

Lemma reads_rule_strings n rs pos :
  forallb (rule_ok n) rs = true →
  reads (read_loop read_rule_string 0 (length rs)) pos (write_all write_text (map text rs)) (map text rs).
Proof.
  intros H. rewrite <- (length_map text rs). apply reads_loop_id. intros i t p Hi.
  rewrite list_lookup_fmap in Hi. apply fmap_Some in Hi as (r & Hr & ->).
  eapply reads_rule_string, (forallb_lookup _ _ _ _ H Hr).
Qed.

Lemma combine_map_fst {A B} (l : list A) (l' : list B) : length l = length l' → map fst (combine l l') = l.
Proof. revert l'. induction l as [| a l IH]; intros [| b l']; try done. cbn. intros [= H]. by rewrite IH. Qed.
Lemma combine_map_snd {A B} (l : list A) (l' : list B) : length l = length l' → map snd (combine l l') = l'.
Proof. revert l'. induction l as [| a l IH]; intros [| b l']; try done. cbn. intros [= H]. by rewrite IH. Qed.

Lemma reads_program_with descs made s cached aff :
  writable s = true →
  length made = length (source_predicates s) →
  (∀ buf pos, (length buf <= PRED_DESCRIPTOR_SIZE)%nat →
     reads (read_predicates buf 0 (length (source_predicates s))) pos descs
            (combine made (map (λ p, Z.of_nat (length p.2)) (source_predicates s)))) →
  cache_predicates made made = Ok cached →
  link_rules (replicate (length (source_predicates s)) []) 0 (map links (source_rules s)) = Ok aff →
  reads (read_program filename dl) 0 (write_with descs s) (loaded_with made s cached aff).
Proof.
  unfold writable. rewrite !andb_true_iff.
  intros ((((((((((((((((((((((M1 & M2) & N1) & N2) & I1) & I2) & X1) & X2) & A) & R1) & R2) & S1) & S2) & C1) & C2)
    & CC) & F1) & F2) & E1) & E2) & P1) & P2) & Q) Hmade Hdescs Hc Hl.
  apply Z.leb_le in M1. apply Z.ltb_lt in M2. apply Nat.ltb_lt in P1. unfold in_unsigned in A. apply andb_true_iff in A.
  unfold read_program, write_with.
  eapply reads_then; [by apply reads_header |]. cbn beta iota.
  eapply reads_then; [by apply (reads_new 1) |]. cbn zeta.
  replace (le_value [Z.of_nat (length (source_predicates s))]) with (Z.of_nat (length (source_predicates s)))
    by (cbn; lia).
  eapply reads_then; [by apply reads_len |].
  eapply reads_then; [apply reads_fresh; rewrite write_nodes_length; lia |].
  eapply reads_then; [by apply reads_imports |].
  eapply reads_then; [apply reads_byte; lia |].
  eapply reads_then; [by apply reads_len |].
  eapply reads_then; [rewrite Nat2Z.id; by eapply reads_rule_strings |].
  eapply reads_then; [by apply reads_strings |].
  eapply reads_then; [by apply reads_const_types |].
  eapply reads_then; [by apply reads_write_code |].
  eapply reads_then; [apply reads_function_code; [unfold write_before; rewrite !length_app; lia | (done || lia)..] |].
  eapply reads_then; [rewrite Nat2Z.id; apply Hdescs; unfold PRED_DESCRIPTOR_SIZE; cbn; lia |].
  assert (Hf : map fst (combine made (map (λ p, Z.of_nat (length p.2)) (source_predicates s))) = made)
    by (apply combine_map_fst; by rewrite length_map).
  assert (Hs : map snd (combine made (map (λ p, Z.of_nat (length p.2)) (source_predicates s))) =
               map (λ p, Z.of_nat (length p.2)) (source_predicates s))
    by (apply combine_map_snd; by rewrite length_map).
  rewrite Hf, Hs.
  eapply reads_known; [exact Hc |].
  eapply reads_then; [by apply reads_priorities |].
  eapply reads_then; [rewrite <- (map_map snd (λ c, Z.of_nat (length c))); apply reads_codes |].
  eapply reads_then; [by apply reads_len |].
  unfold rassert. rewrite Z.eqb_refl.
  rewrite Nat2Z.id. intros rest. unfold rbind. rewrite (reads_rules _ _ _ _ _ _ P1 R2 Hl). reflexivity.
Qed.

Lemma reads_program s cached aff :
  writable s = true →
  cache_predicates (map made_predicate (source_predicates s)) (map made_predicate (source_predicates s)) = Ok cached →
  link_rules (replicate (length (source_predicates s)) []) 0 (map links (source_rules s)) = Ok aff →
  reads (read_program filename dl) 0 (write s) (loaded s cached aff).
Proof.
  intros H. unfold write, loaded. apply reads_program_with; [exact H | apply length_map |]. intros buf pos Hbuf.
  assert (E : combine (map made_predicate (source_predicates s)) (map (λ p, Z.of_nat (length p.2)) (source_predicates s)) =
              map (λ p, (made_predicate p, Z.of_nat (length p.2))) (source_predicates s)).
  { clear. induction (source_predicates s) as [| p ps IH]; [done |]. cbn. by rewrite IH. }
  rewrite E. apply (reads_predicates write_predicate); [done |]. intros i p Hp. apply made_from_buf.
  unfold writable in H. rewrite !andb_true_iff in H. destruct H as [[_ P] _]. exact (predicates_ok_lookup _ 0 i p P Hp).
Qed.

(** C2: what is written for a program is loaded as that program, whatever follows in the
    file: its imports and exports, strings, constants, functions and functions of
    libraries, its predicates with their fields laid out, their code, the priorities and
    the rules linked to their predicates. *)
Theorem load_write s tail :
  writable s = true →
  ∃ cached aff,
    cache_predicates (map made_predicate (source_predicates s)) (map made_predicate (source_predicates s)) = Ok cached ∧
    link_rules (replicate (length (source_predicates s)) []) 0 (map links (source_rules s)) = Ok aff ∧
    load filename dl (write s ++ tail) = Ok (loaded s cached aff).
Proof.
  intros H. pose proof H as Hw. unfold writable in Hw. rewrite !andb_true_iff in Hw.
  destruct Hw as [[_ P] _]. destruct (cache_made_ok (map made_predicate (source_predicates s)) _ _ P) as [cached Hc].
  unfold writable in H. assert (R : forallb (rule_ok (length (source_predicates s))) (source_rules s) = true)
    by (rewrite !andb_true_iff in H; tauto).
  destruct (link_made_ok _ _ 0 (replicate (length (source_predicates s)) []) (length_replicate _ _) R) as [aff Ha].
  exists cached, aff. split; [done |]. split; [done |]. unfold load. by rewrite (reads_program s cached aff H Hc Ha).
Qed.

End Roundtrip.

(** ** The database reads the nodes of the same file *)

Section Nodes.
Context (create_fn : Z → Z → node).

Definition add_node (db : database) (n : Z * Z) : database :=
  mk_database (<[n.1 := create_fn n.1 n.2]> (nodes db)) (<[n.1 := n.2]> (translations db)) (original_max_node_id db)
    (if max_node_id db <? n.1 then n.1 else max_node_id db)
    (if max_translated_id db <? n.2 then n.2 else max_translated_id db) (nodes_total db).

Lemma read_nodes_written l : ∀ pre post db,
  forallb (λ n, in_unsigned 32 n.1 && in_unsigned 32 n.2) l = true →
  read_nodes create_fn (length l) (pre ++ write_all write_node l ++ post) (length pre) db
  = Ok (foldl add_node db l, (length pre + 8 * length l)%nat).
Proof.
  induction l as [| [f r] l IH]; intros pre post db H; cbn [length read_nodes foldl].
  { by rewrite Nat.mul_0_r, Nat.add_0_r. }
  cbn in H. apply andb_true_iff in H as [[Hf Hr]%andb_true_iff H]. unfold in_unsigned in Hf, Hr.
  apply andb_true_iff in Hf, Hr.
  unfold write_all. cbn [map concat]. change (write_node (f, r)) with (le_bytes 4 f ++ le_bytes 4 r).
  assert (E1 : pre ++ ((le_bytes 4 f ++ le_bytes 4 r) ++ concat (map write_node l)) ++ post =
               pre ++ le_bytes 4 f ++ (le_bytes 4 r ++ concat (map write_node l) ++ post)) by by rewrite <- !app_assoc.
  assert (E2 : pre ++ ((le_bytes 4 f ++ le_bytes 4 r) ++ concat (map write_node l)) ++ post =
               (pre ++ le_bytes 4 f) ++ le_bytes 4 r ++ (concat (map write_node l) ++ post)) by by rewrite <- !app_assoc.
  rewrite E1 at 1. rewrite memcpy_from_app by apply le_bytes_length. cbn [res_bind].
  rewrite E2 at 1. replace (length pre + 4)%nat with (length (pre ++ le_bytes 4 f)) by (by rewrite length_app, le_bytes_length).
  rewrite memcpy_from_app by apply le_bytes_length. cbn [res_bind].
  rewrite !le_value_bytes, !wrap_id by (cbn; lia).
  specialize (IH (pre ++ le_bytes 4 f ++ le_bytes 4 r) post (add_node db (f, r)) H).
  rewrite !length_app, !le_bytes_length in IH.
  assert (E3 : (pre ++ le_bytes 4 f ++ le_bytes 4 r) ++ write_all write_node l ++ post =
               pre ++ ((le_bytes 4 f ++ le_bytes 4 r) ++ concat (map write_node l)) ++ post)
    by (unfold write_all; by rewrite <- !app_assoc).
  rewrite E3 in IH. change (length pre + 8)%nat with (length pre + (4 + 4))%nat. unfold add_node at 1 in IH. cbn [fst snd] in IH.
  rewrite IH. do 2 f_equal. lia.
Qed.

Lemma add_nodes_lookup l : ∀ db i nd,
  NoDup (map fst l) → (∀ n, n ∈ l → nodes db !! n.1 = None) →
  nodes (foldl add_node db l) !! i = Some nd ↔
  nodes db !! i = Some nd ∨ ∃ r, (i, r) ∈ l ∧ nd = create_fn i r.
Proof.
  induction l as [| [f r] l IH]; intros db i nd Hd Hn; cbn [foldl].
  { split; [by left |]. intros [H | (r & H & _)]; [done |]. by apply not_elem_of_nil in H. }
  cbn in Hd. apply NoDup_cons in Hd as [Hf Hd]. rewrite IH; [| done |].
  - cbn. destruct (decide (i = f)) as [-> | Hi].
    + assert (Hnone : nodes db !! f = None) by (apply (Hn (f, r)); by left).
      rewrite lookup_insert_eq, Hnone. split.
      * intros [[= <-] | (r' & Hr' & ->)]; right; [exists r; split; [by left | done] |].
        destruct Hf. apply list_elem_of_In, in_map_iff. exists (f, r'). split; [done |]. by apply list_elem_of_In.
      * intros [? | (r' & [[= ->] | Hr']%elem_of_cons & ->)]; [done | by left |].
        destruct Hf. apply list_elem_of_In, in_map_iff. exists (f, r'). split; [done |]. by apply list_elem_of_In.
    + rewrite lookup_insert_ne by done. split; (intros [? | (r' & Hr' & ->)]; [by left | right; exists r'; split; [| done]]).
      * by right.
      * apply elem_of_cons in Hr' as [[= -> _] | ?]; [done | done].
  - intros n Hin. cbn. rewrite lookup_insert_ne; [apply Hn; by right |]. intros ->. destruct Hf.
    apply list_elem_of_In, in_map_iff. exists n. split; [done |]. by apply list_elem_of_In.
Qed.

(** on the file of a program the database of a machine makes exactly the nodes of
    its part of the list of nodes, with their two ids. *)
Theorem database_reads_nodes s tail to_skip to_read :
  writable s = true → NoDup (map fst (source_nodes s)) →
  let num := Z.of_nat (length (source_nodes s)) in
  (to_skip num + to_read num <= length (source_nodes s))%nat →
  ∃ db, new_database create_fn to_skip to_read (write s ++ tail) = Ok db ∧ nodes_total db = num ∧
    ∀ i nd, nodes db !! i = Some nd ↔
      ∃ r, (i, r) ∈ take (to_read num) (drop (to_skip num) (source_nodes s)) ∧ nd = create_fn i r.
Proof.
  intros H Hd num Hn. unfold writable in H. rewrite !andb_true_iff in H.
  assert (N : short (source_nodes s) = true ∧
    forallb (λ n, in_unsigned 32 n.1 && in_unsigned 32 n.2) (source_nodes s) = true) by tauto.
  destruct N as [N1 N2]. clear H. unfold short in N1. fold num in N1.
  set (l := source_nodes s) in *. set (a := take (to_skip num) l). set (m := take (to_read num) (drop (to_skip num) l)).
  set (z := drop (to_read num) (drop (to_skip num) l)).
  assert (El : l = a ++ m ++ z) by (unfold a, m, z; by rewrite !take_drop).
  assert (Hm : length m = to_read num) by (unfold m; rewrite length_take, length_drop; lia).
  assert (Ha : length a = to_skip num) by (unfold a; rewrite length_take; lia).
  set (hd := write_header s ++ [Z.of_nat (length (source_predicates s))]).
  assert (Hhd : length hd = 17%nat) by (unfold hd, write_header, write_uint; rewrite !length_app, !le_bytes_length; done).
  assert (Ew : ∃ q, write s ++ tail = (hd ++ write_len l ++ write_all write_node a) ++ write_all write_node m ++ q).
  { eexists. unfold write, write_with. fold l. unfold hd. rewrite El at 2. unfold write_all at 1. rewrite !map_app, !concat_app.
    rewrite <- !app_assoc. reflexivity. }
  destruct Ew as [q Ew].
  assert (E1 : memcpy_from (write s ++ tail) 17 4 = Ok (write_len l)).
  { rewrite Ew, <- Hhd. rewrite <- !app_assoc. apply memcpy_from_app, le_bytes_length. }
  unfold new_database. rewrite E1. cbn [res_bind].
  unfold write_len at 1 2 3, write_uint. rewrite !le_value_bytes. fold num.
  rewrite (wrap_id _ num), (swrap_id 32 num) by (cbn; lia).
  replace (21 + 8 * to_skip num)%nat with (length (hd ++ write_len l ++ write_all write_node a)).
  2: { unfold write_len, write_uint. rewrite !length_app, le_bytes_length, write_nodes_length, Hhd. lia. }
  rewrite <- Hm, Ew, read_nodes_written.
  2: { rewrite El, !forallb_app in N2. rewrite !andb_true_iff in N2. tauto. }
  cbn [res_bind fst snd]. eexists. split; [reflexivity |]. cbn [nodes_total nodes]. split.
  { assert (T : ∀ l db, nodes_total (foldl add_node db l) = nodes_total db)
      by (clear; induction l as [| n l IH]; intros db; [done | cbn; by rewrite IH]).
    rewrite T. cbn. apply wrap_id. lia. }
  intros i nd. rewrite add_nodes_lookup.
  - cbn. rewrite lookup_empty. split; [intros [? | ?]; done | by right].
  - rewrite El, !map_app in Hd. apply NoDup_app in Hd as (_ & _ & Hd). by apply NoDup_app in Hd as (? & _ & _).
  - intros n _. apply lookup_empty.
Qed.

End Nodes.

(** ** A file *)

(** a program of one rule, [_init -o fact(5)], and one node *)
Definition sample_source : source :=
  mk_source 9 [(0, 0)] [("edge", "link", "graph")%string] ["fact"%string] 2
    [mk_source_rule "_init -o fact(5)"
       [ 0x10; 0; 0; 0; 0; 0xA0; 0; 2; 0; 34; 0; 0; 0; 0; 0xc0; 0x30; 0x1f; 0x20; 0x40; 1; 1;
         0x30; 0x01; 0x02; 5; 0; 0; 0; 0; 1; 0x08; 1; 1; 0x80; 0; 0xD0; 0x00; 0x00; 0x00; 0x00 ]
       (mk_rule [0%nat] false)]
    ["hello"%string] [] [0x00] [[0x00; 0x00]]
    [mk_source_external 80 "area" "lib.so" 0 FIELD_FLOAT [FIELD_INT; FIELD_INT]]
    [(mk_predicate [] 0 "_init" 0 [] [] [] 0 None false true false false false, [0x00]);
     (mk_predicate [] 1 "fact" 0 [FIELD_INT] [] [] 0 None false true false false false, [0x00])]
    (mk_priority_info (Some FIELD_FLOAT) (Some PRIORITY_DESC) 0 false).

Definition no_functions (path name : string) : Z := 0.

Lemma sample_writable : writable sample_source = true.
Proof. vm_compute. reflexivity. Qed.

Lemma load_write_witness :
  writable sample_source = true ∧
  ∃ cached aff,
    cache_predicates (map made_predicate (source_predicates sample_source))
      (map made_predicate (source_predicates sample_source)) = Ok cached ∧
    link_rules (replicate (length (source_predicates sample_source)) []) 0 (map links (source_rules sample_source)) = Ok aff ∧
    load "a.m" no_functions (write sample_source ++ [7]) = Ok (loaded no_functions sample_source cached aff).
Proof.
  split; [exact sample_writable |]. exact (load_write "a.m" no_functions sample_source [7] sample_writable).
Defined.

Definition sample_program : program :=
  match load "a.m" no_functions (write sample_source) with
  | Ok p => p
  | Err _ => mk_program 0 0 0 [] [] [] 0 [] [] [] [] 0 [] [] [] 0 false no_priorities [] [] [] None
  end.

Lemma sample_loads : load "a.m" no_functions (write sample_source) = Ok sample_program.
Proof. vm_compute. reflexivity. Qed.

Lemma load_reads_prefix_witness :
  load "a.m" no_functions (write sample_source) = Ok sample_program ∧
  ∃ c tail, write sample_source = c ++ tail ∧
    (∀ k, load "a.m" no_functions (c ++ k) = Ok sample_program) ∧
    ∀ d x, c = d ++ x → x ≠ [] → ∀ p', load "a.m" no_functions d ≠ Ok p'.
Proof.
  split; [exact sample_loads |].
  exact (load_reads_prefix "a.m" no_functions (write sample_source) sample_program sample_loads).
Defined.

Lemma load_ok_witness : load "a.m" no_functions (write sample_source) = Ok sample_program ∧ program_ok sample_program.
Proof.
  split; [exact sample_loads |].
  exact (load_ok "a.m" no_functions (write sample_source) sample_program sample_loads).
Defined.

Lemma database_reads_nodes_witness :
  writable sample_source = true ∧
  ∃ db, new_database (λ f r, Node.new_node 2 [] f r) (λ _, 0%nat) (λ _, 1%nat) (write sample_source) = Ok db ∧
    nodes_total db = 1 ∧
    ∀ i nd, nodes db !! i = Some nd ↔ ∃ r, (i, r) ∈ [(0, 0)] ∧ nd = Node.new_node 2 [] i r.
Proof.
  split; [exact sample_writable |].
  pose proof (database_reads_nodes (λ f r, Node.new_node 2 [] f r) sample_source [] (λ _, 0%nat) (λ _, 1%nat)
                sample_writable) as H.
  rewrite app_nil_r in H. apply H; [| cbn; lia]. apply NoDup_cons. split; [apply not_elem_of_nil | apply NoDup_nil_2].
Defined.

(** a program whose first rule ends by moving a pointer, and a data file with one fact *)
Definition sample_with_data : program :=
  set_rules [mk_rule_entry "_init -o 1" [0x30; 0x0B; 0x20; 0; 0; 0; 0; 0; 0; 0; 0; 0xF0; 0x01; 0x00] (mk_rule [0%nat] false)]
    None sample_program.

Abbreviation sample_added := (add_data_file sample_with_data sample_program 0x1234).

Lemma add_data_file_ok_witness :
  ∃ p' other', sample_added = Ok (true, p', other') ∧
    (∀ i q, predicates sample_program !! i = Some q →
            ∃ m, predicates sample_with_data !! i = Some m ∧ predicate_eqb m q = true) ∧
    rules other' = [].
Proof.
  destruct sample_added as [[[b p'] other'] | f] eqn:E; [| exfalso; revert E; vm_compute; discriminate].
  assert (Hb : b = true ∧ rules other' = []).
  { assert (match sample_added with Ok (b, _, o) => b = true ∧ rules o = [] | Err _ => True end) as H
      by (vm_compute; split; reflexivity).
    rewrite E in H. exact H. }
  destruct Hb as [-> Hr]. exists p', other'. split; [reflexivity |].
  split; [| exact Hr]. exact (proj1 (add_data_file_ok sample_with_data sample_program 0x1234 p' other' ltac:(lia) E)).
Defined.
