(* ===== verification/Printer.v ===== *)
(** The printer of byte code, the second half of [vm/instr.cpp], which is also what
    changes the identifiers in the code of a program that is linked: it walks the
    instructions, and where changes are allowed it overwrites the predicates and rules
    that they name. *)

From Stdlib Require Import ZArith Lia Bool.
From stdpp Require Import base tactics list numbers option strings pretty.
From S2P Require Import Prelude Words Types Instr.

#[local] Open Scope Z_scope.

(** ** State

    The code is changed in place; [dependency] holds the names of the predicates that
    were met since it was last cleared; [text] is what went to the stream.  The
    indentation is not in it: [print_tab] writes to the standard output. *)

Record printing : Type := mk_printing {
  pcode : list byte;
  dependency : list string;
  text : string
}.

Definition printer (A : Type) : Type := printing → res (A * printing).
Definition pret {A} (a : A) : printer A := λ s, Ok (a, s).
Definition pbind {A B} (m : printer A) (f : A → printer B) : printer B := λ s, let* r := m s in f r.1 r.2.
Notation "'print!' x := m 'in' f" := (pbind m (λ x, f))
  (at level 10, x pattern, m at level 100, f at level 200) : meld_scope.
Notation "m ;;. f" := (pbind m (λ _, f)) (at level 100, f at level 200, right associativity) : meld_scope.

(** what is read from the code *)
Definition look {A} (f : list byte → res A) : printer A := λ s, let* a := f (pcode s) in Ok (a, s).
Definition known {A} (r : res A) : printer A := λ s, let* a := r in Ok (a, s).
Definition out (t : string) : printer unit := λ s, Ok ((), mk_printing (pcode s) (dependency s) (text s +:+ t)).
Definition depend (name : string) : printer unit :=
  λ s, Ok ((), mk_printing (pcode s) (dependency s ++ [name]) (text s)).
Definition overwriting (f : list byte → res (list byte)) : printer unit :=
  λ s, let* c := f (pcode s) in Ok ((), mk_printing c (dependency s) (text s)).
Definition pfail {A} (f : failure) : printer A := λ _, Err f.

Definition endl : string := String (Ascii.ascii_of_nat 10) EmptyString.

Section Printer.
(** the program that is printed: its predicates, with the numbers that linking gave
    them and its rules, its strings, and whether its code may be changed *)
Context (get_predicate : Z → option predicate) (predicate_link : Z → Z).
Context (num_rules : Z) (rule_link : Z → Z).
Context (float_string : Z → string) (default_string : Z → option string).
Context (allow_modify : bool).

(** ** One instruction *)

(** [val_string], which moves the position *)
Definition operand_string (get : list byte → pcounter → res instr_val) (pc m : pcounter)
  : printer (string * pcounter) :=
  print! v := look (λ c, get c pc) in
  look (λ c, val_string c float_string default_string v m).

Definition two_operands (get1 get2 : list byte → pcounter → res instr_val) (pc m : pcounter)
  : printer (string * string) :=
  print! a := operand_string get1 pc m in
  print! b := operand_string get2 pc a.2 in
  pret (a.1, b.1).

Definition three_operands (get1 get2 get3 : list byte → pcounter → res instr_val) (pc m : pcounter)
  : printer (string * string * string) :=
  print! a := operand_string get1 pc m in
  print! b := operand_string get2 pc a.2 in
  print! c := operand_string get3 pc b.2 in
  pret (a.1, b.1, c.1).

Definition get_reg (get : list byte → pcounter → res Z) (pc : pcounter) : printer string :=
  print! r := look (λ c, get c pc) in pret (reg_string r).

Definition set_predicate (pc off id : Z) : printer unit :=
  if allow_modify then overwriting (λ c, predicate_set c pc off (wrap 8 (predicate_link id))) else pret ().

(** a predicate that the instruction names: it is a dependency and its number changes *)
Definition print_predicate (get : list byte → pcounter → res Z) (pc off : Z) : printer predicate :=
  print! id := look (λ c, get c pc) in
  print! p := known (of_option (get_predicate id)) in
  depend (pred_name p) ;;.
  set_predicate pc off id ;;.
  pret p.

(** the matches of ITERATE *)
Fixpoint print_matches (n : nat) (m : pcounter) : printer unit :=
  match n with
  | O => pfail undefined_behaviour
  | S n =>
      let match_ := m in
      let m := m + iter_match_size in
      out endl ;;.
      print! f := look (λ c, iter_match_field c match_) in
      print! s := operand_string iter_match_val match_ m in
      out ("  (match)." +:+ num_string f +:+ "=" +:+ s.1) ;;.
      print! stop := look (λ c, iter_match_end c match_) in
      if (stop : bool) then pret () else print_matches n s.2
  end.

(** the arguments of a call *)
Fixpoint print_args (val : list byte → pcounter → res instr_val) (first : bool) (n : nat) (m : pcounter) : printer unit :=
  match n with
  | O => pret ()
  | S n =>
      out (if first then "" else ", ") ;;.
      print! s := operand_string val m (m + val_size) in
      out s.1 ;;.
      print_args val false n s.2
  end.

(** the arguments of DELETE *)
Fixpoint print_indexes (first : bool) (n : nat) (m : pcounter) : printer unit :=
  match n with
  | O => pret ()
  | S n =>
      out (if first then "" else ", ") ;;.
      print! i := look (λ c, delete_index c m) in
      out (num_string i +:+ ":") ;;.
      print! s := operand_string delete_val m (m + index_size + val_size) in
      out s.1 ;;.
      print_indexes false n s.2
  end.

(** *** The facts of NEW AXIOMS *)

(** [while( *p++ == 1)] *)
Fixpoint print_elements (n : nat) (elem : pcounter → printer pcounter) (p : pcounter) : printer pcounter :=
  match n with
  | O => pfail undefined_behaviour
  | S n =>
      print! b := look (λ c, byte_at c p) in
      if b =? 1 then
        print! p := elem (p + 1) in
        out ", " ;;.
        print_elements n elem p
      else pret (p + 1)
  end.

Definition print_int (p : pcounter) : printer pcounter :=
  print! z := look (λ c, pcounter_int c p) in out (num_string z) ;;. pret (pcounter_move_int p).
Definition print_float (p : pcounter) : printer pcounter :=
  print! z := look (λ c, pcounter_float c p) in out (float_string z) ;;. pret (pcounter_move_float p).
Definition print_node (p : pcounter) : printer pcounter :=
  print! z := look (λ c, pcounter_node c p) in out ("@" +:+ num_string z) ;;. pret (pcounter_move_node p).

Definition print_list (elem : pcounter → printer pcounter) (p : pcounter) : printer pcounter :=
  out "[" ;;.
  print! n := look (λ c, Ok (length c)) in
  print! p := print_elements (S n) elem p in
  out "]" ;;.
  pret p.

Definition print_field (t : field_type) (p : pcounter) : printer pcounter :=
  match t with
  | FIELD_INT => print_int p
  | FIELD_FLOAT => print_float p
  | FIELD_NODE => print_node p
  | FIELD_LIST_FLOAT => print_list print_float p
  | FIELD_LIST_INT => print_list print_int p
  | FIELD_LIST_NODE => print_list print_node p
  | _ => pfail assert_fail
  end.

Fixpoint print_fields (ts : list field_type) (p : pcounter) : printer pcounter :=
  match ts with
  | [] => pret p
  | t :: ts =>
      print! p := print_field t p in
      out (match ts with [] => "" | _ => ", " end) ;;.
      print_fields ts p
  end.

(** every fact has a byte for its predicate *)
Fixpoint print_axioms (n : nat) (p end_ : pcounter) : printer unit :=
  match n with
  | O => pfail undefined_behaviour
  | S n =>
      if p <? end_ then
        print! pred := print_predicate (λ c p, predicate_get c p 0) p 0 in
        out (pred_name pred +:+ "(") ;;.
        print! p := print_fields (pred_types pred) (p + 1) in
        out (")" +:+ endl) ;;.
        print_axioms n p end_
      else pret ()
  end.

(** *** Instructions *)

Definition print_iter (pc : pcounter) : printer unit :=
  print! opts := look (λ c, iter_options c pc) in
  print! pred := print_predicate iter_predicate pc 1 in
  out ("ITERATE OVER " +:+ pred_name pred +:+ " (") ;;.
  out (if iter_options_random opts then "r" else "") ;;.
  out (if iter_options_to_delete opts then "d" else "") ;;.
  print! arg := look (λ c, if iter_options_min opts then iter_options_argument c pc else Ok 0) in
  out (if iter_options_min opts then "m" +:+ num_string (iter_options_min_arg arg) else "") ;;.
  out ") MATCHING" ;;.
  print! none := look (λ c, iter_match_none c (pc + ITER_BASE)) in
  (if (none : bool) then pret ()
   else print! n := look (λ c, Ok (length c)) in print_matches (S n) (pc + ITER_BASE)) ;;.
  out endl.

Definition print_call (name : string) (id num : list byte → pcounter → res Z) (dest : list byte → pcounter → res Z)
    (val : list byte → pcounter → res instr_val) (pc : pcounter) : printer unit :=
  print! i := look (λ c, id c pc) in
  print! n := look (λ c, num c pc) in
  print! r := get_reg dest pc in
  out (name +:+ " func(" +:+ num_string i +:+ "):" +:+ num_string n +:+ " TO " +:+ r +:+ " = (") ;;.
  print_args val true (Z.to_nat n) (pc + CALL_BASE) ;;.
  out (")" +:+ endl).

Definition print_rule (pc : pcounter) : printer unit :=
  print! id := look (λ c, rule_get_id c pc) in
  (if allow_modify then
     if id <? num_rules then overwriting (λ c, rule_set_id c pc (rule_link id)) else pfail assert_fail
   else pret ()) ;;.
  out ("RULE " +:+ num_string id +:+ endl).

(** the instructions after DELETE in the switch *)
Definition print_later (i : option instr_type) (pc : pcounter) : printer unit :=
  match i with
  | Some REMOVE_INSTR => print! r := get_reg remove_source pc in out ("REMOVE " +:+ r +:+ endl)
  | Some CONS_INSTR =>
      print! s := three_operands cons_head cons_tail cons_dest pc (pc + CONS_BASE) in
      out ("CONS (" +:+ s.1.1 +:+ "::" +:+ s.1.2 +:+ ") TO " +:+ s.2 +:+ endl)
  | Some HEAD_INSTR =>
      print! s := two_operands head_cons head_dest pc (pc + HEAD_BASE) in
      out ("HEAD " +:+ s.1 +:+ " TO " +:+ s.2 +:+ endl)
  | Some TAIL_INSTR =>
      print! s := two_operands tail_cons tail_dest pc (pc + TAIL_BASE) in
      out ("TAIL " +:+ s.1 +:+ " TO " +:+ s.2 +:+ endl)
  | Some NOT_INSTR =>
      print! s := two_operands not_op not_dest pc (pc + NOT_BASE) in
      out ("NOT " +:+ s.1 +:+ " TO " +:+ s.2 +:+ endl)
  | Some RETURN_SELECT_INSTR =>
      print! j := look (λ c, return_select_jump c pc) in
      out ("RETURN SELECT " +:+ num_string j +:+ endl)
  | Some SELECT_INSTR => out ("SELECT BY NODE" +:+ endl)
  | Some COLOCATED_INSTR =>
      print! s := two_operands colocated_first colocated_second pc (pc + COLOCATED_BASE) in
      print! r := get_reg colocated_dest pc in
      out ("COLOCATED (" +:+ s.1 +:+ ", " +:+ s.2 +:+ ") TO " +:+ r +:+ endl)
  | Some RULE_INSTR => print_rule pc
  | Some RULE_DONE_INSTR => out ("RULE DONE" +:+ endl)
  | Some NEW_NODE_INSTR => print! r := get_reg new_node_reg pc in out ("NEW NODE TO " +:+ r +:+ endl)
  | Some NEW_AXIOMS_INSTR =>
      out ("NEW AXIOMS" +:+ endl) ;;.
      print! j := look (λ c, new_axioms_jump c pc) in
      print! n := look (λ c, Ok (length c)) in
      print_axioms (S n) (pc + NEW_AXIOMS_BASE) (pc + j)
  | Some SEND_DELAY_INSTR =>
      print! a := get_reg send_delay_msg pc in
      print! b := get_reg send_delay_dest pc in
      print! t := look (λ c, send_delay_time c pc) in
      out ("SEND " +:+ a +:+ " TO " +:+ b +:+ " WITH DELAY " +:+ num_string t +:+ "ms" +:+ endl)
  | Some PUSH_INSTR => out ("PUSH" +:+ endl)
  | Some POP_INSTR => out ("POP" +:+ endl)
  | Some PUSH_REGS_INSTR => out ("PUSH REGS" +:+ endl)
  | Some POP_REGS_INSTR => out ("POP REGS" +:+ endl)
  | Some CALLF_INSTR =>
      print! id := look (λ c, callf_get_id c pc) in
      out ("CALLF " +:+ num_string id +:+ endl)
  | _ => pfail (malformed_instr_error "unknown instruction code")
  end.

(** an instruction without those inside it *)
Definition print_one (i : option instr_type) (pc : pcounter) : printer unit :=
  match i with
  | Some RETURN_INSTR => out ("RETURN" +:+ endl)
  | Some RETURN_LINEAR_INSTR => out ("RETURN LINEAR" +:+ endl)
  | Some RETURN_DERIVED_INSTR => out ("RETURN DERIVED" +:+ endl)
  | Some END_LINEAR_INSTR => out ("END LINEAR" +:+ endl)
  | Some RESET_LINEAR_INSTR => out ("RESET LINEAR" +:+ endl)
  | Some IF_INSTR => print! r := get_reg if_reg pc in out ("IF (" +:+ r +:+ ") THEN" +:+ endl)
  | Some TEST_NIL_INSTR =>
      print! s := two_operands test_nil_op test_nil_dest pc (pc + TEST_NIL_BASE) in
      out ("TEST-NIL " +:+ s.1 +:+ " TO " +:+ s.2 +:+ endl)
  | Some MOVE_INSTR =>
      print! s := two_operands move_from move_to pc (pc + MOVE_BASE) in
      out ("MOVE " +:+ s.1 +:+ " TO " +:+ s.2 +:+ endl)
  | Some MOVE_NIL_INSTR =>
      print! s := operand_string move_nil_dest pc (pc + MOVE_NIL_BASE) in
      out ("MOVE-NIL TO " +:+ s.1 +:+ endl)
  | Some ALLOC_INSTR =>
      print! p := print_predicate alloc_predicate pc 1 in
      print! r := get_reg alloc_reg pc in
      out ("ALLOC " +:+ pred_name p +:+ " TO " +:+ r +:+ endl)
  | Some OP_INSTR =>
      print! s := three_operands op_arg1 op_arg2 op_dest pc (pc + OP_BASE) in
      print! op := look (λ c, op_op c pc) in
      out ("OP " +:+ s.1.1 +:+ " " +:+ (match op with Some o => op_string o | None => "" end) +:+ " " +:+ s.1.2
           +:+ " TO " +:+ s.2 +:+ endl)
  | Some FLOAT_INSTR =>
      print! s := two_operands float_op float_dest pc (pc + FLOAT_BASE) in
      out ("FLOAT " +:+ s.1 +:+ " TO " +:+ s.2 +:+ endl)
  | Some SEND_INSTR =>
      print! a := get_reg send_msg pc in
      print! b := get_reg send_dest pc in
      out ("SEND " +:+ a +:+ " TO " +:+ b +:+ endl)
  | Some ITER_INSTR => print_iter pc
  | Some NEXT_INSTR => out ("NEXT" +:+ endl)
  | Some CALL_INSTR => print_call "CALL" call_extern_id call_num_args call_dest call_val pc
  | Some CALLE_INSTR => print_call "CALLE" calle_extern_id calle_num_args calle_dest calle_val pc
  | Some DELETE_INSTR =>
      print! num_args := look (λ c, delete_num_args c pc) in
      print! p := print_predicate delete_predicate pc 1 in
      out ("DELETE " +:+ pred_name p +:+ " USING ") ;;.
      print_indexes true (Z.to_nat num_args) (pc + DELETE_BASE) ;;.
      out endl
  | _ => print_later i pc
  end.

(** ** Instructions inside instructions *)

(** [instrs_print_until]: what follows is at [until], wherever the last instruction ends *)
Fixpoint instrs_print_until (print : pcounter → printer pcounter) (n : nat) (pc until : pcounter) : printer pcounter :=
  if pc <? until then
    match n with
    | O => pfail undefined_behaviour
    | S n => print! pc := print pc in instrs_print_until print n pc until
    end
  else pret until.

(** [instrs_print_until_end_linear]: the place of END LINEAR *)
Fixpoint instrs_print_until_end_linear (print : pcounter → printer pcounter) (n : nat) (pc : pcounter) : printer pcounter :=
  match n with
  | O => pfail undefined_behaviour
  | S n =>
      print! new_pc := print pc in
      print! i := look (λ c, fetch c pc) in
      match i with
      | Some END_LINEAR_INSTR => pret pc
      | _ => instrs_print_until_end_linear print n new_pc
      end
  end.

Fixpoint instrs_print_until_return_select (print : pcounter → printer pcounter) (n : nat) (pc : pcounter) : printer unit :=
  match n with
  | O => pfail undefined_behaviour
  | S n =>
      print! new_pc := print pc in
      print! i := look (λ c, fetch c pc) in
      match i with
      | Some RETURN_SELECT_INSTR => pret ()
      | _ => instrs_print_until_return_select print n new_pc
      end
  end.

(** the codes of SELECT, by the entries of its table *)
Fixpoint print_select (print : pcounter → printer pcounter) (fuel : nat) (hash_start elems : Z) (i : Z) (n : nat)
  : printer unit :=
  match n with
  | O => pret ()
  | S n =>
      out (num_string i +:+ endl) ;;.
      print! hashed := look (λ c, select_hash c hash_start i) in
      (if hashed =? 0 then pret ()
       else instrs_print_until_return_select print fuel (select_hash_code hash_start elems hashed)) ;;.
      print_select print fuel hash_start elems (i + 1) n
  end.

(** [instr_print]; the bound is on the depth and on the instructions of a loop *)
Fixpoint instr_print (fuel : nat) (recurse : bool) (pc : pcounter) : printer pcounter :=
  match fuel with
  | O => pfail undefined_behaviour
  | S fuel =>
      print! i := look (λ c, fetch c pc) in
      print_one i pc ;;.
      match i with
      | Some RESET_LINEAR_INSTR =>
          print! start := look (λ c, advance c pc) in
          print! pc := instrs_print_until_end_linear (instr_print fuel true) fuel start in
          look (λ c, advance c pc)
      | Some IF_INSTR =>
          if recurse then
            print! start := look (λ c, advance c pc) in
            print! jump := look (λ c, if_jump c pc) in
            print! cont := instrs_print_until (instr_print fuel true) fuel start
                             (start + wrap 32 (jump - (start - pc))) in
            out ("ENDIF" +:+ endl) ;;.
            pret cont
          else look (λ c, advance c pc)
      | Some ITER_INSTR =>
          if recurse then
            print! start := look (λ c, advance c pc) in
            print! jump := look (λ c, iter_jump c pc) in
            print! _ := instrs_print_until (instr_print fuel true) fuel start (pc + jump) in
            pret (pc + jump)
          else look (λ c, advance c pc)
      | Some SELECT_INSTR =>
          if recurse then
            print! elems := look (λ c, select_hash_size c pc) in
            print_select (instr_print fuel true) fuel (select_hash_start pc) elems 0 (Z.to_nat elems) ;;.
            print! size := look (λ c, select_size c pc) in
            pret (pc + size)
          else look (λ c, advance c pc)
      | _ => look (λ c, advance c pc)
      end
  end.

Definition instr_print_simple (fuel : nat) (pc : pcounter) : printer pcounter := instr_print fuel false pc.

Definition instrs_print (fuel : nat) (len : Z) : printer pcounter :=
  instrs_print_until (instr_print fuel true) fuel 0 len.

End Printer.

Definition dependency_clear (s : printing) : printing := mk_printing (pcode s) [] (text s).

(** ** Text and dependencies do not matter to the walk *)

Definition same (s s' : printing) : Prop := pcode s = pcode s' ∧ dependency s = dependency s'.

Definition blind {A} (f : printer A) : Prop :=
  ∀ s s' a s1, same s s' → f s = Ok (a, s1) → ∃ s1', f s' = Ok (a, s1') ∧ same s1 s1'.

(** what leaves the code as it is *)
Definition reading {A} (f : printer A) : Prop := ∀ s a s1, f s = Ok (a, s1) → pcode s1 = pcode s.

Lemma pbind_ok {A B} (m : printer A) (f : A → printer B) s r :
  pbind m f s = Ok r → ∃ a s1, m s = Ok (a, s1) ∧ f a s1 = Ok r.
Proof. intros E. apply res_bind_ok in E as ([a s1] & E & H). by exists a, s1. Qed.

Lemma pbind_run {A B} (m : printer A) (f : A → printer B) s a s1 :
  m s = Ok (a, s1) → pbind m f s = f a s1.
Proof. intros E. unfold pbind. by rewrite E. Qed.

Lemma blind_ret {A} (a : A) : blind (pret a).
Proof. intros s s' x s1 H [= <- <-]. by exists s'. Qed.
Lemma blind_bind {A B} (m : printer A) (f : A → printer B) : blind m → (∀ a, blind (f a)) → blind (pbind m f).
Proof.
  intros Hm Hf s s' b s2 H E. apply pbind_ok in E as (a & s1 & E1 & E2).
  destruct (Hm _ _ _ _ H E1) as (s1' & E1' & H1). destruct (Hf a _ _ _ _ H1 E2) as (s2' & E2' & H2).
  exists s2'. by rewrite (pbind_run _ _ _ _ _ E1').
Qed.
Lemma blind_look {A} (f : list byte → res A) : blind (look f).
Proof.
  intros s s' a s1 [H1 H2] E. apply res_bind_ok in E as (x & E & [= <- <-]). exists s'. unfold look.
  rewrite <- H1, E. done.
Qed.
Lemma blind_known {A} (r : res A) : blind (known r).
Proof. intros s s' a s1 H E. apply res_bind_ok in E as (x & -> & [= <- <-]). by exists s'. Qed.
Lemma blind_out t : blind (out t).
Proof. intros s s' a s1 H [= <- <-]. eexists. split; [done | exact H]. Qed.
Lemma blind_depend n : blind (depend n).
Proof. intros s s' a s1 [H1 H2] [= <- <-]. eexists. split; [done |]. split; cbn; congruence. Qed.
Lemma blind_overwriting f : blind (overwriting f).
Proof.
  intros s s' a s1 [H1 H2] E. apply res_bind_ok in E as (c & E & [= <- <-]). unfold overwriting.
  rewrite <- H1, E. eexists. split; [done |]. by split.
Qed.
Lemma blind_fail {A} f : blind (pfail f : printer A).
Proof. by intros s s' a s1 H E. Qed.
Lemma blind_if {A} (b : bool) (f g : printer A) : blind f → blind g → blind (if b then f else g).
Proof. by destruct b. Qed.

Lemma reading_ret {A} (a : A) : reading (pret a).
Proof. by intros s x s1 [= <- <-]. Qed.
Lemma reading_bind {A B} (m : printer A) (f : A → printer B) : reading m → (∀ a, reading (f a)) → reading (pbind m f).
Proof. intros Hm Hf s b s2 E. apply pbind_ok in E as (a & s1 & E1 & E2). rewrite (Hf _ _ _ _ E2). by eapply Hm. Qed.
Lemma reading_look {A} (f : list byte → res A) : reading (look f).
Proof. intros s a s1 E. by apply res_bind_ok in E as (x & _ & [= <- <-]). Qed.
Lemma reading_known {A} (r : res A) : reading (known r).
Proof. intros s a s1 E. by apply res_bind_ok in E as (x & _ & [= <- <-]). Qed.
Lemma reading_out t : reading (out t).
Proof. by intros s a s1 [= <- <-]. Qed.
Lemma reading_depend n : reading (depend n).
Proof. by intros s a s1 [= <- <-]. Qed.
Lemma reading_fail {A} f : reading (pfail f : printer A).
Proof. by intros s a s1 E. Qed.
Lemma reading_if {A} (b : bool) (f g : printer A) : reading f → reading g → reading (if b then f else g).
Proof. by destruct b. Qed.

Create HintDb printing.
#[export] Hint Resolve blind_ret blind_bind blind_look blind_known blind_out blind_depend blind_overwriting blind_fail
  blind_if reading_ret reading_bind reading_look reading_known reading_out reading_depend reading_fail
  reading_if : printing.

Ltac printing :=
  repeat first [progress intros | apply blind_bind | apply reading_bind | apply blind_if | apply reading_if
               | solve [auto with printing nocore]].

Section Walk.
Context (get_predicate : Z → option predicate) (predicate_link : Z → Z).
Context (num_rules : Z) (rule_link : Z → Z).
Context (float_string : Z → string) (default_string : Z → option string).
Context (allow_modify : bool).

Abbreviation operand_string := (operand_string float_string default_string).
Abbreviation print_predicate := (print_predicate get_predicate predicate_link allow_modify).
Abbreviation print_one := (print_one get_predicate predicate_link num_rules rule_link float_string default_string allow_modify).
Abbreviation instr_print := (instr_print get_predicate predicate_link num_rules rule_link float_string default_string allow_modify).
Abbreviation print_axioms := (print_axioms get_predicate predicate_link float_string allow_modify).

Abbreviation print_matches := (print_matches float_string default_string).
Abbreviation print_args := (print_args float_string default_string).
Abbreviation print_indexes := (print_indexes float_string default_string).
Abbreviation print_field := (print_field float_string).
Abbreviation print_fields := (print_fields float_string).

Lemma operand_string_blind get pc m : blind (operand_string get pc m).
Proof. unfold Printer.operand_string. printing. Qed.
Lemma operand_string_reading get pc m : reading (operand_string get pc m).
Proof. unfold Printer.operand_string. printing. Qed.
Lemma print_predicate_blind get pc off : blind (print_predicate get pc off).
Proof. unfold Printer.print_predicate, set_predicate. printing. Qed.
#[local] Hint Resolve operand_string_blind operand_string_reading print_predicate_blind : printing.

Lemma print_matches_blind n : ∀ m, blind (print_matches n m).
Proof. induction n; intros; cbn [Printer.print_matches]; printing. Qed.
Lemma print_matches_reading n : ∀ m, reading (print_matches n m).
Proof. induction n; intros; cbn [Printer.print_matches]; printing. Qed.
Lemma print_args_blind val n : ∀ first m, blind (print_args val first n m).
Proof. induction n; intros; cbn [Printer.print_args]; printing. Qed.
Lemma print_args_reading val n : ∀ first m, reading (print_args val first n m).
Proof. induction n; intros; cbn [Printer.print_args]; printing. Qed.
Lemma print_indexes_blind n : ∀ first m, blind (print_indexes first n m).
Proof. induction n; intros; cbn [Printer.print_indexes]; printing. Qed.
Lemma print_indexes_reading n : ∀ first m, reading (print_indexes first n m).
Proof. induction n; intros; cbn [Printer.print_indexes]; printing. Qed.
#[local] Hint Resolve print_matches_blind print_matches_reading print_args_blind print_args_reading
  print_indexes_blind print_indexes_reading : printing.

(** *** The facts of NEW AXIOMS *)

Lemma print_elements_blind n elem : (∀ p, blind (elem p)) → ∀ p, blind (print_elements n elem p).
Proof. intros H. induction n; intros; cbn [print_elements]; printing. Qed.
Lemma print_elements_reading n elem : (∀ p, reading (elem p)) → ∀ p, reading (print_elements n elem p).
Proof. intros H. induction n; intros; cbn [print_elements]; printing. Qed.
#[local] Hint Resolve print_elements_blind print_elements_reading : printing.

Lemma print_field_blind t p : blind (print_field t p).
Proof. destruct t; cbn [Printer.print_field]; unfold print_list, print_int, print_float, print_node; printing. Qed.
Lemma print_field_reading t p : reading (print_field t p).
Proof. destruct t; cbn [Printer.print_field]; unfold print_list, print_int, print_float, print_node; printing. Qed.
#[local] Hint Resolve print_field_blind print_field_reading : printing.
Lemma print_fields_blind ts : ∀ p, blind (print_fields ts p).
Proof. induction ts; intros; cbn [Printer.print_fields]; printing. Qed.
Lemma print_fields_reading ts : ∀ p, reading (print_fields ts p).
Proof. induction ts; intros; cbn [Printer.print_fields]; printing. Qed.
#[local] Hint Resolve print_fields_blind print_fields_reading : printing.
Lemma print_axioms_blind n : ∀ p e, blind (print_axioms n p e).
Proof. induction n; intros; cbn [Printer.print_axioms]; printing. Qed.
#[local] Hint Resolve print_axioms_blind : printing.

Lemma print_one_blind i pc : blind (print_one i pc).
Proof.
  destruct i as [[] |]; cbn [Printer.print_one Printer.print_later];
    unfold two_operands, three_operands, get_reg, print_iter, print_call, print_rule; printing.
Qed.

(** the position goes forward *)
Definition forward (f : printer pcounter) (p : pcounter) : Prop := ∀ s p' s1, f s = Ok (p', s1) → p <= p'.

Lemma print_element_forward elem : In elem [print_int; print_float float_string; print_node] → ∀ p, forward (elem p) p.
Proof.
  intros H p s p' s1 E. cbn in H. destruct H as [<- | [<- | [<- | []]]];
    unfold print_int, print_float, print_node in E;
    apply pbind_ok in E as (z & s2 & _ & E); apply pbind_ok in E as (u & s3 & _ & [= <- _]);
    unfold pcounter_move_int, pcounter_move_float, pcounter_move_node, int_size, float_size, node_size; lia.
Qed.

Lemma print_elements_forward n elem : (∀ p, forward (elem p) p) → ∀ p, forward (print_elements n elem p) p.
Proof.
  intros H. induction n as [| n IH]; intros p s p' s1 E; cbn [print_elements] in E; [done |].
  apply pbind_ok in E as (b & s2 & _ & E). destruct (b =? 1); [| injection E as <- _; lia].
  apply pbind_ok in E as (q & s3 & E1%H & E). apply pbind_ok in E as (u & s4 & _ & E%IH). lia.
Qed.

Lemma print_field_forward t p : forward (print_field t p) p.
Proof.
  assert (L : ∀ elem, In elem [print_int; print_float float_string; print_node] → forward (print_list elem p) p).
  { intros elem H s p' s1 E. unfold print_list in E. apply pbind_ok in E as (u & s2 & _ & E).
    apply pbind_ok in E as (n & s3 & _ & E). apply pbind_ok in E as (q & s4 & E1 & E).
    apply pbind_ok in E as (u' & s5 & _ & [= <- _]).
    apply (print_elements_forward _ _ (print_element_forward elem H) p) in E1. exact E1. }
  destruct t; cbn [Printer.print_field]; try (apply L; cbn; tauto);
    try (apply print_element_forward; cbn; tauto); by intros s p' s1 E.
Qed.

Lemma print_fields_forward ts : ∀ p, forward (print_fields ts p) p.
Proof.
  induction ts as [| t ts IH]; intros p s p' s1 E; cbn [Printer.print_fields] in E; [injection E as <- _; lia |].
  apply pbind_ok in E as (q & s2 & E1%print_field_forward & E). apply pbind_ok in E as (u & s3 & _ & E%IH). lia.
Qed.

(** ** What changes in the code *)

(** the byte at [i] is as it was, or it was a predicate and is now the number linking gave it *)
Definition renumbered (c c' : list byte) (i : nat) : Prop :=
  ∃ b, c !! i = Some b ∧ is_Some (get_predicate (Z.land b 0x7f)) ∧
       c' !! i = Some (wrap 8 (wrap 8 (predicate_link (Z.land b 0x7f)))).

Record effect (lo hi : Z) (c c' : list byte) : Prop := {
  effect_length : length c' = length c;
  effect_bytes : ∀ i, c' !! i = c !! i ∨
    (lo <= Z.of_nat i < hi ∧ allow_modify = true ∧ renumbered c c' i)
}.

Lemma effect_refl lo hi c : effect lo hi c c.
Proof. split; [done |]. by left. Qed.

Lemma effect_trans lo mid hi c1 c2 c3 :
  lo <= mid <= hi → effect lo mid c1 c2 → effect mid hi c2 c3 → effect lo hi c1 c3.
Proof.
  intros Hm [L1 E1] [L2 E2]. split; [congruence |]. intros i.
  destruct (E1 i) as [H1 | (H1 & Ha & b & Hb1 & Hb2 & Hb3)], (E2 i) as [H2 | (H2 & Ha' & b' & Hb1' & Hb2' & Hb3')].
  - left. congruence.
  - right. split; [lia |]. split; [done |]. exists b'. by rewrite <- H1.
  - right. split; [lia |]. split; [done |]. exists b. by rewrite H2.
  - lia.
Qed.

Lemma effect_widen lo hi lo' hi' c c' : lo' <= lo → hi <= hi' → effect lo hi c c' → effect lo' hi' c c'.
Proof. intros H1 H2 [L E]. split; [done |]. intros i. destruct (E i) as [? | (? & ? & ?)]; [by left | right; split; [lia | done]]. Qed.

Lemma set_byte_effect c p b id :
  byte_at c p = Ok b → id = Z.land b 0x7f → is_Some (get_predicate id) →
  allow_modify = true → effect p (p + 1) c (<[Z.to_nat p := wrap 8 (wrap 8 (predicate_link id))]> c).
Proof.
  intros [Hp Hb]%byte_at_ok -> Hs Ha. split; [by rewrite length_insert |]. intros i.
  destruct (decide (i = Z.to_nat p)) as [-> | Hi]; [| left; by rewrite list_lookup_insert_ne].
  right. split; [lia |]. split; [done |]. exists b. split; [done |]. split; [done |].
  rewrite list_lookup_insert_eq; [done |]. by eapply lookup_lt_Some.
Qed.

(** a predicate at [pc + off] *)
Lemma print_predicate_effect pc off s p s1 :
  print_predicate (λ c x, predicate_get c x off) pc off s = Ok (p, s1) →
  ∃ b, byte_at (pcode s) (pc + off) = Ok b ∧ get_predicate (Z.land b 0x7f) = Some p ∧
       pcode s1 = if allow_modify then <[Z.to_nat (pc + off) := wrap 8 (wrap 8 (predicate_link (Z.land b 0x7f)))]> (pcode s)
                  else pcode s.
Proof.
  unfold Printer.print_predicate, set_predicate. intros E.
  apply pbind_ok in E as (id & s2 & E1 & E). apply res_bind_ok in E1 as (x & E1 & [= <- <-]).
  unfold predicate_get in E1. apply res_bind_ok in E1 as (b & E1 & [= <-]).
  apply pbind_ok in E as (q & s3 & E2 & E). apply res_bind_ok in E2 as (q' & E2%of_option_ok & [= <- <-]).
  apply pbind_ok in E as (u & s4 & [= <- <-] & E). apply pbind_ok in E as (u' & s5 & E3 & [= <- <-]).
  exists b. split; [done |]. split; [done |]. destruct allow_modify.
  - apply res_bind_ok in E3 as (c & E3 & [= <- <-]). unfold predicate_set, byte_set in E3.
    apply res_bind_ok in E3 as (b' & _ & [= <-]). done.
  - by injection E3 as <- <-.
Qed.

Lemma print_axioms_effect n : ∀ p e s u s1, print_axioms n p e s = Ok (u, s1) → effect p e (pcode s) (pcode s1).
Proof.
  induction n as [| n IH]; intros p e s u s1 E; cbn [Printer.print_axioms] in E; [done |].
  destruct (p <? e) eqn:Hp; [| injection E as _ <-; apply effect_refl].
  apply pbind_ok in E as (pred & s2 & E1 & E).
  apply (print_predicate_effect p 0) in E1 as (b & Hb & Hs & E1). rewrite Z.add_0_r in *.
  apply pbind_ok in E as (u2 & s3 & E2%reading_out & E). apply pbind_ok in E as (p2 & s4 & E3 & E).
  pose proof (print_fields_forward _ _ _ _ _ E3). apply print_fields_reading in E3.
  apply pbind_ok in E as (u5 & s5 & E5%reading_out & E). apply IH in E. rewrite E5, E3, E2 in E.
  apply (effect_trans p (p + 1)) with (pcode s2); [lia | | eapply effect_widen; [..| exact E]; lia].
  rewrite E1. destruct allow_modify eqn:Ha; [| apply effect_refl]. by eapply set_byte_effect.
Qed.

(** what printing an instruction does to its bytes *)
Definition relocates (i : option instr_type) (pc : pcounter) (c c' : list byte) : Prop :=
  match i with
  | Some ALLOC_INSTR | Some ITER_INSTR | Some DELETE_INSTR =>
      ∃ b, byte_at c (pc + 1) = Ok b ∧ is_Some (get_predicate (Z.land b 0x7f)) ∧
           c' = if allow_modify then <[Z.to_nat (pc + 1) := wrap 8 (wrap 8 (predicate_link (Z.land b 0x7f)))]> c else c
  | Some RULE_INSTR =>
      ∃ id, rule_get_id c pc = Ok id ∧
            c' = if allow_modify then <[Z.to_nat (pc + 1) := wrap 8 (rule_link id)]> c else c
  | Some NEW_AXIOMS_INSTR => ∃ j, new_axioms_jump c pc = Ok j ∧ effect (pc + NEW_AXIOMS_BASE) (pc + j) c c'
  | _ => c' = c
  end.

Lemma reading_relocates {A} (f : printer A) s a s1 : reading f → f s = Ok (a, s1) → pcode s1 = pcode s.
Proof. intros H. apply H. Qed.

Lemma print_one_relocates i pc s u s1 : print_one i pc s = Ok (u, s1) → relocates i pc (pcode s) (pcode s1).
Proof.
  destruct i as [[] |]; cbn [Printer.print_one Printer.print_later relocates]; intros E;
    try (eapply reading_relocates; [| exact E];
         unfold two_operands, three_operands, get_reg, print_call; by printing).
  - (* DELETE *)
    apply pbind_ok in E as (n & s2 & E1%reading_look & E). apply pbind_ok in E as (p & s3 & E2 & E).
    apply (print_predicate_effect pc 1) in E2 as (b & Hb & Hs & E2). rewrite E1 in *. exists b.
    split; [done |]. split; [by eexists |]. rewrite <- E2. eapply reading_relocates; [| exact E]. by printing.
  - (* RULE *)
    unfold print_rule in E. apply pbind_ok in E as (id & s2 & E1 & E).
    apply res_bind_ok in E1 as (x & E1 & [= <- <-]). apply pbind_ok in E as (u2 & s3 & E2 & E3%reading_out).
    exists x. split; [done |]. rewrite E3. destruct allow_modify; [| by injection E2 as _ <-].
    destruct (x <? num_rules); [| done]. apply res_bind_ok in E2 as (c & E2 & [= _ <-]).
    unfold rule_set_id, byte_set in E2. by apply res_bind_ok in E2 as (b & _ & [= <-]).
  - (* NEW AXIOMS *)
    apply pbind_ok in E as (u2 & s2 & E1%reading_out & E). apply pbind_ok in E as (j & s3 & E2 & E).
    apply res_bind_ok in E2 as (x & E2 & [= <- <-]). apply pbind_ok in E as (n & s4 & E3%reading_look & E).
    apply print_axioms_effect in E. exists x. rewrite E1 in *. split; [done |]. by rewrite E3 in E.
  - (* ALLOC *)
    apply pbind_ok in E as (p & s3 & E2 & E).
    apply (print_predicate_effect pc 1) in E2 as (b & Hb & Hs & E2). exists b.
    split; [done |]. split; [by eexists |]. rewrite <- E2. eapply reading_relocates; [| exact E]. unfold get_reg. by printing.
  - (* ITER *)
    unfold print_iter in E. apply pbind_ok in E as (n & s2 & E1%reading_look & E). apply pbind_ok in E as (p & s3 & E2 & E).
    apply (print_predicate_effect pc 1) in E2 as (b & Hb & Hs & E2). rewrite E1 in *. exists b.
    split; [done |]. split; [by eexists |]. rewrite <- E2. eapply reading_relocates; [| exact E]. by printing.
Qed.

(** ** The length of the code *)

Definition sized {A} (f : printer A) : Prop := ∀ s a s1, f s = Ok (a, s1) → length (pcode s1) = length (pcode s).

Lemma reading_sized {A} (f : printer A) : reading f → sized f.
Proof. intros H s a s1 E. by rewrite (H _ _ _ E). Qed.
Lemma sized_bind {A B} (m : printer A) (f : A → printer B) : sized m → (∀ a, sized (f a)) → sized (pbind m f).
Proof. intros Hm Hf s b s2 E. apply pbind_ok in E as (a & s1 & E1 & E2). rewrite (Hf _ _ _ _ E2). by eapply Hm. Qed.
Lemma sized_if {A} (b : bool) (f g : printer A) : sized f → sized g → sized (if b then f else g).
Proof. by destruct b. Qed.

Lemma print_one_sized i pc : sized (print_one i pc).
Proof.
  intros s u s1 E%print_one_relocates.
  assert (H : ∀ p b c, length (if allow_modify then <[p := b]> c else c) = length (c : list byte))
    by (intros; destruct allow_modify; [apply length_insert | done]).
  destruct i as [[] |]; cbn in E; try (by rewrite E);
    try (destruct E as (b & _ & _ & ->); apply H); try (destruct E as (id & _ & ->); apply H).
  by destruct E as (j & _ & E%effect_length).
Qed.

Ltac sizes := repeat first [progress intros | apply sized_bind | apply sized_if | apply print_one_sized
                           | solve [auto with printing nocore] | apply reading_sized; solve [printing]].

Lemma instr_print_sized fuel : ∀ recurse pc, sized (instr_print fuel recurse pc).
Proof.
  induction fuel as [| fuel IH]; intros recurse pc; [by intros s a s1 E |].
  assert (U : ∀ n p u, sized (instrs_print_until (instr_print fuel true) n p u)).
  { induction n as [| n IHn]; intros p u; cbn [instrs_print_until]; sizes. }
  assert (L : ∀ n p, sized (instrs_print_until_end_linear (instr_print fuel true) n p)).
  { induction n as [| n IHn]; intros p; cbn [instrs_print_until_end_linear]; sizes. case_match; [case_match |]; sizes. }
  assert (R : ∀ n p, sized (instrs_print_until_return_select (instr_print fuel true) n p)).
  { induction n as [| n IHn]; intros p; cbn [instrs_print_until_return_select]; sizes. case_match; [case_match |]; sizes. }
  assert (P : ∀ n h e i, sized (print_select (instr_print fuel true) fuel h e i n)).
  { induction n as [| n IHn]; intros h e i; cbn [print_select]; sizes. }
  cbn [instr_print]. apply sized_bind; [sizes |]. intros i. apply sized_bind; [sizes |]. intros u.
  destruct i as [[] |]; sizes.
Qed.

(** whatever is printed, the code keeps its length *)
Lemma instrs_print_sized fuel len :
  sized (instrs_print get_predicate predicate_link num_rules rule_link float_string default_string allow_modify fuel len).
Proof.
  unfold instrs_print. generalize fuel at 2. generalize 0. intros p n. revert p.
  induction n as [| n IHn]; intros p; cbn [instrs_print_until]; sizes; apply instr_print_sized.
Qed.

(** ** The same bytes from a place on *)

Definition agree_from (pc : pcounter) (c c' : list byte) : Prop :=
  length c = length c' ∧ ∀ q, pc <= q → byte_at c q = byte_at c' q.

Lemma agree_from_le p q c c' : p <= q → agree_from p c c' → agree_from q c c'.
Proof. intros Hq [L H]. split; [done |]. intros x Hx. apply H. lia. Qed.

Lemma agree_from_trans p c1 c2 c3 : agree_from p c1 c2 → agree_from p c2 c3 → agree_from p c1 c3.
Proof. intros [L1 H1] [L2 H2]. split; [congruence |]. intros q Hq. by rewrite H1, H2. Qed.

Lemma agree_from_sym p c1 c2 : agree_from p c1 c2 → agree_from p c2 c1.
Proof. intros [L1 H1]. split; [done |]. intros q Hq. symmetry. by apply H1. Qed.

Lemma bytes_at_agree p c c' n : agree_from p c c' → ∀ q, p <= q → bytes_at c n q = bytes_at c' n q.
Proof.
  intros [_ H]. induction n as [| n IH]; intros q Hq; [done |]. cbn [bytes_at]. rewrite H by done.
  destruct (byte_at c' q); [| done]. cbn [res_bind]. rewrite IH by lia. done.
Qed.

Lemma byte_at_insert_ne c p b q : q ≠ p → 0 <= p → byte_at (<[Z.to_nat p := b]> c) q = byte_at c q.
Proof.
  intros Hq Hp. unfold byte_at. destruct (Z.ltb_spec q 0); [done |]. rewrite list_lookup_insert_ne by lia. done.
Qed.

Lemma agree_from_insert p q b c : 0 <= p < q → agree_from q (<[Z.to_nat p := b]> c) c.
Proof. intros Hp. split; [apply length_insert |]. intros x Hx. apply byte_at_insert_ne; lia. Qed.

Lemma effect_byte lo hi c c' q : effect lo hi c c' → (q < lo ∨ hi <= q) → byte_at c' q = byte_at c q.
Proof.
  intros [_ H] Hq. unfold byte_at. destruct (Z.ltb_spec q 0); [done |].
  destruct (H (Z.to_nat q)) as [-> | (? & _)]; [done | lia].
Qed.

Lemma iter_matches_agree p c c' : agree_from p c c' → iter_matches_size c p = iter_matches_size c' p.
Proof.
  intros [L H]. unfold iter_matches_size, iter_match_none. rewrite H by lia.
  destruct (byte_at c' (p + 1)); [| done]. cbn [res_bind]. destruct (_ =? _); [done |]. rewrite L.
  generalize (S (length c')), 0. intros n. assert (Hp : p <= p) by lia. revert Hp. generalize p at 2 3 4.
  induction n as [| n IH]; intros q Hq z; [done |]. cbn [iter_matches_loop].
  unfold iter_match_val, iter_match_end, val_get. rewrite H by lia. destruct (byte_at c' (q + 1)); [| done].
  cbn [res_bind]. destruct (arg_size _ _) as [k |] eqn:E; [| done]. apply arg_size_nonneg in E. cbn [res_bind].
  destruct (_ =? _); [done |]. apply IH. unfold iter_match_size. lia.
Qed.

Lemma delete_args_agree p c c' n : agree_from p c c' → ∀ q, p <= q →
  instr_delete_args_size c q n = instr_delete_args_size c' q n.
Proof.
  intros [L H]. induction n as [| n IH]; intros q Hq; [done |]. cbn [instr_delete_args_size].
  unfold delete_val, val_get, index_size. rewrite H by lia. destruct (byte_at c' _); [| done]. cbn [res_bind].
  destruct (arg_size _ _) as [k |] eqn:E; [| done]. apply arg_size_nonneg in E. cbn [res_bind].
  rewrite IH by (unfold val_size; lia). done.
Qed.

Lemma fetch_nonneg c pc i : fetch c pc = Ok i → 0 <= pc.
Proof. unfold fetch. intros E. by apply res_bind_ok in E as (b & [? _]%byte_at_ok & _). Qed.

(** the bytes an instruction does not own, its own first byte, its length and its jump stay *)
Lemma relocates_keeps i pc c c' next :
  fetch c pc = Ok i → advance c pc = Ok next → pc < next → relocates i pc c c' →
  (∀ q, q <= pc ∨ next <= q → byte_at c' q = byte_at c q) ∧ length c' = length c ∧
  advance c' pc = Ok next ∧ (i = Some ITER_INSTR → iter_jump c' pc = iter_jump c pc).
Proof.
  intros Hf Ha Hn Hr. pose proof (fetch_nonneg _ _ _ Hf) as Hpc.
  assert (I : ∀ b, pc + 2 <= next → (advance c' pc = advance c pc) → c' = <[Z.to_nat (pc + 1) := b]> c →
    (∀ q, q <= pc ∨ next <= q → byte_at c' q = byte_at c q) ∧ length c' = length c ∧
    advance c' pc = Ok next ∧ (i = Some ITER_INSTR → iter_jump c' pc = iter_jump c pc)).
  { intros b Hb Ha' ->. split; [intros q Hq; apply byte_at_insert_ne; lia |]. split; [apply length_insert |].
    split; [by rewrite Ha' |]. intros _. unfold iter_jump, jump_get, pcounter_code_size.
    apply (bytes_at_agree (pc + 2)); [apply agree_from_insert; lia | lia]. }
  assert (T : c' = c → (∀ q, q <= pc ∨ next <= q → byte_at c' q = byte_at c q) ∧ length c' = length c ∧
    advance c' pc = Ok next ∧ (i = Some ITER_INSTR → iter_jump c' pc = iter_jump c pc)) by by intros ->.
  assert (F : ∀ b, byte_at (<[Z.to_nat (pc + 1) := b]> c) pc = byte_at c pc) by (intros b; apply byte_at_insert_ne; lia).
  assert (G : ∀ b, agree_from (pc + 2) (<[Z.to_nat (pc + 1) := b]> c) c) by (intros b; apply agree_from_insert; lia).
  assert (Hc : ∀ b, fetch (<[Z.to_nat (pc + 1) := b]> c) pc = Ok i) by (intros b; unfold fetch in *; by rewrite F).
  unfold advance in Ha. rewrite Hf in Ha. cbn [res_bind] in Ha.
  destruct i as [[] |]; try (by apply T); cbn [relocates] in Hr.
  - (* DELETE *)
    destruct Hr as (b & _ & _ & Hr). destruct allow_modify; [| by apply T]. eapply I; [| | exact Hr].
    + apply res_bind_ok in Ha as (n & _ & Ha). apply res_bind_ok in Ha as (k & Hk%delete_args_nonneg & [= <-]).
      unfold DELETE_BASE. lia.
    + rewrite Hr. unfold advance. rewrite Hc, Hf. cbn [res_bind]. unfold delete_num_args, byte_get.
      rewrite (proj2 (G _)) by lia. destruct (byte_at c (pc + 2)); [| done]. cbn [res_bind].
      by rewrite (delete_args_agree _ _ _ _ (G _)) by (unfold DELETE_BASE; lia).
  - (* RULE *)
    destruct Hr as (id & _ & Hr). destruct allow_modify; [| by apply T]. eapply I; [| | exact Hr].
    + injection Ha as <-. unfold RULE_BASE, uint_size. lia.
    + rewrite Hr. unfold advance. by rewrite Hc, Hf.
  - (* NEW AXIOMS *)
    destruct Hr as (j & Hj & Hr). rewrite Hj in Ha. cbn [res_bind] in Ha. injection Ha as <-.
    assert (B : ∀ q, q < pc + 5 → byte_at c' q = byte_at c q).
    { intros q Hq. eapply effect_byte; [exact Hr |]. left. unfold NEW_AXIOMS_BASE, jump_size. lia. }
    split; [intros q Hq; eapply effect_byte; [exact Hr |]; unfold NEW_AXIOMS_BASE, jump_size in *; lia |].
    split; [apply Hr |]. split; [| done]. unfold advance, fetch in *. rewrite B by lia.
    destruct (byte_at c pc) as [x |]; [| done]. cbn [res_bind] in *. injection Hf as ->.
    unfold new_axioms_jump, jump_get, pcounter_code_size in *. cbn [bytes_at] in *. rewrite !B by lia. by rewrite Hj.
  - (* ALLOC *)
    destruct Hr as (b & _ & _ & Hr). destruct allow_modify; [| by apply T]. eapply I; [| | exact Hr].
    + injection Ha as <-. unfold ALLOC_BASE. lia.
    + rewrite Hr. unfold advance. by rewrite Hc, Hf.
  - (* ITER *)
    destruct Hr as (b & _ & _ & Hr). destruct allow_modify; [| by apply T]. eapply I; [| | exact Hr].
    + apply res_bind_ok in Ha as (k & Hk%iter_matches_size_pos & [= <-]). unfold ITER_BASE, jump_size. lia.
    + rewrite Hr. unfold advance. rewrite Hc, Hf. cbn [res_bind].
      rewrite (iter_matches_agree _ _ c); [done |]. eapply agree_from_le; [| apply G]. unfold ITER_BASE, jump_size. lia.
Qed.

Lemma call_args_agree p c c' n : agree_from p c c' → ∀ q, p <= q →
  instr_call_args_size c q n = instr_call_args_size c' q n.
Proof.
  intros [L H]. induction n as [| n IH]; intros q Hq; [done |]. cbn [instr_call_args_size].
  unfold call_val, val_get. rewrite H by lia. destruct (byte_at c' _); [| done]. cbn [res_bind].
  destruct (arg_size _ _) as [k |] eqn:E; [| done]. apply arg_size_nonneg in E. cbn [res_bind].
  rewrite IH by (unfold val_size; lia). done.
Qed.

Lemma operand_agree pc c c' type k : agree_from pc c c' → 0 <= k →
  operand type (λ p, val_get c p k) pc = operand type (λ p, val_get c' p k) pc.
Proof. intros [_ H] Hk. unfold operand, val_get. by rewrite H by lia. Qed.

Lemma fetch_agree pc c c' : agree_from pc c c' → fetch c pc = fetch c' pc.
Proof. intros [_ H]. unfold fetch. by rewrite H by lia. Qed.

Lemma advance_agree pc c c' : agree_from pc c c' → advance c pc = advance c' pc.
Proof.
  intros A. unfold advance. rewrite (fetch_agree _ _ _ A). destruct (fetch c' pc) as [[[] |] |]; try done; cbn [res_bind];
    unfold test_nil_op, test_nil_dest, cons_head, cons_tail, cons_dest, head_cons, head_dest, tail_cons, tail_dest,
      not_op, not_dest, float_op, float_dest, colocated_first, colocated_second, move_from, move_to, move_nil_dest,
      op_arg1, op_arg2, op_dest; try by rewrite !(operand_agree pc c c' _ _ A) by lia.
  - unfold select_hash_size, pcounter_code_size. by rewrite (bytes_at_agree _ _ _ _ A) by lia.
  - unfold delete_num_args, byte_get. rewrite (proj2 A) by lia. destruct (byte_at c' _); [| done]. cbn [res_bind].
    by rewrite (delete_args_agree _ _ _ _ A) by (unfold DELETE_BASE; lia).
  - unfold new_axioms_jump, jump_get, pcounter_code_size. by rewrite (bytes_at_agree _ _ _ _ A) by lia.
  - unfold calle_num_args, byte_get. rewrite (proj2 A) by lia. destruct (byte_at c' _); [| done]. cbn [res_bind].
    by rewrite (call_args_agree _ _ _ _ A) by (unfold CALLE_BASE; lia).
  - unfold call_num_args, byte_get. rewrite (proj2 A) by lia. destruct (byte_at c' _); [| done]. cbn [res_bind].
    by rewrite (call_args_agree _ _ _ _ A) by (unfold CALL_BASE; lia).
  - rewrite (iter_matches_agree _ c c'); [done |]. eapply agree_from_le; [| exact A]. unfold ITER_BASE, jump_size. lia.
Qed.

Lemma byte_at_lookup c q : 0 <= q → byte_at c q = of_option (c !! Z.to_nat q).
Proof. intros Hq. unfold byte_at. by rewrite (proj2 (Z.ltb_ge _ _)) by lia. Qed.

Lemma lookup_agree pc c c0 i : 0 <= pc → agree_from pc c c0 → pc <= Z.of_nat i → c !! i = c0 !! i.
Proof.
  intros Hpc [_ H] Hi. specialize (H (Z.of_nat i) Hi). rewrite !byte_at_lookup, Nat2Z.id in H by lia.
  destruct (c !! i), (c0 !! i); cbn in H; congruence.
Qed.

(** what an instruction becomes depends on its own bytes only *)
Lemma relocates_agree i pc c c' c0 :
  0 <= pc → agree_from pc c c0 → relocates i pc c c' →
  ∃ c0', relocates i pc c0 c0' ∧ ∀ q, pc <= q → byte_at c0' q = byte_at c' q.
Proof.
  intros Hpc A Hr.
  assert (S1 : ∀ v : Z, byte_at c (pc + 1) ≠ Err undefined_behaviour → ∀ q, pc <= q →
    byte_at (<[Z.to_nat (pc + 1) := v]> c0) q = byte_at (<[Z.to_nat (pc + 1) := v]> c) q).
  { intros v Hv q Hq. assert (L : (Z.to_nat (pc + 1) < length c)%nat).
    { rewrite byte_at_lookup in Hv by lia. destruct (c !! Z.to_nat (pc + 1)) eqn:E; [by eapply lookup_lt_Some | done]. }
    rewrite !byte_at_insert by (rewrite <- ?(proj1 A); lia). destruct (q =? pc + 1); [done |]. symmetry. by apply A. }
  destruct i as [[] |]; cbn [relocates] in Hr |- *;
    try (exists c0; split; [done |]; intros q Hq; rewrite Hr; symmetry; by apply A).
  1, 4, 5: destruct Hr as (b & Hb & Hs & ->); exists (if allow_modify then <[Z.to_nat (pc + 1) := wrap 8 (wrap 8 (predicate_link (Z.land b 127)))]> c0 else c0);
    (split; [exists b; split; [rewrite <- (proj2 A) by lia; done | done] |]);
    intros q Hq; destruct allow_modify; [apply S1; [by rewrite Hb | done] | symmetry; by apply A].
  - destruct Hr as (id & Hid & ->).
    exists (if allow_modify then <[Z.to_nat (pc + 1) := wrap 8 (rule_link id)]> c0 else c0). split.
    + exists id. split; [| done]. unfold rule_get_id, pcounter_uint in *. rewrite <- Hid. symmetry.
      apply (bytes_at_agree pc); [done | lia].
    + intros q Hq. destruct allow_modify; [apply S1; [| done] | symmetry; by apply A].
      unfold rule_get_id, pcounter_uint in Hid. cbn [bytes_at] in Hid. apply res_bind_ok in Hid as (x & -> & _). done.
  - destruct Hr as (j & Hj & [L E]). set (n := Z.to_nat pc). exists (take n c0 ++ drop n c').
    assert (Lk : ∀ k, (n <= k)%nat → (take n c0 ++ drop n c') !! k = c' !! k).
    { intros k Hk. destruct (decide (n <= length c0)%nat) as [Hn | Hn].
      - rewrite lookup_app_r by (rewrite length_take; lia). rewrite lookup_drop, length_take. f_equal. lia.
      - rewrite (lookup_ge_None_2 c') by (rewrite L, (proj1 A); lia).
        apply lookup_ge_None_2. rewrite length_app, length_take, length_drop, L, (proj1 A). lia. }
    assert (Lk' : ∀ k, (k < n)%nat → (take n c0 ++ drop n c') !! k = c0 !! k).
    { intros k Hk. destruct (decide (k < length c0)%nat) as [Hn | Hn].
      - rewrite lookup_app_l by (rewrite length_take; lia). by rewrite lookup_take_lt by lia.
      - rewrite (lookup_ge_None_2 c0) by lia. apply lookup_ge_None_2.
        rewrite length_app, length_take, length_drop, L, (proj1 A). lia. }
    split.
    + exists j. split.
      { unfold new_axioms_jump, jump_get, pcounter_code_size in *. rewrite <- Hj. symmetry. apply (bytes_at_agree pc); [done | lia]. }
      split; [rewrite length_app, length_take, length_drop, L, (proj1 A); lia |]. intros k.
      destruct (decide (k < n)%nat) as [Hk | Hk]; [left; by apply Lk' |]. rewrite Lk by lia.
      rewrite <- (lookup_agree pc c c0 k) by (done || lia).
      destruct (E k) as [He | (H1 & H2 & b & H3 & H4 & H5)]; [by left |]. right. split; [done |]. split; [done |].
      exists b. rewrite Lk, <- (lookup_agree pc c c0 k) by (done || lia). done.
    + intros q Hq. rewrite !byte_at_lookup by lia. by rewrite Lk by lia.
Qed.

(** ** The instructions in a row, and the code that is well nested *)

(** every instruction printed once, by [advance] *)
Fixpoint listing (n : nat) (pc until : pcounter) : printer unit :=
  if pc <? until then
    match n with
    | O => pfail undefined_behaviour
    | S n =>
        print! i := look (λ c, fetch c pc) in
        print_one i pc ;;.
        print! next := look (λ c, advance c pc) in
        listing n next until
    end
  else pret ().

(** the instructions inside another end exactly where it ends; SELECT is left out *)
Fixpoint nested (fuel : nat) (c : list byte) (pc until : pcounter) : bool :=
  match fuel with
  | O => false
  | S fuel =>
      if pc =? until then true
      else
        match fetch c pc, advance c pc with
        | Ok (Some i), Ok next =>
            (pc <? next) && (next <=? until) &&
            match i with
            | IF_INSTR =>
                match if_jump c pc with
                | Ok j => (j <? 2 ^ 32) && nested fuel c next (pc + j) && nested fuel c (pc + j) until
                | Err _ => false
                end
            | ITER_INSTR =>
                match iter_jump c pc with
                | Ok j => nested fuel c next (pc + j) && nested fuel c (pc + j) until
                | Err _ => false
                end
            | RESET_LINEAR_INSTR =>
                match reset_linear_jump c pc with
                | Ok j =>
                    let end_ := pc + j - END_LINEAR_BASE in
                    nested fuel c next end_ &&
                    match fetch c end_ with Ok (Some END_LINEAR_INSTR) => true | _ => false end &&
                    nested fuel c (pc + j) until
                | Err _ => false
                end
            | SELECT_INSTR | END_LINEAR_INSTR => false
            | _ => nested fuel c next until
            end
        | _, _ => false
        end
  end.

Lemma nested_le fuel c pc until : nested fuel c pc until = true → pc <= until.
Proof.
  destruct fuel as [| fuel]; [done |]. cbn [nested]. destruct (Z.eqb_spec pc until); [lia |].
  destruct (fetch c pc) as [[i |] |]; [| done..]. destruct (advance c pc) as [next |]; [| done].
  rewrite !andb_true_iff. lia.
Qed.

(** [instr_print] from one place to another *)
Inductive steps (F : nat) : pcounter → printing → pcounter → printing → nat → Prop :=
  | steps_nil pc s : steps F pc s pc s 0
  | steps_cons pc s pc' s1 i mid s2 k :
      instr_print F true pc s = Ok (pc', s1) → fetch (pcode s1) pc = Ok i → i ≠ Some END_LINEAR_INSTR →
      pc < pc' → steps F pc' s1 mid s2 k → steps F pc s mid s2 (S k).

Lemma steps_le F pc s mid s2 k : steps F pc s mid s2 k → pc <= mid.
Proof. induction 1; lia. Qed.

Lemma steps_until F pc s mid s2 k :
  steps F pc s mid s2 k → ∀ n, (k <= n)%nat → instrs_print_until (instr_print F true) n pc mid s = Ok (mid, s2).
Proof.
  induction 1 as [pc s | pc s pc' s1 i mid s2 k Hp Hf Hi Hlt Hs IH]; intros n Hn.
  - destruct n; cbn [instrs_print_until]; by rewrite Z.ltb_irrefl.
  - destruct n as [| n]; [lia |]. cbn [instrs_print_until]. apply steps_le in Hs.
    rewrite (proj2 (Z.ltb_lt _ _)) by lia. rewrite (pbind_run _ _ _ _ _ Hp). apply IH. lia.
Qed.

Lemma steps_end F pc s e s2 k : steps F pc s e s2 k → ∀ n x s3, (k < n)%nat →
  instr_print F true e s2 = Ok (x, s3) → fetch (pcode s3) e = Ok (Some END_LINEAR_INSTR) →
  instrs_print_until_end_linear (instr_print F true) n pc s = Ok (e, s3).
Proof.
  induction 1 as [pc s | pc s pc' s1 i mid s2 k Hp Hf Hi Hlt Hs IH]; intros n x s3 Hn Hx H3;
    (destruct n as [| n]; [lia |]); cbn [instrs_print_until_end_linear].
  - rewrite (pbind_run _ _ _ _ _ Hx). unfold pbind at 1, look at 1. by rewrite H3.
  - rewrite (pbind_run _ _ _ _ _ Hp). unfold pbind at 1, look at 1. rewrite Hf. cbn [res_bind fst snd].
    assert (E : ∀ A (u v : A), match i with Some END_LINEAR_INSTR => u | _ => v end = v) by (intros; by destruct i as [[] |]).
    rewrite E. apply (IH n x); [lia | done..].
Qed.

Section Region.
Context (c0 : list byte).

Record listed (pc next : pcounter) (i : option instr_type) (s sa : printing) : Prop := {
  listed_print : print_one i pc s = Ok ((), sa);
  listed_fetch : fetch (pcode s) pc = Ok i;
  listed_fetched : fetch (pcode sa) pc = Ok i;
  listed_next : advance (pcode s) pc = Ok next;
  listed_advance : advance (pcode sa) pc = Ok next;
  listed_keeps : ∀ q, q <= pc ∨ next <= q → byte_at (pcode sa) q = byte_at (pcode s) q;
  listed_length : length (pcode sa) = length (pcode s);
  listed_iter : i = Some ITER_INSTR → iter_jump (pcode sa) pc = iter_jump c0 pc;
  listed_relocates : relocates i pc (pcode s) (pcode sa)
}.

Lemma listing_step m pc until s s1 i next :
  agree_from pc (pcode s) c0 → fetch c0 pc = Ok i → advance c0 pc = Ok next → pc < next → pc < until →
  listing m pc until s = Ok ((), s1) →
  ∃ m' sa, listed pc next i s sa ∧ listing m' next until sa = Ok ((), s1).
Proof.
  intros A Hf Ha Hn Hu E. rewrite <- (fetch_agree _ _ _ A) in Hf. rewrite <- (advance_agree _ _ _ A) in Ha.
  destruct m as [| m]; cbn [listing] in E; rewrite (proj2 (Z.ltb_lt _ _) Hu) in E; [done |].
  apply pbind_ok in E as (i' & s2 & E1 & E). apply res_bind_ok in E1 as (x & E1 & [= <- <-]).
  assert (x = i) as -> by congruence. clear E1.
  apply pbind_ok in E as ([] & sa & E2 & E). apply pbind_ok in E as (nx & s3 & E3 & E).
  apply res_bind_ok in E3 as (x & E3 & [= <- <-]).
  pose proof (print_one_relocates _ _ _ _ _ E2) as Hr.
  destruct (relocates_keeps _ _ _ _ _ Hf Ha Hn Hr) as (K1 & K2 & K3 & K4).
  assert (x = next) as -> by congruence. exists m, sa. split; [| exact E]. split; try done.
  - unfold fetch in *. by rewrite K1 by lia.
  - intros Hi. rewrite K4 by done. unfold iter_jump, jump_get, pcounter_code_size.
    apply (bytes_at_agree pc); [done | lia].
Qed.

Lemma listed_agree pc next i s sa : listed pc next i s sa → pc <= next → agree_from pc (pcode s) c0 → agree_from next (pcode sa) c0.
Proof.
  intros H Hn [L A]. split; [by rewrite (listed_length _ _ _ _ _ H) |]. intros q Hq.
  rewrite (listed_keeps _ _ _ _ _ H) by lia. apply A. lia.
Qed.

(** the instructions of a part of [c0] one after the other, each with its identifiers
    renumbered in [c1] *)
Inductive relocated (c1 : list byte) : pcounter → pcounter → Prop :=
  | relocated_end pc : relocated c1 pc pc
  | relocated_next pc next until i c' :
      fetch c0 pc = Ok i → advance c0 pc = Ok next → pc < next →
      relocates i pc c0 c' → (∀ q, pc <= q < next → byte_at c1 q = byte_at c' q) →
      relocated c1 next until → relocated c1 pc until.

Lemma relocated_le c1 pc until : relocated c1 pc until → pc <= until.
Proof. induction 1; lia. Qed.

Lemma relocated_app c1 pc mid until : relocated c1 pc mid → relocated c1 mid until → relocated c1 pc until.
Proof. induction 1; [done |]. intros. econstructor; eauto. Qed.

Lemma relocated_same c1 c2 pc until :
  relocated c1 pc until → (∀ q, pc <= q < until → byte_at c2 q = byte_at c1 q) → relocated c2 pc until.
Proof.
  induction 1 as [pc | pc next until i c' Hf Ha Hn Hr Hs Hl IH]; intros H; [constructor |].
  pose proof (relocated_le _ _ _ Hl). econstructor; try done.
  - intros q Hq. rewrite H by lia. by apply Hs.
  - apply IH. intros q Hq. apply H. lia.
Qed.

Lemma listed_relocated pc next i s sa :
  pc < next → agree_from pc (pcode s) c0 → listed pc next i s sa → relocated (pcode sa) pc next.
Proof.
  intros Hn A L. pose proof (fetch_nonneg _ _ _ (listed_fetch _ _ _ _ _ L)).
  destruct (relocates_agree i pc _ _ c0 ltac:(lia) A (listed_relocates _ _ _ _ _ L)) as (c' & Hr & Hc).
  apply (relocated_next _ pc next next i c'); [| | done | done | | constructor].
  - rewrite <- (fetch_agree _ _ _ A). apply L.
  - rewrite <- (advance_agree _ _ _ A). apply L.
  - intros q Hq. symmetry. apply Hc. lia.
Qed.

(** what the walk over a part of the code has done: the rest of the listing is left, only
    bytes after the first of the part have changed, and [instr_print] gets there as well *)
Definition walked (pc mid until : pcounter) (s s1 : printing) : Prop :=
  ∃ sm m', listing m' mid until sm = Ok ((), s1) ∧
    (∀ q, q <= pc ∨ mid <= q → byte_at (pcode sm) q = byte_at (pcode s) q) ∧
    length (pcode sm) = length (pcode s) ∧
    relocated (pcode sm) pc mid ∧
    ∀ s' F, same s s' → (Z.to_nat (mid - pc) <= F)%nat →
      ∃ s2 k, steps F pc s' mid s2 k ∧ (k <= Z.to_nat (mid - pc))%nat ∧ same sm s2.

(** one instruction with what is inside it, then the rest *)
Lemma walked_cons pc nx mid until s sm s1 i :
  pc < nx → nx <= mid → fetch (pcode s) pc = Ok i → i ≠ Some END_LINEAR_INSTR →
  (∀ q, q <= pc ∨ nx <= q → byte_at (pcode sm) q = byte_at (pcode s) q) → length (pcode sm) = length (pcode s) →
  relocated (pcode sm) pc nx →
  (∀ s' F, same s s' → (Z.to_nat (nx - pc) <= F)%nat → ∃ s2, instr_print F true pc s' = Ok (nx, s2) ∧ same sm s2) →
  walked nx mid until sm s1 → walked pc mid until s s1.
Proof.
  intros Hlt Hmid Hf Hi Hk Hl Hr Hp (sf & m' & W1 & W2 & W3 & W5 & W4). exists sf, m'. split; [done |].
  split; [intros q Hq; rewrite W2, Hk by lia; done |]. split; [congruence |].
  split; [eapply relocated_app; [eapply relocated_same; [exact Hr | intros q Hq] | exact W5]; apply W2; lia |].
  intros s' F Hs HF.
  destruct (Hp s' F Hs ltac:(lia)) as (s2 & Hp2 & Hs2). destruct (W4 s2 F Hs2 ltac:(lia)) as (s3 & k & Hst & Hk3 & Hs3).
  exists s3, (S k). split; [| split; [lia | done]]. econstructor; [exact Hp2 | | exact Hi | exact Hlt | exact Hst].
  rewrite <- (proj1 Hs2). unfold fetch in *. by rewrite Hk by lia.
Qed.

(** an instruction with nothing inside *)
Lemma print_plain pc next i s sa s' F :
  listed pc next i s sa → pc < next → same s s' → (Z.to_nat (next - pc) <= F)%nat →
  match i with Some IF_INSTR | Some ITER_INSTR | Some RESET_LINEAR_INSTR | Some SELECT_INSTR => False | _ => True end →
  ∃ s2, instr_print F true pc s' = Ok (next, s2) ∧ same sa s2.
Proof.
  intros H Hlt Hs HF Hi. destruct F as [| F]; [lia |]. cbn [Printer.instr_print].
  destruct (print_one_blind i pc _ _ _ _ Hs (listed_print _ _ _ _ _ H)) as (s2 & E & H2). exists s2. split; [| done].
  unfold pbind at 1, look at 1. rewrite <- (proj1 Hs), (listed_fetch _ _ _ _ _ H). cbn [res_bind fst snd].
  rewrite (pbind_run _ _ _ _ _ E). pose proof (listed_advance _ _ _ _ _ H) as Ha. rewrite (proj1 H2) in Ha.
  destruct i as [[] |]; try done; unfold look; by rewrite Ha.
Qed.

(** the steps inside an instruction *)
Definition stepped (pc mid : pcounter) (s sm : printing) : Prop :=
  ∀ s' F, same s s' → (Z.to_nat (mid - pc) <= F)%nat →
    ∃ s2 k, steps F pc s' mid s2 k ∧ (k <= Z.to_nat (mid - pc))%nat ∧ same sm s2.

Lemma print_if pc next j s sa sm :
  listed pc next (Some IF_INSTR) s sa → pc < next → next <= pc + j → j < 2 ^ 32 → if_jump (pcode sa) pc = Ok j →
  stepped next (pc + j) sa sm →
  ∀ s' F, same s s' → (Z.to_nat (pc + j - pc) <= F)%nat →
  ∃ s2, instr_print F true pc s' = Ok (pc + j, s2) ∧ same sm s2.
Proof.
  intros H H1 H2 H3 Hj Hin s' F Hs HF. destruct F as [| F]; [lia |]. cbn [Printer.instr_print].
  destruct (print_one_blind _ pc _ _ _ _ Hs (listed_print _ _ _ _ _ H)) as (s2 & E & Hs2).
  pose proof (listed_advance _ _ _ _ _ H) as Ha. rewrite (proj1 Hs2) in Ha, Hj.
  unfold pbind at 1, look at 1. rewrite <- (proj1 Hs), (listed_fetch _ _ _ _ _ H). cbn [res_bind fst snd].
  rewrite (pbind_run _ _ _ _ _ E).
  destruct (Hin s2 F Hs2 ltac:(lia)) as (s3 & k & Hst & Hk & Hs3).
  unfold pbind at 1, look at 1. rewrite Ha. cbn [res_bind fst snd].
  unfold pbind at 1, look at 1. rewrite Hj. cbn [res_bind fst snd].
  rewrite wrap_id by lia. replace (next + (j - (next - pc))) with (pc + j) by lia.
  rewrite (pbind_run _ _ _ _ _ (steps_until _ _ _ _ _ _ Hst F ltac:(lia))).
  eexists. split; [reflexivity |]. destruct Hs3. by split.
Qed.

Lemma print_iterate pc next j s sa sm :
  listed pc next (Some ITER_INSTR) s sa → pc < next → next <= pc + j → iter_jump (pcode sa) pc = Ok j →
  stepped next (pc + j) sa sm →
  ∀ s' F, same s s' → (Z.to_nat (pc + j - pc) <= F)%nat →
  ∃ s2, instr_print F true pc s' = Ok (pc + j, s2) ∧ same sm s2.
Proof.
  intros H H1 H2 Hj Hin s' F Hs HF. destruct F as [| F]; [lia |]. cbn [Printer.instr_print].
  destruct (print_one_blind _ pc _ _ _ _ Hs (listed_print _ _ _ _ _ H)) as (s2 & E & Hs2).
  pose proof (listed_advance _ _ _ _ _ H) as Ha. rewrite (proj1 Hs2) in Ha, Hj.
  unfold pbind at 1, look at 1. rewrite <- (proj1 Hs), (listed_fetch _ _ _ _ _ H). cbn [res_bind fst snd].
  rewrite (pbind_run _ _ _ _ _ E).
  destruct (Hin s2 F Hs2 ltac:(lia)) as (s3 & k & Hst & Hk & Hs3).
  unfold pbind at 1, look at 1. rewrite Ha. cbn [res_bind fst snd].
  unfold pbind at 1, look at 1. rewrite Hj. cbn [res_bind fst snd].
  rewrite (pbind_run _ _ _ _ _ (steps_until _ _ _ _ _ _ Hst F ltac:(lia))). exists s3. done.
Qed.

(** from RESET LINEAR to END LINEAR at [e] *)
Lemma print_reset pc next e last s sa sm sb :
  listed pc next (Some RESET_LINEAR_INSTR) s sa → pc < next → next <= e → stepped next e sa sm →
  listed e last (Some END_LINEAR_INSTR) sm sb → e < last →
  ∀ s' F, same s s' → (Z.to_nat (last - pc) <= F)%nat →
  ∃ s2, instr_print F true pc s' = Ok (last, s2) ∧ same sb s2.
Proof.
  intros H H1 H2 Hin He H3 s' F Hs HF. destruct F as [| F]; [lia |]. cbn [Printer.instr_print].
  destruct (print_one_blind _ pc _ _ _ _ Hs (listed_print _ _ _ _ _ H)) as (s2 & E & Hs2).
  pose proof (listed_advance _ _ _ _ _ H) as Ha. rewrite (proj1 Hs2) in Ha.
  unfold pbind at 1, look at 1. rewrite <- (proj1 Hs), (listed_fetch _ _ _ _ _ H). cbn [res_bind fst snd].
  rewrite (pbind_run _ _ _ _ _ E).
  destruct (Hin s2 F Hs2 ltac:(lia)) as (s3 & k & Hst & Hk & Hs3).
  destruct (print_plain e last _ sm sb s3 F He H3 Hs3 ltac:(lia) I) as (s4 & E4 & Hs4).
  unfold pbind at 1, look at 1. rewrite Ha. cbn [res_bind fst snd].
  pose proof (listed_fetched _ _ _ _ _ He) as Hf. rewrite (proj1 Hs4) in Hf.
  rewrite (pbind_run _ _ _ _ _ (steps_end _ _ _ _ _ _ Hst F _ _ ltac:(lia) E4 Hf)).
  exists s4. split; [| done]. unfold look. rewrite <- (proj1 Hs4), (listed_advance _ _ _ _ _ He). done.
Qed.

Lemma walk fuel : ∀ pc mid until m s s1,
  nested fuel c0 pc mid = true → mid <= until → agree_from pc (pcode s) c0 →
  listing m pc until s = Ok ((), s1) → walked pc mid until s s1.
Proof.
  induction fuel as [| fuel IH]; intros pc mid until m s s1 N Hu A E; cbn [nested] in N; [done |].
  destruct (Z.eqb_spec pc mid) as [-> |].
  { exists s, m. split; [done |]. split; [done |]. split; [done |]. split; [constructor |]. intros s' F Hs HF. exists s', 0%nat.
    split; [constructor | split; [lia | done]]. }
  destruct (fetch c0 pc) as [[i |] |] eqn:Hf; [| done..]. destruct (advance c0 pc) as [next |] eqn:Ha; [| done].
  apply andb_true_iff in N as [[Hlt%Z.ltb_lt Hle%Z.leb_le]%andb_true_iff N].
  destruct (listing_step m pc until s s1 (Some i) next A Hf Ha Hlt ltac:(lia) E) as (m1 & sa & L & E1).
  pose proof (listed_agree _ _ _ _ _ L ltac:(lia) A) as A1.
  assert (Fs : fetch (pcode s) pc = Ok (Some i)) by apply L.
  assert (P : nested fuel c0 next mid = true →
    match i with IF_INSTR | ITER_INSTR | RESET_LINEAR_INSTR | SELECT_INSTR | END_LINEAR_INSTR => False | _ => True end →
    walked pc mid until s s1).
  { intros N' Hi. apply (walked_cons pc next mid until s sa s1 (Some i)); try done; try apply L.
    - by destruct i.
    - by apply (listed_relocated pc next (Some i) s sa).
    - intros s' F Hs HF. apply (print_plain pc next (Some i) s sa); try done. by destruct i.
    - by apply (IH next mid until m1). }
  destruct i; try (by apply P); try done; clear P.
  - (* RESET LINEAR *)
    destruct (reset_linear_jump c0 pc) as [j |] eqn:Hj; [| done].
    apply andb_true_iff in N as [[N1 Ne]%andb_true_iff N2]. cbv zeta in N1, Ne. set (e := pc + j - END_LINEAR_BASE) in *.
    assert (He : e + 1 = pc + j) by (unfold e, END_LINEAR_BASE; lia).
    pose proof (nested_le _ _ _ _ N1). pose proof (nested_le _ _ _ _ N2).
    destruct (IH next e until m1 sa s1 N1 ltac:(lia) A1 E1) as (sm & m2 & W1 & W2 & W3 & W5 & W4).
    assert (A2 : agree_from e (pcode sm) c0).
    { split; [rewrite W3; apply A1 |]. intros q Hq. rewrite W2 by lia. apply A1. lia. }
    destruct (fetch c0 e) as [[[] |] |] eqn:Hfe; try done.
    assert (Hae : advance c0 e = Ok (pc + j)) by (unfold advance; rewrite Hfe; cbn [res_bind]; unfold END_LINEAR_BASE; f_equal; lia).
    destruct (listing_step m2 e until sm s1 _ (pc + j) A2 Hfe Hae ltac:(lia) ltac:(lia) W1) as (m3 & sb & L2 & E3).
    assert (R2 : relocated (pcode sb) next e) by (eapply relocated_same; [exact W5 |]; intros q Hq; apply (listed_keeps _ _ _ _ _ L2); lia).
    assert (R1 : relocated (pcode sb) pc next).
    { eapply relocated_same; [by eapply (listed_relocated pc next); [.. | exact L] |]. intros q Hq.
      rewrite (listed_keeps _ _ _ _ _ L2) by lia. apply W2. lia. }
    assert (R3 : relocated (pcode sb) e (pc + j)) by (eapply (listed_relocated e (pc + j)); [lia | exact A2 | exact L2]).
    apply (walked_cons pc (pc + j) mid until s sb s1 (Some RESET_LINEAR_INSTR)); try done; [lia | | | | |].
    + intros q Hq. rewrite (listed_keeps _ _ _ _ _ L2), W2, (listed_keeps _ _ _ _ _ L) by lia. done.
    + by rewrite (listed_length _ _ _ _ _ L2), W3, (listed_length _ _ _ _ _ L).
    + eapply relocated_app; [exact R1 |]. by eapply relocated_app.
    + by apply (print_reset pc next e (pc + j) s sa sm sb); [.. | lia].
    + apply (IH (pc + j) mid until m3); try done. by apply (listed_agree e _ _ sm sb L2); [lia |].
  - (* IF *)
    destruct (if_jump c0 pc) as [j |] eqn:Hj; [| done].
    apply andb_true_iff in N as [[Hj32%Z.ltb_lt N1]%andb_true_iff N2].
    pose proof (nested_le _ _ _ _ N1). pose proof (nested_le _ _ _ _ N2).
    destruct (IH next (pc + j) until m1 sa s1 N1 ltac:(lia) A1 E1) as (sm & m2 & W1 & W2 & W3 & W5 & W4).
    assert (R1 : relocated (pcode sm) pc next).
    { eapply relocated_same; [by eapply (listed_relocated pc next); [.. | exact L] |]. intros q Hq. apply W2. lia. }
    apply (walked_cons pc (pc + j) mid until s sm s1 (Some IF_INSTR)); try done; [lia | | | | |].
    + intros q Hq. rewrite W2, (listed_keeps _ _ _ _ _ L) by lia. done.
    + by rewrite W3, (listed_length _ _ _ _ _ L).
    + by eapply relocated_app.
    + apply (print_if pc next j s sa sm); try done. pose proof (listed_relocates _ _ _ _ _ L) as Hr. cbn [relocates] in Hr.
      rewrite Hr. unfold if_jump, jump_get, pcounter_code_size in *. rewrite <- Hj. apply (bytes_at_agree pc); [done | lia].
    + apply (IH (pc + j) mid until m2); try done. split; [rewrite W3; apply A1 |]. intros q Hq. rewrite W2 by lia. apply A1. lia.
  - (* ITER *)
    destruct (iter_jump c0 pc) as [j |] eqn:Hj; [| done].
    apply andb_true_iff in N as [N1 N2].
    pose proof (nested_le _ _ _ _ N1). pose proof (nested_le _ _ _ _ N2).
    destruct (IH next (pc + j) until m1 sa s1 N1 ltac:(lia) A1 E1) as (sm & m2 & W1 & W2 & W3 & W5 & W4).
    assert (R1 : relocated (pcode sm) pc next).
    { eapply relocated_same; [by eapply (listed_relocated pc next); [.. | exact L] |]. intros q Hq. apply W2. lia. }
    apply (walked_cons pc (pc + j) mid until s sm s1 (Some ITER_INSTR)); try done; [lia | | | | |].
    + intros q Hq. rewrite W2, (listed_keeps _ _ _ _ _ L) by lia. done.
    + by rewrite W3, (listed_length _ _ _ _ _ L).
    + by eapply relocated_app.
    + apply (print_iterate pc next j s sa sm); try done. by rewrite (listed_iter _ _ _ _ _ L).
    + apply (IH (pc + j) mid until m2); try done. split; [rewrite W3; apply A1 |]. intros q Hq. rewrite W2 by lia. apply A1. lia.
Qed.
End Region.

(** printing well nested code visits every instruction once, in the order of the
    code, however the instructions are nested: if each of them can be printed, the
    printer returns at the end of the code with the same dependencies, and in the code
    every predicate and rule that an instruction names has the number that linking gave
    it (when changes are allowed), and no other byte has changed. *)
Theorem instrs_print_relocates c len nf m fuel deps txt s1 :
  nested nf c 0 len = true →
  listing m 0 len (mk_printing c deps txt) = Ok ((), s1) →
  (Z.to_nat len <= fuel)%nat →
  ∃ s2, instrs_print get_predicate predicate_link num_rules rule_link float_string default_string allow_modify
          fuel len (mk_printing c deps txt) = Ok (len, s2) ∧
    pcode s2 = pcode s1 ∧ dependency s2 = dependency s1 ∧
    length (pcode s2) = length c ∧ relocated c (pcode s2) 0 len.
Proof.
  intros N E HF. assert (A : agree_from 0 (pcode (mk_printing c deps txt)) c) by done.
  destruct (walk c nf 0 len len m _ s1 N ltac:(lia) A E) as (sm & m' & W1 & W2 & W3 & W5 & W4).
  assert (sm = s1) as ->.
  { destruct m'; cbn [listing] in W1; rewrite Z.ltb_irrefl in W1; by injection W1. }
  destruct (W4 _ fuel (conj eq_refl eq_refl) ltac:(lia)) as (s2 & k & Hst & Hk & Hc & Hd).
  exists s2. split; [apply (steps_until _ _ _ _ _ _ Hst); lia |]. rewrite <- Hc, <- Hd. done.
Qed.

End Walk.

(** ** A rule *)

(** [_init -o fact(5)], with the predicates 0 and 1 and the rule 0 *)
Definition sample_rule_code : list byte :=
  [ 0x10; 0; 0; 0; 0; 0xA0; 0; 2; 0; 34; 0; 0; 0; 0; 0xc0; 0x30; 0x1f; 0x20; 0x40; 1; 1;
    0x30; 0x01; 0x02; 5; 0; 0; 0; 0; 1; 0x08; 1; 1; 0x80; 0; 0xD0; 0x00; 0x00; 0x00; 0x00 ].

Definition sample_names (id : Z) : option predicate :=
  if id =? 0 then Some (mk_predicate [] 0 "_init" 0 [] [] [] 0 None false true false false false)
  else if id =? 1 then Some (mk_predicate [] 1 "fact" 0 [FIELD_INT] [] [] 0 None false true false false false)
  else None.

Abbreviation sample_listing := (listing sample_names (λ id, id + 8) 1 (λ id, id + 3) (λ _, EmptyString) (λ _, None) true).
Abbreviation sample_print := (instrs_print sample_names (λ id, id + 8) 1 (λ id, id + 3) (λ _, EmptyString) (λ _, None) true).

Definition sample_unprinted : printing := mk_printing sample_rule_code [] "".
Definition sample_listed : printing :=
  match sample_listing 40 0 40 sample_unprinted with Ok (_, s) => s | Err _ => sample_unprinted end.

(** the rule is 3, the predicates are 8 and 9 *)
Lemma sample_relocated :
  pcode sample_listed =
    [ 0x10; 3; 0; 0; 0; 0xA0; 8; 2; 0; 34; 0; 0; 0; 0; 0xc0; 0x30; 0x1f; 0x20; 0x40; 9; 1;
      0x30; 0x01; 0x02; 5; 0; 0; 0; 0; 1; 0x08; 1; 1; 0x80; 0; 0xD0; 0x00; 0x00; 0x00; 0x00 ] ∧
  dependency sample_listed = ["_init"; "fact"]%string.
Proof. split; vm_compute; reflexivity. Qed.

Lemma instrs_print_relocates_witness :
  nested 40 sample_rule_code 0 40 = true ∧
  ∃ s2, sample_print 40 40 sample_unprinted = Ok (40, s2) ∧ pcode s2 = pcode sample_listed ∧
        dependency s2 = dependency sample_listed.
Proof.
  assert (N : nested 40 sample_rule_code 0 40 = true) by (vm_compute; reflexivity). split; [exact N |].
  assert (L : sample_listing 40 0 40 sample_unprinted = Ok ((), sample_listed)) by (vm_compute; reflexivity).
  destruct (instrs_print_relocates sample_names (λ id, id + 8) 1 (λ id, id + 3) (λ _, EmptyString) (λ _, None) true
              sample_rule_code 40 40 40 40 [] "" sample_listed N L ltac:(lia)) as (s2 & H1 & H2 & H3 & _).
  exists s2. split; [exact H1 |]. split; [exact H2 | exact H3].
Defined.
