(* ===== verification/Dump.v ===== *)
(** The text of a program and the predicates that its rules and its predicates depend
    on: the printing of [vm/program.cpp] and [vm/rule.cpp] over the printer of code. *)

From Stdlib Require Import ZArith Lia Bool Sorted.
From stdpp Require Import base tactics list numbers option strings.
From S2P Require Import Prelude Words Types RuleMatcher Instr Loader LoaderFormat Printer.

#[local] Open Scope Z_scope.

(** ** The list of dependencies

    [std::sort] with the order of [std::string], then [std::unique]. *)

Fixpoint insert_name (n : string) (l : list string) : list string :=
  match l with
  | [] => [n]
  | m :: l' => if String.leb n m then n :: l else m :: insert_name n l'
  end.

Definition sort (l : list string) : list string := foldr insert_name [] l.

Fixpoint unique (l : list string) : list string :=
  match l with
  | [] => []
  | n :: l =>
      match unique l with
      | m :: l' => if String.eqb n m then m :: l' else n :: m :: l'
      | [] => [n]
      end
  end.

(** [dependency_print] *)
Definition dependency_print : printer unit := λ s,
  let d := unique (sort (dependency s)) in
  Ok ((), mk_printing (pcode s) d (fold_left (λ t n, t +:+ n +:+ endl) d (text s))).

Definition get_dependencies : printer (list string) := λ s, Ok (dependency s, s).
Definition clear : printer unit := λ s, Ok ((), dependency_clear s).

(** what goes to a stream without a buffer *)
Definition quiet {A} (m : printer A) : printer A := λ s,
  let* r := m s in Ok (r.1, mk_printing (pcode r.2) (dependency r.2) (text s)).

(** printing another piece of code *)
Definition with_code {A} (c : list byte) (m : printer A) : printer A := λ s,
  let* r := m (mk_printing c (dependency s) (text s)) in
  Ok (r.1, mk_printing (pcode s) (dependency r.2) (text r.2)).

Section Dump.
Context (float_string : Z → string) (fuel : nat).
Context (p : program).

(** the code of a program that is not being linked stays as it is *)
Definition print_code (c : list byte) : printer unit :=
  with_code c
    (print! _ := instrs_print (get_predicate p) (λ _, 0) (Z.of_nat (num_rules p)) (λ _, 0) float_string
                   (λ i, default_strings p !! Z.to_nat i) false fuel (Z.of_nat (length c)) in
     pret ()).

Fixpoint print_each {A} (f : nat → A → printer unit) (i : nat) (l : list A) : printer unit :=
  match l with
  | [] => pret ()
  | a :: l => f i a ;;. print_each f (S i) l
  end.

(** [rule::print] *)
Definition rule_print (r : rule_entry) : printer unit :=
  out (rule_string r +:+ endl) ;;.
  print_each (λ _ id, print! q := known (of_option (predicates p !! id)) in out (pred_name q +:+ endl)) 0
    (rule_predicates (rule_links r)) ;;.
  out ((if as_persistent (rule_links r) then "Is persistent" else "Not persistent") +:+ endl) ;;.
  print_code (rule_code r).

Definition print_predicate_code (q : predicate) : printer unit :=
  print! c := known (of_option (code p !! Z.to_nat (pred_id q))) in
  out ("PROCESS " +:+ pred_name q +:+ " (" +:+ num_string (Z.of_nat (length c)) +:+ "):" +:+ endl) ;;.
  print_code c ;;.
  out ("END PROCESS;" +:+ endl).

Definition print_bytecode : printer unit :=
  out ("VERSION " +:+ num_string (major_version p) +:+ "." +:+ num_string (minor_version p) +:+ endl +:+ endl) ;;.
  out ("CONST CODE" +:+ endl) ;;.
  print_code (const_code p) ;;.
  out endl ;;.
  out ("FUNCTION CODE" +:+ endl) ;;.
  print_each (λ i f, out ("FUNCTION " +:+ num_string (Z.of_nat i) +:+ endl) ;;. print_code f ;;. out endl) 0 (functions p) ;;.
  out endl ;;.
  out ("PREDICATE CODE" +:+ endl) ;;.
  print_each (λ i q, out (if (i =? 0)%nat then "" else endl) ;;. print_predicate_code q) 0 (predicates p) ;;.
  out ("RULES CODE" +:+ endl) ;;.
  print_each (λ i r, out (endl +:+ "RULE " +:+ num_string (Z.of_nat i) +:+ endl) ;;. rule_print r) 0 (rules p).

(** nothing is printed for a name that no predicate has *)
Definition print_bytecode_by_predicate (name : string) : printer unit :=
  match get_predicate_by_name p name with
  | None => pret ()
  | Some q => print_predicate_code q
  end.

(** ** What rules and predicates depend on *)

(** the names since the last clear become the predicates that have them *)
Definition take_dependencies (title : string) : printer (list (option predicate)) :=
  out (title +:+ " depends on : " +:+ endl) ;;.
  dependency_print ;;.
  out endl ;;.
  print! names := get_dependencies in
  clear ;;.
  pret (map (get_predicate_by_name p) names).

Definition rule_dependency (print : bool) (i : nat) (r : rule_entry) : printer (list (option predicate)) :=
  out ("rule : " +:+ num_string (Z.of_nat i) +:+ endl) ;;.
  (if print then rule_print r else out (rule_string r +:+ endl) ;;. quiet (rule_print r)) ;;.
  take_dependencies "Rule".

Fixpoint rule_dependencies (print : bool) (i : nat) (rs : list rule_entry) : printer (list (list (option predicate))) :=
  match rs with
  | [] => pret []
  | r :: rs =>
      print! d := rule_dependency print i r in
      print! ds := rule_dependencies print (S i) rs in
      pret (d :: ds)
  end.

(** the code that is printed is that of the first predicate of the same name *)
Definition predicate_dependency (print : bool) (i : nat) (q : predicate) : printer (list (option predicate)) :=
  out ("predicate : " +:+ num_string (Z.of_nat i) +:+ endl +:+ pred_name q +:+ endl) ;;.
  print_each (λ _ r, out ("affected rule : " +:+ num_string (Z.of_nat r) +:+ endl)) 0 (default [] (affected_rules p !! i)) ;;.
  print! named := known (of_option (get_predicate_by_name p (pred_name q))) in
  (if print then print_predicate_code named else quiet (print_predicate_code named)) ;;.
  take_dependencies "Predicate".

Fixpoint predicate_dependencies (print : bool) (i : nat) (qs : list predicate) : printer (list (list (option predicate))) :=
  match qs with
  | [] => pret []
  | q :: qs =>
      print! d := predicate_dependency print i q in
      print! ds := predicate_dependencies print (S i) qs in
      pret (d :: ds)
  end.

(** [print_predicate_dependency]: of the rules, then of the predicates *)
Definition print_predicate_dependency (print : bool)
  : printer (list (list (option predicate)) * list (list (option predicate))) :=
  print! rs := rule_dependencies print 0 (rules p) in
  clear ;;.
  print! ps := predicate_dependencies print 0 (predicates p) in
  pret (rs, ps).

End Dump.

(** ** The names are sorted, each once *)

Definition before (a b : string) : Prop := String.ltb a b = true.

#[export] Instance before_trans : Transitive before.
Proof.
  unfold before, String.ltb.
  assert (T : ∀ a b c, String.compare a b = Lt → String.compare b c = Lt → String.compare a c = Lt).
  { induction a as [| x a IH]; intros [| y b] [| z c] H1 H2; try done. cbn [String.compare] in *.
    unfold Ascii.compare in *.
    destruct (N.compare_spec (Ascii.N_of_ascii x) (Ascii.N_of_ascii y)) as [E1 | L1 | L1], (N.compare_spec (Ascii.N_of_ascii y) (Ascii.N_of_ascii z)) as [E2 | L2 | L2];
      try done; destruct (N.compare_spec (Ascii.N_of_ascii x) (Ascii.N_of_ascii z)) as [E3 | L3 | L3]; try done; try (exfalso; lia).
    by apply (IH b c). }
  intros a b c H1 H2. destruct (String.compare a b) eqn:E1, (String.compare b c) eqn:E2; try done. by rewrite (T a b c).
Qed.

Lemma leb_before a b : String.leb a b = true → a = b ∨ before a b.
Proof.
  unfold before, String.leb, String.ltb. destruct (String.compare a b) eqn:E; [| by right | done].
  left. by apply String.compare_eq_iff.
Qed.

Definition up_to (a b : string) : Prop := String.leb a b = true.

Lemma insert_sorted n l : Sorted up_to l → Sorted up_to (insert_name n l).
Proof.
  induction l as [| m l IH]; intros H; cbn [insert_name]; [by repeat constructor |].
  destruct (String.leb n m) eqn:E; [by constructor; [| constructor] |].
  assert (E' : up_to m n) by (destruct (String.leb_total n m); [congruence | done]).
  inversion H as [| ? ? H1 H2]; subst. constructor; [by apply IH |].
  destruct l as [| k l]; cbn [insert_name]; [by constructor |]. inversion H2; subst.
  by destruct (String.leb n k); constructor.
Qed.

Lemma sort_sorted l : Sorted up_to (sort l).
Proof. induction l as [| n l IH]; [constructor |]. by apply insert_sorted. Qed.

Lemma elem_of_insert n m l : m ∈ insert_name n l ↔ m = n ∨ m ∈ l.
Proof.
  induction l as [| k l IH]; cbn [insert_name]; [rewrite elem_of_cons; tauto |].
  destruct (String.leb n k); rewrite !elem_of_cons; [done |]. rewrite IH. tauto.
Qed.

Lemma elem_of_sort m l : m ∈ sort l ↔ m ∈ l.
Proof. induction l as [| n l IH]; [done |]. cbn. by rewrite elem_of_insert, IH, elem_of_cons. Qed.

Lemma elem_of_unique m l : m ∈ unique l ↔ m ∈ l.
Proof.
  induction l as [| n l IH]; [done |]. cbn [unique]. rewrite elem_of_cons, <- IH.
  destruct (unique l) as [| k l']; [by rewrite elem_of_cons |].
  destruct (String.eqb_spec n k) as [-> |]; [| by rewrite elem_of_cons]. rewrite elem_of_cons. tauto.
Qed.

Lemma unique_head n l : ∃ l', unique (n :: l) = n :: l'.
Proof.
  cbn [unique]. destruct (unique l) as [| m l']; [by exists [] |].
  destruct (String.eqb_spec n m) as [-> |]; [by exists l' | by exists (m :: l')].
Qed.

Lemma unique_sorted l : Sorted up_to l → Sorted before (unique l).
Proof.
  induction l as [| n l IH]; intros H; [constructor |]. inversion H as [| ? ? H1 H2]; subst. specialize (IH H1).
  cbn [unique]. destruct l as [| m l]; [by repeat constructor |].
  destruct (unique_head m l) as [l' E]. rewrite E in *. destruct (String.eqb_spec n m) as [-> | Hn]; [done |].
  constructor; [done |]. constructor. inversion H2; subst. by destruct (leb_before n m).
Qed.

(** what [dependency_print] leaves: the same names in increasing order *)
Lemma dependency_sorted l :
  StronglySorted before (unique (sort l)) ∧ ∀ n, n ∈ unique (sort l) ↔ n ∈ l.
Proof.
  split; [apply Sorted_StronglySorted; [apply before_trans | apply unique_sorted, sort_sorted] |].
  intros n. by rewrite elem_of_unique, elem_of_sort.
Qed.

(** ** Only names of predicates are met *)

Section Names.
Context (float_string : Z → string) (fuel : nat) (p : program).

Definition named (n : string) : Prop := ∃ q, get_predicate_by_name p n = Some q ∧ pred_name q = n.
Definition naming {A} (f : printer A) : Prop :=
  ∀ s a s1, f s = Ok (a, s1) → Forall named (dependency s) → Forall named (dependency s1).

Lemma naming_ret {A} (a : A) : naming (pret a).
Proof. by intros s x s1 [= _ <-]. Qed.
Lemma naming_bind {A B} (m : printer A) (f : A → printer B) : naming m → (∀ a, naming (f a)) → naming (pbind m f).
Proof. intros Hm Hf s b s2 E H. apply pbind_ok in E as (a & s1 & E1 & E2). eapply Hf, (Hm _ _ _ E1 H). exact E2. Qed.
Lemma naming_look {A} (f : list byte → res A) : naming (look f).
Proof. intros s a s1 E. by apply res_bind_ok in E as (x & _ & [= _ <-]). Qed.
Lemma naming_known {A} (r : res A) : naming (known r).
Proof. intros s a s1 E. by apply res_bind_ok in E as (x & _ & [= _ <-]). Qed.
Lemma naming_out t : naming (out t).
Proof. by intros s a s1 [= _ <-]. Qed.
Lemma naming_overwriting f : naming (overwriting f).
Proof. intros s a s1 E. by apply res_bind_ok in E as (x & _ & [= _ <-]). Qed.
Lemma naming_fail {A} f : naming (pfail f : printer A).
Proof. by intros s a s1 E. Qed.
Lemma naming_if {A} (b : bool) (f g : printer A) : naming f → naming g → naming (if b then f else g).
Proof. by destruct b. Qed.

Lemma naming_predicate get pc off : naming (print_predicate (get_predicate p) (λ _, 0) false get pc off).
Proof.
  intros s q s1 E H. unfold print_predicate in E. apply pbind_ok in E as (id & s2 & E1 & E).
  pose proof (naming_look _ _ _ _ E1 H) as H1. apply pbind_ok in E as (q' & s3 & E2 & E).
  apply res_bind_ok in E2 as (x & E2%of_option_ok & [= -> ->]). apply pbind_ok in E as ([] & s4 & [= <-] & E).
  apply pbind_ok in E as ([] & s5 & [= <-] & [= _ <-]). cbn. apply Forall_app. split; [done |]. constructor; [| done].
  unfold get_predicate in E2. destruct (_ <=? _); [done |]. unfold named, get_predicate_by_name.
  destruct (List.find (λ q0, String.eqb (pred_name q0) (pred_name q')) (predicates p)) as [r |] eqn:F.
  - exists r. split; [done |]. apply List.find_some in F as [_ F]. by apply String.eqb_eq.
  - exfalso. eapply List.find_none in F; [| apply list_elem_of_In; by eapply list_elem_of_lookup_2].
    by rewrite String.eqb_refl in F.
Qed.

Create HintDb naming.
#[local] Hint Resolve naming_ret naming_bind naming_look naming_known naming_out naming_overwriting naming_fail naming_if
  naming_predicate : naming.
Ltac naming := repeat first [progress intros | solve [auto with naming nocore] | apply naming_bind | apply naming_if].

Lemma naming_matches n : ∀ m, naming (print_matches float_string (λ i, default_strings p !! Z.to_nat i) n m).
Proof. induction n; intros m; cbn [print_matches]; unfold operand_string; naming. Qed.
Lemma naming_args val n : ∀ first m, naming (Printer.print_args float_string (λ i, default_strings p !! Z.to_nat i) val first n m).
Proof. induction n; intros first m; cbn [Printer.print_args]; unfold operand_string; naming. Qed.
Lemma naming_indexes n : ∀ first m, naming (print_indexes float_string (λ i, default_strings p !! Z.to_nat i) first n m).
Proof. induction n; intros first m; cbn [print_indexes]; unfold operand_string; naming. Qed.
Lemma naming_elements n elem : (∀ q, naming (elem q)) → ∀ q, naming (print_elements n elem q).
Proof. intros H. induction n; intros q; cbn [print_elements]; naming. Qed.
Lemma naming_field t q : naming (print_field float_string t q).
Proof.
  assert (E : ∀ q, naming (print_int q) ∧ naming (print_float float_string q) ∧ naming (print_node q)).
  { intros q'. unfold print_int, print_float, print_node. split_and!; naming. }
  destruct t; cbn [print_field]; unfold print_list; naming; try apply naming_elements; naming; apply E.
Qed.
Lemma naming_fields ts : ∀ q, naming (print_fields float_string ts q).
Proof. induction ts; intros q; cbn [print_fields]; naming. apply naming_field. Qed.
Lemma naming_axioms n : ∀ q e, naming (print_axioms (get_predicate p) (λ _, 0) float_string false n q e).
Proof. induction n; intros q e; cbn [print_axioms]; naming. apply naming_fields. Qed.
#[local] Hint Resolve naming_matches naming_args naming_indexes naming_axioms : naming.

Abbreviation print_one := (print_one (get_predicate p) (λ _, 0) (Z.of_nat (num_rules p)) (λ _, 0) float_string
  (λ i, default_strings p !! Z.to_nat i) false).
Abbreviation instr_print := (instr_print (get_predicate p) (λ _, 0) (Z.of_nat (num_rules p)) (λ _, 0) float_string
  (λ i, default_strings p !! Z.to_nat i) false).

Lemma naming_one i pc : naming (print_one i pc).
Proof.
  destruct i as [[] |]; cbn [Printer.print_one Printer.print_later];
    unfold two_operands, three_operands, get_reg, print_iter, print_call, print_rule, operand_string; naming.
Qed.

Lemma naming_instr n : ∀ recurse pc, naming (instr_print n recurse pc).
Proof.
  induction n as [| n IH]; intros recurse pc; [by intros s a s1 E |].
  assert (U : ∀ k q u, naming (instrs_print_until (instr_print n true) k q u)).
  { induction k as [| k IHk]; intros q u; cbn [instrs_print_until]; naming; apply IH. }
  assert (L : ∀ k q, naming (instrs_print_until_end_linear (instr_print n true) k q)).
  { induction k as [| k IHk]; intros q; cbn [instrs_print_until_end_linear]; naming; try apply IH. case_match; [case_match |]; naming. }
  assert (R : ∀ k q, naming (instrs_print_until_return_select (instr_print n true) k q)).
  { induction k as [| k IHk]; intros q; cbn [instrs_print_until_return_select]; naming; try apply IH. case_match; [case_match |]; naming. }
  assert (P : ∀ k h e i, naming (print_select (instr_print n true) n h e i k)).
  { induction k as [| k IHk]; intros h e i; cbn [print_select]; naming; apply R. }
  cbn [Printer.instr_print]. apply naming_bind; [naming |]. intros i. apply naming_bind; [apply naming_one |]. intros u.
  destruct i as [[] |]; naming; first [apply U | apply L | apply R | apply P].
Qed.

Lemma naming_code c : naming (print_code float_string fuel p c).
Proof.
  intros s u s1 E H. apply res_bind_ok in E as ([v s2] & E & [= _ <-]). cbn [dependency].
  apply pbind_ok in E as (a & s3 & E & [= _ <-]). revert E. unfold instrs_print.
  assert (U : ∀ k q u, naming (instrs_print_until (instr_print fuel true) k q u)).
  { induction k as [| k IHk]; intros q w; cbn [instrs_print_until]; naming; apply naming_instr. }
  intros E. exact (U _ _ _ _ _ _ E H).
Qed.

End Names.

(** ** What is collected *)

Section Depend.
Context (float_string : Z → string) (fuel : nat) (p : program).

Abbreviation print_code := (print_code float_string fuel p).

(** [ds] are the predicates whose names are met when [c] is printed, in the order of
    their names and each once *)
Definition depends (c : list byte) (ds : list (option predicate)) : Prop :=
  ∃ names s0 s1, dependency s0 = [] ∧ print_code c s0 = Ok ((), s1) ∧
    StronglySorted before names ∧ (∀ n, n ∈ names ↔ n ∈ dependency s1) ∧
    ds = map (get_predicate_by_name p) names ∧ Forall (named p) names.

(** steps that meet no name *)
Definition silent {A} (f : printer A) : Prop := ∀ s a s1, f s = Ok (a, s1) → dependency s1 = dependency s.

Lemma silent_out t : silent (out t).
Proof. by intros s a s1 [= _ <-]. Qed.

Lemma silent_each {A} (f : nat → A → printer unit) l : (∀ i a, silent (f i a)) → ∀ i, silent (print_each f i l).
Proof.
  intros Hf. induction l as [| a l IH]; intros i s u s1 E; cbn [print_each] in E; [by injection E as _ <- |].
  apply pbind_ok in E as (v & s2 & E1 & E2). rewrite (IH _ _ _ _ E2). by eapply Hf.
Qed.

(** printing [c] at some point, from the names of [s] to those of [s1] *)
Definition prints (c : list byte) (s s1 : printing) : Prop :=
  ∃ s0 s2, dependency s0 = dependency s ∧ print_code c s0 = Ok ((), s2) ∧ dependency s2 = dependency s1.

Lemma rule_print_prints r s u s1 : rule_print float_string fuel p r s = Ok (u, s1) → prints (rule_code r) s s1.
Proof.
  intros E. apply pbind_ok in E as ([] & s2 & E1%silent_out & E). apply pbind_ok in E as ([] & s3 & E2 & E).
  apply silent_each in E2.
  2: { intros i a t v t1 H. apply pbind_ok in H as (x & t2 & H1 & H2%silent_out).
       apply res_bind_ok in H1 as (y & _ & [= _ <-]). exact H2. }
  apply pbind_ok in E as ([] & s4 & E3%silent_out & E). destruct u. exists s4, s1. split; [congruence | done].
Qed.

Lemma predicate_print_prints q s u s1 : print_predicate_code float_string fuel p q s = Ok (u, s1) →
  ∃ c, code p !! Z.to_nat (pred_id q) = Some c ∧ prints c s s1.
Proof.
  intros E. apply pbind_ok in E as (c & s2 & E1 & E). apply res_bind_ok in E1 as (x & E1%of_option_ok & [= <- <-]).
  exists x. split; [done |]. apply pbind_ok in E as ([] & s3 & E2%silent_out & E).
  apply pbind_ok in E as ([] & s4 & E3 & E4%silent_out). exists s3, s4. split; [done |]. done.
Qed.

Lemma quiet_prints {A} (m : printer A) (P : printing → printing → Prop) s a s1 :
  (∀ s a s1, m s = Ok (a, s1) → P s s1) → (∀ s s1 s2, P s s1 → dependency s2 = dependency s1 → P s s2) →
  quiet m s = Ok (a, s1) → P s s1.
Proof. intros Hm HP E. apply res_bind_ok in E as ([b s2] & E & [= _ <-]). eapply HP; [by eapply Hm | done]. Qed.

Lemma prints_same c s s1 s2 : prints c s s1 → dependency s2 = dependency s1 → prints c s s2.
Proof. intros (s0 & s3 & H1 & H2 & H3) E. exists s0, s3. split; [done |]. split; [done | congruence]. Qed.

Lemma prints_from c s s' s1 : dependency s = dependency s' → prints c s s1 → prints c s' s1.
Proof. intros E (s0 & s3 & H1 & H2 & H3). exists s0, s3. split; [congruence | done]. Qed.

Lemma take_depends c title s s1 ds s2 :
  dependency s = [] → prints c s s1 → take_dependencies p title s1 = Ok (ds, s2) → depends c ds ∧ dependency s2 = [].
Proof.
  intros H (s0 & s3 & H1 & H2 & H3) E. apply pbind_ok in E as ([] & s4 & E1%silent_out & E).
  apply pbind_ok in E as ([] & s5 & [= E2] & E). apply pbind_ok in E as ([] & s6 & E3%silent_out & E).
  apply pbind_ok in E as (names & s7 & [= <- <-] & E). apply pbind_ok in E as ([] & s8 & [= E4] & [= <- <-]).
  split; [| by rewrite <- E4]. destruct (dependency_sorted (dependency s4)) as [S1 S2].
  assert (En : dependency s6 = unique (sort (dependency s4))) by (rewrite E3, <- E2; done).
  exists (dependency s6), s0, s3. rewrite En. split; [congruence |]. split; [done |]. split; [done |].
  split; [intros n; by rewrite S2, E1, H3 |]. split; [done |]. apply Forall_forall. intros n Hn.
  pose proof (naming_code float_string fuel p c _ _ _ H2) as N. rewrite H1, H in N. specialize (N (Forall_nil_2 _)).
  rewrite Forall_forall in N. apply N. rewrite H3, <- E1. by apply S2.
Qed.

Lemma rule_dependencies_ok print rs : ∀ i s ds s1,
  rule_dependencies float_string fuel p print i rs s = Ok (ds, s1) → dependency s = [] →
  dependency s1 = [] ∧ Forall2 (λ r d, depends (rule_code r) d) rs ds.
Proof.
  induction rs as [| r rs IH]; intros i s ds s1 E H; cbn [rule_dependencies] in E; [by injection E as <- <- |].
  apply pbind_ok in E as (d & s2 & E1 & E). apply pbind_ok in E as (ds' & s3 & E2 & [= <- <-]).
  assert (D : depends (rule_code r) d ∧ dependency s2 = []).
  { apply pbind_ok in E1 as ([] & s4 & E3%silent_out & E1). apply pbind_ok in E1 as ([] & s5 & E4 & E1).
    assert (Hs4 : dependency s4 = []) by congruence. apply (take_depends (rule_code r) "Rule" s4 s5 d s2 Hs4); [| exact E1].
    destruct print; [by eapply rule_print_prints |]. apply pbind_ok in E4 as ([] & s6 & E5%silent_out & E4).
    apply (prints_from _ s6); [done |].
    eapply quiet_prints; [| | exact E4]; [intros ? ? ?; apply rule_print_prints | apply prints_same]. }
  destruct D as [D1 D2]. destruct (IH _ _ _ _ E2 D2) as [H1 H2]. split; [done | by constructor].
Qed.

Lemma predicate_dependencies_ok print qs : ∀ i s ds s1,
  predicate_dependencies float_string fuel p print i qs s = Ok (ds, s1) → dependency s = [] →
  dependency s1 = [] ∧
  Forall2 (λ q d, ∃ m c, get_predicate_by_name p (pred_name q) = Some m ∧ code p !! Z.to_nat (pred_id m) = Some c ∧
                         depends c d) qs ds.
Proof.
  induction qs as [| q qs IH]; intros i s ds s1 E H; cbn [predicate_dependencies] in E; [by injection E as <- <- |].
  apply pbind_ok in E as (d & s2 & E1 & E). apply pbind_ok in E as (ds' & s3 & E2 & [= <- <-]).
  assert (D : dependency s2 = [] ∧ ∃ m c, get_predicate_by_name p (pred_name q) = Some m ∧
              code p !! Z.to_nat (pred_id m) = Some c ∧ depends c d).
  { apply pbind_ok in E1 as ([] & s4 & E3%silent_out & E1). apply pbind_ok in E1 as ([] & s5 & E4 & E1).
    apply silent_each in E4; [| intros; apply silent_out].
    apply pbind_ok in E1 as (m & s6 & E5 & E1). apply res_bind_ok in E5 as (x & E5%of_option_ok & [= <- <-]).
    apply pbind_ok in E1 as ([] & s7 & E6 & E1).
    assert (Q : ∃ c, code p !! Z.to_nat (pred_id x) = Some c ∧ prints c s5 s7).
    { destruct print; [by eapply predicate_print_prints |].
      apply (quiet_prints _ (λ s s1, ∃ c, code p !! Z.to_nat (pred_id x) = Some c ∧ prints c s s1)) with (3 := E6).
      - intros ? ? ?. apply predicate_print_prints.
      - intros t t1 t2 (c & Hc & Hp) Ht. exists c. split; [done |]. by eapply prints_same. }
    destruct Q as (c & Hc & Hp). assert (Hs5 : dependency s5 = []) by congruence. destruct (take_depends _ _ _ _ _ _ Hs5 Hp E1) as [D1 D2].
    split; [done |]. by exists x, c. }
  destruct D as [D1 D2]. destruct (IH _ _ _ _ E2 D1) as [H1 H2]. split; [done | by constructor].
Qed.

(** the list of dependencies of every rule has the predicates that its code names,
    in the order of their names and each once, and so does the list of every predicate
    for the code of the first predicate of its name; every name stands for a predicate. *)
Theorem print_predicate_dependency_ok print s rs ps s1 :
  dependency s = [] →
  print_predicate_dependency float_string fuel p print s = Ok ((rs, ps), s1) →
  dependency s1 = [] ∧
  Forall2 (λ r d, depends (rule_code r) d) (rules p) rs ∧
  Forall2 (λ q d, ∃ m c, get_predicate_by_name p (pred_name q) = Some m ∧ code p !! Z.to_nat (pred_id m) = Some c ∧
                         depends c d) (predicates p) ps.
Proof.
  intros H E. apply pbind_ok in E as (rs' & s2 & E1 & E). apply pbind_ok in E as ([] & s3 & [= <-] & E).
  apply pbind_ok in E as (ps' & s4 & E2 & [= <- <- <-]).
  destruct (rule_dependencies_ok _ _ _ _ _ _ E1 H) as [_ R].
  destruct (predicate_dependencies_ok _ _ _ _ _ _ E2 eq_refl) as [H1 P]. done.
Qed.

End Depend.

(** ** On a program *)

Definition silent_printing : printing := mk_printing [] [] EmptyString.
Abbreviation sample_dependency := (print_predicate_dependency (λ _, EmptyString) 60 sample_program false silent_printing).

Lemma sample_dependency_names :
  match sample_dependency with
  | Ok ((rs, ps), _) => map (map (fmap pred_name)) rs = [[Some "_init"; Some "fact"]]%string ∧ ps = [[]; []]
  | Err _ => False
  end.
Proof. vm_compute. split; reflexivity. Qed.

Lemma print_predicate_dependency_ok_witness :
  ∃ rs ps s1, sample_dependency = Ok ((rs, ps), s1) ∧
    Forall2 (λ r d, depends (λ _, EmptyString) 60 sample_program (rule_code r) d) (rules sample_program) rs.
Proof.
  destruct sample_dependency as [[[rs ps] s1] | f] eqn:E; [| exfalso; revert E; vm_compute; discriminate].
  exists rs, ps, s1. split; [reflexivity |].
  exact (proj1 (proj2 (print_predicate_dependency_ok (λ _, EmptyString) 60 sample_program false silent_printing rs ps s1 eq_refl E))).
Defined.
