(* ===== verification/Linker.v ===== *)
(** The linker, [merge.cpp]: a program and those it imports from become one byte code
    file.  It reads the file of the program from the beginning to the end and writes the
    parts of the new file, some copied, some with what the imported programs add, and
    some, the codes, from the loaded programs after their identifiers are renumbered. *)

From Stdlib Require Import ZArith Lia Bool.
From stdpp Require Import base tactics list numbers option strings.
From S2P Require Import Prelude Words Instr Types RuleMatcher Printer Loader.

#[local] Open Scope Z_scope.

(** ** State

    [pending] is what was read since [position_prev]: COPY_TO_OUTPUT writes it. *)

Record linking : Type := mk_linking {
  source_file : input;
  pending : list byte;
  outfile_ml : list byte
}.

Definition linker_step (A : Type) : Type := linking → res (A * linking).
Definition lret {A} (a : A) : linker_step A := λ s, Ok (a, s).
Definition lbind {A B} (m : linker_step A) (f : A → linker_step B) : linker_step B := λ s, let* r := m s in f r.1 r.2.
Notation "'link!' x := m 'in' f" := (lbind m (λ x, f))
  (at level 10, x pattern, m at level 100, f at level 200) : meld_scope.
Notation "m ;;, f" := (lbind m (λ _, f)) (at level 100, f at level 200, right associativity) : meld_scope.

(** READ_CODE, by a reader of [Loader], into variables that are declared for it and used
    (but the priorities, of which only the type is); SEEK_CODE, which only moves, is a read whose
    bytes are not used *)
Definition lread {A} (f : reader A) : linker_step A := λ s,
  let* r := f (source_file s) in
  Ok (r.1, mk_linking r.2
             (pending s ++ take (length (rest (source_file s)) - length (rest r.2)) (rest (source_file s)))
             (outfile_ml s)).

Definition WRITE_CODE (bs : list byte) : linker_step unit :=
  λ s, Ok ((), mk_linking (source_file s) (pending s) (outfile_ml s ++ bs)).
Definition COPY_TO_OUTPUT : linker_step unit := λ s, WRITE_CODE (pending s) s.
(** [position_prev = position] *)
Definition set_position_prev : linker_step unit := λ s, Ok ((), mk_linking (source_file s) [] (outfile_ml s)).
Definition lift {A} (r : res A) : linker_step A := λ s, let* a := r in Ok (a, s).
Definition check (b : bool) : linker_step unit := if b then lret () else lift (Err assert_fail).

Definition write_uint (v : Z) : linker_step unit := WRITE_CODE (le_bytes 4 v).

Fixpoint each {A} (f : A → linker_step unit) (l : list A) : linker_step unit :=
  match l with
  | [] => lret ()
  | a :: l => f a ;;, each f l
  end.

(** ** Programs that are linked

    A program with the bytes of its file and the numbers that linking gives to its
    predicates and rules.  The constructors do not set the numbers: before linking sets
    them they are whatever the memory held. *)

Record object : Type := mk_object {
  get_name : string;
  file_bytes : list byte;
  prog : program;
  pred_links : list Z;
  rule_links : list Z
}.

Definition set_pred_links (l : list Z) (o : object) : object :=
  mk_object (get_name o) (file_bytes o) (prog o) l (rule_links o).
Definition set_rule_links (l : list Z) (o : object) : object :=
  mk_object (get_name o) (file_bytes o) (prog o) (pred_links o) l.

Definition COMMON_PREDICATES : nat := 8.
Definition DEFAULT_ID : Z := 0xffffffff.
Definition MAX_CHARS_PER_LINE : nat := 512.
Definition dummy_path : list byte := bytes_of_string "/home/rupesh/ls.o" ++ [0].

(** ** The definitions of external functions *)

(** an entry that no line was copied to is None *)
Abbreviation func_table := (list (option (string * string))).

(** [strtok] with a blank as delimiter: the tokens of a line *)
Fixpoint tokens (cur : list byte) (l : list byte) : list (list byte) :=
  match l with
  | [] => match cur with [] => [] | _ => [rev cur] end
  | b :: l =>
      if b =? 32 then match cur with [] => tokens [] l | _ => rev cur :: tokens [] l end
      else tokens (b :: cur) l
  end.

(** the length of [func_name] *)
Definition FUNC_NAME_SIZE : nat := 254.

Definition read_entry (line : list byte) : res (option (string * string)) :=
  match tokens [] line with
  | [] => Ok None
  | name :: _ :: path :: _ =>
      if (length name <? FUNC_NAME_SIZE)%nat then Ok (Some (string_of_bytes name, string_of_bytes path))
      else Err undefined_behaviour
  | _ => Err undefined_behaviour
  end.

(** a line that is too long sets the fail bit: it is cut, and those after it are empty *)
Fixpoint read_table (lines : list (list byte)) : res func_table :=
  match lines with
  | [] => Ok []
  | line :: lines =>
      let* e := read_entry (take (MAX_CHARS_PER_LINE - 1) line) in
      let* t := (if (length line <? MAX_CHARS_PER_LINE)%nat then read_table lines
                 else Ok (replicate (length lines) None)) in
      Ok (e :: t)
  end.

Fixpoint get_filename (func_name : string) (table : func_table) : res (option string) :=
  match table with
  | [] => Ok None
  | None :: _ => Err undefined_behaviour
  | Some (name, path) :: table =>
      if String.eqb func_name name then Ok (Some path) else get_filename func_name table
  end.

(** [memcpy] over the beginning of the old path: without the NUL when a path was found *)
Definition new_path (found : option string) (skip_filename : list byte) : list byte :=
  overwrite 0 (match found with Some path => bytes_of_string path | None => dummy_path end) skip_filename.

(** ** Imports *)

Definition predicate_name (p : program) (id : nat) : res string :=
  let* q := of_option (get_predicate p (wrap 8 (Z.of_nat id))) in Ok (pred_name q).

Definition is_imported (primary : program) (id : nat) : res bool :=
  let* name := predicate_name primary id in
  Ok (existsb (λ i, String.eqb name (as_ i)) (imported_predicates primary)).

(** the last import of the name counts *)
Definition imported_name (primary : program) (name : string) : option string :=
  fold_left (λ r i, if String.eqb name (as_ i) then Some (imp i) else r) (imported_predicates primary) None.

(** the first program that has the predicate *)
Fixpoint find_linked (name : string) (secondary_list : list object) : option Z :=
  match secondary_list with
  | [] => None
  | o :: l =>
      match list_find (λ q, pred_name q = name) (predicates (prog o)) with
      | Some (i, _) => pred_links o !! i
      | None => find_linked name l
      end
  end.

Definition get_imported_predicate_id (primary : program) (secondary_list : list object) (id : nat) : res Z :=
  let* name := predicate_name primary id in
  Ok (match imported_name primary name with
      | Some name_ =>
          match find_linked name_ secondary_list with
          | Some link => wrap 8 link
          | None => wrap 8 (Z.of_nat id)
          end
      | None => wrap 8 (Z.of_nat id)
      end).

(** ** Renumbering *)

Section Modify.
Context (float_string : Z → string) (fuel : nat).

Definition link_of (l : list Z) (i : Z) : Z := nth (Z.to_nat i) l 0.

(** [print_predicate_code] and [rule::print] with the code open to changes *)
Definition modify (o : object) (code : list byte) : res (list byte) :=
  let* r := instrs_print (get_predicate (prog o)) (link_of (pred_links o)) (Z.of_nat (num_rules (prog o)))
              (link_of (rule_links o)) float_string (λ i, default_strings (prog o) !! Z.to_nat i) true
              fuel (Z.of_nat (length code)) (mk_printing code [] EmptyString) in
  Ok (pcode r.2).

Fixpoint modify_all (o : object) (codes : list (list byte)) : res (list (list byte)) :=
  match codes with
  | [] => Ok []
  | c :: codes => let* c := modify o c in let* cs := modify_all o codes in Ok (c :: cs)
  end.

(** the rules, then the predicates *)
Definition modify_code (o : object) : res (list (list byte) * list (list byte)) :=
  let* rs := modify_all o (map rule_code (rules (prog o))) in
  let* ps := modify_all o (code (prog o)) in
  Ok (rs, ps).

Fixpoint modify_list (l : list object) : res (list (list (list byte) * list (list byte))) :=
  match l with
  | [] => Ok []
  | o :: l => let* m := modify_code o in let* ms := modify_list l in Ok (m :: ms)
  end.

End Modify.

(** ** The parts of the file *)

Definition sum (l : list Z) : Z := fold_left Z.add l 0.

(** size_t *)
Definition num_predicates_new (num_predicates_orig : Z) (primary : program) (secondary_list : list object) : Z :=
  wrap 64 (num_predicates_orig + sum (map (λ o, Z.of_nat (num_predicates (prog o))) secondary_list)
           - Z.of_nat COMMON_PREDICATES * Z.of_nat (length secondary_list)
           - Z.of_nat (length (imported_predicates primary))).

Definition num_rules_new (secondary_list : list object) : Z :=
  wrap 64 (sum (map (λ o, Z.of_nat (num_rules (prog o)) - 1) secondary_list)).

Definition link_header : linker_step (Z * Z) :=
  link! _ := lread read_uint in
  link! _ := lread read_uint in
  link! maj := lread read_uint in
  link! min := lread read_uint in
  COPY_TO_OUTPUT ;;,
  lret (maj, min).

Definition link_num_predicates (primary : program) (secondary_list : list object) : linker_step Z :=
  link! num_predicates_orig := lread read_byte in
  WRITE_CODE [wrap 8 (num_predicates_new num_predicates_orig primary secondary_list)] ;;,
  set_position_prev ;;,
  lret num_predicates_orig.

(** the program with the most nodes: [max] is an int, compared as a size_t *)
Fixpoint most_nodes (max : Z) (best : program) (l : list object) : program :=
  match l with
  | [] => best
  | o :: l =>
      if wrap 64 max <? number_nodes (prog o)
      then most_nodes (swrap 32 (number_nodes (prog o))) (prog o) l
      else most_nodes max best l
  end.

Definition node_size : Z := 8.

Definition link_nodes (primary : program) (secondary_list : list object) : linker_step unit :=
  link! num_nodes := lread read_uint in
  let p := most_nodes (swrap 32 num_nodes) primary secondary_list in
  let new_size := wrap 32 (number_nodes p * node_size) in
  write_uint (number_nodes p) ;;,
  WRITE_CODE (take (Z.to_nat new_size) (db_buffer p)) ;;,
  link! _ := lread (READ_NEW (Z.to_nat (num_nodes * node_size))) in
  set_position_prev.

Definition link_imports (maj min : Z) : linker_step unit :=
  link! _ := lread (read_imports maj min) in
  link! n_args := lread read_byte in
  COPY_TO_OUTPUT ;;,
  set_position_prev.

(** *** Texts of rules *)

(** what [c_str] points to *)
Fixpoint c_str (s : string) : list byte :=
  match s with
  | EmptyString => []
  | String a s => if ascii_byte a =? 0 then [] else ascii_byte a :: c_str s
  end.

(** the texts are read and copied, and every rule gets the number it had *)
Fixpoint link_primary_rules (primary : program) (i n : nat) : linker_step (list Z) :=
  match n with
  | O => lret []
  | S n =>
      link! _ := lread (read_rule_string i) in
      check (i <? num_rules primary)%nat ;;,
      link! l := link_primary_rules primary (i + 1) n in
      lret (Z.of_nat i :: l)
  end.

Fixpoint link_texts (texts : list string) (rule_offset : Z) : linker_step (list Z * Z) :=
  match texts with
  | [] => lret ([], rule_offset)
  | str :: texts =>
      let rule_len := wrap 32 (Z.of_nat (length (c_str str))) in
      write_uint rule_len ;;,
      check (0 <? rule_len) ;;,
      WRITE_CODE (take (Z.to_nat rule_len) (c_str str)) ;;,
      link! r := link_texts texts (rule_offset + 1) in
      lret (rule_offset :: r.1, r.2)
  end.

(** the first rule of an imported program is left out: its number is not set *)
Fixpoint link_secondary_rules (l : list object) (rule_offset : Z) : linker_step (list object) :=
  match l with
  | [] => lret []
  | o :: l =>
      link! r := link_texts (map rule_string (tail (rules (prog o)))) rule_offset in
      link! os := link_secondary_rules l r.2 in
      lret (set_rule_links (take 1 (rule_links o) ++ r.1) o :: os)
  end.

Definition link_rules_text (primary : object) (secondary_list : list object) : linker_step (object * list object) :=
  link! n_rules_orig := lread read_uint in
  write_uint (n_rules_orig + num_rules_new secondary_list) ;;,
  set_position_prev ;;,
  link! ids := link_primary_rules (prog primary) 0 (Z.to_nat n_rules_orig) in
  COPY_TO_OUTPUT ;;,
  set_position_prev ;;,
  link! os := link_secondary_rules secondary_list n_rules_orig in
  lret (set_rule_links (ids ++ drop (length ids) (rule_links primary)) primary, os).

(** *** Strings and constants, of the program alone *)

Definition skip_strings : reader unit :=
  read! num_strings := read_int in
  read! _ := read_loop (λ _, read! length := read_int in read_chars 31 length) 0 (Z.to_nat num_strings) in
  rret ().

Definition link_consts : linker_step unit :=
  link! _ := lread skip_strings in
  link! _ := lread read_const_types in
  link! _ := lread read_code in
  COPY_TO_OUTPUT ;;,
  set_position_prev.

(** *** Functions *)

Definition write_code (c : list byte) : linker_step unit := write_uint (Z.of_nat (length c)) ;;, WRITE_CODE c.

Definition link_functions (secondary_list : list object) : linker_step unit :=
  link! n_functions := lread read_uint in
  set_position_prev ;;,
  write_uint (n_functions + sum (map (λ o, Z.of_nat (length (functions (prog o)))) secondary_list)) ;;,
  link! _ := lread (read_loop (λ _, read_code) 0 (Z.to_nat n_functions)) in
  COPY_TO_OUTPUT ;;,
  set_position_prev ;;,
  each (λ o, each write_code (functions (prog o))) secondary_list.

(** *** Functions of libraries *)

(** a function of the program: its number and name are copied *)
Definition link_external (table : func_table) : linker_step unit :=
  link! _ := lread read_uint in
  link! extern_name := lread (READ_NEW 256) in
  COPY_TO_OUTPUT ;;,
  link! name := lift (c_string extern_name) in
  link! found := lift (get_filename name table) in
  link! skip_filename := lread (READ_NEW 1024) in
  WRITE_CODE (new_path found skip_filename) ;;,
  link! skip_ptr := lread (READ_NEW 8) in
  WRITE_CODE skip_ptr ;;,
  link! num_args := lread read_uint in
  write_uint num_args ;;,
  link! types := lread (READ_NEW (Z.to_nat (wrap 32 (num_args + 1)))) in
  WRITE_CODE types ;;,
  set_position_prev.

(** a function of an imported program, read from its file, with a number of its own *)
Definition copy_external (table : func_table) (new_extern_id : Z) : reader (list byte) :=
  read! _ := read_uint in
  read! extern_name := READ_NEW 256 in
  read! name := rlift (c_string extern_name) in
  read! found := rlift (get_filename name table) in
  read! skip_filename := READ_NEW 1024 in
  read! skip_ptr := READ_NEW 8 in
  read! num_args := read_uint in
  read! types := READ_NEW (Z.to_nat (wrap 32 (num_args + 1))) in
  rret (le_bytes 4 new_extern_id ++ extern_name ++ new_path found skip_filename ++ skip_ptr ++
        le_bytes 4 num_args ++ types).

Definition get_num_ext_functions (o : object) : Z := Z.of_nat (length (externals (prog o))).

Fixpoint link_secondary_externals (table : func_table) (l : list object) (new_extern_id : Z) : linker_step unit :=
  match l with
  | [] => lret ()
  | o :: l =>
      let start := external_function_position (prog o) in
      let n := length (externals (prog o)) in
      link! r := lift (read_loop (λ i, copy_external table (new_extern_id + Z.of_nat i)) 0 n
                         (mk_input (drop (Z.to_nat start) (file_bytes o)) start)) in
      WRITE_CODE (concat r.1) ;;,
      link_secondary_externals table l (new_extern_id + Z.of_nat n)
  end.

Definition link_externals (table : func_table) (secondary_list : list object) : linker_step unit :=
  link! n_externs := lread read_uint in
  set_position_prev ;;,
  write_uint (n_externs + sum (map get_num_ext_functions secondary_list)) ;;,
  each (λ _, link_external table) (seq 0 (Z.to_nat n_externs)) ;;,
  link_secondary_externals table secondary_list n_externs.

Definition link_function_code (maj min : Z) (table : func_table) (secondary_list : list object) : linker_step unit :=
  (if version_at_least maj min 0 6 then
     link_functions secondary_list ;;,
     (if (0 <? maj) || (7 <=? min) then link_externals table secondary_list else lret ())
   else lret ()) ;;,
  COPY_TO_OUTPUT ;;,
  set_position_prev.

(** *** Predicates *)

(** those that are not imported are copied, and numbered from 0 *)
Fixpoint link_descriptors (primary : program) (i n : nat) (offset : Z) : linker_step (list Z * Z) :=
  match n with
  | O => lret ([], offset)
  | S n =>
      link! _ := lread (READ_NEW PRED_DESCRIPTOR_SIZE) in
      link! imported := lift (is_imported primary i) in
      (if (imported : bool) then lret () else COPY_TO_OUTPUT) ;;,
      set_position_prev ;;,
      let id := if (imported : bool) then DEFAULT_ID else offset in
      link! r := link_descriptors primary (i + 1) n (if (imported : bool) then offset else offset + 1) in
      lret (id :: r.1, r.2)
  end.

Section Descriptors.
(** a byte of a descriptor that was never written *)
Context (unwritten : byte).

Definition descriptor_bytes (p : predicate) : list byte :=
  map (λ b, match b with Some b => b | None => unwritten end) (predicate_descriptor_buffer p).

Fixpoint write_renamed (filename : string) (ps : list predicate) (offset : Z) : linker_step (list Z * Z) :=
  match ps with
  | [] => lret ([], offset)
  | p :: ps =>
      WRITE_CODE (descriptor_bytes (rename filename p)) ;;,
      link! r := write_renamed filename ps (offset + 1) in
      lret (offset :: r.1, r.2)
  end.

(** the common predicates keep the numbers they have *)
Fixpoint link_secondary_predicates (l : list object) (offset : Z) : linker_step (list object) :=
  match l with
  | [] => lret []
  | o :: l =>
      link! r := write_renamed (get_name o) (drop COMMON_PREDICATES (predicates (prog o))) offset in
      link! os := link_secondary_predicates l r.2 in
      lret (set_pred_links (take COMMON_PREDICATES (pred_links o) ++ r.1) o :: os)
  end.

Fixpoint link_imported (primary : program) (secondary_list : list object) (i : nat) (links : list Z) : res (list Z) :=
  match links with
  | [] => Ok []
  | l :: links =>
      let* imported := is_imported primary i in
      let* id := (if (imported : bool) then get_imported_predicate_id primary secondary_list i else Ok l) in
      let* ls := link_imported primary secondary_list (i + 1) links in
      Ok (id :: ls)
  end.

Definition link_predicates (primary : object) (secondary_list : list object) (num_predicates_orig : Z)
  : linker_step (object * list object) :=
  link! r := link_descriptors (prog primary) 0 (Z.to_nat num_predicates_orig) 0 in
  check (r.2 =? wrap 64 (Z.of_nat (num_predicates (prog primary)) -
                         Z.of_nat (length (imported_predicates (prog primary))))) ;;,
  link! os := link_secondary_predicates secondary_list r.2 in
  link! ids := lift (link_imported (prog primary) os 0 r.1) in
  lret (set_pred_links (ids ++ drop (length ids) (pred_links primary)) primary, os).

End Descriptors.

(** *** Priorities *)

Definition skip_priorities : reader unit :=
  read! global_info := read_byte in
  if global_info =? 0x01 then rfail assert_fail
  else if global_info =? 0x02 then
    read! bs := READ_CODE 1 [0] in
    let type := le_value bs in
    if type =? 0x01 then
      read! _ := READ_CODE 1 [] in read! _ := READ_CODE 8 [] in rret ()
    else if type =? 0x02 then
      read! _ := READ_CODE 1 [] in read! _ := READ_CODE 4 [] in rret ()
    else rfail assert_fail
  else rret ().

Definition link_priorities : linker_step unit :=
  link! _ := lread skip_priorities in
  COPY_TO_OUTPUT ;;,
  set_position_prev.

(** *** Codes *)

(** the codes of the predicates that are not imported *)
Fixpoint link_predicate_code (primary : program) (i : nat) (codes : list (list byte)) : linker_step unit :=
  match codes with
  | [] => lret ()
  | c :: codes =>
      link! _ := lread (READ_NEW (length c)) in
      link! imported := lift (is_imported primary i) in
      (if (imported : bool) then lret () else WRITE_CODE c) ;;,
      set_position_prev ;;,
      link_predicate_code primary (i + 1) codes
  end.

(** as many as the first imported program has *)
Definition link_secondary_code (n : nat) (codes : list (list byte)) : linker_step unit :=
  each (λ i, check (i <? length codes)%nat ;;,
             link! c := lift (of_option (codes !! i)) in WRITE_CODE c)
    (seq COMMON_PREDICATES (n - COMMON_PREDICATES)).

Fixpoint write_rules (links : list Z) (rs : list rule_entry) (codes : list (list byte)) : linker_step unit :=
  match rs, codes with
  | r :: rs, c :: codes =>
      let preds := rule_predicates (Loader.rule_links r) in
      write_code c ;;,
      WRITE_CODE [if as_persistent (Loader.rule_links r) then 1 else 0] ;;,
      write_uint (Z.of_nat (length preds)) ;;,
      check (length preds <? 10)%nat ;;,
      WRITE_CODE (map (λ id, wrap 8 (link_of links (Z.of_nat id))) preds) ;;,
      write_rules links rs codes
  | _, _ => lret ()
  end.

Fixpoint link_secondary_rules_code (l : list object) (codes : list (list (list byte) * list (list byte))) : linker_step unit :=
  match l, codes with
  | o :: l, c :: codes =>
      write_rules (pred_links o) (tail (rules (prog o))) (tail c.1) ;;,
      link_secondary_rules_code l codes
  | _, _ => lret ()
  end.

Definition link_codes (primary : object) (secondary_list : list object)
    (mine : list (list byte) * list (list byte)) (theirs : list (list (list byte) * list (list byte))) : linker_step unit :=
  link_predicate_code (prog primary) 0 mine.2 ;;,
  each (λ c, link_secondary_code (match secondary_list with o :: _ => num_predicates (prog o) | [] => O end) c.2) theirs ;;,
  link! num_rules_code_orig := lread read_uint in
  write_uint (num_rules_code_orig + num_rules_new secondary_list) ;;,
  set_position_prev ;;,
  write_rules (pred_links primary) (rules (prog primary)) mine.1 ;;,
  link_secondary_rules_code secondary_list theirs.

(** ** The linker *)

Section Linker.
Context (unwritten : byte) (float_string : Z → string) (fuel : nat).

Definition linker_steps (table : func_table) (primary : object) (secondary_list : list object) : linker_step unit :=
  link! version := link_header in
  let '(maj, min) := version in
  link! num_predicates_orig := link_num_predicates (prog primary) secondary_list in
  link_nodes (prog primary) secondary_list ;;,
  link_imports maj min ;;,
  link! r := link_rules_text primary secondary_list in
  link_consts ;;,
  link_function_code maj min table secondary_list ;;,
  link! r := link_predicates unwritten r.1 r.2 num_predicates_orig in
  link! mine := lift (modify_code float_string fuel r.1) in
  link! theirs := lift (modify_list float_string fuel r.2) in
  link_priorities ;;,
  link_codes r.1 r.2 mine theirs.

Definition linker (lines : list (list byte)) (primary : object) (secondary_list : list object) : res (list byte) :=
  let* table := read_table lines in
  let* r := linker_steps table primary secondary_list (mk_linking (mk_input (file_bytes primary) 0) [] []) in
  Ok (outfile_ml r.2).

(** ** The program *)

Section Main.
Context (get_function_pointer : string → string → Z).
(** the files by their names, and what the memory holds in place of the numbers *)
Context (files : string → option (list byte)) (garbage : string → list Z * list Z).

(** the files of the imports, each once *)
Definition import_files (p : program) : list string :=
  fold_left (λ l i, if existsb (String.eqb (file i)) l then l else l ++ [file i]) (imported_predicates p) [].

Definition load_object (name : string) : res object :=
  match files name with
  | None => Err (load_file_error ("unable to load byte-code file " +:+ name +:+ ": unable to open file"))
  | Some bytes =>
      let* p := load name get_function_pointer bytes in
      Ok (mk_object name bytes p (garbage name).1 (garbage name).2)
  end.

Fixpoint load_objects (names : list string) : res (list object) :=
  match names with
  | [] => Ok []
  | name :: names => let* o := load_object name in let* os := load_objects names in Ok (o :: os)
  end.

(** the file that is written *)
Definition main (m_file : string) (lines : list (list byte)) : res (list byte) :=
  let* primary := load_object m_file in
  let* secondary_list := load_objects (import_files (prog primary)) in
  linker lines primary secondary_list.

End Main.

End Linker.
