(* ===== verification/LinkerFormat.v ===== *)
(** The linked file as the file of one program: what [Linker] writes for a program and
    its imports is loaded as the program that has the parts of all of them. *)

From Stdlib Require Import ZArith Lia Bool.
From stdpp Require Import base tactics list numbers option strings.
From S2P Require Import Prelude Words Instr Types RuleMatcher Printer Loader Linker LoaderFormat.

#[local] Open Scope Z_scope.

(** ** What a step of the linker does

    It reads [bs], writes [o], and what was read since the last copy goes from [P] to [P']. *)

















(** ** What is known of a program that can be written *)

Record fits (s : source) : Prop := {
  fits_nodes : short (source_nodes s) = true;
  fits_rule_count : short (source_rules s) = true;
  fits_rules : forallb (rule_ok (length (source_predicates s))) (source_rules s) = true;
  fits_function_count : short (source_functions s) = true;
  fits_functions : forallb short (source_functions s) = true;
  fits_external_count : short (source_externals s) = true;
  fits_externals : forallb external_ok (source_externals s) = true;
  fits_predicate_count : (length (source_predicates s) < 256)%nat;
  fits_predicates : predicates_ok 0 (source_predicates s) = true
}.

Lemma writable_fits s : writable s = true → fits s.
Proof. unfold writable. rewrite !andb_true_iff. intros H. split; rewrite <- ?Nat.ltb_lt; tauto. Qed.

(** ** The parts that come from the file of the program *)

Section Parts.
Context (s : source).
Context (Hs : writable s = true) (Hm : minor s = 9).





End Parts.

(** ** Programs that come from files *)

(** the linked codes of a program: of its rules and of its predicates *)
Abbreviation codes := (list (list byte) * list (list byte))%type.

Section Files.
Context (dl : string → string → Z).

Record object_of (o : object) (s : source) : Prop := {
  of_writable : writable s = true;
  of_minor : minor s = 9;
  of_bytes : file_bytes o = write s;
  of_load : load (get_name o) dl (write s) = Ok (prog o)
}.

(** what the linker uses of the loaded program *)
Record parts (p : program) (s : source) : Prop := {
  parts_nodes : number_nodes p = Z.of_nat (length (source_nodes s)) ∧ db_buffer p = write_all write_node (source_nodes s);
  parts_imports : imported_predicates p = map (λ i, new_import i.1.1 i.1.2 i.2) (source_imports s);
  parts_rules : rules p = map made_rule (source_rules s);
  parts_functions : functions p = source_functions s;
  parts_externals : externals p = map (made_external dl) (source_externals s);
  parts_place : external_function_position p = external_place s;
  parts_code : code p = map snd (source_predicates s);
  parts_names : map pred_name (predicates p) = map (λ q, pred_name q.1) (source_predicates s);
  parts_buffers : map predicate_descriptor_buffer (predicates p) =
                  map (λ q, predicate_descriptor_buffer (made_predicate q)) (source_predicates s)
}.

Lemma cache_info_buffer get p q :
  cache_info get p = Ok q → predicate_descriptor_buffer q = predicate_descriptor_buffer p ∧ pred_name q = pred_name p.
Proof.
  unfold cache_info, build_field_info. intros E. apply res_bind_ok in E as (p1 & E1 & E).
  apply res_bind_ok in E1 as ([[sizes offsets] total] & E1 & [= <-]). cbn in E.
  destruct (agg_info p) as [a |]; [| by injection E as <-]. apply res_bind_ok in E as (a' & _ & [= <-]). done.
Qed.

Lemma cache_predicates_same all ps : ∀ qs, cache_predicates all ps = Ok qs →
  map predicate_descriptor_buffer qs = map predicate_descriptor_buffer ps ∧ map pred_name qs = map pred_name ps.
Proof.
  induction ps as [| p ps IH]; intros qs E; cbn [cache_predicates] in E; [by injection E as <- |].
  apply res_bind_ok in E as (q & [E1 E2]%cache_info_buffer & E). apply res_bind_ok in E as (qs' & E3 & [= <-]).
  destruct (IH _ E3) as [H1 H2]. cbn. by rewrite E1, E2, H1, H2.
Qed.

Lemma object_parts o s : object_of o s → parts (prog o) s.
Proof.
  intros [W M _ L]. destruct (load_write (get_name o) dl s [] W) as (cached & aff & Hc & _ & Hl).
  rewrite app_nil_r, L in Hl. injection Hl as Hl. apply cache_predicates_same in Hc as [Hb Hn].
  rewrite Hl. unfold loaded, loaded_with. rewrite M. split; cbn [predicates]; try done.
  - rewrite Hn, map_map. done.
  - rewrite Hb, map_map. done.
Qed.



(** *** Texts of rules *)






(** the rules of an imported program that are linked *)
Definition linked_rules (t : source) : list source_rule := tail (source_rules t).

Fixpoint number_rules (k : Z) (l : list (object * source)) : list (object * source) :=
  match l with
  | [] => []
  | (o, t) :: l =>
      let n := Z.of_nat (length (linked_rules t)) in
      (set_rule_links (take 1 (Linker.rule_links o) ++ seqZ k n) o, t) :: number_rules (k + n) l
  end.



(** *** Functions *)









(** *** Functions of libraries *)

Fixpoint string_drop (n : nat) (str : string) : string :=
  match n, str with
  | O, _ => str
  | S n, String _ str => string_drop n str
  | S _, EmptyString => EmptyString
  end.

(** the path that is found replaces the beginning of the old one *)
Definition linked_path (found : option string) (old : string) : string :=
  match found with
  | Some path => path +:+ string_drop (length (bytes_of_string path)) old
  | None => "/home/rupesh/ls.o"
  end.

Definition linked_external (table : func_table) (id : Z) (e : source_external) : source_external :=
  mk_source_external id (extern_name e)
    (linked_path (match get_filename (extern_name e) table with Ok found => found | Err _ => None end) (extern_path e))
    (skip_ptr e) (ret_type e) (arg_types e).

(** the new path fits, and without one nothing of the old path is left behind the dummy *)
Definition path_fits (table : func_table) (e : source_external) : bool :=
  match get_filename (extern_name e) table with
  | Ok (Some path) => (length (bytes_of_string path) <? 1024)%nat
  | Ok None => (length (bytes_of_string (extern_path e)) <? 19)%nat
  | Err _ => false
  end.









Fixpoint number_externals (table : func_table) (id : Z) (es : list source_external) : list source_external :=
  match es with
  | [] => []
  | e :: es => linked_external table id e :: number_externals table (id + 1) es
  end.








Definition linked_externals (table : func_table) (s : source) (l : list (object * source)) : list source_external :=
  map (λ e, linked_external table (extern_id e) e) (source_externals s) ++
  number_externals table (Z.of_nat (length (source_externals s))) (concat (map (λ x, source_externals x.2) l)).



(** *** Nodes *)

(** the list of nodes that is linked: the longest, the first of the longest *)
Fixpoint most (best : list (Z * Z)) (l : list source) : list (Z * Z) :=
  match l with
  | [] => best
  | t :: l => if (length best <? length (source_nodes t))%nat then most (source_nodes t) l else most best l
  end.

(** the size of the nodes in bytes is 32 bits wide *)
Definition few_nodes (t : source) : Prop := Z.of_nat (length (source_nodes t)) < 2 ^ 29.



(** *** Descriptors *)

Definition imported (s : source) (q : predicate * list byte) : bool :=
  existsb (λ i, String.eqb (pred_name q.1) i.1.2) (source_imports s).

Fixpoint own_links (s : source) (ps : list (predicate * list byte)) (k : Z) : list Z :=
  match ps with
  | [] => []
  | q :: ps => if imported s q then DEFAULT_ID :: own_links s ps k else k :: own_links s ps (k + 1)
  end.

Definition kept (s : source) : list (predicate * list byte) :=
  List.filter (λ q, negb (imported s q)) (source_predicates s).





(** ** The predicates of the linked program *)

Section Renamed.
Context (unwritten : byte).

(** the 32 bytes of a new name *)
Definition name_bytes (name : string) : list byte :=
  map (λ b, match b with Some b => b | None => unwritten end) (name_image name).

(** the bytes of a name and the predicate with its code *)
Abbreviation entry := (list byte * (predicate * list byte))%type.

Definition write_entry (e : entry) : list byte := descriptor_named e.1 (Z.of_nat (length e.2.2)) e.2.1.

Definition relabel (name : string) (id : Z) (p : predicate) : predicate :=
  mk_predicate (predicate_descriptor_buffer p) id name (pred_level p) (pred_types p) (fields_size p) (fields_offset p)
    (tuple_size p) (agg_info p) (is_route p) (is_linear p) (is_reverse_route p) (is_action p)
    (is_reused p).

(** the predicates of the program that are not imported, with their linked code *)
Fixpoint kept_entries (s : source) (ps : list (predicate * list byte)) (cs : list (list byte)) : list entry :=
  match ps, cs with
  | q :: ps, c :: cs =>
      if imported s q then kept_entries s ps cs
      else (pad (bytes_of_string (pred_name q.1)), (q.1, c)) :: kept_entries s ps cs
  | _, _ => []
  end.

Definition new_name (file : string) (q : predicate * list byte) : string := pred_name q.1 +:+ "." +:+ file.

Definition renamed_entry (file : string) (q : predicate * list byte) (c : list byte) : entry :=
  (name_bytes (new_name file q), (relabel (new_name file q) (pred_id q.1) q.1, c)).

(** the predicates of an imported program that are linked *)
Definition linked_predicates (t : source) : list (predicate * list byte) := drop COMMON_PREDICATES (source_predicates t).

Definition renamed_entries (x : object * source) (cs : list (list byte)) : list entry :=
  zip_with (renamed_entry (get_name x.1)) (linked_predicates x.2) (drop COMMON_PREDICATES cs).

Fixpoint renumber (k : Z) (es : list entry) : list entry :=
  match es with
  | [] => []
  | e :: es => (e.1, (relabel (pred_name e.2.1) k e.2.1, e.2.2)) :: renumber (k + 1) es
  end.










Fixpoint number_predicates (k : Z) (l : list (object * source)) : list (object * source) :=
  match l with
  | [] => []
  | (o, t) :: l =>
      let n := Z.of_nat (length (linked_predicates t)) in
      (set_pred_links (take COMMON_PREDICATES (pred_links o) ++ seqZ k n) o, t) :: number_predicates (k + n) l
  end.

Definition write_renamed_entries (x : object * source) : list byte :=
  write_all (λ q, descriptor_named (name_bytes (new_name (get_name x.1) q)) (Z.of_nat (length q.2)) q.1)
    (linked_predicates x.2).


(** *** Reading the descriptors back *)









(** *** Codes *)


Abbreviation same_lengths cs ps := (map length cs = map (λ q, length q.2) ps).

Lemma kept_writes s ps : ∀ cs, same_lengths cs ps →
  write_all write_entry (kept_entries s ps cs) = write_all write_predicate (List.filter (λ q, negb (imported s q)) ps) ∧
  length (kept_entries s ps cs) = length (List.filter (λ q, negb (imported s q)) ps).
Proof.
  induction ps as [| q ps IH]; intros [| c cs] H; try done. injection H as H1 H. destruct (IH _ H) as [E1 E2].
  cbn [kept_entries List.filter]. destruct (imported s q); cbn [negb]; [done |]. unfold write_all in *.
  cbn [map concat length]. rewrite E1, E2. split; [| done]. f_equal. unfold write_entry, write_predicate. cbn [fst snd].
  by rewrite H1.
Qed.

Lemma renamed_writes x cs : same_lengths cs (source_predicates x.2) →
  write_all write_entry (renamed_entries x cs) = write_renamed_entries x ∧
  concat (map (λ e, e.2.2) (renamed_entries x cs)) = concat (drop COMMON_PREDICATES cs) ∧
  length (renamed_entries x cs) = length (linked_predicates x.2).
Proof.
  intros H. unfold renamed_entries, write_renamed_entries, linked_predicates.
  assert (H' : same_lengths (drop COMMON_PREDICATES cs) (drop COMMON_PREDICATES (source_predicates x.2)))
    by by rewrite <- !skipn_map, H. clear H. revert H'.
  generalize (drop COMMON_PREDICATES cs) as ds. induction (drop COMMON_PREDICATES (source_predicates x.2)) as [| q ps IH];
    intros [| c ds] H; try done. injection H as H1 H. destruct (IH _ H) as (E1 & E2 & E3).
  unfold write_all in *. cbn [zip_with map concat length]. rewrite E1, E2, E3. split; [| done]. f_equal.
  unfold write_entry, renamed_entry. cbn [fst snd]. by rewrite H1.
Qed.




(** *** Rules *)

(** a rule with its linked code, linked to the new numbers of its predicates *)
Definition relink (ids : list Z) (r : source_rule) (c : list byte) : source_rule :=
  mk_source_rule (text r) c
    (mk_rule (map (λ id, Z.to_nat (wrap 8 (link_of ids (Z.of_nat id)))) (rule_predicates (links r))) (as_persistent (links r))).


Definition secondary_rules (x : object * source) (cs : list (list byte)) : list source_rule :=
  zip_with (relink (pred_links x.1)) (linked_rules x.2) (tail cs).


(** *** The numbers of the predicates that are imported *)

Definition import_link (p : program) (os : list object) (k : nat) (q : predicate * list byte) : Z :=
  match imported_name p (pred_name q.1) with
  | Some name => match find_linked name os with Some link => wrap 8 link | None => wrap 8 (Z.of_nat k) end
  | None => wrap 8 (Z.of_nat k)
  end.

Fixpoint resolve (p : program) (s : source) (os : list object) (k : nat) (ps : list (predicate * list byte)) (ids : list Z)
  : list Z :=
  match ps, ids with
  | q :: ps, id :: ids => (if imported s q then import_link p os k q else id) :: resolve p s os (k + 1) ps ids
  | _, _ => []
  end.


Lemma own_links_length s ps : ∀ k, length (own_links s ps k) = length ps.
Proof. induction ps as [| q ps IH]; intros k; [done |]. cbn. destruct (imported s q); cbn; by rewrite IH. Qed.

(** every import names a predicate of the program, and only one *)
Definition imports_used (s : source) : Prop :=
  (length (kept s) + length (source_imports s) = length (source_predicates s))%nat.

Definition numbered (s : source) (l : list (object * source)) : list (object * source) :=
  number_predicates (Z.of_nat (length (kept s))) l.

Definition own_numbers (p : program) (s : source) (os : list object) : list Z :=
  resolve p s os 0 (source_predicates s) (own_links s (source_predicates s) 0).

Lemma resolve_length p s os ps : ∀ ids k, length ids = length ps → length (resolve p s os k ps ids) = length ps.
Proof. induction ps as [| q ps IH]; intros [| id ids] k L; try done. cbn in *. by rewrite IH by lia. Qed.



(** *** Renumbering keeps the numbers of things *)

Lemma number_rules_keeps l : ∀ k, Forall (λ x, object_of x.1 x.2) l →
  Forall (λ x, object_of x.1 x.2) (number_rules k l) ∧ map snd (number_rules k l) = map snd l ∧
  map (λ x, get_name x.1) (number_rules k l) = map (λ x, get_name x.1) l.
Proof.
  induction l as [| [o t] l IH]; intros k H; [done |]. apply Forall_cons in H as [[H1 H2 H3 H4] H].
  destruct (IH (k + Z.of_nat (length (linked_rules t))) H) as (K1 & K2 & K3).
  cbn [number_rules map]. rewrite K2, K3. split; [by constructor | done].
Qed.

Lemma number_predicates_keeps l : ∀ k, Forall (λ x, object_of x.1 x.2) l →
  Forall (λ x, object_of x.1 x.2) (number_predicates k l) ∧ map snd (number_predicates k l) = map snd l ∧
  map (λ x, get_name x.1) (number_predicates k l) = map (λ x, get_name x.1) l.
Proof.
  induction l as [| [o t] l IH]; intros k H; [done |]. apply Forall_cons in H as [[H1 H2 H3 H4] H].
  destruct (IH (k + Z.of_nat (length (linked_predicates t))) H) as (K1 & K2 & K3).
  cbn [number_predicates map]. rewrite K2, K3. split; [by constructor | done].
Qed.

Section Modified.
Context (float_string : Z → string) (fuel : nat).

Lemma modify_length o c c' : modify float_string fuel o c = Ok c' → length c' = length c.
Proof. unfold modify. intros E. apply res_bind_ok in E as ([n s] & E%instrs_print_sized & [= <-]). exact E. Qed.







Lemma modify_all_lengths o cs : ∀ cs', modify_all float_string fuel o cs = Ok cs' → map length cs' = map length cs.
Proof.
  induction cs as [| c cs IH]; intros cs' E; cbn [modify_all] in E; [by injection E as <- |].
  apply res_bind_ok in E as (c' & E1%modify_length & E). apply res_bind_ok in E as (cs1 & E2%IH & [= <-]). cbn. by rewrite E1, E2.
Qed.

Lemma modify_code_lengths o s m : object_of o s → modify_code float_string fuel o = Ok m →
  length m.1 = length (source_rules s) ∧ same_lengths m.2 (source_predicates s).
Proof.
  intros Ho%object_parts E. apply res_bind_ok in E as (rs & E1%modify_all_lengths & E).
  apply res_bind_ok in E as (ps & E2%modify_all_lengths & [= <-]). cbn [fst snd]. split.
  - rewrite <- (length_map length rs), E1, !length_map, (parts_rules _ _ Ho). apply length_map.
  - by rewrite E2, (parts_code _ _ Ho), map_map.
Qed.

Lemma modify_list_lengths l : ∀ ms, Forall (λ x, object_of x.1 x.2) l →
  modify_list float_string fuel (map fst l) = Ok ms →
  Forall2 (λ x m, length m.1 = length (source_rules x.2) ∧ same_lengths m.2 (source_predicates x.2)) l ms.
Proof.
  induction l as [| [o t] l IH]; intros ms H E; cbn [map modify_list] in E; [injection E as <-; constructor |].
  apply Forall_cons in H as [Ho H]. apply res_bind_ok in E as (m & E1 & E). apply res_bind_ok in E as (ms1 & E2 & [= <-]).
  constructor; [| by apply IH]. by eapply modify_code_lengths.
Qed.

End Modified.

(** ** The linked program *)

(** what is linked: the program and those it imports from, each with what its file says,
    and what the linker asks of them: all imports are used, an imported program has the
    rule of its initial fact and the same number of predicates, the common ones and its
    own, as the first one, and every function of a library has a path that fits *)
Record linkable (table : func_table) (o : object) (s : source) (l : list (object * source)) (n : nat) : Prop := {
  linkable_primary : object_of o s;
  linkable_secondaries : Forall (λ x, object_of x.1 x.2) l;
  linkable_imports : imports_used s;
  linkable_rules : Forall (λ x, source_rules x.2 ≠ []) l;
  linkable_predicates : Forall (λ x, length (source_predicates x.2) = n) l ∧ (COMMON_PREDICATES <= n)%nat;
  linkable_nodes : few_nodes s ∧ Forall (λ x, few_nodes x.2) l;
  linkable_paths : forallb (path_fits table) (source_externals s) = true ∧
                   Forall (λ x, forallb (path_fits table) (source_externals x.2) = true) l
}.

(** the programs with the numbers that linking gives to their predicates and rules *)
Definition numbered_secondaries (s : source) (l : list (object * source)) : list (object * source) :=
  numbered s (number_rules (Z.of_nat (length (source_rules s))) l).

Definition numbered_primary (o : object) (s : source) (l : list (object * source)) : object :=
  set_pred_links (own_numbers (prog o) s (map fst (numbered_secondaries s l)) ++ drop (length (source_predicates s)) (pred_links o))
    (set_rule_links (map Z.of_nat (seq 0 (length (source_rules s))) ++
                     drop (length (source_rules s)) (Linker.rule_links o)) o).

Definition entries (s : source) (l : list (object * source)) (mine : codes) (theirs : list codes) : list entry :=
  renumber 0 (kept_entries s (source_predicates s) mine.2 ++
              concat (zip_with (λ x c, renamed_entries x c.2) (numbered_secondaries s l) theirs)).

Definition linked_source (table : func_table) (o : object) (s : source) (l : list (object * source))
    (mine : codes) (theirs : list codes) : source :=
  mk_source 9 (most (source_nodes s) (map snd l)) (source_imports s) (source_exports s) (source_args s)
    (zip_with (relink (pred_links (numbered_primary o s l))) (source_rules s) mine.1 ++
     concat (zip_with (λ x c, secondary_rules x c.1) (numbered_secondaries s l) theirs))
    (source_strings s) (source_consts s) (source_const_code s)
    (source_functions s ++ concat (map (λ x, source_functions x.2) l))
    (linked_externals table s l)
    (map snd (entries s l mine theirs))
    (source_priorities s).







Lemma most_few l : ∀ best, Z.of_nat (length best) < 2 ^ 29 → Forall few_nodes l → Z.of_nat (length (most best l)) < 2 ^ 29.
Proof.
  induction l as [| t l IH]; intros best Hb H; [done |]. apply Forall_cons in H as [Ht H]. cbn [most].
  destruct (length best <? length (source_nodes t))%nat; by apply IH.
Qed.


(** *** What the numbers stand for *)

Lemma renumber_lookup es : ∀ k i, renumber k es !! i =
  (λ e : entry, (e.1, (relabel (pred_name e.2.1) (k + Z.of_nat i) e.2.1, e.2.2))) <$> es !! i.
Proof.
  induction es as [| e es IH]; intros k i; [done |]. destruct i as [| i]; cbn [renumber lookup list_lookup fmap option_fmap option_map].
  - by rewrite Z.add_0_r.
  - change (list_lookup i (renumber (k + 1) es)) with (renumber (k + 1) es !! i). rewrite IH.
    replace (k + 1 + Z.of_nat i) with (k + Z.of_nat (S i)) by lia. done.
Qed.

Lemma own_links_kept s ps : ∀ cs k i q, same_lengths cs ps → ps !! i = Some q → imported s q = false →
  ∃ d c, own_links s ps k !! i = Some (k + Z.of_nat d) ∧ cs !! i = Some c ∧
         (λ e : entry, e.2) <$> kept_entries s ps cs !! d = Some (q.1, c).
Proof.
  induction ps as [| p ps IH]; intros [| c cs] k i q L Hi Hq; try done. injection L as L1 L.
  cbn [own_links kept_entries]. destruct i as [| i].
  - injection Hi as ->. rewrite Hq. exists 0%nat, c. cbn. by rewrite Z.add_0_r.
  - destruct (imported s p).
    + destruct (IH cs k i q L Hi Hq) as (d & c' & H1 & H2 & H3). exists d, c'. done.
    + destruct (IH cs (k + 1) i q L Hi Hq) as (d & c' & H1 & H2 & H3). exists (S d), c'. split; [| done].
      change ((k :: own_links s ps (k + 1)) !! S i) with (own_links s ps (k + 1) !! i). rewrite H1. f_equal. lia.
Qed.

Lemma renamed_lookup x cs i q : same_lengths cs (source_predicates x.2) → linked_predicates x.2 !! i = Some q →
  ∃ e, renamed_entries x cs !! i = Some e ∧ e.2.1 = relabel (new_name (get_name x.1) q) (pred_id q.1) q.1.
Proof.
  intros L Hi. unfold renamed_entries.
  assert (Hc : is_Some (drop COMMON_PREDICATES cs !! i)).
  { apply lookup_lt_is_Some. apply lookup_lt_Some in Hi. unfold linked_predicates in Hi. rewrite length_drop. rewrite length_drop in Hi.
    assert (E : length cs = length (source_predicates x.2)) by (rewrite <- (length_map length cs), L; apply length_map). lia. }
  destruct Hc as [c Hc]. exists (renamed_entry (get_name x.1) q c). split; [| done]. by rewrite lookup_zip_with, Hi, Hc.
Qed.

Lemma numbered_lookup l : ∀ off (ms : list codes),
  Forall (λ x, COMMON_PREDICATES <= length (pred_links x.1))%nat l →
  Forall2 (λ x m, length m.1 = length (source_rules x.2) ∧ same_lengths m.2 (source_predicates x.2)) (number_predicates off l) ms →
  ∀ j x i q, number_predicates off l !! j = Some x → linked_predicates x.2 !! i = Some q →
  ∃ d e, pred_links x.1 !! (COMMON_PREDICATES + i)%nat = Some (off + Z.of_nat d) ∧
    concat (zip_with (λ x c, renamed_entries x c.2) (number_predicates off l) ms) !! d = Some e ∧
    e.2.1 = relabel (new_name (get_name x.1) q) (pred_id q.1) q.1.
Proof.
  induction l as [| [o t] l IH]; intros off ms Hg H j x i q Hj Hi; cbn [number_predicates] in *; [done |].
  inversion H as [| ? m ? ms' [_ L] H2]; subst. apply Forall_cons in Hg as [G Hg]. cbn [fst snd zip_with concat] in *.
  destruct j as [| j].
  - injection Hj as <-. cbn [fst snd pred_links set_pred_links] in *.
    destruct (renamed_lookup (set_pred_links (take COMMON_PREDICATES (pred_links o) ++
       seqZ off (Z.of_nat (length (linked_predicates t)))) o, t) m.2 i q L Hi) as (e & He & Hq).
    exists i, e. split; [| split; [| exact Hq]].
    + rewrite lookup_app_r, length_take by (rewrite length_take; lia). rewrite Nat.min_l by exact G.
      replace (COMMON_PREDICATES + i - COMMON_PREDICATES)%nat with i by lia. apply lookup_seqZ.
      apply lookup_lt_Some in Hi. lia.
    + rewrite lookup_app_l; [exact He |]. by eapply lookup_lt_Some.
  - destruct (IH _ _ Hg H2 j x i q Hj Hi) as (d & e & H3 & H4 & H5).
    destruct (renamed_writes (set_pred_links (take COMMON_PREDICATES (pred_links o) ++
       seqZ off (Z.of_nat (length (linked_predicates t)))) o, t) m.2 L) as (_ & _ & N). cbn [snd] in N.
    exists (length (linked_predicates t) + d)%nat, e. split; [rewrite H3; f_equal; lia |]. split; [| exact H5].
    rewrite lookup_app_r by lia. rewrite N. by replace (length (linked_predicates t) + d - length (linked_predicates t))%nat with d by lia.
Qed.

Lemma find_linked_first name l : ∀ j x i q,
  Forall (λ x, object_of x.1 x.2) l → l !! j = Some x → source_predicates x.2 !! i = Some q → pred_name q.1 = name →
  (∀ j' y r, (j' < j)%nat → l !! j' = Some y → r ∈ source_predicates y.2 → pred_name r.1 ≠ name) →
  (∀ i' r, (i' < i)%nat → source_predicates x.2 !! i' = Some r → pred_name r.1 ≠ name) →
  find_linked name (map fst l) = pred_links x.1 !! i.
Proof.
  induction l as [| [o t] l IH]; intros j x i q Hl Hj Hi Hn F1 F2; [done |]. apply Forall_cons in Hl as [Ho Hl].
  cbn [map find_linked fst snd] in *. pose proof (parts_names _ _ (object_parts _ _ Ho)) as N.
  assert (P : ∀ k p, predicates (prog o) !! k = Some p → ∃ r, source_predicates t !! k = Some r ∧ pred_name p = pred_name r.1).
  { intros k p Hp. assert (E : map pred_name (predicates (prog o)) !! k = Some (pred_name p)) by (by rewrite list_lookup_fmap, Hp).
    rewrite N, list_lookup_fmap in E. apply fmap_Some in E as (r & Hr & E). by exists r. }
  destruct j as [| j].
  - injection Hj as <-. cbn [fst snd] in *.
    assert (E : map pred_name (predicates (prog o)) !! i = Some name) by (rewrite N, list_lookup_fmap, Hi; cbn; by rewrite Hn).
    rewrite list_lookup_fmap in E. apply fmap_Some in E as (p & Hp & E).
    assert (F : list_find (λ q, pred_name q = name) (predicates (prog o)) = Some (i, p)).
    { apply list_find_Some. split; [done |]. split; [done |]. intros k y Hk Hlt.
      destruct (P _ _ Hk) as (r & Hr & ->). by apply (F2 k r). }
    by rewrite F.
  - assert (F : list_find (λ q, pred_name q = name) (predicates (prog o)) = None).
    { apply list_find_None. apply Forall_lookup. intros k p Hp. destruct (P _ _ Hp) as (r & Hr & ->).
      apply (F1 0%nat (o, t) r); [lia | done |]. by eapply list_elem_of_lookup_2. }
    rewrite F. apply (IH j x i q); try done. intros j' y r Hlt. apply (F1 (S j')). lia.
Qed.

Section Linked.
Context (float_string : Z → string) (fuel : nat).
Context (table : func_table) (o : object) (s : source) (l : list (object * source)) (n : nat).
Context (mine : codes) (theirs : list codes).
Context (Hlink : linkable table o s l n).
Context (Hmine : modify_code float_string fuel (numbered_primary o s l) = Ok mine).
Context (Htheirs : modify_list float_string fuel (map fst (numbered_secondaries s l)) = Ok theirs).
Context (Hfits : writable (linked_source table o s l mine theirs) = true).

Abbreviation m := (linked_source table o s l mine theirs).
Abbreviation es := (entries s l mine theirs).
Abbreviation l' := (numbered_secondaries s l).
Abbreviation o' := (numbered_primary o s l).

Lemma secondaries_keep :
  Forall (λ x, object_of x.1 x.2) l' ∧ map snd l' = map snd l ∧ map (λ x, get_name x.1) l' = map (λ x, get_name x.1) l.
Proof.
  pose proof (linkable_secondaries _ _ _ _ _ Hlink) as H.
  destruct (number_rules_keeps l (Z.of_nat (length (source_rules s))) H) as (K1 & K2 & K3).
  destruct (number_predicates_keeps _ (Z.of_nat (length (kept s))) K1) as (L1 & L2 & L3).
  unfold numbered_secondaries, numbered. split; [exact L1 |]. split; congruence.
Qed.

Lemma primary_keeps : object_of o' s.
Proof. destruct (linkable_primary _ _ _ _ _ Hlink) as [H1 H2 H3 H4]. by constructor. Qed.


Lemma my_lengths : length mine.1 = length (source_rules s) ∧ same_lengths mine.2 (source_predicates s).
Proof. eapply modify_code_lengths; [apply primary_keeps | exact Hmine]. Qed.

Lemma their_lengths :
  Forall2 (λ x m, length m.1 = length (source_rules x.2) ∧ same_lengths m.2 (source_predicates x.2)) l' theirs.
Proof. eapply modify_list_lengths; [apply secondaries_keep | exact Htheirs]. Qed.




Lemma number_of_entries : length (source_predicates m) = length es ∧ (length es < 256)%nat.
Proof.
  assert (E : length (source_predicates m) = length es) by apply length_map. split; [done |].
  rewrite <- E. apply (fits_predicate_count _ (writable_fits _ Hfits)).
Qed.











(** the linked program's predicate with the number [id] *)
Definition stands_for (id : Z) (name : string) (types : list field_type) : Prop :=
  ∃ i e, id = Z.of_nat i ∧ source_predicates m !! i = Some e ∧ pred_name e.1 = name ∧ pred_types e.1 = types.

Lemma entry_stands i e : es !! i = Some e → 0 <= Z.of_nat i < 256 ∧ stands_for (Z.of_nat i) (pred_name e.2.1) (pred_types e.2.1).
Proof.
  intros He. destruct number_of_entries as [_ N]. pose proof (lookup_lt_Some _ _ _ He). split; [lia |].
  exists i, e.2. split; [done |]. split; [| done]. cbn [source_predicates linked_source]. by rewrite list_lookup_fmap, He.
Qed.

Lemma their_links j x i q :
  Forall (λ x, COMMON_PREDICATES <= length (pred_links x.1))%nat l →
  l' !! j = Some x → source_predicates x.2 !! i = Some q → (COMMON_PREDICATES <= i)%nat →
  ∃ id, pred_links x.1 !! i = Some id ∧ 0 <= id < 256 ∧ stands_for id (new_name (get_name x.1) q) (pred_types q.1).
Proof.
  intros Hg Hj Hi Hc.
  assert (Hg' : Forall (λ x, COMMON_PREDICATES <= length (pred_links x.1))%nat (number_rules (Z.of_nat (length (source_rules s))) l)).
  { revert Hg. generalize (Z.of_nat (length (source_rules s))). clear. induction l as [| [o t] l1 IH]; intros k H; [constructor |].
    apply Forall_cons in H as [H1 H]. constructor; [exact H1 | by apply IH]. }
  assert (Hi' : linked_predicates x.2 !! (i - COMMON_PREDICATES)%nat = Some q).
  { unfold linked_predicates. rewrite lookup_drop. by replace (COMMON_PREDICATES + (i - COMMON_PREDICATES))%nat with i by lia. }
  destruct (numbered_lookup _ _ _ Hg' their_lengths j x _ q Hj Hi') as (d & e & H1 & H2 & H3).
  replace (COMMON_PREDICATES + (i - COMMON_PREDICATES))%nat with i in H1 by lia.
  destruct (kept_writes s _ _ (proj2 my_lengths)) as [_ K]. fold (kept s) in K.
  assert (He : es !! (length (kept s) + d)%nat = Some (e.1, (relabel (pred_name e.2.1) (Z.of_nat (length (kept s) + d)) e.2.1, e.2.2))).
  { unfold entries. rewrite renumber_lookup, Z.add_0_l, lookup_app_r, K by lia.
    replace (length (kept s) + d - length (kept s))%nat with d by lia.
    unfold numbered_secondaries, numbered. by rewrite H2. }
  apply entry_stands in He as [B St]. rewrite <- Nat2Z.inj_add in H1. exists (Z.of_nat (length (kept s) + d)).
  split; [exact H1 |]. split; [exact B |]. cbn [fst snd pred_name pred_types relabel] in St. rewrite H3 in St. exact St.
Qed.

(** C4: the numbers that linking gives to predicates are those of the right predicates
    of the linked program: its own predicates of the program, those of an imported
    program under their new names, and for a predicate that is imported, the predicate
    of the first program that has one of the imported name. *)
Theorem links_stand_for :
  Forall (λ x, COMMON_PREDICATES <= length (pred_links x.1))%nat l →
  (∀ i q, source_predicates s !! i = Some q → imported s q = false →
     ∃ id, pred_links o' !! i = Some id ∧ stands_for id (pred_name q.1) (pred_types q.1)) ∧
  (∀ j x i q, l' !! j = Some x → source_predicates x.2 !! i = Some q → (COMMON_PREDICATES <= i)%nat →
     ∃ id, pred_links x.1 !! i = Some id ∧ stands_for id (new_name (get_name x.1) q) (pred_types q.1)) ∧
  (∀ i q name j x k r, source_predicates s !! i = Some q → imported s q = true →
     imported_name (prog o) (pred_name q.1) = Some name →
     l' !! j = Some x → source_predicates x.2 !! k = Some r → (COMMON_PREDICATES <= k)%nat → pred_name r.1 = name →
     (∀ j' y r', (j' < j)%nat → l' !! j' = Some y → r' ∈ source_predicates y.2 → pred_name r'.1 ≠ name) →
     (∀ k' r', (k' < k)%nat → source_predicates x.2 !! k' = Some r' → pred_name r'.1 ≠ name) →
     ∃ id, pred_links o' !! i = Some id ∧ stands_for id (new_name (get_name x.1) r) (pred_types r.1)).
Proof.
  intros Hg. destruct my_lengths as [_ L].
  assert (O : ∀ i q, source_predicates s !! i = Some q →
    pred_links o' !! i = (λ id, if imported s q then import_link (prog o) (map fst l') i q else id) <$>
                         own_links s (source_predicates s) 0 !! i).
  { intros i q Hi. pose proof (lookup_lt_Some _ _ _ Hi) as Hlt.
    assert (R : ∀ ps ids k i q, length ids = length ps → ps !! i = Some q →
      resolve (prog o) s (map fst l') k ps ids !! i =
      (λ id, if imported s q then import_link (prog o) (map fst l') (k + i) q else id) <$> ids !! i).
    { clear. induction ps as [| p ps IH]; intros [| id ids] k i q Hl Hi; try done. injection Hl as Hl. destruct i as [| i].
      - injection Hi as ->. cbn. by rewrite Nat.add_0_r.
      - cbn [resolve]. etransitivity; [exact (IH ids (k + 1)%nat i q Hl Hi) |]. by rewrite <- Nat.add_assoc. }
    cbn [pred_links numbered_primary set_pred_links]. unfold own_numbers.
    rewrite lookup_app_l by (by rewrite resolve_length by apply own_links_length).
    by rewrite (R _ _ 0%nat i q (own_links_length _ _ _) Hi). }
  split; [| split].
  - intros i q Hi Hq. destruct (own_links_kept s _ _ 0 i q L Hi Hq) as (d & c & H1 & _ & H3).
    apply fmap_Some in H3 as (e & H3 & He). rewrite (O i q Hi), H1, Hq. exists (Z.of_nat d). split; [done |].
    assert (H4 : es !! d = Some (e.1, (relabel (pred_name e.2.1) (Z.of_nat d) e.2.1, e.2.2))).
    { unfold entries. rewrite renumber_lookup, Z.add_0_l, lookup_app_l by (by eapply lookup_lt_Some). by rewrite H3. }
    apply entry_stands in H4 as [_ St]. rewrite <- He in St. exact St.
  - intros j x i q Hj Hi Hc. destruct (their_links j x i q Hg Hj Hi Hc) as (id & H1 & _ & H2). by exists id.
  - intros i q name j x k r Hi Hq Hn Hj Hk Hc Hr F1 F2.
    destruct (their_links j x k r Hg Hj Hk Hc) as (id & H1 & B & H2). exists id. split; [| exact H2].
    destruct (lookup_lt_is_Some_2 (own_links s (source_predicates s) 0) i) as [z Hz].
    { rewrite own_links_length. by eapply lookup_lt_Some. }
    rewrite (O i q Hi), Hz, Hq. cbn. unfold import_link. rewrite Hn.
    rewrite (find_linked_first name l' j x k r (proj1 secondaries_keep) Hj Hk Hr F1 F2), H1. by rewrite wrap_id by (cbn; lia).
Qed.

End Linked.
End Renamed.
End Files.

(** ** Two files *)

(** the predicates of every program, then its own *)
Definition sample_predicate (id : Z) (name : string) (types : list field_type) : predicate * list byte :=
  (mk_predicate [] id name 0 types [] [] 0 None false true false false false, [0x00]).
Definition sample_common : list (predicate * list byte) :=
  [sample_predicate 0 "_init" []; sample_predicate 1 "set-priority" [FIELD_NODE; FIELD_FLOAT];
   sample_predicate 2 "setcolor" [FIELD_INT; FIELD_INT; FIELD_INT]; sample_predicate 3 "setedgelabel" [FIELD_NODE; FIELD_INT];
   sample_predicate 4 "write-string" [FIELD_INT]; sample_predicate 5 "add-priority" [FIELD_NODE; FIELD_FLOAT];
   sample_predicate 6 "schedule-next" [FIELD_NODE]; sample_predicate 7 "setcolor2" [FIELD_INT]].

(** rule [rule]: for every fact of [from], a fact of [to] with the argument 5 *)
Definition sample_code (rule from to : byte) : list byte :=
  [ 0x10; rule; 0; 0; 0; 0xA0; from; 2; 0; 34; 0; 0; 0; 0; 0xc0; 0x30; 0x1f; 0x20; 0x40; to; 1;
    0x30; 0x01; 0x02; 5; 0; 0; 0; 0; 1; 0x08; 1; 1; 0x80; 0; 0xD0; 0x00; 0x00; 0x00; 0x00 ].

(** it imports [fact] as [fact-b] and has a predicate of its own after it *)
Definition sample_primary : source :=
  mk_source 9 [(0, 0)] [("fact", "fact-b", "b")%string] [] 0
    [mk_source_rule "_init -o fact-b(5)" (sample_code 0 0 8) (mk_rule [0%nat] false);
     mk_source_rule "fact-b(x) -o goal(5)" (sample_code 1 8 9) (mk_rule [8%nat] false)]
    [] [] [0x00] [[0x00]] []
    (sample_common ++ [sample_predicate 8 "fact-b" [FIELD_INT]; sample_predicate 9 "goal" [FIELD_INT]])
    (mk_priority_info (Some FIELD_FLOAT) (Some PRIORITY_DESC) 0 false).

Definition sample_import : source :=
  mk_source 9 [(0, 0); (1, 1)] [] ["fact"%string] 0
    [mk_source_rule "_init -o 1" [0x00] (mk_rule [0%nat] false);
     mk_source_rule "fact(x) -o fact(5)" (sample_code 1 8 8) (mk_rule [8%nat] false)]
    [] [] [0x00] [[0x00; 0x00]] [mk_source_external 80 "area" "old.so" 0 FIELD_FLOAT [FIELD_INT; FIELD_INT]]
    (sample_common ++ [sample_predicate 8 "fact" [FIELD_INT]])
    (mk_priority_info (Some FIELD_FLOAT) (Some PRIORITY_DESC) 0 false).

Definition sample_object (name : string) (s : source) : object :=
  mk_object name (write s)
    (match load name no_functions (write s) with Ok p => p | Err _ => sample_program end)
    (replicate 10 77) (replicate 2 78).

Definition sample_linked : object := sample_object "a.m" sample_primary.
Definition sample_secondaries : list (object * source) := [(sample_object "b.m" sample_import, sample_import)].
Definition sample_table : func_table := [Some ("area", "/lib/area.so")%string].
Definition no_float (z : Z) : string := EmptyString.

Definition sample_mine : codes :=
  match modify_code no_float 60 (numbered_primary sample_linked sample_primary sample_secondaries) with
  | Ok c => c | Err _ => ([], []) end.
Definition sample_theirs : list codes :=
  match modify_list no_float 60 (map fst (numbered_secondaries sample_primary sample_secondaries)) with
  | Ok c => c | Err _ => [] end.

Lemma sample_object_of name s : writable s = true → minor s = 9 →
  load name no_functions (write s) = Ok (prog (sample_object name s)) → object_of no_functions (sample_object name s) s.
Proof. intros H1 H2 H3. by constructor. Qed.

Lemma sample_linkable : linkable no_functions sample_table sample_linked sample_primary sample_secondaries 9.
Proof.
  constructor.
  - apply sample_object_of; vm_compute; reflexivity.
  - constructor; [apply sample_object_of; vm_compute; reflexivity | constructor].
  - vm_compute. reflexivity.
  - constructor; [vm_compute; discriminate | constructor].
  - split; [constructor; [vm_compute; reflexivity | constructor] | vm_compute; lia].
  - split; [vm_compute; reflexivity |]. constructor; [vm_compute; reflexivity | constructor].
  - split; [vm_compute; reflexivity |]. constructor; [vm_compute; reflexivity | constructor].
Qed.

Lemma sample_mine_ok :
  modify_code no_float 60 (numbered_primary sample_linked sample_primary sample_secondaries) = Ok sample_mine.
Proof. vm_compute. reflexivity. Qed.
Lemma sample_theirs_ok :
  modify_list no_float 60 (map fst (numbered_secondaries sample_primary sample_secondaries)) = Ok sample_theirs.
Proof. vm_compute. reflexivity. Qed.
Lemma sample_linked_writable :
  writable (linked_source 0 sample_table sample_linked sample_primary sample_secondaries sample_mine sample_theirs) = true.
Proof. vm_compute. reflexivity. Qed.

(** [fact-b] is the predicate 9 of the linked program, the first after its own ones *)
Lemma sample_links :
  pred_links (numbered_primary sample_linked sample_primary sample_secondaries) = [0; 1; 2; 3; 4; 5; 6; 7; 9; 8] ∧
  sample_mine.1 = [sample_code 0 0 9; sample_code 1 9 8] ∧
  map (λ q, pred_name q.1) (source_predicates
    (linked_source 0 sample_table sample_linked sample_primary sample_secondaries sample_mine sample_theirs)) =
  ["_init"; "set-priority"; "setcolor"; "setedgelabel"; "write-string"; "add-priority"; "schedule-next"; "setcolor2";
   "goal"; "fact.b.m"]%string.
Proof. split; [vm_compute; reflexivity |]. split; vm_compute; reflexivity. Qed.

Abbreviation sample_entries := (entries 0 sample_primary sample_secondaries sample_mine sample_theirs).
Abbreviation sample_merged :=
  (linked_source 0 sample_table sample_linked sample_primary sample_secondaries sample_mine sample_theirs).


Lemma links_stand_for_witness :
  Forall (λ x, COMMON_PREDICATES <= length (pred_links x.1))%nat sample_secondaries ∧
  ∃ id, pred_links (numbered_primary sample_linked sample_primary sample_secondaries) !! 9%nat = Some id ∧
        stands_for 0 sample_table sample_linked sample_primary sample_secondaries sample_mine sample_theirs id "goal" [FIELD_INT].
Proof.
  assert (H : Forall (λ x, COMMON_PREDICATES <= length (pred_links x.1))%nat sample_secondaries)
    by (constructor; [vm_compute; lia | constructor]).
  split; [exact H |].
  destruct (links_stand_for no_functions 0 no_float 60 sample_table sample_linked sample_primary sample_secondaries 9
           sample_mine sample_theirs sample_linkable sample_mine_ok sample_theirs_ok sample_linked_writable H) as (L & _ & _).
  exact (L 9%nat (sample_predicate 9 "goal" [FIELD_INT]) eq_refl eq_refl).
Defined.
