(* ===== verification/Boot.v ===== *)
(** From a byte code file to a run: the program of [Loader] as the engine's, with its
    codes at counters of one address space, and a file that is loaded and run. *)

From Stdlib Require Import ZArith Lia Bool SpecFloat.
From stdpp Require Import base tactics list numbers option gmap strings.
From S2P Require Import Prelude Words Types Instr RuntimeList Tuple SimpleTuple Trie TupleTrie.
From S2P Require Import RuleMatcher Aggregate Node Pqueues Exec Externals Router World Serial Interp Sample.
From S2P Require Import RunNode SerialLoop Loader LoaderFormat.

#[local] Open Scope Z_scope.

(** every code of the program, one after the other *)
Definition engine_codes (p : Loader.program) : list (list byte) :=
  Loader.const_code p :: Loader.code p ++ map rule_code (Loader.rules p) ++ Loader.functions p.

(** where they begin *)
Fixpoint counters (k : Z) (cs : list (list byte)) : list Z :=
  match cs with
  | [] => []
  | c :: cs => k :: counters (k + Z.of_nat (length c)) cs
  end.

(** the strings are at the addresses [strings]; the ids are the database's *)
Definition engine_program (p : Loader.program) (host max_id static_max_id : Z) (strings : list Z)
    (arguments : list (list byte)) : vm_program :=
  let ks := counters 0 (engine_codes p) in
  let n := length (Loader.code p) in
  let r := length (Loader.rules p) in
  mk_vm_program
    (Exec.mk_program (concat (engine_codes p)) host max_id static_max_id strings (Loader.const_types p)
       arguments (Loader.predicates p) (drop (1 + n + r) ks))
    (map rule_links (Loader.rules p)) (Loader.affected_rules p)
    (take r (drop (1 + n) ks)) (take n (drop 1 ks)) 0.

Lemma counters_length k cs : length (counters k cs) = length cs.
Proof. revert k. induction cs as [| c cs IH]; intros k; [done |]. cbn. by rewrite IH. Qed.

(** a code can be read at its counter *)
Lemma counters_code cs : ∀ i c pre,
  cs !! i = Some c →
  ∃ k, counters (Z.of_nat (length pre)) cs !! i = Some (Z.of_nat k) ∧
       memcpy_from (pre ++ concat cs) k (length c) = Ok c.
Proof.
  induction cs as [| d cs IH]; intros i c pre Hi; [done |]. destruct i as [| i]; cbn in Hi |- *.
  - injection Hi as ->. exists (length pre). split; [done |]. by apply memcpy_from_app.
  - destruct (IH i c (pre ++ d) Hi) as (k & Hk & Hc). exists k. rewrite length_app, Nat2Z.inj_add in Hk.
    split; [done |]. by rewrite <- app_assoc in Hc.
Qed.

Lemma engine_codes_predicate p i c : Loader.code p !! i = Some c → engine_codes p !! (1 + i)%nat = Some c.
Proof. apply lookup_app_l_Some. Qed.

Lemma engine_codes_rule p i c :
  map rule_code (Loader.rules p) !! i = Some c → engine_codes p !! (1 + (length (Loader.code p) + i))%nat = Some c.
Proof.
  intros Hi. change ((Loader.code p ++ map rule_code (Loader.rules p) ++ Loader.functions p) !!
                     (length (Loader.code p) + i)%nat = Some c).
  rewrite lookup_app_r by lia. replace (_ + i - _)%nat with i by lia. by apply lookup_app_l_Some.
Qed.

Lemma engine_codes_function p i c :
  Loader.functions p !! i = Some c →
  engine_codes p !! (1 + (length (Loader.code p) + (length (Loader.rules p) + i)))%nat = Some c.
Proof.
  intros Hi. change ((Loader.code p ++ map rule_code (Loader.rules p) ++ Loader.functions p) !!
                     (length (Loader.code p) + (length (Loader.rules p) + i))%nat = Some c).
  rewrite lookup_app_r by lia. replace (_ + (_ + i) - _)%nat with (length (Loader.rules p) + i)%nat by lia.
  rewrite lookup_app_r by (rewrite length_map; lia). rewrite length_map. by replace (_ + i - _)%nat with i by lia.
Qed.

Definition code_at (vp : vm_program) (ks : list Z) (i : nat) (c : list byte) : Prop :=
  ∃ k, ks !! i = Some (Z.of_nat k) ∧ memcpy_from (Exec.code (World.base vp)) k (length c) = Ok c.

(** the engine finds what the file says: the code of every predicate, rule and
    function at its counter, and the matcher that it makes for a node keeps its
    invariant from the start, since the loader links rules and predicates both ways. *)
Theorem boot_ok filename dl bytes p host mx smx strings args :
  load filename dl bytes = Ok p →
  let vp := engine_program p host mx smx strings args in
  matcher_inv (World.program_rules vp) (World.affected_rules vp)
    (new_rule_matcher (length (Exec.predicates (World.base vp))) (World.program_rules vp)) ∧
  (∀ i c, Loader.code p !! i = Some c → code_at vp (World.predicate_bytecode vp) i c) ∧
  (∀ i r, Loader.rules p !! i = Some r → code_at vp (World.rule_bytecode vp) i (rule_code r)) ∧
  (∀ i c, Loader.functions p !! i = Some c → code_at vp (Exec.functions (World.base vp)) i c).
Proof.
  intros H vp. pose proof (load_program_ok _ _ _ _ H) as Hok.
  assert (K : ∀ i c, engine_codes p !! i = Some c → ∃ k, counters 0 (engine_codes p) !! i = Some (Z.of_nat k) ∧
    memcpy_from (concat (engine_codes p)) k (length c) = Ok c).
  { intros i c Hi. exact (counters_code _ i c [] Hi). }
  split; [| split; [| split]].
  - apply new_matcher_inv; [apply (ok_link _ Hok) |]. cbn. apply Forall_map. exact (ok_small _ Hok).
  - intros i c Hi. pose proof (lookup_lt_Some _ _ _ Hi). destruct (K (1 + i)%nat c) as (k & Hk & Hc).
    { apply engine_codes_predicate, Hi. }
    exists k. split; [| exact Hc]. cbn. rewrite lookup_take_lt by done. exact Hk.
  - intros i r Hi. pose proof (lookup_lt_Some _ _ _ Hi).
    destruct (K (1 + (length (Loader.code p) + i))%nat (rule_code r)) as (k & Hk & Hc).
    { apply engine_codes_rule. by rewrite list_lookup_fmap, Hi. }
    exists k. split; [| exact Hc]. cbn. rewrite lookup_take_lt by done. rewrite lookup_drop. exact Hk.
  - intros i c Hi. destruct (K (1 + (length (Loader.code p) + (length (Loader.rules p) + i)))%nat c) as (k & Hk & Hc).
    { apply engine_codes_function, Hi. }
    exists k. split; [| exact Hc]. cbn. rewrite lookup_drop. rewrite <- Nat.add_assoc. exact Hk.
Qed.

(** ** The sample file from its bytes to its fact *)

Definition sample_boot : vm_program := engine_program sample_program 0 0 0 [] [].

Definition sample_entry : rule_entry :=
  match Loader.rules sample_program with r :: _ => r | [] => mk_rule_entry "" [] (mk_rule [] false) end.

Lemma sample_rules : Loader.rules sample_program !! 0%nat = Some sample_entry.
Proof. vm_compute. reflexivity. Qed.

Lemma boot_ok_witness :
  load "a.m" no_functions (write sample_source) = Ok sample_program ∧
  matcher_inv (World.program_rules sample_boot) (World.affected_rules sample_boot)
    (new_rule_matcher (length (Exec.predicates (World.base sample_boot))) (World.program_rules sample_boot)) ∧
  code_at sample_boot (World.rule_bytecode sample_boot) 0
    (rule_code sample_entry).
Proof.
  split; [exact sample_loads |].
  destruct (boot_ok "a.m" no_functions (write sample_source) sample_program 0 0 0 [] [] sample_loads) as (H1 & _ & H2 & _).
  split; [exact H1 |]. exact (H2 0%nat sample_entry sample_rules).
Defined.

Definition boot_result : World.world serial_local unit :=
  match machine_start sample_boot one_machine no_library [] no_rand id id id 50 50 10 sample_world with
  | Ok (_, w) => w
  | Err _ => sample_world
  end.

(** the file of the sample program is loaded and the engine derives its fact *)
Lemma sample_boots :
  machine_start sample_boot one_machine no_library [] no_rand id id id 50 50 10 sample_world = Ok (1, boot_result) ∧
  RunNode.facts boot_result 1 = [[5]].
Proof. split; vm_compute; reflexivity. Qed.
