(* ===== verification/Fuel.v ===== *)
(** The bounds of the model only decide whether a run ends: what the rule engine, the
    loop of the scheduler and the machine return with some fuel they return with more.
    So a run that the model finishes is the run of the program. *)

From Stdlib Require Import ZArith Lia Bool SpecFloat.
From stdpp Require Import base tactics list numbers option gmap sorting strings.
From S2P Require Import Prelude Words Types Instr RuntimeList Tuple SimpleTuple Trie TupleTrie Match.
From S2P Require Import Aggregate Heap Pqueues RuleMatcher Node Exec Externals Router.
From S2P Require Import World Serial Interp Sample Frame RuleEngine RunNode SerialLoop.

#[local] Open Scope Z_scope.
#[local] Open Scope meld_scope.

(** walks two runs that differ in their fuel only *)
Ltac walk :=
  repeat first
    [ assumption
    | match goal with |- refines ?m ?m => apply refines_refl end
    | match goal with |- refines (run_bind _ _) (run_bind _ _) => apply refines_bind; [| intros ?] end
    | match goal with |- refines (match ?x with _ => _ end) _ => destruct x end ].

Section Engine.
Context {Sched G : Type} `{scheduler Sched} (vp : vm_program) (rt : router).
Context (lib : c_library G) (added : list (external_function (G:=G))).
Context (rand : Z → G → Z * G).
Context (hash_int hash_uint hash_float : Z → Z).
Context (f1 f2 r1 r2 : nat) (Hf : (f1 <= f2)%nat) (Hr : (r1 <= r2)%nat).

Abbreviation execute_bytecode := (Interp.execute_bytecode vp rt lib added rand hash_int hash_uint hash_float).
Abbreviation execute_rule := (Interp.execute_rule vp rt lib added rand hash_int hash_uint hash_float).
Abbreviation run_predicate := (RuleEngine.run_predicate vp rt lib added rand hash_int hash_uint hash_float).
Abbreviation process_persistent_tuple :=
  (RuleEngine.process_persistent_tuple vp rt lib added rand hash_int hash_uint hash_float).
Abbreviation persistent_loop :=
  (RuleEngine.persistent_loop vp rt lib added rand hash_int hash_uint hash_float).
Abbreviation do_persistent_tuples :=
  (RuleEngine.do_persistent_tuples vp rt lib added rand hash_int hash_uint hash_float).
Abbreviation run_rule := (RuleEngine.run_rule vp rt lib added rand hash_int hash_uint hash_float).
Abbreviation rules_loop := (RuleEngine.rules_loop vp rt lib added rand hash_int hash_uint hash_float).
Abbreviation run_node := (RuleEngine.run_node vp rt lib added rand hash_int hash_uint hash_float).

Lemma refines_do_execute code :
  refines (do_execute vp rt lib added rand hash_int hash_uint hash_float f1 code)
          (do_execute vp rt lib added rand hash_int hash_uint hash_float f2 code).
Proof using Hf. unfold do_execute. walk. by apply refines_execute. Qed.

Lemma refines_execute_bytecode code : refines (execute_bytecode f1 code) (execute_bytecode f2 code).
Proof using Hf. unfold Interp.execute_bytecode. walk. apply refines_do_execute. Qed.

Lemma refines_execute_rule r : refines (execute_rule f1 r) (execute_rule f2 r).
Proof using Hf. unfold Interp.execute_rule. walk. apply refines_do_execute. Qed.

Lemma refines_run_predicate t n : refines (run_predicate f1 t n) (run_predicate f2 t n).
Proof using Hf. unfold RuleEngine.run_predicate. walk. apply refines_execute_bytecode. Qed.

Lemma refines_process_persistent_tuple s :
  refines (process_persistent_tuple f1 s) (process_persistent_tuple f2 s).
Proof using Hf.
  unfold RuleEngine.process_persistent_tuple. cbv zeta. walk; apply refines_run_predicate.
Qed.

Lemma refines_persistent_loop n : ∀ m, (n <= m)%nat → refines (persistent_loop f1 n) (persistent_loop f2 m).
Proof using Hf Hr.
  induction n as [| n IH]; intros m Hm; [apply refines_fails |]. destruct m as [| m]; [lia |].
  cbn [RuleEngine.persistent_loop]. cbv zeta. apply refines_bind; [walk | intros w].
  destruct (generated_persistent_tuples _); [walk |]. destruct (check_instruction_limit _); [walk |].
  do 4 (apply refines_bind; [walk | intros ?]). apply refines_bind; [| intros; apply IH; lia].
  walk. apply refines_process_persistent_tuple.
Qed.

Lemma refines_do_persistent_tuples :
  refines (do_persistent_tuples f1 r1) (do_persistent_tuples f2 r2).
Proof using Hf Hr. unfold RuleEngine.do_persistent_tuples. walk. by apply refines_persistent_loop. Qed.

Lemma refines_run_rule : refines (run_rule f1 r1) (run_rule f2 r2).
Proof using Hf Hr.
  unfold RuleEngine.run_rule. cbv zeta. walk; [apply refines_execute_rule | apply refines_do_persistent_tuples].
Qed.

Lemma refines_rules_loop n : ∀ m, (n <= m)%nat → refines (rules_loop f1 r1 n) (rules_loop f2 r2 m).
Proof using Hf Hr.
  induction n as [| n IH]; intros m Hm; [apply refines_fails |]. destruct m as [| m]; [lia |].
  cbn [RuleEngine.rules_loop]. apply refines_bind; [walk | intros w]. destruct (_ || _); [walk |].
  apply refines_bind; [apply refines_run_rule | intros []]; [apply IH; lia | walk].
Qed.

Lemma refines_run_node nd : refines (run_node f1 r1 nd) (run_node f2 r2 nd).
Proof using Hf Hr.
  unfold RuleEngine.run_node. cbv zeta. do 7 (apply refines_bind; [walk | intros ?]).
  apply refines_bind; [apply refines_do_persistent_tuples | intros b].
  apply refines_bind; [| intros; walk]. walk. by apply refines_rules_loop.
Qed.

End Engine.

Section Machine.
Context {G : Type} (vp : vm_program) (rt : router).
Context (lib : c_library G) (added : list (external_function (G:=G))).
Context (rand : Z → G → Z * G).
Context (hash_int hash_uint hash_float : Z → Z).

Abbreviation world := (World.world serial_local G).
Abbreviation do_loop := (SerialLoop.do_loop vp rt lib added rand hash_int hash_uint hash_float).
Abbreviation machine_start := (SerialLoop.machine_start vp rt lib added rand hash_int hash_uint hash_float).

Lemma refines_do_loop f1 f2 r1 r2 n : (f1 <= f2)%nat → (r1 <= r2)%nat → ∀ m k, (n <= m)%nat →
  refines (do_loop f1 r1 n k) (do_loop f2 r2 m k).
Proof.
  intros Hf Hr. induction n as [| n IH]; intros m k Hm; [apply refines_fails |].
  destruct m as [| m]; [lia |]. cbn [SerialLoop.do_loop]. cbv zeta. apply refines_bind; [walk | intros [nd |]].
  - apply refines_bind; [by apply refines_run_node | intros; apply IH; lia].
  - do 2 (apply refines_bind; [walk | intros ?]). destruct (_ : bool); [apply IH; lia | walk].
Qed.

(** the three bounds of the model, on the instructions of a run of byte code, on
    the persistent tuples and rules of a run of a node, and on the nodes that the loop
    of the scheduler takes, only decide whether the machine ends.  What it returns with
    some bounds, the number of iterations and every part of the state, it returns with
    greater ones. *)
Theorem machine_fuel (f1 f2 r1 r2 n m : nat) (w w' : world) (k : Z)
    (Hf : (f1 <= f2)%nat) (Hr : (r1 <= r2)%nat) (Hn : (n <= m)%nat)
    (Hrun : machine_start f1 r1 n w = Ok (k, w')) :
  machine_start f2 r2 m w = Ok (k, w').
Proof.
  enough (refines (machine_start f1 r1 n) (machine_start f2 r2 m)) as E by by apply E.
  unfold SerialLoop.machine_start, execute_const_code, SerialLoop.loop.
  walk; [by apply refines_execute_bytecode | by apply refines_do_loop].
Qed.

End Machine.

Lemma machine_fuel_witness :
  machine_start sample_vm one_machine no_library [] no_rand id id id 500 60 10 sample_world
  = Ok (1, sample_result).
Proof.
  apply (machine_fuel sample_vm one_machine no_library [] no_rand id id id 50 500 50 60 10 10
           sample_world sample_result 1); [lia.. | exact (proj1 sample_machine_runs)].
Defined.
