(* ===== verification/Threads.v ===== *)
(** The threads of [thread/static.{hpp,cpp}] with what they share,
    [sched/thread/threaded.hpp] and [sched/thread/termination_barrier.hpp]: a step of
    one thread up to its next access to what other threads read or write.

    Each thread owns nodes and their queues, which only it touches and which are those
    of the serial scheduler ([Serial]); it shares a buffer of work for its nodes, its
    state with a lock, and the counters of the barrier and of the round.  As the source
    is built: without TASK_STEALING (commented out in [static.hpp]) and ASSERT_THREADS.
    Reads and writes take effect in the order of the program. *)

From Stdlib Require Import ZArith Lia Bool.
From stdpp Require Import base tactics list numbers option gmap.
From S2P Require Import Prelude Words LinearQueue DoubleQueue BoundedQueue World Serial.

#[local] Open Scope Z_scope.

(** ** State *)

Inductive thread_state : Type := THREAD_ACTIVE | THREAD_INACTIVE.
#[global] Instance thread_state_dec : EqDecision thread_state.
Proof. solve_decision. Defined.

(** where [retrieve_tuples], [set_active_if_inactive] and the waking of an owner
    return to: [set_next_node] (or [get_work]), [busy_wait], the node that runs *)
Inductive place : Type := Next_node | Busy_wait | In_node.

(** what a thread does next *)
Inductive phase : Type :=
  | Start                               (** [get_work] *)
  | Retrieving (k : place)              (** the loop of [retrieve_tuples] *)
  | Holding (k : place) (w : work)      (** a work just popped *)
  | Waking (k : place) (o : nat)        (** pushed to the buffer of [o]: its lock *)
  | Waking_locked (k : place) (o : nat)  (** [owner->is_inactive()] *)
  | Waking_queue (k : place) (o : nat)   (** [owner->has_work()], the queue of nodes *)
  | Waking_buffer (k : place) (o : nat)  (** [owner->has_work()], the buffer *)
  | Waking_set (k : place) (o : nat)     (** [set_active], the state *)
  | Waking_count (k : place) (o : nat)   (** [set_active], the barrier *)
  | Checking                            (** [has_work] in [set_next_node] *)
  | Waiting                             (** the loop of [busy_wait] *)
  | Sleeping                            (** BUSY_LOOP_MAKE_INACTIVE *)
  | Sleeping_lock
  | Sleeping_locked
  | Sleeping_count                      (** [--active_threads] *)
  | Sleeping_done                       (** [done = true] *)
  | Terminating                         (** BUSY_LOOP_CHECK_TERMINATION_THREADS *)
  | Activating (k : place)              (** [set_active_if_inactive] *)
  | Activating_lock (k : place)
  | Activating_locked (k : place)
  | Activating_count (k : place)
  | Activated (k : place)               (** the assertions after it *)
  | Popping                             (** [queue_nodes.pop(current_node)] *)
  | Running                             (** [do_work] and [finish_work] *)
  | Ending                              (** [assert_end_iteration] *)
  | Starting_round                      (** START_ROUND *)
  | Aggregating                         (** [generate_aggs] *)
  | Deciding                            (** [if(has_work()) set_active()] *)
  | Deciding_count
  | Counting                            (** DO_END_ROUND *)
  | Leading                             (** [while(total_in_agg != 0)] *)
  | Resetting                           (** [reset_barrier()] *)
  | Resetting_total
  | Resetting_round
  | Stopping                            (** [round_state = 0] *)
  | Following                           (** [while(round_state == thread_round_state)] *)
  | Following_round
  | Finished.                           (** the end of [do_loop] *)

(** [static_local] and [threaded]: [here] are the nodes of the thread with the queue
    of those that have work and the node that runs *)
Record static_local : Type := mk_static {
  here : serial_local;
  buffer : list work;
  tstate : thread_state;
  lock : option nat;
  thread_round_state : Z;
  at_ : phase
}.

Record machine : Type := mk_machine {
  all_threads : list static_local;
  owner : gmap Z nat;
  active_threads : Z;
  term_done : bool;
  total_in_agg : Z;
  round_state : Z
}.

Definition set_here (s : serial_local) (x : static_local) : static_local :=
  mk_static s (buffer x) (tstate x) (lock x) (thread_round_state x) (at_ x).
Definition set_buffer (b : list work) (x : static_local) : static_local :=
  mk_static (here x) b (tstate x) (lock x) (thread_round_state x) (at_ x).
Definition set_tstate (ts : thread_state) (x : static_local) : static_local :=
  mk_static (here x) (buffer x) ts (lock x) (thread_round_state x) (at_ x).
Definition set_lock (l : option nat) (x : static_local) : static_local :=
  mk_static (here x) (buffer x) (tstate x) l (thread_round_state x) (at_ x).
Definition set_trs (r : Z) (x : static_local) : static_local :=
  mk_static (here x) (buffer x) (tstate x) (lock x) r (at_ x).
Definition goto (p : phase) (x : static_local) : static_local :=
  mk_static (here x) (buffer x) (tstate x) (lock x) (thread_round_state x) p.

Definition set_threads (ts : list static_local) (m : machine) : machine :=
  mk_machine ts (owner m) (active_threads m) (term_done m) (total_in_agg m) (round_state m).
Definition alter_thread (t : nat) (f : static_local → static_local) (m : machine) : machine :=
  set_threads (alter f t (all_threads m)) m.
Definition set_owner (id : Z) (t : nat) (m : machine) : machine :=
  mk_machine (all_threads m) (<[id := t]> (owner m)) (active_threads m) (term_done m)
    (total_in_agg m) (round_state m).
Definition set_active_threads (n : Z) (m : machine) : machine :=
  mk_machine (all_threads m) (owner m) n (term_done m) (total_in_agg m) (round_state m).
Definition set_done (b : bool) (m : machine) : machine :=
  mk_machine (all_threads m) (owner m) (active_threads m) b (total_in_agg m) (round_state m).
Definition set_total (n : Z) (m : machine) : machine :=
  mk_machine (all_threads m) (owner m) (active_threads m) (term_done m) n (round_state m).
Definition set_round (n : Z) (m : machine) : machine :=
  mk_machine (all_threads m) (owner m) (active_threads m) (term_done m) (total_in_agg m) n.

Definition num_threads (m : machine) : Z := Z.of_nat (length (all_threads m)).

(** ** Outcomes of a step

    None: the thread spins, or the choice is not one of its phase. *)

Definition outcome : Type := option (res machine).
Definition to (m : machine) : outcome := Some (Ok m).
Definition check (b : bool) (o : outcome) : outcome := if b then o else Some (Err assert_fail).
Definition via {A} (r : res A) (k : A → outcome) : outcome :=
  match r with Ok a => k a | Err f => Some (Err f) end.
Definition when (b : bool) (o : outcome) : outcome := if b then o else None.

(** thread [t] goes on to [p] *)
Definition moves (t : nat) (p : phase) (m : machine) : outcome := to (alter_thread t (goto p) m).

(** ** The nodes of a thread *)

Definition is_active (x : static_local) : bool := bool_decide (tstate x = THREAD_ACTIVE).
Definition is_inactive (x : static_local) : bool := bool_decide (tstate x = THREAD_INACTIVE).
Definition buffer_empty (x : static_local) : bool := match buffer x with [] => true | _ => false end.

(** [has_work]: the buffer of stolen nodes is always empty *)
Definition thread_has_work (x : static_local) : bool := has_work (here x) || negb (buffer_empty x).

(** [new_work], [new_agg] and the first branch of [retrieve_tuples] *)
Definition static_new_work (w : work) (s : serial_local) : res serial_local :=
  let '(id, stpl, level) := w in
  let to := node_addr id in
  let* n := serial_of to s in
  let* n := node_add_work stpl level n in
  let s := put_serial to n s in
  if i_am_on_queue n then Ok s
  else
    let* s := push_node to s in
    set_in_queue to true s.

(** [check_if_current_useless] *)
Definition check_if_current_useless (s : serial_local) : res serial_local :=
  let* c := of_option (current_node s) in
  let* n := serial_of c s in
  if node_has_work n then Ok s
  else
    let* s := set_in_queue c false s in
    Ok (set_current_node None s).

(** the assertions on the node that runs *)
Definition current_in_queue (s : serial_local) : res (positive * serial_node) :=
  let* c := match current_node s with Some c => Ok c | None => Err assert_fail end in
  let* n := serial_of c s in
  asserting (i_am_on_queue n) (Ok (c, n)).

(** [thread_node::assert_end_iteration] of the nodes in the range of a thread *)
Fixpoint assert_static_nodes (ids : list Z) (m : machine) : res unit :=
  match ids with
  | [] => Ok ()
  | id :: ids =>
      let* o := of_option (owner m !! id) in
      let* x := of_option (all_threads m !! o) in
      let* n := serial_of (node_addr id) (here x) in
      asserting (negb (i_am_on_queue n) && negb (node_has_work n)) (assert_static_nodes ids m)
  end.

(** ** Steps *)

(** what a node that runs may do, and what its aggregates may add *)
Inductive action : Type :=
  | Go                       (** on *)
  | New_work (w : work)      (** for a node of this thread *)
  | Send (w : work)          (** for a node of another *)
  | Gather                   (** [gather_next_tuples] *)
  | Create (w : work)        (** a new node with its first tuple *)
  | New_agg (w : work).

Section Static.
Context (static_ids : nat → list Z) (** the ids in the range of a thread *).

(** [owner->buffer.push(new_work)], then the lock of the owner *)
Definition push_buffer (o : nat) (w : work) : machine → machine :=
  alter_thread o (λ y, set_buffer (buffer y ++ [w]) y).

(** back from [k] *)
Definition after_wake (k : place) : phase :=
  match k with In_node => Running | _ => Retrieving k end.

(** [retrieve_tuples] *)
Definition retrieve_step (t : nat) (x : static_local) (k : place) (m : machine) : outcome :=
  match buffer x with
  | [] => moves t (match k with Busy_wait => Sleeping | _ => Checking end) m
  | w :: b => moves t (Holding k w) (alter_thread t (set_buffer b) m)
  end.

Definition hold_step (t : nat) (x : static_local) (k : place) (w : work) (m : machine) : outcome :=
  via (of_option (owner m !! w.1.1)) (λ o,
    if (o =? t)%nat then
      via (static_new_work w (here x)) (λ s,
        moves t (Retrieving k) (alter_thread t (set_here s) m))
    else moves t (Waking k o) (push_buffer o w m)).

(** with the lock of [o]: [if(owner->is_inactive() && owner->has_work()) owner->set_active()] *)
Definition wake_step (t : nat) (k : place) (o : nat) (m : machine) : outcome :=
  via (of_option (all_threads m !! o)) (λ y,
    when (bool_decide (lock y = None))
      (moves t (Waking_locked k o) (alter_thread o (set_lock (Some t)) m))).

Definition release (t o : nat) (p : phase) (m : machine) : outcome :=
  moves t p (alter_thread o (set_lock None) m).

Definition wake_locked_step (t : nat) (p : phase) (k : place) (o : nat) (m : machine) : outcome :=
  via (of_option (all_threads m !! o)) (λ y,
    match p with
    | Waking_locked _ _ =>
        if is_inactive y then moves t (Waking_queue k o) m
        else release t o (after_wake k) m
    | Waking_queue _ _ =>
        moves t (if has_work (here y) then Waking_set k o else Waking_buffer k o) m
    | Waking_buffer _ _ =>
        if buffer_empty y then release t o (after_wake k) m
        else moves t (Waking_set k o) m
    | Waking_set _ _ =>
        check (is_inactive y)
          (moves t (Waking_count k o) (alter_thread o (set_tstate THREAD_ACTIVE) m))
    | _ =>
        check (active_threads m <? num_threads m)
          (release t o (after_wake k) (set_active_threads (active_threads m + 1) m))
    end).

(** BUSY_LOOP_MAKE_INACTIVE *)
Definition sleep_step (t : nat) (x : static_local) (p : phase) (m : machine) : outcome :=
  match p with
  | Sleeping => moves t (if is_active x && negb (thread_has_work x) then Sleeping_lock
                                          else Terminating) m
  | Sleeping_lock =>
      when (bool_decide (lock x = None))
        (moves t Sleeping_locked (alter_thread t (set_lock (Some t)) m))
  | Sleeping_locked =>
      if thread_has_work x then release t t (Activating Busy_wait) m
      else if is_active x then
        moves t Sleeping_count (alter_thread t (set_tstate THREAD_INACTIVE) m)
      else release t t Terminating m
  | Sleeping_count =>
      check (0 <? active_threads m)
        (let m := set_active_threads (active_threads m - 1) m in
         if active_threads m =? 0 then moves t Sleeping_done m
         else release t t Terminating m)
  | _ => (** Sleeping_done *) release t t Terminating (set_done true m)
  end.

(** the test of the loop of [busy_wait] and BUSY_LOOP_CHECK_TERMINATION_THREADS *)
Definition busy_step (t : nat) (x : static_local) (p : phase) (m : machine) : outcome :=
  match p with
  | Waiting => moves t (if thread_has_work x then Activating Busy_wait
                                         else Retrieving Busy_wait) m
  | _ => (** Terminating *)
      if term_done m then check (is_inactive x) (moves t Ending m)
      else moves t Waiting m
  end.

(** [set_active_if_inactive], and what follows it *)
Definition activate_step (t : nat) (x : static_local) (p : phase) (k : place) (m : machine) : outcome :=
  match p with
  | Activating _ => moves t (if is_inactive x then Activating_lock k else Activated k) m
  | Activating_lock _ =>
      when (bool_decide (lock x = None))
        (moves t (Activating_locked k) (alter_thread t (set_lock (Some t)) m))
  | Activating_locked _ =>
      if is_inactive x then
        moves t (Activating_count k) (alter_thread t (set_tstate THREAD_ACTIVE) m)
      else release t t (Activated k) m
  | Activating_count _ =>
      check (active_threads m <? num_threads m)
        (release t t (Activated k) (set_active_threads (active_threads m + 1) m))
  | _ =>
      match k with
      | Busy_wait => check (is_active x && thread_has_work x) (moves t Popping m)
      | _ => via (current_in_queue (here x)) (λ c,
               check (node_has_work c.2) (moves t Running m))
      end
  end.

(** the test of the loop of [set_next_node] *)
Definition after_useless (s : serial_local) : phase :=
  match current_node s with
  | None => Retrieving Next_node
  | Some _ => Activating Next_node
  end.

(** the other steps of [set_next_node] *)
Definition next_node_step (t : nat) (x : static_local) (p : phase) (m : machine) : outcome :=
  match p with
  | Start =>
      match current_node (here x) with
      | None => moves t (Retrieving Next_node) m
      | Some _ =>
          via (check_if_current_useless (here x)) (λ s,
            moves t (after_useless s) (alter_thread t (set_here s) m))
      end
  | Checking => moves t (if thread_has_work x then Popping else Waiting) m
  | _ => (** Popping *)
      if has_work (here x) then
        via (pop_node (here x)) (λ r,
          via (current_in_queue r.2) (λ _,
            via (check_if_current_useless r.2) (λ s,
              moves t (after_useless s) (alter_thread t (set_here s) m))))
      else moves t (Retrieving Next_node) m
  end.

(** the node that runs *)
Definition run_step (t : nat) (x : static_local) (a : action) (m : machine) : outcome :=
  match a with
  | Go =>
      via (current_in_queue (here x)) (λ c,
        check (bool_decide (owner m !! node_id c.1 = Some t)) (moves t Start m))
  | New_work w =>
      when (bool_decide (owner m !! w.1.1 = Some t))
        (via (static_new_work w (here x)) (λ s, to (alter_thread t (set_here s) m)))
  | Send w =>
      check (is_active x)
        (match owner m !! w.1.1 with
         | None => Some (Err assert_fail)
         | Some o =>
             if (o =? t)%nat then to (push_buffer o w m)
             else moves t (Waking In_node o) (push_buffer o w m)
         end)
  | Gather =>
      via (of_option (current_node (here x))) (λ c,
        via (serial_gather_next_tuples (node_id c) (here x)) (λ r,
          to (alter_thread t (set_here r.2) m)))
  | Create w =>
      when (bool_decide (owner m !! w.1.1 = None))
        (via (create_serial_node w.1.1 (here x)) (λ s,
          via (static_new_work w s) (λ s,
            to (set_owner w.1.1 t (alter_thread t (set_here s) m)))))
  | New_agg _ => None
  end.

Definition agg_step (t : nat) (x : static_local) (a : action) (m : machine) : outcome :=
  match a with
  | Go => moves t Deciding m
  | New_agg w =>
      when (bool_decide (owner m !! w.1.1 = Some t))
        (via (static_new_work w (here x)) (λ s, to (alter_thread t (set_here s) m)))
  | _ => None
  end.

(** GET_NEXT *)
Definition get_next (r : Z) : Z := if r =? 1 then 2 else 1.

(** [assert_end_iteration], then [terminate_iteration] up to END_ROUND *)
Definition terminate_step (t : nat) (x : static_local) (p : phase) (m : machine) : outcome :=
  match p with
  | Ending =>
      check (negb (thread_has_work x) && is_inactive x && term_done m)
        (via (assert_static_nodes (static_ids t) m) (λ _, moves t Starting_round m))
  | Starting_round => check (is_inactive x) (moves t Aggregating m)
  | Deciding =>
      if thread_has_work x then
        check (is_inactive x)
          (moves t Deciding_count (alter_thread t (set_tstate THREAD_ACTIVE) m))
      else moves t Counting m
  | _ => (** Deciding_count *)
      check (active_threads m <? num_threads m)
        (moves t Counting (set_active_threads (active_threads m + 1) m))
  end.

(** DO_END_ROUND *)
Definition round_step (t : nat) (x : static_local) (p : phase) (m : machine) : outcome :=
  match p with
  | Counting =>
      check (0 <? total_in_agg m)
        (moves t (if (t =? 0)%nat then Leading else Following) (set_total (total_in_agg m - 1) m))
  | Leading =>
      when (total_in_agg m =? 0)
        (moves t (if 0 <? active_threads m then Resetting else Stopping) m)
  | Resetting => moves t Resetting_total (set_done false m)
  | Resetting_total => moves t Resetting_round (set_total (num_threads m) m)
  | Resetting_round => moves t Start (set_round (get_next (round_state m)) m)
  | Stopping => moves t Finished (set_round 0 m)
  | Following =>
      when (negb (round_state m =? thread_round_state x)) (moves t Following_round m)
  | _ => (** Following_round *)
      if round_state m =? get_next (thread_round_state x) then
        moves t Start (alter_thread t (set_trs (round_state m)) m)
      else moves t Finished m
  end.

(** a step of thread [t], with the choice of the program where it has one *)
Definition thread_step (t : nat) (a : action) (m : machine) : outcome :=
  match all_threads m !! t with
  | None => None
  | Some x =>
      match at_ x, a with
      | Running, a => run_step t x a m
      | Aggregating, a => agg_step t x a m
      | Retrieving k, Go => retrieve_step t x k m
      | Holding k w, Go => hold_step t x k w m
      | Waking k o, Go => wake_step t k o m
      | (Waking_locked k o | Waking_queue k o | Waking_buffer k o | Waking_set k o
         | Waking_count k o) as p, Go => wake_locked_step t p k o m
      | (Sleeping | Sleeping_lock | Sleeping_locked | Sleeping_count | Sleeping_done) as p, Go =>
          sleep_step t x p m
      | (Waiting | Terminating) as p, Go => busy_step t x p m
      | (Activating k | Activating_lock k | Activating_locked k | Activating_count k
         | Activated k) as p, Go => activate_step t x p k m
      | (Start | Checking | Popping) as p, Go => next_node_step t x p m
      | (Ending | Starting_round | Deciding | Deciding_count) as p, Go => terminate_step t x p m
      | (Counting | Leading | Resetting | Resetting_total | Resetting_round | Stopping | Following | Following_round) as p, Go =>
          round_step t x p m
      | _, _ => None
      end
  end.

(** a schedule: what the threads do, in order *)
Fixpoint run_threads (l : list (nat * action)) (m : machine) : outcome :=
  match l with
  | [] => to m
  | (t, a) :: l =>
      match thread_step t a m with
      | Some (Ok m) => run_threads l m
      | o => o
      end
  end.

End Static.
