(* ===== verification/ThreadsEnd.v ===== *)
(** Invariants of the threads of [Threads]: what ends an iteration and what ends the
    machine, whatever the threads do in whatever order. *)

From Stdlib Require Import ZArith Lia Bool.
From stdpp Require Import base tactics list numbers option gmap.
From S2P Require Import Prelude Words LinearQueue DoubleQueue BoundedQueue World Serial Threads.

#[local] Open Scope Z_scope.

(** ** The nodes of one thread *)

(** a queue of a node holds less than 2^64 - 1 tuples *)
Definition roomy (s : serial_local) : Prop :=
  ∀ a n, snodes s !! a = Some n → bounded_size (queue n) < 2 ^ 64 - 1.

(** the level of a work is one of the program's *)
Definition fits (max_level : Z) (w : work) : Prop := 0 <= w.2 < max_level.

(** the order of the two calls does not matter: the link and the mark are apart *)
Lemma static_new_work_serial id stpl level s s' :
  static_new_work (id, stpl, level) s = Ok s' → serial_new_work id stpl level s = Ok s'.
Proof.
  unfold static_new_work, serial_new_work. intros E.
  apply res_bind_ok in E as (n & E1 & E). apply res_bind_ok in E as (n' & E2 & E).
  rewrite E1. cbn [res_bind]. rewrite E2. cbn [res_bind]. cbn zeta in E |- *.
  destruct (i_am_on_queue n'); [done |].
  apply res_bind_ok in E as (s1 & E3 & E). unfold push_node in E3 |- *.
  apply res_bind_ok in E3 as (r & E3 & [= <-]).
  unfold set_in_queue, serial_of in E |- *. cbn [snodes set_queue_nodes put_serial set_snodes] in E |- *.
  apply res_bind_ok in E as (n3 & E4 & E). apply asserting_ok in E as [E5 [= <-]].
  rewrite E4. cbn [res_bind]. rewrite E5. cbn [asserting res_bind].
  cbn in E3 |- *. rewrite E3. done.
Qed.

Lemma new_work_rep max_level id stpl level s s' p :
  serial_rep s p → max_strat_level s = max_level → fits max_level (id, stpl, level) → roomy s →
  static_new_work (id, stpl, level) s = Ok s' →
  serial_rep s' (add_works (node_addr id) stpl (Z.to_nat level) p) ∧ max_strat_level s' = max_level ∧
  dom (snodes s') = dom (snodes s).
Proof.
  intros H Hm Hf Hr E%static_new_work_serial. unfold serial_new_work in E.
  pose proof E as E0. apply res_bind_ok in E0 as (n & En%of_option_ok & E0).
  pose proof (rep_nodes _ _ H (node_addr id)) as Hn. rewrite En in Hn.
  destruct (works p !! node_addr id) as [W |] eqn:HW; [| done]. destruct Hn as ((_ & Hs & _) & _ & _).
  pose proof (Hr _ _ En) as Hlt. unfold bounded_size in Hlt. unfold fits in Hf. cbn in Hf.
  destruct (new_work_ok s p id stpl level W H HW ltac:(lia)) as (s1 & E1 & H1); [lia |].
  unfold serial_new_work in E1. rewrite E1 in E. injection E as <-. split; [done |].
  clear H1 Hs. revert E1. intros E1. unfold serial_of in E1. rewrite En in E1. cbn [of_option res_bind] in E1.
  apply res_bind_ok in E1 as (n1 & _ & E1). destruct (i_am_on_queue n1).
  - injection E1 as <-. split; [done |]. cbn. rewrite dom_insert_lookup_L by eauto. done.
  - apply res_bind_ok in E1 as (s2 & E2 & E1). unfold set_in_queue, serial_of in E2.
    apply res_bind_ok in E2 as (n2 & _ & E2). apply asserting_ok in E2 as [_ [= <-]].
    unfold push_node in E1. apply res_bind_ok in E1 as (r & _ & [= <-]). cbn. split; [done |].
    rewrite dom_insert_lookup_L by (rewrite lookup_insert_eq; eauto). by rewrite dom_insert_lookup_L by eauto.
Qed.

Lemma useless_rep s s' p :
  serial_rep s p → check_if_current_useless s = Ok s' →
  ∃ p', serial_rep s' p' ∧ max_strat_level s' = max_strat_level s ∧ dom (snodes s') = dom (snodes s).
Proof.
  intros H E. unfold check_if_current_useless in E. rewrite (rep_current _ _ H) in E.
  apply res_bind_ok in E as (c & Hc%of_option_ok & E). apply res_bind_ok in E as (n & Hn%of_option_ok & E).
  rewrite (rep_node_work _ _ H _ _ Hn) in E. destruct (bool_decide (busy p c)) eqn:Hb.
  - injection E as <-. by exists p.
  - apply bool_decide_eq_false in Hb. apply res_bind_ok in E as (s1 & E1 & [= <-]).
    unfold set_in_queue, serial_of in E1. rewrite Hn in E1. cbn [of_option res_bind] in E1.
    apply asserting_ok in E1 as [_ [= <-]]. exists (idle p).
    split; [by apply (idle_ok s p c n) |]. split; [done |]. cbn. rewrite dom_insert_lookup_L by eauto. done.
Qed.

Lemma pop_node_rep s r p :
  serial_rep s p → running p = None → has_work s = true → pop_node s = Ok r →
  ∃ p', serial_rep r.2 p' ∧ max_strat_level r.2 = max_strat_level s ∧ dom (snodes r.2) = dom (snodes s).
Proof.
  intros H Hr Hw E. destruct (start_next_ok s p H Hr) as (s' & E' & H'). unfold start_next in E'.
  rewrite Hw, E in E'. cbn [negb res_bind] in E'. eexists. split.
  - destruct r as [b s1]. cbn in *. destruct b; [| by injection E' as _ ->].
    unfold check_current in E'. destruct (current_node s1); [| done].
    apply res_bind_ok in E' as (n & _ & E'). apply asserting_ok in E' as [_ [= _ ->]]. exact H'.
  - unfold pop_node in E. apply res_bind_ok in E as ([[a q] os] & _ & E). by destruct a; injection E as <-.
Qed.

Lemma gather_rep id s r p :
  serial_rep s p → running p = Some (node_addr id) → serial_gather_next_tuples id s = Ok r →
  ∃ p', serial_rep r.2 p' ∧ running p' = running p ∧
        max_strat_level r.2 = max_strat_level s ∧ dom (snodes r.2) = dom (snodes s).
Proof.
  intros H Hr E. destruct (gather_ok s p id H Hr) as (s' & E' & H'). rewrite E' in E.
  injection E as <-. eexists. split; [exact H' |]. cbn. split.
  { unfold take_works. destruct (works p !! _); [| done]. by destruct (take_first _) as [[]|]. }
  unfold serial_gather_next_tuples in E'. apply res_bind_ok in E' as (n & Hn%of_option_ok & E').
  apply res_bind_ok in E' as (q & _ & [= _ <-]). split; [done |].
  cbn. rewrite dom_insert_lookup_L by eauto. done.
Qed.

Lemma create_rep id s s' p :
  serial_rep s p → node_addr id ∉ dom (snodes s) → 0 < max_strat_level s <= 2 ^ 63 →
  create_serial_node id s = Ok s' →
  ∃ p', serial_rep s' p' ∧ running p' = running p ∧
        max_strat_level s' = max_strat_level s ∧ dom (snodes s') = {[node_addr id]} ∪ dom (snodes s).
Proof.
  intros H Hd Hm E. assert (Hw : node_addr id ∉ dom (works p)).
  { apply not_elem_of_dom in Hd. apply not_elem_of_dom. pose proof (rep_nodes _ _ H (node_addr id)) as Hn.
    rewrite Hd in Hn. by destruct (works p !! _). }
  destruct (create_ok s p id H Hw Hm) as (s1 & W & E1 & _ & H1). rewrite E1 in E. injection E as <-.
  eexists. split; [exact H1 |]. split; [done |]. unfold create_serial_node in E1.
  apply res_bind_ok in E1 as (q & _ & [= <-]). cbn. split; [done |]. apply dom_insert_L.
Qed.

(** without work and without a node that runs, no node has a tuple or a mark *)
Lemma rep_quiet s p a n :
  serial_rep s p → running p = None → has_work s = false → snodes s !! a = Some n →
  node_has_work n = false ∧ i_am_on_queue n = false.
Proof.
  intros H Hr Hw Hn. rewrite (rep_has_work _ _ H) in Hw. apply bool_decide_eq_false in Hw.
  assert (Hq : ¬ on_queue p a).
  { intros [Hq | Hq]; [| congruence]. apply Hw. intros E. rewrite E in Hq. by apply not_elem_of_nil in Hq. }
  rewrite (rep_node_work _ _ H _ _ Hn), (rep_flag _ _ H _ _ Hn). split; apply bool_decide_eq_false; [| done].
  intros Hb. by apply Hq, (rep_busy _ _ H).
Qed.

(** ** Lists of threads *)

Definition sumz {A} (f : A → Z) (l : list A) : Z := foldr (λ x n, f x + n) 0 l.

Lemma sumz_alter {A} (f : A → Z) (g : A → A) t (l : list A) x :
  l !! t = Some x → sumz f (alter g t l) = sumz f l - f x + f (g x).
Proof.
  revert t. induction l as [| y l IH]; intros [| t] H; try done; cbn in *.
  - injection H as ->. lia.
  - specialize (IH _ H). unfold sumz in IH. change (list_alter g t l) with (alter g t l). lia.
Qed.

Lemma sumz_same {A} (f : A → Z) (g : A → A) t (l : list A) :
  (∀ x, f (g x) = f x) → sumz f (alter g t l) = sumz f l.
Proof.
  intros Hg. destruct (l !! t) as [x |] eqn:E; [rewrite (sumz_alter _ _ _ _ x E), Hg; lia |].
  f_equal. apply list_eq. intros i. destruct (decide (i = t)) as [-> |].
  - by rewrite list_lookup_alter_eq, E.
  - by rewrite list_lookup_alter_ne.
Qed.

Lemma alter_twice {A} (f g : A → A) t (l : list A) : alter f t (alter g t l) = alter (f ∘ g) t l.
Proof.
  revert t. induction l as [| x l IH]; intros [| t]; [done.. |]. cbn. f_equal. apply IH.
Qed.

Lemma sumz_nonneg {A} (f : A → Z) (l : list A) : (∀ i x, l !! i = Some x → 0 <= f x) → 0 <= sumz f l.
Proof.
  induction l as [| y l IH]; intros Hf; [done |]. pose proof (Hf 0%nat y eq_refl).
  specialize (IH (λ i, Hf (S i))). cbn. unfold sumz in IH. lia.
Qed.

(** a sum of parts that are not negative is 0 when every part is *)
Lemma sumz_zero {A} (f : A → Z) (l : list A) :
  (∀ i x, l !! i = Some x → 0 <= f x) → sumz f l = 0 → ∀ i x, l !! i = Some x → f x = 0.
Proof.
  induction l as [| y l IH]; intros Hf H; [done |]. cbn in H. fold (sumz f l) in H.
  pose proof (sumz_nonneg f l (λ i, Hf (S i))). pose proof (Hf 0%nat y eq_refl).
  intros [| i] x Hx; [injection Hx as <-; lia |]. apply (IH (λ i, Hf (S i)) ltac:(lia) i x Hx).
Qed.

(** a property of every thread after a change of one *)
Lemma all_alter {A} (P : nat → A → Prop) (f : A → A) t (l : list A) :
  (∀ j y, l !! j = Some y → P j y) → (∀ y, l !! t = Some y → P t (f y)) →
  ∀ j y, alter f t l !! j = Some y → P j y.
Proof.
  intros Hl Hf j y. destruct (decide (j = t)) as [-> | Hne].
  - rewrite list_lookup_alter_eq. intros (z & Hz & ->)%fmap_Some. by apply Hf.
  - rewrite list_lookup_alter_ne by done. apply Hl.
Qed.

(** ** Phases and steps *)

Definition phase_at (t : nat) (ts : list static_local) : option phase := at_ <$> ts !! t.

Lemma phase_at_alter f t o ts :
  (∀ y, at_ (f y) = at_ y) → phase_at t (alter f o ts) = phase_at t ts.
Proof.
  intros Hf. unfold phase_at. rewrite list_lookup_alter. case_decide; subst; [| done].
  destruct (ts !! t); cbn; [by rewrite Hf | done].
Qed.

(** the phase of the thread that steps, below updates that do not change it *)
Ltac at_phase :=
  cbn [all_threads set_active_threads set_done set_total set_round alter_thread set_threads push_buffer];
  rewrite ?phase_at_alter by done; unfold phase_at;
  match goal with Hx : all_threads _ !! _ = Some ?x, Hp : at_ ?x = _ |- _ => rewrite Hx; cbn; rewrite Hp; reflexivity end.

(** the cases of a step *)
Ltac step_inv H :=
  unfold thread_step, retrieve_step, hold_step, wake_step, wake_locked_step, sleep_step, busy_step, activate_step,
    next_node_step, run_step, agg_step, terminate_step, round_step, release, moves, via, check, when, to in H;
  cbn beta zeta iota in H;
  repeat match goal with
    | E : Some (Err _) = Some (Ok _) |- _ => discriminate E
    | E : None = Some (Ok _) |- _ => discriminate E
    | E : Some (Ok _) = Some (Ok _) |- _ => injection E as <-
    | E : match ?b with _ => _ end = Some (Ok _) |- _ => destruct b eqn:?
    end.

(** ** What holds of each thread *)

(** the phases in which no node runs *)
Definition between_nodes (p : phase) : bool :=
  match p with
  | Start | Running => false
  | Retrieving k | Holding k _ | Waking k _ | Waking_locked k _ | Waking_queue k _
    | Waking_buffer k _ | Waking_set k _ | Waking_count k _ =>
      match k with In_node => false | _ => true end
  | Activating k | Activating_lock k | Activating_locked k | Activating_count k | Activated k =>
      match k with Busy_wait => true | _ => false end
  | _ => true
  end.

(** the threads that a phase is of, and which others it may wake *)
Definition phase_ok (t : nat) (p : phase) : Prop :=
  match p with
  | Retrieving k | Holding k _ => k ≠ In_node
  | Waking _ o | Waking_locked _ o | Waking_queue _ o | Waking_buffer _ o | Waking_set _ o
    | Waking_count _ o => o ≠ t
  | Activating k | Activating_lock k | Activating_locked k | Activating_count k | Activated k => k ≠ In_node
  | Leading | Resetting | Resetting_total | Resetting_round | Stopping => t = 0%nat
  | Following | Following_round => t ≠ 0%nat
  | _ => True
  end.

Section Ends.
Context (static_ids : nat → list Z) (max_level : Z).

Record thread_ok (own : gmap Z nat) (t : nat) (x : static_local) : Prop := {
  ok_rep : ∃ p, serial_rep (here x) p ∧ (between_nodes (at_ x) = true → running p = None);
  ok_max : max_strat_level (here x) = max_level;
  ok_own : ∀ a, a ∈ dom (snodes (here x)) → own !! node_id a = Some t;
  ok_buffer : Forall (fits max_level) (buffer x);
  ok_held : ∀ k w, at_ x = Holding k w → fits max_level w;
  ok_phase : phase_ok t (at_ x)
}.

Definition threads_ok (m : machine) : Prop :=
  ∀ t x, all_threads m !! t = Some x → thread_ok (owner m) t x.

(** ** Updates of one thread *)

Lemma threads_ok_alter f t m :
  threads_ok m → (∀ y, all_threads m !! t = Some y → thread_ok (owner m) t y → thread_ok (owner m) t (f y)) →
  threads_ok (alter_thread t f m).
Proof.
  intros H Hf. refine (all_alter (thread_ok (owner m)) f t _ H _). intros y Hy. by apply Hf, H.
Qed.

Lemma threads_ok_goto t m ph p :
  threads_ok m → phase_at t (all_threads m) = Some ph → phase_ok t p →
  implb (between_nodes p) (between_nodes ph) = true ∨
    (∀ x, all_threads m !! t = Some x → current_node (here x) = None) →
  (∀ k w, p = Holding k w → fits max_level w) →
  threads_ok (alter_thread t (goto p) m).
Proof.
  intros H Ht Hp Hb Hw. apply threads_ok_alter; [done |]. intros y Hy [(q & Hq & Hi) ? ? ? ? ?].
  unfold phase_at in Ht. rewrite Hy in Ht. injection Ht as E.
  split; try done. exists q. split; [done |]. cbn. intros Hp'. destruct Hb as [Hb | Hb].
  - rewrite Hp' in Hb. apply Hi. by rewrite E.
  - rewrite <- (rep_current _ _ Hq). by apply Hb.
Qed.

(** the updates that the facts of a thread do not depend on *)
Lemma threads_ok_lock l o m : threads_ok m → threads_ok (alter_thread o (set_lock l) m).
Proof. intros H. apply threads_ok_alter; [done |]. by intros y _ []; split. Qed.
Lemma threads_ok_tstate s o m : threads_ok m → threads_ok (alter_thread o (set_tstate s) m).
Proof. intros H. apply threads_ok_alter; [done |]. by intros y _ []; split. Qed.
Lemma threads_ok_trs r o m : threads_ok m → threads_ok (alter_thread o (set_trs r) m).
Proof. intros H. apply threads_ok_alter; [done |]. by intros y _ []; split. Qed.

Lemma threads_ok_push o w m : threads_ok m → fits max_level w → threads_ok (push_buffer o w m).
Proof.
  intros H Hw. apply threads_ok_alter; [done |]. intros y _ [? ? ? Hb ? ?]. split; try done. cbn.
  apply Forall_app_2; [done |]. by constructor.
Qed.

Lemma threads_ok_pop t x w b m :
  threads_ok m → all_threads m !! t = Some x → buffer x = w :: b →
  threads_ok (alter_thread t (set_buffer b) m) ∧ fits max_level w.
Proof.
  intros H Hx E. pose proof (ok_buffer _ _ _ (H t x Hx)) as Hb. rewrite E in Hb.
  apply Forall_cons in Hb as [Hw Hb]. split; [| done]. apply threads_ok_alter; [done |].
  intros y _ []. by split.
Qed.

(** the nodes of a thread change while it stays in its phase, or goes on to [p] *)
Lemma threads_ok_here t m x s :
  threads_ok m → all_threads m !! t = Some x →
  (∃ q, serial_rep s q ∧ (between_nodes (at_ x) = true → running q = None)) →
  max_strat_level s = max_level → (∀ a, a ∈ dom (snodes s) → owner m !! node_id a = Some t) →
  threads_ok (alter_thread t (set_here s) m).
Proof.
  intros H Hx Hs Hm Hd. apply threads_ok_alter; [done |]. intros y Hy []. rewrite Hx in Hy.
  injection Hy as <-. by split.
Qed.

Lemma threads_ok_here_goto t m x s p :
  threads_ok m → all_threads m !! t = Some x →
  (∃ q, serial_rep s q ∧ (between_nodes p = true → running q = None)) →
  max_strat_level s = max_level → dom (snodes s) = dom (snodes (here x)) →
  phase_ok t p → (∀ k w, p ≠ Holding k w) →
  threads_ok (alter_thread t (goto p) (alter_thread t (set_here s) m)).
Proof.
  intros H Hx Hs Hm Hd Hp Hh j y. cbn. rewrite alter_twice.
  revert j y. refine (all_alter (thread_ok (owner m)) (goto p ∘ set_here s) t _ H _). intros y Hy. rewrite Hx in Hy. injection Hy as <-.
  destruct (H t x Hx) as [? ? Ho ? ? ?]. split; try done; cbn.
  - rewrite Hd. exact Ho.
  - intros k w ->. by destruct (Hh k w).
Qed.

(** ** Runs *)

Record initial (m : machine) : Prop := {
  init_some : all_threads m ≠ [];
  init_threads : ∀ t x, all_threads m !! t = Some x →
    at_ x = Start ∧ tstate x = THREAD_ACTIVE ∧ lock x = None ∧ thread_round_state x = 1 ∧ buffer x = [] ∧
    (∃ p, serial_rep (here x) p) ∧ max_strat_level (here x) = max_level ∧
    (∀ a, a ∈ dom (snodes (here x)) → owner m !! node_id a = Some t);
  init_active : active_threads m = num_threads m;
  init_done : term_done m = false;
  init_total : total_in_agg m = num_threads m;
  init_round : round_state m = 1
}.

(** ids are not negative, levels are the program's *)
Definition action_fits (a : action) : Prop :=
  match a with
  | New_work w | Send w | Create w | New_agg w => fits max_level w ∧ 0 <= w.1.1
  | Go | Gather => True
  end.

Inductive reach : machine → Prop :=
  | reach_initial m : initial m → reach m
  | reach_step t a m m' :
      reach m → (∀ j x, all_threads m !! j = Some x → roomy (here x)) → action_fits a →
      thread_step static_ids t a m = Some (Ok m') → reach m'.

Lemma initial_ok m : initial m → threads_ok m.
Proof.
  intros H t x Hx. destruct (init_threads _ H t x Hx) as (E & _ & _ & _ & Eb & (p & Hp) & Hm & Ho).
  split; rewrite ?E, ?Eb; try done. by exists p.
Qed.

Ltac threads_updates :=
  repeat first [ apply threads_ok_lock | apply threads_ok_tstate | apply threads_ok_trs ].

Lemma threads_ok_useless t m x s s' q :
  threads_ok m → all_threads m !! t = Some x → serial_rep s q → max_strat_level s = max_level →
  dom (snodes s) = dom (snodes (here x)) → check_if_current_useless s = Ok s' →
  threads_ok (alter_thread t (goto (after_useless s')) (alter_thread t (set_here s') m)).
Proof.
  intros H Hx Hq Hm Hd E. destruct (useless_rep _ _ _ Hq E) as (q' & Hq' & Hm' & Hd').
  apply (threads_ok_here_goto t m x); [done.. | | congruence | congruence | |].
  - exists q'. split; [done |]. unfold after_useless. rewrite (rep_current _ _ Hq').
    by destruct (running q').
  - unfold after_useless. by destruct (current_node s').
  - unfold after_useless. by destruct (current_node s').
Qed.

(** new work for a node of the thread *)
Lemma threads_ok_new_work t m x w s :
  threads_ok m → all_threads m !! t = Some x → roomy (here x) → fits max_level w →
  static_new_work w (here x) = Ok s → threads_ok (alter_thread t (set_here s) m).
Proof.
  intros H Hx Hr Hw E. destruct (H t x Hx) as [(q & Hq & Hi) Hm Ho _ _ _]. destruct w as [[id stpl] level].
  destruct (new_work_rep max_level _ _ _ _ _ _ Hq Hm Hw Hr E) as (Hq' & Hm' & Hd).
  apply (threads_ok_here t m x); [done | done | by eexists | done |]. rewrite Hd. exact Ho.
Qed.

Lemma threads_ok_gather t m x c r :
  threads_ok m → all_threads m !! t = Some x → current_node (here x) = Some c →
  serial_gather_next_tuples (node_id c) (here x) = Ok r → threads_ok (alter_thread t (set_here r.2) m).
Proof.
  intros H Hx Hc E. destruct (H t x Hx) as [(q & Hq & Hi) Hm Ho _ _ _]. rewrite (rep_current _ _ Hq) in Hc.
  rewrite <- (node_addr_id c) in Hc. destruct (gather_rep _ _ _ _ Hq Hc E) as (q' & Hq' & Hr' & Hm' & Hd).
  apply (threads_ok_here t m x); [done | done | | congruence |].
  - exists q'. split; [done |]. rewrite Hr'. exact Hi.
  - rewrite Hd. exact Ho.
Qed.

Lemma threads_ok_create t m x w s s' :
  0 < max_level <= 2 ^ 63 →
  threads_ok m → all_threads m !! t = Some x → roomy (here x) → fits max_level w → 0 <= w.1.1 →
  owner m !! w.1.1 = None → create_serial_node w.1.1 (here x) = Ok s → static_new_work w s = Ok s' →
  threads_ok (set_owner w.1.1 t (alter_thread t (set_here s') m)).
Proof.
  intros HL H Hx Hr Hw Hid Hown E E'. destruct (H t x Hx) as [(q & Hq & Hi) Hm Ho ? ? ?].
  assert (Hnew : node_addr w.1.1 ∉ dom (snodes (here x))).
  { intros Hd%Ho. rewrite node_id_addr in Hd by done. congruence. }
  destruct (create_rep _ _ _ _ Hq Hnew ltac:(lia) E) as (q1 & Hq1 & Hr1 & Hm1 & Hd1).
  assert (Hroom : roomy s).
  { intros a n Hn. unfold create_serial_node in E. apply res_bind_ok in E as (b & Eb & [= <-]). cbn in Hn.
    destruct (decide (a = node_addr w.1.1)) as [-> | Hne].
    - rewrite lookup_insert_eq in Hn. injection Hn as <-. cbn. unfold new_bounded_pqueue in Eb.
      apply asserting_ok in Eb as [_ Eb]. apply res_bind_ok in Eb as (k & _ & Eb).
      apply asserting_ok in Eb as [_ Eb]. apply res_bind_ok in Eb as (h & _ & [= <-]). done.
    - rewrite lookup_insert_ne in Hn by done. by apply (Hr a). }
  destruct w as [[id stpl] level]. cbn in *.
  destruct (new_work_rep max_level _ _ _ _ _ _ Hq1 ltac:(congruence) Hw Hroom E') as (Hq' & Hm' & Hd').
  intros j y. cbn. rewrite list_lookup_alter. case_decide as Hj.
  - subst j. rewrite Hx. intros [= <-]. split; try done; cbn.
    + eexists. split; [exact Hq' |]. cbn. rewrite Hr1. exact Hi.
    + intros a. rewrite Hd', Hd1, elem_of_union, elem_of_singleton. intros [-> | Ha].
      * rewrite node_id_addr by done. apply lookup_insert_eq.
      * rewrite lookup_insert_ne; [by apply Ho |]. intros ->. apply Ho in Ha. congruence.
  - intros Hy. destruct (H j y Hy) as [? ? Hoj ? ? ?]. split; try done. cbn. intros a Ha.
    rewrite lookup_insert_ne; [by apply Hoj |]. intros ->. apply Hoj in Ha. congruence.
Qed.

Lemma step_ok t a m m' :
  0 < max_level <= 2 ^ 63 →
  threads_ok m → (∀ j x, all_threads m !! j = Some x → roomy (here x)) → action_fits a →
  thread_step static_ids t a m = Some (Ok m') → threads_ok m'.
Proof.
  intros HL Hok Hroom Hfit H. step_inv H;
    match goal with Hx : all_threads m !! t = Some ?s, Ha : at_ ?s = _ |- _ =>
      pose proof (Hok _ _ Hx) as Hs; pose proof (ok_phase _ _ _ Hs) as Hp; pose proof (Hroom _ _ Hx) as Hr;
      rewrite Ha in Hp; cbn in Hp end;
    try (eapply threads_ok_goto;
      [ threads_updates; exact Hok | at_phase
      | unfold after_wake; repeat case_match; subst; cbn in *; done
      | left; unfold after_wake; repeat match goal with k : place |- _ => destruct k end;
        repeat case_match; subst; cbn in *; done
      | unfold after_wake; intros ? ? ?; repeat case_match; discriminate ]).
  all: try (match goal with E : static_new_work _ _ = Ok _ |- threads_ok (alter_thread _ (set_here _) _) =>
              by eapply threads_ok_new_work; [.. | exact E]; try apply Hfit end).
  - destruct Hs as [(q & Hq & _) Hm _ _ _ _]. by eapply threads_ok_useless.
  - eapply threads_ok_goto; [exact Hok | at_phase | done | right | done]. intros x Hx. congruence.
  - edestruct threads_ok_pop as [H1 H2]; [exact Hok | done | done |].
    eapply threads_ok_goto; [exact H1 | at_phase | done | left; by destruct k | by intros ? ? [= _ ->]].
  - pose proof (ok_held _ _ _ Hs _ _ Heqp) as Hw.
    eapply threads_ok_goto; [by eapply threads_ok_new_work | at_phase | done | left; by destruct k | done].
  - pose proof (ok_held _ _ _ Hs _ _ Heqp) as Hw.
    eapply threads_ok_goto; [by apply threads_ok_push | at_phase | | left; by destruct k | done].
    cbn. by apply Nat.eqb_neq.
  - destruct Hs as [(q & Hq & Hi) Hm _ _ _ _]. rewrite Heqp in Hi.
    destruct (pop_node_rep _ _ _ Hq (Hi eq_refl) Heqb Heqr) as (q' & Hq' & Hm' & Hd').
    eapply threads_ok_useless; [done | done | exact Hq' | congruence | done | done].
  - apply threads_ok_push; [done | apply Hfit].
  - eapply threads_ok_goto; [apply threads_ok_push; [done | apply Hfit] | at_phase | | by left | done].
    cbn. by apply Nat.eqb_neq.
  - apply of_option_ok in Heqr. by eapply threads_ok_gather.
  - apply bool_decide_eq_true in Heqb. destruct Hfit. by eapply threads_ok_create.
  - eapply threads_ok_goto; [exact Hok | at_phase | | left; by case_match | by case_match].
    destruct (Nat.eqb_spec t 0); done.
Qed.

Lemma reach_ok m : 0 < max_level <= 2 ^ 63 → reach m → threads_ok m.
Proof. intros HL. induction 1 as [m H | t a m m' _ IH Hr Hf H]; [by apply initial_ok | by eapply step_ok]. Qed.

(** ** The barrier counts the active threads

    A thread that has written its state and not yet counted it is taken into account. *)

Definition act (x : static_local) : Z := if is_active x then 1 else 0.
Definition pending (p : phase) : Z :=
  match p with
  | Sleeping_count => 1
  | Waking_count _ _ | Activating_count _ | Deciding_count => -1
  | _ => 0
  end.
Definition counted (x : static_local) : Z := act x + pending (at_ x).
Definition barrier_exact (m : machine) : Prop := active_threads m = sumz counted (all_threads m).

Lemma counted_goto t ts ph p :
  phase_at t ts = Some ph →
  sumz counted (alter (goto p) t ts) = sumz counted ts - pending ph + pending p.
Proof.
  unfold phase_at. intros (x & Hx & ->)%fmap_Some. rewrite (sumz_alter _ _ _ _ x Hx).
  unfold counted. cbn. change (act (goto p x)) with (act x). lia.
Qed.

Lemma counted_same o ts f :
  (∀ x, at_ (f x) = at_ x ∧ tstate (f x) = tstate x) → sumz counted (alter f o ts) = sumz counted ts.
Proof.
  intros Hf. apply sumz_same. intros x. destruct (Hf x) as [E1 E2].
  unfold counted, act, is_active. by rewrite E1, E2.
Qed.

Lemma counted_tstate o ts s y :
  ts !! o = Some y →
  sumz counted (alter (set_tstate s) o ts)
  = sumz counted ts - act y + match s with THREAD_ACTIVE => 1 | THREAD_INACTIVE => 0 end.
Proof.
  intros Hy. rewrite (sumz_alter _ _ _ _ y Hy). unfold counted. cbn.
  assert (act (set_tstate s y) = match s with THREAD_ACTIVE => 1 | THREAD_INACTIVE => 0 end) by by destruct s.
  lia.
Qed.

Lemma inactive_act x : is_inactive x = true → act x = 0.
Proof. unfold is_inactive, act, is_active. intros ->%bool_decide_eq_true. done. Qed.
Lemma active_act x : is_active x = true → act x = 1.
Proof. unfold act. by intros ->. Qed.

Lemma step_barrier t a m m' :
  barrier_exact m → thread_step static_ids t a m = Some (Ok m') → barrier_exact m'.
Proof.
  intros Hb H. unfold barrier_exact in *. step_inv H;
    repeat match goal with E : of_option _ = Ok _ |- _ => apply of_option_ok in E end;
    cbn [all_threads active_threads alter_thread set_threads set_active_threads set_done set_total set_round
         push_buffer set_owner];
    try (erewrite (counted_goto t) by at_phase); rewrite ?counted_same by done;
    try (erewrite counted_tstate by eassumption);
    repeat match goal with
      | E : is_inactive ?x = true |- _ => apply inactive_act in E
      | E : is_active ?x = true |- _ => apply active_act in E end;
    try (cbn [pending]; unfold after_wake, after_useless; repeat case_match; cbn [pending]; lia).
Qed.

(** ** Rounds

    What the end of an iteration depends on: the phase of each thread and the round it
    is in, against the shared round and the number of threads that have not counted. *)

Abbreviation seat := (phase * Z)%type.
Definition seats (ts : list static_local) : list seat := (λ x, (at_ x, thread_round_state x)) <$> ts.

Definition unfinished (r : Z) (v : seat) : Z :=
  match v.1 with
  | Leading | Resetting | Resetting_total | Resetting_round | Stopping | Finished => 0
  | Following => if v.2 =? r then 0 else 1
  | _ => 1
  end.

Definition ordinary (p : phase) : bool :=
  match p with
  | Leading | Resetting | Resetting_total | Resetting_round | Stopping | Finished | Following
  | Following_round => false
  | _ => true
  end.

(** the leader acts on what all the others have said *)
Definition deciding (p : phase) : bool :=
  match p with Resetting | Resetting_total | Resetting_round | Stopping => true | _ => false end.

Definition trs_ok (r : Z) (v : seat) : Prop :=
  match v.1 with
  | Following => v.2 = r ∨ r = get_next v.2
  | Following_round => r = get_next v.2
  | _ => v.2 = r
  end.

(** the leader has set the count of the next round, but not the round *)
Definition resetting (l : list seat) : bool :=
  match l with (Resetting_round, _) :: _ => true | _ => false end.

Record rounds_ok (l : list seat) (r n : Z) : Prop := {
  rounds_role : ∀ t v, l !! t = Some v → phase_ok t v.1;
  rounds_range : r = 0 ∨ r = 1 ∨ r = 2;
  rounds_seat : ∀ t v, l !! t = Some v → v.2 = 1 ∨ v.2 = 2;
  rounds_trs : r ≠ 0 → ∀ t v, l !! t = Some v → t ≠ 0%nat → trs_ok r v;
  rounds_finished : ∀ t v, l !! t = Some v → v.1 = Finished → r = 0;
  rounds_over : r = 0 → ∀ t v, l !! t = Some v → ordinary v.1 = false ∧ v.1 ≠ Leading ∧ deciding v.1 = false;
  rounds_total : r ≠ 0 →
    n = (if resetting l then Z.of_nat (length l) else sumz (unfinished r) l);
  rounds_deciding : ∀ v, l !! 0%nat = Some v → deciding v.1 = true →
    ∀ t u, l !! t = Some u → t ≠ 0%nat → u.1 = Following ∧ u.2 = r
}.

Definition sit (p : phase) (v : seat) : seat := (p, v.2).

Lemma lookup_sit t p (l : list seat) j v :
  alter (sit p) t l !! j = Some v →
  (j = t ∧ ∃ u, l !! t = Some u ∧ v = (p, u.2)) ∨ (j ≠ t ∧ l !! j = Some v).
Proof.
  rewrite list_lookup_alter. case_decide; subst; [| by right].
  intros (u & Hu & ->)%fmap_Some. left. split; [done |]. by exists u.
Qed.

Lemma unfinished_nonneg r v : 0 <= unfinished r v.
Proof. unfold unfinished. repeat case_match; lia. Qed.

Lemma not_resetting l : (∀ v, l !! 0%nat = Some v → deciding v.1 = false) → resetting l = false.
Proof. destruct l as [| [p k] l]; [done |]. intros H. specialize (H _ eq_refl). by destruct p. Qed.

Lemma unfinished_ordinary r v : ordinary v.1 = true → unfinished r v = 1.
Proof. unfold unfinished. by destruct v.1. Qed.
Lemma trs_ok_ordinary r v : ordinary v.1 = true → trs_ok r v ↔ v.2 = r.
Proof. unfold trs_ok. by destruct v.1. Qed.

(** while a thread is in an ordinary phase, the round is not over and the leader does
    not decide *)
Lemma rounds_not_over l r n t ph k :
  rounds_ok l r n → l !! t = Some (ph, k) → ordinary ph = true → r ≠ 0.
Proof. intros H Ht Ho E. destruct (rounds_over _ _ _ H E _ _ Ht). cbn in *. congruence. Qed.

Lemma rounds_undecided l r n t ph k :
  rounds_ok l r n → l !! t = Some (ph, k) → ordinary ph = true →
  ∀ v, l !! 0%nat = Some v → deciding v.1 = false.
Proof.
  intros H Ht Ho v Hv. destruct (deciding v.1) eqn:Hd; [| done]. exfalso.
  destruct (decide (t = 0%nat)) as [-> | Hne].
  - rewrite Ht in Hv. injection Hv as <-. by destruct ph.
  - destruct (rounds_deciding _ _ _ H _ Hv Hd _ _ Ht Hne) as [E _]. cbn in E. by rewrite E in Ho.
Qed.

(** a thread between two ordinary phases *)
Lemma rounds_ordinary l r n t ph k p :
  rounds_ok l r n → l !! t = Some (ph, k) → ordinary ph = true → ordinary p = true → phase_ok t p →
  rounds_ok (alter (sit p) t l) r n.
Proof.
  intros H Ht Ho Hp Hok. pose proof (rounds_not_over _ _ _ _ _ _ H Ht Ho) as Hr.
  pose proof (rounds_undecided _ _ _ _ _ _ H Ht Ho) as H0. destruct H as [R1 R2 R3 R4 R5 R6 R7 R8].
  split; try done.
  - intros j v [[-> (u & _ & ->)] | [_ Hv]]%lookup_sit; [done | by apply (R1 j)].
  - intros j v [[-> (u & Hu & ->)] | [_ Hv]]%lookup_sit; [by apply (R3 t u) | by apply (R3 j)].
  - intros _ j v [[-> (u & Hu & ->)] | [_ Hv]]%lookup_sit Hj; [| by apply (R4 Hr j)].
    rewrite Ht in Hu. injection Hu as <-. pose proof (R4 Hr _ _ Ht Hj) as Hk.
    by rewrite (trs_ok_ordinary _ (p, k)), <- (trs_ok_ordinary _ (ph, k)) by done.
  - intros j v [[-> (u & Hu & ->)] | [_ Hv]]%lookup_sit Hf; [cbn in Hf; by subst p | by apply (R5 j v)].
  - intros _. rewrite (not_resetting _ H0) in R7.
    rewrite (not_resetting (alter _ t l)), (sumz_alter _ _ _ _ _ Ht), (R7 Hr).
    + rewrite (unfinished_ordinary _ (ph, k)), (unfinished_ordinary _ (p, k)) by done. lia.
    + intros v [[_ (u & _ & ->)] | [_ Hv]]%lookup_sit; [by destruct p | by apply H0].
  - intros v [[-> (u & Hu & ->)] | [_ Hv]]%lookup_sit Hd; [by destruct p |].
    by rewrite (H0 _ Hv) in Hd.
Qed.

(** a thread counts *)
Lemma rounds_count l r n t k :
  rounds_ok l r n → l !! t = Some (Counting, k) →
  rounds_ok (alter (sit (if (t =? 0)%nat then Leading else Following)) t l) r (n - 1).
Proof.
  intros H Ht. set (p := if (t =? 0)%nat then Leading else Following).
  assert (Hp : (p = Leading ∧ t = 0%nat) ∨ (p = Following ∧ t ≠ 0%nat))
    by (unfold p; destruct (Nat.eqb_spec t 0); auto).
  pose proof (rounds_not_over _ _ _ _ _ _ H Ht eq_refl) as Hr.
  pose proof (rounds_undecided _ _ _ _ _ _ H Ht eq_refl) as H0.
  destruct H as [R1 R2 R3 R4 R5 R6 R7 R8].
  split; try done.
  - intros j v [[-> (u & _ & ->)] | [_ Hv]]%lookup_sit; [| by apply (R1 j)]. by destruct Hp as [[-> ->] | [-> ?]].
  - intros j v [[-> (u & Hu & ->)] | [_ Hv]]%lookup_sit; [by apply (R3 t u) | by apply (R3 j)].
  - intros _ j v [[-> (u & Hu & ->)] | [_ Hv]]%lookup_sit Hj; [| by apply (R4 Hr j)].
    rewrite Ht in Hu. injection Hu as <-. pose proof (R4 Hr _ _ Ht Hj) as Hk.
    destruct Hp as [[-> ->] | [-> ?]]; [done | by left].
  - intros j v [[-> (u & Hu & ->)] | [_ Hv]]%lookup_sit Hf; [| by apply (R5 j v)].
    by destruct Hp as [[-> _] | [-> _]].
  - intros _. rewrite (not_resetting _ H0) in R7.
    rewrite (not_resetting (alter _ t l)), (sumz_alter _ _ _ _ _ Ht), (R7 Hr).
    + unfold unfinished. cbn. destruct Hp as [[-> _] | [-> Hne]]; [lia |].
      pose proof (R4 Hr _ _ Ht Hne) as Hk. cbn in Hk. rewrite Hk, Z.eqb_refl. lia.
    + intros v [[_ (u & _ & ->)] | [_ Hv]]%lookup_sit; [by destruct Hp as [[-> _] | [-> _]] | by apply H0].
  - intros v [[_ (u & _ & ->)] | [_ Hv]]%lookup_sit Hd; [by destruct Hp as [[-> _] | [-> _]] |].
    by rewrite (H0 _ Hv) in Hd.
Qed.

(** all threads but the leader wait for the round to change *)
Definition all_follow (l : list seat) (r : Z) : Prop :=
  ∀ t u, l !! t = Some u → t ≠ 0%nat → u.1 = Following ∧ u.2 = r.

Lemma all_follow_sum l r f v :
  all_follow l r → l !! 0%nat = Some v → sumz f l = f v + f (Following, r) * (Z.of_nat (length l) - 1).
Proof.
  intros Hf H0. destruct l as [| w l]; [done |]. injection H0 as ->. cbn [sumz foldr].
  assert (Hl : ∀ l, (∀ t (u : seat), l !! t = Some u → u = (Following, r)) →
                    foldr (λ x n, f x + n) 0 l = f (Following, r) * Z.of_nat (length l)).
  { clear l Hf. induction l as [| u l IH]; intros Hf; cbn [foldr length]; [lia |].
    rewrite IH by (intros t; apply (Hf (S t))). rewrite (Hf 0%nat u eq_refl). lia. }
  rewrite Hl; [cbn [length]; lia |]. intros t [p q] Hu. by destruct (Hf (S t) _ Hu) as [[= ->] [= ->]].
Qed.

Lemma rounds_follow l r n k ph :
  rounds_ok l r n → l !! 0%nat = Some (ph, k) → deciding ph = true ∨ (ph = Leading ∧ n = 0) →
  r ≠ 0 ∧ all_follow l r.
Proof.
  intros H H0 Hd. assert (Hr : r ≠ 0).
  { intros E. destruct (rounds_over _ _ _ H E _ _ H0) as (_ & ? & ?). cbn in *. destruct Hd as [|[]]; congruence. }
  split; [done |]. destruct Hd as [Hd | [-> Hn]]; [exact (rounds_deciding _ _ _ H _ H0 Hd) |].
  pose proof (rounds_total _ _ _ H Hr) as Ht. rewrite not_resetting in Ht by (intros v Hv; by rewrite H0 in Hv; injection Hv as <-).
  rewrite Hn in Ht. intros t u Hu Hne.
  pose proof (sumz_zero _ _ (λ i x _, unfinished_nonneg r x) (eq_sym Ht) t u Hu) as Hz.
  pose proof (rounds_role _ _ _ H _ _ Hu) as Hrole. pose proof (rounds_finished _ _ _ H _ _ Hu) as Hfin.
  unfold unfinished in Hz. destruct u as [p q]. cbn in *. destruct p; try done; try (by destruct (Hr (Hfin eq_refl))).
  split; [done |]. destruct (Z.eqb_spec q r); [done | lia].
Qed.

(** the leader goes from one of its phases to the next *)
Lemma rounds_leader l r n k ph p :
  rounds_ok l r n → l !! 0%nat = Some (ph, k) → deciding ph = true ∨ (ph = Leading ∧ n = 0) →
  deciding p = true →
  rounds_ok (alter (sit p) 0%nat l) r (match p with Resetting_round => Z.of_nat (length l) | _ => 0 end).
Proof.
  intros H H0 Hd Hp. destruct (rounds_follow _ _ _ _ _ H H0 Hd) as [Hr Hf].
  assert (Hf' : all_follow (alter (sit p) 0%nat l) r).
  { intros t u [[-> _] | [_ Hu]]%lookup_sit Hne; [done |]. by apply (Hf t). }
  assert (H0' : alter (sit p) 0%nat l !! 0%nat = Some (p, k)) by (rewrite list_lookup_alter_eq, H0; done).
  destruct H as [R1 R2 R3 R4 R5 R6 R7 R8]. split; try done.
  - intros j v [[-> (u & _ & ->)] | [_ Hv]]%lookup_sit; [by destruct p | by apply (R1 j)].
  - intros j v [[-> (u & Hu & ->)] | [_ Hv]]%lookup_sit; [by apply (R3 0%nat u) | by apply (R3 j)].
  - intros _ j v [[-> _] | [_ Hv]]%lookup_sit Hj; [done | by apply (R4 Hr j)].
  - intros j v [[-> (u & Hu & ->)] | [_ Hv]]%lookup_sit Hfin; [by destruct p | by apply (R5 j v)].
  - intros _. destruct (alter (sit p) 0%nat l) as [| v l'] eqn:El; [done |]. injection H0' as ->.
    assert (Hlen : length l = length ((p, k) :: l')) by (rewrite <- El; by rewrite length_alter).
    destruct p; try done; cbn [resetting]; try (by rewrite Hlen);
      rewrite (all_follow_sum _ _ _ _ Hf' eq_refl); unfold unfinished; cbn [fst snd];
      rewrite Z.eqb_refl; lia.
Qed.

(** the count of the round is 0 while the leader has not set it again *)
Lemma rounds_zero l r n k ph :
  rounds_ok l r n → l !! 0%nat = Some (ph, k) → deciding ph = true → ph ≠ Resetting_round → n = 0.
Proof.
  intros H H0 Hd Hp. destruct (rounds_follow _ _ _ _ _ H H0 (or_introl Hd)) as [Hr Hf].
  rewrite (rounds_total _ _ _ H Hr). destruct l as [| v l]; [done |]. injection H0 as ->.
  rewrite (all_follow_sum _ _ _ _ Hf eq_refl). unfold unfinished. cbn [fst snd]. rewrite Z.eqb_refl.
  destruct ph; try done; cbn [resetting]; lia.
Qed.

(** the leader starts the next round *)
Lemma rounds_next l r n k :
  rounds_ok l r n → l !! 0%nat = Some (Resetting_round, k) →
  rounds_ok (alter (sit Start) 0%nat l) (get_next r) n.
Proof.
  intros H H0. destruct (rounds_follow _ _ _ _ _ H H0 (or_introl eq_refl)) as [Hr Hf].
  pose proof (rounds_total _ _ _ H Hr) as Hn.
  destruct H as [R1 R2 R3 R4 R5 R6 R7 R8].
  assert (Hnx : get_next r ≠ r ∧ get_next r ≠ 0 ∧ (get_next r = 1 ∨ get_next r = 2)).
  { unfold get_next. destruct R2 as [| [-> | ->]]; [done | cbn; lia | cbn; lia]. }
  destruct Hnx as (Hnr & Hn0 & Hn12). split; try done.
  - intros j v [[-> (u & _ & ->)] | [_ Hv]]%lookup_sit; [done | by apply (R1 j)].
  - by right.
  - intros j v [[-> (u & Hu & ->)] | [_ Hv]]%lookup_sit; [by apply (R3 0%nat u) | by apply (R3 j)].
  - intros _ j v [[-> _] | [_ Hv]]%lookup_sit Hj; [done |]. destruct (Hf j v Hv Hj) as [E1 E2].
    unfold trs_ok. rewrite E1, E2. by right.
  - intros j v [[-> (u & Hu & ->)] | [Hj Hv]]%lookup_sit Hfin; [done |].
    destruct (Hf j v Hv Hj) as [E1 _]. congruence.
  - intros _. destruct l as [| v l]; [done |]. injection H0 as ->. cbn [resetting] in Hn. rewrite Hn.
    change (alter (sit Start) 0%nat ((Resetting_round, k) :: l)) with ((Start, k) :: l). cbn [resetting].
    rewrite (all_follow_sum ((Start, k) :: l) r _ (Start, k)); [| | done].
    + unfold unfinished. cbn [fst snd length]. destruct (Z.eqb_spec r (get_next r)); [congruence | lia].
    + intros [| t] u Hu Hne; [done |]. by apply (Hf (S t)).
  - intros v [[_ (u & _ & ->)] | [? _]]%lookup_sit Hd; done.
Qed.

(** the leader ends the rounds *)
Lemma rounds_stop l r n k :
  rounds_ok l r n → l !! 0%nat = Some (Stopping, k) → rounds_ok (alter (sit Finished) 0%nat l) 0 n.
Proof.
  intros H H0. destruct (rounds_follow _ _ _ _ _ H H0 (or_introl eq_refl)) as [Hr Hf].
  destruct H as [R1 R2 R3 R4 R5 R6 R7 R8]. split; try done.
  - intros j v [[-> (u & _ & ->)] | [_ Hv]]%lookup_sit; [done | by apply (R1 j)].
  - by left.
  - intros j v [[-> (u & Hu & ->)] | [_ Hv]]%lookup_sit; [by apply (R3 0%nat u) | by apply (R3 j)].
  - intros _ j v [[-> (u & Hu & ->)] | [Hj Hv]]%lookup_sit; [done |].
    destruct (Hf j v Hv Hj) as [E1 _]. by rewrite E1.
  - intros v [[_ (u & _ & ->)] | [? _]]%lookup_sit Hd; done.
Qed.

(** a thread that follows sees the round change *)
Lemma rounds_see l r n t k p :
  rounds_ok l r n → l !! t = Some (Following, k) → r ≠ k → p = Following_round →
  rounds_ok (alter (sit p) t l) r n.
Proof.
  intros H Ht Hk ->. pose proof (rounds_role _ _ _ H _ _ Ht) as Hne. cbn in Hne.
  destruct H as [R1 R2 R3 R4 R5 R6 R7 R8].
  assert (H0 : ∀ v, alter (sit Following_round) t l !! 0%nat = Some v → l !! 0%nat = Some v).
  { intros v [[? _] | [_ ?]]%lookup_sit; [by subst | done]. }
  split; try done.
  - intros j v [[-> (u & _ & ->)] | [_ Hv]]%lookup_sit; [done | by apply (R1 j)].
  - intros j v [[-> (u & Hu & ->)] | [_ Hv]]%lookup_sit; [by apply (R3 t u) | by apply (R3 j)].
  - intros Hr j v [[-> (u & Hu & ->)] | [_ Hv]]%lookup_sit Hj; [| by apply (R4 Hr j)].
    rewrite Ht in Hu. injection Hu as <-. destruct (R4 Hr _ _ Ht Hj) as [E | E]; cbn in *; [congruence | done].
  - intros j v [[-> (u & Hu & ->)] | [_ Hv]]%lookup_sit Hf; [done | by apply (R5 j v)].
  - intros E j v [[-> (u & Hu & ->)] | [_ Hv]]%lookup_sit; [done | by apply (R6 E j)].
  - intros Hr. rewrite length_alter, (sumz_alter _ _ _ _ _ Ht), (R7 Hr).
    assert (E : unfinished r (Following, k) = 1) by (unfold unfinished; cbn; by destruct (Z.eqb_spec k r)).
    rewrite E. change (unfinished r (sit Following_round (Following, k))) with 1.
    replace (resetting (alter _ t l)) with (resetting l); [case_match; lia |].
    destruct l, t; try done.
  - intros v Hv Hd j u [[-> (w & Hw & ->)] | [_ Hu]]%lookup_sit Hj; [| by apply (R8 v (H0 v Hv) Hd j)].
    rewrite Ht in Hw. injection Hw as <-. destruct (R8 v (H0 v Hv) Hd t _ Ht Hj) as [_ E]. cbn in E. congruence.
Qed.

(** a thread that follows takes part in the next round, or ends with the leader *)
Lemma rounds_again l r n t k :
  rounds_ok l r n → l !! t = Some (Following_round, k) → r = get_next k →
  rounds_ok (alter (λ _, (Start, r)) t l) r n.
Proof.
  intros H Ht E. pose proof (rounds_role _ _ _ H _ _ Ht) as Hne. cbn in Hne.
  assert (Hr : r ≠ 0 ∧ (r = 1 ∨ r = 2)) by (subst r; unfold get_next; case_match; lia).
  destruct Hr as [Hr H12]. pose proof (rounds_deciding _ _ _ H) as R8'.
  destruct H as [R1 R2 R3 R4 R5 R6 R7 R8].
  assert (L : ∀ j v, alter (λ _, (Start, r)) t l !! j = Some v → (j = t ∧ v = (Start, r)) ∨ (j ≠ t ∧ l !! j = Some v)).
  { intros j v. rewrite list_lookup_alter. case_decide; subst; [| by right].
    intros (u & _ & ->)%fmap_Some. by left. }
  split; try done.
  - intros j v [[-> ->] | [_ Hv]]%L; [done | by apply (R1 j)].
  - intros j v [[-> ->] | [_ Hv]]%L; [done | by apply (R3 j)].
  - intros _ j v [[-> ->] | [_ Hv]]%L Hj; [done | by apply (R4 Hr j)].
  - intros j v [[-> ->] | [_ Hv]]%L Hf; [done | by apply (R5 j v)].
  - intros _. rewrite length_alter, (sumz_alter _ _ _ _ _ Ht), (R7 Hr).
    replace (resetting (alter _ t l)) with (resetting l) by (by destruct l, t).
    unfold unfinished at 3 4. cbn [fst snd]. case_match; lia.
  - intros v [[? _] | [_ Hv]]%L Hd; [by subst |]. destruct (R8 v Hv Hd t _ Ht Hne) as [? _]. done.
Qed.

Lemma rounds_leave n l t k :
  rounds_ok l 0 n → l !! t = Some (Following_round, k) → rounds_ok (alter (sit Finished) t l) 0 n.
Proof.
  intros [R1 R2 R3 R4 R5 R6 R7 R8] Ht. split; try done.
  - intros j v [[-> (u & _ & ->)] | [_ Hv]]%lookup_sit; [done | by apply (R1 j)].
  - intros j v [[-> (u & Hu & ->)] | [_ Hv]]%lookup_sit; [by apply (R3 t u) | by apply (R3 j)].
  - intros _ j v [[-> (u & Hu & ->)] | [_ Hv]]%lookup_sit; [done | by apply (R6 eq_refl j)].
  - intros v [[_ (u & Hu & ->)] | [_ Hv]]%lookup_sit Hd; [done |].
    destruct (R6 eq_refl _ _ Hv) as (_ & _ & Hd'). congruence.
Qed.

(** ** Every step keeps the rounds *)

Lemma seats_alter f g t ts :
  (∀ x, (at_ (f x), thread_round_state (f x)) = g (at_ x, thread_round_state x)) →
  seats (alter f t ts) = alter g t (seats ts).
Proof.
  intros Hf. unfold seats. apply list_eq. intros i. rewrite list_lookup_fmap.
  destruct (decide (i = t)) as [-> |].
  - rewrite !list_lookup_alter_eq, list_lookup_fmap. destruct (ts !! t); cbn; [by rewrite Hf | done].
  - by rewrite !list_lookup_alter_ne, list_lookup_fmap.
Qed.

Lemma seats_goto p t ts : seats (alter (goto p) t ts) = alter (sit p) t (seats ts).
Proof. by apply seats_alter. Qed.
Lemma seats_same f t ts :
  (∀ x, at_ (f x) = at_ x ∧ thread_round_state (f x) = thread_round_state x) → seats (alter f t ts) = seats ts.
Proof.
  intros Hf. rewrite (seats_alter f id) by (intros x; by destruct (Hf x) as [-> ->]).
  apply list_eq. intros i. rewrite list_lookup_alter. case_decide as Hi; [subst i | done]. by destruct (seats ts !! t).
Qed.
Lemma seats_lookup t ts x : ts !! t = Some x → seats ts !! t = Some (at_ x, thread_round_state x).
Proof. intros H. unfold seats. by rewrite list_lookup_fmap, H. Qed.

Definition rounds (m : machine) : Prop :=
  rounds_ok (seats (all_threads m)) (round_state m) (total_in_agg m).

Lemma phase_at_ok t m p :
  threads_ok m → (∃ ts ph, all_threads m = alter (goto p) t ts ∧ phase_at t ts = Some ph) → phase_ok t p.
Proof.
  intros H (ts & ph & E & (x & Hx & _)%fmap_Some). apply (ok_phase _ _ (goto p x) (H t _ ltac:(by rewrite E, list_lookup_alter_eq, Hx))).
Qed.

Lemma step_rounds t a m m' :
  rounds m → threads_ok m' → thread_step static_ids t a m = Some (Ok m') → rounds m'.
Proof.
  intros Hm Hok H. unfold rounds in *. step_inv H;
    match goal with Hx : all_threads m !! t = Some ?s, Ha : at_ ?s = _ |- _ =>
      pose proof (seats_lookup _ _ _ Hx) as Hs; rewrite Ha in Hs end;
    cbn [all_threads round_state total_in_agg alter_thread set_threads set_active_threads set_done set_total set_round
         push_buffer set_owner];
    rewrite ?seats_goto; rewrite ?seats_same by done; try exact Hm;
    try (eapply rounds_ordinary;
      [ exact Hm | exact Hs | done
      | unfold after_wake, after_useless; repeat case_match; done
      | eapply phase_at_ok; [exact Hok | eexists _, _; split; [reflexivity | at_phase]] ]; fail).
  all: pose proof (rounds_role _ _ _ Hm _ _ Hs) as Hrole; cbn in Hrole; try subst t.
  - by apply rounds_count with (thread_round_state s).
  - apply Z.eqb_eq in Heqb. rewrite Heqb in Hm |- *.
    case_match; [refine (rounds_leader _ _ _ _ _ Resetting Hm Hs _ eq_refl)
                |refine (rounds_leader _ _ _ _ _ Stopping Hm Hs _ eq_refl)]; by right.
  - pose proof (rounds_zero _ _ _ _ _ Hm Hs eq_refl ltac:(done)) as E. rewrite E in Hm |- *.
    refine (rounds_leader _ _ _ _ _ Resetting_total Hm Hs (or_introl eq_refl) eq_refl).
  - replace (num_threads m) with (Z.of_nat (length (seats (all_threads m)))) by (unfold seats; by rewrite length_fmap).
    refine (rounds_leader _ _ _ _ _ Resetting_round Hm Hs (or_introl eq_refl) eq_refl).
  - by eapply rounds_next.
  - by eapply rounds_stop.
  - apply negb_true_iff, Z.eqb_neq in Heqb. by eapply rounds_see.
  - apply Z.eqb_eq in Heqb.
    rewrite (seats_alter _ (λ v, (v.1, round_state m))) by done. rewrite alter_twice.
    refine (rounds_again _ _ _ _ _ Hm Hs Heqb).
  - assert (E : round_state m = 0).
    { destruct (decide (round_state m = 0)) as [| Hr]; [done |].
      pose proof (rounds_trs _ _ _ Hm Hr _ _ Hs Hrole) as E. cbn in E. apply Z.eqb_neq in Heqb. congruence. }
    rewrite E in Hm |- *. by eapply rounds_leave.
Qed.

End Ends.
