(* ===== verification/ThreadsQuiet.v ===== *)
(** What the threads of [Threads] have left when they end, and that they are never all
    stuck; the schedule in which an iteration ends with work in a queue. *)

From Stdlib Require Import ZArith Lia Bool.
From stdpp Require Import base tactics list numbers option gmap.
From S2P Require Import Prelude Words LinearQueue DoubleQueue BoundedQueue World Serial Threads ThreadsEnd.

#[local] Open Scope Z_scope.

Lemma sumz_const {A} (f : A → Z) c (l : list A) :
  (∀ i x, l !! i = Some x → f x = c) → sumz f l = c * Z.of_nat (length l).
Proof.
  induction l as [| x l IH]; intros Hf; cbn [sumz foldr length]; [lia |].
  pose proof (Hf 0%nat x eq_refl) as ->. specialize (IH (λ i, Hf (S i))). unfold sumz in IH. rewrite IH. lia.
Qed.

Section Quiet.
Context (static_ids : nat → list Z) (max_level : Z).

Lemma initial_rounds m : initial max_level m → rounds m.
Proof.
  intros H. unfold rounds. rewrite (init_round _ _ H), (init_total _ _ H).
  assert (L : ∀ t v, seats (all_threads m) !! t = Some v → v = (Start, 1)).
  { intros t v. unfold seats. rewrite list_lookup_fmap. intros (x & Hx & ->)%fmap_Some.
    by destruct (init_threads _ _ H t x Hx) as (-> & _ & _ & -> & _). }
  split; try done.
  - by intros t v ->%L.
  - lia.
  - intros t v ->%L. by left.
  - by intros _ t v ->%L.
  - by intros t v ->%L.
  - intros _. rewrite not_resetting by by intros v ->%L.
    rewrite (sumz_const _ 1) by by intros i v ->%L. unfold num_threads, seats. rewrite length_fmap. lia.
  - by intros v ->%L.
Qed.

Lemma initial_barrier m : initial max_level m → barrier_exact m.
Proof.
  intros H. unfold barrier_exact. rewrite (init_active _ _ H), (sumz_const _ 1); [unfold num_threads; lia |].
  intros t x Hx. destruct (init_threads _ _ H t x Hx) as (E & E' & _).
  unfold counted, act, is_active. by rewrite E, E'.
Qed.

Lemma reach_rounds m : 0 < max_level <= 2 ^ 63 → reach static_ids max_level m → rounds m.
Proof.
  intros HL. induction 1 as [m H | t a m m' Hm IH Hr Hf H]; [by apply initial_rounds |].
  eapply step_rounds; [exact IH | | exact H]. eapply reach_ok; [exact HL |]. by eapply reach_step.
Qed.

Lemma reach_barrier m : reach static_ids max_level m → barrier_exact m.
Proof. induction 1 as [m H | t a m m' _ IH _ _ H]; [by apply initial_barrier | by eapply step_barrier]. Qed.

(** ** Work given to a thread that has counted *)

(** the phases after the last look at the work of the thread *)
Definition late (p : phase) : bool :=
  match p with
  | Deciding_count | Counting | Leading | Resetting | Resetting_total | Resetting_round | Stopping
  | Following | Following_round | Finished => true
  | _ => false
  end.

(** a thread in [p] is about to set thread [i], with this buffer, active *)
Definition will_wake (i : nat) (b : list work) (p : phase) : Prop :=
  match p with
  | Waking _ o | Waking_locked _ o | Waking_queue _ o | Waking_set _ o => o = i
  | Waking_buffer _ o => o = i ∧ b ≠ []
  | _ => False
  end.

Definition woken (ts : list static_local) : Prop :=
  ∀ i x, ts !! i = Some x → late (at_ x) = true → is_inactive x = true → thread_has_work x = true →
  ∃ j y, ts !! j = Some y ∧ will_wake i (buffer x) (at_ y).

(** a thread that wakes none changes only itself *)
Lemma woken_self t f ts x :
  woken ts → ts !! t = Some x → (∀ i b, ¬ will_wake i b (at_ x)) →
  (late (at_ (f x)) = true → is_inactive (f x) = true → thread_has_work (f x) = true →
     late (at_ x) = true ∧ is_inactive x = true ∧ thread_has_work x = true ∧ buffer (f x) = buffer x) →
  woken (alter f t ts).
Proof.
  intros Hw Hx Hn Hf i y. assert (K : ∀ b, (∃ j z, ts !! j = Some z ∧ will_wake i b (at_ z)) →
    ∃ j z, alter f t ts !! j = Some z ∧ will_wake i b (at_ z)).
  { intros b (j & z & Hz & Hk). exists j, z. split; [| done]. rewrite list_lookup_alter_ne; [done |].
    intros ->. rewrite Hx in Hz. injection Hz as <-. by destruct (Hn i b). }
  destruct (decide (i = t)) as [-> | Hne].
  - rewrite list_lookup_alter_eq, Hx. intros [= <-] H1 H2 H3. destruct (Hf H1 H2 H3) as (G1 & G2 & G3 & ->).
    by apply K, (Hw t x).
  - rewrite list_lookup_alter_ne by done. intros Hy H1 H2 H3. by apply K, (Hw i y).
Qed.

(** a thread wakes [o], or gives it a work *)
Lemma woken_wake t o g p ts x y :
  woken ts → ts !! t = Some x → ts !! o = Some y → o ≠ t → late p = false →
  (∀ i b, will_wake i b (at_ x) → i = o) → at_ (g y) = at_ y →
  (is_inactive (g y) = true → thread_has_work (g y) = true →
     will_wake o (buffer (g y)) p ∨
     (is_inactive y = true ∧ thread_has_work y = true ∧ buffer (g y) = buffer y ∧ ¬ will_wake o (buffer y) (at_ x))) →
  woken (alter (goto p) t (alter g o ts)).
Proof.
  intros Hw Hx Hy Ho Hp Hi Hg Hf i z.
  assert (Ht : alter (goto p) t (alter g o ts) !! t = Some (goto p x))
    by (rewrite list_lookup_alter_eq, list_lookup_alter_ne, Hx; done).
  assert (K : ∀ b, ¬ will_wake i b (at_ x) → (∃ j z, ts !! j = Some z ∧ will_wake i b (at_ z)) →
    ∃ j z, alter (goto p) t (alter g o ts) !! j = Some z ∧ will_wake i b (at_ z)).
  { intros b Hn (j & u & Hu & Hk). assert (j ≠ t) by (intros ->; rewrite Hx in Hu; injection Hu as <-; by apply Hn).
    destruct (decide (j = o)) as [-> | Hj].
    - exists o, (g y). rewrite list_lookup_alter_ne, list_lookup_alter_eq, Hy by done. split; [done |].
      rewrite Hy in Hu. injection Hu as <-. by rewrite Hg.
    - exists j, u. by rewrite !list_lookup_alter_ne. }
  destruct (decide (i = t)) as [-> | Hne].
  { rewrite Ht. intros [= <-] Hl. cbn in Hl. congruence. }
  rewrite list_lookup_alter_ne by done. destruct (decide (i = o)) as [-> | Hio].
  - rewrite list_lookup_alter_eq, Hy. intros [= <-] H1 H2 H3. rewrite Hg in H1.
    destruct (Hf H2 H3) as [Hk | (G2 & G3 & -> & Hk)].
    + exists t, (goto p x). by split.
    + apply K; [done |]. by apply (Hw o y).
  - rewrite list_lookup_alter_ne by done. intros Hz H1 H2 H3. apply K; [| by apply (Hw i z)].
    intros Hk%Hi. done.
Qed.

Lemma alter_same {A} t (l : list A) : alter id t l = l.
Proof.
  apply list_eq. intros i. rewrite list_lookup_alter. case_decide as E; [| done]. subst i. by destruct (l !! t).
Qed.

Lemma alter_missing {A} (f : A → A) t (l : list A) : l !! t = None → alter f t l = l.
Proof.
  intros H. apply list_eq. intros i. rewrite list_lookup_alter. case_decide as E; [| done]. subst i. by rewrite H.
Qed.

(** a work is pushed to the buffer of another thread *)
Lemma woken_push t o w p ts x :
  woken ts → ts !! t = Some x → o ≠ t → late p = false → (∀ i b, ¬ will_wake i b (at_ x)) →
  (∀ b, will_wake o b p) →
  woken (alter (goto p) t (alter (λ y, set_buffer (buffer y ++ [w]) y) o ts)).
Proof.
  intros Hw Hx Ho Hp Hn Hk. destruct (ts !! o) as [y |] eqn:Hy.
  - apply (woken_wake t o _ p ts x y); try done; [by intros i b ?%Hn | by left].
  - rewrite (alter_missing _ o) by done. apply (woken_self t _ ts x); [done.. |]. cbn. congruence.
Qed.

(** a thread that wakes [o] goes on, with nothing of [o] changed but its lock *)
Lemma woken_on t o g p ts x y :
  woken ts → ts !! t = Some x → ts !! o = Some y → o ≠ t → late p = false →
  (∀ i b, will_wake i b (at_ x) → i = o) → g = id ∨ (∃ l, g = set_lock l) →
  (is_inactive y = true → thread_has_work y = true → will_wake o (buffer y) p ∨ ¬ will_wake o (buffer y) (at_ x)) →
  woken (alter (goto p) t (alter g o ts)).
Proof.
  intros Hw Hx Hy Ho Hp Hi Hg Hf. apply (woken_wake t o g p ts x y); try done.
  - by destruct Hg as [-> | [l ->]].
  - intros H1 H2. assert (E : is_inactive y = true ∧ thread_has_work y = true ∧ buffer (g y) = buffer y)
      by (by destruct Hg as [-> | [l ->]]).
    destruct E as (E1 & E2 & ->). destruct (Hf E1 E2); [by left | by right].
Qed.

Lemma step_woken t a m m' :
  threads_ok max_level m → woken (all_threads m) → thread_step static_ids t a m = Some (Ok m') →
  woken (all_threads m').
Proof.
  intros Hok Hw H. step_inv H;
    match goal with Hx : all_threads m !! t = Some ?s, Ha : at_ ?s = _ |- _ =>
      pose proof (ok_phase _ _ _ _ (Hok _ _ Hx)) as Hp; rewrite Ha in Hp; cbn in Hp end;
    cbn [all_threads alter_thread set_threads set_active_threads set_done set_total set_round push_buffer set_owner];
    rewrite ?alter_twice;
    try (match goal with Hx : all_threads m !! t = Some ?s, Ha : at_ ?s = _ |- _ =>
      eapply woken_self; [exact Hw | exact Hx | rewrite Ha; intros ? ?; cbn; tauto |];
      unfold after_useless, after_wake; cbn; rewrite ?Ha; repeat case_match; cbn; try done; fail end).
  all: repeat match goal with E : of_option _ = Ok _ |- _ => apply of_option_ok in E end.
  all: try (eapply woken_push; [exact Hw | done | by apply Nat.eqb_neq | done | intros ? ?; rewrite Heqp; cbn; tauto | done]; fail).
  all: try (match goal with |- woken (alter (goto _) _ (all_threads _)) =>
    match type of Hp with ?o ≠ _ => rewrite <- (alter_same o (all_threads m)) end end).
  all: try (match type of Hp with ?o ≠ _ =>
    match goal with E : all_threads _ !! o = Some ?y |- _ =>
      eapply (woken_on t o _ _ _ _ y); [exact Hw | done | done | done | unfold after_wake; repeat case_match; done
        | rewrite Heqp; intros ? ?; cbn; intuition congruence | by eauto | rewrite Heqp; cbn; intros H1 H2 ] end end).
  all: try (by left); try (right; tauto).
  - congruence.
  - left. unfold thread_has_work in H2. destruct (has_work (here a0)); [done |]. cbn in *. split; [done |].
    intros E. unfold buffer_empty in H2. by rewrite E in H2.
  - right. intros [_ Hb]. unfold buffer_empty in *. by destruct (buffer a0).
  - apply (woken_wake t o _ _ _ s a0); try done. rewrite Heqp. by intros i b ->.
  - apply Nat.eqb_eq in Heqb0 as ->.
    apply (woken_self t _ _ s); [done | done | rewrite Heqp; cbn; tauto | cbn; by rewrite Heqp].
  - apply (woken_self t _ _ s); [done | done | rewrite Heqp; cbn; tauto |].
    intros _ _ E. change (thread_has_work (goto Counting s)) with (thread_has_work s) in E. congruence.
Qed.

Lemma initial_woken m : initial max_level m → woken (all_threads m).
Proof.
  intros H t x Hx Hl. destruct (init_threads _ _ H t x Hx) as [E _]. by rewrite E in Hl.
Qed.

Lemma reach_woken m : 0 < max_level <= 2 ^ 63 → reach static_ids max_level m → woken (all_threads m).
Proof.
  intros HL. induction 1 as [m H | t a m m' Hm IH _ _ H]; [by apply initial_woken |].
  eapply step_woken; [by eapply reach_ok | exact IH | exact H].
Qed.

(** ** When the leader ends the rounds *)

Definition stopped (m : machine) : Prop :=
  round_state m = 0 ∨ phase_at 0 (all_threads m) = Some Stopping.
Definition idle_thread (x : static_local) : Prop := is_inactive x = true ∧ thread_has_work x = false.
Definition all_idle (ts : list static_local) : Prop := ∀ t x, ts !! t = Some x → idle_thread x.

Lemma phase_at_goto t p q ts : p ≠ q →
  phase_at 0 (alter (goto p) t ts) = Some q → phase_at 0 ts = Some q.
Proof.
  intros Hp. unfold phase_at. rewrite list_lookup_alter. case_decide as E; [subst t | done].
  destruct (ts !! 0%nat); [| done]. cbn. congruence.
Qed.

(** a thread in an ordinary phase neither stops the rounds nor finds them stopped *)
Lemma step_ordinary t a m m' x :
  all_threads m !! t = Some x → ordinary (at_ x) = true → thread_step static_ids t a m = Some (Ok m') →
  stopped m' → stopped m.
Proof.
  intros Hx Ho H. step_inv H;
    match goal with Ha : at_ ?s = _ |- _ => injection Hx as ->; rewrite Ha in Ho; try discriminate Ho end;
    (intros [E | E]; [by left | right]);
    cbn [all_threads alter_thread set_threads set_active_threads set_done set_total set_round push_buffer set_owner] in E;
    try (apply phase_at_goto in E; [| unfold after_wake, after_useless; repeat case_match; done]);
    rewrite ?phase_at_alter in E by done; exact E.
Qed.

Lemma ordinary_runs t m x : rounds m → all_threads m !! t = Some x → ordinary (at_ x) = true → ¬ stopped m.
Proof.
  intros H Hx%seats_lookup Ho [E | E].
  - by eapply rounds_not_over.
  - unfold phase_at in E. apply fmap_Some in E as (y & Hy%seats_lookup & E).
    pose proof (rounds_undecided _ _ _ _ _ _ H Hx Ho _ Hy) as Hd. cbn in Hd. by rewrite <- E in Hd.
Qed.

(** the threads in the other phases change no state and take no work *)
Lemma all_idle_alter f t ts :
  (∀ x, tstate (f x) = tstate x ∧ here (f x) = here x ∧ buffer (f x) = buffer x) → all_idle ts → all_idle (alter f t ts).
Proof.
  intros Hf H. refine (all_alter (λ _, idle_thread) f t ts H _). intros x Hx%H.
  unfold idle_thread, is_inactive, thread_has_work, buffer_empty in *. by destruct (Hf x) as (-> & -> & ->).
Qed.

Lemma step_idle t a m m' x :
  all_threads m !! t = Some x → ordinary (at_ x) = false → thread_step static_ids t a m = Some (Ok m') →
  all_idle (all_threads m) → all_idle (all_threads m').
Proof.
  intros Hx Ho H Hi. step_inv H;
    match goal with Ha : at_ ?s = _ |- _ => injection Hx as ->; rewrite Ha in Ho; try discriminate Ho end;
    cbn [all_threads alter_thread set_threads set_active_threads set_done set_total set_round push_buffer set_owner];
    by repeat (apply all_idle_alter; [done |]).
Qed.

(** no thread has counted itself active *)
Lemma nobody_active m x :
  0 < max_level <= 2 ^ 63 → reach static_ids max_level m → all_threads m !! 0%nat = Some x → at_ x = Leading →
  total_in_agg m = 0 → active_threads m <= 0 → all_idle (all_threads m).
Proof.
  intros HL Hm Hx Ha Ht Hact. pose proof (reach_rounds m HL Hm) as Hr. pose proof (seats_lookup _ _ _ Hx) as H0.
  rewrite Ha in H0. destruct (rounds_follow _ _ _ _ _ Hr H0 (or_intror (conj eq_refl Ht))) as [_ Hf].
  assert (Hph : ∀ t y, all_threads m !! t = Some y → at_ y = Leading ∨ at_ y = Following).
  { intros t y Hy. destruct (decide (t = 0%nat)) as [-> | Hne]; [left; congruence | right].
    by destruct (Hf t _ (seats_lookup _ _ _ Hy) Hne). }
  assert (Hc : ∀ t y, all_threads m !! t = Some y → counted y = act y ∧ 0 <= act y).
  { intros t y Hy. unfold counted. split; [| unfold act; case_match; lia]. by destruct (Hph t y Hy) as [-> | ->]; cbn; lia. }
  assert (Hn : ∀ t y, all_threads m !! t = Some y → 0 <= counted y)
    by (intros t y Hy; destruct (Hc t y Hy); lia).
  pose proof (reach_barrier m Hm) as Hb. unfold barrier_exact in Hb.
  pose proof (sumz_nonneg _ _ Hn) as Hp. assert (Hz : sumz counted (all_threads m) = 0) by lia.
  intros t y Hy. pose proof (sumz_zero _ _ Hn Hz t y Hy) as Hy0. destruct (Hc t y Hy) as [Hcy _].
  assert (Hin : is_inactive y = true).
  { rewrite Hcy in Hy0. unfold act, is_active in Hy0. unfold is_inactive. by destruct (tstate y). }
  split; [done |]. destruct (thread_has_work y) eqn:Hw; [exfalso | done].
  destruct (reach_woken m HL Hm t y Hy) as (j & z & Hz' & Hk); [| done | done |].
  - by destruct (Hph t y Hy) as [-> | ->].
  - by destruct (Hph j z Hz') as [E | E]; rewrite E in Hk.
Qed.

Lemma step_stops t a m m' x :
  all_threads m !! t = Some x → phase_ok t (at_ x) → ordinary (at_ x) = false →
  thread_step static_ids t a m = Some (Ok m') →
  stopped m' → stopped m ∨ (at_ x = Leading ∧ total_in_agg m = 0 ∧ active_threads m <= 0).
Proof.
  intros Hx Hrole Ho H. step_inv H;
    match goal with Ha : at_ ?s = _ |- _ => injection Hx as ->; rewrite Ha in Ho, Hrole |- *; try discriminate Ho end;
    (intros [E | E]; [try (left; by left) |]);
    cbn [round_state all_threads alter_thread set_threads set_done set_total set_round] in E;
    try (apply phase_at_goto in E; [| done]; rewrite ?phase_at_alter in E by done; left; right; exact E).
  - apply Z.eqb_eq in Heqb. destruct (Z.ltb_spec 0 (active_threads m)); [| by right].
    apply phase_at_goto in E; [| done]. left. by right.
  - unfold get_next in E. by case_match.
  - left. right. cbn in Hrole. subst t. unfold phase_at. rewrite Heqo. cbn. by rewrite Heqp.
Qed.

Definition ends_idle (m : machine) : Prop := stopped m → all_idle (all_threads m).

Lemma reach_idle m : 0 < max_level <= 2 ^ 63 → reach static_ids max_level m → ends_idle m.
Proof.
  intros HL. induction 1 as [m H | t a m m' Hm IH Hr Hf H].
  - intros Hs. exfalso. assert (all_threads m ≠ []) as Hne by apply (init_some _ _ H).
    destruct (all_threads m !! 0%nat) as [x |] eqn:Hx; [| by destruct (all_threads m)].
    eapply ordinary_runs; [by eapply initial_rounds | exact Hx | | exact Hs].
    by destruct (init_threads _ _ H _ x Hx) as [-> _].
  - intros Hs. destruct (all_threads m !! t) as [x |] eqn:Hx; [| unfold thread_step in H; by rewrite Hx in H].
    destruct (ordinary (at_ x)) eqn:Ho.
    + exfalso. eapply ordinary_runs; [by apply reach_rounds | exact Hx | exact Ho |]. by eapply step_ordinary.
    + eapply step_idle; [exact Hx | exact Ho | exact H |].
      pose proof (rounds_role _ _ _ (reach_rounds m HL Hm) _ _ (seats_lookup _ _ _ Hx)) as Hrole.
      destruct (step_stops _ _ _ _ _ Hx Hrole Ho H Hs) as [Hs' | (Ha & Ht & Hact)]; [by apply IH |].
      rewrite Ha in Hrole. cbn in Hrole. subst t. by eapply nobody_active.
Qed.

(** ** The last thread that sleeps *)

Record done_ok (ts : list static_local) (active : Z) (done : bool) : Prop := {
  done_count : 0 <= active;
  done_reset : phase_at 0 ts = Some Resetting → 0 < active;
  done_told : active = 0 → done = true ∨ ∃ t, phase_at t ts = Some Sleeping_done
}.

Lemma done_same f t ts active done :
  (∀ x, at_ (f x) = at_ x) → done_ok (alter f t ts) active done ↔ done_ok ts active done.
Proof.
  intros Hf. split; intros [D1 D2 D3]; split; try done.
  - rewrite phase_at_alter in D2 by done. done.
  - intros [|[j Hj]]%D3; [by left | right; exists j]. by rewrite phase_at_alter in Hj.
  - by rewrite phase_at_alter.
  - intros [|[j Hj]]%D3; [by left | right; exists j]. by rewrite phase_at_alter.
Qed.

Lemma phase_at_kept j t f ts : j ≠ t → phase_at j (alter f t ts) = phase_at j ts.
Proof. intros H. unfold phase_at. by rewrite list_lookup_alter_ne. Qed.

Lemma phase_at_to t p ph ts : phase_at t ts = Some ph → phase_at t (alter (goto p) t ts) = Some p.
Proof. unfold phase_at. intros (x & Hx & _)%fmap_Some. by rewrite list_lookup_alter_eq, Hx. Qed.

Lemma done_goto t p ph ts active active' done :
  done_ok ts active done → phase_at t ts = Some ph → ph ≠ Sleeping_done → p ≠ Resetting →
  active' = active ∨ active' = active + 1 → done_ok (alter (goto p) t ts) active' done.
Proof.
  intros [D1 D2 D3] Ht Hn Hp Ha. split.
  - lia.
  - destruct (decide (0%nat = t)) as [<- | Hne]; [rewrite (phase_at_to _ _ _ _ Ht); congruence |].
    rewrite phase_at_kept by done. intros ?%D2. lia.
  - intros E. destruct (D3 ltac:(lia)) as [-> | [j Hj]]; [by left | right]. exists j.
    rewrite phase_at_kept; [done |]. intros ->. congruence.
Qed.

Lemma leader_undecided t m ph q :
  rounds m → phase_at t (all_threads m) = Some ph → ordinary ph = true → phase_at 0 (all_threads m) = Some q →
  deciding q = false.
Proof.
  intros Hr (x & Hx%seats_lookup & ->)%fmap_Some Ho (y & Hy%seats_lookup & ->)%fmap_Some.
  exact (rounds_undecided _ _ _ _ _ _ Hr Hx Ho _ Hy).
Qed.

Lemma step_done t a m m' :
  rounds m → done_ok (all_threads m) (active_threads m) (term_done m) →
  thread_step static_ids t a m = Some (Ok m') → done_ok (all_threads m') (active_threads m') (term_done m').
Proof.
  intros Hr Hd H. step_inv H;
    match goal with Hx : all_threads m !! t = Some ?s, Ha : at_ ?s = _ |- _ =>
      pose proof (seats_lookup _ _ _ Hx) as Hs; rewrite Ha in Hs;
      assert (Hph : phase_at t (all_threads m) = Some (at_ s)) by (unfold phase_at; by rewrite Hx);
      rewrite Ha in Hph end;
    cbn [all_threads active_threads term_done alter_thread set_threads set_active_threads set_done set_total set_round
         push_buffer set_owner];
    rewrite ?done_same by done; try exact Hd;
    try match goal with E : term_done m = _ |- _ => rewrite ?E end;
    try (eapply done_goto;
      [ rewrite ?done_same by done; exact Hd | rewrite ?phase_at_alter by done; exact Hph | done
      | unfold after_wake, after_useless; repeat case_match; done | by auto ]).
  - cbn in Heqb0. apply Z.eqb_eq in Heqb0. rewrite Heqb0. split; [done | | by eauto using phase_at_to].
    intros E%phase_at_goto; [| done]. by pose proof (leader_undecided _ _ _ _ Hr Hph eq_refl E).
  - cbn in Heqb0. apply Z.eqb_neq in Heqb0. apply Z.ltb_lt in Heqb. split; [lia | lia | lia].
  - destruct Hd as [D1 D2 D3]. split; [done | | by left].
    intros E%phase_at_goto; [| done]. rewrite phase_at_alter in E by done. by apply D2.
  - destruct Hd as [D1 D2 D3]. destruct (Z.ltb_spec 0 (active_threads m)) as [Ha | Ha]; [split; [done | done | lia] |].
    apply (done_goto t _ Leading _ (active_threads m)); [by split | done | done | done | by left].
  - pose proof (rounds_role _ _ _ Hr _ _ Hs) as Hrole. cbn in Hrole. subst t. pose proof (done_reset _ _ _ Hd Hph).
    split; [lia | done | lia].
Qed.

Lemma reach_done m :
  0 < max_level <= 2 ^ 63 → reach static_ids max_level m → done_ok (all_threads m) (active_threads m) (term_done m).
Proof.
  intros HL. induction 1 as [m H | t a m m' Hm IH Hr Hf H].
  - rewrite (init_active _ _ H). unfold num_threads. pose proof (init_some _ _ H) as Hne.
    assert (0 < Z.of_nat (length (all_threads m))) by (destruct (all_threads m); [done | cbn; lia]). split; lia.
  - eapply step_done; [by apply reach_rounds | exact IH | exact H].
Qed.

(** ** Locks *)

(** a thread [j] in [p] has the lock of thread [o] *)
Definition holds (j : nat) (p : phase) (o : nat) : Prop :=
  match p with
  | Waking_locked _ i | Waking_queue _ i | Waking_buffer _ i | Waking_set _ i | Waking_count _ i => o = i
  | Sleeping_locked | Sleeping_count | Sleeping_done | Activating_locked _ | Activating_count _ => o = j
  | _ => False
  end.

Definition lock_at (o : nat) (ts : list static_local) : option (option nat) := lock <$> ts !! o.

Lemma lock_at_same f t o ts : (∀ x, lock (f x) = lock x) → lock_at o (alter f t ts) = lock_at o ts.
Proof.
  intros Hf. unfold lock_at. rewrite list_lookup_alter. case_decide as E; [| done]. subst o.
  destruct (ts !! t); cbn; [by rewrite Hf | done].
Qed.

Lemma lock_at_set l o i ts k :
  lock_at i (alter (set_lock l) o ts) = Some k → (i = o ∧ k = l) ∨ (i ≠ o ∧ lock_at i ts = Some k).
Proof.
  unfold lock_at. rewrite list_lookup_alter. case_decide as E; [| by right]. subst i.
  destruct (ts !! o); [| done]. cbn. intros [= <-]. by left.
Qed.

Definition locks_ok (ts : list static_local) : Prop :=
  ∀ o l j, lock_at o ts = Some l → l = Some j ↔ ∃ p, phase_at j ts = Some p ∧ holds j p o.

Lemma locks_same f t ts :
  (∀ x, at_ (f x) = at_ x) → (∀ x, lock (f x) = lock x) → locks_ok (alter f t ts) ↔ locks_ok ts.
Proof.
  intros Ha Hf. split; intros H o l j Hl; specialize (H o l j);
    rewrite lock_at_same, phase_at_alter in * by done; by apply H.
Qed.

(** a thread keeps its locks *)
Lemma locks_goto t p ph ts :
  locks_ok ts → phase_at t ts = Some ph → (∀ o, holds t p o ↔ holds t ph o) → locks_ok (alter (goto p) t ts).
Proof.
  intros H Ht Hh o l j Hl. rewrite lock_at_same in Hl by done. rewrite (H o l j Hl).
  destruct (decide (j = t)) as [-> | Hj].
  - rewrite (phase_at_to _ _ _ _ Ht), Ht. split; intros (q & [= <-] & Hq); eexists; (split; [done |]); by apply Hh.
  - by rewrite phase_at_kept.
Qed.

(** a thread takes the lock of [o] *)
Lemma locks_take t o p ph ts :
  locks_ok ts → phase_at t ts = Some ph → lock_at o ts = Some None →
  (∀ i, ¬ holds t ph i) → (∀ i, holds t p i ↔ i = o) →
  locks_ok (alter (goto p) t (alter (set_lock (Some t)) o ts)).
Proof.
  intros H Ht Ho Hn Hh i l j Hl. rewrite lock_at_same in Hl by done.
  assert (Hp : phase_at t (alter (set_lock (Some t)) o ts) = Some ph) by by rewrite phase_at_alter.
  apply lock_at_set in Hl as [[-> ->] | [Hi Hl]]; (destruct (decide (j = t)) as [-> | Hj];
    [rewrite (phase_at_to _ _ _ _ Hp) | rewrite phase_at_kept, phase_at_alter by done]).
  - split; [intros _; eexists; split; [done |]; by apply Hh | done].
  - split; [intros [= ->]; done | intros (q & Hq & Hk)]. exfalso.
    assert (None = Some j) as [=] by (apply (H o None j Ho); by eauto).
  - rewrite (H i l t Hl), Ht. split; intros (q & [= <-] & Hq); [by destruct (Hn i) | by apply Hh in Hq].
  - apply (H i l j Hl).
Qed.

(** and gives it back *)
Lemma locks_give t o p ph ts :
  locks_ok ts → phase_at t ts = Some ph → (∀ i, holds t ph i ↔ i = o) → (∀ i, ¬ holds t p i) →
  locks_ok (alter (goto p) t (alter (set_lock None) o ts)).
Proof.
  intros H Ht Hh Hn i l j Hl. rewrite lock_at_same in Hl by done.
  assert (Hp : phase_at t (alter (set_lock None) o ts) = Some ph) by by rewrite phase_at_alter.
  assert (K : ∀ k, lock_at o ts = Some k → k = Some t).
  { intros k Hk. apply (H o k t Hk). exists ph. split; [done |]. by apply Hh. }
  pose proof Hl as Hl'. apply lock_at_set in Hl' as [[-> ->] | [Hi Hl']]; (destruct (decide (j = t)) as [-> | Hj];
    [rewrite (phase_at_to _ _ _ _ Hp) | rewrite phase_at_kept, phase_at_alter by done]).
  - split; [done | intros (q & [= <-] & Hq); by destruct (Hn o)].
  - split; [done | intros (q & Hq & Hk)]. exfalso. unfold lock_at in Hl. rewrite list_lookup_alter_eq in Hl.
    destruct (ts !! o) as [y |] eqn:Hy; [| done]. assert (Hk' : lock_at o ts = Some (lock y)) by (unfold lock_at; by rewrite Hy).
    assert (lock y = Some j) as E by (apply (H o _ j Hk'); by eauto). rewrite (K _ Hk') in E. congruence.
  - rewrite (H i l t Hl'), Ht. split; intros (q & [= <-] & Hq); [by apply Hh in Hq | by destruct (Hn i)].
  - apply (H i l j Hl').
Qed.

Lemma step_locks t a m m' :
  locks_ok (all_threads m) → thread_step static_ids t a m = Some (Ok m') → locks_ok (all_threads m').
Proof.
  intros Hl H. step_inv H;
    match goal with Hx : all_threads m !! t = Some ?s, Ha : at_ ?s = _ |- _ =>
      assert (Hph : phase_at t (all_threads m) = Some (at_ s)) by (unfold phase_at; by rewrite Hx);
      rewrite Ha in Hph end;
    cbn [all_threads alter_thread set_threads set_active_threads set_done set_total set_round push_buffer set_owner];
    rewrite ?locks_same by done; try exact Hl;
    try (eapply locks_goto;
      [ rewrite ?locks_same by done; exact Hl | rewrite ?phase_at_alter by done; exact Hph
      | unfold after_wake, after_useless; intros ?; repeat case_match; done ]; fail).
  all: try (eapply locks_give; [exact Hl | exact Hph | intros ?; reflexivity
    | unfold after_wake; intros ?; repeat case_match; cbn; tauto]).
  all: try match goal with E : of_option _ = Ok _ |- _ => apply of_option_ok in E end.
  all: apply bool_decide_eq_true in Heqb.
  all: eapply locks_take; [exact Hl | exact Hph | unfold lock_at | cbn; tauto | intros ?; reflexivity].
  - by rewrite Heqr; cbn; rewrite Heqb.
  - by rewrite Heqo; cbn; rewrite Heqb.
  - by rewrite Heqo; cbn; rewrite Heqb.
Qed.

Lemma reach_locks m : reach static_ids max_level m → locks_ok (all_threads m).
Proof.
  induction 1 as [m H | t a m m' _ IH _ _ H]; [| by eapply step_locks].
  intros o l j. unfold lock_at. intros (y & Hy & ->)%fmap_Some.
  destruct (init_threads _ _ H o y Hy) as (_ & _ & -> & _). split; [done |].
  intros (p & (x & Hx & ->)%fmap_Some & Hk). by destruct (init_threads _ _ H j x Hx) as [E _]; rewrite E in Hk.
Qed.

(** a thread that cannot go on waits for a lock that is held, or for the others to count *)
Definition stuck (t : nat) (m : machine) : Prop := thread_step static_ids t Go m = None.

Lemma holder_moves t m p o : phase_at t (all_threads m) = Some p → holds t p o → ¬ stuck t m.
Proof.
  intros (x & Hx & ->)%fmap_Some Hh. unfold stuck, thread_step. rewrite Hx.
  destruct (at_ x) eqn:E; try done; unfold wake_locked_step, sleep_step, busy_step, activate_step, via, check, release, moves, to;
    repeat case_match; done.
Qed.

Lemma stuck_waits t m x :
  all_threads m !! t = Some x → stuck t m →
  (∃ o j, lock_at o (all_threads m) = Some (Some j)) ∨ (at_ x = Leading ∧ total_in_agg m ≠ 0) ∨
  (at_ x = Following ∧ round_state m = thread_round_state x) ∨ at_ x = Finished.
Proof.
  intros Hx H. unfold stuck, thread_step in H. rewrite Hx in H.
  destruct (at_ x) eqn:E; unfold retrieve_step, hold_step, wake_step, wake_locked_step, sleep_step, busy_step, activate_step,
    next_node_step, run_step, agg_step, terminate_step, round_step, via, check, when, release, moves, to in H;
    repeat case_match; try discriminate H; try by (right; right; right).
  1-3: left; match goal with Hf : bool_decide (lock ?y = None) = false |- _ =>
    apply bool_decide_eq_false in Hf; destruct (lock y) as [j |] eqn:El; [| done] end.
  - apply of_option_ok in H0. exists o, j. unfold lock_at. by rewrite H0; cbn; rewrite El.
  - exists t, j. unfold lock_at. by rewrite Hx; cbn; rewrite El.
  - exists t, j. unfold lock_at. by rewrite Hx; cbn; rewrite El.
  - right. left. split; [done |]. by apply Z.eqb_neq.
  - right. right. left. split; [done |]. by apply Z.eqb_eq, negb_false_iff.
Qed.

(** C18: the threads do not all wait for each other: when none of them can take a
    step, whatever they did before and in whatever order, every thread has left
    [do_loop].  The locks of [set_active] and of the busy loops are given back by steps
    that do not wait, and the last thread of a round to count lets the leader on. *)
Theorem no_deadlock m :
  0 < max_level <= 2 ^ 63 → reach static_ids max_level m → (∀ t, thread_step static_ids t Go m = None) →
  ∀ t x, all_threads m !! t = Some x → at_ x = Finished.
Proof.
  intros HL Hm Hst. pose proof (reach_rounds m HL Hm) as Hr.
  assert (Hph : ∀ t x, all_threads m !! t = Some x → (at_ x = Leading ∧ total_in_agg m ≠ 0) ∨
    (at_ x = Following ∧ round_state m = thread_round_state x) ∨ at_ x = Finished).
  { intros t x Hx. destruct (stuck_waits t m x Hx (Hst t)) as [(o & j & Ho) |]; [exfalso | done].
    destruct (proj1 (reach_locks m Hm o _ j Ho) eq_refl) as (p & Hp & Hk). apply (holder_moves j m p o Hp Hk), Hst. }
  intros t x Hx. assert (Hlead : ∃ y, all_threads m !! 0%nat = Some y).
  { destruct (all_threads m) as [| y l]; [done | by exists y]. }
  destruct Hlead as [y Hy]. pose proof (seats_lookup _ _ _ Hy) as Hsy.
  assert (Hz : round_state m = 0).
  { destruct (decide (round_state m = 0)) as [| Hne]; [done | exfalso].
    assert (Hnf : ∀ t x, all_threads m !! t = Some x → at_ x ≠ Finished).
    { intros j z Hz E. apply Hne. by apply (rounds_finished _ _ _ Hr j _ (seats_lookup _ _ _ Hz)). }
    destruct (Hph _ y Hy) as [[Ey Ht] | [[Ey _] | Ey]]; [| | by eapply Hnf].
    - apply Ht. rewrite (rounds_total _ _ _ Hr Hne), not_resetting.
      + rewrite (sumz_const _ 0); [lia |]. intros j v Hv. unfold seats in Hv. rewrite list_lookup_fmap in Hv.
        apply fmap_Some in Hv as (z & Hz & ->). unfold unfinished. cbn.
        destruct (Hph j z Hz) as [[-> _] | [[-> E] | E]]; [done | by rewrite E, Z.eqb_refl | by destruct (Hnf j z Hz)].
      + intros v. rewrite Hsy, Ey. by intros [= <-].
    - by pose proof (rounds_role _ _ _ Hr _ _ Hsy) as Hrole; rewrite Ey in Hrole. }
  destruct (Hph t x Hx) as [[E _] | [[E Ht] | E]]; [| | done].
  - destruct (rounds_over _ _ _ Hr Hz _ _ (seats_lookup _ _ _ Hx)) as (_ & Hn & _). by destruct Hn.
  - destruct (rounds_seat _ _ _ Hr _ _ (seats_lookup _ _ _ Hx)); cbn in *; lia.
Qed.

(** C10: when the leader has ended the rounds every thread is inactive and has no work
    left: its buffer and its queue are empty, none of its nodes has a tuple or a mark,
    and the barrier counts none.  A work that reaches a thread after it has looked for
    the last time makes the sender set it active before it counts itself. *)
Theorem end_without_work m t x :
  0 < max_level <= 2 ^ 63 → reach static_ids max_level m → round_state m = 0 → all_threads m !! t = Some x →
  active_threads m = 0 ∧ tstate x = THREAD_INACTIVE ∧ buffer x = [] ∧ has_work (here x) = false ∧
  ∀ a n, snodes (here x) !! a = Some n → node_has_work n = false ∧ i_am_on_queue n = false.
Proof.
  intros HL Hm Hr Hx. pose proof (reach_rounds m HL Hm) as Hro.
  assert (Hi := reach_idle m HL Hm (or_introl Hr)). destruct (Hi t x Hx) as [H1 H2].
  assert (Hover : ∀ t x, all_threads m !! t = Some x → ordinary (at_ x) = false)
    by (intros j y Hy; apply (rounds_over _ _ _ Hro Hr _ _ (seats_lookup _ _ _ Hy))).
  pose proof (Hover t x Hx) as Ho. apply orb_false_iff in H2 as [H2 H3].
  destruct (reach_ok static_ids max_level m HL Hm t x Hx) as [(p & Hp & Hq) _ _ _ _ _].
  split; [| split; [by apply bool_decide_eq_true in H1 | split; [| split; [done |]]]].
  - rewrite (reach_barrier m Hm), (sumz_const _ 0); [lia |]. intros j y Hy. unfold counted.
    rewrite inactive_act by apply (Hi j y Hy). pose proof (Hover j y Hy). by destruct (at_ y).
  - apply negb_false_iff in H3. unfold buffer_empty in H3. by destruct (buffer x).
  - intros a n. apply (rep_quiet _ p); [done | apply Hq; by destruct (at_ x) | done].
Qed.

(** the barrier counts the threads that are active, one that has written its state
    and not yet counted it taken into account; and when it counts none the termination
    is announced, or the last thread that went to sleep is about to announce it. *)
Theorem barrier_tells m :
  0 < max_level <= 2 ^ 63 → reach static_ids max_level m →
  active_threads m = sumz counted (all_threads m) ∧ 0 <= active_threads m ∧
  (active_threads m = 0 → (∀ t x, all_threads m !! t = Some x → at_ x ≠ Sleeping_done) → term_done m = true).
Proof.
  intros HL Hm. destruct (reach_done m HL Hm) as [D1 _ D3]. split; [exact (reach_barrier m Hm) | split; [done |]].
  intros E Hn. destruct (D3 E) as [| (t & (x & Hx & Ex)%fmap_Some)]; [done |]. by destruct (Hn t x Hx).
Qed.

(** The lock of a thread is held by one thread at a time, and what is done under it
    ([set_active] from another thread, going to sleep, waking up) excludes the rest. *)
Theorem one_holder m o y i j p q :
  reach static_ids max_level m → all_threads m !! o = Some y →
  phase_at i (all_threads m) = Some p → holds i p o → phase_at j (all_threads m) = Some q → holds j q o → i = j.
Proof.
  intros Hm Hy Hi Hp Hj Hq. assert (Hl : lock_at o (all_threads m) = Some (lock y)) by (unfold lock_at; by rewrite Hy).
  assert (Ei : lock y = Some i) by (apply (reach_locks m Hm o _ i Hl); by exists p).
  assert (Ej : lock y = Some j) by (apply (reach_locks m Hm o _ j Hl); by exists q). congruence.
Qed.

End Quiet.
