(* ===== verification/ThreadsRace.v ===== *)
(** Runs of two threads of [Threads]: one that ends, and one in which an iteration ends
    while a thread has work in a queue. *)

From Stdlib Require Import ZArith Lia Bool.
From stdpp Require Import base tactics list numbers option gmap.
From S2P Require Import Prelude Words LinearQueue DoubleQueue BoundedQueue World Serial Threads ThreadsEnd ThreadsQuiet.

#[local] Open Scope Z_scope.

(** ** Schedules that keep the queues small *)

Definition roomyb (s : serial_local) : bool :=
  forallb (λ an, bounded_size (queue an.2) <? 2 ^ 64 - 1) (map_to_list (snodes s)).

Lemma roomyb_ok s : roomyb s = true → roomy s.
Proof.
  unfold roomyb. rewrite forallb_forall. intros H a n Hn. apply Z.ltb_lt.
  apply (H (a, n)), list_elem_of_In, elem_of_map_to_list, Hn.
Qed.

Definition fitsb (max_level : Z) (a : action) : bool :=
  match a with
  | New_work w | Send w | Create w | New_agg w => (0 <=? w.2) && (w.2 <? max_level) && (0 <=? w.1.1)
  | Go | Gather => true
  end.

Lemma fitsb_ok max_level a : fitsb max_level a = true → action_fits max_level a.
Proof. destruct a; cbn; unfold fits; [done | lia.. | done | lia | lia]. Qed.

(** the schedule runs to a machine that satisfies [P] *)
Fixpoint runs_to (static_ids : nat → list Z) (max_level : Z) (P : machine → bool) (l : list (nat * action)) (m : machine) : bool :=
  match l with
  | [] => P m
  | (t, a) :: l =>
      fitsb max_level a && forallb (λ x, roomyb (here x)) (all_threads m) &&
      match thread_step static_ids t a m with
      | Some (Ok m) => runs_to static_ids max_level P l m
      | _ => false
      end
  end.

Lemma runs_reach static_ids max_level P l m :
  reach static_ids max_level m → runs_to static_ids max_level P l m = true →
  ∃ m', reach static_ids max_level m' ∧ run_threads static_ids l m = Some (Ok m') ∧ P m' = true.
Proof.
  revert m. induction l as [| [t a] l IH]; intros m Hm H; cbn in H |- *; [by exists m |].
  apply andb_true_iff in H as [[Hf Hr]%andb_true_iff H].
  destruct (thread_step static_ids t a m) as [[m1 | f] |] eqn:E; try done. apply IH; [| done].
  eapply reach_step; [exact Hm | | by apply fitsb_ok | exact E].
  intros j x Hx. rewrite forallb_forall in Hr. apply roomyb_ok, (Hr x), list_elem_of_In. by eapply list_elem_of_lookup_2.
Qed.

(** ** Two threads, each with a node that has a tuple *)

Definition made (s : serial_local) (r : res serial_local) : serial_local :=
  match r with Ok s => s | Err _ => s end.
Definition new_node (id : Z) : serial_local := made (new_serial 1) (create_serial_node id (new_serial 1)).
Definition one_node (id : Z) : serial_local := made (new_node id) (static_new_work (id, id + 10, 0) (new_node id)).

Definition two_threads : machine :=
  mk_machine [mk_static (one_node 0) [] THREAD_ACTIVE None 1 Start;
              mk_static (one_node 1) [] THREAD_ACTIVE None 1 Start]
    {[0 := 0%nat; 1 := 1%nat]} 2 false 2 1.

Definition two_ids (t : nat) : list Z := [Z.of_nat t].

Lemma empty_rep max_level : serial_rep (new_serial max_level) (mk_plan None [] ∅).
Proof.
  split; try done.
  - split; try done. apply NoDup_nil_2.
  - intros a ?%not_elem_of_nil. done.
  - intros a (W & HW & _). done.
Qed.

Lemma one_node_rep id s s' :
  0 <= id → create_serial_node id (new_serial 1) = Ok s → roomyb s = true →
  static_new_work (id, id + 10, 0) s = Ok s' →
  (∃ p, serial_rep s' p) ∧ max_strat_level s' = 1 ∧ dom (snodes s') = {[node_addr id]}.
Proof.
  intros Hid E Hr%roomyb_ok E'.
  destruct (create_rep id _ _ _ (empty_rep 1) (not_elem_of_empty _) ltac:(cbn; lia) E) as (p & Hp & _ & Hm & Hd).
  destruct (new_work_rep 1 id (id + 10) 0 s s' p Hp Hm ltac:(unfold fits; cbn; lia) Hr E') as (Hp' & Hm' & Hd').
  split; [by eexists |]. split; [done |]. rewrite Hd', Hd. cbn [new_serial snodes]. by rewrite dom_empty_L, union_empty_r_L.
Qed.

Lemma one_node_ok id :
  0 <= id < 2 →
  (∃ p, serial_rep (one_node id) p) ∧ max_strat_level (one_node id) = 1 ∧ dom (snodes (one_node id)) = {[node_addr id]}.
Proof.
  intros Hid. assert (id = 0 ∨ id = 1) as [-> | ->] by lia.
  - apply (one_node_rep 0 (new_node 0)); [done | vm_compute; reflexivity..].
  - apply (one_node_rep 1 (new_node 1)); [done | vm_compute; reflexivity..].
Qed.

Lemma two_threads_initial : initial 1 two_threads.
Proof.
  assert (L : ∀ t x, all_threads two_threads !! t = Some x →
    ∃ id, Z.to_nat id = t ∧ 0 <= id < 2 ∧ x = mk_static (one_node id) [] THREAD_ACTIVE None 1 Start).
  { intros [| [| t]] x; [intros [= <-]; by exists 0 | intros [= <-]; by exists 1 | done]. }
  split; try done. intros t x (id & Ht & Hid & ->)%L. cbn [at_ tstate lock thread_round_state buffer here].
  destruct (one_node_ok id Hid) as (Hp & Hm & Hd). split_and!; try done.
  rewrite Hd. intros a ->%elem_of_singleton. rewrite node_id_addr by lia. subst t.
  by assert (id = 0 ∨ id = 1) as [-> | ->] by lia.
Qed.

(** ** A run that ends *)

Definition goes (t : nat) (n : nat) : list (nat * action) := replicate n (t, Go).

(** each thread runs its node once; then they count and the leader ends the rounds *)
Definition calm : list (nat * action) :=
  goes 1 6 ++ [(1%nat, Gather)] ++ goes 1 12 ++ goes 0 6 ++ [(0%nat, Gather)] ++ goes 0 14 ++
  goes 1 8 ++ goes 0 5 ++ goes 1 2.

Definition finished (x : static_local) : bool := match at_ x with Finished => true | _ => false end.
Definition over (m : machine) : bool :=
  (round_state m =? 0) && match all_threads m with [x; y] => finished x && finished y | _ => false end.

Lemma finished_ok x : finished x = true → at_ x = Finished.
Proof. unfold finished. by destruct (at_ x). Qed.

Lemma calm_ends :
  ∃ m x y, reach two_ids 1 m ∧ round_state m = 0 ∧ all_threads m = [x; y] ∧ at_ x = Finished ∧ at_ y = Finished.
Proof.
  destruct (runs_reach two_ids 1 over calm two_threads) as (m & Hm & _ & Hp).
  - apply reach_initial, two_threads_initial.
  - vm_compute. reflexivity.
  - unfold over in Hp. apply andb_true_iff in Hp as [Hr%Z.eqb_eq Hp]. destruct (all_threads m) as [| x [| y []]] eqn:E; try done.
    apply andb_true_iff in Hp as [Hx%finished_ok Hy%finished_ok]. by exists m, x, y.
Qed.

Lemma end_without_work_witness :
  ∃ m x, reach two_ids 1 m ∧ all_threads m !! 1%nat = Some x ∧
  active_threads m = 0 ∧ tstate x = THREAD_INACTIVE ∧ buffer x = [] ∧ has_work (here x) = false ∧
  ∀ a n, snodes (here x) !! a = Some n → node_has_work n = false ∧ i_am_on_queue n = false.
Proof.
  destruct calm_ends as (m & x & y & Hm & Hr & E & _ & _). exists m, y. split; [done |].
  assert (Hy : all_threads m !! 1%nat = Some y) by by rewrite E. split; [done |].
  apply (end_without_work two_ids 1 m 1%nat y); [done | done | done | done].
Defined.

Lemma no_deadlock_witness : ∃ m x, all_threads m !! 0%nat = Some x ∧ at_ x = Finished.
Proof.
  destruct calm_ends as (m & x & y & Hm & Hr & E & Ex & Ey). exists m, x.
  assert (Hx : all_threads m !! 0%nat = Some x) by by rewrite E. split; [done |].
  refine (no_deadlock two_ids 1 m ltac:(done) Hm _ 0%nat x Hx).
  intros [| [| t]]; unfold thread_step; rewrite E; cbn; [by rewrite Ex | by rewrite Ey | done].
Defined.

Lemma barrier_tells_witness : active_threads two_threads = sumz counted (all_threads two_threads).
Proof. apply (barrier_tells two_ids 1 two_threads); [done |]. apply reach_initial, two_threads_initial. Defined.

Lemma one_holder_witness : ∃ m, reach two_ids 1 m ∧ phase_at 1 (all_threads m) = Some Sleeping_locked ∧ 1%nat = 1%nat.
Proof.
  destruct (runs_reach two_ids 1
    (λ m, match all_threads m with [_; y] => match at_ y with Sleeping_locked => true | _ => false end | _ => false end)
    (goes 1 6 ++ [(1%nat, Gather)] ++ goes 1 8) two_threads) as (m & Hm & _ & Hp).
  - apply reach_initial, two_threads_initial.
  - vm_compute. reflexivity.
  - destruct (all_threads m) as [| x [| y []]] eqn:E; try done. destruct (at_ y) eqn:Ey; try done.
    assert (Hph : phase_at 1 (all_threads m) = Some Sleeping_locked) by (rewrite E; cbn; by rewrite Ey).
    exists m. split; [done |]. split; [done |].
    eapply (one_holder two_ids 1 m 1 y 1 1 Sleeping_locked Sleeping_locked); try done. by rewrite E.
Defined.

(** ** An iteration that ends with work in a queue

    Thread 1 goes to sleep and looks at its buffer in [retrieve_tuples] while thread 0
    runs its node and sends a work for node 1. *)

Definition race : list (nat * action) :=
  goes 1 6 ++ [(1%nat, Gather)] ++ goes 1 13 ++
  goes 0 6 ++ [(0%nat, Gather)] ++ goes 1 3 ++ [(0%nat, Send (1, 20, 0))] ++ goes 1 1 ++ goes 0 15 ++ goes 1 4.

Definition raced (m : machine) : bool :=
  term_done m &&
  match all_threads m with
  | [_; y] => match at_ y, buffer y with Ending, [] => has_work (here y) && is_inactive y | _, _ => false end
  | _ => false
  end.

Lemma raced_ok m :
  raced m = true →
  ∃ x, all_threads m !! 1%nat = Some x ∧ at_ x = Ending ∧ has_work (here x) = true ∧ is_inactive x = true ∧
    term_done m = true ∧ thread_step two_ids 1 Go m = Some (Err assert_fail).
Proof.
  unfold raced. intros [Hd Hp]%andb_true_iff. destruct (all_threads m) as [| x [| y []]] eqn:E; try done.
  destruct (at_ y) eqn:Ey; try done. destruct (buffer y); [| done]. apply andb_true_iff in Hp as [Hw Hi].
  exists y. do 5 (split; [done |]). unfold thread_step. rewrite E. cbn. rewrite Ey.
  unfold terminate_step, thread_has_work. by rewrite Hw.
Qed.

(** C40: a thread that is inactive takes a work from its buffer in [retrieve_tuples] and
    has it in no queue yet when the sender, under the lock, finds that it [has_work] of
    nothing and does not set it active.  The sender goes to sleep last and announces the
    end: the thread leaves [get_work] with the work in its queue, against the assertion
    of [assert_end_iteration]. *)
Theorem retrieve_race :
  ∃ m x, reach two_ids 1 m ∧ run_threads two_ids race two_threads = Some (Ok m) ∧
    all_threads m !! 1%nat = Some x ∧ at_ x = Ending ∧ has_work (here x) = true ∧ is_inactive x = true ∧
    term_done m = true ∧ thread_step two_ids 1 Go m = Some (Err assert_fail).
Proof.
  destruct (runs_reach two_ids 1 raced race two_threads) as (m & Hm & Hrun & Hp).
  - apply reach_initial, two_threads_initial.
  - vm_compute. reflexivity.
  - destruct (raced_ok _ Hp) as (x & Hx & H1 & H2 & H3 & H4 & H5). exists m, x.
    split; [exact Hm |]. split; [exact Hrun |]. split; [exact Hx |]. do 4 (split; [assumption |]). exact H5.
Qed.
