(* ===== verification/Prio.v ===== *)
(** The scheduler of compiled priorities, [thread/prio.{hpp,cpp}] with
    [sched/nodes/thread_intrusive.hpp]: one thread of it, over the nodes and the queue
    of [Serial] and the intrusive heap of [Pqueues].

    A node with work is the one that runs, in the heap if its level is positive, or
    else in the double queue.  What other threads do is an operation ([push_buffer]);
    what this one sends to them is in [sent]; locks, sleep and the barrier are those
    of [Threads].  As the source is built: without TASK_STEALING, so that no node is
    [moving_around]. *)

From Stdlib Require Import ZArith Lia Bool SpecFloat.
From stdpp Require Import base tactics list numbers option gmap.
From S2P Require Import Loader.
From S2P Require Import Prelude Words Types Heap Pqueues Exec Externals LinearQueue DoubleQueue.
From S2P Require Import BoundedQueue World Serial.

#[local] Open Scope Z_scope.

(** ** State *)

Inductive priority_add_type : Type := ADD_PRIORITY | SET_PRIORITY.

(** [val] is an int *)
Record priority_add_item : Type := mk_item {
  item_typ : priority_add_type;
  item_val : Z;
  item_target : positive
}.

(** [static_local] and [threads_prio]; nodes by address, with the [priority_level] of
    each in [levels] and its owner, the id of a thread.  [ptype] is [priority_type],
    also the type of the heap, and None, like [taken_from_priority_queue], before it
    is set.  [sent] and [forwarded] are what went to the buffers of other threads. *)
Record prio_local : Type := mk_prio {
  here : serial_local;
  levels : gmap positive heap_priority;
  prio_queue : complex_pqueue.pqueue;
  ptype : option heap_type;
  taken_from_priority_queue : option bool;
  priority_buffer : list priority_add_item;
  node_map : list (positive * Z);
  buffer : list work;
  sent : list (Z * work);
  forwarded : list (Z * priority_add_item);
  owners : gmap positive Z;
  thread_id : Z
}.

Definition set_here (h : serial_local) (s : prio_local) : prio_local :=
  mk_prio h (levels s) (prio_queue s) (ptype s) (taken_from_priority_queue s) (priority_buffer s)
    (node_map s) (buffer s) (sent s) (forwarded s) (owners s) (thread_id s).
Definition set_levels (l : gmap positive heap_priority) (s : prio_local) : prio_local :=
  mk_prio (here s) l (prio_queue s) (ptype s) (taken_from_priority_queue s) (priority_buffer s)
    (node_map s) (buffer s) (sent s) (forwarded s) (owners s) (thread_id s).
Definition set_prio_queue (q : complex_pqueue.pqueue) (s : prio_local) : prio_local :=
  mk_prio (here s) (levels s) q (ptype s) (taken_from_priority_queue s) (priority_buffer s)
    (node_map s) (buffer s) (sent s) (forwarded s) (owners s) (thread_id s).
Definition set_ptype (t : heap_type) (s : prio_local) : prio_local :=
  mk_prio (here s) (levels s) (prio_queue s) (Some t) (taken_from_priority_queue s) (priority_buffer s)
    (node_map s) (buffer s) (sent s) (forwarded s) (owners s) (thread_id s).
Definition set_taken (b : bool) (s : prio_local) : prio_local :=
  mk_prio (here s) (levels s) (prio_queue s) (ptype s) (Some b) (priority_buffer s)
    (node_map s) (buffer s) (sent s) (forwarded s) (owners s) (thread_id s).
Definition set_priority_buffer (b : list priority_add_item) (s : prio_local) : prio_local :=
  mk_prio (here s) (levels s) (prio_queue s) (ptype s) (taken_from_priority_queue s) b
    (node_map s) (buffer s) (sent s) (forwarded s) (owners s) (thread_id s).
Definition set_node_map (m : list (positive * Z)) (s : prio_local) : prio_local :=
  mk_prio (here s) (levels s) (prio_queue s) (ptype s) (taken_from_priority_queue s)
    (priority_buffer s) m (buffer s) (sent s) (forwarded s) (owners s) (thread_id s).
Definition set_buffer (b : list work) (s : prio_local) : prio_local :=
  mk_prio (here s) (levels s) (prio_queue s) (ptype s) (taken_from_priority_queue s)
    (priority_buffer s) (node_map s) b (sent s) (forwarded s) (owners s) (thread_id s).
Definition send (o : Z) (w : work) (s : prio_local) : prio_local :=
  mk_prio (here s) (levels s) (prio_queue s) (ptype s) (taken_from_priority_queue s)
    (priority_buffer s) (node_map s) (buffer s) (sent s ++ [(o, w)]) (forwarded s) (owners s)
    (thread_id s).
Definition forward (o : Z) (i : priority_add_item) (s : prio_local) : prio_local :=
  mk_prio (here s) (levels s) (prio_queue s) (ptype s) (taken_from_priority_queue s)
    (priority_buffer s) (node_map s) (buffer s) (sent s) (forwarded s ++ [(o, i)]) (owners s)
    (thread_id s).
Definition set_owner (a : positive) (o : Z) (s : prio_local) : prio_local :=
  mk_prio (here s) (levels s) (prio_queue s) (ptype s) (taken_from_priority_queue s)
    (priority_buffer s) (node_map s) (buffer s) (sent s) (forwarded s) (<[a := o]> (owners s))
    (thread_id s).

(** [threads_prio(id, all)] *)
Definition new_prio (id max_strat_level : Z) : prio_local :=
  mk_prio (new_serial max_strat_level) ∅ (complex_pqueue.mk_pqueue [] ∅) None None [] [] [] [] [] ∅ id.

Definition level_of (a : positive) (s : prio_local) : res heap_priority := of_option (levels s !! a).
Definition put_level (a : positive) (l : heap_priority) (s : prio_local) : prio_local :=
  set_levels (<[a := l]> (levels s)) s.
Definition get_owner (a : positive) (s : prio_local) : res Z := of_option (owners s !! a).

(** the members of the union *)
Definition set_float_priority_level (v : spec_float) : heap_priority := bits_of_float v.
Definition set_int_priority_level (l : heap_priority) (v : Z) : heap_priority := set_int_field l v.

(** an operation of the double queue, or of a node *)
Definition on_here (f : serial_local → res serial_local) (s : prio_local) : res prio_local :=
  let* h := f (here s) in Ok (set_here h s).
(** an operation of the heap; its type is set by [init] *)
Definition on_heap (f : heap_type → complex_pqueue.pqueue → res complex_pqueue.pqueue) (s : prio_local)
    : res prio_local :=
  let* t := of_option (ptype s) in
  let* q := f t (prio_queue s) in
  Ok (set_prio_queue q s).

Definition queue_remove (a : positive) (h : serial_local) : res serial_local :=
  let* r := double_remove a (queue_nodes h) (slinks h) in Ok (set_queue_nodes r h).

Definition priority_empty (s : prio_local) : bool := complex_pqueue.empty (prio_queue s).

(** [create_node]: the two queues' links and flags are clear, the level is 0 *)
Definition create_prio_node (id : Z) (s : prio_local) : res prio_local :=
  let a := node_addr id in
  let* s := on_here (create_serial_node id) s in
  Ok (put_level a 0
        (set_prio_queue
           (complex_pqueue.mk_pqueue (complex_pqueue.heap (prio_queue s))
              (<[a := complex_pqueue.mk_node 0 0 false]> (complex_pqueue.nodes (prio_queue s)))) s)).

Section Program.
Context (program_priority : priority_info) (** of [state.all->PROGRAM] *).
Context (address : positive → Z) (** where a node is in memory: the order of [node_map] *).

(** ** Levels *)

Definition get_priority_type : res field_type := of_option (Loader.priority_type program_priority).

Definition has_priority_level (l : heap_priority) : res bool :=
  let* t := get_priority_type in
  match t with
  | FIELD_INT => Ok (0 <? int_priority l)
  | FIELD_FLOAT => Ok (SFltb (S754_zero false) (float_priority l))
  | _ => Err assert_fail
  end.

(** level 0 for the node that has run *)
Definition reset_level (a : positive) (s : prio_local) : res prio_local :=
  let* t := get_priority_type in
  let* l := level_of a s in
  match t with
  | FIELD_INT => Ok (put_level a (set_int_priority_level l 0) s)
  | FIELD_FLOAT => Ok (put_level a (set_float_priority_level (S754_zero false)) s)
  | _ => Err assert_fail
  end.

(** ** Work *)

Definition add_to_priority_queue (a : positive) (s : prio_local) : res prio_local :=
  let* l := level_of a s in on_heap (λ t, complex_pqueue.do_insert t a l) s.

Definition add_to_queue (a : positive) (s : prio_local) : res prio_local :=
  let* l := level_of a s in
  let* b := has_priority_level l in
  if b then add_to_priority_queue a s else on_here (push_node a) s.

Definition add_node_work (a : positive) (w : work) (s : prio_local) : res prio_local :=
  let* n := serial_of a (here s) in
  let* n := node_add_work w.1.2 w.2 n in
  Ok (set_here (put_serial a n (here s)) s).

Definition in_queue (a : positive) (s : prio_local) : res bool :=
  res_map i_am_on_queue (serial_of a (here s)).

Definition new_agg (w : work) (s : prio_local) : res prio_local :=
  let a := node_addr w.1.1 in
  let* s := add_node_work a w s in
  let* b := in_queue a s in
  if b then Ok s
  else
    let* s := on_here (set_in_queue a true) s in
    add_to_queue a s.

Definition prio_new_work (w : work) (s : prio_local) : res prio_local :=
  let* s := new_agg w s in
  let* b := in_queue (node_addr w.1.1) s in
  asserting b (Ok s).

(** [owner->buffer.push(new_work)]; the owner is then woken as in [Threads] *)
Definition prio_new_work_other (w : work) (s : prio_local) : res prio_local :=
  let* o := get_owner (node_addr w.1.1) s in
  if o =? thread_id s then Ok (set_buffer (buffer s ++ [w]) s) else Ok (send o w s).

(** another thread does so *)
Definition push_buffer (w : work) (s : prio_local) : prio_local := set_buffer (buffer s ++ [w]) s.

(** [retrieve_tuples], of [static_local] *)
Definition retrieve_tuple (w : work) (s : prio_local) : res prio_local :=
  let a := node_addr w.1.1 in
  let* o := get_owner a s in
  if o =? thread_id s then
    let* s := add_node_work a w s in
    let* b := in_queue a s in
    if b then Ok s
    else
      let* s := add_to_queue a s in
      on_here (set_in_queue a true) s
  else Ok (send o w s).

Fixpoint retrieve_loop (ws : list work) (s : prio_local) : res prio_local :=
  match ws with
  | [] => Ok s
  | w :: ws => let* s := retrieve_tuple w (set_buffer ws s) in retrieve_loop ws s
  end.

Definition retrieve_tuples (s : prio_local) : res prio_local := retrieve_loop (buffer s) s.

(** ** Priorities *)

Definition SFneqb (x y : spec_float) : bool := negb (SFeqb x y).
Definition float_zero : spec_float := S754_zero false.

(** the node is in the heap *)
Definition change_priority (a : positive) (priority : spec_float) (s : prio_local) : res prio_local :=
  let* l := level_of a s in
  if SFneqb (float_priority l) priority then
    if SFeqb priority float_zero then
      let s := put_level a (set_float_priority_level float_zero) s in
      let* s := on_heap (λ t, complex_pqueue.do_remove t a) s in
      on_here (push_node a) s
    else
      asserting (SFltb float_zero priority)
        (let* t := of_option (ptype s) in
         let* must_change :=
           match t with
           | HEAP_FLOAT_DESC => Ok (SFltb (float_priority l) priority)
           | HEAP_FLOAT_ASC => Ok (SFltb priority (float_priority l))
           | _ => Err assert_fail
           end in
         if must_change then
           let s := put_level a (set_float_priority_level priority) s in
           let* b := in_queue a s in
           asserting b
             (on_heap (λ t, complex_pqueue.move_node t a (set_float_priority_level priority)) s)
         else Ok s)
  else Ok s.

(** the node is in the double queue *)
Definition give_priority (a : positive) (priority : spec_float) (s : prio_local) : res prio_local :=
  if SFltb float_zero priority then
    let s := put_level a (set_float_priority_level priority) s in
    let* s := on_here (queue_remove a) s in
    let* b := complex_pqueue.in_queue (prio_queue s) a in
    asserting (negb b) (add_to_priority_queue a s)
  else Ok s.

Definition prio_set_node_priority (a : positive) (priority : spec_float) (s : prio_local) : res prio_local :=
  if decide (current_node (here s) = Some a) then
    Ok (put_level a (set_float_priority_level priority)
          (set_taken (negb (SFeqb priority float_zero)) s))
  else
    let* o := get_owner a s in
    asserting (o =? thread_id s)
      (let* b := in_queue a s in
       if b then
         let* h := complex_pqueue.in_queue (prio_queue s) a in
         let* s := (if h then change_priority a priority s else give_priority a priority s) in
         let* b := in_queue a s in
         asserting b (Ok s)
       else Ok (put_level a (set_float_priority_level priority) s)).

Definition prio_add_node_priority (a : positive) (priority : spec_float) (s : prio_local) : res prio_local :=
  let* l := level_of a s in
  prio_set_node_priority a (SFadd prec emax (float_priority l) priority) s.

(** [static const double add = 100.0] *)
Definition schedule_add : spec_float := float_of_int 100.

Definition prio_schedule_next (a : positive) (s : prio_local) : res prio_local :=
  let* prio :=
    (if priority_empty s then Ok schedule_add
     else
       let* pr := complex_pqueue.min_value (prio_queue s) in
       Ok (SFadd prec emax (float_priority pr) schedule_add)) in
  prio_set_node_priority a prio s.

(** the bodies are under [#if 0] *)
Definition set_node_priority_other (a : positive) (priority : spec_float) (s : prio_local) : prio_local := s.
Definition add_node_priority_other (a : positive) (priority : spec_float) (s : prio_local) : prio_local := s.

(** ** The buffer of priorities *)

(** [node_map[a] = v] *)
Fixpoint node_map_set (a : positive) (v : Z) (m : list (positive * Z)) : list (positive * Z) :=
  match m with
  | [] => [(a, v)]
  | (b, u) :: m' =>
      if decide (a = b) then (a, v) :: m'
      else if address a <? address b then (a, v) :: m
      else (b, u) :: node_map_set a v m'
  end.

Fixpoint node_map_find (a : positive) (m : list (positive * Z)) : option Z :=
  match m with
  | [] => None
  | (b, u) :: m => if decide (a = b) then Some u else node_map_find a m
  end.

(** the new entry, an int; on an ADD to an entry it adds [oldval] *)
Definition item_value (p : priority_add_item) (s : prio_local) : res Z :=
  let howmuch := float_of_int (item_val p) in
  match node_map_find (item_target p) (node_map s), item_typ p with
  | None, ADD_PRIORITY =>
      let* l := level_of (item_target p) s in
      float_to_int (SFadd prec emax (float_priority l) howmuch)
  | Some u, ADD_PRIORITY =>
      let oldval := float_of_int u in float_to_int (SFadd prec emax oldval oldval)
  | _, SET_PRIORITY => float_to_int howmuch
  end.

Definition check_priority_item (p : priority_add_item) (s : prio_local) : res prio_local :=
  let* o := get_owner (item_target p) s in
  if o =? thread_id s then
    let* v := item_value p s in
    Ok (set_node_map (node_map_set (item_target p) v (node_map s)) s)
  else Ok (forward o p s).

Fixpoint check_priority_items (ps : list priority_add_item) (s : prio_local) : res prio_local :=
  match ps with
  | [] => Ok s
  | p :: ps => let* s := check_priority_item p (set_priority_buffer ps s) in check_priority_items ps s
  end.

Fixpoint apply_node_map (m : list (positive * Z)) (s : prio_local) : res prio_local :=
  match m with
  | [] => Ok s
  | (a, v) :: m => let* s := prio_set_node_priority a (float_of_int v) s in apply_node_map m s
  end.

Definition check_priority_buffer (s : prio_local) : res prio_local :=
  let* s := check_priority_items (priority_buffer s) s in
  let* s := apply_node_map (node_map s) s in
  Ok (set_node_map [] s).

(** ** The next node *)

Definition prio_has_work (s : prio_local) : bool :=
  has_work (here s) || negb (match buffer s with [] => true | _ => false end) || negb (priority_empty s).

(** [current_node = prio_queue.pop()] *)
Definition pop_priority (s : prio_local) : res prio_local :=
  let* t := of_option (ptype s) in
  let* r := complex_pqueue.do_pop t (prio_queue s) in
  Ok (set_taken true (set_here (set_current_node r.1 (here s)) (set_prio_queue r.2 s))).

Definition prio_check_if_current_useless (s : prio_local) : res prio_local :=
  let* c := of_option (current_node (here s)) in
  let* n := serial_of c (here s) in
  asserting (i_am_on_queue n)
    (if node_has_work n then Ok s
     else
       let* s := on_here (set_in_queue c false) s in
       let* s := reset_level c s in
       if priority_empty s then Ok (set_here (set_current_node None (here s)) s)
       else
         let* b := complex_pqueue.in_queue (prio_queue s) c in
         asserting (negb b) (pop_priority s)).

(** what [set_next_node] comes to: a current node, or the loop of [busy_wait], which
    the thread leaves for the loop below once another one has pushed to its buffer *)
Inductive next : Type := Got (id : Z) | Waits.

(** the loop; every turn but the last takes a node from a queue *)
Fixpoint next_node_loop (fuel : nat) (s : prio_local) : res (bool * prio_local) :=
  match fuel with
  | O => Err undefined_behaviour
  | S fuel =>
      match current_node (here s) with
      | Some _ => Ok (true, s)
      | None =>
          let* s := retrieve_tuples s in
          let* s := check_priority_buffer s in
          if negb (prio_has_work s) then Ok (false, s)
          else if negb (priority_empty s) then
            let* s := pop_priority s in
            let* s := prio_check_if_current_useless s in
            next_node_loop fuel s
          else if has_work (here s) then
            let* r := pop_node (here s) in
            if r.1 then
              let* s := prio_check_if_current_useless (set_taken false (set_here r.2 s)) in
              next_node_loop fuel s
            else next_node_loop fuel (set_here r.2 s)
          else next_node_loop fuel s
      end
  end.

Definition set_next_node (s : prio_local) : res (bool * prio_local) :=
  let* s := (match current_node (here s) with
             | Some _ => prio_check_if_current_useless s
             | None => Ok s
             end) in
  next_node_loop (S (S (size (snodes (here s))))) s.

Definition prio_get_work (s : prio_local) : res (next * prio_local) :=
  let* s := check_priority_buffer s in
  let* r := set_next_node s in
  if negb r.1 then Ok (Waits, r.2)
  else
    match current_node (here r.2) with
    | None => Err assert_fail
    | Some c =>
        let* n := serial_of c (here r.2) in
        asserting (i_am_on_queue n && node_has_work n) (Ok (Got (node_id c), r.2))
    end.

(** ** The rest *)

Definition prio_finish_work (s : prio_local) : res unit :=
  match current_node (here s) with
  | None => Err assert_fail
  | Some c =>
      let* b := in_queue c s in
      let* o := get_owner c s in
      asserting (b && (o =? thread_id s)) (Ok ())
  end.

Definition prio_gather_next_tuples (id : Z) (s : prio_local) : res (list Z * prio_local) :=
  let* r := serial_gather_next_tuples id (here s) in Ok (r.1, set_here r.2 s).

(** [base::init_node]: the first tuple of a node, then its owner *)
Definition prio_init_node (w : work) (s : prio_local) : res prio_local :=
  let* s := prio_new_work w s in
  Ok (set_owner (node_addr w.1.1) (thread_id s) s).

(** a node made while the program runs *)
Definition prio_create_node (w : work) (s : prio_local) : res prio_local :=
  let* s := create_prio_node w.1.1 s in prio_init_node w s.

(** the nodes of the thread get their level and their first tuple, the works [ws] *)
Fixpoint init_nodes (ws : list work) (s : prio_local) : res prio_local :=
  match ws with
  | [] => Ok s
  | w :: ws =>
      let a := node_addr w.1.1 in
      let s := put_level a (initial_priority program_priority) s in
      let* s := prio_init_node w s in
      let* o := get_owner a s in
      let* n := serial_of a (here s) in
      asserting ((o =? thread_id s) && i_am_on_queue n && node_has_work n) (init_nodes ws s)
  end.

Definition heap_type_of : res heap_type :=
  let* t := get_priority_type in
  let* o := of_option (priority_ordering program_priority) in
  match t, o with
  | FIELD_FLOAT, PRIORITY_DESC => Ok HEAP_FLOAT_DESC
  | FIELD_FLOAT, PRIORITY_ASC => Ok HEAP_FLOAT_ASC
  | FIELD_INT, PRIORITY_DESC => Ok HEAP_INT_DESC
  | FIELD_INT, PRIORITY_ASC => Ok HEAP_INT_ASC
  | _, _ => Err assert_fail
  end.

Definition prio_init (ws : list work) (s : prio_local) : res prio_local :=
  let* t := heap_type_of in init_nodes ws (set_ptype t s).

(** [assert_end_iteration] of the scheduler and its nodes, less what is of [Threads] *)
Definition prio_assert_end_iteration (ids : list Z) (s : prio_local) : res unit :=
  asserting (negb (prio_has_work s))
    (let* _ := assert_nodes_end ids (here s) in
     asserting (match priority_buffer s with [] => true | _ => false end) (Ok ())).

End Program.
