(* ===== verification/PrioPlan.v ===== *)
(** What the scheduler of compiled priorities is to its callers: one node that runs, a
    map from the nodes of positive level to their levels, a line of the other nodes
    with work, and what came from and went to other threads.  Every operation of
    [Prio] follows this plan. *)

From Stdlib Require Import ZArith Lia Bool SpecFloat.
From stdpp Require Import base tactics list numbers option gmap.
From S2P Require Import Loader.
From S2P Require Import Prelude Words Doubles Types Heap Pqueues Exec Externals LinearQueue DoubleQueue.
From S2P Require Import BoundedQueue World Serial Prio.
Import complex_pqueue(wf, contents, nodes).

#[local] Open Scope Z_scope.

(** ** The plan *)

Record prio_plan : Type := mk_prio_plan {
  base : plan;
  ranked : gmap positive heap_priority;
  plan_levels : gmap positive heap_priority;
  inbox : list work;
  outbox : list (Z * work);
  plan_owners : gmap positive Z
}.

Definition set_base (b : plan) (p : prio_plan) : prio_plan :=
  mk_prio_plan b (ranked p) (plan_levels p) (inbox p) (outbox p) (plan_owners p).
Definition set_ranked (r : gmap positive heap_priority) (p : prio_plan) : prio_plan :=
  mk_prio_plan (base p) r (plan_levels p) (inbox p) (outbox p) (plan_owners p).
Definition set_plan_levels (l : gmap positive heap_priority) (p : prio_plan) : prio_plan :=
  mk_prio_plan (base p) (ranked p) l (inbox p) (outbox p) (plan_owners p).
Definition set_inbox (l : list work) (p : prio_plan) : prio_plan :=
  mk_prio_plan (base p) (ranked p) (plan_levels p) l (outbox p) (plan_owners p).
Definition set_outbox (l : list (Z * work)) (p : prio_plan) : prio_plan :=
  mk_prio_plan (base p) (ranked p) (plan_levels p) (inbox p) l (plan_owners p).

Definition set_running (r : option positive) (p : prio_plan) : prio_plan :=
  set_base (mk_plan r (waiting (base p)) (works (base p))) p.
Definition set_waiting (l : list positive) (p : prio_plan) : prio_plan :=
  set_base (mk_plan (running (base p)) l (works (base p))) p.
Definition set_works (w : gmap positive (list (list Z))) (p : prio_plan) : prio_plan :=
  set_base (mk_plan (running (base p)) (waiting (base p)) w) p.

Definition queued (p : prio_plan) (a : positive) : Prop :=
  on_queue (base p) a ∨ is_Some (ranked p !! a).
#[global] Instance queued_dec p a : Decision (queued p a).
Proof. unfold queued. apply _. Defined.

Section Plan.
Context (typ : heap_type) (me : Z).

(** a level puts its node in the heap *)
Definition positive_level (l : heap_priority) : bool :=
  match typ with
  | HEAP_INT_ASC | HEAP_INT_DESC => 0 <? int_priority l
  | HEAP_FLOAT_ASC | HEAP_FLOAT_DESC => SFltb float_zero (float_priority l)
  end.

Definition zero_level (l : heap_priority) : heap_priority :=
  match typ with
  | HEAP_INT_ASC | HEAP_INT_DESC => set_int_priority_level l 0
  | HEAP_FLOAT_ASC | HEAP_FLOAT_DESC => set_float_priority_level float_zero
  end.

(** a node that gets work gets in line once, at the place its level gives *)
Definition enqueue (a : positive) (p : prio_plan) : prio_plan :=
  match plan_levels p !! a with
  | Some l =>
      if positive_level l then set_ranked (<[a := l]> (ranked p)) p
      else set_waiting (waiting (base p) ++ [a]) p
  | None => p
  end.

Definition give (w : work) (p : prio_plan) : prio_plan :=
  set_works (alter (alter (λ l, l ++ [w.1.2]) (Z.to_nat w.2)) (node_addr w.1.1) (works (base p))) p.

Definition plan_add (w : work) (p : prio_plan) : prio_plan :=
  let a := node_addr w.1.1 in
  if decide (queued p a) then give w p else enqueue a (give w p).

(** a work from the buffer, for a node that may have another owner *)
Definition plan_deliver (p : prio_plan) (w : work) : prio_plan :=
  match plan_owners p !! node_addr w.1.1 with
  | Some o => if o =? me then plan_add w p else set_outbox (outbox p ++ [(o, w)]) p
  | None => p
  end.

Definition receive (p : prio_plan) : prio_plan := foldl plan_deliver (set_inbox [] p) (inbox p).

(** a node without work stops and loses its level *)
Definition retire (p : prio_plan) : prio_plan :=
  match running (base p) with
  | Some c => set_plan_levels (alter zero_level c (plan_levels p)) (set_running None p)
  | None => p
  end.

(** no ranked node comes before [a] *)
Definition best (p : prio_plan) (a : positive) (v : heap_priority) : Prop :=
  ranked p !! a = Some v ∧ ∀ b u, ranked p !! b = Some u → HEAP_COMPARE typ v u = true.

(** the next node: one of the best, or else the first in line *)
Inductive picks (p : prio_plan) : prio_plan → Prop :=
  | pick_ranked a v :
      best p a v → picks p (set_running (Some a) (set_ranked (delete a (ranked p)) p))
  | pick_waiting a l :
      ranked p = ∅ → waiting (base p) = a :: l → picks p (set_running (Some a) (set_waiting l p))
  | pick_none : ranked p = ∅ → waiting (base p) = [] → picks p p.

(** the node that runs goes on while it has work; a ranked node takes its place at
    once, before what other threads sent is looked at *)
Inductive next_plan (p : prio_plan) : prio_plan → Prop :=
  | next_same a : running (base p) = Some a → busy (base p) a → next_plan p p
  | next_at_once a p' :
      running (base p) = Some a → ¬ busy (base p) a → ranked p ≠ ∅ →
      picks (retire p) p' → next_plan p p'
  | next_after_mail p' :
      (∀ a, running (base p) = Some a → ¬ busy (base p) a ∧ ranked p = ∅) →
      picks (receive (retire p)) p' → next_plan p p'.

(** a new level for a node, None where an assertion fails *)
Definition must_change (l : heap_priority) (v : spec_float) : option bool :=
  match typ with
  | HEAP_FLOAT_DESC => Some (SFltb (float_priority l) v)
  | HEAP_FLOAT_ASC => Some (SFltb v (float_priority l))
  | _ => None
  end.

Definition put_plan_level (a : positive) (v : spec_float) (p : prio_plan) : prio_plan :=
  set_plan_levels (<[a := set_float_priority_level v]> (plan_levels p)) p.

(** a ranked node at another level *)
Definition rerank (a : positive) (v : spec_float) (p : prio_plan) : prio_plan :=
  set_ranked (<[a := set_float_priority_level v]> (ranked p)) (put_plan_level a v p).

(** a ranked node back in line *)
Definition unrank (a : positive) (p : prio_plan) : prio_plan :=
  set_waiting (waiting (base p) ++ [a]) (set_ranked (delete a (ranked p)) (put_plan_level a float_zero p)).

(** a node in line that gets a rank *)
Definition promote (a : positive) (v : spec_float) (p : prio_plan) : prio_plan :=
  set_ranked (<[a := set_float_priority_level v]> (ranked p))
    (set_waiting (filter (λ b, b ≠ a) (waiting (base p))) (put_plan_level a v p)).

Definition plan_set_priority (a : positive) (v : spec_float) (p : prio_plan) : option prio_plan :=
  if decide (running (base p) = Some a) then Some (put_plan_level a v p)
  else if decide (plan_owners p !! a = Some me) then
    match ranked p !! a with
    | Some l =>
        if SFeqb (float_priority l) v then Some p
        else if SFeqb v float_zero then Some (unrank a p)
        else if SFltb float_zero v then
          b ← must_change l v; Some (if (b : bool) then rerank a v p else p)
        else None
    | None =>
        if decide (a ∈ waiting (base p)) then Some (if SFltb float_zero v then promote a v p else p)
        else Some (put_plan_level a v p)
    end
  else None.

(** ** The invariant of the plan *)

Record plan_ok (p : prio_plan) : Prop := {
  ok_levels : dom (plan_levels p) = dom (works (base p));
  ok_running : ∀ a, running (base p) = Some a →
    a ∈ dom (works (base p)) ∧ a ∉ waiting (base p) ∧ ranked p !! a = None;
  ok_waiting : ∀ a, a ∈ waiting (base p) →
    busy (base p) a ∧ ranked p !! a = None ∧
    ∃ l, plan_levels p !! a = Some l ∧ positive_level l = false;
  ok_ranked : ∀ a l, ranked p !! a = Some l →
    busy (base p) a ∧ plan_levels p !! a = Some l ∧ positive_level l = true;
  ok_busy : ∀ a, busy (base p) a → queued p a
}.

(** the scheduler runs its own nodes *)
Definition owned (p : prio_plan) : Prop := ∀ a, queued p a → plan_owners p !! a = Some me.

End Plan.

(** ** States that stand for a plan *)

(** the nodes with their tuples and flags; those flagged are [Q] *)
Definition nodes_rep (maxl : Z) (ns : gmap positive serial_node) (W : gmap positive (list (list Z)))
    (Q : positive → Prop) : Prop :=
  ∀ a, match ns !! a, W !! a with
       | Some n, Some L => bounded_rep (queue n) L ∧ (i_am_on_queue n = true ↔ Q a) ∧
           (Z.to_nat maxl <= length L)%nat
       | None, None => True
       | _, _ => False
       end.

Record queues_rep (typ : heap_type) (me maxl : Z) (s : prio_local) (p : prio_plan) : Prop := {
  q_type : ptype s = Some typ;
  q_queue : double_rep (queue_nodes (here s)) (slinks (here s)) (waiting (base p));
  q_heap : wf typ (prio_queue s);
  q_ranked : contents (prio_queue s) = ranked p;
  q_current : current_node (here s) = running (base p);
  q_levels : levels s = plan_levels p;
  q_links : dom (slinks (here s)) = dom (works (base p));
  q_heap_nodes : dom (nodes (prio_queue s)) = dom (works (base p));
  q_max : max_strat_level (here s) = maxl;
  q_priorities : priority_buffer s = [] ∧ node_map s = [];
  q_inbox : buffer s = inbox p;
  q_outbox : sent s = outbox p;
  q_owners : owners s = plan_owners p;
  q_me : thread_id s = me
}.

Record prio_rep (typ : heap_type) (me maxl : Z) (s : prio_local) (p : prio_plan) : Prop := {
  rep_queues : queues_rep typ me maxl s p;
  rep_nodes : nodes_rep maxl (snodes (here s)) (works (base p)) (queued p);
  rep_plan : plan_ok typ p
}.

(** ** Nodes *)

Section Nodes.
Context (maxl : Z) (ns : gmap positive serial_node) (W : gmap positive (list (list Z)))
  (Q : positive → Prop) (Hrep : nodes_rep maxl ns W Q).

Lemma nr_node a L : W !! a = Some L →
  ∃ n, ns !! a = Some n ∧ bounded_rep (queue n) L ∧ (i_am_on_queue n = true ↔ Q a) ∧
       (Z.to_nat maxl <= length L)%nat.
Proof using Hrep.
  intros HL. pose proof (Hrep a) as H. rewrite HL in H. destruct (ns !! a) as [n |]; [| done]. by exists n.
Qed.

Lemma nr_ext Q' : (∀ a, Q a ↔ Q' a) → nodes_rep maxl ns W Q'.
Proof using Hrep.
  intros HQ a. pose proof (Hrep a) as H. destruct (ns !! a), (W !! a); try done. by rewrite <- HQ.
Qed.

Lemma nr_flag Q' c n b :
  ns !! c = Some n → (b = true ↔ Q' c) → (∀ a, a ≠ c → Q a ↔ Q' a) →
  nodes_rep maxl (<[c := mk_serial_node (queue n) b]> ns) W Q'.
Proof using Hrep.
  intros Hn Hb HQ a. pose proof (Hrep a) as H. destruct (decide (a = c)) as [-> | Hne].
  - rewrite lookup_insert_eq. rewrite Hn in H. by destruct (W !! c) as [L |]; [destruct H as (? & _ & ?) |].
  - rewrite lookup_insert_ne by done. destruct (ns !! a), (W !! a); try done. by rewrite <- HQ.
Qed.

Lemma nr_push a x level L :
  W !! a = Some L → 0 <= level < maxl → Z.of_nat (S (length (concat L))) < 2 ^ 64 →
  ∃ n q, ns !! a = Some n ∧ bounded_push x (Z.to_nat level) (queue n) = Ok q ∧
    nodes_rep maxl (<[a := mk_serial_node q (i_am_on_queue n)]> ns)
      (alter (alter (λ l, l ++ [x]) (Z.to_nat level)) a W) Q.
Proof using Hrep.
  intros HL Hl Hs. destruct (nr_node a L HL) as (n & Hn & Hb & Hf & Hlev).
  destruct (bounded_push_ok _ _ x (Z.to_nat level) Hb ltac:(lia) Hs) as (q & Hq & Hb').
  exists n, q. split; [done |]. split; [done |]. intros b. destruct (decide (b = a)) as [-> | Hne].
  - rewrite lookup_insert_eq, lookup_alter_eq, HL. cbn. by rewrite length_alter.
  - rewrite lookup_insert_ne, lookup_alter_ne by done. apply Hrep.
Qed.

Lemma nr_take a L l L' :
  W !! a = Some L → take_first L = Some (l, L') →
  ∃ n q, ns !! a = Some n ∧ bounded_top_list (queue n) [] = Ok (l, q) ∧
    nodes_rep maxl (<[a := mk_serial_node q (i_am_on_queue n)]> ns) (<[a := L']> W) Q.
Proof using Hrep.
  intros HL HT. destruct (nr_node a L HL) as (n & Hn & Hb & Hf & Hlev).
  destruct (bounded_top_list_ok _ _ _ _ Hb HT) as (q & Hq & Hb').
  pose proof (take_first_concat _ _ _ HT) as [Hlen _].
  exists n, q. split; [done |]. split; [done |]. intros b. destruct (decide (b = a)) as [-> | Hne].
  - rewrite !lookup_insert_eq. cbn. by rewrite Hlen.
  - rewrite !lookup_insert_ne by done. apply Hrep.
Qed.

Lemma nr_has_work (b : plan) a n :
  works b = W → ns !! a = Some n → node_has_work n = bool_decide (busy b a).
Proof using Hrep.
  intros HW Hn. pose proof (Hrep a) as H. rewrite Hn, <- HW in H.
  destruct (works b !! a) as [L |] eqn:HL; [| done]. destruct H as (H & _).
  unfold node_has_work. pose proof (bounded_empty_ok _ _ H) as E.
  destruct (bounded_empty (queue n)); cbn; symmetry.
  - apply bool_decide_eq_false. intros (L' & HL' & Hne). rewrite HL in HL'. injection HL' as <-.
    by apply Hne, E.
  - apply bool_decide_eq_true. exists L. split; [done |]. intros Hc. by apply E in Hc.
Qed.

End Nodes.

(** ** The queues *)

Section Queues.
Context (typ : heap_type) (me maxl : Z) (s : prio_local) (p : prio_plan)
  (Hrep : queues_rep typ me maxl s p).

Lemma queue_push a :
  a ∈ dom (works (base p)) → a ∉ waiting (base p) →
  ∃ s', on_here (push_node a) s = Ok s' ∧ snodes (here s') = snodes (here s) ∧
    queues_rep typ me maxl s' (set_waiting (waiting (base p) ++ [a]) p).
Proof using Hrep.
  intros Ha Hw. rewrite <- (q_links _ _ _ _ _ Hrep) in Ha. apply elem_of_dom in Ha as [n Hn].
  destruct (rep_out _ _ _ (q_queue _ _ _ _ _ Hrep) a n Hn Hw) as [Hf _].
  destruct (push_tail_rep _ _ _ _ _ (q_queue _ _ _ _ _ Hrep) Hn Hf) as (q & os & E & Hr).
  unfold on_here, push_node. rewrite E. cbn [res_bind]. eexists. split; [done |]. split; [done |].
  split; try apply Hrep; [exact Hr |]. cbn. rewrite (push_tail_dom _ _ _ _ _ E). apply Hrep.
Qed.

Lemma queue_take a :
  a ∈ waiting (base p) →
  ∃ s', on_here (queue_remove a) s = Ok s' ∧ snodes (here s') = snodes (here s) ∧
    queues_rep typ me maxl s' (set_waiting (filter (λ b, b ≠ a) (waiting (base p))) p).
Proof using Hrep.
  intros (l1 & l2 & Hs)%list_elem_of_split. pose proof (q_queue _ _ _ _ _ Hrep) as Hq.
  pose proof (rep_nodup _ _ _ Hq) as Hnd. rewrite Hs in Hq, Hnd.
  destruct (remove_rep _ _ _ _ _ Hq) as (q & os & E & Hr).
  unfold on_here, queue_remove. rewrite E. cbn [res_bind]. eexists. split; [done |]. split; [done |].
  rewrite Hs, filter_split by done.
  split; try apply Hrep; [exact Hr |]. cbn. rewrite (double_remove_dom _ _ _ _ _ E). apply Hrep.
Qed.

Lemma queue_pop a l :
  waiting (base p) = a :: l →
  ∃ h', pop_node (here s) = Ok (true, h') ∧ snodes h' = snodes (here s) ∧
    queues_rep typ me maxl (set_taken false (set_here h' s)) (set_running (Some a) (set_waiting l p)).
Proof using Hrep.
  intros Hw. pose proof (q_queue _ _ _ _ _ Hrep) as Hq. rewrite Hw in Hq.
  destruct (pop_rep _ _ _ _ Hq) as (q & os & E & Hr).
  unfold pop_node. rewrite E. cbn [res_bind]. eexists. split; [done |]. split; [done |].
  split; try apply Hrep; [exact Hr | done |]. cbn. rewrite (double_pop_dom _ _ _ _ _ E). apply Hrep.
Qed.

Lemma heap_add a l :
  a ∈ dom (works (base p)) → ranked p !! a = None → priority_ok typ l = true →
  ∃ s', on_heap (λ t, complex_pqueue.do_insert t a l) s = Ok s' ∧ here s' = here s ∧
    queues_rep typ me maxl s' (set_ranked (<[a := l]> (ranked p)) p).
Proof using Hrep.
  intros Ha Hr Hl. destruct Hrep as [Ht Hq Hh Hc]. rewrite <- Hc in Hr.
  destruct (complex_pqueue.insert_contents typ _ Hh a l) as (q & E & Hw & Hc' & Hd); [by set_solver | done | done |].
  unfold on_heap. rewrite Ht. cbn [of_option res_bind]. rewrite E. cbn [res_bind].
  eexists. split; [done |]. split; [done |]. split; try done; cbn; [by rewrite Hc', Hc | by rewrite Hd].
Qed.

Lemma heap_take a :
  is_Some (ranked p !! a) →
  ∃ s', on_heap (λ t, complex_pqueue.do_remove t a) s = Ok s' ∧ here s' = here s ∧
    queues_rep typ me maxl s' (set_ranked (delete a (ranked p)) p).
Proof using Hrep.
  intros Ha. destruct Hrep as [Ht Hq Hh Hc]. rewrite <- Hc in Ha.
  destruct (complex_pqueue.remove_contents typ _ Hh a Ha) as (q & E & Hw & Hc' & Hd).
  unfold on_heap. rewrite Ht. cbn [of_option res_bind]. rewrite E. cbn [res_bind].
  eexists. split; [done |]. split; [done |]. split; try done; cbn; [by rewrite Hc', Hc | by rewrite Hd].
Qed.

Lemma heap_move a l :
  is_Some (ranked p !! a) → priority_ok typ l = true →
  ∃ s', on_heap (λ t, complex_pqueue.move_node t a l) s = Ok s' ∧ here s' = here s ∧
    queues_rep typ me maxl s' (set_ranked (<[a := l]> (ranked p)) p).
Proof using Hrep.
  intros Ha Hl. destruct Hrep as [Ht Hq Hh Hc]. rewrite <- Hc in Ha.
  destruct (complex_pqueue.move_contents typ _ a l Hh Ha Hl) as (q & E & Hw & Hc' & Hd).
  unfold on_heap. rewrite Ht. cbn [of_option res_bind]. rewrite E. cbn [res_bind].
  eexists. split; [done |]. split; [done |]. split; try done; cbn; [by rewrite Hc', Hc | by rewrite Hd].
Qed.

Lemma heap_pop :
  ranked p ≠ ∅ →
  ∃ s' a v, pop_priority s = Ok s' ∧ snodes (here s') = snodes (here s) ∧ best typ p a v ∧
    queues_rep typ me maxl s' (set_running (Some a) (set_ranked (delete a (ranked p)) p)).
Proof using Hrep.
  intros Ha. destruct Hrep as [Ht Hq Hh Hc]. rewrite <- Hc in Ha.
  destruct (complex_pqueue.pop_contents typ _ Hh Ha) as (a & v & q & E & Hw & Hc' & Hd & Hv & _ & Hm).
  unfold pop_priority. rewrite Ht. cbn [of_option res_bind]. rewrite E. cbn [res_bind].
  eexists _, a, v. split; [done |]. split; [done |]. split; [split; by rewrite <- Hc |].
  split; try done; cbn; [by rewrite Hc', Hc | by rewrite Hd].
Qed.

Lemma heap_empty : priority_empty s = bool_decide (ranked p = ∅).
Proof using Hrep.
  unfold priority_empty. rewrite complex_pqueue.empty_contents. by rewrite (q_ranked _ _ _ _ _ Hrep).
Qed.

Lemma heap_flag a :
  a ∈ dom (works (base p)) →
  complex_pqueue.in_queue (prio_queue s) a = Ok (bool_decide (is_Some (ranked p !! a))).
Proof using Hrep.
  intros Ha. rewrite (complex_pqueue.in_queue_contents typ _ (q_heap _ _ _ _ _ Hrep)).
  - by rewrite (q_ranked _ _ _ _ _ Hrep).
  - by rewrite (q_heap_nodes _ _ _ _ _ Hrep).
Qed.

Lemma queue_has_work : has_work (here s) = bool_decide (waiting (base p) ≠ []).
Proof using Hrep.
  unfold has_work, double_empty. rewrite (rep_head _ _ _ (q_queue _ _ _ _ _ Hrep)).
  by destruct (waiting (base p)).
Qed.

Lemma some_work :
  prio_has_work s = bool_decide (waiting (base p) ≠ [] ∨ inbox p ≠ [] ∨ ranked p ≠ ∅).
Proof using Hrep.
  unfold prio_has_work. rewrite queue_has_work, heap_empty, (q_inbox _ _ _ _ _ Hrep).
  destruct (inbox p), (waiting (base p)); repeat case_bool_decide; cbn; try done; naive_solver.
Qed.

(** changes that leave the queues *)

Lemma queues_nodes ns : queues_rep typ me maxl (set_here (set_snodes ns (here s)) s) p.
Proof using Hrep. split; apply Hrep. Qed.

Lemma queues_works W : dom W = dom (works (base p)) → queues_rep typ me maxl s (set_works W p).
Proof using Hrep. intros HW. destruct Hrep. split; cbn; try assumption; by etrans. Qed.

Lemma queues_level a l :
  queues_rep typ me maxl (put_level a l s) (set_plan_levels (<[a := l]> (plan_levels p)) p).
Proof using Hrep. split; try apply Hrep. cbn. by rewrite (q_levels _ _ _ _ _ Hrep). Qed.

Lemma queues_taken b : queues_rep typ me maxl (set_taken b s) p.
Proof using Hrep. split; apply Hrep. Qed.

Lemma queues_stop : queues_rep typ me maxl (set_here (set_current_node None (here s)) s) (set_running None p).
Proof using Hrep. split; try apply Hrep. done. Qed.

Lemma queues_inbox l : queues_rep typ me maxl (set_buffer l s) (set_inbox l p).
Proof using Hrep. split; try apply Hrep. done. Qed.

Lemma queues_send o w : queues_rep typ me maxl (send o w s) (set_outbox (outbox p ++ [(o, w)]) p).
Proof using Hrep. split; try apply Hrep. cbn. by rewrite (q_outbox _ _ _ _ _ Hrep). Qed.

End Queues.

(** ** Work *)

Section Refine.
Context (program_priority : priority_info) (typ : heap_type)
  (Htyp : heap_type_of program_priority = Ok typ) (me maxl : Z).

#[local] Abbreviation queues_rep := (queues_rep typ me maxl).
#[local] Abbreviation nodes_rep := (nodes_rep maxl).
#[local] Abbreviation prio_rep := (prio_rep typ me maxl).
#[local] Abbreviation plan_ok := (plan_ok typ).
#[local] Abbreviation positive_level := (positive_level typ).
#[local] Abbreviation zero_level := (zero_level typ).

Lemma has_level_ok l : has_priority_level program_priority l = Ok (positive_level l).
Proof using Htyp.
  revert Htyp. unfold heap_type_of, has_priority_level.
  destruct (get_priority_type program_priority) as [t |]; [| done]. cbn [res_bind].
  destruct (priority_ordering program_priority) as [o |]; [| done]. cbn [of_option res_bind].
  destruct t, o; intros [= <-]; done.
Qed.

Lemma reset_level_ok a s l :
  levels s !! a = Some l → reset_level program_priority a s = Ok (put_level a (zero_level l) s).
Proof using Htyp.
  intros Hl. revert Htyp. unfold heap_type_of, reset_level, level_of. rewrite Hl.
  destruct (get_priority_type program_priority) as [t |]; [| done]. cbn [res_bind of_option].
  destruct (priority_ordering program_priority) as [o |]; [| done]. cbn [of_option res_bind].
  destruct t, o; intros [= <-]; done.
Qed.

(** a positive level is a number *)
Lemma positive_ok l : positive_level l = true → priority_ok typ l = true.
Proof using.
  clear Htyp. assert (Hn : SFltb float_zero (float_priority l) = true → negb (is_nan_bits l) = true).
  { unfold float_priority, is_nan_bits. by destruct (float_of_bits l). }
  by destruct typ.
Qed.

Lemma in_queue_ok a s W Q (Hdec : ∀ b, Decision (Q b)) :
  nodes_rep (snodes (here s)) W Q → a ∈ dom W → in_queue a s = Ok (bool_decide (Q a)).
Proof using.
  intros H [L HL]%elem_of_dom. destruct (nr_node _ _ _ _ H a L HL) as (n & Hn & _ & Hf & _).
  unfold in_queue, serial_of. rewrite Hn. cbn. f_equal. symmetry. case_bool_decide as E.
  - symmetry. by apply Hf.
  - destruct (i_am_on_queue n); [| done]. by destruct E; apply Hf.
Qed.

Lemma add_to_queue_ok s p a :
  queues_rep s p → a ∈ dom (plan_levels p) → a ∈ dom (works (base p)) → ¬ queued p a →
  ∃ s', add_to_queue program_priority a s = Ok s' ∧ snodes (here s') = snodes (here s) ∧
    queues_rep s' (enqueue typ a p).
Proof using Htyp.
  intros H [l Hl]%elem_of_dom Ha Hq. unfold add_to_queue, add_to_priority_queue, level_of, enqueue.
  rewrite (q_levels _ _ _ _ _ H), Hl. cbn [of_option res_bind]. rewrite has_level_ok. cbn [res_bind].
  destruct (positive_level l) eqn:El.
  - destruct (heap_add _ _ _ s p H a l) as (s' & -> & E & H'); [done | | by apply positive_ok |].
    + destruct (ranked p !! a) eqn:E; [| done]. destruct Hq. right. by rewrite E.
    + exists s'. split; [done |]. by rewrite E.
  - destruct (queue_push _ _ _ s p H a Ha) as (s' & -> & E & H'); [| by exists s'].
    intros Hw. apply Hq. by left; left.
Qed.

(** [i_am_on_queue] after [enqueue] *)
Lemma queued_enqueue p a b :
  a ∈ dom (plan_levels p) → queued (enqueue typ a p) b ↔ b = a ∨ queued p b.
Proof using.
  intros [l Hl]%elem_of_dom. unfold enqueue. rewrite Hl. unfold queued, on_queue.
  destruct (positive_level l); cbn.
  - destruct (decide (b = a)) as [-> | Hne].
    + rewrite lookup_insert_eq. naive_solver.
    + rewrite lookup_insert_ne by done. naive_solver.
  - rewrite elem_of_app, list_elem_of_singleton. naive_solver.
Qed.

Lemma set_in_queue_rep a n b s p Q Q' :
  queues_rep s p → nodes_rep (snodes (here s)) (works (base p)) Q →
  snodes (here s) !! a = Some n → i_am_on_queue n = negb b →
  (b = true ↔ Q' a) → (∀ c, c ≠ a → Q c ↔ Q' c) →
  ∃ s', on_here (set_in_queue a b) s = Ok s' ∧ queues_rep s' p ∧
    snodes (here s') = <[a := mk_serial_node (queue n) b]> (snodes (here s)) ∧
    nodes_rep (snodes (here s')) (works (base p)) Q' ∧ current_node (here s') = current_node (here s).
Proof using.
  intros H Hn Ha Hf Hb HQ. unfold on_here.
  rewrite (set_in_queue_ok a b n (here s) Ha Hf). cbn [res_bind]. eexists. split; [done |].
  split; [by apply queues_nodes |]. split; [done |]. split; [| done]. by eapply nr_flag.
Qed.

(** a work can be added: its node is here, its level is one of the program's, and no
    queue reaches 2^64 tuples *)
Definition fits (n : nat) (w : work) (p : prio_plan) : Prop :=
  0 <= w.2 < maxl ∧
  ∃ L, works (base p) !! node_addr w.1.1 = Some L ∧ Z.of_nat (n + length (concat L)) < 2 ^ 64 ∧
       (Z.to_nat maxl <= length L)%nat.

Lemma fits_dom n w p : fits n w p → node_addr w.1.1 ∈ dom (works (base p)).
Proof using. intros (_ & L & HL & _). by eapply elem_of_dom_2. Qed.

Lemma give_dom w p : dom (works (base (give w p))) = dom (works (base p)).
Proof using. apply dom_alter_L. Qed.

Lemma give_busy n w p b :
  fits n w p → busy (base (give w p)) b ↔ busy (base p) b ∨ b = node_addr w.1.1.
Proof using.
  intros (Hl & L & HL & _ & Hlen). split; [apply (busy_add_inv (base p) _ w.1.2 (Z.to_nat w.2) b) |].
  apply (busy_add (base p) _ w.1.2 (Z.to_nat w.2) b L); [done | lia].
Qed.

Lemma plan_add_ok n w p : plan_ok p → fits n w p → plan_ok (plan_add typ w p).
Proof using.
  intros H Hf. set (a := node_addr w.1.1).
  pose proof (give_busy n w p) as Hb. pose proof (fits_dom _ _ _ Hf) as Ha. fold a in Ha.
  assert (Hmono : ∀ b, busy (base p) b → busy (base (give w p)) b)
    by (intros b ?; apply Hb; [done | by left]).
  assert (Hnew : busy (base (give w p)) a) by (apply Hb; [done | by right]).
  unfold plan_add. fold a. destruct (decide (queued p a)) as [Hq | Hq].
  - split; rewrite ?give_dom; try apply H.
    + intros b Hw. destruct (ok_waiting _ _ H b Hw) as (? & ? & ?). split; [by apply Hmono | done].
    + intros b l Hl. destruct (ok_ranked _ _ H b l Hl) as (? & ?). split; [by apply Hmono | done].
    + intros b [Hbb | ->]%Hb; [| done | done]. by apply (ok_busy _ _ H).
  - pose proof Ha as Hl. rewrite <- (ok_levels _ _ H) in Hl. pose proof Hl as [l Hl']%elem_of_dom.
    assert (Hqq : ∀ b, queued (enqueue typ a (give w p)) b ↔ b = a ∨ queued p b)
      by (intros b; exact (queued_enqueue (give w p) a b Hl)).
    assert (Hbq : ∀ b, busy (base (give w p)) b → queued (enqueue typ a (give w p)) b).
    { intros b [Hbb | ->]%Hb; [| | done]; apply Hqq; [right; by apply (ok_busy _ _ H) | by left]. }
    clear Hqq. revert Hbq. unfold enqueue. change (plan_levels (give w p)) with (plan_levels p).
    rewrite Hl'. intros Hbq.
    destruct (positive_level l) eqn:El.
    + split; rewrite ?give_dom; try apply H; try done; cbn.
      * rewrite dom_alter_L. apply H.
      * intros b Hr. rewrite dom_alter_L. destruct (ok_running _ _ H b Hr) as (? & ? & ?).
        rewrite lookup_insert_ne; [done |]. intros <-. apply Hq. by left; right.
      * intros b Hw. destruct (ok_waiting _ _ H b Hw) as (? & ? & ?). split; [by apply Hmono |].
        rewrite lookup_insert_ne; [done |]. intros <-. apply Hq. by left; left.
      * intros b u. destruct (decide (b = a)) as [-> | Hne].
        -- rewrite lookup_insert_eq. intros [= <-]. by split.
        -- rewrite lookup_insert_ne by done. intros Hu. destruct (ok_ranked _ _ H b u Hu) as (? & ?).
           split; [by apply Hmono | done].
    + split; rewrite ?give_dom; try apply H; try done; cbn.
      * rewrite dom_alter_L. apply H.
      * intros b Hr. rewrite dom_alter_L. destruct (ok_running _ _ H b Hr) as (? & ? & ?).
        split; [done |]. split; [| done]. apply not_elem_of_app. split; [done |].
        rewrite list_elem_of_singleton. intros ->. apply Hq. by left; right.
      * intros b [Hw | ->%list_elem_of_singleton]%elem_of_app.
        -- destruct (ok_waiting _ _ H b Hw) as (? & ? & ?). split; [by apply Hmono | done].
        -- split; [done |]. split; [| by exists l].
           destruct (ranked p !! a) eqn:E; [| done]. destruct Hq. right. by rewrite E.
      * intros b u Hu. destruct (ok_ranked _ _ H b u Hu) as (? & ?). split; [by apply Hmono | done].
Qed.

Lemma add_node_work_ok s p w :
  queues_rep s p → nodes_rep (snodes (here s)) (works (base p)) (queued p) → fits 1 w p →
  ∃ s', add_node_work (node_addr w.1.1) w s = Ok s' ∧ queues_rep s' (give w p) ∧
    nodes_rep (snodes (here s')) (works (base (give w p))) (queued p).
Proof using.
  intros H Hn (Hl & L & HL & Hs & _). set (a := node_addr w.1.1) in *.
  destruct (nr_push _ _ _ _ Hn a w.1.2 w.2 L HL Hl Hs) as (n & q & Ha & Hq & Hn').
  unfold add_node_work, serial_of, node_add_work. rewrite Ha. cbn [of_option res_bind]. rewrite Hq.
  cbn [res_bind]. eexists. split; [done |]. split; [| exact Hn'].
  apply queues_works; [by apply queues_nodes | apply dom_alter_L].
Qed.

Lemma add_levels n w p : plan_ok p → fits n w p → node_addr w.1.1 ∈ dom (plan_levels (give w p)).
Proof using. intros H Hf. cbn. rewrite (ok_levels _ _ H). by eapply fits_dom. Qed.

Lemma queued_add w p b :
  plan_ok p → fits 1 w p → ¬ queued p (node_addr w.1.1) →
  queued (enqueue typ (node_addr w.1.1) (give w p)) b ↔ b = node_addr w.1.1 ∨ queued p b.
Proof using. intros H Hf Hq. exact (queued_enqueue _ _ _ (add_levels _ _ _ H Hf)). Qed.

Lemma works_enqueue a p : works (base (enqueue typ a p)) = works (base p).
Proof using. unfold enqueue. destruct (plan_levels p !! a) as [l |]; [| done]. by destruct (positive_level l). Qed.

(** the work is in the node *)
Lemma added_flag s p w s1 :
  prio_rep s p → fits 1 w p → queues_rep s1 (give w p) →
  nodes_rep (snodes (here s1)) (works (base (give w p))) (queued p) →
  in_queue (node_addr w.1.1) s1 = Ok (bool_decide (queued p (node_addr w.1.1))).
Proof using.
  intros H Hf H1 N1. apply (in_queue_ok _ _ _ (queued p) _ N1). rewrite give_dom. by eapply fits_dom.
Qed.

Lemma new_agg_ok s p w :
  prio_rep s p → fits 1 w p →
  ∃ s', new_agg program_priority w s = Ok s' ∧ prio_rep s' (plan_add typ w p).
Proof using Htyp.
  intros H Hf. destruct (add_node_work_ok s p w (rep_queues _ _ _ _ _ H) (rep_nodes _ _ _ _ _ H) Hf)
    as (s1 & E1 & H1 & N1).
  unfold new_agg. rewrite E1. cbn [res_bind]. rewrite (added_flag s p w s1 H Hf H1 N1). cbn [res_bind].
  pose proof (plan_add_ok _ _ _ (rep_plan _ _ _ _ _ H) Hf) as Hok. unfold plan_add in *.
  destruct (decide (queued p (node_addr w.1.1))) as [Hq | Hq].
  - rewrite bool_decide_true by done. by exists s1.
  - rewrite bool_decide_false by done.
    pose proof (queued_add w p) as Hqa.
    pose proof (fits_dom _ _ _ Hf) as Hd. rewrite <- (give_dom w) in Hd. pose proof Hd as [L HL]%elem_of_dom.
    destruct (nr_node _ _ _ _ N1 _ L HL) as (n & Hn & _ & Hfl & _).
    destruct (set_in_queue_rep _ n true s1 _ _ (queued (enqueue typ (node_addr w.1.1) (give w p))) H1 N1 Hn)
      as (s2 & E2 & H2 & _ & N2 & _).
    { destruct (i_am_on_queue n); [| done]. by destruct Hq; apply Hfl. }
    { split; [intros _ | done]. apply Hqa; [apply H | done | done | by left]. }
    { intros c Hc. rewrite Hqa by (apply H || done). naive_solver. }
    rewrite E2. cbn [res_bind].
    destruct (add_to_queue_ok s2 _ _ H2 (add_levels _ _ _ (rep_plan _ _ _ _ _ H) Hf) Hd Hq)
      as (s3 & E3 & Es & H3).
    exists s3. split; [done |]. split; [done | | done]. rewrite Es, works_enqueue. exact N2.
Qed.

Lemma retrieve_own_ok s p w :
  prio_rep s p → fits 1 w p → plan_owners p !! node_addr w.1.1 = Some me →
  ∃ s', retrieve_tuple program_priority w s = Ok s' ∧ prio_rep s' (plan_add typ w p).
Proof using Htyp.
  intros H Hf Ho. destruct (add_node_work_ok s p w (rep_queues _ _ _ _ _ H) (rep_nodes _ _ _ _ _ H) Hf)
    as (s1 & E1 & H1 & N1).
  unfold retrieve_tuple, get_owner. rewrite (q_owners _ _ _ _ _ (rep_queues _ _ _ _ _ H)), Ho.
  cbn [of_option res_bind]. rewrite (q_me _ _ _ _ _ (rep_queues _ _ _ _ _ H)), Z.eqb_refl.
  rewrite E1. cbn [res_bind]. rewrite (added_flag s p w s1 H Hf H1 N1). cbn [res_bind].
  pose proof (plan_add_ok _ _ _ (rep_plan _ _ _ _ _ H) Hf) as Hok. unfold plan_add in *.
  destruct (decide (queued p (node_addr w.1.1))) as [Hq | Hq].
  - rewrite bool_decide_true by done. by exists s1.
  - rewrite bool_decide_false by done.
    pose proof (queued_add w p) as Hqa.
    pose proof (fits_dom _ _ _ Hf) as Hd. rewrite <- (give_dom w) in Hd. pose proof Hd as [L HL]%elem_of_dom.
    destruct (nr_node _ _ _ _ N1 _ L HL) as (n & Hn & _ & Hfl & _).
    destruct (add_to_queue_ok s1 _ _ H1 (add_levels _ _ _ (rep_plan _ _ _ _ _ H) Hf) Hd Hq)
      as (s2 & E2 & Es & H2).
    rewrite E2. cbn [res_bind]. rewrite <- Es in N1, Hn. rewrite <- (works_enqueue (node_addr w.1.1)) in N1.
    destruct (set_in_queue_rep _ n true s2 _ _ (queued (enqueue typ (node_addr w.1.1) (give w p))) H2 N1 Hn)
      as (s3 & E3 & H3 & _ & N3 & _).
    { destruct (i_am_on_queue n); [| done]. by destruct Hq; apply Hfl. }
    { split; [intros _ | done]. apply Hqa; [apply H | done | done | by left]. }
    { intros c Hc. rewrite Hqa by (apply H || done). naive_solver. }
    exists s3. by split.
Qed.

(** ** The buffer *)

(** the works of the buffer are for nodes with an owner, and those for this thread fit *)
Definition deliverable (ws : list work) (p : prio_plan) : Prop :=
  Forall (λ w, ∃ o, plan_owners p !! node_addr w.1.1 = Some o ∧ (o = me → fits (length ws) w p)) ws.

#[local] Abbreviation plan_deliver := (plan_deliver typ me).

Lemma fits_weaken m n w p : (m <= n)%nat → fits n w p → fits m w p.
Proof using. intros Hm (? & L & ? & ? & ?). split; [done |]. exists L. split_and!; [done | lia | done]. Qed.

(** what a work leaves alone *)
Lemma deliver_shape p w :
  ∃ W l r o, plan_deliver p w =
    mk_prio_plan (mk_plan (running (base p)) l W) r (plan_levels p) (inbox p) o (plan_owners p).
Proof using.
  destruct p as [[rn wt wk] rk lv ib ob ow]. unfold PrioPlan.plan_deliver, plan_add, enqueue.
  repeat case_match; by repeat eexists.
Qed.

Lemma deliver_owners p w : plan_owners (plan_deliver p w) = plan_owners p.
Proof using. by destruct (deliver_shape p w) as (? & ? & ? & ? & ->). Qed.

Lemma works_add w p : works (base (plan_add typ w p)) = works (base (give w p)).
Proof using. unfold plan_add. destruct (decide _); [done |]. apply works_enqueue. Qed.

Lemma fits_deliver n w w' p : fits (S n) w' p → fits n w' (plan_deliver p w).
Proof using.
  intros Hf. unfold PrioPlan.plan_deliver. destruct (plan_owners p !! _) as [o |]; [| by eapply fits_weaken; [| done]; lia].
  destruct (o =? me); [| by apply (fits_weaken n (S n)); [lia |]].
  destruct Hf as (Hl & L & HL & Hs & Hlen). split; [done |]. rewrite works_add. cbn.
  destruct (decide (node_addr w'.1.1 = node_addr w.1.1)) as [E | E].
  - rewrite <- E, lookup_alter_eq, HL. cbn. eexists. split; [done |]. rewrite length_alter. split; [| done].
    destruct (decide (Z.to_nat w.2 < length L)%nat) as [Hlt | Hge].
    + rewrite concat_alter_length by done. lia.
    + pose proof (alter_app_r_alt (λ l, l ++ [w.1.2]) L [] (Z.to_nat w.2) ltac:(lia)) as E'.
      cbn in E'. rewrite !app_nil_r in E'. rewrite E'. lia.
  - rewrite lookup_alter_ne by done. exists L. split_and!; [done | lia | done].
Qed.

Lemma deliverable_deliver w ws p : deliverable (w :: ws) p → deliverable ws (plan_deliver p w).
Proof using.
  intros [_ H]%Forall_cons. eapply Forall_impl; [exact H |]. cbn. intros w' (o & Ho & Hf).
  exists o. rewrite deliver_owners. split; [done |]. intros E. by apply fits_deliver, Hf.
Qed.

Lemma deliver_inbox l p w : plan_deliver (set_inbox l p) w = set_inbox l (plan_deliver p w).
Proof using.
  unfold PrioPlan.plan_deliver, plan_add, enqueue. cbn.
  destruct (plan_owners p !! _) as [o |]; [| done]. destruct (o =? me); [| done].
  change (queued (set_inbox l p)) with (queued p). destruct (decide _); [done |].
  destruct (plan_levels p !! _) as [v |]; [| done]. by destruct (positive_level v).
Qed.

Lemma rep_inbox l s p : prio_rep s p → prio_rep (set_buffer l s) (set_inbox l p).
Proof using.
  intros H. split; [apply queues_inbox, H | apply H |]. destruct (rep_plan _ _ _ _ _ H). by split.
Qed.

Lemma rep_send o w s p :
  prio_rep s p → prio_rep (send o w s) (set_outbox (outbox p ++ [(o, w)]) p).
Proof using.
  intros H. split; [apply queues_send, H | apply H |]. destruct (rep_plan _ _ _ _ _ H). by split.
Qed.

Lemma retrieve_tuple_ok s p w o :
  prio_rep s p → plan_owners p !! node_addr w.1.1 = Some o → (o = me → fits 1 w p) →
  ∃ s', retrieve_tuple program_priority w s = Ok s' ∧ prio_rep s' (plan_deliver p w).
Proof using Htyp.
  intros H Ho Hf. unfold PrioPlan.plan_deliver. rewrite Ho. destruct (decide (o = me)) as [-> | Hne].
  - rewrite Z.eqb_refl. by apply retrieve_own_ok; [| apply Hf |].
  - unfold retrieve_tuple, get_owner. rewrite (q_owners _ _ _ _ _ (rep_queues _ _ _ _ _ H)), Ho.
    cbn [of_option res_bind]. rewrite (q_me _ _ _ _ _ (rep_queues _ _ _ _ _ H)).
    rewrite (proj2 (Z.eqb_neq o me) Hne). eexists. split; [done |]. by apply rep_send.
Qed.

Lemma retrieve_loop_ok ws s p :
  prio_rep s (set_inbox ws p) → deliverable ws p →
  ∃ s', retrieve_loop program_priority ws s = Ok s' ∧
    prio_rep s' (foldl plan_deliver (set_inbox [] p) ws).
Proof using Htyp.
  revert s p. induction ws as [| w ws IH]; intros s p H Hd; [by exists s |].
  pose proof Hd as [(o & Ho & Hf) _]%Forall_cons. cbn [retrieve_loop foldl].
  destruct (retrieve_tuple_ok (set_buffer ws s) (set_inbox ws p) w o) as (s1 & -> & H1);
    [by apply (rep_inbox ws) in H | done | intros E; apply (fits_weaken 1 (S (length ws))); [lia | by apply Hf] |].
  cbn [res_bind]. rewrite deliver_inbox in H1 |- *. apply IH; [done |]. by apply deliverable_deliver.
Qed.

Lemma retrieve_tuples_ok s p :
  prio_rep s p → deliverable (inbox p) p →
  ∃ s', retrieve_tuples program_priority s = Ok s' ∧ prio_rep s' (receive typ me p).
Proof using Htyp.
  intros H Hd. unfold retrieve_tuples. rewrite (q_inbox _ _ _ _ _ (rep_queues _ _ _ _ _ H)).
  apply retrieve_loop_ok; [| done]. by destruct p.
Qed.

Lemma receive_shape p :
  inbox (receive typ me p) = [] ∧ running (base (receive typ me p)) = running (base p) ∧
  plan_levels (receive typ me p) = plan_levels p ∧ plan_owners (receive typ me p) = plan_owners p.
Proof using.
  unfold receive. change (running (base p)) with (running (base (set_inbox [] p))).
  change (plan_levels p) with (plan_levels (set_inbox [] p)).
  change (plan_owners p) with (plan_owners (set_inbox [] p)).
  assert (Hi : inbox (set_inbox [] p) = []) by done. revert Hi.
  generalize (inbox p). intros ws. generalize (set_inbox [] p). clear p.
  induction ws as [| w ws IH]; intros p Hi; [done |]. cbn [foldl].
  destruct (deliver_shape p w) as (W & l & r & o & ->).
  exact (IH (mk_prio_plan (mk_plan (running (base p)) l W) r (plan_levels p) (inbox p) o (plan_owners p)) Hi).
Qed.

(** ** The next node *)

#[local] Abbreviation retire := (retire typ).
#[local] Abbreviation picks := (picks typ).

Lemma retired_queued p c :
  plan_ok p → running (base p) = Some c → ∀ b, queued (retire p) b ↔ b ≠ c ∧ queued p b.
Proof using.
  intros H Hr b. destruct (ok_running _ _ H c Hr) as (_ & Hw & Hk).
  unfold PrioPlan.retire, queued, on_queue. rewrite Hr. cbn. split.
  - intros [[? | ?] | [l Hl]]; [| done |].
    + split; [by intros -> | by left; left].
    + split; [by intros ->; rewrite Hk in Hl | right; by exists l].
  - intros [Hne [[? | ?] | ?]]; [by left; left | congruence | by right].
Qed.

Lemma retire_ok p : plan_ok p → (∀ c, running (base p) = Some c → ¬ busy (base p) c) → plan_ok (retire p).
Proof using.
  intros H Hnb. destruct (running (base p)) as [c |] eqn:Hr; [| by unfold PrioPlan.retire; rewrite Hr].
  pose proof (retired_queued p c H Hr) as Hq. destruct (ok_running _ _ H c Hr) as (Hc & Hw & Hk).
  unfold PrioPlan.retire in *. rewrite Hr in *. split; cbn.
  - rewrite dom_alter_L. apply H.
  - done.
  - intros a Ha. destruct (ok_waiting _ _ H a Ha) as (? & ? & l & ? & ?).
    split; [done |]. split; [done |]. exists l. rewrite lookup_alter_ne by (by intros ->). done.
  - intros a l Ha. destruct (ok_ranked _ _ H a l Ha) as (? & ? & ?).
    rewrite lookup_alter_ne by (intros ->; congruence). done.
  - intros a Ha. apply Hq. split; [| by apply (ok_busy _ _ H)]. intros ->. by apply (Hnb c).
Qed.

Definition run_ranked (a : positive) (p : prio_plan) : prio_plan :=
  set_running (Some a) (set_ranked (delete a (ranked p)) p).

Lemma run_ranked_queued p a l b :
  plan_ok p → running (base p) = None → ranked p !! a = Some l → queued (run_ranked a p) b ↔ queued p b.
Proof using.
  intros H Hr Ha. unfold queued, on_queue, run_ranked. cbn. rewrite Hr.
  destruct (decide (b = a)) as [-> | Hne].
  - rewrite lookup_delete_eq. split; [right; by exists l | by left; right].
  - rewrite lookup_delete_ne by done. naive_solver.
Qed.

Lemma run_ranked_ok p a l :
  plan_ok p → running (base p) = None → ranked p !! a = Some l → plan_ok (run_ranked a p).
Proof using.
  intros H Hr Ha. pose proof (λ b, run_ranked_queued p a l b H Hr Ha) as Hq.
  destruct (ok_ranked _ _ H a l Ha) as ((L & HL & _) & Hlv & _). split; cbn.
  - apply H.
  - intros b [= <-]. split; [by eapply elem_of_dom_2 |]. split; [| apply lookup_delete_eq].
    intros Hw. destruct (ok_waiting _ _ H a Hw) as (_ & ? & _). congruence.
  - intros b Hw. destruct (ok_waiting _ _ H b Hw) as (? & Hn & ?). split; [done |]. split; [| done].
    destruct (decide (b = a)) as [-> | Hne]; [congruence |]. by rewrite lookup_delete_ne.
  - intros b u Hu. apply lookup_delete_Some in Hu as [_ Hu]. by apply (ok_ranked _ _ H b u).
  - intros b Hb. apply Hq. by apply (ok_busy _ _ H).
Qed.

Definition run_waiting (a : positive) (l : list positive) (p : prio_plan) : prio_plan :=
  set_running (Some a) (set_waiting l p).

Lemma run_waiting_queued p a l b :
  running (base p) = None → waiting (base p) = a :: l → queued (run_waiting a l p) b ↔ queued p b.
Proof using.
  intros Hr Hw. unfold queued, on_queue, run_waiting. cbn. rewrite Hr, Hw, elem_of_cons. naive_solver.
Qed.

Lemma run_waiting_ok p a l :
  plan_ok p → NoDup (waiting (base p)) → running (base p) = None → waiting (base p) = a :: l →
  plan_ok (run_waiting a l p).
Proof using.
  intros H Hnd Hr Hw. pose proof (λ b, run_waiting_queued p a l b Hr Hw) as Hq.
  assert (Ha : a ∈ waiting (base p)) by (rewrite Hw; apply elem_of_cons; by left).
  destruct (ok_waiting _ _ H a Ha) as ((L & HL & _) & Hk & _). rewrite Hw in Hnd.
  apply NoDup_cons in Hnd as [Hni _]. split; cbn.
  - apply H.
  - intros b [= <-]. split; [by eapply elem_of_dom_2 | by split].
  - intros b Hb. apply (ok_waiting _ _ H). rewrite Hw. apply elem_of_cons. by right.
  - apply H.
  - intros b Hb. apply Hq. by apply (ok_busy _ _ H).
Qed.

Lemma current_node_ok s p c :
  prio_rep s p → running (base p) = Some c →
  ∃ n, snodes (here s) !! c = Some n ∧ i_am_on_queue n = true ∧
    node_has_work n = bool_decide (busy (base p) c).
Proof using.
  intros H Hr. destruct (ok_running _ _ (rep_plan _ _ _ _ _ H) c Hr) as ([L HL]%elem_of_dom & _).
  destruct (nr_node _ _ _ _ (rep_nodes _ _ _ _ _ H) c L HL) as (n & Hn & _ & Hf & _).
  exists n. split; [done |]. split; [by apply Hf; left; right |].
  by apply (nr_has_work _ _ _ _ (rep_nodes _ _ _ _ _ H)).
Qed.

Lemma stop_current s p c :
  prio_rep s p → running (base p) = Some c →
  ∃ s1 s2, on_here (set_in_queue c false) s = Ok s1 ∧ reset_level program_priority c s1 = Ok s2 ∧
    queues_rep s2 (set_plan_levels (plan_levels (retire p)) p) ∧
    nodes_rep (snodes (here s2)) (works (base p)) (queued (retire p)).
Proof using Htyp.
  intros H Hr. pose proof (retired_queued p c (rep_plan _ _ _ _ _ H) Hr) as Hq.
  destruct (current_node_ok s p c H Hr) as (n & Hn & Hf & _).
  destruct (set_in_queue_rep c n false s p _ (queued (retire p)) (rep_queues _ _ _ _ _ H)
              (rep_nodes _ _ _ _ _ H) Hn Hf) as (s1 & E1 & H1 & _ & N1 & _).
  { split; [done |]. rewrite Hq. by intros []. }
  { intros a Ha. rewrite Hq. naive_solver. }
  destruct (ok_running _ _ (rep_plan _ _ _ _ _ H) c Hr) as (Hc & _).
  rewrite <- (ok_levels _ _ (rep_plan _ _ _ _ _ H)) in Hc. apply elem_of_dom in Hc as [l Hl].
  exists s1, (put_level c (zero_level l) s1). split; [done |]. split.
  { apply reset_level_ok. by rewrite (q_levels _ _ _ _ _ H1). }
  split; [| done]. assert (E : plan_levels (retire p) = <[c := zero_level l]> (plan_levels p)).
  { unfold PrioPlan.retire. rewrite Hr. cbn. rewrite <- (insert_id (plan_levels p) c l Hl) at 1.
    apply alter_insert_eq. }
  rewrite E. by apply queues_level.
Qed.

Lemma useless_busy s p c :
  prio_rep s p → running (base p) = Some c → busy (base p) c →
  prio_check_if_current_useless program_priority s = Ok s.
Proof using.
  intros H Hr Hb. destruct (current_node_ok s p c H Hr) as (n & Hn & Hf & Hw).
  unfold prio_check_if_current_useless, serial_of.
  rewrite (q_current _ _ _ _ _ (rep_queues _ _ _ _ _ H)), Hr. cbn [of_option res_bind].
  rewrite Hn. cbn [of_option res_bind]. by rewrite Hf, Hw, bool_decide_true.
Qed.

(** the node gives up its place, to the best ranked node if there is one *)
Lemma useless_idle s p c :
  prio_rep s p → running (base p) = Some c → ¬ busy (base p) c →
  ∃ s', prio_check_if_current_useless program_priority s = Ok s' ∧
    (ranked p = ∅ → prio_rep s' (retire p)) ∧
    (ranked p ≠ ∅ → ∃ a v, best typ (retire p) a v ∧ prio_rep s' (run_ranked a (retire p))).
Proof using Htyp.
  intros H Hr Hb. destruct (current_node_ok s p c H Hr) as (n & Hn & Hf & Hw).
  destruct (stop_current s p c H Hr) as (s1 & s2 & E1 & E2 & H2 & N2).
  assert (Hok : plan_ok (retire p)).
  { apply retire_ok; [apply H |]. intros d Hd. congruence. }
  destruct (ok_running _ _ (rep_plan _ _ _ _ _ H) c Hr) as (Hc & _ & Hk).
  assert (Hret : retire p = set_running None (set_plan_levels (plan_levels (retire p)) p)).
  { unfold PrioPlan.retire. by rewrite Hr. }
  unfold prio_check_if_current_useless, serial_of.
  rewrite (q_current _ _ _ _ _ (rep_queues _ _ _ _ _ H)), Hr. cbn [of_option res_bind].
  rewrite Hn. cbn [of_option res_bind]. rewrite Hf, Hw, bool_decide_false by done. cbn [asserting].
  rewrite E1. cbn [res_bind]. rewrite E2. cbn [res_bind]. rewrite (heap_empty _ _ _ _ _ H2).
  change (ranked (set_plan_levels _ p)) with (ranked p).
  destruct (decide (ranked p = ∅)) as [He | He].
  - rewrite bool_decide_true by done. eexists. split; [done |]. split; [intros _ | done].
    split; [rewrite Hret; exact (queues_stop _ _ _ _ _ H2) | | done].
    assert (Hwk : works (base (retire p)) = works (base p)) by by rewrite Hret.
    rewrite Hwk. exact N2.
  - rewrite bool_decide_false by done. rewrite (heap_flag _ _ _ _ _ H2 c Hc). cbn [res_bind].
    rewrite bool_decide_false by exact (proj1 (eq_None_not_Some _) Hk). cbn [negb asserting].
    destruct (heap_pop _ _ _ _ _ H2 He) as (s3 & a & v & E3 & Es & Hbest & H3).
    exists s3. split; [done |]. split; [done |]. intros _. exists a, v.
    assert (Hb' : best typ (retire p) a v) by (rewrite Hret; exact Hbest).
    split; [done |]. assert (Hrn : running (base (retire p)) = None) by by rewrite Hret.
    split.
    + rewrite Hret. exact H3.
    + rewrite Es. assert (Hwk : works (base (run_ranked a (retire p))) = works (base p)) by by rewrite Hret.
      rewrite Hwk. eapply nr_ext; [exact N2 |]. intros b. symmetry.
      exact (run_ranked_queued _ a v b Hok Hrn (proj1 Hb')).
    + exact (run_ranked_ok _ a v Hok Hrn (proj1 Hb')).
Qed.

Lemma check_buffer_ok (address : positive → Z) s p :
  queues_rep s p → check_priority_buffer address s = Ok s.
Proof using.
  intros H. destruct (q_priorities _ _ _ _ _ H) as [Hb Hm]. unfold check_priority_buffer.
  rewrite Hb. cbn [check_priority_items res_bind]. rewrite Hm. cbn [apply_node_map res_bind].
  f_equal. destruct s. unfold set_node_map. cbn in *. by rewrite Hm.
Qed.

Lemma rep_taken b s p : prio_rep s p → prio_rep (set_taken b s) p.
Proof using. intros H. split; [apply queues_taken, H | apply H | apply H]. Qed.

Lemma next_loop_current address fuel s p c :
  prio_rep s p → running (base p) = Some c →
  next_node_loop program_priority address (S fuel) s = Ok (true, s).
Proof using.
  intros H Hr. cbn [next_node_loop]. by rewrite (q_current _ _ _ _ _ (rep_queues _ _ _ _ _ H)), Hr.
Qed.

Lemma receive_running p : running (base p) = None → running (base (receive typ me p)) = None.
Proof using. by destruct (receive_shape p) as (_ & -> & _). Qed.

(** the loop takes one node, which has work *)
Lemma next_loop_ok address fuel s p :
  prio_rep s p → running (base p) = None → deliverable (inbox p) p →
  ∃ s' p', next_node_loop program_priority address (S (S fuel)) s
             = Ok (bool_decide (is_Some (running (base p'))), s') ∧
    picks (receive typ me p) p' ∧ prio_rep s' p'.
Proof using Htyp.
  intros H0 Hr0 Hd. remember (S fuel) as f eqn:Ef. cbn [next_node_loop].
  rewrite (q_current _ _ _ _ _ (rep_queues _ _ _ _ _ H0)), Hr0.
  destruct (retrieve_tuples_ok s p H0 Hd) as (s1 & -> & H). cbn [res_bind].
  pose proof (receive_running p Hr0) as Hr. destruct (receive_shape p) as (Hi & _).
  set (q := receive typ me p) in *. clearbody q. clear H0 Hr0 Hd.
  rewrite (check_buffer_ok address s1 q (rep_queues _ _ _ _ _ H)). cbn [res_bind].
  rewrite (some_work _ _ _ _ _ (rep_queues _ _ _ _ _ H)), Hi.
  rewrite (heap_empty _ _ _ _ _ (rep_queues _ _ _ _ _ H)).
  rewrite (queue_has_work _ _ _ _ _ (rep_queues _ _ _ _ _ H)).
  pose proof (rep_plan _ _ _ _ _ H) as Hok.
  destruct (decide (ranked q = ∅)) as [He | He].
  - rewrite (bool_decide_true (ranked q = ∅)) by done. cbn [negb].
    destruct (waiting (base q)) as [| a l] eqn:Hw.
    + rewrite (bool_decide_false (_ ∨ _)) by (intros [? | [? | ?]]; done). cbn [negb].
      exists s1, q. rewrite Hr. split; [by rewrite bool_decide_false by (by intros []) |].
      split; [by apply pick_none | done].
    + rewrite (bool_decide_true (_ ∨ _)) by (by left). rewrite bool_decide_true by done. cbn [negb].
      destruct (queue_pop _ _ _ _ _ (rep_queues _ _ _ _ _ H) a l Hw) as (h & -> & Es & H2).
      cbn [res_bind fst snd].
      pose proof (rep_nodup _ _ _ (q_queue _ _ _ _ _ (rep_queues _ _ _ _ _ H))) as Hnd.
      assert (H3 : prio_rep (set_taken false (set_here h s1)) (run_waiting a l q)).
      { split; [exact H2 | | by apply run_waiting_ok]. cbn [here set_taken set_here]. rewrite Es.
        eapply nr_ext; [apply H |]. intros b. symmetry. by apply run_waiting_queued. }
      assert (Hb : busy (base (run_waiting a l q)) a).
      { apply (ok_waiting _ _ Hok a). rewrite Hw. apply elem_of_cons. by left. }
      rewrite (useless_busy _ _ a H3 eq_refl Hb). cbn [res_bind].
      subst f. rewrite (next_loop_current address fuel _ _ a H3 eq_refl).
      eexists _, (run_waiting a l q). split; [by rewrite bool_decide_true by by eexists |].
      split; [by apply pick_waiting | done].
  - rewrite (bool_decide_false (ranked q = ∅)) by done.
    rewrite (bool_decide_true (_ ∨ _)) by (by right; right). cbn [negb].
    destruct (heap_pop _ _ _ _ _ (rep_queues _ _ _ _ _ H) He) as (s2 & a & v & -> & Es & Hbest & H2).
    cbn [res_bind].
    assert (H3 : prio_rep s2 (run_ranked a q)).
    { split; [exact H2 | | by apply (run_ranked_ok q a v Hok Hr), Hbest]. rewrite Es.
      eapply nr_ext; [apply H |]. intros b. symmetry. apply (run_ranked_queued q a v b Hok Hr), Hbest. }
    assert (Hb : busy (base (run_ranked a q)) a) by by apply (ok_ranked _ _ Hok a v), Hbest.
    rewrite (useless_busy _ _ a H3 eq_refl Hb). cbn [res_bind].
    subst f. rewrite (next_loop_current address fuel _ _ a H3 eq_refl).
    eexists _, (run_ranked a q). split; [by rewrite bool_decide_true by by eexists |].
    split; [by eapply pick_ranked | done].
Qed.

(** ** [get_work] *)

(** what the plan answers *)
Definition next_answer (p : prio_plan) : next :=
  match running (base p) with Some a => Got (node_id a) | None => Waits end.

Lemma picks_busy p p' a :
  plan_ok p → running (base p) = None → picks p p' → running (base p') = Some a → busy (base p') a.
Proof using.
  intros H Hr [b v Hb | b l He Hw | He Hw] Ha; cbn in Ha.
  - injection Ha as ->. by apply (ok_ranked _ _ H a v), Hb.
  - injection Ha as ->. apply (ok_waiting _ _ H a). rewrite Hw. apply elem_of_cons. by left.
  - congruence.
Qed.

Lemma got_work s p a :
  prio_rep s p → running (base p) = Some a → busy (base p) a →
  (match current_node (here s) with
   | None => Err assert_fail
   | Some c =>
       let* n := serial_of c (here s) in
       asserting (i_am_on_queue n && node_has_work n) (Ok (Got (node_id c), s))
   end) = Ok (Got (node_id a), s).
Proof using.
  intros H Hr Hb. destruct (current_node_ok s p a H Hr) as (n & Hn & Hf & Hw).
  rewrite (q_current _ _ _ _ _ (rep_queues _ _ _ _ _ H)), Hr. unfold serial_of. rewrite Hn.
  cbn [of_option res_bind]. by rewrite Hf, Hw, bool_decide_true.
Qed.

Lemma deliverable_retire p : deliverable (inbox p) p → deliverable (inbox (retire p)) (retire p).
Proof using. unfold PrioPlan.retire. by destruct (running (base p)). Qed.

Lemma receive_plan_ok s p :
  prio_rep s p → deliverable (inbox p) p → plan_ok (receive typ me p).
Proof using Htyp. intros H Hd. destruct (retrieve_tuples_ok s p H Hd) as (? & _ & H'). apply H'. Qed.

Lemma get_work_at_once address s p c :
  prio_rep s p → running (base p) = Some c → ¬ busy (base p) c → ranked p ≠ ∅ →
  ∃ s' a v, prio_get_work program_priority address s = Ok (Got (node_id a), s') ∧
    best typ (retire p) a v ∧ prio_rep s' (run_ranked a (retire p)) ∧
    busy (base (run_ranked a (retire p))) a.
Proof using Htyp.
  intros H Hr Hb Hk. destruct (useless_idle s p c H Hr Hb) as (s1 & E & _ & Hne).
  destruct (Hne Hk) as (a & v & Hbest & H1).
  assert (Hb' : busy (base (run_ranked a (retire p))) a).
  { assert (Hok : plan_ok (retire p)) by (apply retire_ok; [apply H |]; intros d Hd; congruence).
    by apply (ok_ranked _ _ Hok a v), Hbest. }
  exists s1, a, v. split; [| done]. unfold prio_get_work, set_next_node.
  rewrite (check_buffer_ok address s p (rep_queues _ _ _ _ _ H)). cbn [res_bind].
  rewrite (q_current _ _ _ _ _ (rep_queues _ _ _ _ _ H)), Hr, E. cbn [res_bind].
  rewrite (next_loop_current address _ s1 _ a H1 eq_refl). cbn [res_bind fst snd negb].
  exact (got_work s1 _ a H1 eq_refl Hb').
Qed.

Lemma prio_get_work_ok address s p :
  prio_rep s p → deliverable (inbox p) p →
  ∃ s' p', prio_get_work program_priority address s = Ok (next_answer p', s') ∧
    next_plan typ me p p' ∧ prio_rep s' p' ∧ (∀ a, running (base p') = Some a → busy (base p') a).
Proof using Htyp.
  intros H Hd. unfold prio_get_work, set_next_node.
  rewrite (check_buffer_ok address s p (rep_queues _ _ _ _ _ H)). cbn [res_bind].
  rewrite (q_current _ _ _ _ _ (rep_queues _ _ _ _ _ H)).
  (* the loop from a state without a node *)
  assert (Hloop : ∀ s1 n, prio_rep s1 (retire p) → running (base (retire p)) = None →
    (∀ a, running (base p) = Some a → ¬ busy (base p) a ∧ ranked p = ∅) →
    ∃ s' p', (let* r := next_node_loop program_priority address (S (S n)) s1 in
              if negb r.1 then Ok (Waits, r.2)
              else match current_node (here r.2) with
                   | None => Err assert_fail
                   | Some c => let* n := serial_of c (here r.2) in
                       asserting (i_am_on_queue n && node_has_work n) (Ok (Got (node_id c), r.2))
                   end) = Ok (next_answer p', s') ∧
      next_plan typ me p p' ∧ prio_rep s' p' ∧ (∀ a, running (base p') = Some a → busy (base p') a)).
  { intros s1 n H1 Hr1 Hc. pose proof (deliverable_retire p Hd) as Hd1.
    destruct (next_loop_ok address n s1 (retire p) H1 Hr1 Hd1) as (s' & p' & -> & Hp & H').
    cbn [res_bind fst snd].
    assert (Hb : ∀ a, running (base p') = Some a → busy (base p') a).
    { intros a. eapply picks_busy; [| | exact Hp]; [by eapply receive_plan_ok | by apply receive_running]. }
    exists s', p'. split; [| by split; [apply next_after_mail |]]. unfold next_answer.
    destruct (running (base p')) as [a |] eqn:Ha.
    - rewrite bool_decide_true by by eexists. cbn [negb]. apply (got_work s' p' a H' Ha). by apply Hb.
    - rewrite bool_decide_false by by intros []. done. }
  destruct (running (base p)) as [c |] eqn:Hr.
  - destruct (decide (busy (base p) c)) as [Hb | Hb].
    + rewrite (useless_busy s p c H Hr Hb). cbn [res_bind].
      rewrite (next_loop_current address _ s p c H Hr). cbn [res_bind fst snd negb].
      exists s, p. rewrite (got_work s p c H Hr Hb). unfold next_answer. rewrite Hr.
      split; [done |]. split; [by eapply next_same |]. split; [done |]. by intros a [= <-].
    + destruct (decide (ranked p = ∅)) as [Hk | Hk].
      * destruct (useless_idle s p c H Hr Hb) as (s1 & -> & He & _). cbn [res_bind].
        apply Hloop; [by apply He | unfold PrioPlan.retire; by rewrite Hr | by intros a [= <-]].
      * destruct (get_work_at_once address s p c H Hr Hb Hk) as (s1 & a & v & E & Hbest & H1 & Hb').
        revert E. unfold prio_get_work, set_next_node.
        rewrite (check_buffer_ok address s p (rep_queues _ _ _ _ _ H)). cbn [res_bind].
        rewrite (q_current _ _ _ _ _ (rep_queues _ _ _ _ _ H)), Hr. intros E.
        exists s1, (run_ranked a (retire p)). split; [exact E |].
        split; [eapply next_at_once; [done | done | done | by eapply pick_ranked] |].
        split; [done |]. by intros d [= <-].
  - cbn [res_bind]. apply Hloop; [| unfold PrioPlan.retire; by rewrite Hr | done].
    unfold PrioPlan.retire. by rewrite Hr.
Qed.

(** ** Priorities *)

Definition float_heap : bool :=
  match typ with HEAP_FLOAT_ASC | HEAP_FLOAT_DESC => true | _ => false end.

Lemma new_level_positive v :
  float_heap = true → is_double v → positive_level (set_float_priority_level v) = SFltb float_zero v.
Proof using.
  clear Htyp. unfold float_heap. intros Hf Hv%double_bits. unfold PrioPlan.positive_level, float_priority,
    set_float_priority_level. by destruct typ; rewrite ?Hv.
Qed.

Lemma level_ok p a v :
  plan_ok p → a ∈ dom (works (base p)) → a ∉ waiting (base p) → ranked p !! a = None →
  plan_ok (set_plan_levels (<[a := v]> (plan_levels p)) p).
Proof using.
  intros H Ha Hw Hk. split; try apply H; cbn.
  - rewrite dom_insert_lookup_L; [apply H |]. by rewrite <- elem_of_dom, (ok_levels _ _ H).
  - intros b Hb. destruct (ok_waiting _ _ H b Hb) as (? & ? & l & ? & ?).
    split; [done |]. split; [done |]. exists l. by rewrite lookup_insert_ne by (by intros ->).
  - intros b l Hl. destruct (ok_ranked _ _ H b l Hl) as (? & ? & ?).
    rewrite lookup_insert_ne by (intros ->; congruence). done.
Qed.

Lemma rep_level s p a v :
  prio_rep s p → a ∈ dom (works (base p)) → a ∉ waiting (base p) → ranked p !! a = None →
  prio_rep (put_level a v s) (set_plan_levels (<[a := v]> (plan_levels p)) p).
Proof using. intros H ? ? ?. split; [apply queues_level, H | apply H | by apply level_ok; [apply H | | |]]. Qed.

Lemma rerank_ok p a l v :
  plan_ok p → ranked p !! a = Some l → positive_level (set_float_priority_level v) = true →
  plan_ok (rerank a v p).
Proof using.
  intros H Hl Hv. destruct (ok_ranked _ _ H a l Hl) as (Hb & Hlv & _).
  assert (Hne : ∀ b, ranked p !! b = None → b ≠ a) by (intros b ? ->; congruence). split; cbn.
  - rewrite dom_insert_lookup_L by by eexists. apply H.
  - intros b Hr. destruct (ok_running _ _ H b Hr) as (? & ? & Hk).
    rewrite lookup_insert_ne; [done |]. intros ->. by destruct (Hne _ Hk).
  - intros b Hw. destruct (ok_waiting _ _ H b Hw) as (? & Hk & ?). pose proof (Hne _ Hk).
    by rewrite !lookup_insert_ne by done.
  - intros b u. destruct (decide (b = a)) as [-> | Hba].
    + rewrite !lookup_insert_eq. by intros [= <-].
    + rewrite !lookup_insert_ne by done. apply (ok_ranked _ _ H).
  - intros b Hbb. destruct (ok_busy _ _ H b Hbb) as [? | [u Hu]]; [by left |]. right. cbn.
    destruct (decide (b = a)) as [-> | Hba]; [by rewrite lookup_insert_eq |].
    rewrite lookup_insert_ne by done. by exists u.
Qed.

Lemma zero_not_positive : float_heap = true → positive_level (set_float_priority_level float_zero) = false.
Proof using. clear Htyp. unfold float_heap. by destruct typ. Qed.

Lemma unrank_queued p a l b : ranked p !! a = Some l → queued (unrank a p) b ↔ queued p b.
Proof using.
  intros Hl. unfold queued, on_queue, unrank. cbn. rewrite elem_of_app, list_elem_of_singleton.
  destruct (decide (b = a)) as [-> | Hne].
  - split; [right; by exists l | by left; left; right].
  - rewrite lookup_delete_ne by done. naive_solver.
Qed.

Lemma unrank_ok p a l :
  float_heap = true → plan_ok p → ranked p !! a = Some l → plan_ok (unrank a p).
Proof using.
  intros Hf H Hl. pose proof (λ b, unrank_queued p a l b Hl) as Hq.
  destruct (ok_ranked _ _ H a l Hl) as (Hb & Hlv & _).
  assert (Hne : ∀ b, ranked p !! b = None → b ≠ a) by (intros b ? ->; congruence). split; cbn.
  - rewrite dom_insert_lookup_L by by eexists. apply H.
  - intros b Hr. destruct (ok_running _ _ H b Hr) as (? & ? & Hk). pose proof (Hne _ Hk).
    rewrite lookup_delete_ne by done. split; [done |]. split; [| done].
    by rewrite elem_of_app, list_elem_of_singleton; intros [? | ?].
  - intros b [Hw | ->%list_elem_of_singleton]%elem_of_app.
    + destruct (ok_waiting _ _ H b Hw) as (? & Hk & ?). pose proof (Hne _ Hk).
      by rewrite lookup_delete_ne, lookup_insert_ne by done.
    + split; [done |]. rewrite lookup_delete_eq, lookup_insert_eq. split; [done |].
      eexists. split; [done |]. by apply zero_not_positive.
  - intros b u [Hba Hu]%lookup_delete_Some. rewrite lookup_insert_ne by done. by apply (ok_ranked _ _ H).
  - intros b Hbb. apply Hq. by apply (ok_busy _ _ H).
Qed.

Lemma promote_queued p a v b : a ∈ waiting (base p) → queued (promote a v p) b ↔ queued p b.
Proof using.
  intros Ha. unfold queued, on_queue, promote. cbn. rewrite list_elem_of_filter.
  destruct (decide (b = a)) as [-> | Hne].
  - rewrite lookup_insert_eq. split; [by left; left | by right].
  - rewrite lookup_insert_ne by done. naive_solver.
Qed.

Lemma promote_ok p a v :
  plan_ok p → a ∈ waiting (base p) → positive_level (set_float_priority_level v) = true →
  plan_ok (promote a v p).
Proof using.
  intros H Ha Hv. pose proof (λ b, promote_queued p a v b Ha) as Hq.
  destruct (ok_waiting _ _ H a Ha) as (Hb & Hk & l & Hl & _). split; cbn.
  - rewrite dom_insert_lookup_L by by eexists. apply H.
  - intros b Hr. destruct (ok_running _ _ H b Hr) as (? & Hw & ?). split; [done |].
    rewrite lookup_insert_ne by by intros ->. split; [| done].
    by intros [_ ?]%list_elem_of_filter.
  - intros b [Hba Hw]%list_elem_of_filter. rewrite !lookup_insert_ne by done. by apply (ok_waiting _ _ H).
  - intros b u. destruct (decide (b = a)) as [-> | Hba].
    + rewrite !lookup_insert_eq. by intros [= <-].
    + rewrite !lookup_insert_ne by done. apply (ok_ranked _ _ H).
  - intros b Hbb. apply Hq. by apply (ok_busy _ _ H).
Qed.

(** a state that follows after the last assertion of [set_node_priority] *)
Lemma still_queued s p a :
  prio_rep s p → a ∈ dom (works (base p)) → queued p a →
  (let* b := in_queue a s in asserting b (Ok s)) = Ok s.
Proof using.
  intros H Ha Hq. rewrite (in_queue_ok a s _ (queued p) _ (rep_nodes _ _ _ _ _ H) Ha).
  cbn [res_bind]. by rewrite bool_decide_true.
Qed.

Lemma change_priority_ok s p a l v :
  prio_rep s p → ranked p !! a = Some l → float_heap = true → is_double v →
  match (if SFeqb (float_priority l) v then Some p
         else if SFeqb v float_zero then Some (unrank a p)
         else if SFltb float_zero v then
           b ← must_change typ l v; Some (if (b : bool) then rerank a v p else p)
         else None) with
  | Some p' => ∃ s', change_priority a v s = Ok s' ∧ prio_rep s' p' ∧ queued p' a
  | None => change_priority a v s = Err assert_fail
  end.
Proof using.
  intros H Hl Hf Hv. pose proof (rep_queues _ _ _ _ _ H) as Hqs. pose proof (rep_plan _ _ _ _ _ H) as Hok.
  destruct (ok_ranked _ _ Hok a l Hl) as ((L & HL & HLc) & Hlv & _).
  assert (Ha : a ∈ dom (works (base p))) by by eapply elem_of_dom_2.
  assert (Hqa : queued p a) by (right; by exists l).
  unfold change_priority, level_of, SFneqb. rewrite (q_levels _ _ _ _ _ Hqs), Hlv. cbn [of_option res_bind].
  destruct (SFeqb (float_priority l) v); cbn [negb]; [by exists s |].
  destruct (SFeqb v float_zero).
  - pose proof (queues_level _ _ _ s p Hqs a (set_float_priority_level float_zero)) as H1.
    destruct (heap_take _ _ _ _ _ H1 a (ex_intro _ l Hl)) as (s2 & -> & Eh & H2). cbn [res_bind].
    destruct (queue_push _ _ _ _ _ H2 a Ha) as (s3 & -> & Es & H3).
    { intros Hw. destruct (ok_waiting _ _ Hok a Hw) as (_ & ? & _). congruence. }
    assert (Hq : ∀ b, queued (unrank a p) b ↔ queued p b) by (intros b; by eapply unrank_queued).
    exists s3. split; [done |]. split; [| by apply Hq].
    split; [exact H3 | | by eapply unrank_ok]. rewrite Es, Eh.
    eapply nr_ext; [apply H |]. intros b. by rewrite Hq.
  - destruct (SFltb float_zero v) eqn:Ev; cbn [asserting]; [| done].
    rewrite (q_type _ _ _ _ _ Hqs). cbn [of_option res_bind].
    assert (Hm : ∃ b, must_change typ l v = Some b ∧
      match typ with
      | HEAP_FLOAT_DESC => Ok (SFltb (float_priority l) v)
      | HEAP_FLOAT_ASC => Ok (SFltb v (float_priority l))
      | _ => Err assert_fail
      end = Ok b).
    { clear -Hf. unfold float_heap in Hf. unfold must_change. destruct typ; try done; by eexists. }
    destruct Hm as (b & -> & ->). cbn [mbind option_bind res_bind].
    destruct b; [| by exists s].
    pose proof (queues_level _ _ _ s p Hqs a (set_float_priority_level v)) as H1.
    assert (Hpos : positive_level (set_float_priority_level v) = true) by by rewrite new_level_positive.
    rewrite (in_queue_ok a (put_level a _ s) _ (queued p) _ (rep_nodes _ _ _ _ _ H) Ha).
    cbn [res_bind]. rewrite bool_decide_true by done. cbn [asserting].
    destruct (heap_move _ _ _ _ _ H1 a _ (ex_intro _ l Hl) (positive_ok _ Hpos)) as (s2 & -> & Eh & H2).
    exists s2. split; [done |].
    assert (Hq : ∀ b, queued (rerank a v p) b ↔ queued p b).
    { intros b. unfold queued, on_queue, rerank. cbn. destruct (decide (b = a)) as [-> | Hne].
      - rewrite lookup_insert_eq, Hl. split; by intros [? | ?]; right.
      - by rewrite lookup_insert_ne by done. }
    split; [| by apply Hq]. split; [exact H2 | | by eapply rerank_ok]. rewrite Eh.
    eapply nr_ext; [apply H |]. intros b. by rewrite Hq.
Qed.

Lemma give_priority_ok s p a v :
  prio_rep s p → a ∈ waiting (base p) → float_heap = true → is_double v →
  ∃ s', give_priority a v s = Ok s' ∧
    prio_rep s' (if SFltb float_zero v then promote a v p else p) ∧
    queued (if SFltb float_zero v then promote a v p else p) a.
Proof using.
  intros H Hw Hf Hv. pose proof (rep_queues _ _ _ _ _ H) as Hqs. pose proof (rep_plan _ _ _ _ _ H) as Hok.
  destruct (ok_waiting _ _ Hok a Hw) as ((L & HL & _) & Hk & _).
  assert (Ha : a ∈ dom (works (base p))) by by eapply elem_of_dom_2.
  unfold give_priority. destruct (SFltb float_zero v) eqn:Ev.
  - pose proof (queues_level _ _ _ s p Hqs a (set_float_priority_level v)) as H1.
    destruct (queue_take _ _ _ _ _ H1 a Hw) as (s2 & -> & Es & H2). cbn [res_bind].
    rewrite (heap_flag _ _ _ _ _ H2 a Ha). cbn [res_bind].
    rewrite bool_decide_false by exact (proj1 (eq_None_not_Some _) Hk). cbn [negb asserting].
    unfold add_to_priority_queue, level_of. rewrite (q_levels _ _ _ _ _ H2).
    unfold set_waiting, set_base, set_plan_levels. cbn [plan_levels].
    rewrite lookup_insert_eq. cbn [of_option res_bind].
    assert (Hpos : positive_level (set_float_priority_level v) = true) by by rewrite new_level_positive.
    destruct (heap_add _ _ _ _ _ H2 a _ Ha Hk (positive_ok _ Hpos)) as (s3 & -> & Eh & H3).
    pose proof (λ b, promote_queued p a v b Hw) as Hq.
    exists s3. split; [done |]. split; [| apply Hq; by left; left].
    split; [exact H3 | | by apply promote_ok]. rewrite Eh, Es.
    eapply nr_ext; [apply H |]. intros b. by rewrite Hq.
  - exists s. split; [done |]. split; [done | by left; left].
Qed.

Lemma set_priority_ok s p a v :
  prio_rep s p → a ∈ dom (works (base p)) → is_Some (plan_owners p !! a) →
  float_heap = true → is_double v →
  match plan_set_priority typ me a v p with
  | Some p' => ∃ s', prio_set_node_priority a v s = Ok s' ∧ prio_rep s' p'
  | None => prio_set_node_priority a v s = Err assert_fail
  end.
Proof using.
  intros H Ha [o Ho] Hf Hv. pose proof (rep_queues _ _ _ _ _ H) as Hqs.
  pose proof (rep_plan _ _ _ _ _ H) as Hok.
  unfold prio_set_node_priority, plan_set_priority, get_owner.
  rewrite (q_current _ _ _ _ _ Hqs), (q_owners _ _ _ _ _ Hqs), (q_me _ _ _ _ _ Hqs), Ho.
  destruct (decide (running (base p) = Some a)) as [Hr | Hr].
  { destruct (ok_running _ _ Hok a Hr) as (_ & ? & ?). eexists. split; [done |].
    by apply rep_level; [apply rep_taken | | |]. }
  cbn [of_option res_bind]. destruct (decide (Some o = Some me)) as [[= ->] | Hne].
  2: { by rewrite (proj2 (Z.eqb_neq o me)) by congruence. }
  rewrite Z.eqb_refl. cbn [asserting].
  rewrite (in_queue_ok a s _ (queued p) _ (rep_nodes _ _ _ _ _ H) Ha). cbn [res_bind].
  destruct (ranked p !! a) as [l |] eqn:Hl.
  - rewrite bool_decide_true by (right; by exists l). rewrite (heap_flag _ _ _ _ _ Hqs a Ha). cbn [res_bind].
    rewrite bool_decide_true by by exists l.
    pose proof (change_priority_ok s p a l v H Hl Hf Hv) as Hc.
    destruct (if SFeqb _ _ then _ else _) as [p' |] eqn:Ep.
    + destruct Hc as (s' & -> & H' & Hq'). exists s'. cbn [res_bind]. split; [| done].
      apply (still_queued s' p' a H'); [| done].
      enough (works (base p') = works (base p)) as -> by done. clear -Ep. revert Ep.
      destruct (SFeqb (float_priority l) v); [by intros [= <-] |].
      destruct (SFeqb v float_zero); [by intros [= <-] |].
      destruct (SFltb float_zero v); [| done].
      destruct (must_change typ l v) as [[|] |]; cbn; [by intros [= <-] | by intros [= <-] | done].
    + by rewrite Hc.
  - destruct (decide (a ∈ waiting (base p))) as [Hw | Hw].
    + rewrite bool_decide_true by by left; left. rewrite (heap_flag _ _ _ _ _ Hqs a Ha). cbn [res_bind].
      rewrite bool_decide_false by exact (proj1 (eq_None_not_Some _) Hl).
      destruct (give_priority_ok s p a v H Hw Hf Hv) as (s' & -> & H' & Hq'). cbn [res_bind].
      exists s'. split; [| done]. apply (still_queued _ _ a H'); [| done]. by destruct (SFltb float_zero v).
    + rewrite bool_decide_false by (intros [[? | ?] | [? ?]]; congruence).
      eexists. split; [done |]. by apply rep_level.
Qed.

End Refine.
