(* ===== verification/PrioRun.v ===== *)
(** Runs of the scheduler of compiled priorities: its operations as steps that follow
    the plan of [PrioPlan], and what that gives its callers. *)

From Stdlib Require Import ZArith Lia Bool SpecFloat.
From stdpp Require Import base tactics list numbers option gmap.
From S2P Require Import Loader.
From S2P Require Import Prelude Words Doubles Types Heap Pqueues Exec Externals LinearQueue DoubleQueue.
From S2P Require Import BoundedQueue World Serial Prio PrioPlan.
Import complex_pqueue(wf, contents, nodes).

#[local] Open Scope Z_scope.

(** ** Steps *)

Inductive prio_op : Type :=
  | P_new_work (w : work)         (** also [new_agg] *)
  | P_send (w : work)             (** [new_work_other] *)
  | P_deliver (w : work)          (** another thread pushes to the buffer *)
  | P_get_work
  | P_finish_work
  | P_gather (id : Z)
  | P_create (w : work)           (** a new node with its first tuple *)
  | P_set_priority (id : Z) (v : spec_float)
  | P_add_priority (id : Z) (v : spec_float)
  | P_schedule_next (id : Z).

Inductive prio_answer : Type :=
  | P_none
  | P_next (n : next)
  | P_tuples (ls : list Z).

Definition silent (r : res prio_local) : res (prio_answer * prio_local) :=
  let* s := r in Ok (P_none, s).

Definition prio_step (program_priority : priority_info) (address : positive → Z) (op : prio_op)
    (s : prio_local) : res (prio_answer * prio_local) :=
  match op with
  | P_new_work w => silent (prio_new_work program_priority w s)
  | P_send w => silent (prio_new_work_other w s)
  | P_deliver w => silent (Ok (push_buffer w s))
  | P_get_work => let* r := prio_get_work program_priority address s in Ok (P_next r.1, r.2)
  | P_finish_work => silent (let* _ := prio_finish_work s in Ok s)
  | P_gather id => let* r := prio_gather_next_tuples id s in Ok (P_tuples r.1, r.2)
  | P_create w => silent (prio_create_node program_priority w s)
  | P_set_priority id v => silent (prio_set_node_priority (node_addr id) v s)
  | P_add_priority id v => silent (prio_add_node_priority (node_addr id) v s)
  | P_schedule_next id => silent (prio_schedule_next (node_addr id) s)
  end.

Section Steps.
Context (typ : heap_type) (me maxl : Z).

(** a new node, with the tuples [W] at no level yet *)
Definition new_node (a : positive) (W : list (list Z)) (p : prio_plan) : prio_plan :=
  set_plan_levels (<[a := 0]> (plan_levels p)) (set_works (<[a := W]> (works (base p))) p).
Definition own (a : positive) (p : prio_plan) : prio_plan :=
  mk_prio_plan (base p) (ranked p) (plan_levels p) (inbox p) (outbox p) (<[a := me]> (plan_owners p)).

(** the level that is next: 100 above the best *)
Inductive next_level (p : prio_plan) : spec_float → Prop :=
  | first_level : ranked p = ∅ → next_level p schedule_add
  | above_best a l :
      best typ p a l → next_level p (SFadd prec emax (float_priority l) schedule_add).

Inductive plan_step (p : prio_plan) : prio_op → prio_answer → prio_plan → Prop :=
  | p_new_work w : plan_step p (P_new_work w) P_none (plan_add typ w p)
  | p_send w o :
      plan_owners p !! node_addr w.1.1 = Some o →
      plan_step p (P_send w) P_none
        (if o =? me then set_inbox (inbox p ++ [w]) p else set_outbox (outbox p ++ [(o, w)]) p)
  | p_deliver w : plan_step p (P_deliver w) P_none (set_inbox (inbox p ++ [w]) p)
  | p_get_work p' : next_plan typ me p p' → plan_step p P_get_work (P_next (next_answer p')) p'
  | p_finish_work : plan_step p P_finish_work P_none p
  | p_gather id :
      plan_step p (P_gather id) (P_tuples (take_works (node_addr id) (base p)).1)
        (set_base (take_works (node_addr id) (base p)).2 p)
  | p_create w W :
      concat W = [] →
      plan_step p (P_create w) P_none
        (own (node_addr w.1.1) (plan_add typ w (new_node (node_addr w.1.1) W p)))
  | p_set_priority id v p' :
      plan_set_priority typ me (node_addr id) v p = Some p' →
      plan_step p (P_set_priority id v) P_none p'
  | p_add_priority id v l p' :
      plan_levels p !! node_addr id = Some l →
      plan_set_priority typ me (node_addr id) (SFadd prec emax (float_priority l) v) p = Some p' →
      plan_step p (P_add_priority id v) P_none p'
  | p_schedule_next id v p' :
      next_level p v → plan_set_priority typ me (node_addr id) v p = Some p' →
      plan_step p (P_schedule_next id) P_none p'.

(** an assertion fails: the node is another thread's, or the level of a ranked node
    is to be negative or no number *)
Inductive plan_fails (p : prio_plan) : prio_op → Prop :=
  | fail_set id v :
      plan_set_priority typ me (node_addr id) v p = None → plan_fails p (P_set_priority id v)
  | fail_add id v l :
      plan_levels p !! node_addr id = Some l →
      plan_set_priority typ me (node_addr id) (SFadd prec emax (float_priority l) v) p = None →
      plan_fails p (P_add_priority id v)
  | fail_next id v :
      next_level p v → plan_set_priority typ me (node_addr id) v p = None →
      plan_fails p (P_schedule_next id).

(** a level for a node: the program has float priorities *)
Definition level_allowed (id : Z) (p : prio_plan) : Prop :=
  float_heap typ = true ∧ node_addr id ∈ dom (works (base p)) ∧
  is_Some (plan_owners p !! node_addr id).

(** work is for nodes of this thread, at levels of the program, or else is sent; the
    engine gathers the tuples of the node that runs; a new node has a new id *)
Definition prio_allowed (op : prio_op) (p : prio_plan) : Prop :=
  match op with
  | P_new_work w => fits maxl 1 w p ∧ plan_owners p !! node_addr w.1.1 = Some me
  | P_send w => is_Some (plan_owners p !! node_addr w.1.1)
  | P_deliver _ => True
  | P_get_work => deliverable me maxl (inbox p) p
  | P_finish_work => is_Some (running (base p))
  | P_gather id => running (base p) = Some (node_addr id)
  | P_create w => node_addr w.1.1 ∉ dom (works (base p)) ∧ 0 <= w.2 < maxl ∧ maxl <= 2 ^ 63
  | P_set_priority id v | P_add_priority id v => level_allowed id p ∧ is_double v
  | P_schedule_next id => level_allowed id p
  end.

(** the states of the scheduler *)
Definition prio_inv (s : prio_local) (p : prio_plan) : Prop :=
  prio_rep typ me maxl s p ∧ owned me p.

End Steps.

(** ** The steps follow the plan *)

Section Follow.
Context (program_priority : priority_info) (typ : heap_type)
  (Htyp : heap_type_of program_priority = Ok typ) (me maxl : Z).

#[local] Abbreviation prio_rep := (prio_rep typ me maxl).
#[local] Abbreviation prio_inv := (prio_inv typ me maxl).

(** *** Ownership *)

Lemma owned_less p p' :
  owned me p → plan_owners p' = plan_owners p → (∀ a, queued p' a → queued p a) → owned me p'.
Proof using. intros H Ho Hq a Ha. rewrite Ho. by apply H, Hq. Qed.

Lemma add_queued w p a :
  queued (plan_add typ w p) a → a = node_addr w.1.1 ∨ queued p a.
Proof using.
  unfold plan_add. destruct (decide _); [by right |]. unfold enqueue.
  destruct (plan_levels (give w p) !! node_addr w.1.1) as [l |]; [| by right].
  destruct (positive_level typ l); unfold queued, on_queue; cbn.
  - destruct (decide (a = node_addr w.1.1)) as [-> | Hne]; [by left |].
    rewrite lookup_insert_ne by done. by right.
  - rewrite elem_of_app, list_elem_of_singleton. naive_solver.
Qed.

Lemma queued_add_mono w p a : queued p a → queued (plan_add typ w p) a.
Proof using.
  intros Hq. unfold plan_add. destruct (decide _); [done |]. unfold enqueue.
  destruct (plan_levels (give w p) !! node_addr w.1.1) as [l |]; [| done].
  destruct (positive_level typ l); destruct Hq as [[Hq | Hq] | Hq].
  - by left; left.
  - by left; right.
  - right. cbn. destruct (decide (a = node_addr w.1.1)) as [-> | Hne]; [by rewrite lookup_insert_eq |].
    by rewrite lookup_insert_ne.
  - left; left. cbn. apply elem_of_app. by left.
  - by left; right.
  - by right.
Qed.

Lemma add_running w p : running (base (plan_add typ w p)) = running (base p).
Proof using.
  unfold plan_add, enqueue. destruct (decide _); [done |].
  destruct (plan_levels (give w p) !! node_addr w.1.1) as [l |]; [| done]. by destruct (positive_level typ l).
Qed.

Lemma busy_works b b' a : works b = works b' → busy b a → busy b' a.
Proof using. intros E (L & HL & Hc). exists L. by rewrite <- E. Qed.

Lemma add_owners w p : plan_owners (plan_add typ w p) = plan_owners p.
Proof using.
  unfold plan_add, enqueue. destruct (decide _); [done |].
  destruct (plan_levels (give w p) !! node_addr w.1.1) as [l |]; [| done]. by destruct (positive_level typ l).
Qed.

Lemma add_owned w p : owned me p → plan_owners p !! node_addr w.1.1 = Some me → owned me (plan_add typ w p).
Proof using.
  intros H Ho a [-> | Ha]%add_queued; rewrite add_owners; [done | by apply H].
Qed.

Lemma deliver_owned p w : owned me p → owned me (plan_deliver typ me p w).
Proof using.
  intros H. unfold plan_deliver. destruct (plan_owners p !! node_addr w.1.1) as [o |] eqn:Eo; [| done].
  destruct (Z.eqb_spec o me) as [-> |]; [by apply add_owned | done].
Qed.

Lemma receive_owned p : owned me p → owned me (receive typ me p).
Proof using.
  intros H. unfold receive. assert (H' : owned me (set_inbox [] p)) by exact H.
  revert H'. generalize (set_inbox [] p). clear H. induction (inbox p) as [| w ws IH]; intros q Hq; [done |].
  cbn. by apply IH, deliver_owned.
Qed.

Lemma retire_owned p : owned me p → owned me (retire typ p).
Proof using.
  intros H. unfold retire. destruct (running (base p)) as [c |] eqn:Hr; [| done].
  eapply owned_less; [exact H | done |]. intros a [[? | ?] | ?]; [by left; left | done | by right].
Qed.

Lemma picks_owned p p' : owned me p → running (base p) = None → picks typ p p' → owned me p'.
Proof using.
  intros H Hr [a v Hb | a l He Hw | He Hw]; [| | done]; (eapply owned_less; [exact H | done |]).
  - intros b. unfold queued, on_queue. cbn. intros [[? | [= ->]] | [u Hu]]; [by left; left | |].
    + right. exists v. apply Hb.
    + apply lookup_delete_Some in Hu as [_ Hu]. right. by exists u.
  - intros b. unfold queued, on_queue. cbn. rewrite Hw, elem_of_cons. intros [[? | [= ->]] | ?]; [| | by right].
    + by left; left; right.
    + by left; left; left.
Qed.

Lemma retire_running p : running (base (retire typ p)) = None.
Proof using. unfold retire. by destruct (running (base p)) eqn:E. Qed.

Lemma next_owned p p' : owned me p → next_plan typ me p p' → owned me p'.
Proof using.
  intros H [a Hr Hb | a q Hr Hb Hk Hp | q Hc Hp]; [done | |].
  - by apply (picks_owned (retire typ p)); [apply retire_owned | apply retire_running |].
  - apply (picks_owned (receive typ me (retire typ p))); [by apply receive_owned, retire_owned | | done].
    apply receive_running, retire_running.
Qed.

Lemma set_priority_owned a v p p' :
  owned me p → plan_set_priority typ me a v p = Some p' → owned me p'.
Proof using.
  intros H. unfold plan_set_priority. destruct (decide (running (base p) = Some a)) as [Hr | Hr].
  { intros [= <-]. exact H. }
  destruct (decide (plan_owners p !! a = Some me)) as [Ho | Ho]; [| done].
  destruct (ranked p !! a) as [l |] eqn:Hl.
  - destruct (SFeqb (float_priority l) v); [by intros [= <-] |].
    destruct (SFeqb v float_zero).
    + intros [= <-]. eapply owned_less; [exact H | done |]. intros b. by apply (unrank_queued p a l b Hl).
    + destruct (SFltb float_zero v); [| done].
      destruct (must_change typ l v) as [[|] |]; cbn; [| by intros [= <-] | done].
      intros [= <-]. eapply owned_less; [exact H | done |]. intros b. unfold queued, on_queue, rerank. cbn.
      destruct (decide (b = a)) as [-> | Hne]; [by right; exists l |]. by rewrite lookup_insert_ne.
  - destruct (decide (a ∈ waiting (base p))) as [Hw | Hw]; [| intros [= <-]; exact H].
    destruct (SFltb float_zero v); intros [= <-]; [| exact H].
    eapply owned_less; [exact H | done |]. intros b. by apply (promote_queued p a v b Hw).
Qed.

(** *** The other operations *)

Lemma new_work_follows s p w :
  prio_rep s p → fits maxl 1 w p →
  ∃ s', prio_new_work program_priority w s = Ok s' ∧ prio_rep s' (plan_add typ w p) ∧
        queued (plan_add typ w p) (node_addr w.1.1).
Proof using Htyp.
  intros H Hf. destruct (new_agg_ok program_priority typ Htyp me maxl s p w H Hf) as (s' & E & H').
  unfold prio_new_work. rewrite E. cbn [res_bind].
  assert (Hq : queued (plan_add typ w p) (node_addr w.1.1)).
  { unfold plan_add. destruct (decide _); [done |]. apply queued_enqueue; [| by left].
    eapply add_levels; [apply H | done]. }
  exists s'. split; [| done].
  rewrite (in_queue_ok maxl _ s' _ _ (queued_dec _) (rep_nodes _ _ _ _ _ H')).
  - cbn [res_bind]. by rewrite bool_decide_true.
  - rewrite works_add, give_dom. by eapply fits_dom.
Qed.

Lemma send_follows s p w o :
  prio_rep s p → plan_owners p !! node_addr w.1.1 = Some o →
  ∃ s', prio_new_work_other w s = Ok s' ∧
    prio_rep s' (if o =? me then set_inbox (inbox p ++ [w]) p else set_outbox (outbox p ++ [(o, w)]) p).
Proof using.
  intros H Ho. pose proof (rep_queues _ _ _ _ _ H) as Hq. unfold prio_new_work_other, get_owner.
  rewrite (q_owners _ _ _ _ _ Hq), Ho. cbn [of_option res_bind]. rewrite (q_me _ _ _ _ _ Hq).
  destruct (o =? me); (eexists; split; [done |]); [| by apply rep_send].
  rewrite (q_inbox _ _ _ _ _ Hq). by apply rep_inbox.
Qed.

Lemma finish_follows s p : prio_inv s p → is_Some (running (base p)) → prio_finish_work s = Ok ().
Proof using.
  intros [H Hown] [c Hr]. pose proof (rep_queues _ _ _ _ _ H) as Hq.
  assert (Hqc : queued p c) by by left; right.
  destruct (ok_running _ _ (rep_plan _ _ _ _ _ H) c Hr) as (Hc & _).
  unfold prio_finish_work, get_owner. rewrite (q_current _ _ _ _ _ Hq), Hr.
  rewrite (in_queue_ok maxl c s _ _ (queued_dec p) (rep_nodes _ _ _ _ _ H) Hc). cbn [res_bind].
  rewrite (q_owners _ _ _ _ _ Hq), (Hown c Hqc). cbn [of_option res_bind].
  by rewrite (q_me _ _ _ _ _ Hq), Z.eqb_refl, bool_decide_true.
Qed.

Lemma gather_follows s p id :
  prio_rep s p → running (base p) = Some (node_addr id) →
  let r := take_works (node_addr id) (base p) in
  ∃ s', prio_gather_next_tuples id s = Ok (r.1, s') ∧ prio_rep s' (set_base r.2 p).
Proof using.
  intros H Hr. pose proof (rep_plan _ _ _ _ _ H) as Hok. pose proof (rep_nodes _ _ _ _ _ H) as Hn.
  destruct (ok_running _ _ Hok _ Hr) as ([L HL]%elem_of_dom & Hw & Hk). set (a := node_addr id) in *.
  unfold prio_gather_next_tuples, serial_gather_next_tuples, serial_of, take_works. fold a.
  rewrite HL. destruct (take_first L) as [[l L'] |] eqn:E.
  - destruct (nr_take maxl _ _ _ Hn a L l L' HL E) as (n & q & -> & Eq & Hn').
    cbn [of_option res_bind]. rewrite Eq. cbn [res_bind fst snd].
    eexists. split; [done |].
    assert (Hne : ∀ b, b ≠ a → busy (set_works (<[a := L']> (works (base p))) p).(base) b ↔ busy (base p) b).
    { intros b Hba. unfold busy. cbn. by rewrite lookup_insert_ne. }
    assert (Hd : dom (<[a := L']> (works (base p))) = dom (works (base p)))
      by by apply dom_insert_lookup_L; eexists.
    split; [| exact Hn' |].
    + apply (queues_works typ me maxl); [apply queues_nodes, H | done].
    + split; cbn; rewrite ?Hd; try apply Hok.
      * intros b Hb. destruct (ok_waiting _ _ Hok b Hb) as (? & ?). split; [| done].
        apply Hne; [by intros -> | done].
      * intros b u Hu. destruct (ok_ranked _ _ Hok b u Hu) as (? & ?). split; [| done].
        apply Hne; [intros ->; congruence | done].
      * intros b Hb. destruct (decide (b = a)) as [-> | Hba]; [by left; right |].
        apply (ok_busy _ _ Hok). by apply Hne.
  - destruct (nr_node _ _ _ _ Hn a L HL) as (n & Ha & Hb & _). rewrite Ha. cbn [of_option res_bind].
    assert (bounded_empty (queue n) = true) as Hem by by apply (bounded_empty_ok _ _ Hb), take_first_none.
    unfold bounded_top_list. rewrite Hem. cbn [res_bind fst snd]. eexists. split; [done |].
    replace (set_base (base p) p) with p by by destruct p.
    replace (set_here _ s) with s; [done |]. destruct s as [h ? ? ? ? ? ? ? ? ? ? ?], h, n.
    unfold put_serial, set_snodes, set_here. cbn in *. by rewrite insert_id.
Qed.

Lemma rep_own s p a : prio_rep s p → prio_rep (set_owner a me s) (own me a p).
Proof using.
  intros H. split; [| apply H |].
  - destruct (rep_queues _ _ _ _ _ H). split; try done. cbn. by f_equal.
  - destruct (rep_plan _ _ _ _ _ H). by split.
Qed.

Lemma create_follows s p id :
  prio_rep s p → node_addr id ∉ dom (works (base p)) → 0 < maxl <= 2 ^ 63 →
  ∃ s' W, create_prio_node id s = Ok s' ∧ concat W = [] ∧ (Z.to_nat maxl <= length W)%nat ∧
    prio_rep s' (new_node (node_addr id) W p).
Proof using.
  intros H Ha Hm. set (a := node_addr id) in *. pose proof (rep_queues _ _ _ _ _ H) as Hq.
  pose proof (rep_plan _ _ _ _ _ H) as Hok. pose proof (rep_nodes _ _ _ _ _ H) as Hn.
  destruct (new_bounded_pqueue_rep (T:=Z) (C:=linear_queue Z) maxl Hm) as (q & W & E & Hqr & Hc & Hl).
  unfold create_prio_node, on_here, create_serial_node. fold a. rewrite (q_max _ _ _ _ _ Hq), E.
  cbn [res_bind]. eexists _, W. split; [done |]. split; [done |]. split; [lia |].
  assert (Hna : ¬ queued p a).
  { intros [[Hw | Hr] | [l Hl']].
    - destruct (ok_waiting _ _ Hok a Hw) as ((L & HL & _) & _). by apply Ha; eapply elem_of_dom_2.
    - by apply Ha, (ok_running _ _ Hok).
    - destruct (ok_ranked _ _ Hok a l Hl') as ((L & HL & _) & _). by apply Ha; eapply elem_of_dom_2. }
  assert (Hfree : nodes (prio_queue s) !! a = None).
  { apply not_elem_of_dom. by rewrite (q_heap_nodes _ _ _ _ _ Hq). }
  destruct (complex_pqueue.new_node_contents typ (prio_queue s) a (complex_pqueue.mk_node 0 0 false)
              (q_heap _ _ _ _ _ Hq) Hfree eq_refl) as [Hwf Hcont].
  assert (Hb : ∀ b, busy (base (new_node a W p)) b ↔ busy (base p) b).
  { intros b. unfold busy. cbn. destruct (decide (b = a)) as [-> | Hne].
    - rewrite lookup_insert_eq. apply not_elem_of_dom in Ha. rewrite Ha.
      split; [intros (? & [= <-] & ?); congruence | by intros (? & ? & _)].
    - by rewrite lookup_insert_ne. }
  split.
  - split; try apply Hq; cbn.
    + apply new_object_rep; [apply Hq |]. apply not_elem_of_dom. by rewrite (q_links _ _ _ _ _ Hq).
    + exact Hwf.
    + etrans; [exact Hcont | apply Hq].
    + by rewrite (q_levels _ _ _ _ _ Hq).
    + rewrite !dom_insert_L. f_equal. apply Hq.
    + rewrite !dom_insert_L. f_equal. apply Hq.
    + done.
  - intros b. cbn. destruct (decide (b = a)) as [-> | Hne].
    + rewrite !lookup_insert_eq. split; [done |]. split; [by split |]. lia.
    + rewrite !lookup_insert_ne by done. apply Hn.
  - split; cbn; try apply Hok.
    + rewrite !dom_insert_L. f_equal. apply Hok.
    + intros b Hr. destruct (ok_running _ _ Hok b Hr) as (? & ?). split; [| done].
      rewrite dom_insert_L. by apply elem_of_union_r.
    + intros b Hw. destruct (ok_waiting _ _ Hok b Hw) as (? & ? & l & ? & ?).
      split; [by apply Hb |]. split; [done |]. exists l. rewrite lookup_insert_ne; [done |].
      intros ->. apply Hna. by left; left.
    + intros b u Hu. destruct (ok_ranked _ _ Hok b u Hu) as (? & ? & ?). split; [by apply Hb |].
      rewrite lookup_insert_ne; [done |]. intros ->. apply Hna. by right; exists u.
    + intros b Hbb. apply (ok_busy _ _ Hok). by apply Hb.
Qed.

Lemma next_level_follows s p :
  prio_rep s p →
  ∃ v, next_level typ p v ∧ ∀ a, prio_schedule_next a s = prio_set_node_priority a v s.
Proof using.
  intros H. pose proof (rep_queues _ _ _ _ _ H) as Hq. unfold prio_schedule_next.
  rewrite (heap_empty _ _ _ _ _ Hq). destruct (decide (ranked p = ∅)) as [He | He].
  - rewrite bool_decide_true by done. cbn [res_bind]. exists schedule_add. by split; [left |].
  - rewrite bool_decide_false by done. pose proof He as Hc. rewrite <- (q_ranked _ _ _ _ _ Hq) in Hc.
    destruct (complex_pqueue.pop_contents typ _ (q_heap _ _ _ _ _ Hq) Hc)
      as (a & l & _ & _ & _ & _ & _ & Ha & Hm & Hbest).
    rewrite Hm. cbn [res_bind]. eexists. split; [| done]. eapply above_best.
    split; [by rewrite <- (q_ranked _ _ _ _ _ Hq) |]. intros b u. rewrite <- (q_ranked _ _ _ _ _ Hq). apply Hbest.
Qed.

Lemma next_double p v : next_level typ p v → is_double v.
Proof using.
  assert (Ha : is_double schedule_add) by apply normalize_double.
  intros [He | a l Hb]; [done | apply SFadd_double; [apply bits_double | done]].
Qed.

(** a step whose answer is nothing *)
Lemma set_priority_follows op s p id v :
  prio_inv s p → level_allowed typ id p → is_double v →
  (∀ p', plan_set_priority typ me (node_addr id) v p = Some p' → plan_step typ me p op P_none p') →
  (plan_set_priority typ me (node_addr id) v p = None → plan_fails typ me p op) →
  (plan_fails typ me p op ∧ silent (prio_set_node_priority (node_addr id) v s) = Err assert_fail) ∨
  ∃ ans s' p', silent (prio_set_node_priority (node_addr id) v s) = Ok (ans, s') ∧
    plan_step typ me p op ans p' ∧ prio_inv s' p'.
Proof using.
  intros [H Hown] (Hf & Ha & Ho) Hv Hstep Hfail.
  pose proof (set_priority_ok typ me maxl s p (node_addr id) v H Ha Ho Hf Hv) as Hs.
  destruct (plan_set_priority typ me (node_addr id) v p) as [p' |] eqn:E.
  - right. destruct Hs as (s' & -> & H'). exists P_none, s', p'. split; [done |].
    split; [by apply Hstep |]. split; [done |]. by eapply set_priority_owned.
  - left. rewrite Hs. split; [by apply Hfail | done].
Qed.

Lemma create_node_follows s p w :
  prio_inv s p → node_addr w.1.1 ∉ dom (works (base p)) → 0 <= w.2 < maxl → maxl <= 2 ^ 63 →
  ∃ s' W, prio_create_node program_priority w s = Ok s' ∧ concat W = [] ∧
    prio_inv s' (own me (node_addr w.1.1) (plan_add typ w (new_node (node_addr w.1.1) W p))).
Proof using Htyp.
  intros [H Hown] Ha Hl Hm.
  destruct (create_follows s p w.1.1 H Ha ltac:(lia)) as (s1 & W & E1 & HW & Hlen & H1).
  unfold prio_create_node. rewrite E1. cbn [res_bind].
  assert (Hf : fits maxl 1 w (new_node (node_addr w.1.1) W p)).
  { split; [done |]. exists W. cbn [base new_node set_plan_levels set_works set_base works].
    rewrite lookup_insert_eq, HW. split; [done |]. split; [cbn; lia | done]. }
  destruct (new_work_follows s1 _ w H1 Hf) as (s2 & E2 & H2 & _). unfold prio_init_node. rewrite E2.
  cbn [res_bind]. rewrite (q_me _ _ _ _ _ (rep_queues _ _ _ _ _ H2)).
  eexists _, W. split; [done |]. split; [done |]. split; [by apply rep_own |].
  intros a Hqa. cbn. rewrite add_owners. destruct (decide (a = node_addr w.1.1)) as [-> | Hne].
  - apply lookup_insert_eq.
  - rewrite lookup_insert_ne by done. apply Hown. change (queued (plan_add typ w (new_node (node_addr w.1.1) W p)) a) in Hqa.
    by apply add_queued in Hqa as [? | Hqa].
Qed.

Lemma prio_follows address op s p :
  prio_inv s p → prio_allowed typ me maxl op p →
  (plan_fails typ me p op ∧ prio_step program_priority address op s = Err assert_fail) ∨
  ∃ ans s' p', prio_step program_priority address op s = Ok (ans, s') ∧
    plan_step typ me p op ans p' ∧ prio_inv s' p'.
Proof using Htyp.
  intros Hinv Hal. pose proof Hinv as [H Hown].
  destruct op as [w | w | w | | | id | w | id v | id v | id]; cbn [prio_step prio_allowed] in *.
  - right. destruct Hal as [Hf Ho]. destruct (new_work_follows s p w H Hf) as (s' & -> & H' & _).
    eexists _, _, _. split; [done |]. split; [apply p_new_work |]. split; [done | by apply add_owned].
  - right. destruct Hal as [o Ho]. destruct (send_follows s p w o H Ho) as (s' & -> & H').
    eexists _, _, _. split; [done |]. split; [by apply p_send |]. split; [done |]. by destruct (o =? me).
  - right. eexists _, _, _. split; [done |]. split; [apply p_deliver |]. split; [| done].
    unfold push_buffer. rewrite (q_inbox _ _ _ _ _ (rep_queues _ _ _ _ _ H)). by apply rep_inbox.
  - right. destruct (prio_get_work_ok program_priority typ Htyp me maxl address s p H Hal)
      as (s' & p' & -> & Hn & H' & _).
    eexists _, _, _. split; [done |]. split; [by apply p_get_work |]. split; [done | by eapply next_owned].
  - right. rewrite (finish_follows s p Hinv Hal). eexists _, _, _. split; [done |].
    by split; [apply p_finish_work |].
  - right. destruct (gather_follows s p id H Hal) as (s' & -> & H').
    eexists _, _, _. split; [done |]. split; [apply p_gather |]. split; [done |].
    eapply owned_less; [exact Hown | done |]. intros a. unfold queued, on_queue, take_works. cbn.
    destruct (works (base p) !! node_addr id) as [W |]; [| done]. by destruct (take_first W) as [[? ?] |].
  - right. destruct Hal as (Ha & Hl & Hm).
    destruct (create_node_follows s p w Hinv Ha Hl Hm) as (s' & W & -> & HW & H').
    eexists _, _, _. split; [done |]. by split; [apply p_create |].
  - destruct Hal. apply set_priority_follows; [done | done | done | apply p_set_priority | apply fail_set].
  - destruct Hal as [Hlev Hv]. pose proof Hlev as (_ & Ha & _). pose proof (rep_plan _ _ _ _ _ H) as Hok.
    rewrite <- (ok_levels _ _ Hok) in Ha. apply elem_of_dom in Ha as [l Hl].
    unfold prio_add_node_priority, level_of.
    rewrite (q_levels _ _ _ _ _ (rep_queues _ _ _ _ _ H)), Hl. cbn [of_option res_bind].
    apply set_priority_follows;
      [done | done | by apply SFadd_double, Hv; apply bits_double | intros p'; by eapply p_add_priority |].
    by eapply fail_add.
  - destruct (next_level_follows s p H) as (v & Hv & E). rewrite E.
    apply set_priority_follows;
      [done | done | by eapply next_double | intros p'; by eapply p_schedule_next |].
    by eapply fail_next.
Qed.

(** *** The beginning *)

Lemma create_ptype id t s :
  create_prio_node id (set_ptype t s) = res_map (set_ptype t) (create_prio_node id s).
Proof using. unfold create_prio_node, on_here. cbn. by destruct (create_serial_node id (here s)). Qed.

Definition empty_plan : prio_plan := mk_prio_plan (mk_plan None [] ∅) ∅ ∅ [] [] ∅.

Lemma new_prio_rep : prio_rep (set_ptype typ (new_prio me maxl)) empty_plan.
Proof using.
  split.
  - split; try done; cbn.
    + split; try done. by apply NoDup_nil.
    + split_and!; [intros k Hk; cbn in Hk; lia | intros k Hk; cbn in Hk; lia |].
      split; [by intros i a Hi | by intros a n Hn].
  - intros a. cbn. by rewrite !lookup_empty.
  - split; cbn; try done.
    + by intros a Ha%not_elem_of_nil.
    + by intros a (L & HL & _).
Qed.

(** a node that waits for its first tuple *)
Definition fresh (w : work) (p : prio_plan) : Prop := fits maxl 1 w p ∧ ¬ queued p (node_addr w.1.1).

Lemma fresh_new w (w' : work) W p :
  fresh w p → node_addr w.1.1 ≠ node_addr w'.1.1 → fresh w (new_node (node_addr w'.1.1) W p).
Proof using.
  intros [(Hl & L & HL & ? & ?) Hq] Hne. split; [| exact Hq]. split; [done |]. exists L. cbn.
  by rewrite lookup_insert_ne by done.
Qed.

Lemma create_all (ws : list work) s p :
  prio_rep (set_ptype typ s) p → 0 < maxl <= 2 ^ 63 →
  NoDup ((λ w : work, node_addr w.1.1) <$> ws) →
  Forall (λ w : work, node_addr w.1.1 ∉ dom (works (base p)) ∧ 0 <= w.2 < maxl) ws →
  ∃ s' p', foldr (λ (w : work) r, let* s := r in create_prio_node w.1.1 s) (Ok s) ws = Ok s' ∧
    prio_rep (set_ptype typ s') p' ∧ Forall (λ w, fresh w p') ws ∧
    (∀ a, queued p' a ↔ queued p a) ∧ (∀ a, (∀ w, w ∈ ws → node_addr w.1.1 ≠ a) → works (base p') !! a = works (base p) !! a).
Proof using.
  intros H Hm Hnd Hall. induction ws as [| w ws IH]; [by exists s, p |].
  cbn [fmap list_fmap] in Hnd. apply NoDup_cons in Hnd as [Hni Hnd].
  apply Forall_cons in Hall as [[Ha Hl] Hall].
  destruct (IH Hnd Hall) as (s1 & p1 & E & H1 & Hf & Hq & Hw). cbn [foldr]. rewrite E. cbn [res_bind].
  assert (Ha1 : node_addr w.1.1 ∉ dom (works (base p1))).
  { rewrite not_elem_of_dom, Hw; [by apply not_elem_of_dom |]. intros w' Hw' Heq. apply Hni.
    rewrite <- Heq. by apply (list_elem_of_fmap_2 (λ w : work, node_addr w.1.1)). }
  destruct (create_follows _ p1 w.1.1 H1 Ha1 Hm) as (s2 & W & E2 & HW & Hlen & H2).
  rewrite create_ptype in E2. destruct (create_prio_node w.1.1 s1) as [s2' |]; [| done].
  cbn in E2. injection E2 as <-.
  assert (Hnq : ¬ queued p1 (node_addr w.1.1)).
  { intros Hqa. pose proof (rep_plan _ _ _ _ _ H1) as Hok. apply Ha1.
    destruct Hqa as [[Hx | Hx] | [l Hx]]; [| by apply (ok_running _ _ Hok) |].
    - destruct (ok_waiting _ _ Hok _ Hx) as ((L & HL & _) & _). by eapply elem_of_dom_2.
    - destruct (ok_ranked _ _ Hok _ l Hx) as ((L & HL & _) & _). by eapply elem_of_dom_2. }
  exists s2', (new_node (node_addr w.1.1) W p1). split; [done |]. split; [done |]. split; [| split; [exact Hq |]].
  - apply Forall_cons. split.
    + split; [| exact Hnq]. split; [done |]. exists W. cbn. by rewrite lookup_insert_eq, HW.
    + apply Forall_forall. intros w' Hw'. rewrite Forall_forall in Hf. apply fresh_new; [by apply Hf |].
      intros Heq. apply Hni. rewrite <- Heq. by apply (list_elem_of_fmap_2 (λ w : work, node_addr w.1.1)).
  - intros a Hne. cbn. rewrite lookup_insert_ne by (apply Hne; by left).
    apply Hw. intros w' Hw'. apply Hne. by right.
Qed.

Lemma fresh_init w (w' : work) l p :
  fresh w p → node_addr w.1.1 ≠ node_addr w'.1.1 →
  fresh w (own me (node_addr w'.1.1)
             (plan_add typ w' (set_plan_levels (<[node_addr w'.1.1 := l]> (plan_levels p)) p))).
Proof using.
  intros [(Hl & L & HL & ? & ?) Hq] Hne. split.
  - split; [done |]. exists L. split; [| done]. cbn. rewrite works_add. cbn. by rewrite lookup_alter_ne.
  - intros [? | Hqa]%add_queued; [done |]. by apply Hq.
Qed.

Lemma init_nodes_follows ws s p :
  prio_inv s p → NoDup ((λ w : work, node_addr w.1.1) <$> ws) → Forall (λ w, fresh w p) ws →
  ∃ s' p', init_nodes program_priority ws s = Ok s' ∧ prio_inv s' p' ∧
    (∀ a, queued p a → queued p' a) ∧ Forall (λ w, queued p' (node_addr w.1.1)) ws ∧
    running (base p') = running (base p).
Proof using Htyp.
  revert s p. induction ws as [| w ws IH]; intros s p [H Hown] Hnd Hall; [by exists s, p |].
  cbn [fmap list_fmap] in Hnd. apply NoDup_cons in Hnd as [Hni Hnd].
  apply Forall_cons in Hall as [[Hf Hq] Hall]. set (a := node_addr w.1.1) in *.
  set (l := initial_priority program_priority).
  set (p1 := set_plan_levels (<[a := l]> (plan_levels p)) p).
  assert (H1 : prio_rep (put_level a l s) p1).
  { apply rep_level; [done | by eapply fits_dom | |].
    - intros Hw. apply Hq. by left; left.
    - destruct (ranked p !! a) eqn:E; [| done]. destruct Hq. right. by rewrite E. }
  destruct (new_work_follows _ p1 w H1 Hf) as (s2 & E2 & H2 & Hq2).
  pose proof (rep_own s2 _ a H2) as H3. set (p2 := own me a (plan_add typ w p1)) in *.
  assert (Hown2 : owned me p2).
  { intros b Hb. cbn. destruct (decide (b = a)) as [-> | Hne]; [apply lookup_insert_eq |].
    rewrite lookup_insert_ne, add_owners by done. apply Hown.
    change (queued (plan_add typ w p1) b) in Hb. by apply add_queued in Hb as [? | Hb]. }
  cbn [init_nodes]. fold a l. unfold prio_init_node. rewrite E2. cbn [res_bind]. fold a.
  rewrite (q_me _ _ _ _ _ (rep_queues _ _ _ _ _ H2)).
  unfold get_owner. cbn [owners set_owner thread_id]. rewrite lookup_insert_eq. cbn [of_option res_bind].
  assert (Hb : busy (base p2) a).
  { apply (busy_works (base (give w p1))); [cbn; by rewrite works_add |].
    apply (give_busy maxl 1 w p1 a Hf). by right. }
  pose proof Hb as (L & HL & _).
  destruct (nr_node _ _ _ _ (rep_nodes _ _ _ _ _ H3) a L HL) as (n & Hn & _ & Hfl & _).
  unfold serial_of. rewrite Hn. cbn [of_option res_bind].
  rewrite (q_me _ _ _ _ _ (rep_queues _ _ _ _ _ H2)), Z.eqb_refl, (proj2 Hfl Hq2).
  rewrite (nr_has_work _ _ _ _ (rep_nodes _ _ _ _ _ H3) (base p2) a n eq_refl Hn), bool_decide_true by done.
  cbn [andb asserting].
  destruct (IH _ p2 (conj H3 Hown2) Hnd) as (s' & p' & E' & H' & Hqm & Hqa & Hr').
  { apply Forall_forall. intros w' Hw'. rewrite Forall_forall in Hall. apply fresh_init; [by apply Hall |].
    intros Heq. apply Hni. fold a in Heq. rewrite <- Heq. by apply (list_elem_of_fmap_2 (λ w : work, node_addr w.1.1)). }
  exists s', p'. split; [done |]. split; [done |]. split; [| split].
  - intros b Hbq. apply Hqm. change (queued (plan_add typ w p1) b). by apply queued_add_mono.
  - apply Forall_cons. split; [| done]. by apply Hqm.
  - rewrite Hr'. exact (add_running w p1).
Qed.

End Follow.

(** ** What the scheduler promises *)

(** C15: the scheduler of priorities implements its plan.  In a state that stands for a
    plan every allowed operation fails the assertion that the plan fails, or else
    returns, answers what the plan answers and stands for its next state: a node that
    gets work is ranked if its level is positive and in line otherwise, [get_work]
    keeps a busy node, then takes a best ranked node, then the first in line, and a
    new level moves a node between the two queues. *)
Theorem prio_refines (program_priority : priority_info) (address : positive → Z) (typ : heap_type)
    (me maxl : Z) (op : prio_op) (s : prio_local) (p : prio_plan)
    (Htyp : heap_type_of program_priority = Ok typ) (Hinv : prio_inv typ me maxl s p)
    (Hop : prio_allowed typ me maxl op p) :
  (plan_fails typ me p op ∧ prio_step program_priority address op s = Err assert_fail) ∨
  ∃ ans s' p', prio_step program_priority address op s = Ok (ans, s') ∧
    plan_step typ me p op ans p' ∧ prio_inv typ me maxl s' p'.
Proof. by apply prio_follows. Qed.

Lemma next_none typ me p p' :
  next_plan typ me p p' → running (base p') = None →
  ranked p' = ∅ ∧ waiting (base p') = [] ∧ inbox p' = [].
Proof.
  intros [a Hr Hb | a q Hr Hb Hk Hp | q Hc Hp] Hn; [congruence | |].
  - inversion Hp; subst; [done | done |]. destruct Hk. unfold retire in *. by rewrite Hr in *.
  - inversion Hp; subst; [done | done |]. by destruct (receive_shape typ me (retire typ p)).
Qed.

(** C16: [get_work] makes the thread wait only when it has nothing to do: no tuple in
    its buffer, no node in its queues and no tuple in its nodes.  Otherwise the node
    it returns has work, passes the assertions of [finish_work], and
    [gather_next_tuples] gives tuples of it. *)
Theorem prio_get_work_complete (program_priority : priority_info) (address : positive → Z)
    (typ : heap_type) (me maxl : Z) (s : prio_local) (p : prio_plan)
    (Htyp : heap_type_of program_priority = Ok typ) (Hinv : prio_inv typ me maxl s p)
    (Hmail : deliverable me maxl (inbox p) p) :
  ∃ n s1, prio_get_work program_priority address s = Ok (n, s1) ∧
    match n with
    | Waits => prio_has_work s1 = false ∧
        ∀ a nd, snodes (here s1) !! a = Some nd → node_has_work nd = false
    | Got id => prio_finish_work s1 = Ok () ∧
        ∃ x ls s2, prio_gather_next_tuples id s1 = Ok (x :: ls, s2)
    end.
Proof.
  destruct Hinv as [H Hown].
  destruct (prio_get_work_ok program_priority typ Htyp me maxl address s p H Hmail)
    as (s1 & p1 & E & Hn & H1 & Hb).
  pose proof (next_owned typ me _ _ Hown Hn) as Hown1.
  exists (next_answer p1), s1. split; [done |]. unfold next_answer.
  destruct (running (base p1)) as [a |] eqn:Hr.
  - split; [by apply (finish_follows typ me maxl s1 p1 (conj H1 Hown1)); eexists |].
    destruct (gather_follows typ me maxl s1 p1 (node_id a) H1) as (s2 & E2 & _);
      rewrite node_addr_id in *; [done |].
    pose proof (take_works_busy _ _ (Hb a eq_refl)) as Hne.
    destruct (take_works a (base p1)).1 as [| x ls]; [done |]. by exists x, ls, s2.
  - destruct (next_none _ _ _ _ Hn Hr) as (Hk & Hw & Hi). split.
    + rewrite (some_work _ _ _ _ _ (rep_queues _ _ _ _ _ H1)).
      apply bool_decide_eq_false. by intros [? | [? | ?]].
    + intros a nd Ha. rewrite (nr_has_work _ _ _ _ (rep_nodes _ _ _ _ _ H1) (base p1) a nd eq_refl Ha).
      apply bool_decide_eq_false. intros Hbusy.
      destruct (ok_busy _ _ (rep_plan _ _ _ _ _ H1) a Hbusy) as [[Hq | Hq] | [l Hl]].
      * rewrite Hw in Hq. by apply not_elem_of_nil in Hq.
      * congruence.
      * by rewrite Hk, lookup_empty in Hl.
Qed.

Lemma SFleb_false_eqb x y : SFleb x y = false → SFeqb x y = false.
Proof. unfold SFleb, SFeqb. by destruct (SFcompare x y) as [[] |]. Qed.
Lemma SFltb_not_eqb x y : SFltb x y = true → SFeqb x y = false.
Proof. unfold SFltb, SFeqb. by destruct (SFcompare x y) as [[] |]. Qed.

(** a queued node gets a level above all others *)
Lemma raise_level me p a v :
  plan_ok HEAP_FLOAT_DESC p → owned me p → queued p a → running (base p) ≠ Some a →
  SFltb float_zero v = true →
  (∀ b l, ranked p !! b = Some l → SFltb (float_priority l) v = true) →
  ∃ p', plan_set_priority HEAP_FLOAT_DESC me a v p = Some p' ∧
    ranked p' = <[a := set_float_priority_level v]> (ranked p) ∧
    running (base p') = running (base p) ∧ works (base p') = works (base p).
Proof.
  intros Hok Hown Hq Hr Hv Hall. unfold plan_set_priority.
  rewrite decide_False by done. rewrite decide_True by by apply Hown.
  destruct (ranked p !! a) as [l |] eqn:Hl.
  - rewrite (SFltb_not_eqb _ _ (Hall a l Hl)), (SFleb_false_eqb _ _ (SFltb_not_leb _ _ Hv)), Hv.
    cbn [must_change]. rewrite (Hall a l Hl). cbn [mbind option_bind]. by exists (rerank a v p).
  - rewrite decide_True, Hv by (by destruct Hq as [[? | ?] | [? ?]]; [| | congruence]).
    by exists (promote a v p).
Qed.

(** the next level is above all, unless 100 is lost in rounding *)
Lemma next_level_above p v :
  plan_ok HEAP_FLOAT_DESC p → next_level HEAP_FLOAT_DESC p v →
  (∀ a l, best HEAP_FLOAT_DESC p a l →
     SFltb (float_priority l) (SFadd prec emax (float_priority l) schedule_add) = true) →
  SFltb float_zero v = true ∧ ∀ b l, ranked p !! b = Some l → SFltb (float_priority l) v = true.
Proof.
  intros Hok [He | a l Hb] Habove.
  - split; [by vm_compute |]. intros b l. by rewrite He, lookup_empty.
  - pose proof (Habove a l Hb) as Hl. destruct Hb as [Ha Hbest].
    destruct (ok_ranked _ _ Hok a l Ha) as (_ & _ & Hpos). cbn [positive_level] in Hpos.
    split; [by eapply SFltb_trans |]. intros b u Hu. eapply SFleb_ltb_trans; [| exact Hl].
    by apply (Hbest b u).
Qed.

(** C17: a node that is scheduled next runs next, in a program whose priorities are floats
    in descending order.  While a node runs that has no work left, [schedule_next] of
    another node of the thread's queues, with all levels such that adding 100 is not lost
    in rounding, gives it a level above those of all ranked nodes, and [get_work] then
    returns that node, whatever its place in the queues was.  With ascending priorities
    the same level puts it last ([schedule_next_last]). *)
Theorem schedule_next_runs (program_priority : priority_info) (address : positive → Z)
    (me maxl : Z) (s : prio_local) (p : prio_plan) (c : positive) (id : Z)
    (Hid : 0 <= id) (Htyp : heap_type_of program_priority = Ok HEAP_FLOAT_DESC)
    (Hinv : prio_inv HEAP_FLOAT_DESC me maxl s p)
    (Hrun : running (base p) = Some c) (Hidle : ¬ busy (base p) c)
    (Hqueued : queued p (node_addr id)) (Hother : node_addr id ≠ c)
    (Habove : ∀ a l, best HEAP_FLOAT_DESC p a l →
       SFltb (float_priority l) (SFadd prec emax (float_priority l) schedule_add) = true) :
  ∃ s1 s2, prio_schedule_next (node_addr id) s = Ok s1 ∧
    prio_get_work program_priority address s1 = Ok (Got id, s2).
Proof.
  set (a := node_addr id) in *. destruct Hinv as [H Hown]. pose proof (rep_plan _ _ _ _ _ H) as Hok.
  destruct (next_level_follows HEAP_FLOAT_DESC me maxl s p H) as (v & Hv & E). rewrite E.
  destruct (next_level_above p v Hok Hv Habove) as (Hpos & Hall). pose proof (next_double _ _ _ Hv) as Hd.
  destruct (raise_level me p a v Hok Hown Hqueued ltac:(congruence) Hpos Hall) as (p1 & Ep & Hk & Hr1 & Hw1).
  assert (Ha : a ∈ dom (works (base p))).
  { destruct Hqueued as [[Hq | Hq] | [l Hl]]; [| congruence |].
    - destruct (ok_waiting _ _ Hok a Hq) as ((L & HL & _) & _). by eapply elem_of_dom_2.
    - destruct (ok_ranked _ _ Hok a l Hl) as ((L & HL & _) & _). by eapply elem_of_dom_2. }
  pose proof (set_priority_ok HEAP_FLOAT_DESC me maxl s p a v H Ha (ex_intro _ me (Hown a Hqueued)) eq_refl Hd) as Hs.
  rewrite Ep in Hs. destruct Hs as (s1 & -> & H1).
  assert (Hidle1 : ¬ busy (base p1) c) by (intros (L & HL & Hc); apply Hidle; exists L; by rewrite <- Hw1).
  assert (Hne : ranked p1 ≠ ∅).
  { intros He. rewrite Hk in He. by apply insert_non_empty in He. }
  destruct (get_work_at_once program_priority HEAP_FLOAT_DESC Htyp me maxl address s1 p1 c H1
              ltac:(congruence) Hidle1 Hne) as (s2 & b & u & E2 & [Hb Hbest] & _).
  exists s1, s2. split; [done |]. rewrite E2. enough (b = a) as -> by (unfold a; by rewrite node_id_addr).
  assert (Hrk : ranked (retire HEAP_FLOAT_DESC p1) = ranked p1) by (unfold retire; by destruct (running (base p1))).
  rewrite Hrk, Hk in *. destruct (decide (b = a)) as [| Hba]; [done |].
  rewrite lookup_insert_ne in Hb by done. pose proof (Hall b u Hb) as Hlt.
  pose proof (Hbest a _ (lookup_insert_eq _ _ _)) as Hc. cbn [HEAP_COMPARE] in Hc.
  unfold float_priority, set_float_priority_level in Hc. rewrite (double_bits v Hd) in Hc.
  unfold float_priority in Hlt. by rewrite (SFltb_not_leb _ _ Hlt) in Hc.
Qed.

(** C39: the scheduler begins well.  From a thread whose nodes have been made, of distinct
    ids, [init] with a first tuple for each, of one of the program's levels, passes its
    assertions, in whichever of the four orders the priorities are and with any initial
    one: every node is in the heap or the queue, none runs, and the state stands for a
    plan. *)
Theorem prio_init_ok (program_priority : priority_info) (typ : heap_type) (me maxl : Z) (ws : list work)
    (Htyp : heap_type_of program_priority = Ok typ) (Hmaxl : 0 < maxl <= 2 ^ 63)
    (Hws : Forall (λ w : work, 0 <= w.1.1 ∧ 0 <= w.2 < maxl) ws)
    (Hids : NoDup ((λ w : work, w.1.1) <$> ws)) :
  ∃ s s' p', foldr (λ (w : work) r, let* s := r in create_prio_node w.1.1 s) (Ok (new_prio me maxl)) ws = Ok s ∧
    prio_init program_priority ws s = Ok s' ∧ prio_inv typ me maxl s' p' ∧
    running (base p') = None ∧ Forall (λ w : work, queued p' (node_addr w.1.1)) ws.
Proof.
  assert (Hnd : NoDup ((λ w : work, node_addr w.1.1) <$> ws)).
  { clear Hmaxl Htyp. induction ws as [| w ws IH]; [by apply NoDup_nil |]. cbn [fmap list_fmap] in *.
    apply NoDup_cons in Hids as [Hni Hids]. apply Forall_cons in Hws as [[Hw _] Hws].
    apply NoDup_cons. split; [| by apply IH]. intros (w' & E & Hw')%list_elem_of_fmap_1. apply Hni.
    rewrite Forall_forall in Hws. destruct (Hws w' Hw') as [Hw0 _].
    assert (w.1.1 = w'.1.1) as -> by (unfold node_addr in E; lia).
    by apply (list_elem_of_fmap_2 (λ w : work, w.1.1)). }
  destruct (create_all typ me maxl ws (new_prio me maxl) empty_plan (new_prio_rep typ me maxl) Hmaxl Hnd)
    as (s & p & E & H & Hf & Hq & _).
  { eapply Forall_impl; [exact Hws |]. cbn. intros w [_ ?]. split; [| done].
    by rewrite not_elem_of_dom, lookup_empty. }
  assert (Hown : owned me p).
  { intros a [[Ha | Ha] | [l Ha]]%Hq; cbn in Ha; [by apply not_elem_of_nil in Ha | done | by rewrite lookup_empty in Ha]. }
  destruct (init_nodes_follows program_priority typ Htyp me maxl ws _ p (conj H Hown) Hnd Hf)
    as (s' & p' & E' & H' & _ & Hall & Hr).
  exists s, s', p'. split; [done |]. unfold prio_init. rewrite Htyp. cbn [res_bind].
  split; [done |]. split; [done |]. split; [| done]. rewrite Hr.
  destruct (running (base p)) as [c |] eqn:Hc; [| done]. assert (Hqc : queued p c) by by left; right.
  apply Hq in Hqc as [[Ha | Ha] | [l Ha]]; cbn in Ha; [by apply not_elem_of_nil in Ha | done | by rewrite lookup_empty in Ha].
Qed.

(** ** What the code does not do *)

(** in a program whose priorities are ints, a new positive priority for a node in the
    heap fails the assertion of the default case: priorities are set as floats *)
Theorem int_priority_aborts (typ : heap_type) (me maxl : Z) (s : prio_local) (p : prio_plan)
    (a : positive) (l : heap_priority) (v : spec_float)
    (Hint : float_heap typ = false) (Hinv : prio_inv typ me maxl s p)
    (Hranked : ranked p !! a = Some l) (Hnew : SFeqb (float_priority l) v = false)
    (Hpos : SFltb float_zero v = true) :
  prio_set_node_priority a v s = Err assert_fail.
Proof.
  destruct Hinv as [H Hown]. pose proof (rep_queues _ _ _ _ _ H) as Hq.
  pose proof (rep_plan _ _ _ _ _ H) as Hok.
  destruct (ok_ranked _ _ Hok a l Hranked) as ((L & HL & _) & Hl & _).
  assert (Ha : a ∈ dom (works (base p))) by by eapply elem_of_dom_2.
  assert (Hqa : queued p a) by (right; by exists l).
  unfold prio_set_node_priority, get_owner.
  rewrite (q_current _ _ _ _ _ Hq), (q_owners _ _ _ _ _ Hq), (q_me _ _ _ _ _ Hq), (Hown a Hqa).
  rewrite decide_False by (intros Hr; destruct (ok_running _ _ Hok a Hr) as (_ & _ & ?); congruence).
  cbn [of_option res_bind]. rewrite Z.eqb_refl. cbn [asserting].
  rewrite (in_queue_ok maxl a s _ _ (queued_dec p) (rep_nodes _ _ _ _ _ H) Ha). cbn [res_bind].
  rewrite bool_decide_true by done. rewrite (heap_flag _ _ _ _ _ Hq a Ha). cbn [res_bind].
  rewrite bool_decide_true by by exists l.
  unfold change_priority, level_of, SFneqb. rewrite (q_levels _ _ _ _ _ Hq), Hl. cbn [of_option res_bind].
  rewrite Hnew. cbn [negb]. rewrite (SFleb_false_eqb _ _ (SFltb_not_leb _ _ Hpos)), Hpos. cbn [asserting].
  rewrite (q_type _ _ _ _ _ Hq). cbn [of_option res_bind]. by destruct typ.
Qed.

(** a second addition to the entry of a node in [node_map] doubles the entry: the
    amount to add is not read *)
Theorem add_item_doubles (a : positive) (amount u : Z) (s : prio_local)
    (Hentry : node_map_find a (node_map s) = Some u) :
  item_value (mk_item ADD_PRIORITY amount a) s =
    float_to_int (SFadd prec emax (float_of_int u) (float_of_int u)).
Proof. unfold item_value. cbn [item_target item_typ]. by rewrite Hentry. Qed.

(** ** A thread with three nodes

    The first runs and has no work left; the others wait, with a tuple each. *)

Definition sample_priorities : priority_info :=
  mk_priority_info (Some FIELD_FLOAT) (Some PRIORITY_DESC) 0 false.

Definition empty_queue : bounded_pqueue (linear_queue Z) :=
  mk_bounded_pqueue (tree_node 0 (tree_leaf new_linear_queue) (tree_leaf new_linear_queue)) 0.

Definition sample_thread : prio_local :=
  mk_prio
    (mk_serial_local
       {[ 1%positive := mk_serial_node empty_queue true;
          2%positive := mk_serial_node (sample_queue 7) true;
          3%positive := mk_serial_node (sample_queue 8) true ]}
       {[ 1%positive := mk_links None None false;
          2%positive := mk_links (Some 3%positive) None true;
          3%positive := mk_links None (Some 2%positive) true ]}
       (Some 1%positive) (mk_double_queue (Some 2%positive) (Some 3%positive) 2) 2)
    {[ 1%positive := 0; 2%positive := 0; 3%positive := 0 ]}
    (complex_pqueue.mk_pqueue []
       {[ 1%positive := complex_pqueue.mk_node 0 0 false;
          2%positive := complex_pqueue.mk_node 0 0 false;
          3%positive := complex_pqueue.mk_node 0 0 false ]})
    (Some HEAP_FLOAT_DESC) (Some false) [] [] [] [] []
    {[ 1%positive := 0; 2%positive := 0; 3%positive := 0 ]} 0.

Definition sample_works : gmap positive (list (list Z)) :=
  {[ 1%positive := [[]; []]; 2%positive := [[7]; []]; 3%positive := [[8]; []] ]}.

Definition sample_prio_plan : prio_plan :=
  mk_prio_plan (mk_plan (Some 1%positive) [2%positive; 3%positive] sample_works) ∅
    {[ 1%positive := 0; 2%positive := 0; 3%positive := 0 ]} [] []
    {[ 1%positive := 0; 2%positive := 0; 3%positive := 0 ]}.

Lemma three_nodes {A} (x y z : A) a b :
  ({[ 1%positive := x; 2%positive := y; 3%positive := z ]} : gmap positive A) !! a = Some b →
  (a = 1%positive ∧ b = x) ∨ (a = 2%positive ∧ b = y) ∨ (a = 3%positive ∧ b = z).
Proof.
  rewrite !lookup_insert_Some, lookup_singleton_Some. intros [[<- <-] | [_ [[<- <-] | [_ [<- <-]]]]]; tauto.
Qed.

Lemma empty_queue_rep : bounded_rep empty_queue [[]; []].
Proof.
  split; [| by split]. exists [[]], [[]]. split; [done |].
  split; [exists []; split; [done |]; apply linear_rep_new |].
  split; [exists []; split; [done |]; apply linear_rep_new | by split].
Qed.

Lemma sample_busy a : busy (base sample_prio_plan) a → a = 2%positive ∨ a = 3%positive.
Proof. intros (L & [[_ ->] | [[-> _] | [-> _]]]%three_nodes & Hc); [done | by left | by right]. Qed.

Lemma sample_links_rep :
  double_rep (queue_nodes (here sample_thread)) (slinks (here sample_thread)) [2%positive; 3%positive].
Proof.
  split; try done.
  - apply NoDup_cons. split; [| apply NoDup_singleton]. by rewrite list_elem_of_singleton.
  - intros a n [[-> ->] | [[-> _] | [-> _]]]%three_nodes Ha; [done | |]; destruct Ha; set_solver.
Qed.

Lemma sample_inv : prio_inv HEAP_FLOAT_DESC 0 2 sample_thread sample_prio_plan.
Proof.
  split; [split |].
  - split; try done; [exact sample_links_rep |].
    split_and!; [intros k Hk; cbn in Hk; lia | intros k Hk; cbn in Hk; lia |].
    split; [done |]. by intros a n [[_ ->] | [[_ ->] | [_ ->]]]%three_nodes.
  - intros a. destruct (decide (a = 1%positive)) as [-> | H1].
    { split; [apply empty_queue_rep |]. split; [| vm_compute; repeat constructor]. split; [by left; right | done]. }
    destruct (decide (a = 2%positive)) as [-> | H2].
    { split; [apply sample_queue_rep |]. split; [| vm_compute; repeat constructor].
      split; [intros _; left; left; apply elem_of_cons; by left | done]. }
    destruct (decide (a = 3%positive)) as [-> | H3].
    { split; [apply sample_queue_rep |]. split; [| vm_compute; repeat constructor].
      split; [intros _; left; left; apply elem_of_cons; right; by apply list_elem_of_singleton | done]. }
    cbn [here sample_thread snodes base sample_prio_plan works].
    destruct (_ !! a) as [n |] eqn:E; [by apply three_nodes in E as [[? _] | [[? _] | [? _]]] |].
    destruct (sample_works !! a) as [L |] eqn:E'; [by apply three_nodes in E' as [[? _] | [[? _] | [? _]]] | done].
  - split; try done.
    + intros a [= <-]. split; [by vm_compute |]. split; [| done].
      by intros [? | ?%list_elem_of_singleton]%elem_of_cons.
    + intros a [-> | ->%list_elem_of_singleton]%elem_of_cons; (split; [by eexists |]; split; [done | by eexists]).
    + intros a [-> | ->]%sample_busy; left; left; apply elem_of_cons; [by left |]. right. by apply list_elem_of_singleton.
  - intros a [[[-> | ->%list_elem_of_singleton]%elem_of_cons | [= <-]] | [l Hl]]; done.
Qed.

Lemma sample_type : heap_type_of sample_priorities = Ok HEAP_FLOAT_DESC.
Proof. reflexivity. Qed.

(** a node in line gets a positive level *)
Lemma prio_refines_witness :
  (plan_fails HEAP_FLOAT_DESC 0 sample_prio_plan (P_set_priority 1 (float_of_int 5)) ∧
   prio_step sample_priorities Zpos (P_set_priority 1 (float_of_int 5)) sample_thread = Err assert_fail) ∨
  ∃ ans s' p', prio_step sample_priorities Zpos (P_set_priority 1 (float_of_int 5)) sample_thread = Ok (ans, s') ∧
    plan_step HEAP_FLOAT_DESC 0 sample_prio_plan (P_set_priority 1 (float_of_int 5)) ans p' ∧
    prio_inv HEAP_FLOAT_DESC 0 2 s' p'.
Proof.
  apply (prio_refines sample_priorities Zpos HEAP_FLOAT_DESC 0 2 _ sample_thread sample_prio_plan
           sample_type sample_inv).
  split; [| apply normalize_double]. split; [reflexivity |]. split; [vm_compute; reflexivity | by eexists].
Defined.

Lemma prio_get_work_complete_witness :
  ∃ n s1, prio_get_work sample_priorities Zpos sample_thread = Ok (n, s1) ∧
    match n with
    | Waits => prio_has_work s1 = false ∧
        ∀ a nd, snodes (here s1) !! a = Some nd → node_has_work nd = false
    | Got id => prio_finish_work s1 = Ok () ∧
        ∃ x ls s2, prio_gather_next_tuples id s1 = Ok (x :: ls, s2)
    end.
Proof.
  apply (prio_get_work_complete sample_priorities Zpos HEAP_FLOAT_DESC 0 2 sample_thread sample_prio_plan
           sample_type sample_inv). apply Forall_nil. exact I.
Defined.

(** the node at the end of the line goes first *)
Lemma schedule_next_runs_witness :
  ∃ s1 s2, prio_schedule_next (node_addr 2) sample_thread = Ok s1 ∧
    prio_get_work sample_priorities Zpos s1 = Ok (Got 2, s2).
Proof.
  apply (schedule_next_runs sample_priorities Zpos 0 2 sample_thread sample_prio_plan 1 2).
  - lia.
  - exact sample_type.
  - exact sample_inv.
  - reflexivity.
  - by intros [? | ?]%sample_busy.
  - left; left. apply elem_of_cons. right. by apply list_elem_of_singleton.
  - done.
  - by intros a l [Ha _].
Defined.

(** it did not before *)
Example sample_in_line : res_map fst (prio_get_work sample_priorities Zpos sample_thread) = Ok (Got 1).
Proof. vm_compute. reflexivity. Qed.

(** with ascending priorities the node that is scheduled next goes behind one with a
    lower level *)
Definition ascending_priorities : priority_info :=
  mk_priority_info (Some FIELD_FLOAT) (Some PRIORITY_ASC) 0 false.

Theorem schedule_next_last :
  (let* s := prio_set_node_priority (node_addr 1) (float_of_int 5) (set_ptype HEAP_FLOAT_ASC sample_thread) in
   let* s := prio_schedule_next (node_addr 2) s in
   let* r := prio_get_work ascending_priorities Zpos s in
   Ok (fst r)) = Ok (Got 1).
Proof. vm_compute. reflexivity. Qed.

Lemma prio_init_ok_witness :
  ∃ s s' p', foldr (λ (w : work) r, let* s := r in create_prio_node w.1.1 s) (Ok (new_prio 0 2))
      [(0, 7, 0); (1, 8, 0)] = Ok s ∧
    prio_init sample_priorities [(0, 7, 0); (1, 8, 0)] s = Ok s' ∧ prio_inv HEAP_FLOAT_DESC 0 2 s' p' ∧
    running (base p') = None ∧ Forall (λ w : work, queued p' (node_addr w.1.1)) [(0, 7, 0); (1, 8, 0)].
Proof.
  apply (prio_init_ok sample_priorities HEAP_FLOAT_DESC 0 2 [(0, 7, 0); (1, 8, 0)] sample_type).
  - lia.
  - apply Forall_cons. split; [cbn; lia |]. apply Forall_cons. split; [cbn; lia | by apply Forall_nil].
  - cbn. apply NoDup_cons. split; [by rewrite list_elem_of_singleton |]. apply NoDup_singleton.
Defined.
