(* ===== verification/TreeBarrier.v ===== *)
(** The barrier of the threads, [utils/tree_barrier.hpp]: a tree of nodes, one for
    each thread, in which a thread waits for its children, tells its parent and then
    waits for the root to turn the sense of the barrier.  The constructor as it builds
    the tree, and [wait] as steps of one thread between two accesses to what other
    threads read or write.  Reads and writes take effect in the order of the program. *)

From Stdlib Require Import ZArith Lia Bool.
From stdpp Require Import base tactics list numbers option relations.
From S2P Require Import Prelude Words.

#[local] Open Scope Z_scope.

(** ** Nodes and the barrier *)

(** [outer] is the barrier that holds the node; nodes are at their ids in [node] *)
Record inner_node : Type := mk_inner {
  parent : option nat;
  count : Z;
  children_count : Z;
  thread_sense : bool;
  id : nat
}.

Record tree_barrier : Type := mk_barrier {
  size : nat;
  radix : nat;
  node : list inner_node;
  sense : bool
}.

Definition set_children (n : Z) (x : inner_node) : inner_node :=
  mk_inner (parent x) (count x) n (thread_sense x) (id x).
Definition set_thread_sense (b : bool) (x : inner_node) : inner_node :=
  mk_inner (parent x) (count x) (children_count x) b (id x).
Definition set_nodes (ns : list inner_node) (b : tree_barrier) : tree_barrier :=
  mk_barrier (size b) (radix b) ns (sense b).
Definition set_sense (s : bool) (b : tree_barrier) : tree_barrier :=
  mk_barrier (size b) (radix b) (node b) s.
Definition alter_node (i : nat) (f : inner_node → inner_node) (b : tree_barrier) : tree_barrier :=
  set_nodes (alter f i (node b)) b.

(** [if(id == 0) assert(parent == NULL)] *)
Definition root_asserted (i : nat) (p : option nat) : bool :=
  negb (i =? 0)%nat || match p with None => true | Some _ => false end.

Definition set_count (n : Z) (x : inner_node) : inner_node :=
  mk_inner (parent x) n (atomic_assign (children_count x) n) (thread_sense x) (id x).

(** ** The constructor *)

(** the constructor of a node; [s] is [outer->sense] *)
Definition new_inner_node (s : bool) (p : option nat) (n : Z) (i : nat) : res inner_node :=
  asserting (root_asserted i p) (Ok (mk_inner p n n (negb s) i)).

(** the loop over the children of a node, with [build] at the depth below: the nodes
    and how many children there are *)
Fixpoint build_children (b : list inner_node → res (bool * list inner_node)) (n : nat)
    (ns : list inner_node) (num_children : nat) : res (list inner_node * nat) :=
  match n with
  | O => Ok (ns, num_children)
  | S n =>
      let* p := b ns in
      build_children b n (snd p) (if fst p then S num_children else num_children)
  end.

(** [num_nodes] is the length of the list of nodes *)
Fixpoint build (sz rad : nat) (s : bool) (depth : nat) (p : option nat)
    (ns : list inner_node) : res (bool * list inner_node) :=
  let this_id := length ns in
  if (length ns =? sz)%nat then Ok (false, ns)
  else
    match depth with
    | O =>
        let* x := new_inner_node s p 0 this_id in
        Ok (true, ns ++ [x])
    | S depth =>
        let* x := new_inner_node s p (Z.of_nat rad) this_id in
        let* c := build_children (build sz rad s depth (Some this_id)) rad (ns ++ [x]) 0 in
        let '(ns, num_children) := c in
        if (num_children =? rad)%nat then Ok (true, ns)
        else Ok (true, alter (set_count (Z.of_nat num_children)) this_id ns)
    end.

(** [while(s > 1) { depth++; s = s / radix; }]; None: the loop does not end *)
Fixpoint depth_loop (fuel : nat) (rad s depth : nat) : option nat :=
  match fuel with
  | O => None
  | S fuel =>
      if (1 <? s)%nat then depth_loop fuel rad (s / rad)%nat (S depth) else Some depth
  end.

Definition new_tree_barrier (fuel : nat) (s rad : nat) : option (res tree_barrier) :=
  match depth_loop fuel rad s 0 with
  | None => None
  | Some depth =>
      Some (let* p := build s rad false depth None [] in
            Ok (mk_barrier s rad (snd p) false))
  end.

(** ** [wait]

    Where a thread is; [returns] counts the calls that have returned. *)

Inductive place : Type :=
  | Outside                       (** not in [wait] *)
  | Children (my_sense : bool)    (** [while(children_count > 0)] *)
  | Resetting (my_sense : bool)   (** [children_count = count] *)
  | Telling (my_sense : bool)     (** [parent->children_count--] *)
  | Spinning (my_sense : bool)    (** [while(outer->sense != my_sense)] *)
  | Turning (my_sense : bool)     (** the root reads [outer->sense] *)
  | Turning_write (my_sense s : bool)  (** and writes what is not [s] *)
  | Checking (my_sense : bool).   (** [assert(outer->sense == my_sense)] *)

Record waiter : Type := mk_waiter { at_ : place; returns : nat }.

Record machine : Type := mk_machine { barrier : tree_barrier; threads : list waiter }.

Definition goto (p : place) (w : waiter) : waiter := mk_waiter p (returns w).
Definition leave (w : waiter) : waiter := mk_waiter Outside (S (returns w)).

(** None: the thread spins *)
Definition outcome : Type := option (res machine).

Definition moves (t : nat) (f : waiter → waiter) (b : tree_barrier) (m : machine) : outcome :=
  Some (Ok (mk_machine b (alter f t (threads m)))).

(** thread [t] has done its part: [thread_sense = !my_sense], and [wait] returns *)
Definition returns_from (t : nat) (my_sense : bool) (m : machine) : outcome :=
  moves t leave (alter_node t (set_thread_sense (negb my_sense)) (barrier m)) m.

(** the step of thread [t], whose node is [x] *)
Definition wait_step (t : nat) (x : inner_node) (p : place) (m : machine) : outcome :=
  let b := barrier m in
  match p with
  | Outside =>
      if root_asserted (id x) (parent x) then
        moves t (goto (Children (thread_sense x))) b m
      else Some (Err assert_fail)
  | Children s =>
      if 0 <? children_count x then None else moves t (goto (Resetting s)) b m
  | Resetting s =>
      let b := alter_node t (set_children (atomic_assign (children_count x) (count x))) b in
      moves t (goto (match parent x with Some _ => Telling s | None => Turning s end)) b m
  | Telling s =>
      match parent x with
      | None => None
      | Some p =>
          let f y := set_children (fst (atomic_post_decr 64 (children_count y))) y in
          moves t (goto (Spinning s)) (alter_node p f b) m
      end
  | Spinning s => if eqb (sense b) s then returns_from t s m else None
  | Turning s => moves t (goto (Turning_write s (sense b))) b m
  | Turning_write s v => moves t (goto (Checking s)) (set_sense (negb v) b) m
  | Checking s => if eqb (sense b) s then returns_from t s m else Some (Err assert_fail)
  end.

Definition thread_step (t : nat) (m : machine) : outcome :=
  match threads m !! t, node (barrier m) !! t with
  | Some w, Some x => wait_step t x (at_ w) m
  | _, _ => None
  end.

(** the threads of a barrier before their first [wait] *)
Definition start_machine (b : tree_barrier) : machine :=
  mk_machine b (replicate (size b) (mk_waiter Outside 0)).

(** Calls of [wait] that have begun. *)
Definition calls (w : waiter) : nat :=
  match at_ w with Outside => returns w | _ => S (returns w) end.

Inductive reach (b : tree_barrier) : machine → Prop :=
  | reach_start : reach b (start_machine b)
  | reach_step t m m' : reach b m → thread_step t m = Some (Ok m') → reach b m'.

(** ** What the constructor builds *)

(** how many of [ns] have the parent [p] *)
Definition kids (p : option nat) (ns : list inner_node) : nat :=
  length (filter (λ x, parent x = p) ns).

Lemma kids_app p ns1 ns2 : kids p (ns1 ++ ns2) = (kids p ns1 + kids p ns2)%nat.
Proof. unfold kids. rewrite list.filter_app, length_app. done. Qed.

Lemma kids_none p ns : (∀ x, x ∈ ns → parent x ≠ p) → kids p ns = 0%nat.
Proof.
  intros H. unfold kids. induction ns as [|x ns IH]; [done|].
  rewrite filter_cons_False; [|apply H; left]. apply IH. intros y Hy. apply H. by right.
Qed.

Lemma kids_in p ns x : x ∈ ns → parent x = p → (0 < kids p ns)%nat.
Proof.
  intros Hx Hp. unfold kids.
  assert (Hin : x ∈ filter (λ x, parent x = p) ns) by by apply list_elem_of_filter.
  destruct (filter _ ns); [by apply elem_of_nil in Hin|simpl; lia].
Qed.

(** the nodes [fs] from the id [base] on, below [p] *)
Definition forest (s : bool) (base : nat) (p : option nat) (fs : list inner_node) : Prop :=
  ∀ k x, fs !! k = Some x →
    id x = (base + k)%nat ∧ thread_sense x = negb s ∧
    count x = Z.of_nat (kids (Some (base + k)%nat) fs) ∧ children_count x = count x ∧
    (parent x = p ∨ ∃ q, parent x = Some q ∧ (base <= q < base + k)%nat).

Definition below (p : option nat) (base : nat) : Prop :=
  match p with None => True | Some q => (q < base)%nat end.

Lemma forest_nil s base p : forest s base p [].
Proof. intros k x Hk. by rewrite lookup_nil in Hk. Qed.

Lemma forest_kids_none s base p fs q :
  forest s base p fs → p ≠ Some q → (q < base ∨ base + length fs <= q)%nat →
  kids (Some q) fs = 0%nat.
Proof.
  intros Hf Hp Hq. apply kids_none. intros x (k & Hk)%list_elem_of_lookup_1 He.
  pose proof (lookup_lt_Some _ _ _ Hk).
  destruct (Hf k x Hk) as (_ & _ & _ & _ & [Hx|(q' & Hx & ?)]); [congruence|].
  rewrite He in Hx. injection Hx as <-. lia.
Qed.

Lemma forest_app s base p fs1 fs2 :
  below p base → forest s base p fs1 → forest s (base + length fs1) p fs2 →
  forest s base p (fs1 ++ fs2).
Proof.
  intros Hp H1 H2 k x Hk. rewrite kids_app.
  assert (Hne : ∀ q, (base <= q)%nat → p ≠ Some q).
  { intros q Hq ->. simpl in Hp. lia. }
  destruct (decide (k < length fs1)%nat) as [Hlt|Hge].
  - rewrite lookup_app_l in Hk by done. destruct (H1 k x Hk) as (? & ? & Hc & ? & Hpar).
    rewrite (forest_kids_none _ _ _ _ (base + k) H2), Nat.add_0_r; [done|apply Hne; lia|lia].
  - rewrite lookup_app_r in Hk by lia. pose proof (lookup_lt_Some _ _ _ Hk).
    destruct (H2 _ x Hk) as (Hi & ? & Hc & ? & Hpar).
    rewrite (forest_kids_none _ _ _ _ (base + k) H1); [|apply Hne; lia|lia].
    replace (base + length fs1 + (k - length fs1))%nat with (base + k)%nat in * by lia.
    split_and!; [done..|]. destruct Hpar as [|(q & ? & ?)]; [by left|right]. exists q. split; [done|lia].
Qed.

(** the root of a tree over the forest of its children *)
Lemma forest_root s base p fs x :
  below p base → forest s (S base) (Some base) fs →
  id x = base → thread_sense x = negb s → parent x = p →
  count x = Z.of_nat (kids (Some base) fs) → children_count x = count x →
  forest s base p (x :: fs).
Proof.
  intros Hp Hf Hi Hs Hpx Hc Hcc k y Hk.
  assert (Hne : ∀ q, (base <= q)%nat → parent x ≠ Some q).
  { intros q Hq He. rewrite Hpx in He. subst p. simpl in He, Hp. rewrite He in Hp. simpl in Hp. lia. }
  assert (Hcons : ∀ q, (base <= q)%nat → kids (Some q) (x :: fs) = kids (Some q) fs).
  { intros q Hq. unfold kids. rewrite filter_cons_False; [done|by apply Hne]. }
  rewrite Hcons by lia. destruct k as [|k]; simpl in Hk.
  - injection Hk as <-. rewrite Nat.add_0_r. split_and!; [done..|by left].
  - destruct (Hf k y Hk) as (Hiy & ? & Hcy & ? & Hpar).
    rewrite Nat.add_succ_r, <-Nat.add_succ_l. split_and!; [done..|].
    right. destruct Hpar as [->|(q & -> & ?)]; [exists base|exists q]; (split; [done|lia]).
Qed.

(** how many nodes a full tree has *)
Fixpoint full (rad depth : nat) : nat :=
  match depth with O => 1 | S depth => S (rad * full rad depth) end.

(** what [build] and the loop over children add to the nodes *)
Definition builds (sz : nat) (s : bool) (p : option nat) (m : nat) (ns ns' : list inner_node)
    (n : nat) : Prop :=
  ∃ fs, ns' = ns ++ fs ∧ forest s (length ns) p fs ∧ kids p fs = n ∧
    length ns' = Nat.min sz (length ns + m).

Lemma build_children_ok sz s t m b n : ∀ ns k,
  (∀ ns, (t < length ns <= sz)%nat → ∃ r : bool * list inner_node, b ns = Ok r ∧
     builds sz s (Some t) m ns (snd r) (if fst r then 1 else 0)%nat) →
  (t < length ns <= sz)%nat →
  ∃ ns' n', build_children b n ns k = Ok (ns', (k + n')%nat) ∧ builds sz s (Some t) (n * m) ns ns' n'.
Proof.
  induction n as [|n IH]; intros ns k Hb Ht; cbn [build_children].
  { exists ns, 0%nat. split; [by rewrite Nat.add_0_r|]. exists []. rewrite app_nil_r.
    split_and!; [done|apply forest_nil|done|simpl; lia]. }
  destruct (Hb ns Ht) as ([c ns1] & -> & fs1 & Hns1 & Hf1 & Hk1 & Hl1). cbn [res_bind fst snd] in *.
  destruct (IH ns1 (if c then S k else k) Hb ltac:(lia)) as (ns2 & n2 & -> & fs2 & -> & Hf2 & Hk2 & Hl2).
  exists (ns1 ++ fs2), ((if c then 1 else 0) + n2)%nat. split.
  { do 2 f_equal. destruct c; lia. }
  exists (fs1 ++ fs2). subst ns1. rewrite length_app in Hf2, Hl1, Hl2. split_and!.
  - by rewrite app_assoc.
  - apply forest_app; [simpl; lia|done..].
  - rewrite kids_app. lia.
  - rewrite !length_app in Hl2. rewrite !length_app. cbn [Nat.mul]. lia.
Qed.

Lemma build_ok sz rad s d : ∀ p ns,
  (length ns <= sz)%nat → below p (length ns) → (length ns = 0%nat → p = None) →
  ∃ r, build sz rad s d p ns = Ok r ∧ fst r = (length ns <? sz)%nat ∧
    builds sz s p (full rad d) ns (snd r) (if fst r then 1 else 0)%nat.
Proof.
  induction d as [|d IH]; intros p ns Hsz Hp H0; cbn [build];
    (destruct (Nat.eqb_spec (length ns) sz) as [He|He];
     [exists (false, ns); cbn [fst snd]; split_and!;
        [done|symmetry; apply Nat.ltb_ge; lia|
         exists []; rewrite app_nil_r; split_and!; [done|apply forest_nil|done|lia]]|]).
  all: assert (Hr : root_asserted (length ns) p = true)
    by (unfold root_asserted; destruct (Nat.eqb_spec (length ns) 0) as [E|E];
        [by rewrite (H0 E)|done]).
  all: assert (Hlt : (length ns <? sz)%nat = true) by (apply Nat.ltb_lt; lia).
  all: unfold new_inner_node; rewrite Hr; cbn [asserting res_bind].
  all: assert (Hone : ∀ x fs, below p (length ns) → forest s (S (length ns)) (Some (length ns)) fs →
      parent x = p → kids p (x :: fs) = 1%nat)
    by (intros x fs Hb Hf Hx; unfold kids; rewrite filter_cons_True by done; cbn [length]; f_equal;
        apply kids_none; intros y (k & Hk)%list_elem_of_lookup_1 Hy;
        destruct (Hf k y Hk) as (_ & _ & _ & _ & [Hpar|(q & Hpar & ?)]);
        rewrite Hy in Hpar; rewrite Hpar in Hb; simpl in Hb; lia).
  - eexists. split; [done|]. cbn [fst snd]. split; [done|]. eexists. split; [done|].
    split_and!; [|by apply Hone; [|apply forest_nil|]|rewrite length_app; simpl; lia].
    apply forest_root; [done|apply forest_nil|done..].
  - destruct (build_children_ok sz s (length ns) (full rad d) (build sz rad s d (Some (length ns)))
      rad (ns ++ [mk_inner p (Z.of_nat rad) (Z.of_nat rad) (negb s) (length ns)]) 0)
      as (ns' & n & -> & fs & -> & Hf & Hk & Hl).
    { intros ns' Hns'. destruct (IH (Some (length ns)) ns') as (r & ? & _ & ?); [lia|simpl; lia|lia|].
      by exists r. }
    { rewrite length_app. simpl. lia. }
    cbn [res_bind Nat.add]. rewrite <-app_assoc in *. rewrite !length_app in *. cbn [length app] in *.
    rewrite Nat.add_1_r in Hf.
    assert (Hx : ∀ ns' x, ns' = ns ++ x :: fs → id x = length ns → thread_sense x = negb s →
      parent x = p → count x = Z.of_nat n → children_count x = count x →
      builds sz s p (full rad (S d)) ns ns' 1).
    { intros ns' x -> Hi Hs Hpx Hc Hcc. exists (x :: fs). subst n.
      split_and!; [done|by apply forest_root|by apply Hone|].
      rewrite length_app. cbn [length full]. lia. }
    destruct (Nat.eqb_spec n rad) as [Hn|Hn]; eexists; (split; [done|]); cbn [fst snd];
      (split; [done|]).
    + eapply Hx; [done|..]; simpl; congruence.
    + eapply Hx; [rewrite alter_app_r_alt, Nat.sub_diag by lia; done|done..].
Qed.

(** The nodes of a barrier: one for each thread, a tree below the first one, with the
    counts of their children. *)
Record built (b : tree_barrier) : Prop := {
  built_size : length (node b) = size b;
  built_forest : forest false 0 None (node b);
  built_root : ∀ i x, node b !! i = Some x → parent x = None → i = 0%nat;
  built_sense : sense b = false
}.

Lemma full_2 d : full 2 d = (2 ^ S d - 1)%nat.
Proof. induction d as [|d IH]; [done|]. cbn [full]. rewrite IH. cbn [Nat.pow]. pose proof (Nat.pow_nonzero 2 d). lia. Qed.

Lemma depth_loop_2 fuel : ∀ s d, (s < 2 ^ fuel)%nat →
  ∃ d', depth_loop (S fuel) 2 s d = Some d' ∧ (d <= d')%nat ∧ (s < 2 ^ S (d' - d))%nat.
Proof.
  induction fuel as [|fuel IH]; intros s d Hs; cbn [depth_loop];
    (destruct (Nat.ltb_spec 1 s) as [H1|H1];
     [|exists d; rewrite Nat.sub_diag; split_and!; [done|lia|simpl; lia]]).
  - simpl in Hs. lia.
  - destruct (IH (s / 2)%nat (S d)) as (d' & Hd' & Hle & Hlt).
    { apply Nat.Div0.div_lt_upper_bound. rewrite Nat.pow_succ_r' in Hs. lia. }
    exists d'. cbn [depth_loop] in Hd'. rewrite Hd'. split_and!; [done|lia|].
    replace (S (d' - d)) with (S (S (d' - S d))) by lia. rewrite Nat.pow_succ_r'.
    pose proof (Nat.div_mod_eq s 2). pose proof (Nat.mod_upper_bound s 2). lia.
Qed.

Lemma new_tree_barrier_built s fuel :
  (s < 2 ^ fuel)%nat →
  ∃ b, new_tree_barrier (S fuel) s 2 = Some (Ok b) ∧ size b = s ∧ radix b = 2%nat ∧ built b.
Proof.
  intros Hs. unfold new_tree_barrier.
  destruct (depth_loop_2 fuel s 0 Hs) as (d & -> & _ & Hd). rewrite Nat.sub_0_r in Hd.
  destruct (build_ok s 2 false d None []) as ([c ns] & -> & _ & fs & Hns & Hf & Hk & Hl);
    [simpl; lia|done|done|].
  cbn [res_bind fst snd length app] in *. subst ns.
  exists (mk_barrier s 2 fs false). split_and!; [done..|]. split; cbn [size node sense]; [|done| |done].
  - rewrite Hl, full_2. lia.
  - intros [|i] x Hx Hp; [done|exfalso]. destruct fs as [|y fs]; [done|]. simpl in Hx.
    destruct (Hf 0%nat y eq_refl) as (_ & _ & _ & _ & [Hy|(q & _ & ?)]); [|lia].
    unfold kids in Hk. rewrite filter_cons_True in Hk by done.
    pose proof (kids_in None fs x (list_elem_of_lookup_2 _ _ _ Hx) Hp) as H0. unfold kids in H0.
    simpl in Hk. destruct c; lia.
Qed.

Lemma alter_insert {A} (f : A → A) (l : list A) i x :
  l !! i = Some x → alter f i l = <[i := f x]> l.
Proof.
  revert i. induction l as [|y l IH]; intros [|i] Hi; try done; simpl in *.
  - by injection Hi as ->.
  - f_equal. by apply IH.
Qed.

(** ** Progress

    A step of a thread that is in [wait]: the others may be anywhere, but no new call
    begins. *)

Definition inside_step (m m' : machine) : Prop :=
  ∃ t w, threads m !! t = Some w ∧ at_ w ≠ Outside ∧ thread_step t m = Some (Ok m').

(** how many steps of its own a thread needs at most until it returns *)
Definition rank (w : waiter) : nat :=
  match at_ w with
  | Outside => 0
  | Children _ => 6
  | Resetting _ => 5
  | Telling _ | Turning _ => 4
  | Turning_write _ _ => 3
  | Spinning _ | Checking _ => 2
  end.

Definition work_left (m : machine) : nat := sum_list_with rank (threads m).

Lemma sum_list_insert {A} (f : A → nat) (l : list A) i x y :
  l !! i = Some x → (sum_list_with f (<[i := y]> l) + f x = sum_list_with f l + f y)%nat.
Proof.
  revert i. induction l as [|z l IH]; intros [|i] Hi; try done; simpl in *.
  - injection Hi as ->. lia.
  - specialize (IH i Hi). lia.
Qed.

Lemma moves_threads t f b m w m' :
  threads m !! t = Some w → moves t f b m = Some (Ok m') → threads m' = <[t := f w]> (threads m).
Proof. intros Hw [= <-]. cbn. by apply alter_insert. Qed.

(** a step of a thread inside brings it closer to its return *)
Lemma inside_step_threads t m m' w :
  threads m !! t = Some w → at_ w ≠ Outside → thread_step t m = Some (Ok m') →
  ∃ w', threads m' = <[t := w']> (threads m) ∧ calls w' = calls w ∧ (rank w' < rank w)%nat.
Proof.
  intros Hw Hat H. unfold thread_step in H. rewrite Hw in H.
  destruct (node (barrier m) !! t) as [x|]; [|done].
  unfold calls, rank. destruct (at_ w) as [|v|v|v|v|v|v s'|v] eqn:E; [done|..]; cbn [wait_step] in H;
    unfold returns_from in H.
  - destruct (0 <? children_count x); [done|]. apply (moves_threads _ _ _ _ w) in H; [|done].
    eexists. split; [done|]. cbn. lia.
  - apply (moves_threads _ _ _ _ w) in H; [|done]. eexists. split; [done|].
    destruct (parent x); cbn; lia.
  - destruct (parent x); [|done]. apply (moves_threads _ _ _ _ w) in H; [|done].
    eexists. split; [done|]. cbn. lia.
  - destruct (eqb _ _); [|done]. apply (moves_threads _ _ _ _ w) in H; [|done].
    eexists. split; [done|]. cbn. lia.
  - apply (moves_threads _ _ _ _ w) in H; [|done]. eexists. split; [done|]. cbn. lia.
  - apply (moves_threads _ _ _ _ w) in H; [|done]. eexists. split; [done|]. cbn. lia.
  - destruct (eqb _ _); [|done]. apply (moves_threads _ _ _ _ w) in H; [|done].
    eexists. split; [done|]. cbn. lia.
Qed.

(** all threads have made [k] calls *)
Definition called (k : nat) (m : machine) : Prop :=
  ∀ i w, threads m !! i = Some w → calls w = k.

Lemma called_step k m m' : called k m → inside_step m m' → called k m'.
Proof.
  intros Hk (t & w & Hw & Hat & H). destruct (inside_step_threads t m m' w Hw Hat H) as (w' & Ht & Hc & _).
  intros i v Hv. rewrite Ht in Hv. apply list_lookup_insert_Some in Hv as [(_ & <- & _)|[_ Hv]].
  - rewrite Hc. by apply (Hk t).
  - by apply (Hk i).
Qed.

Lemma work_left_step m m' : inside_step m m' → (work_left m' < work_left m)%nat.
Proof.
  intros (t & w & Hw & Hat & H). destruct (inside_step_threads t m m' w Hw Hat H) as (w' & Ht & _ & Hr).
  unfold work_left. rewrite Ht. pose proof (sum_list_insert rank (threads m) t w w' Hw). lia.
Qed.

Definition can_step (m : machine) : Prop := ∃ m', inside_step m m'.

(** ** The invariant of the threads *)

(** How often a thread has reset its count, and told its parent (or turned the sense). *)
Definition resets (w : waiter) : nat :=
  match at_ w with
  | Outside | Children _ | Resetting _ => returns w
  | _ => S (returns w)
  end.

Definition told (w : waiter) : nat :=
  match at_ w with Spinning _ | Checking _ => S (returns w) | _ => returns w end.

Lemma returns_told w : (returns w <= told w <= resets w)%nat ∧ (resets w <= calls w <= S (returns w))%nat.
Proof. unfold told, resets, calls. destruct (at_ w); lia. Qed.

Definition b2n (b : bool) : nat := if b then 1 else 0.

(** how many threads with the parent [i] have told it [r] times *)
Fixpoint untold (i r : nat) (ps : list (option nat)) (ws : list waiter) : nat :=
  match ps, ws with
  | p :: ps, w :: ws =>
      b2n (bool_decide (p = Some i) && (told w =? r)%nat) + untold i r ps ws
  | _, _ => 0
  end.

Lemma untold_insert i r ps ws t p w w' :
  ps !! t = Some p → ws !! t = Some w →
  (untold i r ps (<[t := w']> ws) + b2n (bool_decide (p = Some i) && (told w =? r)))%nat =
  (untold i r ps ws + b2n (bool_decide (p = Some i) && (told w' =? r)))%nat.
Proof.
  revert t ws. induction ps as [|q ps IH]; intros [|t] [|v ws] Hp Hw; try done; simpl in *.
  - injection Hp as ->. injection Hw as ->. lia.
  - specialize (IH t ws Hp Hw). lia.
Qed.

Lemma untold_pos i r ps ws t w :
  ps !! t = Some (Some i) → ws !! t = Some w → told w = r → (0 < untold i r ps ws)%nat.
Proof.
  revert t ws. induction ps as [|q ps IH]; intros [|t] [|v ws] Hp Hw Hr; try done; simpl in *.
  - injection Hp as ->. injection Hw as ->. rewrite bool_decide_true by done.
    rewrite (proj2 (Nat.eqb_eq _ _) Hr). simpl. lia.
  - specialize (IH t ws Hp Hw Hr). lia.
Qed.

Lemma untold_witness i r ps ws :
  (0 < untold i r ps ws)%nat →
  ∃ t w, ps !! t = Some (Some i) ∧ ws !! t = Some w ∧ told w = r.
Proof.
  revert ws. induction ps as [|q ps IH]; intros [|v ws] H; simpl in H; try lia.
  destruct (bool_decide (q = Some i) && (told v =? r)%nat) eqn:E.
  - apply andb_true_iff in E as [E%bool_decide_eq_true E'%Nat.eqb_eq]. subst q. by exists 0%nat, v.
  - destruct (IH ws) as (t & w & ? & ? & ?); [simpl in H; lia|]. by exists (S t), w.
Qed.

Lemma untold_all i r ps ws :
  length ps = length ws →
  (∀ t w, ps !! t = Some (Some i) → ws !! t = Some w → told w = r) →
  untold i r ps ws = length (filter (λ p, p = Some i) ps).
Proof.
  revert ws. induction ps as [|q ps IH]; intros [|v ws] Hl H; try done. simpl.
  rewrite (IH ws); [|by injection Hl|intros t; apply (H (S t))].
  rewrite filter_cons. destruct (decide (q = Some i)) as [->|Hq].
  - rewrite bool_decide_true by done. rewrite (proj2 (Nat.eqb_eq _ _) (H 0%nat v eq_refl eq_refl)). done.
  - by rewrite bool_decide_false.
Qed.

Lemma untold_le i r ps ws : (untold i r ps ws <= length ps)%nat.
Proof.
  revert ws. induction ps as [|q ps IH]; intros [|v ws]; simpl; try lia.
  specialize (IH ws). destruct (_ && _); simpl; lia.
Qed.

Lemma kids_parents p ns : length (filter (λ q, q = p) (parent <$> ns)) = kids p ns.
Proof.
  unfold kids. induction ns as [|x ns IH]; [done|]. rewrite fmap_cons, !filter_cons.
  destruct (decide (parent x = p)); simpl; congruence.
Qed.

(** what a thread knows at a place: its sense is the one of this round *)
Definition place_ok (s : bool) (x : inner_node) (p : place) : Prop :=
  match p with
  | Outside => True
  | Children v => v = thread_sense x
  | Resetting v => v = thread_sense x ∧ children_count x = 0
  | Telling v | Spinning v => v = thread_sense x ∧ is_Some (parent x)
  | Turning v | Checking v => v = thread_sense x ∧ parent x = None
  | Turning_write v s' => v = thread_sense x ∧ parent x = None ∧ s' = s
  end.

Section Invariant.
Context (ps : list (option nat)).
Context (ps_below : ∀ i q, ps !! i = Some (Some q) → (q < i)%nat).
Context (ps_root : ∀ i, ps !! i = Some None → i = 0%nat).
Context (ps_small : Z.of_nat (length ps) < 2 ^ 64).

(** a node and its thread *)
Record thread_ok (s : bool) (ws : list waiter) (i : nat) (x : inner_node) (w : waiter) : Prop := {
  ok_id : id x = i;
  ok_sense : thread_sense x = negb (Nat.odd (returns w));
  ok_count : count x = Z.of_nat (length (filter (λ p, p = Some i) ps));
  ok_children : children_count x = Z.of_nat (untold i (resets w) ps ws);
  ok_place : place_ok s x (at_ w)
}.

Record inv (m : machine) : Prop := {
  inv_parents : parent <$> node (barrier m) = ps;
  inv_length : length (threads m) = length ps;
  inv_thread : ∀ i x w, node (barrier m) !! i = Some x → threads m !! i = Some w →
    thread_ok (sense (barrier m)) (threads m) i x w;
  inv_kids : ∀ i j w v, ps !! j = Some (Some i) → threads m !! i = Some w →
    threads m !! j = Some v → (resets w <= told v <= S (resets w))%nat;
  inv_root : ∀ w0, threads m !! 0%nat = Some w0 →
    sense (barrier m) = Nat.odd (told w0) ∧
    ∀ i w, threads m !! i = Some w → (returns w <= told w0)%nat
}.

Lemma thread_parent m i w :
  length (threads m) = length ps → threads m !! i = Some w → ∃ p, ps !! i = Some p.
Proof. intros Hl Hw. apply lookup_lt_is_Some. rewrite <-Hl. by eapply lookup_lt_Some. Qed.

Lemma thread_node m i w :
  inv m → threads m !! i = Some w → ∃ x, node (barrier m) !! i = Some x ∧ ps !! i = Some (parent x).
Proof.
  intros Hm Hw. destruct (thread_parent m i w (inv_length m Hm) Hw) as [p Hp].
  pose proof Hp as Hp'. rewrite <-(inv_parents m Hm), list_lookup_fmap in Hp'.
  destruct (node (barrier m) !! i) as [x|]; [|done]. injection Hp' as <-. by exists x.
Qed.

(** the root is told last: all the others have reset as often as it has told *)
Lemma root_told_last m w0 : ∀ i w,
  inv m → threads m !! 0%nat = Some w0 → threads m !! i = Some w → (told w0 <= told w)%nat.
Proof.
  intros i. induction (lt_wf i) as [i _ IH]. intros w Hm H0 Hw.
  destruct (thread_parent m i w (inv_length m Hm) Hw) as [[q|] Hq].
  - pose proof (ps_below i q Hq) as Hlt.
    destruct (lookup_lt_is_Some_2 (threads m) q) as [v Hv].
    { apply lookup_lt_Some in Hw. lia. }
    pose proof (IH q Hlt v Hm H0 Hv). pose proof (inv_kids m Hm q i v w Hq Hv Hw).
    pose proof (returns_told v). lia.
  - apply ps_root in Hq as ->. rewrite Hw in H0. by injection H0 as ->.
Qed.

Lemma root_exists m i w : threads m !! i = Some w → ∃ w0, threads m !! 0%nat = Some w0.
Proof. intros Hw. apply lookup_lt_is_Some. apply lookup_lt_Some in Hw. lia. Qed.

(** No thread returns before all have called. *)
Lemma inv_together m i j w v :
  inv m → threads m !! i = Some w → threads m !! j = Some v → (returns w <= calls v)%nat.
Proof.
  intros Hm Hw Hv. destruct (root_exists m i w Hw) as [w0 H0].
  pose proof (proj2 (inv_root m Hm w0 H0) i w Hw).
  pose proof (root_told_last m w0 j v Hm H0 Hv). pose proof (returns_told v). lia.
Qed.

Lemma untold_same ws t w w' i r :
  ws !! t = Some w → length ws = length ps → told w' = told w →
  untold i r ps (<[t := w']> ws) = untold i r ps ws.
Proof.
  intros Hw Hl Ht. destruct (lookup_lt_is_Some_2 ps t) as [p Hp].
  { rewrite <-Hl. by eapply lookup_lt_Some. }
  pose proof (untold_insert i r ps ws t p w w' Hp Hw) as H. rewrite Ht in H. lia.
Qed.

(** the state after a step in which thread [t] and its node change to [w] and [x] *)
Definition update (t : nat) (x : inner_node) (w : waiter) (m : machine) : machine :=
  mk_machine (set_nodes (<[t := x]> (node (barrier m))) (barrier m)) (<[t := w]> (threads m)).

Lemma update_parents m t x x' w :
  parent <$> node (barrier m) = ps → node (barrier m) !! t = Some x → parent x' = parent x →
  parent <$> node (barrier (update t x' w m)) = ps.
Proof.
  intros <- Hx Hp. cbn. rewrite list_fmap_insert, Hp. apply list_insert_id.
  by rewrite list_lookup_fmap, Hx.
Qed.

(** steps in which a thread neither resets nor tells *)
Lemma inv_local m t x w x' w' :
  inv m → node (barrier m) !! t = Some x → threads m !! t = Some w →
  resets w' = resets w → told w' = told w →
  (∀ w0, threads m !! 0%nat = Some w0 → (returns w' <= told w0)%nat) →
  parent x' = parent x → children_count x' = children_count x →
  thread_ok (sense (barrier m)) (threads m) t x' w' →
  inv (update t x' w' m).
Proof.
  intros Hm Hx Hw Hr Ht Hret Hp Hc Hok. pose proof (inv_length m Hm) as Hl.
  assert (Hlw : ∀ j v, threads (update t x' w' m) !! j = Some v →
    ∃ u, threads m !! j = Some u ∧ resets v = resets u ∧ told v = told u ∧
      (v = u ∨ j = t ∧ v = w' ∧ u = w)).
  { intros j v. cbn. destruct (decide (j = t)) as [->|Hj].
    - rewrite list_lookup_insert_eq by (by eapply lookup_lt_Some). intros [= <-].
      exists w. split_and!; [done..|by right].
    - rewrite list_lookup_insert_ne by done. intros Hv. exists v. split_and!; [done..|by left]. }
  split.
  - by eapply update_parents; [apply Hm|..].
  - cbn. by rewrite length_insert.
  - intros j y v Hy Hv. cbn in Hy, Hv |- *.
    assert (Hun : ∀ i r, untold i r ps (<[t := w']> (threads m)) = untold i r ps (threads m))
      by (intros; by eapply untold_same).
    destruct (decide (j = t)) as [->|Hj].
    + rewrite list_lookup_insert_eq in Hy by (by eapply lookup_lt_Some).
      rewrite list_lookup_insert_eq in Hv by (by eapply lookup_lt_Some).
      injection Hy as <-. injection Hv as <-. destruct Hok. split; [done..|by rewrite Hun|done].
    + rewrite list_lookup_insert_ne in Hy by done. rewrite list_lookup_insert_ne in Hv by done.
      destruct (inv_thread m Hm j y v Hy Hv). split; [done..|by rewrite Hun|done].
  - intros i j v u Hij Hv Hu. destruct (Hlw i v Hv) as (v' & Hv' & -> & _ & _).
    destruct (Hlw j u Hu) as (u' & Hu' & _ & -> & _). by apply (inv_kids m Hm i j).
  - intros w0 H0. destruct (Hlw _ _ H0) as (w0' & H0' & _ & -> & _).
    destruct (inv_root m Hm w0' H0') as [Hs Hle]. split; [done|]. intros i v Hv.
    destruct (Hlw i v Hv) as (v' & Hv' & _ & _ & [->|(-> & -> & ->)]);
      [by apply (Hle i)|by apply (Hret w0')].
Qed.

(** A step that resets: the children have all told. *)
Lemma inv_reset m t x w w' :
  inv m → node (barrier m) !! t = Some x → threads m !! t = Some w →
  children_count x = 0 → resets w = returns w → thread_sense x = negb (Nat.odd (returns w)) →
  returns w' = returns w → resets w' = S (resets w) → told w' = told w →
  place_ok (sense (barrier m)) (set_children (count x) x) (at_ w') →
  inv (update t (set_children (count x) x) w' m).
Proof.
  intros Hm Hx Hw H0 Hr Hts Hret Hr' Ht Hpl. pose proof (inv_length m Hm) as Hl.
  destruct (inv_thread m Hm t x w Hx Hw) as [Hid _ Hc Hcc _].
  assert (Hun : ∀ i r, untold i r ps (<[t := w']> (threads m)) = untold i r ps (threads m))
    by (intros; by eapply untold_same).
  assert (Hall : ∀ j v, ps !! j = Some (Some t) → threads m !! j = Some v → told v = S (resets w)).
  { intros j v Hj Hv. pose proof (inv_kids m Hm t j w v Hj Hw Hv).
    destruct (decide (told v = resets w)) as [He|He]; [|lia].
    pose proof (untold_pos t (resets w) ps (threads m) j v Hj Hv He). lia. }
  split.
  - by eapply update_parents; [apply Hm|..].
  - cbn. by rewrite length_insert.
  - intros j y v Hy Hv. cbn in Hy, Hv |- *. destruct (decide (j = t)) as [->|Hj].
    + rewrite list_lookup_insert_eq in Hy by (by eapply lookup_lt_Some).
      rewrite list_lookup_insert_eq in Hv by (by eapply lookup_lt_Some).
      injection Hy as <-. injection Hv as <-. split; [done| |done| |done].
      * by rewrite Hret.
      * rewrite Hun, Hr'. cbn. rewrite Hc. f_equal. symmetry. by apply untold_all.
    + rewrite list_lookup_insert_ne in Hy by done. rewrite list_lookup_insert_ne in Hv by done.
      destruct (inv_thread m Hm j y v Hy Hv). split; [done..|by rewrite Hun|done].
  - intros i j v u Hij Hv Hu. cbn in Hv, Hu.
    apply list_lookup_insert_Some in Hu as Hu'. apply list_lookup_insert_Some in Hv as Hv'.
    assert (∃ u', threads m !! j = Some u' ∧ told u = told u') as (u' & Hu'' & ->)
      by (destruct Hu' as [(-> & <- & _)|[_ ?]]; eauto).
    destruct Hv' as [(-> & <- & _)|[_ ?]]; [|by eapply inv_kids].
    rewrite Hr'. pose proof (Hall j u' Hij Hu''). lia.
  - intros w0 Hw0. cbn in Hw0 |- *. apply list_lookup_insert_Some in Hw0.
    assert (∃ u, threads m !! 0%nat = Some u ∧ told w0 = told u) as (u & Hu & ->)
      by (destruct Hw0 as [(-> & <- & _)|[_ ?]]; eauto).
    destruct (inv_root m Hm u Hu) as [Hs Hle]. split; [done|]. intros i v Hv.
    apply list_lookup_insert_Some in Hv as [(-> & <- & _)|[_ ?]]; [|by apply (Hle i)].
    rewrite Hret. by apply (Hle i).
Qed.

(** A step that tells the parent [q], whose node is [y]. *)
Lemma inv_tell m t q x y w w' :
  inv m → node (barrier m) !! t = Some x → threads m !! t = Some w →
  parent x = Some q → node (barrier m) !! q = Some y →
  told w = returns w → resets w = S (returns w) → returns w' = returns w →
  told w' = S (told w) → resets w' = resets w → place_ok (sense (barrier m)) x (at_ w') →
  children_count y >= 1 ∧
  inv (mk_machine (set_nodes (<[q := set_children (children_count y - 1) y]> (node (barrier m)))
         (barrier m)) (<[t := w']> (threads m))).
Proof.
  intros Hm Hx Hw Hq Hy Ht Hr Hret Ht' Hr' Hpl. pose proof (inv_length m Hm) as Hl.
  assert (Hpt : ps !! t = Some (Some q)).
  { rewrite <-(inv_parents m Hm), list_lookup_fmap, Hx. simpl. by rewrite Hq. }
  pose proof (ps_below t q Hpt) as Hqt.
  destruct (lookup_lt_is_Some_2 (threads m) q) as [v Hv]; [apply lookup_lt_Some in Hw; lia|].
  destruct (root_exists m t w Hw) as [w0 H0].
  (* the thread has told exactly as often as its parent has reset *)
  assert (Heq : told w = resets v).
  { pose proof (inv_kids m Hm q t v w Hpt Hv Hw).
    pose proof (proj2 (inv_root m Hm w0 H0) t w Hw).
    pose proof (root_told_last m w0 q v Hm H0 Hv). pose proof (returns_told v). lia. }
  assert (Hun : ∀ i r, i ≠ q →
    untold i r ps (<[t := w']> (threads m)) = untold i r ps (threads m)).
  { intros i r Hi. pose proof (untold_insert i r ps (threads m) t _ w w' Hpt Hw) as H.
    rewrite bool_decide_false in H by congruence. simpl in H. lia. }
  assert (Hunq : untold q (resets v) ps (threads m) = S (untold q (resets v) ps (<[t := w']> (threads m)))).
  { pose proof (untold_insert q (resets v) ps (threads m) t _ w w' Hpt Hw) as H.
    rewrite bool_decide_true in H by done. rewrite Ht', Heq, Nat.eqb_refl in H.
    rewrite (proj2 (Nat.eqb_neq _ _)) in H by lia. simpl in H. lia. }
  destruct (inv_thread m Hm q y v Hy Hv) as [Hid Hts Hc Hcc Hplv]. split; [lia|]. split.
  - cbn. rewrite list_fmap_insert. cbn. rewrite <-(inv_parents m Hm). apply list_insert_id.
    by rewrite list_lookup_fmap, Hy.
  - cbn. by rewrite length_insert.
  - intros j z u Hz Hu. cbn in Hz, Hu |- *. destruct (decide (j = q)) as [->|Hj].
    + rewrite list_lookup_insert_eq in Hz by (by eapply lookup_lt_Some). injection Hz as <-.
      rewrite list_lookup_insert_ne in Hu by lia. rewrite Hv in Hu. injection Hu as <-.
      split; [done..| |].
      * cbn [set_children children_count]. lia.
      * destruct (at_ v) eqn:E; try done. destruct Hplv as [? H]. exfalso.
        rewrite Hcc in H. lia.
    + rewrite list_lookup_insert_ne in Hz by done. destruct (decide (j = t)) as [->|Hjt].
      * rewrite list_lookup_insert_eq in Hu by (by eapply lookup_lt_Some). injection Hu as <-.
        rewrite Hx in Hz. injection Hz as <-. destruct (inv_thread m Hm t x w Hx Hw).
        split; [done|by rewrite Hret|done| |done]. by rewrite Hr', Hun by lia.
      * rewrite list_lookup_insert_ne in Hu by done. destruct (inv_thread m Hm j z u Hz Hu).
        split; [done..| |done]. by rewrite Hun by lia.
  - intros i j v' u Hij Hv' Hu. cbn in Hv', Hu.
    apply list_lookup_insert_Some in Hv'. apply list_lookup_insert_Some in Hu.
    assert (∃ v0, threads m !! i = Some v0 ∧ resets v' = resets v0) as (v0 & Hv0 & ->)
      by (destruct Hv' as [(-> & <- & _)|[_ ?]]; eauto).
    destruct Hu as [(-> & <- & _)|[_ ?]]; [|by eapply inv_kids].
    rewrite Hpt in Hij. injection Hij as <-. rewrite Hv in Hv0. injection Hv0 as <-. lia.
  - intros u Hu. cbn in Hu |- *. rewrite list_lookup_insert_ne in Hu by lia.
    destruct (inv_root m Hm u Hu) as [Hs Hle]. split; [done|]. intros i z Hz.
    apply list_lookup_insert_Some in Hz as [(_ & <- & _)|[_ ?]]; [|by apply (Hle i)].
    rewrite Hret. by apply (Hle t).
Qed.

(** The step of the root that turns the sense. *)
Lemma inv_turn m x w w' :
  inv m → node (barrier m) !! 0%nat = Some x → threads m !! 0%nat = Some w →
  (∀ j v, j ≠ 0%nat → threads m !! j = Some v → ∃ y, node (barrier m) !! j = Some y ∧ is_Some (parent y)) →
  parent x = None → told w = returns w → returns w' = returns w → told w' = S (told w) →
  resets w' = resets w → place_ok (negb (sense (barrier m))) x (at_ w') →
  inv (mk_machine (set_sense (negb (sense (barrier m))) (barrier m)) (<[0%nat := w']> (threads m))).
Proof.
  intros Hm Hx Hw Hnr Hp Ht Hret Ht' Hr Hpl. pose proof (inv_length m Hm) as Hl.
  assert (Hpt : ps !! 0%nat = Some None).
  { rewrite <-(inv_parents m Hm), list_lookup_fmap, Hx. simpl. by rewrite Hp. }
  assert (Hun : ∀ i r, untold i r ps (<[0%nat := w']> (threads m)) = untold i r ps (threads m)).
  { intros i r. pose proof (untold_insert i r ps (threads m) 0 _ w w' Hpt Hw) as H.
    rewrite !bool_decide_false in H by done. simpl in H. lia. }
  destruct (inv_root m Hm w Hw) as [Hs Hle]. split.
  - apply Hm.
  - cbn. by rewrite length_insert.
  - intros j y v Hy Hv. cbn in Hy, Hv |- *. destruct (decide (j = 0)%nat) as [->|Hj].
    + rewrite list_lookup_insert_eq in Hv by (by eapply lookup_lt_Some). injection Hv as <-.
      rewrite Hx in Hy. injection Hy as <-. destruct (inv_thread m Hm 0%nat x w Hx Hw).
      split; [done|by rewrite Hret|done|by rewrite Hun, Hr|done].
    + rewrite list_lookup_insert_ne in Hv by done. destruct (inv_thread m Hm j y v Hy Hv) as [? ? ? ? Hpv].
      split; [done..|by rewrite Hun|]. destruct (Hnr j v Hj Hv) as (y' & Hy' & Hsome).
      rewrite Hy in Hy'. injection Hy' as <-. destruct (at_ v); try done.
      destruct Hpv as (_ & Hn & _). rewrite Hn in Hsome. by destruct Hsome.
  - intros i j v u Hij Hv Hu. cbn in Hv, Hu.
    apply list_lookup_insert_Some in Hv. rewrite list_lookup_insert_ne in Hu by (intros <-; congruence).
    destruct Hv as [(<- & <- & _)|[_ ?]]; [rewrite Hr|]; by eapply inv_kids.
  - intros w0 H0. cbn in H0 |- *. rewrite list_lookup_insert_eq in H0 by (by eapply lookup_lt_Some).
    injection H0 as <-. split.
    { rewrite Ht', Nat.odd_succ, <-Nat.negb_odd. by rewrite Hs. }
    intros i v Hv. apply list_lookup_insert_Some in Hv as [(_ & <- & _)|[_ Hv]]; [lia|].
    pose proof (Hle i v Hv). lia.
Qed.

Lemma moves_local m t x w f x' :
  inv m → node (barrier m) !! t = Some x → threads m !! t = Some w →
  resets (f w) = resets w → told (f w) = told w →
  (∀ w0, threads m !! 0%nat = Some w0 → (returns (f w) <= told w0)%nat) →
  parent x' = parent x → children_count x' = children_count x →
  thread_ok (sense (barrier m)) (threads m) t x' (f w) →
  ∃ m', moves t f (set_nodes (<[t := x']> (node (barrier m))) (barrier m)) m = Some (Ok m') ∧ inv m'.
Proof.
  intros Hm Hx Hw ? ? ? ? ? ?. eexists. split.
  - unfold moves. by rewrite (alter_insert f _ t w Hw).
  - by apply (inv_local m t x w x' (f w)).
Qed.

Lemma set_nodes_same b t x : node b !! t = Some x → set_nodes (<[t := x]> (node b)) b = b.
Proof. intros Hx. destruct b. unfold set_nodes. cbn in *. by rewrite list_insert_id. Qed.

(** a step that changes the place only *)
Lemma moves_place m t x w p :
  inv m → node (barrier m) !! t = Some x → threads m !! t = Some w →
  resets (goto p w) = resets w → told (goto p w) = told w →
  place_ok (sense (barrier m)) x p →
  ∃ m', moves t (goto p) (barrier m) m = Some (Ok m') ∧ inv m'.
Proof.
  intros Hm Hx Hw Hr Ht Hp. rewrite <-(set_nodes_same (barrier m) t x Hx).
  apply (moves_local m t x w); try done.
  - intros w0 H0. cbn. by apply (proj2 (inv_root m Hm w0 H0) t).
  - destruct (inv_thread m Hm t x w Hx Hw). split; [done..|by rewrite Hr|done].
Qed.

(** a thread that saw the sense of its round returns *)
Lemma returns_ok m t x w s :
  inv m → node (barrier m) !! t = Some x → threads m !! t = Some w →
  told w = S (returns w) → resets w = S (returns w) → s = thread_sense x →
  sense (barrier m) = s →
  ∃ m', returns_from t s m = Some (Ok m') ∧ inv m'.
Proof.
  intros Hm Hx Hw Ht Hr -> Hs. unfold returns_from, alter_node.
  rewrite (alter_insert _ _ t x Hx).
  destruct (inv_thread m Hm t x w Hx Hw) as [Hid Hts Hc Hcc Hp].
  apply (moves_local m t x w); try done.
  - intros w0 H0. cbn. destruct (inv_root m Hm w0 H0) as [Hsw Hle].
    pose proof (Hle t w Hw). pose proof (root_told_last m w0 t w Hm H0 Hw).
    destruct (decide (told w0 = returns w)) as [He|He]; [exfalso|lia].
    rewrite Hs, Hts, He in Hsw. by destruct (Nat.odd (returns w)).
  - rewrite Hr in Hcc. split; [done| |done|exact Hcc|done].
    cbn [set_thread_sense thread_sense leave returns].
    rewrite Nat.odd_succ, <-Nat.negb_odd. by rewrite Hts.
Qed.

(** what a step answers, if it is one, is a state with the invariant *)
Definition safe (o : outcome) : Prop := ∀ r, o = Some r → ∃ m', r = Ok m' ∧ inv m'.

Lemma safe_none : safe None.
Proof. by intros r H. Qed.

Lemma safe_ok o : (∃ m', o = Some (Ok m') ∧ inv m') → safe o.
Proof. intros (m' & -> & Hm') r [= <-]. by exists m'. Qed.

Lemma step_resets m t x w v :
  inv m → node (barrier m) !! t = Some x → threads m !! t = Some w → at_ w = Resetting v →
  safe (wait_step t x (Resetting v) m).
Proof.
  intros Hm Hx Hw Hat. destruct (inv_thread m Hm t x w Hx Hw) as [Hid Hts Hc Hcc Hp].
  rewrite Hat in Hp. destruct Hp as [Hv H0]. cbn [wait_step]. unfold alter_node, atomic_assign.
  rewrite (alter_insert _ _ t x Hx). unfold moves. rewrite (alter_insert _ _ t w Hw).
  assert (Hrw : resets w = returns w ∧ told w = returns w) by (unfold resets, told; by rewrite Hat).
  destruct Hrw as [Hrw Htw].
  apply safe_ok. eexists. split; [done|].
  apply (inv_reset m t x w); try done.
  - destruct (parent x); unfold resets in *; cbn; by rewrite Hrw.
  - destruct (parent x); unfold told in *; cbn; by rewrite Htw.
  - destruct (parent x) eqn:E; cbn; rewrite E; split; done || by eexists.
Qed.

Lemma step_tells m t x w v :
  inv m → node (barrier m) !! t = Some x → threads m !! t = Some w → at_ w = Telling v →
  safe (wait_step t x (Telling v) m).
Proof.
  intros Hm Hx Hw Hat. destruct (inv_thread m Hm t x w Hx Hw) as [Hid Hts Hc Hcc Hp].
  rewrite Hat in Hp. destruct Hp as [Hv [q Hq]]. cbn [wait_step]. rewrite Hq.
  destruct (thread_node m t w Hm Hw) as (x' & Hx' & Hpt).
  rewrite Hx in Hx'. injection Hx' as <-. rewrite Hq in Hpt.
  destruct (lookup_lt_is_Some_2 (node (barrier m)) q) as [y Hy].
  { apply ps_below in Hpt. apply lookup_lt_Some in Hx. lia. }
  unfold alter_node. rewrite (alter_insert _ _ q y Hy). unfold moves. rewrite (alter_insert _ _ t w Hw).
  destruct (lookup_lt_is_Some_2 (threads m) q) as [u Hu].
  { apply lookup_lt_Some in Hy. rewrite <-(length_fmap parent), (inv_parents m Hm) in Hy.
    by rewrite (inv_length m Hm). }
  destruct (inv_tell m t q x y w (goto (Spinning v) w) Hm Hx Hw Hq Hy) as [H1 H2].
  1-5: unfold told, resets; cbn; by rewrite ?Hat.
  { cbn. split; [done|by exists q]. }
  apply safe_ok. eexists. split; [done|]. unfold atomic_post_decr, fetch_and_sub. cbn [fst].
  rewrite wrap_id; [done|]. destruct (inv_thread m Hm q y u Hy Hu) as [_ _ _ Hcy _].
  pose proof (untold_le q (resets u) ps (threads m)). lia.
Qed.

Lemma step_turns m t x w v s' :
  inv m → node (barrier m) !! t = Some x → threads m !! t = Some w → at_ w = Turning_write v s' →
  safe (wait_step t x (Turning_write v s') m).
Proof.
  intros Hm Hx Hw Hat. destruct (inv_thread m Hm t x w Hx Hw) as [Hid Hts Hc Hcc Hp].
  rewrite Hat in Hp. destruct Hp as (Hv & Hn & ->). cbn [wait_step].
  destruct (thread_node m t w Hm Hw) as (x' & Hx' & Hpt).
  rewrite Hx in Hx'. injection Hx' as <-. rewrite Hn in Hpt. apply ps_root in Hpt as ->.
  unfold moves. rewrite (alter_insert _ _ _ w Hw). apply safe_ok. eexists. split; [done|].
  apply (inv_turn m x w); try done.
  - intros j u Hj Hu. destruct (thread_node m j u Hm Hu) as (y & Hy & Hpy). exists y. split; [done|].
    destruct (parent y); [by eexists|]. by apply ps_root in Hpy.
  - unfold told. by rewrite Hat.
  - unfold told. cbn. by rewrite Hat.
  - unfold resets. cbn. by rewrite Hat.
Qed.

(** Every step of a thread passes its assertion and keeps the invariant. *)
Lemma thread_step_inv t m : inv m → safe (thread_step t m).
Proof.
  intros Hm. unfold thread_step.
  destruct (threads m !! t) as [w|] eqn:Hw; [|apply safe_none].
  destruct (node (barrier m) !! t) as [x|] eqn:Hx; [|apply safe_none].
  destruct (at_ w) as [|v|v|v|v|v|v s'|v] eqn:Hat;
    [| |by apply (step_resets m t x w)|by apply (step_tells m t x w)| | |by apply (step_turns m t x w)|];
    destruct (inv_thread m Hm t x w Hx Hw) as [Hid Hts Hc Hcc Hp]; rewrite Hat in Hp; cbn [wait_step].
  - assert (Hra : root_asserted (id x) (parent x) = true).
    { unfold root_asserted. destruct (Nat.eqb_spec (id x) 0) as [E|E]; [|done].
      destruct (thread_node m t w Hm Hw) as (x' & Hx' & Hpp).
      rewrite Hx in Hx'. injection Hx' as <-. destruct (parent x) as [q|]; [|done].
      apply ps_below in Hpp. lia. }
    rewrite Hra. apply safe_ok, (moves_place m t x w); try done; unfold resets, told; cbn; by rewrite Hat.
  - destruct (Z.ltb_spec 0 (children_count x)); [apply safe_none|].
    apply safe_ok, (moves_place m t x w); try done; try (unfold resets, told; cbn; by rewrite Hat).
    cbn. split; [done|lia].
  - destruct (eqb_spec (sense (barrier m)) v) as [He|]; [|apply safe_none].
    apply safe_ok, (returns_ok m t x w); try done; try (unfold resets, told; by rewrite Hat).
    by destruct Hp.
  - apply safe_ok, (moves_place m t x w); try done; try (unfold resets, told; cbn; by rewrite Hat).
    cbn. destruct Hp. done.
  - (* the root checks the sense it has turned *)
    destruct Hp as [Hv Hn]. destruct (thread_node m t w Hm Hw) as (x' & Hx' & Hpt).
    rewrite Hx in Hx'. injection Hx' as <-. rewrite Hn in Hpt. apply ps_root in Hpt as ->.
    assert (Hs : sense (barrier m) = v).
    { rewrite Hv, Hts. destruct (inv_root m Hm w Hw) as [-> _]. unfold told. rewrite Hat.
      by rewrite Nat.odd_succ, Nat.negb_odd. }
    rewrite Hs, eqb_reflx. apply safe_ok, (returns_ok m 0%nat x w); try done;
      unfold resets, told; by rewrite Hat.
Qed.

Lemma step_can m t w o :
  inv m → threads m !! t = Some w → at_ w ≠ Outside → thread_step t m = Some o → can_step m.
Proof.
  intros Hm Hw Hat H. destruct (thread_step_inv t m Hm o H) as (m' & -> & _).
  exists m', t, w. done.
Qed.

(** A thread that waits for its children waits for one that can step. *)
Lemma children_can_step m k : ∀ n i w v,
  inv m → called k m → (length ps - i <= n)%nat →
  threads m !! i = Some w → at_ w = Children v → can_step m.
Proof.
  induction n as [|n IH]; intros i w v Hm Hk Hn Hw Hat.
  { apply lookup_lt_Some in Hw. rewrite (inv_length m Hm) in Hw. lia. }
  destruct (thread_node m i w Hm Hw) as (x & Hx & _).
  destruct (inv_thread m Hm i x w Hx Hw) as [_ _ _ Hcc _].
  assert (Hrw : resets w = returns w) by (unfold resets; by rewrite Hat).
  assert (Hkw : S (returns w) = k) by (rewrite <-(Hk i w Hw); unfold calls; by rewrite Hat).
  destruct (Z.ltb_spec 0 (children_count x)) as [Hpos|Hzero].
  2: { apply (step_can m i w (Ok (mk_machine (barrier m) (alter (goto (Resetting v)) i (threads m))))); try done.
       - by rewrite Hat.
       - unfold thread_step. rewrite Hw, Hx, Hat. cbn [wait_step].
         by rewrite (proj2 (Z.ltb_ge _ _) Hzero). }
  destruct (untold_witness i (resets w) ps (threads m)) as (j & u & Hj & Hu & Htu); [lia|].
  pose proof (ps_below j i Hj) as Hij. pose proof (Hk j u Hu) as Hku. pose proof (returns_told u).
  destruct (thread_node m j u Hm Hu) as (y & Hy & Hpy). rewrite Hj in Hpy.
  destruct (inv_thread m Hm j y u Hy Hu) as [_ _ _ _ Hpl].
  unfold calls in Hku. unfold told in Htu.
  destruct (at_ u) as [|z|z|z|z|z|z s'|z] eqn:E; try lia.
  - apply (IH j u z); try done. lia.
  - eapply (step_can m j u); try done; [by rewrite E|unfold thread_step; by rewrite Hu, Hy, E].
  - eapply (step_can m j u); try done; [by rewrite E|unfold thread_step; rewrite Hu, Hy, E; cbn [wait_step]].
    injection Hpy as <-. done.
  - destruct Hpl. congruence.
  - destruct Hpl as (_ & ? & _). congruence.
Qed.

(** When all have called, a thread has returned or some thread can step. *)
Lemma outside_or_step m k i w :
  inv m → called k m → threads m !! i = Some w → at_ w = Outside ∨ can_step m.
Proof.
  intros Hm Hk. revert i w.
  assert (Hcase : ∀ i w, threads m !! i = Some w → at_ w = Outside ∨ can_step m ∨ ∃ v, at_ w = Spinning v).
  { intros i w Hw. destruct (thread_node m i w Hm Hw) as (x & Hx & _).
    destruct (inv_thread m Hm i x w Hx Hw) as [_ _ _ _ Hpl].
    destruct (at_ w) as [|v|v|v|v|v|v s'|v] eqn:E; [by left|right..].
    2, 5, 6: left; eapply (step_can m i w); [done..|by rewrite E|unfold thread_step; by rewrite Hw, Hx, E].
    - left. by apply (children_can_step m k (length ps - i) i w v).
    - left. destruct Hpl as [_ [q Hq]].
      eapply (step_can m i w); [done..|by rewrite E|unfold thread_step; rewrite Hw, Hx, E; cbn; by rewrite Hq].
    - right. by exists v.
    - left. destruct (eqb (sense (barrier m)) v) eqn:Es;
        (eapply (step_can m i w); [done..|by rewrite E|unfold thread_step; rewrite Hw, Hx, E; cbn; by rewrite Es]). }
  intros i w Hw. destruct (Hcase i w Hw) as [?|[?|[v Hat]]]; [by left|by right|right].
  destruct (root_exists m i w Hw) as [w0 H0].
  destruct (thread_node m 0%nat w0 Hm H0) as (x0 & Hx0 & Hp0).
  destruct (Hcase 0%nat w0 H0) as [Hout|[?|[v0 Hat0]]]; [|done|exfalso].
  - destruct (thread_node m i w Hm Hw) as (x & Hx & _).
    destruct (inv_thread m Hm i x w Hx Hw) as [_ Hts _ _ Hpl]. rewrite Hat in Hpl.
    destruct Hpl as [Hv _]. destruct (inv_root m Hm w0 H0) as [Hs _].
    pose proof (Hk i w Hw) as H1. pose proof (Hk 0%nat w0 H0) as H2. unfold calls in H1, H2.
    rewrite Hat in H1. rewrite Hout in H2. unfold told in Hs. rewrite Hout in Hs.
    assert (Heq : sense (barrier m) = v).
    { rewrite Hv, Hts, Hs, H2, <-H1. by rewrite Nat.odd_succ, Nat.negb_odd. }
    eapply (step_can m i w); [done..|by rewrite Hat|].
    unfold thread_step. rewrite Hw, Hx, Hat. cbn [wait_step]. by rewrite Heq, eqb_reflx.
  - destruct (inv_thread m Hm 0%nat x0 w0 Hx0 H0) as [_ _ _ _ Hpl]. rewrite Hat0 in Hpl.
    destruct Hpl as [_ [q Hq]]. rewrite Hq in Hp0. apply ps_below in Hp0. lia.
Qed.

Lemma out_or_step m k : inv m → called k m →
  (∀ i w, threads m !! i = Some w → at_ w = Outside) ∨ can_step m.
Proof.
  intros Hm Hk.
  assert (H : ∀ ws : list waiter, (∀ w, w ∈ ws → at_ w = Outside ∨ can_step m) →
    (∀ w, w ∈ ws → at_ w = Outside) ∨ can_step m).
  { induction ws as [|w ws IH]; intros Hws; [left; by intros w ?%elem_of_nil|].
    destruct (Hws w) as [Ho|?]; [by left| |by right].
    destruct IH as [Hall|?]; [by intros; apply Hws; right| |by right].
    left. intros v [->|Hv]%elem_of_cons; [done|by apply Hall]. }
  destruct (H (threads m)) as [Hall|?]; [| |by right].
  - intros w (i & Hi)%list_elem_of_lookup_1. by apply (outside_or_step m k i).
  - left. intros i w Hi. by apply Hall, (list_elem_of_lookup_2 _ i).
Qed.
End Invariant.

(** ** The barrier of [threaded::init_barriers] *)

Lemma built_below b i q : built b → (parent <$> node b) !! i = Some (Some q) → (q < i)%nat.
Proof.
  intros Hb Hi. rewrite list_lookup_fmap in Hi. destruct (node b !! i) as [x|] eqn:Hx; [|done].
  injection Hi as Hi. destruct (built_forest b Hb i x Hx) as (_ & _ & _ & _ & [Hn|(q' & Hq & ?)]).
  - congruence.
  - rewrite Hi in Hq. injection Hq as <-. lia.
Qed.

Lemma built_root_parent b i : built b → (parent <$> node b) !! i = Some None → i = 0%nat.
Proof.
  intros Hb Hi. rewrite list_lookup_fmap in Hi. destruct (node b !! i) as [x|] eqn:Hx; [|done].
  injection Hi as Hi. by apply (built_root b Hb i x).
Qed.

Lemma start_inv b : built b → inv (parent <$> node b) (start_machine b).
Proof.
  intros Hb. assert (Hl : length (parent <$> node b) = size b)
    by (by rewrite length_fmap, (built_size b Hb)).
  assert (Hw : ∀ i w, threads (start_machine b) !! i = Some w → w = mk_waiter Outside 0)
    by (intros i w [-> _]%lookup_replicate; done).
  split.
  - done.
  - cbn. by rewrite length_replicate.
  - intros i x w Hx Hwi. rewrite (Hw i w Hwi).
    destruct (built_forest b Hb i x Hx) as (Hid & Hts & Hc & Hcc & _). cbn [Nat.add] in *.
    assert (Hk : kids (Some i) (node b) = untold i 0 (parent <$> node b) (threads (start_machine b))).
    { rewrite untold_all, kids_parents; [done|cbn; by rewrite Hl, length_replicate|].
      intros t v _ Hv. by rewrite (Hw t v Hv). }
    split; [done|done| |by rewrite Hcc, Hc, Hk|done]. rewrite Hc. by rewrite kids_parents.
  - intros i j w v _ Hwi Hv. rewrite (Hw i w Hwi), (Hw j v Hv). cbn. lia.
  - intros w0 H0. rewrite (Hw _ _ H0). split; [by apply built_sense|].
    intros i w Hwi. rewrite (Hw i w Hwi). done.
Qed.

Lemma reach_inv b m :
  built b → Z.of_nat (size b) < 2 ^ 64 → reach b m → inv (parent <$> node b) m.
Proof.
  intros Hb Hs Hr. induction Hr as [|t m m' _ IH Hstep]; [by apply start_inv|].
  destruct (thread_step_inv (parent <$> node b) (λ i q, built_below b i q Hb)
    (λ i, built_root_parent b i Hb) ltac:(by rewrite length_fmap, (built_size b Hb)) t m IH _ Hstep)
    as (m'' & [= <-] & ?). done.
Qed.

Lemma new_barrier_reach s :
  Z.of_nat s < 2 ^ 64 →
  ∃ b, new_tree_barrier 65 s 2 = Some (Ok b) ∧ size b = s ∧ built b ∧
    ∀ m, reach b m → inv (parent <$> node b) m.
Proof.
  intros Hs. destruct (new_tree_barrier_built s 64) as (b & Hb & Hsz & _ & Hbuilt).
  { apply Nat2Z.inj_lt. rewrite Nat2Z.inj_pow. done. }
  exists b. split_and!; [done..|]. intros m. apply reach_inv; [done|by rewrite Hsz].
Qed.

(** C19: The barrier of any number of threads is built, no assertion in it fails, and no
    thread returns from a call of [wait] before every thread has made that call. *)
Theorem tree_barrier_safe s :
  Z.of_nat s < 2 ^ 64 →
  ∃ b, new_tree_barrier 65 s 2 = Some (Ok b) ∧ size b = s ∧ length (node b) = s ∧
    ∀ m, reach b m →
      (∀ t f, thread_step t m ≠ Some (Err f)) ∧
      ∀ i j w v, threads m !! i = Some w → threads m !! j = Some v → (returns w <= calls v)%nat.
Proof.
  intros Hs. destruct (new_barrier_reach s Hs) as (b & Hb & Hsz & Hbuilt & Hr).
  exists b. split_and!; [done..|by rewrite (built_size b Hbuilt)|]. intros m Hm%Hr. split.
  - intros t f Hf.
    destruct (thread_step_inv (parent <$> node b) (λ i q, built_below b i q Hbuilt)
      (λ i, built_root_parent b i Hbuilt) ltac:(by rewrite length_fmap, (built_size b Hbuilt), Hsz)
      t m Hm _ Hf) as (? & ? & _). done.
  - intros i j w v. by apply (inv_together (parent <$> node b) (λ i q, built_below b i q Hbuilt)
      (λ i, built_root_parent b i Hbuilt)).
Qed.

Lemma tree_barrier_safe_witness :
  ∃ b, new_tree_barrier 65 5 2 = Some (Ok b) ∧ size b = 5%nat ∧ length (node b) = 5%nat ∧
    ∀ m, reach b m →
      (∀ t f, thread_step t m ≠ Some (Err f)) ∧
      ∀ i j w v, threads m !! i = Some w → threads m !! j = Some v → (returns w <= calls v)%nat.
Proof. apply (tree_barrier_safe 5). reflexivity. Defined.

Lemma work_left_le m : (work_left m <= 6 * length (threads m))%nat.
Proof.
  unfold work_left. induction (threads m) as [|w ws IH]; [done|].
  assert (rank w <= 6)%nat by (unfold rank; destruct (at_ w); lia). simpl in *. lia.
Qed.

(** C20: Once every thread has called [wait], all return after a bounded number of steps,
    whichever thread is taken next: none waits for a thread that cannot step. *)
Theorem tree_barrier_returns s :
  Z.of_nat s < 2 ^ 64 →
  ∃ b, new_tree_barrier 65 s 2 = Some (Ok b) ∧
    ∀ m k, reach b m → called k m → ∀ n m', nsteps inside_step n m m' →
      (n <= 6 * length (threads m))%nat ∧
      ((∀ i w, threads m' !! i = Some w → at_ w = Outside ∧ returns w = k) ∨ can_step m').
Proof.
  intros Hs. destruct (new_barrier_reach s Hs) as (b & Hb & Hsz & Hbuilt & Hr).
  exists b. split; [done|]. intros m k Hm Hk n m' Hn.
  assert (H : (n + work_left m' <= work_left m)%nat ∧ reach b m' ∧ called k m').
  { revert Hm Hk. induction Hn as [m|n m m1 m' Hstep _ IH]; intros Hm Hk; [done|].
    destruct IH as (Hle & ? & ?).
    - destruct Hstep as (t & w & _ & _ & H). by apply (reach_step b t m).
    - by apply (called_step k m).
    - apply work_left_step in Hstep. split_and!; [lia|done..]. }
  destruct H as (Hle & Hm' & Hk'). split; [pose proof (work_left_le m); lia|].
  destruct (out_or_step (parent <$> node b) (λ i q, built_below b i q Hbuilt)
    (λ i, built_root_parent b i Hbuilt) ltac:(by rewrite length_fmap, (built_size b Hbuilt), Hsz)
    m' k (Hr m' Hm') Hk') as [Hout|?]; [left|by right].
  intros i w Hw. split; [by apply (Hout i)|]. rewrite <-(Hk' i w Hw). unfold calls.
  by rewrite (Hout i w Hw).
Qed.

Lemma tree_barrier_returns_witness :
  ∃ b, new_tree_barrier 65 3 2 = Some (Ok b) ∧
    ∀ m k, reach b m → called k m → ∀ n m', nsteps inside_step n m m' →
      (n <= 6 * length (threads m))%nat ∧
      ((∀ i w, threads m' !! i = Some w → at_ w = Outside ∧ returns w = k) ∨ can_step m').
Proof. apply (tree_barrier_returns 3). reflexivity. Defined.

(** a schedule of steps; None where a thread of it spins *)
Fixpoint run_schedule (ts : list nat) (m : machine) : option (res machine) :=
  match ts with
  | [] => Some (Ok m)
  | t :: ts => match thread_step t m with Some (Ok m) => run_schedule ts m | o => o end
  end.

(** two threads meet twice: the child waits in between, and then the root *)
Example two_threads_meet :
  match new_tree_barrier 65 2 2 with
  | Some (Ok b) =>
      let first := [1; 1; 1; 1; 0; 0; 0; 0; 0; 0; 1]%nat in
      option_map (λ r, match r with Ok m => threads m | Err _ => [] end)
        (run_schedule (first ++ first) (start_machine b)) =
        Some [mk_waiter Outside 2; mk_waiter Outside 2] ∧
      run_schedule [1; 1; 1; 1; 1]%nat (start_machine b) = None ∧
      run_schedule [0; 0]%nat (start_machine b) = None
  | _ => False
  end.
Proof. vm_compute. done. Qed.

(** Trees of more than two children for each node may lack nodes: with three, five
    threads get four nodes, and [wait] of the last follows a pointer that was never set.
    The threads of the machine only use the default of two. *)
Theorem radix_3_lacks_nodes :
  ∃ b, new_tree_barrier 65 5 3 = Some (Ok b) ∧ size b = 5%nat ∧ length (node b) = 4%nat ∧
    node b !! 4%nat = None.
Proof. eexists. split; [vm_compute; reflexivity|done]. Qed.
