(* ===== verification/Tokens.v ===== *)
(** How machines find out together that none has work left: the token of
    [sched/mpi/token.hpp] and the tokenizer of [sched/mpi/tokenizer.{hpp,cpp}], a ring
    in the manner of Safra, and the tree of messages that tells the end.  What a machine
    sends and what has arrived for it are arguments of the operations; the machines with
    the messages between them are a step relation. *)

From Stdlib Require Import ZArith Lia Bool.
From stdpp Require Import base tactics list numbers option.
From S2P Require Import Prelude Words Router.

#[local] Open Scope Z_scope.

(** ** [sched/mpi/token.hpp] *)

Definition WHITE : bool := true.
Definition BLACK : bool := false.

Record token : Type := mk_token { type : bool; count : Z }.

(** a signed sum of 32 bits, undefined when it overflows *)
Definition add_int (a b : Z) : res Z :=
  if in_signed 32 (a + b) then Ok (a + b) else Err undefined_behaviour.

Definition transmitted (plus : Z) (t : token) : res token :=
  let* n := add_int (count t) plus in Ok (mk_token (type t) n).

(** [count -= total] is computed as a [size_t] and converted back *)
Definition received (total : Z) (t : token) : token :=
  mk_token (type t) (swrap 32 (wrap 64 (count t - total))).

Definition add_count (plus : Z) (t : token) : res token :=
  let* n := add_int (count t) plus in Ok (mk_token (type t) n).

Definition is_zero (t : token) : bool := count t =? 0.
Definition reset_count (t : token) : token := mk_token (type t) 0.
Definition get_count (t : token) : Z := count t.
Definition set_white (t : token) : token := mk_token WHITE (count t).
Definition set_black (t : token) : token := mk_token BLACK (count t).
Definition is_white (t : token) : bool := eqb (type t) WHITE.
Definition is_black (t : token) : bool := eqb (type t) BLACK.
Definition new_token : token := mk_token BLACK 0.

(** ** Messages of a machine

    What [process/router.cpp] does with the token and the ends of iterations: tokens
    come from the right and go to the left, in order; an end has a stage and the rank
    of its sender or its target.  Sends do not wait. *)

Record mail : Type := mk_mail {
  token_in : list token;
  token_out : list token;
  end_in : list (Z * Z);
  end_out : list (Z * Z)
}.

Definition send_token (t : token) (m : mail) : mail :=
  mk_mail (token_in m) (token_out m ++ [t]) (end_in m) (end_out m).

Definition receive_token (m : mail) : option (token * mail) :=
  match token_in m with
  | [] => None
  | t :: ts => Some (t, mk_mail ts (token_out m) (end_in m) (end_out m))
  end.

Definition send_end_iteration (stage target : Z) (m : mail) : mail :=
  mk_mail (token_in m) (token_out m) (end_in m) (end_out m ++ [(target, stage)]).

(** the first end of those in [es] from [source], and the others *)
Fixpoint take_end (source : Z) (es : list (Z * Z)) : option (Z * list (Z * Z)) :=
  match es with
  | [] => None
  | (s, stage) :: es =>
      if s =? source then Some (stage, es)
      else match take_end source es with
           | Some (st, es) => Some (st, (s, stage) :: es)
           | None => None
           end
  end.

Definition received_end_iteration (self : remote) (source : Z) (m : mail)
    : res (option (Z * mail)) :=
  asserting (negb (is_leader self))
    (Ok (match take_end source (end_in m) with
         | Some (stage, es) => Some (stage, mk_mail (token_in m) (token_out m) es (end_out m))
         | None => None
         end)).

(** None: it waits until there is one *)
Definition receive_end_iteration (source : Z) (m : mail) : option mail :=
  match take_end source (end_in m) with
  | Some (_, es) => Some (mk_mail (token_in m) (token_out m) es (end_out m))
  | None => None
  end.

(** ** [sched/mpi/tokenizer.cpp] *)

Record tokenizer : Type := mk_tokenizer {
  tok : token;
  has_global_tok : bool;
  global_tok : token
}.

Definition set_tok (t : token) (z : tokenizer) : tokenizer :=
  mk_tokenizer t (has_global_tok z) (global_tok z).
Definition set_has (b : bool) (z : tokenizer) : tokenizer :=
  mk_tokenizer (tok z) b (global_tok z).
Definition set_global (t : token) (z : tokenizer) : tokenizer :=
  mk_tokenizer (tok z) (has_global_tok z) t.

Definition messages_received (total : Z) (z : tokenizer) : tokenizer :=
  set_tok (set_black (received total (tok z))) z.

(** the argument is converted to [int] *)
Definition messages_transmitted (total : Z) (z : tokenizer) : res tokenizer :=
  let* t := transmitted (swrap 32 total) (tok z) in Ok (set_tok t z).

(** None: the call waits for a message *)
Definition outcome (A : Type) : Type := option (res A).

Definition done_ok {A} (a : A) : outcome A := Some (Ok a).
Definition via {A B} (r : res A) (k : A → outcome B) : outcome B :=
  match r with Ok a => k a | Err f => Some (Err f) end.
Definition obind {A B} (o : outcome A) (k : A → outcome B) : outcome B :=
  match o with Some r => via r k | None => None end.
Definition check {A} (b : bool) (o : outcome A) : outcome A :=
  if b then o else Some (Err assert_fail).

Section Tokenizer.
(** [remote::self] and [remote::world_size] *)
Context (self : remote) (world : Z).

Definition try_fetch_token_as_worker (z : tokenizer) (m : mail) : outcome (tokenizer * mail) :=
  check (negb (has_global_tok z))
    (match receive_token m with
     | Some (t, m) => done_ok (set_has true (set_global t z), m)
     | None => done_ok (z, m)
     end).

Definition send_token_as_leader (z : tokenizer) (m : mail) : outcome (tokenizer * mail) :=
  check (is_leader self) (check (has_global_tok z)
    (let g := reset_count (set_white (global_tok z)) in
     let z := mk_tokenizer (set_white (tok z)) false g in
     check (is_white g) (check (is_zero g)
       (let m := send_token g m in
        check (is_white (tok z)) (done_ok (z, m)))))).

(** the loop over stages, [n] of which are left *)
Fixpoint end_stages (n : nat) (stage : Z) (m : mail) : outcome mail :=
  match n with
  | O => done_ok m
  | S n =>
      via (power 32 2 (stage - 1)) (λ lo,
      via (power 32 2 stage) (λ hi,
        if addr self <? lo then
          let dest := addr self + lo in
          check (0 <=? dest)
            (let m := if dest <? world then send_end_iteration stage dest m else m in
             end_stages n (stage + 1) m)
        else if (lo <=? addr self) && (addr self <? hi) then
          match receive_end_iteration (addr self - lo) m with
          | Some m => end_stages n (stage + 1) m
          | None => None
          end
        else end_stages n (stage + 1) m))
  end.

(** [upper_log2] does not end for sizes that no power of two reaches *)
Definition do_collective_end_iteration (stage : Z) (m : mail) : outcome mail :=
  match upper_log2 64 64 world with
  | Some last => end_stages (Z.to_nat (last - stage + 1)) stage m
  | None => None
  end.

Fixpoint find_source_stages (n : nat) (stage : Z) : outcome Z :=
  match n with
  | O => Some (Err assert_fail)
  | S n =>
      via (power 32 2 (stage - 1)) (λ lo,
      via (power 32 2 stage) (λ hi,
        if addr self <? lo then Some (Err assert_fail)
        else if (lo <=? addr self) && (addr self <? hi) then done_ok (addr self - lo)
        else find_source_stages n (stage + 1)))
  end.

Definition find_source_collective : outcome Z :=
  match upper_log2 64 64 world with
  | Some last => find_source_stages (Z.to_nat last) 1
  | None => None
  end.

Definition try_fetch_token_as_leader (z : tokenizer) (m : mail)
    : outcome (bool * tokenizer * mail) :=
  check (is_leader self) (check (negb (has_global_tok z))
    (match receive_token m with
     | None => done_ok (false, z, m)
     | Some (t, m) =>
         via (add_count (get_count (tok z)) t) (λ g,
         let z := set_has true (set_global g z) in
         if is_white g && is_zero g && is_white (tok z) then
           check (is_white g) (check (is_zero g) (check (is_white (tok z))
             (obind (do_collective_end_iteration 1 m) (λ m, done_ok (true, z, m)))))
         else obind (send_token_as_leader z m) (λ r, done_ok (false, fst r, snd r)))
     end)).

Definition send_token_as_idler (z : tokenizer) (m : mail) : outcome (tokenizer * mail) :=
  check (negb (is_leader self)) (check (has_global_tok z)
    (via (add_count (get_count (tok z)) (global_tok z)) (λ g,
     let g := set_black g in
     check (is_black g) (done_ok (set_has false (set_global g z), send_token g m))))).

Definition try_fetch_token_as_idler (z : tokenizer) (m : mail)
    : outcome (bool * tokenizer * mail) :=
  check (negb (is_leader self)) (check (negb (has_global_tok z))
    (match receive_token m with
     | None => done_ok (false, z, m)
     | Some (t, m) =>
         via (add_count (get_count (tok z)) t) (λ g,
         let g := if is_black (tok z) then set_black g else g in
         let z := mk_tokenizer (set_white (tok z)) false g in
         let m := send_token g m in
         check (is_white (tok z)) (done_ok (true, z, m)))
     end)).

Definition try_fetch_end_iteration (m : mail) : outcome (bool * mail) :=
  obind find_source_collective (λ source,
  via (received_end_iteration self source m) (λ r,
    match r with
    | Some (stage, m) =>
        obind (do_collective_end_iteration (stage + 1) m) (λ m, done_ok (true, m))
    | None => done_ok (false, m)
    end)).

(** [use_mpi] of the router is [1 <? world] *)
Definition busy_loop_token (turned_inactive : bool) (z : tokenizer) (m : mail)
    : outcome (bool * tokenizer * mail) :=
  if turned_inactive then
    if is_leader self then
      if has_global_tok z && negb (1 <? world) then done_ok (false, z, m)
      else if has_global_tok z then
        obind (send_token_as_leader z m) (λ r, done_ok (true, fst r, snd r))
      else
        obind (try_fetch_token_as_leader z m) (λ r, done_ok (negb (fst (fst r)), snd (fst r), snd r))
    else
      if has_global_tok z then
        obind (send_token_as_idler z m) (λ r, done_ok (true, fst r, snd r))
      else
        obind (try_fetch_token_as_idler z m) (λ r,
        let '(fetched, z, m) := r in
        if negb fetched then
          obind (try_fetch_end_iteration m) (λ r, done_ok (negb (fst r), z, snd r))
        else done_ok (true, z, m))
  else if negb (has_global_tok z) then
    obind (try_fetch_token_as_worker z m) (λ r, done_ok (true, fst r, snd r))
  else done_ok (true, z, m).

Definition token_terminate_iteration (z : tokenizer) : res tokenizer :=
  asserting (negb (is_leader self) ||
             (is_zero (global_tok z) && is_white (global_tok z) && has_global_tok z))
    (asserting (is_white (tok z)) (Ok (set_tok (reset_count (tok z)) z))).

(** the constructor leaves [has_global_tok] unset; [init] sets it *)
Definition tokenizer_init (z : tokenizer) : tokenizer :=
  if is_leader self then mk_tokenizer (set_white (tok z)) true (set_white (global_tok z))
  else mk_tokenizer (set_white (tok z)) false (global_tok z).

Definition tokenizer_end (z : tokenizer) : res unit := asserting (is_white (tok z)) (Ok ()).
End Tokenizer.

(** ** The machines together

    Each machine with its tokenizer and what is on the way to it.  Only machines with
    active threads send messages; a message makes its machine active when it arrives,
    and the threads count what they sent and received before they become inactive
    ([fetch_work], [transmit_messages] and IDLE_MPI of [sched/mpi/handler.*]).
    [sends] and [receives] count all the messages of a machine. *)

Record process : Type := mk_process {
  tz : tokenizer;
  active : bool;
  uncounted_sent : Z;
  uncounted_received : Z;
  inbox : Z;
  arriving : list token;
  ends : list (Z * Z);
  sends : Z;
  receives : Z
}.

Definition mail_of (p : process) : mail := mk_mail (arriving p) [] (ends p) [].

Definition set_tz (z : tokenizer) (p : process) : process :=
  mk_process z (active p) (uncounted_sent p) (uncounted_received p) (inbox p) (arriving p)
    (ends p) (sends p) (receives p).
Definition set_active (b : bool) (p : process) : process :=
  mk_process (tz p) b (uncounted_sent p) (uncounted_received p) (inbox p) (arriving p)
    (ends p) (sends p) (receives p).
Definition count_sent (n : Z) (p : process) : process :=
  mk_process (tz p) (active p) (uncounted_sent p - n) (uncounted_received p) (inbox p)
    (arriving p) (ends p) (sends p) (receives p).
Definition count_received (n : Z) (p : process) : process :=
  mk_process (tz p) (active p) (uncounted_sent p) (uncounted_received p - n) (inbox p)
    (arriving p) (ends p) (sends p) (receives p).
Definition sent_one (p : process) : process :=
  mk_process (tz p) (active p) (uncounted_sent p + 1) (uncounted_received p) (inbox p)
    (arriving p) (ends p) (sends p + 1) (receives p).
Definition on_its_way (p : process) : process :=
  mk_process (tz p) (active p) (uncounted_sent p) (uncounted_received p) (inbox p + 1)
    (arriving p) (ends p) (sends p) (receives p).
Definition received_one (p : process) : process :=
  mk_process (tz p) true (uncounted_sent p) (uncounted_received p + 1) (inbox p - 1)
    (arriving p) (ends p) (sends p) (receives p + 1).

Inductive action : Type :=
  | Send (i j : nat)             (** a set of messages from [i] to [j] *)
  | Count_sent (i : nat) (n : Z)      (** [messages_were_transmitted] *)
  | Receive (i : nat)            (** a set that arrived, and its work *)
  | Count_received (i : nat) (n : Z)  (** [messages_were_received] *)
  | Rest (i : nat)               (** no thread of [i] is active any more *)
  | Poll (i : nat).              (** [busy_loop_token] *)

(** machine [j] once machine [i] has the tokenizer [z] and its mail [m] is on its way *)
Definition deliver_one (i left : nat) (z : tokenizer) (m : mail) (j : nat) (p : process) : process :=
  mk_process (if (j =? i)%nat then z else tz p) (active p) (uncounted_sent p)
    (uncounted_received p) (inbox p)
    ((if (j =? i)%nat then token_in m else arriving p) ++
     (if (j =? left)%nat then token_out m else []))
    ((if (j =? i)%nat then end_in m else ends p) ++
     ((λ e : Z * Z, (Z.of_nat i, snd e)) <$> filter (λ e, fst e = Z.of_nat j) (end_out m)))
    (sends p) (receives p).

Definition deliver (i left : nat) (z : tokenizer) (m : mail) (ps : list process) : list process :=
  imap (deliver_one i left z m) ps.

Section Machines.
Context (remotes : list remote).

Definition world : Z := Z.of_nat (length remotes).

Definition with_process (i : nat) (ps : list process)
    (k : process → outcome (list process * bool)) : outcome (list process * bool) :=
  match ps !! i with Some p => k p | None => None end.

(** None: the action cannot happen; the flag is what [busy_loop_token] answers *)
Definition act (a : action) (ps : list process) : outcome (list process * bool) :=
  match a with
  | Send i j =>
      with_process i ps (λ p, with_process j ps (λ q,
        if active p && negb (i =? j)%nat then
          done_ok (<[j := on_its_way q]> (<[i := sent_one p]> ps), true)
        else None))
  | Count_sent i n =>
      with_process i ps (λ p,
        if (0 <? n) && (n <=? uncounted_sent p) then
          via (messages_transmitted n (tz p)) (λ z,
          done_ok (<[i := count_sent n (set_tz z p)]> ps, true))
        else None)
  | Receive i =>
      with_process i ps (λ p,
        if 0 <? inbox p then done_ok (<[i := received_one p]> ps, true) else None)
  | Count_received i n =>
      with_process i ps (λ p,
        if (0 <? n) && (n <=? uncounted_received p) then
          done_ok (<[i := count_received n (set_tz (messages_received n (tz p)) p)]> ps, true)
        else None)
  | Rest i =>
      with_process i ps (λ p,
        if active p && (uncounted_sent p =? 0) && (uncounted_received p =? 0) then
          done_ok (<[i := set_active false p]> ps, true)
        else None)
  | Poll i =>
      with_process i ps (λ p,
        match remotes !! i with
        | None => None
        | Some self =>
            obind (busy_loop_token self world (negb (active p)) (tz p) (mail_of p)) (λ r,
            let '(b, z, m) := r in
            done_ok (deliver i (Z.to_nat (left_remote_id world self)) z m ps, b))
        end)
  end.

(** every machine after [init], its threads active *)
Definition start_process (self : remote) : process :=
  mk_process (tokenizer_init self (mk_tokenizer new_token false new_token)) true 0 0 0 [] [] 0 0.

Inductive reach : list process → Prop :=
  | reach_start : reach (start_process <$> remotes)
  | reach_act a ps ps' b : reach ps → act a ps = Some (Ok (ps', b)) → reach ps'.

Definition total (f : process → Z) (ps : list process) : Z := foldr (λ p, Z.add (f p)) 0 ps.

(** no machine has work, none is on its way and all tokenizers are white *)
Definition quiet (ps : list process) : Prop :=
  (∀ i p, ps !! i = Some p →
     active p = false ∧ inbox p = 0 ∧ is_white (tok (tz p)) = true).
End Machines.
