(* ===== verification/Safra.v ===== *)
(** The ring of machines of [Tokens] finds the end: the invariant of the token, after
    Safra, that the end is told only when nothing is left to do ([safra_safe]), that it
    is told soon after ([safra_ends]) and that it reaches every machine
    ([ends_reach_all]). *)

From Stdlib Require Import ZArith Lia Bool.
From stdpp Require Import base tactics list numbers option.
From S2P Require Import Prelude Words Router Tokens.

#[local] Open Scope Z_scope.

(** ** Sums over machines *)

Fixpoint sumi (f : nat → process → Z) (k : nat) (ps : list process) : Z :=
  match ps with
  | [] => 0
  | p :: ps => f k p + sumi f (S k) ps
  end.

Lemma sumi_rel f g : ∀ ps ps' k,
  length ps = length ps' →
  (∀ j p p', ps !! j = Some p → ps' !! j = Some p' → f (k + j)%nat p = g (k + j)%nat p') →
  sumi f k ps = sumi g k ps'.
Proof.
  induction ps as [|p ps IH]; intros [|p' ps'] k Hl H; try done. simpl.
  rewrite <-(Nat.add_0_r k) at 1. rewrite (H 0%nat p p' eq_refl eq_refl), Nat.add_0_r. f_equal.
  apply IH; [by injection Hl|]. intros j q q' Hq Hq'. rewrite Nat.add_succ_comm.
  by apply (H (S j)).
Qed.

Lemma sumi_except f g i d : ∀ ps ps' k p p',
  length ps = length ps' → ps !! i = Some p → ps' !! i = Some p' →
  g (k + i)%nat p' = f (k + i)%nat p + d →
  (∀ j q q', j ≠ i → ps !! j = Some q → ps' !! j = Some q' → f (k + j)%nat q = g (k + j)%nat q') →
  sumi g k ps' = sumi f k ps + d.
Proof.
  revert d. induction i as [|i IH]; intros d [|q ps] [|q' ps'] k p p' Hl Hp Hp' Hd H; try done; simpl in *.
  - injection Hp as ->. injection Hp' as ->. rewrite Nat.add_0_r in Hd. rewrite Hd.
    rewrite (sumi_rel f g ps ps' (S k)); [lia|by injection Hl|].
    intros j r r' Hr Hr'. change (S k + j)%nat with (S (k + j)). rewrite plus_n_Sm.
    by apply (H (S j)).
  - rewrite (IH d ps ps' (S k) p p'); [|by injection Hl|done|done| |].
    + rewrite <-(Nat.add_0_r k) at 1.
      rewrite <-(H 0%nat q q'); [rewrite Nat.add_0_r; lia|done..].
    + by rewrite Nat.add_succ_comm.
    + intros j r r' Hj Hr Hr'. rewrite Nat.add_succ_comm. apply (H (S j)); [lia|done..].
Qed.

Lemma sumi_le f g : ∀ ps k,
  (∀ j p, ps !! j = Some p → f (k + j)%nat p <= g (k + j)%nat p) → sumi f k ps <= sumi g k ps.
Proof.
  induction ps as [|p ps IH]; intros k H; [simpl; lia|]. simpl.
  pose proof (H 0%nat p eq_refl) as H0. rewrite Nat.add_0_r in H0.
  assert (sumi f (S k) ps <= sumi g (S k) ps); [|lia].
  apply IH. intros j q Hq. rewrite Nat.add_succ_comm. by apply (H (S j)).
Qed.

Lemma sumi_plus f g : ∀ ps k, sumi (λ i p, f i p + g i p) k ps = sumi f k ps + sumi g k ps.
Proof. induction ps as [|p ps IH]; intros k; simpl; [done|]. rewrite IH. lia. Qed.

Lemma sumi_opp f : ∀ ps k, sumi (λ i p, - f i p) k ps = - sumi f k ps.
Proof. induction ps as [|p ps IH]; intros k; simpl; [done|]. rewrite IH. lia. Qed.

Lemma sumi_zero : ∀ ps k, sumi (λ _ _, 0) k ps = 0.
Proof. induction ps as [|p ps IH]; intros k; simpl; [done|]. rewrite IH. lia. Qed.

Lemma sumi_total f : ∀ ps k, sumi (λ _, f) k ps = total f ps.
Proof. induction ps as [|p ps IH]; intros k; simpl; [done|]. by rewrite IH. Qed.

(** over the machines after [t], and up to [t] *)
Definition after (t : nat) (f : process → Z) (i : nat) (p : process) : Z :=
  if (t <? i)%nat then f p else 0.
Definition upto (t : nat) (f : process → Z) (i : nat) (p : process) : Z :=
  if (i <=? t)%nat then f p else 0.

(** ** The tree of the ends *)

Lemma power_loop_2 n : ∀ j, 0 <= j → j + Z.of_nat n < 32 → power_loop 32 2 n (2 ^ j) = 2 ^ (j + Z.of_nat n).
Proof.
  induction n as [|n IH]; intros j Hj Hn; cbn [power_loop]; [by rewrite Z.add_0_r|].
  rewrite wrap_id.
  - replace (2 ^ j * 2) with (2 ^ (j + 1)) by (rewrite Z.pow_add_r by lia; lia).
    rewrite IH by lia. f_equal. lia.
  - replace (2 ^ j * 2) with (2 ^ (j + 1)) by (rewrite Z.pow_add_r by lia; lia).
    split; [lia|]. apply Z.pow_lt_mono_r; lia.
Qed.

Lemma power_2 e : 0 <= e < 32 → power 32 2 e = Ok (2 ^ e).
Proof.
  intros He. unfold power. rewrite Z.geb_leb, (proj2 (Z.leb_le _ _)) by lia. cbn [asserting].
  destruct (Z.eqb_spec e 0) as [->|Hne]; [done|].
  rewrite (wrap_id 32 2) by lia. change 2 with (2 ^ 1) at 2.
  rewrite power_loop_2 by lia. do 2 f_equal. lia.
Qed.

Section Ends.
Context (world : Z) (world_size : 2 <= world <= 2 ^ 30).

Definition last_stage : Z := Z.log2_up world.

Lemma last_stage_ok :
  upper_log2 64 64 world = Some last_stage ∧ 1 <= last_stage <= 30 ∧ world <= 2 ^ last_stage.
Proof.
  destruct (upper_log2_ok 64 world) as (k & Hk & (Hk0 & Hle & Hleast) & _); [lia|lia|].
  change (Z.to_nat 64) with 64%nat in Hk.
  pose proof (Z.log2_up_spec world ltac:(lia)) as [Hlo Hhi].
  pose proof (Z.log2_up_nonneg world).
  assert (Heq : k = last_stage).
  { unfold last_stage. destruct (Z.lt_trichotomy k (Z.log2_up world)) as [Hlt|[?|Hgt]]; [|done|].
    - assert (2 ^ k <= 2 ^ Z.pred (Z.log2_up world)) by (apply Z.pow_le_mono_r; lia). lia.
    - specialize (Hleast (Z.log2_up world) ltac:(lia)). lia. }
  subst k. split; [done|]. split; [|done]. split.
  - destruct (Z.eq_dec last_stage 0) as [E|E]; [rewrite E in Hle; simpl in Hle; lia|].
    unfold last_stage in *. lia.
  - apply Z.log2_up_le_pow2; lia.
Qed.

(** what a machine of rank [r] sends in [n] stages *)
Fixpoint end_sends (r : Z) (n : nat) (stage : Z) : list (Z * Z) :=
  match n with
  | O => []
  | S n =>
      (if r + 2 ^ (stage - 1) <? world then [(r + 2 ^ (stage - 1), stage)] else []) ++
      end_sends r n (stage + 1)
  end.

Definition with_ends (es : list (Z * Z)) (m : mail) : mail :=
  mk_mail (token_in m) (token_out m) (end_in m) (end_out m ++ es).

Lemma end_stages_ok self n : ∀ stage m,
  0 <= addr self < 2 ^ (stage - 1) → 1 <= stage → stage + Z.of_nat n <= 32 →
  end_stages self world n stage m = done_ok (with_ends (end_sends (addr self) n stage) m).
Proof.
  induction n as [|n IH]; intros stage m Hr Hst Hn; cbn [end_stages end_sends].
  { unfold with_ends. rewrite app_nil_r. by destruct m. }
  rewrite !power_2 by lia. cbn [via].
  rewrite (proj2 (Z.ltb_lt _ _)) by lia.
  rewrite (proj2 (Z.leb_le 0 _)) by lia. cbn [check].
  assert (2 ^ (stage - 1) <= 2 ^ stage) by (apply Z.pow_le_mono_r; lia).
  rewrite IH; [|rewrite Z.add_simpl_r; lia|lia|lia].
  unfold with_ends, send_end_iteration. destruct (addr self + 2 ^ (stage - 1) <? world); cbn; [|done].
  by rewrite <-app_assoc.
Qed.

(** the ends a machine sends from a stage on *)
Definition ends_from (r stage : Z) : list (Z * Z) :=
  end_sends r (Z.to_nat (last_stage - stage + 1)) stage.

Lemma do_collective_ok self stage m :
  0 <= addr self < 2 ^ (stage - 1) → 1 <= stage <= 31 →
  do_collective_end_iteration self world stage m = done_ok (with_ends (ends_from (addr self) stage) m).
Proof.
  intros Hr Hst. unfold do_collective_end_iteration.
  destruct last_stage_ok as (-> & ? & _). apply end_stages_ok; lia.
Qed.

Lemma elem_of_end_sends r n e : ∀ stage,
  e ∈ end_sends r n stage ↔
  ∃ st, stage <= st < stage + Z.of_nat n ∧ r + 2 ^ (st - 1) < world ∧ e = (r + 2 ^ (st - 1), st).
Proof.
  induction n as [|n IH]; intros stage; cbn [end_sends].
  { split; [by intros ?%elem_of_nil|]. intros (st & ? & _). lia. }
  rewrite elem_of_app, IH. split.
  - intros [H|(st & ? & ? & ->)].
    + destruct (Z.ltb_spec (r + 2 ^ (stage - 1)) world); [|by apply elem_of_nil in H].
      apply list_elem_of_singleton in H as ->. exists stage. split_and!; [lia|lia|done..].
    + exists st. split_and!; [lia|lia|done..].
  - intros (st & Hst & Hw & ->). destruct (Z.eq_dec st stage) as [->|Hne].
    + left. rewrite (proj2 (Z.ltb_lt _ _) Hw). by left.
    + right. exists st. split_and!; [lia|lia|done..].
Qed.

(** the place of a machine in the tree: when and from whom it hears *)
Definition end_stage (r : Z) : Z := Z.log2 r + 1.
Definition end_source (r : Z) : Z := r - 2 ^ Z.log2 r.

Lemma end_stage_ok r :
  0 < r → 2 ^ (end_stage r - 1) <= r < 2 ^ end_stage r ∧ 1 <= end_stage r ∧
    0 <= end_source r < 2 ^ (end_stage r - 1).
Proof.
  intros Hr. unfold end_stage, end_source. rewrite Z.add_simpl_r.
  pose proof (Z.log2_spec r Hr) as [? Hs]. pose proof (Z.log2_nonneg r).
  rewrite <-Z.add_1_r in Hs. rewrite Z.pow_add_r in Hs by lia.
  replace (2 ^ (Z.log2 r + 1)) with (2 ^ Z.log2 r * 2 ^ 1) by (rewrite Z.pow_add_r; lia).
  lia.
Qed.

Lemma end_stage_unique r st : 1 <= st → 2 ^ (st - 1) <= r < 2 ^ st → st = end_stage r.
Proof.
  intros Hst [Hlo Hhi]. assert (0 < 2 ^ (st - 1)) by (apply Z.pow_pos_nonneg; lia).
  unfold end_stage. rewrite (Z.log2_unique r (st - 1)); [lia|lia|].
  replace (Z.succ (st - 1)) with st by lia. lia.
Qed.

Lemma end_stage_last r : 0 < r < world → end_stage r <= last_stage.
Proof.
  intros Hr. destruct last_stage_ok as (_ & ? & Hw). destruct (end_stage_ok r) as ([Hlo _] & ? & _); [lia|].
  destruct (Z.le_gt_cases (end_stage r) last_stage) as [|Hgt]; [done|].
  assert (2 ^ last_stage <= 2 ^ (end_stage r - 1)) by (apply Z.pow_le_mono_r; lia). lia.
Qed.

Lemma find_source_stages_ok self n : ∀ stage,
  1 <= stage → 2 ^ (stage - 1) <= addr self → addr self < 2 ^ (stage + Z.of_nat n - 1) →
  stage + Z.of_nat n <= 32 →
  find_source_stages self n stage = done_ok (end_source (addr self)).
Proof.
  induction n as [|n IH]; intros stage Hst Hlo Hhi Hn; cbn [find_source_stages].
  { rewrite Z.add_0_r in Hhi. lia. }
  rewrite !power_2 by lia. cbn [via]. rewrite (proj2 (Z.ltb_ge _ _) Hlo).
  rewrite (proj2 (Z.leb_le _ _) Hlo). cbn [andb].
  destruct (Z.ltb_spec (addr self) (2 ^ stage)) as [Hlt|Hge].
  - unfold done_ok. do 2 f_equal. unfold end_source.
    rewrite (Z.log2_unique (addr self) (stage - 1)); [done|lia|].
    replace (Z.succ (stage - 1)) with stage by lia. lia.
  - apply IH; [lia|by rewrite Z.add_simpl_r| |lia].
    replace (stage + 1 + Z.of_nat n - 1) with (stage + Z.of_nat (S n) - 1) by lia. done.
Qed.

Lemma find_source_ok self :
  0 < addr self < world → find_source_collective self world = done_ok (end_source (addr self)).
Proof.
  intros Hr. unfold find_source_collective. destruct last_stage_ok as (-> & ? & Hw).
  apply find_source_stages_ok; [lia|simpl; lia| |lia].
  rewrite Z2Nat.id by lia. replace (1 + last_stage - 1) with last_stage by lia. lia.
Qed.
End Ends.

Lemma sumi_insert f ps k i p p' :
  ps !! i = Some p →
  sumi f k (<[i := p']> ps) = sumi f k ps + (f (k + i)%nat p' - f (k + i)%nat p).
Proof.
  intros Hp. apply (sumi_except f f i _ ps _ k p p'); [by rewrite length_insert|done| |lia|].
  - apply list_lookup_insert_eq. by eapply lookup_lt_Some.
  - intros j q q' Hj Hq Hq'. rewrite list_lookup_insert_ne in Hq' by done. congruence.
Qed.

Lemma sumi_split t f ps k : sumi (upto t f) k ps + sumi (after t f) k ps = total f ps.
Proof.
  rewrite <-sumi_plus, <-(sumi_total f ps k). apply sumi_rel; [done|].
  intros j p p' Hp Hp'. assert (p' = p) as -> by congruence. unfold upto, after.
  destruct (Nat.leb_spec (k + j) t), (Nat.ltb_spec t (k + j)); lia.
Qed.

Lemma sumi_upto_0 f ps p : ps !! 0%nat = Some p → sumi (upto 0 f) 0 ps = f p.
Proof.
  intros Hp. rewrite <-(Z.add_0_l (f p)), <-(sumi_zero ps 0).
  apply (sumi_except _ _ 0 _ ps ps 0 p p); try done.
  intros j q q' Hj _ _. unfold upto. by rewrite (proj2 (Nat.leb_gt _ _)) by (simpl; lia).
Qed.

Lemma total_insert f ps i p p' :
  ps !! i = Some p → total f (<[i := p']> ps) = total f ps + (f p' - f p).
Proof. intros Hp. rewrite <-!(sumi_total f _ 0). by apply (sumi_insert (λ _, f)). Qed.

Lemma total_nonneg f ps : (∀ i p, ps !! i = Some p → 0 <= f p) → 0 <= total f ps.
Proof.
  intros H. rewrite <-(sumi_total f ps 0), <-(sumi_zero ps 0). apply sumi_le. intros j p. apply H.
Qed.

Lemma total_app f ps1 ps2 : total f (ps1 ++ ps2) = total f ps1 + total f ps2.
Proof. induction ps1 as [|p ps1 IH]; [done|]. simpl. rewrite IH. lia. Qed.

Lemma total_elem f ps i p :
  (∀ j q, ps !! j = Some q → 0 <= f q) → ps !! i = Some p → f p <= total f ps.
Proof.
  intros H Hp. rewrite <-(take_drop_middle ps i p Hp), total_app. cbn [total foldr].
  assert (0 <= total f (take i ps)).
  { apply total_nonneg. intros j q [Hq _]%lookup_take_Some. by apply (H j). }
  assert (0 <= total f (drop (S i) ps)).
  { apply total_nonneg. intros j q Hq. rewrite lookup_drop in Hq. by eapply H. }
  unfold total in *. lia.
Qed.

(** ** The invariant of the ring *)

Definition black (p : process) : Prop := is_white (tok (tz p)) = false.

(** messages sent less messages received *)
Definition balance (p : process) : Z := sends p - receives p.

(** a machine counts what its threads have told the tokenizer *)
Record counts_ok (p : process) : Prop := {
  ok_count : count (tok (tz p)) = (sends p - uncounted_sent p) - (receives p - uncounted_received p);
  ok_sent : 0 <= uncounted_sent p <= sends p;
  ok_received : 0 <= uncounted_received p <= receives p;
  ok_inbox : 0 <= inbox p;
  ok_idle : active p = false → uncounted_sent p = 0 ∧ uncounted_received p = 0
}.

(** the tokens that machine [p] holds or will receive *)
Definition tokens_of (p : process) : list token :=
  (if has_global_tok (tz p) then [global_tok (tz p)] else []) ++ arriving p.

(** the token [g], on its way to [t] or held there by a machine that is not the leader *)
Record probe (t : nat) (g : token) (ps : list process) : Prop := {
  probe_lo : - sumi (after t receives) 0 ps <= count g;
  probe_hi : count g <= sumi (after t sends) 0 ps;
  probe_ok :
    ((∀ i p, (t < i)%nat → ps !! i = Some p → active p = false ∧ is_white (tok (tz p)) = true) ∧
     count g = sumi (after t balance) 0 ps) ∨
    0 < sumi (upto t balance) 0 ps + count g ∨
    (∃ i p, (i <= t)%nat ∧ ps !! i = Some p ∧ (black p ∨ 0 < uncounted_received p)) ∨
    type g = BLACK
}.

Ltac proc_cbn := cbn [sent_one on_its_way received_one inbox sends receives uncounted_sent
  uncounted_received Nat.add].

Section Safra.
Context (remotes : list remote).
Context (world_size : 2 <= world remotes <= 2 ^ 30).
Context (remotes_addr : ∀ i m, remotes !! i = Some m → addr m = Z.of_nat i).

Record inv (ps : list process) : Prop := {
  inv_length : length ps = length remotes;
  inv_counts : ∀ i p, ps !! i = Some p → counts_ok p;
  inv_flight : total inbox ps = total balance ps;
  inv_ends : ∀ i p e, ps !! i = Some p → e ∈ ends p →
    (0 < i)%nat ∧ e = (end_source (Z.of_nat i), end_stage (Z.of_nat i)) ∧ quiet ps;
  inv_token : ∃ t g, (t < length ps)%nat ∧
    (∀ i p, ps !! i = Some p → tokens_of p = if (i =? t)%nat then [g] else []) ∧
    ((t = 0%nat ∧ ∃ p, ps !! 0%nat = Some p ∧ has_global_tok (tz p) = true) ∨ probe t g ps)
}.

Lemma total_balance ps : total balance ps = total sends ps - total receives ps.
Proof. unfold balance. induction ps as [|p ps IH]; simpl; lia. Qed.

(** a step of an active machine that leaves its messages *)
Lemma inv_busy ps i p p' :
  inv ps → ps !! i = Some p → active p = true → counts_ok p' →
  inbox p' = inbox p → sends p' = sends p → receives p' = receives p →
  tokens_of p' = tokens_of p → ends p' = ends p →
  has_global_tok (tz p') = has_global_tok (tz p) →
  (black p ∨ 0 < uncounted_received p → black p' ∨ 0 < uncounted_received p') →
  inv (<[i := p']> ps).
Proof.
  intros Hm Hp Ha Hc Hin Hs Hr Ht He Hh Hb.
  assert (Hl : ∀ j q', <[i := p']> ps !! j = Some q' →
    ∃ q, ps !! j = Some q ∧ (q' = q ∨ j = i ∧ q = p ∧ q' = p')).
  { intros j q' [(-> & -> & _)|[_ Hq]]%list_lookup_insert_Some; [exists p|exists q']; eauto. }
  assert (Hsum : ∀ f t, (f p' = f p) → sumi (upto t f) 0 (<[i:=p']> ps) = sumi (upto t f) 0 ps ∧
     sumi (after t f) 0 (<[i:=p']> ps) = sumi (after t f) 0 ps).
  { intros f t Hf. rewrite !(sumi_insert _ ps 0 i p p' Hp). unfold upto, after. rewrite Hf.
    split; destruct (_ : bool); lia. }
  assert (Hbal : balance p' = balance p) by (unfold balance; congruence).
  assert (Hnoends : ∀ j q e, ps !! j = Some q → e ∉ ends q).
  { intros j q e Hq Hin'. destruct (inv_ends ps Hm j q e Hq Hin') as (_ & _ & Hqu).
    destruct (Hqu i p Hp). congruence. }
  split.
  - rewrite length_insert. apply Hm.
  - intros j q' Hq'. destruct (Hl j q' Hq') as (q & Hq & [->|(_ & _ & ->)]); [by apply (inv_counts ps Hm j)|done].
  - rewrite !(total_insert _ ps i p p' Hp), Hin, Hbal, (inv_flight ps Hm). lia.
  - intros j q' e Hq' Hin'. exfalso. destruct (Hl j q' Hq') as (q & Hq & [->|(-> & -> & ->)]).
    + by apply (Hnoends j q e).
    + rewrite He in Hin'. by apply (Hnoends i p e).
  - destruct (inv_token ps Hm) as (t & g & Hlt & Htok & Hprobe). exists t, g. rewrite length_insert.
    split; [done|]. split.
    { intros j q' Hq'. destruct (Hl j q' Hq') as (q & Hq & [->|(-> & -> & ->)]); [by apply Htok|].
      rewrite Ht. by apply Htok. }
    destruct Hprobe as [(-> & p0 & Hp0 & Hh0)|Hprobe]; [left|right].
    + split; [done|]. destruct (decide (i = 0)%nat) as [->|Hi].
      * exists p'. rewrite list_lookup_insert_eq by (by eapply lookup_lt_Some).
        rewrite Hh. split; [done|congruence].
      * exists p0. by rewrite list_lookup_insert_ne.
    + destruct Hprobe as [Hlo Hhi Hok].
      split; [by rewrite (proj2 (Hsum receives t Hr))|by rewrite (proj2 (Hsum sends t Hs))|].
      rewrite (proj1 (Hsum balance t Hbal)), (proj2 (Hsum balance t Hbal)).
      destruct Hok as [[Hidle Hcg]|[?|[(j & q & Hj & Hq & Hbq)|?]]]; [left|by right; left|right; right; left|by do 3 right].
      * split; [|done]. intros j q' Htj Hq'.
        destruct (Hl j q' Hq') as (q & Hq & [->|(-> & -> & ->)]); [by apply (Hidle j)|].
        destruct (Hidle i p Htj Hp). congruence.
      * destruct (decide (j = i)) as [->|Hji].
        -- exists i, p'. rewrite list_lookup_insert_eq by (by eapply lookup_lt_Some).
           split_and!; [done..|]. apply Hb. congruence.
        -- exists j, q. by rewrite list_lookup_insert_ne.
Qed.

Lemma no_ends ps i p :
  inv ps → ps !! i = Some p → active p = true ∨ 0 < inbox p →
  ∀ j q e, ps !! j = Some q → e ∉ ends q.
Proof.
  intros Hm Hp Ha j q e Hq He. destruct (inv_ends ps Hm j q e Hq He) as (_ & _ & Hqu).
  destruct (Hqu i p Hp) as (? & ? & _). destruct Ha; [congruence|lia].
Qed.

Lemma inv_send ps i j p q :
  inv ps → ps !! i = Some p → ps !! j = Some q → active p = true → i ≠ j →
  inv (<[j := on_its_way q]> (<[i := sent_one p]> ps)).
Proof.
  intros Hm Hp Hq Ha Hij. set (ps' := <[j := _]> _).
  assert (Hl : ∀ k r', ps' !! k = Some r' → ∃ r, ps !! k = Some r ∧
    (r' = r ∨ (k = i ∧ r = p ∧ r' = sent_one p) ∨ (k = j ∧ r = q ∧ r' = on_its_way q))).
  { intros k r' [(-> & -> & _)|[_ [(-> & -> & _)|[_ Hr]]%list_lookup_insert_Some]]%list_lookup_insert_Some;
      [exists q|exists p|exists r']; naive_solver. }
  assert (Hq1 : <[i:=sent_one p]> ps !! j = Some q) by (by rewrite list_lookup_insert_ne).
  assert (Hsum : ∀ f k, sumi f k ps' = sumi f k ps + (f (k + i)%nat (sent_one p) - f (k + i)%nat p)
    + (f (k + j)%nat (on_its_way q) - f (k + j)%nat q)).
  { intros f k. unfold ps'. by rewrite (sumi_insert f _ k j q _ Hq1), (sumi_insert f ps k i p _ Hp). }
  assert (Hsumt : ∀ f, total f ps' = total f ps + (f (sent_one p) - f p) + (f (on_its_way q) - f q)).
  { intros f. rewrite <-!(sumi_total f _ 0). apply (Hsum (λ _, f)). }
  pose proof (no_ends ps i p Hm Hp (or_introl Ha)) as Hne. split.
  - unfold ps'. rewrite !length_insert. apply Hm.
  - intros k r' Hr'. destruct (Hl k r' Hr') as (r & Hr & Hc).
    destruct (inv_counts ps Hm k r Hr).
    destruct Hc as [->|[(-> & -> & ->)|(-> & -> & ->)]]; [done|split; cbn; try lia; congruence..| ].
    split; cbn; try done; lia.
  - rewrite !Hsumt, (inv_flight ps Hm). unfold balance. cbn. lia.
  - intros k r' e Hr' He. exfalso. destruct (Hl k r' Hr') as (r & Hr & Hc).
    apply (Hne k r e Hr). by destruct Hc as [->|[(-> & -> & ->)|(-> & -> & ->)]].
  - destruct (inv_token ps Hm) as (t & g & Hlt & Htok & Hprobe). exists t, g.
    assert (length ps' = length ps) as -> by (unfold ps'; by rewrite !length_insert).
    split; [done|]. split.
    { intros k r' Hr'. destruct (Hl k r' Hr') as (r & Hr & Hc). rewrite <-(Htok k r Hr).
      by destruct Hc as [->|[(-> & -> & ->)|(-> & -> & ->)]]. }
    destruct Hprobe as [(-> & p0 & Hp0 & Hh0)|[Hlo Hhi Hok]]; [left|right].
    { split; [done|]. destruct (lookup_lt_is_Some_2 ps' 0%nat) as [r' Hr'].
      { unfold ps'. rewrite !length_insert. lia. }
      exists r'. split; [done|]. destruct (Hl _ _ Hr') as (r & Hr & Hc). assert (r = p0) as -> by congruence.
      by destruct Hc as [->|[(_ & <- & ->)|(_ & <- & ->)]]. }
    split; [| |destruct Hok as [[Hidle Hcg]|[Hpos|[(k & r & Hk & Hr & Hb)|?]]];
               [left|right; left|right; right; left|by do 3 right]].
    + rewrite Hsum. unfold after in *. proc_cbn. destruct (t <? i)%nat, (t <? j)%nat; lia.
    + rewrite Hsum. unfold after in *. proc_cbn. destruct (t <? i)%nat, (t <? j)%nat; lia.
    + split.
      * intros k r' Htk Hr'. destruct (Hl k r' Hr') as (r & Hr & Hc).
        destruct (Hidle k r Htk Hr). by destruct Hc as [->|[(-> & -> & ->)|(-> & -> & ->)]].
      * rewrite Hsum, Hcg. unfold after, balance. proc_cbn.
        destruct (Nat.ltb_spec t i) as [Hti|Hti]; [destruct (Hidle i p Hti Hp); congruence|].
        destruct (t <? j)%nat; lia.
    + rewrite Hsum. unfold upto, balance in *. proc_cbn. destruct (i <=? t)%nat, (j <=? t)%nat; lia.
    + destruct (lookup_lt_is_Some_2 ps' k) as [r' Hr'].
      { unfold ps'. rewrite !length_insert. by eapply lookup_lt_Some. }
      exists k, r'. split_and!; [done..|]. destruct (Hl k r' Hr') as (r1 & Hr1 & Hc).
      assert (r1 = r) as -> by congruence.
      by destruct Hc as [->|[(-> & -> & ->)|(-> & -> & ->)]].
Qed.

Lemma inv_receive ps i p :
  inv ps → ps !! i = Some p → 0 < inbox p → inv (<[i := received_one p]> ps).
Proof.
  intros Hm Hp Hin. set (ps' := <[i := _]> _).
  assert (Hl : ∀ k r', ps' !! k = Some r' → ∃ r, ps !! k = Some r ∧
    (k ≠ i ∧ r' = r ∨ (k = i ∧ r = p ∧ r' = received_one p))).
  { intros k r' [(-> & -> & _)|[? Hr]]%list_lookup_insert_Some; [exists p|exists r']; naive_solver. }
  assert (Hsum : ∀ f k, sumi f k ps' = sumi f k ps + (f (k + i)%nat (received_one p) - f (k + i)%nat p))
    by (intros; by apply sumi_insert).
  assert (Hsumt : ∀ f, total f ps' = total f ps + (f (received_one p) - f p))
    by (intros; by apply total_insert).
  assert (Hi' : ps' !! i = Some (received_one p))
    by (apply list_lookup_insert_eq; by eapply lookup_lt_Some).
  pose proof (no_ends ps i p Hm Hp (or_intror Hin)) as Hne. split.
  - unfold ps'. rewrite length_insert. apply Hm.
  - intros k r' Hr'. destruct (Hl k r' Hr') as (r & Hr & Hc).
    destruct (inv_counts ps Hm k r Hr).
    destruct Hc as [[_ ->]|(-> & -> & ->)]; [done|]. split; cbn; try lia; done.
  - rewrite !Hsumt, (inv_flight ps Hm). unfold balance. cbn. lia.
  - intros k r' e Hr' He. exfalso. destruct (Hl k r' Hr') as (r & Hr & Hc).
    apply (Hne k r e Hr). by destruct Hc as [[_ ->]|(-> & -> & ->)].
  - destruct (inv_token ps Hm) as (t & g & Hlt & Htok & Hprobe). exists t, g.
    assert (length ps' = length ps) as -> by (unfold ps'; by rewrite length_insert).
    split; [done|]. split.
    { intros k r' Hr'. destruct (Hl k r' Hr') as (r & Hr & Hc). rewrite <-(Htok k r Hr).
      by destruct Hc as [[_ ->]|(-> & -> & ->)]. }
    destruct Hprobe as [(-> & p0 & Hp0 & Hh0)|[Hlo Hhi Hok]]; [left|right].
    { split; [done|]. destruct (lookup_lt_is_Some_2 ps' 0%nat) as [r' Hr'].
      { unfold ps'. rewrite length_insert. lia. }
      exists r'. split; [done|]. destruct (Hl _ _ Hr') as (r & Hr & Hc). assert (r = p0) as -> by congruence.
      by destruct Hc as [[_ ->]|(_ & <- & ->)]. }
    pose proof (sumi_split t balance ps 0) as Hsplit. pose proof (inv_flight ps Hm) as Hfl.
    assert (Hpos : 0 < total inbox ps).
    { pose proof (total_elem inbox ps i p (λ j q Hq, ok_inbox q (inv_counts ps Hm j q Hq)) Hp). lia. }
    split; [rewrite Hsum; unfold after in *; proc_cbn; destruct (t <? i)%nat; lia
           |rewrite Hsum; unfold after in *; proc_cbn; destruct (t <? i)%nat; lia|].
    (* a machine that the token has yet to visit is black *)
    destruct (Nat.leb_spec i t) as [Hit|Hit].
    { destruct Hok as [[Hidle Hcg]|[?|[?|?]]]; [left|right; right; left..|by do 3 right].
      - split.
        + intros k r' Htk Hr'. destruct (Hl k r' Hr') as (r & Hr & [[_ ->]|(-> & _)]); [by apply (Hidle k)|lia].
        + rewrite Hsum, Hcg. unfold after. rewrite (proj2 (Nat.ltb_ge _ _)) by lia. lia.
      - exists i, (received_one p). split_and!; [done..|]. right. cbn.
        destruct (inv_counts ps Hm i p Hp). lia.
      - exists i, (received_one p). split_and!; [done..|]. right. cbn.
        destruct (inv_counts ps Hm i p Hp). lia. }
    assert (Hup : sumi (upto t balance) 0 ps' = sumi (upto t balance) 0 ps).
    { rewrite Hsum. unfold upto. rewrite (proj2 (Nat.leb_gt _ _)) by lia. lia. }
    destruct Hok as [[Hidle Hcg]|[?|[(k & r & Hk & Hr & Hb)|?]]];
      [right; left|right; left|right; right; left|by do 3 right].
    + rewrite Hup, Hcg. lia.
    + by rewrite Hup.
    + exists k, r. split_and!; [done| |done]. unfold ps'. rewrite list_lookup_insert_ne by lia. done.
Qed.

Lemma start_ring : inv (start_process <$> remotes).
Proof.
  assert (Hl : ∀ i p, (start_process <$> remotes) !! i = Some p →
    ∃ m, addr m = Z.of_nat i ∧ p = start_process m).
  { intros i p. rewrite list_lookup_fmap. intros (m & Hm & ->)%fmap_Some. eauto. }
  assert (Hz : ∀ f ms, (∀ m, f (start_process m) = 0) → total f (start_process <$> ms) = 0).
  { intros f ms Hf. induction ms as [|m ms IH]; [done|].
    change (f (start_process m) + total f (start_process <$> ms) = 0). by rewrite Hf, IH. }
  split.
  - by rewrite length_fmap.
  - intros i p Hp. destruct (Hl i p Hp) as (m & _ & ->). unfold start_process, tokenizer_init.
    destruct (is_leader m); split; cbn; lia || done.
  - by rewrite !Hz.
  - intros i p e Hp. destruct (Hl i p Hp) as (m & _ & ->). cbn. by intros ?%elem_of_nil.
  - unfold world in world_size.
    destruct (lookup_lt_is_Some_2 (start_process <$> remotes) 0%nat) as [p0 Hp0];
      [rewrite length_fmap; lia|].
    exists 0%nat, (global_tok (tz p0)). split; [rewrite length_fmap; lia|]. split.
    + intros i p Hp. destruct (Hl i p Hp) as (m & Hm & ->).
      unfold start_process, tokenizer_init, is_leader, LEADER_RANK. rewrite Hm.
      destruct i as [|i].
      * assert (p0 = start_process m) as -> by congruence.
        unfold start_process, tokenizer_init, is_leader, LEADER_RANK. by rewrite Hm.
      * by rewrite (proj2 (Z.eqb_neq _ _)) by lia.
    + left. split; [done|]. exists p0. split; [done|]. destruct (Hl _ p0 Hp0) as (m & Hm & ->).
      unfold start_process, tokenizer_init, is_leader, LEADER_RANK. by rewrite Hm.
Qed.

(** *** Polls *)

Lemma deliver_lookup i l z m ps j p' :
  deliver i l z m ps !! j = Some p' → ∃ p, ps !! j = Some p ∧ p' = deliver_one i l z m j p.
Proof. unfold deliver. rewrite list_lookup_imap. intros (p & ? & ->)%fmap_Some. eauto. Qed.

Lemma deliver_sumi i l z m ps f k :
  (∀ n q q', sends q' = sends q → receives q' = receives q → inbox q' = inbox q → f n q' = f n q) →
  sumi f k (deliver i l z m ps) = sumi f k ps.
Proof.
  intros Hf. apply sumi_rel; [unfold deliver; by rewrite length_imap|].
  intros j p p' (q & Hq & ->)%deliver_lookup Hp'. assert (p' = q) as -> by congruence. by apply Hf.
Qed.

Lemma deliver_sums i l z m ps t :
  sumi (after t receives) 0 (deliver i l z m ps) = sumi (after t receives) 0 ps ∧
  sumi (after t sends) 0 (deliver i l z m ps) = sumi (after t sends) 0 ps ∧
  sumi (after t balance) 0 (deliver i l z m ps) = sumi (after t balance) 0 ps ∧
  sumi (upto t balance) 0 (deliver i l z m ps) = sumi (upto t balance) 0 ps.
Proof.
  split_and!; apply deliver_sumi; intros n q q' Hs Hr _; unfold after, upto, balance;
    by rewrite ?Hs, ?Hr.
Qed.

Lemma deliver_total i l z m ps f :
  (∀ q q', sends q' = sends q → receives q' = receives q → inbox q' = inbox q → f q' = f q) →
  total f (deliver i l z m ps) = total f ps.
Proof. intros Hf. rewrite <-!(sumi_total f _ 0). apply deliver_sumi. intros _. apply Hf. Qed.

Lemma quiet_deliver i l z m ps :
  quiet ps → is_white (tok z) = true → quiet (deliver i l z m ps).
Proof.
  intros Hq Hz j p' (p & Hp & ->)%deliver_lookup. destruct (Hq j p Hp) as (? & ? & ?).
  cbn. split_and!; [done..|]. by destruct (j =? i)%nat.
Qed.

(** what a poll does to the messages, apart from the token *)
Record poll_ok (i : nat) (p : process) (ps : list process) (z : tokenizer) (m : mail) : Prop := {
  poll_count : count (tok z) = count (tok (tz p));
  poll_white : is_white (tok (tz p)) = true → is_white (tok z) = true;
  poll_end_in : ∀ e, e ∈ end_in m → e ∈ ends p;
  poll_quiet : end_out m ≠ [] → quiet ps;
  poll_end_out : ∀ j st, (Z.of_nat j, st) ∈ end_out m →
    (0 < j)%nat ∧ Z.of_nat i = end_source (Z.of_nat j) ∧ st = end_stage (Z.of_nat j)
}.

Definition token_ok (ps : list process) : Prop :=
  ∃ t g, (t < length ps)%nat ∧
    (∀ j p, ps !! j = Some p → tokens_of p = if (j =? t)%nat then [g] else []) ∧
    ((t = 0%nat ∧ ∃ p, ps !! 0%nat = Some p ∧ has_global_tok (tz p) = true) ∨ probe t g ps).

Lemma inv_deliver ps i p l z m :
  inv ps → ps !! i = Some p → poll_ok i p ps z m →
  token_ok (deliver i l z m ps) → inv (deliver i l z m ps).
Proof.
  intros Hm Hp [Hc Hw Hin Hqu Hout] Htok. split.
  - unfold deliver. rewrite length_imap. apply Hm.
  - intros j p' (q & Hq & ->)%deliver_lookup. destruct (inv_counts ps Hm j q Hq).
    split; cbn; try done. destruct (Nat.eqb_spec j i) as [->|]; [|done].
    assert (q = p) as -> by congruence. by rewrite Hc.
  - rewrite !deliver_total; [apply Hm|by intros; unfold balance; congruence|done].
  - intros j p' e (q & Hq & ->)%deliver_lookup He. cbn in He. apply elem_of_app in He.
    assert (Hqz : quiet ps → quiet (deliver i l z m ps)).
    { intros Hqq. apply quiet_deliver; [done|]. apply Hw. by destruct (Hqq i p Hp) as (_ & _ & ?). }
    destruct He as [He|He].
    + assert (He' : e ∈ ends q).
      { destruct (Nat.eqb_spec j i) as [->|]; [|done]. assert (q = p) as -> by congruence. by apply Hin. }
      destruct (inv_ends ps Hm j q e Hq He') as (? & ? & ?). eauto.
    + apply list_elem_of_fmap_1 in He as ([tg st] & -> & [Hj Hel]%list_elem_of_filter).
      cbn in Hj |- *. subst tg. destruct (Hout j st Hel) as (? & -> & ->).
      split_and!; [done..|]. apply Hqz, Hqu. intros E. rewrite E in Hel. by apply elem_of_nil in Hel.
  - apply Htok.
Qed.

(** a poll that does not pass the token on *)
Lemma token_keep ps i p l z m :
  inv ps → ps !! i = Some p → token_out m = [] → tok z = tok (tz p) →
  (has_global_tok (tz p) = true → has_global_tok z = true) →
  (if has_global_tok z then [global_tok z] else []) ++ token_in m = tokens_of p →
  token_ok (deliver i l z m ps).
Proof.
  intros Hm Hp Hout Hz Hh Ht. destruct (inv_token ps Hm) as (t & g & Hlt & Htok & Hpr).
  exists t, g. split; [unfold deliver; by rewrite length_imap|]. split.
  { intros j p' (q & Hq & ->)%deliver_lookup. unfold tokens_of. cbn. rewrite Hout.
    rewrite <-(Htok j q Hq). destruct (Nat.eqb_spec j i) as [->|].
    - assert (q = p) as -> by congruence. destruct (i =? l)%nat; by rewrite app_nil_r.
    - destruct (j =? l)%nat; by rewrite app_nil_r. }
  destruct Hpr as [(-> & p0 & Hp0 & Hh0)|[Hlo Hhi Hok]]; [left|right].
  - split; [done|]. exists (deliver_one i l z m 0 p0). split.
    + unfold deliver. by rewrite list_lookup_imap, Hp0.
    + cbn. destruct i as [|i]; [|done]. apply Hh. congruence.
  - destruct (deliver_sums i l z m ps t) as (Er & Es & Eb & Eu).
    split; rewrite ?Er, ?Es, ?Eb, ?Eu; [done..|].
    destruct Hok as [[Hidle Hcg]|[?|[(j & q & Hj & Hq & Hb)|?]]];
      [left|by right; left|right; right; left|by do 3 right].
    + split; [|done]. intros j p' Htj (q & Hq & ->)%deliver_lookup. destruct (Hidle j q Htj Hq).
      cbn. split; [done|]. destruct (Nat.eqb_spec j i) as [->|]; [|done].
      assert (q = p) as -> by congruence. by rewrite Hz.
    + exists j, (deliver_one i l z m j q). split_and!; [done| |].
      * unfold deliver. by rewrite list_lookup_imap, Hq.
      * unfold black in *. cbn. destruct (Nat.eqb_spec j i) as [->|]; [|done].
        assert (q = p) as -> by congruence. by rewrite Hz.
Qed.

Lemma sums_pred ps i p f :
  ps !! S i = Some p →
  sumi (after i f) 0 ps = sumi (after (S i) f) 0 ps + f p ∧
  sumi (upto (S i) f) 0 ps = sumi (upto i f) 0 ps + f p.
Proof.
  intros Hp. split; apply (sumi_except _ _ (S i) _ ps ps 0 p p); try done;
    unfold after, upto; cbn [Nat.add].
  - rewrite (proj2 (Nat.ltb_lt _ _)), (proj2 (Nat.ltb_ge _ _)) by lia. lia.
  - intros j q q' Hj Hq Hq'. assert (q' = q) as -> by congruence.
    destruct (Nat.ltb_spec i j), (Nat.ltb_spec (S i) j); done || lia.
  - rewrite (proj2 (Nat.leb_le _ _)), (proj2 (Nat.leb_gt _ _)) by lia. lia.
  - intros j q q' Hj Hq Hq'. assert (q' = q) as -> by congruence.
    destruct (Nat.leb_spec j i), (Nat.leb_spec j (S i)); done || lia.
Qed.

(** where the token is *)
Lemma token_at ps i p :
  inv ps → ps !! i = Some p → tokens_of p ≠ [] →
  ∃ g, tokens_of p = [g] ∧
    (∀ j q, ps !! j = Some q → tokens_of q = if (j =? i)%nat then [g] else []) ∧
    ((i = 0%nat ∧ has_global_tok (tz p) = true) ∨ probe i g ps).
Proof.
  intros Hm Hp Hne. destruct (inv_token ps Hm) as (t & g & Hlt & Htok & Hpr).
  rewrite (Htok i p Hp) in Hne. destruct (Nat.eqb_spec i t) as [->|]; [|done].
  exists g. rewrite (Htok t p Hp), Nat.eqb_refl. split_and!; [done..|].
  destruct Hpr as [(-> & p0 & Hp0 & Hh)|?]; [left|by right]. split; [done|congruence].
Qed.

(** the token goes from machine [i] to its left *)
Lemma tokens_moved ps i l p z m g g' :
  (∀ j q, ps !! j = Some q → tokens_of q = if (j =? i)%nat then [g] else []) →
  ps !! i = Some p → l ≠ i → has_global_tok z = false → token_in m = [] → token_out m = [g'] →
  ∀ j q', deliver i l z m ps !! j = Some q' → tokens_of q' = if (j =? l)%nat then [g'] else [].
Proof.
  intros Htok Hp Hl Hh Hin Hout j q' (q & Hq & ->)%deliver_lookup. unfold tokens_of. cbn.
  rewrite Hin, Hout. pose proof (Htok j q Hq) as Hj. destruct (Nat.eqb_spec j i) as [->|Hji].
  - rewrite Hh. by rewrite (proj2 (Nat.eqb_neq i l)) by lia.
  - apply app_nil in Hj as [-> ->]. by destruct (j =? l)%nat.
Qed.

Lemma token_pass ps i p z m g g' :
  inv ps → ps !! S i = Some p → active p = false →
  (∀ j q, ps !! j = Some q → tokens_of q = if (j =? S i)%nat then [g] else []) → probe (S i) g ps →
  has_global_tok z = false → token_in m = [] → token_out m = [g'] →
  count g' = count g + count (tok (tz p)) →
  type g' = BLACK ∨ type g' = type g ∧ is_white (tok (tz p)) = true ∧ is_white (tok z) = true →
  (is_white (tok (tz p)) = true → is_white (tok z) = true) →
  token_ok (deliver (S i) i z m ps).
Proof.
  intros Hm Hp Ha Htok [Hlo Hhi Hok] Hh Hin Hout Hcount Htype Hwhite.
  exists i, g'. assert (Hlt : (S i < length ps)%nat) by (by eapply lookup_lt_Some).
  split; [unfold deliver; rewrite length_imap; lia|].
  split; [by apply (tokens_moved ps (S i) i p z m g g'); [done|done|lia|..]|right].
  destruct (inv_counts ps Hm _ p Hp) as [Hc ? ? ? Hidle]. destruct (Hidle Ha) as [Hus Hur].
  assert (Hb : balance p = count (tok (tz p))) by (unfold balance; lia).
  destruct (deliver_sums (S i) i z m ps i) as (Er & Es & Eb & Eu).
  destruct (sums_pred ps i p receives Hp) as [Hr _]. destruct (sums_pred ps i p sends Hp) as [Hs _].
  destruct (sums_pred ps i p balance Hp) as [Hba Hbu].
  split; rewrite ?Er, ?Es, ?Eb, ?Eu; [lia..|].
  destruct Htype as [Hblack|(Htype & Hw & Hwz)]; [by do 3 right|].
  destruct Hok as [[Hrest Hcg]|[Hpos|[(j & q & Hj & Hq & Hbq)|Hbl]]];
    [left|right; left|right; right; left|do 3 right].
  - split; [|lia]. intros j q' Hj (q & Hq & ->)%deliver_lookup. cbn.
    destruct (Nat.eqb_spec j (S i)) as [->|Hne].
    + assert (q = p) as -> by congruence. done.
    + apply (Hrest j q); [lia|done].
  - lia.
  - destruct (decide (j = S i)) as [->|Hne].
    { assert (q = p) as -> by congruence. exfalso. unfold black in Hbq. destruct Hbq; [congruence|lia]. }
    exists j, (deliver_one (S i) i z m j q). split_and!; [lia| |].
    + unfold deliver. by rewrite list_lookup_imap, Hq.
    + unfold black in *. cbn. by rewrite (proj2 (Nat.eqb_neq j (S i))).
  - congruence.
Qed.

(** the leader starts a round *)
Lemma token_start ps l p z m g g' :
  inv ps → ps !! 0%nat = Some p → S l = length ps → l ≠ 0%nat →
  (∀ j q, ps !! j = Some q → tokens_of q = if (j =? 0)%nat then [g] else []) →
  has_global_tok z = false → token_in m = [] → token_out m = [g'] → count g' = 0 →
  token_ok (deliver 0 l z m ps).
Proof.
  intros Hm Hp Hl Hl0 Htok Hh Hin Hout Hcount. exists l, g'.
  split; [unfold deliver; rewrite length_imap; lia|].
  split; [by apply (tokens_moved ps 0 l p z m g g')|right].
  assert (Hz : ∀ f, sumi (after l f) 0 ps = 0).
  { intros f. rewrite <-(sumi_zero ps 0). apply sumi_rel; [done|]. intros j q q' Hq _. unfold after.
    rewrite (proj2 (Nat.ltb_ge _ _)); [done|]. apply lookup_lt_Some in Hq. simpl. lia. }
  destruct (deliver_sums 0 l z m ps l) as (Er & Es & Eb & Eu).
  split; rewrite ?Er, ?Es, ?Eb, ?Eu, ?Hz; [lia..|]. left. split; [|done].
  intros j q' Hj (q & Hq & _)%deliver_lookup. apply lookup_lt_Some in Hq. lia.
Qed.

(** *** What a poll does

    The counts stay in range while fewer than 2^31 sets of messages have been sent. *)

Definition few (ps : list process) : Prop := total sends ps < 2 ^ 31.

Lemma totals_range ps :
  inv ps → few ps →
  (∀ t, 0 <= sumi (after t receives) 0 ps ∧ sumi (after t receives) 0 ps <= total receives ps) ∧
  (∀ t, 0 <= sumi (after t sends) 0 ps ∧ sumi (after t sends) 0 ps <= total sends ps) ∧
  total receives ps <= total sends ps < 2 ^ 31.
Proof.
  intros Hm Hfew. assert (Hc := inv_counts ps Hm).
  assert (H : ∀ f t, (∀ j q, ps !! j = Some q → 0 <= f q) →
    0 <= sumi (after t f) 0 ps ∧ sumi (after t f) 0 ps <= total f ps).
  { intros f t Hf. split.
    - rewrite <-(sumi_zero ps 0). apply sumi_le. intros j q Hq. unfold after.
      destruct (_ <? _)%nat; [by eapply Hf|lia].
    - rewrite <-(sumi_total f ps 0). apply sumi_le. intros j q Hq. unfold after.
      pose proof (Hf j q Hq). destruct (_ <? _)%nat; lia. }
  split; [|split]; [intros t; apply H; intros j q Hq; destruct (Hc j q Hq); lia..|].
  assert (0 <= total inbox ps) by (apply total_nonneg; intros j q Hq; destruct (Hc j q Hq); lia).
  rewrite (inv_flight ps Hm), total_balance in *. unfold few in Hfew. lia.
Qed.

(** adding the count of a machine to the token that visits it *)
Lemma add_count_ok ps i p g :
  inv ps → few ps → ps !! i = Some p → active p = false → probe i g ps →
  add_count (get_count (tok (tz p))) g = Ok (mk_token (type g) (count g + count (tok (tz p)))).
Proof.
  intros Hm Hfew Hp Ha [Hlo Hhi _]. destruct (totals_range ps Hm Hfew) as (Hr & Hs & Htot).
  destruct (inv_counts ps Hm i p Hp) as [Hc ? ? ? Hidle]. destruct (Hidle Ha) as [Hus Hur].
  assert (Hsplit : ∀ f, (∀ j q, ps !! j = Some q → 0 <= f q) → sumi (after i f) 0 ps + f p <= total f ps).
  { intros f Hf. rewrite <-(sumi_split i f ps 0).
    assert (f p <= sumi (upto i f) 0 ps); [|lia].
    rewrite <-(Z.add_0_l (f p)), <-(sumi_zero ps 0).
    rewrite <-(sumi_except (λ _ _, 0) (λ j q, if (j =? i)%nat then f q else 0) i (f p) ps ps 0 p p);
      [|done|done|done|by rewrite Nat.add_0_l, Nat.eqb_refl|].
    - apply sumi_le. intros j q Hq. unfold upto. simpl.
      destruct (Nat.eqb_spec j i) as [->|]; [by rewrite Nat.leb_refl|].
      pose proof (Hf j q Hq). destruct (_ <=? _)%nat; lia.
    - intros j q q' Hj _ _. simpl. by rewrite (proj2 (Nat.eqb_neq j i)). }
  pose proof (Hsplit sends) as H1. pose proof (Hsplit receives) as H2.
  assert (Hn : ∀ j q, ps !! j = Some q → 0 <= sends q ∧ 0 <= receives q)
    by (intros j q Hq; destruct (inv_counts ps Hm j q Hq); lia).
  specialize (H1 (λ j q Hq, proj1 (Hn j q Hq))). specialize (H2 (λ j q Hq, proj2 (Hn j q Hq))).
  unfold add_count, get_count, add_int, in_signed.
  rewrite (proj2 (Z.leb_le _ _)), (proj2 (Z.ltb_lt _ _)) by lia. done.
Qed.

(** The leader that reads a white token of count zero, white itself: all is quiet. *)
Lemma decided_quiet ps p g :
  inv ps → ps !! 0%nat = Some p → active p = false → probe 0 g ps →
  is_white g = true → count g + count (tok (tz p)) = 0 → is_white (tok (tz p)) = true → quiet ps.
Proof.
  intros Hm Hp Ha [_ _ Hok] Hg Hzero Hw.
  destruct (inv_counts ps Hm _ p Hp) as [Hc ? ? ? Hidle]. destruct (Hidle Ha) as [Hus Hur].
  pose proof (sumi_upto_0 balance ps p Hp) as Hup.
  unfold balance in Hup at 2.
  destruct Hok as [[Hrest Hcg]|[Hpos|[(j & q & Hj & Hq & Hb)|Hbl]]].
  - pose proof (sumi_split 0 balance ps 0) as Hsplit. pose proof (inv_flight ps Hm) as Hfl.
    intros j q Hq. destruct j as [|j].
    + assert (q = p) as -> by congruence. split_and!; [done| |done].
      pose proof (total_elem inbox ps 0 p (λ j q Hq, ok_inbox q (inv_counts ps Hm j q Hq)) Hp). lia.
    + destruct (Hrest (S j) q) as [? ?]; [lia|done|]. split_and!; [done| |done].
      pose proof (total_elem inbox ps (S j) q (λ j q Hq, ok_inbox q (inv_counts ps Hm j q Hq)) Hq).
      pose proof (ok_inbox q (inv_counts ps Hm _ q Hq)). lia.
  - lia.
  - assert (j = 0%nat) as -> by lia. assert (q = p) as -> by congruence.
    unfold black in Hb. destruct Hb; [congruence|lia].
  - unfold is_white, WHITE in Hg. rewrite Hbl in Hg. done.
Qed.

Lemma left_ok i m :
  remotes !! i = Some m →
  Z.to_nat (left_remote_id (world remotes) m) = match i with O => (length remotes - 1)%nat | S i => i end.
Proof.
  intros Hm. unfold left_remote_id. rewrite (remotes_addr i m Hm). unfold world in *.
  destruct i as [|i].
  - change (Z.of_nat 0 =? 0) with true. cbv iota. rewrite swrap_id; [lia|lia|].
    change (2 ^ (32 - 1)) with (2 * 2 ^ 30). lia.
  - rewrite (proj2 (Z.eqb_neq _ _)) by lia. lia.
Qed.

Lemma is_leader_ok i m : remotes !! i = Some m → is_leader m = (i =? 0)%nat.
Proof.
  intros Hm. unfold is_leader, LEADER_RANK. rewrite (remotes_addr i m Hm).
  by destruct i as [|i]; [|rewrite (proj2 (Z.eqb_neq _ _)) by lia].
Qed.

(** what machine [i] hears is from its source *)
Lemma take_end_ok ps i p :
  inv ps → ps !! i = Some p →
  take_end (end_source (Z.of_nat i)) (ends p) =
    match ends p with [] => None | e :: es => Some (end_stage (Z.of_nat i), es) end.
Proof.
  intros Hm Hp. destruct (ends p) as [|e es] eqn:E; [done|]. cbn [take_end].
  destruct (inv_ends ps Hm i p e Hp) as (_ & -> & _); [rewrite E; by left|]. by rewrite Z.eqb_refl.
Qed.

(** the ends that machine [i] sends go where they are listened to *)
Lemma ends_from_ok i stage j st :
  0 <= Z.of_nat i < 2 ^ (stage - 1) → 1 <= stage →
  (Z.of_nat j, st) ∈ ends_from (world remotes) (Z.of_nat i) stage →
  (0 < j)%nat ∧ Z.of_nat i = end_source (Z.of_nat j) ∧ st = end_stage (Z.of_nat j).
Proof.
  intros Hi Hst (st' & Hst' & Hw & [= Hj ->])%elem_of_end_sends.
  assert (0 < 2 ^ (st' - 1)) by (apply Z.pow_pos_nonneg; lia).
  assert (2 ^ (stage - 1) <= 2 ^ (st' - 1)) by (apply Z.pow_le_mono_r; lia).
  assert (Hpow : 2 ^ st' = 2 ^ (st' - 1) * 2 ^ 1) by (rewrite <-Z.pow_add_r by lia; f_equal; lia).
  split; [lia|]. assert (st' = end_stage (Z.of_nat j)) as Heq.
  { apply end_stage_unique; lia. }
  split; [|done]. unfold end_source. replace (Z.log2 (Z.of_nat j)) with (st' - 1); [lia|].
  rewrite Heq. unfold end_stage. lia.
Qed.

(** the answer of a poll: what machine [i] is after it, and the machines with its mail *)
Definition polled (ps : list process) (i : nat) (self : remote) (p : process)
    (o : outcome (bool * tokenizer * mail)) : Prop :=
  ∃ b z m, o = done_ok (b, z, m) ∧
    inv (deliver i (Z.to_nat (left_remote_id (world remotes) self)) z m ps) ∧
    (b = false → quiet ps ∧ is_ok (token_terminate_iteration self z) = true).

Lemma poll_ok_same ps i p z m :
  tok z = tok (tz p) → end_in m = ends p → end_out m = [] → poll_ok i p ps z m.
Proof.
  intros Hz Hi Ho. split; rewrite ?Hz, ?Hi, ?Ho; try done.
  by intros j st ?%elem_of_nil.
Qed.

Lemma poll_ok_white ps i p z m :
  tok z = set_white (tok (tz p)) → end_in m = ends p → end_out m = [] → poll_ok i p ps z m.
Proof.
  intros Hz Hi Ho. split; rewrite ?Hz, ?Hi, ?Ho; try done.
  by intros j st ?%elem_of_nil.
Qed.

Lemma polled_worker ps i self p :
  inv ps → ps !! i = Some p →
  polled ps i self p (busy_loop_token self (world remotes) false (tz p) (mail_of p)).
Proof.
  intros Hm Hp. unfold busy_loop_token, try_fetch_token_as_worker, receive_token. cbn [mail_of token_in].
  destruct (has_global_tok (tz p)) eqn:Hh; cbn [negb check].
  - eexists _, _, _. split; [done|]. split; [|done].
    apply (inv_deliver ps i p); [done..|by apply poll_ok_same|].
    apply (token_keep ps i p); [done..|]. unfold tokens_of. by rewrite Hh.
  - destruct (arriving p) as [|t ts] eqn:Ha; cbn; eexists _, _, _; (split; [done|]); (split; [|done]);
      (apply (inv_deliver ps i p); [done..|by apply poll_ok_same|]);
      (apply (token_keep ps i p); [done..|]); unfold tokens_of; by rewrite Hh, Ha.
Qed.

(** the inactive leader ends the iteration, or starts a round *)
Definition decided (p : process) (g : token) : bool :=
  negb (has_global_tok (tz p)) && is_white g && (count g + count (tok (tz p)) =? 0) &&
  is_white (tok (tz p)).

Lemma leader_polls ps self p g :
  inv ps → few ps → ps !! 0%nat = Some p → remotes !! 0%nat = Some self → active p = false →
  tokens_of p = [g] → has_global_tok (tz p) = true ∨ probe 0 g ps →
  ∃ z m, busy_loop_token self (world remotes) true (tz p) (mail_of p) =
      done_ok (negb (decided p g), z, m) ∧
    token_in m = [] ∧ end_in m = ends p ∧
    if decided p g then
      z = mk_tokenizer (tok (tz p)) true (mk_token (type g) (count g + count (tok (tz p)))) ∧
      token_out m = [] ∧ end_out m = ends_from (world remotes) 0 1
    else
      tok z = set_white (tok (tz p)) ∧ has_global_tok z = false ∧
      token_out m = [mk_token WHITE 0] ∧ end_out m = [].
Proof.
  intros Hm Hfew Hp Hself Ha Hg Hpr. unfold busy_loop_token, decided.
  rewrite (is_leader_ok 0 self Hself).
  cbn [Nat.eqb]. rewrite (proj2 (Z.ltb_lt 1 _)) by lia. cbn [negb]. rewrite andb_false_r.
  unfold tokens_of in Hg. destruct (has_global_tok (tz p)) eqn:Hh.
  { injection Hg as Hg Harr. unfold send_token_as_leader. rewrite (is_leader_ok 0 self Hself), Hh.
    cbn. eexists _, _. by split_and!. }
  destruct Hpr as [?|Hpr]; [done|]. cbn [app] in Hg.
  unfold try_fetch_token_as_leader. rewrite (is_leader_ok 0 self Hself), Hh. cbn [Nat.eqb check negb].
  unfold receive_token. cbn [mail_of token_in]. rewrite Hg.
  rewrite (add_count_ok ps 0 p g Hm Hfew Hp Ha Hpr). cbn [via set_has set_global tok andb].
  unfold is_zero. cbn [count]. change (is_white (mk_token (type g) _)) with (is_white g).
  destruct (is_white g && (count g + count (tok (tz p)) =? 0) && is_white (tok (tz p))) eqn:Hdec.
  - apply andb_true_iff in Hdec as [[Hw Hz]%andb_true_iff Hwt].
    rewrite Hw, Hz, Hwt. cbn [check].
    rewrite do_collective_ok; [|done|by rewrite (remotes_addr 0 self Hself)|lia]. cbn.
    eexists _, _. split_and!; try done. by rewrite (remotes_addr 0 self Hself).
  - unfold send_token_as_leader. rewrite (is_leader_ok 0 self Hself). cbn.
    eexists _, _. by split_and!.
Qed.

Lemma polled_leader ps self p :
  inv ps → few ps → ps !! 0%nat = Some p → remotes !! 0%nat = Some self → active p = false →
  polled ps 0 self p (busy_loop_token self (world remotes) true (tz p) (mail_of p)).
Proof.
  intros Hm Hfew Hp Hself Ha. destruct (tokens_of p) as [|t ts] eqn:Ht.
  { unfold tokens_of in Ht. apply app_nil in Ht as [Hh Harr].
    destruct (has_global_tok (tz p)) eqn:Hh'; [done|].
    unfold busy_loop_token. rewrite (is_leader_ok 0 self Hself), Hh'. cbn [Nat.eqb andb].
    unfold try_fetch_token_as_leader. rewrite (is_leader_ok 0 self Hself), Hh'. cbn [Nat.eqb check negb].
    unfold receive_token. cbn [mail_of token_in]. rewrite Harr. cbn.
    eexists _, _, _. split; [done|]. split; [|done].
    apply (inv_deliver ps 0 p); [done..|by apply poll_ok_same|].
    apply (token_keep ps 0 p); [done..|]. unfold tokens_of. rewrite Hh'. cbn. by rewrite Harr. }
  destruct (token_at ps 0 p Hm Hp) as (g & Hg & Htok & Hpr); [by rewrite Ht|].
  destruct (leader_polls ps self p g Hm Hfew Hp Hself Ha Hg) as (z & m & He & Hin & Hei & Hcase).
  { destruct Hpr as [[_ ?]|?]; [by left|by right]. }
  rewrite He. exists (negb (decided p g)), z, m. split; [done|]. rewrite (left_ok 0 self Hself).
  destruct (decided p g) eqn:Hdec; cbn [negb].
  - destruct Hcase as (-> & Hout & Heo). unfold decided in Hdec.
    apply andb_true_iff in Hdec as [[[Hh%negb_true_iff Hw]%andb_true_iff Hz]%andb_true_iff Hwt].
    destruct Hpr as [[_ ?]|Hpr]; [congruence|].
    assert (Hq : quiet ps) by (apply (decided_quiet ps p g); try done; by apply Z.eqb_eq).
    split.
    + apply (inv_deliver ps 0 p); [done..| |].
      * split; rewrite ?Hei, ?Heo; cbn; try done.
        intros j st Hinj. by apply (ends_from_ok 0 1 j st).
      * exists 0%nat, (mk_token (type g) (count g + count (tok (tz p)))).
        split; [unfold deliver; rewrite length_imap; by eapply lookup_lt_Some|]. split.
        -- intros j p' (q & Hqj & ->)%deliver_lookup. unfold tokens_of. cbn. rewrite Hin, Hout.
           pose proof (Htok j q Hqj) as Hj. destruct (Nat.eqb_spec j 0) as [->|Hne].
           ++ by destruct (_ =? _)%nat.
           ++ apply app_nil in Hj as [-> ->]. by destruct (_ =? _)%nat.
        -- left. split; [done|]. eexists.
           split; [unfold deliver; by rewrite list_lookup_imap, Hp|done].
    + intros _. split; [done|]. unfold token_terminate_iteration. rewrite (is_leader_ok 0 self Hself).
      cbn. unfold is_zero, is_white in *. cbn. rewrite Hz, Hw. cbn. by rewrite Hwt.
  - destruct Hcase as (Hzt & Hzh & Hout & Heo). split; [|done].
    pose proof (inv_length ps Hm) as Hl. unfold world in world_size.
    apply (inv_deliver ps 0 p); [done..|by apply poll_ok_white|].
    by eapply (token_start ps _ p _ _ g _ Hm Hp); [lia|lia|..].
Qed.

(** an inactive machine that is not the leader passes the token on *)
Lemma idler_passes ps i self p g :
  inv ps → few ps → ps !! S i = Some p → remotes !! S i = Some self → active p = false →
  tokens_of p = [g] → probe (S i) g ps →
  ∃ z m g', busy_loop_token self (world remotes) true (tz p) (mail_of p) = done_ok (true, z, m) ∧
    has_global_tok z = false ∧ token_in m = [] ∧ token_out m = [g'] ∧ end_in m = ends p ∧
    end_out m = [] ∧ count g' = count g + count (tok (tz p)) ∧
    if has_global_tok (tz p) then type g' = BLACK ∧ tok z = tok (tz p)
    else type g' = (if is_black (tok (tz p)) then BLACK else type g) ∧ tok z = set_white (tok (tz p)).
Proof.
  intros Hm Hfew Hp Hself Ha Hg Hpr. unfold busy_loop_token. rewrite (is_leader_ok _ self Hself).
  cbn [Nat.eqb]. unfold tokens_of in Hg. pose proof (add_count_ok ps (S i) p g Hm Hfew Hp Ha Hpr) as Hadd.
  destruct (has_global_tok (tz p)) eqn:Hh.
  - injection Hg as Hg Harr.
    unfold send_token_as_idler. rewrite (is_leader_ok _ self Hself), Hh, Hg. cbn [Nat.eqb negb check].
    rewrite Hadd. cbn. eexists _, _, _. split_and!; done.
  - unfold try_fetch_token_as_idler. rewrite (is_leader_ok _ self Hself), Hh. cbn [Nat.eqb check negb].
    unfold receive_token. cbn [mail_of token_in]. cbn [app] in Hg. rewrite Hg, Hadd. cbn.
    eexists _, _, _. split_and!; try done; by destruct (is_black _).
Qed.

Lemma polled_idler ps i self p :
  inv ps → few ps → ps !! S i = Some p → remotes !! S i = Some self → active p = false →
  polled ps (S i) self p (busy_loop_token self (world remotes) true (tz p) (mail_of p)).
Proof.
  intros Hm Hfew Hp Hself Ha. destruct (tokens_of p) as [|t ts] eqn:Ht.
  - unfold polled, busy_loop_token. rewrite (left_ok _ self Hself), (is_leader_ok _ self Hself).
    cbn [Nat.eqb]. unfold tokens_of in Ht. apply app_nil in Ht as [Hh Harr].
    destruct (has_global_tok (tz p)) eqn:Hh'; [done|].
    unfold try_fetch_token_as_idler. rewrite (is_leader_ok _ self Hself), Hh'. cbn [Nat.eqb check negb].
    unfold receive_token. cbn [mail_of token_in]. rewrite Harr.
    cbn. unfold try_fetch_end_iteration.
    assert (Hr : 0 < addr self < world remotes).
    { rewrite (remotes_addr _ self Hself). apply lookup_lt_Some in Hself. unfold world. lia. }
    rewrite (find_source_ok _ world_size self Hr). cbn [obind via done_ok].
    unfold received_end_iteration. rewrite (is_leader_ok _ self Hself).
    cbn [Nat.eqb negb asserting via end_in mail_of].
    rewrite (remotes_addr _ self Hself), (take_end_ok ps (S i) p Hm Hp). unfold mail_of. rewrite Harr.
    assert (Hkeep : ∀ m, token_in m = [] → token_out m = [] → token_ok (deliver (S i) i (tz p) m ps)).
    { intros m Hin Hout. apply (token_keep ps (S i) p); try done. unfold tokens_of.
      by rewrite Hh', Harr, Hin. }
    destruct (ends p) as [|e es] eqn:Hends; cbn.
    + eexists _, _, _. split; [done|]. split; [|done].
      apply (inv_deliver ps (S i) p); [done..|apply poll_ok_same; by rewrite ?Hends|by apply Hkeep].
    + destruct (end_stage_ok (Z.of_nat (S i))) as (Hst & Hst1 & _); [lia|].
      pose proof (end_stage_last _ world_size (Z.of_nat (S i))) as Hlast.
      destruct (last_stage_ok _ world_size) as (_ & Hlast30 & _).
      rewrite (remotes_addr _ self Hself) in Hr. specialize (Hlast Hr).
      rewrite do_collective_ok;
        [|done|rewrite (remotes_addr _ self Hself), Z.add_simpl_r; lia|lia]. cbn.
      destruct (inv_ends ps Hm (S i) p e Hp) as (_ & _ & Hq); [rewrite Hends; by left|].
      eexists _, _, _. split; [done|]. split.
      * apply (inv_deliver ps (S i) p); [done..| |by apply Hkeep]. split; cbn; try done.
        { intros e' He'. rewrite Hends. by right. }
        intros j st Hin. rewrite (remotes_addr _ self Hself) in Hin.
        eapply (ends_from_ok (S i)); [|..|exact Hin]; [rewrite Z.add_simpl_r; lia|lia].
      * intros _. split; [done|]. unfold token_terminate_iteration.
        rewrite (is_leader_ok _ self Hself). cbn. destruct (Hq _ p Hp) as (_ & _ & ->). done.
  - destruct (token_at ps (S i) p Hm Hp) as (g & Hg & Htok & [[? _]|Hpr]); [by rewrite Ht|done|].
    destruct (idler_passes ps i self p g Hm Hfew Hp Hself Ha Hg Hpr)
      as (z & m & g' & He & Hz & Hin & Hout & Hei & Heo & Hc & Hcase).
    exists true, z, m. split; [done|]. split; [|done]. rewrite (left_ok _ self Hself).
    assert (Hw : tok z = tok (tz p) ∨ tok z = set_white (tok (tz p)))
      by (destruct (has_global_tok (tz p)); naive_solver).
    apply (inv_deliver ps (S i) p); [done..| |].
    + destruct Hw; [by apply poll_ok_same|by apply poll_ok_white].
    + apply (token_pass ps i p _ _ g g'); try done.
      * destruct (has_global_tok (tz p)); destruct Hcase as [Hty Hzt]; [by left|].
        destruct (is_black (tok (tz p))) eqn:Hb; [by left|right]. rewrite Hzt. split; [done|]. split; [|done].
        unfold is_black, is_white, BLACK, WHITE in *. by destruct (type (tok (tz p))).
      * destruct Hw as [->| ->]; done.
Qed.

Lemma sends_range ps i p :
  inv ps → few ps → ps !! i = Some p → 0 <= sends p < 2 ^ 31 ∧ 0 <= receives p < 2 ^ 31.
Proof.
  intros Hm Hfew Hp. assert (Hc := inv_counts ps Hm).
  pose proof (total_elem sends ps i p) as H1. pose proof (total_elem receives ps i p) as H2.
  assert (Hn : ∀ j q, ps !! j = Some q → 0 <= sends q ∧ 0 <= receives q)
    by (intros j q Hq; destruct (Hc j q Hq); lia).
  specialize (H1 (λ j q Hq, proj1 (Hn j q Hq)) Hp). specialize (H2 (λ j q Hq, proj2 (Hn j q Hq)) Hp).
  destruct (totals_range ps Hm Hfew) as (_ & _ & ?). destruct (Hn i p Hp). unfold few in Hfew. lia.
Qed.

Lemma transmitted_ok ps i p n :
  inv ps → few ps → ps !! i = Some p → 0 < n <= uncounted_sent p →
  messages_transmitted n (tz p) = Ok (set_tok (mk_token (type (tok (tz p))) (count (tok (tz p)) + n)) (tz p)).
Proof.
  intros Hm Hfew Hp Hn. destruct (sends_range ps i p Hm Hfew Hp).
  destruct (inv_counts ps Hm i p Hp) as [Hc ? ? ? _].
  unfold messages_transmitted, transmitted, add_int, in_signed.
  rewrite swrap_id by lia. change (2 ^ (32 - 1)) with (2 ^ 31).
  rewrite (proj2 (Z.leb_le _ _)), (proj2 (Z.ltb_lt _ _)) by lia. done.
Qed.

Lemma received_ok ps i p n :
  inv ps → few ps → ps !! i = Some p → 0 < n <= uncounted_received p →
  count (tok (messages_received n (tz p))) = count (tok (tz p)) - n.
Proof.
  intros Hm Hfew Hp Hn. destruct (sends_range ps i p Hm Hfew Hp).
  destruct (inv_counts ps Hm i p Hp) as [Hc ? ? ? _]. cbn [messages_received set_tok tok set_black received count].
  assert (Hw : ∀ z, swrap 32 (wrap 64 z) = swrap 32 z).
  { intros z. unfold swrap, wrap. change (2 ^ 64) with (2 ^ 32 * 2 ^ 32). f_equal.
    rewrite Z.rem_mul_r by lia. rewrite <-Z.add_assoc, (Z.add_comm (2 ^ 32 * _)), Z.add_assoc.
    rewrite Z.add_mod_idemp_l || idtac; try lia.
    rewrite (Z.mul_comm (2 ^ 32)), Z_mod_plus_full. by rewrite Zplus_mod_idemp_l. }
  rewrite Hw. apply swrap_id; [lia|]. change (2 ^ (32 - 1)) with (2 ^ 31). lia.
Qed.

Lemma act_sends a ps ps' b :
  act remotes a ps = Some (Ok (ps', b)) → total sends ps <= total sends ps'.
Proof.
  unfold act, with_process. intros H.
  destruct a as [i j|i n|i|i n|i|i]; (destruct (ps !! i) as [p|] eqn:Hp; [|done]).
  - destruct (ps !! j) as [q|] eqn:Hq; [|done]. destruct (_ && _) eqn:E; [|done]. injection H as <- <-.
    apply andb_true_iff in E as [_ Hij%negb_true_iff%Nat.eqb_neq].
    rewrite (total_insert _ _ j q) by (by rewrite list_lookup_insert_ne).
    rewrite (total_insert _ _ i p) by done. proc_cbn. lia.
  - destruct (_ && _); [|done]. destruct (messages_transmitted n (tz p)); [|done].
    injection H as <- <-. rewrite (total_insert _ _ i p) by done. cbn. lia.
  - destruct (0 <? inbox p); [|done]. injection H as <- <-.
    rewrite (total_insert _ _ i p) by done. proc_cbn. lia.
  - destruct (_ && _); [|done]. injection H as <- <-. rewrite (total_insert _ _ i p) by done. cbn. lia.
  - destruct (_ && _); [|done]. injection H as <- <-. rewrite (total_insert _ _ i p) by done. cbn. lia.
  - destruct (remotes !! i) as [self|]; [|done].
    destruct (busy_loop_token _ _ _ _ _) as [[[[b' z] m]|]|]; try done.
    injection H as <- <-. rewrite deliver_total by done. lia.
Qed.

Lemma polled_all ps i self p :
  inv ps → few ps → ps !! i = Some p → remotes !! i = Some self →
  polled ps i self p (busy_loop_token self (world remotes) (negb (active p)) (tz p) (mail_of p)).
Proof.
  intros Hm Hfew Hp Hself. destruct (active p) eqn:Ha; cbn [negb]; [by apply polled_worker|].
  destruct i as [|i]; [by apply polled_leader|by apply polled_idler].
Qed.

(** every action answers a state with the invariant *)
Lemma act_inv a ps o :
  inv ps → few ps → act remotes a ps = Some o →
  ∃ ps' b, o = Ok (ps', b) ∧ inv ps' ∧ (b = false → quiet ps ∧ quiet ps').
Proof.
  intros Hm Hfew H. unfold act, with_process in H.
  destruct a as [i j|i n|i|i n|i|i]; (destruct (ps !! i) as [p|] eqn:Hp; [|done]).
  - destruct (ps !! j) as [q|] eqn:Hq; [|done]. destruct (_ && _) eqn:E; [|done]. injection H as <-.
    apply andb_true_iff in E as [Ha Hij%negb_true_iff%Nat.eqb_neq].
    eexists _, _. split; [done|]. split; [by apply inv_send|done].
  - destruct (_ && _) eqn:E; [|done]. apply andb_true_iff in E as [H1%Z.ltb_lt H2%Z.leb_le].
    rewrite (transmitted_ok ps i p n Hm Hfew Hp ltac:(lia)) in H. injection H as <-.
    eexists _, _. split; [done|]. split; [|done].
    destruct (inv_counts ps Hm i p Hp) as [Hc ? ? ? Hidle].
    assert (Ha : active p = true) by (destruct (active p); [done|destruct (Hidle eq_refl); lia]).
    eapply inv_busy; try done. split; cbn; try lia. congruence.
  - destruct (Z.ltb_spec 0 (inbox p)); [|done]. injection H as <-.
    eexists _, _. split; [done|]. split; [by apply inv_receive|done].
  - destruct (_ && _) eqn:E; [|done]. apply andb_true_iff in E as [H1%Z.ltb_lt H2%Z.leb_le].
    injection H as <-. eexists _, _. split; [done|]. split; [|done].
    destruct (inv_counts ps Hm i p Hp) as [Hc ? ? ? Hidle].
    assert (Ha : active p = true) by (destruct (active p); [done|destruct (Hidle eq_refl); lia]).
    eapply inv_busy; try done.
    + split; cbn -[messages_received]; try lia; [|congruence].
      change (tz (count_received n (set_tz (messages_received n (tz p)) p)))
        with (messages_received n (tz p)).
      rewrite (received_ok ps i p n Hm Hfew Hp ltac:(lia)). lia.
    + intros _. by left.
  - destruct (_ && _) eqn:E; [|done].
    apply andb_true_iff in E as [[Ha H1%Z.eqb_eq]%andb_true_iff H2%Z.eqb_eq]. injection H as <-.
    eexists _, _. split; [done|]. split; [|done].
    destruct (inv_counts ps Hm i p Hp) as [Hc ? ? ? Hidle]. eapply inv_busy; done.
  - destruct (remotes !! i) as [self|] eqn:Hself; [|done].
    destruct (polled_all ps i self p Hm Hfew Hp Hself) as (b & z & m & Ho & Hinv & Hb).
    rewrite Ho in H. injection H as <-. eexists _, b. split; [done|]. split; [done|].
    intros ->. destruct (Hb eq_refl) as [Hq Ht]. split; [done|]. apply quiet_deliver; [done|].
    unfold token_terminate_iteration in Ht. destruct (negb _ || _); [|done].
    by destruct (is_white (tok z)).
Qed.

Lemma reach_ring ps : reach remotes ps → few ps → inv ps.
Proof.
  induction 1 as [|a ps ps' b _ IH Hact]; intros Hfew; [apply start_ring|].
  assert (Hfew' : few ps) by (pose proof (act_sends a ps ps' b Hact); unfold few in *; lia).
  destruct (act_inv a ps _ (IH Hfew') Hfew' Hact) as (? & ? & [= <- <-] & ? & _). done.
Qed.
End Safra.

(** the machines that the router's constructor makes *)
Lemma router_remotes threads rank r :
  base_constructor threads rank = Ok r →
  world (remote_list r) = Z.of_nat (length threads) ∧
  ∀ i m, remote_list r !! i = Some m → addr m = Z.of_nat i.
Proof.
  intros H. unfold base_constructor in H. apply res_bind_ok in H as (rs & Hrs & [= <-]).
  cbn [remote_list]. destruct (new_remotes_lookup _ _ _ Hrs) as [Hl Hlook]. unfold world.
  split; [by rewrite Hl|]. intros i m Hm. by destruct (Hlook i m Hm) as (n & _ & _ & ->).
Qed.

(** C7: The machines of a run: whatever they send and whenever they rest, no assertion of the
    tokenizer fails, no count overflows and no machine waits for a message; and when
    [busy_loop_token] tells a machine that the iteration has ended, no machine has work
    and no message is on its way, and the machine passes the checks at its end. *)
Theorem safra_safe threads rank r ps :
  base_constructor threads rank = Ok r → 2 <= Z.of_nat (length threads) <= 2 ^ 30 →
  reach (remote_list r) ps → few ps →
  (∀ a f, act (remote_list r) a ps ≠ Some (Err f)) ∧
  (∀ i, (i < length threads)%nat → act (remote_list r) (Poll i) ps ≠ None) ∧
  (∀ a ps', act (remote_list r) a ps = Some (Ok (ps', false)) → quiet ps ∧ quiet ps') ∧
  (∀ i ps' p' self, act (remote_list r) (Poll i) ps = Some (Ok (ps', false)) →
     ps' !! i = Some p' → remote_list r !! i = Some self →
     is_ok (token_terminate_iteration self (tz p')) = true).
Proof.
  intros Hr Hn Hreach Hfew. destruct (router_remotes _ _ _ Hr) as [Hw Haddr].
  assert (Hw' : 2 <= world (remote_list r) <= 2 ^ 30) by lia.
  pose proof (reach_ring _ Hw' Haddr ps Hreach Hfew) as Hm.
  pose proof (inv_length _ _ Hm) as Hl. unfold world in Hw.
  assert (Hlook : ∀ i, (i < length threads)%nat →
    ∃ p self, ps !! i = Some p ∧ remote_list r !! i = Some self).
  { intros i Hi. destruct (lookup_lt_is_Some_2 ps i) as [p Hp]; [lia|].
    destruct (lookup_lt_is_Some_2 (remote_list r) i) as [self Hs]; [lia|]. eauto. }
  split_and!.
  - intros a f Ha. by destruct (act_inv _ Hw' Haddr a ps _ Hm Hfew Ha) as (? & ? & ? & _).
  - intros i Hi. destruct (Hlook i Hi) as (p & self & Hp & Hself).
    destruct (polled_all _ Hw' Haddr ps i self p Hm Hfew Hp Hself) as (b & z & m & Ho & _).
    cbn [act]. unfold with_process. rewrite Hp, Hself, Ho. done.
  - intros a ps' Ha. destruct (act_inv _ Hw' Haddr a ps _ Hm Hfew Ha) as (? & ? & [= <- <-] & _ & Hq).
    by apply Hq.
  - intros i ps' p' self Ha Hp' Hself.
    assert (∃ p, ps !! i = Some p) as [p Hp].
    { apply lookup_lt_is_Some. apply lookup_lt_Some in Hself. lia. }
    destruct (polled_all _ Hw' Haddr ps i self p Hm Hfew Hp Hself) as (b & z & m & Ho & _ & Hb).
    cbn [act] in Ha. unfold with_process in Ha. rewrite Hp, Hself, Ho in Ha. cbn in Ha.
    injection Ha as <- ->. destruct (deliver_lookup _ _ _ _ _ _ _ Hp') as (q & _ & ->).
    cbn. rewrite Nat.eqb_refl. by apply Hb.
Qed.

(** ** The rounds end *)

(** no machine has work and no message is on its way *)
Definition resting (ps : list process) : Prop :=
  ∀ i p, ps !! i = Some p → active p = false ∧ inbox p = 0.

(** polls that all answer that the iteration goes on; [n] of them of a machine that has
    the token or for which it has arrived *)
Inductive polls (remotes : list remote) : nat → list process → list process → Prop :=
  | polls_none ps : polls remotes 0 ps ps
  | polls_other i n p ps ps1 ps' :
      ps !! i = Some p → tokens_of p = [] → act remotes (Poll i) ps = Some (Ok (ps1, true)) →
      polls remotes n ps1 ps' → polls remotes n ps ps'
  | polls_token i n p ps ps1 ps' :
      ps !! i = Some p → tokens_of p ≠ [] → act remotes (Poll i) ps = Some (Ok (ps1, true)) →
      polls remotes n ps1 ps' → polls remotes (S n) ps ps'.

Section Rounds.
Context (remotes : list remote).
Context (world_size : 2 <= world remotes <= 2 ^ 30).
Context (remotes_addr : ∀ i m, remotes !! i = Some m → addr m = Z.of_nat i).

Definition all_white (t : nat) (ps : list process) : Prop :=
  ∀ j q, (t <= j)%nat → ps !! j = Some q → is_white (tok (tz q)) = true.

(** At most [n] more polls of the machine with the token: it is at [t], and what is left
    is up to two whole rounds, which make the machines white, and the rest of this one. *)
Definition rounds (n : nat) (ps : list process) : Prop :=
  ∃ t g p, ps !! t = Some p ∧
    (∀ j q, ps !! j = Some q → tokens_of q = if (j =? t)%nat then [g] else []) ∧
    (n = S (2 * length ps + t) ∨
     n = S (length ps + t) ∧ all_white (S t) ps ∧ (t = 0%nat ∨ has_global_tok (tz p) = false) ∨
     n = S t ∧ all_white 0 ps ∧ has_global_tok (tz p) = false ∧ is_white g = true ∧
       count g = sumi (after t balance) 0 ps).

Lemma resting_deliver i l z m ps : resting ps → resting (deliver i l z m ps).
Proof. intros H j p' (p & Hp & ->)%deliver_lookup. cbn. by apply (H j). Qed.

Lemma deliver_same i l p ps : ps !! i = Some p → deliver i l (tz p) (mail_of p) ps = ps.
Proof.
  intros Hp. apply list_eq. intros j. unfold deliver. rewrite list_lookup_imap.
  destruct (ps !! j) as [q|] eqn:Hq; [|done]. cbn. f_equal. unfold deliver_one. cbn.
  destruct (Nat.eqb_spec j i) as [->|Hne]; rewrite ?app_nil_r.
  - assert (q = p) as -> by congruence. destruct (i =? l)%nat; rewrite app_nil_r; by destruct p.
  - destruct (j =? l)%nat; rewrite app_nil_r; by destruct q.
Qed.

Lemma poll_unfold i p self ps r :
  ps !! i = Some p → remotes !! i = Some self → active p = false →
  act remotes (Poll i) ps = Some r →
  ∃ r', busy_loop_token self (world remotes) true (tz p) (mail_of p) = Some r' ∧
    r = let* x := r' in
        let '(b, z, m) := x in Ok (deliver i (Z.to_nat (left_remote_id (world remotes) self)) z m ps, b).
Proof.
  intros Hp Hself Ha H. cbn [act] in H. unfold with_process in H. rewrite Hp, Hself, Ha in H.
  cbn [negb] in H. destruct (busy_loop_token _ _ _ _ _) as [r'|]; [|done]. exists r'. split; [done|].
  cbn in H. by destruct r' as [[[? ?] ?]|]; injection H as <-.
Qed.

(** a poll of a machine without the token changes nothing *)
Lemma poll_other i p ps ps' :
  inv remotes ps → ps !! i = Some p → active p = false → tokens_of p = [] →
  act remotes (Poll i) ps = Some (Ok (ps', true)) → ps' = ps.
Proof.
  intros Hm Hp Ha Ht H. destruct (lookup_lt_is_Some_2 remotes i) as [self Hself].
  { rewrite <-(inv_length _ _ Hm). by eapply lookup_lt_Some. }
  destruct (poll_unfold i p self ps _ Hp Hself Ha H) as (r' & Hr' & He).
  unfold tokens_of in Ht. apply app_nil in Ht as [Hh Harr].
  destruct (has_global_tok (tz p)) eqn:Hh'; [done|].
  assert (Hsame : ∀ b z m, r' = Ok (b, z, m) → z = tz p → m = mail_of p → ps' = ps).
  { intros b z m -> -> ->. cbn in He. injection He as -> _. by apply deliver_same. }
  unfold busy_loop_token in Hr'. rewrite (is_leader_ok _ remotes_addr i self Hself), Hh' in Hr'.
  destruct (i =? 0)%nat eqn:Hi; cbn [andb] in Hr'.
  - unfold try_fetch_token_as_leader in Hr'.
    rewrite (is_leader_ok _ remotes_addr i self Hself), Hi, Hh' in Hr'. cbn [check negb] in Hr'.
    unfold receive_token in Hr'. cbn [mail_of token_in] in Hr'. rewrite Harr in Hr'. cbn in Hr'.
    injection Hr' as <-. by eapply Hsame.
  - unfold try_fetch_token_as_idler in Hr'.
    rewrite (is_leader_ok _ remotes_addr i self Hself), Hi, Hh' in Hr'. cbn [check negb] in Hr'.
    unfold receive_token in Hr'. cbn [mail_of token_in] in Hr'. rewrite Harr in Hr'.
    cbn [obind via done_ok negb] in Hr'. unfold try_fetch_end_iteration in Hr'.
    destruct (find_source_collective _ _) as [[source|]|]; [|by injection Hr' as <-|done].
    cbn [obind via] in Hr'. unfold received_end_iteration in Hr'.
    rewrite (is_leader_ok _ remotes_addr i self Hself), Hi in Hr'. cbn [negb asserting via] in Hr'.
    destruct (take_end source _) as [[stage es]|].
    + destruct (do_collective_end_iteration _ _ _ _) as [[m'|]|]; [|by injection Hr' as <-|done].
      cbn in Hr'. injection Hr' as <-. by injection He.
    + cbn in Hr'. injection Hr' as <-. by eapply Hsame.
Qed.

Lemma resting_balance ps p :
  inv remotes ps → resting ps → ps !! 0%nat = Some p →
  sumi (after 0 balance) 0 ps + count (tok (tz p)) = 0.
Proof.
  intros Hm Hrest Hp. pose proof (sumi_split 0 balance ps 0) as Hs.
  pose proof (inv_flight _ _ Hm) as Hfl.
  assert (H0 : total inbox ps = 0).
  { rewrite <-(sumi_total inbox ps 0), <-(sumi_zero ps 0) at 1. apply sumi_rel; [done|].
    intros j q q' Hq Hq'. assert (q' = q) as -> by congruence. by destruct (Hrest j q Hq). }
  pose proof (sumi_upto_0 balance ps p Hp) as Hup.
  destruct (inv_counts _ _ Hm _ p Hp) as [Hc _ _ _ Hidle].
  destruct (Hidle (proj1 (Hrest _ p Hp))). unfold balance in Hup at 2. lia.
Qed.

(** each poll of the machine with the token brings the end nearer *)
Lemma rounds_step i p ps ps' n :
  inv remotes ps → few ps → resting ps → rounds n ps → ps !! i = Some p → tokens_of p ≠ [] →
  act remotes (Poll i) ps = Some (Ok (ps', true)) → ∃ n', (n' < n)%nat ∧ rounds n' ps'.
Proof.
  intros Hm Hfew Hrest (t & g & p0 & Hp0 & Htok & Hn) Hp Hne H.
  assert (t = i) as ->.
  { rewrite (Htok i p Hp) in Hne. by destruct (Nat.eqb_spec i t) as [->|]. }
  assert (p0 = p) as -> by congruence. clear Hp0.
  pose proof (inv_length _ _ Hm) as Hl. unfold world in world_size.
  destruct (lookup_lt_is_Some_2 remotes i) as [self Hself]; [rewrite <-Hl; by eapply lookup_lt_Some|].
  destruct (Hrest i p Hp) as [Ha _].
  destruct (poll_unfold i p self ps _ Hp Hself Ha H) as (r' & Hr' & He).
  destruct (token_at _ ps i p Hm Hp Hne) as (g' & Hg & _ & Hpr).
  assert (g' = g) as -> by (rewrite (Htok i p Hp), Nat.eqb_refl in Hg; by injection Hg).
  assert (Hdl : ∀ l z m, length (deliver i l z m ps) = length ps)
    by (intros; unfold deliver; by rewrite length_imap).
  destruct i as [|i].
  - (* the leader starts a round *)
    destruct (leader_polls _ world_size remotes_addr ps self p g Hm Hfew Hp Hself Ha Hg)
      as (z & m & He' & Hin & _ & Hcase); [destruct Hpr as [[_ ?]|?]; [by left|by right]|].
    rewrite He' in Hr'. injection Hr' as <-. cbn in He. injection He as -> Hdec.
    rewrite (left_ok _ world_size remotes_addr 0 self Hself). set (l := (length remotes - 1)%nat).
    destruct (decided p g) eqn:Hd; [done|]. destruct Hcase as (Hzt & Hzh & Hout & _).
    destruct (lookup_lt_is_Some_2 ps l) as [q Hq]; [lia|].
    assert (Hmv : ∀ k, (k < n)%nat → (k = S (length ps + l) ∨ k = S l ∧ all_white 1 ps) →
      ∃ n', (n' < n)%nat ∧ rounds n' (deliver 0 l z m ps)).
    { intros k Hk Hcl. exists k. split; [done|].
      exists l, (mk_token WHITE 0), (deliver_one 0 l z m l q). split.
      { unfold deliver. by rewrite list_lookup_imap, Hq. }
      split; [by apply (tokens_moved ps 0 l p z m g); [done|done|lia|..]|]. rewrite Hdl.
      assert (Hqh : has_global_tok (tz (deliver_one 0 l z m l q)) = false).
      { cbn. rewrite (proj2 (Nat.eqb_neq l 0)) by lia. pose proof (Htok l q Hq) as Ht.
        rewrite (proj2 (Nat.eqb_neq l 0)) in Ht by lia. apply app_nil in Ht as [Ht _].
        by destruct (has_global_tok (tz q)). }
      destruct Hcl as [->|[-> Hw]]; right; [left|right].
      - split_and!; [lia| |by right]. intros j q' Hj (q0 & Hq0 & _)%deliver_lookup.
        apply lookup_lt_Some in Hq0. lia.
      - split_and!; [done| |done|done|].
        + intros j q' _ (q0 & Hq0 & ->)%deliver_lookup. cbn. destruct (Nat.eqb_spec j 0) as [->|].
          * by rewrite Hzt.
          * apply (Hw j q0); [lia|done].
        + destruct (deliver_sums 0 l z m ps l) as (_ & _ & -> & _). symmetry.
          rewrite <-(sumi_zero ps 0). apply sumi_rel; [done|]. intros j q0 q1 Hq0 _. unfold after.
          rewrite (proj2 (Nat.ltb_ge _ _)); [done|]. apply lookup_lt_Some in Hq0. simpl. lia. }
    destruct Hn as [Hn|[(Hn & Hw & _)|(_ & Hw & Hh & Hwg & Hcg)]].
    + apply (Hmv (S (length ps + l))%nat); [lia|by left].
    + apply (Hmv (S l)); [lia|by right].
    + exfalso. unfold decided in Hd. rewrite Hh, Hwg, (Hw 0%nat p) in Hd by done. cbn in Hd.
      rewrite andb_true_r in Hd. apply Z.eqb_neq in Hd.
      pose proof (resting_balance ps p Hm Hrest Hp). lia.
  - (* the token moves to the left *)
    destruct Hpr as [[? _]|Hpr]; [done|].
    destruct (idler_passes _ remotes_addr ps i self p g Hm Hfew Hp Hself Ha Hg Hpr)
      as (z & m & g' & He' & Hzh & Hin & Hout & _ & _ & Hc & Hcase).
    rewrite He' in Hr'. injection Hr' as <-. cbn in He. injection He as ->.
    rewrite (left_ok _ world_size remotes_addr (S i) self Hself).
    destruct (lookup_lt_is_Some_2 ps i) as [q Hq]; [apply lookup_lt_Some in Hp; lia|].
    exists (pred n). split; [lia|]. exists i, g', (deliver_one (S i) i z m i q). split.
    { unfold deliver. by rewrite list_lookup_imap, Hq. }
    split; [by apply (tokens_moved ps (S i) i p z m g); [done|done|lia|..]|]. rewrite Hdl.
    assert (Hqh : has_global_tok (tz (deliver_one (S i) i z m i q)) = false).
    { cbn. rewrite (proj2 (Nat.eqb_neq i (S i))) by lia. pose proof (Htok i q Hq) as Ht.
      rewrite (proj2 (Nat.eqb_neq i (S i))) in Ht by lia. apply app_nil in Ht as [Ht _].
      by destruct (has_global_tok (tz q)). }
    destruct Hn as [Hn|[(Hn & Hw & [?|Hh])|(Hn & Hw & Hh & Hwg & Hcg)]]; [left; lia|done|right; left|right; right].
    + rewrite Hh in Hcase. destruct Hcase as [_ Hzt]. split_and!; [lia| |by right].
      intros j q' Hj (q0 & Hq0 & ->)%deliver_lookup. cbn. destruct (Nat.eqb_spec j (S i)) as [->|].
      * by rewrite Hzt.
      * apply (Hw j q0); [lia|done].
    + rewrite Hh in Hcase. destruct Hcase as [Hty Hzt].
      pose proof (Hw (S i) p ltac:(lia) Hp) as Hpw.
      assert (Hb : is_black (tok (tz p)) = false)
        by (unfold is_black, is_white, BLACK, WHITE in *; by destruct (type (tok (tz p)))).
      rewrite Hb in Hty. split_and!; [lia| |done| |].
      * intros j q' Hj (q0 & Hq0 & ->)%deliver_lookup. cbn. destruct (Nat.eqb_spec j (S i)) as [->|].
        -- by rewrite Hzt.
        -- by apply (Hw j q0).
      * unfold is_white in *. by rewrite Hty.
      * destruct (deliver_sums (S i) i z m ps i) as (_ & _ & -> & _).
        destruct (sums_pred ps i p balance Hp) as [-> _].
        destruct (inv_counts _ _ Hm _ p Hp) as [Hcp _ _ _ Hidle]. destruct (Hidle Ha).
        rewrite Hc, Hcg. unfold balance at 3. lia.
Qed.

Lemma rounds_start ps :
  inv remotes ps → ∃ n, (n <= 3 * length ps)%nat ∧ rounds n ps.
Proof.
  intros Hm. destruct (inv_token _ _ Hm) as (t & g & Hlt & Htok & _).
  destruct (lookup_lt_is_Some_2 ps t Hlt) as [p Hp]. exists (S (2 * length ps + t)).
  split; [lia|]. exists t, g, p. split_and!; [done..|by left].
Qed.

Lemma polls_rounds n k ps ps' :
  polls remotes n ps ps' → inv remotes ps → few ps → resting ps → rounds k ps →
  (n <= k)%nat ∧ inv remotes ps' ∧ few ps' ∧ resting ps'.
Proof.
  intros Hpolls. revert k. induction Hpolls as [ps|i n p ps ps1 ps' Hp Ht Hact _ IH|i n p ps ps1 ps' Hp Ht Hact _ IH];
    intros k Hm Hfew Hrest Hk; [split; [lia|done]|..].
  - destruct (Hrest i p Hp) as [Ha _].
    rewrite (poll_other i p ps ps1 Hm Hp Ha Ht Hact) in IH. by apply IH.
  - destruct (rounds_step i p ps ps1 k Hm Hfew Hrest Hk Hp Ht Hact) as (k' & Hlt & Hk').
    destruct (act_inv _ world_size remotes_addr _ _ _ Hm Hfew Hact) as (ps2 & b & [= <- <-] & Hm1 & _).
    destruct (Hrest i p Hp) as [Ha _].
    destruct (lookup_lt_is_Some_2 remotes i) as [self Hself].
    { rewrite <-(inv_length _ _ Hm). by eapply lookup_lt_Some. }
    destruct (poll_unfold i p self ps _ Hp Hself Ha Hact) as ([[[b z] m]|f] & _ & He); [|done].
    cbn in He. injection He as -> _.
    destruct (IH k') as (? & ? & ? & ?); [done| |by apply resting_deliver|done|split_and!; [lia|done..]].
    unfold few in *. by rewrite deliver_total.
Qed.
End Rounds.

(** C8: Once no machine has work and no message is on its way, the machine that the token
    is at, polled, soon tells the end: at most three times as many of its polls as there
    are machines answer that the iteration goes on, whatever other polls there are. *)
Theorem safra_ends threads rank r ps n ps' :
  base_constructor threads rank = Ok r → 2 <= Z.of_nat (length threads) <= 2 ^ 30 →
  reach (remote_list r) ps → few ps → resting ps → polls (remote_list r) n ps ps' →
  (n <= 3 * length threads)%nat ∧
  ∃ i p ps'' b, ps' !! i = Some p ∧ tokens_of p ≠ [] ∧
    act (remote_list r) (Poll i) ps' = Some (Ok (ps'', b)).
Proof.
  intros Hr Hn Hreach Hfew Hrest Hpolls. destruct (router_remotes _ _ _ Hr) as [Hw Haddr].
  assert (Hw' : 2 <= world (remote_list r) <= 2 ^ 30) by lia.
  pose proof (reach_ring _ Hw' Haddr ps Hreach Hfew) as Hm.
  destruct (rounds_start _ ps Hm) as (k & Hk & Hrounds).
  destruct (polls_rounds _ Hw' Haddr n k ps ps' Hpolls Hm Hfew Hrest Hrounds) as (Hnk & Hm' & Hfew' & _).
  pose proof (inv_length _ _ Hm) as Hl. pose proof (inv_length _ _ Hm') as Hl'. unfold world in Hw.
  split; [lia|]. destruct (inv_token _ _ Hm') as (t & g & Hlt & Htok & _).
  destruct (lookup_lt_is_Some_2 ps' t Hlt) as [p Hp].
  destruct (lookup_lt_is_Some_2 (remote_list r) t) as [self Hself]; [lia|].
  destruct (polled_all _ Hw' Haddr ps' t self p Hm' Hfew' Hp Hself) as (b & z & m & Ho & _).
  eexists t, p, _, b. split; [done|]. split; [by rewrite (Htok t p Hp), Nat.eqb_refl|].
  cbn [act]. unfold with_process. by rewrite Hp, Hself, Ho.
Qed.

(** ** The tree of the ends *)

Lemma end_sends_nodup w r n : ∀ stage, 1 <= stage → NoDup (fst <$> end_sends w r n stage).
Proof.
  induction n as [|n IH]; intros stage Hst; cbn [end_sends]; [constructor|].
  rewrite fmap_app. apply list.NoDup_app. split_and!; [| |apply IH; lia].
  - destruct (_ <? w); [apply NoDup_singleton|constructor].
  - intros t Ht (e & -> & He)%list_elem_of_fmap_1.
    destruct (r + 2 ^ (stage - 1) <? w); [|by apply elem_of_nil in Ht].
    apply list_elem_of_singleton in Ht. cbn in Ht.
    apply elem_of_end_sends in He as (st & Hstr & _ & ->). cbn in Ht.
    assert (2 ^ (stage - 1) < 2 ^ (st - 1)) by (apply Z.pow_lt_mono_r; lia). lia.
Qed.

(** when a machine starts to send the ends: the leader at once, the others once they
    have heard *)
Definition first_stage (self : remote) : Z :=
  if is_leader self then 1 else end_stage (addr self) + 1.

(** C9: The messages of the end form a tree over all machines: a machine sends to those and
    only those that listen to it, once each and with the stage that each continues
    from; every machine but the leader listens to one of a smaller rank. *)
Theorem ends_reach_all w self m :
  2 <= w <= 2 ^ 30 → 0 <= addr self < w →
  (∃ es, do_collective_end_iteration self w (first_stage self) m = done_ok (with_ends es m) ∧
     NoDup (fst <$> es) ∧
     ∀ t st, (t, st) ∈ es ↔ 0 < t < w ∧ end_source t = addr self ∧ st = end_stage t) ∧
  (0 < addr self →
     find_source_collective self w = done_ok (end_source (addr self)) ∧
     0 <= end_source (addr self) < addr self).
Proof.
  intros Hw Hr. destruct (last_stage_ok w Hw) as (_ & Hlast & Hwl).
  assert (Hfirst : 0 <= addr self < 2 ^ (first_stage self - 1) ∧ 1 <= first_stage self <= 31).
  { unfold first_stage, is_leader, LEADER_RANK. destruct (Z.eqb_spec (addr self) 0) as [->|Hne]; [done|].
    destruct (end_stage_ok (addr self)) as (? & ? & _); [lia|].
    pose proof (end_stage_last w Hw (addr self)). rewrite Z.add_simpl_r. lia. }
  destruct Hfirst as [Hf1 Hf2]. split.
  - exists (ends_from w (addr self) (first_stage self)).
    split; [by apply do_collective_ok|]. split; [apply end_sends_nodup; lia|].
    intros t st. unfold ends_from. rewrite elem_of_end_sends. split.
    + intros (st' & Hst & Hlt & [= -> ->]).
      assert (2 ^ (first_stage self - 1) <= 2 ^ (st' - 1)) by (apply Z.pow_le_mono_r; lia).
      assert (Hpow : 2 ^ st' = 2 ^ (st' - 1) * 2 ^ 1) by (rewrite <-Z.pow_add_r by lia; f_equal; lia).
      assert (0 < 2 ^ (st' - 1)) by (apply Z.pow_pos_nonneg; lia).
      assert (Heq : st' = end_stage (addr self + 2 ^ (st' - 1))) by (apply end_stage_unique; lia).
      split; [lia|]. split; [|done]. unfold end_source.
      replace (Z.log2 (addr self + 2 ^ (st' - 1))) with (st' - 1); [lia|].
      unfold end_stage in Heq. lia.
    + intros (Ht & Hsrc & ->). pose proof (end_stage_last w Hw t Ht).
      destruct (end_stage_ok t) as (Hts & ? & Hlt); [lia|]. rewrite Hsrc in Hlt.
      exists (end_stage t). assert (Hte : addr self + 2 ^ (end_stage t - 1) = t).
      { rewrite <-Hsrc. unfold end_source, end_stage. rewrite Z.add_simpl_r. lia. }
      split_and!; [|lia|lia|by rewrite Hte].
      unfold first_stage. destruct (is_leader self) eqn:Hld; [lia|].
      destruct (Z.le_gt_cases (end_stage t) (end_stage (addr self))) as [Hle|]; [|lia]. exfalso.
      assert (0 < addr self) by (unfold is_leader, LEADER_RANK in Hld; apply Z.eqb_neq in Hld; lia).
      destruct (end_stage_ok (addr self)) as (? & ? & _); [lia|].
      assert (2 ^ (end_stage t - 1) <= 2 ^ (end_stage (addr self) - 1)) by (apply Z.pow_le_mono_r; lia).
      lia.
  - intros Hpos. split; [by apply find_source_ok; [|lia]|].
    destruct (end_stage_ok (addr self) Hpos) as (_ & _ & Hlo). split; [lia|].
    unfold end_source. pose proof (Z.log2_nonneg (addr self)).
    assert (0 < 2 ^ Z.log2 (addr self)) by (apply Z.pow_pos_nonneg; lia). lia.
Qed.

Lemma ends_reach_all_witness :
  let self := mk_remote 1 1 false 0 0 0 in
  (∃ es, do_collective_end_iteration self 6 2 (mk_mail [] [] [] []) =
       done_ok (with_ends es (mk_mail [] [] [] [])) ∧
     NoDup (fst <$> es) ∧
     ∀ t st, (t, st) ∈ es ↔ 0 < t < 6 ∧ end_source t = 1 ∧ st = end_stage t) ∧
  (0 < 1 → find_source_collective self 6 = done_ok 0 ∧ 0 <= 0 < 1).
Proof. apply (ends_reach_all 6 (mk_remote 1 1 false 0 0 0) (mk_mail [] [] [] [])); cbn; lia. Defined.

(** ** A run of two machines *)

Section Run.
Context (remotes : list remote).

Fixpoint run_actions (as_ : list action) (ps : list process) : option (list process * bool) :=
  match as_ with
  | [] => Some (ps, true)
  | a :: as_ =>
      match act remotes a ps with
      | Some (Ok (ps, true)) => run_actions as_ ps
      | Some (Ok (ps, false)) => match as_ with [] => Some (ps, false) | _ => None end
      | _ => None
      end
  end.

Lemma run_actions_reach as_ : ∀ ps ps' b,
  reach remotes ps → run_actions as_ ps = Some (ps', b) → reach remotes ps'.
Proof.
  induction as_ as [|a as_ IH]; intros ps ps' b Hr H; cbn [run_actions] in H.
  { by injection H as <- <-. }
  destruct (act remotes a ps) as [[[ps1 [|]]|]|] eqn:Ha; try done.
  - apply (IH ps1 ps' b); [|done]. by apply (reach_act remotes a ps ps1 true).
  - destruct as_; [|done]. injection H as <- <-. by apply (reach_act remotes a ps ps1 false).
Qed.
End Run.

Definition two_machines : list remote := [mk_remote 0 1 false 0 0 0; mk_remote 1 1 false 0 0 0].

Definition some_work : list action :=
  [Send 0 1; Count_sent 0 1; Rest 0; Receive 1; Poll 0; Count_received 1 1; Rest 1]%nat.

(** The machine that received is black: the first round does not end, the second does. *)
Example two_rounds :
  let ps := start_process <$> two_machines in
  option_map snd (run_actions two_machines (some_work ++ [Poll 1; Poll 0; Poll 1; Poll 0]%nat) ps) =
    Some false ∧
  option_map snd (run_actions two_machines (some_work ++ [Poll 1; Poll 0; Poll 1; Poll 0]%nat) ps) ≠
    Some true ∧
  option_map snd (run_actions two_machines (some_work ++ [Poll 1; Poll 0; Poll 1]%nat) ps) = Some true.
Proof. vm_compute. done. Qed.

(** the state once both have rested, and the router of the run *)
Definition rested_state : list process := Eval vm_compute in
  match run_actions two_machines some_work (start_process <$> two_machines) with
  | Some (ps, _) => ps
  | None => []
  end.

Lemma rested_reach : reach two_machines rested_state.
Proof.
  apply (run_actions_reach two_machines some_work (start_process <$> two_machines) _ true);
    [apply reach_start|reflexivity].
Qed.

(** after three polls of the machine that the token is at *)
Definition nearly_ended : list process := Eval vm_compute in
  match run_actions two_machines [Poll 1; Poll 0; Poll 1]%nat rested_state with
  | Some (ps, _) => ps
  | None => []
  end.

Lemma nearly_ended_reach : reach two_machines nearly_ended.
Proof.
  apply (run_actions_reach two_machines [Poll 1; Poll 0; Poll 1]%nat rested_state _ true);
    [exact rested_reach|reflexivity].
Qed.

(** and after the poll that tells the end *)
Definition ended : list process := Eval vm_compute in
  match run_actions two_machines [Poll 0]%nat nearly_ended with
  | Some (ps, _) => ps
  | None => []
  end.

Lemma safra_safe_witness :
  act two_machines (Poll 0) nearly_ended = Some (Ok (ended, false)) ∧
  quiet nearly_ended ∧ quiet ended.
Proof.
  split; [reflexivity|].
  apply (safra_safe [1; 1] 0 (mk_router two_machines 2 0 0) nearly_ended) with (Poll 0);
    [reflexivity|cbn; lia|exact nearly_ended_reach|reflexivity|reflexivity].
Defined.

Lemma nearly_ended_polls : polls two_machines 3 rested_state nearly_ended.
Proof.
  eapply (polls_token _ 1); [reflexivity|done|vm_compute; reflexivity|].
  eapply (polls_token _ 0); [reflexivity|done|vm_compute; reflexivity|].
  eapply (polls_token _ 1); [reflexivity|done|vm_compute; reflexivity|].
  apply polls_none.
Qed.

Lemma safra_ends_witness :
  (3 <= 3 * 2)%nat ∧
  ∃ i p ps'' b, nearly_ended !! i = Some p ∧ tokens_of p ≠ [] ∧
    act two_machines (Poll i) nearly_ended = Some (Ok (ps'', b)).
Proof.
  apply (safra_ends [1; 1] 0 (mk_router two_machines 2 0 0) rested_state 3 nearly_ended);
    [reflexivity|cbn; lia|exact rested_reach|reflexivity| |exact nearly_ended_polls].
  intros [|[|i]] p; vm_compute; intros [= <-]; done.
Defined.
