(* ===== verification/Pool.v ===== *)
(** The memory of the threads: [mem/chunk.hpp], [mem/chunkgroup.hpp], [mem/pool.hpp],
    [mem/thread.cpp] and [mem/center.cpp].  A thread keeps a pool of groups, one for each
    size; a group cuts blocks from chunks that double, and keeps the freed ones in a
    list that runs through the blocks themselves.  Memory is a map of bytes; [new] of
    the system is a parameter. *)

From Stdlib Require Import ZArith Lia Bool.
From stdpp Require Import base tactics list numbers option gmap.
From S2P Require Import Prelude.

#[local] Open Scope Z_scope.

(** ** Bytes *)

Notation memory := (gmap Z Z).

(** [n] bytes from the address [a] on, the least first *)
Fixpoint store_bytes (n : nat) (a v : Z) (m : memory) : memory :=
  match n with
  | O => m
  | S n => <[a := v mod 256]> (store_bytes n (a + 1) (v / 256) m)
  end.

Fixpoint load_bytes (n : nat) (a : Z) (m : memory) : Z :=
  match n with
  | O => 0
  | S n => default 0 (m !! a) + 256 * load_bytes n (a + 1) m
  end.

Definition NULL : Z := 0.

(** [mem_node::next] *)
Definition read_next (a : Z) (m : memory) : Z := load_bytes 8 a m.
Definition write_next (a v : Z) (m : memory) : memory := store_bytes 8 a v m.

(** ** [mem/chunk.hpp]

    [next_chunk] is the place of the next chunk of the group. *)

Record chunk : Type := mk_chunk {
  next_chunk : option nat;
  cur : Z;
  bottom : Z;
  top : Z
}.

Definition set_next (c' : option nat) (c : chunk) : chunk := mk_chunk c' (cur c) (bottom c) (top c).

(** NULL when the chunk is full; [cur] moves all the same *)
Definition chunk_allocate (size : Z) (c : chunk) : Z * chunk :=
  let old_cur := cur c in
  let c := mk_chunk (next_chunk c) (wrap 64 (cur c + size)) (bottom c) (top c) in
  if top c <? cur c then (NULL, c) else (old_cur, c).

(** ** [mem/chunkgroup.hpp]

    [chunks] are those the group has made, in that order. *)

Record chunkgroup : Type := mk_group {
  size : Z;
  chunks : list chunk;
  first_chunk : option nat;
  new_chunk : option nat;
  free_objs : Z;
  num_elems_per_chunk : Z
}.

Definition INITIAL_NUM_ELEMS : Z := 64.

Definition new_group (sz : Z) : chunkgroup := mk_group sz [] None None NULL INITIAL_NUM_ELEMS.

(** what the system has given: the regions of [new unsigned char[n]] *)
Definition regions : Type := list (Z * Z).

Section System.
(** [new] of [n] bytes beside those regions; None: it throws [std::bad_alloc] *)
Context (sys_new : regions → Z → option Z).

(** the constructor of a chunk *)
Definition make_chunk (sz num_elems : Z) (rs : regions) : option (chunk * regions) :=
  let total := wrap 64 (sz * num_elems) in
  match sys_new rs total with
  | Some b => Some (mk_chunk None b b (wrap 64 (b + total)), (b, total) :: rs)
  | None => None
  end.

(** a chunk is made, put last and allocated from *)
Definition from_new_chunk (g : chunkgroup) (rs : regions) : option (Z * chunkgroup * regions) :=
  match make_chunk (size g) (num_elems_per_chunk g) rs with
  | None => None
  | Some (c, rs) =>
      let i := length (chunks g) in
      let old := match new_chunk g with
                 | Some o => alter (set_next (Some i)) o (chunks g)
                 | None => chunks g
                 end in
      let '(ret, c) := chunk_allocate (size g) c in
      Some (ret,
            mk_group (size g) (old ++ [c])
              (match new_chunk g with Some _ => first_chunk g | None => Some i end)
              (Some i) (free_objs g) (num_elems_per_chunk g),
            rs)
  end.

Definition set_num_elems (n : Z) (g : chunkgroup) : chunkgroup :=
  mk_group (size g) (chunks g) (first_chunk g) (new_chunk g) (free_objs g) n.
Definition set_chunk (i : nat) (c : chunk) (g : chunkgroup) : chunkgroup :=
  mk_group (size g) (<[i := c]> (chunks g)) (first_chunk g) (new_chunk g) (free_objs g)
    (num_elems_per_chunk g).
Definition set_free (f : Z) (g : chunkgroup) : chunkgroup :=
  mk_group (size g) (chunks g) (first_chunk g) (new_chunk g) f (num_elems_per_chunk g).

(** [numeric_limits<size_t>::max() / 2] *)
Definition HALF_MAX : Z := (2 ^ 64 - 1) / 2.

Definition group_allocate (g : chunkgroup) (m : memory) (rs : regions)
    : option (res (Z * chunkgroup * regions)) :=
  if negb (free_objs g =? NULL) then
    Some (Ok (free_objs g, set_free (read_next (free_objs g) m) g, rs))
  else
    match new_chunk g with
    | None => option_map Ok (from_new_chunk g rs)
    | Some i =>
        match chunks g !! i with
        | None => Some (Err undefined_behaviour)
        | Some c =>
            let '(ret, c) := chunk_allocate (size g) c in
            let g := set_chunk i c g in
            if ret =? NULL then
              let g := if num_elems_per_chunk g <? HALF_MAX
                       then set_num_elems (wrap 64 (num_elems_per_chunk g * 2)) g else g in
              option_map Ok (from_new_chunk g rs)
            else Some (Ok (ret, g, rs))
        end
    end.

Definition group_deallocate (ptr : Z) (g : chunkgroup) (m : memory) : chunkgroup * memory :=
  (set_free ptr g, write_next ptr (free_objs g) m).

(** ** [mem/pool.hpp] *)

Notation pool := (gmap Z chunkgroup).

(** a group that is not there is made *)
Definition get_group (sz : Z) (p : pool) : res chunkgroup :=
  asserting (0 <? sz) (Ok (match p !! sz with Some g => g | None => new_group sz end)).

Definition pool_allocate (sz : Z) (p : pool) (m : memory) (rs : regions)
    : option (res (Z * pool * regions)) :=
  match get_group sz p with
  | Err f => Some (Err f)
  | Ok g =>
      match group_allocate g m rs with
      | None => None
      | Some (Err f) => Some (Err f)
      | Some (Ok (ret, g, rs)) => Some (Ok (ret, <[sz := g]> p, rs))
      end
  end.

Definition pool_deallocate (ptr sz : Z) (p : pool) (m : memory) : res (pool * memory) :=
  let* g := get_group sz p in
  let '(g, m) := group_deallocate ptr g m in
  Ok (<[sz := g]> p, m).

(** ** [mem/thread.cpp] and [mem/center.cpp]

    The pools by their threads; a thread without one makes it ([get_pool]).  As built:
    with USE_ALLOCATOR, without ALLOCATOR_ASSERT and MEMORY_STATISTICS. *)

Record memory_system : Type := mk_system {
  bytes : memory;
  given : regions;
  pools : gmap nat pool
}.

Definition get_pool (t : nat) (s : memory_system) : pool := default ∅ (pools s !! t).

Definition center_allocate (t : nat) (cnt sz : Z) (s : memory_system)
    : option (res (Z * memory_system)) :=
  match pool_allocate (wrap 64 (cnt * sz)) (get_pool t s) (bytes s) (given s) with
  | None => None
  | Some (Err f) => Some (Err f)
  | Some (Ok (ret, p, rs)) => Some (Ok (ret, mk_system (bytes s) rs (<[t := p]> (pools s))))
  end.

Definition center_deallocate (t : nat) (ptr cnt sz : Z) (s : memory_system) : res memory_system :=
  let* r := pool_deallocate ptr (wrap 64 (cnt * sz)) (get_pool t s) (bytes s) in
  let '(p, m) := r in
  Ok (mk_system m (given s) (<[t := p]> (pools s))).

(** [cleanup]: the thread forgets its pool *)
Definition cleanup (t : nat) (s : memory_system) : memory_system :=
  mk_system (bytes s) (given s) (delete t (pools s)).
End System.

Definition empty_system : memory_system := mk_system ∅ [] ∅.

(** ** Reading what was written *)

Lemma store_bytes_out n : ∀ a v m b, b < a ∨ a + Z.of_nat n <= b → store_bytes n a v m !! b = m !! b.
Proof.
  induction n as [|n IH]; intros a v m b Hb; cbn [store_bytes]; [done|].
  rewrite lookup_insert_ne by lia. apply IH. lia.
Qed.

Lemma load_bytes_ext n : ∀ a m m',
  (∀ b, a <= b < a + Z.of_nat n → m' !! b = m !! b) → load_bytes n a m' = load_bytes n a m.
Proof.
  induction n as [|n IH]; intros a m m' H; cbn [load_bytes]; [done|].
  rewrite H by lia. rewrite (IH (a + 1) m m'); [done|]. intros b Hb. apply H. lia.
Qed.

Lemma load_store_bytes n : ∀ a v m,
  0 <= v < 256 ^ Z.of_nat n → load_bytes n a (store_bytes n a v m) = v.
Proof.
  induction n as [|n IH]; intros a v m Hv; cbn [load_bytes store_bytes]; [simpl in Hv; lia|].
  rewrite lookup_insert_eq. cbn [default].
  rewrite (load_bytes_ext n (a + 1) (store_bytes n (a + 1) (v / 256) m)).
  - rewrite IH; [pose proof (Z.div_mod v 256 ltac:(lia)); unfold id; cbn [from_option]; lia|].
    replace (256 ^ Z.of_nat (S n)) with (256 * 256 ^ Z.of_nat n) in Hv
      by (rewrite Nat2Z.inj_succ, Z.pow_succ_r by lia; lia).
    split; [apply Z.div_pos; lia|]. apply Z.div_lt_upper_bound; lia.
  - intros b Hb. apply lookup_insert_ne. lia.
Qed.

(** ** Who owns a byte

    A byte is of a live block, of a freed block of a group, or of the part of a group's
    chunk that has not been cut. *)

Inductive tag : Type :=
  | Live (a : Z)
  | Freed (t : nat) (s a : Z)
  | Uncut (t : nat) (s : Z).

Definition owners : Type := Z → option tag.

Definition holds (own : owners) (a n : Z) (T : tag) : Prop :=
  ∀ b, a <= b < a + n → own b = Some T.

Definition give (a n : Z) (T : tag) (own : owners) : owners :=
  λ b, if (a <=? b) && (b <? a + n) then Some T else own b.

Lemma give_in a n T own b : a <= b < a + n → give a n T own b = Some T.
Proof. intros H. unfold give. rewrite (proj2 (Z.leb_le _ _)), (proj2 (Z.ltb_lt _ _)) by lia. done. Qed.

Lemma give_out a n T own b : b < a ∨ a + n <= b → give a n T own b = own b.
Proof.
  intros H. unfold give. destruct (Z.leb_spec a b), (Z.ltb_spec b (a + n)); try done. lia.
Qed.

Lemma holds_give a n T own : holds (give a n T own) a n T.
Proof. intros b Hb. by apply give_in. Qed.

(** bytes that are given to [T'] are no longer of [T] *)
Lemma holds_keep own a n T a' n' T' :
  holds own a n T → (∀ b, a' <= b < a' + n' → own b ≠ Some T) → holds (give a' n' T' own) a n T.
Proof.
  intros H Hne b Hb. rewrite give_out; [by apply H|].
  destruct (decide (b < a' ∨ a' + n' <= b)) as [|Hin]; [done|]. exfalso. apply (Hne b); [lia|by apply H].
Qed.

Lemma holds_disjoint own a n T a' n' T' :
  holds own a n T → holds own a' n' T' → T ≠ T' → 0 < n → 0 < n' → a + n <= a' ∨ a' + n' <= a.
Proof.
  intros H H' Hne Hn Hn'. destruct (decide (a + n <= a' ∨ a' + n' <= a)) as [|Hin]; [done|].
  specialize (H (Z.max a a') ltac:(lia)). specialize (H' (Z.max a a') ltac:(lia)). congruence.
Qed.

(** ** The invariant *)

(** the list of freed blocks, through memory *)
Fixpoint linked (m : memory) (f : Z) (fs : list Z) : Prop :=
  match fs with
  | [] => f = NULL
  | a :: fs => f = a ∧ linked m (read_next a m) fs
  end.

Record free_ok (own : owners) (m : memory) (t : nat) (s : Z) (g : chunkgroup) (fs : list Z) : Prop := {
  ok_size : size g = s;
  ok_range : 8 <= s < 2 ^ 57;
  ok_linked : linked m (free_objs g) fs;
  ok_nodup : NoDup fs;
  ok_freed : ∀ a, a ∈ fs → 0 < a ∧ a + s < 2 ^ 63 ∧ holds own a s (Freed t s a);
  ok_elems : 0 < num_elems_per_chunk g
}.

Definition chunk_ok (own : owners) (t : nat) (s : Z) (g : chunkgroup) : Prop :=
  match new_chunk g with
  | None => num_elems_per_chunk g = INITIAL_NUM_ELEMS
  | Some i => ∃ c, chunks g !! i = Some c ∧ 0 < bottom c ∧ bottom c <= cur c ∧ cur c <= top c ∧
      top c < 2 ^ 63 ∧ holds own (cur c) (top c - cur c) (Uncut t s) ∧
      s * num_elems_per_chunk g = top c - bottom c
  end.

Definition group_ok (own : owners) (m : memory) (t : nat) (s : Z) (g : chunkgroup) (fs : list Z) : Prop :=
  free_ok own m t s g fs ∧ chunk_ok own t s g.

Record memory_inv (own : owners) (s : memory_system) (live : gmap Z Z) : Prop := {
  inv_live : ∀ a n, live !! a = Some n → 0 < a ∧ 8 <= n ∧ a + n < 2 ^ 63 ∧ holds own a n (Live a);
  inv_group : ∀ t p z g, pools s !! t = Some p → p !! z = Some g →
    ∃ fs, group_ok own (bytes s) t z g fs;
  inv_given : ∀ b T, own b = Some T → ∃ r n, (r, n) ∈ given s ∧ r <= b < r + n
}.

(** the blocks of [live], an address with its size, are those in use *)
Definition memory_ok (s : memory_system) (live : gmap Z Z) : Prop :=
  ∃ own, memory_inv own s live.

Lemma linked_ext m m' : ∀ fs f,
  (∀ a, a ∈ fs → read_next a m' = read_next a m) → linked m f fs → linked m' f fs.
Proof.
  induction fs as [|a fs IH]; intros f H Hl; [done|]. destruct Hl as [-> Hl]. split; [done|].
  rewrite H by left. apply IH; [|done]. intros a' Ha'. apply H. by right.
Qed.

(** a group keeps its invariant while its bytes keep their owners, and the freed ones
    their contents *)
Lemma group_ok_mono own own' m m' t s g fs :
  group_ok own m t s g fs →
  (∀ b T, own b = Some T → (∃ a, a ∈ fs ∧ T = Freed t s a) ∨ T = Uncut t s → own' b = Some T) →
  (∀ b a, own b = Some (Freed t s a) → a ∈ fs → m' !! b = m !! b) →
  group_ok own' m' t s g fs.
Proof.
  intros [[Hs Hz Hl Hnd Hf He] Hc] Hown Hm. split; [split; [done|done| |done| |done]|].
  - apply (linked_ext m); [|done]. intros a Ha. apply load_bytes_ext. intros b Hb.
    destruct (Hf a Ha) as (_ & _ & Hh). apply (Hm b a); [|done]. apply Hh. simpl in Hb. lia.
  - intros a Ha. destruct (Hf a Ha) as (? & ? & Hh). split_and!; [done..|].
    intros b Hb. apply Hown; [by apply Hh|]. left. eauto.
  - unfold chunk_ok in *. destruct (new_chunk g) as [i|]; [|done].
    destruct Hc as (c & ? & ? & ? & ? & ? & Hh & ?).
    exists c. split_and!; try done. intros b Hb. apply Hown; [by apply Hh|by right].
Qed.

Lemma new_group_ok own m t s : 8 <= s < 2 ^ 57 → group_ok own m t s (new_group s) [].
Proof.
  intros Hs. split; [|done]. split; [done|done|done|constructor| |done]. by intros a ?%elem_of_nil.
Qed.

(** the group that a request of thread [t] for [z] bytes works on *)
Lemma get_group_ok own s live t z :
  memory_inv own s live → 8 <= z < 2 ^ 57 →
  ∃ g fs, get_group z (get_pool t s) = Ok g ∧ group_ok own (bytes s) t z g fs.
Proof.
  intros Hm Hz. unfold get_group, get_pool. rewrite (proj2 (Z.ltb_lt 0 z)) by lia. cbn [asserting].
  destruct (pools s !! t) as [p|] eqn:Hp; cbn [default from_option].
  - unfold id. destruct (p !! z) as [g|] eqn:Hg.
    + destruct (inv_group _ _ _ Hm t p z g Hp Hg) as [fs Hfs]. eauto.
    + exists (new_group z), []. split; [done|by apply new_group_ok].
  - exists (new_group z), []. split; [done|by apply new_group_ok].
Qed.

(** the other groups of the system, once the one of [t] and [z] has become [g] *)
Lemma put_group_ok own own' s m' t z g fs (rs : regions) :
  (∀ t' p z' g', pools s !! t' = Some p → p !! z' = Some g' →
    ∃ fs, group_ok own (bytes s) t' z' g' fs) →
  group_ok own' m' t z g fs →
  (∀ t' z' g' fs', (t', z') ≠ (t, z) → group_ok own (bytes s) t' z' g' fs' →
     group_ok own' m' t' z' g' fs') →
  ∀ t' p z' g', <[t := <[z := g]> (get_pool t s)]> (pools s) !! t' = Some p → p !! z' = Some g' →
    ∃ fs, group_ok own' m' t' z' g' fs.
Proof.
  intros Hall Hg Hkeep t' p z' g' Hp Hg'. destruct (decide (t' = t)) as [->|Ht].
  - rewrite lookup_insert_eq in Hp. injection Hp as <-. destruct (decide (z' = z)) as [->|Hz].
    + rewrite lookup_insert_eq in Hg'. injection Hg' as <-. eauto.
    + rewrite lookup_insert_ne in Hg' by done. unfold get_pool in Hg'.
      destruct (pools s !! t) as [p0|] eqn:Hp0; [|done].
      destruct (Hall t p0 z' g' Hp0 Hg') as [fs' Hfs']. exists fs'. apply Hkeep; [congruence|done].
  - rewrite lookup_insert_ne in Hp by done. destruct (Hall t' p z' g' Hp Hg') as [fs' Hfs'].
    exists fs'. apply Hkeep; [congruence|done].
Qed.

(** ** Allocation *)

Section Allocation.
Context (sys_new : regions → Z → option Z).
(** the system gives memory of user space, apart from what it gave before *)
Context (sys_new_ok : ∀ rs n b, 0 <= n → sys_new rs n = Some b →
  0 < b ∧ b + n < 2 ^ 63 ∧ ∀ r k, (r, k) ∈ rs → r + k <= b ∨ b + n <= r).

(** what an allocation of [z] bytes by thread [t] does: the bytes of the block [p] had no
    other block, and nothing else changes its owner *)
Record allocated (own : owners) (s : memory_system) (t : nat) (z p : Z) (g' : chunkgroup)
    (rs' : regions) (own' : owners) : Prop := {
  al_range : 0 < p ∧ p + z < 2 ^ 63;
  al_live : holds own' p z (Live p);
  al_group : ∃ fs', group_ok own' (bytes s) t z g' fs';
  al_before : ∀ b a, p <= b < p + z → own b ≠ Some (Live a);
  al_frame : ∀ b T, own b = Some T → own' b = Some T ∨ T = Freed t z p ∨ T = Uncut t z;
  al_given : ∀ b T, own' b = Some T → ∃ r n, (r, n) ∈ rs' ∧ r <= b < r + n
}.

Lemma from_new_chunk_ok own s live t z g fs p g' rs' :
  memory_inv own s live → free_ok own (bytes s) t z g fs →
  z * num_elems_per_chunk g < 2 ^ 64 →
  from_new_chunk sys_new g (given s) = Some (p, g', rs') →
  ∃ own', allocated own s t z p g' rs' own'.
Proof.
  intros Hm [Hsz Hz Hl Hnd Hf He] Hmul H. unfold from_new_chunk, make_chunk in H.
  rewrite Hsz in H. set (total := z * num_elems_per_chunk g) in *.
  assert (Htot : z <= total) by (unfold total; nia).
  rewrite (wrap_id 64 total) in H by lia.
  destruct (sys_new (given s) total) as [b|] eqn:Hnew; [|done].
  destruct (sys_new_ok (given s) total b ltac:(lia) Hnew) as (Hb & Hbt & Hdis).
  unfold chunk_allocate in H. cbn [cur top next_chunk bottom] in H.
  rewrite (wrap_id 64 (b + total)), (wrap_id 64 (b + z)) in H by lia.
  rewrite (proj2 (Z.ltb_ge (b + total) (b + z))) in H by lia.
  injection H as <- <- <-.
  assert (Hnone : ∀ a, b <= a < b + total → own a = None).
  { intros a Ha. destruct (own a) as [T|] eqn:HT; [exfalso|done].
    destruct (inv_given _ _ _ Hm a T HT) as (r & n & Hin & ?). destruct (Hdis r n Hin); lia. }
  exists (give b z (Live b) (give b total (Uncut t z) own)). split.
  - lia.
  - apply holds_give.
  - exists fs. split; [split|]; cbn [size free_objs num_elems_per_chunk]; try done.
    + intros a Ha. destruct (Hf a Ha) as (? & ? & Hh). split_and!; [done..|].
      apply holds_keep; [apply holds_keep; [done|]|].
      * intros c Hc. rewrite Hnone by lia. done.
      * intros c Hc. rewrite give_in by lia. done.
    + unfold chunk_ok. cbn [new_chunk chunks num_elems_per_chunk].
      exists (mk_chunk None (b + z) b (b + total)). cbn [cur bottom top]. split_and!; try lia.
      * rewrite lookup_app_r; [|destruct (new_chunk g); rewrite ?length_alter; lia].
        destruct (new_chunk g); rewrite ?length_alter; by rewrite Nat.sub_diag.
      * intros c Hc. rewrite give_out by lia. apply give_in. lia.
  - intros c a Hc. rewrite Hnone by lia. done.
  - intros c T HT. left. assert (Hout : c < b ∨ b + total <= c).
    { destruct (decide (c < b ∨ b + total <= c)) as [|Hin]; [done|]. rewrite Hnone in HT by lia. done. }
    rewrite !give_out by lia. done.
  - intros c T HT. destruct (decide (c < b ∨ b + total <= c)) as [Hout|Hin].
    + rewrite !give_out in HT by lia. destruct (inv_given _ _ _ Hm c T HT) as (r & n & ? & ?).
      exists r, n. split; [by right|done].
    + exists b, total. split; [by left|lia].
Qed.

(** cutting [z] bytes from what a chunk has left *)
Lemma cut_ok own s live t z g fs i c :
  memory_inv own s live → free_ok own (bytes s) t z g fs →
  new_chunk g = Some i → chunks g !! i = Some c → 0 < bottom c → bottom c <= cur c →
  cur c + z <= top c → top c < 2 ^ 63 → holds own (cur c) (top c - cur c) (Uncut t z) →
  z * num_elems_per_chunk g = top c - bottom c →
  ∃ own', allocated own s t z (cur c)
    (set_chunk i (mk_chunk (next_chunk c) (cur c + z) (bottom c) (top c)) g) (given s) own'.
Proof.
  intros Hm [Hsz Hz Hl Hnd Hf He] Hi Hc Hbot Hcur Htop Hmax Hun Hmul.
  exists (give (cur c) z (Live (cur c)) own). split.
  - lia.
  - apply holds_give.
  - exists fs. split; [split|]; try done.
    + intros a Ha. destruct (Hf a Ha) as (? & ? & Hh). split_and!; [done..|].
      apply holds_keep; [done|]. intros b Hb. rewrite Hun by lia. done.
    + unfold chunk_ok. cbn [set_chunk new_chunk chunks num_elems_per_chunk]. rewrite Hi.
      exists (mk_chunk (next_chunk c) (cur c + z) (bottom c) (top c)). cbn [cur bottom top].
      split_and!; try lia.
      * apply list_lookup_insert_eq. by eapply lookup_lt_Some.
      * intros b Hb. rewrite give_out by lia. apply Hun. lia.
  - intros b a Hb. rewrite Hun by lia. done.
  - intros b T HT. destruct (decide (b < cur c ∨ cur c + z <= b)) as [Hout|Hin].
    + left. by rewrite give_out.
    + right. right. rewrite Hun in HT by lia. by injection HT as <-.
  - intros b T HT. destruct (decide (b < cur c ∨ cur c + z <= b)) as [Hout|Hin].
    + rewrite give_out in HT by lia. by apply (inv_given _ _ _ Hm b T).
    + apply (inv_given _ _ _ Hm b (Uncut t z)). apply Hun. lia.
Qed.

(** reusing the first freed block *)
Lemma reuse_ok own s live t z g a fs :
  memory_inv own s live → group_ok own (bytes s) t z g (a :: fs) →
  free_objs g = a ∧ ∃ own', allocated own s t z a (set_free (read_next a (bytes s)) g) (given s) own'.
Proof.
  intros Hm [[Hsz Hz [Ha Hl] [Hna Hnd]%NoDup_cons Hf He] Hc]. split; [done|].
  destruct (Hf a) as (Ha0 & Hmax & Hown); [left|].
  exists (give a z (Live a) own). split.
  - done.
  - apply holds_give.
  - exists fs. split; [split|]; try done.
    + intros a' Ha'. destruct (Hf a') as (? & ? & Hh); [by right|]. split_and!; [done..|].
      apply holds_keep; [done|]. intros b Hb. rewrite Hown by lia. intros [= ->]. done.
    + unfold chunk_ok in *. cbn [set_free new_chunk chunks num_elems_per_chunk].
      destruct (new_chunk g) as [i|]; [|done]. destruct Hc as (c & ? & ? & ? & ? & ? & Hh & ?).
      exists c. split_and!; try done. apply holds_keep; [done|]. intros b Hb. rewrite Hown by lia. done.
  - intros b a' Hb. rewrite Hown by lia. done.
  - intros b T HT. destruct (decide (b < a ∨ a + z <= b)) as [Hout|Hin].
    + left. by rewrite give_out.
    + right. left. rewrite Hown in HT by lia. by injection HT as <-.
  - intros b T HT. destruct (decide (b < a ∨ a + z <= b)) as [Hout|Hin].
    + rewrite give_out in HT by lia. by apply (inv_given _ _ _ Hm b T).
    + apply (inv_given _ _ _ Hm b (Freed t z a)). apply Hown. lia.
Qed.

Lemma group_allocate_ok own s live t z g fs o :
  memory_inv own s live → group_ok own (bytes s) t z g fs →
  group_allocate sys_new g (bytes s) (given s) = Some o →
  ∃ p g' rs' own', o = Ok (p, g', rs') ∧ allocated own s t z p g' rs' own'.
Proof.
  intros Hm Hg H. unfold group_allocate in H. destruct fs as [|a fs].
  - destruct Hg as [Hfree Hc]. pose proof Hfree as [Hsz Hz Hl Hnd Hf He]. cbn [linked] in Hl.
    rewrite Hl in H. cbn in H.
    assert (Hnew : ∀ g1, free_ok own (bytes s) t z g1 [] → z * num_elems_per_chunk g1 < 2 ^ 64 →
      option_map Ok (from_new_chunk sys_new g1 (given s)) = Some o →
      ∃ p g' rs' own', o = Ok (p, g', rs') ∧ allocated own s t z p g' rs' own').
    { intros g1 Hg1 Hmul H1. destruct (from_new_chunk sys_new g1 (given s)) as [[[p g'] rs']|] eqn:Hfn; [|done].
      injection H1 as <-. destruct (from_new_chunk_ok own s live t z g1 [] p g' rs' Hm Hg1 Hmul Hfn) as [own' ?].
      by exists p, g', rs', own'. }
    unfold chunk_ok in Hc. destruct (new_chunk g) as [i|] eqn:Hi.
    + destruct Hc as (c & Hci & Hbot & Hcur & Htop & Hmax & Hun & Hmul). rewrite Hci in H.
      unfold chunk_allocate in H. rewrite Hsz, (wrap_id 64 (cur c + z)) in H by lia. cbn [top cur] in H.
      destruct (Z.ltb_spec (top c) (cur c + z)) as [Hfull|Hroom].
      * assert (Hn : num_elems_per_chunk g < 2 ^ 60) by nia.
        cbn in H. revert H. rewrite (proj2 (Z.ltb_lt _ HALF_MAX))
          by (unfold HALF_MAX; change ((2 ^ 64 - 1) / 2) with (2 ^ 63 - 1); lia).
        apply Hnew; cbn [set_num_elems set_chunk num_elems_per_chunk].
        -- split; cbn; try done. rewrite wrap_id; lia.
        -- rewrite wrap_id by lia. lia.
      * rewrite (proj2 (Z.eqb_neq (cur c) NULL)) in H by (unfold NULL; lia). injection H as <-.
        destruct (cut_ok own s live t z g [] i c Hm Hfree Hi Hci Hbot Hcur Hroom Hmax Hun Hmul) as [own' ?].
        by eexists _, _, _, own'.
    + apply (Hnew g); [done| |done]. rewrite Hc. unfold INITIAL_NUM_ELEMS. lia.
  - destruct (reuse_ok own s live t z g a fs Hm Hg) as [Ha [own' Hal]].
    rewrite Ha, (proj2 (Z.eqb_neq a NULL)) in H by (destruct Hal; unfold NULL; lia).
    cbn [negb] in H. injection H as <-. by eexists _, _, _, own'.
Qed.

Lemma center_allocate_ok own s live t cnt sz o :
  memory_inv own s live → 8 <= cnt * sz < 2 ^ 57 →
  center_allocate sys_new t cnt sz s = Some o →
  ∃ p s', o = Ok (p, s') ∧ bytes s' = bytes s ∧ 0 < p ∧
    (∀ a n, live !! a = Some n → a + n <= p ∨ p + cnt * sz <= a) ∧
    memory_ok s' (<[p := cnt * sz]> live).
Proof.
  intros Hm Hn H. unfold center_allocate, pool_allocate in H.
  rewrite (wrap_id 64 (cnt * sz)) in H by lia. set (z := cnt * sz) in *.
  destruct (get_group_ok own s live t z Hm Hn) as (g & fs & Hgg & Hg). rewrite Hgg in H.
  destruct (group_allocate sys_new g (bytes s) (given s)) as [o'|] eqn:Ha; [|done].
  destruct (group_allocate_ok own s live t z g fs o' Hm Hg Ha) as (p & g' & rs' & own' & -> & Hal).
  injection H as <-. destruct Hal as [Hr Hl [fs' Hg'] Hbef Hfr Hgiv].
  exists p. eexists. split; [done|]. split; [done|]. split; [lia|]. split.
  - intros a n Han. destruct (inv_live _ _ _ Hm a n Han) as (? & ? & ? & Hh).
    destruct (decide (a + n <= p ∨ p + z <= a)) as [|Hin]; [done|exfalso].
    apply (Hbef (Z.max a p) a); [lia|]. apply Hh. lia.
  - exists own'. split.
    + intros a n [(-> & <-)|(Hne & Han)]%lookup_insert_Some; [split_and!; [lia..|done]|].
      destruct (inv_live _ _ _ Hm a n Han) as (? & ? & ? & Hh). split_and!; [done..|].
      intros b Hb. destruct (Hfr b (Live a) (Hh b Hb)) as [?|[?|?]]; done.
    + cbn [pools bytes]. apply (put_group_ok own own' s (bytes s) t z g' fs' (given s)).
      * intros t' p' z' g'' ? ?. by eapply (inv_group _ _ _ Hm).
      * done.
      * intros t' z' g'' fs'' Hne Hg''. apply (group_ok_mono own own' (bytes s)); [done| |done].
        intros b T HT HTs. destruct (Hfr b T HT) as [?|[->| ->]]; [done|exfalso..];
          destruct HTs as [(? & _ & [=])|[=]]; by subst.
    + done.
Qed.
End Allocation.

(** ** Deallocation and the blocks' contents *)

Lemma center_deallocate_ok own s live t p cnt sz :
  memory_inv own s live → live !! p = Some (cnt * sz) → cnt * sz < 2 ^ 57 →
  ∃ s', center_deallocate t p cnt sz s = Ok s' ∧ memory_ok s' (delete p live) ∧
    ∀ b, b < p ∨ p + cnt * sz <= b → bytes s' !! b = bytes s !! b.
Proof.
  intros Hm Hp Hn. destruct (inv_live _ _ _ Hm p _ Hp) as (Hp0 & Hn8 & Hmax & Hh).
  unfold center_deallocate, pool_deallocate. rewrite (wrap_id 64 (cnt * sz)) by lia.
  set (z := cnt * sz) in *.
  destruct (get_group_ok own s live t z Hm ltac:(lia)) as (g & fs & -> & Hg).
  cbn [res_bind group_deallocate]. eexists. split; [done|].
  set (m' := write_next p (free_objs g) (bytes s)).
  assert (Hout : ∀ b, b < p ∨ p + z <= b → m' !! b = bytes s !! b).
  { intros b Hb. apply store_bytes_out. simpl. lia. }
  split; [|done]. set (own' := give p z (Freed t z p) own).
  assert (Hown : ∀ b T, own b = Some T → T ≠ Live p → own' b = Some T).
  { intros b T HT Hne. unfold own'. rewrite give_out; [done|].
    destruct (decide (b < p ∨ p + z <= b)) as [|Hin]; [done|]. rewrite Hh in HT by lia. congruence. }
  assert (Hbytes : ∀ b T, own b = Some T → T ≠ Live p → m' !! b = bytes s !! b).
  { intros b T HT Hne. apply Hout. destruct (decide (b < p ∨ p + z <= b)) as [|Hin]; [done|].
    rewrite Hh in HT by lia. congruence. }
  assert (Hkeep : ∀ t' z' g' fs', group_ok own (bytes s) t' z' g' fs' → group_ok own' m' t' z' g' fs').
  { intros t' z' g' fs' Hg'. apply (group_ok_mono own own' (bytes s)); [done|..].
    - intros b T HT HTs. apply Hown; [done|]. by destruct HTs as [(? & _ & ->)| ->].
    - intros b a Hb _. by apply (Hbytes b _ Hb). }
  exists own'. split.
  - intros a n [Hne Han]%lookup_delete_Some. destruct (inv_live _ _ _ Hm a n Han) as (? & ? & ? & Hha).
    split_and!; [done..|]. intros b Hb. apply Hown; [by apply Hha|congruence].
  - cbn [pools bytes].
    apply (put_group_ok own own' s m' t z (set_free p g) (p :: fs) (given s)).
    + intros t' p' z' g'' ? ?. by eapply (inv_group _ _ _ Hm).
    + destruct (Hkeep _ _ _ _ Hg) as [[Hsz Hz Hl Hnd Hf He] Hc].
      assert (Hnotin : p ∉ fs).
      { intros Hin. destruct Hg as [[_ _ _ _ Hf0 _] _]. destruct (Hf0 p Hin) as (_ & _ & Hfp).
        pose proof (Hfp p ltac:(lia)). pose proof (Hh p ltac:(lia)). congruence. }
      split; [split|done]; cbn [set_free size free_objs num_elems_per_chunk]; try done.
      * split; [done|]. unfold m', write_next, read_next. rewrite load_store_bytes; [done|].
        destruct Hg as [[_ _ Hl0 _ Hf0 _] _]. destruct fs as [|a fs]; cbn [linked] in Hl0.
        -- rewrite Hl0. done.
        -- destruct Hl0 as [-> _]. destruct (Hf0 a) as (? & ? & _); [left|].
           change (256 ^ Z.of_nat 8) with (2 ^ 64). lia.
      * by apply NoDup_cons.
      * intros a [->|Ha]%elem_of_cons; [|by apply Hf]. split_and!; [done..|]. apply holds_give.
    + intros t' z' g' fs' _. apply Hkeep.
  - intros b T HT. destruct (decide (b < p ∨ p + z <= b)) as [Ho|Hin].
    + unfold own' in HT. rewrite give_out in HT by done. by apply (inv_given _ _ _ Hm b T).
    + apply (inv_given _ _ _ Hm b (Live p)). apply Hh. lia.
Qed.

(** what the program writes to its blocks *)
Definition write (m : memory) (s : memory_system) : memory_system := mk_system m (given s) (pools s).

Lemma write_ok own s live m :
  memory_inv own s live →
  (∀ b, m !! b ≠ bytes s !! b → ∃ a n, live !! a = Some n ∧ a <= b < a + n) →
  memory_inv own (write m s) live.
Proof.
  intros [Hl Hg Hgiv] Hm. split; [done| |done].
  intros t p z g Hp Hz. destruct (Hg t p z g Hp Hz) as [fs Hfs]. exists fs.
  apply (group_ok_mono own own (bytes s)); [done|done|]. intros b a Hb _.
  destruct (decide (m !! b = bytes s !! b)) as [|Hne]; [done|].
  destruct (Hm b Hne) as (a' & n & Ha' & Hin). destruct (Hl a' n Ha') as (_ & _ & _ & Hh).
  rewrite Hh in Hb by done. done.
Qed.

(** C21: The pools give blocks: what is allocated overlaps no block in use, whichever threads
    allocated and freed before and whatever was written to the blocks; allocation changes
    no byte and freeing only bytes of the block that is freed, and no assertion fails.
    Blocks are of 8 bytes or more.  None is answered where the system throws. *)
Theorem center_refines sys_new :
  (∀ rs n b, 0 <= n → sys_new rs n = Some b →
     0 < b ∧ b + n < 2 ^ 63 ∧ ∀ r k, (r, k) ∈ rs → r + k <= b ∨ b + n <= r) →
  memory_ok empty_system ∅ ∧
  ∀ s live, memory_ok s live →
    (∀ t cnt sz o, 8 <= cnt * sz < 2 ^ 57 → center_allocate sys_new t cnt sz s = Some o →
       ∃ p s', o = Ok (p, s') ∧ bytes s' = bytes s ∧ 0 < p ∧
         (∀ a n, live !! a = Some n → a + n <= p ∨ p + cnt * sz <= a) ∧
         memory_ok s' (<[p := cnt * sz]> live)) ∧
    (∀ t p cnt sz, live !! p = Some (cnt * sz) → cnt * sz < 2 ^ 57 →
       ∃ s', center_deallocate t p cnt sz s = Ok s' ∧ memory_ok s' (delete p live) ∧
         ∀ b, b < p ∨ p + cnt * sz <= b → bytes s' !! b = bytes s !! b) ∧
    (∀ m, (∀ b, m !! b ≠ bytes s !! b → ∃ a n, live !! a = Some n ∧ a <= b < a + n) →
       memory_ok (write m s) live).
Proof.
  intros Hsys. split.
  - exists (λ _, None). split; [by intros a n Ha; rewrite lookup_empty in Ha| |done].
    intros t p z g Hp. cbn in Hp. by rewrite lookup_empty in Hp.
  - intros s live [own Hm]. split_and!.
    + intros t cnt sz o Hn Ho. by apply (center_allocate_ok sys_new Hsys own s live t cnt sz o).
    + intros t p cnt sz Hp Hn. by apply (center_deallocate_ok own s live).
    + intros m Hw. exists own. by apply write_ok.
Qed.

(** ** A system and a run *)

(** memory from 4096 on, each region after the last *)
Definition next_region (rs : regions) (n : Z) : option Z :=
  let b := foldr (λ r, Z.max (fst r + snd r)) 4096 rs in
  if b + n <? 2 ^ 63 then Some b else None.

Lemma next_region_ok rs n b :
  0 <= n → next_region rs n = Some b →
  0 < b ∧ b + n < 2 ^ 63 ∧ ∀ r k, (r, k) ∈ rs → r + k <= b ∨ b + n <= r.
Proof.
  unfold next_region. intros Hn H. destruct (Z.ltb_spec (foldr (λ r, Z.max (fst r + snd r)) 4096 rs + n) (2 ^ 63));
    [|done]. injection H as <-. split; [|split; [done|]].
  - induction rs as [|r rs IH]; cbn [foldr] in *; lia.
  - intros r k Hin. left. clear -Hin. induction rs as [|[r' k'] rs IH]; [by apply elem_of_nil in Hin|].
    cbn [foldr fst snd]. apply elem_of_cons in Hin as [[= <- <-]|Hin]; [lia|]. specialize (IH Hin). lia.
Qed.

Lemma center_refines_witness :
  memory_ok empty_system ∅ ∧
  ∃ p s', center_allocate next_region 3 1 24 empty_system = Some (Ok (p, s')) ∧
    memory_ok s' (<[p := 24]> ∅).
Proof.
  destruct (center_refines next_region next_region_ok) as [H0 H]. split; [exact H0|].
  destruct (H empty_system ∅ H0) as [Hal _].
  destruct (Hal 3%nat 1 24 _ ltac:(lia) eq_refl) as (p & s' & He & _ & _ & _ & Hok).
  exists p, s'. split; [|exact Hok]. rewrite <-He. reflexivity.
Defined.

(** a run: the address of each allocation *)
Definition allocate_at (t : nat) (z : Z) (s : memory_system) : option (Z * memory_system) :=
  match center_allocate next_region t z 1 s with Some (Ok r) => Some r | _ => None end.
Definition free_at (t : nat) (p z : Z) (s : memory_system) : memory_system :=
  match center_deallocate t p z 1 s with Ok s => s | Err _ => s end.

(** a block freed by another thread goes to that thread's next request *)
Example block_changes_thread :
  match allocate_at 0 16 empty_system with
  | Some (p, s) =>
      match allocate_at 0 16 s with
      | Some (q, s) =>
          let s := free_at 1 p 16 s in
          option_map fst (allocate_at 1 16 s) = Some p ∧ q = p + 16
      | None => False
      end
  | None => False
  end.
Proof. vm_compute. done. Qed.

(** A block of less than 8 bytes has no room for the link of the list of freed blocks:
    freeing one of 4 bytes changes the block after it, which is in use.  ([ATOM_SIZE] of
    the pool, which is 4, is used nowhere.)  The program's own types are larger. *)
Theorem small_block_corrupts :
  ∃ p q r s1 s2 s3,
    allocate_at 0 4 empty_system = Some (p, s1) ∧ allocate_at 0 4 s1 = Some (q, s2) ∧
    allocate_at 0 4 s2 = Some (r, s3) ∧
    let s4 := free_at 0 r 4 (write (store_bytes 4 q 7 (bytes s3)) s3) in
    load_bytes 4 q (bytes s4) = 7 ∧ load_bytes 4 q (bytes (free_at 0 p 4 s4)) = 0.
Proof.
  eexists _, _, _, _, _, _. split; [vm_compute; reflexivity|]. split; [vm_compute; reflexivity|].
  split; [vm_compute; reflexivity|]. vm_compute. done.
Qed.
