(* ===== verification/Sim.v ===== *)
(** The scheduler of the simulator: [sched/sim.{hpp,cpp}], [sched/nodes/sim.hpp] and
    [queue/safe_general_pqueue.hpp].  An external process makes the nodes, tells which
    nodes are at which faces of which, and lets nodes run up to a time.  The socket is
    what has been written to it and, at every round, what there is to read; clocks are
    arguments. *)

From Stdlib Require Import ZArith Lia Bool String.
From stdpp Require Import base tactics list numbers option gmap sorting.
From S2P Require Import Prelude Words Types RuntimeList Tuple SimpleTuple Heap Pqueues Node Loader.

#[local] Open Scope Z_scope.

(** ** [queue/safe_general_pqueue.hpp]

    The items with their priorities in the order they were pushed.  The comparator of
    the [std::priority_queue] is [<], so [top] has the greatest priority; which of
    several is not specified, here it is the first. *)

Section GeneralPqueue.
Context {T : Type}.

Definition general_pqueue : Type := list (T * Z).

Definition general_push (item : T) (priority : Z) (q : general_pqueue) : general_pqueue :=
  q ++ [(item, priority)].

Definition general_size (q : general_pqueue) : nat := length q.
Definition general_empty (q : general_pqueue) : bool := match q with [] => true | _ => false end.

(** the top and the others *)
Fixpoint general_top (q : general_pqueue) : option (T * Z * general_pqueue) :=
  match q with
  | [] => None
  | x :: q =>
      match general_top q with
      | None => Some (x, [])
      | Some (y, q') => if snd x <? snd y then Some (y, x :: q') else Some (x, q)
      end
  end.

Definition general_top_priority (q : general_pqueue) : res Z :=
  let* r := of_option (general_top q) in Ok (snd (fst r)).

Definition general_pop (q : general_pqueue) : res (T * general_pqueue) :=
  let* r := of_option (general_top q) in Ok (fst (fst r), snd r).
End GeneralPqueue.
Arguments general_pqueue T : clear implicits.

(** ** [sched/nodes/sim.hpp] *)

(** [face_t]: an [int] *)
Definition face_t : Type := Z.
Definition INVALID_FACE : face_t := -1.
Definition BOTTOM : face_t := 0.
Definition NORTH : face_t := 1.
Definition EAST : face_t := 2.
Definition WEST : face_t := 3.
Definition SOUTH : face_t := 4.
Definition TOP : face_t := 5.
Definition INITIAL_FACE : face_t := BOTTOM.
Definition FINAL_FACE : face_t := TOP.

(** the faces that [++] takes the loops through *)
Definition all_faces : list face_t := [BOTTOM; NORTH; EAST; WEST; SOUTH; TOP].

(** [(vm::node_val)-1] *)
Definition NO_NEIGHBOR : Z := wrap 32 (-1).

(** [process::work]: the node by its id *)
Record work : Type := mk_work { work_node : Z; work_tuple : simple_tuple }.

(** What [sim_node] adds to [db::node].  [rtype] is the [typ] of [rtuple_pqueue], which
    the constructor does not set; [pending] has the elements of the queue in order. *)
Record sim_node : Type := mk_sim_node {
  top : Z;
  bottom : Z;
  east : Z;
  west : Z;
  north : Z;
  south : Z;
  node_delay_queue : general_pqueue work;
  instantiated_flag : bool;
  neighbor_count : Z;
  timestamp : Z;
  tuple_pqueue : list (heap_queue.heap_object (T := simple_tuple));
  rtuple_pqueue : list (heap_queue.heap_object (T := simple_tuple));
  rtype : heap_type;
  pending : list simple_tuple
}.

(** [typ] is what the memory of the new node holds; any value that is no [heap_type]
    compares as HEAP_FLOAT_DESC does *)
Definition new_sim_node (typ : heap_type) : sim_node :=
  mk_sim_node NO_NEIGHBOR NO_NEIGHBOR NO_NEIGHBOR NO_NEIGHBOR NO_NEIGHBOR NO_NEIGHBOR
    [] false 0 0 [] [] typ [].

Definition set_node_delay (q : general_pqueue work) (n : sim_node) : sim_node :=
  mk_sim_node (top n) (bottom n) (east n) (west n) (north n) (south n) q (instantiated_flag n)
    (neighbor_count n) (timestamp n) (tuple_pqueue n) (rtuple_pqueue n) (rtype n) (pending n).
Definition set_instantiated (flag : bool) (n : sim_node) : sim_node :=
  mk_sim_node (top n) (bottom n) (east n) (west n) (north n) (south n) (node_delay_queue n) flag
    (neighbor_count n) (timestamp n) (tuple_pqueue n) (rtuple_pqueue n) (rtype n) (pending n).
Definition set_neighbor_count (c : Z) (n : sim_node) : sim_node :=
  mk_sim_node (top n) (bottom n) (east n) (west n) (north n) (south n) (node_delay_queue n)
    (instantiated_flag n) c (timestamp n) (tuple_pqueue n) (rtuple_pqueue n) (rtype n) (pending n).
Definition set_timestamp (t : Z) (n : sim_node) : sim_node :=
  mk_sim_node (top n) (bottom n) (east n) (west n) (north n) (south n) (node_delay_queue n)
    (instantiated_flag n) (neighbor_count n) t (tuple_pqueue n) (rtuple_pqueue n) (rtype n)
    (pending n).
Definition set_pqueues (q r : list (heap_queue.heap_object (T := simple_tuple))) (n : sim_node)
    : sim_node :=
  mk_sim_node (top n) (bottom n) (east n) (west n) (north n) (south n) (node_delay_queue n)
    (instantiated_flag n) (neighbor_count n) (timestamp n) q r (rtype n) (pending n).
Definition set_pending (l : list simple_tuple) (n : sim_node) : sim_node :=
  mk_sim_node (top n) (bottom n) (east n) (west n) (north n) (south n) (node_delay_queue n)
    (instantiated_flag n) (neighbor_count n) (timestamp n) (tuple_pqueue n) (rtuple_pqueue n)
    (rtype n) l.

Definition inc_neighbor_count (n : sim_node) : sim_node :=
  set_neighbor_count (wrap 64 (neighbor_count n + 1)) n.
Definition dec_neighbor_count (n : sim_node) : sim_node :=
  set_neighbor_count (wrap 64 (neighbor_count n - 1)) n.

(** [now] is [utils::get_timestamp()] *)
Definition add_delay_work (now : Z) (w : work) (milliseconds : Z) (n : sim_node) : sim_node :=
  set_node_delay (general_push w (wrap 64 (now + milliseconds)) (node_delay_queue n)) n.

Definition delayed_available (now : Z) (n : sim_node) : res bool :=
  if general_empty (node_delay_queue n) then Ok false
  else let* best := general_top_priority (node_delay_queue n) in Ok (best <? now).

(** the loop takes an item in every round *)
Fixpoint take_delayed (fuel : nat) (now : Z) (q : general_pqueue work) (ls : list simple_tuple)
    : res (general_pqueue work * list simple_tuple) :=
  match fuel with
  | O => Err undefined_behaviour
  | S fuel =>
      if general_empty q then Ok (q, ls)
      else
        let* best := general_top_priority q in
        if best <? now then
          let* r := general_pop q in
          take_delayed fuel now (snd r) (ls ++ [work_tuple (fst r)])
        else Ok (q, ls)
  end.

Definition add_delayed_tuples (now : Z) (n : sim_node) (ls : list simple_tuple)
    : res (sim_node * list simple_tuple) :=
  let* r := take_delayed (S (length (node_delay_queue n))) now (node_delay_queue n) ls in
  Ok (set_node_delay (fst r) n, snd r).

(** what the pointer that [get_node_at_face] returns points to *)
Definition node_at_face (face : face_t) (n : sim_node) : res Z :=
  if face =? BOTTOM then Ok (bottom n)
  else if face =? NORTH then Ok (north n)
  else if face =? EAST then Ok (east n)
  else if face =? WEST then Ok (west n)
  else if face =? SOUTH then Ok (south n)
  else if face =? TOP then Ok (top n)
  else Err assert_fail.

(** [v] is written through it *)
Definition put_at_face (face : face_t) (v : Z) (n : sim_node) : sim_node :=
  let at_ f old := if face =? f then v else old in
  mk_sim_node (at_ TOP (top n)) (at_ BOTTOM (bottom n)) (at_ EAST (east n)) (at_ WEST (west n))
    (at_ NORTH (north n)) (at_ SOUTH (south n)) (node_delay_queue n) (instantiated_flag n)
    (neighbor_count n) (timestamp n) (tuple_pqueue n) (rtuple_pqueue n) (rtype n) (pending n).

Definition get_face (node : Z) (n : sim_node) : face_t :=
  if node =? bottom n then BOTTOM
  else if node =? north n then NORTH
  else if node =? east n then EAST
  else if node =? west n then WEST
  else if node =? south n then SOUTH
  else if node =? top n then TOP
  else INVALID_FACE.

Definition sim_has_work (n : sim_node) : bool := negb (heap_queue.empty (tuple_pqueue n)).

(** one of the two loops of [get_tuples_until_timestamp]; a priority is an [int] that is
    converted to [size_t] *)
Fixpoint take_until (fuel : nat) (typ : heap_type) (until : Z)
    (heap : list (heap_queue.heap_object (T := simple_tuple))) (ls : list simple_tuple)
    : res (list heap_queue.heap_object * list simple_tuple) :=
  match fuel with
  | O => Err undefined_behaviour
  | S fuel =>
      if heap_queue.empty heap then Ok (heap, ls)
      else
        let* pr := heap_queue.min_value heap in
        if until <? wrap 64 (int_priority pr) then Ok (heap, ls)
        else
          let* r := heap_queue.pop typ heap in
          take_until fuel typ until (snd r) (ls ++ [fst r])
  end.

Definition get_tuples_until_timestamp (until : Z) (n : sim_node) (ls : list simple_tuple)
    : res (sim_node * list simple_tuple) :=
  let* r := take_until (S (length (tuple_pqueue n))) HEAP_INT_ASC until (tuple_pqueue n) ls in
  let '(q, ls) := r in
  let* r := take_until (S (length (rtuple_pqueue n))) (rtype n) until (rtuple_pqueue n) ls in
  let '(rq, ls) := r in
  Ok (set_pqueues q rq n, ls).

(** [assert_end] and [assert_end_iteration] *)
Definition sim_assert_end (n : sim_node) : res unit := asserting (negb (sim_has_work n)) (Ok ()).

(** ** [sched/sim.hpp] *)

Definition MAXLENGTH : nat := 64.

Record work_info : Type := mk_info {
  info_work : work;
  info_timestamp : Z;
  info_src : option Z
}.

Record sim_preds : Type := mk_preds {
  neighbor_pred : option predicate;
  tap_pred : option predicate;
  neighbor_count_pred : option predicate;
  accel_pred : option predicate;
  shake_pred : option predicate;
  vacant_pred : option predicate
}.

(** the static members *)
Record sim_flags : Type := mk_flags {
  thread_mode : bool;
  stop_all : bool;
  all_instantiated : bool;
  start_time : Z
}.

(** the counters of [vm/state.hpp] *)
Record sim_instr : Type := mk_sim_instr {
  sim_instr_counter : Z;
  sim_instr_limit : Z;
  sim_instr_use : bool
}.

(** The master.  [sim_nodes] has the simulator's part of every node of the database;
    [slaves] are the nodes that got a thread; [written] is what went to the socket. *)
Record sim_sched : Type := mk_sim {
  current_node : option Z;
  tmp_work : list work_info;
  delay_queue : general_pqueue work_info;
  preds : sim_preds;
  flags : sim_flags;
  socket_messages : list (list byte);
  instr : sim_instr;
  DATABASE : database;
  sim_nodes : gmap Z sim_node;
  slaves : list Z;
  mem : memory;
  written : list (list byte)
}.

Definition set_current (c : option Z) (s : sim_sched) : sim_sched :=
  mk_sim c (tmp_work s) (delay_queue s) (preds s) (flags s) (socket_messages s) (instr s)
    (DATABASE s) (sim_nodes s) (slaves s) (mem s) (written s).
Definition set_tmp_work (l : list work_info) (s : sim_sched) : sim_sched :=
  mk_sim (current_node s) l (delay_queue s) (preds s) (flags s) (socket_messages s) (instr s)
    (DATABASE s) (sim_nodes s) (slaves s) (mem s) (written s).
Definition set_delay_queue (q : general_pqueue work_info) (s : sim_sched) : sim_sched :=
  mk_sim (current_node s) (tmp_work s) q (preds s) (flags s) (socket_messages s) (instr s)
    (DATABASE s) (sim_nodes s) (slaves s) (mem s) (written s).
Definition set_preds (p : sim_preds) (s : sim_sched) : sim_sched :=
  mk_sim (current_node s) (tmp_work s) (delay_queue s) p (flags s) (socket_messages s) (instr s)
    (DATABASE s) (sim_nodes s) (slaves s) (mem s) (written s).
Definition set_flags (f : sim_flags) (s : sim_sched) : sim_sched :=
  mk_sim (current_node s) (tmp_work s) (delay_queue s) (preds s) f (socket_messages s) (instr s)
    (DATABASE s) (sim_nodes s) (slaves s) (mem s) (written s).
Definition set_messages (l : list (list byte)) (s : sim_sched) : sim_sched :=
  mk_sim (current_node s) (tmp_work s) (delay_queue s) (preds s) (flags s) l (instr s)
    (DATABASE s) (sim_nodes s) (slaves s) (mem s) (written s).
Definition set_instr (i : sim_instr) (s : sim_sched) : sim_sched :=
  mk_sim (current_node s) (tmp_work s) (delay_queue s) (preds s) (flags s) (socket_messages s) i
    (DATABASE s) (sim_nodes s) (slaves s) (mem s) (written s).
Definition set_database (db : database) (s : sim_sched) : sim_sched :=
  mk_sim (current_node s) (tmp_work s) (delay_queue s) (preds s) (flags s) (socket_messages s)
    (instr s) db (sim_nodes s) (slaves s) (mem s) (written s).
Definition put_sim (id : Z) (n : sim_node) (s : sim_sched) : sim_sched :=
  mk_sim (current_node s) (tmp_work s) (delay_queue s) (preds s) (flags s) (socket_messages s)
    (instr s) (DATABASE s) (<[id := n]> (sim_nodes s)) (slaves s) (mem s) (written s).
Definition add_slave (id : Z) (s : sim_sched) : sim_sched :=
  mk_sim (current_node s) (tmp_work s) (delay_queue s) (preds s) (flags s) (socket_messages s)
    (instr s) (DATABASE s) (sim_nodes s) (slaves s ++ [id]) (mem s) (written s).
Definition set_mem (m : memory) (s : sim_sched) : sim_sched :=
  mk_sim (current_node s) (tmp_work s) (delay_queue s) (preds s) (flags s) (socket_messages s)
    (instr s) (DATABASE s) (sim_nodes s) (slaves s) m (written s).

(** [boost::asio::write] of the first [n] bytes of [buf] *)
Definition write_socket (n : nat) (buf : list byte) (s : sim_sched) : res sim_sched :=
  if (n <=? length buf)%nat then
    Ok (mk_sim (current_node s) (tmp_work s) (delay_queue s) (preds s) (flags s)
          (socket_messages s) (instr s) (DATABASE s) (sim_nodes s) (slaves s) (mem s)
          (written s ++ [take n buf]))
  else Err undefined_behaviour.

(** a node of the database, as a [sim_node] *)
Definition sim_of (id : Z) (s : sim_sched) : res sim_node :=
  let* _ := find_node id (DATABASE s) in of_option (sim_nodes s !! id).

(** an array of [message_type]s as bytes, and the length to write: its first word and
    itself *)
Definition message_bytes (ws : list Z) : list byte := array_bytes 8 ws.
Definition message_length (size : Z) : nat := Z.to_nat (wrap 64 (size + 8)).

(** ** [sched/sim.cpp] *)

Definition SEND_MESSAGE : Z := 12.
Definition NODE_RUN : Z := 3.
Definition SET_COLOR : Z := 8.
Definition TIME_TO_INSTANTIATE : Z := 500.

Section Simulator.
(** the program; the database's [create_node]; what the memory of the node with an id
    holds where its heap's type is, and what the other half of a [heap_priority] does;
    the order of pointers in a set of nodes *)
Context (PROGRAM : program) (create_fn : Z → Z → node) (rtype_of : Z → heap_type)
  (upper : Z) (by_address : gset Z → list Z).

(** [pr.int_priority = ts] *)
Definition int_prio (ts : Z) : heap_priority := Z.shiftl upper 32 + wrap 32 ts.

(** a predicate of the program with its number of fields, or NULL with a warning *)
Definition find_pred (name : string) (n : nat) : res (option predicate) :=
  match get_predicate_by_name PROGRAM name with
  | None => Ok None
  | Some p => asserting (num_fields p =? n)%nat (Ok (Some p))
  end.

(** [init] of the master after it has connected; [now] is the time *)
Definition sim_init (num_threads now : Z) (s : sim_sched) : res sim_sched :=
  asserting (num_threads =? 1) (asserting (num_nodes (DATABASE s) =? 0)%nat
    (let* neighbor := find_pred "neighbor" 2 in
     let* tap := find_pred "tap" 0 in
     let* count := find_pred "neighborCount" 1 in
     let* accel := find_pred "accel" 1 in
     let* shake := find_pred "shake" 3 in
     let* vacant := find_pred "vacant" 1 in
     let f := flags s in
     Ok (set_flags (mk_flags (thread_mode f) (stop_all f) (all_instantiated f) now)
           (set_preds (mk_preds neighbor tap count accel shake vacant) s)))).

(** a tuple by its count into the heap of facts or of retractions *)
Definition insert_by_count (stpl : simple_tuple) (pr : heap_priority) (n : sim_node) : sim_node :=
  if 0 <? get_count stpl
  then set_pqueues (heap_queue.insert HEAP_INT_ASC stpl pr (tuple_pqueue n)) (rtuple_pqueue n) n
  else set_pqueues (tuple_pqueue n) (heap_queue.insert (rtype n) stpl pr (rtuple_pqueue n)) n.

Definition push_pending (stpl : simple_tuple) (n : sim_node) : sim_node :=
  set_pending (pending n ++ [stpl]) n.

(** [now] is read in both branches *)
Definition new_work_delay (now : Z) (src : option Z) (w : work) (delay : Z) (s : sim_sched)
    : res sim_sched :=
  if thread_mode (flags s) then
    let* to := sim_of (work_node w) s in
    Ok (put_sim (work_node w) (add_delay_work now w delay to) s)
  else
    let info := mk_info w (sim_instr_counter (instr s)) src in
    Ok (set_delay_queue (general_push info (wrap 64 (now + delay)) (delay_queue s)) s).

Definition sim_new_work (src : option Z) (w : work) (s : sim_sched) : res sim_sched :=
  let* to := sim_of (work_node w) s in
  if thread_mode (flags s) then Ok (put_sim (work_node w) (push_pending (work_tuple w) to) s)
  else
    match current_node s with
    | None => Ok (put_sim (work_node w) (insert_by_count (work_tuple w) (int_prio 0) to) s)
    | Some _ =>
        Ok (set_tmp_work (tmp_work s ++ [mk_info w (sim_instr_counter (instr s)) src]) s)
    end.

Definition sim_new_agg (w : work) (s : sim_sched) : res sim_sched :=
  sim_new_work (Some (work_node w)) w s.

(** [base::init_node]: the init tuple; the node's owner is the master *)
Definition sim_init_node (id : Z) (s : sim_sched) : res sim_sched :=
  let* p := get_init_predicate PROGRAM None in
  sim_new_work (Some id) (mk_work id (create_new (new_tuple p))) s.

(** every message is written with its length in its first word *)
Fixpoint write_messages (ms : list (list byte)) (s : sim_sched) : res sim_sched :=
  match ms with
  | [] => Ok s
  | m :: ms =>
      let* s := write_socket (message_length (le_value (take 8 m))) m s in
      write_messages ms s
  end.

Definition send_pending_messages (s : sim_sched) : res sim_sched :=
  write_messages (socket_messages s) (set_messages [] s).

Definition schedule_new_message (data : list byte) (s : sim_sched) : res sim_sched :=
  if thread_mode (flags s) then Ok (set_messages (socket_messages s ++ [data]) s)
  else write_socket (message_length (le_value (take 8 data))) data s.

(** colors are [int]s *)
Definition set_color (id r g b : Z) (s : sim_sched) : res sim_sched :=
  schedule_new_message
    (message_bytes [7 * 8; SET_COLOR; 0; id; wrap 64 r; wrap 64 g; wrap 64 b; 0]) s.

Definition add_received_tuple (id ts : Z) (stpl : simple_tuple) (s : sim_sched) : res sim_sched :=
  let* n := sim_of id s in
  if thread_mode (flags s) then Ok (put_sim id (push_pending stpl n) s)
  else Ok (put_sim id (insert_by_count stpl (int_prio ts) n) s).

(** nothing without the predicate; a [ref_count] is a short *)
Definition with_fact (p : option predicate) (count id ts : Z) (build : tuple → res tuple)
    (s : sim_sched) : res sim_sched :=
  match p with
  | None => Ok s
  | Some p =>
      let* t := build (new_tuple p) in
      add_received_tuple id ts (new_simple_tuple t (swrap 16 count)) s
  end.

Definition add_neighbor (ts id out : Z) (face : face_t) (count : Z) (s : sim_sched) : res sim_sched :=
  with_fact (neighbor_pred (preds s)) count id ts
    (λ t, let* t := set_node t 0 out in set_int t 1 face) s.

Definition add_neighbor_count (ts id total count : Z) (s : sim_sched) : res sim_sched :=
  with_fact (neighbor_count_pred (preds s)) count id ts (λ t, set_int t 0 total) s.

Definition add_vacant (ts id : Z) (face : face_t) (count : Z) (s : sim_sched) : res sim_sched :=
  with_fact (vacant_pred (preds s)) count id ts (λ t, set_int t 0 face) s.

(** a member of the node is changed *)
Definition alter_sim (id : Z) (f : sim_node → sim_node) (s : sim_sched) : res sim_sched :=
  let* n := sim_of id s in Ok (put_sim id (f n) s).

(** the loop over faces *)
Fixpoint instantiate_faces (id : Z) (fs : list face_t) (s : sim_sched) : res sim_sched :=
  match fs with
  | [] => Ok s
  | f :: fs =>
      let* n := sim_of id s in
      let* neighbor := node_at_face f n in
      let* s := if neighbor =? NO_NEIGHBOR then add_vacant 0 id f 1 s
                else add_neighbor 0 id neighbor f 1 s in
      instantiate_faces id fs s
  end.

Definition instantiate_node (id : Z) (s : sim_sched) : res sim_sched :=
  let* s := alter_sim id (set_instantiated true) s in
  let* n := sim_of id s in
  let* s := add_neighbor_count 0 id (neighbor_count n) 1 s in
  instantiate_faces id all_faces s.

Fixpoint instantiate_nodes (ids : list Z) (s : sim_sched) : res sim_sched :=
  match ids with
  | [] => Ok s
  | id :: ids => let* s := instantiate_node id s in instantiate_nodes ids s
  end.

(** the nodes of a [std::map] come by their ids *)
Definition node_ids (db : database) : list Z := merge_sort Z.le (elements (dom (nodes db))).

Definition instantiate_all_nodes (s : sim_sched) : res sim_sched :=
  asserting (negb (all_instantiated (flags s))) (asserting (thread_mode (flags s))
    (instantiate_nodes (node_ids (DATABASE s)) s)).

(** the words before the tuple are written as [message_type]s; what the array held
    behind them does not matter *)
Definition send_send_message (info : work_info) (ts : Z) (s : sim_sched) : res sim_sched :=
  let stpl := work_tuple (info_work info) in
  let* stpl_size := storage_size (mem s) stpl in
  let msg_size := 4 * 8 + stpl_size in
  let id := work_node (info_work info) in
  let* _ := sim_of id s in
  let* src := of_option (info_src info) in
  let* n := sim_of src s in
  let header := [msg_size; SEND_MESSAGE; ts; src; wrap 64 (get_face id n)] in
  let reply := message_bytes header ++ replicate (8 * MAXLENGTH - 40) 0 in
  let* r := SimpleTuple.pack (mem s) stpl reply (msg_size + 8) 40 in
  let '(reply, pos) := r in
  asserting (pos =? msg_size + 8)
    (let* m := wipeout (mem s) stpl in
     write_socket (message_length msg_size) reply (set_mem m s)).

Fixpoint send_all (l : list work_info) (s : sim_sched) : res sim_sched :=
  match l with
  | [] => Ok s
  | info :: l => let* s := send_send_message info (info_timestamp info) s in send_all l s
  end.

(** the nodes that work was for, and the current one if it still has some *)
Definition touched (c : Z) (n : sim_node) (l : list work_info) : gset Z :=
  list_to_set (map (λ i, work_node (info_work i)) l) ∪
  match pending n with [] => ∅ | _ => {[c]} end.

(** words in an array of [MAXLENGTH] *)
Definition write_reply (ws : list Z) (size : Z) (s : sim_sched) : res sim_sched :=
  if (length ws <=? MAXLENGTH)%nat then write_socket (message_length size) (message_bytes ws) s
  else Err undefined_behaviour.

Definition handle_deterministic_computation (s : sim_sched) : res sim_sched :=
  let work := tmp_work s in
  let* s := send_all work s in
  let s := set_tmp_work [] s in
  let* c := of_option (current_node s) in
  let* n := sim_of c s in
  let nodes := by_address (touched c n work) in
  let count := Z.of_nat (length nodes) in
  let ts := sim_instr_counter (instr s) in
  let s := put_sim c (set_timestamp ts n) s in
  let size := (4 + count) * 8 in
  let* s := write_reply ([size; NODE_RUN; ts; c; count] ++ nodes) size s in
  Ok (set_current None s).

(** the loop over faces of a new node *)
Fixpoint add_vacants (ts id : Z) (fs : list face_t) (s : sim_sched) : res sim_sched :=
  match fs with
  | [] => Ok s
  | f :: fs => let* s := add_vacant ts id f 1 s in add_vacants ts id fs s
  end.

(** a node of the database and the simulator *)
Definition create_sim_node (id : Z) (s : sim_sched) : res sim_sched :=
  let* r := create_node_id create_fn id (DATABASE s) in
  Ok (put_sim id (new_sim_node (rtype_of id)) (set_database (fst r) s)).

Definition create_one (ts id : Z) (s : sim_sched) : res sim_sched :=
  let* s := create_sim_node id s in
  let* s := sim_init_node id s in
  let s := if thread_mode (flags s) then add_slave id s else s in
  if negb (thread_mode (flags s)) || all_instantiated (flags s) then
    let* s := alter_sim id (set_instantiated true) s in
    let* s := add_vacants ts id all_faces s in
    add_neighbor_count ts id 0 1 s
  else Ok s.

(** [n] nodes are left; the ids are [node_id]s *)
Fixpoint create_loop (n : nat) (ts id : Z) (s : sim_sched) : res sim_sched :=
  match n with
  | O => Ok s
  | S n => let* s := create_one ts (wrap 32 id) s in create_loop n ts (id + 1) s
  end.

Definition handle_create_n_nodes (ts n start_id : Z) (s : sim_sched) : res sim_sched :=
  create_loop (Z.to_nat n) ts start_id s.

Definition handle_run_node (ts id : Z) (s : sim_sched) : res (Z * sim_sched) :=
  asserting (negb (thread_mode (flags s)))
    (let* n := sim_of id s in
     Ok (id, set_instr (mk_sim_instr (timestamp n) ts true) (set_current (Some id) s))).

(** the program's predicates by their numbers *)
Definition program_predicate (id : Z) : res predicate := of_option (get_predicate PROGRAM id).

Definition handle_receive_message (ts id : Z) (face : face_t) (data : list byte) (offset limit : Z)
    (s : sim_sched) : res sim_sched :=
  asserting (negb (thread_mode (flags s)))
    (let* origin := sim_of id s in
     let* target_id := if face =? INVALID_FACE then Ok id else node_at_face face origin in
     let* target := sim_of target_id s in
     let* r := SimpleTuple.unpack program_predicate (mem s) data limit offset in
     let '(m, stpl, _) := r in
     Ok (put_sim target_id (insert_by_count stpl (int_prio ts) target) (set_mem m s))).

(** [if(no_in->has_been_instantiated())] *)
Definition when_instantiated (id : Z) (f : sim_sched → res sim_sched) (s : sim_sched) : res sim_sched :=
  let* n := sim_of id s in if instantiated_flag n then f s else Ok s.

(** [no_in->get_neighbor_count()] in a fact of that count *)
Definition tell_neighbor_count (ts id count : Z) (s : sim_sched) : res sim_sched :=
  let* n := sim_of id s in add_neighbor_count ts id (neighbor_count n) count s.

Definition handle_add_neighbor (ts in_ out : Z) (face : face_t) (s : sim_sched) : res sim_sched :=
  let* no_in := sim_of in_ s in
  let* neighbor := node_at_face face no_in in
  if neighbor =? NO_NEIGHBOR then
    let* s := when_instantiated in_ (λ s,
      let* s := add_vacant ts in_ face (-1) s in tell_neighbor_count ts in_ (-1) s) s in
    let* s := alter_sim in_ inc_neighbor_count s in
    let* s := when_instantiated in_ (tell_neighbor_count ts in_ 1) s in
    let* s := alter_sim in_ (put_at_face face out) s in
    when_instantiated in_ (add_neighbor ts in_ out face 1) s
  else if negb (neighbor =? out) then
    let* s := when_instantiated in_ (add_neighbor ts in_ neighbor face (-1)) s in
    let* s := alter_sim in_ (put_at_face face out) s in
    when_instantiated in_ (add_neighbor ts in_ out face 1) s
  else Ok s.

Definition handle_remove_neighbor (ts in_ : Z) (face : face_t) (s : sim_sched) : res sim_sched :=
  let* no_in := sim_of in_ s in
  let* neighbor := node_at_face face no_in in
  if neighbor =? NO_NEIGHBOR then Err assert_fail
  else
    let* s := when_instantiated in_ (tell_neighbor_count ts in_ (-1)) s in
    let* s := alter_sim in_ dec_neighbor_count s in
    let* s := when_instantiated in_ (tell_neighbor_count ts in_ 1) s in
    let* s := add_neighbor ts in_ neighbor face (-1) s in
    alter_sim in_ (put_at_face face NO_NEIGHBOR) s.

(** the node is looked up before the predicate *)
Definition handle_tap (ts id : Z) (s : sim_sched) : res sim_sched :=
  let* _ := sim_of id s in with_fact (tap_pred (preds s)) 1 id ts (λ t, Ok t) s.

Definition handle_accel (ts id f : Z) (s : sim_sched) : res sim_sched :=
  let* _ := sim_of id s in with_fact (accel_pred (preds s)) 1 id ts (λ t, set_int t 0 f) s.

Definition handle_shake (ts id x y z : Z) (s : sim_sched) : res sim_sched :=
  let* _ := sim_of id s in
  with_fact (shake_pred (preds s)) 1 id ts
    (λ t, let* t := set_int t 0 x in let* t := set_int t 1 y in set_int t 2 z) s.

(** the source may be null, and [timestamp] is read through it *)
Fixpoint check_delayed_loop (fuel : nat) (now : Z) (s : sim_sched) : res sim_sched :=
  match fuel with
  | O => Err undefined_behaviour
  | S fuel =>
      if general_empty (delay_queue s) then Ok s
      else
        let* best := general_top_priority (delay_queue s) in
        if best <? now then
          let* r := general_pop (delay_queue s) in
          let '(info, q) := r in
          let s := set_delay_queue q s in
          let* target := sim_of (work_node (info_work info)) s in
          let* src := of_option (info_src info) in
          let* n := sim_of src s in
          let* s := send_send_message info
                      (Z.max (timestamp n) (wrap 64 (timestamp target + 1))) s in
          check_delayed_loop fuel now s
        else Ok s
  end.

Definition check_delayed_queue (now : Z) (s : sim_sched) : res sim_sched :=
  check_delayed_loop (S (length (delay_queue s))) now s.

(** ** The loop of the master

    What a round finds: nothing on the socket, with the two times it then reads, or the
    bytes of a message. *)

Inductive input : Type :=
  | Idle (now now' : Z)
  | Message (bs : list byte).

(** [reply[k]]; a word that was not read is not defined *)
Definition word (bs : list byte) (k : nat) : res Z :=
  let* w := memcpy_from bs (8 * k) 8 in Ok (le_value w).

(** [(node_id)], [(face_t)] and [(int)] of a word *)
Definition word_id (bs : list byte) (k : nat) : res Z := let* w := word bs k in Ok (wrap 32 w).
Definition word_int (bs : list byte) (k : nat) : res Z := let* w := word bs k in Ok (swrap 32 w).

(** what the loop does after a round *)
Inductive next_round : Type :=
  | Again
  | Returns (node : option Z).

Definition again (r : res sim_sched) : res (next_round * sim_sched) :=
  let* s := r in Ok (Again, s).

(** the [switch] *)
Definition handle_message (bs : list byte) (s : sim_sched) : res (next_round * sim_sched) :=
  let* code := word bs 1 in
  if code =? 9 then                                      (* USE_THREADS *)
    let f := flags s in
    Ok (Again, set_flags (mk_flags true (stop_all f) (all_instantiated f) (start_time f)) s)
  else if code =? 1 then                                 (* CREATE_N_NODES *)
    let* ts := word bs 2 in let* n := word bs 4 in let* start := word_id bs 5 in
    again (handle_create_n_nodes ts n start s)
  else if code =? 2 then                                 (* RUN_NODE *)
    let* ts := word bs 2 in let* id := word_id bs 3 in
    let* r := handle_run_node ts id s in Ok (Returns (Some (fst r)), snd r)
  else if code =? 13 then                                (* RECEIVE_MESSAGE *)
    let* ts := word bs 2 in let* id := word_id bs 3 in let* face := word_int bs 4 in
    let* size := word bs 0 in
    again (handle_receive_message ts id face bs (5 * 8) (swrap 32 (size + 8)) s)
  else if code =? 5 then                                 (* ADD_NEIGHBOR *)
    let* ts := word bs 2 in let* in_ := word_id bs 3 in let* out := word_id bs 4 in
    let* face := word_int bs 5 in
    again (handle_add_neighbor ts in_ out face s)
  else if code =? 6 then                                 (* REMOVE_NEIGHBOR *)
    let* ts := word bs 2 in let* in_ := word_id bs 3 in let* face := word_int bs 4 in
    again (handle_remove_neighbor ts in_ face s)
  else if code =? 7 then                                 (* TAP *)
    let* ts := word bs 2 in let* id := word_id bs 3 in again (handle_tap ts id s)
  else if code =? 14 then                                (* ACCEL *)
    let* ts := word bs 2 in let* id := word_id bs 3 in let* f := word_int bs 4 in
    again (handle_accel ts id f s)
  else if code =? 15 then                                (* SHAKE *)
    let* ts := word bs 2 in let* id := word_id bs 3 in let* x := word_int bs 4 in
    let* y := word_int bs 5 in let* z := word_int bs 6 in
    again (handle_shake ts id x y z s)
  else if code =? 4 then                                 (* STOP *)
    let f := flags s in
    let s := set_flags (mk_flags (thread_mode f) true (all_instantiated f) (start_time f)) s in
    let* s := send_pending_messages s in Ok (Returns None, s)
  else Ok (Again, s).

(** the first word and then as many bytes as it says, into an array of [MAXLENGTH] words *)
Definition read_message (bs : list byte) (s : sim_sched) : res (next_round * sim_sched) :=
  asserting (8 <=? length bs)%nat
  (let* size := word bs 0 in
  if 8 * Z.of_nat MAXLENGTH <? size + 8 then Err undefined_behaviour
  else asserting (Z.of_nat (length bs) =? size + 8) (handle_message bs s)).

Definition idle_round (now now' : Z) (s : sim_sched) : res sim_sched :=
  let* s := send_pending_messages s in
  let f := flags s in
  let* s := if thread_mode f && negb (all_instantiated f) then
              if wrap 64 (start_time f + TIME_TO_INSTANTIATE) <? now then
                let* s := instantiate_all_nodes s in
                let f := flags s in
                Ok (set_flags (mk_flags (thread_mode f) (stop_all f) true (start_time f)) s)
              else Ok s
            else Ok s in
  if negb (thread_mode (flags s)) then check_delayed_queue now' s else Ok s.

Definition master_round (i : input) (s : sim_sched) : res (next_round * sim_sched) :=
  match i with
  | Idle now now' => again (idle_round now now' s)
  | Message bs => read_message bs s
  end.

(** None: the inputs end and the loop goes on *)
Fixpoint master_loop (is_ : list input) (s : sim_sched)
    : res (option (option Z * list input) * sim_sched) :=
  match is_ with
  | [] => Ok (None, s)
  | i :: is_ =>
      let* r := master_round i s in
      match r with
      | (Returns n, s) => Ok (Some (n, is_), s)
      | (Again, s) => master_loop is_ s
      end
  end.

Definition master_get_work (is_ : list input) (s : sim_sched)
    : res (option (option Z * list input) * sim_sched) :=
  asserting (negb (thread_mode (flags s)))
    (let* s := match current_node s with
               | Some _ => handle_deterministic_computation s
               | None => Ok s
               end in
     master_loop is_ s).

(** ** The thread of a node, and what the engine asks

    None: the slave sleeps and looks again. *)

Definition slave_get_work (id now : Z) (s : sim_sched) : res (option (option Z)) :=
  let* n := sim_of id s in
  let* b := match pending n with [] => delayed_available now n | _ => Ok true end in
  if (b : bool) then Ok (Some (Some id))
  else if stop_all (flags s) then Ok (Some None) else Ok None.

(** [pop_list] appends all that is pending *)
Definition sim_gather_next_tuples (id now : Z) (ls : list simple_tuple) (s : sim_sched)
    : res (list simple_tuple * sim_sched) :=
  let* n := sim_of id s in
  let ls := ls ++ pending n in
  let n := set_pending [] n in
  let* r := if sim_instr_use (instr s)
            then get_tuples_until_timestamp (sim_instr_limit (instr s)) n ls
            else Ok (n, ls) in
  let* r := add_delayed_tuples now (fst r) (snd r) in
  Ok (snd r, put_sim id (fst r) s).

Definition sim_gather_active_tuples (id pred : Z) : list simple_tuple := [].
End Simulator.

(** the constructor of the master, over a database without nodes *)
Definition new_sim_sched (db : database) (m : memory) : sim_sched :=
  mk_sim None [] [] (mk_preds None None None None None None) (mk_flags false false false 0) []
    (mk_sim_instr 0 0 false) db ∅ [] m [].
