(* ===== verification/SimFacts.v ===== *)
(** What the operations of the simulator's scheduler do to one node: the tuples that they
    give it or take from it, and its faces; and when what it was told agrees with them. *)

From Stdlib Require Import ZArith Lia Bool String Permutation.
From stdpp Require Import base tactics list numbers option gmap sorting.
From S2P Require Import Prelude Words Types RuntimeList Tuple SimpleTuple Heap Pqueues Node Loader Sim.

#[local] Open Scope Z_scope.

(** ** The tuples that wait at a node *)

Definition heap_tuples (h : list (heap_queue.heap_object (T := simple_tuple))) : list simple_tuple :=
  fst <$> heap_queue.entries h.

Definition node_facts (n : sim_node) : list simple_tuple :=
  pending n ++ heap_tuples (tuple_pqueue n) ++ heap_tuples (rtuple_pqueue n) ++
  (work_tuple ∘ fst <$> node_delay_queue n).

(** what the facts are about *)
Record view : Type := mk_view {
  view_faces : list Z;
  view_instantiated : bool;
  view_count : Z
}.

Definition faces_of (n : sim_node) : list Z :=
  [bottom n; north n; east n; west n; south n; top n].

Definition view_of (n : sim_node) : view :=
  mk_view (faces_of n) (instantiated_flag n) (neighbor_count n).

(** [n'] is [n] with [l] more tuples and the view [v] *)
Definition became (v : view) (l : list simple_tuple) (n n' : sim_node) : Prop :=
  view_of n' = v ∧ node_facts n' ≡ₚ node_facts n ++ l.

Definition given (l : list simple_tuple) (n n' : sim_node) : Prop := became (view_of n) l n n'.

Lemma given_nil n : given [] n n.
Proof. split; [done|by rewrite app_nil_r]. Qed.

Lemma became_app v v' l l' n n1 n2 : became v l n n1 → became v' l' n1 n2 → became v' (l ++ l') n n2.
Proof. intros [H1 H2] [H3 H4]. split; [done|]. by rewrite H4, H2, app_assoc. Qed.

Lemma became_given v l l' n n1 n2 : became v l n n1 → given l' n1 n2 → became v (l ++ l') n n2.
Proof. intros H1 H2. apply (became_app v v l l' n n1 n2 H1). destruct H1 as [<- _]. exact H2. Qed.

Lemma given_app l l' n n1 n2 : given l n n1 → given l' n1 n2 → given (l ++ l') n n2.
Proof. apply became_given. Qed.

Lemma heap_tuples_insert typ el pr h :
  heap_tuples (heap_queue.insert typ el pr h) ≡ₚ el :: heap_tuples h.
Proof. unfold heap_tuples. by rewrite heap_queue.entries_insert. Qed.

Lemma heap_tuples_pop typ el h h' :
  heap_queue.pop typ h = Ok (el, h') → heap_tuples h ≡ₚ el :: heap_tuples h'.
Proof. intros H. unfold heap_tuples. by rewrite (heap_queue.pop_entries _ _ _ _ H). Qed.

Lemma given_push stpl n : given [stpl] n (push_pending stpl n).
Proof. split; [done|]. unfold node_facts. cbn. solve_Permutation. Qed.

Lemma given_insert stpl pr n : given [stpl] n (insert_by_count stpl pr n).
Proof.
  unfold insert_by_count. destruct (0 <? get_count stpl); (split; [done|]);
    unfold node_facts; cbn [set_pqueues pending tuple_pqueue rtuple_pqueue node_delay_queue];
    rewrite heap_tuples_insert; solve_Permutation.
Qed.

Lemma given_delay now w d n : given [work_tuple w] n (add_delay_work now w d n).
Proof.
  split; [done|]. unfold node_facts, add_delay_work, general_push. cbn.
  rewrite fmap_app. cbn. solve_Permutation.
Qed.

(** tuples are taken out of the queues of [n] *)
Definition took (l : list simple_tuple) (n n' : sim_node) : Prop :=
  view_of n' = view_of n ∧ node_facts n ≡ₚ l ++ node_facts n'.

Lemma took_app l l' n n1 n2 : took l n n1 → took l' n1 n2 → took (l ++ l') n n2.
Proof. intros [H1 H2] [H3 H4]. split; [congruence|]. by rewrite H2, H4, app_assoc. Qed.

Lemma take_until_perm fuel typ until : ∀ h ls h' ls',
  take_until fuel typ until h ls = Ok (h', ls') →
  ∃ l, ls' = ls ++ l ∧ heap_tuples h ≡ₚ l ++ heap_tuples h'.
Proof.
  induction fuel as [|fuel IH]; intros h ls h' ls' H; [done|]. cbn [take_until] in H.
  destruct (heap_queue.empty h); [injection H as <- <-; exists []; by rewrite app_nil_r|].
  apply res_bind_ok in H as (pr & _ & H).
  destruct (until <? _); [injection H as <- <-; exists []; by rewrite app_nil_r|].
  apply res_bind_ok in H as ([el h1] & Hpop & H). cbn [fst snd] in H.
  destruct (IH _ _ _ _ H) as (l & -> & Hp). exists (el :: l). split; [by rewrite <-app_assoc|].
  rewrite (heap_tuples_pop _ _ _ _ Hpop), Hp. done.
Qed.

Lemma general_top_none {T} (q : general_pqueue T) : general_top q = None → q = [].
Proof.
  destruct q as [|y q]; [done|]. cbn [general_top].
  destruct (general_top q) as [[? ?]|]; [destruct (_ <? _)|]; discriminate.
Qed.

Lemma general_top_perm {T} (q : general_pqueue T) x q' :
  general_top q = Some (x, q') → q ≡ₚ x :: q'.
Proof.
  revert x q'. induction q as [|y q IH]; intros x q' H; [done|]. cbn [general_top] in H.
  destruct (general_top q) as [[z q1]|] eqn:E.
  - specialize (IH z q1 eq_refl). destruct (snd y <? snd z); injection H as <- <-.
    + rewrite IH. apply Permutation_swap.
    + done.
  - injection H as <- <-. by apply general_top_none in E as ->.
Qed.

Lemma take_delayed_perm fuel now : ∀ q ls q' ls',
  take_delayed fuel now q ls = Ok (q', ls') →
  ∃ l, ls' = ls ++ l ∧ (work_tuple ∘ fst <$> q) ≡ₚ l ++ (work_tuple ∘ fst <$> q').
Proof.
  induction fuel as [|fuel IH]; intros q ls q' ls' H; [done|]. cbn [take_delayed] in H.
  destruct (general_empty q); [injection H as <- <-; exists []; by rewrite app_nil_r|].
  apply res_bind_ok in H as (best & _ & H).
  destruct (best <? now); [|injection H as <- <-; exists []; by rewrite app_nil_r].
  apply res_bind_ok in H as ([w q1] & Hpop & H). cbn [fst snd] in H.
  unfold general_pop in Hpop. apply res_bind_ok in Hpop as ([x q2] & Htop & Heq).
  apply of_option_ok in Htop. cbn [fst snd] in Heq. injection Heq as <- <-.
  destruct (IH _ _ _ _ H) as (l & -> & Hp). exists (work_tuple (fst x) :: l).
  split; [by rewrite <-app_assoc|]. by rewrite (general_top_perm _ _ _ Htop), fmap_cons, Hp.
Qed.

Lemma took_until until n ls n' ls' :
  get_tuples_until_timestamp until n ls = Ok (n', ls') → ∃ l, ls' = ls ++ l ∧ took l n n'.
Proof.
  unfold get_tuples_until_timestamp. intros H.
  apply res_bind_ok in H as ([h1 l1] & H1 & H). apply res_bind_ok in H as ([h2 l2] & H2 & H).
  injection H as <- <-. apply take_until_perm in H1 as (l & -> & Hp1).
  apply take_until_perm in H2 as (l' & -> & Hp2). exists (l ++ l'). split; [by rewrite app_assoc|].
  split; [done|]. unfold node_facts. cbn. rewrite Hp1, Hp2. solve_Permutation.
Qed.

Lemma took_delayed now n ls n' ls' :
  add_delayed_tuples now n ls = Ok (n', ls') → ∃ l, ls' = ls ++ l ∧ took l n n'.
Proof.
  unfold add_delayed_tuples. intros H. apply res_bind_ok in H as ([q l1] & H1 & H).
  injection H as <- <-. apply take_delayed_perm in H1 as (l & -> & Hp). exists l. split; [done|].
  split; [done|]. unfold node_facts. cbn. rewrite Hp. solve_Permutation.
Qed.

Lemma took_pending n : took (pending n) n (set_pending [] n).
Proof. split; [done|]. unfold node_facts. cbn. solve_Permutation. Qed.

(** ** Sums of counts *)

(** [x] says of [p] that it has the fields [vals] *)
Definition is_fact (p : predicate) (vals : list Z) (x : simple_tuple) : bool :=
  (pred_id (SimpleTuple.get_predicate x) =? pred_id p) && bool_decide (fields (data x) = vals).

Definition fact_sum (p : predicate) (vals : list Z) (l : list simple_tuple) : Z :=
  foldr (λ x a, (if is_fact p vals x then get_count x else 0) + a) 0 l.

Lemma fact_sum_app p vals l l' : fact_sum p vals (l ++ l') = fact_sum p vals l + fact_sum p vals l'.
Proof. unfold fact_sum. induction l as [|x l IH]; cbn; [done|]. rewrite IH. lia. Qed.

#[export] Instance fact_sum_proper p vals : Proper ((≡ₚ) ==> (=)) (fact_sum p vals).
Proof.
  intros l l' H. unfold fact_sum.
  induction H as [|x l l' _ IH|x y l|l1 l2 l3 _ IH1 _ IH2]; cbn [foldr]; [done| |lia|congruence].
  by rewrite IH.
Qed.

(** tuples of other predicates do not count *)
Definition silent (p : predicate) (x : simple_tuple) : Prop :=
  pred_id (SimpleTuple.get_predicate x) ≠ pred_id p.

Lemma fact_sum_silent p vals l : Forall (silent p) l → fact_sum p vals l = 0.
Proof.
  induction 1 as [|x l Hx _ IH]; [done|]. unfold fact_sum in *. cbn [foldr]. rewrite IH.
  unfold is_fact. by rewrite (proj2 (Z.eqb_neq _ _) Hx).
Qed.

Lemma fact_sum_cons p vals x l :
  fact_sum p vals (x :: l) = (if is_fact p vals x then get_count x else 0) + fact_sum p vals l.
Proof. done. Qed.

(** ** Operations on one node *)

Lemma sim_of_ok id s n :
  sim_of id s = Ok n ↔ is_Some (nodes (DATABASE s) !! id) ∧ sim_nodes s !! id = Some n.
Proof.
  unfold sim_of, find_node. destruct (nodes (DATABASE s) !! id) as [nd|]; cbn [res_bind].
  - rewrite of_option_ok. split; [intros ->; eauto|tauto].
  - split; [done|]. intros [[? [=]] _].
Qed.

Lemma sim_of_put id s n n' : sim_of id s = Ok n → sim_of id (put_sim id n' s) = Ok n'.
Proof. rewrite !sim_of_ok. intros [? _]. split; [done|]. cbn. by rewrite lookup_insert_eq. Qed.

Lemma put_sim_put id n n' s : put_sim id n' (put_sim id n s) = put_sim id n' s.
Proof. unfold put_sim. cbn. by rewrite insert_insert_eq. Qed.

Lemma put_sim_same id n s : sim_of id s = Ok n → put_sim id n s = s.
Proof. rewrite sim_of_ok. intros [_ H]. unfold put_sim. rewrite insert_id by done. by destruct s. Qed.

(** [r] is the state [s] in which the node [id] has become one of [Q] *)
Definition lands (id : Z) (s : sim_sched) (r : res sim_sched) (Q : sim_node → Prop) : Prop :=
  ∃ n, r = Ok (put_sim id n s) ∧ Q n.

Lemma lands_bind id s n r g (Q R : sim_node → Prop) :
  sim_of id s = Ok n → lands id s r Q →
  (∀ n1, Q n1 → sim_of id (put_sim id n1 s) = Ok n1 →
     lands id (put_sim id n1 s) (g (put_sim id n1 s)) R) →
  lands id s (res_bind r g) R.
Proof.
  intros Hn (n1 & -> & HQ) Hg. destruct (Hg n1 HQ (sim_of_put _ _ _ _ Hn)) as (n2 & E & HR).
  exists n2. cbn [res_bind]. by rewrite E, put_sim_put.
Qed.

Lemma lands_same id s n (Q : sim_node → Prop) : sim_of id s = Ok n → Q n → lands id s (Ok s) Q.
Proof. intros Hn HQ. exists n. by rewrite (put_sim_same _ _ _ Hn). Qed.

Lemma lands_mono id s r (Q R : sim_node → Prop) : lands id s r Q → (∀ n, Q n → R n) → lands id s r R.
Proof. intros (n & -> & HQ) H. exists n. auto. Qed.

Lemma alter_sim_lands id s n f : sim_of id s = Ok n → lands id s (alter_sim id f s) (λ n', n' = f n).
Proof. intros Hn. unfold alter_sim. rewrite Hn. by exists (f n). Qed.

(** the fact that [with_fact] builds, if the program has the predicate *)
Definition facts_of (p : option predicate) (vals : list Z) (count : Z) : list simple_tuple :=
  match p with
  | None => []
  | Some p => [new_simple_tuple (mk_tuple p vals) count]
  end.

Definition has_fields (p : option predicate) (n : nat) : Prop :=
  ∀ q, p = Some q → num_fields q = n.

Record preds_ok (ps : sim_preds) : Prop := {
  neighbor_fields : has_fields (neighbor_pred ps) 2;
  tap_fields : has_fields (tap_pred ps) 0;
  count_fields : has_fields (neighbor_count_pred ps) 1;
  accel_fields : has_fields (accel_pred ps) 1;
  shake_fields : has_fields (shake_pred ps) 3;
  vacant_fields : has_fields (vacant_pred ps) 1
}.

Lemma set_low32_zero v : set_low32 0 v = wrap 32 v.
Proof. reflexivity. Qed.

Section Operations.
Context (PROGRAM : program) (create_fn : Z → Z → node) (rtype_of : Z → heap_type)
  (upper : Z) (by_address : gset Z → list Z).

Lemma add_received_lands id ts stpl s n :
  sim_of id s = Ok n → lands id s (add_received_tuple upper id ts stpl s) (given [stpl] n).
Proof.
  intros Hn. unfold add_received_tuple. rewrite Hn. cbn [res_bind].
  destruct (thread_mode (flags s)); eexists; (split; [done|]).
  - apply given_push.
  - apply given_insert.
Qed.

Lemma with_fact_lands p count id ts build vals s n :
  sim_of id s = Ok n → (∀ q, p = Some q → build (new_tuple q) = Ok (mk_tuple q vals)) →
  lands id s (with_fact upper p count id ts build s) (given (facts_of p vals (swrap 16 count)) n).
Proof.
  intros Hn Hb. unfold with_fact. destruct p as [q|]; cbn [facts_of].
  - rewrite (Hb q eq_refl). cbn [res_bind]. by apply add_received_lands.
  - apply (lands_same _ _ n); [done|apply given_nil].
Qed.

Lemma new_tuple_fields p n : num_fields p = n → new_tuple p = mk_tuple p (replicate n 0).
Proof. by intros <-. Qed.

Lemma add_neighbor_lands ts id out face count s n :
  preds_ok (preds s) → sim_of id s = Ok n →
  lands id s (add_neighbor upper ts id out face count s)
    (given (facts_of (neighbor_pred (preds s)) [wrap 32 out; wrap 32 face] (swrap 16 count)) n).
Proof.
  intros Hp Hn. apply with_fact_lands; [done|]. intros q Hq.
  rewrite (new_tuple_fields q 2) by by apply (neighbor_fields _ Hp). reflexivity.
Qed.

Lemma add_count_lands ts id total count s n :
  preds_ok (preds s) → sim_of id s = Ok n →
  lands id s (add_neighbor_count upper ts id total count s)
    (given (facts_of (neighbor_count_pred (preds s)) [wrap 32 total] (swrap 16 count)) n).
Proof.
  intros Hp Hn. apply with_fact_lands; [done|]. intros q Hq.
  rewrite (new_tuple_fields q 1) by by apply (count_fields _ Hp). reflexivity.
Qed.

Lemma add_vacant_lands ts id face count s n :
  preds_ok (preds s) → sim_of id s = Ok n →
  lands id s (add_vacant upper ts id face count s)
    (given (facts_of (vacant_pred (preds s)) [wrap 32 face] (swrap 16 count)) n).
Proof.
  intros Hp Hn. apply with_fact_lands; [done|]. intros q Hq.
  rewrite (new_tuple_fields q 1) by by apply (vacant_fields _ Hp). reflexivity.
Qed.

Lemma tell_count_lands ts id count s n :
  preds_ok (preds s) → sim_of id s = Ok n →
  lands id s (tell_neighbor_count upper ts id count s)
    (given (facts_of (neighbor_count_pred (preds s)) [wrap 32 (neighbor_count n)] (swrap 16 count)) n).
Proof. intros Hp Hn. unfold tell_neighbor_count. rewrite Hn. cbn [res_bind]. by apply add_count_lands. Qed.

(** what is done only for a node that has been instantiated *)
Lemma when_instantiated_lands id f s n l :
  sim_of id s = Ok n → (instantiated_flag n = true → lands id s (f s) (given l n)) →
  lands id s (when_instantiated id f s) (given (if instantiated_flag n then l else []) n).
Proof.
  intros Hn Hf. unfold when_instantiated. rewrite Hn. cbn [res_bind].
  destruct (instantiated_flag n); [auto|]. apply (lands_same _ _ n); [done|apply given_nil].
Qed.
End Operations.

(** ** Faces *)

Definition valid_face (face : face_t) : Prop := 0 <= face <= 5.

Lemma valid_faces face : valid_face face ↔ face ∈ all_faces.
Proof.
  unfold valid_face, all_faces, BOTTOM, NORTH, EAST, WEST, SOUTH, TOP.
  rewrite !elem_of_cons, elem_of_nil. lia.
Qed.

(** a valid face is one of six *)
Lemma face_cases (P : Z → Prop) :
  P 0 → P 1 → P 2 → P 3 → P 4 → P 5 → ∀ face, valid_face face → P face.
Proof.
  intros ?????? face Hf. unfold valid_face in Hf.
  assert (face = 0 ∨ face = 1 ∨ face = 2 ∨ face = 3 ∨ face = 4 ∨ face = 5) as H6 by lia.
  by destruct H6 as [->|[->|[->|[->|[->| ->]]]]].
Qed.

(** the node at a face *)
Definition face_of (face : face_t) (n : sim_node) : Z := default 0 (faces_of n !! Z.to_nat face).

Lemma node_at_face_ok face n : valid_face face → node_at_face face n = Ok (face_of face n).
Proof. revert face. by apply face_cases. Qed.

Lemma node_at_face_other face n : ¬ valid_face face → node_at_face face n = Err assert_fail.
Proof.
  intros H. unfold valid_face in H. unfold node_at_face, BOTTOM, NORTH, EAST, WEST, SOUTH, TOP.
  repeat (rewrite (proj2 (Z.eqb_neq face _)) by lia). done.
Qed.

Lemma put_at_face_faces face v n :
  valid_face face → faces_of (put_at_face face v n) = <[Z.to_nat face := v]> (faces_of n).
Proof. revert face. by apply face_cases. Qed.

Lemma face_lookup face n : valid_face face → faces_of n !! Z.to_nat face = Some (face_of face n).
Proof. revert face. by apply face_cases. Qed.

Lemma face_of_put face face' v n :
  valid_face face → valid_face face' →
  face_of face' (put_at_face face v n) = if face' =? face then v else face_of face' n.
Proof.
  intros Hf Hf'. revert face' Hf'. apply face_cases; revert face Hf; by apply face_cases.
Qed.

Lemma became_alter n l n1 f u v :
  became u l n n1 → view_of (f n1) = v → node_facts (f n1) = node_facts n1 → became v l n (f n1).
Proof. intros [_ H] Hv Hf. split; [done|]. by rewrite Hf. Qed.

(** one step of a handler: [tac] proves what is known of it, and on with the node [n1] *)
Tactic Notation "land" ident(n1) ident(H1) ident(Hn1) "by" tactic3(tac) :=
  eapply lands_bind; [eassumption|solve [tac]|intros n1 H1 Hn1; cbv beta in H1 |- *].

(** the last one *)
Tactic Notation "landed" ident(n1) ident(H1) "by" tactic3(tac) :=
  eapply lands_mono; [solve [tac]|intros n1 H1; cbv beta in H1].

Section Handlers.
Context (PROGRAM : program) (create_fn : Z → Z → node) (rtype_of : Z → heap_type)
  (upper : Z) (by_address : gset Z → list Z).

(** what a node with a neighbour [out] at [face], and [c] in all, is told when that begins
    or ends *)
Definition tell_neighbor (ps : sim_preds) (out face count : Z) : list simple_tuple :=
  facts_of (neighbor_pred ps) [wrap 32 out; wrap 32 face] (swrap 16 count).
Definition tell_count (ps : sim_preds) (c count : Z) : list simple_tuple :=
  facts_of (neighbor_count_pred ps) [wrap 32 c] (swrap 16 count).
Definition tell_vacant (ps : sim_preds) (face count : Z) : list simple_tuple :=
  facts_of (vacant_pred ps) [wrap 32 face] (swrap 16 count).

(** what [handle_add_neighbor] tells a node *)
Definition added (ps : sim_preds) (out face : Z) (n : sim_node) : list simple_tuple :=
  let old := face_of face n in
  if negb (instantiated_flag n) then []
  else if old =? NO_NEIGHBOR then
    tell_vacant ps face (-1) ++ tell_count ps (neighbor_count n) (-1) ++
    tell_count ps (wrap 64 (neighbor_count n + 1)) 1 ++ tell_neighbor ps out face 1
  else if old =? out then []
  else tell_neighbor ps old face (-1) ++ tell_neighbor ps out face 1.

Definition added_view (out face : Z) (n : sim_node) : view :=
  mk_view (<[Z.to_nat face := out]> (faces_of n)) (instantiated_flag n)
    (if face_of face n =? NO_NEIGHBOR then wrap 64 (neighbor_count n + 1) else neighbor_count n).

(** and [handle_remove_neighbor] *)
Definition removed (ps : sim_preds) (face : Z) (n : sim_node) : list simple_tuple :=
  (if negb (instantiated_flag n) then []
   else tell_count ps (neighbor_count n) (-1) ++ tell_count ps (wrap 64 (neighbor_count n - 1)) 1) ++
  tell_neighbor ps (face_of face n) face (-1).

Definition removed_view (face : Z) (n : sim_node) : view :=
  mk_view (<[Z.to_nat face := NO_NEIGHBOR]> (faces_of n)) (instantiated_flag n)
    (wrap 64 (neighbor_count n - 1)).

Lemma view_eq n n' :
  view_of n' = view_of n → faces_of n' = faces_of n ∧
  instantiated_flag n' = instantiated_flag n ∧ neighbor_count n' = neighbor_count n.
Proof.
  intros H. split_and!.
  - exact (f_equal view_faces H).
  - exact (f_equal view_instantiated H).
  - exact (f_equal view_count H).
Qed.

Lemma view_put face v n :
  valid_face face →
  view_of (put_at_face face v n) =
    mk_view (<[Z.to_nat face := v]> (faces_of n)) (instantiated_flag n) (neighbor_count n).
Proof. intros Hf. unfold view_of at 1. by rewrite put_at_face_faces. Qed.

(** an occupied face is given to another node *)
Lemma replace_neighbor_lands ts id out face old s n :
  preds_ok (preds s) → sim_of id s = Ok n → valid_face face →
  lands id s
    (let* s := when_instantiated id (add_neighbor upper ts id old face (-1)) s in
     let* s := alter_sim id (put_at_face face out) s in
     when_instantiated id (add_neighbor upper ts id out face 1) s)
    (became (mk_view (<[Z.to_nat face := out]> (faces_of n)) (instantiated_flag n) (neighbor_count n))
       (if instantiated_flag n
        then tell_neighbor (preds s) old face (-1) ++ tell_neighbor (preds s) out face 1 else []) n).
Proof.
  intros Hp Hn Hf.
  land n1 H1 Hn1 by (eapply when_instantiated_lands; [exact Hn|]; intros _; by apply add_neighbor_lands).
  land n2 H2 Hn2 by (by apply (alter_sim_lands _ _ n1)). subst n2.
  landed n3 H3 by (eapply when_instantiated_lands; [exact Hn2|]; intros _; by apply add_neighbor_lands).
  destruct (view_eq _ _ (proj1 H1)) as (E1 & E2 & E3).
  change (instantiated_flag (put_at_face face out n1)) with (instantiated_flag n1) in H3. rewrite E2 in H3.
  pose proof (became_alter _ _ _ (put_at_face face out) _ _ H1 eq_refl eq_refl) as H.
  rewrite view_put, E1, E2, E3 in H by done. apply (became_given _ _ _ _ _ _ H) in H3. clear H. rename H3 into H.
  destruct (instantiated_flag n); exact H.
Qed.

(** a face is no longer vacant, and the count is old *)
Lemma retract_vacant_lands ts id face s n :
  preds_ok (preds s) → sim_of id s = Ok n →
  lands id s
    (let* s := add_vacant upper ts id face (-1) s in tell_neighbor_count upper ts id (-1) s)
    (given (tell_vacant (preds s) face (-1) ++ tell_count (preds s) (neighbor_count n) (-1)) n).
Proof.
  intros Hp Hn. land n1 H1 Hn1 by (by apply add_vacant_lands).
  landed n2 H2 by (by apply tell_count_lands).
  destruct (view_eq _ _ (proj1 H1)) as (_ & _ & E). rewrite E in H2.
  exact (given_app _ _ _ _ _ H1 H2).
Qed.

(** a vacant face is given to a node *)
Lemma fill_vacant_lands ts id out face s n :
  preds_ok (preds s) → sim_of id s = Ok n → valid_face face →
  lands id s
    (let* s := when_instantiated id (λ s,
       let* s := add_vacant upper ts id face (-1) s in tell_neighbor_count upper ts id (-1) s) s in
     let* s := alter_sim id inc_neighbor_count s in
     let* s := when_instantiated id (tell_neighbor_count upper ts id 1) s in
     let* s := alter_sim id (put_at_face face out) s in
     when_instantiated id (add_neighbor upper ts id out face 1) s)
    (became (mk_view (<[Z.to_nat face := out]> (faces_of n)) (instantiated_flag n)
               (wrap 64 (neighbor_count n + 1)))
       (if instantiated_flag n
        then tell_vacant (preds s) face (-1) ++ tell_count (preds s) (neighbor_count n) (-1) ++
             tell_count (preds s) (wrap 64 (neighbor_count n + 1)) 1 ++
             tell_neighbor (preds s) out face 1 else []) n).
Proof.
  intros Hp Hn Hf.
  land n1 H1 Hn1 by (eapply when_instantiated_lands; [exact Hn|]; intros _;
    by apply retract_vacant_lands).
  land n2 H2 Hn2 by (by apply (alter_sim_lands _ _ n1)). subst n2.
  destruct (view_eq _ _ (proj1 H1)) as (E1 & E2 & E3).
  pose proof (became_alter _ _ _ inc_neighbor_count _ _ H1 eq_refl eq_refl) as H.
  land n3 H3 Hn3 by (eapply when_instantiated_lands; [exact Hn2|]; intros _; by apply tell_count_lands).
  change (instantiated_flag (inc_neighbor_count n1)) with (instantiated_flag n1) in H3.
  change (neighbor_count (inc_neighbor_count n1)) with (wrap 64 (neighbor_count n1 + 1)) in H3.
  land n4 H4 Hn4 by (by apply (alter_sim_lands _ _ n3)). subst n4.
  landed n5 H5 by (eapply when_instantiated_lands; [exact Hn4|]; intros _; by apply add_neighbor_lands).
  destruct (view_eq _ _ (proj1 H3)) as (F1 & F2 & F3).
  change (faces_of (inc_neighbor_count n1)) with (faces_of n1) in F1.
  change (instantiated_flag (inc_neighbor_count n1)) with (instantiated_flag n1) in F2.
  change (neighbor_count (inc_neighbor_count n1)) with (wrap 64 (neighbor_count n1 + 1)) in F3.
  change (instantiated_flag (put_at_face face out n3)) with (instantiated_flag n3) in H5.
  apply (became_given _ _ _ _ _ _ H) in H3. clear H.
  apply (became_alter _ _ _ (put_at_face face out) _ _) with (2 := eq_refl) (3 := eq_refl) in H3.
  apply (became_given _ _ _ _ _ _ H3) in H5. clear H3.
  rewrite view_put, F1, F2, F3, E1, E2, E3 in H5 by done.
  destruct (instantiated_flag n); [|exact H5]. rewrite <-!app_assoc in H5. exact H5.
Qed.

Lemma handle_add_neighbor_lands ts id out face s n :
  preds_ok (preds s) → sim_of id s = Ok n → valid_face face → out ≠ NO_NEIGHBOR →
  lands id s (handle_add_neighbor upper ts id out face s)
    (became (if face_of face n =? out then view_of n else added_view out face n)
       (added (preds s) out face n) n).
Proof.
  intros Hp Hn Hf Hout. unfold handle_add_neighbor. rewrite Hn. cbn [res_bind].
  rewrite node_at_face_ok by done. cbn [res_bind]. unfold added, added_view.
  destruct (face_of face n =? NO_NEIGHBOR) eqn:E.
  - landed n1 H1 by (by apply fill_vacant_lands).
    destruct (face_of face n =? out) eqn:E'; [bool_to_prop; congruence|].
    by destruct (instantiated_flag n).
  - destruct (face_of face n =? out); cbn [negb].
    + apply (lands_same _ _ n); [done|]. destruct (instantiated_flag n); apply given_nil.
    + landed n1 H1 by (by apply replace_neighbor_lands). by destruct (instantiated_flag n).
Qed.

Lemma handle_remove_neighbor_lands ts id face s n :
  preds_ok (preds s) → sim_of id s = Ok n → valid_face face → face_of face n ≠ NO_NEIGHBOR →
  lands id s (handle_remove_neighbor upper ts id face s)
    (became (removed_view face n) (removed (preds s) face n) n).
Proof.
  intros Hp Hn Hf Hface. unfold handle_remove_neighbor. rewrite Hn. cbn [res_bind].
  rewrite node_at_face_ok by done. cbn [res_bind]. rewrite (proj2 (Z.eqb_neq _ _) Hface).
  land n1 H1 Hn1 by (eapply when_instantiated_lands; [exact Hn|]; intros _; by apply tell_count_lands).
  land n2 H2 Hn2 by (by apply (alter_sim_lands _ _ n1)). subst n2.
  destruct (view_eq _ _ (proj1 H1)) as (E1 & E2 & E3).
  pose proof (became_alter _ _ _ dec_neighbor_count _ _ H1 eq_refl eq_refl) as H.
  land n3 H3 Hn3 by (eapply when_instantiated_lands; [exact Hn2|]; intros _; by apply tell_count_lands).
  destruct (view_eq _ _ (proj1 H3)) as (F1 & F2 & F3).
  change (faces_of (dec_neighbor_count n1)) with (faces_of n1) in F1.
  change (instantiated_flag (dec_neighbor_count n1)) with (instantiated_flag n1) in F2, H3.
  change (neighbor_count (dec_neighbor_count n1)) with (wrap 64 (neighbor_count n1 - 1)) in F3, H3.
  land n4 H4 Hn4 by (by apply add_neighbor_lands).
  destruct (view_eq _ _ (proj1 H4)) as (G1 & G2 & G3).
  landed n5 H5 by (by apply (alter_sim_lands _ _ n4)). subst n5.
  apply (became_given _ _ _ _ _ _ H) in H3. apply (became_given _ _ _ _ _ _ H3) in H4.
  apply (became_alter _ _ _ (put_at_face face NO_NEIGHBOR) _ _) with (2 := eq_refl) (3 := eq_refl) in H4.
  rewrite view_put, G1, G2, G3, F1, F2, F3, E1, E2, E3 in H4 by done.
  unfold removed_view, removed. destruct (instantiated_flag n); cbn [negb]; exact H4.
Qed.

(** a removal from a vacant face fails an assertion *)
Lemma handle_remove_vacant ts id face s n :
  sim_of id s = Ok n → face_of face n = NO_NEIGHBOR →
  handle_remove_neighbor upper ts id face s = Err assert_fail.
Proof.
  intros Hn Hface. unfold handle_remove_neighbor. rewrite Hn. cbn [res_bind].
  destruct (decide (valid_face face)).
  - rewrite node_at_face_ok by done. cbn [res_bind]. by rewrite Hface.
  - by rewrite node_at_face_other.
Qed.
End Handlers.

(** ** What a node was told agrees with its faces *)

Definition occupied (fs : list Z) : Z := foldr (λ v a, (if v =? NO_NEIGHBOR then 0 else 1) + a) 0 fs.

Lemma occupied_bounds fs : 0 <= occupied fs <= Z.of_nat (length fs).
Proof.
  unfold occupied. induction fs as [|v fs IH]; cbn [foldr length]; [lia|].
  destruct (v =? NO_NEIGHBOR); lia.
Qed.

Lemma occupied_insert fs : ∀ i old v, fs !! i = Some old →
  occupied (<[i := v]> fs) + (if old =? NO_NEIGHBOR then 0 else 1) =
  occupied fs + (if v =? NO_NEIGHBOR then 0 else 1).
Proof.
  unfold occupied. induction fs as [|w fs IH]; intros [|i] old v H; try done.
  - injection H as ->. change (<[0%nat := v]> (old :: fs)) with (v :: fs). cbn [foldr]. lia.
  - cbn in H. specialize (IH i old v H). change (<[S i := v]> (w :: fs)) with (w :: <[i := v]> fs). cbn [foldr]. lia.
Qed.

Lemma sum_fact_of p vals vals' c q :
  q = Some p → fact_sum p vals (facts_of q vals' c) = if bool_decide (vals' = vals) then c else 0.
Proof.
  intros ->. cbn. unfold is_fact. cbn. rewrite Z.eqb_refl. cbn. unfold get_count. cbn.
  destruct (bool_decide _); lia.
Qed.

(** predicates of different numbers *)
Definition apart (p q : option predicate) : Prop :=
  ∀ x y, p = Some x → q = Some y → pred_id x ≠ pred_id y.

Lemma sum_fact_apart p vals vals' c q : apart (Some p) q → fact_sum p vals (facts_of q vals' c) = 0.
Proof.
  intros H. apply fact_sum_silent. destruct q as [q|]; cbn; [|constructor].
  constructor; [|constructor]. unfold silent. cbn. intros Heq. by apply (H p q).
Qed.

(** of the three predicates, each is apart from the others *)
Record preds_apart (ps : sim_preds) : Prop := {
  apart_neighbor_count : apart (neighbor_pred ps) (neighbor_count_pred ps);
  apart_neighbor_vacant : apart (neighbor_pred ps) (vacant_pred ps);
  apart_count_vacant : apart (neighbor_count_pred ps) (vacant_pred ps)
}.

Lemma apart_sym p q : apart p q → apart q p.
Proof. intros H x y Hx Hy Heq. by apply (H y x). Qed.

(** the node at a face *)
Definition face_in (face : face_t) (fs : list Z) : Z := default 0 (fs !! Z.to_nat face).

Definition small (v : Z) : Prop := 0 <= v < 2 ^ 32.

(** [F] is what the node has been told, [R face] how often a neighbour at [face] has been
    removed: the fact that the face is vacant again is missing each time *)
Record told (ps : sim_preds) (v : view) (F : list simple_tuple) (R : face_t → Z) : Prop := {
  told_six : length (view_faces v) = 6%nat;
  told_small : Forall small (view_faces v);
  told_occupied : view_count v = occupied (view_faces v);
  told_neighbors : ∀ p face out, neighbor_pred ps = Some p → valid_face face → small out →
    out ≠ NO_NEIGHBOR →
    fact_sum p [out; face] F = if view_instantiated v && (face_in face (view_faces v) =? out) then 1 else 0;
  told_counts : ∀ p c, neighbor_count_pred ps = Some p → small c →
    fact_sum p [c] F = if view_instantiated v && (view_count v =? c) then 1 else 0;
  told_vacant : ∀ p face, vacant_pred ps = Some p → valid_face face →
    fact_sum p [face] F =
      (if view_instantiated v && (face_in face (view_faces v) =? NO_NEIGHBOR) then 1 else 0) - R face
}.

Lemma told_perm ps v F F' R : F ≡ₚ F' → told ps v F R → told ps v F' R.
Proof.
  intros HF [H1 Hs H2 H3 H4 H5]. split; [done|done|done|..]; intros; rewrite <-HF; eauto.
Qed.

(** tuples that are about none of this *)
Definition unrelated (ps : sim_preds) (x : simple_tuple) : Prop :=
  (∀ p, neighbor_pred ps = Some p → silent p x) ∧
  (∀ p, neighbor_count_pred ps = Some p → silent p x) ∧
  (∀ p, vacant_pred ps = Some p → silent p x).

Lemma told_unrelated ps v F l R : Forall (unrelated ps) l → told ps v F R → told ps v (F ++ l) R.
Proof.
  intros Hl [H1 Hs H2 H3 H4 H5].
  split; [done|done|done|..]; intros; rewrite fact_sum_app, (fact_sum_silent _ _ l), Z.add_0_r; eauto;
    (eapply Forall_impl; [exact Hl|]); intros x (? & ? & ?); auto.
Qed.

Lemma face_in_insert fs face face' v :
  length fs = 6%nat → valid_face face → valid_face face' →
  face_in face' (<[Z.to_nat face := v]> fs) = if face' =? face then v else face_in face' fs.
Proof.
  intros Hl Hf Hf'. unfold face_in. unfold valid_face in *.
  destruct (Z.eqb_spec face' face) as [->|Hne].
  - rewrite list_lookup_insert_eq by lia. done.
  - rewrite list_lookup_insert_ne by lia. done.
Qed.

Lemma wrap_small v : small v → wrap 32 v = v.
Proof. intros H. by apply wrap_id. Qed.

Lemma small_face face : valid_face face → small face.
Proof. unfold valid_face, small. lia. Qed.

(** ** The effects of the handlers on what was told *)

Lemma sum_tell_neighbor ps p out face c o f :
  neighbor_pred ps = Some p → small out → valid_face face →
  fact_sum p [o; f] (tell_neighbor ps out face c) = if (out =? o) && (face =? f) then swrap 16 c else 0.
Proof.
  intros Hp Ho Hf. unfold tell_neighbor. rewrite (sum_fact_of _ _ _ _ _ Hp).
  rewrite !wrap_small by (done || by apply small_face).
  destruct (Z.eqb_spec out o), (Z.eqb_spec face f); cbn [andb];
    (rewrite bool_decide_true by congruence; done) || (rewrite bool_decide_false by congruence; done).
Qed.

Lemma sum_tell_one q p v c w :
  q = Some p → small v → fact_sum p [w] (facts_of q [wrap 32 v] c) = if v =? w then c else 0.
Proof.
  intros Hp Hv. rewrite (sum_fact_of _ _ _ _ _ Hp), wrap_small by done.
  destruct (Z.eqb_spec v w); [rewrite bool_decide_true by congruence|rewrite bool_decide_false by congruence];
    done.
Qed.

Lemma sum_tell_count ps p c k w :
  neighbor_count_pred ps = Some p → small c →
  fact_sum p [w] (tell_count ps c k) = if c =? w then swrap 16 k else 0.
Proof. apply sum_tell_one. Qed.

Lemma sum_tell_vacant ps p face k w :
  vacant_pred ps = Some p → valid_face face →
  fact_sum p [w] (tell_vacant ps face k) = if face =? w then swrap 16 k else 0.
Proof. intros Hp Hf. apply sum_tell_one; [done|by apply small_face]. Qed.

Lemma swrap_one : swrap 16 1 = 1.
Proof. reflexivity. Qed.
Lemma swrap_minus_one : swrap 16 (-1) = -1.
Proof. reflexivity. Qed.

(** the sums that a predicate gets from what was told, its own and of others *)
Ltac sums Ha :=
  rewrite ?fact_sum_app;
  repeat match goal with
  | H : neighbor_pred ?ps = Some ?p |- context [fact_sum ?p _ (tell_neighbor ?ps _ _ _)] =>
      rewrite (sum_tell_neighbor ps p _ _ _ _ _ H) by assumption
  | H : neighbor_count_pred ?ps = Some ?p |- context [fact_sum ?p _ (tell_count ?ps ?c _)] =>
      rewrite (sum_tell_count ps p c _ _ H) by (unfold small; lia)
  | H : vacant_pred ?ps = Some ?p |- context [fact_sum ?p _ (tell_vacant ?ps ?f _)] =>
      rewrite (sum_tell_vacant ps p f _ _ H) by assumption
  | H : ?q = Some ?p |- context [fact_sum ?p ?v (tell_neighbor ?ps ?o ?f ?c)] =>
      rewrite (sum_fact_apart p v _ _ (neighbor_pred ps) : _ → fact_sum p v (tell_neighbor ps o f c) = 0) by
        (rewrite <-H; first [exact (apart_sym _ _ (apart_neighbor_count _ Ha))
                            |exact (apart_sym _ _ (apart_neighbor_vacant _ Ha))])
  | H : ?q = Some ?p |- context [fact_sum ?p ?v (tell_count ?ps ?o ?c)] =>
      rewrite (sum_fact_apart p v _ _ (neighbor_count_pred ps) : _ → fact_sum p v (tell_count ps o c) = 0) by
        (rewrite <-H; first [exact (apart_neighbor_count _ Ha)
                            |exact (apart_sym _ _ (apart_count_vacant _ Ha))])
  | H : ?q = Some ?p |- context [fact_sum ?p ?v (tell_vacant ?ps ?f ?c)] =>
      rewrite (sum_fact_apart p v _ _ (vacant_pred ps) : _ → fact_sum p v (tell_vacant ps f c) = 0) by
        (rewrite <-H; first [exact (apart_neighbor_vacant _ Ha)|exact (apart_count_vacant _ Ha)])
  end;
  rewrite ?swrap_one, ?swrap_minus_one.

(** all cases of the comparisons in the goal *)
Ltac by_cases :=
  repeat match goal with
  | |- context [Z.eqb ?a ?b] => destruct (Z.eqb_spec a b)
  end; subst; cbn [andb]; try lia; try congruence.

(** a vacant face is filled *)
Lemma told_filled ps fs i c F R out face :
  preds_apart ps → told ps (mk_view fs i c) F R → valid_face face → small out → out ≠ NO_NEIGHBOR →
  face_in face fs = NO_NEIGHBOR →
  told ps (mk_view (<[Z.to_nat face := out]> fs) i (wrap 64 (c + 1)))
    (F ++ if i then tell_vacant ps face (-1) ++ tell_count ps c (-1) ++
                    tell_count ps (wrap 64 (c + 1)) 1 ++ tell_neighbor ps out face 1 else []) R.
Proof.
  intros Ha [H1 Hs H2 H3 H4 H5] Hf Ho Hno Hold. cbn [view_faces view_count view_instantiated] in *.
  assert (Hlk : fs !! Z.to_nat face = Some NO_NEIGHBOR).
  { destruct (lookup_lt_is_Some_2 fs (Z.to_nat face)) as [v Hv]; [unfold valid_face in Hf; lia|].
    rewrite Hv. f_equal. rewrite <-Hold. unfold face_in. by rewrite Hv. }
  pose proof (occupied_insert fs _ _ out Hlk) as Hocc. rewrite Z.eqb_refl in Hocc.
  rewrite (proj2 (Z.eqb_neq out _)) in Hocc by done.
  pose proof (occupied_bounds fs) as Hb. rewrite H1 in Hb.
  pose proof (occupied_bounds (<[Z.to_nat face := out]> fs)) as Hb'. rewrite length_insert, H1 in Hb'.
  assert (Hc : wrap 64 (c + 1) = c + 1) by (apply wrap_id; lia). rewrite Hc.
  split; cbn [view_faces view_count view_instantiated]; [by rewrite length_insert|by apply Forall_insert|lia|..].
  - intros p f o Hp Hvf Hso Hne. specialize (H3 p f o Hp Hvf Hso Hne).
    rewrite face_in_insert by done. destruct i; [|by rewrite app_nil_r]. sums Ha. rewrite H3.
    cbn [andb]. destruct (Z.eqb_spec f face); by_cases.
  - intros p c' Hp Hc'. specialize (H4 p c' Hp Hc'). destruct i; [|by rewrite app_nil_r]. sums Ha.
    rewrite H4. by_cases.
  - intros p f Hp Hvf. specialize (H5 p f Hp Hvf). rewrite face_in_insert by done.
    destruct i; [|by rewrite app_nil_r]. sums Ha. rewrite H5. cbn [andb]. destruct (Z.eqb_spec f face); by_cases.
Qed.

Lemma face_in_lookup fs face old :
  length fs = 6%nat → valid_face face → face_in face fs = old → fs !! Z.to_nat face = Some old.
Proof.
  intros Hl Hf <-. destruct (lookup_lt_is_Some_2 fs (Z.to_nat face)) as [v Hv]; [unfold valid_face in Hf; lia|].
  unfold face_in. by rewrite Hv.
Qed.

(** a neighbour takes the place of another *)
Lemma told_replaced ps fs i c F R old out face :
  preds_apart ps → told ps (mk_view fs i c) F R → valid_face face → small out → out ≠ NO_NEIGHBOR →
  face_in face fs = old → small old → old ≠ NO_NEIGHBOR → old ≠ out →
  told ps (mk_view (<[Z.to_nat face := out]> fs) i c)
    (F ++ if i then tell_neighbor ps old face (-1) ++ tell_neighbor ps out face 1 else []) R.
Proof.
  intros Ha [H1 Hs H2 H3 H4 H5] Hf Ho Hno Hold Hso Hon Hne. cbn [view_faces view_count view_instantiated] in *.
  pose proof (occupied_insert fs _ _ out (face_in_lookup _ _ _ H1 Hf Hold)) as Hocc.
  rewrite (proj2 (Z.eqb_neq out _)), (proj2 (Z.eqb_neq old _)) in Hocc by done.
  split; cbn [view_faces view_count view_instantiated]; [by rewrite length_insert|by apply Forall_insert|lia|..].
  - intros p f o Hp Hvf Hsmall Hn. specialize (H3 p f o Hp Hvf Hsmall Hn).
    rewrite face_in_insert by done. destruct i; [|by rewrite app_nil_r]. sums Ha. rewrite H3.
    cbn [andb]. destruct (Z.eqb_spec f face); by_cases.
  - intros p c' Hp Hc'. specialize (H4 p c' Hp Hc'). destruct i; [|by rewrite app_nil_r]. sums Ha.
    rewrite H4. by_cases.
  - intros p f Hp Hvf. specialize (H5 p f Hp Hvf). rewrite face_in_insert by done.
    destruct i; [|by rewrite app_nil_r]. sums Ha. rewrite H5. cbn [andb].
    destruct (Z.eqb_spec f face); by_cases.
Qed.

(** one more removal at [face] *)
Definition removal (face : face_t) (R : face_t → Z) : face_t → Z :=
  λ f, if f =? face then R f + 1 else R f.

(** a neighbour is removed: the face is vacant, but no fact says so *)
Lemma told_removed ps fs c F R old face :
  preds_apart ps → told ps (mk_view fs true c) F R → valid_face face →
  face_in face fs = old → small old → old ≠ NO_NEIGHBOR →
  told ps (mk_view (<[Z.to_nat face := NO_NEIGHBOR]> fs) true (wrap 64 (c - 1)))
    (F ++ (tell_count ps c (-1) ++ tell_count ps (wrap 64 (c - 1)) 1) ++ tell_neighbor ps old face (-1))
    (removal face R).
Proof.
  intros Ha [H1 Hs H2 H3 H4 H5] Hf Hold Hso Hon. cbn [view_faces view_count view_instantiated] in *.
  pose proof (occupied_insert fs _ _ NO_NEIGHBOR (face_in_lookup _ _ _ H1 Hf Hold)) as Hocc.
  rewrite (Z.eqb_refl NO_NEIGHBOR), (proj2 (Z.eqb_neq old _)) in Hocc by done.
  pose proof (occupied_bounds fs) as Hb. rewrite H1 in Hb.
  pose proof (occupied_bounds (<[Z.to_nat face := NO_NEIGHBOR]> fs)) as Hb'.
  assert (Hc : wrap 64 (c - 1) = c - 1) by (apply wrap_id; lia). rewrite Hc.
  split; cbn [view_faces view_count view_instantiated]; [by rewrite length_insert|by apply Forall_insert|lia|..].
  - intros p f o Hp Hvf Hsmall Hn. specialize (H3 p f o Hp Hvf Hsmall Hn).
    rewrite face_in_insert by done. sums Ha. rewrite H3. cbn [andb].
    destruct (Z.eqb_spec f face); by_cases.
  - intros p c' Hp Hc'. specialize (H4 p c' Hp Hc'). sums Ha. rewrite H4. cbn [andb]. by_cases.
  - intros p f Hp Hvf. specialize (H5 p f Hp Hvf). rewrite face_in_insert by done.
    sums Ha. rewrite H5. unfold removal. cbn [andb]. destruct (Z.eqb_spec f face); by_cases.
Qed.

(** ** A new node, and one that is instantiated *)

(** before that a node is told nothing *)
Lemma told_new ps F : Forall (unrelated ps) F →
  told ps (mk_view (replicate 6 NO_NEIGHBOR) false 0) F (λ _, 0).
Proof.
  intros HF. apply (told_unrelated ps _ [] F); [done|].
  split; cbn [view_faces view_count view_instantiated]; try done. by repeat constructor.
Qed.

(** what a node is told about a face when it is instantiated *)
Definition tell_face (ps : sim_preds) (fs : list Z) (face : face_t) : list simple_tuple :=
  if face_in face fs =? NO_NEIGHBOR then tell_vacant ps face 1
  else tell_neighbor ps (face_in face fs) face 1.

Definition tell_faces (ps : sim_preds) (fs : list Z) (l : list face_t) : list simple_tuple :=
  concat (tell_face ps fs <$> l).

Lemma all_valid : Forall valid_face all_faces.
Proof. apply Forall_forall. intros f. apply valid_faces. Qed.

Lemma all_distinct : NoDup all_faces.
Proof. apply (bool_decide_unpack _). reflexivity. Qed.

Lemma bool_decide_cons (face f : face_t) l :
  bool_decide (face ∈ f :: l) = (face =? f) || bool_decide (face ∈ l).
Proof.
  destruct (Z.eqb_spec face f) as [->|Hn]; cbn [orb].
  - apply bool_decide_true. left.
  - apply bool_decide_ext. rewrite elem_of_cons. naive_solver.
Qed.

Lemma sum_tell_faces_neighbor ps p fs l face out :
  preds_apart ps → neighbor_pred ps = Some p → Forall valid_face l → NoDup l →
  Forall small fs → length fs = 6%nat → valid_face face → small out → out ≠ NO_NEIGHBOR →
  fact_sum p [out; face] (tell_faces ps fs l) =
    if bool_decide (face ∈ l) && (face_in face fs =? out) then 1 else 0.
Proof.
  intros Ha Hp Hl Hnd Hfs Hlen Hf Ho Hne. induction Hl as [|f l Hvf Hl IH]; [done|].
  apply NoDup_cons in Hnd as [Hnin Hnd]. specialize (IH Hnd).
  unfold tell_faces in *. cbn [fmap list_fmap concat]. rewrite fact_sum_app, IH. unfold tell_face.
  assert (Hs : small (face_in f fs)).
  { pose proof (face_in_lookup fs f _ Hlen Hvf eq_refl) as E.
    rewrite Forall_lookup in Hfs. by apply (Hfs _ _ E). }
  rewrite bool_decide_cons. destruct (Z.eqb_spec face f) as [->|Hn]; cbn [orb].
  - rewrite (bool_decide_false _ Hnin). cbn [andb].
    destruct (Z.eqb_spec (face_in f fs) NO_NEIGHBOR) as [E|E]; sums Ha; by_cases.
  - destruct (Z.eqb_spec (face_in f fs) NO_NEIGHBOR) as [E|E]; sums Ha;
      destruct (bool_decide (face ∈ l)); by_cases.
Qed.

Lemma sum_tell_faces_vacant ps p fs l face :
  preds_apart ps → vacant_pred ps = Some p → Forall valid_face l → NoDup l → valid_face face →
  fact_sum p [face] (tell_faces ps fs l) =
    if bool_decide (face ∈ l) && (face_in face fs =? NO_NEIGHBOR) then 1 else 0.
Proof.
  intros Ha Hp Hl Hnd Hf. induction Hl as [|f l Hvf Hl IH]; [done|].
  apply NoDup_cons in Hnd as [Hnin Hnd]. specialize (IH Hnd).
  unfold tell_faces in *. cbn [fmap list_fmap concat]. rewrite fact_sum_app, IH. unfold tell_face.
  rewrite bool_decide_cons. destruct (Z.eqb_spec face f) as [->|Hn]; cbn [orb].
  - rewrite (bool_decide_false _ Hnin). cbn [andb].
    destruct (Z.eqb_spec (face_in f fs) NO_NEIGHBOR) as [E|E]; sums Ha; by_cases.
  - destruct (Z.eqb_spec (face_in f fs) NO_NEIGHBOR) as [E|E]; sums Ha;
      destruct (bool_decide (face ∈ l)); by_cases.
Qed.

Lemma sum_tell_faces_count ps p fs l vals :
  preds_apart ps → neighbor_count_pred ps = Some p → fact_sum p vals (tell_faces ps fs l) = 0.
Proof.
  intros Ha Hp. unfold tell_faces. induction l as [|f l IH]; [done|].
  cbn [fmap list_fmap concat]. rewrite fact_sum_app, IH. unfold tell_face.
  destruct (_ =? _); sums Ha; done.
Qed.

(** a node that knew nothing is told its count and what is at each face *)
Lemma told_instantiated ps fs c F R :
  preds_apart ps → told ps (mk_view fs false c) F R →
  told ps (mk_view fs true c) (F ++ tell_count ps c 1 ++ tell_faces ps fs all_faces) R.
Proof.
  intros Ha [H1 Hs H2 H3 H4 H5]. cbn [view_faces view_count view_instantiated] in *.
  pose proof (occupied_bounds fs) as Hb. rewrite H1 in Hb.
  split; cbn [view_faces view_count view_instantiated]; [done|done|done|..].
  - intros p f o Hp Hvf Hsmall Hn. rewrite !fact_sum_app, (H3 p f o) by done.
    rewrite (sum_tell_faces_neighbor ps p fs) by (done || apply all_valid || apply all_distinct).
    rewrite bool_decide_true by by apply valid_faces. sums Ha. cbn [andb]. by_cases.
  - intros p c' Hp Hc'. rewrite !fact_sum_app, (H4 p c') by done.
    rewrite (sum_tell_faces_count ps p fs) by done. sums Ha. cbn [andb]. by_cases.
  - intros p f Hp Hvf. rewrite !fact_sum_app, (H5 p f) by done.
    rewrite (sum_tell_faces_vacant ps p fs) by (done || apply all_valid || apply all_distinct).
    rewrite bool_decide_true by by apply valid_faces. sums Ha. cbn [andb]. by_cases.
Qed.
