(* ===== verification/SimRun.v ===== *)
(** Runs of the simulator's scheduler: messages, idle rounds and what the engine does
    between them, as a relation that also counts what each node has taken and how often
    a neighbour was removed; and the invariant that the facts agree with the faces. *)

From Stdlib Require Import ZArith Lia Bool String Permutation.
From stdpp Require Import base tactics list numbers option gmap sorting.
From S2P Require Import Prelude Words Types RuntimeList Tuple SimpleTuple Heap Pqueues Node Loader LoaderFormat Sim SimFacts.

#[local] Open Scope Z_scope.

(** ** The invariant of a state

    [D id] is what node [id] has taken from its queues, [R id face] how often a
    neighbour there has been removed. *)

Definition node_told (ps : sim_preds) (n : sim_node) (l : list simple_tuple) (r : face_t → Z) : Prop :=
  told ps (view_of n) (l ++ node_facts n) r.

Definition ready (s : sim_sched) : bool := negb (thread_mode (flags s)) || all_instantiated (flags s).

Record sys_told (s : sim_sched) (D : Z → list simple_tuple) (R : Z → face_t → Z) : Prop := {
  sys_fields : preds_ok (preds s);
  sys_apart : preds_apart (preds s);
  sys_dom : ∀ id, is_Some (nodes (DATABASE s) !! id) ↔ is_Some (sim_nodes s !! id);
  sys_nodes : ∀ id n, sim_nodes s !! id = Some n →
    node_told (preds s) n (D id) (R id) ∧ instantiated_flag n = ready s;
  sys_absent : ∀ id, sim_nodes s !! id = None → D id = [] ∧ R id = λ _, 0
}.

Lemma node_told_became ps n n' v l d r' :
  became v l n n' → told ps v ((d ++ node_facts n) ++ l) r' → node_told ps n' d r'.
Proof.
  intros [<- Hp] H. unfold node_told. eapply told_perm; [|exact H]. by rewrite Hp, app_assoc.
Qed.

Lemma node_told_given ps n n' l d r :
  given l n n' → Forall (unrelated ps) l → node_told ps n d r → node_told ps n' d r.
Proof. intros Hg Hl H. eapply node_told_became; [exact Hg|]. by apply told_unrelated. Qed.

Lemma node_told_took ps n n' l d r : took l n n' → node_told ps n d r → node_told ps n' (d ++ l) r.
Proof.
  intros [Hv Hp] H. unfold node_told. rewrite Hv. eapply told_perm; [|exact H].
  by rewrite Hp, app_assoc.
Qed.

(** [s'] has the nodes of [s] *)
Record same_nodes (s s' : sim_sched) : Prop := {
  same_preds : preds s' = preds s;
  same_ready : ready s' = ready s;
  same_database : DATABASE s' = DATABASE s;
  same_sims : sim_nodes s' = sim_nodes s
}.

Lemma same_refl s : same_nodes s s.
Proof. done. Qed.

Lemma same_trans s1 s2 s3 : same_nodes s1 s2 → same_nodes s2 s3 → same_nodes s1 s3.
Proof. intros [????] [????]. split; congruence. Qed.

Lemma sys_same s s' D R : same_nodes s s' → sys_told s D R → sys_told s' D R.
Proof.
  intros [E1 E2 E3 E4] [H1 H2 H3 H4 H5]. split; rewrite ?E1, ?E3, ?E4; try done.
  intros id n Hn. rewrite E2. by apply H4.
Qed.

(** one node changes *)
Lemma sys_put s D R id n n' d r :
  sys_told s D R → sim_of id s = Ok n → instantiated_flag n' = instantiated_flag n →
  node_told (preds s) n' d r →
  sys_told (put_sim id n' s) (λ j, if j =? id then d else D j) (λ j, if j =? id then r else R j).
Proof.
  intros [H1 H2 H3 H4 H5] [Hdb Hn]%sim_of_ok Hi Hok. split; cbn; [done|done|..].
  - intros j. rewrite H3. destruct (decide (j = id)) as [->|Hne].
    + rewrite lookup_insert_eq, Hn. split; eauto.
    + by rewrite lookup_insert_ne.
  - intros j m Hj. destruct (Z.eqb_spec j id) as [->|Hne].
    + rewrite lookup_insert_eq in Hj. injection Hj as <-. split; [done|]. rewrite Hi. by apply (H4 id n).
    + rewrite lookup_insert_ne in Hj by done. by apply H4.
  - intros j Hj. destruct (Z.eqb_spec j id) as [->|Hne]; [by rewrite lookup_insert_eq in Hj|].
    rewrite lookup_insert_ne in Hj by done. by apply H5.
Qed.

(** the ghosts only matter up to equality at each node *)
Lemma sys_ext s D D' R R' :
  (∀ j, D' j = D j) → (∀ j, R' j = R j) → sys_told s D R → sys_told s D' R'.
Proof.
  intros HD HR [H1 H2 H3 H4 H5]. split; [done|done|done|..].
  - intros id n Hn. rewrite HD, HR. by apply H4.
  - intros id Hn. rewrite HD, HR. by apply H5.
Qed.

Lemma sys_put_given s D R id n n' l :
  sys_told s D R → sim_of id s = Ok n → given l n n' → Forall (unrelated (preds s)) l →
  sys_told (put_sim id n' s) D R.
Proof.
  intros Hs Hn Hg Hl. destruct (proj1 (sim_of_ok _ _ _) Hn) as [_ Hlk].
  destruct (sys_nodes _ _ _ Hs id n Hlk) as [Hok Hi].
  eapply sys_ext; [| |eapply (sys_put s D R id n n' (D id) (R id) Hs Hn)].
  - intros j. cbv beta. by destruct (Z.eqb_spec j id) as [->|].
  - intros j. cbv beta. by destruct (Z.eqb_spec j id) as [->|].
  - by destruct (view_eq _ _ (proj1 Hg)) as (_ & ? & _).
  - by apply (node_told_given _ n _ l).
Qed.

(** ** What leaves the nodes alone *)

Lemma write_socket_same n buf s s' : write_socket n buf s = Ok s' → same_nodes s s'.
Proof. unfold write_socket. destruct (_ <=? _)%nat; [|done]. by intros [= <-]. Qed.

Lemma write_messages_same ms : ∀ s s', write_messages ms s = Ok s' → same_nodes s s'.
Proof.
  induction ms as [|m ms IH]; intros s s' H; [by injection H as <-|]. cbn [write_messages] in H.
  apply res_bind_ok in H as (s1 & H1 & H2). apply write_socket_same in H1. eapply same_trans; eauto.
Qed.

Lemma send_pending_same s s' : send_pending_messages s = Ok s' → same_nodes s s'.
Proof. intros H%write_messages_same. by destruct H. Qed.

Lemma send_send_same info ts s s' : send_send_message info ts s = Ok s' → same_nodes s s'.
Proof.
  unfold send_send_message. intros H. apply res_bind_ok in H as (sz & _ & H).
  apply res_bind_ok in H as (? & _ & H). apply res_bind_ok in H as (? & _ & H).
  apply res_bind_ok in H as (? & _ & H). apply res_bind_ok in H as ([buf pos] & _ & H).
  apply asserting_ok in H as [_ H]. apply res_bind_ok in H as (m & _ & H).
  apply write_socket_same in H. by destruct H.
Qed.

Lemma send_all_same l : ∀ s s', send_all l s = Ok s' → same_nodes s s'.
Proof.
  induction l as [|i l IH]; intros s s' H; [by injection H as <-|]. cbn [send_all] in H.
  apply res_bind_ok in H as (s1 & H1 & H2). apply send_send_same in H1. eapply same_trans; eauto.
Qed.

Lemma check_delayed_same fuel now : ∀ s s', check_delayed_loop fuel now s = Ok s' → same_nodes s s'.
Proof.
  induction fuel as [|fuel IH]; intros s s' H; [done|]. cbn [check_delayed_loop] in H.
  destruct (general_empty _); [by injection H as <-|].
  apply res_bind_ok in H as (best & _ & H). destruct (best <? now); [|by injection H as <-].
  apply res_bind_ok in H as ([info q] & _ & H). apply res_bind_ok in H as (? & _ & H).
  apply res_bind_ok in H as (? & _ & H). apply res_bind_ok in H as (? & _ & H).
  apply res_bind_ok in H as (s1 & H1 & H2). apply send_send_same in H1. apply IH in H2.
  eapply same_trans; [|exact H2]. by destruct H1.
Qed.

(** ** The handlers keep the invariant *)

Section Handlers.
Context (PROGRAM : program) (create_fn : Z → Z → node) (rtype_of : Z → heap_type)
  (upper : Z) (by_address : gset Z → list Z).

Lemma sys_node s D R id n :
  sys_told s D R → sim_of id s = Ok n → node_told (preds s) n (D id) (R id) ∧ instantiated_flag n = ready s.
Proof. intros Hs [_ H]%sim_of_ok. by apply (sys_nodes _ _ _ Hs). Qed.

Lemma node_small ps n d r face : node_told ps n d r → valid_face face → small (face_of face n).
Proof.
  intros H Hf. pose proof (told_small _ _ _ _ H) as Hs. rewrite Forall_lookup in Hs.
  apply (Hs _ _ (face_lookup face n Hf)).
Qed.

Lemma node_told_added ps n d r out face n' :
  preds_apart ps → node_told ps n d r → valid_face face → small out → out ≠ NO_NEIGHBOR →
  became (if face_of face n =? out then view_of n else added_view out face n) (added ps out face n) n n' →
  node_told ps n' d r.
Proof.
  intros Ha Hn Hf Ho Hno Hb. eapply node_told_became; [exact Hb|].
  unfold added, added_view. pose proof (node_small _ _ _ _ _ Hn Hf) as Hsm. unfold node_told in Hn.
  destruct (Z.eqb_spec (face_of face n) NO_NEIGHBOR) as [E|E].
  - rewrite (proj2 (Z.eqb_neq _ out)) by congruence.
    pose proof (told_filled ps _ _ _ _ _ out face Ha Hn Hf Ho Hno E) as H.
    by destruct (instantiated_flag n).
  - destruct (Z.eqb_spec (face_of face n) out) as [E'|E'].
    + destruct (instantiated_flag n); cbn [negb]; by rewrite app_nil_r.
    + pose proof (told_replaced ps _ _ _ _ _ (face_of face n) out face Ha Hn Hf Ho Hno eq_refl Hsm E E') as H.
      by destruct (instantiated_flag n).
Qed.

Lemma became_flag v l n n' : became v l n n' → instantiated_flag n' = view_instantiated v.
Proof. by intros [<- _]. Qed.

Lemma sys_add_neighbor ts id out face s s' D R :
  sys_told s D R → small out → out ≠ NO_NEIGHBOR →
  handle_add_neighbor upper ts id out face s = Ok s' → sys_told s' D R ∧ preds s' = preds s.
Proof.
  intros Hs Ho Hno H. destruct (sim_of id s) as [n|] eqn:Hn;
    [|unfold handle_add_neighbor in H; by rewrite Hn in H].
  destruct (decide (valid_face face)) as [Hf|Hf];
    [|unfold handle_add_neighbor in H; rewrite Hn in H; cbn [res_bind] in H; by rewrite node_at_face_other in H].
  destruct (handle_add_neighbor_lands upper ts id out face s n (sys_fields _ _ _ Hs) Hn Hf Hno)
    as (n' & E & Hb).
  rewrite E in H. injection H as <-. split; [|done]. destruct (sys_node _ _ _ _ _ Hs Hn) as [Ht _].
  eapply sys_ext; [| |eapply (sys_put s D R id n n' (D id) (R id) Hs Hn)].
  - intros j. cbv beta. by destruct (Z.eqb_spec j id) as [->|].
  - intros j. cbv beta. by destruct (Z.eqb_spec j id) as [->|].
  - rewrite (became_flag _ _ _ _ Hb). by destruct (face_of face n =? out).
  - exact (node_told_added _ _ _ _ _ _ _ (sys_apart _ _ _ Hs) Ht Hf Ho Hno Hb).
Qed.

Lemma sys_remove_neighbor ts id face s s' D R n :
  sys_told s D R → sim_of id s = Ok n → instantiated_flag n = true →
  handle_remove_neighbor upper ts id face s = Ok s' →
  sys_told s' D (λ j, if j =? id then removal face (R id) else R j) ∧ preds s' = preds s.
Proof.
  intros Hs Hn Hi H. destruct (sys_node _ _ _ _ _ Hs Hn) as [Ht _].
  destruct (Z.eqb_spec (face_of face n) NO_NEIGHBOR) as [E|E];
    [by rewrite (handle_remove_vacant _ _ _ _ _ _ Hn E) in H|].
  destruct (decide (valid_face face)) as [Hf|Hf];
    [|unfold handle_remove_neighbor in H; rewrite Hn in H; cbn [res_bind] in H; by rewrite node_at_face_other in H].
  destruct (handle_remove_neighbor_lands upper ts id face s n (sys_fields _ _ _ Hs) Hn Hf E) as (n' & E' & Hb).
  rewrite E' in H. injection H as <-. split; [|done]. pose proof (node_small _ _ _ _ _ Ht Hf) as Hsm.
  eapply sys_ext; [| |eapply (sys_put s D R id n n' (D id) (removal face (R id)) Hs Hn)].
  - intros j. cbv beta. by destruct (Z.eqb_spec j id) as [->|].
  - done.
  - by rewrite (became_flag _ _ _ _ Hb).
  - eapply node_told_became; [exact Hb|]. unfold removed_view, removed. rewrite Hi. cbn [negb].
    unfold node_told, view_of in Ht. rewrite Hi in Ht.
    exact (told_removed _ _ _ _ _ _ _ (sys_apart _ _ _ Hs) Ht Hf eq_refl Hsm E).
Qed.

(** a fact of a predicate that is none of the three *)
Lemma sys_with_fact p count id ts build s s' D R :
  sys_told s D R →
  (∀ q t, p = Some q → build (new_tuple q) = Ok t → unrelated (preds s) (new_simple_tuple t (swrap 16 count))) →
  with_fact upper p count id ts build s = Ok s' → sys_told s' D R ∧ preds s' = preds s.
Proof.
  intros Hs Hu H. unfold with_fact in H. destruct p as [q|]; [|by injection H as <-].
  apply res_bind_ok in H as (t & Ht & H). destruct (sim_of id s) as [n|] eqn:Hn;
    [|unfold add_received_tuple in H; by rewrite Hn in H].
  destruct (add_received_lands upper id ts (new_simple_tuple t (swrap 16 count)) s n Hn) as (n' & E & Hg).
  rewrite E in H. injection H as <-. split; [|done]. eapply sys_put_given; [exact Hs|exact Hn|exact Hg|].
  constructor; [|constructor]. by apply (Hu q).
Qed.

(** new work for a node, now or later, of other predicates *)
Lemma sys_new_work src w s s' D R :
  sys_told s D R → unrelated (preds s) (work_tuple w) → sim_new_work upper src w s = Ok s' →
  sys_told s' D R ∧ preds s' = preds s.
Proof.
  intros Hs Hu H. unfold sim_new_work in H. apply res_bind_ok in H as (n & Hn & H).
  destruct (thread_mode (flags s)).
  { injection H as <-. split; [|done].
    eapply sys_put_given; [exact Hs|exact Hn|apply given_push|by constructor]. }
  destruct (current_node s); injection H as <-; (split; [|done]); [by eapply sys_same; [|exact Hs]|].
  eapply sys_put_given; [exact Hs|exact Hn|apply given_insert|by constructor].
Qed.

Lemma sys_new_work_delay now src w d s s' D R :
  sys_told s D R → unrelated (preds s) (work_tuple w) → new_work_delay now src w d s = Ok s' →
  sys_told s' D R ∧ preds s' = preds s.
Proof.
  intros Hs Hu H. unfold new_work_delay in H. destruct (thread_mode (flags s)).
  - apply res_bind_ok in H as (n & Hn & H). injection H as <-. split; [|done].
    eapply sys_put_given; [exact Hs|exact Hn|apply given_delay|by constructor].
  - injection H as <-. split; [|done]. by eapply sys_same; [|exact Hs].
Qed.

(** a node takes tuples from its queues *)
Lemma sys_gather id now s ls s' D R :
  sys_told s D R → sim_gather_next_tuples id now [] s = Ok (ls, s') →
  sys_told s' (λ j, if j =? id then D id ++ ls else D j) R ∧ preds s' = preds s.
Proof.
  intros Hs H. unfold sim_gather_next_tuples in H. apply res_bind_ok in H as (n & Hn & H).
  apply res_bind_ok in H as ([n1 l1] & H1 & H). apply res_bind_ok in H as ([n2 l2] & H2 & H).
  injection H as <- <-. split; [|done]. cbn [fst snd app] in *.
  assert (Ht : took l2 n n2).
  { apply took_delayed in H2 as (l & -> & Hl).
    destruct (sim_instr_use (instr s)).
    - apply took_until in H1 as (l' & -> & Hl'). rewrite <-app_assoc.
      eapply took_app; [apply took_pending|]. by eapply took_app.
    - injection H1 as <- <-. eapply took_app; [apply took_pending|done]. }
  destruct (sys_node _ _ _ _ _ Hs Hn) as [Hok _].
  eapply sys_ext; [| |eapply (sys_put s D R id n n2 (D id ++ l2) (R id) Hs Hn)].
  - done.
  - intros j. cbv beta. by destruct (Z.eqb_spec j id) as [->|].
  - by destruct (view_eq _ _ (proj1 Ht)) as (_ & ? & _).
  - by apply (node_told_took _ n).
Qed.

(** the answer to a run *)
Lemma sys_answer s s' D R :
  sys_told s D R → handle_deterministic_computation by_address s = Ok s' →
  sys_told s' D R ∧ preds s' = preds s.
Proof.
  intros Hs H. unfold handle_deterministic_computation in H.
  apply res_bind_ok in H as (s1 & H1 & H). apply res_bind_ok in H as (c & _ & H).
  apply res_bind_ok in H as (n & Hn & H). apply res_bind_ok in H as (s2 & H2 & H).
  injection H as <-. apply send_all_same in H1.
  assert (Hs1 : sys_told (set_tmp_work [] s1) D R).
  { eapply sys_same; [|exact Hs]. eapply same_trans; [exact H1|done]. }
  assert (Hs2 : same_nodes (put_sim c (set_timestamp (sim_instr_counter (instr (set_tmp_work [] s1))) n)
                  (set_tmp_work [] s1)) s2).
  { unfold write_reply in H2. destruct (_ <=? _)%nat; [|done]. by apply write_socket_same in H2. }
  split; [|change (preds s2 = preds s); rewrite (same_preds _ _ Hs2); exact (same_preds _ _ H1)].
  eapply sys_same; [eapply same_trans; [exact Hs2|done]|].
  eapply (sys_put_given _ _ _ c n _ []); [exact Hs1|exact Hn| |constructor].
  split; [done|]. by rewrite app_nil_r.
Qed.

(** ** Nodes that are made *)

Lemma put_node_dom i t (db : database) j :
  is_Some (nodes (fst (put_node create_fn i t db)) !! j) ↔ j = i ∨ is_Some (nodes db !! j).
Proof.
  unfold put_node. cbn [fst nodes]. destruct (decide (j = i)) as [->|Hne].
  - rewrite lookup_insert_eq. split; [by left|eauto].
  - rewrite lookup_insert_ne by done. naive_solver.
Qed.

(** the node is there, not instantiated *)
Lemma create_sim_node_ok id s s' :
  create_sim_node create_fn rtype_of id s = Ok s' →
  sim_of id s' = Ok (new_sim_node (rtype_of id)) ∧ preds s' = preds s ∧ flags s' = flags s ∧
  sim_nodes s' = <[id := new_sim_node (rtype_of id)]> (sim_nodes s) ∧
  ∀ j, is_Some (nodes (DATABASE s') !! j) ↔ j = id ∨ is_Some (nodes (DATABASE s) !! j).
Proof.
  unfold create_sim_node, create_node_id. intros H. apply res_bind_ok in H as ([db nd] & H1 & H).
  apply asserting_ok in H1 as [_ H1]. injection H as <-.
  assert (Hdom : ∀ j, is_Some (nodes db !! j) ↔ j = id ∨ is_Some (nodes (DATABASE s) !! j)).
  { intros j. rewrite <-(put_node_dom id id). injection H1 as <- _. done. }
  split_and!; [|done..|exact Hdom].
  apply sim_of_ok. cbn. split; [apply Hdom; by left|by rewrite lookup_insert_eq].
Qed.

Lemma sim_of_same s s' id : same_nodes s s' → sim_of id s' = sim_of id s.
Proof. intros [_ _ E1 E2]. unfold sim_of. by rewrite E1, E2. Qed.

(** loops of facts about faces *)
Lemma add_vacants_lands ts id fs : ∀ s n,
  preds_ok (preds s) → sim_of id s = Ok n →
  lands id s (add_vacants upper ts id fs s) (given (concat ((λ f, tell_vacant (preds s) f 1) <$> fs)) n).
Proof.
  induction fs as [|f fs IH]; intros s n Hp Hn; cbn [add_vacants fmap list_fmap concat].
  { apply (lands_same _ _ n); [done|apply given_nil]. }
  land n1 H1 Hn1 by (by apply add_vacant_lands).
  landed n2 H2 by (by apply IH). exact (given_app _ _ _ _ _ H1 H2).
Qed.

Lemma tell_face_same ps fs f : face_in f fs = NO_NEIGHBOR → tell_face ps fs f = tell_vacant ps f 1.
Proof. intros H. unfold tell_face. by rewrite H. Qed.

Lemma instantiate_faces_lands id fs : ∀ s n,
  preds_ok (preds s) → sim_of id s = Ok n → Forall valid_face fs →
  lands id s (instantiate_faces upper id fs s) (given (tell_faces (preds s) (faces_of n) fs) n).
Proof.
  induction fs as [|f fs IH]; intros s n Hp Hn Hfs; cbn [instantiate_faces].
  { apply (lands_same _ _ n); [done|apply given_nil]. }
  apply Forall_cons in Hfs as [Hf Hfs]. rewrite Hn. cbn [res_bind].
  rewrite node_at_face_ok by done. cbn [res_bind].
  land n1 H1 Hn1 by (instantiate (1 := given (tell_face (preds s) (faces_of n) f) n);
    unfold tell_face; change (face_in f (faces_of n)) with (face_of f n);
    destruct (face_of f n =? NO_NEIGHBOR); [by apply add_vacant_lands|by apply add_neighbor_lands]).
  landed n2 H2 by (by apply IH). destruct (view_eq _ _ (proj1 H1)) as (E & _ & _). rewrite E in H2.
  exact (given_app _ _ _ _ _ H1 H2).
Qed.

(** [s'] is [s] with the node [n'] at [id], which may be new *)
Record one_node (id : Z) (n' : sim_node) (s s' : sim_sched) : Prop := {
  one_preds : preds s' = preds s;
  one_flags : flags s' = flags s;
  one_sims : sim_nodes s' = <[id := n']> (sim_nodes s);
  one_dom : ∀ j, is_Some (nodes (DATABASE s') !! j) ↔ j = id ∨ is_Some (nodes (DATABASE s) !! j)
}.

Lemma one_node_sim_of id n' s s' : one_node id n' s s' → sim_of id s' = Ok n'.
Proof.
  intros [_ _ E Hd]. apply sim_of_ok. split; [apply Hd; by left|by rewrite E, lookup_insert_eq].
Qed.

Lemma one_node_trans id n1 n2 s s1 s2 : one_node id n1 s s1 → one_node id n2 s1 s2 → one_node id n2 s s2.
Proof.
  intros [E1 E2 E3 E4] [F1 F2 F3 F4]. split; [congruence|congruence| |].
  - by rewrite F3, E3, insert_insert_eq.
  - intros j. rewrite F4, E4. tauto.
Qed.

Lemma put_one_node id n n' s : sim_of id s = Ok n → one_node id n' s (put_sim id n' s).
Proof.
  intros [Hdb _]%sim_of_ok. split; try done. intros j. cbn. split; [by right|].
  by intros [->|].
Qed.

Lemma lands_one_node id s n r (Q : sim_node → Prop) s' :
  sim_of id s = Ok n → lands id s r Q → r = Ok s' → ∃ n', one_node id n' s s' ∧ Q n'.
Proof. intros Hn (n' & -> & HQ) [= <-]. exists n'. split; [by apply (put_one_node _ n)|done]. Qed.

Lemma one_node_same id n s s1 s2 : one_node id n s s1 → same_nodes s1 s2 → flags s2 = flags s1 → one_node id n s s2.
Proof. intros [E1 E2 E3 E4] [F1 _ F3 F4] Hfl. split; [congruence|congruence|congruence|]. by rewrite F3. Qed.

Lemma sys_one_node id n' s s' D R :
  sys_told s D R → sim_nodes s !! id = None → one_node id n' s s' →
  node_told (preds s) n' [] (λ _, 0) → instantiated_flag n' = ready s → sys_told s' D R.
Proof.
  intros [H1 H2 H3 H4 H5] Hnew [E1 E2 E3 E4] Hok Hi.
  assert (Hr : ready s' = ready s) by (unfold ready; by rewrite E2).
  destruct (H5 id Hnew) as [HD HR]. split; rewrite ?E1, ?E3; try done.
  - intros j. rewrite E4, H3. destruct (decide (j = id)) as [->|Hne].
    + rewrite lookup_insert_eq. split; [eauto|by left].
    + rewrite lookup_insert_ne by done. split; [by intros [->|]|by right].
  - intros j m Hj. rewrite Hr. destruct (decide (j = id)) as [->|Hne].
    + rewrite lookup_insert_eq in Hj. injection Hj as <-. rewrite HD, HR. done.
    + rewrite lookup_insert_ne in Hj by done. by apply H4.
  - intros j Hj. destruct (decide (j = id)) as [->|Hne]; [by rewrite lookup_insert_eq in Hj|].
    rewrite lookup_insert_ne in Hj by done. by apply H5.
Qed.

(** the init tuple says nothing about neighbours *)
Definition init_unrelated (ps : sim_preds) : Prop :=
  ∀ p, get_init_predicate PROGRAM None = Ok p → unrelated ps (create_new (new_tuple p)).

Lemma init_node_one id s n s' :
  sim_of id s = Ok n → sim_init_node PROGRAM upper id s = Ok s' →
  ∃ n' l, one_node id n' s s' ∧ given l n n' ∧ (init_unrelated (preds s) → Forall (unrelated (preds s)) l).
Proof.
  intros Hn H. unfold sim_init_node in H. apply res_bind_ok in H as (p & Hp & H).
  set (x := create_new (new_tuple p)) in *.
  assert (Hl : init_unrelated (preds s) → Forall (unrelated (preds s)) [x]).
  { intros Hu. constructor; [by apply Hu|constructor]. }
  unfold sim_new_work in H. cbn [work_node work_tuple] in H. rewrite Hn in H. cbn [res_bind] in H.
  destruct (thread_mode (flags s)).
  { injection H as <-. eexists _, [x]. split; [by apply (put_one_node _ n)|]. split; [apply given_push|done]. }
  destruct (current_node s); injection H as <-.
  - exists n, []. split; [|split; [apply given_nil|constructor]].
    eapply one_node_same; [by apply (put_one_node id n n s)| |done].
    rewrite put_sim_same by done. done.
  - eexists _, [x]. split; [by apply (put_one_node _ n)|]. split; [apply given_insert|done].
Qed.

(** all faces of a new node are vacant *)
Lemma tell_faces_new ps typ :
  tell_faces ps (faces_of (new_sim_node typ)) all_faces = concat ((λ f, tell_vacant ps f 1) <$> all_faces).
Proof. reflexivity. Qed.

(** a new node is instantiated *)
Lemma new_facts_lands ts id s n :
  preds_ok (preds s) → sim_of id s = Ok n →
  lands id s
    (let* s := alter_sim id (set_instantiated true) s in
     let* s := add_vacants upper ts id all_faces s in add_neighbor_count upper ts id 0 1 s)
    (became (mk_view (faces_of n) true (neighbor_count n))
       (concat ((λ f, tell_vacant (preds s) f 1) <$> all_faces) ++ tell_count (preds s) 0 1) n).
Proof.
  intros Hp Hn. land n1 H1 Hn1 by (by apply (alter_sim_lands _ _ n)). subst n1.
  land n2 H2 Hn2 by (by apply add_vacants_lands). landed n3 H3 by (by apply add_count_lands).
  pose proof (given_app _ _ _ _ _ H2 H3) as H. exact H.
Qed.

Lemma create_one_ok ts id s s' D R :
  sys_told s D R → init_unrelated (preds s) → sim_nodes s !! id = None →
  create_one PROGRAM create_fn rtype_of upper ts id s = Ok s' →
  sys_told s' D R ∧ preds s' = preds s ∧ ∃ n, sim_nodes s' = <[id := n]> (sim_nodes s).
Proof.
  intros Hs Hu Hnew H. unfold create_one in H. apply res_bind_ok in H as (s1 & H1 & H).
  apply create_sim_node_ok in H1 as (Hn1 & Ep & Ef & Es & Hd).
  pose proof (Build_one_node id _ s s1 Ep Ef Es Hd) as O1.
  apply res_bind_ok in H as (s2 & H2 & H). destruct (init_node_one _ _ _ _ Hn1 H2) as (n2 & l & O2 & G2 & Hl).
  rewrite Ep in Hl. specialize (Hl Hu). pose proof (one_node_trans _ _ _ _ _ _ O1 O2) as O.
  set (s3 := if thread_mode (flags s2) then add_slave id s2 else s2) in *.
  assert (O3 : one_node id n2 s s3).
  { subst s3. destruct (thread_mode (flags s2)); [|done]. by eapply one_node_same; [exact O| |]. }
  destruct (view_eq _ _ (proj1 G2)) as (V1 & V2 & V3).
  assert (Ht : node_told (preds s) n2 [] (λ _, 0)).
  { eapply node_told_given; [exact G2|exact Hl|]. by apply told_new. }
  assert (Hready : negb (thread_mode (flags s3)) || all_instantiated (flags s3) = ready s)
    by (unfold ready; by rewrite (one_flags _ _ _ _ O3)).
  rewrite Hready in H. destruct (ready s) eqn:Er.
  - pose proof (one_node_sim_of _ _ _ _ O3) as Hn3. pose proof (sys_fields _ _ _ Hs) as Hp.
    rewrite <-(one_preds _ _ _ _ O3) in Hp.
    destruct (lands_one_node _ _ _ _ _ _ Hn3 (new_facts_lands ts id s3 n2 Hp Hn3) H) as (n4 & O4 & B4).
    pose proof (one_node_trans _ _ _ _ _ _ O3 O4) as O5.
    split; [|split; [apply (one_preds _ _ _ _ O5)|eexists; apply (one_sims _ _ _ _ O5)]].
    eapply sys_one_node; [exact Hs|exact Hnew|exact O5| |by rewrite (became_flag _ _ _ _ B4), Er].
    eapply node_told_became; [exact B4|]. rewrite V1, V3.
    unfold node_told, view_of in Ht. rewrite V1, V2, V3 in Ht. rewrite (one_preds _ _ _ _ O3).
    eapply told_perm; [|exact (told_instantiated _ _ _ _ _ (sys_apart _ _ _ Hs) Ht)].
    apply Permutation_app_head. rewrite (tell_faces_new _ (rtype_of id)). apply Permutation_app_comm.
  - injection H as <-. split; [|split; [apply (one_preds _ _ _ _ O3)|eexists; apply (one_sims _ _ _ _ O3)]].
    eapply sys_one_node; [exact Hs|exact Hnew|exact O3|exact Ht|by rewrite V2, Er].
Qed.

Lemma create_loop_ok n : ∀ ts id s s' D R,
  sys_told s D R → init_unrelated (preds s) → 0 <= id → id + Z.of_nat n <= 2 ^ 32 →
  (∀ i, id <= i < id + Z.of_nat n → sim_nodes s !! i = None) →
  create_loop PROGRAM create_fn rtype_of upper n ts id s = Ok s' →
  sys_told s' D R ∧ preds s' = preds s.
Proof.
  induction n as [|n IH]; intros ts id s s' D R Hs Hu Hid Hb Hnew H; cbn [create_loop] in H.
  { by injection H as <-. }
  rewrite wrap_id in H by lia. apply res_bind_ok in H as (s1 & H1 & H).
  destruct (create_one_ok _ _ _ _ _ _ Hs Hu (Hnew id ltac:(lia)) H1) as (Hs1 & Ep & m & Em).
  destruct (IH ts (id + 1) s1 s' D R Hs1) as (? & ?); [by rewrite Ep|lia|lia| |done|split; [done|congruence]].
  intros i Hi. rewrite Em, lookup_insert_ne by lia. apply Hnew. lia.
Qed.

(** ** All nodes are instantiated *)

Lemma instantiate_node_lands id s n :
  preds_ok (preds s) → sim_of id s = Ok n →
  lands id s (instantiate_node upper id s)
    (became (mk_view (faces_of n) true (neighbor_count n))
       (tell_count (preds s) (neighbor_count n) 1 ++ tell_faces (preds s) (faces_of n) all_faces) n).
Proof.
  intros Hp Hn. unfold instantiate_node.
  land n1 H1 Hn1 by (by apply (alter_sim_lands _ _ n)). subst n1. rewrite Hn1. cbn [res_bind].
  land n2 H2 Hn2 by (by apply add_count_lands).
  landed n3 H3 by (apply instantiate_faces_lands; [done|done|apply all_valid]).
  destruct (view_eq _ _ (proj1 H2)) as (E & _ & _). rewrite E in H3.
  exact (given_app _ _ _ _ _ H2 H3).
Qed.
(** the nodes of [todo] are not instantiated yet, the others are *)
Record midway (todo : list Z) (s : sim_sched) (D : Z → list simple_tuple) (R : Z → face_t → Z) : Prop := {
  mid_fields : preds_ok (preds s);
  mid_apart : preds_apart (preds s);
  mid_dom : ∀ id, is_Some (nodes (DATABASE s) !! id) ↔ is_Some (sim_nodes s !! id);
  mid_nodes : ∀ id n, sim_nodes s !! id = Some n →
    node_told (preds s) n (D id) (R id) ∧ instantiated_flag n = negb (bool_decide (id ∈ todo));
  mid_absent : ∀ id, sim_nodes s !! id = None → D id = [] ∧ R id = λ _, 0
}.

Lemma instantiate_nodes_ok todo : ∀ s s' D R,
  NoDup todo → midway todo s D R → instantiate_nodes upper todo s = Ok s' →
  midway [] s' D R ∧ preds s' = preds s ∧ flags s' = flags s.
Proof.
  induction todo as [|id todo IH]; intros s s' D R Hnd Hm H; cbn [instantiate_nodes] in H.
  { by injection H as <-. }
  apply NoDup_cons in Hnd as [Hnin Hnd]. apply res_bind_ok in H as (s1 & H1 & H).
  destruct (sim_of id s) as [n|] eqn:Hn;
    [|unfold instantiate_node, alter_sim in H1; by rewrite Hn in H1].
  destruct (instantiate_node_lands id s n (mid_fields _ _ _ _ Hm) Hn) as (n' & E & B).
  rewrite E in H1. injection H1 as <-.
  destruct (IH (put_sim id n' s) s' D R Hnd) as (A & B' & C); [|done|exact (conj A (conj B' C))].
  destruct Hm as [M1 M2 M3 M4 M5]. destruct (proj1 (sim_of_ok _ _ _) Hn) as [Hdb Hlk].
  destruct (M4 id n Hlk) as [Ht Hi]. rewrite bool_decide_true in Hi by left. cbn in Hi.
  split; cbn; [done|done|..].
  - intros j. rewrite M3. destruct (decide (j = id)) as [->|Hne].
    + rewrite lookup_insert_eq, Hlk. split; eauto.
    + by rewrite lookup_insert_ne.
  - intros j m Hj. destruct (decide (j = id)) as [->|Hne].
    + rewrite lookup_insert_eq in Hj. injection Hj as <-. rewrite bool_decide_false by done.
      rewrite (became_flag _ _ _ _ B). split; [|done].
      eapply node_told_became; [exact B|]. unfold node_told, view_of in Ht. rewrite Hi in Ht.
      exact (told_instantiated _ _ _ _ _ M2 Ht).
    + rewrite lookup_insert_ne in Hj by done. destruct (M4 j m Hj) as [? Hj2]. split; [done|].
      rewrite Hj2. f_equal. apply bool_decide_ext. rewrite elem_of_cons. naive_solver.
  - intros j Hj. destruct (decide (j = id)) as [->|Hne]; [by rewrite lookup_insert_eq in Hj|].
    rewrite lookup_insert_ne in Hj by done. by apply M5.
Qed.

Lemma node_ids_all db id : id ∈ node_ids db ↔ is_Some (nodes db !! id).
Proof.
  unfold node_ids. rewrite (merge_sort_Permutation Z.le), elem_of_elements, elem_of_dom. done.
Qed.

Lemma node_ids_distinct db : NoDup (node_ids db).
Proof. unfold node_ids. rewrite (merge_sort_Permutation Z.le). apply NoDup_elements. Qed.

Lemma sys_instantiate s s' D R :
  sys_told s D R → instantiate_all_nodes upper s = Ok s' →
  let f := flags s' in
  sys_told (set_flags (mk_flags (thread_mode f) (stop_all f) true (start_time f)) s') D R ∧ preds s' = preds s.
Proof.
  intros Hs H. unfold instantiate_all_nodes in H. apply asserting_ok in H as [H1 H].
  apply asserting_ok in H as [H2 H]. apply negb_true_iff in H1.
  assert (Hr : ready s = false) by (unfold ready; by rewrite H1, H2).
  assert (Hm : midway (node_ids (DATABASE s)) s D R).
  { destruct Hs as [S1 S2 S3 S4 S5]. split; try done. intros id n Hn.
    destruct (S4 id n Hn) as [? Hi]. split; [done|]. rewrite Hi, Hr, bool_decide_true; [done|].
    apply node_ids_all, S3. eauto. }
  destruct (instantiate_nodes_ok _ _ _ _ _ (node_ids_distinct _) Hm H) as ([M1 M2 M3 M4 M5] & Hps & _).
  split; [|exact Hps].
  split; try done. intros id n Hn. destruct (M4 id n Hn) as [? Hi]. split; [done|]. rewrite Hi.
  cbn. unfold ready. cbn. by rewrite orb_true_r.
Qed.

(** a round with nothing to read *)
Lemma sys_idle now now' s s' D R : sys_told s D R → idle_round upper now now' s = Ok s' →
  sys_told s' D R ∧ preds s' = preds s.
Proof.
  intros Hs H. unfold idle_round in H. apply res_bind_ok in H as (s1 & H1 & H).
  apply send_pending_same in H1. apply (sys_same _ _ _ _ H1) in Hs. rewrite <-(same_preds _ _ H1).
  apply res_bind_ok in H as (s2 & H2 & H).
  assert (Hs2 : sys_told s2 D R ∧ preds s2 = preds s1).
  { destruct (thread_mode (flags s1) && negb (all_instantiated (flags s1))); [|by injection H2 as <-].
    destruct (_ <? now); [|by injection H2 as <-].
    apply res_bind_ok in H2 as (s3 & H3 & H2). injection H2 as <-. exact (sys_instantiate _ _ _ _ Hs H3). }
  destruct (negb (thread_mode (flags s2))); [|by injection H as <-].
  apply check_delayed_same in H. destruct Hs2 as [Hs2 <-].
  exact (conj (sys_same _ _ _ _ H Hs2) (same_preds _ _ H)).
Qed.
(** ** Runs *)

(** what is assumed of messages: the mode is chosen before there are nodes, new nodes are
    new, and no neighbour is removed from a node that is not instantiated.  A tuple that
    arrives is of another predicate. *)
Definition polite (i : input) (s : sim_sched) : Prop :=
  match i with
  | Idle _ _ => True
  | Message bs =>
      (word bs 1 = Ok 9 → sim_nodes s = ∅) ∧
      (word bs 1 = Ok 1 → ∀ n start, word bs 4 = Ok n → word_id bs 5 = Ok start →
         start + n <= 2 ^ 32 ∧ ∀ j, start <= j < start + n → sim_nodes s !! j = None) ∧
      (word bs 1 = Ok 13 → ∀ size m stpl pos, word bs 0 = Ok size →
         SimpleTuple.unpack (program_predicate PROGRAM) (mem s) bs (swrap 32 (size + 8)) (5 * 8) =
           Ok (m, stpl, pos) → unrelated (preds s) stpl) ∧
      (word bs 1 = Ok 5 → word_id bs 4 ≠ Ok NO_NEIGHBOR) ∧
      (word bs 1 = Ok 6 → ∀ id n, word_id bs 3 = Ok id → sim_of id s = Ok n → instantiated_flag n = true)
  end.

(** the removals after the round of [i] *)
Definition count_removal (i : input) (R : Z → face_t → Z) : Z → face_t → Z :=
  match i with
  | Idle _ _ => R
  | Message bs =>
      match word bs 1, word_id bs 3, word_int bs 4 with
      | Ok code, Ok id, Ok face =>
          if code =? 6 then λ j, if j =? id then removal face (R id) else R j else R
      | _, _, _ => R
      end
  end.

Inductive reach : sim_sched → (Z → list simple_tuple) → (Z → face_t → Z) → Prop :=
  | reach_start db m threads now s :
      sim_init PROGRAM threads now (new_sim_sched db m) = Ok s → reach s (λ _, []) (λ _ _, 0)
  | reach_round i x s s' D R :
      reach s D R → polite i s →
      master_round PROGRAM create_fn rtype_of upper i s = Ok (x, s') → reach s' D (count_removal i R)
  | reach_answer s s' D R :
      reach s D R → handle_deterministic_computation by_address s = Ok s' → reach s' D R
  | reach_gather id now ls s s' D R :
      reach s D R → sim_gather_next_tuples id now [] s = Ok (ls, s') →
      reach s' (λ j, if j =? id then D id ++ ls else D j) R
  | reach_new_work src w s s' D R :
      reach s D R → unrelated (preds s) (work_tuple w) → sim_new_work upper src w s = Ok s' →
      reach s' D R
  | reach_new_work_delay now src w d s s' D R :
      reach s D R → unrelated (preds s) (work_tuple w) → new_work_delay now src w d s = Ok s' →
      reach s' D R
  | reach_color id r g b s s' D R :
      reach s D R → set_color id r g b s = Ok s' → reach s' D R
  | reach_engine i m s D R :   (** the engine counts instructions and uses memory *)
      reach s D R → reach (set_mem m (set_instr i s)) D R.

(** ** The program's predicates *)

Definition named (q : option predicate) (name : string) : Prop :=
  ∀ p, q = Some p → p ∈ predicates PROGRAM ∧ pred_name p = name.

Lemma by_name_named name : named (get_predicate_by_name PROGRAM name) name.
Proof.
  intros p H. unfold get_predicate_by_name in H. apply find_some in H as [H1 H2].
  split; [by apply list_elem_of_In|by apply String.eqb_eq].
Qed.

Lemma named_apart p q n n' : program_ok PROGRAM → named p n → named q n' → n ≠ n' → apart p q.
Proof.
  intros Hok Hp Hq Hne x y Hx Hy Heq. destruct (Hp x Hx) as [Hx1 Hx2]. destruct (Hq y Hy) as [Hy1 Hy2].
  apply list_elem_of_lookup in Hx1 as [i Hi]. apply list_elem_of_lookup in Hy1 as [j Hj].
  pose proof (ok_ids _ Hok _ _ Hi). pose proof (ok_ids _ Hok _ _ Hj).
  assert (i = j) as -> by lia. congruence.
Qed.

Record preds_named (ps : sim_preds) : Prop := {
  named_neighbor : named (neighbor_pred ps) "neighbor";
  named_tap : named (tap_pred ps) "tap";
  named_count : named (neighbor_count_pred ps) "neighborCount";
  named_accel : named (accel_pred ps) "accel";
  named_shake : named (shake_pred ps) "shake";
  named_vacant : named (vacant_pred ps) "vacant"
}.

(** a fact of another name says nothing about neighbours *)
Lemma named_unrelated ps q p name t c :
  program_ok PROGRAM → preds_named ps → named q name → q = Some p → pred t = p →
  name ≠ "neighbor"%string → name ≠ "neighborCount"%string → name ≠ "vacant"%string →
  unrelated ps (new_simple_tuple t c).
Proof.
  intros Hok Hn Hq Hp Ht H1 H2 H3. unfold unrelated, silent, SimpleTuple.get_predicate. cbn. rewrite Ht.
  split_and!; intros x Hx.
  - exact (named_apart q _ _ _ Hok Hq (named_neighbor _ Hn) H1 p x Hp Hx).
  - exact (named_apart q _ _ _ Hok Hq (named_count _ Hn) H2 p x Hp Hx).
  - exact (named_apart q _ _ _ Hok Hq (named_vacant _ Hn) H3 p x Hp Hx).
Qed.

Lemma named_preds_apart ps : program_ok PROGRAM → preds_named ps → preds_apart ps.
Proof.
  intros Hok [????? ?]. split; eapply named_apart; eauto; discriminate.
Qed.

Lemma init_named ps : program_ok PROGRAM → preds_named ps → init_unrelated ps.
Proof.
  intros Hok Hn p Hp. unfold get_init_predicate in Hp. apply res_bind_ok in Hp as (q & Hq & Hp).
  apply of_option_ok in Hq.
  assert (Hname : named (Some p) "_init").
  { intros p' [= <-]. destruct (String.eqb (pred_name q) "_init") eqn:E.
    - injection Hp as <-. split; [|by apply String.eqb_eq]. unfold get_predicate in Hq.
      destruct (_ <=? _); [done|]. by apply list_elem_of_lookup_2 in Hq.
    - apply of_option_ok in Hp. by apply by_name_named in Hp. }
  by apply (named_unrelated ps (Some p) p "_init").
Qed.

Lemma find_pred_ok name n q : find_pred PROGRAM name n = Ok q → named q name ∧ has_fields q n.
Proof.
  unfold find_pred. destruct (get_predicate_by_name PROGRAM name) as [p|] eqn:E.
  - intros [H [= <-]]%asserting_ok. apply Nat.eqb_eq in H. split.
    + rewrite <-E. apply by_name_named.
    + by intros x [= <-].
  - intros [= <-]. split; by intros x.
Qed.

(** the state that the connection to the simulator starts from *)
Lemma sim_init_ok db m threads now s :
  sim_init PROGRAM threads now (new_sim_sched db m) = Ok s →
  preds_ok (preds s) ∧ preds_named (preds s) ∧ sim_nodes s = ∅ ∧ DATABASE s = db ∧ nodes db = ∅.
Proof.
  unfold sim_init. intros H. apply asserting_ok in H as [_ H]. apply asserting_ok in H as [Hd H].
  do 6 (apply res_bind_ok in H as (? & ?%find_pred_ok & H)). injection H as <-. cbn.
  repeat match goal with H : _ ∧ _ |- _ => destruct H end.
  split_and!; [done..|]. apply Nat.eqb_eq, map_size_empty_inv in Hd. exact Hd.
Qed.

Lemma count_removal_other bs c R : word bs 1 = Ok c → c ≠ 6 → count_removal (Message bs) R = R.
Proof.
  intros Hc Hne. cbn [count_removal]. rewrite Hc. destruct (word_id bs 3), (word_int bs 4); try done.
  by rewrite (proj2 (Z.eqb_neq _ _)).
Qed.

Lemma word_id_range bs k v : word_id bs k = Ok v → small v.
Proof.
  unfold word_id. intros H. apply res_bind_ok in H as (w & _ & [= <-]). apply wrap_range. lia.
Qed.

Lemma sys_receive ts id face bs size s s' D R :
  sys_told s D R →
  (∀ m stpl pos, SimpleTuple.unpack (program_predicate PROGRAM) (mem s) bs (swrap 32 (size + 8)) (5 * 8) =
     Ok (m, stpl, pos) → unrelated (preds s) stpl) →
  handle_receive_message PROGRAM upper ts id face bs (5 * 8) (swrap 32 (size + 8)) s = Ok s' →
  sys_told s' D R ∧ preds s' = preds s.
Proof.
  intros Hs Hu H. unfold handle_receive_message in H. apply asserting_ok in H as [_ H].
  apply res_bind_ok in H as (origin & _ & H). apply res_bind_ok in H as (tid & _ & H).
  apply res_bind_ok in H as (n & Hn & H). apply res_bind_ok in H as ([[m stpl] pos] & Hun & H).
  injection H as <-. split; [|done].
  apply (sys_put_given (set_mem m s) D R tid n _ [stpl]); [|exact Hn|apply given_insert|].
  - by apply (sys_same s).
  - constructor; [|constructor]. by apply (Hu m stpl pos).
Qed.

Lemma sys_again r x s s' D R :
  again r = Ok (x, s') → (∀ s1, r = Ok s1 → sys_told s1 D R ∧ preds s1 = preds s) →
  sys_told s' D R ∧ preds s' = preds s.
Proof. unfold again. intros H Hr. apply res_bind_ok in H as (s1 & H1 & [= _ <-]). by apply Hr. Qed.

(** a fact of the simulator that is none of the three *)
Lemma sys_other_fact q name id ts build s s' D R :
  program_ok PROGRAM → preds_named (preds s) → sys_told s D R → named q name →
  name ≠ "neighbor"%string → name ≠ "neighborCount"%string → name ≠ "vacant"%string →
  (∀ t t', build t = Ok t' → pred t' = pred t) →
  (let* _ := sim_of id s in with_fact upper q 1 id ts build s) = Ok s' →
  sys_told s' D R ∧ preds s' = preds s.
Proof.
  intros Hok Hn Hs Hq H1 H2 H3 Hb H. apply res_bind_ok in H as (n & _ & H).
  refine (sys_with_fact _ _ _ _ _ _ _ _ _ Hs _ H). intros p t Hp Ht. apply Hb in Ht.
  by apply (named_unrelated _ q p name).
Qed.

Lemma set_int_pred t i v t' : set_int t i v = Ok t' → pred t' = pred t.
Proof.
  unfold set_int, set_field. intros H. apply res_bind_ok in H as (? & _ & H).
  by apply res_bind_ok in H as (? & _ & [= <-]).
Qed.

(** the words that a message is taken apart into *)
Ltac words H :=
  repeat match type of H with
  | res_bind (word _ _) _ = Ok _ => let w := fresh "w" in let Hw := fresh "Hw" in
      apply res_bind_ok in H as (w & Hw & H)
  | res_bind (word_id _ _) _ = Ok _ => let w := fresh "id" in let Hw := fresh "Hid" in
      apply res_bind_ok in H as (w & Hw & H)
  | res_bind (word_int _ _) _ = Ok _ => let w := fresh "k" in let Hw := fresh "Hk" in
      apply res_bind_ok in H as (w & Hw & H)
  end.

Lemma sys_events bs x s s' D R c :
  program_ok PROGRAM → preds_named (preds s) → sys_told s D R → word bs 1 = Ok c →
  c = 7 ∨ c = 14 ∨ c = 15 →
  handle_message PROGRAM create_fn rtype_of upper bs s = Ok (x, s') →
  sys_told s' D R ∧ preds s' = preds s.
Proof.
  intros Hok Hn Hs Hc Hcs H. unfold handle_message in H. rewrite Hc in H. cbn [res_bind] in H.
  destruct Hcs as [->|[->| ->]]; cbn [Z.eqb Pos.eqb] in H; words H;
    apply (sys_again _ _ _ _ _ _ H); intros s1 H1.
  - eapply (sys_other_fact _ "tap"); [done|done|done|apply (named_tap _ Hn)|done|done|done| |exact H1].
    by intros t t' [= <-].
  - eapply (sys_other_fact _ "accel"); [done|done|done|apply (named_accel _ Hn)|done|done|done| |exact H1].
    intros t t'. apply set_int_pred.
  - eapply (sys_other_fact _ "shake"); [done|done|done|apply (named_shake _ Hn)|done|done|done| |exact H1].
    intros t t' Ht. apply res_bind_ok in Ht as (t1 & ?%set_int_pred & Ht).
    apply res_bind_ok in Ht as (t2 & ?%set_int_pred & ?%set_int_pred). congruence.
Qed.

Lemma sys_mode s D R : sys_told s D R → sim_nodes s = ∅ → ∀ f, sys_told (set_flags f s) D R.
Proof.
  intros [H1 H2 H3 H4 H5] He f. split; try done. intros id n Hn. cbn in Hn. rewrite He in Hn.
  by rewrite lookup_empty in Hn.
Qed.

Lemma sys_create s s' D R n start ts :
  program_ok PROGRAM → preds_named (preds s) → sys_told s D R → small start →
  start + n <= 2 ^ 32 → (∀ j, start <= j < start + n → sim_nodes s !! j = None) →
  handle_create_n_nodes PROGRAM create_fn rtype_of upper ts n start s = Ok s' →
  sys_told s' D R ∧ preds s' = preds s.
Proof.
  intros Hok Hn Hs Hst Hle Hnew H. unfold handle_create_n_nodes in H. unfold small in Hst.
  apply (create_loop_ok (Z.to_nat n) ts start s s' D R Hs); [by apply init_named|lia|lia| |done].
  intros j Hj. apply Hnew. lia.
Qed.

(** the code of a message decides what is done *)
Lemma sys_message bs x s s' D R :
  program_ok PROGRAM → preds_named (preds s) → sys_told s D R → polite (Message bs) s →
  handle_message PROGRAM create_fn rtype_of upper bs s = Ok (x, s') →
  sys_told s' D (count_removal (Message bs) R) ∧ preds s' = preds s.
Proof.
  intros Hok Hn Hs (P9 & P1 & P13 & P5 & P6) H. destruct (word bs 1) as [c|] eqn:Hc;
    [|unfold handle_message in H; by rewrite Hc in H].
  destruct (Z.eqb_spec c 6) as [->|Hne].
  - unfold handle_message in H. rewrite Hc in H. cbn [res_bind Z.eqb Pos.eqb] in H. words H.
    cbn [count_removal]. rewrite Hc, Hid, Hk. cbn [Z.eqb Pos.eqb].
    apply res_bind_ok in H as (s1 & H1 & [= _ <-]).
    destruct (sim_of id s) as [n|] eqn:Hsim; [|unfold handle_remove_neighbor in H1; by rewrite Hsim in H1].
    by apply (sys_remove_neighbor w id k s s1 D R n Hs Hsim (P6 eq_refl id n Hid Hsim)).
  - rewrite (count_removal_other _ _ _ Hc Hne).
    destruct (decide (c = 7 ∨ c = 14 ∨ c = 15)) as [Hev|Hev]; [by apply (sys_events bs x s s' D R c)|].
    unfold handle_message in H. rewrite Hc in H. cbn [res_bind] in H.
    destruct (Z.eqb_spec c 9) as [->|_]; [injection H as _ <-; split; [by apply sys_mode, P9|done]|].
    destruct (Z.eqb_spec c 1) as [->|_].
    { words H. apply (sys_again _ _ _ _ _ _ H). intros s1 H1. destruct (P1 eq_refl _ _ Hw0 Hid) as [Hle Hnew].
      by apply (sys_create s s1 D R w0 id w Hok Hn Hs (word_id_range _ _ _ Hid) Hle Hnew). }
    destruct (Z.eqb_spec c 2) as [->|_].
    { words H. apply res_bind_ok in H as ([i s1] & H1 & [= _ <-]). unfold handle_run_node in H1.
      apply asserting_ok in H1 as [_ H1]. apply res_bind_ok in H1 as (n & _ & [= _ <-]).
      split; [by apply (sys_same s)|done]. }
    destruct (Z.eqb_spec c 13) as [->|_].
    { words H. apply (sys_again _ _ _ _ _ _ H). intros s1 H1.
      refine (sys_receive _ _ _ _ _ _ _ _ _ Hs _ H1). intros m stpl pos. by apply P13. }
    destruct (Z.eqb_spec c 5) as [->|_].
    { words H. apply (sys_again _ _ _ _ _ _ H). intros s1 H1.
      refine (sys_add_neighbor _ _ _ _ _ _ _ _ Hs (word_id_range _ _ _ Hid0) _ H1).
      intros ->. by apply P5. }
    rewrite (proj2 (Z.eqb_neq c 6)) in H by done.
    rewrite (proj2 (Z.eqb_neq c 7)), (proj2 (Z.eqb_neq c 14)), (proj2 (Z.eqb_neq c 15)) in H by tauto.
    destruct (c =? 4); [|injection H as _ <-; done].
    apply res_bind_ok in H as (s1 & H1 & [= _ <-]). apply send_pending_same in H1.
    split; [|exact (same_preds _ _ H1)]. eapply sys_same; [exact H1|]. by apply (sys_same s).
Qed.

Lemma reach_told s D R :
  program_ok PROGRAM → reach s D R → sys_told s D R ∧ preds_named (preds s).
Proof.
  intros Hok. induction 1 as [db m threads now s H|i x s s' D R _ [IH Hn] Hp H|s s' D R _ [IH Hn] H
    |id now ls s s' D R _ [IH Hn] H|src w s s' D R _ [IH Hn] Hu H|now src w d s s' D R _ [IH Hn] Hu H
    |id r g b s s' D R _ [IH Hn] H|i m s D R _ [IH Hn]].
  - apply sim_init_ok in H as (H1 & H2 & H3 & H4 & H5). split; [|done].
    split; [done|by apply named_preds_apart| |by intros id n; rewrite H3, lookup_empty|done].
    intros id. rewrite H3, H4, H5, !lookup_empty. done.
  - destruct i as [now now'|bs]; cbn [master_round] in H.
    + destruct (sys_again _ _ _ _ _ _ H (λ s1, sys_idle now now' s s1 D R IH)) as [? ->]. done.
    + unfold read_message in H. apply asserting_ok in H as [_ H]. apply res_bind_ok in H as (size & _ & H).
      destruct (_ <? _); [done|]. apply asserting_ok in H as [_ H].
      destruct (sys_message bs x s s' D R Hok Hn IH Hp H) as [? ->]. done.
  - destruct (sys_answer _ _ _ _ IH H) as [? ->]. done.
  - destruct (sys_gather _ _ _ _ _ _ _ IH H) as [? ->]. done.
  - destruct (sys_new_work _ _ _ _ _ _ IH Hu H) as [? ->]. done.
  - destruct (sys_new_work_delay _ _ _ _ _ _ _ _ IH Hu H) as [? ->]. done.
  - assert (Hsame : same_nodes s s').
    { unfold set_color, schedule_new_message in H. destruct (thread_mode (flags s)); [by injection H as <-|].
      by apply write_socket_same in H. }
    rewrite (same_preds _ _ Hsame). split; [by apply (sys_same s)|done].
  - split; [by apply (sys_same s)|done].
Qed.

(** C22: In a run whose messages are [polite], the facts that a node took or that wait for
    it agree with its faces: its count is the number of occupied ones; the counts of every
    fact about a neighbour or their number add up to one if it holds of an instantiated
    node, and to none otherwise.  Only for vacant faces facts are missing, one for each
    removal.  Neighbours at a face of the six can always be added, and removed where there
    is one.  Polite: the mode is chosen before there are nodes, new nodes have new ids
    below 2^32, a neighbour that is added is not NO_NEIGHBOR, none is removed from a node
    that is not instantiated, and the tuples that arrive, like the work that the engine
    makes, are of other predicates.  A removal before that breaks it
    ([removal_before_instantiation]). *)
Theorem sim_facts s D R id n :
  program_ok PROGRAM → reach s D R → sim_of id s = Ok n →
  let facts := D id ++ node_facts n in
  neighbor_count n = occupied (faces_of n) ∧ instantiated_flag n = ready s ∧
  (∀ p face out, neighbor_pred (preds s) = Some p → valid_face face → small out → out ≠ NO_NEIGHBOR →
     fact_sum p [out; face] facts = if ready s && (face_of face n =? out) then 1 else 0) ∧
  (∀ p c, neighbor_count_pred (preds s) = Some p → small c →
     fact_sum p [c] facts = if ready s && (neighbor_count n =? c) then 1 else 0) ∧
  (∀ p face, vacant_pred (preds s) = Some p → valid_face face →
     fact_sum p [face] facts =
       (if ready s && (face_of face n =? NO_NEIGHBOR) then 1 else 0) - R id face) ∧
  (∀ ts face out, valid_face face → out ≠ NO_NEIGHBOR →
     is_ok (handle_add_neighbor upper ts id out face s) = true ∧
     is_ok (handle_remove_neighbor upper ts id face s) = negb (face_of face n =? NO_NEIGHBOR)).
Proof.
  intros Hok Hr Hn facts. destruct (reach_told s D R Hok Hr) as [Hs _].
  destruct (sys_node _ _ _ _ _ Hs Hn) as [[_ _ T2 T3 T4 T5] Hi].
  cbn [view_of view_faces view_instantiated view_count] in *. rewrite Hi in T3, T4, T5.
  split_and!; try done. intros ts face out Hf Ho. split.
  - by destruct (handle_add_neighbor_lands upper ts id out face s n (sys_fields _ _ _ Hs) Hn Hf Ho) as (? & -> & _).
  - destruct (Z.eqb_spec (face_of face n) NO_NEIGHBOR) as [E|E].
    + by rewrite (handle_remove_vacant upper ts id face s n Hn E).
    + by destruct (handle_remove_neighbor_lands upper ts id face s n (sys_fields _ _ _ Hs) Hn Hf E) as (? & -> & _).
Qed.
End Handlers.

(** ** A run

    Two nodes; the first gets the second as its neighbour to the north and at the top,
    and the one to the north is removed. *)

Definition sim_source : source :=
  mk_source 9 [] [] [] 0 [] [] [] [0x00] [] []
    [(mk_predicate [] 0 "_init" 0 [] [] [] 0 None false true false false false, [0x00]);
     (mk_predicate [] 1 "neighbor" 0 [FIELD_NODE; FIELD_INT] [] [] 0 None false true false false false, [0x00]);
     (mk_predicate [] 2 "neighborCount" 0 [FIELD_INT] [] [] 0 None false true false false false, [0x00]);
     (mk_predicate [] 3 "vacant" 0 [FIELD_INT] [] [] 0 None false true false false false, [0x00])]
    (mk_priority_info (Some FIELD_FLOAT) (Some PRIORITY_DESC) 0 false).

Definition sim_program : program :=
  match load "a.m" no_functions (write sim_source) with
  | Ok p => p
  | Err _ => sample_program
  end.

Lemma sim_program_ok : program_ok sim_program.
Proof. apply (load_program_ok "a.m" no_functions (write sim_source)). vm_compute. reflexivity. Qed.

Definition empty_database : database := mk_database ∅ ∅ 0 0 0 0.
Definition empty_memory : memory := mk_memory ∅ ∅ ∅ ∅.

(** a message of words *)
Definition msg (ws : list Z) : input := Message (message_bytes (8 * Z.of_nat (length ws) :: ws)).

Definition round_of (i : input) (s : sim_sched) : res (next_round * sim_sched) :=
  master_round sim_program (new_node 4 []) (λ _, HEAP_INT_ASC) 0 i s.

Definition after (i : input) (s : sim_sched) : sim_sched :=
  match round_of i s with Ok (_, s') => s' | Err _ => s end.

Definition connected : sim_sched :=
  match sim_init sim_program 1 0 (new_sim_sched empty_database empty_memory) with
  | Ok s => s
  | Err _ => new_sim_sched empty_database empty_memory
  end.

Definition create_two : input := msg [1; 10; 0; 2; 0].
Definition north_of (id out : Z) : input := msg [5; 20; id; out; NORTH].
Definition top_of (id out : Z) : input := msg [5; 30; id; out; TOP].
Definition remove_north (id : Z) : input := msg [6; 40; id; NORTH].

Definition sim_run (is_ : list input) (s : sim_sched) : sim_sched := fold_left (λ s i, after i s) is_ s.

Abbreviation sim_reach := (reach sim_program (new_node 4 []) (λ _, HEAP_INT_ASC) 0 elements).

Lemma after_reach i s D R :
  sim_reach s D R → polite sim_program i s → is_ok (round_of i s) = true →
  sim_reach (after i s) D (count_removal i R).
Proof.
  intros Hr Hp Ho. unfold after. destruct (round_of i s) as [[x s']|] eqn:E; [|done].
  by apply (reach_round _ _ _ _ _ i x s s' D R).
Qed.

Lemma connected_reach : sim_reach connected (λ _, []) (λ _ _, 0).
Proof. apply (reach_start _ _ _ _ _ empty_database empty_memory 1 0). vm_compute. reflexivity. Qed.

(** the messages of the run *)
Definition neighbors_run : list input := [create_two; north_of 0 1; top_of 0 1; remove_north 0].

(** a check of [polite] for the messages of a run *)
Definition politeb (i : input) (s : sim_sched) : bool :=
  match i with
  | Idle _ _ => true
  | Message bs =>
      match word bs 1 with
      | Err _ => true
      | Ok c =>
          if c =? 9 then bool_decide (size (sim_nodes s) = 0%nat)
          else if c =? 1 then
            match word bs 4, word_id bs 5 with
            | Ok n, Ok start =>
                (start + n <=? 2 ^ 32) &&
                forallb (λ j, match sim_nodes s !! j with None => true | _ => false end) (seqZ start n)
            | _, _ => true
            end
          else if c =? 13 then false
          else if c =? 5 then
            match word_id bs 4 with Ok out => negb (out =? NO_NEIGHBOR) | Err _ => true end
          else if c =? 6 then
            match word_id bs 3 with
            | Ok id => match sim_of id s with Ok n => instantiated_flag n | Err _ => true end
            | Err _ => true
            end
          else true
      end
  end.

Lemma politeb_ok i s : politeb i s = true → polite sim_program i s.
Proof.
  destruct i as [|bs]; cbn [politeb polite]; [done|]. destruct (word bs 1) as [c|]; [|intros _; split_and!; intros [=]].
  intros H. split_and!; intros [= ->]; cbn [Z.eqb Pos.eqb] in H.
  - apply bool_decide_eq_true in H. by apply map_size_empty_inv.
  - intros n start E4 E5. rewrite E4, E5 in H. apply andb_true_iff in H as [H1 H2]. split; [by apply Z.leb_le|].
    intros j Hj. rewrite forallb_forall in H2. specialize (H2 j).
    rewrite <-list_elem_of_In, elem_of_seqZ in H2. specialize (H2 Hj). by destruct (sim_nodes s !! j).
  - done.
  - intros E. rewrite E in H. by rewrite Z.eqb_refl in H.
  - intros id n E1 E2. by rewrite E1, E2 in H.
Qed.

(** the removals after a run *)
Definition run_removals (is_ : list input) : Z → face_t → Z :=
  fold_left (λ R i, count_removal i R) is_ (λ _ _, 0).

Fixpoint run_polite (is_ : list input) (s : sim_sched) : bool :=
  match is_ with
  | [] => true
  | i :: is_ => politeb i s && is_ok (round_of i s) && run_polite is_ (after i s)
  end.

Lemma run_reach is_ : ∀ s D R,
  sim_reach s D R → run_polite is_ s = true →
  sim_reach (sim_run is_ s) D (fold_left (λ R i, count_removal i R) is_ R).
Proof.
  unfold sim_run. induction is_ as [|i is_ IH]; intros s D R Hr H; [done|]. cbn [run_polite] in H.
  apply andb_true_iff in H as [H H3]. apply andb_true_iff in H as [H1 H2]. cbn [fold_left].
  apply IH; [|done]. apply after_reach; [done|by apply politeb_ok|done].
Qed.

(** node 0 of the run *)
Definition node_0 (is_ : list input) : sim_node :=
  match sim_of 0 (sim_run is_ connected) with Ok n => n | Err _ => new_sim_node HEAP_INT_ASC end.

Lemma sim_facts_witness :
  let s := sim_run neighbors_run connected in
  let n := node_0 neighbors_run in
  (neighbor_count n = 1 ∧ faces_of n = [NO_NEIGHBOR; NO_NEIGHBOR; NO_NEIGHBOR; NO_NEIGHBOR; NO_NEIGHBOR; 1]) ∧
  neighbor_count n = occupied (faces_of n) ∧ instantiated_flag n = ready s ∧
  (∀ p face out, neighbor_pred (preds s) = Some p → valid_face face → small out → out ≠ NO_NEIGHBOR →
     fact_sum p [out; face] ([] ++ node_facts n) = if ready s && (face_of face n =? out) then 1 else 0).
Proof.
  intros s n. split; [split; reflexivity|].
  destruct (sim_facts sim_program (new_node 4 []) (λ _, HEAP_INT_ASC) 0 elements s (λ _, [])
    (run_removals neighbors_run) 0 n sim_program_ok) as (H1 & H2 & H3 & _).
  - apply run_reach; [exact connected_reach|vm_compute; reflexivity].
  - vm_compute. reflexivity.
  - split; [exact H1|split; [exact H2|exact H3]].
Defined.

Definition some_pred (q : option predicate) : predicate := default sample_pred q.

(** After the removal the node to the north is gone, but nothing says that the face is
    vacant again; when a neighbour comes back, a fact is retracted that is not there. *)
Theorem vacant_is_not_told :
  let s := sim_run neighbors_run connected in
  let vacant := some_pred (vacant_pred (preds s)) in
  face_of NORTH (node_0 neighbors_run) = NO_NEIGHBOR ∧
  fact_sum vacant [NORTH] (node_facts (node_0 neighbors_run)) = 0 ∧
  fact_sum vacant [NORTH] (node_facts (node_0 (neighbors_run ++ [north_of 0 1]))) = -1.
Proof. split_and!; vm_compute; reflexivity. Qed.

(** With threads, a neighbour that is removed before the nodes are instantiated is
    retracted although the node was never told of it. *)
Definition threads_run : list input :=
  [msg [9]; create_two; north_of 0 1; remove_north 0; Idle 1000 1000].

Theorem removal_before_instantiation :
  let s := sim_run threads_run connected in
  let neighbor := some_pred (neighbor_pred (preds s)) in
  instantiated_flag (node_0 threads_run) = true ∧
  face_of NORTH (node_0 threads_run) = NO_NEIGHBOR ∧
  fact_sum neighbor [1; NORTH] (node_facts (node_0 threads_run)) = -1.
Proof. split_and!; vm_compute; reflexivity. Qed.
