(* ===== verification/SimTuples.v ===== *)
(** The tuples of the simulator's nodes: what a node takes when it runs until a time, in
    which order, and what stops it; and that reading a packed tuple depends on its bytes
    only.  Delayed tuples wait for the latest one, and the reply to a run overflows. *)

From Stdlib Require Import ZArith Lia Bool Permutation Sorting.Sorted.
From stdpp Require Import base tactics list numbers option gmap.
From S2P Require Import Prelude Words Types RuntimeList Tuple SimpleTuple Heap Pqueues Node Loader Sim SimFacts SimRun.

#[local] Open Scope Z_scope.

(** ** Reading depends on the bytes between the positions only *)

Definition window (buf buf' : list byte) (a b : Z) : Prop :=
  ∀ i, (Z.to_nat a <= i < Z.to_nat b)%nat → buf !! i = buf' !! i.

Lemma window_sub buf buf' a b c d : window buf buf' a d → a <= b → c <= d → window buf buf' b c.
Proof. intros H ?? i Hi. apply H. lia. Qed.

(** [rd] goes forward, and reads the same from every buffer with these bytes *)
Definition reads {A} (rd : list byte → res (A * Z)) (buf : list byte) (pos : Z) : Prop :=
  ∀ a pos', rd buf = Ok (a, pos') →
    0 <= pos <= pos' ∧ ∀ buf', window buf buf' pos pos' → rd buf' = Ok (a, pos').

Lemma words_unpack_reads n buf size pos :
  addressable buf → (0 < n)%nat → reads (λ b, Words.unpack n b size pos 1) buf pos.
Proof.
  intros Hb Hn vs pos' H. destruct (unpack_addressable _ _ _ _ _ _ _ Hb H) as [Hp ->].
  split; [lia|]. intros buf' Hw. rewrite <-H. unfold Words.unpack. unfold Words.unpack in H.
  apply asserting_ok in H as [_ H]. destruct (pos <? 0); [done|]. apply res_bind_ok in H as (bs & Hm & _).
  f_equal. f_equal. unfold memcpy_from in *. case_decide as Hd; [|done].
  assert (Hd' : (Z.to_nat pos + n * 1 ≤ length buf')%nat).
  { destruct (buf' !! (Z.to_nat pos + n * 1 - 1)%nat) as [x|] eqn:E.
    - apply lookup_lt_Some in E. lia.
    - rewrite <-(Hw (Z.to_nat pos + n * 1 - 1)%nat) in E by lia. apply lookup_ge_None in E. lia. }
  rewrite decide_True by done. f_equal. apply list_eq. intros i. destruct (decide (i < n * 1)%nat).
  - rewrite !lookup_take_lt, !lookup_drop by done. symmetry. apply Hw. lia.
  - by rewrite !lookup_take_ge by lia.
Qed.

Lemma window_reads_ret {A} (a : A) buf pos : 0 <= pos → reads (λ _, Ok (a, pos)) buf pos.
Proof. intros Hp x pos' [= -> <-]. split; [lia|done]. Qed.

Lemma reads_err {A} f buf pos : reads (A := A) (λ _, Err f) buf pos.
Proof. intros x pos' [=]. Qed.

Lemma window_reads_bind {A B} (rd : list byte → res (A * Z)) (k : A * Z → list byte → res (B * Z)) buf pos :
  reads rd buf pos → (∀ a p, 0 <= p → reads (k (a, p)) buf p) →
  reads (λ b, res_bind (rd b) (λ r, k r b)) buf pos.
Proof.
  intros Hr Hk b pos' H. apply res_bind_ok in H as ([a p] & H1 & H2).
  destruct (Hr a p H1) as [Hle Hw]. destruct (Hk a p ltac:(lia) b pos' H2) as [Hle' Hw'].
  split; [lia|]. intros buf' Hwin. rewrite (Hw buf'); [|apply (window_sub _ _ pos pos p pos'); [done|lia..]].
  cbn [res_bind]. apply Hw'. apply (window_sub _ _ pos p pos' pos'); [done|lia..].
Qed.

(** what does not read *)
Lemma reads_pure {A B} (m : res A) (k : A → list byte → res (B * Z)) buf pos :
  (∀ a, m = Ok a → reads (k a) buf pos) → reads (λ b, res_bind m (λ a, k a b)) buf pos.
Proof. intros Hk. destruct m as [a|f]; [by apply Hk|apply reads_err]. Qed.

(** the next step of a reader *)
Ltac reads_step :=
  match goal with
  | |- reads (λ b, res_bind (@?rd b) (@?k b)) ?buf ?pos =>
      first [ apply (reads_pure (rd buf) (λ a b, k b a)) | apply (window_reads_bind rd (λ a b, k b a)) ]
  end; cbv beta.

Lemma unpack_scalar_reads n buf size pos :
  addressable buf → (0 < n)%nat → reads (λ b, unpack_scalar n b size pos) buf pos.
Proof.
  intros Hb Hn. unfold unpack_scalar. reads_step; [by apply words_unpack_reads|].
  intros vs p Hp. reads_step. intros v _. by apply window_reads_ret.
Qed.

Lemma unpack_heads_reads n len buf size : addressable buf → (0 < n)%nat → ∀ st init prev pos,
  0 <= pos → reads (λ b, RuntimeList.unpack_heads n len st init prev b size pos) buf pos.
Proof.
  intros Hb Hn. induction len as [|len IH]; intros st init prev pos Hp; cbn [RuntimeList.unpack_heads].
  { by apply window_reads_ret. }
  reads_step; [by apply words_unpack_reads|]. intros heads p Hp1.
  reads_step. intros h _. reads_step. intros [st1 q] _.
  destruct (is_null prev); [by apply IH|]. reads_step. intros st2 _. by apply IH.
Qed.

Lemma unpack_list_reads n st buf size pos :
  addressable buf → (0 < n)%nat → reads (λ b, RuntimeList.unpack n st b size pos) buf pos.
Proof.
  intros Hb Hn. unfold RuntimeList.unpack. reads_step; [apply words_unpack_reads; [done|lia]|].
  intros lens p Hp. reads_step. intros len _. by apply unpack_heads_reads.
Qed.

Lemma load_list_reads k m t i buf size pos :
  addressable buf → reads (λ b, load_list k m t i b size pos) buf pos.
Proof.
  intros Hb. unfold load_list. reads_step; [apply unpack_list_reads; [done|destruct k; cbn; lia]|].
  intros [st q] p Hp. reads_step. intros r _. by apply window_reads_ret.
Qed.

Lemma load_field_reads type m t i buf size pos :
  addressable buf → reads (λ b, load_field type m t i b size pos) buf pos.
Proof.
  intros Hb. destruct type; cbn [load_field]; try apply reads_err; try by apply load_list_reads.
  all: reads_step; [apply unpack_scalar_reads; [done|lia]|]; intros v p Hp;
    reads_step; intros t' _; by apply window_reads_ret.
Qed.

Lemma load_fields_reads types buf size : addressable buf → ∀ m t i pos,
  0 <= pos → reads (λ b, load_fields types m t i b size pos) buf pos.
Proof.
  intros Hb. induction types as [|type types IH]; intros m t i pos Hp; cbn [load_fields].
  { by apply window_reads_ret. }
  reads_step; [by apply load_field_reads|]. intros [m1 t1] p Hp1. by apply IH.
Qed.

Lemma unpack_tuple_reads gp m buf size pos :
  addressable buf → reads (λ b, Tuple.unpack gp m b size pos) buf pos.
Proof.
  intros Hb. unfold Tuple.unpack. reads_step; [apply unpack_scalar_reads; [done|lia]|].
  intros id p Hp. reads_step. intros q _. unfold load. by apply load_fields_reads.
Qed.

Lemma unpack_simple_reads gp m buf size pos :
  addressable buf → reads (λ b, SimpleTuple.unpack gp m b size pos) buf pos.
Proof.
  intros Hb. unfold SimpleTuple.unpack. reads_step; [apply unpack_scalar_reads; [done|lia]|].
  intros c p Hp. reads_step; [by apply unpack_tuple_reads|]. intros [m1 t] p1 Hp1. by apply window_reads_ret.
Qed.

(** ** Tuples are taken in the order of time *)

(** an entry of a heap of a node, and its time *)
Abbreviation timed := (simple_tuple * heap_priority)%type.

Definition time_of (e : timed) : Z := int_priority (snd e).

Definition by_time : list timed → Prop := StronglySorted (λ a b, time_of a <= time_of b).

(** a priority is an [int] that becomes a [size_t] when it is compared with the time *)
Definition due (until : Z) (e : timed) : Prop := wrap 64 (time_of e) <= until.

(** [l] was taken from [h] and [h'] is left, whatever the order of the heap is: what was
    taken was due, and what is on top is not *)
Definition taken_due (until : Z) (h h' : list (heap_queue.heap_object (T := simple_tuple)))
    (l : list timed) : Prop :=
  heap_queue.entries h ≡ₚ l ++ heap_queue.entries h' ∧ Forall (due until) l ∧
  (h' ≠ [] → until < wrap 64 (int_priority (heap_queue.get_val h' 0))).

(** an entry whose time is negative as an [int] *)
Definition blocked (h : list (heap_queue.heap_object (T := simple_tuple))) : bool :=
  existsb (λ e, time_of e <? 0) (heap_queue.entries h).

(** [h] with the times up to [until] taken, in order; [h'] is left.  A negative time is
    on top and never due: then nothing is taken. *)
Definition taken_until (until : Z) (h h' : list (heap_queue.heap_object (T := simple_tuple)))
    (l : list timed) : Prop :=
  if blocked h then l = [] ∧ h' = h
  else heap_queue.entries h ≡ₚ l ++ heap_queue.entries h' ∧
       by_time l ∧ Forall (λ e, time_of e <= until) l ∧
       Forall (λ e, until < time_of e) (heap_queue.entries h').

Lemma heap_root_first (h : list (heap_queue.heap_object (T := simple_tuple))) :
  heap_queue.wf HEAP_INT_ASC h →
  Forall (λ e, int_priority (heap_queue.get_val h 0) <= time_of e) (heap_queue.entries h).
Proof.
  intros Hwf. eapply Forall_impl; [by apply heap_queue.entries_root_min|].
  intros e He. by apply Z.leb_le in He.
Qed.

Lemma entries_length (h : list (heap_queue.heap_object (T := simple_tuple))) :
  length (heap_queue.entries h) = length h.
Proof. apply length_map. Qed.

Lemma int_priority_range p : - 2 ^ 31 <= int_priority p < 2 ^ 31.
Proof. apply (swrap_range 32). lia. Qed.

(** whatever the heap is ordered by, the loop ends *)
Lemma take_until_due typ until : ∀ fuel h ls,
  (length h < fuel)%nat →
  ∃ h' l, take_until fuel typ until h ls = Ok (h', ls ++ l.*1) ∧ taken_due until h h' l ∧
          (heap_queue.wf typ h → heap_queue.wf typ h').
Proof.
  induction fuel as [|fuel IH]; intros h ls Hf; [lia|]. cbn [take_until].
  destruct h as [|o h]; cbn [heap_queue.empty heap_queue.min_value res_bind].
  { exists [], []. rewrite app_nil_r. split; [done|]. split; [|done]. split_and!; [done|constructor|done]. }
  destruct (until <? _) eqn:E; bool_to_prop.
  { exists (o :: h), []. rewrite app_nil_r. split; [done|]. split; [|done].
    split_and!; [done|constructor|by intros _]. }
  destruct (heap_queue.pop_total typ (o :: h)) as (el & h1 & Hpop); [done|].
  pose proof (heap_queue.pop_entries _ _ _ _ Hpop) as Hp.
  rewrite Hpop. cbn [res_bind fst snd].
  assert (Hlen : length h1 = length h).
  { apply Permutation_length in Hp. cbn [length] in Hp. rewrite !entries_length in Hp. cbn in Hp. lia. }
  destruct (IH h1 (ls ++ [el])) as (h' & l & -> & (Hp' & Hle & Hgt) & Hwf'); [cbn in Hf; lia|].
  exists h', ((el, heap_queue.val o) :: l). split; [by rewrite <-app_assoc|]. split; [split_and!|].
  - cbn [heap_queue.get_val lookup list_lookup] in Hp. by rewrite Hp, Hp'.
  - by constructor.
  - done.
  - intros Hwf. apply Hwf'. by eapply heap_queue.pop_ok.
Qed.

Lemma blocked_false h :
  blocked h = false → Forall (λ e, 0 <= time_of e) (heap_queue.entries h).
Proof.
  unfold blocked. intros H. apply Forall_forall. intros e He. apply Z.nlt_ge. intros Hn.
  assert (existsb (λ e, time_of e <? 0) (heap_queue.entries h) = true); [|congruence].
  apply existsb_exists. exists e. split; [by apply list_elem_of_In|by apply Z.ltb_lt].
Qed.

(** a heap by time without negative times *)
Lemma take_until_in_order until : 0 <= until → ∀ fuel h ls,
  (length h < fuel)%nat → heap_queue.wf HEAP_INT_ASC h →
  Forall (λ e, 0 <= time_of e) (heap_queue.entries h) →
  ∃ h' l, take_until fuel HEAP_INT_ASC until h ls = Ok (h', ls ++ l.*1) ∧
    heap_queue.entries h ≡ₚ l ++ heap_queue.entries h' ∧
    by_time l ∧ Forall (λ e, time_of e <= until) l ∧
    Forall (λ e, until < time_of e) (heap_queue.entries h').
Proof.
  intros Hu. induction fuel as [|fuel IH]; intros h ls Hf Hwf Hpos; [lia|]. cbn [take_until].
  destruct h as [|o h]; cbn [heap_queue.empty heap_queue.min_value res_bind].
  { exists [], []. rewrite app_nil_r. split; [done|]. split_and!; try done; constructor. }
  pose proof (heap_root_first _ Hwf) as Hmin. cbn [heap_queue.get_val lookup list_lookup] in Hmin.
  assert (H0 : 0 <= int_priority (heap_queue.val o)) by (by apply Forall_cons in Hpos as [? _]).
  pose proof (int_priority_range (heap_queue.val o)) as Hr.
  rewrite wrap_id by lia. destruct (until <? int_priority (heap_queue.val o)) eqn:E; bool_to_prop.
  { exists (o :: h), []. rewrite app_nil_r. split; [done|]. split_and!; try done; [constructor..|].
    eapply Forall_impl; [exact Hmin|]. cbv beta. intros. lia. }
  destruct (heap_queue.pop_total HEAP_INT_ASC (o :: h)) as (el & h1 & Hpop); [done|].
  destruct (heap_queue.pop_ok _ _ _ _ Hwf Hpop) as [Hwf1 Hp].
  cbn [heap_queue.get_val lookup list_lookup] in Hp. rewrite Hpop. cbn [res_bind fst snd].
  assert (Hlen : length h1 = length h).
  { apply Permutation_length in Hp. cbn [length] in Hp. rewrite !entries_length in Hp. cbn in Hp. lia. }
  rewrite Hp in Hmin, Hpos. apply Forall_cons in Hmin as [_ Hmin]. apply Forall_cons in Hpos as [_ Hpos].
  destruct (IH h1 (ls ++ [el])) as (h' & l & -> & Hp' & Hs & Hle & Hgt); [cbn in Hf; lia|done..|].
  exists h', ((el, heap_queue.val o) :: l). split; [by rewrite <-app_assoc|]. split_and!; try done.
  - by rewrite Hp, Hp'.
  - constructor; [done|]. rewrite Hp' in Hmin. by apply Forall_app in Hmin as [? _].
  - by constructor.
Qed.

(** a negative time is on top, and not due *)
Lemma blocked_root until h :
  until < 2 ^ 63 → heap_queue.wf HEAP_INT_ASC h → blocked h = true →
  h ≠ [] ∧ until < wrap 64 (int_priority (heap_queue.get_val h 0)).
Proof.
  intros Hu Hwf (e & He%list_elem_of_In & Hneg%Z.ltb_lt)%existsb_exists.
  split; [intros ->; by apply elem_of_nil in He|].
  pose proof (heap_root_first _ Hwf) as Hmin. rewrite Forall_forall in Hmin. specialize (Hmin e He).
  pose proof (int_priority_range (heap_queue.get_val h 0)) as Hr. unfold wrap.
  rewrite <-(Z_mod_plus_full _ 1), Z.mod_small; lia.
Qed.

(** what is taken in order was due *)
Lemma taken_until_due until h h' l :
  until < 2 ^ 63 → heap_queue.wf HEAP_INT_ASC h → taken_until until h h' l → taken_due until h h' l.
Proof.
  intros Hu Hwf. unfold taken_until, taken_due. destruct (blocked h) eqn:Hb.
  - intros [-> ->]. split_and!; [done|constructor|]. intros _. by apply blocked_root.
  - intros (Hp & _ & Hle & Hgt). pose proof (blocked_false _ Hb) as Hpos. rewrite Hp in Hpos.
    apply Forall_app in Hpos as [Hl Hh]. split_and!; [done| |].
    + apply Forall_forall. intros e He. rewrite Forall_forall in Hl, Hle.
      specialize (Hl e He). specialize (Hle e He). unfold due.
      pose proof (int_priority_range (snd e)). unfold time_of in *. rewrite wrap_id; lia.
    + intros Hne. destruct h' as [|o h']; [done|]. apply Forall_cons in Hgt as [Hgt _].
      apply Forall_cons in Hh as [Hh _]. cbn [heap_queue.get_val lookup list_lookup] in *.
      pose proof (int_priority_range (heap_queue.val o)). unfold time_of in *. cbn [snd] in *.
      rewrite wrap_id; lia.
Qed.

Lemma take_until_ok until h ls :
  0 <= until < 2 ^ 63 → heap_queue.wf HEAP_INT_ASC h →
  ∃ h' l, take_until (S (length h)) HEAP_INT_ASC until h ls = Ok (h', ls ++ l.*1) ∧
          taken_until until h h' l.
Proof.
  intros Hu Hwf. unfold taken_until. destruct (blocked h) eqn:Hb.
  - exists h, []. rewrite app_nil_r. split; [|done].
    destruct (blocked_root until h ltac:(lia) Hwf Hb) as [Hne Hroot]. destruct h as [|o h]; [done|].
    cbn [length take_until heap_queue.empty heap_queue.min_value res_bind].
    cbn [heap_queue.get_val lookup list_lookup] in Hroot. by rewrite (proj2 (Z.ltb_lt _ _)).
  - apply take_until_in_order; [lia|lia|done|by apply blocked_false].
Qed.

(** The heaps of a node: made with whatever the constructor leaves in the type of the
    heap of retractions, then tuples came with any priorities and runs took some. *)
Inductive fed (rt : heap_type) : sim_node → Prop :=
  | fed_new : fed rt (new_sim_node rt)
  | fed_insert stpl prio n : fed rt n → fed rt (insert_by_count stpl prio n)
  | fed_run until n ls n' ls' :
      fed rt n → get_tuples_until_timestamp until n ls = Ok (n', ls') → fed rt n'.

Lemma wf_new typ : heap_queue.wf (T := simple_tuple) typ [].
Proof. split; intros k Hk; cbn in Hk; lia. Qed.

Lemma fed_facts rt n :
  fed rt n →
  rtype n = rt ∧ heap_queue.wf HEAP_INT_ASC (tuple_pqueue n) ∧
  (rt = HEAP_INT_ASC → heap_queue.wf HEAP_INT_ASC (rtuple_pqueue n)).
Proof.
  induction 1 as [|stpl prio n Hn (Ht & Hq & Hr)|until n ls n' ls' Hn (Ht & Hq & Hr) Hg].
  - split_and!; [done|apply wf_new|]. intros _. apply wf_new.
  - unfold insert_by_count. destruct (0 <? get_count stpl);
      cbn [set_pqueues tuple_pqueue rtuple_pqueue rtype]; rewrite ?Ht; split_and!; try done.
    + by apply heap_queue.wf_insert.
    + intros ->. apply heap_queue.wf_insert; [by apply Hr|done].
  - unfold get_tuples_until_timestamp in Hg. rewrite Ht in Hg.
    destruct (take_until_due HEAP_INT_ASC until (S (length (tuple_pqueue n))) (tuple_pqueue n) ls)
      as (q & l & E & _ & Hq'); [lia|]. rewrite E in Hg. cbn [res_bind] in Hg.
    destruct (take_until_due rt until (S (length (rtuple_pqueue n))) (rtuple_pqueue n) (ls ++ l.*1))
      as (r & l' & E' & _ & Hr'); [lia|]. rewrite E' in Hg. cbn [res_bind] in Hg. injection Hg as <- _.
    cbn [set_pqueues tuple_pqueue rtuple_pqueue rtype]. split_and!; [done|by apply Hq'|].
    intros ->. apply Hr'. by apply Hr.
Qed.

Lemma int_priority_prio upper ts : 0 <= ts < 2 ^ 31 → int_priority (int_prio upper ts) = ts.
Proof.
  intros H. unfold int_priority, int_prio. replace (wrap 32 (Z.shiftl upper 32 + wrap 32 ts)) with ts.
  - apply swrap_id; lia.
  - rewrite (wrap_id 32 ts) by lia. unfold wrap. rewrite Z.shiftl_mul_pow2 by lia.
    rewrite Z.add_comm, Z_mod_plus_full, Z.mod_small; lia.
Qed.

(** C24: what a node of the simulator gives when it runs until a time.  For a node that
    got any tuples with any times in any order, and ran before or not:
    [get_tuples_until_timestamp] returns.  Of the facts it gives exactly those with times
    up to then in the order of their times, unless one of them has a time that is negative
    as an [int] (2^31 and later): then it gives none.  Of the retractions, whose heap is
    ordered by whatever the constructor left in its type, it gives some that are due and
    stops at one that is not; they are those up to then in the order of their times too
    when that type is the one the facts have.  What is not given stays. *)
Theorem until_takes rt until n ls :
  0 <= until < 2 ^ 63 → fed rt n →
  ∃ q r l l', get_tuples_until_timestamp until n ls = Ok (set_pqueues q r n, ls ++ l.*1 ++ l'.*1) ∧
    taken_until until (tuple_pqueue n) q l ∧ taken_due until (rtuple_pqueue n) r l' ∧
    (rt = HEAP_INT_ASC → taken_until until (rtuple_pqueue n) r l').
Proof.
  intros Hu (Ht & Hq & Hr)%fed_facts. unfold get_tuples_until_timestamp. rewrite Ht.
  destruct (take_until_ok until (tuple_pqueue n) ls Hu Hq) as (q & l & -> & Hl). cbn [res_bind].
  assert (Hrt : rt = HEAP_INT_ASC ∨ rt ≠ HEAP_INT_ASC) by (destruct rt; by (left + right)).
  destruct Hrt as [-> |Hrt].
  - destruct (take_until_ok until (rtuple_pqueue n) (ls ++ l.*1) Hu (Hr eq_refl)) as (r & l' & -> & Hl').
    exists q, r, l, l'. cbn [res_bind]. split_and!; [by rewrite app_assoc|done| |done].
    apply taken_until_due; [lia|by apply Hr|done].
  - destruct (take_until_due rt until (S (length (rtuple_pqueue n))) (rtuple_pqueue n) (ls ++ l.*1))
      as (r & l' & -> & Hl' & _); [lia|].
    exists q, r, l, l'. cbn [res_bind]. by split_and!; [rewrite app_assoc|..].
Qed.

(** three facts and a retraction that came at these times *)
Definition sample_stpl (n : Z) (count : Z) : simple_tuple :=
  new_simple_tuple (mk_tuple sample_pred [n; 0]) count.

Definition sample_sim_node : sim_node :=
  insert_by_count (sample_stpl 4 (-1)) (int_prio 0 2)
    (insert_by_count (sample_stpl 3 1) (int_prio 0 9)
      (insert_by_count (sample_stpl 2 1) (int_prio 0 3)
        (insert_by_count (sample_stpl 1 1) (int_prio 0 5) (new_sim_node HEAP_INT_ASC)))).

Example sample_until :
  (let* r := get_tuples_until_timestamp 5 sample_sim_node [] in Ok (snd r)) =
    Ok [sample_stpl 2 1; sample_stpl 1 1; sample_stpl 4 (-1)].
Proof. reflexivity. Qed.

Lemma until_takes_witness :
  ∃ q r l l', get_tuples_until_timestamp 5 sample_sim_node [] =
      Ok (set_pqueues q r sample_sim_node, [] ++ l.*1 ++ l'.*1) ∧
    taken_until 5 (tuple_pqueue sample_sim_node) q l ∧
    taken_due 5 (rtuple_pqueue sample_sim_node) r l' ∧
    (HEAP_INT_ASC = HEAP_INT_ASC → taken_until 5 (rtuple_pqueue sample_sim_node) r l').
Proof.
  apply (until_takes HEAP_INT_ASC 5 sample_sim_node []); [lia|].
  do 4 (apply fed_insert). apply fed_new.
Defined.

(** *** A time from 2^31 on is negative as an [int]: its tuple is never due *)
Theorem late_stays until stpl ts n ls :
  rtuple_pqueue n = [] → tuple_pqueue n = [] → 0 < get_count stpl → 2 ^ 31 <= ts < 2 ^ 32 →
  0 <= until < 2 ^ 63 →
  get_tuples_until_timestamp until (insert_by_count stpl (int_prio 0 ts) n) ls =
    Ok (insert_by_count stpl (int_prio 0 ts) n, ls).
Proof.
  intros Hr Hq Hc Ht Hu. unfold insert_by_count. rewrite (proj2 (Z.ltb_lt _ _)) by done.
  unfold get_tuples_until_timestamp. cbn [set_pqueues tuple_pqueue rtuple_pqueue rtype].
  rewrite Hq, Hr. change (heap_queue.insert _ _ _ []) with [heap_queue.mk_object (int_prio 0 ts) stpl None].
  cbn [length take_until heap_queue.empty heap_queue.min_value heap_queue.val res_bind].
  assert (E : wrap 64 (int_priority (int_prio 0 ts)) = ts - 2 ^ 32 + 2 ^ 64).
  { unfold int_priority, int_prio. rewrite Z.shiftl_0_l, Z.add_0_l, (wrap_id 32 ts), (wrap_id 32 ts) by lia.
    unfold swrap, wrap. rewrite <-(Z_mod_plus_full (ts + _) (-1)), (Z.mod_small (_ + -1 * _)) by lia.
    rewrite <-(Z_mod_plus_full _ 1), Z.mod_small; lia. }
  rewrite E, (proj2 (Z.ltb_lt _ _)) by lia. reflexivity.
Qed.

(** ** Delayed work *)

Lemma general_top_max {T} (q : general_pqueue T) : ∀ x q',
  general_top q = Some (x, q') → Forall (λ y, snd y <= snd x) q.
Proof.
  induction q as [|y q IH]; intros x q' H; [done|]. cbn [general_top] in H.
  destruct (general_top q) as [[z q1]|] eqn:E.
  - specialize (IH z q1 eq_refl). destruct (Z.ltb_spec (snd y) (snd z)); injection H as <- <-.
    + constructor; [lia|done].
    + constructor; [done|]. eapply Forall_impl; [exact IH|]. cbv beta. intros. lia.
  - injection H as <- <-. constructor; [done|]. apply general_top_none in E as ->. constructor.
Qed.

(** as long as one item is not due, none is taken, whatever is overdue *)
Theorem delayed_waits now n ls w t :
  (w, t) ∈ node_delay_queue n → now <= t → add_delayed_tuples now n ls = Ok (n, ls).
Proof.
  intros Hin Ht. unfold add_delayed_tuples. cbn [take_delayed].
  destruct (general_top (node_delay_queue n)) as [[x q']|] eqn:E;
    [|by apply general_top_none in E; rewrite E in Hin; apply elem_of_nil in Hin].
  pose proof (general_top_max _ _ _ E) as Hmax. rewrite Forall_forall in Hmax.
  specialize (Hmax _ Hin). cbn [snd] in Hmax. unfold general_top_priority. rewrite E.
  destruct (node_delay_queue n) as [|y q] eqn:Eq; [by apply elem_of_nil in Hin|].
  cbn [general_empty of_option res_bind fst snd]. rewrite (proj2 (Z.ltb_ge _ _)) by lia.
  cbn [res_bind fst snd]. rewrite <-Eq. by destruct n.
Qed.

(** ** The reply after a run *)

Section Simulator.
Context (PROGRAM : program) (create_fn : Z → Z → node) (rtype_of : Z → heap_type)
  (upper : Z) (by_address : gset Z → list Z).

(** the array has room for 59 nodes *)
Theorem reply_overflows s s1 c n :
  send_all (tmp_work s) s = Ok s1 → current_node s1 = Some c → sim_of c s1 = Ok n →
  (59 < length (by_address (touched c n (tmp_work s))))%nat →
  handle_deterministic_computation by_address s = Err undefined_behaviour.
Proof.
  intros H1 Hc Hn Hl. unfold handle_deterministic_computation. rewrite H1. cbn [res_bind].
  cbn [set_tmp_work current_node]. rewrite Hc. cbn [of_option res_bind].
  change (sim_of c (set_tmp_work [] s1)) with (sim_of c s1). rewrite Hn. cbn [res_bind].
  unfold write_reply. rewrite length_app. cbn [length].
  rewrite (proj2 (Nat.leb_gt _ _)); [done|]. unfold MAXLENGTH. lia.
Qed.
End Simulator.
