(* ===== verification/Mock.v ===== *)
(** The simulator that is used for tests: [mock-simulator/simulator.cpp].  It keeps the
    topology and the times of the nodes, sends the scheduler of Sim.v its messages and
    answers those it gets.  The socket is what has been sent and the inputs of a run;
    what is printed is not there. *)

From Stdlib Require Import ZArith Lia Bool.
From stdpp Require Import base tactics list numbers option.
From S2P Require Import Prelude Words Sim.

#[local] Open Scope Z_scope.

Module Mock.

Definition CREATE_N_NODES : Z := 1.
Definition RUN_NODE : Z := 2.
Definition NODE_RUN : Z := 3.
Definition STOP : Z := 4.
Definition ADD_NEIGHBOR : Z := 5.
Definition REMOVE_NEIGHBOR : Z := 6.
Definition TAP : Z := 7.
Definition SET_COLOR : Z := 8.
Definition USE_THREADS : Z := 9.
Definition SEND_MESSAGE : Z := 12.
Definition RECEIVE_MESSAGE : Z := 13.
Definition ACCEL : Z := 14.
Definition SHAKE : Z := 15.

Definition max_length : nat := 64.

Inductive face_t : Type := BOTTOM | NORTH | EAST | WEST | SOUTH | TOP.

#[global] Instance face_t_eq_dec : EqDecision face_t.
Proof. solve_decision. Defined.

Definition face_number (side : face_t) : Z :=
  match side with BOTTOM => 0 | NORTH => 1 | EAST => 2 | WEST => 3 | SOUTH => 4 | TOP => 5 end.

(** [(face_t)face] of a word; [get_neighbors_at] asserts for any other value *)
Definition face_of_word (w : Z) : res face_t :=
  if w =? 0 then Ok BOTTOM else if w =? 1 then Ok NORTH else if w =? 2 then Ok EAST
  else if w =? 3 then Ok WEST else if w =? 4 then Ok SOUTH else if w =? 5 then Ok TOP
  else Err assert_fail.

(** the static variables; [sent] is what went to the socket *)
Record mock : Type := mk_mock {
  active_nodes : list bool;
  top_neighbors : list Z;
  bottom_neighbors : list Z;
  west_neighbors : list Z;
  east_neighbors : list Z;
  north_neighbors : list Z;
  south_neighbors : list Z;
  pqueue : list Z;
  timestamps : list Z;
  nexttimestamps : list Z;
  total_nodes : Z;
  sent : list (list byte)
}.

Definition new_mock : mock := mk_mock [] [] [] [] [] [] [] [] [] [] 0 [].

Definition set_active (l : list bool) (s : mock) : mock :=
  mk_mock l (top_neighbors s) (bottom_neighbors s) (west_neighbors s) (east_neighbors s)
    (north_neighbors s) (south_neighbors s) (pqueue s) (timestamps s) (nexttimestamps s)
    (total_nodes s) (sent s).
Definition set_pqueue (l : list Z) (s : mock) : mock :=
  mk_mock (active_nodes s) (top_neighbors s) (bottom_neighbors s) (west_neighbors s)
    (east_neighbors s) (north_neighbors s) (south_neighbors s) l (timestamps s)
    (nexttimestamps s) (total_nodes s) (sent s).
Definition set_timestamps (l : list Z) (s : mock) : mock :=
  mk_mock (active_nodes s) (top_neighbors s) (bottom_neighbors s) (west_neighbors s)
    (east_neighbors s) (north_neighbors s) (south_neighbors s) (pqueue s) l
    (nexttimestamps s) (total_nodes s) (sent s).
Definition set_next (l : list Z) (s : mock) : mock :=
  mk_mock (active_nodes s) (top_neighbors s) (bottom_neighbors s) (west_neighbors s)
    (east_neighbors s) (north_neighbors s) (south_neighbors s) (pqueue s) (timestamps s) l
    (total_nodes s) (sent s).
Definition send (bs : list byte) (s : mock) : mock :=
  mk_mock (active_nodes s) (top_neighbors s) (bottom_neighbors s) (west_neighbors s)
    (east_neighbors s) (north_neighbors s) (south_neighbors s) (pqueue s) (timestamps s)
    (nexttimestamps s) (total_nodes s) (sent s ++ [bs]).

Definition get_neighbors_at (face : face_t) (s : mock) : list Z :=
  match face with
  | BOTTOM => bottom_neighbors s
  | TOP => top_neighbors s
  | NORTH => north_neighbors s
  | SOUTH => south_neighbors s
  | EAST => east_neighbors s
  | WEST => west_neighbors s
  end.

(** what is written through the reference that it returns *)
Definition set_neighbors_at (face : face_t) (l : list Z) (s : mock) : mock :=
  let at_ f old := if decide (face = f) then l else old in
  mk_mock (active_nodes s) (at_ TOP (top_neighbors s)) (at_ BOTTOM (bottom_neighbors s))
    (at_ WEST (west_neighbors s)) (at_ EAST (east_neighbors s)) (at_ NORTH (north_neighbors s))
    (at_ SOUTH (south_neighbors s)) (pqueue s) (timestamps s) (nexttimestamps s)
    (total_nodes s) (sent s).

(** [v[i]] of a vector, read and written; an index is converted to [size_t] *)
Definition read {A} (l : list A) (i : Z) : res A :=
  if i <? 0 then Err undefined_behaviour else of_option (l !! Z.to_nat i).
Definition store {A} (l : list A) (i : Z) (x : A) : res (list A) :=
  let* _ := read l i in Ok (<[Z.to_nat i := x]> l).

(** [a + 1] of an [int] *)
Definition succ_int (a : Z) : res Z :=
  if in_signed 32 (a + 1) then Ok (a + 1) else Err undefined_behaviour.

Definition set_neighbor (in_ : Z) (side : face_t) (out : Z) (s : mock) : res mock :=
  let* l := store (get_neighbors_at side s) in_ out in Ok (set_neighbors_at side l s).

Definition get_neighbor (node : Z) (side : face_t) (s : mock) : res Z :=
  read (get_neighbors_at side s) node.

(** the loop of [get_next_node]: [it] is the position in the queue; the best is its time,
    its position and the node *)
Fixpoint best_loop (ts : list Z) (q : list Z) (it : nat) (best : option (Z * nat * Z))
    : res (option (Z * nat * Z)) :=
  match q with
  | [] => Ok best
  | node :: q =>
      let* t := read ts node in
      best_loop ts q (S it)
        (match best with
         | None => Some (t, it, node)
         | Some (b, _, _) => if t <? b then Some (t, it, node) else best
         end)
  end.

(** node 0 when there is none *)
Definition get_next_node (s : mock) : res (Z * mock) :=
  let* best := best_loop (timestamps s) (pqueue s) 0 None in
  match best with
  | None => Ok (0, s)
  | Some (_, bestpos, bestnode) => Ok (bestnode, set_pqueue (delete bestpos (pqueue s)) s)
  end.

(** [sendto] of as many bytes of the array as its first word, a number of words here, says *)
Definition write_to_socket (data : list Z) (s : mock) : res mock :=
  let* n := of_option (head data) in
  let size := wrap 64 (n * 8) in
  let bs := message_bytes (<[0%nat := size]> data) in
  if wrap 64 (size + 8) <=? Z.of_nat (length bs) then
    Ok (send (take (Z.to_nat (wrap 64 (size + 8))) bs) s)
  else Err undefined_behaviour.

(** the body of the loop over the new nodes *)
Fixpoint init_nodes (is_ : list nat) (s : mock) : mock :=
  match is_ with
  | [] => s
  | i :: is_ =>
      let off l := <[i := -1]> l in
      init_nodes is_
        (mk_mock (<[i := true]> (active_nodes s)) (off (top_neighbors s)) (off (bottom_neighbors s))
           (off (west_neighbors s)) (off (east_neighbors s)) (off (north_neighbors s))
           (off (south_neighbors s)) (pqueue s ++ [Z.of_nat i]) (<[i := 0]> (timestamps s))
           (<[i := 1]> (nexttimestamps s)) (total_nodes s) (sent s))
  end.

(** for [n >= 0] *)
Definition write_create_n_nodes (n : Z) (s : mock) : res mock :=
  let* s := write_to_socket [5; CREATE_N_NODES; 0; wrap 64 (-1); wrap 64 n; 0] s in
  asserting (Z.of_nat (length (active_nodes s)) =? total_nodes s)
    (let total := total_nodes s + n in
     if negb (in_signed 32 total) then Err undefined_behaviour
     else
       let size := Z.to_nat total in
       let resized l := resize size 0 l in
       let s :=
         mk_mock (resize size false (active_nodes s)) (resized (top_neighbors s))
           (resized (bottom_neighbors s)) (resized (west_neighbors s)) (resized (east_neighbors s))
           (resized (north_neighbors s)) (resized (south_neighbors s)) (pqueue s)
           (resized (timestamps s)) (resized (nexttimestamps s)) total (sent s) in
       let s := init_nodes (seq (Z.to_nat (total - n)) (Z.to_nat n)) s in
       asserting (Z.of_nat (length (active_nodes s)) =? total_nodes s) (Ok s)).

Definition write_run_node (node : Z) (s : mock) : res mock :=
  let* l := store (active_nodes s) node false in
  let s := set_active l s in
  let* until := read (nexttimestamps s) node in
  let* l := store (timestamps s) node until in
  write_to_socket [3; RUN_NODE; wrap 64 until; wrap 64 node] (set_timestamps l s).

Definition write_use_threads (s : mock) : res mock :=
  write_to_socket [3; USE_THREADS; 0; wrap 64 (-1)] s.

(** [ts = 0] by default *)
Definition activate_node (no ts : Z) (s : mock) : res mock :=
  let* b := read (active_nodes s) no in
  let* s := if (b : bool) then Ok s
            else
              let* l := store (active_nodes s) no true in
              Ok (set_pqueue (pqueue s ++ [no]) (set_active l s)) in
  let* next := read (nexttimestamps s) no in
  let* a := succ_int next in
  let* b := succ_int ts in
  let* t := read (timestamps s) no in
  let* l := store (nexttimestamps s) no (Z.max (Z.max a b) t) in
  Ok (set_next l s).

(** [data[1] = RECEIVE_MESSAGE] *)
Definition set_command (c : Z) (bs : list byte) : list byte :=
  take 8 bs ++ le_bytes 8 c ++ drop 16 bs.

(** the array is as long as the message: what is read behind its end is not defined *)
Definition handle_data (data : list byte) (s : mock) : res (Z * mock) :=
  let* code := word data 1 in
  if code =? NODE_RUN then
    let* ts := word data 2 in
    let* node := word data 3 in
    let* _ := word data 4 in
    let* l := store (timestamps s) node (swrap 32 ts) in
    let s := set_timestamps l s in
    let* next := read (nexttimestamps s) node in
    let* l := store (nexttimestamps s) node (Z.max (swrap 32 ts) next) in
    Ok (code, set_next l s)
  else if code =? SET_COLOR then
    let* _ := word data 7 in Ok (code, s)
  else if code =? SEND_MESSAGE then
    let* ts := word data 2 in
    let* node := word data 3 in
    let* face := word data 4 in
    let* target := if face =? wrap 64 (-1) then Ok (swrap 32 node)
                   else let* side := face_of_word face in get_neighbor (swrap 32 node) side s in
    let* s := activate_node target (swrap 32 ts) s in
    let* size := word data 0 in
    let data := set_command RECEIVE_MESSAGE data in
    if wrap 64 (size + 8) <=? Z.of_nat (length data) then
      Ok (RECEIVE_MESSAGE, send (take (Z.to_nat (wrap 64 (size + 8))) data) s)
    else Err undefined_behaviour
  else Err assert_fail.

(** the first word and then as many bytes as it says, into an array of [max_length] words *)
Definition force_read (bs : list byte) (s : mock) : res (bool * mock) :=
  asserting (8 <=? length bs)%nat
  (let* size := word bs 0 in
   if 8 * Z.of_nat max_length <? size + 8 then Err undefined_behaviour
   else asserting (Z.of_nat (length bs) =? size + 8)
     (let* r := handle_data bs s in Ok (fst r =? NODE_RUN, snd r))).

Definition write_stop (s : mock) : res mock := write_to_socket [3; STOP; 0; wrap 64 (-1)] s.

Definition write_add_neighbor (in_ out : Z) (side : face_t) (s : mock) : res mock :=
  let* s := activate_node in_ 0 s in
  let* t := read (timestamps s) in_ in
  let* s := set_neighbor in_ side out s in
  write_to_socket [5; ADD_NEIGHBOR; wrap 64 t; wrap 64 in_; wrap 64 out; face_number side] s.

Definition write_remove_neighbor (in_ : Z) (side : face_t) (s : mock) : res mock :=
  let* s := activate_node in_ 0 s in
  let* t := read (timestamps s) in_ in
  let* s := set_neighbor in_ side (-1) s in
  write_to_socket [4; REMOVE_NEIGHBOR; wrap 64 t; wrap 64 in_; face_number side] s.

Definition write_tap (node : Z) (s : mock) : res mock :=
  let* s := activate_node node 0 s in
  let* t := read (timestamps s) node in
  write_to_socket [3; TAP; wrap 64 t; wrap 64 node] s.

Definition write_accel (node f : Z) (s : mock) : res mock :=
  let* s := activate_node node 0 s in
  let* t := read (timestamps s) node in
  write_to_socket [4; ACCEL; wrap 64 t; wrap 64 node; wrap 64 f] s.

Definition write_shake (node x y z : Z) (s : mock) : res mock :=
  let* s := activate_node node 0 s in
  let* t := read (timestamps s) node in
  write_to_socket [6; SHAKE; wrap 64 t; wrap 64 node; wrap 64 x; wrap 64 y; wrap 64 z] s.

(** ** [main]

    What a read finds is an input. *)

(** the messages that wait, one after the other *)
Fixpoint read_all (l : list (list byte)) (s : mock) : res mock :=
  match l with
  | [] => Ok s
  | bs :: l => let* r := force_read bs s in read_all l (snd r)
  end.

(** what the loop that reads until a NODE_RUN takes; None: the inputs end and it goes on *)
Fixpoint read_until_run (l : list (list byte)) (s : mock) : res (option (list (list byte)) * mock) :=
  match l with
  | [] => Ok (None, s)
  | bs :: l =>
      let* r := force_read bs s in
      if fst r then Ok (Some l, snd r) else read_until_run l (snd r)
  end.

(** the neighbours that are made after the first one has been removed *)
Definition second_topology (s : mock) : res mock :=
  let* s := write_remove_neighbor 0 TOP s in
  let* s := write_add_neighbor 0 1 EAST s in
  let* s := write_add_neighbor 1 0 WEST s in
  let* s := write_add_neighbor 1 2 BOTTOM s in
  let* s := write_add_neighbor 2 1 TOP s in
  let* s := write_add_neighbor 1 4 EAST s in
  let* s := write_add_neighbor 4 1 WEST s in
  let* s := write_add_neighbor 1 3 TOP s in
  let* s := write_add_neighbor 3 1 BOTTOM s in
  let* s := write_add_neighbor 3 5 TOP s in
  write_add_neighbor 5 3 BOTTOM s.

(** before the deterministic loop *)
Definition det_start (s : mock) : res mock := write_create_n_nodes 6 s.

(** a round of the deterministic loop: the messages that wait and those that come later;
    the first result is the number [x] of events, None when the inputs end *)
Definition det_round (x : Z) (avail later : list (list byte)) (s : mock)
    : res (option (Z * list (list byte)) * mock) :=
  let* s := read_all avail s in
  match pqueue s with
  | _ :: _ =>
      let* r := get_next_node s in
      let* s := write_run_node (fst r) (snd r) in
      let* r := read_until_run later s in
      Ok (match fst r with Some l => Some (x, l) | None => None end, snd r)
  | [] =>
      match later with
      | [] => Ok (None, s)
      | bs :: l =>
          let* r := force_read bs s in
          let s := snd r in
          let* r := if x =? 0 then let* s := write_add_neighbor 0 1 TOP s in Ok (1, s)
                    else if x =? 1 then let* s := second_topology s in Ok (2, s)
                    else if x =? 5 then let* s := write_tap 1 s in Ok (x + 1, s)
                    else if (1 <? x) && (x <? 10) then Ok (x + 1, s)
                    else Ok (x, s) in
          Ok (Some (fst r, l), snd r)
      end
  end.

(** the start of the loop with threads, and a round of it with the message that waits, if
    [is_data_available] says that one does, and those before the end; true: it exits.
    [x] is an [int]. *)
Definition threads_start (s : mock) : res mock :=
  let* s := write_use_threads s in write_create_n_nodes 6 s.

Definition threads_round (x : Z) (avail : option (list byte)) (last : list (list byte)) (s : mock)
    : res (Z * bool * mock) :=
  let* s := match avail with
            | Some bs => let* r := force_read bs s in Ok (snd r)
            | None => Ok s
            end in
  let* x := succ_int x in
  let* s := if x =? 1 then
              let* s := write_accel 0 2 s in
              let* s := write_shake 0 1 2 3 s in
              write_add_neighbor 0 1 TOP s
            else Ok s in
  let* s := if x =? 2 then second_topology s else Ok s in
  let* s := if x =? 3 then write_tap 1 s else Ok s in
  if x =? 5 then
    let* s := write_stop s in
    let* s := read_all last s in
    Ok (x, true, s)
  else Ok (x, false, s).
End Mock.
