(* ===== verification/MockRun.v ===== *)
(** The scheduler of the simulator and the simulator that tests it: every message of the
    simulator's is read without an error, and leaves the scheduler with the topology that
    the simulator has. *)

From Stdlib Require Import ZArith Lia Bool String.
From stdpp Require Import base tactics list numbers option gmap.
From S2P Require Import Prelude Words Types RuntimeList Tuple SimpleTuple Heap Pqueues Node Loader LoaderFormat Sim SimFacts SimRun SimTuples Mock.

#[local] Open Scope Z_scope.

(** ** Words of a message *)

Lemma array_bytes_cons n x l : array_bytes n (x :: l) = le_bytes n x ++ array_bytes n l.
Proof. done. Qed.

Lemma array_bytes_app n l l' : array_bytes n (l ++ l') = array_bytes n l ++ array_bytes n l'.
Proof. unfold array_bytes. by rewrite map_app, concat_app. Qed.

Lemma word_message ws rest k w :
  ws !! k = Some w → word (message_bytes ws ++ rest) k = Ok (wrap 64 w).
Proof.
  intros Hk. rewrite <-(take_drop_middle ws k w Hk). unfold message_bytes.
  rewrite array_bytes_app, array_bytes_cons, <-!app_assoc. unfold word.
  assert (Hl : length (array_bytes 8 (take k ws)) = (8 * k)%nat).
  { rewrite array_bytes_length, length_take. apply lookup_lt_Some in Hk. lia. }
  replace (memcpy_from _ (8 * k) 8) with (Ok (le_bytes 8 w)).
  - cbn [res_bind]. by rewrite le_value_bytes.
  - unfold memcpy_from. rewrite decide_True.
    + rewrite drop_app_length' by done. by rewrite take_app_length' by by rewrite le_bytes_length.
    + rewrite !length_app, Hl, le_bytes_length. lia.
Qed.

Lemma word_of ws k w : ws !! k = Some w → word (message_bytes ws) k = Ok (wrap 64 w).
Proof. intros H. rewrite <-(app_nil_r (message_bytes ws)). by apply word_message. Qed.

Lemma wrap_wrap z : wrap 32 (wrap 64 z) = wrap 32 z.
Proof. unfold wrap. rewrite <-Znumtheory.Zmod_div_mod; [done|done|done|]. by exists (2 ^ 32). Qed.

Lemma word_id_of ws k w : ws !! k = Some w → word_id (message_bytes ws) k = Ok (wrap 32 w).
Proof.
  intros H. unfold word_id. rewrite (word_of _ _ _ H). cbn [res_bind].
  by rewrite wrap_wrap.
Qed.

Lemma word_int_of ws k w : ws !! k = Some w → word_int (message_bytes ws) k = Ok (swrap 32 w).
Proof.
  intros H. unfold word_int. rewrite (word_of _ _ _ H). cbn [res_bind]. f_equal.
  by rewrite <-(swrap_wrap 32 (wrap 64 w)), wrap_wrap, swrap_wrap by lia.
Qed.

(** a message of words, its length first *)
Definition message_of (ws : list Z) : list byte := message_bytes (8 * Z.of_nat (length ws) :: ws).

Lemma message_of_length ws : length (message_of ws) = (8 + 8 * length ws)%nat.
Proof. unfold message_of, message_bytes. rewrite array_bytes_length. cbn [length]. lia. Qed.

Lemma wrote_message ws m n :
  n = Z.of_nat (length ws) → n < 64 →
  Mock.write_to_socket (n :: ws) m = Ok (Mock.send (message_of ws) m).
Proof.
  intros -> Hl. unfold Mock.write_to_socket. cbn [list.head of_option res_bind].
  rewrite (wrap_id 64 (Z.of_nat (length ws) * 8)) by lia. rewrite wrap_id, Z.mul_comm by lia.
  change (<[0%nat:=8 * Z.of_nat (length ws)]> (Z.of_nat (length ws) :: ws)) with
    (8 * Z.of_nat (length ws) :: ws).
  fold (message_of ws). rewrite message_of_length.
  rewrite (proj2 (Z.leb_le _ _)) by lia. do 3 f_equal. apply take_ge. rewrite message_of_length. lia.
Qed.

(** the [switch] on the code of a message of words, and the words it reads *)
Ltac read_words :=
  unfold handle_message, message_of; erewrite (word_of _ 1) by reflexivity; cbn [res_bind];
  match goal with |- context [wrap 64 ?c =? 9] => change (wrap 64 c) with c end;
  cbn [Z.eqb Pos.eqb];
  repeat first [erewrite word_of by reflexivity | erewrite word_id_of by reflexivity
               | erewrite word_int_of by reflexivity]; cbn [res_bind].

Section Messages.
Context (PROGRAM : program) (create_fn : Z → Z → node) (rtype_of : Z → heap_type)
  (upper : Z).

Abbreviation handle := (handle_message PROGRAM create_fn rtype_of upper).
Abbreviation read := (read_message PROGRAM create_fn rtype_of upper).

Lemma read_message_of ws s : (length ws < 64)%nat → read (message_of ws) s = handle (message_of ws) s.
Proof.
  intros Hl. unfold read_message. rewrite message_of_length.
  rewrite (proj2 (Nat.leb_le _ _)) by lia. cbn [asserting].
  unfold message_of. erewrite (word_of _ 0) by reflexivity. cbn [res_bind]. rewrite wrap_id by lia.
  rewrite (proj2 (Z.ltb_ge _ _)) by (unfold MAXLENGTH; lia).
  rewrite (proj2 (Z.eqb_eq _ _)) by lia. done.
Qed.

(** the messages of the simulator and what they do *)
Lemma handle_use_threads rest s :
  handle (message_of (9 :: rest)) s =
    Ok (Again, set_flags (mk_flags true (stop_all (flags s)) (all_instantiated (flags s))
                 (start_time (flags s))) s).
Proof. by read_words. Qed.

Lemma handle_create ts x n start s :
  handle (message_of [1; ts; x; n; start]) s =
    again (handle_create_n_nodes PROGRAM create_fn rtype_of upper (wrap 64 ts) (wrap 64 n)
             (wrap 32 start) s).
Proof. by read_words. Qed.

Lemma handle_add ts id out face s :
  handle (message_of [5; ts; id; out; face]) s =
    again (handle_add_neighbor upper (wrap 64 ts) (wrap 32 id) (wrap 32 out) (swrap 32 face) s).
Proof. by read_words. Qed.

Lemma handle_remove ts id face s :
  handle (message_of [6; ts; id; face]) s =
    again (handle_remove_neighbor upper (wrap 64 ts) (wrap 32 id) (swrap 32 face) s).
Proof. by read_words. Qed.

Lemma handle_tapped ts id s :
  handle (message_of [7; ts; id]) s = again (handle_tap upper (wrap 64 ts) (wrap 32 id) s).
Proof. by read_words. Qed.

Lemma handle_accelerated ts id f s :
  handle (message_of [14; ts; id; f]) s =
    again (handle_accel upper (wrap 64 ts) (wrap 32 id) (swrap 32 f) s).
Proof. by read_words. Qed.

Lemma handle_shaken ts id x y z s :
  handle (message_of [15; ts; id; x; y; z]) s =
    again (handle_shake upper (wrap 64 ts) (wrap 32 id) (swrap 32 x) (swrap 32 y) (swrap 32 z) s).
Proof. by read_words. Qed.

Lemma handle_run ts id s :
  handle (message_of [2; ts; id]) s =
    let* r := handle_run_node (wrap 64 ts) (wrap 32 id) s in Ok (Returns (Some (fst r)), snd r).
Proof. by read_words. Qed.

Lemma handle_stop ts x s :
  handle (message_of [4; ts; x]) s =
    let* s := send_pending_messages
                (set_flags (mk_flags (thread_mode (flags s)) true (all_instantiated (flags s))
                   (start_time (flags s))) s) in Ok (Returns None, s).
Proof. by read_words. Qed.
End Messages.

(** ** The topology *)

(** what the simulator tells the scheduler after the start *)
Inductive event : Type :=
  | AddNeighbor (in_ out : Z) (side : Mock.face_t)
  | RemoveNeighbor (in_ : Z) (side : Mock.face_t)
  | Tapped (node : Z)
  | Accelerated (node f : Z)
  | Shaken (node x y z : Z)
  | RunNode (node : Z)
  | Stop.

Definition issue (e : event) : Mock.mock → res Mock.mock :=
  match e with
  | AddNeighbor in_ out side => Mock.write_add_neighbor in_ out side
  | RemoveNeighbor in_ side => Mock.write_remove_neighbor in_ side
  | Tapped node => Mock.write_tap node
  | Accelerated node f => Mock.write_accel node f
  | Shaken node x y z => Mock.write_shake node x y z
  | RunNode node => Mock.write_run_node node
  | Stop => Mock.write_stop
  end.

(** what the loop of the scheduler does after the message *)
Definition outcome (e : event) : next_round :=
  match e with
  | RunNode node => Returns (Some node)
  | Stop => Returns None
  | _ => Again
  end.

(** a message with its length in the first word *)
Definition whole (bs : list byte) : Prop := (message_length (le_value (take 8 bs)) <= length bs)%nat.

Section Topology.
(** whether the nodes have threads *)
Context (threads : bool).

(** neighbours are nodes, only neighbours are removed, and nodes without threads are run *)
Definition sensible (e : event) (m : Mock.mock) : Prop :=
  match e with
  | AddNeighbor _ out _ => 0 <= out < Mock.total_nodes m
  | RemoveNeighbor in_ side => Mock.get_neighbor in_ side m ≠ Ok (-1)
  | RunNode _ => threads = false
  | _ => True
  end.

(** the node of the scheduler has the neighbours that the simulator has for it *)
Definition same_faces (m : Mock.mock) (id : Z) (n : sim_node) : Prop :=
  ∀ side, ∃ v, Mock.get_neighbor id side m = Ok v ∧ -1 <= v < Mock.total_nodes m ∧
    face_of (Mock.face_number side) n = wrap 32 v.

Record agree (m : Mock.mock) (s : sim_sched) : Prop := {
  agree_preds : preds_ok (preds s);
  agree_total : Mock.total_nodes m < 2 ^ 31;
  agree_lengths : ∀ side, Z.of_nat (length (Mock.get_neighbors_at side m)) = Mock.total_nodes m;
  agree_active : Z.of_nat (length (Mock.active_nodes m)) = Mock.total_nodes m;
  agree_nodes : ∀ id, 0 <= id < Mock.total_nodes m → ∃ n, sim_of id s = Ok n ∧ same_faces m id n;
  agree_mode : thread_mode (flags s) = threads;
  agree_messages : Forall whole (socket_messages s)
}.

Lemma valid_number side : valid_face (Mock.face_number side).
Proof. unfold valid_face. destruct side; cbn; lia. Qed.

Lemma face_number_inj side side' : Mock.face_number side = Mock.face_number side' → side = side'.
Proof. by destruct side, side'. Qed.

Lemma no_neighbor_word v : -1 <= v < 2 ^ 31 → wrap 32 v = NO_NEIGHBOR ↔ v = -1.
Proof.
  intros H. split; [|by intros ->]. intros E. destruct (decide (v = -1)); [done|].
  rewrite wrap_id in E by lia. change NO_NEIGHBOR with (2 ^ 32 - 1) in E. lia.
Qed.

(** what does not change the topology of the simulator *)
Record same_topology (m m' : Mock.mock) : Prop := {
  same_neighbors : ∀ side, Mock.get_neighbors_at side m' = Mock.get_neighbors_at side m;
  same_total : Mock.total_nodes m' = Mock.total_nodes m;
  same_active : length (Mock.active_nodes m') = length (Mock.active_nodes m)
}.

Lemma agree_same m m' s : same_topology m m' → agree m s → agree m' s.
Proof.
  intros [E1 E2 E3] [H1 H2 H3 H4 H5 H6 H7]. split; rewrite ?E2, ?E3; try done.
  - intros side. by rewrite E1.
  - intros id Hid. destruct (H5 id Hid) as (n & Hn & Hf). exists n. split; [done|].
    intros side. unfold Mock.get_neighbor. rewrite E1, E2. apply Hf.
Qed.

Lemma read_ok {A} (l : list A) i x : Mock.read l i = Ok x ↔ 0 <= i ∧ l !! Z.to_nat i = Some x.
Proof.
  unfold Mock.read. destruct (Z.ltb_spec i 0); [split; [done|lia]|]. rewrite of_option_ok. tauto.
Qed.

Lemma store_ok {A} (l : list A) i x l' :
  Mock.store l i x = Ok l' → 0 <= i < Z.of_nat (length l) ∧ l' = <[Z.to_nat i := x]> l.
Proof.
  unfold Mock.store. intros H. apply res_bind_ok in H as (y & Hy & [= <-]).
  apply read_ok in Hy as [Hi Hy]. apply lookup_lt_Some in Hy. split; [lia|done].
Qed.

Lemma activate_same no ts m m' :
  Mock.activate_node no ts m = Ok m' →
  same_topology m m' ∧ Mock.sent m' = Mock.sent m ∧ 0 <= no < Z.of_nat (length (Mock.active_nodes m)).
Proof.
  unfold Mock.activate_node. intros H. apply res_bind_ok in H as (b & Hb & H).
  apply read_ok in Hb as [Hno Hb]. apply lookup_lt_Some in Hb.
  apply res_bind_ok in H as (m1 & H1 & H).
  assert (same_topology m m1 ∧ Mock.sent m1 = Mock.sent m) as [[E1 E2 E3] E4].
  { destruct b; [by injection H1 as <-|]. apply res_bind_ok in H1 as (l & [_ ->]%store_ok & [= <-]).
    split; [|done]. split; [by intros []|done|]. apply length_insert. }
  do 4 apply res_bind_ok in H as (? & _ & H). apply res_bind_ok in H as (l & _ & [= <-]).
  split; [|split; [done|lia]]. split; [|done|done]. intros side. rewrite <-E1. by destruct side.
Qed.

Lemma neighbors_at_set side side' l m :
  Mock.get_neighbors_at side' (Mock.set_neighbors_at side l m) =
    if decide (side' = side) then l else Mock.get_neighbors_at side' m.
Proof. by destruct side, side'. Qed.

Lemma sim_of_put_other id id' n s : id' ≠ id → sim_of id' (put_sim id n s) = sim_of id' s.
Proof. intros H. unfold sim_of. cbn. by rewrite lookup_insert_ne. Qed.

Lemma agree_put m s id n n' m' :
  agree m s → sim_of id s = Ok n → Mock.total_nodes m' = Mock.total_nodes m →
  (∀ side, length (Mock.get_neighbors_at side m') = length (Mock.get_neighbors_at side m)) →
  length (Mock.active_nodes m') = length (Mock.active_nodes m) →
  (∀ id' side, id' ≠ id → Mock.get_neighbor id' side m' = Mock.get_neighbor id' side m) →
  (same_faces m id n → same_faces m' id n') → agree m' (put_sim id n' s).
Proof.
  intros [H1 H2 H3 H4 H5 H6 H7] Hn Et El Ea Eo Hs. split; rewrite ?Et, ?Ea; try done.
  - intros side. by rewrite El.
  - intros id' Hid. destruct (H5 id' Hid) as (n1 & Hn1 & Hf1). destruct (decide (id' = id)) as [->|Hne].
    + exists n'. split; [by apply (sim_of_put _ _ n)|]. apply Hs. rewrite Hn in Hn1. by injection Hn1 as ->.
    + exists n1. rewrite sim_of_put_other by done. split; [done|]. intros side.
      destruct (Hf1 side) as (v & Hv & Hb & Hface). exists v. by rewrite Eo, Et.
Qed.

(** a node that got tuples only *)
Lemma agree_given m s id n n' l :
  agree m s → sim_of id s = Ok n → given l n n' → agree m (put_sim id n' s).
Proof.
  intros Ha Hn Hg. apply (agree_put m s id n n' m Ha Hn); try done.
  intros Hf side. destruct (Hf side) as (v & ? & ? & Hface). exists v. split; [done|split; [done|]].
  destruct (view_eq _ _ (proj1 Hg)) as (E & _ & _). unfold face_of. rewrite E. exact Hface.
Qed.

(** a face that is given to [v] on both sides *)
Lemma agree_set m m' s id n n' side v :
  agree m s → sim_of id s = Ok n → -1 <= v < Mock.total_nodes m →
  Mock.set_neighbor id side v m = Ok m' →
  faces_of n' = <[Z.to_nat (Mock.face_number side) := wrap 32 v]> (faces_of n) →
  agree m' (put_sim id n' s).
Proof.
  intros Ha Hn Hv Hm Hf. unfold Mock.set_neighbor in Hm. apply res_bind_ok in Hm as (l & Hl & [= <-]).
  apply store_ok in Hl as [Hid ->].
  assert (Hg : ∀ id' side', Mock.get_neighbor id' side'
      (Mock.set_neighbors_at side (<[Z.to_nat id := v]> (Mock.get_neighbors_at side m)) m) =
    if decide (id' = id ∧ side' = side) then Ok v else Mock.get_neighbor id' side' m).
  { intros id' side'. unfold Mock.get_neighbor. rewrite neighbors_at_set.
    destruct (decide (side' = side)) as [->|Hne]; [|by rewrite decide_False by tauto].
    unfold Mock.read. destruct (Z.ltb_spec id' 0); [by rewrite decide_False by lia|].
    destruct (decide (id' = id)) as [->|Hne].
    - by rewrite decide_True, list_lookup_insert_eq by (done || lia).
    - by rewrite decide_False, list_lookup_insert_ne by (naive_solver || lia). }
  apply (agree_put m s id n n' _ Ha Hn); try done.
  - intros side'. rewrite neighbors_at_set. destruct (decide (side' = side)) as [->|]; [|done].
    apply length_insert.
  - intros id' side' Hne. rewrite Hg. by rewrite decide_False by tauto.
  - intros Hs side'. rewrite Hg. unfold face_of. rewrite Hf.
    change (default 0 _) with (face_in (Mock.face_number side')
      (<[Z.to_nat (Mock.face_number side):=wrap 32 v]> (faces_of n))).
    rewrite face_in_insert by (done || apply valid_number).
    destruct (decide (side' = side)) as [->|Hne].
    + exists v. rewrite decide_True, Z.eqb_refl by done. done.
    + destruct (Hs side') as (w & ? & ? & ?). exists w. rewrite decide_False by tauto.
      by rewrite (proj2 (Z.eqb_neq _ _)) by (by intros E%face_number_inj).
Qed.

Lemma agree_sent m s bs : agree m s → agree (Mock.send bs m) s.
Proof. by apply agree_same. Qed.

(** ** One event *)

Section Together.
Context (PROGRAM : program) (create_fn : Z → Z → node) (rtype_of : Z → heap_type)
  (upper : Z).

Abbreviation handle := (handle_message PROGRAM create_fn rtype_of upper).
Abbreviation read := (read_message PROGRAM create_fn rtype_of upper).
Abbreviation loop := (master_loop PROGRAM create_fn rtype_of upper).


(** the scheduler has read what the simulator sent last *)
Definition followed (x : next_round) (m m' : Mock.mock) (s : sim_sched) : Prop :=
  ∃ bs s', Mock.sent m' = Mock.sent m ++ [bs] ∧ read bs s = Ok (x, s') ∧ agree m' s'.

Lemma followed_by n ws x m m1 m' s s' :
  Mock.write_to_socket (n :: ws) m1 = Ok m' → n = Z.of_nat (length ws) → n < 64 →
  Mock.sent m1 = Mock.sent m → handle (message_of ws) s = Ok (x, s') → agree m1 s' →
  followed x m m' s.
Proof.
  intros Hw Hn Hl Hs Hh Ha. rewrite wrote_message in Hw by done. injection Hw as <-.
  exists (message_of ws), s'. split_and!.
  - cbn. by rewrite Hs.
  - rewrite read_message_of by lia. done.
  - by apply agree_sent.
Qed.

Lemma activated id ts m m1 s :
  agree m s → Mock.activate_node id ts m = Ok m1 →
  agree m1 s ∧ same_topology m m1 ∧ Mock.sent m1 = Mock.sent m ∧ 0 <= id < Mock.total_nodes m1.
Proof.
  intros Ha H. apply activate_same in H as (Ht & Es & Hin). rewrite (agree_active _ _ Ha) in Hin.
  rewrite <-(same_total _ _ Ht) in Hin. split_and!; try done; [by apply (agree_same m)|lia|lia].
Qed.

(** the facts of taps and the like *)
Lemma fact_followed id q ts build m s vals :
  agree m s → 0 <= id < Mock.total_nodes m →
  (∀ p, q = Some p → build (new_tuple p) = Ok (mk_tuple p vals)) →
  ∃ s', (let* _ := sim_of id s in with_fact upper q 1 id ts build s) = Ok s' ∧ agree m s'.
Proof.
  intros Ha Hid Hb. destruct (agree_nodes _ _ Ha id Hid) as (n & Hn & _). rewrite Hn. cbn [res_bind].
  destruct (with_fact_lands upper q 1 id ts build vals s n Hn Hb) as (n' & -> & Hg).
  eexists. split; [done|]. by eapply agree_given.
Qed.

Lemma small_node m s id : agree m s → 0 <= id < Mock.total_nodes m → wrap 32 (wrap 64 id) = id.
Proof. intros Ha Hid. pose proof (agree_total _ _ Ha). rewrite (wrap_id 64), wrap_id by lia. done. Qed.

Lemma face_word side : swrap 32 (Mock.face_number side) = Mock.face_number side.
Proof. by destruct side. Qed.

Lemma became_faces v l n n' : became v l n n' → faces_of n' = view_faces v.
Proof. by intros [<- _]. Qed.

Lemma add_followed m m' s in_ out side :
  agree m s → 0 <= out < Mock.total_nodes m → Mock.write_add_neighbor in_ out side m = Ok m' →
  followed Again m m' s.
Proof.
  intros Ha Hout H. unfold Mock.write_add_neighbor in H. apply res_bind_ok in H as (m1 & H1 & H).
  destruct (activated _ _ _ _ _ Ha H1) as (Ha1 & Ht & Es & Hin). clear Ha. rename Ha1 into Ha.
  rewrite <-(same_total _ _ Ht) in Hout.
  apply res_bind_ok in H as (t & _ & H). apply res_bind_ok in H as (m2 & H2 & H).
  destruct (agree_nodes _ _ Ha in_ Hin) as (n & Hn & Hf).
  pose proof (agree_total _ _ Ha) as Htot.
  destruct (handle_add_neighbor_lands upper (wrap 64 (wrap 64 t)) in_ out (Mock.face_number side) s n
    (agree_preds _ _ Ha) Hn (valid_number side)) as (n' & Eh & Hb); [change NO_NEIGHBOR with (2 ^ 32 - 1); lia|].
  eapply followed_by; [exact H|done|lia| | |eapply (agree_set _ _ _ _ _ n' _ _ Ha Hn _ H2)].
  - rewrite <-Es. unfold Mock.set_neighbor in H2. by apply res_bind_ok in H2 as (? & _ & [= <-]).
  - rewrite handle_add, (small_node _ _ _ Ha Hin), (small_node _ _ _ Ha Hout), face_word, Eh. done.
  - rewrite (became_faces _ _ _ _ Hb), (wrap_id 32 out) by lia.
    destruct (Z.eqb_spec (face_of (Mock.face_number side) n) out) as [E|E]; [|done].
    cbn [view_of view_faces]. rewrite list_insert_id; [done|].
    rewrite <-E. apply face_lookup, valid_number.
    Unshelve. lia.
Qed.

Lemma remove_followed m m' s in_ side :
  agree m s → Mock.get_neighbor in_ side m ≠ Ok (-1) → Mock.write_remove_neighbor in_ side m = Ok m' →
  followed Again m m' s.
Proof.
  intros Ha Hne H. unfold Mock.write_remove_neighbor in H. apply res_bind_ok in H as (m1 & H1 & H).
  destruct (activated _ _ _ _ _ Ha H1) as (Ha1 & Ht & Es & Hin). clear Ha. rename Ha1 into Ha.
  apply res_bind_ok in H as (t & _ & H). apply res_bind_ok in H as (m2 & H2 & H).
  destruct (agree_nodes _ _ Ha in_ Hin) as (n & Hn & Hf).
  pose proof (agree_total _ _ Ha) as Htot. destruct (Hf side) as (v & Hv & Hb & Hface).
  assert (face_of (Mock.face_number side) n ≠ NO_NEIGHBOR) as Hno.
  { rewrite Hface, no_neighbor_word by lia. intros ->. apply Hne. rewrite <-Hv.
    unfold Mock.get_neighbor. by rewrite (same_neighbors _ _ Ht). }
  destruct (handle_remove_neighbor_lands upper (wrap 64 (wrap 64 t)) in_ (Mock.face_number side) s n
    (agree_preds _ _ Ha) Hn (valid_number side) Hno) as (n' & Eh & Hbec).
  eapply followed_by; [exact H|done|lia| | |eapply (agree_set _ _ _ _ _ n' _ _ Ha Hn _ H2)].
  - rewrite <-Es. unfold Mock.set_neighbor in H2. by apply res_bind_ok in H2 as (? & _ & [= <-]).
  - rewrite handle_remove, (small_node _ _ _ Ha Hin), face_word, Eh. done.
  - by rewrite (became_faces _ _ _ _ Hbec).
    Unshelve. lia.
Qed.

Lemma run_followed m m' s id :
  agree m s → threads = false → Mock.write_run_node id m = Ok m' → followed (Returns (Some id)) m m' s.
Proof.
  intros Ha Hth H. unfold Mock.write_run_node in H. apply res_bind_ok in H as (l & Hl & H).
  apply store_ok in Hl as [Hid ->]. rewrite (agree_active _ _ Ha) in Hid.
  apply res_bind_ok in H as (t & _ & H). apply res_bind_ok in H as (l2 & _ & H).
  destruct (agree_nodes _ _ Ha id Hid) as (n & Hn & _).
  eapply followed_by; [exact H|done|cbn; lia|done| |].
  - rewrite handle_run, (small_node _ _ _ Ha Hid). unfold handle_run_node.
    rewrite (agree_mode _ _ Ha), Hth, Hn. cbn [negb asserting res_bind fst snd]. reflexivity.
  - destruct Ha as [H1 H2 H3 H4 H5 H6 H7]. apply (agree_same m).
    + split; [by intros []|done|]. apply length_insert.
    + by split.
Qed.

Lemma agree_same_nodes m s s' :
  agree m s → same_nodes s s' → thread_mode (flags s') = thread_mode (flags s) →
  Forall whole (socket_messages s') → agree m s'.
Proof.
  intros [H1 H2 H3 H4 H5 H6 H7] Hs Hf Hm. split; rewrite ?(same_preds _ _ Hs), ?Hf; try done.
  intros id Hid. rewrite (sim_of_same _ _ _ Hs). by apply H5.
Qed.

Lemma write_socket_rest n buf s s' :
  write_socket n buf s = Ok s' → flags s' = flags s ∧ socket_messages s' = socket_messages s.
Proof. unfold write_socket. destruct (_ <=? _)%nat; [|done]. by intros [= <-]. Qed.

Lemma write_messages_rest ms : ∀ s s',
  write_messages ms s = Ok s' → flags s' = flags s ∧ socket_messages s' = socket_messages s.
Proof.
  induction ms as [|b ms IH]; intros s s' H; [by injection H as <-|]. cbn [write_messages] in H.
  apply res_bind_ok in H as (s1 & [E1 E2]%write_socket_rest & [-> ->]%IH). done.
Qed.

(** whole messages can be written *)
Lemma write_messages_whole ms : Forall whole ms → ∀ s, ∃ s', write_messages ms s = Ok s'.
Proof.
  induction 1 as [|b ms Hb Hms IH]; intros s; cbn [write_messages]; [by eexists|].
  unfold write_socket. rewrite (proj2 (Nat.leb_le _ _) Hb). apply IH.
Qed.

Lemma send_pending_agree m s s' : agree m s → send_pending_messages s = Ok s' → agree m s'.
Proof.
  intros Ha H. apply (agree_same_nodes m s); [done|by apply send_pending_same|..];
    apply write_messages_rest in H as [Ef Em]; [by rewrite Ef|by rewrite Em].
Qed.

Lemma stop_followed m m' s : agree m s → Mock.write_stop m = Ok m' → followed (Returns None) m m' s.
Proof.
  intros Ha H. unfold Mock.write_stop in H.
  set (s1 := set_flags (mk_flags (thread_mode (flags s)) true (all_instantiated (flags s))
    (start_time (flags s))) s).
  assert (Ha1 : agree m s1) by (by destruct Ha).
  destruct (write_messages_whole _ (agree_messages _ _ Ha1) (set_messages [] s1)) as (s2 & E).
  eapply followed_by; [exact H|done|cbn; lia|done| |by apply (send_pending_agree m s1)].
  rewrite handle_stop. fold s1. unfold send_pending_messages. by rewrite E.
Qed.

(** what the scheduler makes of a message *)
Lemma event_followed e m m' s : agree m s → sensible e m → issue e m = Ok m' → followed (outcome e) m m' s.
Proof.
  intros Ha Hs H. destruct e as [in_ out side|in_ side|id|id f|id x y z|id|]; cbn [issue sensible outcome] in *.
  - by eapply add_followed.
  - by eapply remove_followed.
  - unfold Mock.write_tap in H. apply res_bind_ok in H as (m1 & H1 & H).
    destruct (activated _ _ _ _ _ Ha H1) as (Ha1 & Ht & Es & Hin). clear Ha. rename Ha1 into Ha.
    apply res_bind_ok in H as (t & _ & H).
    destruct (fact_followed id (tap_pred (preds s)) (wrap 64 (wrap 64 t)) (λ t, Ok t) m1 s [] Ha Hin)
      as (s' & Eh & Ha'); [intros p Hp; by rewrite (new_tuple_fields p 0) by by apply (tap_fields _ (agree_preds _ _ Ha))|].
    eapply followed_by; [exact H|done|lia|done| |exact Ha'].
    rewrite handle_tapped, (small_node _ _ _ Ha Hin). unfold handle_tap. by rewrite Eh.
  - unfold Mock.write_accel in H. apply res_bind_ok in H as (m1 & H1 & H).
    destruct (activated _ _ _ _ _ Ha H1) as (Ha1 & Ht & Es & Hin). clear Ha. rename Ha1 into Ha.
    apply res_bind_ok in H as (t & _ & H). set (F := swrap 32 (wrap 64 f)).
    destruct (fact_followed id (accel_pred (preds s)) (wrap 64 (wrap 64 t)) (λ t, set_int t 0 F) m1 s
      [wrap 32 F] Ha Hin) as (s' & Eh & Ha');
      [intros p Hp; by rewrite (new_tuple_fields p 1) by by apply (accel_fields _ (agree_preds _ _ Ha))|].
    eapply followed_by; [exact H|done|lia|done| |exact Ha'].
    rewrite handle_accelerated, (small_node _ _ _ Ha Hin). unfold handle_accel. fold F. by rewrite Eh.
  - unfold Mock.write_shake in H. apply res_bind_ok in H as (m1 & H1 & H).
    destruct (activated _ _ _ _ _ Ha H1) as (Ha1 & Ht & Es & Hin). clear Ha. rename Ha1 into Ha.
    apply res_bind_ok in H as (t & _ & H).
    set (X := swrap 32 (wrap 64 x)). set (Y := swrap 32 (wrap 64 y)). set (Z' := swrap 32 (wrap 64 z)).
    destruct (fact_followed id (shake_pred (preds s)) (wrap 64 (wrap 64 t))
      (λ t, let* t := set_int t 0 X in let* t := set_int t 1 Y in set_int t 2 Z') m1 s
      [wrap 32 X; wrap 32 Y; wrap 32 Z'] Ha Hin) as (s' & Eh & Ha');
      [intros p Hp; by rewrite (new_tuple_fields p 3) by by apply (shake_fields _ (agree_preds _ _ Ha))|].
    eapply followed_by; [exact H|done|lia|done| |exact Ha'].
    rewrite handle_shaken, (small_node _ _ _ Ha Hin). unfold handle_shake. fold X Y Z'. by rewrite Eh.
  - by apply run_followed.
  - by apply stop_followed.
Qed.

(** ** The start: the nodes are made *)

Definition blank (n : sim_node) : Prop := faces_of n = replicate 6 NO_NEIGHBOR.

(** the nodes below [k], without neighbours; the greatest ids of the database *)
Record made (k : Z) (th : bool) (s : sim_sched) : Prop := {
  made_preds : preds_ok (preds s);
  made_max : max_node_id (DATABASE s) = Z.max 0 (k - 1) ∧ max_translated_id (DATABASE s) = Z.max 0 (k - 1);
  made_nodes : ∀ id, 0 <= id < k → ∃ n, sim_of id s = Ok n ∧ blank n;
  made_mode : thread_mode (flags s) = th ∧ socket_messages s = []
}.

(** [s'] is [s] with a blank node at [id] *)
Record blank_at (id : Z) (s s' : sim_sched) : Prop := {
  blank_preds : preds s' = preds s;
  blank_database : DATABASE s' = DATABASE s;
  blank_mode : flags s' = flags s ∧ socket_messages s' = socket_messages s;
  blank_node : ∃ n, sim_nodes s' = <[id := n]> (sim_nodes s) ∧ blank n
}.

Lemma blank_at_trans id s1 s2 s3 : blank_at id s1 s2 → blank_at id s2 s3 → blank_at id s1 s3.
Proof.
  intros [E1 E2 [E4 E5] (n & E3 & _)] [F1 F2 [F5 F6] (n' & F3 & F4)].
  split; [congruence|congruence|split; congruence|].
  exists n'. split; [|done]. by rewrite F3, E3, insert_insert_eq.
Qed.

Lemma blank_at_node id s s' n : sim_of id s = Ok n → blank_at id s s' → ∃ n', sim_of id s' = Ok n' ∧ blank n'.
Proof.
  rewrite sim_of_ok. intros [Hd _] [_ E _ (n' & E' & Hb)]. exists n'. split; [|done].
  apply sim_of_ok. rewrite E, E'. split; [done|]. by rewrite lookup_insert_eq.
Qed.

Lemma lands_blank id s r v l n :
  lands id s r (became v l n) → view_faces v = replicate 6 NO_NEIGHBOR → ∃ s', r = Ok s' ∧ blank_at id s s'.
Proof.
  intros (n' & -> & Hb) Hv. eexists. split; [done|]. split; [done|done|done|]. exists n'. split; [done|].
  unfold blank. by rewrite (became_faces _ _ _ _ Hb).
Qed.

Lemma init_node_blank id s n p :
  sim_of id s = Ok n → blank n → get_init_predicate PROGRAM None = Ok p →
  ∃ s', sim_init_node PROGRAM upper id s = Ok s' ∧ blank_at id s s'.
Proof.
  intros Hn Hb Hp. unfold sim_init_node. rewrite Hp. cbn [res_bind]. unfold sim_new_work.
  cbn [work_node work_tuple]. rewrite Hn. cbn [res_bind].
  destruct (thread_mode (flags s)); [|destruct (current_node s)]; (eexists; split; [done|]);
    (split; [done|done|done|]).
  - eexists. split; [done|exact Hb].
  - exists n. split; [|done]. cbn. rewrite insert_id; [done|]. by apply sim_of_ok in Hn as [_ ?].
  - eexists. split; [done|]. unfold blank, insert_by_count. by destruct (0 <? _).
Qed.

Lemma create_one_made ts k th s p :
  made k th s → 0 <= k → get_init_predicate PROGRAM None = Ok p →
  ∃ s', create_one PROGRAM create_fn rtype_of upper ts k s = Ok s' ∧ made (k + 1) th s'.
Proof.
  intros [Hp [Hm Ht] Hs Hth] Hk Hi. unfold create_one, create_sim_node, create_node_id. rewrite Hm, Ht.
  assert (E : negb (0 <? Z.max 0 (k - 1)) || (Z.max 0 (k - 1) <? k) && (Z.max 0 (k - 1) <? k) = true).
  { destruct (Z.ltb_spec 0 (Z.max 0 (k - 1))); [|done]. cbn [negb orb]. rewrite (proj2 (Z.ltb_lt _ _)) by lia. done. }
  rewrite E. clear E. cbn [asserting res_bind]. set (s1 := put_sim _ _ _).
  assert (Hn1 : sim_of k s1 = Ok (new_sim_node (rtype_of k))).
  { apply sim_of_ok. cbn. by rewrite !lookup_insert_eq. }
  destruct (init_node_blank k s1 _ p Hn1 eq_refl Hi) as (s2 & -> & B2). cbn [res_bind].
  set (s3 := if thread_mode (flags s2) then add_slave k s2 else s2).
  assert (B3 : blank_at k s1 s3) by (subst s3; destruct (thread_mode (flags s2)); [by destruct B2|done]).
  assert (Hend : ∃ s4, (if negb (thread_mode (flags s3)) || all_instantiated (flags s3) then
      let* s := alter_sim k (set_instantiated true) s3 in
      let* s := add_vacants upper ts k all_faces s in add_neighbor_count upper ts k 0 1 s
    else Ok s3) = Ok s4 ∧ blank_at k s1 s4).
  { destruct (negb (thread_mode (flags s3)) || all_instantiated (flags s3)); [|by exists s3]. destruct (blank_at_node _ _ _ _ Hn1 B3) as (n3 & Hn3 & Hb3).
    assert (Hp3 : preds_ok (preds s3)) by by rewrite (blank_preds _ _ _ B3).
    destruct (lands_blank _ _ _ _ _ _ (new_facts_lands upper ts k s3 n3 Hp3 Hn3) Hb3) as (s4 & H4 & B4).
    exists s4. split; [exact H4|]. by eapply blank_at_trans. }
  destruct Hend as (s4 & H4 & B4). exists s4. split; [exact H4|].
  pose proof (blank_at_node _ _ _ _ Hn1 B4) as Hk4. destruct B4 as [E1 E2 [E5 E6] (n4 & E3 & Hb4)].
  split; [by rewrite E1|rewrite E2; cbn; lia| |by rewrite E5, E6]. intros id Hid. destruct (decide (id = k)) as [->|Hne]; [done|].
  destruct (Hs id ltac:(lia)) as (n & [Hd Hn]%sim_of_ok & Hb). exists n. split; [|done].
  apply sim_of_ok. rewrite E2, E3. cbn. rewrite !lookup_insert_ne by done. done.
Qed.

Lemma create_loop_made n : ∀ ts k th s p,
  made k th s → 0 <= k → k + Z.of_nat n <= 2 ^ 31 → get_init_predicate PROGRAM None = Ok p →
  ∃ s', create_loop PROGRAM create_fn rtype_of upper n ts k s = Ok s' ∧ made (k + Z.of_nat n) th s'.
Proof.
  induction n as [|n IH]; intros ts k th s p Hm Hk Hb Hp; cbn [create_loop].
  { exists s. by rewrite Z.add_0_r. }
  rewrite wrap_id by lia. destruct (create_one_made ts k th s p Hm Hk Hp) as (s1 & -> & Hm1). cbn [res_bind].
  destruct (IH ts (k + 1) th s1 p Hm1) as (s2 & -> & Hm2); [lia|lia|done|]. exists s2. split; [done|].
  by replace (k + Z.of_nat (S n)) with (k + 1 + Z.of_nat n) by lia.
Qed.

(** ** The start of [main] *)

(** the two beginnings of [main] *)
Definition start : res Mock.mock :=
  if threads then Mock.threads_start Mock.new_mock else Mock.det_start Mock.new_mock.

Lemma made_flags k th s f : made k th s → made k (thread_mode f) (set_flags f s).
Proof. by intros [? ? ? [_ ?]]. Qed.

Lemma start_mock m :
  start = Ok m →
  Mock.total_nodes m = 6 ∧ Mock.active_nodes m = replicate 6 true ∧
  ∀ side, Mock.get_neighbors_at side m = replicate 6 (-1).
Proof.
  unfold start. destruct threads; intros H; vm_compute in H; injection H as <-; split_and!; try done; by intros [].
Qed.

(** the scheduler has read the messages of the start *)
Lemma start_followed m s p :
  made 0 false s → get_init_predicate PROGRAM None = Ok p → start = Ok m →
  ∃ s', loop (Message <$> Mock.sent m) s = Ok (None, s') ∧ agree m s'.
Proof.
  intros Hm Hp H.
  assert (Hc : ∀ th s, made 0 th s →
    ∃ s', read (message_of [1; 0; wrap 64 (-1); 6; 0]) s = Ok (Again, s') ∧ made 6 th s').
  { intros th s0 Hm0. rewrite read_message_of by (cbn; lia). rewrite handle_create.
    destruct (create_loop_made 6 0 0 th s0 p Hm0) as (s' & E & Hm'); [lia|lia|done|]. exists s'. split; [|done].
    unfold handle_create_n_nodes. change (Z.to_nat (wrap 64 6)) with 6%nat.
    change (wrap 64 0) with 0. change (wrap 32 0) with 0. by rewrite E. }
  assert (Ha : ∀ s', made 6 threads s' → agree m s').
  { intros s' [Hp' _ Hn' [Hth Hms]]. destruct (start_mock _ H) as (Et & Ea & En).
    split; rewrite ?Et, ?Ea, ?Hms; [done|lia|intros side; by rewrite En|done| |done|done].
    intros id Hid. destruct (Hn' id Hid) as (n & Hn & Hb). exists n. split; [done|]. intros side. exists (-1).
    unfold Mock.get_neighbor. rewrite En, Et. split_and!; [|lia|lia|].
    - apply read_ok. split; [lia|]. apply lookup_replicate. split; [done|lia].
    - unfold face_of. rewrite Hb. by destruct side. }
  unfold start in H. destruct threads eqn:Eth.
  - destruct (Hc true (set_flags (mk_flags true (stop_all (flags s)) (all_instantiated (flags s))
        (start_time (flags s))) s) (made_flags _ _ _ (mk_flags true _ _ _) Hm)) as (s' & Hr & Hm').
    exists s'. split; [|exact (Ha s' Hm')].
    replace (Mock.sent m) with [message_of [9; 0; wrap 64 (-1)]; message_of [1; 0; wrap 64 (-1); 6; 0]]
      by (vm_compute in H; injection H as <-; reflexivity).
    cbn [fmap list_fmap master_loop master_round]. rewrite read_message_of by (cbn; lia).
    rewrite handle_use_threads. cbn [res_bind]. rewrite Hr. reflexivity.
  - destruct (Hc false s Hm) as (s' & Hr & Hm'). exists s'. split; [|exact (Ha s' Hm')].
    replace (Mock.sent m) with [message_of [1; 0; wrap 64 (-1); 6; 0]]
      by (vm_compute in H; injection H as <-; reflexivity).
    cbn [fmap list_fmap master_loop master_round]. rewrite Hr. reflexivity.
Qed.

Lemma init_made db m n now s :
  sim_init PROGRAM n now (new_sim_sched db m) = Ok s →
  max_node_id db = 0 → max_translated_id db = 0 → made 0 false s.
Proof.
  intros H Hm Ht. destruct (sim_init_ok _ _ _ _ _ _ H) as (H1 & _ & _ & H4 & _).
  assert (flags s = mk_flags false false false now ∧ socket_messages s = []) as [Hf Hs].
  { unfold sim_init in H. apply asserting_ok in H as [_ H]. apply asserting_ok in H as [_ H].
    do 6 (apply res_bind_ok in H as (? & _ & H)). by injection H as <-. }
  split; [done|by rewrite H4, Hm, Ht|lia|by rewrite Hf, Hs].
Qed.
End Together.
End Topology.
