(* ===== verification/MockEcho.v ===== *)
(** A tuple for another node: the scheduler of the simulator writes it to the socket, the
    simulator sends it back as a received message, and the scheduler puts it at the
    node that is at that face. *)

From Stdlib Require Import ZArith Lia Bool String.
From stdpp Require Import base tactics list numbers option gmap.
From S2P Require Import Prelude Words Types RuntimeList Tuple SimpleTuple Heap Pqueues Node Loader Sim SimFacts SimRun SimTuples Mock MockRun.

#[local] Open Scope Z_scope.

(** ** A packed tuple *)

Lemma tuple_pack_frame m t vs buf size pos buf' pos' :
  tuple_denotes m t vs → addressable buf → Tuple.pack m t buf size pos = Ok (buf', pos') →
  0 <= pos <= pos' ∧ length buf' = length buf ∧ ∀ i, (i < Z.to_nat pos)%nat → buf' !! i = buf !! i.
Proof.
  intros Ht Hb Hp. unfold Tuple.pack in Hp. apply asserting_ok in Hp as [_ Hp].
  apply res_bind_ok in Hp as ([buf0 pos0] & H0 & Hp). apply asserting_ok in Hp as [_ Hp].
  destruct (scalar_pack_frame _ _ _ _ _ _ _ Hb H0) as (? & Hl0 & ? & Hag0).
  assert (Hb0 : addressable buf0) by (unfold addressable in *; by rewrite Hl0).
  destruct (pack_fields_frame _ _ _ _ _ _ _ _ _ Ht Hb0 Hp) as (Hl1 & _ & ? & Hag).
  split; [lia|]. split; [congruence|]. intros i Hi. rewrite <-Hag0 by done. apply Hag. lia.
Qed.

(** a position is an [int] *)
Lemma words_pack_below n l buf size pos buf' pos' :
  Words.pack n l buf size pos = Ok (buf', pos') → pos' < 2 ^ 31.
Proof. intros (_ & -> & _)%pack_ok. apply (swrap_range 32). lia. Qed.

Lemma pack_heads_below n len st : ∀ p buf size pos buf' pos',
  pos < 2 ^ 31 → RuntimeList.pack_heads n len st p buf size pos = Ok (buf', pos') → pos' < 2 ^ 31.
Proof.
  induction len as [|len IH]; intros p buf size pos buf' pos' Hp H; cbn in H; [by injection H as _ <-|].
  destruct (is_null p); [by injection H as _ <-|]. apply res_bind_ok in H as (c & _ & H).
  apply res_bind_ok in H as ([buf1 pos1] & H1%words_pack_below & H). by apply IH in H.
Qed.

Lemma pack_list_below n st p buf size pos buf' pos' :
  RuntimeList.pack n st p buf size pos = Ok (buf', pos') → pos' < 2 ^ 31.
Proof.
  unfold RuntimeList.pack. intros H. apply res_bind_ok in H as (len & _ & H).
  apply res_bind_ok in H as ([buf1 pos1] & H1%words_pack_below & H). apply asserting_ok in H as [_ H].
  by apply pack_heads_below in H.
Qed.

Lemma pack_fields_below m tfs : ∀ buf size pos buf' pos',
  pos < 2 ^ 31 → pack_fields m tfs buf size pos = Ok (buf', pos') → pos' < 2 ^ 31.
Proof.
  induction tfs as [|[type f] tfs IH]; intros buf size pos buf' pos' Hp H; cbn [pack_fields] in H;
    [by injection H as _ <-|].
  apply res_bind_ok in H as ([buf1 pos1] & H1 & H). apply asserting_ok in H as [_ H]. apply IH in H; [done|].
  destruct type; cbn [pack_field] in H1; try done;
    (by eapply words_pack_below) || (by eapply pack_list_below).
Qed.

Lemma simple_pack_below m s buf size pos buf' pos' :
  SimpleTuple.pack m s buf size pos = Ok (buf', pos') → pos' < 2 ^ 31.
Proof.
  unfold SimpleTuple.pack, Tuple.pack. intros H. apply res_bind_ok in H as ([buf1 pos1] & _ & H).
  apply asserting_ok in H as [_ H]. apply res_bind_ok in H as ([buf2 pos2] & H2%words_pack_below & H).
  apply asserting_ok in H as [_ H]. by apply pack_fields_below in H.
Qed.

(** what [SimpleTuple.pack] leaves alone, and what it reads as *)
Lemma simple_pack_unpack gp m s vs buf size pos buf' pos' m2 :
  tuple_denotes m (data s) vs → forallb value_wf vs = true → addressable buf →
  0 <= pred_id (pred (data s)) < 256 → gp (pred_id (pred (data s))) = Ok (pred (data s)) →
  SimpleTuple.pack m s buf size pos = Ok (buf', pos') →
  (0 <= pos <= pos' ∧ length buf' = length buf ∧
   ∀ i, (i < Z.to_nat pos)%nat → buf' !! i = buf !! i) ∧
  ∃ m3 t, SimpleTuple.unpack gp m2 buf' size pos =
      Ok (m3, new_simple_tuple t (swrap 16 (count s)), pos') ∧
    pred t = pred (data s) ∧ (mem_fits m3 → tuple_denotes m3 t vs).
Proof.
  intros Ht Hwf Hb Hid Hget Hp. unfold SimpleTuple.pack in Hp.
  apply res_bind_ok in Hp as ([buf0 pos0] & H0 & Hp).
  destruct (scalar_pack_frame _ _ _ _ _ _ _ Hb H0) as (? & Hl0 & ? & Hag0).
  assert (Hb0 : addressable buf0) by (unfold addressable in *; by rewrite Hl0).
  destruct (tuple_pack_frame _ _ _ _ _ _ _ _ Ht Hb0 Hp) as (? & Hl1 & Hag1).
  split.
  { split; [lia|]. split; [congruence|]. intros i Hi. rewrite <-Hag0 by done. apply Hag1. lia. }
  destruct (packed_tuple_unpacks gp m (data s) vs buf0 size pos0 buf' pos' m2 Ht Hwf Hb0 Hid Hget Hp)
    as (m3 & t & Hun & Hpred & _ & Hden).
  exists m3, t. split; [|done]. unfold SimpleTuple.unpack.
  rewrite (unpack_scalar_ok 2 (count s) buf size pos buf0 pos0 buf' Hb H0)
    by (try congruence; intros; symmetry; by apply Hag1).
  cbn [res_bind]. rewrite Hun. cbn [res_bind]. by rewrite swrap_wrap by lia.
Qed.

(** ** A message of the scheduler *)

Section Echo.
Context (PROGRAM : program) (create_fn : Z → Z → node) (rtype_of : Z → heap_type)
  (upper : Z).

Abbreviation read := (read_message PROGRAM create_fn rtype_of upper).

(** the words before the tuple *)
Definition sent_words (size code ts src face : Z) : list Z := [size; code; ts; src; wrap 64 face].

Lemma sent_words_length size code ts src face :
  length (message_bytes (sent_words size code ts src face)) = 40%nat.
Proof. apply array_bytes_length. Qed.

(** the bytes of a tuple that any memory reads *)
Definition carries (bs : list byte) (size pos : Z) (s : simple_tuple) (vs : list value) : Prop :=
  ∀ m, ∃ m' t, SimpleTuple.unpack (program_predicate PROGRAM) m bs size pos =
      Ok (m', new_simple_tuple t (swrap 16 (count s)), size) ∧
    pred t = pred (data s) ∧ (mem_fits m' → tuple_denotes m' t vs).

(** the conditions on a tuple that is sent *)
Record sendable (m : memory) (s : simple_tuple) (vs : list value) : Prop := {
  sendable_values : tuple_denotes m (data s) vs;
  sendable_wf : forallb value_wf vs = true;
  sendable_byte : 0 <= pred_id (pred (data s)) < 256;
  sendable_known : program_predicate PROGRAM (pred_id (pred (data s))) = Ok (pred (data s))
}.

Lemma sent_bytes s s1 info ts vs :
  sendable (mem s) (work_tuple (info_work info)) vs → send_send_message info ts s = Ok s1 →
  ∃ size src n rest, info_src info = Some src ∧ sim_of src s = Ok n ∧ 32 <= size ∧ size + 8 <= 512 ∧
    let head := message_bytes (sent_words size SEND_MESSAGE ts src (get_face (work_node (info_work info)) n)) in
    written s1 = written s ++ [head ++ rest] ∧ Z.of_nat (length (head ++ rest)) = size + 8 ∧
    ∀ code, carries (message_bytes (sent_words size code ts src (get_face (work_node (info_work info)) n)) ++ rest)
              (size + 8) 40 (work_tuple (info_work info)) vs.
Proof.
  intros [Ht Hwf Hid Hget] H. unfold send_send_message in H. set (stpl := work_tuple (info_work info)) in *.
  apply res_bind_ok in H as (sz & _ & H). apply res_bind_ok in H as (? & _ & H).
  apply res_bind_ok in H as (src & Hsrc%of_option_ok & H). apply res_bind_ok in H as (n & Hn & H).
  set (size := 4 * 8 + sz) in *. set (face := get_face (work_node (info_work info)) n) in *.
  apply res_bind_ok in H as ([reply pos] & Hp & H). apply asserting_ok in H as [Hpos%Z.eqb_eq H].
  apply res_bind_ok in H as (m1 & _ & H). subst pos.
  set (head := message_bytes [size; SEND_MESSAGE; ts; src; wrap 64 face]) in *.
  assert (Hlh : length head = 40%nat) by apply array_bytes_length.
  set (buf := head ++ replicate (8 * MAXLENGTH - 40) 0) in *.
  assert (Hlb : length buf = 512%nat) by (unfold buf; rewrite length_app, Hlh, length_replicate; done).
  assert (Hb : addressable buf) by (unfold addressable; rewrite Hlb; done).
  destruct (simple_pack_unpack (program_predicate PROGRAM) _ _ vs buf _ _ reply _ (mem s) Ht Hwf Hb Hid Hget Hp)
    as [(Hle & Hlr & Hag) _].
  assert (Hreply : reply = head ++ drop 40 reply).
  { rewrite <-(take_drop 40 reply) at 1. f_equal. apply list_eq. intros i.
    destruct (decide (i < 40)%nat) as [Hi|Hi].
    - rewrite lookup_take_lt by done. rewrite Hag by lia. unfold buf. by rewrite lookup_app_l by lia.
    - rewrite lookup_take_ge by lia. symmetry. apply lookup_ge_None. lia. }
  unfold write_socket in H. destruct (_ <=? _)%nat eqn:E in H; [|done]. apply Nat.leb_le in E.
  injection H as <-. cbn [written set_mem]. unfold message_length in *. rewrite Hlr, Hlb in E.
  pose proof (simple_pack_below _ _ _ _ _ _ _ Hp) as Hlt. rewrite wrap_id in E |- * by lia.
  set (rest := take (Z.to_nat (size + 8) - 40) (drop 40 reply)).
  assert (Htake : take (Z.to_nat (size + 8)) reply = head ++ rest).
  { rewrite Hreply at 1. rewrite take_app, Hlh. f_equal. apply take_ge. lia. }
  assert (Hlen : Z.of_nat (length (head ++ rest)) = size + 8).
  { rewrite <-Htake, length_take. lia. }
  exists size, src, n, rest. split_and!; [done|done|lia|lia|by rewrite Htake|exact Hlen|].
  intros code m2.
  destruct (simple_pack_unpack (program_predicate PROGRAM) _ _ vs buf _ _ reply _ m2 Ht Hwf Hb Hid Hget Hp)
    as [_ (m3 & t & Hun & Hpred & Hden)].
  exists m3, t. split; [|done].
  assert (Ha : addressable reply) by (unfold addressable; rewrite Hlr, Hlb; done).
  destruct (unpack_simple_reads (program_predicate PROGRAM) m2 reply (size + 8) 40 Ha _ _ Hun) as [_ Hw].
  apply Hw. intros i Hi. unfold rest. rewrite Hreply at 1.
  rewrite !lookup_app_r by (rewrite ?Hlh, ?sent_words_length; lia). rewrite Hlh, sent_words_length.
  rewrite lookup_take_lt by lia. done.
Qed.

(** the simulator changes the code and sends the bytes back *)
Lemma set_command_words size code c ts src face rest :
  Mock.set_command c (message_bytes (sent_words size code ts src face) ++ rest) =
    message_bytes (sent_words size c ts src face) ++ rest.
Proof. reflexivity. Qed.

Lemma mock_echo size ts src face rest m r m' :
  let head code := message_bytes (sent_words size code ts src face) in
  0 <= size < 2 ^ 63 → Z.of_nat (length (head SEND_MESSAGE ++ rest)) = size + 8 →
  Mock.force_read (head SEND_MESSAGE ++ rest) m = Ok (r, m') →
  r = false ∧ Mock.sent m' = Mock.sent m ++ [head Mock.RECEIVE_MESSAGE ++ rest].
Proof.
  intros head Hs Hl H. unfold Mock.force_read in H. apply asserting_ok in H as [_ H].
  assert (Hw : ∀ k w, sent_words size SEND_MESSAGE ts src face !! k = Some w →
    word (head SEND_MESSAGE ++ rest) k = Ok (wrap 64 w)) by (intros; by apply word_message).
  rewrite (Hw 0%nat size eq_refl) in H. cbn [res_bind] in H. rewrite wrap_id in H by lia.
  destruct (_ <? size + 8) in H; [done|]. apply asserting_ok in H as [_ H].
  apply res_bind_ok in H as ([code m1] & H & [= <- <-]). unfold Mock.handle_data in H.
  rewrite (Hw 1%nat _ eq_refl), (Hw 2%nat _ eq_refl), (Hw 3%nat _ eq_refl), (Hw 4%nat _ eq_refl),
    (Hw 0%nat _ eq_refl) in H. cbn [res_bind] in H.
  change (wrap 64 SEND_MESSAGE) with Mock.SEND_MESSAGE in H. cbn [Z.eqb Pos.eqb Mock.SEND_MESSAGE Mock.NODE_RUN Mock.SET_COLOR] in H.
  apply res_bind_ok in H as (target & _ & H). apply res_bind_ok in H as (m2 & H2 & H).
  apply activate_same in H2 as (_ & Es & _). unfold head at 1 2 in H. rewrite set_command_words in H.
  change (message_bytes (sent_words size Mock.RECEIVE_MESSAGE ts src face)) with (head Mock.RECEIVE_MESSAGE) in H.
  assert (El : length (head Mock.RECEIVE_MESSAGE ++ rest) = length (head SEND_MESSAGE ++ rest)).
  { unfold head. by rewrite !length_app, !sent_words_length. }
  rewrite (wrap_id 64 size) in H by lia.
  rewrite (wrap_id 64 (size + 8)) in H by lia.
  rewrite El, Hl, Z.leb_refl in H. clearbody head. injection H as <- <-. split; [done|].
  cbn [Mock.sent Mock.send].
  rewrite Es, take_ge by (rewrite El; lia). done.
Qed.

(** ** What the scheduler does with it *)

Lemma handle_received size ts src face rest s :
  let bs := message_bytes (sent_words size Mock.RECEIVE_MESSAGE ts src face) ++ rest in
  -1 <= face <= 5 → 0 <= src < 2 ^ 32 → 0 <= size → size + 8 <= 512 → Z.of_nat (length bs) = size + 8 →
  read bs s = again (handle_receive_message PROGRAM upper (wrap 64 ts) src face bs 40 (size + 8) s).
Proof.
  intros bs Hf Hs H0 H1 Hl.
  assert (Hw : ∀ k w, sent_words size Mock.RECEIVE_MESSAGE ts src face !! k = Some w →
    word bs k = Ok (wrap 64 w)) by (intros; by apply word_message).
  unfold read_message. rewrite (proj2 (Nat.leb_le _ _)) by lia. cbn [asserting].
  rewrite (Hw 0%nat size eq_refl). cbn [res_bind]. rewrite (wrap_id 64 size) by lia.
  rewrite (proj2 (Z.ltb_ge _ _)) by (unfold MAXLENGTH; lia). rewrite (proj2 (Z.eqb_eq _ _)) by lia.
  cbn [asserting]. unfold handle_message. rewrite (Hw 1%nat _ eq_refl). cbn [res_bind].
  change (wrap 64 Mock.RECEIVE_MESSAGE) with 13. cbn [Z.eqb Pos.eqb]. unfold word_id, word_int.
  rewrite (Hw 2%nat _ eq_refl), (Hw 3%nat _ eq_refl), (Hw 4%nat _ eq_refl), (Hw 0%nat _ eq_refl).
  cbn [res_bind]. rewrite (wrap_id 64 size), (wrap_id 64 src), (wrap_id 32 src) by lia.
  rewrite (swrap_id 32 (size + 8)) by lia.
  assert (E : swrap 32 (wrap 64 (wrap 64 face)) = face).
  { rewrite (wrap_id 64 (wrap 64 face)) by (apply wrap_range; lia).
    destruct (decide (face = -1)) as [->|]; [done|]. rewrite wrap_id, swrap_id by lia. done. }
  rewrite E. done.
Qed.

Lemma get_face_valid id n :
  get_face id n ≠ INVALID_FACE → valid_face (get_face id n) ∧ face_of (get_face id n) n = id.
Proof.
  unfold get_face. intros H.
  repeat match goal with |- context [id =? ?v] => destruct (Z.eqb_spec id v) as [->|] end; try done;
    (split; [unfold valid_face; cbn; lia|done]).
Qed.

Lemma get_face_invalid id n : id ∉ faces_of n ↔ get_face id n = INVALID_FACE.
Proof.
  unfold faces_of. rewrite !elem_of_cons, elem_of_nil. unfold get_face.
  repeat match goal with |- context [id =? ?v] => destruct (Z.eqb_spec id v) as [->|] end;
    split; intros; try done; tauto.
Qed.

(** the tuple, put at node [to_] with its count and time *)
Definition arrives (bs : list byte) (stpl : simple_tuple) (vs : list value) (ts to_ : Z) (s : sim_sched) : Prop :=
  ∀ n, sim_of to_ s = Ok n → ∃ m t,
    read bs s = Ok (Again, put_sim to_
      (insert_by_count (new_simple_tuple t (swrap 16 (count stpl))) (int_prio upper ts) n) (set_mem m s)) ∧
    pred t = pred (data stpl) ∧ (mem_fits m → tuple_denotes m t vs).

Lemma received_arrives size ts src face rest s n stpl vs :
  let bs := message_bytes (sent_words size Mock.RECEIVE_MESSAGE ts src face) ++ rest in
  -1 <= face <= 5 → 0 <= src < 2 ^ 32 → 0 <= size → size + 8 <= 512 → Z.of_nat (length bs) = size + 8 →
  carries bs (size + 8) 40 stpl vs → thread_mode (flags s) = false → sim_of src s = Ok n →
  arrives bs stpl vs ts (if face =? INVALID_FACE then src else face_of face n) s.
Proof.
  intros bs Hf Hs H0 H1 Hl Hc Hm Hn to_ Hto. subst bs. rewrite handle_received by done.
  unfold handle_receive_message. rewrite Hm. cbn [negb asserting]. rewrite Hn. cbn [res_bind].
  destruct (Hc (mem s)) as (m & t & Hun & Hp & Hd). exists m, t. split; [|done].
  assert (Ht : (if face =? INVALID_FACE then Ok src else node_at_face face n) =
    Ok (if face =? INVALID_FACE then src else face_of face n)).
  { unfold INVALID_FACE. destruct (Z.eqb_spec face (-1)); [done|]. apply node_at_face_ok. unfold valid_face. lia. }
  rewrite Ht. cbn [res_bind]. rewrite Hto. cbn [res_bind]. rewrite Hun. cbn [res_bind again].
  unfold int_prio. by rewrite wrap_wrap.
Qed.

(** a message goes out, and what the simulator makes of it comes back *)
Lemma echo_arrives s s1 info ts vs src n :
  info_src info = Some src → small src → sim_of src s = Ok n →
  sendable (mem s) (work_tuple (info_work info)) vs → send_send_message info ts s = Ok s1 →
  ∃ b, written s1 = written s ++ [b] ∧ ∀ m r m', Mock.force_read b m = Ok (r, m') →
    ∃ b', Mock.sent m' = Mock.sent m ++ [b'] ∧
      ∀ s2 n2, thread_mode (flags s2) = false → sim_of src s2 = Ok n2 → faces_of n2 = faces_of n →
        let face := get_face (work_node (info_work info)) n in
        arrives b' (work_tuple (info_work info)) vs ts
          (if face =? INVALID_FACE then src else face_of face n2) s2.
Proof.
  intros Hsrc Hsm Hn Hsend H.
  destruct (sent_bytes _ _ _ _ _ Hsend H) as (size & src' & n' & rest & Hsrc' & Hn' & Hlo & Hhi & Hw & Hl & Hc).
  rewrite Hsrc in Hsrc'. injection Hsrc' as <-. rewrite Hn in Hn'. injection Hn' as <-.
  eexists. split; [exact Hw|]. intros m r m' Hm.
  apply mock_echo in Hm as [_ Hsent]; [|lia|exact Hl]. eexists. split; [exact Hsent|].
  intros s2 n2 Hmode Hn2 Hfaces face.
  assert (Hf : -1 <= face <= 5).
  { destruct (decide (face = INVALID_FACE)) as [->|Hv]; [done|].
    destruct (get_face_valid _ _ Hv) as [Hv' _]. unfold valid_face in Hv'. subst face. lia. }
  apply (received_arrives size); try done; lia.
Qed.

(** C25: A tuple that a node of the simulator sends to a neighbour is written to the
    socket, sent back by the simulator and put, with its values, its count and its time,
    at that neighbour, as long as the sender has the same neighbours; whatever else
    happened to both in between. *)
Theorem echo_delivers s s1 info ts vs src n :
  info_src info = Some src → small src → sim_of src s = Ok n →
  work_node (info_work info) ∈ faces_of n →
  sendable (mem s) (work_tuple (info_work info)) vs → send_send_message info ts s = Ok s1 →
  ∃ b, written s1 = written s ++ [b] ∧ ∀ m r m', Mock.force_read b m = Ok (r, m') →
    ∃ b', Mock.sent m' = Mock.sent m ++ [b'] ∧
      ∀ s2 n2, thread_mode (flags s2) = false → sim_of src s2 = Ok n2 → faces_of n2 = faces_of n →
        arrives b' (work_tuple (info_work info)) vs ts (work_node (info_work info)) s2.
Proof.
  intros Hsrc Hsm Hn Hin Hsend H.
  destruct (echo_arrives _ _ _ _ _ _ _ Hsrc Hsm Hn Hsend H) as (b & Hw & Hb). exists b. split; [done|].
  intros m r m' Hm. destruct (Hb m r m' Hm) as (b' & Hs & Hd). exists b'. split; [done|].
  intros s2 n2 Hmode Hn2 Hf. specialize (Hd s2 n2 Hmode Hn2 Hf). cbv zeta in Hd.
  assert (Hv : get_face (work_node (info_work info)) n ≠ INVALID_FACE).
  { intros E. by apply get_face_invalid in E. }
  destruct (get_face_valid _ _ Hv) as [_ Hface]. rewrite (proj2 (Z.eqb_neq _ _) Hv) in Hd.
  unfold face_of in Hd, Hface. rewrite Hf, Hface in Hd. exact Hd.
Qed.

(** A tuple for a node that is no neighbour goes to the sender itself. *)
Theorem stranger_comes_back s s1 info ts vs src n :
  info_src info = Some src → small src → sim_of src s = Ok n →
  work_node (info_work info) ∉ faces_of n →
  sendable (mem s) (work_tuple (info_work info)) vs → send_send_message info ts s = Ok s1 →
  ∃ b, written s1 = written s ++ [b] ∧ ∀ m r m', Mock.force_read b m = Ok (r, m') →
    ∃ b', Mock.sent m' = Mock.sent m ++ [b'] ∧
      ∀ s2 n2, thread_mode (flags s2) = false → sim_of src s2 = Ok n2 → faces_of n2 = faces_of n →
        arrives b' (work_tuple (info_work info)) vs ts src s2.
Proof.
  intros Hsrc Hsm Hn Hin Hsend H.
  destruct (echo_arrives _ _ _ _ _ _ _ Hsrc Hsm Hn Hsend H) as (b & Hw & Hb). exists b. split; [done|].
  intros m r m' Hm. destruct (Hb m r m' Hm) as (b' & Hs & Hd). exists b'. split; [done|].
  intros s2 n2 Hmode Hn2 Hf. specialize (Hd s2 n2 Hmode Hn2 Hf). cbv zeta in Hd.
  apply get_face_invalid in Hin. by rewrite Hin in Hd.
Qed.
End Echo.

(** ** A tuple for the node to the north *)

Definition sample_fact : simple_tuple :=
  new_simple_tuple (mk_tuple (some_pred (get_predicate_by_name sim_program "neighbor"%string)) [1; 4]) 1.

Definition with_north : sim_sched := sim_run [create_two; north_of 0 1] connected.

Definition fact_info (to_ : Z) : work_info := mk_info (mk_work to_ sample_fact) 7 (Some 0).

Definition fact_sent : sim_sched :=
  match send_send_message (fact_info 1) 7 with_north with Ok s => s | Err _ => connected end.

(** the simulator with the same two nodes *)
Definition mock_north : Mock.mock :=
  match (let* m := Mock.write_create_n_nodes 2 Mock.new_mock in Mock.write_add_neighbor 0 1 Mock.NORTH m) with
  | Ok m => m
  | Err _ => Mock.new_mock
  end.

Definition node_of (id : Z) (s : sim_sched) : sim_node :=
  match sim_of id s with Ok n => n | Err _ => new_sim_node HEAP_INT_ASC end.

(** it takes the message *)
Example mock_takes :
  match last (written fact_sent) with
  | Some b => is_ok (Mock.force_read b mock_north) = true
  | None => False
  end.
Proof. vm_compute. reflexivity. Qed.

Lemma sample_sendable :
  sendable sim_program (mem with_north) sample_fact [VNode 1; VInt 4].
Proof.
  split; [|reflexivity|vm_compute; split; [discriminate|reflexivity]|vm_compute; reflexivity].
  unfold tuple_denotes. change (fields (data sample_fact)) with [1; 4].
  replace (pred_types (pred (data sample_fact))) with [FIELD_NODE; FIELD_INT] by (vm_compute; reflexivity).
  constructor; [exact (denotes_node _ 1)|]. constructor; [exact (denotes_int _ 4)|constructor].
Qed.

Lemma echo_delivers_witness :
  (∃ b, written fact_sent = written with_north ++ [b] ∧ ∀ m r m', Mock.force_read b m = Ok (r, m') →
    ∃ b', Mock.sent m' = Mock.sent m ++ [b'] ∧
      ∀ s2 n2, thread_mode (flags s2) = false → sim_of 0 s2 = Ok n2 → faces_of n2 = faces_of (node_of 0 with_north) →
        arrives sim_program (new_node 4 []) (λ _, HEAP_INT_ASC) 0 b' sample_fact [VNode 1; VInt 4] 7 1 s2) ∧
  sim_of 0 with_north = Ok (node_of 0 with_north) ∧ thread_mode (flags with_north) = false.
Proof.
  split; [|split; vm_compute; reflexivity].
  apply (echo_delivers sim_program (new_node 4 []) (λ _, HEAP_INT_ASC) 0 with_north fact_sent (fact_info 1) 7
    [VNode 1; VInt 4] 0 (node_of 0 with_north)).
  - reflexivity.
  - unfold small. lia.
  - vm_compute. reflexivity.
  - apply (bool_decide_unpack _). vm_compute. exact I.
  - exact sample_sendable.
  - vm_compute. reflexivity.
Defined.
