(* ===== verification/MockTalk.v ===== *)
(** The scheduler of the simulator and the simulator of the tests at work: what both do
    until the end of a run, in any order, with the messages under way between them.  The
    scheduler follows the topology of the simulator. *)

From Stdlib Require Import ZArith Lia Bool String.
From stdpp Require Import base tactics list numbers option gmap.
From S2P Require Import Prelude Words Types RuntimeList Tuple SimpleTuple Heap Pqueues Node Loader Sim SimFacts SimRun SimTuples Mock MockRun MockEcho.

#[local] Open Scope Z_scope.

(** ** Both, and what is under way

    [unread] are the messages that the scheduler has not read, in order, with the event
    that made them; those without one are tuples that the simulator sends back.  [taken]
    is the number of the scheduler's messages that the simulator has read. *)
Record world : Type := mk_world {
  simulator : Mock.mock;
  scheduler : sim_sched;
  unread : list (option event * list byte);
  taken : nat
}.

(** what one of them does.  The simulator: an event, the choice of a node to run, a
    message that it reads.  The scheduler: a message that it reads, a look at an empty
    socket at two times, the answer to a run.  The engine that runs the nodes: it takes a
    node's tuples, makes work for a node, at once or later, colors a node, counts
    instructions and uses memory. *)
Inductive action : Type :=
  | Issues (e : event)
  | Chooses
  | Takes
  | Reads
  | Idles (now now' : Z)
  | Answers
  | Gathers (id now : Z)
  | Makes (src : option Z) (w : work)
  | Delays (now : Z) (src : option Z) (w : work) (d : Z)
  | Colors (id r g b : Z)
  | Computes (i : sim_instr) (m : memory).

Section Talk.
Context (threads : bool) (PROGRAM : program) (create_fn : Z → Z → node) (rtype_of : Z → heap_type)
  (upper : Z) (by_address : gset Z → list Z).

Abbreviation read := (read_message PROGRAM create_fn rtype_of upper).
Abbreviation loop := (master_loop PROGRAM create_fn rtype_of upper).

(** the simulator becomes [m'], and what it has sent is under way *)
Definition sends (o : option event) (m' : Mock.mock) (w : world) : world :=
  mk_world m' (scheduler w)
    (unread w ++ map (pair o) (drop (length (Mock.sent (simulator w))) (Mock.sent m'))) (taken w).

Definition becomes (s' : sim_sched) (w : world) : world :=
  mk_world (simulator w) s' (unread w) (taken w).

Definition perform (a : action) (w : world) : res world :=
  let s := scheduler w in
  match a with
  | Issues e => let* m := issue e (simulator w) in Ok (sends (Some e) m w)
  | Chooses => let* r := Mock.get_next_node (simulator w) in Ok (sends None (snd r) w)
  | Takes =>
      let* bs := of_option (written s !! taken w) in
      let* r := Mock.force_read bs (simulator w) in
      let w := sends None (snd r) w in
      Ok (mk_world (simulator w) (scheduler w) (unread w) (S (taken w)))
  | Reads =>
      match unread w with
      | [] => Ok w
      | (_, bs) :: l =>
          let* r := read bs s in Ok (mk_world (simulator w) (snd r) l (taken w))
      end
  | Idles now now' => let* s := idle_round upper now now' s in Ok (becomes s w)
  | Answers => let* s := handle_deterministic_computation by_address s in Ok (becomes s w)
  | Gathers id now => let* r := sim_gather_next_tuples id now [] s in Ok (becomes (snd r) w)
  | Makes src k => let* s := sim_new_work upper src k s in Ok (becomes s w)
  | Delays now src k d => let* s := new_work_delay now src k d s in Ok (becomes s w)
  | Colors id r g b => let* s := set_color id r g b s in Ok (becomes s w)
  | Computes i m => Ok (becomes (set_mem m (set_instr i s)) w)
  end.

Fixpoint perform_all (l : list action) (w : world) : res world :=
  match l with
  | [] => Ok w
  | a :: l => let* w := perform a w in perform_all l w
  end.

(** the simulator does nothing but what is [sensible] *)
Definition allowed (a : action) (w : world) : Prop :=
  match a with Issues e => sensible threads e (simulator w) | _ => True end.

Fixpoint all_allowed (l : list action) (w : world) : Prop :=
  match l with
  | [] => True
  | a :: l => allowed a w ∧ ∀ w', perform a w = Ok w' → all_allowed l w'
  end.

(** ** What the scheduler does besides *)

Abbreviation agree := (agree threads).

Lemma agree_faces m s id n n' :
  agree m s → sim_of id s = Ok n → faces_of n' = faces_of n → agree m (put_sim id n' s).
Proof.
  intros Ha Hn Hf. apply (agree_put threads m s id n n' m Ha Hn); try done.
  intros Hs side. destruct (Hs side) as (v & ? & ? & Hface). exists v. split; [done|split; [done|]].
  unfold face_of. rewrite Hf. exact Hface.
Qed.

Lemma agree_view m s id n n' :
  agree m s → sim_of id s = Ok n → view_of n' = view_of n → agree m (put_sim id n' s).
Proof. intros Ha Hn Hv. apply (agree_faces m s id n); [done|done|]. by destruct (view_eq _ _ Hv). Qed.

(** only members that the topology does not depend on *)
Lemma agree_rest m s s' :
  agree m s → same_nodes s s' → flags s' = flags s → socket_messages s' = socket_messages s → agree m s'.
Proof.
  intros Ha Hs Hf Hm. apply (agree_same_nodes threads m s); [done|done|by rewrite Hf|rewrite Hm; apply Ha].
Qed.

Lemma send_send_rest info ts s s' :
  send_send_message info ts s = Ok s' → flags s' = flags s ∧ socket_messages s' = socket_messages s.
Proof.
  unfold send_send_message. intros H. do 4 apply res_bind_ok in H as (? & _ & H).
  apply res_bind_ok in H as ([buf pos] & _ & H). apply asserting_ok in H as [_ H].
  apply res_bind_ok in H as (m & _ & H). by apply write_socket_rest in H.
Qed.

Lemma send_send_agree info ts m s s' : agree m s → send_send_message info ts s = Ok s' → agree m s'.
Proof.
  intros Ha H. destruct (send_send_rest _ _ _ _ H) as [Ef Em].
  apply (agree_rest m s); [done|by eapply send_send_same|done|done].
Qed.

Lemma send_all_agree l m : ∀ s s', agree m s → send_all l s = Ok s' → agree m s'.
Proof.
  induction l as [|i l IH]; intros s s' Ha H; [by injection H as <-|]. cbn [send_all] in H.
  apply res_bind_ok in H as (s1 & H1 & H2). eapply IH; [|exact H2]. by eapply send_send_agree.
Qed.

Lemma check_delayed_agree fuel now m : ∀ s s', agree m s → check_delayed_loop fuel now s = Ok s' → agree m s'.
Proof.
  induction fuel as [|fuel IH]; intros s s' Ha H; [done|]. cbn [check_delayed_loop] in H.
  destruct (general_empty _); [by injection H as <-|].
  apply res_bind_ok in H as (best & _ & H). destruct (best <? now); [|by injection H as <-].
  apply res_bind_ok in H as ([info q] & _ & H). do 3 apply res_bind_ok in H as (? & _ & H).
  apply res_bind_ok in H as (s1 & H1 & H2). eapply IH; [|exact H2].
  eapply send_send_agree; [|exact H1]. by apply (agree_rest m s).
Qed.

Lemma instantiate_nodes_agree m ids : ∀ s s',
  agree m s → instantiate_nodes upper ids s = Ok s' → agree m s'.
Proof.
  induction ids as [|id ids IH]; intros s s' Ha H; cbn [instantiate_nodes] in H; [by injection H as <-|].
  apply res_bind_ok in H as (s1 & H1 & H). apply (IH s1 s'); [|done].
  destruct (sim_of id s) as [n|] eqn:Hn; [|unfold instantiate_node, alter_sim in H1; by rewrite Hn in H1].
  destruct (instantiate_node_lands upper id s n (agree_preds _ _ _ Ha) Hn) as (n' & E & B).
  rewrite E in H1. injection H1 as <-. apply (agree_faces m s id n); [done|done|].
  by rewrite (became_faces _ _ _ _ B).
Qed.

Lemma agree_flags m s f : agree m s → thread_mode f = threads → agree m (set_flags f s).
Proof. intros [H1 H2 H3 H4 H5 H6 H7] Hf. by split. Qed.

Lemma idle_agree now now' m s s' : agree m s → idle_round upper now now' s = Ok s' → agree m s'.
Proof.
  intros Ha H. unfold idle_round in H. apply res_bind_ok in H as (s1 & H1 & H).
  apply (send_pending_agree threads m s) in H1; [|done]. apply res_bind_ok in H as (s2 & H2 & H).
  assert (Ha2 : agree m s2).
  { destruct (_ && _); [|by injection H2 as <-]. destruct (_ <? now); [|by injection H2 as <-].
    apply res_bind_ok in H2 as (s3 & H2 & [= <-]). unfold instantiate_all_nodes in H2.
    apply asserting_ok in H2 as [_ H2]. apply asserting_ok in H2 as [_ H2].
    apply (instantiate_nodes_agree m) in H2; [|done]. apply agree_flags; [done|]. exact (agree_mode _ _ _ H2). }
  destruct (negb (thread_mode (flags s2))); [exact (check_delayed_agree _ _ _ _ _ Ha2 H)|by injection H as <-].
Qed.

Lemma answer_agree m s s' : agree m s → handle_deterministic_computation by_address s = Ok s' → agree m s'.
Proof.
  intros Ha H. unfold handle_deterministic_computation in H.
  apply res_bind_ok in H as (s1 & H1 & H). apply (send_all_agree _ m) in H1; [|done].
  apply res_bind_ok in H as (c & _ & H). apply res_bind_ok in H as (n & Hn & H).
  apply res_bind_ok in H as (s2 & H2 & [= <-]). unfold write_reply in H2. destruct (_ <=? _)%nat; [|done].
  destruct (write_socket_rest _ _ _ _ H2) as [Ef Em]. apply write_socket_same in H2.
  apply (agree_rest m s2); [|done|done|done]. eapply agree_rest; [|exact H2|done|done].
  apply (agree_view m _ c n); [|done|done]. by apply (agree_rest m s1).
Qed.

Lemma gather_agree id now m s ls s' : agree m s → sim_gather_next_tuples id now [] s = Ok (ls, s') → agree m s'.
Proof.
  intros Ha H. unfold sim_gather_next_tuples in H. apply res_bind_ok in H as (n & Hn & H).
  apply res_bind_ok in H as ([n1 l1] & H1 & H). apply res_bind_ok in H as ([n2 l2] & H2 & H).
  injection H as <- <-. cbn [fst snd] in *. apply (agree_view m s id n); [done|done|].
  apply took_delayed in H2 as (? & _ & [-> _]). destruct (sim_instr_use (instr s)); [|by injection H1 as <- _].
  by apply took_until in H1 as (? & _ & [-> _]).
Qed.

Lemma new_work_agree src w m s s' : agree m s → sim_new_work upper src w s = Ok s' → agree m s'.
Proof.
  intros Ha H. unfold sim_new_work in H. apply res_bind_ok in H as (n & Hn & H).
  destruct (thread_mode (flags s)).
  { injection H as <-. by apply (agree_given threads m s _ n _ [work_tuple w]), given_push. }
  destruct (current_node s); injection H as <-; [by apply (agree_rest m s)|].
  by apply (agree_given threads m s _ n _ [work_tuple w]), given_insert.
Qed.

Lemma delay_agree now src w d m s s' : agree m s → new_work_delay now src w d s = Ok s' → agree m s'.
Proof.
  intros Ha H. unfold new_work_delay in H. destruct (thread_mode (flags s)); [|].
  - apply res_bind_ok in H as (n & Hn & [= <-]).
    by apply (agree_given threads m s _ n _ [work_tuple w]), given_delay.
  - injection H as <-. by apply (agree_rest m s).
Qed.

Lemma color_agree id r g b m s s' : agree m s → set_color id r g b s = Ok s' → agree m s'.
Proof.
  intros Ha H. unfold set_color, schedule_new_message in H. destruct (thread_mode (flags s)).
  - injection H as <-. apply (agree_same_nodes threads m s); [done|done|done|].
    cbn [socket_messages set_messages]. apply Forall_app. split; [apply Ha|]. constructor; [|constructor].
    unfold whole, message_bytes. rewrite array_bytes_length. reflexivity || (vm_compute; lia).
  - destruct (write_socket_rest _ _ _ _ H) as [Ef Em]. apply (agree_rest m s); [done|by eapply write_socket_same|done|done].
Qed.

(** ** What the simulator does besides *)

Lemma same_topology_trans m1 m2 m3 : same_topology m1 m2 → same_topology m2 m3 → same_topology m1 m3.
Proof. intros [E1 E2 E3] [F1 F2 F3]. split; [intros side; by rewrite F1|congruence|congruence]. Qed.

Lemma same_topology_refl m : same_topology m m.
Proof. done. Qed.

(** a tuple that is sent back *)
Definition echo (bs : list byte) : Prop := word bs 1 = Ok Mock.RECEIVE_MESSAGE.

Lemma set_command_echo bs w :
  word bs 4 = Ok w →
  length (Mock.set_command Mock.RECEIVE_MESSAGE bs) = length bs ∧ echo (Mock.set_command Mock.RECEIVE_MESSAGE bs).
Proof.
  intros H. unfold word, memcpy_from in H. case_decide as Hl; [|done]. clear H.
  unfold echo, word, Mock.set_command, memcpy_from.
  rewrite !length_app, length_take, length_drop, le_bytes_length. split; [lia|].
  rewrite decide_True by lia. rewrite (drop_app_length' (take 8 bs)) by (rewrite length_take; lia).
  rewrite take_app_length' by by rewrite le_bytes_length. reflexivity.
Qed.

Lemma force_read_same bs m r m' :
  Mock.force_read bs m = Ok (r, m') →
  same_topology m m' ∧ ∃ ms, Mock.sent m' = Mock.sent m ++ ms ∧ Forall echo ms.
Proof.
  intros H. unfold Mock.force_read in H. apply asserting_ok in H as [_ H].
  apply res_bind_ok in H as (size & Hsize & H).
  destruct (Z.ltb_spec (8 * Z.of_nat Mock.max_length) (size + 8)) as [|Hmax] in H; [done|].
  apply asserting_ok in H as [Hl%Z.eqb_eq H]. apply res_bind_ok in H as ([code m1] & H & [= _ <-]).
  unfold Mock.handle_data in H. apply res_bind_ok in H as (c & Hc & H). cbn [snd].
  destruct (c =? Mock.NODE_RUN).
  { do 3 apply res_bind_ok in H as (? & _ & H). apply res_bind_ok in H as (l & _ & H).
    apply res_bind_ok in H as (? & _ & H). apply res_bind_ok in H as (l' & _ & [= _ <-]).
    split; [by split; try intros []|]. exists []. by rewrite app_nil_r. }
  destruct (c =? Mock.SET_COLOR).
  { apply res_bind_ok in H as (? & _ & [= _ <-]). split; [done|]. exists []. by rewrite app_nil_r. }
  destruct (c =? Mock.SEND_MESSAGE); [|done].
  do 2 apply res_bind_ok in H as (? & _ & H). apply res_bind_ok in H as (face & Hface & H).
  apply res_bind_ok in H as (target & _ & H). apply res_bind_ok in H as (m2 & Hm2 & H).
  apply activate_same in Hm2 as (Ht & Es & _). apply res_bind_ok in H as (size' & Hsize' & H).
  destruct (_ <=? _); [|done]. injection H as _ <-.
  split; [by apply (same_topology_trans m m2)|]. eexists. split; [cbn; by rewrite Es|].
  constructor; [|constructor]. destruct (set_command_echo _ _ Hface) as [El He].
  rewrite Hsize in Hsize'. injection Hsize' as <-.
  assert (Hw : wrap 64 (size + 8) = size + 8) by (apply wrap_id; unfold Mock.max_length in *; lia).
  rewrite Hw, take_ge by lia. exact He.
Qed.

Lemma next_node_same m r : Mock.get_next_node m = Ok r → same_topology m (snd r) ∧ Mock.sent (snd r) = Mock.sent m.
Proof.
  unfold Mock.get_next_node. intros H. apply res_bind_ok in H as (best & _ & H).
  destruct best as [[[? pos] node]|]; injection H as <-; [|done]. split; [|done]. by split; try intros [].
Qed.

Lemma write_to_socket_sent ws m m' : Mock.write_to_socket ws m = Ok m' → ∃ bs, Mock.sent m' = Mock.sent m ++ [bs].
Proof.
  unfold Mock.write_to_socket. intros H. apply res_bind_ok in H as (n & _ & H).
  destruct (_ <=? _); [|done]. injection H as <-. by eexists.
Qed.

Lemma set_neighbor_sent i side v m m' : Mock.set_neighbor i side v m = Ok m' → Mock.sent m' = Mock.sent m.
Proof. unfold Mock.set_neighbor. intros H. by apply res_bind_ok in H as (l & _ & [= <-]). Qed.

Lemma issue_sent e m m' : issue e m = Ok m' → ∃ bs, Mock.sent m' = Mock.sent m ++ [bs].
Proof.
  assert (Hsome : ∀ ws m1, Mock.write_to_socket ws m1 = Ok m' → Mock.sent m1 = Mock.sent m →
    ∃ bs, Mock.sent m' = Mock.sent m ++ [bs]) by (intros ws m1 H <-; by eapply write_to_socket_sent).
  destruct e; cbn [issue]; unfold Mock.write_add_neighbor, Mock.write_remove_neighbor, Mock.write_tap,
    Mock.write_accel, Mock.write_shake, Mock.write_run_node, Mock.write_stop; intros H;
    repeat match type of H with res_bind _ _ = Ok _ => apply res_bind_ok in H as (? & ? & H) end;
    repeat match goal with
    | H : Mock.activate_node _ _ _ = Ok _ |- _ => apply activate_same in H as (_ & ? & _)
    | H : Mock.set_neighbor _ _ _ _ = Ok _ |- _ => apply set_neighbor_sent in H
    end; (eapply Hsome; [exact H|cbn; congruence]).
Qed.

(** ** The messages under way

    The topology was that of [m0] when the scheduler's last message was made, and is that
    of [m] after those of [q]. *)
Fixpoint chain (m0 : Mock.mock) (q : list (option event * list byte)) (m : Mock.mock) : Prop :=
  match q with
  | [] => same_topology m0 m
  | (None, bs) :: q => echo bs ∧ chain m0 q m
  | (Some e, bs) :: q =>
      ∃ m1 m2, same_topology m0 m1 ∧ sensible threads e m1 ∧ issue e m1 = Ok m2 ∧
        Mock.sent m2 = Mock.sent m1 ++ [bs] ∧ chain m2 q m
  end.

Lemma chain_echoes m m' ms q : ∀ m0,
  chain m0 q m → same_topology m m' → Forall echo ms → chain m0 (q ++ map (pair None) ms) m'.
Proof.
  intros m0 Hc Ht Hms. revert m0 Hc. induction q as [|[[e|] bs] q IH]; intros m0 Hc; cbn [app chain] in *.
  - assert (H0 : same_topology m0 m') by by apply (same_topology_trans m0 m).
    clear Hc. by induction Hms.
  - destruct Hc as (m1 & m2 & ? & ? & ? & ? & Hc). exists m1, m2. split_and!; try done. by apply IH.
  - destruct Hc as [? Hc]. split; [done|by apply IH].
Qed.

Lemma chain_issue e bs m m' q : ∀ m0,
  chain m0 q m → sensible threads e m → issue e m = Ok m' → Mock.sent m' = Mock.sent m ++ [bs] →
  chain m0 (q ++ [(Some e, bs)]) m'.
Proof.
  intros m0 Hc Hs Hi Hsent. revert m0 Hc. induction q as [|[[e'|] bs'] q IH]; intros m0 Hc; cbn [app chain] in *.
  - exists m, m'. split_and!; try done. 
  - destruct Hc as (m1 & m2 & ? & ? & ? & ? & Hc). exists m1, m2. split_and!; try done. by apply IH.
  - destruct Hc as [? Hc]. split; [done|by apply IH].
Qed.

Lemma chain_echoes_only m q : ∀ m0, chain m0 q m → Forall (λ x, fst x = None) q → same_topology m0 m.
Proof.
  induction q as [|[[e|] bs] q IH]; intros m0 Hc Hq; [done|by apply Forall_cons in Hq as [? _]|].
  destruct Hc as [_ Hc]. apply Forall_cons in Hq as [_ Hq]. by apply IH.
Qed.

Definition in_step (w : world) : Prop := ∃ m0, agree m0 (scheduler w) ∧ chain m0 (unread w) (simulator w).

(** the scheduler reads what comes next *)
Lemma own_read e bs q m0 m s :
  agree m0 s → chain m0 ((Some e, bs) :: q) m →
  ∃ s' m1, read bs s = Ok (outcome e, s') ∧ agree m1 s' ∧ chain m1 q m.
Proof.
  intros Ha (m1 & m2 & Ht & Hs & Hi & Hsent & Hc).
  destruct (event_followed threads PROGRAM create_fn rtype_of upper e m1 m2 s) as (bs' & s' & Hsent' & Hr & Ha');
    [by apply (agree_same threads m0)|done|done|].
  rewrite Hsent in Hsent'. apply app_inj_2 in Hsent' as [_ [= <-]]; [|done]. by exists s', m2.
Qed.

Lemma echo_read bs m s x s' : agree m s → echo bs → read bs s = Ok (x, s') → agree m s'.
Proof.
  intros Ha He H. unfold read_message in H. apply asserting_ok in H as [_ H].
  apply res_bind_ok in H as (size & _ & H). destruct (_ <? size + 8); [done|]. apply asserting_ok in H as [_ H].
  unfold handle_message in H. rewrite He in H. cbn [res_bind] in H.
  change (Mock.RECEIVE_MESSAGE) with 13 in H. cbn [Z.eqb Pos.eqb] in H.
  do 4 apply res_bind_ok in H as (? & _ & H). unfold again in H. apply res_bind_ok in H as (s1 & H & [= _ <-]).
  unfold handle_receive_message in H. apply asserting_ok in H as [_ H].
  apply res_bind_ok in H as (origin & _ & H). apply res_bind_ok in H as (tid & _ & H).
  apply res_bind_ok in H as (n & Hn & H). apply res_bind_ok in H as ([[m1 stpl] pos] & _ & [= <-]).
  apply (agree_given threads m (set_mem m1 s) tid n _ [stpl]); [by apply (agree_rest m s)|done|apply given_insert].
Qed.

Lemma perform_in_step a w w' : in_step w → allowed a w → perform a w = Ok w' → in_step w'.
Proof.
  destruct w as [m s q k]. intros (m0 & Ha & Hc) Hal H. unfold in_step.
  destruct a as [e| | | |now now'| |id now|src work|now src work d|id r g b|i mem']; cbn in *.
  - apply res_bind_ok in H as (m' & H & [= <-]). destruct (issue_sent _ _ _ H) as (bs & E).
    exists m0. split; [done|]. cbn. rewrite E, drop_app_length. by eapply chain_issue.
  - apply res_bind_ok in H as (r & H & [= <-]). destruct (next_node_same _ _ H) as [Ht E].
    exists m0. split; [done|]. cbn. rewrite E, drop_all. by apply (chain_echoes m _ []).
  - apply res_bind_ok in H as (bs & _ & H). apply res_bind_ok in H as ([b m'] & H & [= <-]).
    destruct (force_read_same _ _ _ _ H) as (Ht & ms & E & He). exists m0. split; [done|]. cbn.
    rewrite E, drop_app_length. by apply (chain_echoes m).
  - destruct q as [|[[e|] bs] q]; [injection H as <-; by exists m0| |].
    + destruct (own_read _ _ _ _ _ _ Ha Hc) as (s1 & m1 & E & Ha1 & Hc1). rewrite E in H.
      injection H as <-. by exists m1.
    + apply res_bind_ok in H as ([x s1] & H & [= <-]). destruct Hc as [He Hc]. exists m0.
      split; [by eapply echo_read|done].
  - apply res_bind_ok in H as (s1 & H & [= <-]). exists m0. split; [by eapply idle_agree|done].
  - apply res_bind_ok in H as (s1 & H & [= <-]). exists m0. split; [by eapply answer_agree|done].
  - apply res_bind_ok in H as ([ls s1] & H & [= <-]). exists m0. split; [by eapply gather_agree|done].
  - apply res_bind_ok in H as (s1 & H & [= <-]). exists m0. split; [by eapply new_work_agree|done].
  - apply res_bind_ok in H as (s1 & H & [= <-]). exists m0. split; [by eapply delay_agree|done].
  - apply res_bind_ok in H as (s1 & H & [= <-]). exists m0. split; [by eapply color_agree|done].
  - injection H as <-. exists m0. split; [by apply (agree_rest m0 s)|done].
Qed.

Lemma perform_all_in_step l : ∀ w w', in_step w → all_allowed l w → perform_all l w = Ok w' → in_step w'.
Proof.
  induction l as [|a l IH]; intros w w' Hw Hl H; cbn [perform_all all_allowed] in *; [by injection H as <-|].
  apply res_bind_ok in H as (w1 & H1 & H). destruct Hl as [Ha Hl].
  apply (IH w1); [by eapply perform_in_step|by apply Hl|done].
Qed.

(** both after the start, which the scheduler has read *)
Definition begun (m : Mock.mock) (s : sim_sched) : world := mk_world m s [] (length (written s)).

(** C23: The scheduler follows the topology of the simulator.  Both are started, with
    threads or without, and then do in any order what they do: events of the simulator,
    which gives nodes of its own as neighbours, removes neighbours that it has and runs
    nodes only without threads; reads of each other's messages, the scheduler's answers
    and what the engine asks of it.  Whenever the next message that the scheduler has to
    read is one of the simulator's events, it reads it without an error, and returns the
    node, stops or goes on as the event demands; and whenever it has read all events, its
    nodes have at their faces the neighbours that the simulator has for them.  Nothing is
    said of the reading of a tuple that the simulator sends back. *)
Theorem mock_topology db mem0 n now s0 p m1 :
  sim_init PROGRAM n now (new_sim_sched db mem0) = Ok s0 →
  max_node_id db = 0 → max_translated_id db = 0 → get_init_predicate PROGRAM None = Ok p →
  start threads = Ok m1 →
  ∃ s1, loop (Message <$> Mock.sent m1) s0 = Ok (None, s1) ∧
    ∀ l w, perform_all l (begun m1 s1) = Ok w → all_allowed l (begun m1 s1) →
     (∀ e bs q, unread w = (Some e, bs) :: q → ∃ s', read bs (scheduler w) = Ok (outcome e, s')) ∧
     (Forall (λ x, fst x = None) (unread w) →
      ∀ id, 0 <= id < Mock.total_nodes (simulator w) → ∃ n, sim_of id (scheduler w) = Ok n ∧
        ∀ side, ∃ v, Mock.get_neighbor id side (simulator w) = Ok v ∧
          face_of (Mock.face_number side) n = if v =? -1 then NO_NEIGHBOR else v).
Proof.
  intros Hi Hm Ht Hp Hst.
  destruct (start_followed threads PROGRAM create_fn rtype_of upper m1 s0 p) as (s1 & L & A);
    [by eapply init_made|done|done|].
  exists s1. split; [exact L|]. intros l w Hl Hal.
  destruct (perform_all_in_step l (begun m1 s1) w) as (m0 & Ha & Hc); [by exists m1|done|done|].
  split.
  { intros e bs q E. rewrite E in Hc. destruct (own_read _ _ _ _ _ _ Ha Hc) as (s' & ? & Hr & _). by exists s'. }
  intros Hq id Hid. apply (agree_same threads m0 (simulator w)) in Ha; [|by apply (chain_echoes_only _ (unread w))].
  destruct (agree_nodes _ _ _ Ha id Hid) as (n' & Hn & Hf). exists n'. split; [done|]. intros side.
  destruct (Hf side) as (v & Hv & Hb & Hface). exists v. split; [done|]. rewrite Hface.
  pose proof (agree_total _ _ _ Ha). destruct (Z.eqb_spec v (-1)) as [->|]; [done|]. apply wrap_id. lia.
Qed.
End Talk.

(** ** The deterministic loop of [main], up to its topology *)

(** a check of [all_allowed] *)
Definition sensibleb (threads : bool) (e : event) (m : Mock.mock) : bool :=
  match e with
  | AddNeighbor _ out _ => (0 <=? out) && (out <? Mock.total_nodes m)
  | RemoveNeighbor in_ side =>
      match Mock.get_neighbor in_ side m with Ok v => negb (v =? -1) | Err _ => true end
  | RunNode _ => negb threads
  | _ => true
  end.

Lemma sensibleb_ok threads e m : sensibleb threads e m = true → sensible threads e m.
Proof.
  destruct e as [? out ?|in_ side| | | |id|]; try done; cbn [sensible sensibleb]; intros H.
  - apply andb_true_iff in H as [?%Z.leb_le ?%Z.ltb_lt]. lia.
  - intros E. by rewrite E in H.
  - by apply negb_true_iff in H.
Qed.

Abbreviation act := (perform sim_program (new_node 4 []) (λ _, HEAP_INT_ASC) 0 elements).
Abbreviation act_all := (perform_all sim_program (new_node 4 []) (λ _, HEAP_INT_ASC) 0 elements).

Fixpoint allowedb (threads : bool) (l : list action) (w : world) : bool :=
  match l with
  | [] => true
  | a :: l =>
      match a with Issues e => sensibleb threads e (simulator w) | _ => true end &&
      match act a w with Ok w => allowedb threads l w | Err _ => true end
  end.

(** a node is run and answers *)
Definition node_runs (node : Z) : list action :=
  [Chooses; Issues (RunNode node); Reads; Gathers node 0; Answers; Takes].

(** a tuple that a node made for itself, later, comes to the simulator, which then does [es];
    the scheduler reads the tuple and the events *)
Definition tuple_returns (node now : Z) (es : list event) : list action :=
  [Delays now (Some node) (mk_work node sample_fact) 5; Idles (now + 10) (now + 10); Takes] ++
  (Issues <$> es) ++ replicate (S (length es)) Reads.

(** the events of [main] *)
Definition first_event : event := AddNeighbor 0 1 Mock.TOP.

Definition second_events : list event :=
  [RemoveNeighbor 0 Mock.TOP; AddNeighbor 0 1 Mock.EAST; AddNeighbor 1 0 Mock.WEST;
   AddNeighbor 1 2 Mock.BOTTOM; AddNeighbor 2 1 Mock.TOP; AddNeighbor 1 4 Mock.EAST;
   AddNeighbor 4 1 Mock.WEST; AddNeighbor 1 3 Mock.TOP; AddNeighbor 3 1 Mock.BOTTOM;
   AddNeighbor 3 5 Mock.TOP; AddNeighbor 5 3 Mock.BOTTOM].

Definition det_actions : list action :=
  mjoin (node_runs <$> [0; 1; 2; 3; 4; 5]) ++ tuple_returns 3 0 [first_event] ++
  node_runs 3 ++ node_runs 0 ++ tuple_returns 4 20 second_events.

Definition begun_of (threads : bool) : world :=
  match start threads with
  | Ok m =>
      match master_loop sim_program (new_node 4 []) (λ _, HEAP_INT_ASC) 0 (Message <$> Mock.sent m) connected with
      | Ok (_, s) => begun m s
      | Err _ => begun m connected
      end
  | Err _ => begun Mock.new_mock connected
  end.

Definition det_end : world :=
  match act_all det_actions (begun_of false) with Ok w => w | Err _ => begun_of false end.

(** ten rounds of the loop, which reads what the scheduler wrote *)
Fixpoint det_rounds (n : nat) (x : Z) (later : list (list byte)) (m : Mock.mock) : res (Z * Mock.mock) :=
  match n with
  | O => Ok (x, m)
  | S n =>
      let* r := Mock.det_round x [] later m in
      match fst r with
      | Some (x, later) => det_rounds n x later (snd r)
      | None => Err undefined_behaviour
      end
  end.

(** what the simulator does here is its [main] *)
Example det_end_rounds :
  det_rounds 10 0 (written (scheduler det_end)) (simulator (begun_of false)) = Ok (2, simulator det_end).
Proof. vm_compute. reflexivity. Qed.

(** ** The loop with threads *)

(** the scheduler reads later than the simulator writes, and all nodes are instantiated
    in between *)
Definition threads_actions : list action :=
  (Issues <$> [Accelerated 0 2; Shaken 0 1 2 3; first_event]) ++ [Reads; Idles 1000 1000; Gathers 1 0] ++
  (Issues <$> second_events) ++ replicate 9 Reads ++ [Gathers 0 0; Idles 2000 2000; Issues (Tapped 1)] ++
  replicate 5 Reads ++ [Gathers 1 0; Issues Stop; Reads].

Definition threads_end : world :=
  match act_all threads_actions (begun_of true) with Ok w => w | Err _ => begun_of true end.

(** five rounds of the loop *)
Example threads_end_rounds :
  (let* r := Mock.threads_round 0 None [] (simulator (begun_of true)) in
   let* r := Mock.threads_round 1 None [] (snd r) in
   let* r := Mock.threads_round 2 None [] (snd r) in
   let* r := Mock.threads_round 3 None [] (snd r) in
   Mock.threads_round 4 None [] (snd r)) = Ok (5, true, simulator threads_end) ∧
  length (unread threads_end) = 0%nat ∧ stop_all (flags (scheduler threads_end)) = true.
Proof. vm_compute. done. Qed.

Lemma allowedb_ok threads l : ∀ w,
  allowedb threads l w = true →
  all_allowed threads sim_program (new_node 4 []) (λ _, HEAP_INT_ASC) 0 elements l w.
Proof.
  induction l as [|a l IH]; intros w H; [done|]. cbn [allowedb all_allowed] in *.
  apply andb_true_iff in H as [H1 H2]. split.
  - destruct a; try done. by apply sensibleb_ok.
  - intros w' E. rewrite E in H2. by apply IH.
Qed.

Lemma same_end {A} (r : res (option A * sim_sched)) s s' : r = Ok (None, s) → r = Ok (None, s') → s = s'.
Proof. congruence. Qed.

Lemma mock_topology_witness :
  unread det_end = [] ∧
  ∀ id, 0 <= id < Mock.total_nodes (simulator det_end) → ∃ n, sim_of id (scheduler det_end) = Ok n ∧
    ∀ side, ∃ v, Mock.get_neighbor id side (simulator det_end) = Ok v ∧
      face_of (Mock.face_number side) n = if v =? -1 then NO_NEIGHBOR else v.
Proof.
  assert (Hu : unread det_end = []) by (vm_compute; reflexivity). split; [exact Hu|].
  destruct (get_init_predicate sim_program None) as [p|] eqn:E; [|vm_compute in E; discriminate E].
  destruct (mock_topology false sim_program (new_node 4 []) (λ _, HEAP_INT_ASC) 0 elements empty_database
    empty_memory 1 0 connected p (simulator (begun_of false))) as (s1 & L & H);
    [vm_compute; reflexivity|reflexivity|reflexivity|exact E|vm_compute; reflexivity|].
  assert (L' : master_loop sim_program (new_node 4 []) (λ _, HEAP_INT_ASC) 0
    (Message <$> Mock.sent (simulator (begun_of false))) connected = Ok (None, scheduler (begun_of false)))
    by (vm_compute; reflexivity).
  rewrite (same_end _ _ _ L L') in H. clear L L' s1.
  assert (Hr : act_all det_actions (begun (simulator (begun_of false)) (scheduler (begun_of false))) = Ok det_end)
    by (vm_compute; reflexivity).
  destruct (H det_actions det_end Hr) as [_ Hend]; [apply allowedb_ok; vm_compute; reflexivity|].
  apply Hend. rewrite Hu. constructor.
Defined.
